(* ===== verification/_CoqProject ===== *)
-Q . S2P
Prelude.v
Ids.v
Kernel.v
Packs.v
Ontology.v
StorageTypes.v
Graph.v
Reads.v
Leases.v
Ingest.v
Governed.v
Cycles.v
Storage.v
Interleaving.v
Bounds.v
Wire.v
Cluster.v
Sync.v
Sse.v
Wal.v
Snapshot.v
Interned.v
Slots.v
Cache.v
CacheSpec.v
CacheReads.v
SearchIndex.v
ShippedPacks.v
Entities.v
IngestTypes.v
Grouping.v
IngestService.v
IngestCommit.v
Registration.v
IngestSpec.v
CommitSpec.v
SubmitSpec.v
RingSpec.v
RegistrationSpec.v
Split.v
SplitSpec.v
LocalRules.v
LocalSpec.v
Session.v
SessionSpec.v
Drain.v
DrainSpec.v
DrainServer.v
Materialize.v
MaterializeSpec.v
EntityResolution.v
ResolutionSpec.v
Mcr2.v
Consolidation.v
ConsolidationSpec.v
Discovery.v
DiscoverySpec.v
DreamsCycle.v
DreamsInv.v
DreamsSpec.v
Trigger.v
DreamsLoop.v
Effects.v
Rules.v
Reasoning.v
HarvestSpec.v
ReasoningSpec.v
PassSpec.v
Demo.v
FeedDemo.v
Witnesses.v
FeedWitnesses.v
CacheDemo.v
CacheWitnesses.v
ReasoningWitnesses.v
IngestDemo.v
IngestWitnesses.v
SdkWitnesses.v
DrainWitnesses.v
DreamsWitnesses.v
