(* ===== verification/Prelude.v ===== *)
(** * Exocortex: a verification library

    Exocortex is a memory graph for agents: typed, versioned memories and the relationships
    between them, written by many producers, read under visibility labels, and curated by
    background owner cycles.  This library models its core: the kernel
    ([crates/exocortex-kernel/src]), the storage seam with its in-memory backend
    ([crates/exocortex-storage/src]), the path of a change from there to a client (the wire
    messages, the cluster node, the server's change feed, the client's sync, its write-ahead log
    and its cache of resident graphs), and the path of a producer's batch into the store: the
    adapter's session, the ingest service, the post-ingest effects, the reasoning engine and the
    Dreams engine that consolidates regions; beside them, the resolution of entities.

    ** The parts and where they are modelled

    - [Prelude]: results and the [?] operator ([let?], [ensure]), machine integers with their
      wrap-around, little-endian bytes and prefix-free encodings, hash-map iteration as an
      unspecified order ([HashOrder]), derived comparisons ([Comparable]) and sorting by key,
      and tables of version stacks ([versions], [current], [entry_push]).
    - [Ids] ([ids.rs]): memory, relationship and entity identities as the bytes they hash, hex,
      LSNs.
    - [Kernel] ([visibility.rs], [kinds.rs], [provenance.rs], [memory.rs], [relationship.rs],
      [entity.rs], [draft.rs], [error.rs]): the data model with every field, label order, kind
      handles, tags.
    - [Packs] ([pack.rs], [compatibility.rs]): pack definitions, their canonical form, summaries,
      the bytes of the compatibility fingerprint, the subset test and the divergence report.
    - [Ontology] ([ontology.rs], [validator.rs], [materialize_inverse], [compatibility.rs]): the
      assembly of packs, the draft validator, the inverse companion of an edge, pins and the
      node, producer, peer and backup admission rules.
    - [StorageTypes] ([types.rs], [trait_.rs]): the seam's data, the merge of rollback journals
      and the one visibility decision.
    - [Graph], [Reads], [Leases], [Ingest], [Governed], [Cycles] ([in_memory.rs]): the six
      components of the backend.  [Graph] is the versioned tables, the endpoint index, the LSN
      counter and the change feed with the plain writes; [Reads] the read half; [Leases] the
      lease table and the fence; [Ingest] exactly-once batches and the effect outbox; [Governed]
      audited writes, discoveries, proposals and their acceptance; [Cycles] fenced and journaled
      cycles, rollback and settlement.
    - [Storage] ([in_memory.rs]): the components as one [Store], every mutation as an [Op] run to
      completion by [exec], and its critical section under [mutation_gate] by [gate];
      [exec_gate] says the first is the second followed by its publications.
    - [Interleaving]: concurrent callers as a step relation over critical sections and
      publications.
    - [Bounds] ([bounded_io.rs], [fork_window.rs]): bounded output and the hold window.
    - [Wire] ([exocortex-wire]: [transport.rs], [signing.rs], [limits.rs]; [exocortex-server]'s
      hex keys): base64, the messages of the feed and of ingest, their signatures and bounds, the
      canonical checksum of a batch.
    - [Cluster] ([exocortex-cluster/src/lib.rs]): the node's bounded change log and its replay,
      envelopes, what a node lets in, publication and the supervised feed.
    - [Sse] ([exocortex-server/src/sse.rs]): live-stream admission, the hydration cache, the
      preparation of an event for one subscriber, the authoritative image, the stream and the
      handler of the feed.
    - [Sync] ([exocortex-client/src/sync.rs]): the LSN gate, the bounded event-stream parser,
      event decoding and the reconnecting loop.
    - [Wal] ([exocortex-client/src/wal.rs]): the client's write-ahead log over an ordered tree.
    - [Snapshot], [Interned], [Slots], [Cache], [CacheSpec], [CacheReads], [SearchIndex]
      ([exocortex-cache/src/lib.rs]): the resident graph and its indexes with the build from a
      storage's streams; tags behind interned handles against the same index keyed by tags;
      publication through recycled snapshots; the cache with 2Q admission and its one writer; what
      a burst, an admission and an acknowledgement promise; point reads and the traversal; the
      search arena and the text search.
    - [ShippedPacks] ([exocortex-pack-dev-v1], [exocortex-pack-mortgage-v1], [macros.rs]): the pack
      macro and the two packs that go through it.
    - [Rules], [Reasoning] ([exocortex-reasoning/src]: [rules.rs], [engine.rs]): the rule program as
      joins over finite sets; the bounded harvest, the derived rows, the write-back under an
      operation key and the work queue.  [HarvestSpec], [ReasoningSpec], [PassSpec]: what the
      harvest gathers, what the rules derive, and a pass end to end.
    - [Entities] ([exocortex-ingest/src/entities.rs]): the table of patterns, extraction and the
      entities of a memory.
    - [IngestTypes], [Grouping], [IngestService], [IngestCommit], [Registration]
      ([exocortex-ingest/src]: [service.rs], [grouping.rs], [demand.rs], [embedding.rs]): acks and
      source entries; the grouping node of a session; admission, the validation of drafts and the
      dry run; embeddings, materialization, the commit, hints, similarity seeding, [submit], its
      stream and the reindex; registration with its file and the validation manifest.
      [IngestSpec], [CommitSpec], [SubmitSpec], [RingSpec], [RegistrationSpec]: what each of
      them guarantees, over any store that implements [IngestStore] or over the in-memory one.
    - [Trigger] ([exocortex-dreams/src]: [trigger.rs] and the counters of [lib.rs]) and [Effects]
      ([service.rs]): write counters, the queue of regions and the completion of a cycle; the
      worker that claims an effect, tells it to the counters and to the reasoning worker,
      acknowledges it and forgets it.
    - [Split], [LocalRules], [Session] ([exocortex-adapter-sdk/src]: [split.rs], [manifest.rs],
      [classify.rs], [retry.rs], [lib.rs]): the split of a unit into batches that are closed under
      their edges; an adapter's verdicts over the manifest its server compiles, and the triage of a
      reject; the handshake, the batches of a window, their submission with its retries, the dry
      run and the durable cursor.  [SplitSpec], [LocalSpec], [SessionSpec]: what they promise.
    - [Drain], [Materialize] ([exocortex-client/src]: [drain.rs], [materialize.rs]): the batch an entry of
      the log is rebuilt into, the pass that submits and marks, and the passes until nothing is left; the
      rows and edges a client without a backend serves of its log.  [DrainSpec], [MaterializeSpec]: what a
      drain promises over a durable service, and the served graph; [DrainServer]: the drain against a
      node of the ingest service.
    - [EntityResolution] ([exocortex-entity-resolution/src/lib.rs]): comparators, blocking, the
      comparison vector, estimation, scoring, decision and evaluation; [ResolutionSpec]: what they
      promise.
    - [Mcr2], [Consolidation], [Discovery], [DreamsCycle], [DreamsLoop] ([exocortex-dreams/src]:
      [mcr2.rs], [lib.rs]): the coding rate, merge candidates and sparsity; what a cycle plans on its
      working set - merges, abstractions, strengthened and similar edges, the journal that prepares
      them; the finders of proposals; the cycle as a program over the store, with an environment that
      acts before each of its calls, its compensation and its recovery; the renewal of its lease and
      the turn of the loop.  [ConsolidationSpec], [DiscoverySpec], [DreamsInv], [DreamsSpec]: what the
      plans and the finders promise, the rows that no journal owns, and the cycle as a transaction
      on them.
    - [Demo], [FeedDemo], [CacheDemo], [IngestDemo]: concrete instances; [Witnesses],
      [FeedWitnesses], [CacheWitnesses], [ReasoningWitnesses], [IngestWitnesses], [SdkWitnesses],
      [DrainWitnesses], [DreamsWitnesses]: the properties evaluated on them.

    A line of the form "SRC file first-last symbol" before a definition names the code it
    translates.

    ** How the state and the operations correspond to the code

    Rust's [Mutex]-protected maps are [gmap]s in records; a handler is a function from the state
    to the state and its result, with the code's guards and early returns in the code's order.
    [Vec]s are lists, [HashSet]s and [BTreeSet]s are [gset]s, [u8]/[u16]/[u32]/[u64] are [Z] with
    wrapping, saturating or truncating arithmetic written out, [f32] is IEEE binary32
    ([SpecFloat]), [DateTime] and [Instant] are nanoseconds.  A function that reads a clock takes
    it as an argument: [clk i] is the call's [i]-th reading, and nothing is assumed of successive
    readings.  Errors are the code's error types, their messages included.

    The graph is abstracted as an append-only log: [append] writes one row at the next LSN,
    [graph_step] is one elementary change, and the handlers are proved to be sequences of such
    steps ([upsert_batch_spec], [accept_discovery_spec], [gate_gsteps]).  Soundness
    ([graph_ok]: every history non-empty, of its own row, stamped with increasing LSNs, no LSN
    shared by two rows) and extension ([graph_extends]) are proved once on the steps.

    ** What the theorems show

    - Writes: batches are atomic, ordered and gap-free and hold every row and companion; history
      is append-only; every mutation, under any interleaving, leaves sound tables, and an index
      and a feed that miss nothing once publications settle.
    - Reads: exact answers of the region, entity, frontier and bi-temporal reads, for every order
      a hash map may be enumerated in; no row shown outside a caller's visibility.
    - Coordination: fencing and exclusivity of leases, exactly-once ingest, one effect in delivery
      at a time, one acceptance per proposal, one settlement per cycle, complete rollback.
    - The feed: a subscriber of the server decodes only rows its principal may see, from the
      stored version to the client's decoder; no stream exceeds the per-server or per-principal
      limit; a node's replay is exactly the suffix after the cursor or a demand to reseed; a
      client applies rows in LSN order with no gap, whatever the server sends; events survive
      framing and parsing, and the parser's memory stays within its ceiling.
    - The write-ahead log: the tree implements an append-only list of entries with marks; a keyed
      append takes effect once; an import is all or nothing; appends respect the byte budget.
    - The cache: a graph built from streams is the last live row of every identity; changes to
      one graph, applied through any recycling of retired snapshots, are the same changes applied
      once in sequence; a burst of events applies whole or not at all and moves the frontier; the
      byte account is exact and the budget is kept; every sender is answered once; reads,
      traversal and search show exactly the visible rows they promise.
    - Reasoning: a pass never panics, reads a bounded neighbourhood, and writes once, under its key,
      exactly what the rules derive, no more visible than what it stands on; a durable wrap-up takes
      effect once; the shipped packs assemble in any order to a well-typed ontology.
    - Ingest: a submission is refused without a trace or hands one commit sound rows of a
      registered source; it takes effect once; a dry run agrees with it; what the server
      remembers is bounded; registration changes nothing that is already registered but by new
      columns, and a damaged registry file refuses everything; an effect is acknowledged only
      after its consumers were told, and no write is lost between the counters and the cycles.
    - The adapter: a window's rows are batched once each, every batch closed under its edges and
      within the limits; batches settle in order before the cursor moves, and a failed window moves
      nothing; the adapter's own verdicts are the server's for everything the manifest states.
    - The client's log without and with a backend: what is served of it is a closed graph whose edges are
      admitted and no more visible than their ends; a drain marks an entry as delivered only when the
      service has committed its batch, whatever answers are lost, and ends with nothing pending; the
      session node the client served is the one the service makes of the drained batch.
    - Dreams: a cycle is a transaction whatever interferes with it: settled, it loses no row and
      leaves nothing to recover; failed, crashed or superseded, it leaves its journal or the rows it
      found; recovery restores them; the counters of a region go down exactly when its cycle settled.
      The lease is renewed in time and given up while a rollback is still fenced.  A merge detaches
      the row it closes; an abstraction is as visible as its members; the two-hop finder is its
      specification within its budget; scoring is total on sets of one model.
    - Entity resolution: the candidates are exactly the pairs that share a blocking key; comparison,
      scoring and evaluation never panic.
    - Identity and compatibility: identities and fingerprints are unambiguous up to a collision
      of the hash; assembly is independent of registration order and keeps the meaning of ids and
      triples; a subset keeps the meaning of a pinned graph; admission settles.
    - Behaviour that departs from the comments: separators in identities, [u8] type ids beyond
      256 types, divergence reports with exchanged arguments, the first arming of the hold window,
      the journal of a completed cycle, the account after an evict message, the entity of a file,
      hints that disclose a title, the ceiling of a public source in the manifest, effects counted
      twice by the local counters, edges to stored memories that the adapter cannot send, rewinds
      within a window, names made of legal suffixes only, merges across scopes, strength that
      compounds, batch ids shared by two sessions, edges to earlier entries that a drain loses.

    ** Bounds

    Recursion is structural over the data or over a finite script of what the environment does (the
    bytes a server sends, the chunks it is cut into, the outcomes of a supervised task).  Three
    loops of the cache take fuel and are proved to end within it: eviction ([evict_fuel], the
    entries of its queues), traversal (the nodes of the graph, since every node is queued once) and
    the search scan (the bytes of the arena, since every match moves past itself).  The walk to a
    component's root takes the size of the forest, and the shrinking budget of a window [budget_fuel]
    steps, a seventeenth of the batch limit, since every step takes at least seventeen bytes off.  A storage call is attempted [MAX_ATTEMPTS] times and a batch [max_attempts] times,
    as in the code.  A drain makes one pass for each pause it is given.  A Dreams cycle has no fuel: it makes finitely many calls; a call that would take
    an LSN past 64 bits leaves its model ([Exhausted]).  The LSN counter wraps at 2^64 in the code and in
    the model; theorems about writes assume [room n g], space for the [n] LSNs the operation can
    take, and [cost] gives that number for every mutation.  Lease epochs and delivery generations
    are bounded in the same way.

    ** Parameters

    Libraries the source calls are interfaces: BLAKE3 ([Blake3]) and SHA-256 ([Sha256]) with the
    length of their digests and nothing else (collisions are explicit in the statements),
    [bincode] ([Bincode]), [serde_json] ([SerdeJson], [SerdePin], [DiscoveryJson]), [chrono]'s
    printer ([Chrono]), hash-map iteration ([HashOrder]), [prost] ([Message], a class with a round
    trip), HMAC-SHA256 ([Hmac]), [serde_json] on rows and log entries ([RowJson], [WalJson]),
    [petgraph] ([StableGraph]), [lasso] ([Interner]), [lru] ([LruCache], [Lru]), the lower-case table
    of Unicode ([Unicode]), [regex] ([Regex]), [chrono]'s timestamps ([FromTimestamp]), the
    natural logarithm ([Ln]) and the embedding model (the record [Embedder]).  What others do during a
    Dreams cycle is a script of [Event]s, one for each of its calls.
    [RowSource] is the reads that hydrate a cache, of which the in-memory store is an instance, and
    [TagIndex] the interface of the tag index, implemented by handles and by plain tags.
    [RowReader] is the interface between the feed and a store: the server's theorems are proved
    against it and [in_memory_reader] discharges it; [ReasoningStore], [IngestStore] and
    [EffectOutbox] are the same for the reasoning engine, the ingest service and the effect worker,
    and [WriteSink] is what that worker needs of the counters.  [Backend] is the service as a client sees
    it; [durable] is what the drain relies on, and [node_durable] discharges it for a node of the ingest
    service behind a channel that drops calls and answers.  The demo files instantiate all of
    them but the JSON parser and printer of a pin.

    ** Not modelled

    The Falkor backend and its Cypher (database I/O), fault injection under the [testing] feature,
    mutex poisoning, [chrono]'s range panics, Unicode beyond ASCII in tag normalization, random
    identities, and the feed subscription's lag; [sled]'s and HTTP's I/O failures below the calls
    modelled, time-outs, delays and metrics; the Redis scripts of [fire.rs], whose commands are a
    service.  Two requests of the ingest service interleave only at the store: a handler's own state
    is threaded through it whole.  A Dreams cycle interleaves with other writers at its calls, and no other
    cycle of its lease runs meanwhile.  The pauses of a drain and its bearer token are left out, and the backup operations
    have no model.  Process, file
    and HTTP glue (the servers' and the client's [main.rs], the third-party adapters, [xtask]) is left
    out. *)

From Stdlib Require Export Ascii String.
From stdpp Require Export base tactics option list list_numbers strings gmap fin_maps sorting.
From Stdlib Require Export ZArith Lia SpecFloat.

#[export] Set Warnings "-clear-no-such-hyp,-register-all".

Declare Scope exo_scope.
Delimit Scope exo_scope with exo.
Global Open Scope Z_scope.

(** ** Results: [Result<T, E>] and the [?] operator *)

Inductive result (A E : Type) : Type :=
  | Ok (a : A)
  | Err (e : E).
Arguments Ok {A E} a.
Arguments Err {A E} e.

Definition result_bind {A B E} (c : result A E) (k : A → result B E) : result B E :=
  match c with Ok a => k a | Err e => Err e end.

Definition ok_or {A E} (o : option A) (e : E) : result A E :=
  match o with Some a => Ok a | None => Err e end.

Definition is_ok {A E} (c : result A E) : bool :=
  match c with Ok _ => true | Err _ => false end.

Notation "'let?' p := c 'in' k" := (result_bind c (λ p, k))
  (at level 10, p pattern, c at level 100, k at level 200,
   format "'[v' 'let?'  p  :=  c  'in' '/' k ']'") : exo_scope.
Notation "'ensure' b 'else' e 'in' k" := (if b then k else Err e)
  (at level 10, b at level 100, e at level 100, k at level 200,
   format "'[v' 'ensure'  b  'else'  e  'in' '/' k ']'") : exo_scope.
Global Open Scope exo_scope.

#[global] Instance result_eq_dec {A E} `{EqDecision A, EqDecision E} : EqDecision (result A E).
Proof. solve_decision. Defined.

Lemma result_bind_ok {A B E} (c : result A E) (k : A → result B E) b :
  result_bind c k = Ok b ↔ ∃ a, c = Ok a ∧ k a = Ok b.
Proof. destruct c; naive_solver. Qed.

(** ** Tactics of the development *)

(** Split every [match]/[if] whose scrutinee is in a hypothesis or the goal,
    keeping the equation, and simplify. *)
Ltac break :=
  repeat match goal with
  | H : context [match ?x with _ => _ end] |- _ => destruct x eqn:?; simplify_eq/=
  | |- context [match ?x with _ => _ end] => destruct x eqn:?; simplify_eq/=
  end.

Ltac break_hyp H :=
  repeat match type of H with
  | context [match ?x with _ => _ end] => destruct x eqn:?; simplify_eq/=
  end.

(** Turn boolean tests into propositions. *)
Ltac bool_prop :=
  repeat match goal with
  | H : (_ && _)%bool = true |- _ => apply andb_true_iff in H as [? ?]
  | H : (_ || _)%bool = false |- _ => apply orb_false_iff in H as [? ?]
  | H : negb _ = true |- _ => apply negb_true_iff in H
  | H : negb _ = false |- _ => apply negb_false_iff in H
  | H : bool_decide _ = true |- _ => apply bool_decide_eq_true in H
  | H : bool_decide _ = false |- _ => apply bool_decide_eq_false in H
  | H : (_ <? _)%Z = true |- _ => apply Z.ltb_lt in H
  | H : (_ <? _)%Z = false |- _ => apply Z.ltb_ge in H
  | H : (_ <=? _)%Z = true |- _ => apply Z.leb_le in H
  | H : (_ <=? _)%Z = false |- _ => apply Z.leb_gt in H
  | H : (_ =? _)%Z = true |- _ => apply Z.eqb_eq in H
  | H : (_ =? _)%Z = false |- _ => apply Z.eqb_neq in H
  end.

(** The databases every component extends: [exo] for rewriting and resolution. *)
Create HintDb exo.
Create Rewrite HintDb exo.

(** ** Machine integers

    A w-bit unsigned integer is a [Z]; every arithmetic step that can leave the
    range names its behaviour: wrapping, saturating or truncating ([as]). *)

Definition wrap (w x : Z) : Z := x `mod` 2 ^ w.
Definition in_range (w x : Z) : Prop := 0 ≤ x < 2 ^ w.
Definition u64_add (x y : Z) : Z := wrap 64 (x + y).
Definition u64_saturating_add (x y : Z) : Z := Z.min (2 ^ 64 - 1) (x + y).
Definition u8_saturating_add (x y : Z) : Z := Z.min 255 (x + y).
Definition as_u8 (x : Z) : Z := wrap 8 x.
Definition as_u32 (x : Z) : Z := wrap 32 x.

Lemma wrap_small w x : in_range w x → wrap w x = x.
Proof. intros ?. by apply Z.mod_small. Qed.

Lemma wrap_range w x : 0 ≤ w → in_range w (wrap w x).
Proof. intros ?. apply Z.mod_pos_bound. by apply Z.pow_pos_nonneg. Qed.

Lemma u64_add_small x y : 0 ≤ x → 0 ≤ y → x + y < 2 ^ 64 → u64_add x y = x + y.
Proof. intros. apply wrap_small. unfold in_range. lia. Qed.

(** [uN::to_le_bytes]. *)
Fixpoint le_bytes (n : nat) (x : Z) : list Z :=
  match n with
  | O => []
  | S n => x `mod` 256 :: le_bytes n (x / 256)
  end.

Lemma length_le_bytes n x : length (le_bytes n x) = n.
Proof. revert x. induction n; intros; simpl; auto. Qed.

(** A list of bytes. *)
Definition bytes_ok (l : list Z) : Prop := Forall (λ b, 0 ≤ b < 256) l.
#[global] Instance bytes_ok_dec l : Decision (bytes_ok l).
Proof. unfold bytes_ok. apply _. Defined.

Lemma le_bytes_ok n x : bytes_ok (le_bytes n x).
Proof.
  revert x. induction n as [|n IH]; intros x; simpl; constructor; [|apply IH].
  by apply Z.mod_pos_bound.
Qed.

Lemma le_bytes_inj n x y :
  0 ≤ x < 256 ^ Z.of_nat n → 0 ≤ y < 256 ^ Z.of_nat n →
  le_bytes n x = le_bytes n y → x = y.
Proof.
  revert x y. induction n as [|n IH]; intros x y Hx Hy Heq.
  - change (256 ^ Z.of_nat 0) with 1 in *. lia.
  - simpl in Heq. injection Heq as Hm Hd.
    rewrite Nat2Z.inj_succ, Z.pow_succ_r in Hx, Hy by lia.
    apply IH in Hd; try (split; [apply Z.div_pos; lia | apply Z.div_lt_upper_bound; lia]).
    rewrite (Z.div_mod x 256), (Z.div_mod y 256) by lia. congruence.
Qed.

#[global] Arguments le_bytes : simpl never.

(** [uN::to_be_bytes]. *)
Definition be_bytes (n : nat) (x : Z) : list Z := reverse (le_bytes n x).

Lemma length_be_bytes n x : length (be_bytes n x) = n.
Proof. unfold be_bytes. by rewrite length_reverse, length_le_bytes. Qed.

Lemma be_bytes_inj n x y :
  0 ≤ x < 256 ^ Z.of_nat n → 0 ≤ y < 256 ^ Z.of_nat n →
  be_bytes n x = be_bytes n y → x = y.
Proof. intros Hx Hy Heq%(inj reverse). by eapply le_bytes_inj. Qed.

(** ** Prefix-free encodings

    An encoding is prefix-free on [P] when its output marks its own end: followed by any
    other bytes, it still decodes to one value. *)

Lemma app_inj_length {A} (k1 k2 l1 l2 : list A) :
  length k1 = length k2 → k1 ++ l1 = k2 ++ l2 → k1 = k2 ∧ l1 = l2.
Proof. apply app_inj_1. Qed.

Definition prefix_free {A} (P : A → Prop) (enc : A → list Z) : Prop :=
  ∀ x y k k', P x → P y → enc x ++ k = enc y ++ k' → x = y ∧ k = k'.

Lemma prefix_free_inj {A} (P : A → Prop) enc x y :
  prefix_free P enc → P x → P y → enc x = enc y → x = y.
Proof. intros He Hx Hy Heq. by apply (He x y [] []); rewrite ?app_nil_r. Qed.

Lemma prefix_free_fixed {A} (P : A → Prop) enc n :
  (∀ x, P x → length (enc x) = n) → (∀ x y, P x → P y → enc x = enc y → x = y) →
  prefix_free P enc.
Proof.
  intros Hlen Hinj x y k k' Hx Hy Heq.
  apply app_inj_length in Heq as [? ->]; [|by rewrite !Hlen]. eauto.
Qed.

Lemma prefix_free_le_bytes n :
  prefix_free (λ x, 0 ≤ x < 256 ^ Z.of_nat n) (le_bytes n).
Proof.
  apply (prefix_free_fixed _ _ n); [intros; apply length_le_bytes|]. intros. by eapply le_bytes_inj.
Qed.

Lemma prefix_free_be_bytes n :
  prefix_free (λ x, 0 ≤ x < 256 ^ Z.of_nat n) (be_bytes n).
Proof.
  apply (prefix_free_fixed _ _ n); [intros; apply length_be_bytes|]. intros. by eapply be_bytes_inj.
Qed.

(** A length-prefixed sequence of prefix-free items. *)
Definition enc_list {A} (n : nat) (enc : A → list Z) (l : list A) : list Z :=
  le_bytes n (Z.of_nat (length l)) ++ (l ≫= enc).

Lemma enc_items_inj {A} (P : A → Prop) enc l l' k k' :
  prefix_free P enc → Forall P l → Forall P l' → length l = length l' →
  (l ≫= enc) ++ k = (l' ≫= enc) ++ k' → l = l' ∧ k = k'.
Proof.
  intros He Hl. revert l' k k'. induction Hl as [|x l Hx Hl IH]; intros [|y l'] k k' Hl' Hlen Heq;
    simplify_eq/=; [done|].
  apply Forall_cons in Hl' as [Hy Hl']. rewrite <-!(assoc_L (++)) in Heq.
  apply He in Heq as [-> Heq]; [|done..]. by apply IH in Heq as [-> ->].
Qed.

Lemma prefix_free_list {A} (P : A → Prop) enc n :
  prefix_free P enc →
  prefix_free (λ l, Forall P l ∧ Z.of_nat (length l) < 256 ^ Z.of_nat n) (enc_list n enc).
Proof.
  intros He l l' k k' [Hl Hn] [Hl' Hn'] Heq. unfold enc_list in Heq.
  rewrite <-!(assoc_L (++)) in Heq.
  apply prefix_free_le_bytes in Heq as [Hlen Heq]; [|lia..].
  by apply (enc_items_inj P) in Heq; [|done..|lia].
Qed.

Lemma prefix_free_app {A B} (P : A → Prop) (Q : B → Prop) enc1 enc2 :
  prefix_free P enc1 → prefix_free Q enc2 →
  prefix_free (λ p, P p.1 ∧ Q p.2) (λ p, enc1 p.1 ++ enc2 p.2).
Proof.
  intros H1 H2 [x y] [x' y'] k k' [Hx Hy] [Hx' Hy'] Heq. simpl in *.
  rewrite <-!(assoc_L (++)) in Heq.
  apply H1 in Heq as [-> Heq]; [|done..]. by apply H2 in Heq as [-> ->].
Qed.

(** Distinct keys: an element is determined by its key. *)
Lemma NoDup_fmap_elem {A B} (f : A → B) l x y :
  NoDup (f <$> l) → x ∈ l → y ∈ l → f x = f y → x = y.
Proof.
  intros Hd [i Hi]%list_elem_of_lookup [j Hj]%list_elem_of_lookup Heq.
  assert (i = j) as ->; [|congruence].
  apply (NoDup_lookup _ i j (f x) Hd); rewrite list_lookup_fmap, ?Hi, ?Hj; simpl; congruence.
Qed.

(** [iter().rev().find(p)]. *)
Definition find_last {A} (p : A → bool) (l : list A) : option A :=
  List.find p (reverse l).

Lemma find_last_snoc {A} (p : A → bool) l x :
  find_last p (l ++ [x]) = if p x then Some x else find_last p l.
Proof. unfold find_last. by rewrite reverse_snoc. Qed.

Lemma find_last_Some {A} (p : A → bool) l x :
  find_last p l = Some x → x ∈ l ∧ p x = true.
Proof.
  unfold find_last. intros [Hin Hp]%List.find_some.
  by rewrite <-list_elem_of_In, elem_of_reverse in Hin.
Qed.

Lemma find_last_app {A} (p : A → bool) l k :
  Forall (λ x, p x = false) k → find_last p (l ++ k) = find_last p l.
Proof.
  induction k as [|x k IH] using rev_ind; intros Hk; [by rewrite app_nil_r|].
  apply Forall_app in Hk as [Hk [Hx _]%Forall_cons].
  rewrite (assoc_L (++)), find_last_snoc, Hx. by apply IH.
Qed.

(** ** [HashMap] iteration

    The order of [HashMap::iter] and [HashMap::values] is unspecified: it is an interface,
    any enumeration of the entries, and nothing proved may depend on it. *)

Class HashOrder := {
  hash_iter {K V} `{Countable K} : gmap K V → list (K * V);
  hash_iter_perm {K V} `{Countable K} (m : gmap K V) : hash_iter m ≡ₚ map_to_list m;
}.

Definition hash_values `{HashOrder} {K V} `{Countable K} (m : gmap K V) : list V :=
  (hash_iter m).*2.

Lemma elem_of_hash_iter `{HashOrder} {K V} `{Countable K} (m : gmap K V) k v :
  (k, v) ∈ hash_iter m ↔ m !! k = Some v.
Proof. by rewrite hash_iter_perm, elem_of_map_to_list. Qed.

Lemma elem_of_hash_values `{HashOrder} {K V} `{Countable K} (m : gmap K V) v :
  v ∈ hash_values m ↔ ∃ k, m !! k = Some v.
Proof.
  unfold hash_values. rewrite list_elem_of_fmap. split.
  - intros ([k v'] & -> & Hin). exists k. by apply elem_of_hash_iter.
  - intros [k Hk]. exists (k, v). by rewrite elem_of_hash_iter.
Qed.

(** Counting the values that satisfy a test counts keys. *)
Lemma hash_values_count `{HashOrder} {K V} `{Countable K} (P : V → bool) (m : gmap K V) :
  ∃ ks, NoDup ks ∧ length ks = length (List.filter P (hash_values m)) ∧
        ∀ k, k ∈ ks ↔ ∃ v, m !! k = Some v ∧ P v = true.
Proof.
  exists ((List.filter (λ kv, P kv.2) (hash_iter m)).*1).
  assert (Hf : ∀ (l : list (K * V)), List.filter P l.*2 = (List.filter (λ kv, P kv.2) l).*2).
  { induction l as [|[k v] l IH]; [done|]. csimpl. destruct (P v); csimpl; by rewrite IH. }
  split_and!.
  - assert (Hd : NoDup (hash_iter m).*1) by (rewrite hash_iter_perm; apply NoDup_fst_map_to_list).
    induction (hash_iter m) as [|[k v] l IH]; simpl; [constructor|].
    apply NoDup_cons in Hd as [Hn Hd]. destruct (P v); simpl; [|by apply IH].
    apply NoDup_cons. split; [|by apply IH]. intros (kv & -> & Hin)%list_elem_of_fmap.
    apply Hn, list_elem_of_fmap. exists kv. split; [done|].
    by apply list_elem_of_In, List.filter_In in Hin as [?%list_elem_of_In _].
  - unfold hash_values. by rewrite Hf, !length_fmap.
  - intros k. rewrite list_elem_of_fmap. split.
    + intros ([k' v] & -> & Hin). apply list_elem_of_In, List.filter_In in Hin as [Hin HP].
      exists v. split; [|done]. by apply elem_of_hash_iter, list_elem_of_In.
    + intros (v & Hk & HP). exists (k, v). split; [done|].
      apply list_elem_of_In, List.filter_In. split; [|done].
      by apply list_elem_of_In, elem_of_hash_iter.
Qed.

(** The order [map_to_list] enumerates in. *)
Definition demo_order : HashOrder :=
  {| hash_iter K V _ _ m := map_to_list m; hash_iter_perm K V _ _ m := reflexivity _ |}.

(** ** Comparisons: derived [Ord] *)

Definition cmp_then (c1 c2 : comparison) : comparison :=
  match c1 with Eq => c2 | _ => c1 end.

(** Slices compare lexicographically. *)
Fixpoint compare_bytes (l1 l2 : list Z) : comparison :=
  match l1, l2 with
  | [], [] => Eq
  | [], _ :: _ => Lt
  | _ :: _, [] => Gt
  | x :: l1, y :: l2 => cmp_then (x ?= y) (compare_bytes l1 l2)
  end.

(** [None] is less than [Some]. *)
Definition compare_option {A} (cmp : A → A → comparison) (o1 o2 : option A) : comparison :=
  match o1, o2 with
  | None, None => Eq
  | None, Some _ => Lt
  | Some _, None => Gt
  | Some x, Some y => cmp x y
  end.

(** The relation a comparison sorts by. *)
Definition le_of {A} (cmp : A → A → comparison) (x y : A) : Prop := cmp x y ≠ Gt.
#[global] Instance le_of_dec {A} (cmp : A → A → comparison) : RelDecision (le_of cmp).
Proof. intros x y. unfold le_of. destruct (cmp x y); [left|left|right]; naive_solver. Defined.

(** A lawful comparison: the laws [Ord] asks for. *)
Class Comparable {A} (cmp : A → A → comparison) : Prop := {
  cmp_eq x y : cmp x y = Eq ↔ x = y;
  cmp_antisym x y : cmp y x = CompOpp (cmp x y);
  cmp_lt_trans x y z : cmp x y = Lt → cmp y z = Lt → cmp x z = Lt;
}.

#[global] Instance Z_comparable : Comparable Z.compare.
Proof.
  split; intros; [apply Z.compare_eq_iff|apply Z.compare_antisym|].
  rewrite Z.compare_lt_iff in *. lia.
Qed.

Section comparable.
Context {A} (cmp : A → A → comparison) `{!Comparable cmp}.

#[export] Instance le_of_total : Total (le_of cmp).
Proof.
  intros x y. unfold le_of. rewrite (cmp_antisym (cmp:=cmp) x y).
  destruct (cmp x y); [left|left|right]; done.
Qed.
#[export] Instance le_of_antisymm : AntiSymm (=) (le_of cmp).
Proof.
  intros x y. unfold le_of. rewrite (cmp_antisym (cmp:=cmp) x y). intros Hx Hy.
  apply (cmp_eq (cmp:=cmp) x y). destruct (cmp x y); done.
Qed.
#[export] Instance le_of_trans : Transitive (le_of cmp).
Proof.
  intros x y z. unfold le_of.
  destruct (cmp x y) eqn:Hxy; [apply (cmp_eq (cmp:=cmp)) in Hxy as ->; done| |done].
  destruct (cmp y z) eqn:Hyz; [apply (cmp_eq (cmp:=cmp)) in Hyz as ->; congruence| |done].
  by rewrite (cmp_lt_trans (cmp:=cmp) x y z).
Qed.
End comparable.

#[global] Instance compare_bytes_comparable : Comparable compare_bytes.
Proof.
  split.
  - induction x as [|a x IH]; intros [|b y]; simpl; try done.
    destruct (a ?= b) eqn:E; simpl; [apply Z.compare_eq in E; naive_solver| |];
      (split; [done|]); intros [= -> ->]; by rewrite Z.compare_refl in E.
  - induction x as [|a x IH]; intros [|b y]; simpl; try done.
    rewrite (Z.compare_antisym a b), IH. by destruct (a ?= b).
  - induction x as [|a x IH]; intros [|b y] [|c z]; simpl; try done.
    destruct (a ?= b) eqn:Hab, (b ?= c) eqn:Hbc; simpl; try done; intros H1 H2;
      rewrite ?Z.compare_lt_iff, ?Z.compare_eq_iff in *; subst;
      try (rewrite Z.compare_refl; simpl; by eapply IH).
    + by rewrite (proj2 (Z.compare_lt_iff b c)).
    + by rewrite (proj2 (Z.compare_lt_iff a c)).
    + by rewrite (proj2 (Z.compare_lt_iff a c) ltac:(lia)).
Qed.

(** [sort_by_key]: compare through a key; tuples compare lexicographically. *)
Definition compare_on {A B} (f : A → B) (cmp : B → B → comparison) (x y : A) : comparison :=
  cmp (f x) (f y).
Definition compare_lex {A B} (cmp1 : A → A → comparison) (cmp2 : B → B → comparison)
    (p q : A * B) : comparison :=
  cmp_then (cmp1 p.1 q.1) (cmp2 p.2 q.2).

#[global] Instance compare_lex_comparable {A B} (cmp1 : A → A → comparison)
    (cmp2 : B → B → comparison) :
  Comparable cmp1 → Comparable cmp2 → Comparable (compare_lex cmp1 cmp2).
Proof.
  intros H1 H2. unfold compare_lex. split.
  - intros [a b] [c d]; simpl. destruct (cmp1 a c) eqn:E; simpl.
    + apply (cmp_eq (cmp:=cmp1)) in E as ->. rewrite (cmp_eq (cmp:=cmp2)). naive_solver.
    + split; [done|]. intros [= -> ->]. by rewrite (proj2 (cmp_eq (cmp:=cmp1) c c)) in E.
    + split; [done|]. intros [= -> ->]. by rewrite (proj2 (cmp_eq (cmp:=cmp1) c c)) in E.
  - intros [a b] [c d]; simpl. rewrite (cmp_antisym (cmp:=cmp1) a c), (cmp_antisym (cmp:=cmp2) b d).
    by destruct (cmp1 a c).
  - intros [a b] [c d] [e f]; simpl.
    destruct (cmp1 a c) eqn:E1, (cmp1 c e) eqn:E2; simpl; try done; intros H3 H4.
    + apply (cmp_eq (cmp:=cmp1)) in E1 as ->. rewrite E2. simpl. by eapply (cmp_lt_trans (cmp:=cmp2)).
    + apply (cmp_eq (cmp:=cmp1)) in E1 as ->. by rewrite E2.
    + apply (cmp_eq (cmp:=cmp1)) in E2 as ->. by rewrite E1.
    + by rewrite (cmp_lt_trans (cmp:=cmp1) a c e).
Qed.

Lemma compare_on_comparable {A B} (f : A → B) (cmp : B → B → comparison) :
  Inj (=) (=) f → Comparable cmp → Comparable (compare_on f cmp).
Proof.
  intros Hf Hc. unfold compare_on. split.
  - intros x y. rewrite (cmp_eq (cmp:=cmp)). split; [apply Hf|by intros ->].
  - intros x y. apply (cmp_antisym (cmp:=cmp)).
  - intros x y z. apply (cmp_lt_trans (cmp:=cmp)).
Qed.

Section sort_by_key.
Context {A B} (f : A → B) (cmp : B → B → comparison) `{!Comparable cmp}.

#[export] Instance le_on_total : Total (le_of (compare_on f cmp)).
Proof. intros x y. apply (le_of_total cmp (f x) (f y)). Qed.
#[export] Instance le_on_trans : Transitive (le_of (compare_on f cmp)).
Proof. intros x y z. apply (le_of_trans cmp (f x) (f y) (f z)). Qed.

Lemma merge_sort_sorted l : StronglySorted (le_of (compare_on f cmp)) (merge_sort (le_of (compare_on f cmp)) l).
Proof. apply Sorted_StronglySorted; [apply _|apply Sorted_merge_sort, _]. Qed.

(** Sorting by an injective key forgets the order and nothing else. *)
Lemma sort_by_key_perm `{!Inj (=) (=) f} l k :
  merge_sort (le_of (compare_on f cmp)) l = merge_sort (le_of (compare_on f cmp)) k ↔ l ≡ₚ k.
Proof.
  split.
  - intros E. by rewrite <-(merge_sort_Permutation (le_of (compare_on f cmp)) l), E,
      merge_sort_Permutation.
  - intros E. pose proof (compare_on_comparable f cmp _ _) as Hc.
    apply (StronglySorted_unique (le_of (compare_on f cmp))); [apply merge_sort_sorted..|].
    by rewrite !merge_sort_Permutation.
Qed.

(** Rows with distinct keys come out in strictly increasing key order. *)
Lemma sort_by_key_strict l :
  NoDup (f <$> l) →
  StronglySorted (λ x y, cmp (f x) (f y) = Lt) (merge_sort (le_of (compare_on f cmp)) l).
Proof.
  intros Hd.
  assert (Hd' : NoDup (f <$> merge_sort (le_of (compare_on f cmp)) l))
    by by rewrite merge_sort_Permutation.
  assert (Hs : StronglySorted (le_of (compare_on f cmp)) (merge_sort (le_of (compare_on f cmp)) l))
    by (apply Sorted_StronglySorted; [apply _|apply Sorted_merge_sort, _]).
  induction Hs as [|x k Hs IH Hx]; [constructor|]. apply NoDup_cons in Hd' as [Hn Hd'].
  constructor; [by apply IH|]. apply Forall_forall. intros y Hy.
  rewrite Forall_forall in Hx. specialize (Hx y Hy). unfold le_of, compare_on in Hx.
  destruct (cmp (f x) (f y)) eqn:E; [|done|done].
  apply (cmp_eq (cmp:=cmp)) in E. destruct Hn. rewrite E. by apply list_elem_of_fmap_2.
Qed.
End sort_by_key.

(** ** Consecutive duplicates *)

(** [dedup()]. *)
Fixpoint dedup {A} `{EqDecision A} (l : list A) : list A :=
  match l with
  | x :: (y :: _) as l' => if decide (x = y) then dedup l' else x :: dedup l'
  | _ => l
  end.

Lemma elem_of_dedup {A} `{EqDecision A} (x : A) l : x ∈ dedup l ↔ x ∈ l.
Proof.
  induction l as [|y l IH]; [done|]. destruct l as [|z l]; [done|].
  change (dedup (y :: z :: l)) with (if decide (y = z) then dedup (z :: l) else y :: dedup (z :: l)).
  case_decide; subst; set_solver.
Qed.

(** [dedup_by_key(f)]: the first of every run of equal keys. *)
Fixpoint dedup_from {A B} `{EqDecision B} (f : A → B) (prev : option B) (l : list A) : list A :=
  match l with
  | [] => []
  | x :: l => if decide (prev = Some (f x)) then dedup_from f prev l
              else x :: dedup_from f (Some (f x)) l
  end.
Definition dedup_by_key {A B} `{EqDecision B} (f : A → B) (l : list A) : list A := dedup_from f None l.

Section dedup.
Context {A B : Type} `{EqDecision B} (f : A → B).
Implicit Types (l : list A).

Lemma dedup_from_sublist prev l : dedup_from f prev l `sublist_of` l.
Proof.
  revert prev. induction l as [|x l IH]; intros prev; simpl; [done|].
  case_decide; [by apply sublist_cons|by apply sublist_skip].
Qed.

Lemma dedup_from_keys prev l x : x ∈ l → prev = Some (f x) ∨ f x ∈ f <$> dedup_from f prev l.
Proof.
  revert prev. induction l as [|y l IH]; intros prev Hx; simpl; [by apply not_elem_of_nil in Hx|].
  apply elem_of_cons in Hx as [->|Hx].
  - case_decide; [by left|]. right. csimpl. by left.
  - case_decide; [by apply IH|]. right. csimpl. destruct (IH (Some (f y)) Hx) as [[= ->]|]; [by left|by right].
Qed.

Context (cmp : B → B → comparison) `{!Comparable cmp}.

Lemma dedup_from_strict prev l :
  StronglySorted (le_of (compare_on f cmp)) l →
  Forall (λ x, match prev with Some k => le_of cmp k (f x) | None => True end) l →
  StronglySorted (λ x y, cmp (f x) (f y) = Lt) (dedup_from f prev l) ∧
  Forall (λ x, match prev with Some k => cmp k (f x) = Lt | None => True end) (dedup_from f prev l).
Proof.
  intros Hs. revert prev. induction Hs as [|x l Hs IH Hx]; intros prev Hp; simpl; [by repeat constructor|].
  apply Forall_cons in Hp as [Hpx Hp]. case_decide as Hd; [by apply IH|].
  destruct (IH (Some (f x))) as [H1 H2]; [exact Hx|]. split; [by constructor|].
  assert (Hlt : match prev with Some k => cmp k (f x) = Lt | None => True end).
  { destruct prev as [k|]; [|done]. unfold le_of in Hpx. destruct (cmp k (f x)) eqn:E; [|done|done].
    apply (cmp_eq (cmp:=cmp)) in E. congruence. }
  constructor; [done|]. eapply Forall_impl; [exact H2|]. intros y Hy. destruct prev as [k|]; [|done].
  by eapply (cmp_lt_trans (cmp:=cmp)).
Qed.

(** Sorted by key and deduplicated: one row for every key, in strictly increasing key order. *)
Lemma sort_dedup_spec l :
  let out := dedup_by_key f (merge_sort (le_of (compare_on f cmp)) l) in
  StronglySorted (λ x y, cmp (f x) (f y) = Lt) out ∧ (∀ x, x ∈ out → x ∈ l) ∧
  (∀ x, x ∈ l → f x ∈ f <$> out) ∧ (length out ≤ length l)%nat.
Proof.
  simpl. set (k := merge_sort _ l).
  assert (Hk : k ≡ₚ l) by apply merge_sort_Permutation. split_and!.
  - apply dedup_from_strict; [apply merge_sort_sorted; apply _|by apply Forall_true].
  - intros x Hx. rewrite <-Hk. by eapply sublist_subseteq, Hx; apply dedup_from_sublist.
  - intros x Hx. rewrite <-Hk in Hx. by destruct (dedup_from_keys None k x Hx).
  - rewrite <-(Permutation_length Hk). apply sublist_length, dedup_from_sublist.
Qed.

Lemma strict_keys_nodup l : StronglySorted (λ x y, cmp (f x) (f y) = Lt) l → NoDup (f <$> l).
Proof.
  induction 1 as [|x l _ IH Hx]; [constructor|]. csimpl. constructor; [|done].
  intros (y & E & Hy)%list_elem_of_fmap. rewrite Forall_forall in Hx. specialize (Hx y Hy).
  rewrite E, (proj2 (cmp_eq (cmp:=cmp) (f y) (f y)) eq_refl) in Hx. done.
Qed.
End dedup.

Lemma dedup_by_id {A} `{EqDecision A} (l : list A) : dedup l = dedup_by_key (λ x, x) l.
Proof.
  destruct l as [|x l]; [done|]. unfold dedup_by_key. cbn [dedup_from].
  destruct (decide (None = Some x)); [done|]. revert x n. induction l as [|y l IH]; intros x _; [done|].
  change (dedup (x :: y :: l)) with (if decide (x = y) then dedup (y :: l) else x :: dedup (y :: l)).
  cbn [dedup_from]. rewrite IH by done.
  destruct (decide (x = y)), (decide (Some x = Some y)); congruence.
Qed.

Lemma sort_dedup_ids {A} `{EqDecision A} (cmp : A → A → comparison) `{!Comparable cmp} (l : list A) :
  let out := dedup (merge_sort (le_of cmp) l) in
  StronglySorted (λ x y, cmp x y = Lt) out ∧ NoDup out ∧ (∀ x, x ∈ out ↔ x ∈ l) ∧
  (length out ≤ length l)%nat.
Proof.
  simpl. rewrite dedup_by_id.
  destruct (sort_dedup_spec (λ x : A, x) cmp l) as (Hs & H1 & H2 & Hlen).
  change (merge_sort (le_of (compare_on (λ x : A, x) cmp)) l) with (merge_sort (le_of cmp) l) in *.
  split_and!; [done| | |done].
  - apply (strict_keys_nodup _ cmp) in Hs. by rewrite list_fmap_id in Hs.
  - intros x. split; [apply H1|]. intros Hx%H2. by rewrite list_fmap_id in Hx.
Qed.

(** ** Ordered maps *)

(** A [BTreeMap] iterates in key order. *)
Definition btree_iter {K V} `{Countable K} (cmp : K → K → comparison) (m : gmap K V) : list (K * V) :=
  merge_sort (le_of (compare_on fst cmp)) (map_to_list m).

Section btree.
Context {K V : Type} `{Countable K} (cmp : K → K → comparison).
Implicit Types (m : gmap K V) (l : list (K * V)).

Lemma btree_iter_perm m : btree_iter cmp m ≡ₚ map_to_list m.
Proof. apply merge_sort_Permutation. Qed.

Lemma length_btree_iter m : length (btree_iter cmp m) = size m.
Proof. rewrite btree_iter_perm. apply length_map_to_list. Qed.

Lemma list_to_map_btree m : list_to_map (btree_iter cmp m) = m ∧ NoDup (btree_iter cmp m).*1.
Proof.
  assert (Hd : NoDup (btree_iter cmp m).*1)
    by (rewrite btree_iter_perm; apply NoDup_fst_map_to_list).
  split; [|done]. rewrite <-(list_to_map_to_list m) at 2.
  apply list_to_map_proper; [done|apply btree_iter_perm].
Qed.

(** Entries in strictly increasing key order. *)
Definition key_sorted l : Prop := StronglySorted (λ x y, cmp x.1 y.1 = Lt) l.

Context `{!Comparable cmp}.

Lemma key_sorted_nodup l : key_sorted l → NoDup l.*1.
Proof.
  induction 1 as [|x l _ IH Hx]; [constructor|]. simpl. constructor; [|done].
  intros (y & E & Hy)%list_elem_of_fmap. rewrite Forall_forall in Hx. specialize (Hx y Hy).
  rewrite E, (proj2 (cmp_eq (cmp:=cmp) y.1 y.1) eq_refl) in Hx. done.
Qed.

(** A map built from entries in key order is iterated as they stand. *)
Lemma btree_iter_sorted l : key_sorted l → btree_iter cmp (list_to_map l) = l.
Proof.
  intros Hs. pose proof (key_sorted_nodup l Hs) as Hd.
  assert (map_to_list (list_to_map (M:=gmap K V) l) ≡ₚ l) as Hp by by apply map_to_list_to_map.
  apply (StronglySorted_unique_strong (λ x y, cmp x.1 y.1 = Lt)); [|apply sort_by_key_strict|done|].
  - intros x y _ _ H1 H2. rewrite (cmp_antisym (cmp:=cmp) x.1 y.1), H1 in H2. done.
  - done.
  - apply NoDup_fst_map_to_list.
  - by rewrite btree_iter_perm.
Qed.
End btree.

(** Big-endian numbers compare as their values. *)
Lemma compare_bytes_snoc a b u v :
  length a = length b → compare_bytes (a ++ [u]) (b ++ [v]) = cmp_then (compare_bytes a b) (u ?= v).
Proof.
  revert b. induction a as [|x a IH]; intros [|y b] Hl; simplify_eq/=; [by destruct (u ?= v)|].
  rewrite IH by done. by destruct (x ?= y).
Qed.

Lemma be_bytes_S n x : be_bytes (S n) x = be_bytes n (x / 256) ++ [x `mod` 256].
Proof. unfold be_bytes. change (le_bytes (S n) x) with (x `mod` 256 :: le_bytes n (x / 256)). by rewrite reverse_cons. Qed.

Lemma compare_be_bytes n x y :
  0 ≤ x < 256 ^ Z.of_nat n → 0 ≤ y < 256 ^ Z.of_nat n →
  compare_bytes (be_bytes n x) (be_bytes n y) = (x ?= y).
Proof.
  revert x y. induction n as [|n IH]; intros x y Hx Hy.
  - change (256 ^ Z.of_nat 0) with 1 in *. assert (x = y) as -> by lia. by rewrite Z.compare_refl.
  - rewrite Nat2Z.inj_succ, Z.pow_succ_r in Hx, Hy by lia.
    rewrite !be_bytes_S, compare_bytes_snoc by by rewrite !length_be_bytes.
    rewrite IH by (split; [apply Z.div_pos; lia|apply Z.div_lt_upper_bound; lia]).
    pose proof (Z.div_mod x 256 ltac:(lia)). pose proof (Z.div_mod y 256 ltac:(lia)).
    pose proof (Z.mod_pos_bound x 256 ltac:(lia)). pose proof (Z.mod_pos_bound y 256 ltac:(lia)).
    destruct (Z.compare_spec (x / 256) (y / 256)) as [E|E|E]; simpl.
    + destruct (Z.compare_spec (x `mod` 256) (y `mod` 256)), (Z.compare_spec x y); done || lia.
    + symmetry. apply Z.compare_lt_iff. lia.
    + symmetry. apply Z.compare_gt_iff. lia.
Qed.

(** [uN::from_be_bytes]. *)
Definition from_be_bytes (l : list Z) : Z := foldl (λ acc b, acc * 256 + b) 0 l.

Lemma from_be_bytes_be n x : 0 ≤ x < 256 ^ Z.of_nat n → from_be_bytes (be_bytes n x) = x.
Proof.
  revert x. induction n as [|n IH]; intros x Hx.
  - change (256 ^ Z.of_nat 0) with 1 in Hx. assert (x = 0) as -> by lia. done.
  - rewrite Nat2Z.inj_succ, Z.pow_succ_r in Hx by lia.
    unfold from_be_bytes in *. rewrite be_bytes_S, foldl_app. simpl.
    rewrite IH by (split; [apply Z.div_pos; lia|apply Z.div_lt_upper_bound; lia]).
    pose proof (Z.div_mod x 256 ltac:(lia)). lia.
Qed.

(** ** Maps of version stacks

    [map.entry(k).or_default().push(x)] on a [HashMap<K, Vec<V>>]. *)

Section entry_push.
Context {K : Type} `{Countable K} {V : Type}.
Implicit Types (m : gmap K (list V)) (k : K) (x : V).

Definition versions m k : list V := default [] (m !! k).

Definition entry_push k x m : gmap K (list V) := <[k := versions m k ++ [x]]> m.

(** [map.get(k).and_then(|h| h.last())]. *)
Definition current m k : option V := m !! k ≫= last.

Lemma versions_entry_push_eq k x m : versions (entry_push k x m) k = versions m k ++ [x].
Proof. unfold entry_push, versions at 1. by rewrite lookup_insert_eq. Qed.

Lemma versions_entry_push_ne k k' x m :
  k ≠ k' → versions (entry_push k x m) k' = versions m k'.
Proof. intros. unfold entry_push, versions. by rewrite lookup_insert_ne. Qed.

Lemma versions_entry_push k k' x m :
  versions (entry_push k x m) k' =
  versions m k' ++ (if decide (k = k') then [x] else []).
Proof.
  case_decide; subst; [apply versions_entry_push_eq|].
  by rewrite versions_entry_push_ne, app_nil_r.
Qed.

Lemma current_versions m k : current m k = last (versions m k).
Proof. unfold current, versions. by destruct (m !! k). Qed.

Lemma current_entry_push_eq k x m : current (entry_push k x m) k = Some x.
Proof. by rewrite current_versions, versions_entry_push_eq, last_snoc. Qed.

Lemma current_entry_push_ne k k' x m :
  k ≠ k' → current (entry_push k x m) k' = current m k'.
Proof. intros. by rewrite !current_versions, versions_entry_push_ne. Qed.
End entry_push.

#[export] Hint Rewrite @versions_entry_push_eq @current_entry_push_eq : exo.
#[export] Hint Rewrite @versions_entry_push_ne @current_entry_push_ne using done : exo.

(** ** Sums over a map *)

Definition map_sum {K V} `{Countable K} (f : V → Z) (m : gmap K V) : Z :=
  foldr (λ kv acc, f kv.2 + acc) 0 (map_to_list m).

Section map_sum.
Context {K V : Type} `{Countable K} (f : V → Z).
Implicit Types (m : gmap K V).

Lemma sum_perm (l k : list (K * V)) :
  l ≡ₚ k → foldr (λ kv acc, f kv.2 + acc) 0 l = foldr (λ kv acc, f kv.2 + acc) 0 k.
Proof. induction 1; simpl; lia. Qed.

Lemma map_sum_empty : map_sum f (∅ : gmap K V) = 0.
Proof. unfold map_sum. by rewrite map_to_list_empty. Qed.

Lemma map_sum_insert m k v : m !! k = None → map_sum f (<[k := v]> m) = f v + map_sum f m.
Proof. intros Hk. unfold map_sum. by rewrite (sum_perm _ _ (map_to_list_insert m k v Hk)). Qed.

Lemma map_sum_delete m k v : m !! k = Some v → map_sum f m = f v + map_sum f (delete k m).
Proof.
  intros Hk. rewrite <-(map_sum_insert (delete k m) k v) by apply lookup_delete_eq.
  by rewrite insert_delete_id.
Qed.

Lemma map_sum_replace m k v w :
  m !! k = Some v → map_sum f (<[k := w]> m) = map_sum f m - f v + f w.
Proof.
  intros Hk. rewrite <-insert_delete_eq, map_sum_insert by apply lookup_delete_eq.
  rewrite (map_sum_delete _ _ _ Hk). lia.
Qed.

Lemma map_sum_nonneg m : (∀ v, 0 ≤ f v) → 0 ≤ map_sum f m.
Proof. intros Hf. unfold map_sum. induction (map_to_list m) as [|[k v] l IH]; simpl; [done|]. pose proof (Hf v). lia. Qed.
End map_sum.

Lemma map_sum_const {K V} `{Countable K} (c : Z) (m : gmap K V) :
  map_sum (λ _, c) m = c * Z.of_nat (size m).
Proof.
  unfold map_sum. rewrite <-length_map_to_list. induction (map_to_list m) as [|kv l IH]; simpl; lia.
Qed.

Lemma size_filter_split {K V} `{Countable K} (P : K * V → Prop) `{∀ x, Decision (P x)} (m : gmap K V) :
  size m = (size (filter P m) + size (filter (λ x, ¬ P x) m))%nat.
Proof.
  rewrite <-map_size_disj_union by apply map_disjoint_filter_complement.
  by rewrite map_filter_union_complement.
Qed.
