(* ===== verification/Ids.v ===== *)
(** * Identities: [crates/exocortex-kernel/src/ids.rs]

    The 128-bit identities of memories, relationships and entities, the bytes they
    are hashed from, the canonical hex form, and log sequence numbers.  BLAKE3 is a
    library the source calls: it is the interface [Blake3]; every statement about
    identities is about the hashed bytes, or up to a collision of the truncated hash. *)

From stdpp Require Import pretty.
From S2P Require Import Prelude.

(** ** The hash interface *)

(** [blake3::Hasher]: [update] appends to the hashed input and [finalize] gives the
    32-byte digest of everything appended. *)
Class Blake3 := {
  blake3 : list Z → list Z;
  blake3_length x : length (blake3 x) = 32%nat;
  blake3_bytes x : bytes_ok (blake3 x);
}.

(** The first sixteen bytes of the digest, as every identity takes them. *)
Definition hash16 `{Blake3} (preimage : list Z) : list Z := take 16 (blake3 preimage).

Lemma hash16_length `{Blake3} x : length (hash16 x) = 16%nat.
Proof. unfold hash16. rewrite length_take, blake3_length. done. Qed.

(** A collision of the truncated digest: two different inputs, one value. *)
Definition hash16_collision `{Blake3} : Prop := ∃ x y, x ≠ y ∧ hash16 x = hash16 y.

(** ** Bytes and strings *)

Definition byte_of_ascii (c : ascii) : Z := Z.of_N (N_of_ascii c).
Definition ascii_of_byte (b : Z) : ascii := ascii_of_N (Z.to_N b).

(** [str::as_bytes]. *)
Definition as_bytes (s : string) : list Z := byte_of_ascii <$> String.list_ascii_of_string s.
Definition string_of_bytes (l : list Z) : string := String.string_of_list_ascii (ascii_of_byte <$> l).

#[global] Instance byte_of_ascii_inj : Inj (=) (=) byte_of_ascii.
Proof.
  intros a b Hab. unfold byte_of_ascii in Hab. apply N2Z.inj in Hab.
  by rewrite <-(ascii_N_embedding a), <-(ascii_N_embedding b), Hab.
Qed.

Lemma byte_of_ascii_range c : 0 ≤ byte_of_ascii c < 256.
Proof. unfold byte_of_ascii. pose proof (N_ascii_bounded c). lia. Qed.

Lemma ascii_of_byte_of_ascii c : ascii_of_byte (byte_of_ascii c) = c.
Proof. unfold ascii_of_byte, byte_of_ascii. by rewrite N2Z.id, ascii_N_embedding. Qed.

Lemma byte_of_ascii_of_byte b : 0 ≤ b < 256 → byte_of_ascii (ascii_of_byte b) = b.
Proof.
  intros. unfold ascii_of_byte, byte_of_ascii. rewrite N_ascii_embedding; lia.
Qed.

#[global] Instance as_bytes_inj : Inj (=) (=) as_bytes.
Proof.
  intros s t Hst. apply (inj (fmap byte_of_ascii)) in Hst.
  by rewrite <-(String.string_of_list_ascii_of_string s),
    <-(String.string_of_list_ascii_of_string t), Hst.
Qed.

Lemma length_as_bytes s : length (as_bytes s) = String.length s.
Proof. unfold as_bytes. rewrite length_fmap. induction s; simpl; congruence. Qed.

Lemma as_bytes_app s t : as_bytes (s +:+ t) = as_bytes s ++ as_bytes t.
Proof.
  unfold as_bytes. rewrite <-fmap_app. f_equal.
  induction s as [|c s IH]; [done|]. simpl. f_equal. apply IH.
Qed.

(** ** Memory identities *)

(* SRC crates/exocortex-kernel/src/ids.rs 4-6 MemoryId *)
Record MemoryId := mkMemoryId { mid_bytes : list Z }.

#[global] Instance MemoryId_eq_dec : EqDecision MemoryId.
Proof. solve_decision. Defined.
#[global] Program Instance MemoryId_countable : Countable MemoryId :=
  inj_countable' mid_bytes mkMemoryId _.
Next Obligation. by intros []. Qed.

(* SRC crates/exocortex-kernel/src/ids.rs 86-89 update_framed *)
Definition update_framed (hasher value : list Z) : list Z :=
  hasher ++ le_bytes 8 (Z.of_nat (length value)) ++ value.

(** The bytes [MemoryId::from_external] feeds to the hasher. *)
(* SRC crates/exocortex-kernel/src/ids.rs 9-38 MemoryId::from_external *)
Definition external_preimage (org_id source_uri : string) (table_uuid logical_pk : list Z)
    (mapping_version : Z) : list Z :=
  let h := as_bytes "exocortex-external-id-v2" in
  let h := update_framed h (as_bytes org_id) in
  let h := update_framed h (as_bytes source_uri) in
  let h := update_framed h table_uuid in
  let h := update_framed h logical_pk in
  h ++ le_bytes 4 mapping_version.

(* SRC crates/exocortex-kernel/src/ids.rs 9-38 MemoryId::from_external *)
Definition MemoryId_from_external `{Blake3} (org_id source_uri : string)
    (table_uuid logical_pk : list Z) (mapping_version : Z) : MemoryId :=
  mkMemoryId (hash16 (external_preimage org_id source_uri table_uuid logical_pk mapping_version)).

(** The separator byte [\x1e]. *)
Definition RS : list Z := [30].

(* SRC crates/exocortex-kernel/src/ids.rs 40-51 MemoryId::from_content_hash *)
Definition content_hash_preimage (org_id content : string) : list Z :=
  as_bytes "content-hash-v1" ++ RS ++ as_bytes org_id ++ RS ++ as_bytes content.

(* SRC crates/exocortex-kernel/src/ids.rs 40-51 MemoryId::from_content_hash *)
Definition MemoryId_from_content_hash `{Blake3} (org_id content : string) : MemoryId :=
  mkMemoryId (hash16 (content_hash_preimage org_id content)).

(** *** Hex *)

(** [char::to_digit(16)] on a byte. *)
Definition to_digit16 (c : Z) : option Z :=
  if (48 <=? c) && (c <=? 57) then Some (c - 48)
  else if (97 <=? c) && (c <=? 102) then Some (c - 87)
  else if (65 <=? c) && (c <=? 70) then Some (c - 55)
  else None.

(** [u8::is_ascii_hexdigit]. *)
Definition is_ascii_hexdigit (c : Z) : bool :=
  ((48 <=? c) && (c <=? 57)) || ((65 <=? c) && (c <=? 70)) || ((97 <=? c) && (c <=? 102)).

(** The loop of [parse_hex]: two digits per output byte. *)
Fixpoint parse_hex_pairs (bytes : list Z) : option (list Z) :=
  match bytes with
  | [] => Some []
  | c1 :: c2 :: rest =>
      hi ← to_digit16 c1; lo ← to_digit16 c2; out ← parse_hex_pairs rest;
      Some (Z.lor (Z.shiftl hi 4) lo `mod` 256 :: out)
  | [_] => None
  end.

(* SRC crates/exocortex-kernel/src/ids.rs 58-73 MemoryId::parse_hex *)
Definition parse_hex (s : string) : option MemoryId :=
  let bytes := as_bytes s in
  if negb (Nat.eqb (length bytes) 32) || negb (forallb is_ascii_hexdigit bytes) then None
  else mkMemoryId <$> parse_hex_pairs bytes.

(** One lowercase hex digit, and [{byte:02x}]. *)
Definition hex_digit (d : Z) : Z := if d <? 10 then 48 + d else 87 + d.
Definition fmt_02x (b : Z) : list Z := [hex_digit (b / 16); hex_digit (b `mod` 16)].

(** Lowercase hex of a byte string ([{byte:02x}] in a loop). *)
Definition hex (bytes : list Z) : string := string_of_bytes (bytes ≫= fmt_02x).

(* SRC crates/exocortex-kernel/src/ids.rs 75-83 MemoryId::to_hex *)
Definition to_hex (id : MemoryId) : string := hex (mid_bytes id).

(** ** Relationship and entity identities *)

(* SRC crates/exocortex-kernel/src/ids.rs 91-93 RelationshipId *)
Record RelationshipId := mkRelationshipId { rid_bytes : list Z }.

#[global] Instance RelationshipId_eq_dec : EqDecision RelationshipId.
Proof. solve_decision. Defined.
#[global] Program Instance RelationshipId_countable : Countable RelationshipId :=
  inj_countable' rid_bytes mkRelationshipId _.
Next Obligation. by intros []. Qed.

(** [RelKindId(pub u32)], declared in [kinds.rs]. *)
(* SRC crates/exocortex-kernel/src/kinds.rs 5-13 RelKindId *)
Record RelKindId := mkRelKindId { kind_val : Z }.

#[global] Instance RelKindId_eq_dec : EqDecision RelKindId.
Proof. solve_decision. Defined.
#[global] Program Instance RelKindId_countable : Countable RelKindId :=
  inj_countable' kind_val mkRelKindId _.
Next Obligation. by intros []. Qed.

(* SRC crates/exocortex-kernel/src/ids.rs 96-113 RelationshipId::derive *)
Definition derive_preimage (from : MemoryId) (kind : RelKindId) (to : MemoryId)
    (snapshot : option string) : list Z :=
  mid_bytes from ++ le_bytes 4 (kind_val kind) ++ mid_bytes to
    ++ as_bytes (default "" snapshot).

(* SRC crates/exocortex-kernel/src/ids.rs 96-113 RelationshipId::derive *)
Definition RelationshipId_derive `{Blake3} (from : MemoryId) (kind : RelKindId) (to : MemoryId)
    (snapshot : option string) : RelationshipId :=
  mkRelationshipId (hash16 (derive_preimage from kind to snapshot)).

(* SRC crates/exocortex-kernel/src/ids.rs 116-118 EntityId *)
Record EntityId := mkEntityId { eid_bytes : list Z }.

#[global] Instance EntityId_eq_dec : EqDecision EntityId.
Proof. solve_decision. Defined.
#[global] Program Instance EntityId_countable : Countable EntityId :=
  inj_countable' eid_bytes mkEntityId _.
Next Obligation. by intros []. Qed.

(* SRC crates/exocortex-kernel/src/ids.rs 121-134 EntityId::from_parts *)
Definition from_parts_preimage (org_id : string) (entity_type : Z) (canonical_name : string)
    : list Z :=
  as_bytes "entity-v1" ++ RS ++ as_bytes org_id ++ RS ++ le_bytes 1 entity_type ++ RS
    ++ as_bytes canonical_name.

(* SRC crates/exocortex-kernel/src/ids.rs 121-134 EntityId::from_parts *)
Definition EntityId_from_parts `{Blake3} (org_id : string) (entity_type : Z)
    (canonical_name : string) : EntityId :=
  mkEntityId (hash16 (from_parts_preimage org_id entity_type canonical_name)).

(* SRC crates/exocortex-kernel/src/ids.rs 136-159 EntityId::from_external *)
Definition entity_external_preimage (org_id : string) (table_uuid logical_pk : list Z) : list Z :=
  as_bytes "entity-ext-v1" ++ RS ++ as_bytes org_id ++ RS
    ++ le_bytes 4 (as_u32 (Z.of_nat (length table_uuid))) ++ table_uuid
    ++ le_bytes 4 (as_u32 (Z.of_nat (length logical_pk))) ++ logical_pk.

(* SRC crates/exocortex-kernel/src/ids.rs 136-159 EntityId::from_external *)
Definition EntityId_from_external `{Blake3} (org_id : string) (table_uuid logical_pk : list Z)
    : EntityId :=
  mkEntityId (hash16 (entity_external_preimage org_id table_uuid logical_pk)).

(** ** Log sequence numbers *)

(* SRC crates/exocortex-kernel/src/ids.rs 175-182 LsnSpace *)
Inductive LsnSpace := Local | Backend.

(* SRC crates/exocortex-kernel/src/ids.rs 166-173 LSN *)
Record LSN := mkLSN { lsn_space : LsnSpace; lsn_value : Z }.

#[global] Instance LsnSpace_eq_dec : EqDecision LsnSpace.
Proof. solve_decision. Defined.
#[global] Instance LSN_eq_dec : EqDecision LSN.
Proof. solve_decision. Defined.

(* SRC crates/exocortex-kernel/src/ids.rs 185-191 LSN::new_local *)
Definition new_local (v : Z) : LSN := mkLSN Local v.
(* SRC crates/exocortex-kernel/src/ids.rs 192-198 LSN::new_backend *)
Definition new_backend (v : Z) : LSN := mkLSN Backend v.

(** ** Framing

    A framed field is its 64-bit length followed by its bytes. *)

Definition fits64 (v : list Z) : Prop := Z.of_nat (length v) < 2 ^ 64.

Lemma update_framed_app h v k :
  update_framed h v ++ k = h ++ le_bytes 8 (Z.of_nat (length v)) ++ v ++ k.
Proof. unfold update_framed. by rewrite !(assoc_L (++)). Qed.

Lemma frame_inj v v' k k' :
  fits64 v → fits64 v' →
  le_bytes 8 (Z.of_nat (length v)) ++ v ++ k = le_bytes 8 (Z.of_nat (length v')) ++ v' ++ k' →
  v = v' ∧ k = k'.
Proof.
  unfold fits64. intros Hv Hv' Heq.
  apply app_inj_length in Heq as [Hlen Heq]; [|by rewrite !length_le_bytes].
  apply le_bytes_inj in Hlen; [|split; [lia|exact Hv]|split; [lia|exact Hv']].
  by apply app_inj_length in Heq; [|lia].
Qed.

Lemma external_preimage_unfold o u t k v :
  external_preimage o u t k v =
  as_bytes "exocortex-external-id-v2"
    ++ le_bytes 8 (Z.of_nat (length (as_bytes o))) ++ as_bytes o
    ++ le_bytes 8 (Z.of_nat (length (as_bytes u))) ++ as_bytes u
    ++ le_bytes 8 (Z.of_nat (length t)) ++ t
    ++ le_bytes 8 (Z.of_nat (length k)) ++ k ++ le_bytes 4 v.
Proof. unfold external_preimage, update_framed. by rewrite <-!(assoc_L (++)). Qed.

(** The external coordinates the framing can carry: lengths fit a [u64], the mapping
    version a [u32]. *)
Definition external_fits (org_id source_uri : string) (table_uuid logical_pk : list Z)
    (mapping_version : Z) : Prop :=
  fits64 (as_bytes org_id) ∧ fits64 (as_bytes source_uri) ∧ fits64 table_uuid ∧
  fits64 logical_pk ∧ in_range 32 mapping_version.

Lemma external_preimage_inj o u t k v o' u' t' k' v' :
  external_fits o u t k v → external_fits o' u' t' k' v' →
  external_preimage o u t k v = external_preimage o' u' t' k' v' →
  (o, u, t, k, v) = (o', u', t', k', v').
Proof.
  intros (Ho & Hu & Ht & Hk & Hv) (Ho' & Hu' & Ht' & Hk' & Hv').
  rewrite !external_preimage_unfold. intros Heq%(inj (app _)).
  apply frame_inj in Heq as [->%(inj as_bytes) Heq]; [|done..].
  apply frame_inj in Heq as [->%(inj as_bytes) Heq]; [|done..].
  apply frame_inj in Heq as [-> Heq]; [|done..].
  apply frame_inj in Heq as [-> Heq]; [|done..].
  apply le_bytes_inj in Heq as ->; [done|exact Hv|exact Hv'].
Qed.

(** A hash input decides the identity up to a collision of the truncated digest. *)
Lemma hash16_decides `{Blake3} x y : hash16 x = hash16 y → x = y ∨ hash16_collision.
Proof. intros. destruct (decide (x = y)); [by left|]. right. by exists x, y. Qed.

(** ** Separators *)

Lemma split_at_rs x x' y y' :
  30 ∉ x → 30 ∉ x' → x ++ RS ++ y = x' ++ RS ++ y' → x = x' ∧ y = y'.
Proof.
  revert x'. induction x as [|a x IH]; intros [|a' x'] Hx Hx' Heq;
    simpl in Heq; [by injection Heq|injection Heq; set_solver..|].
  injection Heq as -> Heq. destruct (IH x') as [-> ->]; [set_solver..|done].
Qed.

Lemma content_hash_preimage_inj o c o' c' :
  30 ∉ as_bytes o → 30 ∉ as_bytes o' →
  content_hash_preimage o c = content_hash_preimage o' c' → (o, c) = (o', c').
Proof.
  intros Ho Ho'. unfold content_hash_preimage. intros Heq%(inj (app _))%(inj (app _)).
  by apply split_at_rs in Heq as [->%(inj as_bytes) ->%(inj as_bytes)].
Qed.

(** ** Framed text *)

Lemma pretty_N_go_digits x s :
  Forall (λ c, c ≠ 58) (as_bytes s) → Forall (λ c, c ≠ 58) (as_bytes (pretty_N_go x s)).
Proof.
  revert s. induction (N.lt_wf_0 x) as [x _ IH]; intros s Hs.
  destruct (decide (0 < x)%N) as [Hx|Hx].
  - rewrite pretty_N_go_step by done. apply IH; [by apply N.div_lt|].
    constructor; [|done]. unfold pretty_N_char. by repeat case_match.
  - assert (x = 0)%N as -> by lia. done.
Qed.

Lemma pretty_digits (x : N) : Forall (λ c, c ≠ 58) (as_bytes (pretty x)).
Proof.
  unfold pretty, pretty_N. destruct (decide (x = 0)%N); [by repeat constructor|].
  apply pretty_N_go_digits. constructor.
Qed.

(** Text up to its first colon. *)
Lemma colon_inj a b k l :
  Forall (λ c, c ≠ 58) a → Forall (λ c, c ≠ 58) b → a ++ 58 :: k = b ++ 58 :: l → a = b ∧ k = l.
Proof.
  revert b. induction a as [|x a IH]; intros [|y b] Ha Hb E; simplify_eq/=; [done|..].
  - by apply Forall_cons in Hb as [? _].
  - by apply Forall_cons in Ha as [? _].
  - apply Forall_cons in Ha as [_ Ha], Hb as [_ Hb]. by destruct (IH b Ha Hb) as [-> ->].
Qed.

Lemma framed_inj x y (r q : list Z) :
  as_bytes (pretty (N.of_nat (String.length x)) +:+ ":" +:+ x) ++ r =
  as_bytes (pretty (N.of_nat (String.length y)) +:+ ":" +:+ y) ++ q → x = y ∧ r = q.
Proof.
  rewrite !as_bytes_app, <-!(assoc_L (++)). simpl. intros [En E]%colon_inj; [|apply pretty_digits..].
  apply (inj as_bytes), (inj pretty), (inj N.of_nat) in En.
  apply app_inj_1 in E as [Ex ->]; [|by rewrite !length_as_bytes, En].
  by apply (inj as_bytes) in Ex as ->.
Qed.

(** Strictly sorted lists of the same elements are one list, so a sorted cohort is its set. *)
Lemma sort_dedup_ext {A} `{EqDecision A} (cmp : A → A → comparison) `{!Comparable cmp} (l k : list A) :
  (∀ x, x ∈ l ↔ x ∈ k) ↔ dedup (merge_sort (le_of cmp) l) = dedup (merge_sort (le_of cmp) k).
Proof.
  destruct (sort_dedup_ids cmp l) as (Sl & Dl & El & _), (sort_dedup_ids cmp k) as (Sk & Dk & Ek & _).
  split; [|intros E x; by rewrite <-El, <-Ek, E]. intros Hx.
  set (l' := dedup (merge_sort (le_of cmp) l)) in *. set (k' := dedup (merge_sort (le_of cmp) k)) in *.
  assert (l' ≡ₚ k') as Hp by (apply NoDup_Permutation; [done..|]; intros x; by rewrite El, Ek).
  assert (Hle : ∀ m, StronglySorted (λ x y, cmp x y = Lt) m → StronglySorted (le_of cmp) m).
  { induction 1 as [|x m Hs IH Hm]; constructor; [done|]. eapply Forall_impl; [exact Hm|].
    intros y Hy. unfold le_of. by rewrite Hy. }
  by apply (StronglySorted_unique (le_of cmp)); [apply Hle..|].
Qed.

(** ** Hex digits *)

Definition mid_ok (id : MemoryId) : Prop :=
  length (mid_bytes id) = 16%nat ∧ Forall (λ b, 0 ≤ b < 256) (mid_bytes id).

(** [u8::to_ascii_lowercase]. *)
Definition byte_to_lower (c : Z) : Z := if (65 <=? c) && (c <=? 90) then c + 32 else c.

(** A byte predicate that holds of all 256 values holds of every byte. *)
Lemma byte_cases (p : Z → bool) :
  forallb p (seqZ 0 256) = true → ∀ b, 0 ≤ b < 256 → p b = true.
Proof.
  intros Hp b Hb. rewrite List.forallb_forall in Hp. apply Hp.
  apply list_elem_of_In, elem_of_seqZ. lia.
Qed.

Lemma parse_fmt_02x b :
  0 ≤ b < 256 → parse_hex_pairs (fmt_02x b) = Some [b].
Proof.
  intros Hb. apply (bool_decide_eq_true (parse_hex_pairs (fmt_02x b) = Some [b])).
  revert b Hb. apply byte_cases. vm_compute. reflexivity.
Qed.

Lemma fmt_02x_hexdigit b :
  0 ≤ b < 256 → forallb is_ascii_hexdigit (fmt_02x b) = true.
Proof. revert b. apply byte_cases. vm_compute. reflexivity. Qed.

Lemma fmt_02x_bytes b : 0 ≤ b < 256 → forallb (λ c, (0 <=? c) && (c <? 256)) (fmt_02x b) = true.
Proof. revert b. apply byte_cases. vm_compute. reflexivity. Qed.

Lemma parse_hex_pairs_fmt bs :
  Forall (λ b, 0 ≤ b < 256) bs → parse_hex_pairs (bs ≫= fmt_02x) = Some bs.
Proof.
  induction 1 as [|b bs Hb _ IH]; [done|].
  pose proof (parse_fmt_02x b Hb) as Hp. unfold fmt_02x in Hp. simpl in Hp.
  rewrite bind_cons. unfold fmt_02x at 1. simpl.
  apply bind_Some in Hp as (hi & -> & (lo & -> & Hp)%bind_Some). simpl in *.
  rewrite IH. simpl. by injection Hp as ->.
Qed.

Lemma to_digit16_lower c d :
  0 ≤ c < 256 → to_digit16 c = Some d → hex_digit d = byte_to_lower c ∧ 0 ≤ d < 16.
Proof.
  intros Hc. unfold to_digit16, hex_digit, byte_to_lower. intros Hd. break_hyp Hd; bool_prop.
  all: repeat match goal with
    |- context [if ?b then _ else _] => destruct b eqn:?
  end; bool_prop; try lia.
  all: repeat match goal with H : (_ && _) = false |- _ => apply andb_false_iff in H as [?|?] end;
    bool_prop; lia.
Qed.

Lemma lor_byte b :
  0 ≤ b < 256 → Z.lor (Z.shiftl (b / 16) 4) (b `mod` 16) `mod` 256 = b.
Proof.
  intros Hb. apply (bool_decide_eq_true (Z.lor (Z.shiftl (b / 16) 4) (b `mod` 16) `mod` 256 = b)).
  revert b Hb. apply byte_cases. vm_compute. reflexivity.
Qed.

Lemma lor_shiftl_4 d1 d2 :
  0 ≤ d1 < 16 → 0 ≤ d2 < 16 →
  Z.lor (Z.shiftl d1 4) d2 `mod` 256 = 16 * d1 + d2.
Proof.
  intros H1 H2. pose proof (lor_byte (d1 * 16 + d2) ltac:(lia)) as Hb.
  replace ((d1 * 16 + d2) / 16) with d1 in Hb by (rewrite Z.div_add_l, Z.div_small; lia).
  replace ((d1 * 16 + d2) `mod` 16) with d2 in Hb
    by (rewrite Z.add_comm, Z.mod_add, Z.mod_small; lia).
  lia.
Qed.

(** What a successful scan of hex pairs gives: bytes, whose lowercase print is the
    lowercased input. *)
Lemma parse_hex_pairs_inv n bytes out :
  (length bytes ≤ n)%nat → Forall (λ c, 0 ≤ c < 256) bytes → parse_hex_pairs bytes = Some out →
  length bytes = (2 * length out)%nat ∧ Forall (λ b, 0 ≤ b < 256) out ∧
  out ≫= fmt_02x = byte_to_lower <$> bytes.
Proof.
  revert bytes out. induction n as [|n IH]; intros [|c1 [|c2 bytes]] out Hn Hc; simpl in Hn;
    try (intros [= <-]; done); try lia; try done.
  cbn [parse_hex_pairs].
  intros (hi & Hhi & (lo & Hlo & (rest & Hrest & [= <-])%bind_Some)%bind_Some)%bind_Some.
  apply Forall_cons in Hc as [Hc1 [Hc2 Hc]%Forall_cons].
  apply to_digit16_lower in Hhi as [Hhi ?]; [|done].
  apply to_digit16_lower in Hlo as [Hlo ?]; [|done].
  apply IH in Hrest as (Hlen & Hall & Hfmt); [|lia|done].
  rewrite lor_shiftl_4 by done. split_and!.
  - simpl. lia.
  - constructor; [lia|done].
  - rewrite bind_cons, Hfmt. unfold fmt_02x. simpl. repeat f_equal.
    + rewrite Z.mul_comm, Z.div_add_l, Z.div_small by lia. by rewrite Z.add_0_r.
    + rewrite Z.add_comm, Z.mul_comm, Z.mod_add, Z.mod_small by lia. done.
Qed.

Lemma to_digit16_hexdigit c : is_ascii_hexdigit c = true → is_Some (to_digit16 c).
Proof.
  unfold is_ascii_hexdigit, to_digit16. intros H. break; eauto.
Qed.

Lemma parse_hex_pairs_total n bytes :
  length bytes = (2 * n)%nat → forallb is_ascii_hexdigit bytes = true →
  is_Some (parse_hex_pairs bytes).
Proof.
  revert bytes. induction n as [|n IH]; intros [|c1 [|c2 bytes]] Hlen Hall; simpl in Hlen;
    try lia; [eauto|].
  cbn [forallb] in Hall. bool_prop. cbn [parse_hex_pairs].
  destruct (to_digit16_hexdigit c1) as [? ->]; [done|].
  destruct (to_digit16_hexdigit c2) as [? ->]; [done|]. simpl.
  destruct (IH bytes) as [? ->]; [lia|done|]. simpl. eauto.
Qed.

Lemma as_bytes_string_of_bytes l :
  Forall (λ c, 0 ≤ c < 256) l → as_bytes (string_of_bytes l) = l.
Proof.
  intros Hl. unfold as_bytes, string_of_bytes.
  rewrite String.list_ascii_of_string_of_list_ascii, <-list_fmap_compose.
  rewrite <-(list_fmap_id l) at 2. apply list_fmap_ext. intros i c Hi. simpl.
  apply byte_of_ascii_of_byte. by eapply Forall_lookup_1 in Hl.
Qed.

Lemma as_bytes_range s : Forall (λ c, 0 ≤ c < 256) (as_bytes s).
Proof. apply Forall_fmap, Forall_true. intros. apply byte_of_ascii_range. Qed.

Lemma hex_bytes bs :
  Forall (λ b, 0 ≤ b < 256) bs → as_bytes (hex bs) = bs ≫= fmt_02x.
Proof.
  intros Hbs. apply as_bytes_string_of_bytes. rewrite Forall_bind.
  eapply Forall_impl; [done|]. intros b Hb%fmt_02x_bytes.
  apply Forall_forall. intros c Hc%list_elem_of_In. rewrite List.forallb_forall in Hb.
  apply Hb in Hc. bool_prop. lia.
Qed.

Lemma hex_inj x y : bytes_ok x → bytes_ok y → hex x = hex y → x = y.
Proof.
  intros Hx Hy E. apply (f_equal as_bytes) in E. rewrite !hex_bytes in E by done.
  apply (f_equal parse_hex_pairs) in E. rewrite !parse_hex_pairs_fmt in E by done. congruence.
Qed.

Lemma forallb_hexdigit_hex bs :
  Forall (λ b, 0 ≤ b < 256) bs → forallb is_ascii_hexdigit (bs ≫= fmt_02x) = true.
Proof.
  induction 1 as [|b bs Hb _ IH]; [done|]. rewrite bind_cons, List.forallb_app, IH.
  by rewrite fmt_02x_hexdigit.
Qed.

Lemma length_hex_bytes bs : length (bs ≫= fmt_02x) = (2 * length bs)%nat.
Proof. induction bs as [|b bs IH]; [done|]. rewrite bind_cons, length_app, IH. simpl. lia. Qed.

(** ** Properties of identities *)

(** Two external rows get the same [MemoryId] only if all five coordinates are equal,
    byte for byte, or the truncated BLAKE3 digest collides: the framing leaves no other way
    for identities to meet. *)
Theorem from_external_identity `{Blake3} o u t k v o' u' t' k' v' :
  external_fits o u t k v → external_fits o' u' t' k' v' →
  MemoryId_from_external o u t k v = MemoryId_from_external o' u' t' k' v' →
  (o, u, t, k, v) = (o', u', t', k', v') ∨ hash16_collision.
Proof.
  intros Hf Hf' [= Heq]. apply hash16_decides in Heq as [Heq|]; [left|by right].
  by apply external_preimage_inj.
Qed.

(** The content-hash and entity identities are separated by a bare [0x1e] byte, which
    is legal in an organisation id.  Without it in the organisation ids the content identity
    is unambiguous up to a digest collision; with it, two organisations share identities
    for every hash function, both for content-hashed memories and for named entities. *)
Theorem separator_identity `{Blake3} :
  (∀ o c o' c', 30 ∉ as_bytes o → 30 ∉ as_bytes o' →
    MemoryId_from_content_hash o c = MemoryId_from_content_hash o' c' →
    (o, c) = (o', c') ∨ hash16_collision) ∧
  (∀ a b c, MemoryId_from_content_hash (a +:+ string_of_bytes RS +:+ b) c =
            MemoryId_from_content_hash a (b +:+ string_of_bytes RS +:+ c)) ∧
  (∀ a b t t' c, in_range 8 t → in_range 8 t' →
    EntityId_from_parts (a +:+ string_of_bytes (RS ++ [t] ++ RS) +:+ b) t' c =
    EntityId_from_parts a t (b +:+ string_of_bytes (RS ++ [t'] ++ RS) +:+ c)).
Proof.
  assert (∀ l, Forall (λ c, 0 ≤ c < 256) l → as_bytes (string_of_bytes l) = l) as Hs
    by exact as_bytes_string_of_bytes.
  split_and!.
  - intros o c o' c' Ho Ho' [= Heq]. apply hash16_decides in Heq as [Heq|]; [left|by right].
    by apply content_hash_preimage_inj.
  - intros a b c. unfold MemoryId_from_content_hash, content_hash_preimage. do 2 f_equal.
    by rewrite !as_bytes_app, !(Hs RS) by (repeat constructor; lia); rewrite <-!(assoc_L (++)).
  - intros a b t t' c Ht Ht'. unfold EntityId_from_parts, from_parts_preimage. do 2 f_equal.
    change (0 ≤ t < 256) in Ht. change (0 ≤ t' < 256) in Ht'.
    rewrite !as_bytes_app, !Hs by (repeat constructor; lia). unfold le_bytes.
    rewrite !Z.mod_small by lia. by rewrite <-!(assoc_L (++)).
Qed.

(** Hex identities round trip.  Printing a 16-byte id and parsing it gives the id back;
    a string parses exactly when it is 32 hex digits, the result is a 16-byte id, and printing
    it gives the input in lower case, so parsing is case-insensitive and nothing else. *)
Theorem hex_roundtrip :
  (∀ id, mid_ok id → parse_hex (to_hex id) = Some id) ∧
  (∀ s, is_Some (parse_hex s) ↔
    length (as_bytes s) = 32%nat ∧ forallb is_ascii_hexdigit (as_bytes s) = true) ∧
  (∀ s id, parse_hex s = Some id →
    mid_ok id ∧ as_bytes (to_hex id) = byte_to_lower <$> as_bytes s).
Proof.
  split_and!.
  - intros [bs] [Hlen Hbs]. simpl in *. unfold parse_hex, to_hex. simpl.
    rewrite hex_bytes, length_hex_bytes, Hlen, forallb_hexdigit_hex by done. simpl.
    by rewrite parse_hex_pairs_fmt.
  - intros s. unfold parse_hex. split.
    + intros [id Hid]. break_hyp Hid. rewrite orb_false_iff, !negb_false_iff in Heqb.
      by rewrite Nat.eqb_eq in Heqb.
    + intros [Hlen Hall]. rewrite Hlen, Hall. simpl.
      destruct (parse_hex_pairs_total 16 (as_bytes s)) as [? ->]; simpl; eauto.
  - intros s id Hid. unfold parse_hex in Hid. break_hyp Hid.
    apply fmap_Some in Hid as (out & Hout & ->).
    rewrite orb_false_iff, !negb_false_iff, Nat.eqb_eq in Heqb. destruct Heqb as [Hlen _].
    apply (parse_hex_pairs_inv 32) in Hout as (Hl & Hr & Hf); [|lia|apply as_bytes_range].
    unfold to_hex, mid_ok. simpl. by rewrite hex_bytes by done; split_and!; try lia.
Qed.

(** ** A concrete hash, for the witnesses *)

(** A polynomial of the input modulo 2^256: a computable function with the digest's length. *)
Definition demo_digest (x : list Z) : list Z :=
  le_bytes 32 (wrap 256 (foldl (λ acc b, wrap 256 (acc * 257 + b + 1)) 7 x)).
Lemma length_demo_digest (x : list Z) : length (demo_digest x) = 32%nat.
Proof. apply length_le_bytes. Qed.

Lemma demo_digest_bytes (x : list Z) : bytes_ok (demo_digest x).
Proof. apply le_bytes_ok. Qed.

Definition demo_blake3 : Blake3 :=
  {| blake3 := demo_digest; blake3_length := length_demo_digest;
     blake3_bytes := demo_digest_bytes |}.

Lemma from_external_identity_witness :
  let h := demo_blake3 in
  external_fits "org" "iceberg://t" [1; 2] [7] 1 ∧
  (("org", "iceberg://t", [1; 2], [7], 1) = ("org", "iceberg://t", [1; 2], [7], 1)
   ∨ hash16_collision).
Proof.
  assert (external_fits "org" "iceberg://t" [1; 2] [7] 1) as Hf
    by (unfold external_fits, fits64, in_range; simpl; lia).
  split; [exact Hf|].
  exact (@from_external_identity demo_blake3 _ _ _ _ _ _ _ _ _ _ Hf Hf eq_refl).
Defined.

Lemma separator_identity_witness :
  let h := demo_blake3 in
  MemoryId_from_content_hash ("acme" +:+ string_of_bytes RS +:+ "eu") "note" =
  MemoryId_from_content_hash "acme" ("eu" +:+ string_of_bytes RS +:+ "note").
Proof. exact (proj1 (proj2 (@separator_identity demo_blake3)) "acme" "eu" "note"). Defined.
