(* ===== verification/Kernel.v ===== *)
(** * The kernel's data model

    [visibility.rs], [kinds.rs], [provenance.rs], [memory.rs], [relationship.rs],
    [entity.rs] and [draft.rs] of [crates/exocortex-kernel/src]: visibility labels and
    their order, relationship-kind handles, provenance, memories, relationships and the
    write-path drafts, with every field of the source.

    [f32] is IEEE binary32 as [spec_float] (precision 24, maximal exponent 128);
    [DateTime<Utc>] is a [Z] counting nanoseconds; [SmolStr] and [String] are byte strings. *)

From S2P Require Import Prelude Ids.

(** ** Floats *)

Definition f32 : Type := spec_float.
Definition f32_prec : Z := 24.
Definition f32_emax : Z := 128.
Definition f32_mul (x y : f32) : f32 := SFmul f32_prec f32_emax x y.
Definition f32_add (x y : f32) : f32 := SFadd f32_prec f32_emax x y.
Definition f32_sub (x y : f32) : f32 := SFsub f32_prec f32_emax x y.
(** [n as f32]: the nearest representable value. *)
Definition f32_of_Z (n : Z) : f32 := binary_normalize f32_prec f32_emax n 0 false.
(** Derived [PartialEq] on [f32]: NaN equals nothing, the two zeros are equal. *)
Definition f32_eqb (x y : f32) : bool := SFeqb x y.

#[global] Instance f32_eq_dec : EqDecision f32.
Proof. unfold f32. solve_decision. Defined.

(** [f64] is IEEE binary64. *)
Definition f64 : Type := spec_float.
Definition f64_of_Z (n : Z) : f64 := binary_normalize 53 1024 n 0 false.
Definition f64_add (x y : f64) : f64 := SFadd 53 1024 x y.
Definition f64_sub (x y : f64) : f64 := SFsub 53 1024 x y.
Definition f64_mul (x y : f64) : f64 := SFmul 53 1024 x y.
Definition f64_div (x y : f64) : f64 := SFdiv 53 1024 x y.

Definition DateTime : Type := Z.

(** ** Visibility *)

(* SRC crates/exocortex-kernel/src/visibility.rs 4-19 Visibility *)
Inductive Visibility := Private | Project | Team | Org | Public.

#[global] Instance Visibility_eq_dec : EqDecision Visibility.
Proof. solve_decision. Defined.

(** [self as u8]; the derived [Ord] is the order of the discriminants. *)
Definition vis_u8 (v : Visibility) : Z :=
  match v with Private => 0 | Project => 1 | Team => 2 | Org => 3 | Public => 4 end.

#[global] Instance vis_u8_inj : Inj (=) (=) vis_u8.
Proof. by intros [] []. Qed.

(* SRC crates/exocortex-kernel/src/visibility.rs 22-26 Visibility::within *)
Definition within (self ceiling : Visibility) : bool := vis_u8 self <=? vis_u8 ceiling.

(** [Ord::min] of the derived order. *)
Definition vis_min (a b : Visibility) : Visibility := if vis_u8 b <? vis_u8 a then b else a.

(* SRC crates/exocortex-kernel/src/visibility.rs 29-32 relationship_visibility *)
Definition relationship_visibility (from to : Visibility) : Visibility := vis_min from to.

(* SRC crates/exocortex-kernel/src/visibility.rs 34-39 narrowest_visibility *)
Definition narrowest_visibility (vs : list Visibility) : option Visibility :=
  match vs with
  | [] => None
  | v :: vs => Some (foldl vis_min v vs)
  end.

(** ** Relationship kinds *)

(* SRC crates/exocortex-kernel/src/ids.rs 162-164 PackId *)
Record PackId := mkPackId { pack_slot : Z }.

(* SRC crates/exocortex-kernel/src/kinds.rs 16-19 RelKindId::from_kernel *)
Definition from_kernel (local : Z) : RelKindId := mkRelKindId local.

(* SRC crates/exocortex-kernel/src/kinds.rs 20-24 RelKindId::from_pack *)
Definition from_pack (pack : PackId) (local : Z) : RelKindId :=
  mkRelKindId (Z.lor (Z.lor 0x80000000 (wrap 32 (Z.shiftl (pack_slot pack) 16))) local).

(* SRC crates/exocortex-kernel/src/kinds.rs 25-28 RelKindId::is_kernel *)
Definition is_kernel (k : RelKindId) : bool := Z.land (kind_val k) 0x80000000 =? 0.

(* SRC crates/exocortex-kernel/src/kinds.rs 29-32 RelKindId::local_part *)
Definition local_part (k : RelKindId) : Z := Z.land (kind_val k) 0x0000FFFF.

(* SRC crates/exocortex-kernel/src/kinds.rs 37-44 SOLVES *)
Definition SOLVES : RelKindId := from_kernel 0.
Definition FIXES : RelKindId := from_kernel 1.
Definition CAUSES : RelKindId := from_kernel 2.
Definition IN_SESSION : RelKindId := from_kernel 3.

(* SRC crates/exocortex-kernel/src/kinds.rs 46-69 RelBucket *)
Inductive RelBucket :=
  | Causal | Solution | Context | Learning | Similarity | Workflow | Quality | Integration
  | Extension (ext : Z).

#[global] Instance RelBucket_eq_dec : EqDecision RelBucket.
Proof. solve_decision. Defined.

(* SRC crates/exocortex-kernel/src/kinds.rs 71-91 RelMeta *)
Record RelMeta := mkRelMeta {
  km_id : RelKindId;
  display_name : string;
  bucket : RelBucket;
  inverse : option RelKindId;
  km_bidirectional : bool;
  default_strength : f32;
  computed_only : bool;
}.

#[global] Instance RelMeta_eq_dec : EqDecision RelMeta.
Proof. solve_decision. Defined.

(** ** Errors *)

(* SRC crates/exocortex-kernel/src/error.rs 14-62 KernelError *)
Inductive KernelError :=
  | DuplicatePack (name : string)
  | DuplicateKind (id : RelKindId)
  | DuplicateKindName (name : string)
  | UnboundKernelConstant (id : RelKindId)
  | UnknownKind (id : RelKindId)
  | InvalidTypeTriple (kind : RelKindId) (from : Z)
  | TitleBounds
  | EmptyContent
  | VisibilityWidening (source : string) (ceiling attempted : Visibility)
  | SummaryBounds
  | MetadataTooLarge
  | ScoreOutOfRange (v : f32)
  | DuplicateTypeName (name : string)
  | InvalidActionInput (detail : string).

#[global] Instance KernelError_eq_dec : EqDecision KernelError.
Proof. solve_decision. Defined.

(** ** Provenance *)

(* SRC crates/exocortex-kernel/src/provenance.rs 51-66 ComputedProducer *)
Inductive ComputedProducer :=
  | SimilarityCosine | SimilarityHnsw | Abstraction | EntityCoOccurrence | SessionCoOccurrence.

(* SRC crates/exocortex-kernel/src/provenance.rs 68-98 ProducerKind *)
Inductive ProducerKind :=
  | Unspecified | CodingAgent | ResearchAgent | DocsAdapter | AnalyticsAdapter | Custom
  | ExtractedProducer | SaaSAdapter.

(* SRC crates/exocortex-kernel/src/provenance.rs 117-126 ExternalKey *)
Record ExternalKey := mkExternalKey {
  ek_table_uuid : string;
  ek_logical_pk : list Z;
  ek_mapping_version : Z;
}.

(* SRC crates/exocortex-kernel/src/provenance.rs 100-115 ExternalSnapshot *)
Record ExternalSnapshotData := mkExternalSnapshot {
  es_source_uri : string;
  es_snapshot_id : string;
  es_schema_hash : list Z;
  es_observed_at : DateTime;
  es_external_key : ExternalKey;
  es_producer_id : string;
}.

(* SRC crates/exocortex-kernel/src/provenance.rs 6-49 Provenance *)
Inductive Provenance :=
  | Asserted (author : string) (producer_kind : option ProducerKind)
  | Derived (rule_id : string) (evidence : list RelationshipId)
  | Computed (producer : ComputedProducer) (threshold : f32)
  | Extracted (extractor : string) (extraction_confidence : f32)
  | Proposed (discovery_id : list Z) (score : f32)
  | ExternalSnapshot (data : ExternalSnapshotData).

(** ** Memories *)

(** [serde_json::Number]: an unsigned, a negative or a floating-point number. *)
Inductive json_number := PosInt (n : Z) | NegInt (n : Z) | Float (x : spec_float).

(** [serde_json::Value]. *)
Inductive json :=
  | JNull | JBool (b : bool) | JNumber (n : json_number) | JString (s : string)
  | JArray (l : list json) | JObject (fields : list (string * json)).

(** [serde_json]'s compact printer, code the source only calls. *)
Class SerdeJson := { json_to_string : json → string }.

(* SRC crates/exocortex-kernel/src/memory.rs 9-15 F01 *)
Record F01 := mkF01 { f01_get : f32 }.

(** [0.0f32] and [1.0f32]. *)
Definition f32_zero : f32 := S754_zero false.
Definition f32_one : f32 := S754_finite false 8388608 (-23).

(* SRC crates/exocortex-kernel/src/memory.rs 24-31 F01::new *)
Definition F01_new (v : f32) : result F01 KernelError :=
  if SFleb f32_zero v && SFleb v f32_one then Ok (mkF01 v) else Err (ScoreOutOfRange v).

(* SRC crates/exocortex-kernel/src/memory.rs 36-41 F01::partial_cmp_score *)
Definition partial_cmp_score (a b : F01) : comparison :=
  match SFcompare (f01_get a) (f01_get b) with Some c => c | None => Eq end.

(** The nearest [f32] to a decimal constant of hundredths, and [f32::clamp]. *)
Definition f32_hundredths (n : Z) : f32 := SFdiv f32_prec f32_emax (f32_of_Z n) (f32_of_Z 100).
Definition f32_clamp (x lo hi : f32) : f32 :=
  if SFltb x lo then lo else if SFltb hi x then hi else x.

(* SRC crates/exocortex-kernel/src/memory.rs 246-276 derived_confidence *)
Definition derived_confidence (superseded : bool) (validations counter_evidence : Z) : result F01 KernelError :=
  let v := if superseded then f32_hundredths 10
           else f32_clamp
                  (f32_sub (f32_add (f32_hundredths 80) (f32_mul (f32_of_Z validations) (f32_hundredths 5)))
                           (f32_mul (f32_of_Z counter_evidence) (f32_hundredths 5)))
                  (f32_hundredths 10) f32_one in
  F01_new v.

(* SRC crates/exocortex-kernel/src/memory.rs 44-51 EmbeddingModel *)
Record EmbeddingModel := mkEmbeddingModel { em_name : string; em_version : string }.

(* SRC crates/exocortex-kernel/src/memory.rs 53-60 Embedding *)
Record Embedding := mkEmbedding { emb_model : EmbeddingModel; emb_vector : list f32 }.

(* SRC crates/exocortex-kernel/src/memory.rs 143-161 Rights *)
Record Rights := mkRights {
  licence : option string;
  consent_basis : option string;
  retention_until : option DateTime;
  redacted : bool;
}.

(* SRC crates/exocortex-kernel/src/memory.rs 164-173 Rights::egress_permitted *)
Definition egress_permitted (r : Rights) : bool :=
  match licence r with Some l => negb (String.eqb l "") | None => false end &&
  match consent_basis r with Some b => negb (String.eqb b "") | None => false end.

(* SRC crates/exocortex-kernel/src/memory.rs 176-214 MemoryContext *)
Record MemoryContext := mkMemoryContext {
  timestamp : DateTime;
  project_id : option string;
  project_path : option string;
  team_id : option string;
  tenant_id : option string;
  session_id : option string;
  user_id : option string;
  created_by : option string;
  files_involved : list string;
  languages : list string;
  frameworks : list string;
  technologies : list string;
  git_commit : option string;
  git_branch : option string;
  working_directory : option string;
  entities : list EntityId;
  additional_metadata : json;
}.

(* SRC crates/exocortex-kernel/src/memory.rs 90-141 Memory *)
Record Memory := mkMemory {
  m_id : MemoryId;
  memory_type : Z;
  title : string;
  content : string;
  summary : option string;
  tags : list string;
  m_visibility : Visibility;
  m_provenance : Provenance;
  context : MemoryContext;
  importance : F01;
  confidence : F01;
  effectiveness : option F01;
  usage_count : Z;
  m_valid_from : DateTime;
  m_valid_until : option DateTime;
  m_recorded_at : DateTime;
  m_invalidated_by : option MemoryId;
  embedding : option Embedding;
  m_lsn : LSN;
  rights : option Rights;
}.

(** [m.lsn = l]. *)
Definition m_set_lsn (l : LSN) (m : Memory) : Memory :=
  let '(mkMemory a b c d e f g h i j k n o p q r s t _ u) := m in
  mkMemory a b c d e f g h i j k n o p q r s t l u.

(** The closed version of a row: [valid_until], [recorded_at] and [lsn] replaced. *)
Definition m_close (now : DateTime) (l : LSN) (m : Memory) : Memory :=
  let '(mkMemory a b c d e f g h i j k n o p _ _ s t _ u) := m in
  mkMemory a b c d e f g h i j k n o p (Some now) now s t l u.

(** ** Relationships *)

(* SRC crates/exocortex-kernel/src/relationship.rs 41-61 RelationshipProperties *)
Record RelationshipProperties := mkRelationshipProperties {
  strength : f32;
  rp_confidence : f32;
  rp_context : option string;
  evidence_count : Z;
  success_rate : option f32;
  validation_count : Z;
  counter_evidence_count : Z;
  last_validated : DateTime;
}.

(* SRC crates/exocortex-kernel/src/relationship.rs 8-39 Relationship *)
Record Relationship := mkRelationship {
  r_id : RelationshipId;
  r_kind : RelKindId;
  r_from : MemoryId;
  r_to : MemoryId;
  r_visibility : Visibility;
  r_provenance : Provenance;
  r_properties : RelationshipProperties;
  r_description : option string;
  r_bidirectional : bool;
  r_valid_from : DateTime;
  r_valid_until : option DateTime;
  r_recorded_at : DateTime;
  r_invalidated_by : option RelationshipId;
  r_lsn : LSN;
}.

Definition r_set_lsn (l : LSN) (r : Relationship) : Relationship :=
  let '(mkRelationship a b c d e f g h i j k n o _) := r in
  mkRelationship a b c d e f g h i j k n o l.

Definition r_close (now : DateTime) (l : LSN) (r : Relationship) : Relationship :=
  let '(mkRelationship a b c d e f g h i j _ _ o _) := r in
  mkRelationship a b c d e f g h i j (Some now) now o l.

(** ** Drafts *)

(* SRC crates/exocortex-kernel/src/draft.rs 31-42 EdgeHint *)
Record EdgeHint := mkEdgeHint {
  eh_kind : RelKindId;
  eh_to : MemoryId;
  eh_strength : option f32;
  eh_confidence : option f32;
}.

(* SRC crates/exocortex-kernel/src/draft.rs 8-29 MemoryDraft *)
Record MemoryDraft := mkMemoryDraft {
  d_memory_type : Z;
  d_title : string;
  d_content : string;
  d_summary : option string;
  d_visibility : Visibility;
  d_context : MemoryContext;
  d_edge_hints : list EdgeHint;
  d_external_key : option ExternalKey;
}.

(* SRC crates/exocortex-kernel/src/entity.rs 6-18 Entity *)
Record Entity := mkEntity {
  ent_id : EntityId;
  ent_type : Z;
  canonical_name : string;
  aliases : list string;
}.

(** ** Kind handles: the bit layout *)

Lemma lor_add_low a b n :
  0 ≤ n → 0 ≤ b < 2 ^ n → Z.lor (Z.shiftl a n) b = Z.shiftl a n + b.
Proof.
  intros Hn Hb. rewrite <-Z.lxor_lor, Z.add_nocarry_lxor; try done.
  all: apply Z.bits_inj'; intros i Hi; rewrite Z.land_spec, Z.bits_0.
  all: destruct (decide (i < n)); [rewrite Z.shiftl_spec_low by lia; done|].
  all: rewrite <-(Z.mod_small b (2 ^ n)), Z.mod_pow2_bits_high by lia; apply andb_false_r.
Qed.

Lemma from_pack_value p l :
  0 ≤ pack_slot p < 2 ^ 15 → in_range 16 l →
  kind_val (from_pack p l) = Z.shiftl (2 ^ 15 + pack_slot p) 16 + l.
Proof.
  unfold in_range, from_pack. intros Hp Hl. simpl.
  rewrite wrap_small by (unfold in_range; rewrite Z.shiftl_mul_pow2; lia).
  rewrite <-lor_add_low by lia. f_equal.
  change 0x80000000 with (Z.shiftl (2 ^ 15) 16). rewrite <-Z.shiftl_lor. f_equal.
  change (2 ^ 15) with (Z.shiftl 1 15). by rewrite lor_add_low.
Qed.

Lemma local_part_low a l : in_range 16 l → Z.land (Z.shiftl a 16 + l) 0xFFFF = l.
Proof.
  intros Hl. change 0xFFFF with (Z.ones 16). rewrite Z.land_ones by lia.
  rewrite Z.shiftl_mul_pow2, Z.add_comm, Z.mod_add by lia. by apply Z.mod_small.
Qed.

Lemma is_kernel_spec k : is_kernel k = negb (Z.testbit (kind_val k) 31).
Proof.
  unfold is_kernel. change 0x80000000 with (2 ^ 31).
  destruct (Z.testbit (kind_val k) 31) eqn:Ht; simpl.
  - apply Z.eqb_neq. intros H0. apply (f_equal (λ x, Z.testbit x 31)) in H0.
    by rewrite Z.land_spec, Ht, Z.pow2_bits_true, Z.bits_0 in H0.
  - apply Z.eqb_eq, Z.bits_inj'. intros i Hi. rewrite Z.land_spec, Z.bits_0.
    destruct (decide (i = 31)) as [->|]; [by rewrite Ht|].
    rewrite Z.pow2_bits_false by lia. apply andb_false_r.
Qed.

(** ** Tags *)

(** The ASCII part of [char::is_whitespace] and [str::to_lowercase]. *)
Definition is_ws (c : Z) : bool := ((9 <=? c) && (c <=? 13)) || (c =? 32).

Fixpoint trim_start (l : list Z) : list Z :=
  match l with
  | c :: l' => if is_ws c then trim_start l' else l
  | [] => []
  end.
Definition trim (l : list Z) : list Z := reverse (trim_start (reverse (trim_start l))).
Definition to_lowercase (l : list Z) : list Z := byte_to_lower <$> l.

(* SRC crates/exocortex-kernel/src/memory.rs 216-226 normalize_tag *)
Definition normalize_tag (tag : string) : option string :=
  let normalized := to_lowercase (trim (as_bytes tag)) in
  match normalized with
  | [] => None
  | _ => Some (string_of_bytes normalized)
  end.

(* SRC crates/exocortex-kernel/src/memory.rs 228-244 normalize_tags *)
Definition normalize_tags (tags : list string) : list string :=
  foldl (λ out t,
    match normalize_tag t with
    | Some n => if bool_decide (n ∈ out) then out else out ++ [n]
    | None => out
    end) [] tags.

Lemma trim_start_head l c l' : trim_start l = c :: l' → is_ws c = false.
Proof. induction l as [|a l IH]; simpl; [done|]. destruct (is_ws a) eqn:?; naive_solver. Qed.

Lemma trim_start_id l : (∀ c l', l = c :: l' → is_ws c = false) → trim_start l = l.
Proof. destruct l as [|c l]; [done|]. intros H. simpl. by rewrite (H c l). Qed.

Lemma trim_start_suffix l : ∃ k, l = k ++ trim_start l.
Proof.
  induction l as [|c l [k IH]]; [by exists []|]. simpl. destruct (is_ws c); [|by exists []].
  exists (c :: k). by rewrite IH at 1.
Qed.

(** The trimmed string neither starts nor ends with white space. *)
Lemma trim_ends l :
  (∀ c k, trim l = c :: k → is_ws c = false) ∧ (∀ c k, trim l = k ++ [c] → is_ws c = false).
Proof.
  unfold trim. set (a := trim_start l).
  assert (Ha : ∀ c k, a = c :: k → is_ws c = false) by (intros; by eapply trim_start_head).
  destruct (trim_start_suffix (reverse a)) as [p Hp]. split.
  - intros c k Hc. apply (Ha c (k ++ reverse p)).
    rewrite <-(reverse_involutive a), Hp, reverse_app, Hc. done.
  - intros c k Hc. apply (f_equal reverse) in Hc.
    rewrite reverse_involutive, reverse_snoc in Hc. by eapply trim_start_head.
Qed.

Lemma trim_id l :
  (∀ c k, l = c :: k → is_ws c = false) → (∀ c k, l = k ++ [c] → is_ws c = false) → trim l = l.
Proof.
  intros Hh Hl. unfold trim. rewrite (trim_start_id l) by done.
  rewrite trim_start_id; [apply reverse_involutive|]. intros c k Hc. apply (Hl c (reverse k)).
  by rewrite <-(reverse_involutive l), Hc, reverse_cons.
Qed.

Lemma is_ws_lower c : is_ws (byte_to_lower c) = is_ws c.
Proof.
  unfold byte_to_lower. destruct ((65 <=? c) && (c <=? 90)) eqn:E; [|done]. bool_prop.
  unfold is_ws. destruct (9 <=? c) eqn:?, (c <=? 13) eqn:?, (c =? 32) eqn:?,
    (9 <=? c + 32) eqn:?, (c + 32 <=? 13) eqn:?, (c + 32 =? 32) eqn:?; bool_prop; lia || done.
Qed.

Lemma to_lowercase_idemp l : to_lowercase (to_lowercase l) = to_lowercase l.
Proof.
  unfold to_lowercase. rewrite <-list_fmap_compose. apply list_fmap_ext. intros i c _. simpl.
  unfold byte_to_lower. repeat case_match; bool_prop; lia.
Qed.

Lemma trim_lower l : trim (to_lowercase (trim l)) = to_lowercase (trim l).
Proof.
  destruct (trim_ends l) as [Hh Hl]. apply trim_id; intros c k Hc; unfold to_lowercase in Hc.
  - apply fmap_cons_inv in Hc as (c' & k' & -> & -> & Hc). rewrite is_ws_lower. eauto.
  - apply fmap_app_inv in Hc as (k' & l' & -> & Hc' & Hc).
    apply symmetry, fmap_cons_inv in Hc' as (c' & [|??] & -> & Hn & ->); [|done].
    rewrite is_ws_lower. eauto.
Qed.

Lemma byte_to_lower_range c : 0 ≤ c < 256 → 0 ≤ byte_to_lower c < 256.
Proof. unfold byte_to_lower. case_match; bool_prop; lia. Qed.

Lemma trim_elem c l : c ∈ trim l → c ∈ l.
Proof.
  unfold trim. rewrite elem_of_reverse. intros Hc.
  destruct (trim_start_suffix (reverse (trim_start l))) as [k1 Hk1].
  destruct (trim_start_suffix l) as [k2 Hk2]. rewrite Hk2. apply elem_of_app. right.
  rewrite <-elem_of_reverse, Hk1. apply elem_of_app. by right.
Qed.

(** A normalized tag is a fixed point of normalization. *)
Lemma normalize_tag_idemp t n : normalize_tag t = Some n → normalize_tag n = Some n.
Proof.
  unfold normalize_tag. intros Hn. destruct (to_lowercase (trim (as_bytes t))) as [|c l] eqn:E;
    simplify_eq/=.
  assert (Hr : Forall (λ c, 0 ≤ c < 256) (c :: l)).
  { rewrite <-E. apply Forall_fmap, Forall_forall. intros x Hx%trim_elem. simpl.
    apply byte_to_lower_range. by eapply Forall_forall in Hx; [|apply as_bytes_range]. }
  rewrite as_bytes_string_of_bytes by done.
  by rewrite <-E, trim_lower, to_lowercase_idemp, E.
Qed.

(** The accumulator of [normalize_tags]. *)
Definition push_tag (out : list string) (t : string) : list string :=
  match normalize_tag t with
  | Some n => if bool_decide (n ∈ out) then out else out ++ [n]
  | None => out
  end.

Lemma foldl_push_tag_elem tags out n :
  n ∈ foldl push_tag out tags ↔ n ∈ out ∨ ∃ t, t ∈ tags ∧ normalize_tag t = Some n.
Proof.
  revert out. induction tags as [|t tags IH]; intros out; simpl; [set_solver|].
  rewrite IH. unfold push_tag. destruct (normalize_tag t) as [m|] eqn:E; [case_bool_decide|].
  all: set_solver.
Qed.

Lemma foldl_push_tag_NoDup tags out : NoDup out → NoDup (foldl push_tag out tags).
Proof.
  revert out. induction tags as [|t tags IH]; intros out Hout; simpl; [done|]. apply IH.
  unfold push_tag. destruct (normalize_tag t); [|done]. case_bool_decide; [done|].
  apply NoDup_app. split_and!; [done|set_solver|apply NoDup_singleton].
Qed.

(** On distinct tags already in normal form the loop copies its input. *)
Lemma foldl_push_tag_id tags out :
  Forall (λ t, normalize_tag t = Some t) tags → NoDup (out ++ tags) →
  foldl push_tag out tags = out ++ tags.
Proof.
  revert out. induction tags as [|t tags IH]; intros out Hn Hd; simpl; [by rewrite app_nil_r|].
  apply Forall_cons in Hn as [Ht Hn]. rewrite IH; [|done|].
  all: unfold push_tag; rewrite Ht, bool_decide_eq_false_2;
    [by rewrite <-(assoc_L (++))|apply NoDup_app in Hd; set_solver].
Qed.

(** Tag normalization yields distinct tags, each a fixed point of normalization, which
    are exactly the normal forms of the inputs; normalizing again changes nothing. *)
Theorem normalize_tags_normal tags :
  NoDup (normalize_tags tags) ∧
  (∀ n, n ∈ normalize_tags tags ↔ ∃ t, t ∈ tags ∧ normalize_tag t = Some n) ∧
  (∀ n, n ∈ normalize_tags tags → normalize_tag n = Some n) ∧
  normalize_tags (normalize_tags tags) = normalize_tags tags.
Proof.
  change normalize_tags with (foldl push_tag []).
  assert (Hin : ∀ n, n ∈ foldl push_tag [] tags ↔ ∃ t, t ∈ tags ∧ normalize_tag t = Some n)
    by (intros n; rewrite foldl_push_tag_elem; set_solver).
  assert (Hfix : ∀ n, n ∈ foldl push_tag [] tags → normalize_tag n = Some n)
    by (intros n (t & _ & Ht)%Hin; by eapply normalize_tag_idemp).
  assert (Hd : NoDup (foldl push_tag [] tags)) by apply foldl_push_tag_NoDup, NoDup_nil_2.
  split_and!; [done..|]. apply foldl_push_tag_id; [by apply Forall_forall|done].
Qed.

(** Kind handles.  With fewer than 2^15 packs, a pack-space handle determines its pack
    slot and local index, is never taken for a kernel handle and gives its local index back;
    kernel handles are kernel.  From slot 2^15 on the slot's top bit is absorbed by the space
    bit, so two packs would share every handle. *)
Theorem kind_handles :
  (∀ p l p' l', 0 ≤ pack_slot p < 2 ^ 15 → 0 ≤ pack_slot p' < 2 ^ 15 →
     in_range 16 l → in_range 16 l' → from_pack p l = from_pack p' l' → p = p' ∧ l = l') ∧
  (∀ p l, 0 ≤ pack_slot p < 2 ^ 15 → in_range 16 l →
     is_kernel (from_pack p l) = false ∧ local_part (from_pack p l) = l) ∧
  (∀ l, in_range 16 l → is_kernel (from_kernel l) = true) ∧
  (∀ l, from_pack (mkPackId (2 ^ 15)) l = from_pack (mkPackId 0) l).
Proof.
  split_and!.
  - intros p l p' l' Hp Hp' Hl Hl' Heq%(f_equal kind_val).
    rewrite !from_pack_value, !Z.shiftl_mul_pow2 in Heq by done. unfold in_range in *.
    destruct p as [s], p' as [s']; simpl in *.
    assert (s = s') by lia. subst. split; [done|lia].
  - intros p l Hp Hl. rewrite is_kernel_spec. unfold local_part.
    rewrite from_pack_value by done. split; [|by apply local_part_low].
    rewrite <-lor_add_low by (unfold in_range in Hl; lia).
    rewrite Z.lor_spec, Z.shiftl_spec by lia. change (31 - 16) with 15.
    change (2 ^ 15) with (Z.shiftl 1 15). rewrite <-lor_add_low by lia.
    by rewrite Z.lor_spec, Z.shiftl_spec by lia.
  - intros l Hl. rewrite is_kernel_spec. change (kind_val (from_kernel l)) with l.
    rewrite Z.bits_above_log2; [done|unfold in_range in Hl; lia|].
    unfold in_range in Hl. destruct (decide (l = 0)) as [->|]; [done|].
    apply Z.log2_lt_pow2; lia.
  - done.
Qed.

Lemma kind_handles_witness :
  is_kernel (from_pack (mkPackId 3) 7) = false ∧ local_part (from_pack (mkPackId 3) 7) = 7.
Proof.
  apply (proj1 (proj2 kind_handles)); unfold in_range; simpl; lia.
Defined.
