(* ===== verification/Packs.v ===== *)
(** * Packs, their canonical form and the two fingerprints

    [pack.rs] and the first half of [compatibility.rs] of [crates/exocortex-kernel/src]:
    pack definitions, the canonicalization every ontology is assembled from, the
    structured summary, the bytes the compatibility fingerprint hashes, and the
    subset test between summaries.  SHA-256 and bincode are libraries: [Sha256] and
    [Bincode]. *)

From S2P Require Import Prelude Ids Kernel.

(** ** Pack definitions *)

(* SRC crates/exocortex-kernel/src/pack.rs 47-56 PackVersion *)
Record PackVersion := mkPackVersion { major : Z; minor : Z; patch : Z }.

(* SRC crates/exocortex-kernel/src/pack.rs 58-68 TypeTriple *)
Record TypeTriple := mkTypeTriple {
  t_kind : RelKindId;
  from_types : option (list Z);
  to_types : option (list Z);
}.

#[global] Instance TypeTriple_eq_dec : EqDecision TypeTriple.
Proof. solve_decision. Defined.

(* SRC crates/exocortex-kernel/src/verbs.rs 258-267 GuidanceLink *)
Record GuidanceLink := mkGuidanceLink { gl_kind : string; outgoing : bool; gl_other : string }.

(* SRC crates/exocortex-kernel/src/verbs.rs 234-250 GuidanceEntry *)
Record GuidanceEntry := mkGuidanceEntry {
  ge_key : string;
  ge_when : option string;
  ge_caution : option string;
  ge_links : list GuidanceLink;
}.

(* SRC crates/exocortex-kernel/src/verbs.rs 269-281 PackActionDef *)
Record PackActionDef := mkPackActionDef {
  pa_name : string;
  pa_ceiling : Visibility;
  pa_input_type : string;
  pa_output_type : string;
}.

(* SRC crates/exocortex-kernel/src/verbs.rs 283-300 PackFunctionDef *)
Record PackFunctionDef := mkPackFunctionDef {
  pf_name : string;
  pf_engine : string;
  pf_input_type : string;
  pf_output_type : string;
  p50_budget_us : Z;
  p99_budget_us : Z;
}.

(* SRC crates/exocortex-kernel/src/pack.rs 8-45 PackDef *)
Record PackDef := mkPackDef {
  p_name : string;
  p_version : PackVersion;
  kernel_min : PackVersion;
  p_memory_type_names : list string;
  p_entity_type_names : list string;
  p_kinds : list RelMeta;
  p_type_triples : list TypeTriple;
  p_rule_ids : list string;
  p_actions : list PackActionDef;
  p_functions : list PackFunctionDef;
  p_guidance : list GuidanceEntry;
}.

(* SRC crates/exocortex-kernel/src/pack.rs 104-114 kernel_const_by_name *)
Definition kernel_const_by_name (name : string) : option RelKindId :=
  if String.eqb name "SOLVES" then Some SOLVES
  else if String.eqb name "FIXES" then Some FIXES
  else if String.eqb name "CAUSES" then Some CAUSES
  else if String.eqb name "IN_SESSION" then Some IN_SESSION
  else None.

(** The loop of [PackVersion::parse]: digits accumulate in the current field (a [u16] that
    wraps in a release build), a dot moves to the next field while fewer than two were seen. *)
Fixpoint parse_version_loop (bytes : list Z) (field : nat) (values : list Z) : list Z :=
  match bytes with
  | [] => values
  | b :: bytes =>
      if (48 <=? b) && (b <=? 57) then
        parse_version_loop bytes field
          (<[field := wrap 16 (nth field values 0 * 10 + (b - 48))]> values)
      else if (b =? 46) && Nat.ltb field 2 then parse_version_loop bytes (S field) values
      else parse_version_loop bytes field values
  end.

(* SRC crates/exocortex-kernel/src/pack.rs 137-159 PackVersion::parse *)
Definition PackVersion_parse (s : string) : PackVersion :=
  let values := parse_version_loop (as_bytes s) 0 [0; 0; 0] in
  mkPackVersion (nth 0 values 0) (nth 1 values 0) (nth 2 values 0).

(** ** Canonicalization *)

(** [packs.sort_by(|a, b| a.name.cmp(&b.name))]. *)
Definition pack_le (a b : PackDef) : Prop := String.le (p_name a) (p_name b).
#[global] Instance pack_le_dec : RelDecision pack_le.
Proof. intros a b. unfold pack_le. apply _. Defined.

(** [RelKindId(0x8000_0000 | slot | id.local_part())] unless the id is a kernel id. *)
Definition canonical_kind (i : Z) (k : RelKindId) : RelKindId :=
  if is_kernel k then k
  else mkRelKindId (Z.lor (Z.lor 0x80000000 (wrap 32 (Z.shiftl i 16))) (local_part k)).

Definition canonical_meta (i : Z) (k : RelMeta) : RelMeta :=
  mkRelMeta (canonical_kind i (km_id k)) (display_name k) (bucket k)
    (canonical_kind i <$> inverse k) (km_bidirectional k) (default_strength k) (computed_only k).

(** Every id of a present side is offset with a saturating addition. *)
Definition remap_side (mt_offset : Z) (side : option (list Z)) : option (list Z) :=
  fmap (M:=list) (u8_saturating_add mt_offset) <$> side.

Definition canonical_triple (i mt_offset : Z) (t : TypeTriple) : TypeTriple :=
  mkTypeTriple (canonical_kind i (t_kind t))
    (remap_side mt_offset (from_types t)) (remap_side mt_offset (to_types t)).

Definition canonical_pack (i mt_offset : Z) (p : PackDef) : PackDef :=
  mkPackDef (p_name p) (p_version p) (kernel_min p) (p_memory_type_names p)
    (p_entity_type_names p) (canonical_meta i <$> p_kinds p)
    (canonical_triple i mt_offset <$> p_type_triples p)
    (p_rule_ids p) (p_actions p) (p_functions p) (p_guidance p).

Fixpoint canonical_packs (i : Z) (acc : Z) (packs : list PackDef) : list PackDef :=
  match packs with
  | [] => []
  | p :: packs =>
      canonical_pack i acc p ::
      canonical_packs (i + 1) (u8_saturating_add acc
                         (as_u8 (Z.of_nat (length (p_memory_type_names p))))) packs
  end.

(* SRC crates/exocortex-kernel/src/compatibility.rs 247-293 canonicalized *)
Definition canonicalized (packs : list PackDef) : list PackDef :=
  canonical_packs 0 0 (merge_sort pack_le packs).

(** ** Summaries *)

(* SRC crates/exocortex-kernel/src/compatibility.rs 33-53 KindSummary *)
Record KindSummary := mkKindSummary {
  ks_id : Z;
  ks_name : string;
  ks_bucket : Z;
  ks_bucket_extension : Z;
  ks_inverse : option Z;
  ks_bidirectional : bool;
  ks_default_strength : f32;
  ks_computed_only : bool;
}.

(** Derived [PartialEq]: field by field, the strength with [f32]'s equality. *)
Definition kind_summary_eqb (a b : KindSummary) : bool :=
  (ks_id a =? ks_id b) && bool_decide (ks_name a = ks_name b) && (ks_bucket a =? ks_bucket b)
  && (ks_bucket_extension a =? ks_bucket_extension b)
  && bool_decide (ks_inverse a = ks_inverse b)
  && Bool.eqb (ks_bidirectional a) (ks_bidirectional b)
  && f32_eqb (ks_default_strength a) (ks_default_strength b)
  && Bool.eqb (ks_computed_only a) (ks_computed_only b).

(* SRC crates/exocortex-kernel/src/compatibility.rs 55-64 TripleSummary *)
Record TripleSummary := mkTripleSummary {
  ts_kind : Z;
  ts_from_types : option (list Z);
  ts_to_types : option (list Z);
}.

(* SRC crates/exocortex-kernel/src/compatibility.rs 66-80 ActionVerbSummary *)
Record ActionVerbSummary := mkActionVerbSummary {
  av_pack : string; av_name : string; av_ceiling : Z; av_input_type : string; av_output_type : string;
}.

(* SRC crates/exocortex-kernel/src/compatibility.rs 82-96 FunctionVerbSummary *)
Record FunctionVerbSummary := mkFunctionVerbSummary {
  fv_pack : string; fv_name : string; fv_engine : string; fv_input_type : string; fv_output_type : string;
}.

#[global] Instance TripleSummary_eq_dec : EqDecision TripleSummary.
Proof. solve_decision. Defined.
#[global] Instance ActionVerbSummary_eq_dec : EqDecision ActionVerbSummary.
Proof. solve_decision. Defined.
#[global] Instance FunctionVerbSummary_eq_dec : EqDecision FunctionVerbSummary.
Proof. solve_decision. Defined.

(* SRC crates/exocortex-kernel/src/compatibility.rs 98-122 OntologySummary *)
Record OntologySummary := mkOntologySummary {
  s_memory_types : list string;
  s_entity_types : list string;
  s_kinds : list KindSummary;
  s_type_triples : list TripleSummary;
  s_rule_ids : list string;
  s_actions : list ActionVerbSummary;
  s_functions : list FunctionVerbSummary;
}.

Fixpoint list_eqb {A} (eqb : A → A → bool) (l1 l2 : list A) : bool :=
  match l1, l2 with
  | [], [] => true
  | x :: l1, y :: l2 => eqb x y && list_eqb eqb l1 l2
  | _, _ => false
  end.

(** Derived [PartialEq] of summaries. *)
Definition summary_eqb (a b : OntologySummary) : bool :=
  bool_decide (s_memory_types a = s_memory_types b)
  && bool_decide (s_entity_types a = s_entity_types b)
  && list_eqb kind_summary_eqb (s_kinds a) (s_kinds b)
  && bool_decide (s_type_triples a = s_type_triples b)
  && bool_decide (s_rule_ids a = s_rule_ids b)
  && bool_decide (s_actions a = s_actions b)
  && bool_decide (s_functions a = s_functions b).

(* SRC crates/exocortex-kernel/src/compatibility.rs 211-223 bucket_parts *)
Definition bucket_parts (b : RelBucket) : Z * Z :=
  match b with
  | Causal => (0, 0) | Solution => (1, 0) | Context => (2, 0) | Learning => (3, 0)
  | Similarity => (4, 0) | Workflow => (5, 0) | Quality => (6, 0) | Integration => (7, 0)
  | Extension ext => (8, ext)
  end.

(* SRC crates/exocortex-kernel/src/compatibility.rs 225-231 triple_summary *)
Definition triple_summary (t : TypeTriple) : TripleSummary :=
  mkTripleSummary (kind_val (t_kind t)) (from_types t) (to_types t).

(* SRC crates/exocortex-kernel/src/compatibility.rs 233-245 kind_summary *)
Definition kind_summary (k : RelMeta) : KindSummary :=
  let '(b, ext) := bucket_parts (bucket k) in
  mkKindSummary (kind_val (km_id k)) (display_name k) b ext (kind_val <$> inverse k)
    (km_bidirectional k) (default_strength k) (computed_only k).

Definition action_summary (p : PackDef) (a : PackActionDef) : ActionVerbSummary :=
  mkActionVerbSummary (p_name p) (pa_name a) (vis_u8 (pa_ceiling a)) (pa_input_type a) (pa_output_type a).

Definition function_summary (p : PackDef) (f : PackFunctionDef) : FunctionVerbSummary :=
  mkFunctionVerbSummary (p_name p) (pf_name f) (pf_engine f) (pf_input_type f) (pf_output_type f).

Definition compare_kind (a b : KindSummary) : comparison := ks_id a ?= ks_id b.
Definition compare_triple (a b : TripleSummary) : comparison :=
  cmp_then (ts_kind a ?= ts_kind b)
    (cmp_then (compare_option compare_bytes (ts_from_types a) (ts_from_types b))
       (compare_option compare_bytes (ts_to_types a) (ts_to_types b))).
Definition compare_action (a b : ActionVerbSummary) : comparison :=
  cmp_then (String.compare (av_pack a) (av_pack b))
    (cmp_then (String.compare (av_name a) (av_name b))
       (cmp_then (av_ceiling a ?= av_ceiling b)
          (cmp_then (String.compare (av_input_type a) (av_input_type b))
             (String.compare (av_output_type a) (av_output_type b))))).
Definition compare_function (a b : FunctionVerbSummary) : comparison :=
  cmp_then (String.compare (fv_pack a) (fv_pack b))
    (cmp_then (String.compare (fv_name a) (fv_name b))
       (cmp_then (String.compare (fv_engine a) (fv_engine b))
          (cmp_then (String.compare (fv_input_type a) (fv_input_type b))
             (String.compare (fv_output_type a) (fv_output_type b))))).

(* SRC crates/exocortex-kernel/src/compatibility.rs 296-345 OntologySummary::of_canonical_packs *)
Definition of_canonical_packs (packs : list PackDef) : OntologySummary := {|
  s_memory_types := packs ≫= p_memory_type_names;
  s_entity_types := packs ≫= p_entity_type_names;
  s_kinds := merge_sort (le_of compare_kind) (packs ≫= λ p, kind_summary <$> p_kinds p);
  s_type_triples :=
    merge_sort (le_of compare_triple) (packs ≫= λ p, triple_summary <$> p_type_triples p);
  s_rule_ids := packs ≫= p_rule_ids;
  s_actions := merge_sort (le_of compare_action) (packs ≫= λ p, action_summary p <$> p_actions p);
  s_functions :=
    merge_sort (le_of compare_function) (packs ≫= λ p, function_summary p <$> p_functions p);
|}.

(** ** The compatibility fingerprint *)

(** [sha2::Sha256] over everything [update] was given. *)
Class Sha256 := {
  sha256 : list Z → list Z;
  sha256_length x : length (sha256 x) = 32%nat;
}.

(** [bincode::serialize] of a pack definition. *)
Class Bincode := { bincode_serialize : PackDef → list Z }.

(** [f32::to_bits]: sign, biased exponent, fraction. *)
Definition f32_to_bits (x : f32) : Z :=
  let sign (s : bool) : Z := if s then 2 ^ 31 else 0 in
  match x with
  | S754_zero s => sign s
  | S754_infinity s => sign s + 255 * 2 ^ 23
  | S754_nan => 0x7fc00000
  | S754_finite s m e =>
      if Z.pos m <? 2 ^ 23 then sign s + Z.pos m
      else sign s + (e + 150) * 2 ^ 23 + (Z.pos m - 2 ^ 23)
  end.

Definition enc_u32 (x : Z) : list Z := le_bytes 4 x.
Definition enc_bool (b : bool) : list Z := [if b then 1 else 0].
(** A [u32] length and the bytes. *)
Definition enc_str (s : string) : list Z :=
  le_bytes 4 (Z.of_nat (length (as_bytes s))) ++ as_bytes s.
Definition str_section (values : list string) : list Z := enc_list 4 enc_str values.

(** The inverse: a presence byte and, when present, the id. *)
Definition enc_inverse (i : option Z) : list Z :=
  match i with None => [0] | Some i => 1 :: le_bytes 4 i end.

Definition enc_kind (k : KindSummary) : list Z :=
  enc_u32 (ks_id k) ++ enc_str (ks_name k) ++ le_bytes 1 (ks_bucket k)
    ++ le_bytes 2 (ks_bucket_extension k) ++ enc_inverse (ks_inverse k)
    ++ enc_bool (ks_bidirectional k) ++ le_bytes 4 (f32_to_bits (ks_default_strength k))
    ++ enc_bool (ks_computed_only k).

(** One side of a triple: a presence byte, a length, the type ids. *)
Definition enc_side (side : option (list Z)) : list Z :=
  match side with None => [0] | Some xs => 1 :: enc_list 4 (le_bytes 1) xs end.

Definition enc_triple (t : TripleSummary) : list Z :=
  enc_u32 (ts_kind t) ++ enc_side (ts_from_types t) ++ enc_side (ts_to_types t).

Definition enc_action (v : ActionVerbSummary) : list Z :=
  enc_str (av_pack v) ++ enc_str (av_name v) ++ le_bytes 1 (av_ceiling v)
    ++ enc_str (av_input_type v) ++ enc_str (av_output_type v).

Definition enc_function (v : FunctionVerbSummary) : list Z :=
  enc_str (fv_pack v) ++ enc_str (fv_name v) ++ enc_str (fv_engine v)
    ++ enc_str (fv_input_type v) ++ enc_str (fv_output_type v).

(* SRC crates/exocortex-kernel/src/compatibility.rs 347-430 OntologySummary::compatibility_fingerprint *)
Definition compat_preimage (s : OntologySummary) : list Z :=
  as_bytes "exocortex-compat-v2" ++ RS
    ++ str_section (s_memory_types s) ++ str_section (s_entity_types s)
    ++ enc_list 4 enc_kind (s_kinds s) ++ enc_list 4 enc_triple (s_type_triples s)
    ++ str_section (s_rule_ids s)
    ++ enc_list 4 enc_action (s_actions s) ++ enc_list 4 enc_function (s_functions s).

(* SRC crates/exocortex-kernel/src/compatibility.rs 347-430 OntologySummary::compatibility_fingerprint *)
Definition compatibility_fingerprint `{Sha256} (s : OntologySummary) : list Z :=
  sha256 (compat_preimage s).

(* SRC crates/exocortex-kernel/src/compatibility.rs 838-844 CompatibilityFingerprint::compute *)
Definition compute_fingerprint `{Sha256} (packs : list PackDef) : list Z :=
  compatibility_fingerprint (of_canonical_packs (canonicalized packs)).

(* SRC crates/exocortex-kernel/src/compatibility.rs 847-863 build_fingerprint *)
Definition build_fingerprint `{Sha256, Bincode} (packs : list PackDef) : list Z :=
  sha256 (as_bytes "exocortex-kernel-v1" ++ RS ++
    (merge_sort pack_le packs ≫= λ p,
       let bytes := bincode_serialize p in
       le_bytes 4 (Z.of_nat (length bytes)) ++ bytes)).

(** ** Subset and divergence *)

(* SRC crates/exocortex-kernel/src/compatibility.rs 552-573 triple_covered *)
Definition covers (sub sup : option (list Z)) : bool :=
  match sub, sup with
  | _, None => true
  | None, Some _ => false
  | Some a, Some b => forallb (λ t, bool_decide (t ∈ b)) a
  end.

(* SRC crates/exocortex-kernel/src/compatibility.rs 552-573 triple_covered *)
Definition triple_covered (pinned : TripleSummary) (superset : OntologySummary) : bool :=
  existsb (λ row, (ts_kind row =? ts_kind pinned)
                  && covers (ts_from_types pinned) (ts_from_types row)
                  && covers (ts_to_types pinned) (ts_to_types row)) (s_type_triples superset).

(** [superset.kinds.iter().map(|k| (k.id, k)).collect::<BTreeMap>().get(&id)]: the last row
    with the id wins. *)
Definition kind_by_id (s : OntologySummary) (id : Z) : option KindSummary :=
  find_last (λ k, ks_id k =? id) (s_kinds s).

Definition kind_row_ok (superset : OntologySummary) (row : KindSummary) : bool :=
  match kind_by_id superset (ks_id row) with
  | Some other => kind_summary_eqb other row
  | None => false
  end.

Definition triple_ok (superset : OntologySummary) (t : TripleSummary) : bool :=
  bool_decide (t ∈ s_type_triples superset) || triple_covered t superset.

Definition subset_list {A} `{EqDecision A} (l1 l2 : list A) : bool :=
  forallb (λ x, bool_decide (x ∈ l2)) l1.

(* SRC crates/exocortex-kernel/src/compatibility.rs 432-480 OntologySummary::is_subset_of *)
Definition is_subset_of (self superset : OntologySummary) : bool :=
  if Nat.ltb (length (s_memory_types superset)) (length (s_memory_types self))
     || Nat.ltb (length (s_entity_types superset)) (length (s_entity_types self)) then false
  else if negb (bool_decide (s_memory_types self =
                  take (length (s_memory_types self)) (s_memory_types superset))) then false
  else if negb (bool_decide (s_entity_types self =
                  take (length (s_entity_types self)) (s_entity_types superset))) then false
  else if negb (forallb (kind_row_ok superset) (s_kinds self)) then false
  else if negb (forallb (triple_ok superset) (s_type_triples self)) then false
  else if negb (subset_list (s_rule_ids self) (s_rule_ids superset)) then false
  else if negb (subset_list (s_actions self) (s_actions superset)) then false
  else subset_list (s_functions self) (s_functions superset).

(** The message of a divergence, before formatting: one constructor per format string. *)
Inductive Divergence :=
  | MemoryTypeDiffers (i : Z) (here there : string)
  | MemoryTypeMissing (name : string) (i : Z)
  | EntityTypeDiffers (i : Z) (here there : string)
  | EntityTypeMissing (name : string) (i : Z)
  | KindDiffers (id : Z)
  | KindMissing (name : string) (id : Z)
  | TripleNotCovered (kind : Z)
  | RuleMissing (rule : string)
  | ActionDiffers (pack name : string)
  | FunctionDiffers (pack name : string).

#[global] Instance Divergence_eq_dec : EqDecision Divergence.
Proof. solve_decision. Defined.

(** The positional scan over type names. *)
Fixpoint names_divergence (differs : Z → string → string → Divergence)
    (missing : string → Z → Divergence) (i : Z) (ours theirs : list string) : option Divergence :=
  match ours, theirs with
  | [], _ => None
  | n :: ours, o :: theirs =>
      if bool_decide (o = n) then names_divergence differs missing (i + 1) ours theirs
      else Some (differs i n o)
  | n :: _, [] => Some (missing n i)
  end.

Fixpoint kinds_divergence (superset : OntologySummary) (rows : list KindSummary) : option Divergence :=
  match rows with
  | [] => None
  | row :: rows =>
      match kind_by_id superset (ks_id row) with
      | Some other =>
          if kind_summary_eqb other row then kinds_divergence superset rows
          else Some (KindDiffers (ks_id row))
      | None => Some (KindMissing (ks_name row) (ks_id row))
      end
  end.

(** [ours.difference(&theirs).next()]: the least element of [ours] not in [theirs]. *)
Definition first_difference {A} `{EqDecision A} (R : relation A) `{RelDecision A A R}
    (ours theirs : list A) : option A :=
  List.find (λ x, negb (bool_decide (x ∈ theirs))) (merge_sort R ours).

(* SRC crates/exocortex-kernel/src/compatibility.rs 482-549 OntologySummary::first_divergence *)
Definition first_divergence (self superset : OntologySummary) : option Divergence :=
  match names_divergence MemoryTypeDiffers MemoryTypeMissing 0
          (s_memory_types self) (s_memory_types superset) with
  | Some d => Some d
  | None =>
  match names_divergence EntityTypeDiffers EntityTypeMissing 0
          (s_entity_types self) (s_entity_types superset) with
  | Some d => Some d
  | None =>
  match kinds_divergence superset (s_kinds self) with
  | Some d => Some d
  | None =>
  match List.find (λ t, negb (triple_ok superset t)) (s_type_triples self) with
  | Some t => Some (TripleNotCovered (ts_kind t))
  | None =>
  match first_difference String.le (s_rule_ids self) (s_rule_ids superset) with
  | Some r => Some (RuleMissing r)
  | None =>
  match first_difference (le_of compare_action) (s_actions self) (s_actions superset) with
  | Some v => Some (ActionDiffers (av_pack v) (av_name v))
  | None =>
  match first_difference (le_of compare_function) (s_functions self) (s_functions superset) with
  | Some v => Some (FunctionDiffers (fv_pack v) (fv_name v))
  | None => None
  end end end end end end end.

(** ** The subset test and the divergence report agree *)

Lemma list_find_none {A} (p : A → bool) l :
  List.find p l = None ↔ ∀ x, x ∈ l → p x = false.
Proof.
  split.
  - intros H x Hx%list_elem_of_In. by eapply List.find_none in H.
  - induction l as [|a l IH]; intros H; simpl; [done|].
    rewrite (H a) by set_solver. apply IH. set_solver.
Qed.

Lemma forallb_elem {A} (p : A → bool) l : forallb p l = true ↔ ∀ x, x ∈ l → p x = true.
Proof. rewrite List.forallb_forall. by setoid_rewrite list_elem_of_In. Qed.

Lemma names_divergence_none d m i ours theirs :
  names_divergence d m i ours theirs = None ↔ ours `prefix_of` theirs.
Proof.
  revert i theirs. induction ours as [|n ours IH]; intros i theirs; simpl.
  - split; [intros _; apply prefix_nil|done].
  - destruct theirs as [|o theirs]; [split; [done|by intros ?%prefix_nil_not]|].
    case_bool_decide as Ho; [subst|].
    + rewrite IH. split; [apply prefix_cons|apply prefix_cons_inv_2].
    + split; [done|]. by intros ->%prefix_cons_inv_1.
Qed.

Lemma prefix_take {A} (l1 l2 : list A) :
  l1 `prefix_of` l2 ↔ (length l1 ≤ length l2)%nat ∧ l1 = take (length l1) l2.
Proof.
  split.
  - intros [k ->]. rewrite take_app_length, length_app. split; [lia|done].
  - intros [_ Heq]. rewrite Heq. apply prefix_take.
Qed.

Lemma kinds_divergence_none s rows :
  kinds_divergence s rows = None ↔ forallb (kind_row_ok s) rows = true.
Proof.
  induction rows as [|row rows IH]; simpl; [done|]. unfold kind_row_ok at 1.
  destruct (kind_by_id s (ks_id row)) as [other|]; [|done].
  destruct (kind_summary_eqb other row); [done|]. done.
Qed.

Lemma first_difference_none {A} `{EqDecision A} (R : relation A) `{!RelDecision R} l1 l2 :
  first_difference R l1 l2 = None ↔ subset_list l1 l2 = true.
Proof.
  unfold first_difference, subset_list. rewrite list_find_none, forallb_elem.
  setoid_rewrite (merge_sort_Permutation R l1). by setoid_rewrite negb_false_iff.
Qed.

Lemma find_triple_none s ts :
  List.find (λ t, negb (triple_ok s t)) ts = None ↔ forallb (triple_ok s) ts = true.
Proof. rewrite list_find_none, forallb_elem. by setoid_rewrite negb_false_iff. Qed.

(** What the subset test decides. *)
Lemma is_subset_of_spec self sup :
  is_subset_of self sup = true ↔
  s_memory_types self `prefix_of` s_memory_types sup ∧
  s_entity_types self `prefix_of` s_entity_types sup ∧
  forallb (kind_row_ok sup) (s_kinds self) = true ∧
  forallb (triple_ok sup) (s_type_triples self) = true ∧
  subset_list (s_rule_ids self) (s_rule_ids sup) = true ∧
  subset_list (s_actions self) (s_actions sup) = true ∧
  subset_list (s_functions self) (s_functions sup) = true.
Proof.
  rewrite !prefix_take. unfold is_subset_of.
  destruct (Nat.ltb _ _) eqn:E1; simpl; [apply Nat.ltb_lt in E1; naive_solver lia|].
  destruct (Nat.ltb (length (s_entity_types sup)) _) eqn:E2; simpl;
    [apply Nat.ltb_lt in E2; naive_solver lia|].
  apply Nat.ltb_ge in E1, E2.
  do 2 (case_bool_decide; simpl; [|naive_solver]).
  repeat (match goal with |- context [negb ?b] => destruct b eqn:? end; simpl; [|naive_solver]).
  naive_solver.
Qed.

(** A summary has no first divergence against another exactly when it is a subset of
    it: the reporting function and the admission test decide the same question. *)
Lemma first_divergence_none self sup :
  first_divergence self sup = None ↔ is_subset_of self sup = true.
Proof.
  rewrite is_subset_of_spec. unfold first_divergence.
  rewrite <-(names_divergence_none MemoryTypeDiffers MemoryTypeMissing 0).
  rewrite <-(names_divergence_none EntityTypeDiffers EntityTypeMissing 0).
  rewrite <-kinds_divergence_none, <-find_triple_none.
  rewrite <-(first_difference_none String.le (s_rule_ids self)).
  rewrite <-(first_difference_none (le_of compare_action)).
  rewrite <-(first_difference_none (le_of compare_function)).
  repeat case_match; naive_solver.
Qed.

(** ** What a subset preserves *)

(** The triple table admits an edge of kind [k] from a memory of type [f] to one of type [t]. *)
Definition side_admits (side : option (list Z)) (t : Z) : bool :=
  match side with None => true | Some xs => bool_decide (t ∈ xs) end.

Definition triples_admit (ts : list TripleSummary) (f k t : Z) : bool :=
  existsb (λ row, (ts_kind row =? k) && side_admits (ts_from_types row) f
                  && side_admits (ts_to_types row) t) ts.

Lemma covers_admits sub sup t : covers sub sup = true → side_admits sub t = true → side_admits sup t = true.
Proof.
  destruct sub as [xs|], sup as [ys|]; simpl; try done. rewrite forallb_elem. intros Hc Ht.
  case_bool_decide; [|done]. by apply Hc.
Qed.

Lemma covers_trans a b c : covers a b = true → covers b c = true → covers a c = true.
Proof.
  destruct a as [a|], b as [b|], c as [c|]; simpl; try done. rewrite !forallb_elem.
  intros Hab Hbc x Hx. specialize (Hab x Hx). by apply bool_decide_eq_true, Hbc in Hab.
Qed.

Lemma existsb_elem {A} (p : A → bool) l : existsb p l = true ↔ ∃ x, x ∈ l ∧ p x = true.
Proof. rewrite List.existsb_exists. by setoid_rewrite list_elem_of_In. Qed.

Lemma covers_refl side : covers side side = true.
Proof. destruct side as [xs|]; simpl; [|done]. apply forallb_elem. intros. by apply bool_decide_eq_true. Qed.

(** A triple is accepted when some row of the superset covers it; membership is the case of
    the row itself. *)
Lemma triple_ok_spec sup t :
  triple_ok sup t = true ↔
  ∃ row, row ∈ s_type_triples sup ∧ ts_kind row = ts_kind t ∧
         covers (ts_from_types t) (ts_from_types row) = true ∧
         covers (ts_to_types t) (ts_to_types row) = true.
Proof.
  unfold triple_ok, triple_covered. rewrite orb_true_iff, bool_decide_eq_true, existsb_elem.
  setoid_rewrite andb_true_iff. setoid_rewrite andb_true_iff. setoid_rewrite Z.eqb_eq.
  split; [intros [Ht|]; [|naive_solver]|naive_solver].
  exists t. by rewrite !covers_refl.
Qed.

Lemma subset_admits self sup f k t :
  forallb (triple_ok sup) (s_type_triples self) = true →
  triples_admit (s_type_triples self) f k t = true →
  triples_admit (s_type_triples sup) f k t = true.
Proof.
  unfold triples_admit. rewrite forallb_elem, !existsb_elem. intros Hall (row & Hin & Hadm).
  apply Hall, triple_ok_spec in Hin as (row' & Hin' & Hk & Hf & Ht). bool_prop.
  exists row'. split; [done|]. rewrite !andb_true_iff, Z.eqb_eq.
  split_and!; [congruence|by eapply covers_admits..].
Qed.

(** A graph pinned under a summary keeps its meaning under any summary that contains it:
    every memory and entity type keeps its numeric id and name, every kind keeps its row, every
    edge the old type-triple table admitted is still admitted, and no rule or verb disappears. *)
Theorem subset_preserves_meaning self sup :
  is_subset_of self sup = true →
  (∀ i n, s_memory_types self !! i = Some n → s_memory_types sup !! i = Some n) ∧
  (∀ i n, s_entity_types self !! i = Some n → s_entity_types sup !! i = Some n) ∧
  (∀ row, row ∈ s_kinds self →
     ∃ row', kind_by_id sup (ks_id row) = Some row' ∧ kind_summary_eqb row' row = true) ∧
  (∀ f k t, triples_admit (s_type_triples self) f k t = true →
            triples_admit (s_type_triples sup) f k t = true) ∧
  (∀ r, r ∈ s_rule_ids self → r ∈ s_rule_ids sup) ∧
  (∀ v, v ∈ s_actions self → v ∈ s_actions sup) ∧
  (∀ v, v ∈ s_functions self → v ∈ s_functions sup).
Proof.
  rewrite is_subset_of_spec. unfold subset_list.
  intros (Hm & He & Hk & Ht & Hr & Ha & Hf).
  rewrite forallb_elem in Hr. rewrite forallb_elem in Ha. rewrite forallb_elem in Hf.
  setoid_rewrite bool_decide_eq_true in Hr. setoid_rewrite bool_decide_eq_true in Ha.
  setoid_rewrite bool_decide_eq_true in Hf. split_and!; auto.
  - intros i n Hi. by eapply prefix_lookup_Some.
  - intros i n Hi. by eapply prefix_lookup_Some.
  - intros row Hrow. rewrite forallb_elem in Hk. apply Hk in Hrow. unfold kind_row_ok in Hrow.
    destruct (kind_by_id sup (ks_id row)); [eauto|done].
  - intros f k t. by apply subset_admits.
Qed.

(** ** The subset order is transitive *)

Lemma f32_eqb_spec x y :
  f32_eqb x y = true ↔
  ((∃ s, x = S754_zero s) ∧ (∃ s, y = S754_zero s)) ∨ (x = y ∧ x ≠ S754_nan).
Proof.
  unfold f32_eqb, SFeqb, SFcompare. split.
  - destruct x as [s|s| |s m e], y as [s'|s'| |s' m' e']; simpl;
      try destruct s; try destruct s'; try done; try (left; naive_solver); try (right; naive_solver).
    all: destruct (e ?= e') eqn:He; simpl; try done; apply Z.compare_eq in He as ->.
    all: destruct (Pos.compare_cont Eq m m') eqn:Hm; simpl; try done.
    all: apply Pos.compare_eq in Hm as ->; naive_solver.
  - intros [[[s ->] [s' ->]]|[-> Hn]]; [done|]. destruct y as [s|s| |s m e]; simpl; try done.
    + by destruct s.
    + rewrite Z.compare_refl. change (Pos.compare_cont Eq m m) with (Pos.compare m m).
      rewrite Pos.compare_refl. by destruct s.
Qed.

Lemma f32_eqb_trans x y z : f32_eqb x y = true → f32_eqb y z = true → f32_eqb x z = true.
Proof.
  rewrite !f32_eqb_spec.
  intros [[Hx Hy]|[-> Hn]] [[Hy' Hz]|[<- Hn']]; [left; by split|left; by split|left; by split|].
  by right.
Qed.

Lemma kind_summary_eqb_spec a b :
  kind_summary_eqb a b = true ↔
  ks_id a = ks_id b ∧ ks_name a = ks_name b ∧ ks_bucket a = ks_bucket b ∧
  ks_bucket_extension a = ks_bucket_extension b ∧ ks_inverse a = ks_inverse b ∧
  ks_bidirectional a = ks_bidirectional b ∧
  f32_eqb (ks_default_strength a) (ks_default_strength b) = true ∧
  ks_computed_only a = ks_computed_only b.
Proof.
  unfold kind_summary_eqb.
  rewrite !andb_true_iff, !Z.eqb_eq, !bool_decide_eq_true, !Bool.eqb_true_iff. naive_solver.
Qed.

Lemma kind_summary_eqb_trans a b c :
  kind_summary_eqb a b = true → kind_summary_eqb b c = true → kind_summary_eqb a c = true.
Proof.
  rewrite !kind_summary_eqb_spec. intros (?&?&?&?&?&?&Hf&?) (?&?&?&?&?&?&Hf'&?).
  split_and!; try congruence. by eapply f32_eqb_trans.
Qed.

Lemma kind_by_id_Some s id row :
  kind_by_id s id = Some row → row ∈ s_kinds s ∧ ks_id row = id.
Proof. intros [? ?]%find_last_Some. by bool_prop. Qed.

Lemma kinds_ok_trans a b c :
  forallb (kind_row_ok b) (s_kinds a) = true → forallb (kind_row_ok c) (s_kinds b) = true →
  forallb (kind_row_ok c) (s_kinds a) = true.
Proof.
  rewrite !forallb_elem. unfold kind_row_ok. intros Hab Hbc row Hrow.
  specialize (Hab row Hrow). destruct (kind_by_id b (ks_id row)) as [row'|] eqn:Hb; [|done].
  apply kind_by_id_Some in Hb as [Hin Hid]. specialize (Hbc row' Hin). rewrite Hid in Hbc.
  destruct (kind_by_id c (ks_id row)); [|done]. by eapply kind_summary_eqb_trans.
Qed.

Lemma triples_ok_trans a b c :
  forallb (triple_ok b) (s_type_triples a) = true → forallb (triple_ok c) (s_type_triples b) = true →
  forallb (triple_ok c) (s_type_triples a) = true.
Proof.
  rewrite !forallb_elem. intros Hab Hbc t Ht.
  apply Hab, triple_ok_spec in Ht as (t' & Hin & Hk & Hf & Ht').
  apply Hbc, triple_ok_spec in Hin as (t'' & Hin & Hk' & Hf' & Ht'').
  apply triple_ok_spec. exists t''. split_and!; [done|congruence|by eapply covers_trans..].
Qed.

Lemma subset_list_trans {A} `{EqDecision A} (a b c : list A) :
  subset_list a b = true → subset_list b c = true → subset_list a c = true.
Proof.
  unfold subset_list. rewrite !forallb_elem. intros Hab Hbc x Hx.
  by apply Hab, bool_decide_eq_true, Hbc in Hx.
Qed.

(** Acceptance composes: a summary contained in one that is contained in a third is
    contained in the third, so a chain of accepted upgrades never loses the first graph. *)
Theorem is_subset_of_trans a b c :
  is_subset_of a b = true → is_subset_of b c = true → is_subset_of a c = true.
Proof.
  rewrite !is_subset_of_spec. intros (?&?&?&?&?&?&?) (?&?&?&?&?&?&?).
  split_and!; [by etrans|by etrans| | | | |];
    eauto using kinds_ok_trans, triples_ok_trans, subset_list_trans.
Qed.

(** ** The fingerprint's bytes are unambiguous *)

Lemma digits2_pos_bound m :
  2 ^ (Z.pos (digits2_pos m) - 1) ≤ Z.pos m < 2 ^ Z.pos (digits2_pos m).
Proof.
  induction m as [m IH|m IH|]; simpl digits2_pos; [| |simpl; lia].
  all: rewrite Pos2Z.inj_succ; replace (Z.succ (Z.pos (digits2_pos m)) - 1)
      with (Z.succ (Z.pos (digits2_pos m) - 1)) by lia.
  all: rewrite !Z.pow_succ_r by lia; lia.
Qed.

(** The shape of a valid binary32 number: normal with a 24-bit significand, or subnormal. *)
Lemma valid_binary32_finite s m e :
  valid_binary f32_prec f32_emax (S754_finite s m e) = true →
  (2 ^ 23 ≤ Z.pos m < 2 ^ 24 ∧ -149 ≤ e ≤ 104) ∨ (Z.pos m < 2 ^ 23 ∧ e = -149).
Proof.
  unfold valid_binary, bounded, canonical_mantissa, fexp, emin, f32_prec, f32_emax.
  intros [Hc%Z.eqb_eq He%Z.leb_le]%andb_true_iff.
  pose proof (digits2_pos_bound m) as [Hlo Hhi].
  set (d := Z.pos (digits2_pos m)) in *. clearbody d.
  destruct (decide (d = 24)) as [->|Hd]; [left; lia|right].
  assert (d < 24 ∧ e = -149) as [? ->] by lia. split; [|done].
  apply Z.lt_le_trans with (2 ^ d); [done|]. apply Z.pow_le_mono_r; lia.
Qed.

Lemma f32_to_bits_inj x y :
  valid_binary f32_prec f32_emax x = true → valid_binary f32_prec f32_emax y = true →
  f32_to_bits x = f32_to_bits y → x = y.
Proof.
  intros Hx Hy.
  destruct x as [s|s| |s m e]; destruct y as [s'|s'| |s' m' e'];
    try apply valid_binary32_finite in Hx; try apply valid_binary32_finite in Hy;
    unfold f32_to_bits; intros Heq.
  all: repeat match type of Heq with context [Z.pos ?m <? _] =>
      destruct (Z.ltb_spec (Z.pos m) (2 ^ 23)) end.
  all: try destruct s; try destruct s'; try done; try lia.
  all: assert (m = m') as -> by lia; assert (e = e') as -> by lia; done.
Qed.

Lemma f32_to_bits_range x :
  valid_binary f32_prec f32_emax x = true → 0 ≤ f32_to_bits x < 256 ^ Z.of_nat 4.
Proof.
  intros Hx. change (256 ^ Z.of_nat 4) with (2 ^ 32). unfold f32_to_bits.
  destruct x as [s|s| |s m e]; try apply valid_binary32_finite in Hx; try destruct s; try lia.
  all: destruct (Z.ltb_spec (Z.pos m) (2 ^ 23)); lia.
Qed.

(** The values each section can carry: [u32] lengths, the integer fields at their width. *)
Definition len32 {A} (l : list A) : Prop := Z.of_nat (length l) < 2 ^ 32.
Definition str_fits (s : string) : Prop := len32 (as_bytes s).
Definition side_fits (side : option (list Z)) : Prop :=
  match side with None => True | Some xs => Forall (in_range 8) xs ∧ len32 xs end.
Definition kind_fits (k : KindSummary) : Prop :=
  in_range 32 (ks_id k) ∧ str_fits (ks_name k) ∧ in_range 8 (ks_bucket k) ∧
  in_range 16 (ks_bucket_extension k) ∧
  match ks_inverse k with None => True | Some i => in_range 32 i end ∧
  valid_binary f32_prec f32_emax (ks_default_strength k) = true.
Definition triple_fits (t : TripleSummary) : Prop :=
  in_range 32 (ts_kind t) ∧ side_fits (ts_from_types t) ∧ side_fits (ts_to_types t).
Definition action_fits (v : ActionVerbSummary) : Prop :=
  str_fits (av_pack v) ∧ str_fits (av_name v) ∧ in_range 8 (av_ceiling v) ∧
  str_fits (av_input_type v) ∧ str_fits (av_output_type v).
Definition function_fits (v : FunctionVerbSummary) : Prop :=
  str_fits (fv_pack v) ∧ str_fits (fv_name v) ∧ str_fits (fv_engine v) ∧
  str_fits (fv_input_type v) ∧ str_fits (fv_output_type v).
Definition section_fits {A} (P : A → Prop) (l : list A) : Prop := Forall P l ∧ len32 l.
Definition summary_fits (s : OntologySummary) : Prop :=
  section_fits str_fits (s_memory_types s) ∧ section_fits str_fits (s_entity_types s) ∧
  section_fits kind_fits (s_kinds s) ∧ section_fits triple_fits (s_type_triples s) ∧
  section_fits str_fits (s_rule_ids s) ∧ section_fits action_fits (s_actions s) ∧
  section_fits function_fits (s_functions s).

#[local] Opaque le_bytes.

(** Strip one prefix-free field from both sides of an equation of encodings. *)
Ltac peel H lem :=
  apply lem in H; [|done..];
  let E := fresh in let K := fresh in destruct H as [E K]; rename K into H; subst.

Lemma pf_u32 : prefix_free (in_range 32) enc_u32.
Proof. exact (prefix_free_le_bytes 4). Qed.
Lemma pf_u16 : prefix_free (in_range 16) (le_bytes 2).
Proof. exact (prefix_free_le_bytes 2). Qed.
Lemma pf_u8 : prefix_free (in_range 8) (le_bytes 1).
Proof. exact (prefix_free_le_bytes 1). Qed.

Lemma pf_bool : prefix_free (λ _ : bool, True) enc_bool.
Proof. apply (prefix_free_fixed _ _ 1); [done|]. by intros [] []. Qed.

Lemma pf_str : prefix_free str_fits enc_str.
Proof.
  intros s t k k' Hs Ht Heq. unfold enc_str in Heq. rewrite <-!(assoc_L (++)) in Heq.
  apply (prefix_free_le_bytes 4) in Heq as [Hlen Heq];
    [|split; [lia|exact Hs]|split; [lia|exact Ht]].
  by apply app_inj_length in Heq as [->%(inj as_bytes) ->]; [|lia].
Qed.

Lemma pf_strength :
  prefix_free (λ x, valid_binary f32_prec f32_emax x = true) (λ x, le_bytes 4 (f32_to_bits x)).
Proof.
  apply (prefix_free_fixed _ _ 4); [intros; apply length_le_bytes|]. intros x y Hx Hy Heq.
  apply le_bytes_inj in Heq; [|by apply f32_to_bits_range..]. by apply f32_to_bits_inj.
Qed.

Lemma pf_inverse :
  prefix_free (λ i, match i with None => True | Some i => in_range 32 i end) enc_inverse.
Proof.
  intros [i|] [j|] k k' Hi Hj Heq; simpl in *; try done;
    apply (f_equal tail) in Heq; cbn [tail] in Heq; [|by subst].
  by apply (prefix_free_le_bytes 4) in Heq as [-> ->].
Qed.

Lemma pf_section {A} (P : A → Prop) enc :
  prefix_free P enc → prefix_free (section_fits P) (enc_list 4 enc).
Proof. exact (prefix_free_list P enc 4). Qed.

Lemma pf_side : prefix_free side_fits enc_side.
Proof.
  intros [xs|] [ys|] k k' Hx Hy Heq; simpl in *; try done;
    apply (f_equal tail) in Heq; cbn [tail] in Heq; [|by subst].
  by apply (pf_section _ _ pf_u8) in Heq as [-> ->].
Qed.

Lemma pf_kind : prefix_free kind_fits enc_kind.
Proof.
  intros [] [] k k' (?&?&?&?&?&?) (?&?&?&?&?&?) Heq. unfold enc_kind in Heq; simpl in *.
  rewrite <-!(assoc_L (++)) in Heq.
  peel Heq pf_u32. peel Heq pf_str. peel Heq pf_u8. peel Heq pf_u16. peel Heq pf_inverse.
  peel Heq pf_bool. peel Heq pf_strength. peel Heq pf_bool. done.
Qed.

Lemma pf_triple : prefix_free triple_fits enc_triple.
Proof.
  intros [] [] k k' (?&?&?) (?&?&?) Heq. unfold enc_triple in Heq; simpl in *.
  rewrite <-!(assoc_L (++)) in Heq. peel Heq pf_u32. peel Heq pf_side. peel Heq pf_side. done.
Qed.

Lemma pf_action : prefix_free action_fits enc_action.
Proof.
  intros [] [] k k' (?&?&?&?&?) (?&?&?&?&?) Heq. unfold enc_action in Heq; simpl in *.
  rewrite <-!(assoc_L (++)) in Heq.
  peel Heq pf_str. peel Heq pf_str. peel Heq pf_u8. peel Heq pf_str. peel Heq pf_str. done.
Qed.

Lemma pf_function : prefix_free function_fits enc_function.
Proof.
  intros [] [] k k' (?&?&?&?&?) (?&?&?&?&?) Heq. unfold enc_function in Heq; simpl in *.
  rewrite <-!(assoc_L (++)) in Heq.
  peel Heq pf_str. peel Heq pf_str. peel Heq pf_str. peel Heq pf_str. peel Heq pf_str. done.
Qed.

Lemma compat_preimage_inj s t :
  summary_fits s → summary_fits t → compat_preimage s = compat_preimage t → s = t.
Proof.
  intros (?&?&?&?&?&?&?) (?&?&?&?&?&?&?). unfold compat_preimage, str_section.
  intros Heq%(inj (app _))%(inj (app _)). destruct s, t; simpl in *.
  peel Heq (pf_section _ _ pf_str). peel Heq (pf_section _ _ pf_str).
  peel Heq (pf_section _ _ pf_kind). peel Heq (pf_section _ _ pf_triple).
  peel Heq (pf_section _ _ pf_str). peel Heq (pf_section _ _ pf_action).
  by apply (prefix_free_inj _ _ _ _ (pf_section _ _ pf_function)) in Heq as ->.
Qed.

(** The compatibility fingerprint is a fingerprint of the whole summary: two summaries
    (with fields at their machine widths) hash to the same value only if they are equal, or
    SHA-256 collides on their encodings. *)
Theorem fingerprint_determines_summary `{Sha256} s t :
  summary_fits s → summary_fits t →
  compatibility_fingerprint s = compatibility_fingerprint t →
  s = t ∨ (∃ x y, x ≠ y ∧ sha256 x = sha256 y).
Proof.
  unfold compatibility_fingerprint. intros Hs Ht Heq.
  destruct (decide (compat_preimage s = compat_preimage t)) as [Hp|Hp].
  - left. by apply compat_preimage_inj.
  - right. by exists (compat_preimage s), (compat_preimage t).
Qed.

(** ** Pack order does not matter *)

#[global] Instance pack_le_total : Total pack_le.
Proof. intros a b. unfold pack_le. apply (total String.le). Qed.
#[global] Instance pack_le_trans : Transitive pack_le.
Proof. intros a b c. unfold pack_le. apply (transitivity (R:=String.le)). Qed.

Lemma sort_packs_unique packs packs' :
  packs ≡ₚ packs' → NoDup (p_name <$> packs) →
  merge_sort pack_le packs = merge_sort pack_le packs'.
Proof.
  intros Hp Hd. apply (Sorted_unique_strong pack_le).
  - intros p q. rewrite !merge_sort_Permutation, <-Hp. unfold pack_le. intros Hin Hin' Hle Hle'.
    assert (p_name p = p_name q) as Heq by by apply (anti_symm String.le).
    by eapply (NoDup_fmap_elem p_name).
  - apply Sorted_merge_sort, _.
  - apply Sorted_merge_sort, _.
  - by rewrite !merge_sort_Permutation.
Qed.

Lemma canonicalized_perm packs packs' :
  packs ≡ₚ packs' → NoDup (p_name <$> packs) → canonicalized packs = canonicalized packs'.
Proof. intros. unfold canonicalized. by rewrite (sort_packs_unique packs packs'). Qed.
