(* ===== verification/Ontology.v ===== *)
(** * The effective ontology, the draft validator and the admission boundaries

    [ontology.rs], [validator.rs], [materialize_inverse] of [relationship.rs] and the
    boundary half of [compatibility.rs]: assembling registered packs into one ontology,
    checking drafts and edges against it, writing the inverse companion of an edge, and
    the node/graph, producer, peer and backup admission rules. *)

From stdpp Require Import pretty.
From S2P Require Import Prelude Ids Kernel Packs.

(** ** Assembly *)

(* SRC crates/exocortex-kernel/src/ontology.rs 9-37 Ontology *)
Record Ontology := mkOntology {
  o_packs : list PackDef;
  kinds_by_id : gmap RelKindId RelMeta;
  triples_by_kind : gmap RelKindId (list TypeTriple);
  memory_type_by_name : gmap string Z;
  entity_type_by_name : gmap string Z;
  memory_type_names : list string;
  entity_type_names : list string;
  fingerprint : list Z;
  o_build_fingerprint : list Z;
  o_summary : OntologySummary;
}.

(** The first name already in [seen] or repeated in [names]. *)
Fixpoint first_duplicate (seen : gset string) (names : list string) : option string :=
  match names with
  | [] => None
  | n :: names => if bool_decide (n ∈ seen) then Some n else first_duplicate ({[n]} ∪ seen) names
  end.

(** The kind loop: [insert] by id, then by display name. *)
Fixpoint register_kinds (ks : list RelMeta) (by_id : gmap RelKindId RelMeta) (names : gset string)
    : result (gmap RelKindId RelMeta) KernelError :=
  match ks with
  | [] => Ok by_id
  | k :: ks =>
      if bool_decide (is_Some (by_id !! km_id k)) then Err (DuplicateKind (km_id k))
      else if bool_decide (display_name k ∈ names) then Err (DuplicateKindName (display_name k))
      else register_kinds ks (<[km_id k := k]> by_id) ({[display_name k]} ∪ names)
  end.

(** The kernel constants every pack set must bind, in the order they are checked. *)
Definition required_kinds : list RelKindId := [SOLVES; FIXES; CAUSES; IN_SESSION].

Definition index_triples (ts : list TypeTriple) : gmap RelKindId (list TypeTriple) :=
  foldl (λ m t, entry_push (t_kind t) t m) ∅ ts.

(** One namespace of type names: ids are positions, truncated to [u8]. *)
Definition assign_type_id (acc : gmap string Z * list string) (name : string)
    : gmap string Z * list string :=
  (<[name := as_u8 (Z.of_nat (length acc.2))]> acc.1, acc.2 ++ [name]).
Definition assign_type_ids (names : list string) : gmap string Z * list string :=
  foldl assign_type_id (∅, []) names.

(* SRC crates/exocortex-kernel/src/ontology.rs 50-152 Ontology::from_packs *)
Definition from_packs `{Sha256, Bincode} (packs0 : list PackDef) : result Ontology KernelError :=
  match first_duplicate ∅ (p_name <$> packs0) with
  | Some n => Err (DuplicatePack n)
  | None =>
  let packs := canonicalized packs0 in
  match first_duplicate ∅ (packs ≫= p_memory_type_names) with
  | Some n => Err (DuplicateTypeName n)
  | None =>
  match first_duplicate ∅ (packs ≫= p_entity_type_names) with
  | Some n => Err (DuplicateTypeName n)
  | None =>
  let? kinds := register_kinds (packs ≫= p_kinds) ∅ ∅ in
  match List.find (λ k, negb (bool_decide (is_Some (kinds !! k)))) required_kinds with
  | Some k => Err (UnboundKernelConstant k)
  | None =>
  let mt := assign_type_ids (packs ≫= p_memory_type_names) in
  let et := assign_type_ids (packs ≫= p_entity_type_names) in
  let s := of_canonical_packs packs in
  Ok {| o_packs := packs;
        kinds_by_id := kinds;
        triples_by_kind := index_triples (packs ≫= p_type_triples);
        memory_type_by_name := mt.1;
        entity_type_by_name := et.1;
        memory_type_names := mt.2;
        entity_type_names := et.2;
        fingerprint := compatibility_fingerprint s;
        o_build_fingerprint := build_fingerprint packs;
        o_summary := s |}
  end end end end.

(* SRC crates/exocortex-kernel/src/ontology.rs 154-161 Ontology::kind_id *)
Definition kind_id `{HashOrder} (o : Ontology) (name : string) : option RelKindId :=
  km_id <$> List.find (λ k, bool_decide (display_name k = name)) (hash_values (kinds_by_id o)).

(* SRC crates/exocortex-kernel/src/ontology.rs 163-166 Ontology::memory_type_id *)
Definition memory_type_id (o : Ontology) (name : string) : option Z := memory_type_by_name o !! name.

(** ** The inverse companion *)

(* SRC crates/exocortex-kernel/src/relationship.rs 63-93 materialize_inverse *)
Definition materialize_inverse `{Blake3} (o : Ontology) (rel : Relationship) : option Relationship :=
  meta ← kinds_by_id o !! r_kind rel;
  inv ← inverse meta;
  if bool_decide (inv = r_kind rel) || km_bidirectional meta then None
  else Some {|
    r_id := RelationshipId_derive (r_to rel) inv (r_from rel) None;
    r_kind := inv;
    r_from := r_to rel;
    r_to := r_from rel;
    r_visibility := r_visibility rel;
    r_provenance := r_provenance rel;
    r_properties := r_properties rel;
    r_description := r_description rel;
    r_bidirectional := false;
    r_valid_from := r_valid_from rel;
    r_valid_until := r_valid_until rel;
    r_recorded_at := r_recorded_at rel;
    r_invalidated_by := None;
    r_lsn := r_lsn rel;
  |}.

(** ** The validator *)

(* SRC crates/exocortex-kernel/src/validator.rs 4-11 SourceCeiling *)
Record SourceCeiling := mkSourceCeiling { sc_source : string; sc_ceiling : Visibility }.

(** [str::chars().count()]: the bytes that are not UTF-8 continuation bytes. *)
Definition chars_count (s : string) : Z :=
  Z.of_nat (length (List.filter (λ b, negb ((128 <=? b) && (b <? 192))) (as_bytes s))).

(* SRC crates/exocortex-kernel/src/validator.rs 68-76 matches_triple *)
Definition matches_triple (t : TypeTriple) (from : Z) (to : option Z) : bool :=
  let from_ok := match from_types t with None => true | Some xs => bool_decide (from ∈ xs) end in
  let to_ok := match to_types t, to with
               | None, _ => true
               | Some _, None => true
               | Some xs, Some v => bool_decide (v ∈ xs)
               end in
  from_ok && to_ok.

(** The edge-hint loop of [validate_draft]. *)
Fixpoint validate_hints (o : Ontology) (mt : Z) (hints : list EdgeHint) : result unit KernelError :=
  match hints with
  | [] => Ok tt
  | hint :: hints =>
      match triples_by_kind o !! eh_kind hint with
      | None => Err (UnknownKind (eh_kind hint))
      | Some triples =>
          if existsb (λ t, matches_triple t mt None) triples then validate_hints o mt hints
          else Err (InvalidTypeTriple (eh_kind hint) mt)
      end
  end.

(* SRC crates/exocortex-kernel/src/validator.rs 13-66 validate_draft *)
Definition validate_draft `{SerdeJson} (o : Ontology) (draft : MemoryDraft) (ceiling : SourceCeiling)
    : result unit KernelError :=
  if String.eqb (d_title draft) "" || (200 <? chars_count (d_title draft)) then Err TitleBounds
  else if String.eqb (d_content draft) "" then Err EmptyContent
  else if match d_summary draft with Some s => 500 <? chars_count s | None => false end
       then Err SummaryBounds
  else if 8 * 1024 <?
            Z.of_nat (String.length (json_to_string (additional_metadata (d_context draft))))
       then Err MetadataTooLarge
  else if negb (within (d_visibility draft) (sc_ceiling ceiling))
       then Err (VisibilityWidening (sc_source ceiling) (sc_ceiling ceiling) (d_visibility draft))
  else validate_hints o (d_memory_type draft) (d_edge_hints draft).

(* SRC crates/exocortex-kernel/src/validator.rs 78-107 validate_triple *)
Definition validate_triple (o : Ontology) (from_type : Z) (kind : RelKindId) (to_type : Z)
    : result unit KernelError :=
  match triples_by_kind o !! kind with
  | None => Err (UnknownKind kind)
  | Some triples =>
      if existsb (λ t,
           match from_types t with None => true | Some xs => bool_decide (from_type ∈ xs) end
           && match to_types t with None => true | Some xs => bool_decide (to_type ∈ xs) end)
           triples
      then Ok tt else Err (InvalidTypeTriple kind from_type)
  end.

(** ** Pins and admission *)

(* SRC crates/exocortex-kernel/src/compatibility.rs 124-140 PinnedOntology *)
Record PinnedOntology := mkPinnedOntology {
  pin_scheme : Z;
  pin_compatibility : string;
  pin_build : string;
  pin_summary : OntologySummary;
  pin_accepted : list string;
}.

(* SRC crates/exocortex-kernel/src/compatibility.rs 142-143 MAX_ACCEPTED_FINGERPRINTS *)
Definition MAX_ACCEPTED_FINGERPRINTS : nat := 8.

(* SRC crates/exocortex-kernel/src/compatibility.rs 146-157 PinnedOntology::describing *)
Definition describing (o : Ontology) : PinnedOntology :=
  mkPinnedOntology 2 (hex (fingerprint o)) (hex (o_build_fingerprint o)) (o_summary o) [].

(* SRC crates/exocortex-kernel/src/compatibility.rs 160-171 PersistedPin *)
Inductive PersistedPin :=
  | PinAbsent
  | PinLegacyV1 (fp : list Z)
  | PinV2 (record : PinnedOntology).

(* SRC crates/exocortex-kernel/src/compatibility.rs 575-612 CompatibilityError *)
Inductive CompatibilityError :=
  | LegacyPinMismatch (pinned runtime : list Z)
  | NotASuperset (divergence : option Divergence)
  | CorruptRecord (detail : string)
  | ProducerNotAdmitted (offered current : list Z)
  | PeerMismatch (offered ours : list Z).

#[global] Instance CompatibilityError_eq_dec : EqDecision CompatibilityError.
Proof. solve_decision. Defined.

(* SRC crates/exocortex-kernel/src/compatibility.rs 655-665 CompatibilityError::hash_pair *)
Definition hash_pair (e : CompatibilityError) : option (list Z * list Z) :=
  match e with
  | LegacyPinMismatch pinned runtime => Some (pinned, runtime)
  | ProducerNotAdmitted offered current => Some (offered, current)
  | PeerMismatch offered ours => Some (offered, ours)
  | _ => None
  end.

(** [serde_json::from_str::<PinnedOntology>]; the error carries its message. *)
Class SerdePin := { pin_from_json : string → result PinnedOntology string }.

(* SRC crates/exocortex-kernel/src/compatibility.rs 173-200 parse_pin *)
Definition parse_pin `{SerdePin} (value : string) : result PersistedPin CompatibilityError :=
  let trimmed := trim (as_bytes value) in
  if match trimmed with c :: _ => c =? 123 | [] => false end then
    match pin_from_json (string_of_bytes trimmed) with
    | Err e => Err (CorruptRecord e)
    | Ok record =>
        if negb (pin_scheme record =? 2) then
          Err (CorruptRecord ("unsupported scheme " +:+ pretty (pin_scheme record)
                              +:+ " (this build reads 2)"))
        else Ok (PinV2 record)
    end
  else if negb (Nat.eqb (length trimmed) 64) || negb (forallb is_ascii_hexdigit trimmed) then
    Err (CorruptRecord ("expected 64 hex characters or a scheme-2 record, found "
                        +:+ pretty (length trimmed) +:+ " bytes"))
  else match parse_hex_pairs trimmed with
       | Some fp => Ok (PinLegacyV1 fp)
       | None => Err (CorruptRecord "bad hexadecimal byte")
       end.

(* SRC crates/exocortex-kernel/src/compatibility.rs 668-679 NodeGraphDecision *)
Inductive NodeGraphDecision :=
  | Satisfied
  | Advance (next : PinnedOntology)
  | Migrate (next : PinnedOntology).

(** The loop of [bounded_accepted]. *)
Fixpoint extend_accepted (out prior : list string) : list string :=
  match prior with
  | [] => out
  | fp :: prior =>
      if Nat.leb MAX_ACCEPTED_FINGERPRINTS (length out) then out
      else if bool_decide (fp ∈ out) then extend_accepted out prior
      else extend_accepted (out ++ [fp]) prior
  end.

(* SRC crates/exocortex-kernel/src/compatibility.rs 681-692 bounded_accepted *)
Definition bounded_accepted (prior : list string) (newest : string) : list string :=
  extend_accepted [newest] prior.

Definition with_accepted (r : PinnedOntology) (accepted : list string) : PinnedOntology :=
  mkPinnedOntology (pin_scheme r) (pin_compatibility r) (pin_build r) (pin_summary r) accepted.

(* SRC crates/exocortex-kernel/src/compatibility.rs 694-746 admit_node_graph *)
Definition admit_node_graph `{Sha256} (pin : PersistedPin) (ours : Ontology)
    : result NodeGraphDecision CompatibilityError :=
  match pin with
  | PinAbsent => Ok Satisfied
  | PinLegacyV1 pinned =>
      if bool_decide (pinned = o_build_fingerprint ours) then
        Ok (Migrate (with_accepted (describing ours) [hex pinned]))
      else Err (LegacyPinMismatch pinned (o_build_fingerprint ours))
  | PinV2 record =>
      let stated := compatibility_fingerprint (pin_summary record) in
      if negb (bool_decide (hex stated = pin_compatibility record)) then
        Err (CorruptRecord ("summary hashes to " +:+ hex stated +:+ " but the record claims "
                            +:+ pin_compatibility record))
      else if summary_eqb (pin_summary record) (o_summary ours) then
        if bool_decide (pin_build record = hex (o_build_fingerprint ours)) then Ok Satisfied
        else Ok (Advance (with_accepted (describing ours) (pin_accepted record)))
      else if is_subset_of (pin_summary record) (o_summary ours) then
        Ok (Advance (with_accepted (describing ours)
              (bounded_accepted (pin_accepted record) (pin_compatibility record))))
      else Err (NotASuperset (first_divergence (o_summary ours) (pin_summary record)))
  end.

(** [offered.try_into::<[u8; 32]>()]. *)
Definition try_into32 (offered : list Z) : option (list Z) :=
  if Nat.eqb (length offered) 32 then Some offered else None.

(* SRC crates/exocortex-kernel/src/compatibility.rs 748-770 admit_producer_batch *)
Definition admit_producer_batch (offered : list Z) (ours : Ontology) (recognized : list (list Z))
    : result unit CompatibilityError :=
  let? tried := ok_or (try_into32 offered)
                  (ProducerNotAdmitted (replicate 32 0) (fingerprint ours)) in
  if bool_decide (tried = fingerprint ours) || bool_decide (tried ∈ recognized) then Ok tt
  else Err (ProducerNotAdmitted tried (fingerprint ours)).

(* SRC crates/exocortex-kernel/src/compatibility.rs 772-790 admit_peer *)
Definition admit_peer (offered ours : list Z) : result unit CompatibilityError :=
  let? tried := ok_or (try_into32 offered) (PeerMismatch (replicate 32 0) ours) in
  if bool_decide (tried = ours) then Ok tt else Err (PeerMismatch tried ours).

(* SRC crates/exocortex-kernel/src/compatibility.rs 821-835 BackupOntology *)
Inductive BackupOntology :=
  | Summarized (summary : OntologySummary)
  | Legacy (fingerprint_hex : string).

(* SRC crates/exocortex-kernel/src/compatibility.rs 792-819 admit_backup *)
Definition admit_backup (backup : BackupOntology) (ours : Ontology) : result unit CompatibilityError :=
  match backup with
  | Summarized summary =>
      if is_subset_of summary (o_summary ours) then Ok tt
      else Err (NotASuperset (first_divergence (o_summary ours) summary))
  | Legacy fingerprint_hex =>
      if bool_decide (fingerprint_hex = hex (o_build_fingerprint ours)) then Ok tt
      else Err (LegacyPinMismatch (replicate 32 0) (o_build_fingerprint ours))
  end.

(** ** Registration: what the loops establish *)

Lemma first_duplicate_none seen names :
  first_duplicate seen names = None ↔ NoDup names ∧ ∀ n, n ∈ names → n ∉ seen.
Proof.
  revert seen. induction names as [|n names IH]; intros seen; simpl.
  - split; [intros _; split; [apply NoDup_nil_2|set_solver]|done].
  - rewrite NoDup_cons. case_bool_decide; [split; [done|set_solver]|]. rewrite IH. set_solver.
Qed.

Lemma first_duplicate_nodup names : NoDup names → first_duplicate ∅ names = None.
Proof. intros. apply first_duplicate_none. set_solver. Qed.

Lemma register_kinds_ok ks m names :
  (∃ m', register_kinds ks m names = Ok m') ↔
  NoDup (km_id <$> ks) ∧ NoDup (display_name <$> ks) ∧
  (∀ k, k ∈ ks → m !! km_id k = None ∧ display_name k ∉ names).
Proof.
  revert m names. induction ks as [|k ks IH]; intros m names; simpl.
  { split; [intros _; split_and!; [constructor..|set_solver]|eauto]. }
  rewrite !NoDup_cons, !list_elem_of_fmap.
  case_bool_decide as Hid; [|case_bool_decide as Hn].
  - split; [by intros [? ?]|]. intros (_ & _ & Hk). destruct (Hk k) as [Hk' _]; [set_solver|].
    rewrite Hk' in Hid. by apply is_Some_None in Hid.
  - split; [by intros [? ?]|]. intros (_ & _ & Hk). destruct (Hk k); set_solver.
  - rewrite IH. apply eq_None_not_Some in Hid. split.
    + intros (H1 & H2 & H3). split_and!; try done.
      * intros (k' & Heq & Hin). apply H3 in Hin as [Hin _]. by rewrite Heq, lookup_insert_eq in Hin.
      * intros (k' & Heq & Hin). apply H3 in Hin as [_ Hin]. set_solver.
      * intros k' [->|Hin]%elem_of_cons; [done|]. apply H3 in Hin as [Hin1 Hin2].
        split; [|set_solver]. by apply lookup_insert_None in Hin1 as [? _].
    + intros ([H1 H1'] & [H2 H2'] & H3). split_and!; [done..|]. intros k' Hin.
      destruct (H3 k') as [? ?]; [set_solver|]. split.
      * rewrite lookup_insert_ne; [done|]. intros Heq. apply H1. eauto.
      * intros [Heq|]%elem_of_union; [|done]. apply H2. exists k'. set_solver.
Qed.

Lemma register_kinds_lookup ks m names m' :
  register_kinds ks m names = Ok m' →
  ∀ id k, m' !! id = Some k ↔ m !! id = Some k ∨ (k ∈ ks ∧ km_id k = id).
Proof.
  revert m names. induction ks as [|k ks IH]; intros m names; simpl.
  { intros [= <-]. set_solver. }
  case_bool_decide as Hid; [done|]. case_bool_decide; [done|]. intros Hr id k0.
  rewrite (IH _ _ Hr). apply eq_None_not_Some in Hid. rewrite lookup_insert_Some. split.
  - intros [[[? ?]|[? ?]]|[? ?]]; [right; subst; set_solver|by left|right; set_solver].
  - intros [Hm|[[->|Hin]%elem_of_cons Heq]]; [|by left; left|by right].
    left. right. split; [|done]. intros <-. congruence.
Qed.

Lemma foldl_assign_snd names acc : (foldl assign_type_id acc names).2 = acc.2 ++ names.
Proof.
  revert acc. induction names as [|n names IH]; intros [m l]; simpl; [by rewrite app_nil_r|].
  rewrite IH. simpl. by rewrite <-(assoc_L (++)).
Qed.

Lemma assign_type_ids_snd names : (assign_type_ids names).2 = names.
Proof. apply foldl_assign_snd. Qed.

Lemma assign_type_ids_snoc names n :
  (assign_type_ids (names ++ [n])).1 =
  <[n := as_u8 (Z.of_nat (length names))]> (assign_type_ids names).1.
Proof.
  unfold assign_type_ids at 1. rewrite foldl_app. simpl.
  fold (assign_type_ids names). by rewrite assign_type_ids_snd.
Qed.

(** Distinct names: the id of a name is its position, modulo 256. *)
Lemma assign_type_ids_lookup names n v :
  NoDup names →
  (assign_type_ids names).1 !! n = Some v ↔
  ∃ i, names !! i = Some n ∧ v = as_u8 (Z.of_nat i).
Proof.
  revert n v. induction names as [|m names IH] using rev_ind; intros n v Hd.
  { simpl. rewrite lookup_empty. naive_solver. }
  apply NoDup_app in Hd as (Hd & Hm & _). rewrite assign_type_ids_snoc, lookup_insert_Some, IH by done.
  split.
  - intros [[<- <-]|[Hne (i & Hi & ->)]].
    + exists (length names). by rewrite list_lookup_middle.
    + exists i. rewrite lookup_app_l; [done|]. by eapply lookup_lt_Some.
  - intros (i & Hi & ->). apply lookup_app_Some in Hi as [Hi|[Hge Hi]].
    + right. split; [|eauto]. intros ->. apply (Hm n); [by eapply list_elem_of_lookup_2|set_solver].
    + apply list_lookup_singleton_Some in Hi as [Hi <-]. left. split; [done|].
      by replace i with (length names) by lia.
Qed.

(** The pack sets [from_packs] accepts. *)
Definition packs_ok (packs : list PackDef) : Prop :=
  let c := canonicalized packs in
  NoDup (p_name <$> packs) ∧
  NoDup (c ≫= p_memory_type_names) ∧ NoDup (c ≫= p_entity_type_names) ∧
  NoDup (km_id <$> (c ≫= p_kinds)) ∧ NoDup (display_name <$> (c ≫= p_kinds)) ∧
  (∀ k, k ∈ required_kinds → ∃ row, row ∈ (c ≫= p_kinds) ∧ km_id row = k).

(** Acceptance, inverted: the fields of the assembled ontology. *)
Lemma from_packs_inv `{Sha256, Bincode} packs o :
  from_packs packs = Ok o →
  packs_ok packs ∧ o_packs o = canonicalized packs ∧
  (∀ id k, kinds_by_id o !! id = Some k ↔ k ∈ (canonicalized packs ≫= p_kinds) ∧ km_id k = id) ∧
  triples_by_kind o = index_triples (canonicalized packs ≫= p_type_triples) ∧
  memory_type_by_name o = (assign_type_ids (canonicalized packs ≫= p_memory_type_names)).1 ∧
  memory_type_names o = canonicalized packs ≫= p_memory_type_names ∧
  o_summary o = of_canonical_packs (canonicalized packs) ∧
  fingerprint o = compatibility_fingerprint (o_summary o).
Proof.
  unfold from_packs. intros Ho.
  destruct (first_duplicate ∅ (p_name <$> packs)) eqn:H1; [done|].
  destruct (first_duplicate ∅ (_ ≫= p_memory_type_names)) eqn:H2; [done|].
  destruct (first_duplicate ∅ (_ ≫= p_entity_type_names)) eqn:H3; [done|].
  apply result_bind_ok in Ho as (kinds & Hk & Ho).
  destruct (List.find _ _) eqn:Hf; [done|]. injection Ho as <-. simpl.
  apply first_duplicate_none in H1 as [H1 _], H2 as [H2 _], H3 as [H3 _].
  pose proof (register_kinds_lookup _ _ _ _ Hk) as Hl.
  assert (∃ m', register_kinds (canonicalized packs ≫= p_kinds) ∅ ∅ = Ok m') as Hok by eauto.
  apply register_kinds_ok in Hok as (Hd1 & Hd2 & _).
  assert (Hlook : ∀ id k, kinds !! id = Some k ↔
            k ∈ (canonicalized packs ≫= p_kinds) ∧ km_id k = id).
  { intros. rewrite Hl, lookup_empty. naive_solver. }
  split_and!; try done; [|apply assign_type_ids_snd].
  unfold packs_ok. split_and!; try done. intros k Hin.
  rewrite list_find_none in Hf. apply Hf, negb_false_iff, bool_decide_eq_true in Hin as [row Hrow].
  exists row. by apply Hlook.
Qed.

(** ** Offsets: pack-local type ids become ontology ids *)

(** The number of memory types the packs declare. *)
Definition total_types (packs : list PackDef) : nat := length (packs ≫= p_memory_type_names).

(** The offset the canonicalization has reached after [packs]. *)
Definition offset_after (acc : Z) (packs : list PackDef) : Z :=
  foldl (λ acc p, u8_saturating_add acc (as_u8 (Z.of_nat (length (p_memory_type_names p))))) acc packs.

Lemma canonical_packs_lookup i acc packs j :
  canonical_packs i acc packs !! j =
  canonical_pack (i + Z.of_nat j) (offset_after acc (take j packs)) <$> packs !! j.
Proof.
  revert i acc j. induction packs as [|p packs IH]; intros i acc [|j]; simpl; try done.
  - by rewrite Z.add_0_r.
  - rewrite IH. do 2 f_equal. lia.
Qed.

Lemma total_types_cons p packs :
  total_types (p :: packs) = (length (p_memory_type_names p) + total_types packs)%nat.
Proof. unfold total_types. by rewrite bind_cons, length_app. Qed.

Lemma offset_after_total acc packs :
  0 ≤ acc → acc + Z.of_nat (total_types packs) ≤ 255 →
  offset_after acc packs = acc + Z.of_nat (total_types packs).
Proof.
  revert acc. induction packs as [|p packs IH]; intros acc Hacc Hle.
  - change (total_types []) with 0%nat. simpl. lia.
  - rewrite total_types_cons in *. unfold offset_after. simpl. fold (offset_after
      (u8_saturating_add acc (as_u8 (Z.of_nat (length (p_memory_type_names p))))) packs).
    unfold as_u8. rewrite wrap_small by (unfold in_range; lia).
    unfold u8_saturating_add. rewrite Z.min_r by lia. rewrite IH; lia.
Qed.

Lemma canonical_packs_names i acc packs :
  canonical_packs i acc packs ≫= p_memory_type_names = packs ≫= p_memory_type_names.
Proof.
  revert i acc. induction packs as [|p packs IH]; intros i acc; [done|].
  cbn [canonical_packs]. by rewrite !bind_cons, IH.
Qed.

Lemma bind_lookup_offset packs j p x n :
  packs !! j = Some p → p_memory_type_names p !! x = Some n →
  (packs ≫= p_memory_type_names) !! (total_types (take j packs) + x)%nat = Some n.
Proof.
  revert j. induction packs as [|q packs IH]; intros [|j] Hj Hx; try done; rewrite bind_cons.
  - injection Hj as ->. rewrite lookup_app_l; [done|]. by eapply lookup_lt_Some.
  - cbn [take]. rewrite total_types_cons, lookup_app_r by lia.
    replace (_ + _ + x - _)%nat with (total_types (take j packs) + x)%nat by lia. eauto.
Qed.

(** The offset of a declared local id lands on the position of its name. *)
Lemma offset_id packs j p x n :
  (total_types packs ≤ 256)%nat → packs !! j = Some p → p_memory_type_names p !! x = Some n →
  u8_saturating_add (offset_after 0 (take j packs)) (Z.of_nat x)
    = as_u8 (Z.of_nat (total_types (take j packs) + x)).
Proof.
  intros Ht Hj Hx. pose proof (bind_lookup_offset _ _ _ _ _ Hj Hx) as Hlt.
  apply lookup_lt_Some in Hlt. fold (total_types packs) in Hlt.
  rewrite offset_after_total by lia. unfold u8_saturating_add, as_u8.
  rewrite wrap_small by (unfold in_range; lia). lia.
Qed.

(** A side of a triple as its pack wrote it, against the side of the assembled ontology: the
    same constraint, with every declared type name resolved to its id. *)
Definition side_resolved (o : Ontology) (names : list string) (s s' : option (list Z)) : Prop :=
  match s, s' with
  | None, None => True
  | Some xs, Some xs' =>
      Forall2 (λ x x', ∀ n, names !! Z.to_nat x = Some n → 0 ≤ x → memory_type_id o n = Some x') xs xs'
  | _, _ => False
  end.

Lemma remap_side_resolved o names off s :
  (∀ x n, names !! x = Some n → memory_type_id o n = Some (u8_saturating_add off (Z.of_nat x))) →
  side_resolved o names s (remap_side off s).
Proof.
  intros Hoff. destruct s as [xs|]; simpl; [|done]. apply Forall2_fmap_r, Forall_Forall2_diag.
  apply Forall_true. intros x n Hn Hx. by rewrite (Hoff _ _ Hn), Z2Nat.id.
Qed.

(** ** Properties of assembly *)

(** Assembly accepts exactly the pack sets with distinct pack names, type names (in each
    namespace), kind ids and kind display names that bind every kernel constant; every other
    set is an error. *)
Theorem from_packs_accepts `{Sha256, Bincode} packs :
  is_ok (from_packs packs) = true ↔ packs_ok packs.
Proof.
  split.
  - destruct (from_packs packs) as [o|e] eqn:Ho; [|done]. intros _.
    by apply from_packs_inv in Ho as [? _].
  - intros (H1 & H2 & H3 & H4 & H5 & H6). unfold from_packs.
    rewrite !first_duplicate_nodup by done.
    destruct (proj2 (register_kinds_ok (canonicalized packs ≫= p_kinds) ∅ ∅)) as [kinds Hk].
    { split_and!; [done..|]. intros. by rewrite lookup_empty. }
    rewrite Hk. cbn [result_bind]. rewrite (proj2 (list_find_none _ _)); [done|].
    intros k Hin. apply negb_false_iff, bool_decide_eq_true.
    apply H6 in Hin as (row & Hin & <-). exists row.
    apply (register_kinds_lookup _ _ _ _ Hk). by right.
Qed.

(** Assembly does not depend on the order packs are registered in: any two orders of the
    same distinctly named packs give the same ontology or the same error, and so the same
    fingerprints. *)
Theorem from_packs_order_independent `{Sha256, Bincode} packs packs' :
  packs ≡ₚ packs' → NoDup (p_name <$> packs) → from_packs packs = from_packs packs'.
Proof.
  intros Hp Hd. unfold from_packs. rewrite (canonicalized_perm packs packs') by done.
  rewrite (first_duplicate_nodup (p_name <$> packs)) by done.
  by rewrite (first_duplicate_nodup (p_name <$> packs')) by by rewrite <-Hp.
Qed.

(** Kind names resolve to the one kind that carries the name, whatever order the hash map
    enumerates its entries in, and nothing else resolves. *)
Theorem kind_id_resolves `{Sha256, Bincode, HashOrder} packs o name id :
  from_packs packs = Ok o →
  kind_id o name = Some id ↔ ∃ k, kinds_by_id o !! id = Some k ∧ display_name k = name.
Proof.
  intros Ho. destruct (from_packs_inv _ _ Ho) as ((_ & _ & _ & _ & Hd & _) & _ & Hk & _).
  unfold kind_id. rewrite fmap_Some. split.
  - intros (k & [Hin Hn]%List.find_some & ->). bool_prop.
    apply list_elem_of_In, elem_of_hash_values in Hin as [id' Hid]. exists k. split; [|done].
    pose proof (proj1 (Hk _ _) Hid) as [_ ->]. done.
  - intros (k & Hid & Hn). destruct (List.find _ _) as [k'|] eqn:Hf.
    + apply List.find_some in Hf as [Hin Hn']. bool_prop.
      apply list_elem_of_In, elem_of_hash_values in Hin as [id' Hid'].
      apply Hk in Hid as [Hin <-]. apply Hk in Hid' as [Hin' _]. exists k'. split; [done|]. f_equal.
      eapply (NoDup_fmap_elem display_name); [done..|congruence].
    + rewrite list_find_none in Hf.
      assert (k ∈ hash_values (kinds_by_id o)) as Hin by (apply elem_of_hash_values; eauto).
      apply Hf in Hin. bool_prop. done.
Qed.

(** Memory-type ids.  With at most 256 memory types, ids and names determine each other;
    with more, the ids wrap and two different types share one. *)
Theorem type_ids_unique `{Sha256, Bincode} packs o :
  from_packs packs = Ok o →
  ((length (memory_type_names o) ≤ 256)%nat →
     ∀ n i, memory_type_id o n = Some i ↔ 0 ≤ i ∧ memory_type_names o !! Z.to_nat i = Some n) ∧
  ((256 < length (memory_type_names o))%nat →
     ∃ n m, n ≠ m ∧ memory_type_id o n = Some 0 ∧ memory_type_id o m = Some 0).
Proof.
  intros Ho. destruct (from_packs_inv _ _ Ho) as ((_ & Hd & _) & _ & _ & _ & Hm & Hn & _).
  rewrite <-Hn in Hd, Hm. unfold memory_type_id. rewrite Hm. split.
  - intros Hlen n i. rewrite assign_type_ids_lookup by done. split.
    + intros (j & Hj & ->). pose proof (lookup_lt_Some _ _ _ Hj). unfold as_u8.
      rewrite wrap_small by (unfold in_range; lia). split; [lia|]. by rewrite Nat2Z.id.
    + intros [Hi Hl]. exists (Z.to_nat i). split; [done|]. apply lookup_lt_Some in Hl.
      unfold as_u8. rewrite wrap_small by (unfold in_range; lia). lia.
  - intros Hlen.
    destruct (lookup_lt_is_Some_2 (memory_type_names o) 0) as [n Hn0]; [lia|].
    destruct (lookup_lt_is_Some_2 (memory_type_names o) 256) as [m Hm0]; [lia|].
    exists n, m. split.
    + intros ->. by eapply (NoDup_lookup _ 0 256 _ Hd) in Hn0.
    + split; apply assign_type_ids_lookup; [done|by exists 0%nat|done|by exists 256%nat].
Qed.

(** Type triples keep their meaning through assembly.  With at most 256 memory types in
    total, each triple of each pack appears in the ontology with every type id it declares
    replaced by the ontology's id of the same type name, for any number of packs before it. *)
Theorem triples_follow_types `{Sha256, Bincode} packs o i p :
  from_packs packs = Ok o → (length (memory_type_names o) ≤ 256)%nat →
  merge_sort pack_le packs !! i = Some p →
  ∃ p', o_packs o !! i = Some p' ∧
    Forall2 (λ t t', side_resolved o (p_memory_type_names p) (from_types t) (from_types t') ∧
                     side_resolved o (p_memory_type_names p) (to_types t) (to_types t'))
      (p_type_triples p) (p_type_triples p').
Proof.
  intros Ho Hlen Hp. destruct (from_packs_inv _ _ Ho) as ((_ & Hd & _) & Hops & _ & _ & Hm & Hn & _).
  rewrite Hops. unfold canonicalized in *. rewrite canonical_packs_lookup, Hp. eexists; split; [done|].
  simpl. apply Forall2_fmap_r, Forall_Forall2_diag, Forall_true. intros t. simpl.
  split; apply remap_side_resolved; intros x n Hx; unfold memory_type_id.
  all: rewrite Hm; apply assign_type_ids_lookup; [done|].
  all: rewrite Hn, canonical_packs_names in Hlen; rewrite canonical_packs_names.
  all: exists (total_types (take i (merge_sort pack_le packs)) + x)%nat.
  all: split; [by eapply bind_lookup_offset|by eapply offset_id].
Qed.

(** ** The validator *)

Lemma validate_hints_ok o mt hints :
  validate_hints o mt hints = Ok tt ↔
  ∀ h, h ∈ hints → ∃ triples t, triples_by_kind o !! eh_kind h = Some triples ∧ t ∈ triples ∧
                               side_admits (from_types t) mt = true.
Proof.
  assert (Hm : ∀ t, matches_triple t mt None = side_admits (from_types t) mt).
  { intros t. unfold matches_triple, side_admits. destruct (to_types t); by rewrite andb_true_r. }
  induction hints as [|h hints IH]; simpl; [set_solver|].
  destruct (triples_by_kind o !! eh_kind h) as [triples|] eqn:Ht; [|split; [done|]].
  - destruct (existsb _ triples) eqn:He.
    + apply existsb_elem in He as (t & Hin & Hadm). rewrite Hm in Hadm. rewrite IH. split.
      * intros Hall h' [->|Hin']%elem_of_cons; [by exists triples, t|by apply Hall].
      * intros Hall h' Hin'. apply Hall. set_solver.
    + split; [done|]. intros Hall. destruct (Hall h) as (ts & t & Hts & Hin & Hadm); [set_solver|].
      rewrite Ht in Hts. injection Hts as <-. rewrite <-Hm in Hadm.
      assert (existsb (λ t, matches_triple t mt None) triples = true) as Hc
        by (apply existsb_elem; eauto). congruence.
  - intros Hall. destruct (Hall h) as (ts & t & Hts & _); [set_solver|]. congruence.
Qed.

Lemma validate_triple_ok o f k t :
  validate_triple o f k t = Ok tt ↔
  ∃ triples tr, triples_by_kind o !! k = Some triples ∧ tr ∈ triples ∧
                side_admits (from_types tr) f = true ∧ side_admits (to_types tr) t = true.
Proof.
  unfold validate_triple.
  destruct (triples_by_kind o !! k) as [triples|]; [|split; [done|by intros (?&?&?&_)]].
  destruct (existsb _ triples) eqn:He.
  - apply existsb_elem in He as (tr & Hin & Hadm). bool_prop. split; [intros _|done].
    by exists triples, tr.
  - split; [done|]. intros (ts & tr & [= <-] & Hin & Hf & Ht).
    enough (existsb (λ tr, side_admits (from_types tr) f && side_admits (to_types tr) t) triples
              = true) as Hc by (unfold side_admits in Hc; congruence).
    apply existsb_elem. exists tr. by rewrite Hf, Ht.
Qed.

(** The draft validator accepts a draft exactly when its title has 1 to 200 characters, its
    content is not empty, its summary has at most 500 characters, its serialized metadata at most
    8 KiB, its visibility is within the source's ceiling, and the source type of every edge hint
    is admitted by some triple of a known kind; a hint whose edge passes the two-sided check for
    some target type always passes the draft's check. *)
Theorem validate_draft_exact `{SerdeJson} o d c :
  (validate_draft o d c = Ok tt ↔
     d_title d ≠ "" ∧ chars_count (d_title d) ≤ 200 ∧ d_content d ≠ "" ∧
     (∀ s, d_summary d = Some s → chars_count s ≤ 500) ∧
     Z.of_nat (String.length (json_to_string (additional_metadata (d_context d)))) ≤ 8192 ∧
     vis_u8 (d_visibility d) ≤ vis_u8 (sc_ceiling c) ∧
     ∀ h, h ∈ d_edge_hints d → ∃ triples t, triples_by_kind o !! eh_kind h = Some triples ∧
        t ∈ triples ∧ side_admits (from_types t) (d_memory_type d) = true) ∧
  (∀ h to, validate_triple o (d_memory_type d) (eh_kind h) to = Ok tt →
     validate_hints o (d_memory_type d) [h] = Ok tt).
Proof.
  split.
  - rewrite <-validate_hints_ok. unfold validate_draft, within.
    destruct (String.eqb_spec (d_title d) ""); simpl; [naive_solver|].
    destruct (Z.ltb_spec 200 (chars_count (d_title d))); simpl; [naive_solver lia|].
    destruct (String.eqb_spec (d_content d) ""); simpl; [naive_solver|].
    assert (Hsum : (∀ s, d_summary d = Some s → chars_count s ≤ 500) ↔
              match d_summary d with Some s => 500 <? chars_count s | None => false end = false).
    { destruct (d_summary d) as [s|]; [rewrite Z.ltb_ge|]; naive_solver. }
    rewrite Hsum. destruct (match d_summary d with Some _ => _ | None => _ end); [naive_solver|].
    destruct (Z.ltb_spec (8 * 1024)
           (Z.of_nat (String.length (json_to_string (additional_metadata (d_context d))))));
      simpl; [naive_solver lia|].
    destruct (Z.leb_spec (vis_u8 (d_visibility d)) (vis_u8 (sc_ceiling c))); simpl; naive_solver lia.
  - intros h to (ts & tr & Hts & Hin & Hf & _)%validate_triple_ok. apply validate_hints_ok.
    intros h' ->%list_elem_of_singleton. eauto.
Qed.

(** ** Inverse companions *)

(** Kinds come in inverse pairs: the inverse of a directed kind is a directed kind whose inverse
    it is. *)
Definition inverse_paired (o : Ontology) : Prop :=
  ∀ k m i, kinds_by_id o !! k = Some m → inverse m = Some i → i ≠ k → km_bidirectional m = false →
    ∃ m', kinds_by_id o !! i = Some m' ∧ inverse m' = Some k ∧ km_bidirectional m' = false.

Lemma materialize_inverse_Some `{Blake3} o rel inv :
  materialize_inverse o rel = Some inv →
  ∃ m i, kinds_by_id o !! r_kind rel = Some m ∧ inverse m = Some i ∧ i ≠ r_kind rel ∧
    km_bidirectional m = false ∧ r_kind inv = i ∧ r_from inv = r_to rel ∧ r_to inv = r_from rel ∧
    r_id inv = RelationshipId_derive (r_to rel) i (r_from rel) None ∧
    r_visibility inv = r_visibility rel ∧ r_provenance inv = r_provenance rel ∧
    r_properties inv = r_properties rel ∧ r_valid_from inv = r_valid_from rel ∧
    r_valid_until inv = r_valid_until rel ∧ r_recorded_at inv = r_recorded_at rel.
Proof.
  unfold materialize_inverse. intros (m & Hm & (i & Hi & Hinv)%bind_Some)%bind_Some.
  destruct (bool_decide (i = r_kind rel) || km_bidirectional m) eqn:E; [done|].
  apply orb_false_iff in E as [?%bool_decide_eq_false ?]. injection Hinv as <-. simpl. eauto 20.
Qed.

(** Writing the companion of a companion restores the edge: in an ontology of inverse pairs
    the inverse of a materialized inverse exists, joins the original endpoints by the original
    kind with the original visibility, provenance, properties and validity, and has the original
    identity whenever that was derived from the edge, so materialization reaches a fixed point
    after one companion. *)
Theorem inverse_of_inverse `{Blake3} o rel inv :
  inverse_paired o → materialize_inverse o rel = Some inv →
  ∃ rel', materialize_inverse o inv = Some rel' ∧
    r_kind rel' = r_kind rel ∧ r_from rel' = r_from rel ∧ r_to rel' = r_to rel ∧
    r_visibility rel' = r_visibility rel ∧ r_provenance rel' = r_provenance rel ∧
    r_properties rel' = r_properties rel ∧ r_valid_from rel' = r_valid_from rel ∧
    r_valid_until rel' = r_valid_until rel ∧ r_recorded_at rel' = r_recorded_at rel ∧
    (r_id rel = RelationshipId_derive (r_from rel) (r_kind rel) (r_to rel) None →
     r_id rel' = r_id rel).
Proof.
  intros Hp (m & i & Hm & Hi & Hne & Hb & Hk & Hf & Ht & Hid & Hrest)%materialize_inverse_Some.
  destruct (Hp _ _ _ Hm Hi Hne Hb) as (m' & Hm' & Hi' & Hb').
  destruct Hrest as (?&?&?&?&?&?).
  unfold materialize_inverse at 1. rewrite Hk, Hm'. simpl. rewrite Hi'. simpl.
  rewrite bool_decide_eq_false_2, Hb' by done. simpl. eexists; split; [done|]. simpl.
  rewrite Hf, Ht. split_and!; congruence || done.
Qed.

(** ** Admission *)

Lemma extend_accepted_bound out prior :
  (length out ≤ MAX_ACCEPTED_FINGERPRINTS)%nat → NoDup out →
  (length (extend_accepted out prior) ≤ MAX_ACCEPTED_FINGERPRINTS)%nat ∧
  NoDup (extend_accepted out prior) ∧ out `prefix_of` extend_accepted out prior.
Proof.
  revert out. induction prior as [|fp prior IH]; intros out Hlen Hd; cbn [extend_accepted].
  { by split_and!. }
  destruct (Nat.leb_spec MAX_ACCEPTED_FINGERPRINTS (length out)); [by split_and!|].
  case_bool_decide; [by apply IH|].
  destruct (IH (out ++ [fp])) as (? & ? & Hp).
  - rewrite length_app. simpl. lia.
  - apply NoDup_app. split_and!; [done|set_solver|apply NoDup_singleton].
  - split_and!; [done..|]. etrans; [by apply prefix_app_r|done].
Qed.

Lemma list_eqb_refl {A} (eqb : A → A → bool) l :
  (∀ x, x ∈ l → eqb x x = true) → list_eqb eqb l l = true.
Proof. induction l as [|x l IH]; intros H; simpl; [done|]. rewrite H, IH; set_solver. Qed.

(** No kind has a NaN default strength. *)
Definition strengths_ok (s : OntologySummary) : Prop :=
  ∀ k, k ∈ s_kinds s → ks_default_strength k ≠ S754_nan.

Lemma kind_summary_eqb_refl k : ks_default_strength k ≠ S754_nan → kind_summary_eqb k k = true.
Proof.
  intros Hk. apply kind_summary_eqb_spec. split_and!; try done. apply f32_eqb_spec. by right.
Qed.

Lemma summary_eqb_refl s : strengths_ok s → summary_eqb s s = true.
Proof.
  intros Hs. unfold summary_eqb. rewrite !bool_decide_eq_true_2 by done.
  rewrite list_eqb_refl; [done|]. intros k Hk. by apply kind_summary_eqb_refl, Hs.
Qed.

(** The node/graph boundary.  A node starts on a pinned graph only if the pin's summary
    hashes to the fingerprint it claims and equals or is contained in the node's summary; the
    record it then persists describes the node itself, and starting the same node again on that
    record is satisfied without another write; on an upgrade the recognized producer fingerprints
    are at most eight, distinct, and led by the fingerprint being replaced. *)
Theorem admit_node_graph_settles `{Sha256} record ours d :
  strengths_ok (o_summary ours) → fingerprint ours = compatibility_fingerprint (o_summary ours) →
  admit_node_graph (PinV2 record) ours = Ok d →
  hex (compatibility_fingerprint (pin_summary record)) = pin_compatibility record ∧
  (summary_eqb (pin_summary record) (o_summary ours) = true ∨
   is_subset_of (pin_summary record) (o_summary ours) = true) ∧
  match d with
  | Satisfied => True
  | Advance next | Migrate next =>
      pin_summary next = o_summary ours ∧ admit_node_graph (PinV2 next) ours = Ok Satisfied ∧
      (summary_eqb (pin_summary record) (o_summary ours) = false →
        (length (pin_accepted next) ≤ 8)%nat ∧ NoDup (pin_accepted next) ∧
        head (pin_accepted next) = Some (pin_compatibility record))
  end.
Proof.
  intros Hs Hfp. unfold admit_node_graph at 1.
  destruct (bool_decide (_ = pin_compatibility record)) eqn:E1; simpl; [|done]. bool_prop.
  assert (Hsettle : ∀ acc, admit_node_graph (PinV2 (with_accepted (describing ours) acc)) ours
            = Ok Satisfied).
  { intros acc. unfold admit_node_graph. simpl. rewrite <-Hfp, bool_decide_eq_true_2 by done. simpl.
    rewrite summary_eqb_refl, bool_decide_eq_true_2 by done. done. }
  destruct (summary_eqb _ _) eqn:E2.
  - case_bool_decide; intros [= <-]; (split; [done|]); (split; [by left|]); [done|].
    split_and!; [done|apply Hsettle|done].
  - destruct (is_subset_of _ _) eqn:E3; [|done]. intros [= <-].
    split_and!; [done|by right|done|apply Hsettle|]. intros _. simpl. unfold bounded_accepted.
    destruct (extend_accepted_bound [pin_compatibility record] (pin_accepted record))
      as (? & ? & [k Hk]); [simpl; unfold MAX_ACCEPTED_FINGERPRINTS; lia|apply NoDup_singleton|].
    split_and!; [done..|]. by rewrite Hk.
Qed.

(** The divergence attached to a refusal is computed with the two summaries exchanged: when
    the node is strictly older than the backup or graph, the refusal names no divergence at all,
    although the scan in the direction of the test finds one. *)
Theorem refusal_reports_no_divergence ours s :
  is_subset_of (o_summary ours) s = true → is_subset_of s (o_summary ours) = false →
  admit_backup (Summarized s) ours = Err (NotASuperset None) ∧
  ∃ d, first_divergence s (o_summary ours) = Some d.
Proof.
  intros Hsub Hnot. unfold admit_backup. rewrite Hnot. split.
  - by rewrite (proj2 (first_divergence_none _ _)).
  - destruct (first_divergence s (o_summary ours)) eqn:E; [eauto|].
    apply first_divergence_none in E. congruence.
Qed.
