(* ===== verification/StorageTypes.v ===== *)
(** * The storage seam's data and the visibility decision

    [types.rs] and the error type of [trait_.rs] of [crates/exocortex-storage/src]: regions,
    leases, commit records, the change feed's events, discoveries, audits, the rollback journal,
    and [memory_visible] and [relationship_visible], the one visibility decision storage and
    cache share.

    [chrono::Duration] is a [Z] of nanoseconds. *)

From stdpp Require Import pretty.
From S2P Require Import Prelude Ids Kernel Packs Ontology.

(** ** Errors *)

(* SRC crates/exocortex-storage/src/trait_.rs 15-57 StorageError *)
Inductive StorageError :=
  | Backend (msg : string)
  | PermissionDenied
  | FingerprintMismatch (storage runtime : list Z)
  | CorruptMetadata (key detail : string)
  | FencedWriteRejected (lease_epoch : Z)
  | ProposalNotFound
  | ProposalMismatch.

#[global] Instance StorageError_eq_dec : EqDecision StorageError.
Proof. solve_decision. Defined.

(** [{:?}] of a byte slice. *)
Definition debug_bytes (l : list Z) : string :=
  "[" +:+ String.concat ", " (pretty <$> l) +:+ "]".
(** [StorageError]'s [Display]. *)
(* SRC crates/exocortex-storage/src/trait_.rs 15-57 StorageError *)
Definition StorageError_to_string (e : StorageError) : string :=
  match e with
  | Backend msg => "backend error: " +:+ msg
  | PermissionDenied => "permission denied"
  | FingerprintMismatch storage runtime =>
      "ontology fingerprint mismatch: storage=" +:+ debug_bytes storage +:+ " runtime="
      +:+ debug_bytes runtime
  | CorruptMetadata key detail => "corrupt storage metadata `" +:+ key +:+ "`: " +:+ detail
  | FencedWriteRejected lease_epoch =>
      "fenced write rejected: lease epoch " +:+ pretty lease_epoch +:+ " is stale"
  | ProposalNotFound => "discovery proposal not found"
  | ProposalMismatch => "discovery proposal scope or fields do not match"
  end.

(** ** Commits and ingest *)

(* SRC crates/exocortex-storage/src/types.rs 9-21 CommitRecord *)
Record CommitRecord := mkCommitRecord {
  cr_lsn : Z;
  committed_at : DateTime;
  node_id : option Z;
  edge_id : option Z;
}.

(** A commit record of the in-memory backend. *)
Definition commit (lsn : Z) (at_ : DateTime) : CommitRecord := mkCommitRecord lsn at_ None None.

(* SRC crates/exocortex-storage/src/types.rs 23-32 IngestBatchKey *)
Record IngestBatchKey := mkIngestBatchKey {
  ib_org_id : string;
  ib_producer_id : string;
  ib_batch_id : string;
}.

#[global] Instance IngestBatchKey_eq_dec : EqDecision IngestBatchKey.
Proof. solve_decision. Defined.
#[global] Instance IngestBatchKey_countable : Countable IngestBatchKey.
Proof.
  refine (inj_countable' (λ k, (ib_org_id k, ib_producer_id k, ib_batch_id k))
            (λ '(a, b, c), mkIngestBatchKey a b c) _).
  by intros [].
Defined.

(* SRC crates/exocortex-storage/src/types.rs 34-43 SettledIngestBatch *)
Record SettledIngestBatch := mkSettled {
  accepted : Z;
  rejected : Z;
  assigned_lsn : Z;
}.

(* SRC crates/exocortex-storage/src/types.rs 590-599 RegionKey *)
Record RegionKey := mkRegionKey {
  rk_org : string;
  rk_project : string;
  rk_memory_type : Z;
}.

#[global] Instance RegionKey_eq_dec : EqDecision RegionKey.
Proof. solve_decision. Defined.

(* SRC crates/exocortex-storage/src/types.rs 45-54 IngestRegionDelta *)
Record IngestRegionDelta := mkIngestRegionDelta {
  rd_region : RegionKey;
  rd_memories : Z;
  rd_relationships : Z;
}.

#[global] Instance IngestRegionDelta_eq_dec : EqDecision IngestRegionDelta.
Proof. solve_decision. Defined.

(* SRC crates/exocortex-storage/src/types.rs 56-67 PostIngestEffect *)
Record PostIngestEffect := mkPostIngestEffect {
  effect_id : string;
  session_memory_ids : list MemoryId;
  region_deltas : list IngestRegionDelta;
}.

#[global] Instance PostIngestEffect_eq_dec : EqDecision PostIngestEffect.
Proof. solve_decision. Defined.

(* SRC crates/exocortex-storage/src/types.rs 69-79 ClaimedPostIngestEffect *)
Record ClaimedPostIngestEffect := mkClaimed {
  ce_effect : PostIngestEffect;
  ce_delivery_generation : Z;
  ce_retain_legacy_identity : bool;
}.

(* SRC crates/exocortex-storage/src/types.rs 81-94 IngestCommitOutcome *)
Inductive IngestCommitOutcome :=
  | Committed (records : list CommitRecord) (settled : SettledIngestBatch)
  | Duplicate (settled : SettledIngestBatch).

(** A [BTreeMap<Id, BTreeSet<u64>>]. *)
Notation lsn_map K := (gmap K (gset Z)).

(** [map.entry(k).or_default().extend(lsns)]. *)
Definition entry_extend {K} `{Countable K} (k : K) (lsns : gset Z) (m : lsn_map K) : lsn_map K :=
  <[k := default ∅ (m !! k) ∪ lsns]> m.

(* SRC crates/exocortex-storage/src/types.rs 96-109 FencedBatchCommit *)
Record FencedBatchCommit := mkFencedBatchCommit {
  fb_records : list CommitRecord;
  memory_lsns : lsn_map MemoryId;
  relationship_lsns : lsn_map RelationshipId;
}.

(** ** Leases *)

(* SRC crates/exocortex-storage/src/types.rs 541-569 LeaseKey *)
Inductive LeaseKey :=
  | Dreams (org region : string)
  | Backfill (org : string)
  | Cleanup (org : string)
  | Consolidation (org region : string).

#[global] Instance LeaseKey_eq_dec : EqDecision LeaseKey.
Proof. solve_decision. Defined.
#[global] Instance LeaseKey_countable : Countable LeaseKey.
Proof.
  refine (inj_countable' (λ k, match k with
            | Dreams o r => (0%nat, o, r) | Backfill o => (1%nat, o, "")
            | Cleanup o => (2%nat, o, "") | Consolidation o r => (3%nat, o, r) end)
            (λ '(n, o, r), match n with
            | 0%nat => Dreams o r | 1%nat => Backfill o | 2%nat => Cleanup o
            | _ => Consolidation o r end) _).
  by intros [].
Defined.

(* SRC crates/exocortex-storage/src/types.rs 571-588 OwnerLease *)
Record OwnerLease := mkOwnerLease {
  ol_key : LeaseKey;
  owner_node_id : string;
  epoch : Z;
  acquired_at : DateTime;
  expires_at : DateTime;
  grace_period : Z;
  fencing_token : string;
}.

(** ** The rollback journal *)

(* SRC crates/exocortex-storage/src/types.rs 111-131 FencedRestore *)
Record FencedRestore := mkFencedRestore {
  fr_memories : list Memory;
  fr_relationships : list Relationship;
  created_memories : list Memory;
  created_relationships : list Relationship;
  owned_memory_lsns : lsn_map MemoryId;
  owned_relationship_lsns : lsn_map RelationshipId;
}.

Definition FencedRestore_default : FencedRestore := mkFencedRestore [] [] [] [] ∅ ∅.

(** [for x in other { if !self.iter().any(|e| e.id == x.id) { self.push(x.clone()) } }]. *)
Definition push_absent {A K} `{EqDecision K} (key : A → K) (self other : list A) : list A :=
  foldl (λ out x, if existsb (λ e, bool_decide (key e = key x)) out then out else out ++ [x])
    self other.

(** [for (id, lsns) in other { self.entry(id).or_default().extend(lsns) }]. *)
Definition extend_lsns {K} `{Countable K} (self other : lsn_map K) : lsn_map K :=
  union_with (λ a b : gset Z, Some (a ∪ b)) self other.

(* SRC crates/exocortex-storage/src/types.rs 183-230 FencedRestore::merge *)
Definition FencedRestore_merge (self other : FencedRestore) : FencedRestore := {|
  fr_memories := push_absent m_id (fr_memories self) (fr_memories other);
  fr_relationships := push_absent r_id (fr_relationships self) (fr_relationships other);
  created_memories := push_absent m_id (created_memories self) (created_memories other);
  created_relationships :=
    push_absent r_id (created_relationships self) (created_relationships other);
  owned_memory_lsns := extend_lsns (owned_memory_lsns self) (owned_memory_lsns other);
  owned_relationship_lsns :=
    extend_lsns (owned_relationship_lsns self) (owned_relationship_lsns other);
|}.

(* SRC crates/exocortex-storage/src/types.rs 233-241 CycleJournalState *)
Inductive CycleJournalState := Active | Completed.

#[global] Instance CycleJournalState_eq_dec : EqDecision CycleJournalState.
Proof. solve_decision. Defined.

(* SRC crates/exocortex-storage/src/types.rs 243-256 CycleJournalRecord *)
Record CycleJournalRecord := mkJournal {
  cj_cycle_id : string;
  cj_lease_key : LeaseKey;
  cj_lease_epoch : Z;
  restore : FencedRestore;
  cj_state : CycleJournalState;
}.

(** ** Visibility contexts, discoveries and audits *)

(* SRC crates/exocortex-storage/src/types.rs 302-316 VisibilityContext *)
Record VisibilityContext := mkVisibilityContext {
  vc_user_id : string;
  vc_org_id : string;
  project_ids : list string;
  team_ids : list string;
  max_visibility : Visibility;
}.

#[global] Instance VisibilityContext_eq_dec : EqDecision VisibilityContext.
Proof. solve_decision. Defined.

(* SRC crates/exocortex-storage/src/types.rs 277-288 VisibilityContext::default *)
Definition VisibilityContext_default : VisibilityContext := mkVisibilityContext "" "" [] [] Private.

(* SRC crates/exocortex-storage/src/types.rs 318-338 DiscoveryProposal *)
Record DiscoveryProposal := mkProposal {
  dp_discovery_id : string;
  dp_region : RegionKey;
  dp_from : MemoryId;
  dp_to : MemoryId;
  dp_kind : RelKindId;
  proposed_visibility : Visibility;
  dp_caller_scope : VisibilityContext;
  issued_at : DateTime;
}.

#[global] Instance DiscoveryProposal_eq_dec : EqDecision DiscoveryProposal.
Proof. solve_decision. Defined.

(* SRC crates/exocortex-storage/src/types.rs 340-363 DiscoveryRecord *)
Record DiscoveryRecord := mkDiscovery {
  dr_discovery_id : string;
  dr_region : RegionKey;
  dr_from : MemoryId;
  dr_to : MemoryId;
  discovery_type : string;
  quality : f32;
  via_types : Z * Z;
  discovery_cycle_id : string;
  discovered_at : DateTime;
}.

(** Derived [PartialEq]: fields in turn, [quality] as a float. *)
Definition discovery_eqb (a b : DiscoveryRecord) : bool :=
  bool_decide (dr_discovery_id a = dr_discovery_id b) && bool_decide (dr_region a = dr_region b) &&
  bool_decide (dr_from a = dr_from b) && bool_decide (dr_to a = dr_to b) &&
  bool_decide (discovery_type a = discovery_type b) && f32_eqb (quality a) (quality b) &&
  bool_decide (via_types a = via_types b) &&
  bool_decide (discovery_cycle_id a = discovery_cycle_id b) &&
  (discovered_at a =? discovered_at b).

(* SRC crates/exocortex-storage/src/types.rs 365-384 AuditEvent *)
Record AuditEvent := mkAuditEvent {
  action : string;
  actor : string;
  ae_org_id : string;
  input_digest : list Z;
  output_ids : list string;
  ae_fingerprint : list Z;
  ae_lease_epoch : option Z;
  ae_recorded_at : DateTime;
}.

(* SRC crates/exocortex-storage/src/types.rs 386-399 DiscoveryAcceptance *)
Record DiscoveryAcceptance := mkAcceptance {
  da_discovery_id : string;
  da_region : RegionKey;
  da_caller_scope : VisibilityContext;
  da_relationship : Relationship;
  da_audit : AuditEvent;
}.

(* SRC crates/exocortex-storage/src/types.rs 483-500 MemoryFilter *)
Record MemoryFilter := mkMemoryFilter {
  mf_memory_types : list Z;
  mf_entity_any_of : list EntityId;
  mf_project_id : option string;
  mf_session_id : option string;
  mf_valid_at : option DateTime;
  mf_limit : Z;
  visibility_ctx : VisibilityContext;
}.

(* SRC crates/exocortex-storage/src/types.rs 502-513 GraphSnapshot *)
Record GraphSnapshot := mkGraphSnapshot {
  as_of : DateTime;
  backend_lsn : Z;
  memory_count : Z;
  relationship_count : Z;
}.

(** ** The change feed *)

(* SRC crates/exocortex-storage/src/types.rs 601-674 Invalidation *)
Inductive Invalidation :=
  | MemoryUpserted (id : MemoryId) (lsn : Z)
  | MemoryDeleted (id : MemoryId) (lsn : Z)
  | RelationshipUpserted (id : RelationshipId) (from to : MemoryId) (kind : RelKindId) (lsn : Z)
  | RelationshipDeleted (id : RelationshipId) (lsn : Z)
  | DiscoveryAvailable (record : DiscoveryRecord) (lsn : Z)
  | VisibilityAdvance (lsn : Z)
  | MemorySnapshotUpserted (memory : Memory) (lsn : Z)
  | RelationshipSnapshotUpserted (relationship : Relationship) (lsn : Z)
  | GraphReseed (snapshot_json : list Z) (lsn : Z).

(* SRC crates/exocortex-storage/src/types.rs 701-715 Invalidation::lsn_of *)
Definition lsn_of (inv : Invalidation) : Z :=
  match inv with
  | MemoryUpserted _ lsn | MemoryDeleted _ lsn | RelationshipUpserted _ _ _ _ lsn
  | RelationshipDeleted _ lsn | DiscoveryAvailable _ lsn | VisibilityAdvance lsn
  | MemorySnapshotUpserted _ lsn | RelationshipSnapshotUpserted _ lsn | GraphReseed _ lsn => lsn
  end.

(** ** The visibility decision *)

(* SRC crates/exocortex-storage/src/types.rs 401-406 project_granted *)
Definition project_granted (project : string) (granted : list string) : bool :=
  existsb (λ id, String.eqb id project || String.eqb id "*") granted.

(** [match v { Public => Org, other => other }]. *)
Definition effective (v : Visibility) : Visibility := match v with Public => Org | _ => v end.

(* SRC crates/exocortex-storage/src/types.rs 408-438 memory_visible *)
Definition memory_visible (memory : Memory) (vc : VisibilityContext) : bool :=
  if negb (bool_decide (tenant_id (context memory) = Some (vc_org_id vc))) then false
  else
    let eff := effective (m_visibility memory) in
    if vis_u8 (max_visibility vc) <? vis_u8 eff then false
    else match eff with
    | Private => bool_decide (user_id (context memory) = Some (vc_user_id vc))
    | Project =>
        match project_id (context memory) with
        | Some project => project_granted project (project_ids vc)
        | None => false
        end
    | Team =>
        match team_id (context memory) with
        | Some team => bool_decide (team ∈ team_ids vc)
        | None => false
        end
    | Org | Public => true
    end.

(* SRC crates/exocortex-storage/src/types.rs 440-481 relationship_visible *)
Definition relationship_visible (relationship : Relationship) (from to : Memory)
    (vc : VisibilityContext) : bool :=
  let eff := effective (r_visibility relationship) in
  if (vis_u8 (max_visibility vc) <? vis_u8 eff) || negb (memory_visible from vc)
     || negb (memory_visible to vc) then false
  else
    let endpoints := [from; to] in
    match eff with
    | Private => existsb (λ memory,
        bool_decide (m_visibility memory = Private) &&
        bool_decide (user_id (context memory) = Some (vc_user_id vc))) endpoints
    | Project => existsb (λ memory,
        bool_decide (m_visibility memory = Project) &&
        match project_id (context memory) with
        | Some project => project_granted project (project_ids vc)
        | None => false
        end) endpoints
    | Team => existsb (λ memory,
        bool_decide (m_visibility memory = Team) &&
        match team_id (context memory) with
        | Some team => bool_decide (team ∈ team_ids vc)
        | None => false
        end) endpoints
    | Org | Public => true
    end.

(** ** What the decision guarantees *)

(** One caller's scope is within another's: the same user and organization, no higher ceiling
    and no grant the other lacks. *)
Record scope_le (a b : VisibilityContext) : Prop := {
  scope_user : vc_user_id a = vc_user_id b;
  scope_org : vc_org_id a = vc_org_id b;
  scope_projects : project_ids a ⊆ project_ids b;
  scope_teams : team_ids a ⊆ team_ids b;
  scope_ceiling : vis_u8 (max_visibility a) ≤ vis_u8 (max_visibility b);
}.

#[global] Instance scope_le_preorder : PreOrder scope_le.
Proof.
  split; [by intros a; split|].
  intros a b c [????] [????]. split; first [congruence|etrans; eassumption].
Qed.

Lemma project_granted_mono p l l' :
  l ⊆ l' → project_granted p l = true → project_granted p l' = true.
Proof.
  unfold project_granted. rewrite !existsb_elem. intros Hl (x & Hx & Hp). exists x. auto.
Qed.

(** The row condition of one label. *)
Definition subject_ok (v : Visibility) (m : Memory) (vc : VisibilityContext) : bool :=
  match v with
  | Private => bool_decide (user_id (context m) = Some (vc_user_id vc))
  | Project => match project_id (context m) with
               | Some p => project_granted p (project_ids vc) | None => false end
  | Team => match team_id (context m) with
            | Some t => bool_decide (t ∈ team_ids vc) | None => false end
  | Org | Public => true
  end.

Lemma memory_visible_true m vc :
  memory_visible m vc = true ↔
  tenant_id (context m) = Some (vc_org_id vc) ∧
  vis_u8 (effective (m_visibility m)) ≤ vis_u8 (max_visibility vc) ∧
  subject_ok (effective (m_visibility m)) m vc = true.
Proof.
  unfold memory_visible, subject_ok. case_bool_decide; simpl; [|naive_solver].
  destruct (Z.ltb_spec (vis_u8 (max_visibility vc)) (vis_u8 (effective (m_visibility m))));
    [naive_solver lia|]. naive_solver lia.
Qed.

Lemma endpoint_subject v f t vc :
  existsb (λ m, bool_decide (m_visibility m = v) && subject_ok v m vc) [f; t] = true ↔
  ∃ m, (m = f ∨ m = t) ∧ m_visibility m = v ∧ subject_ok v m vc = true.
Proof.
  rewrite existsb_elem. split; intros (m & Hin & Hm); exists m.
  - apply andb_true_iff in Hm as [?%bool_decide_eq_true ?].
    by rewrite !elem_of_cons, elem_of_nil in Hin; destruct Hin as [|[|[]]]; auto.
  - destruct Hm as [Hv Hs]. rewrite Hs, bool_decide_eq_true_2 by done. split; [|done].
    rewrite !elem_of_cons. tauto.
Qed.

Lemma relationship_visible_true r f t vc :
  relationship_visible r f t vc = true ↔
  vis_u8 (effective (r_visibility r)) ≤ vis_u8 (max_visibility vc) ∧
  memory_visible f vc = true ∧ memory_visible t vc = true ∧
  (vis_u8 Team < vis_u8 (effective (r_visibility r)) ∨
   ∃ m, (m = f ∨ m = t) ∧ m_visibility m = effective (r_visibility r) ∧
        subject_ok (effective (r_visibility r)) m vc = true).
Proof.
  rewrite <-endpoint_subject. unfold relationship_visible.
  destruct (Z.ltb_spec (vis_u8 (max_visibility vc)) (vis_u8 (effective (r_visibility r)))) as [|Hle];
    cbn [orb]; [split; [done|lia]|].
  destruct (memory_visible f vc); cbn [orb negb]; [|split; [done|tauto]].
  destruct (memory_visible t vc); cbn [orb negb]; [|split; [done|tauto]].
  destruct (effective (r_visibility r)); cbn [subject_ok].
  1-3: split; [intros ->; auto 10|]; intros (_ & _ & _ & [Hlt|Hb]); [by vm_compute in Hlt|exact Hb].
  all: split; [intros _; split_and!; [done..|by left]|done].
Qed.

Lemma subject_ok_mono v m a b : scope_le a b → subject_ok v m a = true → subject_ok v m b = true.
Proof.
  intros [Hu Ho Hp Ht _]. unfold subject_ok. destruct v; try done.
  - by rewrite Hu.
  - destruct (project_id _); [|done]. by apply project_granted_mono.
  - destruct (team_id _); [|done]. rewrite !bool_decide_eq_true. auto.
Qed.

#[global] Instance memory_visible_proper m :
  Proper (scope_le ==> impl) (λ vc, memory_visible m vc = true).
Proof.
  intros a b Hab. rewrite !memory_visible_true. intros (Ht & Hc & Hs).
  split_and!; [by rewrite <-(scope_org _ _ Hab)|pose proof (scope_ceiling _ _ Hab); lia|].
  by eapply subject_ok_mono.
Qed.

(** Access grows only with grants: whatever a caller sees, memory or edge, a caller of the
    same user and organization with at least the same projects, teams and ceiling sees too; and
    no grant, the every-project wildcard included, shows a row of another organization. *)
Theorem visibility_monotone m r f t a b :
  scope_le a b →
  (memory_visible m a = true → memory_visible m b = true) ∧
  (relationship_visible r f t a = true → relationship_visible r f t b = true) ∧
  (∀ vc, tenant_id (context m) ≠ Some (vc_org_id vc) → memory_visible m vc = false).
Proof.
  intros Hab. split_and!.
  - exact (memory_visible_proper m a b Hab).
  - rewrite !relationship_visible_true. intros (Hc & Hf & Ht & Hs). split_and!.
    + pose proof (scope_ceiling _ _ Hab). lia.
    + exact (memory_visible_proper f a b Hab Hf).
    + exact (memory_visible_proper t a b Hab Ht).
    + destruct Hs as [|(x & ? & ? & ?)]; [by left|right]. exists x. split_and!; [done..|].
      by eapply subject_ok_mono.
  - intros vc Hne. apply not_true_iff_false. rewrite memory_visible_true. naive_solver.
Qed.

Lemma relationship_visibility_either v w :
  relationship_visibility v w = v ∨ relationship_visibility v w = w.
Proof. unfold relationship_visibility, vis_min. destruct (_ <? _); auto. Qed.

(** An edge never shows what its endpoints hide, whatever its own label; and an edge that
    carries the narrower of its endpoints' labels, as the write path gives it, is visible
    exactly when both endpoints are. *)
Theorem edge_visible_iff_endpoints r f t vc :
  (relationship_visible r f t vc = true → memory_visible f vc = true ∧ memory_visible t vc = true) ∧
  (r_visibility r = relationship_visibility (m_visibility f) (m_visibility t) →
   relationship_visible r f t vc = memory_visible f vc && memory_visible t vc).
Proof.
  split; [rewrite relationship_visible_true; tauto|]. intros Hr.
  apply eq_true_iff_eq. rewrite andb_true_iff, relationship_visible_true. split; [tauto|].
  intros [Hf Ht]. split_and!; [|done..|].
  - apply memory_visible_true in Hf as (_ & Hf & _), Ht as (_ & Ht & _).
    by destruct (relationship_visibility_either (m_visibility f) (m_visibility t)) as [E|E];
      rewrite Hr, E.
  - destruct (decide (vis_u8 Team < vis_u8 (effective (r_visibility r)))) as [|Hn]; [by left|right].
    apply memory_visible_true in Hf as (_ & _ & Hf), Ht as (_ & _ & Ht).
    assert (Heff : effective (r_visibility r) = r_visibility r)
      by (destruct (r_visibility r); try done; by destruct Hn).
    rewrite Heff in *.
    destruct (relationship_visibility_either (m_visibility f) (m_visibility t)) as [E|E];
      rewrite <-Hr in E.
    + exists f. rewrite <-E, Heff in Hf. auto.
    + exists t. rewrite <-E, Heff in Ht. auto.
Qed.
