(* ===== verification/Graph.v ===== *)
(** * The versioned graph of the in-memory backend

    The graph half of [crates/exocortex-storage/src/in_memory.rs]: the version stacks of
    memories and relationships, the endpoint index, the LSN counter and the change feed, with
    the writes that append to them.

    [self.inner.memories], [rels] and [rels_by_node] are the maps of [Graph], the shared
    [AtomicU64] is [g_lsn], and [g_feed] is everything sent on the broadcast channel so far,
    oldest first.  A function reads the clock through [clk]: [clk i] is the value of the call's
    [i]-th [Utc::now()].  LSN arithmetic wraps at 64 bits; the theorems assume the counter does
    not reach 2^64. *)

From stdpp Require Import pretty.
From S2P Require Import Prelude Ids Kernel Packs Ontology StorageTypes.

(** ** State *)

(* SRC crates/exocortex-storage/src/in_memory.rs 13-22 InMemoryStorage *)
Record Graph := mkGraph {
  g_memories : gmap MemoryId (list Memory);
  g_rels : gmap RelationshipId (list Relationship);
  rels_by_node : gmap MemoryId (gset RelationshipId);
  g_lsn : Z;
  g_feed : list Invalidation;
}.

Definition empty_graph : Graph := mkGraph ∅ ∅ ∅ 0 [].

Definition set_memories f (g : Graph) : Graph :=
  mkGraph (f (g_memories g)) (g_rels g) (rels_by_node g) (g_lsn g) (g_feed g).
Definition set_rels f (g : Graph) : Graph :=
  mkGraph (g_memories g) (f (g_rels g)) (rels_by_node g) (g_lsn g) (g_feed g).
Definition set_index f (g : Graph) : Graph :=
  mkGraph (g_memories g) (g_rels g) (f (rels_by_node g)) (g_lsn g) (g_feed g).
Definition set_lsn (lsn : Z) (g : Graph) : Graph :=
  mkGraph (g_memories g) (g_rels g) (rels_by_node g) lsn (g_feed g).

(** [self.feed.send(inv)]. *)
Definition send (inv : Invalidation) (g : Graph) : Graph :=
  mkGraph (g_memories g) (g_rels g) (rels_by_node g) (g_lsn g) (g_feed g ++ [inv]).

(* SRC crates/exocortex-storage/src/in_memory.rs 320-322 next_lsn *)
Definition next_lsn (g : Graph) : Graph * Z :=
  let lsn := u64_add (g_lsn g) 1 in (set_lsn lsn g, lsn).

(** [index.entry(node).or_default().insert(id)]. *)
Definition index_insert (node : MemoryId) (id : RelationshipId) (m : gmap MemoryId (gset RelationshipId))
    : gmap MemoryId (gset RelationshipId) :=
  <[node := default ∅ (m !! node) ∪ {[id]}]> m.

(* SRC crates/exocortex-storage/src/in_memory.rs 324-328 index_relationship *)
Definition index_relationship (id : RelationshipId) (from to : MemoryId) (g : Graph) : Graph :=
  set_index (λ m, index_insert to id (index_insert from id m)) g.

(* SRC crates/exocortex-storage/src/in_memory.rs 330-334 index_invalidation *)
Definition index_invalidation (inv : Invalidation) (g : Graph) : Graph :=
  match inv with
  | RelationshipUpserted id from to _ _ => index_relationship id from to g
  | _ => g
  end.

(** [for inv in invalidations { self.index_invalidation(&inv); self.feed.send(inv); }]. *)
Definition publish (invs : list Invalidation) (g : Graph) : Graph :=
  foldl (λ g inv, send inv (index_invalidation inv g)) g invs.

(* SRC crates/exocortex-storage/src/in_memory.rs 336-345 memory_history *)
Definition memory_history (g : Graph) (id : MemoryId) : list Memory := versions (g_memories g) id.

(* SRC crates/exocortex-storage/src/in_memory.rs 347-356 relationship_history *)
Definition relationship_history (g : Graph) (id : RelationshipId) : list Relationship :=
  versions (g_rels g) id.

(* SRC crates/exocortex-storage/src/in_memory.rs 358-361 last_lsn *)
Definition last_lsn (g : Graph) : Z := g_lsn g.

(** ** Single-row writes *)

(* SRC crates/exocortex-storage/src/in_memory.rs 667-684 upsert_memory *)
Definition upsert_memory (clk : nat → DateTime) (m : Memory) (g : Graph)
    : Graph * result CommitRecord StorageError :=
  let '(g, lsn) := next_lsn g in
  let m := m_set_lsn (new_backend lsn) m in
  let id := m_id m in
  let g := set_memories (entry_push id m) g in
  let g := send (MemoryUpserted id lsn) g in
  (g, Ok (commit lsn (clk 0%nat))).

(* SRC crates/exocortex-storage/src/in_memory.rs 430-458 upsert_relationship_row_locked *)
Definition upsert_relationship_row_locked (now : DateTime) (r : Relationship) (g : Graph)
    : Graph * result CommitRecord StorageError :=
  let '(g, lsn) := next_lsn g in
  let r := r_set_lsn (new_backend lsn) r in
  let g := set_rels (entry_push (r_id r) r) g in
  let g := index_relationship (r_id r) (r_from r) (r_to r) g in
  let g := send (RelationshipUpserted (r_id r) (r_from r) (r_to r) (r_kind r) lsn) g in
  (g, Ok (commit lsn now)).

(* SRC crates/exocortex-storage/src/in_memory.rs 768-787 upsert_relationship *)
Definition upsert_relationship `{Blake3} (o : Ontology) (clk : nat → DateTime) (r : Relationship)
    (g : Graph) : Graph * result CommitRecord StorageError :=
  match upsert_relationship_row_locked (clk 0%nat) r g with
  | (g, Err e) => (g, Err e)
  | (g, Ok rec) =>
      match materialize_inverse o r with
      | Some inv =>
          let already_current :=
            match current (g_rels g) (r_id inv) with
            | Some cur => bool_decide (r_valid_until cur = None)
            | None => false
            end in
          if already_current then (g, Ok rec)
          else match upsert_relationship_row_locked (clk 1%nat) inv g with
               | (g, Err e) => (g, Err e)
               | (g, Ok _) => (g, Ok rec)
               end
      | None => (g, Ok rec)
      end
  end.

(** ** Batches *)

(** The locals of [upsert_batch_locked]. *)
Record Staged := mkStaged {
  staged_m : gmap MemoryId (list Memory);
  staged_r : gmap RelationshipId (list Relationship);
  s_next : Z;
  seen_relationships : gset RelationshipId;
  s_records : list CommitRecord;
  s_invalidations : list Invalidation;
}.

(** [{:02x?}] of a byte array. *)
Fixpoint join_comma (l : list (list Z)) : list Z :=
  match l with
  | [] => []
  | [x] => x
  | x :: l => x ++ [44; 32] ++ join_comma l
  end.
Definition fmt_02x_debug (bytes : list Z) : string :=
  string_of_bytes ([91] ++ join_comma (fmt_02x <$> bytes) ++ [93]).

Definition endpoint_missing (g : Graph) (ms : list Memory) (r : Relationship) : bool :=
  let absent id := bool_decide (g_memories g !! id = None)
                   && negb (existsb (λ m, bool_decide (m_id m = id)) ms) in
  absent (r_from r) || absent (r_to r).

(* SRC crates/exocortex-storage/src/in_memory.rs 489-504 upsert_batch_locked *)
Definition stage_memory (clk : nat → DateTime) (s : Staged) (m : Memory) : Staged :=
  let next := u64_add (s_next s) 1 in
  let m := m_set_lsn (new_backend next) m in
  {| staged_m := entry_push (m_id m) m (staged_m s);
     staged_r := staged_r s;
     s_next := next;
     seen_relationships := seen_relationships s;
     s_records := s_records s ++ [commit next (clk (length (s_records s)))];
     s_invalidations := s_invalidations s ++ [MemoryUpserted (m_id m) next] |}.

(** One relationship row: the common half of an input row and of its companion. *)
Definition stage_row (clk : nat → DateTime) (s : Staged) (r : Relationship) : Staged :=
  let next := u64_add (s_next s) 1 in
  let r := r_set_lsn (new_backend next) r in
  {| staged_m := staged_m s;
     staged_r := entry_push (r_id r) r (staged_r s);
     s_next := next;
     seen_relationships := seen_relationships s;
     s_records := s_records s ++ [commit next (clk (length (s_records s)))];
     s_invalidations := s_invalidations s ++
       [RelationshipUpserted (r_id r) (r_from r) (r_to r) (r_kind r) next] |}.

(* SRC crates/exocortex-storage/src/in_memory.rs 505-544 upsert_batch_locked *)
Definition stage_relationship `{Blake3} (o : Ontology) (clk : nat → DateTime) (s : Staged)
    (r : Relationship) : Staged :=
  let stamped := r_set_lsn (new_backend (u64_add (s_next s) 1)) r in
  let s := stage_row clk s r in
  match materialize_inverse o stamped with
  | Some inv =>
      if bool_decide (r_id inv ∈ seen_relationships s) then s
      else stage_row clk
             {| staged_m := staged_m s; staged_r := staged_r s; s_next := s_next s;
                seen_relationships := {[r_id inv]} ∪ seen_relationships s;
                s_records := s_records s; s_invalidations := s_invalidations s |} inv
  | None => s
  end.

(* SRC crates/exocortex-storage/src/in_memory.rs 460-549 upsert_batch_locked *)
Definition upsert_batch_locked `{Blake3} (o : Ontology) (clk : nat → DateTime)
    (ms : list Memory) (rs : list Relationship) (g : Graph)
    : Graph * result (list CommitRecord * list Invalidation) StorageError :=
  match List.find (endpoint_missing g ms) rs with
  | Some r => (g, Err (Backend ("relationship " +:+ fmt_02x_debug (rid_bytes (r_id r))
                                +:+ " endpoint missing")))
  | None =>
      let s := mkStaged (g_memories g) (g_rels g) (g_lsn g) (list_to_set (r_id <$> rs)) [] [] in
      let s := foldl (stage_memory clk) s ms in
      let s := foldl (stage_relationship o clk) s rs in
      (mkGraph (staged_m s) (staged_r s) (rels_by_node g) (s_next s) (g_feed g),
       Ok (s_records s, s_invalidations s))
  end.

(* SRC crates/exocortex-storage/src/in_memory.rs 685-699 upsert_batch *)
Definition upsert_batch `{Blake3} (o : Ontology) (clk : nat → DateTime)
    (ms : list Memory) (rs : list Relationship) (g : Graph)
    : Graph * result (list CommitRecord) StorageError :=
  match upsert_batch_locked o clk ms rs g with
  | (g, Ok (records, invalidations)) => (publish invalidations g, Ok records)
  | (g, Err e) => (g, Err e)
  end.

(** ** Deletions *)

(* SRC crates/exocortex-storage/src/in_memory.rs 551-570 delete_memory_locked *)
Definition delete_memory_locked (now : DateTime) (id : MemoryId) (g : Graph) : Graph * CommitRecord :=
  let '(g, lsn) := next_lsn g in
  let g := match current (g_memories g) id with
           | Some last => set_memories (entry_push id (m_close now (new_backend lsn) last)) g
           | None => g
           end in
  (g, commit lsn now).

(* SRC crates/exocortex-storage/src/in_memory.rs 757-767 delete_memory *)
Definition delete_memory (clk : nat → DateTime) (id : MemoryId) (g : Graph)
    : Graph * result CommitRecord StorageError :=
  let '(g, record) := delete_memory_locked (clk 0%nat) id g in
  (send (MemoryDeleted id (cr_lsn record)) g, Ok record).

(** The close of a relationship row, shared by the two deletions. *)
Definition close_relationship (now : DateTime) (lsn : Z) (id : RelationshipId) (g : Graph)
    : option Graph :=
  match current (g_rels g) id with
  | Some last =>
      if bool_decide (r_valid_until last = None)
      then Some (set_rels (entry_push id (r_close now (new_backend lsn) last)) g)
      else None
  | None => None
  end.

(* SRC crates/exocortex-storage/src/in_memory.rs 788-825 delete_relationship *)
Definition delete_relationship (clk : nat → DateTime) (id : RelationshipId) (g : Graph)
    : Graph * result CommitRecord StorageError :=
  let '(g, lsn) := next_lsn g in
  match close_relationship (clk 0%nat) lsn id g with
  | None => (g, Err (Backend ("delete_relationship: " +:+ fmt_02x_debug (rid_bytes id)
                              +:+ " not found or already closed")))
  | Some g => (send (RelationshipDeleted id lsn) g, Ok (commit lsn (clk 1%nat)))
  end.

(** ** Rows

    What memories and relationships have in common as versioned rows. *)

Class Row (K A : Type) := {
  row_id : A → K;
  row_lsn : A → LSN;
  row_stamp : LSN → A → A;
  row_id_stamp l x : row_id (row_stamp l x) = row_id x;
  row_lsn_stamp l x : row_lsn (row_stamp l x) = l;
}.

Lemma m_id_stamp l m : m_id (m_set_lsn l m) = m_id m.
Proof. by destruct m. Qed.
Lemma m_lsn_stamp l m : m_lsn (m_set_lsn l m) = l.
Proof. by destruct m. Qed.
Lemma r_id_stamp l r : r_id (r_set_lsn l r) = r_id r.
Proof. by destruct r. Qed.
Lemma r_lsn_stamp l r : r_lsn (r_set_lsn l r) = l.
Proof. by destruct r. Qed.

#[global] Instance memory_row : Row MemoryId Memory :=
  {| row_id := m_id; row_lsn := m_lsn; row_stamp := m_set_lsn;
     row_id_stamp := m_id_stamp; row_lsn_stamp := m_lsn_stamp |}.
#[global] Instance relationship_row : Row RelationshipId Relationship :=
  {| row_id := r_id; row_lsn := r_lsn; row_stamp := r_set_lsn;
     row_id_stamp := r_id_stamp; row_lsn_stamp := r_lsn_stamp |}.

Section tables.
Context {K A : Type} `{Countable K, !Row K A}.
Implicit Types (t : gmap K (list A)) (x : A).

Definition row_lsn_value x : Z := lsn_value (row_lsn x).

(** A stack of versions of the row [k]: at least one, all of that row, stamped by the backend
    with increasing LSNs up to [top]. *)
Record stack_ok (top : Z) (k : K) (h : list A) : Prop := {
  stack_nonempty : h ≠ [];
  stack_rows x : x ∈ h →
    row_id x = k ∧ lsn_space (row_lsn x) = Ids.Backend ∧ 0 < row_lsn_value x ≤ top;
  stack_sorted : StronglySorted Z.lt (row_lsn_value <$> h);
}.

Definition table_ok (top : Z) t : Prop := map_Forall (stack_ok top) t.

(** Some version of the row [k] carries the LSN [l]. *)
Definition carries t (k : K) (l : Z) : Prop := ∃ x, x ∈ versions t k ∧ row_lsn_value x = l.

Lemma stack_ok_mono top top' k h : top ≤ top' → stack_ok top k h → stack_ok top' k h.
Proof. intros Ht [Hn Hr Hs]. split; [done| |done]. intros x Hx. specialize (Hr x Hx). naive_solver lia. Qed.

Lemma table_ok_mono top top' t : top ≤ top' → table_ok top t → table_ok top' t.
Proof. intros Ht Hok k h Hk. by eapply stack_ok_mono, Hok. Qed.

Lemma StronglySorted_snoc (l : list Z) (z : Z) :
  StronglySorted Z.lt l → Forall (λ y, y < z) l → StronglySorted Z.lt (l ++ [z]).
Proof.
  induction 1 as [|y l Hs IH Hy]; simpl; intros Hl.
  - repeat constructor.
  - apply Forall_cons in Hl as [? ?]. constructor; [by apply IH|].
    apply Forall_app. split; [done|]. by constructor.
Qed.

Lemma versions_ok top t k x :
  table_ok top t → x ∈ versions t k →
  row_id x = k ∧ lsn_space (row_lsn x) = Ids.Backend ∧ 0 < row_lsn_value x ≤ top.
Proof.
  unfold versions. destruct (t !! k) as [h|] eqn:Hk; simpl; [|set_solver].
  intros Hok. apply (Hok _ _ Hk).
Qed.

Lemma table_ok_push top l t k x :
  table_ok top t → 0 ≤ top < l → row_id x = k → row_lsn x = new_backend l →
  table_ok l (entry_push k x t).
Proof.
  intros Hok Hl Hid Hx. unfold table_ok, entry_push. apply map_Forall_insert_2.
  2: by eapply table_ok_mono; [|done]; lia.
  assert (Hlow : ∀ y, y ∈ versions t k → row_lsn_value y < l).
  { intros y Hy. apply (versions_ok top) in Hy; [|done]. lia. }
  split.
  - by destruct (versions t k).
  - intros y [Hy| ->%list_elem_of_singleton]%elem_of_app.
    + apply (versions_ok top) in Hy; [|done]. naive_solver lia.
    + unfold row_lsn_value. rewrite Hx. simpl. split_and!; [done..|lia|lia].
  - rewrite fmap_app. simpl. unfold row_lsn_value at 2. rewrite Hx. simpl.
    apply StronglySorted_snoc; [|by apply Forall_fmap, Forall_forall].
    unfold versions. destruct (t !! k) as [h|] eqn:Hk; simpl; [|constructor].
    apply (Hok _ _ Hk).
Qed.

Lemma carries_push t k x k' l :
  carries (entry_push k x t) k' l ↔ carries t k' l ∨ (k = k' ∧ row_lsn_value x = l).
Proof.
  unfold carries. rewrite versions_entry_push. setoid_rewrite elem_of_app.
  case_decide; set_solver.
Qed.

Lemma carries_ok top t k l : table_ok top t → carries t k l → 0 < l ≤ top.
Proof. intros Hok (x & Hx & <-). by eapply versions_ok in Hx as (_ & _ & ?). Qed.

(** [t'] extends the history of every row of [t]. *)
Definition table_extends t t' : Prop := ∀ k, versions t k `prefix_of` versions t' k.

#[export] Instance table_extends_preorder : PreOrder table_extends.
Proof.
  split; [intros t k; reflexivity|]. intros t1 t2 t3 H12 H23 k.
  specialize (H12 k). specialize (H23 k). by etrans.
Qed.

Lemma table_extends_push t k x : table_extends t (entry_push k x t).
Proof. intros k'. rewrite versions_entry_push. by apply prefix_app_r. Qed.
End tables.

(** ** The abstract log

    Whatever a handler does to the graph is a sequence of these steps: append one row at the
    next LSN, consume an LSN, or publish one event. *)

Inductive Write := WMemory (m : Memory) | WRelationship (r : Relationship).

(** The event an append publishes. *)
Definition event_of (lsn : Z) (w : Write) : Invalidation :=
  match w with
  | WMemory m => MemoryUpserted (m_id m) lsn
  | WRelationship r => RelationshipUpserted (r_id r) (r_from r) (r_to r) (r_kind r) lsn
  end.

Definition append (w : Write) (g : Graph) : Graph :=
  let l := u64_add (g_lsn g) 1 in
  set_lsn l
    match w with
    | WMemory m => set_memories (entry_push (m_id m) (m_set_lsn (new_backend l) m)) g
    | WRelationship r => set_rels (entry_push (r_id r) (r_set_lsn (new_backend l) r)) g
    end.

Definition publish1 (inv : Invalidation) (g : Graph) : Graph := send inv (index_invalidation inv g).

Inductive graph_step : Graph → Graph → Prop :=
  | step_append w g : g_lsn g + 1 < 2 ^ 64 → graph_step g (append w g)
  | step_tick g : g_lsn g + 1 < 2 ^ 64 → graph_step g (set_lsn (u64_add (g_lsn g) 1) g)
  | step_publish inv g : graph_step g (publish1 inv g).

(** The row [s] of the graph, a memory or a relationship, has a version under the LSN [l]. *)
Definition carries_lsn (g : Graph) (s : MemoryId + RelationshipId) (l : Z) : Prop :=
  match s with inl id => carries (g_memories g) id l | inr id => carries (g_rels g) id l end.

(** The invariant of every reachable graph: both tables are sound and no two rows of the graph
    carry the same LSN. *)
Record graph_ok (g : Graph) : Prop := {
  ok_lsn : 0 ≤ g_lsn g;
  ok_memories : table_ok (g_lsn g) (g_memories g);
  ok_rels : table_ok (g_lsn g) (g_rels g);
  ok_unique s s' l : carries_lsn g s l → carries_lsn g s' l → s = s';
}.

(** What no step undoes: histories only grow, LSNs only advance, published events stay. *)
Record graph_extends (g g' : Graph) : Prop := {
  ext_memories : table_extends (g_memories g) (g_memories g');
  ext_rels : table_extends (g_rels g) (g_rels g');
  ext_lsn : g_lsn g ≤ g_lsn g';
  ext_feed : g_feed g `prefix_of` g_feed g';
}.

#[global] Instance graph_extends_preorder : PreOrder graph_extends.
Proof.
  split; [intros g; split; reflexivity|].
  intros a b c [????] [????]. split; etrans; eassumption.
Qed.

Lemma publish1_fields inv g :
  g_memories (publish1 inv g) = g_memories g ∧ g_rels (publish1 inv g) = g_rels g ∧
  g_lsn (publish1 inv g) = g_lsn g ∧ g_feed (publish1 inv g) = g_feed g ++ [inv].
Proof. by destruct inv. Qed.

Lemma publish_fields invs g :
  g_memories (publish invs g) = g_memories g ∧ g_rels (publish invs g) = g_rels g ∧
  g_lsn (publish invs g) = g_lsn g ∧ g_feed (publish invs g) = g_feed g ++ invs.
Proof.
  revert g. induction invs as [|inv invs IH]; intros g; simpl; [by rewrite app_nil_r|].
  fold (publish1 inv g). destruct (publish1_fields inv g) as (<- & <- & <- & E).
  destruct (IH (publish1 inv g)) as (-> & -> & -> & ->). split_and!; [done..|].
  by rewrite E, <-(assoc_L (++)).
Qed.

Lemma graph_ok_empty : graph_ok empty_graph.
Proof.
  split; simpl; [done|apply map_Forall_empty..|].
  intros [k|k] ? l; simpl; intros (x & Hx & _); unfold versions in Hx; rewrite lookup_empty in Hx;
    simpl in Hx; set_solver.
Qed.

Lemma graph_ok_tick g : graph_ok g → g_lsn g + 1 < 2 ^ 64 → graph_ok (set_lsn (u64_add (g_lsn g) 1) g).
Proof.
  intros [Hl Hm Hr Hu] Hlt. rewrite u64_add_small by lia.
  split; simpl; [lia|eapply table_ok_mono; [|done]; lia..|exact Hu].
Qed.

Lemma carries_bound g s l : graph_ok g → carries_lsn g s l → 0 < l ≤ g_lsn g.
Proof. intros [_ Hm Hr _]. by destruct s; apply carries_ok. Qed.

Definition slot_of (w : Write) : MemoryId + RelationshipId :=
  match w with WMemory m => inl (m_id m) | WRelationship r => inr (r_id r) end.

Lemma carries_append w g s l :
  carries_lsn (append w g) s l ↔ carries_lsn g s l ∨ (s = slot_of w ∧ l = u64_add (g_lsn g) 1).
Proof.
  unfold append. destruct w as [m|r], s as [id|id]; simpl; try (split; [by left|naive_solver]).
  - rewrite carries_push. unfold row_lsn_value. simpl. rewrite m_lsn_stamp. simpl. naive_solver.
  - rewrite carries_push. unfold row_lsn_value. simpl. rewrite r_lsn_stamp. simpl. naive_solver.
Qed.

Lemma graph_ok_append w g : graph_ok g → g_lsn g + 1 < 2 ^ 64 → graph_ok (append w g).
Proof.
  intros Hok Hlt. split.
  1-3: destruct Hok as [Hl Hm Hr _]; unfold append; rewrite u64_add_small by lia.
  - destruct w; simpl; lia.
  - destruct w as [m|r]; simpl.
    + eapply table_ok_push; [done|lia| |]; [apply m_id_stamp|apply m_lsn_stamp].
    + eapply table_ok_mono; [|done]; lia.
  - destruct w as [m|r]; simpl.
    + eapply table_ok_mono; [|done]; lia.
    + eapply table_ok_push; [done|lia| |]; [apply r_id_stamp|apply r_lsn_stamp].
  - intros s s' l. rewrite !carries_append, u64_add_small by (destruct Hok; lia).
    intros [Hs|[-> ->]] [Hs'|[-> Heq]]; try done.
    + by eapply ok_unique.
    + subst. apply carries_bound in Hs; [lia|done].
    + apply carries_bound in Hs'; [lia|done].
Qed.

Lemma graph_ok_publish1 inv g : graph_ok g → graph_ok (publish1 inv g).
Proof.
  intros [Hl Hm Hr Hu]. destruct (publish1_fields inv g) as (E1 & E2 & E3 & _).
  split; rewrite ?E1, ?E2, ?E3; try done.
  intros s s' l. unfold carries_lsn. rewrite E1, E2. apply Hu.
Qed.

Lemma graph_step_ok g g' : graph_step g g' → graph_ok g → graph_ok g'.
Proof. destruct 1; intros; auto using graph_ok_append, graph_ok_tick, graph_ok_publish1. Qed.

Lemma graph_step_extends g g' : graph_step g g' → 0 ≤ g_lsn g → graph_extends g g'.
Proof.
  destruct 1 as [w g Hlt|g Hlt|inv g]; intros Hl.
  - unfold append. rewrite u64_add_small by lia.
    destruct w; split; simpl; try done; try lia; apply table_extends_push.
  - rewrite u64_add_small by lia. split; simpl; done || lia.
  - destruct (publish1_fields inv g) as (E1 & E2 & E3 & E4). split; rewrite ?E1, ?E2, ?E3, ?E4; try done.
    by apply prefix_app_r.
Qed.

Lemma graph_steps_ok g g' : rtc graph_step g g' → graph_ok g → graph_ok g'.
Proof. induction 1; eauto using graph_step_ok. Qed.

Lemma graph_steps_extends g g' : rtc graph_step g g' → graph_ok g → graph_extends g g'.
Proof.
  induction 1 as [|g g' g'' Hs _ IH]; [reflexivity|]. intros Hok.
  etrans; [eapply graph_step_extends; [done|apply Hok]|]. apply IH. by eapply graph_step_ok.
Qed.

(** ** Batches refine the log *)

(** The relationship rows a batch writes: each input row, followed by its companion unless the
    batch already holds a row of that identity. *)
Fixpoint relationship_writes `{Blake3} (o : Ontology) (seen : gset RelationshipId)
    (rs : list Relationship) : list Write :=
  match rs with
  | [] => []
  | r :: rs =>
      WRelationship r ::
      match materialize_inverse o r with
      | Some inv =>
          if bool_decide (r_id inv ∈ seen) then relationship_writes o seen rs
          else WRelationship inv :: relationship_writes o ({[r_id inv]} ∪ seen) rs
      | None => relationship_writes o seen rs
      end
  end.

Definition batch_writes `{Blake3} (o : Ontology) (ms : list Memory) (rs : list Relationship)
    : list Write :=
  (WMemory <$> ms) ++ relationship_writes o (list_to_set (r_id <$> rs)) rs.

(** Writes appended after LSN [l] take consecutive LSNs. *)
Definition events_from (l : Z) (ws : list Write) : list Invalidation :=
  imap (λ i w, event_of (l + 1 + Z.of_nat i) w) ws.
Definition records_from (clk : nat → DateTime) (l : Z) (ws : list Write) : list CommitRecord :=
  imap (λ i _, commit (l + 1 + Z.of_nat i) (clk i)) ws.
Definition append_all (ws : list Write) (g : Graph) : Graph := foldl (λ g w, append w g) g ws.

(** Appending and publishing a run of writes. *)
Definition commit_writes (ws : list Write) (g : Graph) : Graph :=
  publish (events_from (g_lsn g) ws) (append_all ws g).

(** Room for [n] more LSNs. *)
Definition room (n : nat) (g : Graph) : Prop := 0 ≤ g_lsn g ∧ g_lsn g + Z.of_nat n < 2 ^ 64.

Lemma append_lsn w g : room 1 g → g_lsn (append w g) = g_lsn g + 1.
Proof. intros [? ?]. unfold append. rewrite u64_add_small by lia. by destruct w. Qed.

Lemma append_all_lsn ws g :
  room (length ws) g → g_lsn (append_all ws g) = g_lsn g + Z.of_nat (length ws).
Proof.
  revert g. induction ws as [|w ws IH]; intros g [Hl Hr]; simpl in *; [lia|].
  change (g_lsn (append_all ws (append w g)) = g_lsn g + Z.of_nat (S (length ws))).
  assert (g_lsn (append w g) = g_lsn g + 1) as E by (apply append_lsn; split; lia).
  rewrite IH by (split; lia). lia.
Qed.

Lemma append_all_steps ws g : room (length ws) g → rtc graph_step g (append_all ws g).
Proof.
  revert g. induction ws as [|w ws IH]; intros g [Hl Hr]; simpl in *; [constructor|].
  eapply rtc_l; [apply (step_append w); lia|]. apply IH.
  assert (g_lsn (append w g) = g_lsn g + 1) as E by (apply append_lsn; split; lia). split; lia.
Qed.

Lemma publish_steps invs g : rtc graph_step g (publish invs g).
Proof.
  revert g. induction invs as [|inv invs IH]; intros g; [constructor|].
  eapply rtc_l; [apply (step_publish inv)|]. apply IH.
Qed.

Lemma commit_writes_steps ws g : room (length ws) g → rtc graph_step g (commit_writes ws g).
Proof. intros. etrans; [by apply append_all_steps|apply publish_steps]. Qed.

Lemma append_all_index ws g : rels_by_node (append_all ws g) = rels_by_node g.
Proof.
  revert g. induction ws as [|w ws IH]; intros g; [done|].
  change (rels_by_node (append_all ws (append w g)) = rels_by_node g). rewrite IH. by destruct w.
Qed.

Lemma append_all_feed ws g : g_feed (append_all ws g) = g_feed g.
Proof.
  revert g. induction ws as [|w ws IH]; intros g; [done|].
  change (g_feed (append_all ws (append w g)) = g_feed g). rewrite IH. by destruct w.
Qed.

Section staging.
Context `{Blake3} (o : Ontology) (clk : nat → DateTime).

Definition stage_write (s : Staged) (w : Write) : Staged :=
  match w with WMemory m => stage_memory clk s m | WRelationship r => stage_row clk s r end.

(** The locals without the set of seen identities. *)
Definition erase (s : Staged) : Staged :=
  mkStaged (staged_m s) (staged_r s) (s_next s) ∅ (s_records s) (s_invalidations s).

Lemma materialize_inverse_stamp l r :
  materialize_inverse o (r_set_lsn l r) = r_set_lsn l <$> materialize_inverse o r.
Proof.
  unfold materialize_inverse. destruct r; simpl.
  destruct (kinds_by_id o !! _) as [k|]; simpl; [|done].
  destruct (inverse k); simpl; [|done]. by case_match.
Qed.

Lemma r_set_lsn_twice l l' r : r_set_lsn l (r_set_lsn l' r) = r_set_lsn l r.
Proof. by destruct r. Qed.

Lemma stage_row_stamped l s r : stage_row clk s (r_set_lsn l r) = stage_row clk s r.
Proof. unfold stage_row. by rewrite r_set_lsn_twice. Qed.

Lemma stage_relationships rs s :
  erase (foldl (stage_relationship o clk) s rs) =
  foldl stage_write (erase s) (relationship_writes o (seen_relationships s) rs).
Proof.
  revert s. induction rs as [|r rs IH]; intros s; [done|]. cbn [foldl relationship_writes].
  rewrite IH. unfold stage_relationship. rewrite materialize_inverse_stamp.
  destruct (materialize_inverse o r) as [inv|]; simpl; [|done].
  rewrite r_id_stamp. case_bool_decide; [done|]. rewrite stage_row_stamped. done.
Qed.

Lemma stage_memories ms s :
  foldl (stage_memory clk) s ms = foldl stage_write s (WMemory <$> ms).
Proof. revert s. induction ms as [|m ms IH]; intros s; simpl; [done|]. by rewrite IH. Qed.

(** The graph a staging would swap in. *)
Definition swapped (g : Graph) (s : Staged) : Graph :=
  mkGraph (staged_m s) (staged_r s) (rels_by_node g) (s_next s) (g_feed g).

Lemma stage_write_append g s w : swapped g (stage_write s w) = append w (swapped g s).
Proof. unfold append. destruct w; simpl; unfold swapped; simpl; by rewrite ?m_id_stamp, ?r_id_stamp. Qed.

Lemma stage_write_event s w :
  s_next s + 1 < 2 ^ 64 → 0 ≤ s_next s →
  s_next (stage_write s w) = s_next s + 1 ∧
  s_records (stage_write s w)
    = s_records s ++ [commit (s_next s + 1) (clk (length (s_records s)))] ∧
  s_invalidations (stage_write s w) = s_invalidations s ++ [event_of (s_next s + 1) w].
Proof.
  intros. destruct w as [m|r]; simpl; rewrite u64_add_small by lia; [by destruct m|by destruct r].
Qed.

Lemma stage_writes g ws s :
  0 ≤ s_next s → s_next s + Z.of_nat (length ws) < 2 ^ 64 →
  let s' := foldl stage_write s ws in
  swapped g s' = append_all ws (swapped g s) ∧
  s_records s' = s_records s ++
    imap (λ i _, commit (s_next s + 1 + Z.of_nat i) (clk (length (s_records s) + i)%nat)) ws ∧
  s_invalidations s' = s_invalidations s ++ events_from (s_next s) ws.
Proof.
  revert s. induction ws as [|w ws IH]; intros s Hl Hr; simpl in *; [by rewrite !app_nil_r|].
  destruct (stage_write_event s w) as (E1 & E2 & E3); [lia..|].
  destruct (IH (stage_write s w)) as (H1 & H2 & H3); [lia..|].
  rewrite H1, H2, H3, stage_write_append, E1, E2, E3, length_app. split_and!; [done|..].
  - rewrite <-(assoc_L (++)). simpl. rewrite !Z.add_0_r, Nat.add_0_r. do 2 f_equal.
    apply imap_ext. intros i ? _. simpl. f_equal; [lia|f_equal; lia].
  - rewrite <-(assoc_L (++)). unfold events_from. simpl. rewrite !Z.add_0_r. do 2 f_equal.
    apply imap_ext. intros i ? _. simpl. f_equal. lia.
Qed.

Lemma length_relationship_writes seen rs :
  (length (relationship_writes o seen rs) ≤ 2 * length rs)%nat.
Proof.
  revert seen. induction rs as [|r rs IH]; intros seen; simpl; [lia|].
  destruct (materialize_inverse o r) as [inv|]; [case_bool_decide|]; simpl;
    [specialize (IH seen)|specialize (IH ({[r_id inv]} ∪ seen))|specialize (IH seen)]; lia.
Qed.

Lemma length_batch_writes ms rs :
  (length (batch_writes o ms rs) ≤ length ms + 2 * length rs)%nat.
Proof.
  unfold batch_writes. rewrite length_app, length_fmap.
  pose proof (length_relationship_writes (list_to_set (r_id <$> rs)) rs). lia.
Qed.

(** A batch is all or nothing: an input row with a missing endpoint leaves the graph as it
    was; otherwise the graph is that of the batch's writes appended in order. *)
Lemma upsert_batch_locked_spec ms rs g :
  room (length ms + 2 * length rs) g →
  upsert_batch_locked o clk ms rs g =
  match List.find (endpoint_missing g ms) rs with
  | Some r => (g, Err (Backend ("relationship " +:+ fmt_02x_debug (rid_bytes (r_id r))
                                +:+ " endpoint missing")))
  | None =>
      let ws := batch_writes o ms rs in
      (append_all ws g, Ok (records_from clk (g_lsn g) ws, events_from (g_lsn g) ws))
  end.
Proof.
  intros [Hl Hr]. unfold upsert_batch_locked.
  destruct (List.find _ rs); [done|]. pose proof (length_batch_writes ms rs) as Hlen.
  set (s0 := mkStaged (g_memories g) (g_rels g) (g_lsn g) (list_to_set (r_id <$> rs)) [] []).
  set (s := foldl (stage_relationship o clk) (foldl (stage_memory clk) s0 ms) rs).
  assert (Hs : erase s = foldl stage_write (erase s0) (batch_writes o ms rs)).
  { unfold s, batch_writes. rewrite stage_relationships, stage_memories, foldl_app.
    assert (Hmem : ∀ ms s, seen_relationships (foldl stage_write s (WMemory <$> ms))
              = seen_relationships s ∧
              erase (foldl stage_write s (WMemory <$> ms))
              = foldl stage_write (erase s) (WMemory <$> ms)).
    { clear. induction ms as [|m ms IH]; intros s; [done|].
      destruct (IH (stage_memory clk s m)) as [E1 E2]. split; [etrans; [exact E1|done]|exact E2]. }
    by destruct (Hmem ms s0) as [-> ->]. }
  destruct (stage_writes g (batch_writes o ms rs) (erase s0)) as (H1 & H2 & H3); [done| |].
  { change (s_next (erase s0)) with (g_lsn g). lia. }
  rewrite <-Hs in H1, H2, H3. cbv zeta. f_equal; [|f_equal; f_equal].
  - change (swapped g (erase s) = append_all (batch_writes o ms rs) g). rewrite H1. by destruct g.
  - change (s_records (erase s) = records_from clk (g_lsn g) (batch_writes o ms rs)). by rewrite H2.
  - change (s_invalidations (erase s) = events_from (g_lsn g) (batch_writes o ms rs)). by rewrite H3.
Qed.
End staging.

(** ** Handlers as sequences of steps *)

Lemma room_le n m g : (n ≤ m)%nat → room m g → room n g.
Proof. intros ? [? ?]. split; lia. Qed.

Lemma upsert_memory_spec clk m g :
  room 1 g →
  upsert_memory clk m g = (commit_writes [WMemory m] g, Ok (commit (g_lsn g + 1) (clk 0%nat))).
Proof.
  intros [Hl Hr]. unfold upsert_memory, next_lsn, commit_writes, append_all, append, events_from.
  simpl. rewrite u64_add_small by lia. rewrite m_id_stamp, Z.add_0_r. done.
Qed.

Lemma row_locked_spec now r g :
  room 1 g →
  upsert_relationship_row_locked now r g =
  (commit_writes [WRelationship r] g, Ok (commit (g_lsn g + 1) now)).
Proof.
  intros [Hl Hr].
  unfold upsert_relationship_row_locked, next_lsn, commit_writes, append_all, append, events_from.
  simpl. rewrite u64_add_small by lia. rewrite r_id_stamp, Z.add_0_r. by destruct r.
Qed.

Lemma commit_writes_lsn ws g :
  room (length ws) g → g_lsn (commit_writes ws g) = g_lsn g + Z.of_nat (length ws).
Proof.
  intros Hr. unfold commit_writes.
  destruct (publish_fields (events_from (g_lsn g) ws) (append_all ws g)) as (_ & _ & -> & _).
  by apply append_all_lsn.
Qed.

Lemma commit_writes_feed ws g : g_feed (commit_writes ws g) = g_feed g ++ events_from (g_lsn g) ws.
Proof.
  unfold commit_writes.
  destruct (publish_fields (events_from (g_lsn g) ws) (append_all ws g)) as (_ & _ & _ & ->).
  by rewrite append_all_feed.
Qed.

Lemma upsert_batch_spec `{Blake3} o clk ms rs g :
  room (length ms + 2 * length rs) g →
  upsert_batch o clk ms rs g =
  match List.find (endpoint_missing g ms) rs with
  | Some r => (g, Err (Backend ("relationship " +:+ fmt_02x_debug (rid_bytes (r_id r))
                                +:+ " endpoint missing")))
  | None =>
      let ws := batch_writes o ms rs in
      (commit_writes ws g, Ok (records_from clk (g_lsn g) ws))
  end.
Proof.
  intros Hr. unfold upsert_batch. rewrite upsert_batch_locked_spec by done.
  by destruct (List.find _ rs).
Qed.

Lemma current_ok top {K A} `{Countable K, !Row K A} (t : gmap K (list A)) k x :
  table_ok top t → current t k = Some x → row_id x = k ∧ 0 < row_lsn_value x ≤ top.
Proof.
  rewrite current_versions. intros Hok Hc. apply last_Some_elem_of in Hc.
  eapply versions_ok in Hc; naive_solver.
Qed.

Lemma m_close_fields now l m :
  m_id (m_close now l m) = m_id m ∧ m_lsn (m_close now l m) = l ∧
  m_valid_until (m_close now l m) = Some now ∧ m_recorded_at (m_close now l m) = now ∧
  m_set_lsn l (m_close now l m) = m_close now l m.
Proof. by destruct m. Qed.
Lemma r_close_fields now l r :
  r_id (r_close now l r) = r_id r ∧ r_lsn (r_close now l r) = l ∧
  r_valid_until (r_close now l r) = Some now ∧ r_recorded_at (r_close now l r) = now ∧
  r_set_lsn l (r_close now l r) = r_close now l r.
Proof. by destruct r. Qed.

Lemma delete_memory_locked_spec now id g :
  graph_ok g → room 1 g →
  delete_memory_locked now id g =
  (match current (g_memories g) id with
   | Some last => append (WMemory (m_close now (new_backend (g_lsn g + 1)) last)) g
   | None => set_lsn (g_lsn g + 1) g
   end, commit (g_lsn g + 1) now).
Proof.
  intros Hok [Hl Hr]. unfold delete_memory_locked, next_lsn, append. simpl.
  rewrite u64_add_small by lia. destruct (current (g_memories g) id) as [last|] eqn:Hc; [|done].
  apply (current_ok (g_lsn g)) in Hc as [Hid _]; [|apply Hok]. simpl in Hid.
  destruct (m_close_fields now (new_backend (g_lsn g + 1)) last) as (-> & _ & _ & _ & ->).
  by rewrite Hid.
Qed.

Lemma close_relationship_spec now id g :
  graph_ok g → room 1 g →
  close_relationship now (g_lsn g + 1) id (set_lsn (g_lsn g + 1) g) =
  match current (g_rels g) id with
  | Some last =>
      if bool_decide (r_valid_until last = None)
      then Some (append (WRelationship (r_close now (new_backend (g_lsn g + 1)) last)) g)
      else None
  | None => None
  end.
Proof.
  intros Hok [Hl Hr]. unfold close_relationship, append. simpl.
  destruct (current (g_rels g) id) as [last|] eqn:Hc; [|done].
  apply (current_ok (g_lsn g)) in Hc as [Hid _]; [|apply Hok]. simpl in Hid.
  rewrite u64_add_small by lia. case_bool_decide; [|done].
  destruct (r_close_fields now (new_backend (g_lsn g + 1)) last) as (-> & _ & _ & _ & ->).
  by rewrite Hid.
Qed.

Lemma step_append_room w g : room 1 g → rtc graph_step g (append w g).
Proof. intros [? ?]. apply rtc_once, step_append. lia. Qed.

Lemma step_tick_room g : room 1 g → rtc graph_step g (set_lsn (g_lsn g + 1) g).
Proof.
  intros [? ?]. rewrite <-(u64_add_small (g_lsn g) 1) at 1 by lia. apply rtc_once, step_tick. lia.
Qed.

Lemma step_send inv g : (∀ g, index_invalidation inv g = g) → rtc graph_step g (send inv g).
Proof.
  intros Hi. replace (send inv g) with (publish1 inv g); [apply rtc_once, step_publish|].
  unfold publish1. by rewrite Hi.
Qed.

Lemma upsert_memory_steps clk m g : room 1 g → rtc graph_step g (upsert_memory clk m g).1.
Proof. intros. rewrite upsert_memory_spec by done. by apply commit_writes_steps. Qed.

Lemma upsert_relationship_steps `{Blake3} o clk r g :
  room 2 g → rtc graph_step g (upsert_relationship o clk r g).1.
Proof.
  intros Hr. unfold upsert_relationship.
  rewrite row_locked_spec by by eapply room_le; [|done]; lia.
  assert (H1 : rtc graph_step g (commit_writes [WRelationship r] g))
    by (apply commit_writes_steps; eapply room_le; [|done]; simpl; lia).
  assert (room 1 (commit_writes [WRelationship r] g)) as Hr'.
  { destruct Hr. split; rewrite commit_writes_lsn by (split; simpl; lia); simpl; lia. }
  destruct (materialize_inverse o r) as [inv|]; [|done]. cbv zeta.
  destruct (match current _ _ with Some _ => _ | None => _ end); [done|].
  rewrite row_locked_spec by done. etrans; [done|]. by apply commit_writes_steps.
Qed.

Lemma upsert_batch_locked_steps `{Blake3} o clk ms rs g :
  room (length ms + 2 * length rs) g → rtc graph_step g (upsert_batch_locked o clk ms rs g).1.
Proof.
  intros Hr. rewrite upsert_batch_locked_spec by done. destruct (List.find _ rs); [done|].
  apply append_all_steps. eapply room_le; [apply length_batch_writes|done].
Qed.

Lemma upsert_batch_steps `{Blake3} o clk ms rs g :
  room (length ms + 2 * length rs) g → rtc graph_step g (upsert_batch o clk ms rs g).1.
Proof.
  intros Hr. pose proof (upsert_batch_locked_steps o clk ms rs g Hr) as Hs. unfold upsert_batch.
  destruct (upsert_batch_locked o clk ms rs g) as [g' [[recs invs]|e]]; [|done].
  etrans; [done|]. apply publish_steps.
Qed.

Lemma delete_memory_locked_steps now id g :
  graph_ok g → room 1 g → rtc graph_step g (delete_memory_locked now id g).1.
Proof.
  intros Hok Hr. rewrite delete_memory_locked_spec by done. simpl.
  destruct (current _ id); [by apply step_append_room|by apply step_tick_room].
Qed.

Lemma delete_memory_steps clk id g :
  graph_ok g → room 1 g → rtc graph_step g (delete_memory clk id g).1.
Proof.
  intros Hok Hr. pose proof (delete_memory_locked_steps (clk 0%nat) id g Hok Hr) as Hs.
  unfold delete_memory. destruct (delete_memory_locked (clk 0%nat) id g) as [g' rec].
  etrans; [done|]. by apply step_send.
Qed.

Lemma next_lsn_room g : room 1 g → next_lsn g = (set_lsn (g_lsn g + 1) g, g_lsn g + 1).
Proof. intros [? ?]. unfold next_lsn. by rewrite u64_add_small by lia. Qed.

Lemma close_relationship_steps now id g g' :
  graph_ok g → room 1 g →
  close_relationship now (g_lsn g + 1) id (set_lsn (g_lsn g + 1) g) = Some g' →
  rtc graph_step g g'.
Proof.
  intros Hok Hr. rewrite close_relationship_spec by done.
  destruct (current _ id) as [r|]; [|done]. case_bool_decide; [|done]. intros [= <-].
  by apply step_append_room.
Qed.

Lemma delete_relationship_steps clk id g :
  graph_ok g → room 1 g → rtc graph_step g (delete_relationship clk id g).1.
Proof.
  intros Hok Hr. unfold delete_relationship. rewrite next_lsn_room by done.
  destruct (close_relationship _ _ _ _) as [g'|] eqn:Hc; [|by apply step_tick_room].
  etrans; [by eapply close_relationship_steps|]. by apply step_send.
Qed.

(** ** What a batch leaves behind *)

Lemma records_lsns clk l ws :
  cr_lsn <$> records_from clk l ws = seqZ (l + 1) (Z.of_nat (length ws)).
Proof.
  unfold records_from. apply list_eq. intros i. rewrite list_lookup_fmap, list_lookup_imap.
  destruct (decide (i < length ws)%nat) as [Hi|Hi].
  - rewrite (proj2 (lookup_seqZ (l + 1) (Z.of_nat (length ws)) i (l + 1 + Z.of_nat i))) by lia.
    by destruct (lookup_lt_is_Some_2 ws i Hi) as [w ->].
  - rewrite lookup_ge_None_2 by lia. symmetry. apply lookup_seqZ_ge. lia.
Qed.

Lemma events_lsns l ws : lsn_of <$> events_from l ws = seqZ (l + 1) (Z.of_nat (length ws)).
Proof.
  rewrite <-(records_lsns (λ _, 0)). unfold events_from, records_from. rewrite !fmap_imap.
  apply imap_ext. intros i [] _; done.
Qed.

Lemma find_missing_none g ms rs :
  List.find (endpoint_missing g ms) rs = None ↔ ∀ r, r ∈ rs → endpoint_missing g ms r = false.
Proof. apply list_find_none. Qed.

Lemma endpoint_missing_spec g ms r :
  endpoint_missing g ms r = false ↔
  ∀ id, id = r_from r ∨ id = r_to r → is_Some (g_memories g !! id) ∨ id ∈ m_id <$> ms.
Proof.
  assert (Habs : ∀ id, bool_decide (g_memories g !! id = None)
            && negb (existsb (λ m, bool_decide (m_id m = id)) ms) = false ↔
            is_Some (g_memories g !! id) ∨ id ∈ m_id <$> ms).
  { intros id. rewrite andb_false_iff, negb_false_iff, bool_decide_eq_false, existsb_elem.
    rewrite list_elem_of_fmap, <-not_eq_None_Some. setoid_rewrite bool_decide_eq_true.
    split; (intros [?|(m & ? & ?)]; [by left|right; eauto]). }
  unfold endpoint_missing. rewrite orb_false_iff, !Habs. naive_solver.
Qed.

(** The row a write leaves in the graph. *)
Definition written (w : Write) (l : Z) (g : Graph) : Prop :=
  match w with
  | WMemory m => m_set_lsn (new_backend l) m ∈ versions (g_memories g) (m_id m)
  | WRelationship r => r_set_lsn (new_backend l) r ∈ versions (g_rels g) (r_id r)
  end.

Lemma written_extends w l g g' : graph_extends g g' → written w l g → written w l g'.
Proof.
  intros [Hm Hr _ _]. destruct w as [m|r]; simpl.
  - intros Hin. by eapply elem_of_prefix, Hm.
  - intros Hin. by eapply elem_of_prefix, Hr.
Qed.

Lemma append_written w g : room 1 g → written w (g_lsn g + 1) (append w g).
Proof.
  intros [? ?]. unfold append. rewrite u64_add_small by lia.
  destruct w; simpl; rewrite versions_entry_push_eq; set_solver.
Qed.

Lemma append_all_written ws w g :
  graph_ok g → room (length ws) g → w ∈ ws →
  ∃ l, g_lsn g < l ≤ g_lsn g + Z.of_nat (length ws) ∧ written w l (append_all ws g).
Proof.
  revert g. induction ws as [|w' ws IH]; intros g Hok [Hl Hr]; [set_solver|].
  simpl in Hr. assert (room 1 g) as H1 by (split; lia).
  assert (Hok' : graph_ok (append w' g)) by (apply graph_ok_append; [done|lia]).
  assert (room (length ws) (append w' g)) as H2 by (split; rewrite append_lsn by done; lia).
  change (append_all (w' :: ws) g) with (append_all ws (append w' g)). intros [->|Hin]%elem_of_cons.
  - exists (g_lsn g + 1). split; [simpl; lia|]. eapply written_extends; [|by apply append_written].
    by apply graph_steps_extends; [apply append_all_steps|].
  - destruct (IH (append w' g)) as (l & Hlt & Hw); [done..|]. exists l. split; [|done].
    rewrite append_lsn in Hlt by done. simpl. lia.
Qed.

Lemma publish_written invs w l g : written w l (publish invs g) ↔ written w l g.
Proof. destruct (publish_fields invs g) as (E1 & E2 & _). unfold written. by rewrite E1, E2. Qed.

Lemma commit_writes_written ws w g :
  graph_ok g → room (length ws) g → w ∈ ws →
  ∃ l, g_lsn g < l ≤ g_lsn (commit_writes ws g) ∧ written w l (commit_writes ws g).
Proof.
  intros Hok Hr Hin. rewrite commit_writes_lsn by done. unfold commit_writes.
  setoid_rewrite publish_written. by apply append_all_written.
Qed.

Lemma companion_written `{Blake3} o seen rs r inv :
  r ∈ rs → materialize_inverse o r = Some inv →
  r_id inv ∈ seen ∨ ∃ x, WRelationship x ∈ relationship_writes o seen rs ∧ r_id x = r_id inv.
Proof.
  revert seen. induction rs as [|r' rs IH]; intros seen; [set_solver|].
  intros [->|Hin]%elem_of_cons Hinv; cbn [relationship_writes].
  - rewrite Hinv. case_bool_decide; [by left|right]. exists inv. set_solver.
  - destruct (materialize_inverse o r') as [inv'|]; [case_bool_decide|].
    + destruct (IH seen) as [|(x & ? & ?)]; [done..|by left|right]. exists x. set_solver.
    + destruct (IH ({[r_id inv']} ∪ seen)) as [[Heq%elem_of_singleton|]%elem_of_union|(x & ? & ?)];
        [done..| |by left|].
      * right. exists inv'. set_solver.
      * right. exists x. set_solver.
    + destruct (IH seen) as [|(x & ? & ?)]; [done..|by left|right]. exists x. set_solver.
Qed.

Lemma input_written `{Blake3} o seen rs r : r ∈ rs → WRelationship r ∈ relationship_writes o seen rs.
Proof.
  revert seen. induction rs as [|r' rs IH]; intros seen; [set_solver|].
  intros [->|Hin]%elem_of_cons; cbn [relationship_writes]; [set_solver|].
  apply elem_of_cons. right.
  destruct (materialize_inverse o r'); [case_bool_decide|]; [by apply IH| |by apply IH].
  apply elem_of_cons. right. by apply IH.
Qed.

Lemma batch_rows `{Blake3} o ms rs :
  (∀ m, m ∈ ms → WMemory m ∈ batch_writes o ms rs) ∧
  (∀ r, r ∈ rs → WRelationship r ∈ batch_writes o ms rs) ∧
  (∀ r inv, r ∈ rs → materialize_inverse o r = Some inv →
     ∃ x, WRelationship x ∈ batch_writes o ms rs ∧ r_id x = r_id inv).
Proof.
  unfold batch_writes. split_and!.
  - intros m Hm. apply elem_of_app. left. by apply list_elem_of_fmap_2.
  - intros r Hr. apply elem_of_app. right. by apply input_written.
  - intros r inv Hr Hinv. destruct (companion_written o (list_to_set (r_id <$> rs)) rs r inv Hr Hinv)
      as [(x & Hx & Hin)%elem_of_list_to_set%list_elem_of_fmap|(x & Hin & Hx)].
    + exists x. split; [|done]. apply elem_of_app. right. by apply input_written.
    + exists x. split; [|done]. apply elem_of_app. by right.
Qed.

(** C1: a batch is atomic, in order and gap-free.  It succeeds exactly when both endpoints of
    every relationship exist or are in the batch; it then appends exactly its writes, under the
    next consecutive LSNs, reports one record per row in that order and publishes one event per
    row in the same order.  Otherwise the graph is unchanged, feed and LSN included. *)
Theorem upsert_batch_exact `{Blake3} o clk ms rs g :
  room (length ms + 2 * length rs) g →
  let ws := batch_writes o ms rs in
  match upsert_batch o clk ms rs g with
  | (g', Ok records) =>
      (∀ r id, r ∈ rs → id = r_from r ∨ id = r_to r →
         is_Some (g_memories g !! id) ∨ id ∈ m_id <$> ms) ∧
      g' = commit_writes ws g ∧
      cr_lsn <$> records = seqZ (g_lsn g + 1) (Z.of_nat (length ws)) ∧
      g_lsn g' = g_lsn g + Z.of_nat (length ws) ∧
      ∃ events, g_feed g' = g_feed g ++ events ∧ lsn_of <$> events = cr_lsn <$> records
  | (g', Err e) =>
      g' = g ∧ ∃ r id, r ∈ rs ∧ (id = r_from r ∨ id = r_to r) ∧
                       g_memories g !! id = None ∧ id ∉ m_id <$> ms
  end.
Proof.
  intros Hr ws. rewrite upsert_batch_spec by done.
  assert (Hws : room (length ws) g) by (eapply room_le; [apply length_batch_writes|done]).
  destruct (List.find _ rs) as [r|] eqn:Hf.
  - apply List.find_some in Hf as [Hin%list_elem_of_In Hm]. split; [done|].
    unfold endpoint_missing in Hm. apply orb_true_iff in Hm.
    assert (Habs : ∀ id, bool_decide (g_memories g !! id = None)
              && negb (existsb (λ m, bool_decide (m_id m = id)) ms) = true →
              g_memories g !! id = None ∧ id ∉ m_id <$> ms).
    { intros id [Hn Hx]%andb_true_iff. split; [by apply bool_decide_eq_true in Hn|].
      intros (m & -> & Hm')%list_elem_of_fmap. apply negb_true_iff, not_true_iff_false in Hx.
      apply Hx, existsb_elem. exists m. by rewrite bool_decide_eq_true_2. }
    destruct Hm as [Hm|Hm]; apply Habs in Hm as [? ?]; eauto 10.
  - rewrite find_missing_none in Hf. split_and!; [|done|apply records_lsns|by apply commit_writes_lsn|].
    + intros r id Hin. by apply endpoint_missing_spec, Hf.
    + exists (events_from (g_lsn g) ws). rewrite records_lsns, events_lsns. split; [|done].
      apply commit_writes_feed.
Qed.

(** A committed batch holds every row and every companion: each memory and each relationship
    of the input is a version of its history under an LSN of the batch, and for each
    relationship whose kind has an inverse there is, under an LSN of the same batch, a version of
    the companion edge. *)
Theorem batch_rows_present `{Blake3} o clk ms rs g g' records :
  graph_ok g → room (length ms + 2 * length rs) g →
  upsert_batch o clk ms rs g = (g', Ok records) →
  (∀ m, m ∈ ms → ∃ l, g_lsn g < l ≤ g_lsn g' ∧
     m_set_lsn (new_backend l) m ∈ memory_history g' (m_id m)) ∧
  (∀ r, r ∈ rs → ∃ l, g_lsn g < l ≤ g_lsn g' ∧
     r_set_lsn (new_backend l) r ∈ relationship_history g' (r_id r)) ∧
  (∀ r inv, r ∈ rs → materialize_inverse o r = Some inv →
     ∃ x l, g_lsn g < l ≤ g_lsn g' ∧ r_id x = r_id inv ∧
       r_set_lsn (new_backend l) x ∈ relationship_history g' (r_id inv)).
Proof.
  intros Hok Hr. rewrite upsert_batch_spec by done. destruct (List.find _ rs); [done|].
  intros [= <- <-]. destruct (batch_rows o ms rs) as (H1 & H2 & H3).
  assert (Hws : room (length (batch_writes o ms rs)) g)
    by (eapply room_le; [apply length_batch_writes|done]).
  split_and!.
  - intros m Hm. by apply (commit_writes_written _ (WMemory m)), H1.
  - intros r Hin. by apply (commit_writes_written _ (WRelationship r)), H2.
  - intros r inv Hin Hinv. destruct (H3 r inv Hin Hinv) as (x & Hx & Hid). exists x.
    rewrite <-Hid. destruct (commit_writes_written _ _ g Hok Hws Hx) as (l & ? & ?). eauto.
Qed.
