(* ===== verification/Reads.v ===== *)
(** * Reads of the in-memory backend

    The read half of [impl Storage for InMemoryStorage]: point and batched reads, the caller's
    visibility boundary, the endpoint index, region and attribute scans, and the two
    bi-temporal reads [valid_at] and [get_state_at].

    [ReadState] holds the counters and the fault flag reads touch; a read that touches none
    takes the graph only.  Fault injection compiled only under the [testing] feature or
    [cfg(test)] is left out. *)

From stdpp Require Import pretty.
From S2P Require Import Prelude Ids Kernel Packs Ontology StorageTypes Graph.

(** ** Counters *)

(* SRC crates/exocortex-storage/src/in_memory.rs 24-93 InMemoryInner *)
Record ReadState := mkReadState {
  point_reads : Z;
  batch_reads : Z;
  stream_memory_calls : Z;
  stream_relationship_calls : Z;
  frontier_relationship_calls : Z;
  attribute_memory_calls : Z;
  fail_next_batch_read : bool;
}.

Definition read_state0 : ReadState := mkReadState 0 0 0 0 0 0 false.

Definition bump_point (c : ReadState) : ReadState :=
  let '(mkReadState a b d e f h i) := c in mkReadState (u64_add a 1) b d e f h i.
Definition bump_batch (c : ReadState) : ReadState :=
  let '(mkReadState a b d e f h i) := c in mkReadState a (u64_add b 1) d e f h i.
Definition bump_stream_memory (c : ReadState) : ReadState :=
  let '(mkReadState a b d e f h i) := c in mkReadState a b (u64_add d 1) e f h i.
Definition bump_stream_relationship (c : ReadState) : ReadState :=
  let '(mkReadState a b d e f h i) := c in mkReadState a b d (u64_add e 1) f h i.
Definition bump_frontier (c : ReadState) : ReadState :=
  let '(mkReadState a b d e f h i) := c in mkReadState a b d e (u64_add f 1) h i.
Definition bump_attribute (c : ReadState) : ReadState :=
  let '(mkReadState a b d e f h i) := c in mkReadState a b d e f (u64_add h 1) i.
Definition set_batch_fault (b : bool) (c : ReadState) : ReadState :=
  let '(mkReadState a b' d e f h _) := c in mkReadState a b' d e f h b.

(* SRC crates/exocortex-storage/src/in_memory.rs 312-319 take_read_counts *)
Definition take_read_counts (c : ReadState) : ReadState * (Z * Z) :=
  let '(mkReadState a b d e f h i) := c in (mkReadState 0 0 d e f h i, (a, b)).

(* SRC crates/exocortex-storage/src/in_memory.rs 363-376 reasoning_query_counts *)
Definition reasoning_query_counts (c : ReadState) : Z * Z * Z * Z :=
  (stream_memory_calls c, stream_relationship_calls c, frontier_relationship_calls c,
   attribute_memory_calls c).

(** ** Point and batched reads *)

(* SRC crates/exocortex-storage/src/in_memory.rs 1412-1421 get_memory *)
Definition get_memory (id : MemoryId) (c : ReadState) (g : Graph)
    : ReadState * result (option Memory) StorageError :=
  (bump_point c, Ok (current (g_memories g) id)).

(* SRC crates/exocortex-storage/src/in_memory.rs 1422-1441 get_memory_for *)
Definition get_memory_for (id : MemoryId) (vc : VisibilityContext) (g : Graph)
    : result (option Memory) StorageError :=
  match current (g_memories g) id with
  | None => Ok None
  | Some m => if negb (memory_visible m vc) then Err PermissionDenied else Ok (Some m)
  end.

(* SRC crates/exocortex-storage/src/in_memory.rs 1442-1458 get_memories *)
Definition get_memories (ids : list MemoryId) (c : ReadState) (g : Graph)
    : ReadState * result (list Memory) StorageError :=
  if fail_next_batch_read c
  then (set_batch_fault false c, Err (Backend "sentinel backend credential=secret"))
  else (bump_batch c, Ok (omap (current (g_memories g)) ids)).

(* SRC crates/exocortex-storage/src/in_memory.rs 1459-1472 get_visible_memories *)
Definition get_visible_memories (ids : list MemoryId) (vc : VisibilityContext) (c : ReadState)
    (g : Graph) : ReadState * result (list Memory) StorageError :=
  (bump_batch c,
   Ok (List.filter (λ memory, memory_visible memory vc) (omap (current (g_memories g)) ids))).

(* SRC crates/exocortex-storage/src/in_memory.rs 1473-1485 get_relationship *)
Definition get_relationship (id : RelationshipId) (c : ReadState) (g : Graph)
    : ReadState * result (option Relationship) StorageError :=
  (bump_point c, Ok (current (g_rels g) id)).

(* SRC crates/exocortex-storage/src/in_memory.rs 1486-1496 get_relationships *)
Definition get_relationships (ids : list RelationshipId) (c : ReadState) (g : Graph)
    : ReadState * result (list Relationship) StorageError :=
  (bump_batch c, Ok (omap (current (g_rels g)) ids)).

(** ** Scans *)

(** [map.values().filter_map(|h| h.last())]. *)
Definition current_rows `{HashOrder} {K A} `{Countable K} (t : gmap K (list A)) : list A :=
  omap last (hash_values t).

(** [rows.truncate(limit as usize)] and [.take(limit as usize)]. *)
Definition take_limit {A} (limit : Z) (rows : list A) : list A := take (Z.to_nat limit) rows.

(** [valid_until.is_none() && invalidated_by.is_none()]. *)
Definition is_current (row : Relationship) : bool :=
  bool_decide (r_valid_until row = None) && bool_decide (r_invalidated_by row = None).

(** The entries of a [HashSet]. *)
Definition hash_elements `{HashOrder} {K} `{Countable K} (X : gset K) : list K :=
  (hash_iter (gset_to_gmap () X)).*1.

(* SRC crates/exocortex-storage/src/in_memory.rs 1497-1521 relationships_touching *)
Definition relationships_touching `{HashOrder} (frontier : list MemoryId) (limit : Z)
    (c : ReadState) (g : Graph) : ReadState * result (list Relationship) StorageError :=
  let ids := ⋃ omap (λ node, rels_by_node g !! node) frontier in
  (bump_frontier c,
   Ok (take_limit limit
        (List.filter is_current (omap (current (g_rels g)) (hash_elements ids))))).

(** The region test on a memory. *)
Definition memory_in_region (region : RegionKey) (memory : Memory) : bool :=
  (memory_type memory =? rk_memory_type region) &&
  (String.eqb (rk_org region) "*"
   || bool_decide (tenant_id (context memory) = Some (rk_org region))) &&
  (String.eqb (rk_project region) "*"
   || bool_decide (project_id (context memory) = Some (rk_project region))).

(** The closure [in_region] on an endpoint. *)
Definition in_region (region : RegionKey) (g : Graph) (id : MemoryId) : bool :=
  match current (g_memories g) id with
  | Some memory => memory_in_region region memory
  | None => false
  end.

(** The derived orders of the identity types. *)
Definition compare_mid : MemoryId → MemoryId → comparison := compare_on mid_bytes compare_bytes.
Definition compare_rid : RelationshipId → RelationshipId → comparison :=
  compare_on rid_bytes compare_bytes.
Definition compare_kid : RelKindId → RelKindId → comparison := compare_on kind_val Z.compare.

(** The sort key [(from, to, kind, id)]. *)
Definition edge_key (r : Relationship) : MemoryId * (MemoryId * (RelKindId * RelationshipId)) :=
  (r_from r, (r_to r, (r_kind r, r_id r))).
Definition compare_edge_key :=
  compare_lex compare_mid (compare_lex compare_mid (compare_lex compare_kid compare_rid)).
Definition compare_edge : Relationship → Relationship → comparison :=
  compare_on edge_key compare_edge_key.
Definition compare_memory : Memory → Memory → comparison := compare_on m_id compare_mid.

(** [if rows.len() > limit as usize { return Err(..) }]. *)
Definition within_budget {A} (noun : string) (limit : Z) (rows : list A)
    : result (list A) StorageError :=
  if limit <? Z.of_nat (length rows)
  then Err (Backend ("region " +:+ noun +:+ " budget exceeded: more than " +:+ pretty limit +:+ " rows"))
  else Ok rows.

(* SRC crates/exocortex-storage/src/in_memory.rs 1522-1567 relationships_in_region *)
Definition relationships_in_region `{HashOrder} (region : RegionKey) (limit : Z) (g : Graph)
    : result (list Relationship) StorageError :=
  within_budget "relationship" limit
    (merge_sort (le_of compare_edge)
      (List.filter (λ r, is_current r && (in_region region g (r_from r) && in_region region g (r_to r)))
        (current_rows (g_rels g)))).

(* SRC crates/exocortex-storage/src/in_memory.rs 1568-1610 memories_in_region *)
Definition memories_in_region `{HashOrder} (region : RegionKey) (limit : Z) (g : Graph)
    : result (list Memory) StorageError :=
  within_budget "memory" limit
    (merge_sort (le_of compare_memory)
      (List.filter (memory_in_region region) (current_rows (g_memories g)))).

(* SRC crates/exocortex-storage/src/in_memory.rs 1611-1668 current_relationships_in_region *)
Definition current_relationships_in_region `{HashOrder} (region : RegionKey) (limit : Z) (g : Graph)
    : result (list Relationship) StorageError :=
  within_budget "relationship" limit
    (merge_sort (le_of compare_edge)
      (List.filter (λ r, in_region region g (r_from r) && in_region region g (r_to r))
        (current_rows (g_rels g)))).

(* SRC crates/exocortex-storage/src/in_memory.rs 1669-1696 memories_sharing_attributes *)
Definition memories_sharing_attributes `{HashOrder} (tgs : list string) (ents : list EntityId)
    (limit : Z) (c : ReadState) (g : Graph) : ReadState * result (list Memory) StorageError :=
  (bump_attribute c,
   Ok (take_limit limit
        (List.filter (λ memory,
           existsb (λ tag, bool_decide (tag ∈ tgs)) (tags memory) ||
           existsb (λ entity, bool_decide (entity ∈ ents)) (entities (context memory)))
          (current_rows (g_memories g))))).

(** [valid_from <= at && valid_until.is_none_or(|until| until > at)]. *)
Definition valid_row (vf : DateTime) (vu : option DateTime) (t : DateTime) : bool :=
  (vf <=? t) && match vu with None => true | Some v => t <? v end.

(** The conjunction of the filters of [find_by_entity]. *)
Definition entity_filter (entity : EntityId) (filter : MemoryFilter) (memory : Memory) : bool :=
  bool_decide (entity ∈ entities (context memory)) &&
  (bool_decide (mf_memory_types filter = []) || bool_decide (memory_type memory ∈ mf_memory_types filter)) &&
  match mf_project_id filter with
  | None => true
  | Some project => bool_decide (project_id (context memory) = Some project)
  end &&
  match mf_valid_at filter with
  | None => true
  | Some at_ => valid_row (m_valid_from memory) (m_valid_until memory) at_
  end &&
  memory_visible memory (visibility_ctx filter).

(** [sort_by_key(|memory| Reverse(memory.recorded_at))]: newest first, stable. *)
Definition newest_first (a b : Memory) : Prop := m_recorded_at b ≤ m_recorded_at a.
#[global] Instance newest_first_dec : RelDecision newest_first.
Proof. intros a b. unfold newest_first. apply _. Defined.

(* SRC crates/exocortex-storage/src/in_memory.rs 1704-1740 find_by_entity *)
Definition find_by_entity `{HashOrder} (entity : EntityId) (filter : MemoryFilter) (g : Graph)
    : result (list Memory) StorageError :=
  if 500 <? mf_limit filter then Err (Backend "limit > 500")
  else Ok (take_limit (mf_limit filter)
        (merge_sort newest_first
          (List.filter (entity_filter entity filter) (current_rows (g_memories g))))).

(* SRC crates/exocortex-storage/src/in_memory.rs 1697-1703 traverse *)
Definition traverse (from : MemoryId) : result (list Memory) StorageError := Ok [].

(* SRC crates/exocortex-storage/src/in_memory.rs 1795-1828 stream_all_memories *)
Definition stream_all_memories `{HashOrder} (c : ReadState) (g : Graph)
    : ReadState * list (result Memory StorageError) :=
  (bump_stream_memory c, Ok <$> current_rows (g_memories g)).

(* SRC crates/exocortex-storage/src/in_memory.rs 1829-1859 stream_all_relationships *)
Definition stream_all_relationships `{HashOrder} (c : ReadState) (g : Graph)
    : ReadState * list (result Relationship StorageError) :=
  (bump_stream_relationship c, Ok <$> current_rows (g_rels g)).

(** ** Bi-temporal reads *)

(** [h.iter().rev().find(|m| m.recorded_at <= t && m.valid_from <= t)]. *)
Definition known_memory (h : list Memory) (t : DateTime) : option Memory :=
  find_last (λ m, (m_recorded_at m <=? t) && (m_valid_from m <=? t)) h.
Definition known_relationship (h : list Relationship) (t : DateTime) : option Relationship :=
  find_last (λ r, (r_recorded_at r <=? t) && (r_valid_from r <=? t)) h.

(* SRC crates/exocortex-storage/src/in_memory.rs 1741-1773 get_state_at *)
Definition get_state_at `{HashOrder} (t : DateTime) (g : Graph) : result GraphSnapshot StorageError :=
  Ok {|
    as_of := t;
    backend_lsn := g_lsn g;
    memory_count := Z.of_nat (length (List.filter (λ h,
      match known_memory h t with
      | Some m => valid_row (m_valid_from m) (m_valid_until m) t
      | None => false
      end) (hash_values (g_memories g))));
    relationship_count := Z.of_nat (length (List.filter (λ h,
      match known_relationship h t with
      | Some r => valid_row (r_valid_from r) (r_valid_until r) t
      | None => false
      end) (hash_values (g_rels g))));
  |}.

(* SRC crates/exocortex-storage/src/in_memory.rs 1774-1789 valid_at *)
Definition valid_at (id : MemoryId) (at_ : DateTime) (g : Graph)
    : result (option Memory) StorageError :=
  Ok (h ← g_memories g !! id;
      m ← known_memory h at_;
      if match m_valid_until m with None => true | Some v => at_ <? v end then Some m else None).

#[global] Instance compare_mid_comparable : Comparable compare_mid.
Proof. apply compare_on_comparable; [by intros [] [] [= ->]|apply _]. Qed.
#[global] Instance compare_rid_comparable : Comparable compare_rid.
Proof. apply compare_on_comparable; [by intros [] [] [= ->]|apply _]. Qed.
#[global] Instance compare_kid_comparable : Comparable compare_kid.
Proof. apply compare_on_comparable; [by intros [] [] [= ->]|apply _]. Qed.
#[global] Instance compare_edge_key_comparable : Comparable compare_edge_key.
Proof. unfold compare_edge_key. apply _. Qed.

(** ** Current rows *)

Section current_rows.
Context `{HashOrder} {K A : Type} `{Countable K, !Row K A}.
Implicit Types t : gmap K (list A).

Lemma elem_of_current_rows top t x :
  table_ok top t → x ∈ current_rows t ↔ current t (row_id x) = Some x.
Proof.
  intros Hok. unfold current_rows. rewrite list_elem_of_omap. setoid_rewrite elem_of_hash_values.
  unfold current. split.
  - intros (h & [k Hk] & Hl).
    destruct (current_ok top t k x) as [Hid _]; [done|by unfold current; rewrite Hk|].
    rewrite Hid. by rewrite Hk.
  - intros (h & Hk & Hl)%bind_Some. eauto.
Qed.

Lemma omap_last_ids (l : list (K * list A)) :
  (∀ k h x, (k, h) ∈ l → last h = Some x → row_id x = k) →
  row_id <$> omap last l.*2 ⊆ l.*1 ∧ (NoDup l.*1 → NoDup (row_id <$> omap last l.*2)).
Proof.
  induction l as [|[k h] l IH]; intros Hrow; [by split; [set_solver|intros; constructor]|].
  destruct IH as [Hsub Hnd]; [intros; eapply Hrow; [by right|done]|]. csimpl.
  destruct (last h) as [x|] eqn:Hl; csimpl; [|split; [set_solver|]; intros [? ?]%NoDup_cons; auto].
  rewrite (Hrow k h x); [|by left|done]. split; [set_solver|].
  intros [? ?]%NoDup_cons. apply NoDup_cons. auto.
Qed.

Lemma NoDup_current_rows top t : table_ok top t → NoDup (row_id <$> current_rows t).
Proof.
  intros Hok. unfold current_rows, hash_values. apply omap_last_ids.
  - intros k h x Hin%elem_of_hash_iter Hl.
    apply (current_ok top t k x); [done|]. unfold current. by rewrite Hin.
  - rewrite hash_iter_perm. apply NoDup_fst_map_to_list.
Qed.

Lemma NoDup_filter_rows top t (P : A → bool) :
  table_ok top t → NoDup (row_id <$> List.filter P (current_rows t)).
Proof.
  intros Hok. pose proof (NoDup_current_rows top t Hok) as Hd.
  induction (current_rows t) as [|x l IH]; simpl; [constructor|].
  apply NoDup_cons in Hd as [Hn Hd]. destruct (P x); csimpl; [|by apply IH].
  apply NoDup_cons. split; [|by apply IH]. intros (y & Hy & Hin)%list_elem_of_fmap.
  apply Hn. rewrite Hy. apply list_elem_of_fmap_2.
  by apply list_elem_of_In, List.filter_In in Hin as [?%list_elem_of_In _].
Qed.
End current_rows.

Lemma elem_of_filter {A} (P : A → bool) l x : x ∈ List.filter P l ↔ x ∈ l ∧ P x = true.
Proof. by rewrite !list_elem_of_In, List.filter_In. Qed.

Lemma within_budget_spec {A} noun limit (rows : list A) :
  match within_budget noun limit rows with
  | Ok rows' => rows' = rows ∧ Z.of_nat (length rows) ≤ limit
  | Err _ => limit < Z.of_nat (length rows)
  end.
Proof. unfold within_budget. destruct (Z.ltb_spec limit (Z.of_nat (length rows))); [done|]. done. Qed.

(** The region scans are complete, ordered and bounded.  Within its budget the memory scan
    returns the current version of exactly the memories of the region, in strictly increasing id
    order, so independently of the order the hash map is enumerated in; past the budget it is an
    error, and never a truncated answer. *)
Theorem memories_in_region_exact `{HashOrder} region limit g :
  graph_ok g →
  match memories_in_region region limit g with
  | Ok rows =>
      Z.of_nat (length rows) ≤ limit ∧
      StronglySorted (λ a b, compare_mid (m_id a) (m_id b) = Lt) rows ∧
      ∀ m, m ∈ rows ↔ current (g_memories g) (m_id m) = Some m ∧ memory_in_region region m = true
  | Err _ => ∃ ms, NoDup (m_id <$> ms) ∧ limit < Z.of_nat (length ms) ∧
      ∀ m, m ∈ ms → current (g_memories g) (m_id m) = Some m ∧ memory_in_region region m = true
  end.
Proof.
  intros Hok. unfold memories_in_region.
  set (rows := List.filter (memory_in_region region) (current_rows (g_memories g))).
  assert (Hd : NoDup (m_id <$> rows))
    by exact (NoDup_filter_rows (A:=Memory) (g_lsn g) _ _ (ok_memories g Hok)).
  assert (Hin : ∀ m, m ∈ merge_sort (le_of compare_memory) rows ↔
            current (g_memories g) (m_id m) = Some m ∧ memory_in_region region m = true).
  { intros m. rewrite merge_sort_Permutation. unfold rows. rewrite elem_of_filter.
    by rewrite (elem_of_current_rows (g_lsn g)) by apply Hok. }
  pose proof (within_budget_spec "memory" limit (merge_sort (le_of compare_memory) rows)) as Hb.
  destruct (within_budget _ _ _) as [rows'|e]; [destruct Hb as [-> Hb]|].
  - split_and!; [done|by apply (sort_by_key_strict m_id compare_mid)|done].
  - exists (merge_sort (le_of compare_memory) rows). split_and!; [by rewrite merge_sort_Permutation|done|].
    intros m. apply Hin.
Qed.

(** The current, open relationships between current memories of a region. *)
Definition open_in_region (region : RegionKey) (g : Graph) (r : Relationship) : Prop :=
  current (g_rels g) (r_id r) = Some r ∧ r_valid_until r = None ∧ r_invalidated_by r = None ∧
  ∃ f t, current (g_memories g) (r_from r) = Some f ∧ memory_in_region region f = true ∧
         current (g_memories g) (r_to r) = Some t ∧ memory_in_region region t = true.

(** The relationship scan of a region returns exactly the open relationships whose two
    endpoints are current memories of the region, ordered by source, target, kind and id without
    repetition; past its budget it is an error. *)
Theorem relationships_in_region_exact `{HashOrder} region limit g :
  graph_ok g →
  match relationships_in_region region limit g with
  | Ok rows =>
      Z.of_nat (length rows) ≤ limit ∧
      StronglySorted (λ a b, compare_edge_key (edge_key a) (edge_key b) = Lt) rows ∧
      ∀ r, r ∈ rows ↔ open_in_region region g r
  | Err _ => ∃ rows, NoDup (r_id <$> rows) ∧ limit < Z.of_nat (length rows) ∧
      ∀ r, r ∈ rows → open_in_region region g r
  end.
Proof.
  intros Hok. unfold relationships_in_region.
  set (rows := List.filter _ (current_rows (g_rels g))).
  assert (Hd : NoDup (r_id <$> rows))
    by exact (NoDup_filter_rows (A:=Relationship) (g_lsn g) _ _ (ok_rels g Hok)).
  assert (Hd' : NoDup (edge_key <$> rows)).
  { apply (NoDup_fmap_1 (λ k, k.2.2.2)). by rewrite <-list_fmap_compose. }
  assert (Hreg : ∀ id, in_region region g id = true ↔
            ∃ m, current (g_memories g) id = Some m ∧ memory_in_region region m = true).
  { intros id. unfold in_region. destruct (current (g_memories g) id); naive_solver. }
  assert (Hin : ∀ r, r ∈ merge_sort (le_of compare_edge) rows ↔ open_in_region region g r).
  { intros r. rewrite merge_sort_Permutation. unfold rows, open_in_region.
    rewrite elem_of_filter, (elem_of_current_rows (g_lsn g)) by apply Hok.
    rewrite !andb_true_iff, !Hreg. unfold is_current.
    rewrite andb_true_iff, !bool_decide_eq_true. naive_solver. }
  pose proof (within_budget_spec "relationship" limit (merge_sort (le_of compare_edge) rows)) as Hb.
  destruct (within_budget _ _ _) as [rows'|e]; [destruct Hb as [-> Hb]|].
  - split_and!; [done|by apply (sort_by_key_strict edge_key compare_edge_key)|done].
  - exists (merge_sort (le_of compare_edge) rows). split_and!; [by rewrite merge_sort_Permutation|done|].
    intros r. apply Hin.
Qed.

(** ** Bi-temporal reads *)

Lemma valid_at_versions id t g :
  valid_at id t g =
  Ok (m ← known_memory (memory_history g id) t;
      if match m_valid_until m with None => true | Some v => t <? v end then Some m else None).
Proof. unfold valid_at, memory_history, versions. by destruct (g_memories g !! id). Qed.

(** Recording never rewrites the past.  Whatever is appended to a memory's history with a
    recording time after an instant, the memory's state as of that instant is what it was
    before. *)
Theorem valid_at_past_immutable id t g g' new :
  memory_history g' id = memory_history g id ++ new →
  (∀ m, m ∈ new → t < m_recorded_at m) →
  valid_at id t g' = valid_at id t g.
Proof.
  intros Hh Hnew. rewrite !valid_at_versions, Hh. unfold known_memory.
  rewrite find_last_app; [done|]. apply Forall_forall. intros m Hm%Hnew.
  apply andb_false_iff. left. lia.
Qed.

(** Deleting a memory ends it from the deletion on and leaves every earlier instant alone.
    At an instant from the deletion on the memory is not valid, provided the version deleted had
    begun by then; at every other instant, and for every other memory, the answer is unchanged.
    A version that begins in the future therefore does not end the one before it. *)
Theorem delete_memory_exact clk id g last :
  graph_ok g → room 1 g → current (g_memories g) id = Some last →
  let g' := (delete_memory clk id g).1 in
  ∀ id' t, valid_at id' t g' =
    if bool_decide (id' = id) && ((clk 0%nat <=? t) && (m_valid_from last <=? t))
    then Ok None else valid_at id' t g.
Proof.
  intros Hok Hr Hc g' id' t.
  assert (Hid : m_id last = id) by (apply (current_ok (g_lsn g)) in Hc as [Hc _]; [exact Hc|apply Hok]).
  assert (Hh : g_memories g' =
            entry_push id (m_close (clk 0%nat) (new_backend (g_lsn g + 1)) last) (g_memories g)).
  { unfold g', delete_memory. rewrite delete_memory_locked_spec, Hc by done. simpl.
    unfold append. rewrite u64_add_small by (destruct Hr; lia). simpl.
    destruct (m_close_fields (clk 0%nat) (new_backend (g_lsn g + 1)) last) as (-> & _ & _ & _ & ->).
    by rewrite Hid. }
  rewrite !valid_at_versions. unfold memory_history. rewrite Hh, versions_entry_push.
  case_bool_decide as Heq; [subst id'|].
  2: { rewrite decide_False by done. by rewrite app_nil_r. }
  rewrite decide_True by done. simpl. unfold known_memory. rewrite find_last_snoc.
  destruct (m_close_fields (clk 0%nat) (new_backend (g_lsn g + 1)) last) as (_ & _ & Hu & -> & _).
  replace (m_valid_from (m_close _ _ last)) with (m_valid_from last) by by destruct last.
  destruct ((clk 0%nat <=? t) && (m_valid_from last <=? t)) eqn:E; [|done]. simpl. rewrite Hu.
  by destruct (Z.ltb_spec t (clk 0%nat)); [lia|].
Qed.

(** A snapshot counts what the point reads show: the memory count of [get_state_at] is the
    number of memories [valid_at] returns at that instant, each counted once, whatever order the
    hash map is enumerated in. *)
Theorem snapshot_counts_valid `{HashOrder} t g :
  ∃ snapshot ids, get_state_at t g = Ok snapshot ∧ as_of snapshot = t ∧
    backend_lsn snapshot = g_lsn g ∧ NoDup ids ∧
    memory_count snapshot = Z.of_nat (length ids) ∧
    ∀ id, id ∈ ids ↔ ∃ m, valid_at id t g = Ok (Some m).
Proof.
  destruct (hash_values_count (λ h, match known_memory h t with
      | Some m => valid_row (m_valid_from m) (m_valid_until m) t | None => false end)
      (g_memories g)) as (ids & Hd & Hlen & Hin).
  eexists _, ids. split; [done|]. simpl. split_and!; [done..|by rewrite Hlen|].
  intros id. rewrite Hin. unfold valid_at. split.
  - intros (h & -> & Hk). simpl. destruct (known_memory h t) as [m|]; [|done]. exists m. simpl.
    unfold valid_row in Hk. apply andb_true_iff in Hk as [_ ->]. done.
  - intros [m Hv]. destruct (g_memories g !! id) as [h|]; [|done]. exists h. split; [done|].
    simpl in Hv. destruct (known_memory h t) as [m'|] eqn:Hk; [|done]. simpl in Hv.
    apply find_last_Some in Hk as [_ [_ Hvf]%andb_true_iff]. unfold valid_row. rewrite Hvf. simpl.
    by destruct (match m_valid_until m' with None => true | Some v => t <? v end).
Qed.

(** ** The visibility boundary *)

#[global] Instance newest_first_total : Total newest_first.
Proof. intros a b. unfold newest_first. lia. Qed.
#[global] Instance newest_first_trans : Transitive newest_first.
Proof. intros a b c. unfold newest_first. lia. Qed.

Lemma StronglySorted_app_split {A} (R : A → A → Prop) l k :
  StronglySorted R (l ++ k) → StronglySorted R l ∧ ∀ x y, x ∈ l → y ∈ k → R x y.
Proof.
  induction l as [|x l IH]; simpl; intros Hs; [split; [constructor|set_solver]|].
  apply StronglySorted_inv in Hs as [Hs Hx]. destruct (IH Hs) as [H1 H2].
  rewrite Forall_forall in Hx. split.
  - constructor; [done|]. apply Forall_forall. intros y Hy. apply Hx, elem_of_app. by left.
  - intros y z [->|Hy]%elem_of_cons Hz; [|by apply H2]. apply Hx, elem_of_app. by right.
Qed.

(** Taking the head of a sorted list keeps the foremost elements. *)
Lemma take_sorted {A} (R : A → A → Prop) `{!RelDecision R, !Total R, !Transitive R} limit l :
  let rows := take_limit limit (merge_sort R l) in
  StronglySorted R rows ∧ (∀ x, x ∈ rows → x ∈ l) ∧ Z.of_nat (length rows) ≤ Z.max 0 limit ∧
  ∀ x, x ∈ l → x ∈ rows ∨ (limit ≤ Z.of_nat (length rows) ∧ ∀ y, y ∈ rows → R y x).
Proof.
  intros rows. unfold take_limit in rows.
  assert (Hs : StronglySorted R (merge_sort R l))
    by (apply Sorted_StronglySorted; [apply _|apply Sorted_merge_sort, _]).
  rewrite <-(take_drop (Z.to_nat limit) (merge_sort R l)) in Hs.
  apply StronglySorted_app_split in Hs as [Hs Hrest]. fold rows in Hs, Hrest.
  assert (Hp : ∀ x, x ∈ l ↔ x ∈ rows ∨ x ∈ drop (Z.to_nat limit) (merge_sort R l)).
  { intros x. rewrite <-elem_of_app. unfold rows. by rewrite take_drop, merge_sort_Permutation. }
  split_and!; [done|intros x Hx; apply Hp; by left| |].
  - unfold rows. rewrite length_take. lia.
  - intros x [Hx|Hx]%Hp; [by left|right]. split; [|intros y Hy; by apply Hrest].
    unfold rows. rewrite length_take.
    assert (drop (Z.to_nat limit) (merge_sort R l) ≠ []) as Hne by (intros E; rewrite E in Hx; set_solver).
    destruct (decide (length (merge_sort R l) ≤ Z.to_nat limit)%nat); [by rewrite drop_ge in Hne|]. lia.
Qed.


(** The entity query.  A limit above 500 is refused; otherwise every answer is the current
    version of a memory about the entity that passes the filter and is visible to the caller,
    the answers come newest first and at most [limit] many, and a match that is left out is
    older than all of them and displaced by a full page. *)
Theorem find_by_entity_exact `{HashOrder} entity filter g :
  graph_ok g →
  match find_by_entity entity filter g with
  | Err _ => 500 < mf_limit filter
  | Ok rows =>
      StronglySorted newest_first rows ∧ Z.of_nat (length rows) ≤ Z.max 0 (mf_limit filter) ∧
      (∀ m, m ∈ rows → current (g_memories g) (m_id m) = Some m ∧
         entity ∈ entities (context m) ∧ memory_visible m (visibility_ctx filter) = true) ∧
      (∀ m, current (g_memories g) (m_id m) = Some m → entity_filter entity filter m = true →
         m ∈ rows ∨
         mf_limit filter ≤ Z.of_nat (length rows) ∧ ∀ m', m' ∈ rows → newest_first m' m)
  end.
Proof.
  intros Hok. unfold find_by_entity. destruct (Z.ltb_spec 500 (mf_limit filter)); [done|].
  set (l := List.filter (entity_filter entity filter) (current_rows (g_memories g))).
  assert (Hin : ∀ m, m ∈ l ↔ current (g_memories g) (m_id m) = Some m ∧
                             entity_filter entity filter m = true).
  { intros m. unfold l. rewrite elem_of_filter.
    by rewrite (elem_of_current_rows (g_lsn g)) by apply Hok. }
  destruct (take_sorted newest_first (mf_limit filter) l) as (H1 & H2 & H3 & H4).
  split_and!; [done|done| |].
  - intros m Hm%H2. apply Hin in Hm as [Hc Hf]. unfold entity_filter in Hf.
    rewrite !andb_true_iff, bool_decide_eq_true in Hf. naive_solver.
  - intros m Hc Hf. apply H4, Hin. done.
Qed.

(** ** The endpoint index *)

(** An edge is indexed under both its endpoints. *)
Definition indexed (r : Relationship) (g : Graph) : Prop :=
  ∀ node, node = r_from r ∨ node = r_to r →
    ∃ ids, rels_by_node g !! node = Some ids ∧ r_id r ∈ ids.

Definition index_complete (g : Graph) : Prop :=
  ∀ id r, r ∈ relationship_history g id → indexed r g.

Lemma elem_of_hash_elements `{HashOrder} {K} `{Countable K} (X : gset K) k :
  k ∈ hash_elements X ↔ k ∈ X.
Proof.
  unfold hash_elements. rewrite list_elem_of_fmap. split.
  - intros ([k' []] & -> & Hin%elem_of_hash_iter). by apply lookup_gset_to_gmap_Some in Hin as [? _].
  - intros Hk. exists (k, ()). split; [done|]. apply elem_of_hash_iter.
    by apply lookup_gset_to_gmap_Some.
Qed.

(** The frontier read.  With a complete endpoint index it returns only open current
    relationships, and every open current relationship that touches the frontier unless the
    limit is reached. *)
Theorem relationships_touching_exact `{HashOrder} frontier limit c g rows :
  graph_ok g → index_complete g →
  (relationships_touching frontier limit c g).2 = Ok rows →
  (∀ r, r ∈ rows → current (g_rels g) (r_id r) = Some r ∧ is_current r = true) ∧
  (∀ r, current (g_rels g) (r_id r) = Some r → is_current r = true →
     r_from r ∈ frontier ∨ r_to r ∈ frontier → r ∈ rows ∨ limit ≤ Z.of_nat (length rows)).
Proof.
  intros Hok Hidx [= <-]. unfold take_limit.
  set (ids := ⋃ omap (λ node, rels_by_node g !! node) frontier).
  set (l := List.filter is_current (omap (current (g_rels g)) (hash_elements ids))).
  assert (Hin : ∀ r, r ∈ l ↔ (∃ id, id ∈ ids ∧ current (g_rels g) id = Some r) ∧ is_current r = true).
  { intros r. unfold l. rewrite elem_of_filter, list_elem_of_omap.
    by setoid_rewrite elem_of_hash_elements. }
  split.
  - intros r Hr. assert (r ∈ l) as [(id & _ & Hc) Ho]%Hin.
    { rewrite <-(take_drop (Z.to_nat limit) l). apply elem_of_app. by left. }
    destruct (current_ok (g_lsn g) (g_rels g) id r) as [Hid _]; [apply Hok|done|]. simpl in Hid.
    by rewrite Hid.
  - intros r Hc Ho Ht. assert (r_id r ∈ ids) as Hids.
    { assert (r ∈ relationship_history g (r_id r)) as Hh.
      { unfold relationship_history. apply last_Some_elem_of. by rewrite <-current_versions. }
      assert (∃ node, node ∈ frontier ∧ (node = r_from r ∨ node = r_to r)) as (node & Hn & Hends)
        by naive_solver.
      destruct (Hidx _ _ Hh node Hends) as (X & HX & Hin').
      apply elem_of_union_list. exists X. split; [|done]. apply list_elem_of_omap. eauto. }
    assert (r ∈ l) as Hl by (apply Hin; eauto).
    rewrite <-(take_drop (Z.to_nat limit) l) in Hl. apply elem_of_app in Hl as [|Hd]; [by left|].
    right. rewrite length_take.
    destruct (decide (length l ≤ Z.to_nat limit)%nat); [|lia].
    rewrite drop_ge in Hd by done. set_solver.
Qed.
