(* ===== verification/Leases.v ===== *)
(** * Owner leases and fencing

    The lease table of [in_memory.rs]: [acquire_lease], [renew_lease], [release_lease] and
    [check_lease_current], the check every fenced write makes under the same mutation gate.

    Each operation takes [now], its reading of the wall clock, which is not assumed to be
    monotone.  Durations are nanoseconds; [chrono]'s range checks are left out. *)

From stdpp Require Import pretty.
From S2P Require Import Prelude Ids Kernel StorageTypes.

(* SRC crates/exocortex-storage/src/in_memory.rs 123-127 InMemoryLease *)
Record InMemoryLease := mkInMemoryLease { il_token : string; il_expires_at : DateTime }.

Record LeaseTable := mkLeaseTable {
  leases : gmap LeaseKey InMemoryLease;
  lease_epochs : gmap LeaseKey Z;
}.

Definition no_leases : LeaseTable := mkLeaseTable ∅ ∅.

(* SRC crates/exocortex-storage/src/trait_.rs 764-767 grace_duration *)
Definition grace_duration : Z := 15 * 10 ^ 9.

(** [format!("in-memory:{epoch}")]. *)
Definition token_of (epoch : Z) : string := "in-memory:" +:+ pretty epoch.

(* SRC crates/exocortex-storage/src/in_memory.rs 413-428 check_lease_current *)
Definition check_lease_current (now : DateTime) (lease : OwnerLease) (T : LeaseTable)
    : result unit StorageError :=
  match leases T !! ol_key lease with
  | Some held =>
      if String.eqb (il_token held) (fencing_token lease) && (now <? il_expires_at held)
      then Ok tt else Err (FencedWriteRejected (epoch lease))
  | None => Err (FencedWriteRejected (epoch lease))
  end.

(* SRC crates/exocortex-storage/src/in_memory.rs 1868-1909 acquire_lease *)
Definition acquire_lease (now : DateTime) (key : LeaseKey) (ttl : Z) (T : LeaseTable)
    : LeaseTable * result OwnerLease StorageError :=
  if match leases T !! key with Some held => now <? il_expires_at held | None => false end
  then (T, Err (Backend "lease held by another node"))
  else
    let epoch := match lease_epochs T !! key with Some e => u64_add e 1 | None => 1 end in
    let token := token_of epoch in
    let expires_at := now + ttl in
    (mkLeaseTable (<[key := mkInMemoryLease token expires_at]> (leases T))
                  (<[key := epoch]> (lease_epochs T)),
     Ok (mkOwnerLease key "in-memory" epoch now expires_at grace_duration token)).

(* SRC crates/exocortex-storage/src/in_memory.rs 1910-1926 renew_lease *)
Definition renew_lease (now : DateTime) (l : OwnerLease) (T : LeaseTable)
    : LeaseTable * result OwnerLease StorageError :=
  match leases T !! ol_key l with
  | Some held =>
      if String.eqb (il_token held) (fencing_token l) && (now <? il_expires_at held) then
        let ttl := expires_at l - acquired_at l in
        (mkLeaseTable (<[ol_key l := mkInMemoryLease (il_token held) (now + ttl)]> (leases T))
                      (lease_epochs T),
         Ok (mkOwnerLease (ol_key l) (owner_node_id l) (epoch l) now (now + ttl)
               (grace_period l) (fencing_token l)))
      else (T, Err (Backend "lease lost (token mismatch)"))
  | None => (T, Err (Backend "lease lost (token mismatch)"))
  end.

(* SRC crates/exocortex-storage/src/in_memory.rs 1927-1938 release_lease *)
Definition release_lease (l : OwnerLease) (T : LeaseTable) : LeaseTable * result unit StorageError :=
  (match leases T !! ol_key l with
   | Some held =>
       if String.eqb (il_token held) (fencing_token l)
       then mkLeaseTable (delete (ol_key l) (leases T)) (lease_epochs T) else T
   | None => T
   end, Ok tt).

(** ** The table as a state machine *)

Definition epoch_of (T : LeaseTable) (k : LeaseKey) : Z := default 0 (lease_epochs T !! k).

(** One lease operation by any caller, with any lease value, at any reading of the clock; epochs
    do not run out of 64 bits. *)
Inductive lease_step : LeaseTable → LeaseTable → Prop :=
  | step_acquire now k ttl T :
      epoch_of T k + 1 < 2 ^ 64 → lease_step T (acquire_lease now k ttl T).1
  | step_renew now l T : lease_step T (renew_lease now l T).1
  | step_release l T : lease_step T (release_lease l T).1.

(** The held token of a key is that of an epoch already counted. *)
Definition lease_ok (T : LeaseTable) : Prop :=
  (∀ k, 0 ≤ epoch_of T k) ∧
  ∀ k held, leases T !! k = Some held → ∃ e, il_token held = token_of e ∧ 0 < e ≤ epoch_of T k.

(** The epoch [e] of [k] is over: the counter is past it and any holder has a later epoch. *)
Definition fenced_off (k : LeaseKey) (e : Z) (T : LeaseTable) : Prop :=
  e < epoch_of T k ∧
  ∀ held, leases T !! k = Some held → ∃ e', il_token held = token_of e' ∧ e < e'.

#[global] Instance token_of_inj : Inj (=) (=) token_of.
Proof. intros a b Hab. unfold token_of in Hab. apply (inj (String.append _)) in Hab. by apply (inj pretty). Qed.

Lemma lease_ok_empty : lease_ok no_leases.
Proof. split; [done|]. intros k held. simpl. by rewrite lookup_empty. Qed.

Lemma acquire_epoch T k :
  0 ≤ epoch_of T k → epoch_of T k + 1 < 2 ^ 64 →
  match lease_epochs T !! k with Some e => u64_add e 1 | None => 1 end = epoch_of T k + 1.
Proof.
  unfold epoch_of. destruct (lease_epochs T !! k) as [e|]; simpl; [|done].
  intros. by rewrite u64_add_small by lia.
Qed.

Lemma acquire_inv now k ttl T T' l :
  lease_ok T → epoch_of T k + 1 < 2 ^ 64 → acquire_lease now k ttl T = (T', Ok l) →
  let e := epoch_of T k + 1 in
  (∀ held, leases T !! k = Some held → il_expires_at held ≤ now) ∧
  l = mkOwnerLease k "in-memory" e now (now + ttl) grace_duration (token_of e) ∧
  T' = mkLeaseTable (<[k := mkInMemoryLease (token_of e) (now + ttl)]> (leases T))
                    (<[k := e]> (lease_epochs T)).
Proof.
  intros [Hpos _] He. unfold acquire_lease. rewrite acquire_epoch by done.
  destruct (leases T !! k) as [held|] eqn:Hk.
  - destruct (Z.ltb_spec now (il_expires_at held)); [done|]. intros [= <- <-].
    split_and!; [|done|done]. intros ? [= <-]. lia.
  - by intros [= <- <-].
Qed.

(** The table an acquisition leaves. *)
Definition acquired (k : LeaseKey) (e : Z) (until : DateTime) (T : LeaseTable) : LeaseTable :=
  mkLeaseTable (<[k := mkInMemoryLease (token_of e) until]> (leases T)) (<[k := e]> (lease_epochs T)).

Lemma epoch_acquired k e until T k' :
  epoch_of (acquired k e until T) k' = if decide (k = k') then e else epoch_of T k'.
Proof.
  unfold epoch_of, acquired. simpl. case_decide; subst.
  - by rewrite lookup_insert_eq.
  - by rewrite lookup_insert_ne.
Qed.

(** A step acquires one key at the next epoch, or changes no epoch and mints no token. *)
Lemma lease_step_cases T T' :
  lease_step T T' → lease_ok T →
  (∃ k until, T' = acquired k (epoch_of T k + 1) until T) ∨
  (lease_epochs T' = lease_epochs T ∧
   ∀ k held', leases T' !! k = Some held' →
     ∃ held, leases T !! k = Some held ∧ il_token held' = il_token held).
Proof.
  destruct 1 as [now k ttl T He|now l T|l T]; intros Hok.
  - destruct (acquire_lease now k ttl T) as [T' [l|e]] eqn:Ha; simpl.
    + apply acquire_inv in Ha as (_ & _ & ->); [|done..]. left. by eexists k, _.
    + right. unfold acquire_lease in Ha. break_hyp Ha; eauto.
  - right. unfold renew_lease. destruct (leases T !! ol_key l) as [held|] eqn:Hk; [|eauto].
    destruct (_ && _); [|eauto]. split; [done|]. simpl.
    intros k' held' [[<- <-]|[Hne Hk']]%lookup_insert_Some; eauto.
  - right. unfold release_lease. simpl. destruct (leases T !! ol_key l) as [held|] eqn:Hk; [|eauto].
    destruct (String.eqb _ _); [|eauto]. split; [done|]. simpl.
    intros k' held' [_ Hk']%lookup_delete_Some. eauto.
Qed.

Lemma lease_step_ok T T' : lease_step T T' → lease_ok T → lease_ok T'.
Proof.
  intros Hs Hok. destruct (lease_step_cases _ _ Hs Hok) as [(k & until & ->)|[He Hl]].
  - destruct Hok as [Hpos Hok]. split.
    + intros k'. rewrite epoch_acquired. case_decide; [specialize (Hpos k); lia|done].
    + intros k' held. rewrite epoch_acquired. unfold acquired. simpl.
      intros [[<- <-]|[Hne Hk]]%lookup_insert_Some.
      * rewrite decide_True by done. eexists. split; [done|]. specialize (Hpos k). lia.
      * rewrite decide_False by done. by apply Hok.
  - destruct Hok as [Hpos Hok]. unfold lease_ok, epoch_of. rewrite He. split; [done|].
    intros k held (held0 & Hk & ->)%Hl. by apply Hok.
Qed.

Lemma epoch_mono k T T' : rtc lease_step T T' → lease_ok T → epoch_of T k ≤ epoch_of T' k.
Proof.
  induction 1 as [|T T' T'' Hs _ IH]; [done|]. intros Hok.
  etrans; [|by apply IH, (lease_step_ok T)].
  destruct (lease_step_cases _ _ Hs Hok) as [(k' & until & ->)|[He _]].
  - rewrite epoch_acquired. case_decide; subst; lia.
  - unfold epoch_of. by rewrite He.
Qed.

Lemma lease_steps_ok T T' : rtc lease_step T T' → lease_ok T → lease_ok T'.
Proof. induction 1; eauto using lease_step_ok. Qed.

Lemma fenced_off_step k e T T' :
  lease_step T T' → lease_ok T → fenced_off k e T → fenced_off k e T'.
Proof.
  intros Hs Hok [Hlt Hf]. destruct (lease_step_cases _ _ Hs Hok) as [(k' & until & ->)|[He Hl]].
  - split.
    + rewrite epoch_acquired. case_decide; subst; lia.
    + unfold acquired. simpl. intros held [[-> <-]|[_ Hk]]%lookup_insert_Some; [|by apply Hf].
      eexists. split; [done|lia].
  - split; [unfold epoch_of; by rewrite He|]. intros held (held0 & Hk & ->)%Hl. by apply Hf.
Qed.

Lemma fenced_off_steps k e T T' :
  rtc lease_step T T' → lease_ok T → fenced_off k e T → fenced_off k e T'.
Proof. induction 1; eauto using fenced_off_step, lease_step_ok. Qed.

Lemma fenced_off_mismatch l T held :
  fenced_off (ol_key l) (epoch l) T → fencing_token l = token_of (epoch l) →
  leases T !! ol_key l = Some held → String.eqb (il_token held) (fencing_token l) = false.
Proof.
  intros [_ Hf] Ht Hk. apply Hf in Hk as (e' & -> & Hlt). rewrite Ht. apply String.eqb_neq.
  intros Heq%(inj token_of). lia.
Qed.

Lemma fenced_off_rejected now l T :
  fenced_off (ol_key l) (epoch l) T → fencing_token l = token_of (epoch l) →
  check_lease_current now l T = Err (FencedWriteRejected (epoch l)).
Proof.
  intros Hf Ht. unfold check_lease_current. destruct (leases T !! ol_key l) as [held|] eqn:Hk; [|done].
  by rewrite (fenced_off_mismatch l T held).
Qed.

(** C35: fencing.  Once a key has been acquired again, the earlier lease never regains it: after
    any further lease operations by any caller, at any reading of the clock, the fence check
    rejects it, renewing it fails, releasing it does not disturb the holder, and its epoch is
    smaller than the later one. *)
Theorem stale_lease_fenced T0 T1 T2 T3 T4 key now1 ttl1 l1 now2 ttl2 l2 :
  lease_ok T0 → epoch_of T0 key + 1 < 2 ^ 64 →
  acquire_lease now1 key ttl1 T0 = (T1, Ok l1) → rtc lease_step T1 T2 →
  epoch_of T2 key + 1 < 2 ^ 64 →
  acquire_lease now2 key ttl2 T2 = (T3, Ok l2) → rtc lease_step T3 T4 →
  epoch l1 < epoch l2 ∧
  ∀ now, check_lease_current now l1 T4 = Err (FencedWriteRejected (epoch l1)) ∧
         renew_lease now l1 T4 = (T4, Err (Backend "lease lost (token mismatch)")) ∧
         release_lease l1 T4 = (T4, Ok tt).
Proof.
  intros Hok0 He0 Ha1 H12 He2 Ha2 H34.
  assert (Hok1 : lease_ok T1).
  { eapply lease_step_ok; [|exact Hok0]. replace T1 with (acquire_lease now1 key ttl1 T0).1
      by by rewrite Ha1. by constructor. }
  apply acquire_inv in Ha1 as (_ & -> & HT1); [|done..]. cbn [epoch].
  assert (Hge : epoch_of T0 key + 1 ≤ epoch_of T2 key).
  { pose proof (epoch_mono key T1 T2 H12 Hok1) as Hm. subst T1.
    change (epoch_of (acquired key (epoch_of T0 key + 1) (now1 + ttl1) T0) key ≤ epoch_of T2 key) in Hm.
    by rewrite epoch_acquired, decide_True in Hm. }
  assert (Hok2 : lease_ok T2) by by eapply lease_steps_ok.
  assert (Hok3 : lease_ok T3).
  { eapply lease_step_ok; [|exact Hok2]. replace T3 with (acquire_lease now2 key ttl2 T2).1
      by by rewrite Ha2. by constructor. }
  apply acquire_inv in Ha2 as (_ & -> & HT3); [|done..]. cbn [epoch]. split; [lia|].
  assert (Hf : fenced_off key (epoch_of T0 key + 1) T4).
  { eapply fenced_off_steps; [done..|]. subst T3. split.
    - change (epoch_of T0 key + 1 < epoch_of (acquired key (epoch_of T2 key + 1) (now2 + ttl2) T2) key).
      rewrite epoch_acquired, decide_True by done. lia.
    - simpl. intros held. rewrite lookup_insert_eq. intros [= <-]. eexists. split; [done|lia]. }
  intros now. split; [by apply fenced_off_rejected|].
  unfold renew_lease, release_lease. simpl.
  destruct (leases T4 !! key) as [held|] eqn:Hk; [|done].
  pose proof (fenced_off_mismatch (mkOwnerLease key "in-memory" (epoch_of T0 key + 1) now1
    (now1 + ttl1) grace_duration (token_of (epoch_of T0 key + 1))) T4 held Hf eq_refl Hk) as Hm.
  simpl in Hm. by rewrite Hm.
Qed.

(** A granted lease is exclusive until it expires.  It is current at every instant before its
    expiry and at none after; until then nobody else acquires the key, and a refused acquisition
    changes nothing; renewing it in time moves the expiry to one full term from the renewal, and
    releasing it frees the key at once. *)
Theorem lease_exclusive T T' key now ttl l :
  lease_ok T → epoch_of T key + 1 < 2 ^ 64 → acquire_lease now key ttl T = (T', Ok l) →
  expires_at l = now + ttl ∧
  ∀ t, 
    (check_lease_current t l T' = Ok tt ↔ t < expires_at l) ∧
    (t < expires_at l → ∀ ttl',
       acquire_lease t key ttl' T' = (T', Err (Backend "lease held by another node"))) ∧
    (t < expires_at l → ∃ T2 l2, renew_lease t l T' = (T2, Ok l2) ∧
       fencing_token l2 = fencing_token l ∧
       ∀ t2, check_lease_current t2 l2 T2 = Ok tt ↔ t2 < t + ttl) ∧
    (∀ t2, check_lease_current t2 l (release_lease l T').1 = Err (FencedWriteRejected (epoch l))).
Proof.
  intros Hok He (_ & -> & ->)%acquire_inv; [|done..]. split; [done|]. intros t.
  unfold check_lease_current, acquire_lease, renew_lease, release_lease. simpl.
  rewrite !lookup_insert_eq. simpl. rewrite String.eqb_refl. simpl. split_and!.
  - destruct (Z.ltb_spec t (now + ttl)); split; done || lia.
  - intros Hlt ttl'. by destruct (Z.ltb_spec t (now + ttl)); [|lia].
  - intros Hlt. destruct (Z.ltb_spec t (now + ttl)); [|lia]. eexists _, _. split; [done|].
    split; [done|]. intros t2. simpl. rewrite lookup_insert_eq. simpl. rewrite String.eqb_refl. simpl.
    replace (t + (now + ttl - now)) with (t + ttl) by lia. destruct (Z.ltb_spec t2 (t + ttl)); split; done || lia.
  - intros t2. by rewrite lookup_delete_eq.
Qed.
