(* ===== verification/Ingest.v ===== *)
(** * Exactly-once ingest and its post-commit effects

    The ingest half of [in_memory.rs]: [commit_ingest_locked] and its two callers, the
    governed-import gate [upsert_batch_once], and the outbox of post-ingest effects
    ([claim_ingest_effect], [renew_ingest_effect_claim], [acknowledge_ingest_effect] and the
    cleanup pair).

    A monotonic [Instant] is a [Z] of nanoseconds.  A function that writes the graph works on the
    pair of the ingest state and the graph. *)

From stdpp Require Import pretty.
From S2P Require Import Prelude Ids Kernel Packs Ontology StorageTypes Graph.

(** ** State *)

(* SRC crates/exocortex-storage/src/in_memory.rs 95-102 InMemoryIngestEffect *)
Record InMemoryIngestEffect := mkEffectRow {
  ie_effect : PostIngestEffect;
  acknowledged : bool;
  cleanup_complete : bool;
  delivery_generation : option Z;
  retain_legacy_identity : bool;
  claim : option (string * Z);
}.

Record IngestState := mkIngestState {
  settled_ingest : gmap IngestBatchKey SettledIngestBatch;
  ingest_effects : gmap string InMemoryIngestEffect;
  ingest_effect_generation : Z;
  governed_imports : gset string;
  fail_next_ingest_commit : bool;
}.

Definition no_ingest : IngestState := mkIngestState ∅ ∅ 0 ∅ false.

Definition set_settled f (st : IngestState) : IngestState :=
  let '(mkIngestState a b c d e) := st in mkIngestState (f a) b c d e.
Definition set_effects f (st : IngestState) : IngestState :=
  let '(mkIngestState a b c d e) := st in mkIngestState a (f b) c d e.
Definition set_imports f (st : IngestState) : IngestState :=
  let '(mkIngestState a b c d e) := st in mkIngestState a b c (f d) e.
Definition set_commit_fault (v : bool) (st : IngestState) : IngestState :=
  let '(mkIngestState a b c d _) := st in mkIngestState a b c d v.

(** ** The commit *)

(* SRC crates/exocortex-storage/src/in_memory.rs 572-627 commit_ingest_locked *)
Definition commit_ingest_locked `{Blake3} (o : Ontology) (clk : nat → DateTime)
    (key : IngestBatchKey) (memories : list Memory) (relationships : list Relationship)
    (accepted : Z) (effect : option PostIngestEffect) (st : IngestState) (g : Graph)
    : IngestState * Graph * result (IngestCommitOutcome * list Invalidation) StorageError :=
  match settled_ingest st !! key with
  | Some settled => (st, g, Ok (Duplicate settled, []))
  | None =>
      let conflict :=
        match effect with
        | Some effect =>
            match ingest_effects st !! effect_id effect with
            | Some stored =>
                if bool_decide (ie_effect stored = effect) then None
                else Some ("ingest effect " +:+ effect_id effect
                           +:+ " already exists with different content")
            | None => None
            end
        | None => None
        end in
      match conflict with
      | Some msg => (st, g, Err (Backend msg))
      | None =>
          match upsert_batch_locked o clk memories relationships g with
          | (g, Err e) => (st, g, Err e)
          | (g, Ok (records, invalidations)) =>
              let settled := mkSettled accepted 0
                (match last records with Some record => cr_lsn record | None => 0 end) in
              let st := set_settled <[key := settled]> st in
              let st := match effect with
                       | Some effect =>
                           set_effects <[effect_id effect :=
                             mkEffectRow effect false false None false None]> st
                       | None => st
                       end in
              (st, g, Ok (Committed records settled, invalidations))
          end
      end
  end.

(* SRC crates/exocortex-storage/src/in_memory.rs 893-909 commit_ingest_batch *)
Definition commit_ingest_batch `{Blake3} (o : Ontology) (clk : nat → DateTime)
    (key : IngestBatchKey) (memories : list Memory) (relationships : list Relationship)
    (accepted : Z) (st : IngestState) (g : Graph)
    : IngestState * Graph * result IngestCommitOutcome StorageError :=
  match commit_ingest_locked o clk key memories relationships accepted None st g with
  | (st, g, Ok (outcome, invalidations)) => (st, publish invalidations g, Ok outcome)
  | (st, g, Err e) => (st, g, Err e)
  end.

(* SRC crates/exocortex-storage/src/in_memory.rs 910-936 commit_ingest_batch_with_effect *)
Definition commit_ingest_batch_with_effect `{Blake3} (o : Ontology) (clk : nat → DateTime)
    (key : IngestBatchKey) (memories : list Memory) (relationships : list Relationship)
    (accepted : Z) (effect : PostIngestEffect) (st : IngestState) (g : Graph)
    : IngestState * Graph * result IngestCommitOutcome StorageError :=
  if fail_next_ingest_commit st
  then (set_commit_fault false st, g, Err (Backend "sentinel backend credential=secret"))
  else
    match commit_ingest_locked o clk key memories relationships accepted (Some effect) st g with
    | (st, g, Ok (outcome, invalidations)) => (st, publish invalidations g, Ok outcome)
    | (st, g, Err e) => (st, g, Err e)
    end.

(* SRC crates/exocortex-storage/src/in_memory.rs 734-756 upsert_batch_once *)
Definition upsert_batch_once `{Blake3} (o : Ontology) (clk : nat → DateTime)
    (operation_key : string) (ms : list Memory) (rs : list Relationship)
    (st : IngestState) (g : Graph) : IngestState * Graph * result bool StorageError :=
  if bool_decide (operation_key ∈ governed_imports st) then (st, g, Ok false)
  else match upsert_batch_locked o clk ms rs g with
       | (g, Err e) => (st, g, Err e)
       | (g, Ok (records, invalidations)) =>
           (set_imports (λ imports, {[operation_key]} ∪ imports) st,
            publish invalidations g, Ok true)
       end.

(* SRC crates/exocortex-storage/src/in_memory.rs 726-733 import_batch_once *)
Definition import_batch_once `{Blake3} (o : Ontology) (clk : nat → DateTime)
    (import_key : string) (ms : list Memory) (rs : list Relationship)
    (st : IngestState) (g : Graph) : IngestState * Graph * result bool StorageError :=
  upsert_batch_once o clk import_key ms rs st g.

(** ** The outbox *)

(** [rows.sort_by(|a, b| a.effect_id.cmp(&b.effect_id))]. *)
Definition by_effect_id (a b : PostIngestEffect) : Prop := String.le (effect_id a) (effect_id b).
#[global] Instance by_effect_id_dec : RelDecision by_effect_id.
Proof. intros a b. unfold by_effect_id. apply _. Defined.
Definition claimed_by_id (a b : ClaimedPostIngestEffect) : Prop :=
  by_effect_id (ce_effect a) (ce_effect b).
#[global] Instance claimed_by_id_dec : RelDecision claimed_by_id.
Proof. intros a b. unfold claimed_by_id. apply _. Defined.

(* SRC crates/exocortex-storage/src/in_memory.rs 937-957 pending_ingest_effects *)
Definition pending_ingest_effects `{HashOrder} (limit : Z) (st : IngestState)
    : result (list PostIngestEffect) StorageError :=
  Ok (take (Z.to_nat limit) (merge_sort by_effect_id
    (ie_effect <$> List.filter (λ row, negb (acknowledged row)) (hash_values (ingest_effects st))))).

(** An unacknowledged row whose claim has not run out, and one that may be claimed. *)
Definition live_claim (now : Z) (row : InMemoryIngestEffect) : bool :=
  negb (acknowledged row) && match claim row with Some (_, until) => now <? until | None => false end.
Definition claimable (now : Z) (row : InMemoryIngestEffect) : bool :=
  negb (acknowledged row) && match claim row with Some (_, until) => until <=? now | None => true end.

(** [lease_ms.try_into().unwrap_or(0)] milliseconds from [now]. *)
Definition claim_until (now lease_ms : Z) : Z :=
  now + (if lease_ms <? 0 then 0 else lease_ms) * 10 ^ 6.

(* SRC crates/exocortex-storage/src/in_memory.rs 958-1003 claim_ingest_effect *)
Definition claim_ingest_effect `{HashOrder} (now : Z) (claim_token : string) (lease_ms : Z)
    (st : IngestState) : IngestState * result (option ClaimedPostIngestEffect) StorageError :=
  let effects := ingest_effects st in
  if existsb (live_claim now) (hash_values effects) then (st, Ok None)
  else
    let eligible := merge_sort String.le
      (List.filter (λ kv, claimable now kv.2) (hash_iter effects)).*1 in
    match eligible with
    | [] => (st, Ok None)
    | effect_id :: _ =>
        match effects !! effect_id with
        | None => (st, Ok None)
        | Some row =>
            let was_legacy := bool_decide (delivery_generation row = None)
                              && negb (bool_decide (claim row = None)) in
            let generation := u64_saturating_add (ingest_effect_generation st) 1 in
            let row := {|
              ie_effect := ie_effect row;
              acknowledged := acknowledged row;
              cleanup_complete := cleanup_complete row;
              delivery_generation := Some generation;
              retain_legacy_identity := retain_legacy_identity row || was_legacy;
              claim := Some (claim_token, claim_until now lease_ms);
            |} in
            (mkIngestState (settled_ingest st) (<[effect_id := row]> effects)
               (u64_add (ingest_effect_generation st) 1) (governed_imports st)
               (fail_next_ingest_commit st),
             Ok (Some (mkClaimed (ie_effect row) generation (retain_legacy_identity row))))
        end
    end.

(** [matches!(&row.claim, Some((token, until)) if token == claim_token && *until > now)]. *)
Definition holds_claim (now : Z) (claim_token : string) (row : InMemoryIngestEffect) : bool :=
  match claim row with
  | Some (token, until) => String.eqb token claim_token && (now <? until)
  | None => false
  end.

Definition with_claim (c : option (string * Z)) (row : InMemoryIngestEffect) : InMemoryIngestEffect :=
  let '(mkEffectRow a b d e f _) := row in mkEffectRow a b d e f c.

(* SRC crates/exocortex-storage/src/in_memory.rs 1004-1025 renew_ingest_effect_claim *)
Definition renew_ingest_effect_claim (now : Z) (effect_id claim_token : string) (lease_ms : Z)
    (st : IngestState) : IngestState * result bool StorageError :=
  match ingest_effects st !! effect_id with
  | None => (st, Ok false)
  | Some row =>
      if negb (holds_claim now claim_token row) then (st, Ok false)
      else (set_effects <[effect_id :=
              with_claim (Some (claim_token, claim_until now lease_ms)) row]> st, Ok true)
  end.

(* SRC crates/exocortex-storage/src/in_memory.rs 1026-1044 acknowledge_ingest_effect *)
Definition acknowledge_ingest_effect (now : Z) (effect_id claim_token : string)
    (st : IngestState) : IngestState * result bool StorageError :=
  match ingest_effects st !! effect_id with
  | None => (st, Ok false)
  | Some row =>
      if acknowledged row || negb (holds_claim now claim_token row) then (st, Ok false)
      else (set_effects <[effect_id :=
              mkEffectRow (ie_effect row) true (cleanup_complete row) (delivery_generation row)
                (retain_legacy_identity row) None]> st, Ok true)
  end.

(* SRC crates/exocortex-storage/src/in_memory.rs 1045-1068 pending_ingest_effect_cleanups *)
Definition pending_ingest_effect_cleanups `{HashOrder} (limit : Z) (st : IngestState)
    : result (list ClaimedPostIngestEffect) StorageError :=
  Ok (take (Z.to_nat limit) (merge_sort claimed_by_id
    (omap (λ row,
        generation ← delivery_generation row;
        Some (mkClaimed (ie_effect row) generation (retain_legacy_identity row)))
      (List.filter (λ row, acknowledged row && negb (cleanup_complete row))
        (hash_values (ingest_effects st)))))).

(* SRC crates/exocortex-storage/src/in_memory.rs 1069-1090 complete_ingest_effect_cleanup *)
Definition complete_ingest_effect_cleanup (effect_id : string) (st : IngestState)
    : IngestState * result bool StorageError :=
  match ingest_effects st !! effect_id with
  | None => (st, Ok false)
  | Some row =>
      if negb (acknowledged row) then (st, Ok false)
      else (set_effects <[effect_id :=
              mkEffectRow (ie_effect row) (acknowledged row) true (delivery_generation row)
                (retain_legacy_identity row) (claim row)]> st, Ok true)
  end.

(** ** The component as a state machine *)

(** One operation of the component by any caller, or a graph write by another component. *)
Inductive ingest_step `{Blake3, HashOrder} (o : Ontology)
    : IngestState * Graph → IngestState * Graph → Prop :=
  | istep_commit clk key ms rs n st g :
      ingest_step o (st, g) (commit_ingest_batch o clk key ms rs n st g).1
  | istep_commit_effect clk key ms rs n e st g :
      ingest_step o (st, g) (commit_ingest_batch_with_effect o clk key ms rs n e st g).1
  | istep_once clk k ms rs st g : ingest_step o (st, g) (upsert_batch_once o clk k ms rs st g).1
  | istep_claim now t ms st g : ingest_step o (st, g) ((claim_ingest_effect now t ms st).1, g)
  | istep_renew now id t ms st g :
      ingest_step o (st, g) ((renew_ingest_effect_claim now id t ms st).1, g)
  | istep_ack now id t st g : ingest_step o (st, g) ((acknowledge_ingest_effect now id t st).1, g)
  | istep_cleanup id st g : ingest_step o (st, g) ((complete_ingest_effect_cleanup id st).1, g)
  | istep_graph st g g' : ingest_step o (st, g) (st, g').

Lemma set_settled_fields f st :
  settled_ingest (set_settled f st) = f (settled_ingest st) ∧
  governed_imports (set_settled f st) = governed_imports st ∧
  ingest_effects (set_settled f st) = ingest_effects st.
Proof. by destruct st. Qed.
Lemma set_effects_fields f st :
  settled_ingest (set_effects f st) = settled_ingest st ∧
  governed_imports (set_effects f st) = governed_imports st ∧
  ingest_effects (set_effects f st) = f (ingest_effects st) ∧
  ingest_effect_generation (set_effects f st) = ingest_effect_generation st.
Proof. by destruct st. Qed.

(** A commit of a fresh key, inverted. *)
Lemma commit_ingest_locked_spec `{Blake3} o clk key ms rs n eff st g :
  room (length ms + 2 * length rs) g →
  match commit_ingest_locked o clk key ms rs n eff st g with
  | (st', g', Ok (Duplicate s, invs)) =>
      st' = st ∧ g' = g ∧ invs = [] ∧ settled_ingest st !! key = Some s
  | (st', g', Ok (Committed records s, invs)) =>
      let ws := batch_writes o ms rs in
      settled_ingest st !! key = None ∧ g' = append_all ws g ∧
      records = records_from clk (g_lsn g) ws ∧ invs = events_from (g_lsn g) ws ∧
      s = mkSettled n 0 (if decide (ws = []) then 0 else g_lsn g + Z.of_nat (length ws)) ∧
      settled_ingest st' = <[key := s]> (settled_ingest st) ∧
      governed_imports st' = governed_imports st
  | (st', g', Err _) => st' = st ∧ g' = g
  end.
Proof.
  intros Hr. unfold commit_ingest_locked.
  destruct (settled_ingest st !! key) as [s|]; [done|].
  destruct (match eff with Some _ => _ | None => _ end) as [msg|]; [done|].
  rewrite upsert_batch_locked_spec by done. destruct (List.find _ rs); [done|]. cbv zeta.
  set (ws := batch_writes o ms rs). split_and!; try done.
  - f_equal. unfold records_from. destruct (decide (ws = [])) as [->|Hne]; [done|].
    rewrite last_lookup, length_imap, list_lookup_imap.
    destruct (lookup_lt_is_Some_2 ws (pred (length ws))) as [w ->]; [destruct ws; simpl; [done|lia]|].
    simpl. destruct ws; simpl in *; [done|]. lia.
  - destruct eff; [destruct (set_effects_fields <[effect_id p := mkEffectRow p false false None false None]>
      (set_settled <[key:=mkSettled n 0 match last (records_from clk (g_lsn g) ws) with
        Some record => cr_lsn record | None => 0 end]> st)) as (-> & _)|];
      by destruct st.
  - destruct eff; by destruct st.
Qed.

Lemma claim_settled `{HashOrder} now t ms st :
  settled_ingest (claim_ingest_effect now t ms st).1 = settled_ingest st ∧
  governed_imports (claim_ingest_effect now t ms st).1 = governed_imports st.
Proof. unfold claim_ingest_effect. by repeat case_match. Qed.

Lemma effect_op_settled st st' :
  (∃ now id t ms, st' = (renew_ingest_effect_claim now id t ms st).1) ∨
  (∃ now id t, st' = (acknowledge_ingest_effect now id t st).1) ∨
  (∃ id, st' = (complete_ingest_effect_cleanup id st).1) →
  settled_ingest st' = settled_ingest st ∧ governed_imports st' = governed_imports st.
Proof.
  unfold renew_ingest_effect_claim, acknowledge_ingest_effect, complete_ingest_effect_cleanup.
  intros [(now & id & t & ms & ->)|[(now & id & t & ->)|(id & ->)]]; repeat case_match; simpl;
    destruct st; done.
Qed.

Lemma commit_settled_grows `{Blake3} o clk key ms rs n eff st g k s :
  settled_ingest st !! k = Some s →
  settled_ingest (commit_ingest_locked o clk key ms rs n eff st g).1.1 !! k = Some s.
Proof.
  intros Hk. unfold commit_ingest_locked. destruct (settled_ingest st !! key) eqn:Hkey; [done|].
  destruct (match eff with Some _ => _ | None => _ end); [done|].
  destruct (upsert_batch_locked o clk ms rs g) as [g' [[recs invs]|e]]; [|done]. simpl.
  assert (k ≠ key) by congruence.
  destruct eff; destruct st; simpl in *; by rewrite lookup_insert_ne.
Qed.

Lemma ingest_step_settled `{Blake3, HashOrder} o p q k s :
  ingest_step o p q → settled_ingest p.1 !! k = Some s → settled_ingest q.1 !! k = Some s.
Proof.
  destruct 1; simpl; intros Hk; try done.
  - unfold commit_ingest_batch.
    pose proof (commit_settled_grows o clk key ms rs n None st g k s Hk) as Hs.
    by destruct (commit_ingest_locked o clk key ms rs n None st g) as [[st' g'] [[? ?]|?]].
  - unfold commit_ingest_batch_with_effect.
    destruct (fail_next_ingest_commit st); [by destruct st|].
    pose proof (commit_settled_grows o clk key ms rs n (Some e) st g k s Hk) as Hs.
    by destruct (commit_ingest_locked o clk key ms rs n (Some e) st g) as [[st' g'] [[? ?]|?]].
  - unfold upsert_batch_once. repeat case_match; simpl; try done. by destruct st.
  - by rewrite (proj1 (claim_settled now t ms st)).
  - by rewrite (proj1 (effect_op_settled st (renew_ingest_effect_claim now id t ms st).1 ltac:(eauto 10))).
  - by rewrite (proj1 (effect_op_settled st (acknowledge_ingest_effect now id t st).1 ltac:(eauto 10))).
  - by rewrite (proj1 (effect_op_settled st (complete_ingest_effect_cleanup id st).1 ltac:(eauto 10))).
Qed.

Lemma ingest_steps_settled `{Blake3, HashOrder} o p q k s :
  rtc (ingest_step o) p q → settled_ingest p.1 !! k = Some s → settled_ingest q.1 !! k = Some s.
Proof. induction 1; eauto using ingest_step_settled. Qed.

(** C34: a batch key commits at most once.  The commit that claims a key appends the batch's rows
    and settles their number and last LSN; after any further operations a replay of the key, with
    whatever rows, count or effect, returns that settlement and changes nothing; and a commit
    that fails changes nothing, so the key stays free for a retry. *)
Theorem ingest_exactly_once `{Blake3, HashOrder} o clk key ms rs n effect st g :
  room (length ms + 2 * length rs) g → fail_next_ingest_commit st = false →
  match commit_ingest_batch_with_effect o clk key ms rs n effect st g with
  | (st', g', Ok (Committed records s)) =>
      let ws := batch_writes o ms rs in
      g' = commit_writes ws g ∧ cr_lsn <$> records = seqZ (g_lsn g + 1) (Z.of_nat (length ws)) ∧
      s = mkSettled n 0 (if decide (ws = []) then 0 else g_lsn g') ∧
      ∀ st2 g2 clk2 ms2 rs2 n2 effect2,
        rtc (ingest_step o) (st', g') (st2, g2) →
        commit_ingest_batch o clk2 key ms2 rs2 n2 st2 g2 = (st2, g2, Ok (Duplicate s)) ∧
        (fail_next_ingest_commit st2 = false →
         commit_ingest_batch_with_effect o clk2 key ms2 rs2 n2 effect2 st2 g2
           = (st2, g2, Ok (Duplicate s)))
  | (st', g', Ok (Duplicate s)) => st' = st ∧ g' = g ∧ settled_ingest st !! key = Some s
  | (st', g', Err _) => st' = st ∧ g' = g
  end.
Proof.
  intros Hr Hfault. unfold commit_ingest_batch_with_effect at 1. rewrite Hfault.
  pose proof (commit_ingest_locked_spec o clk key ms rs n (Some effect) st g Hr) as Hspec.
  destruct (commit_ingest_locked o clk key ms rs n (Some effect) st g) as [[st' g'] [[[records s|s] invs]|e]].
  - destruct Hspec as (Hnew & -> & -> & -> & Hs & Hset & _). cbv zeta.
    set (ws := batch_writes o ms rs) in *.
    assert (Hws : room (length ws) g) by (eapply room_le; [apply length_batch_writes|done]).
    split_and!; [done|apply records_lsns| |].
    { rewrite Hs. change (publish (events_from (g_lsn g) ws) (append_all ws g)) with (commit_writes ws g).
      by rewrite commit_writes_lsn. }
    intros st2 g2 clk2 ms2 rs2 n2 effect2 Hsteps.
    assert (Hk : settled_ingest st2 !! key = Some s).
    { apply (ingest_steps_settled o _ _ key s) in Hsteps; [done|]. simpl. rewrite Hset.
      apply lookup_insert_eq. }
    unfold commit_ingest_batch, commit_ingest_batch_with_effect, commit_ingest_locked. rewrite Hk.
    simpl. split; [done|]. by intros ->.
  - by destruct Hspec as (-> & -> & -> & ->).
  - by destruct Hspec as (-> & ->).
Qed.

(** ** The outbox *)

(** Delivery generations are below the counter, which has not run out. *)
Definition generations_ok (st : IngestState) : Prop :=
  0 ≤ ingest_effect_generation st < 2 ^ 64 - 1 ∧
  ∀ id row n, ingest_effects st !! id = Some row → delivery_generation row = Some n →
    n ≤ ingest_effect_generation st.

Lemma string_le_total_hd l id k :
  merge_sort String.le l = id :: k → id ∈ l ∧ ∀ x, x ∈ l → String.le id x.
Proof.
  intros Hm.
  assert (Hp : ∀ x, x ∈ l ↔ x ∈ id :: k) by (intros x; by rewrite <-Hm, merge_sort_Permutation).
  assert (Hs : StronglySorted String.le (id :: k)).
  { rewrite <-Hm. apply Sorted_StronglySorted; [apply _|]. apply Sorted_merge_sort. apply _. }
  apply StronglySorted_inv in Hs as [_ Hall]. rewrite Forall_forall in Hall.
  split; [apply Hp; by left|]. intros x [->|Hx]%Hp%elem_of_cons; [reflexivity|by apply Hall].
Qed.

Lemma elem_of_claimable `{HashOrder} now st id :
  id ∈ (List.filter (λ kv, claimable now kv.2) (hash_iter (ingest_effects st))).*1 ↔
  ∃ row, ingest_effects st !! id = Some row ∧ claimable now row = true.
Proof.
  rewrite list_elem_of_fmap. split.
  - intros ([id' row] & -> & Hin). apply list_elem_of_In, List.filter_In in Hin as [Hin Hc].
    exists row. split; [|done]. by apply elem_of_hash_iter, list_elem_of_In.
  - intros (row & Hid & Hc). exists (id, row). split; [done|].
    apply list_elem_of_In, List.filter_In. split; [|done]. by apply list_elem_of_In, elem_of_hash_iter.
Qed.

Lemma no_live_claim `{HashOrder} now st :
  existsb (live_claim now) (hash_values (ingest_effects st)) = false ↔
  ∀ id row, ingest_effects st !! id = Some row → live_claim now row = false.
Proof.
  rewrite <-not_true_iff_false, existsb_elem. setoid_rewrite elem_of_hash_values. split.
  - intros Hn id row Hid. apply not_true_iff_false. intros Hl. apply Hn. eauto.
  - intros Hall (row & (id & Hid) & Hl). apply Hall in Hid. congruence.
Qed.

(** Without a live claim every unacknowledged row may be claimed. *)
Lemma claimable_unacked now row :
  live_claim now row = false → claimable now row = negb (acknowledged row).
Proof.
  unfold live_claim, claimable. destruct (acknowledged row); [done|]. simpl.
  destruct (claim row) as [[t until]|]; [|done]. rewrite Z.ltb_ge, Z.leb_le. done.
Qed.

Lemma claim_cases `{HashOrder} now token ms st :
  (claim_ingest_effect now token ms st = (st, Ok None) ∧
   ((∃ id row, ingest_effects st !! id = Some row ∧ live_claim now row = true) ∨
    ∀ id row, ingest_effects st !! id = Some row → acknowledged row = true)) ∨
  (∃ id row, ingest_effects st !! id = Some row ∧ acknowledged row = false ∧
     (∀ id' row', ingest_effects st !! id' = Some row' → live_claim now row' = false) ∧
     (∀ id' row', ingest_effects st !! id' = Some row' → acknowledged row' = false → String.le id id') ∧
     let generation := u64_saturating_add (ingest_effect_generation st) 1 in
     let legacy := retain_legacy_identity row ||
       (bool_decide (delivery_generation row = None) && negb (bool_decide (claim row = None))) in
     claim_ingest_effect now token ms st =
       (mkIngestState (settled_ingest st)
          (<[id := mkEffectRow (ie_effect row) (acknowledged row) (cleanup_complete row)
                     (Some generation) legacy (Some (token, claim_until now ms))]> (ingest_effects st))
          (u64_add (ingest_effect_generation st) 1) (governed_imports st)
          (fail_next_ingest_commit st),
        Ok (Some (mkClaimed (ie_effect row) generation legacy)))).
Proof.
  unfold claim_ingest_effect.
  destruct (existsb _ (hash_values _)) eqn:Hlive.
  { left. split; [done|]. left. apply existsb_elem in Hlive as (row & [id Hid]%elem_of_hash_values & Hl).
    eauto. }
  rewrite no_live_claim in Hlive.
  pose proof (elem_of_claimable now st) as Hel.
  assert (Hcl : ∀ id row, ingest_effects st !! id = Some row →
            claimable now row = negb (acknowledged row)).
  { intros id row Hid. by apply claimable_unacked, (Hlive id). }
  destruct (merge_sort _ _) as [|id k] eqn:Hm.
  - left. split; [done|]. right. intros id row Hid. apply not_false_iff_true. intros Ha.
    assert (id ∈ (List.filter (λ kv, claimable now kv.2) (hash_iter (ingest_effects st))).*1) as Hin.
    { apply Hel. exists row. by rewrite (Hcl id row), Ha. }
    rewrite <-(merge_sort_Permutation String.le), Hm in Hin. set_solver.
  - apply string_le_total_hd in Hm as [(row & Hid & Hc)%Hel Hle]. rewrite Hid. right.
    exists id, row. rewrite (Hcl id row Hid) in Hc. apply negb_true_iff in Hc.
    split_and!; try done. intros id' row' Hid' Ha. apply Hle, Hel. exists row'.
    by rewrite (Hcl id' row'), Ha.
Qed.

(** At most one effect is in delivery.  A claim succeeds exactly when some effect is
    unacknowledged and none is under a live claim; it takes the unacknowledged effect of least
    identity under a generation above every generation delivered before; and until it expires
    every other claim is refused without a change. *)
Theorem claim_exclusive `{HashOrder} now token ms st :
  generations_ok st →
  match claim_ingest_effect now token ms st with
  | (st', Ok None) =>
      st' = st ∧
      ((∃ id row, ingest_effects st !! id = Some row ∧ live_claim now row = true) ∨
       ∀ id row, ingest_effects st !! id = Some row → acknowledged row = true)
  | (st', Ok (Some c)) =>
      (∀ id row, ingest_effects st !! id = Some row → live_claim now row = false) ∧
      (∃ id row, ingest_effects st !! id = Some row ∧ acknowledged row = false ∧
         ce_effect c = ie_effect row ∧
         ∀ id' row', ingest_effects st !! id' = Some row' → acknowledged row' = false →
           String.le id id') ∧
      (∀ id row n, ingest_effects st !! id = Some row → delivery_generation row = Some n →
         n < ce_delivery_generation c) ∧
      (∀ t token' ms', t < claim_until now ms →
         claim_ingest_effect t token' ms' st' = (st', Ok None))
  | (_, Err _) => False
  end.
Proof.
  intros [Hgen Hrows].
  destruct (claim_cases now token ms st) as [[-> Hnone]|(id & row & Hid & Ha & Hlive & Hle & ->)];
    [by split|]. cbv zeta. simpl. split_and!; [done|by exists id, row| |].
  - intros id' row' n Hid' Hn. specialize (Hrows id' row' n Hid' Hn). unfold u64_saturating_add. lia.
  - intros t token' ms' Ht. unfold claim_ingest_effect. simpl.
    rewrite (proj2 (existsb_elem _ _)); [done|].
    eexists. split; [apply elem_of_hash_values; exists id; apply lookup_insert_eq|].
    unfold live_claim. simpl. rewrite Ha. simpl. lia.
Qed.

Lemma holds_claim_with now token token' until row :
  claim row = Some (token', until) → holds_claim now token row = String.eqb token' token && (now <? until).
Proof. unfold holds_claim. by intros ->. Qed.

(** Only the current claimant settles an effect, and only once.  An acknowledgement succeeds
    exactly for an unacknowledged effect under an unexpired claim of the caller's token, and
    otherwise changes nothing; a claimant whose effect was claimed again by another token can
    neither renew nor acknowledge it at any time; and once acknowledged an effect is never
    acknowledged or renewed again and leaves the pending effects. *)
Theorem acknowledge_fenced `{HashOrder} now id token st :
  (∀ st', acknowledge_ingest_effect now id token st = (st', Ok true) →
     (∃ row until, ingest_effects st !! id = Some row ∧ acknowledged row = false ∧
        claim row = Some (token, until) ∧ now < until) ∧
     (∀ t token' ms, acknowledge_ingest_effect t id token' st' = (st', Ok false) ∧
                     renew_ingest_effect_claim t id token' ms st' = (st', Ok false)) ∧
     ∀ t token' ms st2 c, claim_ingest_effect t token' ms st' = (st2, Ok (Some c)) →
       ∃ id', id' ≠ id ∧ ∃ row, ingest_effects st' !! id' = Some row ∧ ce_effect c = ie_effect row) ∧
  (∀ st', acknowledge_ingest_effect now id token st = (st', Ok false) → st' = st) ∧
  (∀ t ms row token' until, ingest_effects st !! id = Some row → claim row = Some (token', until) →
     token ≠ token' → acknowledge_ingest_effect t id token st = (st, Ok false) ∧
                      renew_ingest_effect_claim t id token ms st = (st, Ok false)).
Proof.
  split_and!.
  - intros st'. unfold acknowledge_ingest_effect at 1.
    destruct (ingest_effects st !! id) as [row|] eqn:Hid; [|done].
    destruct (acknowledged row) eqn:Ha; [done|]. cbn [orb].
    destruct (claim row) as [[token' until]|] eqn:Hc; [|by unfold holds_claim; rewrite Hc].
    rewrite (holds_claim_with now token token' until row Hc).
    destruct (String.eqb_spec token' token) as [->|]; [|done]. simpl.
    destruct (Z.ltb_spec now until); [|done]. intros [= <-].
    destruct (set_effects_fields <[id := mkEffectRow (ie_effect row) true (cleanup_complete row)
      (delivery_generation row) (retain_legacy_identity row) None]> st) as (_ & _ & He & _).
    set (st1 := set_effects _ st) in *. split_and!.
    + by exists row, until.
    + intros t token' ms. unfold acknowledge_ingest_effect, renew_ingest_effect_claim.
      rewrite He, lookup_insert_eq. done.
    + intros t token' ms st2 c Hcl.
      destruct (claim_cases t token' ms st1) as [[Hn _]|(id' & row' & Hid' & Ha' & _ & _ & Hn)];
        rewrite Hn in Hcl; [done|]. injection Hcl as _ <-. exists id'. split; [|by exists row'].
      intros ->. rewrite He, lookup_insert_eq in Hid'. injection Hid' as <-. done.
  - intros st'. unfold acknowledge_ingest_effect. repeat case_match; naive_solver.
  - intros t ms row token' until Hid Hc Hne.
    unfold acknowledge_ingest_effect, renew_ingest_effect_claim. rewrite Hid.
    rewrite (holds_claim_with t token token' until row Hc).
    destruct (String.eqb_spec token' token); [congruence|]. simpl. by rewrite orb_true_r.
Qed.
