(* ===== verification/Governed.v ===== *)
(** * Audited writes and discoveries

    The governed half of [in_memory.rs]: writes coupled to an audit row
    ([upsert_batch_audited], [append_audit], [delete_relationship_audited],
    [promote_memory_visibility_audited]), and the life of a discovery from its durable record to
    an immutable proposal and its one acceptance.

    [chrono]'s RFC 3339 printer is the parameter [Chrono].  The fault injection of the test
    configuration is left out. *)

From stdpp Require Import pretty.
From S2P Require Import Prelude Ids Kernel Packs Ontology StorageTypes Graph Reads.

(** ** Audit rows *)

Class Chrono := { to_rfc3339 : DateTime → string }.

Definition jnat (n : Z) : json := JNumber (PosInt n).

(* SRC crates/exocortex-storage/src/in_memory.rs 629-649 audit_value *)
Definition audit_value `{Chrono} (audit : AuditEvent) (lsn : Z) : json :=
  JObject [
    ("action", JString (action audit));
    ("actor", JString (actor audit));
    ("org_id", JString (ae_org_id audit));
    ("input_digest", JString (hex (input_digest audit)));
    ("output_ids", JArray (JString <$> output_ids audit));
    ("fingerprint", JString (hex (ae_fingerprint audit)));
    ("lease_epoch", JString (match ae_lease_epoch audit with Some e => pretty e | None => "" end));
    ("recorded_at", JString (to_rfc3339 (ae_recorded_at audit)));
    ("lsn", jnat lsn)
  ].

(** [value[key]]: [Null] when absent. *)
Definition json_get (v : json) (key : string) : json :=
  match v with
  | JObject fields =>
      match List.find (λ kv, String.eqb kv.1 key) fields with Some kv => kv.2 | None => JNull end
  | _ => JNull
  end.
Definition as_u64 (v : json) : option Z := match v with JNumber (PosInt n) => Some n | _ => None end.
(** [value == text]. *)
Definition json_eq_str (v : json) (s : string) : bool :=
  match v with JString t => String.eqb t s | _ => false end.

(* SRC crates/exocortex-storage/src/in_memory.rs 1393-1411 audit_range *)
Definition audit_range (org_id : string) (since_lsn limit : Z) (audits : list json)
    : result (list json) StorageError :=
  Ok (take (Z.to_nat limit) (List.filter (λ row,
        json_eq_str (json_get row "org_id") org_id &&
        match as_u64 (json_get row "lsn") with Some lsn => since_lsn <? lsn | None => false end)
      audits)).

(** ** State *)

(* SRC crates/exocortex-storage/src/in_memory.rs 104-108 StoredProposal *)
Record StoredProposal := mkStored { sp_proposal : DiscoveryProposal; consumed : bool }.

Record Governed := mkGoverned {
  proposals : gmap string StoredProposal;
  discoveries : gmap string DiscoveryRecord;
  audits : list json;
}.

Definition no_governed : Governed := mkGoverned ∅ ∅ [].

Definition push_audit (row : json) (d : Governed) : Governed :=
  mkGoverned (proposals d) (discoveries d) (audits d ++ [row]).

(** ** Audited writes *)

(* SRC crates/exocortex-storage/src/in_memory.rs 700-725 upsert_batch_audited *)
Definition upsert_batch_audited `{Blake3, Chrono} (o : Ontology) (clk : nat → DateTime)
    (ms : list Memory) (rs : list Relationship) (audit : AuditEvent) (d : Governed) (g : Graph)
    : Governed * Graph * result (list CommitRecord) StorageError :=
  match upsert_batch_locked o clk ms rs g with
  | (g, Err e) => (d, g, Err e)
  | (g, Ok (records, invalidations)) =>
      let lsn := match last records with Some r => cr_lsn r | None => 0 end in
      (push_audit (audit_value audit lsn) d, publish invalidations g, Ok records)
  end.

(* SRC crates/exocortex-storage/src/in_memory.rs 826-843 append_audit *)
Definition append_audit `{Chrono} (clk : nat → DateTime) (audit : AuditEvent) (d : Governed)
    (g : Graph) : Governed * Graph * result CommitRecord StorageError :=
  let '(g, lsn) := next_lsn g in
  (push_audit (audit_value audit lsn) d, g, Ok (commit lsn (clk 0%nat))).

(* SRC crates/exocortex-storage/src/in_memory.rs 844-891 delete_relationship_audited *)
Definition delete_relationship_audited `{Chrono} (clk : nat → DateTime) (id : RelationshipId)
    (audit : AuditEvent) (d : Governed) (g : Graph)
    : Governed * Graph * result CommitRecord StorageError :=
  let '(g, lsn) := next_lsn g in
  let now := clk 0%nat in
  match close_relationship now lsn id g with
  | None => (d, g, Err (Backend ("delete_relationship_audited: " +:+ fmt_02x_debug (rid_bytes id)
                                 +:+ " not found or already closed")))
  | Some g =>
      (push_audit (audit_value audit lsn) d, send (RelationshipDeleted id lsn) g,
       Ok (commit lsn now))
  end.

(* SRC crates/exocortex-storage/src/in_memory.rs 1096-1135 promote_memory_visibility_audited *)
Definition promote_locked `{Chrono} (now : DateTime) (memory : Memory) (audit : AuditEvent)
    (d : Governed) (g : Graph)
    : Governed * Graph * result (CommitRecord * Invalidation) StorageError :=
  match current (g_memories g) (m_id memory) with
  | None => (d, g, Err (Backend "promotion target disappeared"))
  | Some cur =>
      if vis_u8 (m_visibility memory) <? vis_u8 (m_visibility cur)
      then (d, g, Err (Backend "promotion would narrow current visibility"))
      else
        let lsn := u64_add (g_lsn g) 1 in
        let row := m_set_lsn (new_backend lsn) memory in
        (push_audit (audit_value audit lsn) d,
         set_lsn lsn (set_memories (entry_push (m_id row) row) g),
         Ok (commit lsn now, MemoryUpserted (m_id memory) lsn))
  end.

(* SRC crates/exocortex-storage/src/in_memory.rs 1091-1138 promote_memory_visibility_audited *)
Definition promote_memory_visibility_audited `{Chrono} (clk : nat → DateTime) (memory : Memory)
    (audit : AuditEvent) (d : Governed) (g : Graph)
    : Governed * Graph * result CommitRecord StorageError :=
  match promote_locked (clk 0%nat) memory audit d g with
  | (d, g, Ok (record, invalidation)) => (d, send invalidation g, Ok record)
  | (d, g, Err e) => (d, g, Err e)
  end.

(** ** Discoveries and proposals *)

(* SRC crates/exocortex-storage/src/in_memory.rs 1140-1183 create_discovery_proposal *)
Definition create_discovery_proposal (proposal : DiscoveryProposal) (d : Governed)
    : Governed * result unit StorageError :=
  let region := dp_region proposal in
  let scope := dp_caller_scope proposal in
  if negb (String.eqb (rk_org region) (vc_org_id scope))
     || (vis_u8 (max_visibility scope) <? vis_u8 (proposed_visibility proposal))
     || (negb (String.eqb (rk_project region) "") && negb (String.eqb (rk_project region) "*")
         && negb (bool_decide (rk_project region ∈ project_ids scope)))
  then (d, Err ProposalMismatch)
  else match proposals d !! dp_discovery_id proposal with
  | Some stored =>
      if bool_decide (sp_proposal stored = proposal)
      then if negb (consumed stored) then (d, Ok tt) else (d, Err ProposalNotFound)
      else (d, Err ProposalMismatch)
  | None =>
      match discoveries d !! dp_discovery_id proposal with
      | None => (d, Err ProposalNotFound)
      | Some discovery =>
          if negb (bool_decide (dr_region discovery = region))
             || negb (bool_decide (dr_from discovery = dp_from proposal))
             || negb (bool_decide (dr_to discovery = dp_to proposal))
          then (d, Err ProposalMismatch)
          else (mkGoverned (<[dp_discovery_id proposal := mkStored proposal false]> (proposals d))
                           (delete (dp_discovery_id proposal) (discoveries d)) (audits d), Ok tt)
      end
  end.

(** The body of [store_discovery] and [store_discovery_fenced] under the gate. *)
Definition store_discovery_locked (discovery : DiscoveryRecord) (d : Governed) (g : Graph)
    : Governed * Graph * result (option Z) StorageError :=
  match proposals d !! dr_discovery_id discovery with
  | Some _ => (d, g, Err ProposalMismatch)
  | None =>
      match discoveries d !! dr_discovery_id discovery with
      | Some stored =>
          if discovery_eqb stored discovery then (d, g, Ok None) else (d, g, Err ProposalMismatch)
      | None =>
          let lsn := u64_add (g_lsn g) 1 in
          (mkGoverned (proposals d) (<[dr_discovery_id discovery := discovery]> (discoveries d))
             (audits d), set_lsn lsn g, Ok (Some lsn))
      end
  end.

(* SRC crates/exocortex-storage/src/in_memory.rs 1185-1214 store_discovery *)
Definition store_discovery (discovery : DiscoveryRecord) (d : Governed) (g : Graph)
    : Governed * Graph * result unit StorageError :=
  match store_discovery_locked discovery d g with
  | (d, g, Ok (Some lsn)) => (d, send (DiscoveryAvailable discovery lsn) g, Ok tt)
  | (d, g, Ok None) => (d, g, Ok tt)
  | (d, g, Err e) => (d, g, Err e)
  end.

(* SRC crates/exocortex-storage/src/in_memory.rs 1252-1263 get_discovery *)
Definition get_discovery (id : string) (d : Governed) : result (option DiscoveryRecord) StorageError :=
  Ok (discoveries d !! id).

(** [sort_by_key(|row| (Reverse(row.discovered_at), row.discovery_id.clone()))]. *)
Definition latest_first (a b : DiscoveryRecord) : Prop :=
  discovered_at b < discovered_at a ∨
  (discovered_at a = discovered_at b ∧ String.le (dr_discovery_id a) (dr_discovery_id b)).
#[global] Instance latest_first_dec : RelDecision latest_first.
Proof. intros a b. unfold latest_first. apply _. Defined.

(* SRC crates/exocortex-storage/src/in_memory.rs 1265-1287 list_discoveries *)
Definition list_discoveries `{HashOrder} (org_id : string) (limit : Z) (d : Governed)
    : result (list DiscoveryRecord) StorageError :=
  Ok (take_limit (Z.min limit 100)
        (merge_sort latest_first
          (List.filter (λ row, String.eqb (rk_org (dr_region row)) org_id)
            (hash_values (discoveries d))))).

(* SRC crates/exocortex-storage/src/in_memory.rs 1289-1301 get_discovery_proposal *)
Definition get_discovery_proposal (id : string) (d : Governed)
    : result (option DiscoveryProposal) StorageError :=
  Ok (stored ← proposals d !! id;
      if negb (consumed stored) then Some (sp_proposal stored) else None).

(** The mismatch test of [accept_discovery]. *)
Definition acceptance_mismatch (proposal : DiscoveryProposal) (a : DiscoveryAcceptance) : bool :=
  let relationship := da_relationship a in
  negb (bool_decide (dp_region proposal = da_region a))
  || negb (bool_decide (dp_caller_scope proposal = da_caller_scope a))
  || negb (bool_decide (dp_from proposal = r_from relationship))
  || negb (bool_decide (dp_to proposal = r_to relationship))
  || negb (bool_decide (dp_kind proposal = r_kind relationship))
  || negb (bool_decide (proposed_visibility proposal = r_visibility relationship))
  || negb (String.eqb (rk_org (dp_region proposal)) (ae_org_id (da_audit a)))
  || negb (String.eqb (vc_user_id (dp_caller_scope proposal)) (actor (da_audit a)))
  || (vis_u8 (max_visibility (da_caller_scope a)) <? vis_u8 (r_visibility relationship)).

(* SRC crates/exocortex-storage/src/in_memory.rs 1307-1384 accept_discovery *)
Definition accept_discovery_locked `{Blake3, Chrono} (o : Ontology) (now : DateTime)
    (a : DiscoveryAcceptance) (d : Governed) (g : Graph)
    : Governed * Graph * result (CommitRecord * list Invalidation) StorageError :=
  match proposals d !! da_discovery_id a with
  | None => (d, g, Err ProposalNotFound)
  | Some stored =>
      if consumed stored then (d, g, Err ProposalNotFound)
      else if acceptance_mismatch (sp_proposal stored) a then (d, g, Err ProposalMismatch)
      else
        let relationship := da_relationship a in
        let lsn := u64_add (g_lsn g) 1 in
        let row := r_set_lsn (new_backend lsn) relationship in
        let relationships := entry_push (r_id row) row (g_rels g) in
        let inv := RelationshipUpserted (r_id row) (r_from row) (r_to row) (r_kind row) lsn in
        let '(relationships, next_lsn, invalidations) :=
          match materialize_inverse o relationship with
          | Some inverse =>
              let next_lsn := u64_add lsn 1 in
              let inverse := r_set_lsn (new_backend next_lsn) inverse in
              (entry_push (r_id inverse) inverse relationships, next_lsn,
               [inv; RelationshipUpserted (r_id inverse) (r_from inverse) (r_to inverse)
                       (r_kind inverse) next_lsn])
          | None => (relationships, lsn, [inv])
          end in
        (mkGoverned (<[da_discovery_id a := mkStored (sp_proposal stored) true]> (proposals d))
           (discoveries d) (audits d ++ [audit_value (da_audit a) lsn]),
         set_lsn next_lsn (set_rels (λ _, relationships) g),
         Ok (commit lsn now, invalidations))
  end.

(* SRC crates/exocortex-storage/src/in_memory.rs 1303-1391 accept_discovery *)
Definition accept_discovery `{Blake3, Chrono} (o : Ontology) (clk : nat → DateTime)
    (a : DiscoveryAcceptance) (d : Governed) (g : Graph)
    : Governed * Graph * result CommitRecord StorageError :=
  match accept_discovery_locked o (clk 0%nat) a d g with
  | (d, g, Ok (record, invalidations)) => (d, publish invalidations g, Ok record)
  | (d, g, Err e) => (d, g, Err e)
  end.

(** ** The component as a state machine *)

(** One operation of the component, a discovery settled by a cycle, or a write by another
    component. *)
Inductive governed_step `{Blake3, Chrono} (o : Ontology)
    : Governed * Graph → Governed * Graph → Prop :=
  | gstep_batch clk ms rs au d g : governed_step o (d, g) (upsert_batch_audited o clk ms rs au d g).1
  | gstep_audit clk au d g : governed_step o (d, g) (append_audit clk au d g).1
  | gstep_delete clk id au d g : governed_step o (d, g) (delete_relationship_audited clk id au d g).1
  | gstep_promote clk m au d g :
      governed_step o (d, g) (promote_memory_visibility_audited clk m au d g).1
  | gstep_propose p d g : governed_step o (d, g) ((create_discovery_proposal p d).1, g)
  | gstep_store r d g : governed_step o (d, g) (store_discovery r d g).1
  | gstep_accept clk a d g : governed_step o (d, g) (accept_discovery o clk a d g).1
  | gstep_graph d g g' : governed_step o (d, g) (d, g').

(** A discovery is in at most one of the two tables, and a proposal is filed under its id. *)
Definition governed_ok (d : Governed) : Prop :=
  (∀ id s, proposals d !! id = Some s → discoveries d !! id = None) ∧
  (∀ id s, proposals d !! id = Some s → dp_discovery_id (sp_proposal s) = id) ∧
  (∀ id r, discoveries d !! id = Some r → dr_discovery_id r = id).

Definition acceptance_writes `{Blake3} (o : Ontology) (a : DiscoveryAcceptance) : list Write :=
  WRelationship (da_relationship a) ::
  match materialize_inverse o (da_relationship a) with
  | Some inverse => [WRelationship inverse]
  | None => []
  end.

Lemma accept_locked_spec `{Blake3, Chrono} o now a d g :
  room 2 g →
  accept_discovery_locked o now a d g =
  match proposals d !! da_discovery_id a with
  | None => (d, g, Err ProposalNotFound)
  | Some stored =>
      if consumed stored then (d, g, Err ProposalNotFound)
      else if acceptance_mismatch (sp_proposal stored) a then (d, g, Err ProposalMismatch)
      else (mkGoverned (<[da_discovery_id a := mkStored (sp_proposal stored) true]> (proposals d))
              (discoveries d) (audits d ++ [audit_value (da_audit a) (g_lsn g + 1)]),
            append_all (acceptance_writes o a) g,
            Ok (commit (g_lsn g + 1) now, events_from (g_lsn g) (acceptance_writes o a)))
  end.
Proof.
  intros [Hl Hr]. unfold accept_discovery_locked.
  destruct (proposals d !! _) as [stored|]; [|done]. destruct (consumed stored); [done|].
  destruct (acceptance_mismatch _ _); [done|]. rewrite (u64_add_small (g_lsn g)) by lia.
  unfold acceptance_writes, events_from, append_all, append.
  destruct (da_relationship a) as [i ? ? ? ? ? ? ? ? ? ? ? ? ?]; simpl.
  destruct (materialize_inverse o _) as [inv|]; simpl.
  - rewrite ?(u64_add_small (g_lsn g) 1) by lia. simpl.
    rewrite ?(u64_add_small (g_lsn g + 1) 1) by lia. destruct inv; simpl.
    replace (g_lsn g + 1 + 1) with (g_lsn g + 1 + Z.of_nat 1) by lia.
    rewrite Z.add_0_r. by destruct g.
  - rewrite ?(u64_add_small (g_lsn g) 1) by lia. rewrite Z.add_0_r. by destruct g.
Qed.

Lemma accept_discovery_spec `{Blake3, Chrono} o clk a d g :
  room 2 g →
  accept_discovery o clk a d g =
  match proposals d !! da_discovery_id a with
  | None => (d, g, Err ProposalNotFound)
  | Some stored =>
      if consumed stored then (d, g, Err ProposalNotFound)
      else if acceptance_mismatch (sp_proposal stored) a then (d, g, Err ProposalMismatch)
      else (mkGoverned (<[da_discovery_id a := mkStored (sp_proposal stored) true]> (proposals d))
              (discoveries d) (audits d ++ [audit_value (da_audit a) (g_lsn g + 1)]),
            commit_writes (acceptance_writes o a) g,
            Ok (commit (g_lsn g + 1) (clk 0%nat)))
  end.
Proof.
  intros Hr. unfold accept_discovery. rewrite accept_locked_spec by done.
  destruct (proposals d !! _) as [stored|]; [|done]. destruct (consumed stored); [done|].
  by destruct (acceptance_mismatch _ _).
Qed.

(** How any one operation may change the two tables. *)
Lemma governed_step_cases `{Blake3, Chrono} o p q :
  governed_step o p q →
  (proposals q.1 = proposals p.1 ∧ discoveries q.1 = discoveries p.1) ∨
  (∃ pr r, proposals p.1 !! dp_discovery_id pr = None ∧
     discoveries p.1 !! dp_discovery_id pr = Some r ∧ dr_region r = dp_region pr ∧
     dr_from r = dp_from pr ∧ dr_to r = dp_to pr ∧
     proposals q.1 = <[dp_discovery_id pr := mkStored pr false]> (proposals p.1) ∧
     discoveries q.1 = delete (dp_discovery_id pr) (discoveries p.1)) ∨
  (∃ r, proposals p.1 !! dr_discovery_id r = None ∧ discoveries p.1 !! dr_discovery_id r = None ∧
     proposals q.1 = proposals p.1 ∧
     discoveries q.1 = <[dr_discovery_id r := r]> (discoveries p.1)) ∨
  (∃ id s, proposals p.1 !! id = Some s ∧ consumed s = false ∧
     proposals q.1 = <[id := mkStored (sp_proposal s) true]> (proposals p.1) ∧
     discoveries q.1 = discoveries p.1).
Proof.
  destruct 1; simpl; try (by left).
  - left. unfold upsert_batch_audited.
    by destruct (upsert_batch_locked o clk ms rs g) as [g' [[recs invs]|e]].
  - left. unfold delete_relationship_audited. destruct (next_lsn g) as [g' lsn].
    by destruct (close_relationship (clk 0%nat) lsn id g').
  - left. unfold promote_memory_visibility_audited, promote_locked.
    destruct (current _ _); [|done]. by destruct (_ <? _).
  - unfold create_discovery_proposal. case_match; [by left|].
    destruct (proposals d !! dp_discovery_id p) as [s|] eqn:Hp.
    + left. by repeat case_match.
    + destruct (discoveries d !! dp_discovery_id p) as [r|] eqn:Hd; [|by left].
      match goal with |- context [if ?b then _ else _] => destruct b eqn:E end; [by left|].
      rewrite !orb_false_iff, !negb_false_iff, !bool_decide_eq_true in E.
      destruct E as [[G1 G2] G3].
      right; left. by exists p, r.
  - unfold store_discovery, store_discovery_locked.
    destruct (proposals d !! dr_discovery_id r) eqn:Hp; [by left|].
    destruct (discoveries d !! dr_discovery_id r) eqn:Hd;
      [destruct (discovery_eqb _ _); by left|].
    right; right; left. by exists r.
  - unfold accept_discovery, accept_discovery_locked.
    destruct (proposals d !! da_discovery_id a) as [s|] eqn:Hp; [|by left].
    destruct (consumed s) eqn:Hc; [by left|].
    destruct (acceptance_mismatch _ _); [by left|]. do 3 right. exists (da_discovery_id a), s.
    by destruct (materialize_inverse o (da_relationship a)).
Qed.

Lemma governed_step_ok `{Blake3, Chrono} o p q :
  governed_step o p q → governed_ok p.1 → governed_ok q.1.
Proof.
  intros Hs (G1 & G2 & G3). unfold governed_ok.
  destruct (governed_step_cases o p q Hs)
    as [[-> ->]|[(pr & r & Hn & Hr & _ & _ & _ & -> & ->)|[(r & Hn & Hd & -> & ->)|(id & s & Hs' & _ & -> & ->)]]].
  - by split_and!.
  - split_and!.
    + intros id s [[<- _]|[Hne Hp]]%lookup_insert_Some; [apply lookup_delete_eq|].
      rewrite lookup_delete_ne by done. by eapply G1.
    + intros id s [[<- <-]|[_ Hp]]%lookup_insert_Some; [done|by eapply G2].
    + intros id r' [_ Hd]%lookup_delete_Some. by eapply G3.
  - split_and!.
    + intros id s Hp. rewrite lookup_insert_ne by congruence. by eapply G1.
    + done.
    + intros id r' [[<- <-]|[_ Hr]]%lookup_insert_Some; [done|by eapply G3].
  - split_and!.
    + intros id' s' [[<- _]|[_ Hp]]%lookup_insert_Some; [by eapply G1|by eapply G1].
    + intros id' s' [[<- <-]|[_ Hp]]%lookup_insert_Some; [by apply (G2 _ s)|by eapply G2].
    + done.
Qed.

(** A proposal keeps its content, and a consumed one stays consumed. *)
Lemma governed_step_proposal `{Blake3, Chrono} o p q id s :
  governed_step o p q → proposals p.1 !! id = Some s →
  ∃ b, proposals q.1 !! id = Some (mkStored (sp_proposal s) b) ∧ (consumed s = true → b = true).
Proof.
  intros Hs Hid. assert (Hkeep : ∃ b, Some s = Some (mkStored (sp_proposal s) b) ∧
      (consumed s = true → b = true)) by (exists (consumed s); by destruct s).
  destruct (governed_step_cases o p q Hs)
    as [[-> _]|[(pr & r & Hn & _ & _ & _ & _ & -> & _)|[(r & _ & _ & -> & _)|(id' & s' & Hs' & _ & -> & _)]]].
  - by rewrite Hid.
  - rewrite lookup_insert_ne by congruence. by rewrite Hid.
  - by rewrite Hid.
  - destruct (decide (id' = id)) as [->|].
    + rewrite Hid in Hs'. injection Hs' as <-. exists true. by rewrite lookup_insert_eq.
    + rewrite lookup_insert_ne by done. by rewrite Hid.
Qed.

Lemma governed_steps_consumed `{Blake3, Chrono} o p q id pr :
  rtc (governed_step o) p q → proposals p.1 !! id = Some (mkStored pr true) →
  proposals q.1 !! id = Some (mkStored pr true).
Proof.
  induction 1 as [|p p' q Hs _ IH]; [done|]. intros Hp. apply IH.
  destruct (governed_step_proposal o p p' id _ Hs Hp) as (b & Hb & Htrue). by rewrite Hb, Htrue.
Qed.

Lemma governed_steps_proposal `{Blake3, Chrono} o p q id s :
  rtc (governed_step o) p q → proposals p.1 !! id = Some s →
  ∃ b, proposals q.1 !! id = Some (mkStored (sp_proposal s) b).
Proof.
  intros Hs. revert s. induction Hs as [p|p p' q Hs _ IH]; intros s Hp.
  - exists (consumed s). by destruct s.
  - destruct (governed_step_proposal o p p' id s Hs Hp) as (b & Hb & _).
    by destruct (IH _ Hb) as [b' ?]; exists b'.
Qed.

Lemma acceptance_exact proposal a :
  acceptance_mismatch proposal a = false ↔
  dp_region proposal = da_region a ∧ dp_caller_scope proposal = da_caller_scope a ∧
  dp_from proposal = r_from (da_relationship a) ∧ dp_to proposal = r_to (da_relationship a) ∧
  dp_kind proposal = r_kind (da_relationship a) ∧
  proposed_visibility proposal = r_visibility (da_relationship a) ∧
  rk_org (dp_region proposal) = ae_org_id (da_audit a) ∧
  vc_user_id (dp_caller_scope proposal) = actor (da_audit a) ∧
  vis_u8 (r_visibility (da_relationship a)) ≤ vis_u8 (max_visibility (da_caller_scope a)).
Proof.
  unfold acceptance_mismatch.
  rewrite !orb_false_iff, !negb_false_iff, !bool_decide_eq_true, !String.eqb_eq, Z.ltb_ge. tauto.
Qed.

(** C37: a proposal is accepted at most once and only as issued.  An acceptance succeeds exactly
    when an unconsumed proposal of that id agrees with it in region, caller scope, endpoints,
    kind and visibility, and its audit names the proposal's organization and user; it then
    appends the edge and its companion and one audit row, under one LSN for edge and audit.  In
    every other case nothing changes.  After it, and whatever happens in between, a second
    acceptance is refused, the proposal is no longer shown, and the discovery can be neither
    stored nor proposed again. *)
Theorem accept_discovery_once `{Blake3, Chrono} o clk a d g :
  room 2 g →
  match accept_discovery o clk a d g with
  | (d', g', Ok record) =>
      (∃ pr, proposals d !! da_discovery_id a = Some (mkStored pr false) ∧
        dp_region pr = da_region a ∧ dp_caller_scope pr = da_caller_scope a ∧
        dp_from pr = r_from (da_relationship a) ∧ dp_to pr = r_to (da_relationship a) ∧
        dp_kind pr = r_kind (da_relationship a) ∧
        proposed_visibility pr = r_visibility (da_relationship a) ∧
        rk_org (dp_region pr) = ae_org_id (da_audit a) ∧
        vc_user_id (dp_caller_scope pr) = actor (da_audit a)) ∧
      g' = commit_writes (acceptance_writes o a) g ∧ cr_lsn record = g_lsn g + 1 ∧
      audits d' = audits d ++ [audit_value (da_audit a) (cr_lsn record)] ∧
      ∀ d2 g2, rtc (governed_step o) (d', g') (d2, g2) →
        (∀ clk2 a2, da_discovery_id a2 = da_discovery_id a →
           accept_discovery o clk2 a2 d2 g2 = (d2, g2, Err ProposalNotFound)) ∧
        get_discovery_proposal (da_discovery_id a) d2 = Ok None ∧
        (∀ r, dr_discovery_id r = da_discovery_id a →
           store_discovery r d2 g2 = (d2, g2, Err ProposalMismatch)) ∧
        (∀ pr, dp_discovery_id pr = da_discovery_id a →
           ∃ e, create_discovery_proposal pr d2 = (d2, Err e))
  | (d', g', Err _) => d' = d ∧ g' = g
  end.
Proof.
  intros Hr. rewrite accept_discovery_spec by done.
  destruct (proposals d !! da_discovery_id a) as [[pr c]|] eqn:Hp; [|done].
  destruct c; [done|]. cbn [consumed sp_proposal].
  destruct (acceptance_mismatch pr a) eqn:Hm; [done|].
  split_and!; [exists pr; apply acceptance_exact in Hm; naive_solver|done..|].
  intros d2 g2 Hsteps.
  apply (governed_steps_consumed o _ _ (da_discovery_id a) pr) in Hsteps;
    [|simpl; apply lookup_insert_eq]. simpl in Hsteps. split_and!.
  - intros clk2 a2 Heq. unfold accept_discovery, accept_discovery_locked. by rewrite Heq, Hsteps.
  - unfold get_discovery_proposal. by rewrite Hsteps.
  - intros r Heq. unfold store_discovery, store_discovery_locked. by rewrite Heq, Hsteps.
  - intros pr2 Heq. unfold create_discovery_proposal. rewrite Heq, Hsteps. simpl.
    match goal with |- context [if ?b then _ else _] => destruct b end; [eauto|].
    case_bool_decide; eauto.
Qed.

(** Discoveries and proposals stay apart.  In every state reached from an empty one a
    discovery id is never both a pending discovery and a proposal, and every proposal once issued
    keeps its exact content for ever. *)
Theorem proposals_immutable `{Blake3, Chrono} o g d1 g1 d2 g2 id s :
  rtc (governed_step o) (no_governed, g) (d1, g1) →
  rtc (governed_step o) (d1, g1) (d2, g2) →
  proposals d1 !! id = Some s →
  discoveries d1 !! id = None ∧ dp_discovery_id (sp_proposal s) = id ∧
  ∃ b, proposals d2 !! id = Some (mkStored (sp_proposal s) b).
Proof.
  intros H01 H12 Hid. assert (Hok : governed_ok d1).
  { assert (∀ p q, rtc (governed_step o) p q → governed_ok p.1 → governed_ok q.1) as Hrtc
      by (induction 1; eauto using governed_step_ok).
    apply (Hrtc _ _ H01). split_and!; intros ? ?; simpl; rewrite lookup_empty; done. }
  destruct Hok as (G1 & G2 & _). split_and!; [by eapply G1|by eapply G2|].
  by apply (governed_steps_proposal o _ _ id s) in H12.
Qed.

(** ** Audit coupling *)

Lemma audit_value_fields `{Chrono} audit lsn :
  json_get (audit_value audit lsn) "org_id" = JString (ae_org_id audit) ∧
  json_get (audit_value audit lsn) "lsn" = JNumber (PosInt lsn).
Proof. done. Qed.

(** No audited write without its audit, no audit without its write.  A successful audited
    batch, deletion or promotion adds exactly one audit row, under the LSN of the write; a failed
    one adds none and leaves both tables and the feed as they were (a failed deletion still
    consumes an LSN).  A promotion never narrows the label the memory has. *)
Theorem audited_writes_coupled `{Blake3, Chrono} o clk ms rs id memory audit d g :
  graph_ok g → room (1 + length ms + 2 * length rs) g →
  match upsert_batch_audited o clk ms rs audit d g with
  | (d', g', Ok records) =>
      g' = commit_writes (batch_writes o ms rs) g ∧
      audits d' = audits d ++ [audit_value audit (default 0 (cr_lsn <$> last records))]
  | (d', g', Err _) => d' = d ∧ g' = g
  end ∧
  match delete_relationship_audited clk id audit d g with
  | (d', g', Ok record) =>
      (∃ r, current (g_rels g) id = Some r ∧ r_valid_until r = None ∧
        current (g_rels g') id = Some (r_close (clk 0%nat) (new_backend (cr_lsn record)) r)) ∧
      audits d' = audits d ++ [audit_value audit (cr_lsn record)]
  | (d', g', Err _) => d' = d ∧ g' = set_lsn (g_lsn g + 1) g
  end ∧
  match promote_memory_visibility_audited clk memory audit d g with
  | (d', g', Ok record) =>
      (∃ m, current (g_memories g) (m_id memory) = Some m ∧
        vis_u8 (m_visibility m) ≤ vis_u8 (m_visibility memory)) ∧
      g' = commit_writes [WMemory memory] g ∧ cr_lsn record = g_lsn g + 1 ∧
      audits d' = audits d ++ [audit_value audit (cr_lsn record)]
  | (d', g', Err _) => d' = d ∧ g' = g
  end.
Proof.
  intros Hok Hroom. assert (Hr1 : room 1 g) by (eapply room_le; [|done]; lia).
  split_and!.
  - unfold upsert_batch_audited. rewrite upsert_batch_locked_spec by (eapply room_le; [|exact Hroom]; lia).
    destruct (List.find _ rs); [done|]. cbv zeta. split; [done|]. simpl. do 3 f_equal.
    by destruct (last _).
  - unfold delete_relationship_audited. rewrite next_lsn_room by done. cbv zeta.
    rewrite close_relationship_spec by done.
    destruct (current (g_rels g) id) as [r|] eqn:Hc; [|done].
    case_bool_decide as Hu; [|done]. split; [|done]. exists r. split_and!; [done..|].
    apply (current_ok (g_lsn g)) in Hc as [Hid _]; [|apply Hok]. simpl in Hid.
    unfold append. destruct Hr1. rewrite u64_add_small by lia. simpl.
    destruct (r_close_fields (clk 0%nat) (new_backend (g_lsn g + 1)) r) as (-> & _ & _ & _ & ->).
    rewrite Hid. apply current_entry_push_eq.
  - unfold promote_memory_visibility_audited, promote_locked.
    destruct (current (g_memories g) (m_id memory)) as [m|]; [|done].
    destruct (Z.ltb_spec (vis_u8 (m_visibility memory)) (vis_u8 (m_visibility m))); [done|].
    destruct Hr1. rewrite u64_add_small by lia. split_and!; [by exists m| |done|done].
    unfold commit_writes, append_all, append, events_from. simpl.
    rewrite ?(u64_add_small (g_lsn g) 1) by lia.
    by rewrite m_id_stamp, Z.add_0_r.
Qed.

(** Audits are found by their organization.  The rows [audit_range] returns are, oldest
    first, those of the organization after the given LSN, so an appended audit is found by its
    own organization from any earlier LSN and by no other. *)
Theorem audit_range_exact `{Chrono} audit lsn org since log :
  let found := List.filter (λ row, json_eq_str (json_get row "org_id") org &&
                 match as_u64 (json_get row "lsn") with Some l => since <? l | None => false end) in
  (∀ limit, audit_range org since limit log = Ok (take (Z.to_nat limit) (found log))) ∧
  found (log ++ [audit_value audit lsn]) =
    found log ++ (if bool_decide (ae_org_id audit = org) && (since <? lsn)
                  then [audit_value audit lsn] else []).
Proof.
  intros found. split; [done|]. unfold found. rewrite List.filter_app. f_equal. cbn [List.filter].
  destruct (audit_value_fields audit lsn) as [-> ->]. simpl.
  case_bool_decide as Ho; [apply String.eqb_eq in Ho as ->|apply String.eqb_neq in Ho as ->]; simpl; [|done].
  by destruct (since <? lsn).
Qed.
