(* ===== verification/Cycles.v ===== *)
(** * Fenced owner cycles and their rollback

    The owner-cycle half of [in_memory.rs]: writes under a lease
    ([upsert_batch_fenced], [delete_memory_fenced], [store_discovery_fenced]), the durable cycle
    journal ([upsert_batch_fenced_journaled], [complete_cycle_journal_fenced]), rollback
    ([restore_fenced]) and the settlement of a Dreams cycle ([settle_dreams_cycle_fenced]).

    Every fenced operation reads the clock once for the fence, [clk 0], and then once per row. *)

From stdpp Require Import pretty.
From S2P Require Import Prelude Ids Kernel Packs Ontology StorageTypes Graph Reads Leases.
From S2P Require Import Governed.

(** ** State *)

Record Journals := mkJournals {
  cycle_journals : gmap LeaseKey CycleJournalRecord;
  succeeded_cycles : gmap (LeaseKey * string) string;
}.

Definition no_journals : Journals := mkJournals ∅ ∅.

Definition set_journal (k : LeaseKey) (j : CycleJournalRecord) (J : Journals) : Journals :=
  mkJournals (<[k := j]> (cycle_journals J)) (succeeded_cycles J).

(** ** Fenced writes *)

(** The identity maps of a batch: [entry(id).or_default().insert(lsn)] per upserted row. *)
Definition note_commit (acc : lsn_map MemoryId * lsn_map RelationshipId) (inv : Invalidation)
    : lsn_map MemoryId * lsn_map RelationshipId :=
  match inv with
  | MemoryUpserted id lsn => (entry_extend id {[lsn]} acc.1, acc.2)
  | RelationshipUpserted id _ _ _ lsn => (acc.1, entry_extend id {[lsn]} acc.2)
  | _ => acc
  end.

Definition fenced_commit (records : list CommitRecord) (invalidations : list Invalidation)
    : FencedBatchCommit :=
  let '(ms, rs) := foldl note_commit (∅, ∅) invalidations in mkFencedBatchCommit records ms rs.

(* SRC crates/exocortex-storage/src/in_memory.rs 1939-1974 upsert_batch_fenced *)
Definition upsert_batch_fenced `{Blake3} (o : Ontology) (clk : nat → DateTime)
    (ms : list Memory) (rs : list Relationship) (lease : OwnerLease) (T : LeaseTable) (g : Graph)
    : Graph * result FencedBatchCommit StorageError :=
  match check_lease_current (clk 0%nat) lease T with
  | Err e => (g, Err e)
  | Ok _ =>
      match upsert_batch_locked o (λ i, clk (S i)) ms rs g with
      | (g, Err e) => (g, Err e)
      | (g, Ok (records, invalidations)) =>
          (publish invalidations g, Ok (fenced_commit records invalidations))
      end
  end.

(* SRC crates/exocortex-storage/src/in_memory.rs 1975-2051 upsert_batch_fenced_journaled *)
Definition upsert_batch_fenced_journaled `{Blake3} (o : Ontology) (clk : nat → DateTime)
    (ms : list Memory) (rs : list Relationship) (prepared_restore : FencedRestore)
    (cycle_id : string) (lease : OwnerLease) (T : LeaseTable) (J : Journals) (g : Graph)
    : Journals * Graph * result FencedBatchCommit StorageError :=
  match check_lease_current (clk 0%nat) lease T with
  | Err e => (J, g, Err e)
  | Ok _ =>
      let blocked :=
        match cycle_journals J !! ol_key lease with
        | Some active =>
            if bool_decide (cj_state active = Active) && negb (String.eqb (cj_cycle_id active) cycle_id)
            then Some (cj_cycle_id active) else None
        | None => None
        end in
      match blocked with
      | Some active => (J, g, Err (Backend ("active cycle " +:+ active
                                +:+ " requires recovery before " +:+ cycle_id)))
      | None =>
          match upsert_batch_locked o (λ i, clk (S i)) ms rs g with
          | (g, Err e) => (J, g, Err e)
          | (g, Ok (records, invalidations)) =>
              let committed := fenced_commit records invalidations in
              let journal :=
                match cycle_journals J !! ol_key lease with
                | Some journal => journal
                | None => mkJournal cycle_id (ol_key lease) (epoch lease) FencedRestore_default Active
                end in
              let merged := FencedRestore_merge (restore journal) prepared_restore in
              let restore := mkFencedRestore (fr_memories merged) (fr_relationships merged)
                (created_memories merged) (created_relationships merged)
                (extend_lsns (owned_memory_lsns merged) (memory_lsns committed))
                (extend_lsns (owned_relationship_lsns merged) (relationship_lsns committed)) in
              let journal := mkJournal cycle_id (cj_lease_key journal) (epoch lease) restore Active in
              (set_journal (ol_key lease) journal J, publish invalidations g, Ok committed)
          end
      end
  end.

(* SRC crates/exocortex-storage/src/in_memory.rs 2052-2064 get_active_cycle_journal *)
Definition get_active_cycle_journal (key : LeaseKey) (J : Journals)
    : result (option CycleJournalRecord) StorageError :=
  Ok (journal ← cycle_journals J !! key;
      if bool_decide (cj_state journal = Active) then Some journal else None).

(* SRC crates/exocortex-storage/src/in_memory.rs 2065-2083 complete_cycle_journal_fenced *)
Definition complete_cycle_journal_fenced (now : DateTime) (cycle_id : string) (lease : OwnerLease)
    (T : LeaseTable) (J : Journals) : Journals * result unit StorageError :=
  match check_lease_current now lease T with
  | Err e => (J, Err e)
  | Ok _ =>
      match cycle_journals J !! ol_key lease with
      | None => (J, Err (Backend "cycle journal not found"))
      | Some journal =>
          if negb (String.eqb (cj_cycle_id journal) cycle_id)
          then (J, Err (Backend "cycle journal identity mismatch"))
          else (set_journal (ol_key lease) (mkJournal (cj_cycle_id journal) (cj_lease_key journal)
                  (cj_lease_epoch journal) (restore journal) Completed) J, Ok tt)
      end
  end.

(* SRC crates/exocortex-storage/src/in_memory.rs 2084-2091 cycle_succeeded *)
Definition cycle_succeeded (key : LeaseKey) (cycle_id : string) (J : Journals)
    : result bool StorageError :=
  Ok (bool_decide (is_Some (succeeded_cycles J !! (key, cycle_id)))).

(* SRC crates/exocortex-storage/src/in_memory.rs 2092-2105 cycle_succeeded_fenced *)
Definition cycle_succeeded_fenced (now : DateTime) (cycle_id : string) (lease : OwnerLease)
    (T : LeaseTable) (J : Journals) : result bool StorageError :=
  let? _ := check_lease_current now lease T in
  Ok (bool_decide (is_Some (succeeded_cycles J !! (ol_key lease, cycle_id)))).

(* SRC crates/exocortex-storage/src/in_memory.rs 2173-2188 delete_memory_fenced *)
Definition delete_memory_fenced (clk : nat → DateTime) (id : MemoryId) (lease : OwnerLease)
    (T : LeaseTable) (g : Graph) : Graph * result CommitRecord StorageError :=
  match check_lease_current (clk 0%nat) lease T with
  | Err e => (g, Err e)
  | Ok _ =>
      let '(g, record) := delete_memory_locked (clk 1%nat) id g in
      (send (MemoryDeleted id (cr_lsn record)) g, Ok record)
  end.

(* SRC crates/exocortex-storage/src/in_memory.rs 1216-1250 store_discovery_fenced *)
Definition store_discovery_fenced (now : DateTime) (discovery : DiscoveryRecord)
    (lease : OwnerLease) (T : LeaseTable) (d : Governed) (g : Graph)
    : Governed * Graph * result unit StorageError :=
  match check_lease_current now lease T with
  | Err e => (d, g, Err e)
  | Ok _ =>
      match store_discovery_locked discovery d g with
      | (d, g, Ok (Some lsn)) => (d, send (DiscoveryAvailable discovery lsn) g, Ok tt)
      | (d, g, Ok None) => (d, g, Ok tt)
      | (d, g, Err e) => (d, g, Err e)
      end
  end.

(** ** Rollback *)

(** The locals of [restore_fenced]. *)
Record Rolled := mkRolled {
  rl_memories : gmap MemoryId (list Memory);
  rl_rels : gmap RelationshipId (list Relationship);
  rl_next : Z;
  rl_records : list CommitRecord;
  rl_invalidations : list Invalidation;
}.

(** [history.retain(|version| !owned_lsns.contains(&version.lsn.value))]. *)
Definition retain_memories (owned : gset Z) (h : list Memory) : list Memory :=
  List.filter (λ v, negb (bool_decide (lsn_value (m_lsn v) ∈ owned))) h.
Definition retain_relationships (owned : gset Z) (h : list Relationship) : list Relationship :=
  List.filter (λ v, negb (bool_decide (lsn_value (r_lsn v) ∈ owned))) h.

(* SRC crates/exocortex-storage/src/in_memory.rs 2214-2230 restore_fenced *)
Definition restore_memory (clk : nat → DateTime) (s : Rolled) (entry : MemoryId * gset Z) : Rolled :=
  let '(id, owned) := entry in
  match rl_memories s !! id with
  | None => s
  | Some history =>
      let history' := retain_memories owned history in
      if Nat.eqb (length history') (length history)
      then mkRolled (<[id := history']> (rl_memories s)) (rl_rels s) (rl_next s) (rl_records s)
             (rl_invalidations s)
      else
        let lsn := u64_add (rl_next s) 1 in
        let records := rl_records s ++ [commit lsn (clk (length (rl_records s)))] in
        match history' with
        | [] => mkRolled (delete id (rl_memories s)) (rl_rels s) lsn records
                  (rl_invalidations s ++ [MemoryDeleted id lsn])
        | _ => mkRolled (<[id := history']> (rl_memories s)) (rl_rels s) lsn records
                 (rl_invalidations s ++ [MemoryUpserted id lsn])
        end
  end.

(* SRC crates/exocortex-storage/src/in_memory.rs 2231-2253 restore_fenced *)
Definition restore_relationship (clk : nat → DateTime) (s : Rolled)
    (entry : RelationshipId * gset Z) : Rolled :=
  let '(id, owned) := entry in
  match rl_rels s !! id with
  | None => s
  | Some history =>
      let history' := retain_relationships owned history in
      if Nat.eqb (length history') (length history)
      then mkRolled (rl_memories s) (<[id := history']> (rl_rels s)) (rl_next s) (rl_records s)
             (rl_invalidations s)
      else
        let lsn := u64_add (rl_next s) 1 in
        let records := rl_records s ++ [commit lsn (clk (length (rl_records s)))] in
        match last history' with
        | Some cur => mkRolled (rl_memories s) (<[id := history']> (rl_rels s)) lsn records
            (rl_invalidations s ++ [RelationshipUpserted id (r_from cur) (r_to cur) (r_kind cur) lsn])
        | None => mkRolled (rl_memories s) (delete id (rl_rels s)) lsn records
                    (rl_invalidations s ++ [RelationshipDeleted id lsn])
        end
  end.

(* SRC crates/exocortex-storage/src/in_memory.rs 2194-2258 restore_fenced *)
Definition restore_locked (clk : nat → DateTime) (restore : FencedRestore) (g : Graph)
    : Graph * list CommitRecord * list Invalidation :=
  let s := mkRolled (g_memories g) (g_rels g) (g_lsn g) [] [] in
  let s := foldl (restore_memory clk) s (btree_iter compare_mid (owned_memory_lsns restore)) in
  let s := foldl (restore_relationship clk) s
             (btree_iter compare_rid (owned_relationship_lsns restore)) in
  (mkGraph (rl_memories s) (rl_rels s) (rels_by_node g) (rl_next s) (g_feed g),
   rl_records s, rl_invalidations s).

(* SRC crates/exocortex-storage/src/in_memory.rs 2189-2264 restore_fenced *)
Definition restore_fenced (clk : nat → DateTime) (restore : FencedRestore) (lease : OwnerLease)
    (T : LeaseTable) (g : Graph) : Graph * result (list CommitRecord) StorageError :=
  match check_lease_current (clk 0%nat) lease T with
  | Err e => (g, Err e)
  | Ok _ =>
      let '(g, records, invalidations) := restore_locked (λ i, clk (S i)) restore g in
      (publish invalidations g, Ok records)
  end.

(** ** Settlement *)

(** [serde_json::to_vec] of a list of discoveries. *)
Class DiscoveryJson := { discoveries_to_vec : list DiscoveryRecord → list Z }.

(* SRC crates/exocortex-wire/src/signing.rs 32-41 content_digest_hex *)
Definition content_digest_hex `{Sha256} (bytes : list Z) : string := hex (sha256 bytes).

Definition by_discovery_id (a b : DiscoveryRecord) : Prop :=
  String.le (dr_discovery_id a) (dr_discovery_id b).
#[global] Instance by_discovery_id_dec : RelDecision by_discovery_id.
Proof. intros a b. unfold by_discovery_id. apply _. Defined.

(** [ordered.windows(2).any(|pair| pair[0].discovery_id == pair[1].discovery_id)]. *)
Fixpoint adjacent_duplicate (l : list DiscoveryRecord) : bool :=
  match l with
  | a :: ((b :: _) as k) => String.eqb (dr_discovery_id a) (dr_discovery_id b) || adjacent_duplicate k
  | _ => false
  end.

(* SRC crates/exocortex-storage/src/trait_.rs 59-73 dreams_settlement_effect_digest *)
Definition dreams_settlement_effect_digest `{Sha256, DiscoveryJson} (records : list DiscoveryRecord)
    : result string StorageError :=
  let ordered := merge_sort by_discovery_id records in
  if adjacent_duplicate ordered then Err ProposalMismatch
  else Ok (content_digest_hex (discoveries_to_vec ordered)).

(** The settlement loop over the discoveries. *)
Definition settle_record (acc : gmap string DiscoveryRecord * Z * list Invalidation)
    (record : DiscoveryRecord) : gmap string DiscoveryRecord * Z * list Invalidation :=
  let '(discoveries, lsn, invalidations) := acc in
  match discoveries !! dr_discovery_id record with
  | Some _ => acc
  | None =>
      let lsn := u64_add lsn 1 in
      (<[dr_discovery_id record := record]> discoveries, lsn,
       invalidations ++ [DiscoveryAvailable record lsn])
  end.

(* SRC crates/exocortex-storage/src/in_memory.rs 2113-2166 settle_dreams_cycle_fenced *)
Definition settle_locked (now : DateTime) (cycle_id effect_digest : string)
    (records : list DiscoveryRecord) (lease : OwnerLease) (T : LeaseTable) (J : Journals)
    (d : Governed) (g : Graph) : Journals * Governed * Graph * result (list Invalidation) StorageError :=
  match check_lease_current now lease T with
  | Err e => (J, d, g, Err e)
  | Ok _ =>
      match succeeded_cycles J !! (ol_key lease, cycle_id) with
      | Some stored =>
          if String.eqb stored effect_digest then (J, d, g, Ok [])
          else (J, d, g, Err ProposalMismatch)
      | None =>
          if match cycle_journals J !! ol_key lease with
             | Some journal => bool_decide (cj_state journal = Active)
                               && negb (String.eqb (cj_cycle_id journal) cycle_id)
             | None => false
             end
          then (J, d, g, Err (Backend "another active Dreams cycle requires recovery"))
          else if existsb (λ record,
                 negb (bool_decide (proposals d !! dr_discovery_id record = None)) ||
                 match discoveries d !! dr_discovery_id record with
                 | Some stored => negb (discovery_eqb stored record)
                 | None => false
                 end) records
          then (J, d, g, Err ProposalMismatch)
          else
            let '(discs, lsn, invalidations) :=
              foldl settle_record (discoveries d, g_lsn g, []) records in
            (mkJournals
               (<[ol_key lease := mkJournal cycle_id (ol_key lease) (epoch lease)
                    FencedRestore_default Completed]> (cycle_journals J))
               (<[(ol_key lease, cycle_id) := effect_digest]> (succeeded_cycles J)),
             mkGoverned (proposals d) discs (audits d), set_lsn lsn g, Ok invalidations)
      end
  end.

(* SRC crates/exocortex-storage/src/in_memory.rs 2106-2172 settle_dreams_cycle_fenced *)
Definition settle_dreams_cycle_fenced `{Sha256, DiscoveryJson} (now : DateTime) (cycle_id : string)
    (records : list DiscoveryRecord) (lease : OwnerLease) (T : LeaseTable) (J : Journals)
    (d : Governed) (g : Graph) : Journals * Governed * Graph * result unit StorageError :=
  match dreams_settlement_effect_digest records with
  | Err e => (J, d, g, Err e)
  | Ok effect_digest =>
      match settle_locked now cycle_id effect_digest records lease T J d g with
      | (J, d, g, Ok invalidations) => (J, d, publish invalidations g, Ok tt)
      | (J, d, g, Err e) => (J, d, g, Err e)
      end
  end.

(** ** The fence *)

(** A stale owner writes nothing.  Every fenced operation whose lease is not current when
    its gate is taken returns the fencing error of that lease and leaves the whole state, feed and
    LSN included, as it was (a settlement may report a malformed effect first). *)
Theorem fence_rejects `{Blake3, Sha256, DiscoveryJson} o clk ms rs prepared cycle_id records
    discovery id rst lease T J d g :
  check_lease_current (clk 0%nat) lease T = Err (FencedWriteRejected (epoch lease)) →
  let e := FencedWriteRejected (epoch lease) in
  upsert_batch_fenced o clk ms rs lease T g = (g, Err e) ∧
  upsert_batch_fenced_journaled o clk ms rs prepared cycle_id lease T J g = (J, g, Err e) ∧
  delete_memory_fenced clk id lease T g = (g, Err e) ∧
  restore_fenced clk rst lease T g = (g, Err e) ∧
  store_discovery_fenced (clk 0%nat) discovery lease T d g = (d, g, Err e) ∧
  complete_cycle_journal_fenced (clk 0%nat) cycle_id lease T J = (J, Err e) ∧
  cycle_succeeded_fenced (clk 0%nat) cycle_id lease T J = Err e ∧
  settle_dreams_cycle_fenced (clk 0%nat) cycle_id records lease T J d g =
    (J, d, g, match dreams_settlement_effect_digest records with Ok _ => Err e | Err e' => Err e' end).
Proof.
  intros Hc e. unfold upsert_batch_fenced, upsert_batch_fenced_journaled, delete_memory_fenced,
    restore_fenced, store_discovery_fenced, complete_cycle_journal_fenced, cycle_succeeded_fenced,
    settle_dreams_cycle_fenced, settle_locked. rewrite Hc. split_and!; try done.
  by destruct (dreams_settlement_effect_digest records).
Qed.

(** ** Rollback of the tables *)

(** The LSNs a map lists for a row. *)
Definition owned_of {K} `{Countable K} (m : lsn_map K) (id : K) : gset Z := default ∅ (m !! id).

(** A history that is not empty; an empty one is removed from its table. *)
Definition kept {A} (h : list A) : option (list A) := match h with [] => None | _ => Some h end.

Lemma filter_same {A} (P : A → bool) l : length (List.filter P l) = length l → List.filter P l = l.
Proof.
  induction l as [|x l IH]; simpl; [done|]. pose proof (List.filter_length_le P l) as Hle.
  destruct (P x); simpl; intros Hlen; [f_equal; apply IH; lia|lia].
Qed.

Lemma kept_nonempty {A} (h : list A) : h ≠ [] → kept h = Some h.
Proof. by destruct h. Qed.

Lemma filter_idemp {A} (P : A → bool) l : List.filter P (List.filter P l) = List.filter P l.
Proof. induction l as [|x l IH]; simpl; [done|]. destruct (P x) eqn:E; simpl; rewrite ?E, IH; done. Qed.

(** No history of a table is empty. *)
Definition no_empty {K A} `{Countable K} (t : gmap K (list A)) : Prop :=
  ∀ k h, t !! k = Some h → h ≠ [].

Lemma restore_memory_step clk s id owned :
  no_empty (rl_memories s) →
  (∀ id', rl_memories (restore_memory clk s (id, owned)) !! id' =
    if decide (id' = id) then rl_memories s !! id' ≫= (λ h, kept (retain_memories owned h))
    else rl_memories s !! id') ∧
  no_empty (rl_memories (restore_memory clk s (id, owned))) ∧
  rl_rels (restore_memory clk s (id, owned)) = rl_rels s.
Proof.
  intros Hne. unfold restore_memory.
  destruct (rl_memories s !! id) as [h|] eqn:Hid.
  2: { split_and!; [|done|done]. intros id'. case_decide; [subst; by rewrite Hid|done]. }
  destruct (Nat.eqb_spec (length (retain_memories owned h)) (length h)) as [Hl|Hl].
  - apply filter_same in Hl. change (retain_memories owned h = h) in Hl. rewrite Hl. simpl.
    rewrite insert_id by done. split_and!; [|done|done]. intros id'. case_decide; [subst|done].
    rewrite Hid. simpl. rewrite Hl. symmetry. by apply kept_nonempty, (Hne id).
  - destruct (retain_memories owned h) as [|x h'] eqn:Hr; simpl; split_and!; try done.
    + intros id'. case_decide; [subst|by rewrite lookup_delete_ne].
      rewrite lookup_delete_eq, Hid. simpl. by rewrite Hr.
    + intros k h0 [_ Hk]%lookup_delete_Some. by eapply Hne.
    + intros id'. case_decide; [subst|by rewrite lookup_insert_ne].
      rewrite lookup_insert_eq, Hid. simpl. by rewrite Hr.
    + intros k h0 [[_ <-]|[_ Hk]]%lookup_insert_Some; [done|by eapply Hne].
Qed.

Lemma restore_relationship_step clk s id owned :
  no_empty (rl_rels s) →
  (∀ id', rl_rels (restore_relationship clk s (id, owned)) !! id' =
    if decide (id' = id) then rl_rels s !! id' ≫= (λ h, kept (retain_relationships owned h))
    else rl_rels s !! id') ∧
  no_empty (rl_rels (restore_relationship clk s (id, owned))) ∧
  rl_memories (restore_relationship clk s (id, owned)) = rl_memories s.
Proof.
  intros Hne. unfold restore_relationship.
  destruct (rl_rels s !! id) as [h|] eqn:Hid.
  2: { split_and!; [|done|done]. intros id'. case_decide; [subst; by rewrite Hid|done]. }
  destruct (Nat.eqb_spec (length (retain_relationships owned h)) (length h)) as [Hl|Hl].
  - apply filter_same in Hl. change (retain_relationships owned h = h) in Hl. rewrite Hl. simpl.
    rewrite insert_id by done. split_and!; [|done|done]. intros id'. case_decide; [subst|done].
    rewrite Hid. simpl. rewrite Hl. symmetry. by apply kept_nonempty, (Hne id).
  - destruct (last (retain_relationships owned h)) as [cur|] eqn:Hr; simpl; split_and!; try done.
    + intros id'. case_decide; [subst|by rewrite lookup_insert_ne].
      rewrite lookup_insert_eq, Hid. simpl. symmetry. apply kept_nonempty. by intros E; rewrite E in Hr.
    + intros k h0 [[_ <-]|[_ Hk]]%lookup_insert_Some; [by intros E; rewrite E in Hr|by eapply Hne].
    + intros id'. case_decide; [subst|by rewrite lookup_delete_ne].
      rewrite lookup_delete_eq, Hid. simpl. apply last_None in Hr. by rewrite Hr.
    + intros k h0 [_ Hk]%lookup_delete_Some. by eapply Hne.
Qed.

(** The lookup of a history after a fold of restores over the entries of a map. *)
Section fold_restore.
Context {K A S : Type} `{Countable K} (table : S → gmap K (list A))
  (step : S → K * gset Z → S) (retain : gset Z → list A → list A).
Hypothesis retain_empty : ∀ h, retain ∅ h = h.
Hypothesis step_ok : ∀ s id owned, no_empty (table s) →
  (∀ id', table (step s (id, owned)) !! id' =
    if decide (id' = id) then table s !! id' ≫= (λ h, kept (retain owned h))
    else table s !! id') ∧
  no_empty (table (step s (id, owned))).

Lemma fold_restore_lookup entries s id :
  NoDup entries.*1 → no_empty (table s) →
  table (foldl step s entries) !! id =
    (table s !! id ≫= λ h, kept (retain (default ∅ ((list_to_map entries : gmap K _) !! id)) h)).
Proof.
  revert s. induction entries as [|[id0 o] entries IH]; intros s Hd Hne; simpl.
  - rewrite lookup_empty. simpl. destruct (table s !! id) as [h|] eqn:Hid; simpl; [|done].
    rewrite retain_empty. symmetry. by apply kept_nonempty, (Hne id).
  - apply NoDup_cons in Hd as [Hn Hd]. destruct (step_ok s id0 o Hne) as [Hlk Hne'].
    rewrite (IH _ Hd Hne'), Hlk. case_decide as Heq.
    + subst id0. rewrite lookup_insert_eq, not_elem_of_list_to_map_1 by done. simpl.
      destruct (table s !! id) as [h|]; simpl; [|done].
      destruct (kept (retain o h)) as [h'|] eqn:Hk; simpl; [|done]. rewrite retain_empty.
      unfold kept in Hk. by destruct (retain o h); simplify_eq.
    + by rewrite lookup_insert_ne.
Qed.
End fold_restore.

Lemma retain_memories_empty h : retain_memories ∅ h = h.
Proof. unfold retain_memories. induction h as [|x h IH]; simpl; [done|]. by rewrite IH. Qed.
Lemma retain_relationships_empty h : retain_relationships ∅ h = h.
Proof. unfold retain_relationships. induction h as [|x h IH]; simpl; [done|]. by rewrite IH. Qed.

Lemma restore_memories_rels clk entries s : rl_rels (foldl (restore_memory clk) s entries) = rl_rels s.
Proof.
  revert s. induction entries as [|[id o] entries IH]; intros s; simpl; [done|]. rewrite IH.
  unfold restore_memory. by repeat case_match.
Qed.
Lemma restore_rels_memories clk entries s :
  rl_memories (foldl (restore_relationship clk) s entries) = rl_memories s.
Proof.
  revert s. induction entries as [|[id o] entries IH]; intros s; simpl; [done|]. rewrite IH.
  unfold restore_relationship. by repeat case_match.
Qed.

Lemma bind_kept_nonempty {A} (o : option (list A)) (f : list A → list A) h :
  (o ≫= λ h, kept (f h)) = Some h → h ≠ [].
Proof. destruct o as [h0|]; simpl; [|done]. unfold kept. destruct (f h0); by intros [= <-]. Qed.

(** The two tables after a rollback. *)
Lemma restore_locked_tables clk rst g g' records invs :
  graph_ok g → restore_locked clk rst g = (g', records, invs) →
  (∀ id, g_memories g' !! id = (g_memories g !! id ≫= λ h,
     kept (retain_memories (owned_of (owned_memory_lsns rst) id) h))) ∧
  (∀ id, g_rels g' !! id = (g_rels g !! id ≫= λ h,
     kept (retain_relationships (owned_of (owned_relationship_lsns rst) id) h))).
Proof.
  intros [_ Hm Hr _]. unfold restore_locked.
  set (s0 := mkRolled (g_memories g) (g_rels g) (g_lsn g) [] []).
  set (s1 := foldl (restore_memory clk) s0 (btree_iter compare_mid (owned_memory_lsns rst))).
  set (s2 := foldl (restore_relationship clk) s1
               (btree_iter compare_rid (owned_relationship_lsns rst))).
  intros [= <- _ _]. simpl. split; intros id.
  - unfold s2. rewrite restore_rels_memories. unfold s1.
    destruct (list_to_map_btree compare_mid (owned_memory_lsns rst)) as [Hmap Hd].
    rewrite (fold_restore_lookup rl_memories (restore_memory clk) retain_memories).
    + by rewrite Hmap.
    + apply retain_memories_empty.
    + intros s id0 o Hne. destruct (restore_memory_step clk s id0 o Hne) as (? & ? & _). done.
    + done.
    + intros k h Hk. by apply (Hm k).
  - unfold s2. assert (E : rl_rels s1 = g_rels g) by apply restore_memories_rels.
    destruct (list_to_map_btree compare_rid (owned_relationship_lsns rst)) as [Hmap Hd].
    rewrite (fold_restore_lookup rl_rels (restore_relationship clk) retain_relationships).
    + by rewrite Hmap, E.
    + apply retain_relationships_empty.
    + intros s id0 o Hne. destruct (restore_relationship_step clk s id0 o Hne) as (? & ? & _). done.
    + done.
    + intros k h Hk. rewrite E in Hk. by apply (Hr k).
Qed.

Lemma restore_tables clk rst lease T g g' records :
  graph_ok g → restore_fenced clk rst lease T g = (g', Ok records) →
  (∀ id, g_memories g' !! id = (g_memories g !! id ≫= λ h,
     kept (retain_memories (owned_of (owned_memory_lsns rst) id) h))) ∧
  (∀ id, g_rels g' !! id = (g_rels g !! id ≫= λ h,
     kept (retain_relationships (owned_of (owned_relationship_lsns rst) id) h))).
Proof.
  intros Hok. unfold restore_fenced. destruct (check_lease_current _ _ _); [|done].
  destruct (restore_locked _ rst g) as [[g1 records1] invs] eqn:Hr. intros [= <- _].
  destruct (publish_fields invs g1) as (-> & -> & _). by eapply restore_locked_tables.
Qed.

Lemma kept_versions {K A} `{Countable K} (t t' : gmap K (list A)) (f : list A → list A) id :
  f [] = [] → t' !! id = (t !! id ≫= λ h, kept (f h)) → versions t' id = f (versions t id).
Proof.
  unfold versions. intros Hf ->. destruct (t !! id) as [h|]; simpl; [|done]. by destruct (f h).
Qed.

(** A rollback removes exactly the versions the journal owns.  Every memory and relationship
    keeps, in order, the versions whose LSN is not listed for its id, and loses the others. *)
Theorem restore_exact clk rst lease T g g' records :
  graph_ok g → restore_fenced clk rst lease T g = (g', Ok records) →
  (∀ id, memory_history g' id =
     retain_memories (owned_of (owned_memory_lsns rst) id) (memory_history g id)) ∧
  (∀ id, relationship_history g' id =
     retain_relationships (owned_of (owned_relationship_lsns rst) id) (relationship_history g id)).
Proof.
  intros Hok Hr. destruct (restore_tables _ _ _ _ _ _ _ Hok Hr) as [Hm Hrel].
  split; intros id.
  - by apply (kept_versions (g_memories g) (g_memories g')
      (retain_memories (owned_of (owned_memory_lsns rst) id))).
  - by apply (kept_versions (g_rels g) (g_rels g')
      (retain_relationships (owned_of (owned_relationship_lsns rst) id))).
Qed.

(** ** What a journal owns *)

Lemma owned_entry_extend {K} `{Countable K} (k k' : K) X (m : lsn_map K) :
  owned_of (entry_extend k X m) k' = owned_of m k' ∪ (if decide (k = k') then X else ∅).
Proof.
  unfold owned_of, entry_extend. case_decide; subst.
  - by rewrite lookup_insert_eq.
  - rewrite lookup_insert_ne by done. set_solver.
Qed.

Lemma owned_extend_lsns {K} `{Countable K} (a b : lsn_map K) k :
  owned_of (extend_lsns a b) k = owned_of a k ∪ owned_of b k.
Proof.
  unfold owned_of, extend_lsns. rewrite lookup_union_with.
  destruct (a !! k), (b !! k); simpl; set_solver.
Qed.

Lemma note_commits_elem invs acc id l :
  l ∈ owned_of (foldl note_commit acc invs).1 id ↔ l ∈ owned_of acc.1 id ∨ MemoryUpserted id l ∈ invs.
Proof.
  revert acc. induction invs as [|inv invs IH]; intros acc; [set_solver|].
  cbn [foldl]. rewrite IH, elem_of_cons. destruct inv; simpl.
  2-9: split; (intros [?|?]; [by left|]); [by right; right|].
  2-9: by match goal with H : _ ∨ _ |- _ => destruct H; [discriminate|right] end.
  rewrite owned_entry_extend. case_decide; set_solver.
Qed.

Lemma note_commits_rel_elem invs acc id l :
  l ∈ owned_of (foldl note_commit acc invs).2 id ↔
  l ∈ owned_of acc.2 id ∨ ∃ f t k, RelationshipUpserted id f t k l ∈ invs.
Proof.
  revert acc. induction invs as [|inv invs IH]; intros acc; [set_solver|].
  cbn [foldl]. rewrite IH. setoid_rewrite elem_of_cons. destruct inv; simpl.
  1-2, 4-9: split; (intros [?|(f & t & k & Hin)]; [by left|]); [right; exists f, t, k; by right|].
  1-8: destruct Hin; [discriminate|right; by exists f, t, k].
  rewrite owned_entry_extend. case_decide; set_solver.
Qed.

Lemma fenced_commit_owned records invs :
  memory_lsns (fenced_commit records invs) = (foldl note_commit (∅, ∅) invs).1 ∧
  relationship_lsns (fenced_commit records invs) = (foldl note_commit (∅, ∅) invs).2.
Proof. unfold fenced_commit. by destruct (foldl note_commit (∅, ∅) invs). Qed.

Lemma events_from_cons l w ws : events_from l (w :: ws) = event_of (l + 1) w :: events_from (l + 1) ws.
Proof.
  unfold events_from. simpl. rewrite Z.add_0_r. f_equal. apply imap_ext.
  intros i ? _. simpl. f_equal. lia.
Qed.

(** The versions a run of appends adds to one row are those its events name. *)
Lemma append_all_new ws g :
  room (length ws) g →
  (∀ id, ∃ new, memory_history (append_all ws g) id = memory_history g id ++ new ∧
     ∀ v, v ∈ new → MemoryUpserted id (lsn_value (m_lsn v)) ∈ events_from (g_lsn g) ws) ∧
  (∀ id, ∃ new, relationship_history (append_all ws g) id = relationship_history g id ++ new ∧
     ∀ v, v ∈ new → ∃ f t k, RelationshipUpserted id f t k (lsn_value (r_lsn v)) ∈ events_from (g_lsn g) ws).
Proof.
  revert g. induction ws as [|w ws IH]; intros g [Hl Hr].
  { split; intros id; exists []; rewrite app_nil_r; split; set_solver. }
  simpl in Hr. destruct (IH (append w g)) as [IHm IHr].
  { split; rewrite append_lsn by (split; lia); lia. }
  change (append_all (w :: ws) g) with (append_all ws (append w g)).
  rewrite append_lsn in IHm, IHr by (split; lia). rewrite events_from_cons. split; intros id.
  - destruct (IHm id) as (new & -> & Hnew). unfold memory_history, append at 1.
    rewrite u64_add_small by lia. destruct w as [m|r]; simpl.
    + rewrite versions_entry_push, <-(assoc_L (++)). eexists; split; [done|].
      intros v [Hv|Hv]%elem_of_app; [|right; by apply Hnew]. case_decide as Hid; [|set_solver].
      apply list_elem_of_singleton in Hv as ->. rewrite m_lsn_stamp, Hid. simpl. set_solver.
    + exists new. split; [done|]. intros v Hv. right. by apply Hnew.
  - destruct (IHr id) as (new & -> & Hnew). unfold relationship_history, append at 1.
    rewrite u64_add_small by lia. destruct w as [m|r]; simpl.
    + exists new. split; [done|]. intros v (f & t & k & Hv)%Hnew. exists f, t, k. by right.
    + rewrite versions_entry_push, <-(assoc_L (++)). eexists; split; [done|].
      intros v [Hv|(f & t & k & Hv)%Hnew]%elem_of_app; [|exists f, t, k; by right].
      case_decide as Hid; [|set_solver].
      apply list_elem_of_singleton in Hv as ->. rewrite r_lsn_stamp, Hid. simpl. eexists _, _, _. by left.
Qed.

Definition journal_memory_lsns (J : Journals) (k : LeaseKey) (id : MemoryId) : gset Z :=
  match cycle_journals J !! k with Some j => owned_of (owned_memory_lsns (restore j)) id | None => ∅ end.
Definition journal_rel_lsns (J : Journals) (k : LeaseKey) (id : RelationshipId) : gset Z :=
  match cycle_journals J !! k with Some j => owned_of (owned_relationship_lsns (restore j)) id | None => ∅ end.

(** A successful journaled batch, inverted: the batch is committed, and the journal owns what it
    owned before, what was prepared, and every row of the batch. *)
Lemma journaled_inv `{Blake3} o clk ms rs prepared cycle_id lease T J g J' g' c :
  room (length ms + 2 * length rs) g →
  upsert_batch_fenced_journaled o clk ms rs prepared cycle_id lease T J g = (J', g', Ok c) →
  let k := ol_key lease in
  let ws := batch_writes o ms rs in
  g' = commit_writes ws g ∧
  (∀ j, cycle_journals J !! k = Some j → cj_state j = Active → cj_cycle_id j = cycle_id) ∧
  (∃ j', cycle_journals J' !! k = Some j' ∧ cj_state j' = Active ∧ cj_cycle_id j' = cycle_id ∧
     cj_lease_epoch j' = epoch lease) ∧
  (∀ id l, l ∈ journal_memory_lsns J' k id ↔ l ∈ journal_memory_lsns J k id ∨
     l ∈ owned_of (owned_memory_lsns prepared) id ∨ MemoryUpserted id l ∈ events_from (g_lsn g) ws) ∧
  (∀ id l, l ∈ journal_rel_lsns J' k id ↔ l ∈ journal_rel_lsns J k id ∨
     l ∈ owned_of (owned_relationship_lsns prepared) id ∨
     ∃ f t kd, RelationshipUpserted id f t kd l ∈ events_from (g_lsn g) ws).
Proof.
  intros Hroom. unfold upsert_batch_fenced_journaled.
  destruct (check_lease_current _ _ _); [|done].
  destruct (match cycle_journals J !! ol_key lease with Some _ => _ | None => _ end) eqn:Hb; [done|].
  rewrite upsert_batch_locked_spec by done. destruct (List.find _ rs); [done|]. cbv zeta.
  set (ws := batch_writes o ms rs). set (recs := records_from _ _ ws). set (invs := events_from _ ws).
  destruct (fenced_commit_owned recs invs) as [-> ->]. intros [= <- <- _].
  assert (Hm : ∀ id l, l ∈ owned_of (foldl note_commit (∅, ∅) invs).1 id ↔ MemoryUpserted id l ∈ invs).
  { intros id l. rewrite note_commits_elem. unfold owned_of. simpl. rewrite lookup_empty. set_solver. }
  assert (Hr : ∀ id l, l ∈ owned_of (foldl note_commit (∅, ∅) invs).2 id ↔
            ∃ f t k, RelationshipUpserted id f t k l ∈ invs).
  { intros id l. rewrite note_commits_rel_elem. unfold owned_of. simpl. rewrite lookup_empty. set_solver. }
  split; [done|]. unfold journal_memory_lsns, journal_rel_lsns. simpl. rewrite lookup_insert_eq.
  split_and!.
  - intros j Hj Hact. rewrite Hj, Hact in Hb. rewrite bool_decide_eq_true_2 in Hb by done. simpl in Hb.
    by destruct (String.eqb_spec (cj_cycle_id j) cycle_id).
  - eexists; split; [done|]. done.
  - intros id l. simpl. rewrite !owned_extend_lsns, !elem_of_union, Hm.
    destruct (cycle_journals J !! ol_key lease); simpl; [tauto|]. unfold owned_of at 1. simpl.
    rewrite lookup_empty. simpl. tauto.
  - intros id l. simpl. rewrite !owned_extend_lsns, !elem_of_union, Hr.
    destruct (cycle_journals J !! ol_key lease); simpl; [tauto|]. unfold owned_of at 1. simpl.
    rewrite lookup_empty. simpl. tauto.
Qed.

(** ** Rollback of a whole cycle *)

(** One successful journaled batch of the cycle, under any lease of the key that is current; what
    it prepares itself owns no LSN up to [base]. *)
Inductive cycle_batch `{Blake3} (o : Ontology) (k : LeaseKey) (cycle_id : string) (base : Z)
    : Journals * Graph → Journals * Graph → Prop :=
  | cycle_batch_intro clk ms rs prepared lease T J g J' g' c :
      ol_key lease = k → room (length ms + 2 * length rs) g →
      (∀ id l, l ∈ owned_of (owned_memory_lsns prepared) id → base < l) →
      (∀ id l, l ∈ owned_of (owned_relationship_lsns prepared) id → base < l) →
      upsert_batch_fenced_journaled o clk ms rs prepared cycle_id lease T J g = (J', g', Ok c) →
      cycle_batch o k cycle_id base (J, g) (J', g').

(** Since the graph [g0] only the cycle has written, and the journal owns all it wrote. *)
Record cycle_inv (k : LeaseKey) (g0 : Graph) (p : Journals * Graph) : Prop := {
  ci_ok : graph_ok p.2;
  ci_lsn : g_lsn g0 ≤ g_lsn p.2;
  ci_memories id : ∃ new, memory_history p.2 id = memory_history g0 id ++ new ∧
    ∀ v, v ∈ new → lsn_value (m_lsn v) ∈ journal_memory_lsns p.1 k id;
  ci_rels id : ∃ new, relationship_history p.2 id = relationship_history g0 id ++ new ∧
    ∀ v, v ∈ new → lsn_value (r_lsn v) ∈ journal_rel_lsns p.1 k id;
  ci_owned_m id l : l ∈ journal_memory_lsns p.1 k id → g_lsn g0 < l;
  ci_owned_r id l : l ∈ journal_rel_lsns p.1 k id → g_lsn g0 < l;
}.

Lemma event_lsn_bound inv l ws : inv ∈ events_from l ws → l < lsn_of inv.
Proof.
  revert l. induction ws as [|w ws IH]; intros l; [set_solver|]. rewrite events_from_cons.
  intros [->|Hin%IH]%elem_of_cons; [destruct w; simpl; lia|lia].
Qed.

Lemma cycle_batch_inv `{Blake3} o k cycle_id g0 p q :
  cycle_batch o k cycle_id (g_lsn g0) p q → cycle_inv k g0 p → cycle_inv k g0 q.
Proof.
  destruct 1 as [clk ms rs prepared lease T J g J' g' c <- Hroom Hpm Hpr Hj].
  intros [Hok Hl Hm Hr Hom Hor]. simpl in *.
  destruct (journaled_inv _ _ _ _ _ _ _ _ _ _ _ _ _ Hroom Hj) as (-> & _ & _ & HJm & HJr).
  set (ws := batch_writes o ms rs) in *.
  assert (Hws : room (length ws) g) by (eapply room_le; [apply length_batch_writes|done]).
  destruct (append_all_new ws g Hws) as [Hnm Hnr].
  destruct (publish_fields (events_from (g_lsn g) ws) (append_all ws g)) as (Em & Er & _).
  split; simpl.
  - eapply graph_steps_ok; [by apply commit_writes_steps|done].
  - rewrite commit_writes_lsn by done. lia.
  - intros id. destruct (Hm id) as (new & Hh & Hnew), (Hnm id) as (new' & Hh' & Hnew').
    exists (new ++ new'). unfold memory_history, commit_writes in *.
    rewrite Em, Hh', Hh, (assoc_L (++)). split; [done|].
    intros v [Hv|Hv]%elem_of_app; apply HJm; [left; by apply Hnew|right; right; by apply Hnew'].
  - intros id. destruct (Hr id) as (new & Hh & Hnew), (Hnr id) as (new' & Hh' & Hnew').
    exists (new ++ new'). unfold relationship_history, commit_writes in *.
    rewrite Er, Hh', Hh, (assoc_L (++)). split; [done|].
    intros v [Hv|Hv]%elem_of_app; apply HJr; [left; by apply Hnew|right; right; by apply Hnew'].
  - intros id l [Hin|[Hin|Hin]]%HJm; [by eapply Hom|by eapply Hpm|].
    apply event_lsn_bound in Hin. simpl in Hin. lia.
  - intros id l [Hin|[Hin|(f & t & kd & Hin)]]%HJr; [by eapply Hor|by eapply Hpr|].
    apply event_lsn_bound in Hin. simpl in Hin. lia.
Qed.

Lemma filter_split {A} (P : A → bool) l k :
  (∀ x, x ∈ l → P x = true) → (∀ x, x ∈ k → P x = false) → List.filter P (l ++ k) = l.
Proof.
  intros Hl Hk. rewrite List.filter_app.
  assert (List.filter P k = []) as ->.
  { induction k as [|x k IH]; simpl; [done|]. rewrite Hk by by left. apply IH. intros. apply Hk. by right. }
  rewrite app_nil_r. induction l as [|x l IH]; simpl; [done|].
  rewrite Hl by by left. f_equal. apply IH. intros. apply Hl. by right.
Qed.


(** The journal of a completed cycle is not cleared.  When a cycle has been tombstoned, the
    first batch of the next cycle of the key reactivates its journal with everything it owned, so
    rolling the new cycle back also removes every version the completed cycle had written. *)
Theorem completed_cycle_rolled_back `{Blake3} o clk ms rs prepared cycle_id lease T J g J' g' c j
    clk2 lease2 T2 g2 records :
  graph_ok g → room (length ms + 2 * length rs) g →
  cycle_journals J !! ol_key lease = Some j → cj_state j = Completed →
  upsert_batch_fenced_journaled o clk ms rs prepared cycle_id lease T J g = (J', g', Ok c) →
  ∃ j', get_active_cycle_journal (ol_key lease) J' = Ok (Some j') ∧ cj_cycle_id j' = cycle_id ∧
    (restore_fenced clk2 (restore j') lease2 T2 g' = (g2, Ok records) →
     ∀ id v, v ∈ memory_history g id → lsn_value (m_lsn v) ∈ owned_of (owned_memory_lsns (restore j)) id →
       v ∈ memory_history g' id ∧ v ∉ memory_history g2 id).
Proof.
  intros Hok Hroom Hj Hcomp Hrun.
  destruct (journaled_inv _ _ _ _ _ _ _ _ _ _ _ _ _ Hroom Hrun)
    as (-> & _ & (j' & Hj' & Hact & Hcyc & _) & HJm & _).
  set (ws := batch_writes o ms rs) in *.
  assert (Hws : room (length ws) g) by (eapply room_le; [apply length_batch_writes|done]).
  exists j'. split_and!; [|done|].
  - unfold get_active_cycle_journal. rewrite Hj'. simpl. by rewrite bool_decide_eq_true_2.
  - intros Hres id v Hv Hown.
    pose proof (commit_writes_steps ws g Hws) as Hsteps.
    assert (Hok' : graph_ok (commit_writes ws g)) by by eapply graph_steps_ok.
    split.
    + eapply elem_of_prefix; [done|]. by apply (graph_steps_extends _ _ Hsteps Hok).
    + destruct (restore_exact _ _ _ _ _ _ _ Hok' Hres) as [Hhm _]. rewrite Hhm.
      unfold retain_memories. rewrite elem_of_filter. intros [_ Hneg].
      apply negb_true_iff, bool_decide_eq_false in Hneg. apply Hneg.
      change (lsn_value (m_lsn v) ∈ owned_of (owned_memory_lsns (restore j')) id).
      assert (lsn_value (m_lsn v) ∈ journal_memory_lsns J' (ol_key lease) id) as Hin.
      { apply HJm. left. unfold journal_memory_lsns. by rewrite Hj. }
      unfold journal_memory_lsns in Hin. by rewrite Hj' in Hin.
Qed.

(** ** Settlement *)

Lemma adjacent_duplicate_NoDup l :
  StronglySorted by_discovery_id l → adjacent_duplicate l = false → NoDup (dr_discovery_id <$> l).
Proof.
  induction 1 as [|a l Hs IH Ha]; [intros; constructor|]. intros Hadj.
  destruct l as [|b l]; [apply NoDup_singleton|].
  cbn [adjacent_duplicate] in Hadj. apply orb_false_iff in Hadj as [Hab%String.eqb_neq Hadj].
  csimpl. apply NoDup_cons. split; [|by apply IH].
  apply Forall_cons in Ha as [Hab' _]. apply StronglySorted_inv in Hs as [_ Hb].
  intros [Heq|(x & Heq & Hx)%list_elem_of_fmap]%elem_of_cons; [done|].
  rewrite Forall_forall in Hb. specialize (Hb x Hx). unfold by_discovery_id in *.
  rewrite <-Heq in Hb. by apply Hab, (anti_symm String.le).
Qed.

#[global] Instance by_discovery_id_total : Total by_discovery_id.
Proof. intros a b. unfold by_discovery_id. apply (total String.le). Qed.
#[global] Instance by_discovery_id_trans : Transitive by_discovery_id.
Proof. intros a b c. unfold by_discovery_id. apply (transitivity (R:=String.le)). Qed.

Lemma digest_NoDup `{Sha256, DiscoveryJson} records s :
  dreams_settlement_effect_digest records = Ok s → NoDup (dr_discovery_id <$> records).
Proof.
  unfold dreams_settlement_effect_digest. destruct (adjacent_duplicate _) eqn:Ha; [done|]. intros _.
  rewrite <-(merge_sort_Permutation by_discovery_id records).
  apply adjacent_duplicate_NoDup; [|done]. apply Sorted_StronglySorted; [apply _|].
  apply Sorted_merge_sort, _.
Qed.

Lemma settle_fold records ds l invs ds' l' invs' :
  0 ≤ l → l + Z.of_nat (length records) < 2 ^ 64 →
  foldl settle_record (ds, l, invs) records = (ds', l', invs') →
  l ≤ l' ≤ l + Z.of_nat (length records) ∧
  (∃ new, invs' = invs ++ new ∧ lsn_of <$> new = seqZ (l + 1) (l' - l) ∧
     ∀ inv, inv ∈ new → ∃ r n, inv = DiscoveryAvailable r n ∧ r ∈ records) ∧
  (∀ id r, ds' !! id = Some r →
     ds !! id = Some r ∨ (ds !! id = None ∧ r ∈ records ∧ dr_discovery_id r = id)) ∧
  (∀ r, r ∈ records → is_Some (ds' !! dr_discovery_id r)) ∧
  (∀ id r, ds !! id = Some r → ds' !! id = Some r).
Proof.
  revert ds l invs. induction records as [|r records IH]; intros ds l invs Hl Hlt.
  { intros [= <- <- <-]. split_and!; [lia|simpl; lia| |by left|set_solver|done].
    exists []. rewrite app_nil_r, Z.sub_diag. split_and!; [done..|set_solver]. }
  cbn [foldl settle_record length] in *. destruct (ds !! dr_discovery_id r) as [r0|] eqn:Hr.
  - intros Hf. apply IH in Hf as (? & (new & -> & ? & Hnew) & Hin & Hall & Hkeep); [|lia..].
    split_and!; [lia|lia| | | |done].
    + exists new. split_and!; [done..|]. intros inv (r' & n & -> & ?)%Hnew. eexists _, _. split; [done|by right].
    + intros id r' [?|(?&?&?)]%Hin; [by left|right]. split_and!; [done|by right|done].
    + intros r' [->|Hr']%elem_of_cons; [|by apply Hall]. rewrite (Hkeep _ r0); [eauto|done].
  - rewrite u64_add_small by lia. intros Hf.
    apply IH in Hf as (? & (new & -> & Hlsn & Hnew) & Hin & Hall & Hkeep); [|lia..].
    split_and!; [lia|lia| | | |].
    + exists (DiscoveryAvailable r (l + 1) :: new). rewrite <-(assoc_L (++)). split_and!; [done| |].
      * csimpl. rewrite Hlsn. rewrite (seqZ_cons (l + 1) (l' - l)) by lia.
        f_equal. f_equal; lia.
      * intros inv [->|(r' & n & -> & ?)%Hnew]%elem_of_cons; eexists _, _; (split; [done|]); [by left|by right].
    + intros id r' [[[<- <-]|[? ?]]%lookup_insert_Some|([? ?]%lookup_insert_None & ? & ?)]%Hin.
      * right. split_and!; [done|by left|done].
      * by left.
      * right. split_and!; [done|by right|done].
    + intros r' [->|Hr']%elem_of_cons; [|by apply Hall].
      rewrite (Hkeep _ r); [eauto|apply lookup_insert_eq].
    + intros id r' Hid. apply Hkeep. rewrite lookup_insert_ne by congruence. done.
Qed.

(** A Dreams cycle settles once.  The first settlement persists every discovery of the cycle
    that was not there yet, publishing one event per new discovery under consecutive LSNs, closes
    the key's journal and marks the cycle; proposals and the graph's rows are untouched.  From
    then on, whatever the discoveries and the graph have become, replaying the settlement with the
    same records under any current lease of the key changes nothing, and replaying it with
    records of another digest is refused. *)
Theorem settlement_once `{Sha256, DiscoveryJson} now cycle_id records lease T J d g J' d' g' :
  room (length records) g → succeeded_cycles J !! (ol_key lease, cycle_id) = None →
  settle_dreams_cycle_fenced now cycle_id records lease T J d g = (J', d', g', Ok tt) →
  (∀ r, r ∈ records → ∃ r', discoveries d' !! dr_discovery_id r = Some r' ∧
     (r' = r ∨ discoveries d !! dr_discovery_id r = Some r' ∧ discovery_eqb r' r = true)) ∧
  (∃ new, g_feed g' = g_feed g ++ new ∧ lsn_of <$> new = seqZ (g_lsn g + 1) (g_lsn g' - g_lsn g)) ∧
  proposals d' = proposals d ∧ g_memories g' = g_memories g ∧ g_rels g' = g_rels g ∧
  get_active_cycle_journal (ol_key lease) J' = Ok None ∧
  cycle_succeeded (ol_key lease) cycle_id J' = Ok true ∧
  ∀ now2 lease2 T2 d2 g2 records2, ol_key lease2 = ol_key lease →
    check_lease_current now2 lease2 T2 = Ok tt →
    (dreams_settlement_effect_digest records2 = dreams_settlement_effect_digest records →
     settle_dreams_cycle_fenced now2 cycle_id records2 lease2 T2 J' d2 g2 = (J', d2, g2, Ok tt)) ∧
    (dreams_settlement_effect_digest records2 ≠ dreams_settlement_effect_digest records →
     settle_dreams_cycle_fenced now2 cycle_id records2 lease2 T2 J' d2 g2
       = (J', d2, g2, Err ProposalMismatch)).
Proof.
  intros [Hl Hroom] Hfresh. unfold settle_dreams_cycle_fenced at 1, settle_locked at 1.
  destruct (dreams_settlement_effect_digest records) as [digest|] eqn:Hdig; [|done].
  destruct (check_lease_current now lease T); [|done]. rewrite Hfresh.
  destruct (match cycle_journals J !! ol_key lease with Some _ => _ | None => _ end); [done|].
  destruct (existsb _ records) eqn:Hex; [done|].
  destruct (foldl settle_record (discoveries d, g_lsn g, []) records) as [[ds l] invs] eqn:Hf.
  intros [= <- <- <-].
  apply settle_fold in Hf as (Hll & (new & -> & Hlsn & Hnew) & Hin & Hall & Hkeep); [|done..].
  rewrite app_nil_l. destruct (publish_fields new (set_lsn l g)) as (Em & Er & El & Ef).
  rewrite Em, Er, El, Ef. simpl. split_and!; try done.
  - intros r Hr. destruct (Hall r Hr) as [r' Hr']. exists r'. split; [done|].
    apply not_true_iff_false in Hex.
    destruct (Hin _ _ Hr') as [Hold|(_ & Hr2 & Hid)].
    + right. split; [done|]. apply not_false_iff_true. intros Hne. apply Hex, existsb_elem.
      exists r. split; [done|]. rewrite Hold, Hne. simpl. apply orb_true_r.
    + left. apply digest_NoDup in Hdig. by apply (NoDup_fmap_elem dr_discovery_id records).
  - by exists new.
  - unfold get_active_cycle_journal. simpl. by rewrite lookup_insert_eq.
  - unfold cycle_succeeded. simpl. rewrite lookup_insert_eq. by rewrite bool_decide_eq_true_2.
  - intros now2 lease2 T2 d2 g2 records2 Hk Hc. unfold settle_dreams_cycle_fenced, settle_locked.
    rewrite Hc, Hk. simpl. rewrite lookup_insert_eq. split.
    + intros ->. by rewrite String.eqb_refl.
    + destruct (dreams_settlement_effect_digest records2) as [digest2|e] eqn:Hd2.
      * intros Hne. destruct (String.eqb_spec digest digest2); [congruence|done].
      * intros _. unfold dreams_settlement_effect_digest in Hd2.
        destruct (adjacent_duplicate _); [by injection Hd2 as <-|done].
Qed.
