(* ===== verification/Storage.v ===== *)
(** * The store: every mutation, its gate and what it publishes

    The components of the in-memory backend put together.  [Store] is [InMemoryInner] with the
    shared LSN and feed, [Op] lists the mutations of [impl Storage for InMemoryStorage], [exec]
    runs one of them to completion, and [gate] is its critical section under [mutation_gate]: the
    state it leaves and the invalidations it still has to publish once the gate is released.
    [sys_step] interleaves critical sections and publications of concurrent callers. *)

From S2P Require Import Prelude Ids Kernel Packs Ontology StorageTypes Graph Reads Leases.
From S2P Require Import Ingest Governed Cycles.

(** ** State *)

(* SRC crates/exocortex-storage/src/in_memory.rs 24-93 InMemoryInner *)
Record Store := mkStore {
  graph : Graph;
  reads : ReadState;
  lease_table : LeaseTable;
  ingest : IngestState;
  governed : Governed;
  journals : Journals;
}.

(* SRC crates/exocortex-storage/src/in_memory.rs 164-221 build *)
Definition build : Store :=
  mkStore empty_graph read_state0 no_leases no_ingest no_governed no_journals.

(* SRC crates/exocortex-storage/src/in_memory.rs 145-162 with_recognized_ontology_history *)
Definition with_recognized_ontology_history (o : Ontology) (history : list (list Z)) : list (list Z) :=
  foldl (λ recognized fp, if bool_decide (fp ∈ recognized) then recognized else recognized ++ [fp])
    [fingerprint o] history.

(* SRC crates/exocortex-storage/src/in_memory.rs 2326-2332 recognized_ontology_fingerprints *)
Definition recognized_ontology_fingerprints (o : Ontology) (recognized : list (list Z)) : list (list Z) :=
  match recognized with [] => [fingerprint o] | _ => recognized end.

Definition put_graph (g : Graph) (st : Store) : Store :=
  mkStore g (reads st) (lease_table st) (ingest st) (governed st) (journals st).
Definition put_leases (T : LeaseTable) (st : Store) : Store :=
  mkStore (graph st) (reads st) T (ingest st) (governed st) (journals st).
Definition put_ingest (IS : IngestState) (st : Store) : Store :=
  mkStore (graph st) (reads st) (lease_table st) IS (governed st) (journals st).
Definition put_governed (d : Governed) (st : Store) : Store :=
  mkStore (graph st) (reads st) (lease_table st) (ingest st) d (journals st).
Definition put_journals (J : Journals) (st : Store) : Store :=
  mkStore (graph st) (reads st) (lease_table st) (ingest st) (governed st) J.

(** ** Mutations *)

Inductive Op :=
  | UpsertMemory (m : Memory)
  | UpsertBatch (ms : list Memory) (rs : list Relationship)
  | UpsertBatchAudited (ms : list Memory) (rs : list Relationship) (audit : AuditEvent)
  | UpsertBatchOnce (key : string) (ms : list Memory) (rs : list Relationship)
  | DeleteMemory (id : MemoryId)
  | UpsertRelationship (r : Relationship)
  | DeleteRelationship (id : RelationshipId)
  | AppendAudit (audit : AuditEvent)
  | DeleteRelationshipAudited (id : RelationshipId) (audit : AuditEvent)
  | CommitIngest (key : IngestBatchKey) (ms : list Memory) (rs : list Relationship) (accepted : Z)
  | CommitIngestEffect (key : IngestBatchKey) (ms : list Memory) (rs : list Relationship)
      (accepted : Z) (effect : PostIngestEffect)
  | ClaimEffect (token : string) (lease_ms : Z)
  | RenewEffect (id token : string) (lease_ms : Z)
  | AcknowledgeEffect (id token : string)
  | CompleteCleanup (id : string)
  | Promote (m : Memory) (audit : AuditEvent)
  | Propose (p : DiscoveryProposal)
  | StoreDiscovery (r : DiscoveryRecord)
  | StoreDiscoveryFenced (r : DiscoveryRecord) (lease : OwnerLease)
  | Accept (a : DiscoveryAcceptance)
  | Acquire (key : LeaseKey) (ttl : Z)
  | Renew (lease : OwnerLease)
  | Release (lease : OwnerLease)
  | FencedBatch (ms : list Memory) (rs : list Relationship) (lease : OwnerLease)
  | JournaledBatch (ms : list Memory) (rs : list Relationship) (prepared : FencedRestore)
      (cycle_id : string) (lease : OwnerLease)
  | CompleteJournal (cycle_id : string) (lease : OwnerLease)
  | Settle (cycle_id : string) (records : list DiscoveryRecord) (lease : OwnerLease)
  | DeleteMemoryFenced (id : MemoryId) (lease : OwnerLease)
  | Rollback (rst : FencedRestore) (lease : OwnerLease).

Section store.
Context `{Blake3, HashOrder, Chrono, Sha256, DiscoveryJson} (o : Ontology).

(** One mutation run to completion: [clk] are the call's readings of the wall clock and [now]
    its reading of the monotonic clock. *)
Definition exec (clk : nat → DateTime) (now : Z) (op : Op) (st : Store) : Store :=
  let g := graph st in
  let IS := ingest st in
  let d := governed st in
  let J := journals st in
  let T := lease_table st in
  match op with
  | UpsertMemory m => put_graph (upsert_memory clk m g).1 st
  | UpsertBatch ms rs => put_graph (upsert_batch o clk ms rs g).1 st
  | UpsertBatchAudited ms rs audit =>
      let '(d, g, _) := upsert_batch_audited o clk ms rs audit d g in put_graph g (put_governed d st)
  | UpsertBatchOnce key ms rs =>
      let '(IS, g, _) := upsert_batch_once o clk key ms rs IS g in put_graph g (put_ingest IS st)
  | DeleteMemory id => put_graph (delete_memory clk id g).1 st
  | UpsertRelationship r => put_graph (upsert_relationship o clk r g).1 st
  | DeleteRelationship id => put_graph (delete_relationship clk id g).1 st
  | AppendAudit audit =>
      let '(d, g, _) := append_audit clk audit d g in put_graph g (put_governed d st)
  | DeleteRelationshipAudited id audit =>
      let '(d, g, _) := delete_relationship_audited clk id audit d g in
      put_graph g (put_governed d st)
  | CommitIngest key ms rs n =>
      let '(IS, g, _) := commit_ingest_batch o clk key ms rs n IS g in put_graph g (put_ingest IS st)
  | CommitIngestEffect key ms rs n effect =>
      let '(IS, g, _) := commit_ingest_batch_with_effect o clk key ms rs n effect IS g in
      put_graph g (put_ingest IS st)
  | ClaimEffect token ms => put_ingest (claim_ingest_effect now token ms IS).1 st
  | RenewEffect id token ms => put_ingest (renew_ingest_effect_claim now id token ms IS).1 st
  | AcknowledgeEffect id token => put_ingest (acknowledge_ingest_effect now id token IS).1 st
  | CompleteCleanup id => put_ingest (complete_ingest_effect_cleanup id IS).1 st
  | Promote m audit =>
      let '(d, g, _) := promote_memory_visibility_audited clk m audit d g in
      put_graph g (put_governed d st)
  | Propose p => put_governed (create_discovery_proposal p d).1 st
  | StoreDiscovery r =>
      let '(d, g, _) := store_discovery r d g in put_graph g (put_governed d st)
  | StoreDiscoveryFenced r lease =>
      let '(d, g, _) := store_discovery_fenced (clk 0%nat) r lease T d g in
      put_graph g (put_governed d st)
  | Accept a => let '(d, g, _) := accept_discovery o clk a d g in put_graph g (put_governed d st)
  | Acquire key ttl => put_leases (acquire_lease (clk 0%nat) key ttl T).1 st
  | Renew lease => put_leases (renew_lease (clk 0%nat) lease T).1 st
  | Release lease => put_leases (release_lease lease T).1 st
  | FencedBatch ms rs lease => put_graph (upsert_batch_fenced o clk ms rs lease T g).1 st
  | JournaledBatch ms rs prepared cycle_id lease =>
      let '(J, g, _) := upsert_batch_fenced_journaled o clk ms rs prepared cycle_id lease T J g in
      put_graph g (put_journals J st)
  | CompleteJournal cycle_id lease =>
      put_journals (complete_cycle_journal_fenced (clk 0%nat) cycle_id lease T J).1 st
  | Settle cycle_id records lease =>
      let '(J, d, g, _) := settle_dreams_cycle_fenced (clk 0%nat) cycle_id records lease T J d g in
      put_graph g (put_governed d (put_journals J st))
  | DeleteMemoryFenced id lease => put_graph (delete_memory_fenced clk id lease T g).1 st
  | Rollback rst lease => put_graph (restore_fenced clk rst lease T g).1 st
  end.

(** How many LSNs a mutation may take. *)
Definition cost (op : Op) : nat :=
  match op with
  | UpsertBatch ms rs | UpsertBatchAudited ms rs _ | UpsertBatchOnce _ ms rs
  | CommitIngest _ ms rs _ | CommitIngestEffect _ ms rs _ _ | FencedBatch ms rs _
  | JournaledBatch ms rs _ _ _ => length ms + 2 * length rs
  | UpsertRelationship _ | Accept _ => 2
  | Settle _ records _ => length records
  | Rollback rst _ => size (owned_memory_lsns rst) + size (owned_relationship_lsns rst)
  | _ => 1
  end.

(** The critical section of a mutation and what it publishes after releasing the gate. *)
Definition gate (clk : nat → DateTime) (now : Z) (op : Op) (st : Store)
    : Store * list Invalidation :=
  let g := graph st in
  let d := governed st in
  let J := journals st in
  let T := lease_table st in
  match op with
  | UpsertBatch ms rs =>
      match upsert_batch_locked o clk ms rs g with
      | (g, Ok (_, invs)) => (put_graph g st, invs)
      | (g, Err _) => (put_graph g st, [])
      end
  | UpsertBatchAudited ms rs audit =>
      match upsert_batch_locked o clk ms rs g with
      | (g, Ok (records, invs)) =>
          let lsn := match last records with Some r => cr_lsn r | None => 0 end in
          (put_graph g (put_governed (push_audit (audit_value audit lsn) d) st), invs)
      | (g, Err _) => (put_graph g st, [])
      end
  | UpsertBatchOnce key ms rs =>
      if bool_decide (key ∈ governed_imports (ingest st)) then (st, [])
      else match upsert_batch_locked o clk ms rs g with
      | (g, Ok (_, invs)) =>
          (put_graph g (put_ingest (set_imports (λ imports, {[key]} ∪ imports) (ingest st)) st), invs)
      | (g, Err _) => (put_graph g st, [])
      end
  | DeleteMemory id =>
      let '(g, record) := delete_memory_locked (clk 0%nat) id g in
      (put_graph g st, [MemoryDeleted id (cr_lsn record)])
  | CommitIngest key ms rs n =>
      match commit_ingest_locked o clk key ms rs n None (ingest st) g with
      | (IS, g, Ok (_, invs)) => (put_graph g (put_ingest IS st), invs)
      | (IS, g, Err _) => (put_graph g (put_ingest IS st), [])
      end
  | CommitIngestEffect key ms rs n effect =>
      if fail_next_ingest_commit (ingest st)
      then (put_ingest (set_commit_fault false (ingest st)) st, [])
      else match commit_ingest_locked o clk key ms rs n (Some effect) (ingest st) g with
      | (IS, g, Ok (_, invs)) => (put_graph g (put_ingest IS st), invs)
      | (IS, g, Err _) => (put_graph g (put_ingest IS st), [])
      end
  | Promote m audit =>
      match promote_locked (clk 0%nat) m audit d g with
      | (d, g, Ok (_, inv)) => (put_graph g (put_governed d st), [inv])
      | (d, g, Err _) => (put_graph g (put_governed d st), [])
      end
  | StoreDiscovery r =>
      match store_discovery_locked r d g with
      | (d, g, Ok (Some lsn)) => (put_graph g (put_governed d st), [DiscoveryAvailable r lsn])
      | (d, g, _) => (put_graph g (put_governed d st), [])
      end
  | StoreDiscoveryFenced r lease =>
      match check_lease_current (clk 0%nat) lease T with
      | Err _ => (st, [])
      | Ok _ =>
          match store_discovery_locked r d g with
          | (d, g, Ok (Some lsn)) => (put_graph g (put_governed d st), [DiscoveryAvailable r lsn])
          | (d, g, _) => (put_graph g (put_governed d st), [])
          end
      end
  | Accept a =>
      match accept_discovery_locked o (clk 0%nat) a d g with
      | (d, g, Ok (_, invs)) => (put_graph g (put_governed d st), invs)
      | (d, g, Err _) => (put_graph g (put_governed d st), [])
      end
  | FencedBatch ms rs lease =>
      match check_lease_current (clk 0%nat) lease T with
      | Err _ => (st, [])
      | Ok _ =>
          match upsert_batch_locked o (λ i, clk (S i)) ms rs g with
          | (g, Ok (_, invs)) => (put_graph g st, invs)
          | (g, Err _) => (put_graph g st, [])
          end
      end
  | Settle cycle_id records lease =>
      match dreams_settlement_effect_digest records with
      | Err _ => (st, [])
      | Ok digest =>
          match settle_locked (clk 0%nat) cycle_id digest records lease T J d g with
          | (J, d, g, Ok invs) => (put_graph g (put_governed d (put_journals J st)), invs)
          | (J, d, g, Err _) => (put_graph g (put_governed d (put_journals J st)), [])
          end
      end
  | DeleteMemoryFenced id lease =>
      match check_lease_current (clk 0%nat) lease T with
      | Err _ => (st, [])
      | Ok _ =>
          let '(g, record) := delete_memory_locked (clk 1%nat) id g in
          (put_graph g st, [MemoryDeleted id (cr_lsn record)])
      end
  | Rollback rst lease =>
      match check_lease_current (clk 0%nat) lease T with
      | Err _ => (st, [])
      | Ok _ =>
          let '(g, _, invs) := restore_locked (λ i, clk (S i)) rst g in (put_graph g st, invs)
      end
  | JournaledBatch ms rs prepared cycle_id lease =>
      let '(J', g', r) := upsert_batch_fenced_journaled o clk ms rs prepared cycle_id lease T J g in
      match r with
      | Ok _ =>
          match upsert_batch_locked o (λ i, clk (S i)) ms rs g with
          | (g, Ok (_, invs)) => (put_graph g (put_journals J' st), invs)
          | (g, Err _) => (put_graph g (put_journals J' st), [])
          end
      | Err _ => (st, [])
      end
  (* the remaining mutations hold the gate to the end, publication included *)
  | _ => (exec clk now op st, [])
  end.

Lemma put_graph_same st : put_graph (graph st) st = st.
Proof. by destruct st. Qed.

Lemma upsert_batch_locked_err clk ms rs g g' e :
  upsert_batch_locked o clk ms rs g = (g', Err e) → g' = g.
Proof. unfold upsert_batch_locked. destruct (List.find _ rs); [by intros [= <-]|done]. Qed.

(** A mutation is its critical section followed by its publications. *)
Lemma exec_gate clk now op st :
  exec clk now op st =
  let '(st', invs) := gate clk now op st in put_graph (publish invs (graph st')) st'.
Proof.
  destruct st as [g R T IS d J]. destruct op; try (symmetry; apply put_graph_same);
    unfold exec, gate; cbn [graph reads lease_table ingest governed journals]; cbv zeta.
  - unfold upsert_batch. by destruct (upsert_batch_locked o clk ms rs g) as [g' [[? ?]|?]].
  - unfold upsert_batch_audited. destruct (upsert_batch_locked o clk ms rs g) as [g' [[? ?]|?]]; done.
  - unfold upsert_batch_once. case_bool_decide; [done|].
    by destruct (upsert_batch_locked o clk ms rs g) as [g' [[? ?]|?]].
  - unfold delete_memory. by destruct (delete_memory_locked (clk 0%nat) id g).
  - unfold commit_ingest_batch.
    by destruct (commit_ingest_locked o clk key ms rs accepted None IS g) as [[? ?] [[? ?]|?]].
  - unfold commit_ingest_batch_with_effect. destruct (fail_next_ingest_commit IS); [done|].
    by destruct (commit_ingest_locked o clk key ms rs accepted (Some effect) IS g) as [[? ?] [[? ?]|?]].
  - unfold promote_memory_visibility_audited.
    destruct (promote_locked (clk 0%nat) m audit d g) as [[? ?] [[? inv]|?]] eqn:Hp; [|done].
    unfold promote_locked in Hp. destruct (current _ _); [|done]. by destruct (_ <? _); simplify_eq.
  - unfold store_discovery.
    by destruct (store_discovery_locked r d g) as [[? ?] [[?|]|?]].
  - unfold store_discovery_fenced. destruct (check_lease_current _ _ _); [|done].
    by destruct (store_discovery_locked r d g) as [[? ?] [[?|]|?]].
  - unfold accept_discovery.
    by destruct (accept_discovery_locked o (clk 0%nat) a d g) as [[? ?] [[? ?]|?]].
  - unfold upsert_batch_fenced. destruct (check_lease_current _ _ _); [|done].
    by destruct (upsert_batch_locked o _ ms rs g) as [? [[? ?]|?]].
  - destruct (upsert_batch_fenced_journaled o clk ms rs prepared cycle_id lease T J g)
      as [[J' g'] r] eqn:Hj. revert Hj. unfold upsert_batch_fenced_journaled.
    destruct (check_lease_current _ _ _); [|by intros [= <- <- <-]].
    destruct (match cycle_journals J !! ol_key lease with Some _ => _ | None => _ end);
      [by intros [= <- <- <-]|].
    destruct (upsert_batch_locked o _ ms rs g) as [g2 [[? ?]|?]] eqn:Hb; [by intros [= <- <- <-]|].
    apply upsert_batch_locked_err in Hb as ->. by intros [= <- <- <-].
  - unfold settle_dreams_cycle_fenced. destruct (dreams_settlement_effect_digest records); [|done].
    by destruct (settle_locked _ _ _ _ _ _ _ _ _) as [[[? ?] ?] [?|?]].
  - unfold delete_memory_fenced. destruct (check_lease_current _ _ _); [|done].
    by destruct (delete_memory_locked (clk 1%nat) id g).
  - unfold restore_fenced. destruct (check_lease_current _ _ _); [|done].
    by destruct (restore_locked _ rst g) as [[? ?] ?].
Qed.
End store.
