(* ===== verification/Interleaving.v ===== *)
(** * Reachability under concurrent callers

    A call publishes part of its invalidations after it has released [mutation_gate], so the
    endpoint index and the change feed lag behind the tables while calls overlap.  [gstep] breaks
    every critical section into elementary graph steps, [sys_step] interleaves the critical
    sections and the publications of any number of callers, and the theorems hold in every state
    such a system reaches. *)

From S2P Require Import Prelude Ids Kernel Packs Ontology StorageTypes Graph Reads Leases.
From S2P Require Import Ingest Governed Cycles Storage.

(** ** Elementary steps *)

(** The event [inv] announces the append of [w] to [g]. *)
Definition announces (g : Graph) (w : Write) (inv : Invalidation) : Prop :=
  match w with
  | WMemory m =>
      inv = event_of (g_lsn g + 1) w ∨ inv = MemoryDeleted (m_id m) (g_lsn g + 1)
  | WRelationship r =>
      inv = event_of (g_lsn g + 1) w ∨
      (inv = RelationshipDeleted (r_id r) (g_lsn g + 1) ∧
       ∃ r0, r0 ∈ relationship_history g (r_id r) ∧ r_id r0 = r_id r ∧
             r_from r0 = r_from r ∧ r_to r0 = r_to r)
  end.

(** [g'] keeps a selection of the versions of every row of [g]. *)
Record narrows (g g' : Graph) : Prop := {
  nw_memories : ∃ P, ∀ id, memory_history g' id = List.filter (P id) (memory_history g id);
  nw_rels : ∃ P, ∀ id, relationship_history g' id = List.filter (P id) (relationship_history g id);
  nw_no_empty : no_empty (g_memories g') ∧ no_empty (g_rels g');
  nw_lsn : g_lsn g ≤ g_lsn g';
  nw_index : rels_by_node g' = rels_by_node g;
  nw_feed : g_feed g' = g_feed g;
}.

(** One elementary step of a call: the graph and what the call has still to publish.  Only a
    rollback narrows. *)
Inductive gstep (rollback : bool) : Graph * list Invalidation → Graph * list Invalidation → Prop :=
  | gs_write w inv g out :
      room 1 g → announces g w inv → gstep rollback (g, out) (append w g, out ++ [inv])
  | gs_tick g out : room 1 g → gstep rollback (g, out) (set_lsn (g_lsn g + 1) g, out)
  | gs_event inv g out : gstep rollback (g, out) (g, out ++ [inv])
  | gs_publish inv g out : gstep rollback (g, inv :: out) (publish1 inv g, out)
  | gs_narrow g g' out : rollback = true → narrows g g' → gstep rollback (g, out) (g', out).

Section sequences.
Context (b : bool).
Implicit Types (g : Graph) (out : list Invalidation).

Lemma gs_writes ws g out :
  room (length ws) g →
  rtc (gstep b) (g, out) (append_all ws g, out ++ events_from (g_lsn g) ws).
Proof.
  revert g out. induction ws as [|w ws IH]; intros g out [Hl Hr]; [by rewrite app_nil_r|].
  simpl in Hr. rewrite events_from_cons, cons_middle, (assoc_L (++)).
  eapply rtc_l; [apply (gs_write b w (event_of (g_lsn g + 1) w)); [split; lia|by destruct w; left]|].
  change (append_all (w :: ws) g) with (append_all ws (append w g)).
  rewrite <-(append_lsn w g) at 3 by (split; lia). apply IH.
  split; rewrite append_lsn by (split; lia); lia.
Qed.

Lemma gs_publishes invs g out : rtc (gstep b) (g, invs ++ out) (publish invs g, out).
Proof.
  revert g. induction invs as [|inv invs IH]; intros g; [done|].
  eapply rtc_l; [apply gs_publish|]. apply IH.
Qed.

Lemma gs_commit ws g : room (length ws) g → rtc (gstep b) (g, []) (commit_writes ws g, []).
Proof.
  intros Hr. etrans; [by apply (gs_writes ws g [])|]. simpl.
  rewrite <-(app_nil_r (events_from (g_lsn g) ws)) at 1. apply gs_publishes.
Qed.

Lemma gs_events invs g out : rtc (gstep b) (g, out) (g, out ++ invs).
Proof.
  revert out. induction invs as [|inv invs IH]; intros out; [by rewrite app_nil_r|].
  eapply rtc_l; [apply gs_event|].
  replace (out ++ inv :: invs) with ((out ++ [inv]) ++ invs) by by rewrite <-(assoc_L (++)).
  apply IH.
Qed.

Lemma gs_send inv g : publish1 inv g = send inv g → rtc (gstep b) (g, [inv]) (send inv g, []).
Proof. intros <-. apply rtc_once, gs_publish. Qed.

Lemma gs_delete_memory now id g :
  graph_ok g → room 1 g →
  let '(g', record) := delete_memory_locked now id g in
  rtc (gstep b) (g, []) (g', [MemoryDeleted id (cr_lsn record)]).
Proof.
  intros Hok Hr. rewrite delete_memory_locked_spec by done. cbn [cr_lsn commit].
  destruct (current (g_memories g) id) as [m|] eqn:Hc.
  - apply (current_ok (g_lsn g)) in Hc as [Hid _]; [|apply Hok]. simpl in Hid.
    apply rtc_once. apply (gs_write b _ _ g []); [done|]. right.
    destruct (m_close_fields now (new_backend (g_lsn g + 1)) m) as (-> & _). by rewrite Hid.
  - eapply rtc_l; [by apply gs_tick|]. apply (gs_events [_] _ []).
Qed.

Lemma gs_close now id g g' :
  graph_ok g → room 1 g →
  close_relationship now (g_lsn g + 1) id (set_lsn (g_lsn g + 1) g) = Some g' →
  rtc (gstep b) (g, []) (send (RelationshipDeleted id (g_lsn g + 1)) g', []).
Proof.
  intros Hok Hr. rewrite close_relationship_spec by done.
  destruct (current (g_rels g) id) as [r|] eqn:Hc; [|done]. case_bool_decide; [|done].
  intros [= <-]. etrans; [|by apply gs_send]. apply rtc_once. apply (gs_write b _ _ g []); [done|].
  right. assert (r ∈ relationship_history g id) as Hin.
  { unfold relationship_history. apply last_Some_elem_of. by rewrite <-current_versions. }
  apply (current_ok (g_lsn g)) in Hc as [Hid _]; [|apply Hok]. simpl in Hid.
  destruct (r_close_fields now (new_backend (g_lsn g + 1)) r) as (-> & _). rewrite Hid.
  split; [done|]. exists r. split_and!; [done|done|by destruct r|by destruct r].
Qed.
End sequences.

(** ** What the steps preserve *)

Lemma StronglySorted_filter_fmap {A} (f : A → Z) (P : A → bool) l :
  StronglySorted Z.lt (f <$> l) → StronglySorted Z.lt (f <$> List.filter P l).
Proof.
  induction l as [|x l IH]; [done|]. csimpl. intros [Hs Hx]%StronglySorted_inv.
  destruct (P x); csimpl; [|by apply IH]. constructor; [by apply IH|].
  rewrite Forall_forall in *. intros z (y & -> & [Hy _]%elem_of_filter)%list_elem_of_fmap.
  apply Hx. by apply list_elem_of_fmap_2.
Qed.

Lemma table_ok_filter {K A} `{Countable K, !Row K A} top top' (t t' : gmap K (list A)) P :
  table_ok top t → top ≤ top' → no_empty t' →
  (∀ k, versions t' k = List.filter (P k) (versions t k)) → table_ok top' t'.
Proof.
  intros Hok Hle Hne Hv k h Hk. assert (Hh : h = List.filter (P k) (versions t k)).
  { rewrite <-Hv. unfold versions. by rewrite Hk. }
  split.
  - by eapply Hne.
  - intros x. rewrite Hh. intros [Hx _]%elem_of_filter.
    apply (versions_ok top) in Hx; [naive_solver lia|done].
  - rewrite Hh. apply StronglySorted_filter_fmap. unfold versions.
    destruct (t !! k) as [h0|] eqn:Hk0; simpl; [|constructor]. apply (Hok _ _ Hk0).
Qed.

Lemma narrows_ok g g' : narrows g g' → graph_ok g → graph_ok g'.
Proof.
  intros [[P HP] [Q HQ] [Hne1 Hne2] Hl _ _] [H0 Hm Hr Hu]. split.
  - lia.
  - by apply (table_ok_filter (g_lsn g) _ (g_memories g) _ P).
  - by apply (table_ok_filter (g_lsn g) _ (g_rels g) _ Q).
  - assert (Hsub : ∀ s l, carries_lsn g' s l → carries_lsn g s l).
    { intros [id|id] l; simpl; intros (x & Hx & Hl'); exists x; (split; [|done]).
      - fold (memory_history g' id) in Hx. rewrite HP in Hx. by apply elem_of_filter in Hx as [? _].
      - fold (relationship_history g' id) in Hx. rewrite HQ in Hx. by apply elem_of_filter in Hx as [? _]. }
    intros s s' l Hs Hs'. by eapply Hu; apply Hsub.
Qed.

Lemma gstep_ok b p q : gstep b p q → graph_ok p.1 → graph_ok q.1.
Proof.
  destruct 1 as [w inv g out [? ?] _|g out [? ?]|inv g out|inv g out|g g' out _ Hn]; simpl; intros Hok.
  - apply graph_ok_append; [done|lia].
  - rewrite <-(u64_add_small (g_lsn g) 1) by lia. apply graph_ok_tick; [done|lia].
  - done.
  - by apply graph_ok_publish1.
  - by eapply narrows_ok.
Qed.

Lemma gsteps_ok b p q : rtc (gstep b) p q → graph_ok p.1 → graph_ok q.1.
Proof. induction 1; eauto using gstep_ok. Qed.

(** Without a rollback the elementary steps are steps of the append-only log. *)
Lemma gstep_graph_step p q : gstep false p q → rtc graph_step p.1 q.1.
Proof.
  destruct 1 as [w inv g out Hr _|g out Hr|inv g out|inv g out|]; simpl; try done.
  - by apply step_append_room.
  - by apply step_tick_room.
  - apply rtc_once, step_publish.
Qed.

Lemma gsteps_graph_steps p q : rtc (gstep false) p q → rtc graph_step p.1 q.1.
Proof.
  induction 1 as [|p p' q Hs _ IH]; [done|]. etrans; [by apply gstep_graph_step|done].
Qed.

(** Every edge is indexed, or the event that will index it is pending. *)
Definition covers (pending : list Invalidation) (g : Graph) : Prop :=
  ∀ id r, r ∈ relationship_history g id →
    indexed r g ∨ ∃ k l, RelationshipUpserted (r_id r) (r_from r) (r_to r) k l ∈ pending.

(** Every version in the tables is announced under its LSN, in the feed or pending. *)
Definition announced (pending : list Invalidation) (g : Graph) : Prop :=
  (∀ id v, v ∈ memory_history g id → ∃ inv, inv ∈ g_feed g ++ pending ∧
     (inv = MemoryUpserted id (lsn_value (m_lsn v)) ∨ inv = MemoryDeleted id (lsn_value (m_lsn v)))) ∧
  (∀ id v, v ∈ relationship_history g id → ∃ inv, inv ∈ g_feed g ++ pending ∧
     (inv = RelationshipUpserted id (r_from v) (r_to v) (r_kind v) (lsn_value (r_lsn v)) ∨
      inv = RelationshipDeleted id (lsn_value (r_lsn v)))).

Lemma index_insert_lookup node id m n :
  ∀ x, (∃ ids, m !! n = Some ids ∧ x ∈ ids) ∨ (n = node ∧ x = id) →
       ∃ ids, index_insert node id m !! n = Some ids ∧ x ∈ ids.
Proof.
  intros x Hx. unfold index_insert. destruct (decide (node = n)) as [->|Hne].
  - rewrite lookup_insert_eq. eexists. split; [done|].
    destruct Hx as [(ids & -> & Hin)|[_ ->]]; set_solver.
  - rewrite lookup_insert_ne by done. naive_solver.
Qed.

Lemma indexed_publish1 inv r g : indexed r g → indexed r (publish1 inv g).
Proof.
  intros Hi node Hn. specialize (Hi node Hn). destruct inv; try exact Hi.
  apply index_insert_lookup. left. apply index_insert_lookup. by left.
Qed.

Lemma publish1_indexes id f t k l r g :
  r_id r = id → r_from r = f → r_to r = t → indexed r (publish1 (RelationshipUpserted id f t k l) g).
Proof.
  intros <- <- <- node [->| ->].
  - apply index_insert_lookup. left. apply index_insert_lookup. by right.
  - apply index_insert_lookup. by right.
Qed.

Lemma append_index w g : rels_by_node (append w g) = rels_by_node g.
Proof. by destruct w. Qed.

Lemma indexed_same r g g' : rels_by_node g' = rels_by_node g → indexed r g → indexed r g'.
Proof. unfold indexed. by intros ->. Qed.

Lemma append_history w g :
  room 1 g →
  (∀ id, memory_history (append w g) id = memory_history g id ++
     match w with
     | WMemory m => if decide (m_id m = id) then [m_set_lsn (new_backend (g_lsn g + 1)) m] else []
     | WRelationship _ => []
     end) ∧
  (∀ id, relationship_history (append w g) id = relationship_history g id ++
     match w with
     | WRelationship r => if decide (r_id r = id) then [r_set_lsn (new_backend (g_lsn g + 1)) r] else []
     | WMemory _ => []
     end).
Proof.
  intros [? ?]. unfold append, memory_history, relationship_history. rewrite u64_add_small by lia.
  destruct w; simpl; split; intros id; rewrite ?app_nil_r; try done; apply versions_entry_push.
Qed.

Lemma r_stamp_fields l r :
  r_id (r_set_lsn l r) = r_id r ∧ r_from (r_set_lsn l r) = r_from r ∧
  r_to (r_set_lsn l r) = r_to r ∧ r_kind (r_set_lsn l r) = r_kind r.
Proof. by destruct r. Qed.

Lemma gstep_covers b g out g' out' rest :
  gstep b (g, out) (g', out') → covers (out ++ rest) g → covers (out' ++ rest) g'.
Proof.
  intros Hs Hc. inversion Hs as [w inv ? ? Hr Ha|? ? Hr|inv ? ?|inv ? ?|? ? ? _ Hn]; subst; intros id r.
  - destruct (append_history w g Hr) as [_ ->]. intros [Hin|Hin]%elem_of_app.
    + destruct (Hc id r Hin) as [Hi|(k & l & Hp)].
      * left. by apply (indexed_same r g); [apply append_index|].
      * right. exists k, l. set_solver.
    + destruct w as [m|r0]; [set_solver|]. case_decide as Hid; [|set_solver].
      apply list_elem_of_singleton in Hin as ->.
      destruct (r_stamp_fields (new_backend (g_lsn g + 1)) r0) as (Ei & Ef & Et & Ek).
      destruct Ha as [->|(-> & r1 & Hr1 & Hi1 & Hf1 & Ht1)].
      * right. simpl. rewrite Ei, Ef, Et. exists (r_kind r0), (g_lsn g + 1). set_solver.
      * destruct (Hc _ r1 Hr1) as [Hi|(k & l & Hp)].
        -- left. intros node. rewrite Ei, Ef, Et, append_index, <-Hi1, <-Hf1, <-Ht1. apply Hi.
        -- right. rewrite Ei, Ef, Et, <-Hi1, <-Hf1, <-Ht1. exists k, l. set_solver.
  - apply Hc.
  - intros Hin. destruct (Hc id r Hin) as [Hi|(k & l & Hp)]; [by left|right]. exists k, l. set_solver.
  - destruct (publish1_fields inv g) as (_ & E2 & _). unfold relationship_history. rewrite E2.
    intros Hin. destruct (Hc id r Hin) as [Hi|(k & l & [Heq|Hp]%elem_of_cons)].
    + left. by apply indexed_publish1.
    + left. subst inv. by apply publish1_indexes.
    + right. by exists k, l.
  - destruct (nw_rels _ _ Hn) as [Q HQ]. rewrite HQ. intros [Hin _]%elem_of_filter.
    destruct (Hc id r Hin) as [Hi|?]; [|by right]. left.
    apply (indexed_same r g); [apply Hn|done].
Qed.

Lemma announced_mono p p' g g' :
  g_memories g' = g_memories g → g_rels g' = g_rels g →
  (∀ inv, inv ∈ g_feed g ++ p → inv ∈ g_feed g' ++ p') → announced p g → announced p' g'.
Proof.
  intros Em Er Hsub [Hm Hr]. unfold announced, memory_history, relationship_history.
  rewrite Em, Er. split.
  - intros id v Hv. destruct (Hm id v Hv) as (inv & ? & ?). eauto.
  - intros id v Hv. destruct (Hr id v Hv) as (inv & ? & ?). eauto.
Qed.

Lemma gstep_announced b g out g' out' rest :
  gstep b (g, out) (g', out') → graph_ok g → announced (out ++ rest) g → announced (out' ++ rest) g'.
Proof.
  intros Hs Hok Ha0. inversion Hs as [w inv ? ? Hr Ha|? ? Hr|inv ? ?|inv ? ?|? ? ? _ Hn]; subst.
  - destruct (append_history w g Hr) as [Hhm Hhr]. destruct Ha0 as [Hm Hrel].
    assert (Hf : g_feed (append w g) = g_feed g) by by destruct w.
    assert (Hold : ∀ i, i ∈ g_feed g ++ out ++ rest → i ∈ g_feed g ++ (out ++ [inv]) ++ rest)
      by (intros i; rewrite !elem_of_app; tauto).
    unfold announced. rewrite Hf. split; intros id v.
    + rewrite Hhm. intros [Hin|Hin]%elem_of_app.
      * destruct (Hm id v Hin) as (i & Hi & ?). exists i. split; [by apply Hold|done].
      * destruct w as [m|r0]; [|set_solver]. case_decide as Hid; [|set_solver].
        apply list_elem_of_singleton in Hin as ->. rewrite m_lsn_stamp. simpl.
        exists inv. split; [set_solver|]. by destruct Ha as [->| ->]; simpl; rewrite Hid; [left|right].
    + rewrite Hhr. intros [Hin|Hin]%elem_of_app.
      * destruct (Hrel id v Hin) as (i & Hi & ?). exists i. split; [by apply Hold|done].
      * destruct w as [m|r0]; [set_solver|]. case_decide as Hid; [|set_solver].
        apply list_elem_of_singleton in Hin as ->. rewrite r_lsn_stamp.
        destruct (r_stamp_fields (new_backend (g_lsn g + 1)) r0) as (_ & -> & -> & ->). simpl.
        exists inv. split; [set_solver|].
        by destruct Ha as [->|[-> _]]; simpl; rewrite Hid; [left|right].
  - by eapply announced_mono; [..|exact Ha0].
  - eapply announced_mono; [done|done| |exact Ha0]. intros i. rewrite !elem_of_app. tauto.
  - destruct (publish1_fields inv g) as (E1 & E2 & _ & E4).
    eapply announced_mono; [exact E1|exact E2| |exact Ha0].
    intros i. rewrite E4. simpl. rewrite !elem_of_app, !elem_of_cons, !elem_of_app, elem_of_nil. tauto.
  - destruct Ha0 as [Hm Hr], (nw_memories _ _ Hn) as [P HP], (nw_rels _ _ Hn) as [Q HQ].
    unfold announced. rewrite (nw_feed _ _ Hn). split; intros id v.
    + rewrite HP. intros [Hin _]%elem_of_filter. by apply Hm.
    + rewrite HQ. intros [Hin _]%elem_of_filter. by apply Hr.
Qed.

(** ** Critical sections as elementary steps *)

Lemma restore_next_bound clk1 clk2 es1 es2 s :
  0 ≤ rl_next s → rl_next s + Z.of_nat (length es1 + length es2) < 2 ^ 64 →
  rl_next s ≤ rl_next (foldl (restore_relationship clk2) (foldl (restore_memory clk1) s es1) es2)
    ≤ rl_next s + Z.of_nat (length es1 + length es2).
Proof.
  assert (Hm : ∀ es s, 0 ≤ rl_next s → rl_next s + Z.of_nat (length es) < 2 ^ 64 →
    rl_next s ≤ rl_next (foldl (restore_memory clk1) s es) ≤ rl_next s + Z.of_nat (length es)).
  { clear. induction es as [|e es IH]; intros s H0 H1; simpl in *; [lia|].
    assert (rl_next s ≤ rl_next (restore_memory clk1 s e) ≤ rl_next s + 1) as He.
    { destruct e as [id ow]. unfold restore_memory. rewrite u64_add_small by lia.
      repeat case_match; simpl; lia. }
    specialize (IH (restore_memory clk1 s e)). lia. }
  assert (Hr : ∀ es s, 0 ≤ rl_next s → rl_next s + Z.of_nat (length es) < 2 ^ 64 →
    rl_next s ≤ rl_next (foldl (restore_relationship clk2) s es) ≤ rl_next s + Z.of_nat (length es)).
  { clear. induction es as [|e es IH]; intros s H0 H1; simpl in *; [lia|].
    assert (rl_next s ≤ rl_next (restore_relationship clk2 s e) ≤ rl_next s + 1) as He.
    { destruct e as [id ow]. unfold restore_relationship. rewrite u64_add_small by lia.
      repeat case_match; simpl; lia. }
    specialize (IH (restore_relationship clk2 s e)). lia. }
  intros H0 H1. specialize (Hm es1 s H0). specialize (Hr es2 (foldl (restore_memory clk1) s es1)).
  lia.
Qed.

Lemma restore_locked_narrows clk rst g g' records invs :
  graph_ok g → room (size (owned_memory_lsns rst) + size (owned_relationship_lsns rst)) g →
  restore_locked clk rst g = (g', records, invs) → narrows g g'.
Proof.
  intros Hok [Hl Hr] Hres. destruct (restore_locked_tables _ _ _ _ _ _ Hok Hres) as [Hm Hrel].
  split.
  - exists (λ id v, negb (bool_decide (lsn_value (m_lsn v) ∈ owned_of (owned_memory_lsns rst) id))).
    intros id. by apply (kept_versions (g_memories g) (g_memories g')
      (retain_memories (owned_of (owned_memory_lsns rst) id))).
  - exists (λ id v, negb (bool_decide (lsn_value (r_lsn v) ∈ owned_of (owned_relationship_lsns rst) id))).
    intros id. by apply (kept_versions (g_rels g) (g_rels g')
      (retain_relationships (owned_of (owned_relationship_lsns rst) id))).
  - split; intros k h Hk; [rewrite Hm in Hk|rewrite Hrel in Hk]; by apply bind_kept_nonempty in Hk.
  - unfold restore_locked in Hres. injection Hres as <- _ _. simpl.
    pose proof (restore_next_bound clk clk (btree_iter compare_mid (owned_memory_lsns rst))
      (btree_iter compare_rid (owned_relationship_lsns rst))
      (mkRolled (g_memories g) (g_rels g) (g_lsn g) [] []) Hl) as Hb.
    rewrite !length_btree_iter in Hb. simpl in Hb. lia.
  - unfold restore_locked in Hres. by injection Hres as <- _ _.
  - unfold restore_locked in Hres. by injection Hres as <- _ _.
Qed.

Section gates.
Context `{Blake3, HashOrder, Chrono, Sha256, DiscoveryJson} (o : Ontology).

Definition is_rollback (op : Op) : bool := match op with Rollback _ _ => true | _ => false end.

Lemma gs_ticks b n g out :
  room n g → rtc (gstep b) (g, out) (set_lsn (g_lsn g + Z.of_nat n) g, out).
Proof.
  revert g. induction n as [|n IH]; intros g [Hl Hr].
  - rewrite Z.add_0_r. by destruct g.
  - eapply rtc_l; [apply gs_tick; split; lia|].
    replace (set_lsn (g_lsn g + Z.of_nat (S n)) g) with
      (set_lsn (g_lsn (set_lsn (g_lsn g + 1) g) + Z.of_nat n) (set_lsn (g_lsn g + 1) g))
      by (unfold set_lsn; simpl; f_equal; lia).
    apply IH. split; simpl; lia.
Qed.

Lemma gs_batch b clk ms rs g :
  room (length ms + 2 * length rs) g →
  match upsert_batch_locked o clk ms rs g with
  | (g', Ok (_, invs)) => rtc (gstep b) (g, []) (g', invs)
  | (g', Err _) => g' = g
  end.
Proof.
  intros Hr. rewrite upsert_batch_locked_spec by done. destruct (List.find _ rs); [done|].
  apply (gs_writes b (batch_writes o ms rs) g []). eapply room_le; [apply length_batch_writes|done].
Qed.

Lemma gs_ingest b clk key ms rs n eff IS g :
  room (length ms + 2 * length rs) g →
  match commit_ingest_locked o clk key ms rs n eff IS g with
  | (_, g', Ok (_, invs)) => rtc (gstep b) (g, []) (g', invs)
  | (_, g', Err _) => g' = g
  end.
Proof.
  intros Hr. pose proof (commit_ingest_locked_spec o clk key ms rs n eff IS g Hr) as Hs.
  destruct (commit_ingest_locked o clk key ms rs n eff IS g) as [[? g'] [[[] invs]|?]].
  - destruct Hs as (_ & -> & _ & -> & _). apply (gs_writes b _ g []).
    eapply room_le; [apply length_batch_writes|done].
  - by destruct Hs as (_ & -> & -> & _).
  - by destruct Hs.
Qed.

Lemma gs_store_discovery b r d g :
  room 1 g →
  match store_discovery_locked r d g with
  | (_, g', Ok (Some lsn)) => rtc (gstep b) (g, []) (g', [DiscoveryAvailable r lsn])
  | (_, g', _) => g' = g
  end.
Proof.
  intros [? ?]. unfold store_discovery_locked. rewrite u64_add_small by lia.
  destruct (proposals d !! _); [done|]. destruct (discoveries d !! _) as [s|];
    [by destruct (discovery_eqb s r)|].
  eapply rtc_l; [apply gs_tick; by split|]. apply (gs_events b [_] _ []).
Qed.

Lemma gs_settle b now cycle_id digest records lease T J d g :
  room (length records) g →
  match settle_locked now cycle_id digest records lease T J d g with
  | (_, _, g', Ok invs) => rtc (gstep b) (g, []) (g', invs)
  | (_, _, g', Err _) => g' = g
  end.
Proof.
  intros [Hl Hr]. unfold settle_locked. destruct (check_lease_current _ _ _); [|done].
  destruct (succeeded_cycles J !! _) as [s|]; [by destruct (String.eqb s digest)|].
  destruct (match cycle_journals J !! _ with Some _ => _ | None => _ end); [done|].
  destruct (existsb _ records); [done|].
  destruct (foldl settle_record _ records) as [[ds l] invs] eqn:Hf.
  apply settle_fold in Hf as (Hll & _); [|done..].
  etrans; [apply (gs_ticks b (Z.to_nat (l - g_lsn g))); split; lia|].
  replace (g_lsn g + Z.of_nat (Z.to_nat (l - g_lsn g))) with l by lia.
  apply (gs_events b invs _ []).
Qed.

Lemma gs_accept b now a d g :
  room 2 g →
  match accept_discovery_locked o now a d g with
  | (_, g', Ok (_, invs)) => rtc (gstep b) (g, []) (g', invs)
  | (_, g', Err _) => g' = g
  end.
Proof.
  intros Hr. rewrite accept_locked_spec by done.
  destruct (proposals d !! _) as [s|]; [|done]. destruct (consumed s); [done|].
  destruct (acceptance_mismatch _ _); [done|]. apply (gs_writes b (acceptance_writes o a) g []).
  eapply room_le; [|exact Hr]. unfold acceptance_writes. destruct (materialize_inverse _ _); simpl; lia.
Qed.

Lemma gs_upsert_relationship b clk r g :
  room 2 g → rtc (gstep b) (g, []) ((upsert_relationship o clk r g).1, []).
Proof.
  intros Hr. unfold upsert_relationship.
  rewrite row_locked_spec by (eapply room_le; [|exact Hr]; lia).
  assert (G1 : rtc (gstep b) (g, []) (commit_writes [WRelationship r] g, []))
    by (apply gs_commit; eapply room_le; [|exact Hr]; simpl; lia).
  assert (Hr' : room 1 (commit_writes [WRelationship r] g)).
  { destruct Hr. split; rewrite commit_writes_lsn by (split; simpl; lia); simpl; lia. }
  destruct (materialize_inverse o r) as [inv|]; [|done]. cbv zeta.
  destruct (match current _ _ with Some _ => _ | None => _ end); [done|].
  rewrite row_locked_spec by done. etrans; [exact G1|]. by apply gs_commit.
Qed.

Lemma gs_delete_relationship b now id g :
  graph_ok g → room 1 g →
  match close_relationship now (g_lsn g + 1) id (set_lsn (g_lsn g + 1) g) with
  | Some g' => rtc (gstep b) (g, []) (send (RelationshipDeleted id (g_lsn g + 1)) g', [])
  | None => rtc (gstep b) (g, []) (set_lsn (g_lsn g + 1) g, [])
  end.
Proof.
  intros Hok Hr. destruct (close_relationship _ _ _ _) eqn:Hc; [by eapply gs_close|].
  apply rtc_once. by apply gs_tick.
Qed.

Lemma gs_promote b now m audit d g :
  room 1 g →
  match promote_locked now m audit d g with
  | (_, g', Ok (_, inv)) => rtc (gstep b) (g, []) (g', [inv])
  | (_, g', Err _) => g' = g
  end.
Proof.
  intros [Hl Hr]. unfold promote_locked. destruct (current _ _); [|done].
  destruct (_ <? _); [done|]. pose proof (gs_writes b [WMemory m] g []) as Hw.
  unfold append_all, append, events_from in Hw. simpl in Hw.
  rewrite Z.add_0_r, u64_add_small in Hw by lia. rewrite u64_add_small, m_id_stamp by lia.
  apply Hw. by split.
Qed.

(** A critical section is a sequence of elementary steps that ends with what it returns. *)
Lemma gate_gsteps clk now op st :
  graph_ok (graph st) → room (cost op) (graph st) →
  let '(st', invs) := gate o clk now op st in
  rtc (gstep (is_rollback op)) (graph st, []) (graph st', invs).
Proof.
  destruct st as [g R T IS d J]. intros Hok Hr. cbn [graph] in *.
  destruct op; cbn [cost is_rollback] in *; unfold gate; cbn [graph lease_table ingest governed journals].
  - change (rtc (gstep false) (g, []) ((upsert_memory clk m g).1, [])).
    rewrite upsert_memory_spec by done. by apply gs_commit.
  - pose proof (gs_batch false clk ms rs g Hr) as Hb.
    by destruct (upsert_batch_locked o clk ms rs g) as [g' [[recs invs]|e]]; simpl; subst.
  - pose proof (gs_batch false clk ms rs g Hr) as Hb.
    by destruct (upsert_batch_locked o clk ms rs g) as [g' [[recs invs]|e]]; simpl; subst.
  - case_bool_decide; [done|]. pose proof (gs_batch false clk ms rs g Hr) as Hb.
    by destruct (upsert_batch_locked o clk ms rs g) as [g' [[recs invs]|e]]; simpl; subst.
  - pose proof (gs_delete_memory false (clk 0%nat) id g Hok Hr) as Hd.
    by destruct (delete_memory_locked (clk 0%nat) id g).
  - by apply gs_upsert_relationship.
  - change (rtc (gstep false) (g, []) ((delete_relationship clk id g).1, [])).
    unfold delete_relationship. rewrite next_lsn_room by done.
    pose proof (gs_delete_relationship false (clk 0%nat) id g Hok Hr) as Hd.
    by destruct (close_relationship _ _ _ _).
  - unfold exec, append_audit. cbn [graph governed]. rewrite next_lsn_room by done. simpl.
    apply rtc_once. by apply gs_tick.
  - unfold exec, delete_relationship_audited. cbn [graph governed]. rewrite next_lsn_room by done.
    pose proof (gs_delete_relationship false (clk 0%nat) id g Hok Hr) as Hd.
    by destruct (close_relationship _ _ _ _).
  - pose proof (gs_ingest false clk key ms rs accepted None IS g Hr) as Hi.
    by destruct (commit_ingest_locked o clk key ms rs accepted None IS g) as [[? ?] [[? ?]|?]];
      simpl; subst.
  - destruct (fail_next_ingest_commit IS); [done|].
    pose proof (gs_ingest false clk key ms rs accepted (Some effect) IS g Hr) as Hi.
    by destruct (commit_ingest_locked o clk key ms rs accepted (Some effect) IS g) as [[? ?] [[? ?]|?]];
      simpl; subst.
  - done.
  - done.
  - done.
  - done.
  - pose proof (gs_promote false (clk 0%nat) m audit d g Hr) as Hp.
    by destruct (promote_locked (clk 0%nat) m audit d g) as [[? ?] [[? ?]|?]]; simpl; subst.
  - done.
  - pose proof (gs_store_discovery false r d g Hr) as Hs.
    by destruct (store_discovery_locked r d g) as [[? ?] [[?|]|?]]; simpl; subst.
  - destruct (check_lease_current _ _ _); [|done].
    pose proof (gs_store_discovery false r d g Hr) as Hs.
    by destruct (store_discovery_locked r d g) as [[? ?] [[?|]|?]]; simpl; subst.
  - pose proof (gs_accept false (clk 0%nat) a d g Hr) as Ha.
    by destruct (accept_discovery_locked o (clk 0%nat) a d g) as [[? ?] [[? ?]|?]]; simpl; subst.
  - done.
  - done.
  - done.
  - destruct (check_lease_current _ _ _); [|done].
    pose proof (gs_batch false (λ i, clk (S i)) ms rs g Hr) as Hb.
    by destruct (upsert_batch_locked o _ ms rs g) as [g' [[recs invs]|e]]; simpl; subst.
  - destruct (upsert_batch_fenced_journaled _ _ _ _ _ _ _ _ _ _) as [[J' g'] [c|e]]; [|done].
    pose proof (gs_batch false (λ i, clk (S i)) ms rs g Hr) as Hb.
    by destruct (upsert_batch_locked o _ ms rs g) as [g2 [[recs invs]|e]]; simpl; subst.
  - done.
  - destruct (dreams_settlement_effect_digest records); [|done].
    pose proof (gs_settle false (clk 0%nat) cycle_id a records lease T J d g Hr) as Hs.
    by destruct (settle_locked _ _ _ _ _ _ _ _ _) as [[[? ?] ?] [?|?]]; simpl; subst.
  - destruct (check_lease_current _ _ _); [|done].
    pose proof (gs_delete_memory false (clk 1%nat) id g Hok Hr) as Hd.
    by destruct (delete_memory_locked (clk 1%nat) id g).
  - destruct (check_lease_current _ _ _); [|done].
    destruct (restore_locked _ rst g) as [[g' recs] invs] eqn:Hres.
    apply restore_locked_narrows in Hres; [|done..]. simpl.
    eapply rtc_l; [by apply gs_narrow|]. apply (gs_events true invs _ []).
Qed.
End gates.

(** ** Concurrent callers *)

(** The store, and what each call that has released the gate has still to publish. *)
Definition Sys : Type := Store * list (list Invalidation).

Definition pending (outs : list (list Invalidation)) : list Invalidation := outs ≫= id.

Inductive sys_step `{Blake3, HashOrder, Chrono, Sha256, DiscoveryJson} (o : Ontology) : Sys → Sys → Prop :=
  | sys_gate clk now op st outs st' invs :
      room (cost op) (graph st) → gate o clk now op st = (st', invs) →
      sys_step o (st, outs) (st', outs ++ [invs])
  | sys_publish st outs1 inv invs outs2 :
      sys_step o (st, outs1 ++ (inv :: invs) :: outs2)
                 (put_graph (publish1 inv (graph st)) st, outs1 ++ invs :: outs2).

Definition sys_inv (s : Sys) : Prop :=
  graph_ok (graph s.1) ∧ covers (pending s.2) (graph s.1) ∧ announced (pending s.2) (graph s.1).

Lemma covers_mono p p' g : (∀ inv, inv ∈ p → inv ∈ p') → covers p g → covers p' g.
Proof. intros Hp Hc id r Hr. destruct (Hc id r Hr) as [|(k & l & ?)]; [by left|right]. exists k, l. auto. Qed.

Lemma gsteps_inv b g out g' out' rest :
  rtc (gstep b) (g, out) (g', out') → graph_ok g →
  covers (out ++ rest) g → announced (out ++ rest) g →
  graph_ok g' ∧ covers (out' ++ rest) g' ∧ announced (out' ++ rest) g'.
Proof.
  intros Hs. remember (g, out) as p eqn:Ep. remember (g', out') as q eqn:Eq.
  revert g out Ep. induction Hs as [p|p [g1 out1] q Hs _ IH]; intros g out -> Hok Hc Ha.
  - by injection Eq as -> ->.
  - apply (IH Eq g1 out1 eq_refl).
    + by apply (gstep_ok b _ _ Hs).
    + by eapply gstep_covers.
    + by eapply gstep_announced.
Qed.

Lemma pending_snoc outs invs x : x ∈ pending (outs ++ [invs]) ↔ x ∈ invs ++ pending outs.
Proof. unfold pending. rewrite bind_app, !elem_of_app. simpl. rewrite app_nil_r. tauto. Qed.

Lemma pending_middle outs1 invs outs2 x :
  x ∈ pending (outs1 ++ invs :: outs2) ↔ x ∈ invs ++ pending (outs1 ++ outs2).
Proof. unfold pending. rewrite !bind_app, bind_cons, !elem_of_app. unfold id at 2. tauto. Qed.

Lemma sys_step_inv `{Blake3, HashOrder, Chrono, Sha256, DiscoveryJson} o s s' :
  sys_step o s s' → sys_inv s → sys_inv s'.
Proof.
  assert (Hmono : ∀ p p' g, (∀ x, x ∈ p ↔ x ∈ p') → covers p g ∧ announced p g → covers p' g ∧ announced p' g).
  { intros p p' g Hp [Hc Ha]. split; [eapply covers_mono; [|done]; naive_solver|].
    eapply announced_mono; [done|done| |done]. intros i. rewrite !elem_of_app. naive_solver. }
  destruct 1 as [clk now op st outs st' invs Hr Hg|st outs1 inv invs outs2]; intros (Hok & Hc & Ha).
  - pose proof (gate_gsteps o clk now op st Hok Hr) as Hs. rewrite Hg in Hs.
    destruct (gsteps_inv _ _ _ _ _ (pending outs) Hs Hok Hc Ha) as (Hok' & Hc' & Ha').
    split; [done|]. apply (Hmono (invs ++ pending outs)); [|by split].
    intros x. symmetry. apply pending_snoc.
  - simpl in *.
    destruct (Hmono _ _ _ (pending_middle outs1 (inv :: invs) outs2) (conj Hc Ha)) as [Hc1 Ha1].
    assert (Hs : gstep false (graph st, inv :: invs) (publish1 inv (graph st), invs)) by apply gs_publish.
    split; [by apply graph_ok_publish1|].
    apply (Hmono (invs ++ pending (outs1 ++ outs2))).
    + intros x. symmetry. apply pending_middle.
    + split; [by eapply gstep_covers|by eapply gstep_announced].
Qed.

(** C25: overlapping calls.  In every state reachable from an empty store by any interleaving of
    critical sections and publications, the tables are sound, with increasing LSNs in every
    history and no LSN shared by two rows; every edge is in the endpoint index under both
    endpoints or its indexing is pending; and every version of every row has been announced on
    the feed under its LSN, or is about to be.  So once no publication is pending the index is
    complete and no change is silent. *)
Theorem interleaving_safe `{Blake3, HashOrder, Chrono, Sha256, DiscoveryJson} o st outs :
  rtc (sys_step o) (build, []) (st, outs) →
  graph_ok (graph st) ∧ covers (pending outs) (graph st) ∧ announced (pending outs) (graph st) ∧
  (Forall (.= []) outs → index_complete (graph st) ∧ announced [] (graph st)).
Proof.
  intros Hsteps. assert (Hinv : sys_inv (st, outs)).
  { assert (Hb : sys_inv (build, [])).
    { split; [apply graph_ok_empty|]. unfold covers, announced, relationship_history, memory_history,
        versions. simpl. split_and!; intros ? ?; rewrite lookup_empty; simpl; set_solver. }
    remember (build, []) as s eqn:E. clear E. remember (st, outs) as s' eqn:E'. clear E'.
    induction Hsteps; eauto using sys_step_inv. }
  destruct Hinv as (Hok & Hc & Ha). split_and!; [done..|]. intros Hdone.
  assert (Hp : pending outs = []).
  { clear -Hdone. induction Hdone as [|? outs -> _ IH]; [done|]. unfold pending in *. by rewrite bind_cons, IH. }
  simpl in *. rewrite Hp in *. split; [|done]. intros id r Hr.
  destruct (Hc id r Hr) as [|(k & l & Hin)]; [done|set_solver].
Qed.

(** History is append-only.  Except for a rollback, no mutation, run to completion at any
    instant, ever removes or changes a recorded version of a memory or a relationship, moves the
    LSN back or retracts an event; it only appends. *)
Theorem history_append_only `{Blake3, HashOrder, Chrono, Sha256, DiscoveryJson} o clk now op st :
  graph_ok (graph st) → room (cost op) (graph st) → is_rollback op = false →
  let st' := exec o clk now op st in
  graph_ok (graph st') ∧
  (∀ id, memory_history (graph st) id `prefix_of` memory_history (graph st') id) ∧
  (∀ id, relationship_history (graph st) id `prefix_of` relationship_history (graph st') id) ∧
  g_lsn (graph st) ≤ g_lsn (graph st') ∧ g_feed (graph st) `prefix_of` g_feed (graph st').
Proof.
  intros Hok Hr Hop st'. pose proof (gate_gsteps o clk now op st Hok Hr) as Hs.
  unfold st'. rewrite exec_gate. destruct (gate o clk now op st) as [st1 invs]. rewrite Hop in Hs.
  assert (Hs' : rtc (gstep false) (graph st, []) (publish invs (graph st1), [])).
  { etrans; [exact Hs|]. rewrite <-(app_nil_r invs) at 1. apply gs_publishes. }
  split; [by apply (gsteps_ok false _ _ Hs')|].
  apply gsteps_graph_steps in Hs'. apply graph_steps_extends in Hs'; [|done].
  destruct Hs' as [Hm Hrel Hl Hf]. by split_and!.
Qed.
