(* ===== verification/Bounds.v ===== *)
(** * Bounded output and the post-boot hold window

    [bounded_io.rs] and [fork_window.rs] of [crates/exocortex-storage/src]: the size check and
    the writer that never grows past its limit, and the window in which commands to a freshly
    booted store are held. *)

From stdpp Require Import pretty.
From S2P Require Import Prelude.

(** ** Bounded output *)

(* SRC crates/exocortex-storage/src/bounded_io.rs 6-15 ensure_size *)
Definition ensure_size (size limit : Z) (noun : string) : result unit string :=
  if limit <? size
  then Err (noun +:+ " is " +:+ pretty size +:+ " bytes; maximum supported size is "
            +:+ pretty limit +:+ " bytes")
  else Ok tt.

(* SRC crates/exocortex-storage/src/bounded_io.rs 28-32 BoundedOutput *)
Record BoundedOutput := mkBoundedOutput { bytes : list Z; limit : Z; noun : string }.

Definition BoundedOutput_new (limit : Z) (noun : string) : BoundedOutput := mkBoundedOutput [] limit noun.

(* SRC crates/exocortex-storage/src/bounded_io.rs 45-53 BoundedOutput::write *)
Definition write (self : BoundedOutput) (b : list Z) : BoundedOutput * result Z string :=
  match ensure_size (u64_saturating_add (Z.of_nat (length (bytes self))) (Z.of_nat (length b)))
          (limit self) (noun self) with
  | Err e => (self, Err e)
  | Ok _ => (mkBoundedOutput (bytes self ++ b) (limit self) (noun self), Ok (Z.of_nat (length b)))
  end.

(** A serializer hands its chunks to the writer until one is refused. *)
Fixpoint write_all (self : BoundedOutput) (chunks : list (list Z)) : BoundedOutput * result unit string :=
  match chunks with
  | [] => (self, Ok tt)
  | b :: chunks =>
      match write self b with
      | (self, Err e) => (self, Err e)
      | (self, Ok _) => write_all self chunks
      end
  end.

(* SRC crates/exocortex-storage/src/bounded_io.rs 17-26 serialize_json_pretty_bounded *)
Definition serialize_bounded (chunks : list (list Z)) (limit : Z) (noun : string)
    : result (list Z) string :=
  match write_all (BoundedOutput_new limit noun) chunks with
  | (output, Ok _) => Ok (bytes output)
  | (_, Err e) => Err e
  end.

(** ** The hold window *)

(* SRC crates/exocortex-storage/src/fork_window.rs 23-31 HOLD_FROM_MS *)
Definition HOLD_FROM_MS : Z := 25000.
Definition HOLD_UNTIL_MS : Z := 75000.

Definition saturating_sub (x y : Z) : Z := Z.max 0 (x - y).

(* SRC crates/exocortex-storage/src/fork_window.rs 45-58 hold_for *)
Definition hold_for (armed_at_ms : option Z) (now_ms : Z) : option Z :=
  match armed_at_ms with
  | None => None
  | Some armed =>
      let elapsed := saturating_sub now_ms armed in
      if elapsed <? HOLD_FROM_MS then None
      else if HOLD_UNTIL_MS <=? elapsed then None
      else Some (HOLD_UNTIL_MS - elapsed)
  end.

(** The two statics: [EPOCH], set by the first clock reading, and [ARMED_AT_MS], zero when
    unarmed.  A monotonic instant is a [Z] of nanoseconds. *)
(* SRC crates/exocortex-storage/src/fork_window.rs 32-32 ARMED_AT_MS *)
Record HoldState := mkHoldState { epoch : option Z; armed_at_ms : Z }.

Definition hold_state0 : HoldState := mkHoldState None 0.

(** [EPOCH.get_or_init(Instant::now).elapsed().as_millis()]: [t] is the instant an unset epoch
    takes, [t'] the instant the elapsed time is read at. *)
(* SRC crates/exocortex-storage/src/fork_window.rs 35-37 now_ms *)
Definition now_ms (t t' : Z) (s : HoldState) : HoldState * Z :=
  let e := default t (epoch s) in (mkHoldState (Some e) (armed_at_ms s), (t' - e) / 10 ^ 6).

(* SRC crates/exocortex-storage/src/fork_window.rs 39-43 arm *)
Definition arm (t t' : Z) (s : HoldState) : HoldState :=
  let '(s, ms) := now_ms t t' s in mkHoldState (epoch s) ms.

(* SRC crates/exocortex-storage/src/fork_window.rs 60-69 hold_remaining *)
Definition hold_remaining (t t' t2 : Z) (s : HoldState) : HoldState * option Z :=
  let armed := armed_at_ms s in
  let '(s, now) := now_ms t t' s in
  let hold := hold_for (if armed =? 0 then None else Some armed) now in
  if bool_decide (hold = None) && negb (armed =? 0) then
    let '(s, now) := now_ms t2 t2 s in
    if HOLD_UNTIL_MS <=? saturating_sub now armed then (mkHoldState (epoch s) 0, hold) else (s, hold)
  else (s, hold).

(** ** Properties *)

Lemma write_all_spec self chunks :
  Z.of_nat (length (bytes self)) ≤ limit self → limit self < 2 ^ 64 - 1 →
  match write_all self chunks with
  | (out, r) =>
      limit out = limit self ∧ Z.of_nat (length (bytes out)) ≤ limit self ∧
      bytes self `prefix_of` bytes out ∧
      (is_ok r = true ↔ Z.of_nat (length (bytes self ++ concat chunks)) ≤ limit self) ∧
      (is_ok r = true → bytes out = bytes self ++ concat chunks)
  end.
Proof.
  revert self. induction chunks as [|b chunks IH]; intros self Hlen Hlim; simpl.
  { rewrite app_nil_r. split_and!; done || by intros. }
  unfold write, ensure_size, u64_saturating_add.
  destruct (Z.ltb_spec (limit self)
    (Z.min (2 ^ 64 - 1) (Z.of_nat (length (bytes self)) + Z.of_nat (length b)))) as [Hlt|Hge].
  - split_and!; [done..| |done]. split; [done|]. rewrite !length_app. lia.
  - specialize (IH (mkBoundedOutput (bytes self ++ b) (limit self) (noun self))). simpl in IH.
    rewrite length_app in IH. destruct (write_all _ chunks) as [out r].
    destruct IH as (H1 & H2 & H3 & H4 & H5); [lia|done|]. rewrite <-(assoc_L (++)) in H4, H5.
    split_and!; try done. etrans; [by apply prefix_app_r|done].
Qed.

(** Bounded serialization succeeds exactly when everything written fits the limit, then
    returns all of it, and at no point holds more bytes than the limit. *)
Theorem serialize_bounded_exact chunks lim n :
  0 ≤ lim < 2 ^ 64 - 1 →
  (∀ out, serialize_bounded chunks lim n = Ok out ↔
     out = concat chunks ∧ Z.of_nat (length (concat chunks)) ≤ lim) ∧
  (∀ k, Z.of_nat (length (bytes (write_all (BoundedOutput_new lim n) (take k chunks)).1)) ≤ lim).
Proof.
  intros Hlim. split.
  - intros out. unfold serialize_bounded.
    pose proof (write_all_spec (BoundedOutput_new lim n) chunks) as Hs. simpl in Hs.
    destruct (write_all _ chunks) as [o [u|e]]; destruct Hs as (_ & _ & _ & Hok & Hb); try lia; simpl in *.
    + rewrite (Hb eq_refl). split; [intros [= <-]; split; [done|by apply Hok]|by intros [-> _]].
    + split; [done|]. intros [_ Hle]. by apply Hok in Hle.
  - intros k. pose proof (write_all_spec (BoundedOutput_new lim n) (take k chunks)) as Hs. simpl in Hs.
    destruct (write_all _ _) as [o r]. simpl. destruct Hs as (_ & ? & _); lia.
Qed.

Lemma hold_for_exact armed now :
  0 ≤ armed ≤ now →
  ∀ h, hold_for (Some armed) now = Some h ↔
    armed + HOLD_FROM_MS ≤ now < armed + HOLD_UNTIL_MS ∧ now + h = armed + HOLD_UNTIL_MS.
Proof.
  intros Ha h. unfold hold_for, saturating_sub, HOLD_FROM_MS, HOLD_UNTIL_MS.
  destruct (Z.ltb_spec (Z.max 0 (now - armed)) 25000), (Z.leb_spec 75000 (Z.max 0 (now - armed)));
    (split; [intros [=]; lia|intros [? ?]; f_equal; lia || (exfalso; lia)]).
Qed.

(** The hold window.  When the clock has been read at least a millisecond before the store is
    armed, a command is held exactly from 25 s to 75 s after the arming, until exactly the 75 s
    mark; a command after the mark disarms the window. *)
Theorem hold_window_exact e t0 t t' t2 s :
  epoch s = Some e → e + 10 ^ 6 ≤ t0 → t0 ≤ t' ≤ t2 →
  let armed := (t0 - e) / 10 ^ 6 in
  let now := (t' - e) / 10 ^ 6 in
  let '(s', hold) := hold_remaining t t' t2 (arm t0 t0 s) in
  (∀ h, hold = Some h ↔
     armed + HOLD_FROM_MS ≤ now < armed + HOLD_UNTIL_MS ∧ now + h = armed + HOLD_UNTIL_MS) ∧
  (armed + HOLD_UNTIL_MS ≤ now → armed_at_ms s' = 0) ∧
  ((t2 - e) / 10 ^ 6 < armed + HOLD_UNTIL_MS → armed_at_ms s' = armed).
Proof.
  intros He Ht0 Ht. unfold arm, hold_remaining, now_ms. rewrite He. simpl.
  set (armed := (t0 - e) / 10 ^ 6). set (now := (t' - e) / 10 ^ 6).
  set (now2 := (t2 - e) / 10 ^ 6).
  assert (Ha : 1 ≤ armed) by (unfold armed; apply Z.div_le_lower_bound; lia).
  assert (Hn : armed ≤ now) by (unfold armed, now; apply Z.div_le_mono; lia).
  assert (Hn2 : now ≤ now2) by (unfold now, now2; apply Z.div_le_mono; lia).
  destruct (Z.eqb_spec armed 0); [lia|]. cbn [negb].
  pose proof (hold_for_exact armed now) as Hh.
  destruct (hold_for (Some armed) now) as [h0|] eqn:Hhold.
  - rewrite bool_decide_eq_false_2 by done. simpl. split_and!; [apply Hh; lia| |by intros].
    intros Hle. destruct (proj1 (Hh ltac:(lia) h0) eq_refl). lia.
  - rewrite bool_decide_eq_true_2 by done. simpl.
    destruct (Z.leb_spec HOLD_UNTIL_MS (saturating_sub now2 armed)) as [Hl|Hl];
      unfold saturating_sub, HOLD_UNTIL_MS, HOLD_FROM_MS in *; simpl;
      (split_and!; [apply Hh; lia|lia|lia]).
Qed.

(** The first arming of a process is lost.  When arming is what first reads the clock, the
    epoch starts there, the mark it stores is zero milliseconds, which means unarmed, and no
    command is ever held, the whole window after the store's boot included. *)
Theorem first_arming_lost t0 t0' :
  t0 ≤ t0' < t0 + 10 ^ 6 →
  armed_at_ms (arm t0 t0' hold_state0) = 0 ∧
  ∀ t t' t2, (hold_remaining t t' t2 (arm t0 t0' hold_state0)).2 = None.
Proof.
  intros Ht. unfold arm, now_ms, hold_state0. simpl.
  assert (E : (t0' - t0) / 10 ^ 6 = 0) by (apply Z.div_small; lia).
  rewrite E. split; [done|]. intros t t' t2. unfold hold_remaining, now_ms. simpl. done.
Qed.

Lemma hold_window_exact_witness :
  epoch (mkHoldState (Some 0) 0) = Some 0 ∧
  (hold_remaining 0 (40001 * 10 ^ 6) (40001 * 10 ^ 6) (arm (10 ^ 6) (10 ^ 6) (mkHoldState (Some 0) 0))).2
    = Some 35000.
Proof.
  split; [reflexivity|].
  pose proof (hold_window_exact 0 (10 ^ 6) 0 (40001 * 10 ^ 6) (40001 * 10 ^ 6) (mkHoldState (Some 0) 0)
    eq_refl ltac:(lia) ltac:(lia)) as H.
  destruct (hold_remaining _ _ _ _) as [s' hold]. apply (proj1 H).
  unfold HOLD_FROM_MS, HOLD_UNTIL_MS. vm_compute. split; [split; [discriminate|reflexivity]|reflexivity].
Defined.

Lemma first_arming_lost_witness :
  armed_at_ms (arm 5 6 hold_state0) = 0 ∧
  (hold_remaining 0 (30000 * 10 ^ 6) (30000 * 10 ^ 6) (arm 5 6 hold_state0)).2 = None.
Proof.
  destruct (first_arming_lost 5 6 ltac:(lia)) as [Ha Hh]. split; [exact Ha|apply Hh].
Defined.
