(* ===== verification/Wire.v ===== *)
(** * The wire: messages, base64, signatures, checksums and limits

    [crates/exocortex-wire]: the protobuf messages the cluster and the producers exchange, the
    base64 form an envelope travels in ([transport.rs]), the HMAC signatures and the canonical
    batch checksum ([signing.rs]), and the resource ceilings ([limits.rs]).  [prost]'s codec
    and HMAC-SHA256 are libraries the source calls: they are the interfaces [Message] and
    [Hmac]. *)

From stdpp Require Import pretty.
From S2P Require Import Prelude Ids Kernel Packs.

(** ** Bits and bytes *)

Lemma lor_digits x y k : 0 ≤ k → 0 ≤ y < 2 ^ k → Z.lor (Z.shiftl x k) y = x * 2 ^ k + y.
Proof. intros. rewrite lor_add_low by done. by rewrite Z.shiftl_mul_pow2. Qed.

Lemma land_63 x : Z.land x 63 = x `mod` 64.
Proof. change 63 with (Z.ones 6). by rewrite Z.land_ones. Qed.

(** ** Chunks of a slice *)

(** [slice.chunks(n)]: pieces of [n], the last one shorter. *)
Fixpoint chunks_from {A} (fuel n : nat) (l : list A) : list (list A) :=
  match fuel, l with
  | S fuel, _ :: _ => take n l :: chunks_from fuel n (drop n l)
  | _, _ => []
  end.
Definition chunks {A} (n : nat) (l : list A) : list (list A) := chunks_from (length l) n l.

Section chunks.
Context {A : Type}.
Implicit Types l : list A.

Lemma chunks_from_fuel f f' n l :
  (0 < n)%nat → (length l ≤ f)%nat → (length l ≤ f')%nat →
  chunks_from f n l = chunks_from f' n l.
Proof.
  intros Hn. revert f' l. induction f as [|f IH]; intros [|f'] [|x l] Hf Hf'; simpl in *; try done; try lia.
  f_equal. apply IH; destruct n; simpl; rewrite ?length_drop; lia.
Qed.

Lemma chunks_nil n : chunks n (@nil A) = [].
Proof. done. Qed.

Lemma chunks_app n k l :
  (0 < n)%nat → length k = n → chunks n (k ++ l) = k :: chunks n l.
Proof.
  intros Hn Hk. unfold chunks. destruct k as [|x k]; [simpl in Hk; lia|].
  change ((x :: k) ++ l) with (x :: (k ++ l)). cbn [length chunks_from].
  change (x :: (k ++ l)) with ((x :: k) ++ l).
  rewrite take_app_length', drop_app_length' by done. f_equal.
  apply chunks_from_fuel; rewrite ?length_app; simpl in Hk; lia.
Qed.

Lemma chunks_last n l : l ≠ [] → (length l ≤ n)%nat → chunks n l = [l].
Proof.
  intros Hl Hn. unfold chunks. destruct l as [|x l]; [done|]. cbn [length chunks_from].
  rewrite take_ge, drop_ge by done. by destruct (length l).
Qed.

(** Induction on the chunks of a list. *)
Lemma chunks_ind n (P : list A → Prop) :
  (0 < n)%nat → (∀ l, (length l < n)%nat → P l) →
  (∀ k l, length k = n → P l → P (k ++ l)) → ∀ l, P l.
Proof.
  intros Hn Hshort Hlong l. induction l as [l IH] using (induction_ltof1 _ length).
  destruct (decide (length l < n)%nat) as [|Hge]; [by apply Hshort|].
  rewrite <-(take_drop n l). apply Hlong; [rewrite length_take; lia|].
  apply IH. unfold ltof. rewrite length_drop. lia.
Qed.
End chunks.

(** ** Base64 *)

(* SRC crates/exocortex-wire/src/transport.rs 5-6 BASE64_ALPHABET *)
Definition BASE64_ALPHABET : list Z :=
  as_bytes "ABCDEFGHIJKLMNOPQRSTUVWXYZabcdefghijklmnopqrstuvwxyz0123456789+/".

(** [BASE64_ALPHABET[i]]. *)
Definition alphabet_at (i : Z) : Z := nth (Z.to_nat i) BASE64_ALPHABET 0.

(** The body of the encoder's loop. *)
Definition base64_encode_chunk (chunk : list Z) : list Z :=
  let b i := nth i chunk 0 in
  let n := Z.lor (Z.lor (Z.shiftl (b 0%nat) 16) (Z.shiftl (b 1%nat) 8)) (b 2%nat) in
  [alphabet_at (Z.land (Z.shiftr n 18) 63);
   alphabet_at (Z.land (Z.shiftr n 12) 63);
   (if (1 <? Z.of_nat (length chunk)) then alphabet_at (Z.land (Z.shiftr n 6) 63) else 61);
   (if (2 <? Z.of_nat (length chunk)) then alphabet_at (Z.land n 63) else 61)].

(* SRC crates/exocortex-wire/src/transport.rs 8-32 base64_encode *)
Definition base64_encode (data : list Z) : string :=
  string_of_bytes (chunks 3 data ≫= base64_encode_chunk).

(** The inner function [sextet]. *)
Definition sextet (byte : Z) : option Z :=
  if (65 <=? byte) && (byte <=? 90) then Some (byte - 65)
  else if (97 <=? byte) && (byte <=? 122) then Some (byte - 97 + 26)
  else if (48 <=? byte) && (byte <=? 57) then Some (byte - 48 + 52)
  else if byte =? 43 then Some 62
  else if byte =? 47 then Some 63
  else None.

(** [u8::is_ascii_whitespace]: space, tab, line feed, form feed, carriage return. *)
Definition is_ascii_whitespace (byte : Z) : bool :=
  (byte =? 32) || (byte =? 9) || (byte =? 10) || (byte =? 12) || (byte =? 13).

(** [iter().take_while(p)]. *)
Fixpoint take_while {A} (p : A → bool) (l : list A) : list A :=
  match l with [] => [] | x :: l => if p x then x :: take_while p l else [] end.

(** [n |= sextet << (18 - 6 * index)] over a chunk of at most four symbols. *)
Fixpoint or_sextets (index n : Z) (chunk : list Z) : option Z :=
  match chunk with
  | [] => Some n
  | byte :: chunk =>
      s ← sextet byte;
      or_sextets (index + 1) (Z.lor n (Z.shiftl s (18 - 6 * index))) chunk
  end.

Definition base64_decode_chunk (chunk : list Z) : option (list Z) :=
  n ← or_sextets 0 0 chunk;
  Some ([as_u8 (Z.shiftr n 16)]
        ++ (if 2 <? Z.of_nat (length chunk) then [as_u8 (Z.shiftr n 8)] else [])
        ++ (if 3 <? Z.of_nat (length chunk) then [as_u8 n] else [])).

(* SRC crates/exocortex-wire/src/transport.rs 39-90 base64_decode_bounded *)
Definition base64_decode_bounded (value : string) (max_encoded_bytes : Z) : option (list Z) :=
  if max_encoded_bytes <? Z.of_nat (length (as_bytes value)) then None
  else
    let bytes := List.filter (λ byte, negb (is_ascii_whitespace byte)) (as_bytes value) in
    let unpadded := take_while (λ byte, negb (byte =? 61)) bytes in
    let padding := Z.of_nat (length bytes) - Z.of_nat (length unpadded) in
    if negb (Z.of_nat (length bytes) `mod` 4 =? 0)
       || (2 <? padding)
       || existsb (λ byte, negb (byte =? 61)) (drop (length unpadded) bytes)
       || ((padding =? 1) && negb (Z.of_nat (length unpadded) `mod` 4 =? 3))
       || ((padding =? 2) && negb (Z.of_nat (length unpadded) `mod` 4 =? 2))
    then None
    else mjoin <$> mapM base64_decode_chunk (chunks 4 unpadded).

Definition usize_max : Z := 2 ^ 64 - 1.

(* SRC crates/exocortex-wire/src/transport.rs 34-37 base64_decode *)
Definition base64_decode (value : string) : option (list Z) :=
  base64_decode_bounded value usize_max.

Example base64_vector_1 : base64_encode (as_bytes "foobar") = "Zm9vYmFy"%string.
Proof. vm_compute. reflexivity. Qed.
Example base64_vector_2 : base64_decode "Zm8=" = Some (as_bytes "fo").
Proof. vm_compute. reflexivity. Qed.
Example base64_vector_3 : base64_decode "Zg=a" = None.
Proof. vm_compute. reflexivity. Qed.

(** *** The round trip *)

Lemma alphabet_sextet i :
  0 ≤ i < 64 → sextet (alphabet_at i) = Some i ∧ alphabet_at i ≠ 61 ∧
               is_ascii_whitespace (alphabet_at i) = false ∧ 0 ≤ alphabet_at i < 256.
Proof.
  intros Hi. assert (Hall : forallb (λ i, bool_decide (sextet (alphabet_at i) = Some i ∧
    alphabet_at i ≠ 61 ∧ is_ascii_whitespace (alphabet_at i) = false ∧
    0 ≤ alphabet_at i < 256)) (seqZ 0 64) = true) by (vm_compute; reflexivity).
  rewrite List.forallb_forall in Hall. eapply bool_decide_eq_true, Hall.
  apply list_elem_of_In, elem_of_seqZ. lia.
Qed.

Lemma sextet_alphabet i : 0 ≤ i < 64 → sextet (alphabet_at i) = Some i.
Proof. apply alphabet_sextet. Qed.
#[local] Arguments alphabet_at : simpl never.
#[local] Arguments sextet : simpl never.

(** The symbols of a chunk, before padding. *)
Definition chunk_symbols (chunk : list Z) : list Z :=
  take (S (length chunk)) (base64_encode_chunk chunk).

(** Three bytes as four base-64 digits. *)
Lemma digits24 a b c :
  0 ≤ a < 256 → 0 ≤ b < 256 → 0 ≤ c < 256 →
  let n := a * 65536 + b * 256 + c in
  Z.lor (Z.lor (Z.shiftl a 16) (Z.shiftl b 8)) c = n ∧
  Z.land (Z.shiftr n 18) 63 = a / 4 ∧
  Z.land (Z.shiftr n 12) 63 = (a `mod` 4) * 16 + b / 16 ∧
  Z.land (Z.shiftr n 6) 63 = (b `mod` 16) * 4 + c / 64 ∧
  Z.land n 63 = c `mod` 64.
Proof.
  intros Ha Hb Hc n. rewrite !land_63, !Z.shiftr_div_pow2 by lia. split.
  - rewrite <-Z.lor_assoc. rewrite (lor_digits b c 8) by lia.
    rewrite lor_digits by lia. subst n. lia.
  - subst n. change (2 ^ 18) with 262144. change (2 ^ 12) with 4096. change (2 ^ 6) with 64.
    split_and!; Z.div_mod_to_equations; lia.
Qed.

(** The accumulated digits, as a sum. *)
Ltac or_digits :=
  cbn [or_sextets]; rewrite !sextet_alphabet by done; cbn [mbind option_bind]; f_equal;
  rewrite ?(Z.mul_0_r 6), ?Z.add_0_l, ?Z.sub_0_r;
  repeat match goal with
  | |- context [Z.shiftl ?x ?k] => let k' := eval cbv in k in progress change k with k'
  end.

Lemma or_sextets_2 s0 s1 :
  0 ≤ s0 < 64 → 0 ≤ s1 < 64 →
  or_sextets 0 0 [alphabet_at s0; alphabet_at s1] = Some (s0 * 262144 + s1 * 4096).
Proof.
  intros H0 H1. or_digits. rewrite Z.lor_0_l, lor_digits; rewrite ?Z.shiftl_mul_pow2; lia.
Qed.

Lemma or_sextets_3 s0 s1 s2 :
  0 ≤ s0 < 64 → 0 ≤ s1 < 64 → 0 ≤ s2 < 64 →
  or_sextets 0 0 [alphabet_at s0; alphabet_at s1; alphabet_at s2] =
  Some (s0 * 262144 + s1 * 4096 + s2 * 64).
Proof.
  intros H0 H1 H2. or_digits.
  rewrite Z.lor_0_l, <-Z.lor_assoc, (lor_digits s1 (Z.shiftl s2 6) 12), lor_digits;
    rewrite ?Z.shiftl_mul_pow2; lia.
Qed.

Lemma or_sextets_4 s0 s1 s2 s3 :
  0 ≤ s0 < 64 → 0 ≤ s1 < 64 → 0 ≤ s2 < 64 → 0 ≤ s3 < 64 →
  or_sextets 0 0 [alphabet_at s0; alphabet_at s1; alphabet_at s2; alphabet_at s3] =
  Some (s0 * 262144 + s1 * 4096 + s2 * 64 + s3).
Proof.
  intros H0 H1 H2 H3. or_digits.
  rewrite Z.lor_0_l, Z.shiftl_0_r, <-!Z.lor_assoc, (lor_digits s2 s3 6), (lor_digits s1 _ 12),
    lor_digits; rewrite ?Z.shiftl_mul_pow2; lia.
Qed.

#[local] Arguments or_sextets : simpl never.

(** A symbol of the alphabet: not padding, not white space, ASCII. *)
Definition symbol (c : Z) : Prop :=
  c ≠ 61 ∧ is_ascii_whitespace c = false ∧ 0 ≤ c < 256.

Lemma alphabet_symbol i : 0 ≤ i < 64 → symbol (alphabet_at i).
Proof. intros Hi%alphabet_sextet. unfold symbol. tauto. Qed.

Lemma encode_chunk_spec k :
  bytes_ok k → (0 < length k ≤ 3)%nat →
  base64_encode_chunk k = chunk_symbols k ++ replicate (3 - length k) 61 ∧
  Forall symbol (chunk_symbols k) ∧ length (chunk_symbols k) = S (length k) ∧
  base64_decode_chunk (chunk_symbols k) = Some k.
Proof.
  intros Hk Hlen. unfold chunk_symbols, base64_encode_chunk, base64_decode_chunk.
  destruct k as [|a [|b [|c [|]]]]; cbn [length] in Hlen; try lia; clear Hlen.
  - apply Forall_cons in Hk as [Ha _]. destruct (digits24 a 0 0) as (E & E0 & E1 & _); try lia.
    cbn [nth]. rewrite E, E0, E1. simpl. split_and!; [done| |done|].
    + repeat constructor; apply alphabet_symbol; Z.div_mod_to_equations; lia.
    + rewrite or_sextets_2 by (Z.div_mod_to_equations; lia). simpl. do 2 f_equal.
      unfold as_u8, wrap. rewrite Z.shiftr_div_pow2 by lia. change (2 ^ 16) with 65536.
      change (2 ^ 8) with 256. Z.div_mod_to_equations; lia.
  - apply Forall_cons in Hk as [Ha [Hb _]%Forall_cons].
    destruct (digits24 a b 0) as (E & E0 & E1 & E2 & _); try lia.
    cbn [nth]. rewrite E, E0, E1, E2. simpl. split_and!; [done| |done|].
    + repeat constructor; apply alphabet_symbol; Z.div_mod_to_equations; lia.
    + rewrite or_sextets_3 by (Z.div_mod_to_equations; lia). simpl.
      unfold as_u8, wrap. rewrite !Z.shiftr_div_pow2 by lia. change (2 ^ 16) with 65536.
      change (2 ^ 8) with 256. repeat f_equal; Z.div_mod_to_equations; lia.
  - apply Forall_cons in Hk as [Ha [Hb [Hc _]%Forall_cons]%Forall_cons].
    destruct (digits24 a b c) as (E & E0 & E1 & E2 & E3); try lia.
    cbn [nth]. rewrite E, E0, E1, E2, E3. simpl. split_and!; [done| |done|].
    + repeat constructor; apply alphabet_symbol; Z.div_mod_to_equations; lia.
    + rewrite or_sextets_4 by (Z.div_mod_to_equations; lia). simpl.
      unfold as_u8, wrap. rewrite !Z.shiftr_div_pow2 by lia. change (2 ^ 16) with 65536.
      change (2 ^ 8) with 256. repeat f_equal; Z.div_mod_to_equations; lia.
Qed.

(** What the decoder checks before it decodes: symbols, then a proper padding. *)
Record encoding_of (data out : list Z) : Prop := {
  eo_symbols : ∃ sy p,
    out = sy ++ replicate p 61 ∧ Forall symbol sy ∧
    mjoin <$> mapM base64_decode_chunk (chunks 4 sy) = Some data ∧
    (p = 0%nat ∨ (p = 1%nat ∧ Z.of_nat (length sy) `mod` 4 = 3) ∨
     (p = 2%nat ∧ Z.of_nat (length sy) `mod` 4 = 2));
  eo_length : Z.of_nat (length out) = 4 * ((Z.of_nat (length data) + 2) / 3);
}.

Lemma encode_chunks_spec data :
  bytes_ok data → encoding_of data (chunks 3 data ≫= base64_encode_chunk).
Proof.
  revert data. apply (chunks_ind 3 (λ data, bytes_ok data → encoding_of data _)); [lia| |].
  - intros l Hl Hb. destruct (decide (l = [])) as [->|Hne].
    { split; [|done]. exists [], 0%nat. auto using Forall_nil. }
    rewrite chunks_last by (done || lia). cbn [mbind list_bind]. rewrite app_nil_r.
    assert (0 < length l)%nat by (destruct l; simpl; [done|lia]).
    destruct (encode_chunk_spec l Hb) as (E & Hs & Hn & Hd); [lia|]. rewrite E. split.
    + exists (chunk_symbols l), (3 - length l)%nat.
      split_and!; [done|done| |].
      * rewrite chunks_last; [|intros E'; by rewrite E' in Hn|lia].
        cbn [mapM]. rewrite Hd. simpl. by rewrite app_nil_r.
      * rewrite Hn. clear -Hl H. destruct l as [|? [|? []]]; simpl in Hl, H; try lia; auto.
    + rewrite length_app, length_replicate, Hn. clear -Hl H.
      destruct l as [|? [|? []]]; simpl in Hl, H; try lia; done.
  - intros k l Hk IH [Hbk Hbl]%Forall_app. rewrite chunks_app by (done || lia). cbn [mbind list_bind].
    destruct (encode_chunk_spec k Hbk) as (E & Hs & Hn & Hd); [lia|].
    destruct (IH Hbl) as [(sy & p & E' & Hs' & Hd' & Hp) Hlen].
    rewrite Hk in E, Hn. cbn [Nat.sub replicate] in E. rewrite app_nil_r in E. rewrite E, E' in *. split.
    + exists (chunk_symbols k ++ sy), p. split_and!; [by rewrite (assoc_L (++))|by apply Forall_app| |].
      * rewrite chunks_app by (done || lia). cbn [mapM]. rewrite Hd. cbn [mbind option_bind].
        apply fmap_Some in Hd' as (parts & -> & ->). done.
      * rewrite length_app, Hn, Nat2Z.inj_add, (Z.add_comm (Z.of_nat 4)).
        change (Z.of_nat 4) with (1 * 4). by rewrite Z.mod_add.
    + rewrite length_app in Hlen. rewrite !length_app, Hk, Hn. Z.div_mod_to_equations; lia.
Qed.

Lemma take_while_app {A} (p : A → bool) l k :
  Forall (λ x, p x = true) l → (∀ x, head k = Some x → p x = false) →
  take_while p (l ++ k) = l.
Proof.
  intros Hl Hk. induction Hl as [|x l Hx _ IH]; simpl; [|by rewrite Hx, IH].
  destruct k as [|x k]; [done|]. simpl. by rewrite (Hk x).
Qed.

Lemma filter_all {A} (p : A → bool) l : Forall (λ x, p x = true) l → List.filter p l = l.
Proof. induction 1 as [|x l Hx _ IH]; simpl; [done|]. by rewrite Hx, IH. Qed.

Lemma decode_encoding data out max :
  encoding_of data out → bytes_ok out →
  base64_decode_bounded (string_of_bytes out) max =
  if max <? Z.of_nat (length out) then None else Some data.
Proof.
  intros [(sy & p & -> & Hs & Hd & Hp) Hlen] Hb. unfold base64_decode_bounded.
  rewrite as_bytes_string_of_bytes by done. case_match; [done|].
  rewrite filter_all.
  2: { apply Forall_app. split; [|by apply Forall_replicate].
       eapply Forall_impl; [done|]. intros c (_ & -> & _). done. }
  rewrite take_while_app.
  2: { eapply Forall_impl; [done|]. intros c (Hc & _). simpl. by rewrite (proj2 (Z.eqb_neq _ _) Hc). }
  2: { destruct p; simpl; [done|]. by intros x [= <-]. }
  assert (Z.of_nat (length (sy ++ replicate p 61)) `mod` 4 = 0) as Hm
    by (by rewrite Hlen, Z.mul_comm, Z.mod_mul).
  rewrite drop_app_length, Hm, length_app, length_replicate.
  replace (Z.of_nat (length sy + p) - Z.of_nat (length sy)) with (Z.of_nat p) by lia.
  assert (existsb (λ byte, negb (byte =? 61)) (replicate p 61) = false) as -> by (clear; by induction p).
  destruct Hp as [->|[[-> ->]|[-> ->]]]; exact Hd.
Qed.

Lemma encoded_bytes data out : encoding_of data out → bytes_ok out.
Proof.
  intros [(sy & p & -> & Hs & _) _]. apply Forall_app. split; [|by apply Forall_replicate].
  eapply Forall_impl; [done|]. by intros c (_ & _ & ?).
Qed.

Lemma length_base64_encode data :
  bytes_ok data →
  Z.of_nat (length (as_bytes (base64_encode data))) = 4 * ((Z.of_nat (length data) + 2) / 3).
Proof.
  intros Hb%encode_chunks_spec. unfold base64_encode.
  rewrite as_bytes_string_of_bytes by by eapply encoded_bytes. by rewrite (eo_length _ _ Hb).
Qed.

Lemma decode_bounded_encode data max :
  bytes_ok data →
  base64_decode_bounded (base64_encode data) max =
  if max <? 4 * ((Z.of_nat (length data) + 2) / 3) then None else Some data.
Proof.
  intros Hb%encode_chunks_spec. unfold base64_encode.
  pose proof (encoded_bytes _ _ Hb). rewrite (decode_encoding data) by done.
  by rewrite (eo_length _ _ Hb).
Qed.

(** Every byte string survives base64: it encodes to [4 * ceil(n / 3)] symbols, the bounded
    decoder gives it back exactly when that many fit the ceiling and nothing otherwise, and no
    two byte strings have the same encoding. *)
Theorem base64_roundtrip data data' max :
  bytes_ok data → bytes_ok data' →
  Z.of_nat (length (as_bytes (base64_encode data))) = 4 * ((Z.of_nat (length data) + 2) / 3) ∧
  base64_decode_bounded (base64_encode data) max =
    (if max <? 4 * ((Z.of_nat (length data) + 2) / 3) then None else Some data) ∧
  (base64_encode data = base64_encode data' → data = data').
Proof.
  intros Hb Hb'. split_and!; [by apply length_base64_encode|by apply decode_bounded_encode|].
  intros E. set (m := Z.max (4 * ((Z.of_nat (length data) + 2) / 3)) (4 * ((Z.of_nat (length data') + 2) / 3))).
  pose proof (decode_bounded_encode data m Hb) as H1.
  pose proof (decode_bounded_encode data' m Hb') as H2.
  rewrite <-E, H1, !(proj2 (Z.ltb_ge _ _)) in H2 by (unfold m; lia). congruence.
Qed.

(** ** Messages

    The protobuf messages, with the fields of the schema under the names [prost] gives them. *)

(* SRC crates/exocortex-wire/proto/sse.proto 3-14 Invalidation *)
Inductive PbKind :=
  | PbMemoryUpserted (id snapshot_json : list Z)
  | PbMemoryDeleted (id : list Z)
  | PbRelationshipUpserted (id from to : list Z) (kind : Z) (snapshot_json : list Z)
  | PbRelationshipDeleted (id : list Z)
  | PbVisibilityAdvance
  | PbGraphReseed (snapshot_json : list Z)
  | PbDiscoveryAvailable (record_json : list Z).

(* SRC crates/exocortex-wire/proto/sse.proto 3-14 Invalidation *)
Record PbInvalidation := mkPbInvalidation {
  pi_kind : option PbKind;
  pi_backend_lsn : Z;
}.

(* SRC crates/exocortex-wire/proto/cluster.proto 4-10 InvalidationEnvelope *)
Record InvalidationEnvelope := mkEnvelope {
  wire_version : Z;
  ontology_fingerprint : list Z;
  emitter_node_id : string;
  env_inv : option PbInvalidation;
  env_hmac : list Z;
}.

(** [google.protobuf.Timestamp]. *)
Record PbTimestamp := mkTimestamp { ts_seconds : Z; ts_nanos : Z }.

(* SRC crates/exocortex-wire/proto/ingest.proto 137-142 Rights *)
Record PbRights := mkPbRights {
  pr_licence : string;
  pr_consent_basis : string;
  pr_retention_until : option PbTimestamp;
  pr_redacted : bool;
}.

(* SRC crates/exocortex-wire/proto/ingest.proto 165-169 ExternalKey *)
Record PbExternalKey := mkPbExternalKey {
  ek_table_uuid : list Z;
  ek_logical_pk : string;
  ek_mapping_version : Z;
}.

(* SRC crates/exocortex-wire/proto/ingest.proto 117-132 MemoryDraft *)
Record PbMemoryDraft := mkPbMemoryDraft {
  pm_draft_key : string;
  pm_id : string;
  pm_memory_type : string;
  pm_title : string;
  pm_content : string;
  pm_tags : list string;
  pm_visibility : Z;
  pm_valid_from : option PbTimestamp;
  pm_valid_until : option PbTimestamp;
  pm_external_key : option PbExternalKey;
  pm_rights : option PbRights;
}.

(* SRC crates/exocortex-wire/proto/ingest.proto 144-157 RelationshipDraft *)
Record PbRelationshipDraft := mkPbRelationshipDraft {
  pd_from_draft_key : string;
  pd_to_draft_key : string;
  pd_kind : string;
  pd_strength : f32;
  pd_confidence : f32;
  pd_context : string;
  pd_visibility : Z;
  pd_to_memory_id : string;
}.

(* SRC crates/exocortex-wire/proto/ingest.proto 159-163 ExternalSnapshotInfo *)
Record PbSnapshotInfo := mkPbSnapshotInfo {
  si_snapshot_id : string;
  si_schema_hash : list Z;
  si_source_flavor : string;
}.

(* SRC crates/exocortex-wire/proto/ingest.proto 189-195 ClientMetadata *)
Record PbClientMetadata := mkPbClientMetadata {
  cm_playbook_version : string;
  cm_client_version : string;
  cm_harness_hint : string;
  cm_project_id : string;
  cm_team_id : string;
}.

(* SRC crates/exocortex-wire/proto/ingest.proto 179-187 ProducerIdentity *)
Record PbProducer := mkPbProducer {
  pp_node_id : string;
  pp_agent_id : string;
  pp_adapter_id : string;
  pp_hmac_signature : list Z;
  pp_client_metadata : option PbClientMetadata;
}.

(* SRC crates/exocortex-wire/proto/ingest.proto 99-115 IngestBatch *)
Record PbIngestBatch := mkPbIngestBatch {
  pb_org_id : string;
  pb_source_uri : string;
  pb_producer_id : string;
  pb_batch_id : string;
  pb_mapping_version : string;
  pb_ontology_fingerprint : list Z;
  pb_ceiling : Z;
  pb_checksum : string;
  pb_observed_at : option PbTimestamp;
  pb_recorded_at : option PbTimestamp;
  pb_snapshot : option PbSnapshotInfo;
  pb_memories : list PbMemoryDraft;
  pb_relationships : list PbRelationshipDraft;
  pb_producer : option PbProducer;
}.

(** [encode_to_vec] and [decode] of a message type: a value whose fields are within the schema's
    ranges ([ok]) decodes from its encoding. *)
Class Message (M : Type) (ok : M → Prop) := {
  encode_to_vec : M → list Z;
  decode : list Z → result M string;
  decode_encode m : ok m → decode (encode_to_vec m) = Ok m;
  encode_to_vec_bytes m : ok m → bytes_ok (encode_to_vec m);
}.

Lemma encode_to_vec_inj `{Message M ok} x y :
  ok x → ok y → encode_to_vec x = encode_to_vec y → x = y.
Proof. intros Hx Hy E. apply decode_encode in Hx, Hy. rewrite E in Hx. congruence. Qed.

Definition kind_ok (k : PbKind) : Prop :=
  match k with
  | PbMemoryUpserted id js => bytes_ok id ∧ bytes_ok js
  | PbMemoryDeleted id | PbRelationshipDeleted id => bytes_ok id
  | PbRelationshipUpserted id f t k js =>
      bytes_ok id ∧ bytes_ok f ∧ bytes_ok t ∧ in_range 32 k ∧ bytes_ok js
  | PbVisibilityAdvance => True
  | PbGraphReseed js | PbDiscoveryAvailable js => bytes_ok js
  end.

Definition envelope_ok (e : InvalidationEnvelope) : Prop :=
  in_range 32 (wire_version e) ∧ bytes_ok (ontology_fingerprint e) ∧ bytes_ok (env_hmac e) ∧
  match env_inv e with
  | Some i => in_range 64 (pi_backend_lsn i) ∧ match pi_kind i with Some k => kind_ok k | None => True end
  | None => True
  end.

Definition in_i (w x : Z) : Prop := - 2 ^ (w - 1) ≤ x < 2 ^ (w - 1).
Definition timestamp_ok (t : PbTimestamp) : Prop := in_i 64 (ts_seconds t) ∧ in_i 32 (ts_nanos t).
Definition opt_ok {A} (P : A → Prop) (o : option A) : Prop :=
  match o with Some x => P x | None => True end.

Definition memory_draft_ok (m : PbMemoryDraft) : Prop :=
  in_i 32 (pm_visibility m) ∧ opt_ok timestamp_ok (pm_valid_from m) ∧
  opt_ok timestamp_ok (pm_valid_until m) ∧
  opt_ok (λ k, bytes_ok (ek_table_uuid k) ∧ in_range 32 (ek_mapping_version k)) (pm_external_key m) ∧
  opt_ok (λ r, opt_ok timestamp_ok (pr_retention_until r)) (pm_rights m).
Definition relationship_draft_ok (r : PbRelationshipDraft) : Prop :=
  in_i 32 (pd_visibility r) ∧ valid_binary f32_prec f32_emax (pd_strength r) = true ∧
  valid_binary f32_prec f32_emax (pd_confidence r) = true.
Definition snapshot_info_ok (s : PbSnapshotInfo) : Prop := bytes_ok (si_schema_hash s).
Definition batch_ok (b : PbIngestBatch) : Prop :=
  bytes_ok (pb_ontology_fingerprint b) ∧ in_i 32 (pb_ceiling b) ∧
  opt_ok timestamp_ok (pb_observed_at b) ∧ opt_ok timestamp_ok (pb_recorded_at b) ∧
  opt_ok snapshot_info_ok (pb_snapshot b) ∧ Forall memory_draft_ok (pb_memories b) ∧
  Forall relationship_draft_ok (pb_relationships b) ∧
  opt_ok (λ p, bytes_ok (pp_hmac_signature p)) (pb_producer b).

(** ** Signatures *)

(** [Hmac<Sha256>] over the bytes fed to [update]. *)
Class Hmac := {
  hmac_sha256 : list Z → list Z → list Z;
  hmac_length key m : length (hmac_sha256 key m) = 32%nat;
  hmac_bytes key m : bytes_ok (hmac_sha256 key m);
}.

(** Two messages one key gives the same authentication code. *)
Definition hmac_collision `{Hmac} (key : list Z) : Prop :=
  ∃ x y, x ≠ y ∧ hmac_sha256 key x = hmac_sha256 key y.

(* SRC crates/exocortex-wire/src/signing.rs 43-51 derive_sse_client_key *)
Definition derive_sse_client_key `{Hmac} (cluster_key : list Z) (token : string) : list Z :=
  hmac_sha256 cluster_key (as_bytes "sse-client:" ++ as_bytes token).

(* SRC crates/exocortex-wire/src/signing.rs 53-62 derive_supervised_store_token *)
Definition derive_supervised_store_token `{Hmac} (cluster_key : list Z) : list Z :=
  hmac_sha256 cluster_key (as_bytes "supervised-store:").

(** The tail every verification shares: a present signature of the right length, equal (in
    constant time) to the recomputed one. *)
Definition ct_verify `{Hmac} (key bytes signature : list Z) : bool :=
  if Nat.eqb (length signature) 0 then false
  else
    let expected := hmac_sha256 key bytes in
    Nat.eqb (length expected) (length signature) && bool_decide (expected = signature).

Definition with_hmac (h : list Z) (e : InvalidationEnvelope) : InvalidationEnvelope :=
  mkEnvelope (wire_version e) (ontology_fingerprint e) (emitter_node_id e) (env_inv e) h.

Section envelopes.
Context `{Hmac, Message InvalidationEnvelope envelope_ok}.

(* SRC crates/exocortex-wire/src/signing.rs 64-68 unsigned_envelope_bytes *)
Definition unsigned_envelope_bytes (envelope : InvalidationEnvelope) : list Z :=
  encode_to_vec (with_hmac [] envelope).

(* SRC crates/exocortex-wire/src/signing.rs 70-78 sign_invalidation_envelope *)
Definition sign_invalidation_envelope (key : list Z) (envelope : InvalidationEnvelope)
    : InvalidationEnvelope :=
  with_hmac (hmac_sha256 key (unsigned_envelope_bytes envelope)) envelope.

(* SRC crates/exocortex-wire/src/signing.rs 80-94 verify_invalidation_envelope *)
Definition verify_invalidation_envelope (key : list Z) (envelope : InvalidationEnvelope) : bool :=
  ct_verify key (unsigned_envelope_bytes envelope) (env_hmac envelope).
End envelopes.

Definition with_signature (s : list Z) (p : PbProducer) : PbProducer :=
  mkPbProducer (pp_node_id p) (pp_agent_id p) (pp_adapter_id p) s (pp_client_metadata p).
Definition with_producer (p : option PbProducer) (b : PbIngestBatch) : PbIngestBatch :=
  mkPbIngestBatch (pb_org_id b) (pb_source_uri b) (pb_producer_id b) (pb_batch_id b)
    (pb_mapping_version b) (pb_ontology_fingerprint b) (pb_ceiling b) (pb_checksum b)
    (pb_observed_at b) (pb_recorded_at b) (pb_snapshot b) (pb_memories b) (pb_relationships b) p.
Definition with_checksum (c : string) (b : PbIngestBatch) : PbIngestBatch :=
  mkPbIngestBatch (pb_org_id b) (pb_source_uri b) (pb_producer_id b) (pb_batch_id b)
    (pb_mapping_version b) (pb_ontology_fingerprint b) (pb_ceiling b) c
    (pb_observed_at b) (pb_recorded_at b) (pb_snapshot b) (pb_memories b) (pb_relationships b)
    (pb_producer b).
Definition with_tags (t : list string) (m : PbMemoryDraft) : PbMemoryDraft :=
  mkPbMemoryDraft (pm_draft_key m) (pm_id m) (pm_memory_type m) (pm_title m) (pm_content m) t
    (pm_visibility m) (pm_valid_from m) (pm_valid_until m) (pm_external_key m) (pm_rights m).

Section batches.
Context `{Hmac, Message PbIngestBatch batch_ok}.

(* SRC crates/exocortex-wire/src/signing.rs 164-173 unsigned_bytes *)
Definition unsigned_bytes (b : PbIngestBatch) : list Z :=
  encode_to_vec (with_producer (with_signature [] <$> pb_producer b) b).

(* SRC crates/exocortex-wire/src/signing.rs 175-184 sign_batch *)
Definition sign_batch (key : list Z) (b : PbIngestBatch) : PbIngestBatch :=
  let bytes := unsigned_bytes b in
  match pb_producer b with
  | Some p => with_producer (Some (with_signature (hmac_sha256 key bytes) p)) b
  | None => b
  end.

(* SRC crates/exocortex-wire/src/signing.rs 186-203 verify_signature *)
Definition verify_signature (key : list Z) (b : PbIngestBatch) : bool :=
  match pb_producer b with
  | Some p => ct_verify key (unsigned_bytes b) (pp_hmac_signature p)
  | None => false
  end.
End batches.

(** ** Registrations *)

(* SRC crates/exocortex-wire/proto/ingest.proto 75-79 ProjectionField *)
Record PbProjectionField := mkPbProjectionField {
  pf_source_field : string;
  pf_memory_type : string;
  pf_kind : string;
}.

(* SRC crates/exocortex-wire/proto/ingest.proto 80-83 SourceColumn *)
Record PbSourceColumn := mkPbSourceColumn { sc_name : string; sc_data_type : string }.

(* SRC crates/exocortex-wire/proto/ingest.proto 84-88 ProjectionBounds *)
Record PbProjectionBounds := mkPbProjectionBounds {
  pj_max_rows_per_window : Z;
  pj_max_rows_per_run : Z;
  pj_max_graph_share_percent : Z;
}.

(* SRC crates/exocortex-wire/proto/ingest.proto 89-96 ProjectionDescriptor *)
Record PbProjectionDescriptor := mkPbProjection {
  pj_selector : string;
  pj_fields : list PbProjectionField;
  pj_source_schema : list PbSourceColumn;
  pj_mapping_version : Z;
  pj_bounds : option PbProjectionBounds;
  pj_last_snapshot_id : string;
}.

(* SRC crates/exocortex-wire/proto/ingest.proto 47-74 RegisterSourceRequest *)
Record PbRegisterSource := mkPbRegisterSource {
  rg_org_id : string;
  rg_source_uri : string;
  rg_producer_id : string;
  rg_ceiling : Z;
  rg_source_flavor : string;
  rg_producer : option PbProducer;
  rg_producer_kind : Z;
  rg_projection : option PbProjectionDescriptor;
  rg_default_rights : option PbRights;
}.

Definition registration_ok (r : PbRegisterSource) : Prop :=
  in_i 32 (rg_ceiling r) ∧ in_i 32 (rg_producer_kind r) ∧
  opt_ok (λ p, bytes_ok (pp_hmac_signature p)) (rg_producer r) ∧
  opt_ok (λ p, in_range 32 (pj_mapping_version p) ∧
    opt_ok (λ b, in_range 64 (pj_max_rows_per_window b) ∧ in_range 64 (pj_max_rows_per_run b) ∧
                 in_range 32 (pj_max_graph_share_percent b)) (pj_bounds p)) (rg_projection r) ∧
  opt_ok (λ r, opt_ok timestamp_ok (pr_retention_until r)) (rg_default_rights r).

Definition with_registrant (p : option PbProducer) (r : PbRegisterSource) : PbRegisterSource :=
  mkPbRegisterSource (rg_org_id r) (rg_source_uri r) (rg_producer_id r) (rg_ceiling r)
    (rg_source_flavor r) p (rg_producer_kind r) (rg_projection r) (rg_default_rights r).

Section registrations.
Context `{Hmac, Message PbRegisterSource registration_ok}.

(* SRC crates/exocortex-wire/src/signing.rs 205-216 unsigned_registration_bytes *)
Definition unsigned_registration_bytes (r : PbRegisterSource) : list Z :=
  encode_to_vec (with_registrant (with_signature [] <$> rg_producer r) r).

(* SRC crates/exocortex-wire/src/signing.rs 218-227 sign_registration *)
Definition sign_registration (key : list Z) (r : PbRegisterSource) : PbRegisterSource :=
  let bytes := unsigned_registration_bytes r in
  match rg_producer r with
  | Some p => with_registrant (Some (with_signature (hmac_sha256 key bytes) p)) r
  | None => r
  end.

(* SRC crates/exocortex-wire/src/signing.rs 229-246 verify_registration *)
Definition verify_registration (key : list Z) (r : PbRegisterSource) : bool :=
  match rg_producer r with
  | Some p =>
      if bool_decide (pp_hmac_signature p = []) then false
      else ct_verify key (unsigned_registration_bytes r) (pp_hmac_signature p)
  | None => false
  end.

(* SRC crates/exocortex-wire/src/signing.rs 248-280 registration *)
Definition registration (key : list Z) (org_id source_uri producer_id : string) (ceiling : Z)
    (source_flavor node_id : string) (producer_kind : Z) : PbRegisterSource :=
  sign_registration key (mkPbRegisterSource org_id source_uri producer_id ceiling source_flavor
    (Some (mkPbProducer node_id "" "" [] None)) producer_kind None None).
End registrations.

(** ** The projection's schema hash *)

(** The order of [(String, String)]. *)
Definition compare_column : string * string → string * string → comparison :=
  compare_lex (compare_on as_bytes compare_bytes) (compare_on as_bytes compare_bytes).

(** The column set a schema hash covers. *)
Definition schema_preimage (columns : list (string * string)) : list Z :=
  merge_sort (le_of compare_column) columns ≫= λ c, as_bytes c.1 ++ [0] ++ as_bytes c.2 ++ [0].

(* SRC crates/exocortex-wire/src/projection.rs 15-30 schema_hash *)
Definition schema_hash `{Sha256} (columns : list (string * string)) : list Z :=
  sha256 (schema_preimage columns).

(* SRC crates/exocortex-wire/src/projection.rs 32-42 schema_hash_hex *)
Definition schema_hash_hex `{Sha256} (columns : list (string * string)) : string :=
  hex (schema_hash columns).

(** ** The canonical checksum *)

(* SRC crates/exocortex-wire/src/signing.rs 96-100 CHECKSUM_DOMAIN *)
Definition CHECKSUM_DOMAIN : list Z := as_bytes "exocortex-ingest-checksum".
(* SRC crates/exocortex-wire/src/signing.rs 101-101 CHECKSUM_FORMAT_VERSION *)
Definition CHECKSUM_FORMAT_VERSION : Z := 2.

(* SRC crates/exocortex-wire/src/signing.rs 152-155 push_len *)
Definition push_len (preimage : list Z) (len : Z) : list Z := preimage ++ be_bytes 8 len.

(* SRC crates/exocortex-wire/src/signing.rs 147-150 push_len_prefixed *)
Definition push_len_prefixed (preimage value : list Z) : list Z :=
  push_len preimage (Z.of_nat (length value)) ++ value.

(* SRC crates/exocortex-wire/src/signing.rs 139-145 push_collection *)
Definition push_collection (preimage name : list Z) (rows : list (list Z)) : list Z :=
  foldl push_len_prefixed
    (push_len (push_len_prefixed preimage name) (Z.of_nat (length rows))) rows.

(** [Vec<String>::sort] and [Vec<Vec<u8>>::sort]. *)
Definition sort_strings (l : list string) : list string :=
  merge_sort (le_of (compare_on as_bytes compare_bytes)) l.
Definition sort_rows (l : list (list Z)) : list (list Z) :=
  merge_sort (le_of (compare_on id compare_bytes)) l.

Section checksum.
Context `{Message PbMemoryDraft memory_draft_ok, Message PbRelationshipDraft relationship_draft_ok,
  Message PbSnapshotInfo snapshot_info_ok}.

(** A memory with its tags sorted, as the checksum covers it. *)
Definition canonical_memory (m : PbMemoryDraft) : PbMemoryDraft :=
  with_tags (sort_strings (pm_tags m)) m.

(* SRC crates/exocortex-wire/src/signing.rs 103-137 canonical_checksum *)
Definition checksum_preimage (b : PbIngestBatch) : list Z :=
  let memories := sort_rows (encode_to_vec ∘ canonical_memory <$> pb_memories b) in
  let relationships := sort_rows (encode_to_vec <$> pb_relationships b) in
  let preimage := push_len_prefixed [] CHECKSUM_DOMAIN in
  let preimage := preimage ++ be_bytes 4 CHECKSUM_FORMAT_VERSION in
  let preimage := push_collection preimage (as_bytes "memories") memories in
  let preimage := push_collection preimage (as_bytes "relationships") relationships in
  let preimage := push_len_prefixed preimage (as_bytes "snapshot") in
  match pb_snapshot b with
  | Some snapshot => push_len_prefixed (preimage ++ [1]) (encode_to_vec snapshot)
  | None => preimage ++ [0]
  end.

(* SRC crates/exocortex-wire/src/signing.rs 103-137 canonical_checksum *)
Definition canonical_checksum `{Blake3} (b : PbIngestBatch) : string :=
  hex (blake3 (checksum_preimage b)).

(* SRC crates/exocortex-wire/src/signing.rs 157-162 prepare_batch *)
Definition prepare_batch `{Blake3, Hmac, Message PbIngestBatch batch_ok} (key : list Z)
    (b : PbIngestBatch) : PbIngestBatch :=
  sign_batch key (with_checksum (canonical_checksum b) b).
End checksum.

(** ** Resource ceilings *)

(* SRC crates/exocortex-wire/src/limits.rs 7-8 MAX_MEMORY_CONTENT_BYTES *)
Definition MAX_MEMORY_CONTENT_BYTES : Z := 64 * 1024.
(* SRC crates/exocortex-wire/src/limits.rs 9-10 MAX_TAGS_PER_MEMORY *)
Definition MAX_TAGS_PER_MEMORY : Z := 32.
(* SRC crates/exocortex-wire/src/limits.rs 11-12 MAX_TAG_BYTES *)
Definition MAX_TAG_BYTES : Z := 128.
(* SRC crates/exocortex-wire/src/limits.rs 13-14 MAX_TAG_BYTES_PER_MEMORY *)
Definition MAX_TAG_BYTES_PER_MEMORY : Z := 2048.
(* SRC crates/exocortex-wire/src/limits.rs 15-16 MAX_MEMORIES_PER_BATCH *)
Definition MAX_MEMORIES_PER_BATCH : Z := 256.
(* SRC crates/exocortex-wire/src/limits.rs 17-18 MAX_EDGES_PER_BATCH *)
Definition MAX_EDGES_PER_BATCH : Z := 64.
(* SRC crates/exocortex-wire/src/limits.rs 19-20 MAX_SSE_RESEED_JSON_BYTES *)
Definition MAX_SSE_RESEED_JSON_BYTES : Z := 32 * 1024 * 1024.
(* SRC crates/exocortex-wire/src/limits.rs 21-23 MAX_SSE_ENVELOPE_BYTES *)
Definition MAX_SSE_ENVELOPE_BYTES : Z := MAX_SSE_RESEED_JSON_BYTES + 4096.
(* SRC crates/exocortex-wire/src/limits.rs 24-25 MAX_SSE_EVENT_DATA_BYTES *)
Definition MAX_SSE_EVENT_DATA_BYTES : Z := (MAX_SSE_ENVELOPE_BYTES + 2) / 3 * 4.

Definition byte_len (s : string) : Z := Z.of_nat (String.length s).

(* SRC crates/exocortex-wire/src/limits.rs 27-42 validate_memory_fields *)
Definition validate_memory_fields (content : string) (tags : list string) : result unit string :=
  if MAX_MEMORY_CONTENT_BYTES <? byte_len content
  then Err "memory content exceeds 65536 UTF-8 bytes"%string
  else if MAX_TAGS_PER_MEMORY <? Z.of_nat (length tags)
  then Err "memory has more than 32 tags"%string
  else if existsb (λ tag, MAX_TAG_BYTES <? byte_len tag) tags
  then Err "tag exceeds 128 UTF-8 bytes"%string
  else if MAX_TAG_BYTES_PER_MEMORY <? foldr Z.add 0 (byte_len <$> tags)
  then Err "aggregate tag bytes exceed 2048"%string
  else Ok tt.

(** [for memory in memories { validate_memory_fields(..)?; }]. *)
Fixpoint validate_memories (memories : list PbMemoryDraft) : result unit string :=
  match memories with
  | [] => Ok tt
  | memory :: memories =>
      let? _ := validate_memory_fields (pm_content memory) (pm_tags memory) in
      validate_memories memories
  end.

(* SRC crates/exocortex-wire/src/limits.rs 44-59 validate_batch_resources *)
Definition validate_batch_resources (memories : list PbMemoryDraft)
    (edges : list PbRelationshipDraft) : result unit string :=
  if MAX_MEMORIES_PER_BATCH <? Z.of_nat (length memories)
  then Err "batch has more than 256 memories"%string
  else if MAX_EDGES_PER_BATCH <? Z.of_nat (length edges)
  then Err "batch has more than 64 relationships"%string
  else validate_memories memories.

(** ** What a signature proves *)

Section hmac_facts.
Context `{Hmac}.

Lemma ct_verify_iff key bytes signature :
  ct_verify key bytes signature = true ↔ signature = hmac_sha256 key bytes.
Proof.
  unfold ct_verify. split.
  - intros Hv. break_hyp Hv. bool_prop. done.
  - intros ->. by rewrite hmac_length, bool_decide_eq_true_2.
Qed.

(** One signature over two byte strings. *)
Lemma ct_verify_same key bytes bytes' signature :
  ct_verify key bytes signature = true → ct_verify key bytes' signature = true →
  bytes = bytes' ∨ hmac_collision key.
Proof.
  rewrite !ct_verify_iff. intros -> E. destruct (decide (bytes = bytes')); [by left|right].
  by exists bytes, bytes'.
Qed.
End hmac_facts.

Section signatures.
Context `{Hmac, Message InvalidationEnvelope envelope_ok, Message PbIngestBatch batch_ok}.

Lemma envelope_ok_unsigned e : envelope_ok e → envelope_ok (with_hmac [] e).
Proof. unfold envelope_ok. simpl. intros (? & ? & _ & ?). split_and!; [done|done|constructor|done]. Qed.

Lemma sign_envelope_ok key e : envelope_ok e → envelope_ok (sign_invalidation_envelope key e).
Proof. unfold envelope_ok. simpl. intros (? & ? & _ & ?). split_and!; [done|done|apply hmac_bytes|done]. Qed.

Lemma with_hmac_eta e : with_hmac (env_hmac e) e = e.
Proof. by destruct e. Qed.

Lemma verify_envelope_iff key e :
  verify_invalidation_envelope key e = true ↔ e = sign_invalidation_envelope key e.
Proof.
  unfold verify_invalidation_envelope, sign_invalidation_envelope.
  rewrite ct_verify_iff. split; [intros <-; by rewrite with_hmac_eta|]. intros E. by rewrite E at 1.
Qed.

Lemma sign_signed key h e :
  sign_invalidation_envelope key (with_hmac h e) = sign_invalidation_envelope key e.
Proof. done. Qed.

(** A signed envelope verifies under its key, whatever signature it carried before; an envelope
    verifies only if it is exactly what signing it gives; and a signature moved to another
    envelope verifies only for the same four fields, or under an HMAC collision. *)
Theorem envelope_signature key :
  (∀ e, verify_invalidation_envelope key (sign_invalidation_envelope key e) = true) ∧
  (∀ e h, sign_invalidation_envelope key (with_hmac h e) = sign_invalidation_envelope key e) ∧
  (∀ e, verify_invalidation_envelope key e = true ↔ e = sign_invalidation_envelope key e) ∧
  (∀ e e', envelope_ok e → envelope_ok e' → env_hmac e = env_hmac e' →
    verify_invalidation_envelope key e = true → verify_invalidation_envelope key e' = true →
    e = e' ∨ hmac_collision key).
Proof.
  split_and!; [|done|intros e; apply verify_envelope_iff|].
  - intros e. by apply verify_envelope_iff.
  - intros e e' He He' Eh Hv Hv'. unfold verify_invalidation_envelope in *. rewrite <-Eh in Hv'.
    destruct (ct_verify_same _ _ _ _ Hv Hv') as [E|]; [left|by right].
    apply encode_to_vec_inj in E; [|by apply envelope_ok_unsigned..].
    unfold with_hmac in E. destruct e, e'. simpl in *. congruence.
Qed.

Lemma unsigned_bytes_sign key b : unsigned_bytes (sign_batch key b) = unsigned_bytes b.
Proof. unfold sign_batch, unsigned_bytes. by destruct (pb_producer b) eqn:E; simpl; rewrite ?E. Qed.

(** Signing covers the whole batch: a signed batch verifies iff it names a producer, an unsigned
    or anonymous one never does, and the same signature verifies only for the same batch, the
    checksum field included, or under an HMAC collision. *)
Theorem batch_signature key :
  (∀ b, verify_signature key (sign_batch key b) = bool_decide (is_Some (pb_producer b))) ∧
  (∀ b p, pb_producer b = Some p → pp_hmac_signature p = [] → verify_signature key b = false) ∧
  (∀ b b' p p', batch_ok b → batch_ok b' → pb_producer b = Some p → pb_producer b' = Some p' →
    pp_hmac_signature p = pp_hmac_signature p' →
    verify_signature key b = true → verify_signature key b' = true →
    b = b' ∨ hmac_collision key).
Proof.
  split_and!.
  - intros b. unfold verify_signature. rewrite unsigned_bytes_sign. unfold sign_batch.
    destruct (pb_producer b) as [p|] eqn:E; simpl; rewrite ?E; [|done].
    by apply ct_verify_iff.
  - intros b p Hp Hs. unfold verify_signature, ct_verify. by rewrite Hp, Hs.
  - intros b b' p p' Hb Hb' Hp Hp' Hs Hv Hv'. unfold verify_signature in *.
    rewrite Hp in Hv. rewrite Hp', <-Hs in Hv'.
    destruct (ct_verify_same _ _ _ _ Hv Hv') as [E|]; [left|by right]. unfold unsigned_bytes in E.
    rewrite Hp, Hp' in E. apply encode_to_vec_inj in E.
    + unfold with_producer, with_signature in E. clear Hb Hb' Hv Hv'.
      destruct b, b', p, p'. cbn in Hp, Hp', Hs, E. by injection E; intros; simplify_eq.
    + unfold batch_ok in *. simpl. destruct Hb as (? & ? & ? & ? & ? & ? & ? & _).
      split_and!; try done. constructor.
    + unfold batch_ok in *. simpl. destruct Hb' as (? & ? & ? & ? & ? & ? & ? & _).
      split_and!; try done. constructor.
Qed.
End signatures.

(** ** What the checksum covers *)

(** A length-prefixed byte string. *)
Definition frame (v : list Z) : list Z := be_bytes 8 (Z.of_nat (length v)) ++ v.

Lemma prefix_free_frame : prefix_free fits64 frame.
Proof.
  intros v v' k k' Hv Hv'. unfold frame. rewrite <-!(assoc_L (++)). intros E.
  apply (prefix_free_be_bytes 8) in E as [Hlen E].
  - apply app_inj_length in E; [done|lia].
  - unfold fits64 in Hv. change (256 ^ Z.of_nat 8) with (2 ^ 64). lia.
  - unfold fits64 in Hv'. change (256 ^ Z.of_nat 8) with (2 ^ 64). lia.
Qed.

Definition rows_fit (rows : list (list Z)) : Prop :=
  Forall fits64 rows ∧ Z.of_nat (length rows) < 2 ^ 64.
Definition enc_rows (rows : list (list Z)) : list Z :=
  be_bytes 8 (Z.of_nat (length rows)) ++ (rows ≫= frame).

Lemma prefix_free_rows : prefix_free rows_fit enc_rows.
Proof.
  intros l l' k k' [Hl Hn] [Hl' Hn']. unfold enc_rows. rewrite <-!(assoc_L (++)). intros E.
  apply (prefix_free_be_bytes 8) in E as [Hlen E].
  - apply (enc_items_inj fits64) in E; [done|apply prefix_free_frame|done..|lia].
  - change (256 ^ Z.of_nat 8) with (2 ^ 64). lia.
  - change (256 ^ Z.of_nat 8) with (2 ^ 64). lia.
Qed.

Lemma push_collection_app pre name rows :
  push_collection pre name rows = pre ++ frame name ++ enc_rows rows.
Proof.
  unfold push_collection, push_len, push_len_prefixed, push_len, enc_rows, frame.
  assert (∀ acc, foldl (λ preimage value, (preimage ++ be_bytes 8 (Z.of_nat (length value))) ++ value)
    acc rows = acc ++ (rows ≫= frame)) as ->.
  { induction rows as [|v rows IH]; intros acc; simpl; [by rewrite app_nil_r|].
    rewrite IH. unfold frame. by rewrite <-!(assoc_L (++)). }
  by rewrite <-!(assoc_L (++)).
Qed.

Lemma fmap_perm_inj {A B} (P : A → Prop) (f : A → B) l k :
  (∀ x y, P x → P y → f x = f y → x = y) → Forall P l → Forall P k →
  f <$> l ≡ₚ f <$> k → l ≡ₚ k.
Proof.
  intros Hf Hl Hk (m & E & Hm)%Permutation_map_inv. rewrite Hm.
  assert (Forall P m) as HPm by by rewrite <-Hm. clear Hk Hm. revert m E HPm.
  induction Hl as [|x l Hx _ IH]; intros [|y m] E HPm; simplify_eq/=; [done|].
  apply Forall_cons in HPm as [Hy HPm]. rewrite (Hf x y) by done. by rewrite (IH m).
Qed.


Lemma sort_rows_perm l k : sort_rows l = sort_rows k ↔ l ≡ₚ k.
Proof. apply (sort_by_key_perm id compare_bytes). Qed.

Lemma sort_strings_perm l k : sort_strings l = sort_strings k ↔ l ≡ₚ k.
Proof. apply (sort_by_key_perm as_bytes compare_bytes). Qed.

(** Two rows that differ at most in the order of their tags. *)
Definition same_memory (m m' : PbMemoryDraft) : Prop :=
  with_tags [] m = with_tags [] m' ∧ pm_tags m ≡ₚ pm_tags m'.

(** Two batches whose covered rows agree, in any order. *)
Definition same_rows (a b : PbIngestBatch) : Prop :=
  (∃ l, pb_memories b ≡ₚ l ∧ Forall2 same_memory (pb_memories a) l) ∧
  pb_relationships a ≡ₚ pb_relationships b ∧ pb_snapshot a = pb_snapshot b.

Definition blake3_collision `{Blake3} : Prop := ∃ x y, x ≠ y ∧ blake3 x = blake3 y.

Section checksum_facts.
Context `{Message PbMemoryDraft memory_draft_ok, Message PbRelationshipDraft relationship_draft_ok,
  Message PbSnapshotInfo snapshot_info_ok}.

Lemma canonical_same m m' : canonical_memory m = canonical_memory m' ↔ same_memory m m'.
Proof.
  unfold canonical_memory, same_memory. rewrite <-sort_strings_perm.
  destruct m, m'. unfold with_tags. simpl. split.
  - intros E. injection E. intros. subst. by split.
  - intros [E E']. injection E. intros. subst. by rewrite E'.
Qed.

(** A batch whose messages the schema can carry and whose encodings have 64-bit lengths. *)
Record batch_fits (b : PbIngestBatch) : Prop := {
  bf_memories : Forall memory_draft_ok (pb_memories b);
  bf_relationships : Forall relationship_draft_ok (pb_relationships b);
  bf_snapshot : opt_ok (λ s, snapshot_info_ok s ∧ fits64 (encode_to_vec s)) (pb_snapshot b);
  bf_memory_rows : rows_fit (encode_to_vec ∘ canonical_memory <$> pb_memories b);
  bf_relationship_rows : rows_fit (encode_to_vec <$> pb_relationships b);
}.

Lemma rows_fit_sort l : rows_fit l → rows_fit (sort_rows l).
Proof. unfold rows_fit, sort_rows. by rewrite merge_sort_Permutation. Qed.

Definition enc_snapshot (s : option PbSnapshotInfo) : list Z :=
  match s with Some s => 1 :: frame (encode_to_vec s) | None => [0] end.

Lemma enc_snapshot_inj s s' :
  opt_ok (λ s, snapshot_info_ok s ∧ fits64 (encode_to_vec s)) s →
  opt_ok (λ s, snapshot_info_ok s ∧ fits64 (encode_to_vec s)) s' →
  enc_snapshot s = enc_snapshot s' → s = s'.
Proof.
  destruct s as [s|], s' as [s'|]; try done. intros [Hs Hf] [Hs' Hf'] E.
  apply (f_equal tail) in E. change (frame (encode_to_vec s) = frame (encode_to_vec s')) in E.
  apply (prefix_free_inj fits64) in E; [|apply prefix_free_frame|done..].
  apply encode_to_vec_inj in E; [by subst|done..].
Qed.

Lemma checksum_preimage_app b :
  checksum_preimage b =
  (frame CHECKSUM_DOMAIN ++ be_bytes 4 CHECKSUM_FORMAT_VERSION ++ frame (as_bytes "memories")) ++
  enc_rows (sort_rows (encode_to_vec ∘ canonical_memory <$> pb_memories b)) ++
  frame (as_bytes "relationships") ++
  enc_rows (sort_rows (encode_to_vec <$> pb_relationships b)) ++
  frame (as_bytes "snapshot") ++ enc_snapshot (pb_snapshot b).
Proof.
  unfold checksum_preimage. rewrite !push_collection_app. unfold push_len_prefixed, push_len.
  fold (frame CHECKSUM_DOMAIN). unfold enc_snapshot.
  destruct (pb_snapshot b); unfold frame; rewrite ?app_nil_l, <-!(assoc_L (++)); reflexivity.
Qed.

Lemma checksum_preimage_inj a b :
  batch_fits a → batch_fits b → checksum_preimage a = checksum_preimage b → same_rows a b.
Proof.
  intros [Ham Har Has Hamr Harr] [Hbm Hbr Hbs Hbmr Hbrr]. rewrite !checksum_preimage_app.
  intros E%(inj (app _)).
  apply prefix_free_rows in E as [Em E]; [|by apply rows_fit_sort..].
  apply (inj (app _)) in E.
  apply prefix_free_rows in E as [Er E]; [|by apply rows_fit_sort..].
  apply (inj (app _)) in E. apply enc_snapshot_inj in E; [|done..].
  rewrite sort_rows_perm in Em, Er. split_and!; [|by apply (fmap_perm_inj relationship_draft_ok) in Er;
    [|intros ???? ?%encode_to_vec_inj|..]|done].
  rewrite !list_fmap_compose in Em.
  apply (fmap_perm_inj memory_draft_ok) in Em; [|intros ????; by apply encode_to_vec_inj
    |by apply Forall_fmap..].
  apply Permutation_map_inv in Em as (l & El & Hl). exists l. split; [done|]. clear -El.
  revert l El. induction (pb_memories a) as [|m ms IH]; intros [|m' l] E; [constructor|done|done|].
  apply (inj2 cons) in E as [E El]. constructor; [by apply canonical_same|by apply IH].
Qed.

Lemma checksum_preimage_same a b : same_rows a b → checksum_preimage a = checksum_preimage b.
Proof.
  intros ((l & Hl & Hm) & Hr & Hs). rewrite !checksum_preimage_app, Hs.
  assert (sort_rows (encode_to_vec <$> pb_relationships a) =
          sort_rows (encode_to_vec <$> pb_relationships b)) as -> by by apply sort_rows_perm; rewrite Hr.
  assert (sort_rows (encode_to_vec ∘ canonical_memory <$> pb_memories a) =
          sort_rows (encode_to_vec ∘ canonical_memory <$> pb_memories b)) as ->; [|done].
  apply sort_rows_perm. rewrite Hl, !list_fmap_compose.
  assert (canonical_memory <$> pb_memories a = canonical_memory <$> l) as ->; [|done].
  clear Hl. induction Hm as [|m m' ms l Hm _ IH]; [done|]. simpl. f_equal; [|done].
  by apply canonical_same.
Qed.

(** The checksum of a batch depends on its rows and on nothing else: reordering rows, or the
    tags of a row, leaves it unchanged, and two batches share a checksum only if their memories,
    up to the order of tags, their relationships and their snapshot are the same rows the same
    number of times, or BLAKE3 collides. *)
Theorem canonical_checksum_exact `{Blake3} a b :
  (same_rows a b → canonical_checksum a = canonical_checksum b) ∧
  (batch_fits a → batch_fits b → canonical_checksum a = canonical_checksum b →
   same_rows a b ∨ blake3_collision).
Proof.
  unfold canonical_checksum. split; [by intros ->%checksum_preimage_same|].
  intros Ha Hb E%hex_inj; [|apply blake3_bytes..].
  destruct (decide (checksum_preimage a = checksum_preimage b)) as [Ep|Hne].
  - left. by apply checksum_preimage_inj.
  - right. by eexists _, _.
Qed.
End checksum_facts.

(** ** What the ceilings bound *)

(** One memory within the ceilings. *)
Definition memory_within (m : PbMemoryDraft) : Prop :=
  byte_len (pm_content m) ≤ MAX_MEMORY_CONTENT_BYTES ∧
  Z.of_nat (length (pm_tags m)) ≤ MAX_TAGS_PER_MEMORY ∧
  Forall (λ tag, byte_len tag ≤ MAX_TAG_BYTES) (pm_tags m) ∧
  foldr Z.add 0 (byte_len <$> pm_tags m) ≤ MAX_TAG_BYTES_PER_MEMORY.

Lemma validate_memory_fields_ok m :
  validate_memory_fields (pm_content m) (pm_tags m) = Ok tt ↔ memory_within m.
Proof.
  unfold validate_memory_fields, memory_within.
  assert (existsb (λ tag, MAX_TAG_BYTES <? byte_len tag) (pm_tags m) = false ↔
    Forall (λ tag, byte_len tag ≤ MAX_TAG_BYTES) (pm_tags m)) as Htags.
  { induction (pm_tags m) as [|t l IH]; simpl; [by split; [constructor|]|].
    rewrite orb_false_iff, Forall_cons, IH, Z.ltb_ge. done. }
  rewrite <-Htags, <-!Z.ltb_ge.
  split; [intros E; break_hyp E; auto|by intros (-> & -> & -> & ->)].
Qed.

Lemma validate_memories_ok ms : validate_memories ms = Ok tt ↔ Forall memory_within ms.
Proof.
  induction ms as [|m ms IH]; simpl; [by split; [constructor|]|].
  rewrite Forall_cons, <-IH, <-validate_memory_fields_ok, result_bind_ok.
  split; [by intros ([] & -> & ->)|]. intros [-> ->]. by exists tt.
Qed.

(** The bytes of content and tags a batch carries. *)
Definition payload (ms : list PbMemoryDraft) : Z :=
  foldr (λ m acc, byte_len (pm_content m) + foldr Z.add 0 (byte_len <$> pm_tags m) + acc) 0 ms.

(** A batch passes the ceilings exactly when it has at most 256 memories and 64 relationships and
    every memory is within the content and tag limits, so what passes carries at most
    [256 * (65536 + 2048)] bytes of content and tags. *)
Theorem batch_resources_exact ms es :
  (validate_batch_resources ms es = Ok tt ↔
     Z.of_nat (length ms) ≤ MAX_MEMORIES_PER_BATCH ∧ Z.of_nat (length es) ≤ MAX_EDGES_PER_BATCH ∧
     Forall memory_within ms) ∧
  (validate_batch_resources ms es = Ok tt →
     payload ms ≤ MAX_MEMORIES_PER_BATCH * (MAX_MEMORY_CONTENT_BYTES + MAX_TAG_BYTES_PER_MEMORY)).
Proof.
  assert (Hiff : validate_batch_resources ms es = Ok tt ↔
     Z.of_nat (length ms) ≤ MAX_MEMORIES_PER_BATCH ∧ Z.of_nat (length es) ≤ MAX_EDGES_PER_BATCH ∧
     Forall memory_within ms).
  { rewrite <-validate_memories_ok, <-!Z.ltb_ge. unfold validate_batch_resources.
    split; [intros E; break_hyp E; auto|by intros (-> & -> & ->)]. }
  split; [done|]. rewrite Hiff. intros (Hn & _ & Hm). etrans; [|apply Z.mul_le_mono_nonneg_r, Hn].
  - clear Hn Hiff. unfold payload.
    induction Hm as [|m ms (Hc & _ & _ & Ht) _ IH]; [done|]. simpl foldr. cbn [length].
    unfold MAX_MEMORY_CONTENT_BYTES, MAX_TAG_BYTES_PER_MEMORY in *. lia.
  - unfold MAX_MEMORY_CONTENT_BYTES, MAX_TAG_BYTES_PER_MEMORY. lia.
Qed.

(** ** Keys in hex *)

(** [u8::from_str_radix(src, 16)]: an optional [+], then at least one digit. *)
Definition from_str_radix16 (src : list Z) : option Z :=
  let digits l := foldl (λ acc c, a ← acc; d ← to_digit16 c; Some (a * 16 + d)) (Some 0) l in
  match src with
  | [] => None
  | [c] => if (c =? 43) || (c =? 45) then None else digits [c]
  | c :: rest => if c =? 43 then digits rest else digits src
  end.

(** [str::is_char_boundary]. *)
Definition is_char_boundary (bytes : list Z) (i : nat) : bool :=
  match bytes !! i with
  | None => Nat.eqb i (length bytes)
  | Some b => Nat.eqb i 0 || negb ((128 <=? b) && (b <? 192))
  end.

(** [hex.get(i..i + 2)]. *)
Definition get_pair (bytes : list Z) (i : nat) : option (list Z) :=
  if is_char_boundary bytes i && is_char_boundary bytes (i + 2)%nat
  then Some (take 2 (drop i bytes)) else None.

(** The loop over the output bytes [i], [i + 1], .. [i + n - 1]. *)
Fixpoint decode_pairs (bytes : list Z) (i n : nat) : result (list Z) string :=
  match n with
  | O => Ok []
  | S n =>
      let? digits := ok_or (get_pair bytes (i * 2)) "key truncated"%string in
      let? byte := ok_or (from_str_radix16 digits)
                         "bad key hex: invalid digit found in string"%string in
      let? out := decode_pairs bytes (S i) n in
      Ok (byte :: out)
  end.

(* SRC crates/exocortex-wire/src/signing.rs 282-296 decode_hex32 *)
Definition decode_hex32 (hex : string) : result (list Z) string :=
  let bytes := as_bytes hex in
  if negb (Nat.eqb (length bytes) 64)
  then Err ("key must be 64 hex chars, got " +:+ pretty (N.of_nat (length bytes)))%string
  else decode_pairs bytes 0 32.

Lemma radix_pair_range c d b :
  from_str_radix16 [c; d] = Some b → 0 ≤ b < 256.
Proof.
  assert (∀ x y, to_digit16 x = Some y → 0 ≤ y < 16) as Hd.
  { intros x y. unfold to_digit16. intros E. break_hyp E; bool_prop; lia. }
  unfold from_str_radix16. case_match; simpl; [intros E|intros (a & Ea & E)%bind_Some].
  - destruct (to_digit16 d) as [y|] eqn:Hy; simplify_eq/=. apply Hd in Hy. lia.
  - destruct (to_digit16 c) as [x|] eqn:Hx; simplify_eq/=.
    destruct (to_digit16 d) as [y|] eqn:Hy; simplify_eq/=. apply Hd in Hx, Hy. lia.
Qed.

Lemma get_pair_length bytes i p :
  (i + 2 ≤ length bytes)%nat → get_pair bytes i = Some p → ∃ c d, p = [c; d].
Proof.
  unfold get_pair. intros Hi E. break_hyp E.
  assert (length (take 2 (drop i bytes)) = 2%nat) as Hl by (rewrite length_take, length_drop; lia).
  destruct (take 2 _) as [|c [|d []]]; simplify_eq/=; eauto.
Qed.

Lemma decode_pairs_range bytes i n out :
  ((i + n) * 2 ≤ length bytes)%nat → decode_pairs bytes i n = Ok out →
  length out = n ∧ bytes_ok out.
Proof.
  revert i out. induction n as [|n IH]; intros i out Hn; simpl.
  - intros [= <-]. split; [done|constructor].
  - rewrite result_bind_ok. intros (p & Hp & (b & Hb & (o & Ho & [= <-])%result_bind_ok)%result_bind_ok).
    unfold ok_or in Hp, Hb. destruct (get_pair _ _) as [p'|] eqn:Hg; simplify_eq/=.
    destruct (from_str_radix16 p) as [b'|] eqn:Hr; simplify_eq/=.
    apply get_pair_length in Hg as (c & d & ->); [|lia]. apply radix_pair_range in Hr.
    apply IH in Ho as [<- Ho]; [|lia]. split; [done|by constructor].
Qed.

Lemma radix_fmt_02x b : 0 ≤ b < 256 → from_str_radix16 (fmt_02x b) = Some b.
Proof.
  intros Hb. apply (bool_decide_eq_true (from_str_radix16 (fmt_02x b) = Some b)).
  revert b Hb. apply byte_cases. vm_compute. reflexivity.
Qed.

Lemma hexdigit_boundary bytes i :
  forallb is_ascii_hexdigit bytes = true → (i ≤ length bytes)%nat → is_char_boundary bytes i = true.
Proof.
  intros Hall Hi. unfold is_char_boundary. destruct (bytes !! i) as [b|] eqn:Hb.
  - rewrite List.forallb_forall in Hall. apply list_elem_of_lookup_2, list_elem_of_In, Hall in Hb.
    unfold is_ascii_hexdigit in Hb. rewrite !orb_true_iff, !andb_true_iff, !Z.leb_le in Hb.
    apply orb_true_iff. right. apply negb_true_iff, andb_false_iff. left. apply Z.leb_gt. lia.
  - apply lookup_ge_None in Hb. apply Nat.eqb_eq. lia.
Qed.

Lemma decode_pairs_hex pre k :
  bytes_ok (pre ++ k) →
  decode_pairs ((pre ++ k) ≫= fmt_02x) (length pre) (length k) = Ok k.
Proof.
  revert pre. induction k as [|b k IH]; intros pre Hb; [done|]. cbn [length decode_pairs].
  assert (Hlen : length ((pre ++ b :: k) ≫= fmt_02x) = (2 * (length pre + S (length k)))%nat)
    by by rewrite length_hex_bytes, length_app.
  assert (get_pair ((pre ++ b :: k) ≫= fmt_02x) (length pre * 2) = Some (fmt_02x b)) as ->.
  { unfold get_pair. rewrite !hexdigit_boundary; [|by apply forallb_hexdigit_hex|lia
      |by apply forallb_hexdigit_hex|lia]. cbn [andb]. do 2 f_equal.
    rewrite bind_app, drop_app_length' by (rewrite length_hex_bytes; lia). done. }
  simpl ok_or. cbn [result_bind].
  rewrite radix_fmt_02x by (apply Forall_app in Hb as [_ [? _]%Forall_cons]; done).
  simpl ok_or. cbn [result_bind].
  specialize (IH (pre ++ [b])). rewrite <-(assoc_L (++)), length_app, Nat.add_comm in IH.
  simpl in IH. by rewrite IH.
Qed.

(** A 32-byte key survives its hex form, and whatever [decode_hex32] accepts is 64 bytes of text
    and gives a 32-byte key; but the accepted text need not be hex digits, because
    [from_str_radix] takes a leading [+] in every pair. *)
Theorem decode_hex32_exact :
  (∀ k, bytes_ok k → length k = 32%nat → decode_hex32 (hex k) = Ok k) ∧
  (∀ s k, decode_hex32 s = Ok k →
    length (as_bytes s) = 64%nat ∧ length k = 32%nat ∧ bytes_ok k) ∧
  (∀ d v, to_digit16 d = Some v → 0 ≤ d < 256 →
    decode_hex32 (string_of_bytes (replicate 32 [43; d] ≫= id)) = Ok (replicate 32 v)).
Proof.
  split_and!.
  - intros k Hk Hl. unfold decode_hex32. rewrite hex_bytes, length_hex_bytes, Hl by done. simpl negb.
    cbv iota. pose proof (decode_pairs_hex [] k Hk) as Hd. by rewrite Hl in Hd.
  - intros s k. unfold decode_hex32. case_match eqn:Hl; [done|].
    apply negb_false_iff, Nat.eqb_eq in Hl. intros Hd.
    apply decode_pairs_range in Hd; [|lia]. tauto.
  - intros d v Hd Hr. unfold decode_hex32. rewrite as_bytes_string_of_bytes by (simpl; repeat constructor; lia).
    simpl. unfold get_pair. simpl. unfold is_char_boundary. simpl.
    assert (d < 128) as Hlt by (unfold to_digit16 in Hd; break_hyp Hd; bool_prop; lia).
    rewrite Hd. simpl. done.
Qed.
