(* ===== verification/Cluster.v ===== *)
(** * The cluster node: the change log and the change feed

    [crates/exocortex-cluster/src]: the bounded replay ring behind the change-log seam
    ([change_log.rs]), the protobuf form of a storage event ([sse.rs]), and the node that signs
    the storage feed into envelopes, admits peers and publishes ([node.rs]).  [tokio]'s
    broadcast channel is the list of what was sent on it; the row encoder of [serde_json] is
    the interface [RowJson]. *)

From S2P Require Import Prelude Ids Kernel Packs Ontology StorageTypes Graph Reads Leases.
From S2P Require Import Ingest Governed Cycles Storage Interleaving Wire.

(** ** The change log *)

(* SRC crates/exocortex-cluster/src/change_log.rs 24-31 Replay *)
Inductive Replay :=
  | Fresh (envelopes : list InvalidationEnvelope)
  | TooOld.

(* SRC crates/exocortex-cluster/src/change_log.rs 60-63 REPLAY_CAPACITY_DEFAULT *)
Definition REPLAY_CAPACITY_DEFAULT : Z := 4096.

(* SRC crates/exocortex-cluster/src/change_log.rs 65-67 envelope_lsn *)
Definition envelope_lsn (env : InvalidationEnvelope) : Z :=
  default 0 (pi_backend_lsn <$> env_inv env).

(* SRC crates/exocortex-cluster/src/change_log.rs 69-77 RingChangeLog *)
Record RingChangeLog := mkRing {
  rl_ring : list InvalidationEnvelope;
  rl_cap : Z;
  rl_observed_anything : bool;
  rl_max_observed_lsn : Z;
}.

(* SRC crates/exocortex-cluster/src/change_log.rs 85-94 RingChangeLog::with_capacity *)
Definition ring_with_capacity (cap : Z) : RingChangeLog := mkRing [] (Z.max cap 1) false 0.

(* SRC crates/exocortex-cluster/src/change_log.rs 80-83 RingChangeLog::new *)
Definition ring_new : RingChangeLog := ring_with_capacity REPLAY_CAPACITY_DEFAULT.

(* SRC crates/exocortex-cluster/src/change_log.rs 104-113 append *)
Definition ring_append (L : RingChangeLog) (envelope : InvalidationEnvelope) : RingChangeLog :=
  let lsn := envelope_lsn envelope in
  let ring := if Z.of_nat (length (rl_ring L)) =? rl_cap L then drop 1 (rl_ring L) else rl_ring L in
  mkRing (ring ++ [envelope]) (rl_cap L) true (Z.max (rl_max_observed_lsn L) lsn).

(* SRC crates/exocortex-cluster/src/change_log.rs 115-139 replay_since *)
Definition ring_replay_since (since_lsn : Z) (L : RingChangeLog) : Replay :=
  match rl_ring L with
  | [] =>
      if rl_observed_anything L && (since_lsn <? rl_max_observed_lsn L) then TooOld else Fresh []
  | oldest :: _ =>
      let floor := envelope_lsn oldest in
      if u64_saturating_add since_lsn 1 <? floor then TooOld
      else Fresh (List.filter (λ e, since_lsn <? envelope_lsn e) (rl_ring L))
  end.

(* SRC crates/exocortex-cluster/src/change_log.rs 141-148 replay_floor *)
Definition ring_replay_floor (L : RingChangeLog) : Z :=
  default 1 (envelope_lsn <$> head (rl_ring L)).

(* SRC crates/exocortex-cluster/src/change_log.rs 150-154 frontier *)
Definition ring_frontier (L : RingChangeLog) : option Z :=
  if rl_observed_anything L then Some (rl_max_observed_lsn L) else None.

(** The log after a run of appends. *)
Definition ring_after (cap : Z) (es : list InvalidationEnvelope) : RingChangeLog :=
  foldl ring_append (ring_with_capacity cap) es.

(** The last [n] of a list. *)
Definition keep_last {A} (n : nat) (l : list A) : list A := drop (length l - n) l.

Lemma keep_last_snoc {A} n (l : list A) x :
  (0 < n)%nat →
  keep_last n (l ++ [x]) =
  (if Nat.eqb (length (keep_last n l)) n then drop 1 (keep_last n l) else keep_last n l) ++ [x].
Proof.
  intros Hn. unfold keep_last. rewrite length_app, length_drop. simpl length.
  case_match eqn:E; [apply Nat.eqb_eq in E|apply Nat.eqb_neq in E].
  - rewrite drop_drop, drop_app_le by lia. f_equal. f_equal. lia.
  - rewrite drop_app_le by lia. f_equal. f_equal. lia.
Qed.

Lemma ring_after_snoc cap es e : ring_after cap (es ++ [e]) = ring_append (ring_after cap es) e.
Proof. unfold ring_after. by rewrite foldl_app. Qed.

Lemma ring_after_fields cap es :
  rl_ring (ring_after cap es) = keep_last (Z.to_nat (Z.max cap 1)) es ∧
  rl_cap (ring_after cap es) = Z.max cap 1 ∧
  rl_observed_anything (ring_after cap es) = negb (Nat.eqb (length es) 0) ∧
  rl_max_observed_lsn (ring_after cap es) = foldr Z.max 0 (envelope_lsn <$> es).
Proof.
  induction es as [|e es (Er & Ec & Eo & Em)] using rev_ind; [done|].
  rewrite ring_after_snoc. unfold ring_append. simpl. rewrite Er, Ec, Em. split_and!; [|done| |].
  - rewrite keep_last_snoc by lia. f_equal.
    destruct (Z.eqb_spec (Z.of_nat (length (keep_last (Z.to_nat (Z.max cap 1)) es))) (Z.max cap 1)) as [E|E];
      destruct (Nat.eqb_spec (length (keep_last (Z.to_nat (Z.max cap 1)) es)) (Z.to_nat (Z.max cap 1)));
      done || lia.
  - by rewrite length_app, Nat.add_comm.
  - rewrite fmap_app, foldr_app. clear.
    induction es as [|x es IH]; [simpl; lia|]. rewrite fmap_cons. cbn [foldr]. rewrite <-IH. lia.
Qed.

(** *** What the log promises *)

(** Envelopes in strictly ascending LSN order, as the seam asks its writers to append. *)
Definition ascending (es : list InvalidationEnvelope) : Prop :=
  StronglySorted (λ a b, envelope_lsn a < envelope_lsn b) es ∧
  Forall (λ e, in_range 64 (envelope_lsn e)) es.

Lemma ascending_app l k a b : ascending (l ++ k) → a ∈ l → b ∈ k → envelope_lsn a < envelope_lsn b.
Proof.
  intros [(H & _ & _)%StronglySorted_app _]. by apply H.
Qed.

Lemma ascending_max l e :
  ascending (l ++ [e]) → foldr Z.max 0 (envelope_lsn <$> l ++ [e]) = envelope_lsn e.
Proof.
  intros Hs. assert (0 ≤ envelope_lsn e) as He.
  { destruct Hs as [_ [_ [He _]%Forall_cons]%Forall_app]. apply He. }
  assert (Forall (λ a, envelope_lsn a < envelope_lsn e) l) as Hl.
  { apply Forall_forall. intros a Ha. apply (ascending_app l [e]); [done|done|set_solver]. }
  clear Hs. induction Hl as [|a l Ha _ IH]; [simpl; lia|].
  rewrite <-app_comm_cons, fmap_cons. cbn [foldr]. rewrite IH. lia.
Qed.

Lemma filter_none {A} (p : A → bool) l : Forall (λ x, p x = false) l → List.filter p l = [].
Proof. induction 1 as [|x l Hx _ IH]; simpl; [done|]. by rewrite Hx. Qed.

(** A log of ascending appends, its evicted part and the part it keeps. *)
Lemma ring_replay_spec cap es :
  ascending es → ∀ since, in_range 64 since →
  ring_replay_since since (ring_after cap es) =
  if since + 1 <? ring_replay_floor (ring_after cap es) then TooOld
  else Fresh (List.filter (λ e, since <? envelope_lsn e) es).
Proof.
  intros Hs since Hsince. destruct (ring_after_fields cap es) as (Er & _ & _ & _).
  unfold ring_replay_since, ring_replay_floor. rewrite Er. clear Er.
  set (n := Z.to_nat (Z.max cap 1)). set (dropped := take (length es - n) es).
  assert (Hes : es = dropped ++ keep_last n es) by (symmetry; apply take_drop).
  assert (Hlen : length (keep_last n es) = Nat.min (length es) n)
    by (unfold keep_last; rewrite length_drop; lia).
  destruct (keep_last n es) as [|oldest ring] eqn:Hk.
  - destruct es; [|cbn [length] in Hlen; lia]. simpl.
    by destruct (Z.ltb_spec (since + 1) 1); [unfold in_range in Hsince; lia|].
  - change (default 1 (envelope_lsn <$> head (oldest :: ring))) with (envelope_lsn oldest).
    assert (Ho : in_range 64 (envelope_lsn oldest)).
    { destruct Hs as [_ Hr]. rewrite Hes in Hr. by apply Forall_app in Hr as [_ [? _]%Forall_cons]. }
    replace (u64_saturating_add since 1 <? envelope_lsn oldest) with (since + 1 <? envelope_lsn oldest).
    2: { unfold u64_saturating_add, in_range in *.
         destruct (Z.ltb_spec (since + 1) (envelope_lsn oldest)); symmetry;
           [apply Z.ltb_lt|apply Z.ltb_ge]; lia. }
    destruct (Z.ltb_spec (since + 1) (envelope_lsn oldest)); [done|]. f_equal.
    rewrite Hes at 1. rewrite List.filter_app, (filter_none _ dropped), app_nil_l; [done|].
    apply Forall_forall. intros e He. apply Z.ltb_ge.
    assert (envelope_lsn e < envelope_lsn oldest); [|lia].
    rewrite Hes in Hs. by apply (ascending_app _ _ _ _ Hs); [|left].
Qed.

(** Appended in ascending order, the bounded ring keeps the seam's contract: a reconnecting
    subscriber is answered [TooOld] exactly when the LSN after its own precedes the floor, and
    otherwise gets every envelope ever appended after its LSN, in order, evictions included; the
    floor is the LSN of the oldest envelope kept and nothing at or above it was lost; the
    frontier is the newest LSN; the largest [since_lsn] is answered like any other. *)
Theorem change_log_contract cap es :
  ascending es →
  let L := ring_after cap es in
  (∀ since, in_range 64 since →
     ring_replay_since since L =
     if since + 1 <? ring_replay_floor L then TooOld
     else Fresh (List.filter (λ e, since <? envelope_lsn e) es)) ∧
  (∀ e, e ∈ es → ring_replay_floor L ≤ envelope_lsn e → e ∈ rl_ring L) ∧
  Z.of_nat (length (rl_ring L)) = Z.min (Z.of_nat (length es)) (Z.max cap 1) ∧
  ring_frontier L = envelope_lsn <$> last es.
Proof.
  intros Hs L. split; [by apply ring_replay_spec|].
  destruct (ring_after_fields cap es) as (Er & _ & Eo & Em). fold L in Er, Eo, Em.
  unfold ring_replay_floor, ring_frontier. rewrite Eo, Em, Er. clear Eo Em Er.
  set (n := Z.to_nat (Z.max cap 1)).
  assert (Hes : es = take (length es - n) es ++ keep_last n es) by (symmetry; apply take_drop).
  assert (Hlen : length (keep_last n es) = Nat.min (length es) n)
    by (unfold keep_last; rewrite length_drop; lia).
  split_and!.
  - intros e He Hf. rewrite Hes in He. apply elem_of_app in He as [He|]; [|done].
    destruct (keep_last n es) as [|oldest ring] eqn:Hk.
    + destruct es; [|cbn [length] in Hlen; lia]. by apply elem_of_nil in He.
    + simpl in Hf. rewrite Hes in Hs.
      pose proof (ascending_app _ _ e oldest Hs He ltac:(by left)). lia.
  - rewrite Hlen. unfold n. lia.
  - destruct es as [|e es _] using rev_ind; [done|]. rewrite last_snoc. simpl.
    rewrite length_app, Nat.add_comm. simpl. by rewrite ascending_max.
Qed.

(** *** Appends out of order

    The storage publishes after it has released [mutation_gate] (see [Interleaving]), so two
    concurrent batches can reach the feed, and with it the log, in either order. *)

Lemma UpsertBatch_gate `{Blake3, HashOrder, Chrono, Sha256, DiscoveryJson} o clk now m st :
  room 1 (graph st) →
  gate o clk now (UpsertBatch [m] []) st =
  (put_graph (append (WMemory m) (graph st)) st, [event_of (g_lsn (graph st) + 1) (WMemory m)]).
Proof.
  intros Hr. unfold gate. rewrite upsert_batch_locked_spec by (simpl; done). simpl.
  unfold events_from. simpl. by rewrite Z.add_0_r.
Qed.

(** Two concurrent batches whose events are published in the opposite order of their LSNs. *)
Theorem feed_out_of_order `{Blake3, HashOrder, Chrono, Sha256, DiscoveryJson} o m1 m2 :
  ∃ st, rtc (sys_step o) (build, []) (st, [[]; []]) ∧
        g_feed (graph st) = [MemoryUpserted (m_id m2) 2; MemoryUpserted (m_id m1) 1].
Proof.
  assert (Hroom : room 1 (graph build)) by (by vm_compute).
  pose proof (UpsertBatch_gate o (λ _, 0) 0 m1 build Hroom) as G1.
  set (st1 := put_graph _ _) in G1.
  assert (Hl1 : g_lsn (graph st1) = 1) by (by apply (append_lsn (WMemory m1))).
  assert (Hroom1 : room 1 (graph st1)) by (unfold room; rewrite Hl1; by vm_compute).
  pose proof (UpsertBatch_gate o (λ _, 0) 0 m2 st1 Hroom1) as G2. rewrite Hl1 in G2.
  set (st2 := put_graph _ st1) in G2.
  eexists. split.
  - eapply rtc_l; [by eapply (sys_gate o _ _ _ _ []); [|exact G1]|].
    eapply rtc_l; [by eapply (sys_gate o _ _ _ _ _); [|exact G2]|].
    eapply rtc_l; [apply (sys_publish o st2 [[event_of 1 (WMemory m1)]] _ [] [])|].
    eapply rtc_l; [apply (sys_publish o _ [] (event_of 1 (WMemory m1)) [] [[]])|]. done.
  - done.
Qed.

(** Out of order, the promise fails: this ring has evicted the envelope at LSN 2, and answers a
    subscriber at LSN 0 as if the two envelopes it holds were all there is. *)
Theorem unordered_append_gap a b c :
  envelope_lsn a = 2 → envelope_lsn b = 1 → envelope_lsn c = 3 →
  ring_replay_since 0 (ring_after 2 [a; b; c]) = Fresh [b; c].
Proof.
  intros Ha Hb Hc. unfold ring_replay_since. simpl. unfold ring_append. simpl.
  by rewrite Hb, Hc.
Qed.

(** ** Storage events as protobuf *)

(** [serde_json] on the rows the feed carries: printers that cannot fail on the kernel's rows,
    and parsers. *)
Class RowJson := {
  memory_to_vec : Memory → list Z;
  memory_from_slice : list Z → result Memory string;
  relationship_to_vec : Relationship → list Z;
  relationship_from_slice : list Z → result Relationship string;
  discovery_to_vec : DiscoveryRecord → list Z;
  discovery_from_slice : list Z → result DiscoveryRecord string;
  snapshot_to_vec : list Memory → list Relationship → list Z;
  snapshot_from_slice : list Z → result (list Memory * list Relationship) string;
}.

(** The two lowercase digits of a byte, in a loop. *)
(* SRC crates/exocortex-cluster/src/sse.rs 7-15 hex *)
Definition hex_id (id : list Z) : list Z :=
  let DIGITS := as_bytes "0123456789abcdef" in
  id ≫= λ b, [nth (Z.to_nat (Z.shiftr b 4)) DIGITS 0; nth (Z.to_nat (Z.land b 15)) DIGITS 0].

Section node.
Context `{RowJson}.

(* SRC crates/exocortex-cluster/src/sse.rs 17-99 invalidation_to_pb *)
Definition invalidation_to_pb (inv : Invalidation) : PbInvalidation :=
  match inv with
  | MemoryUpserted id lsn => mkPbInvalidation (Some (PbMemoryUpserted (hex_id (mid_bytes id)) [])) lsn
  | MemoryDeleted id lsn => mkPbInvalidation (Some (PbMemoryDeleted (hex_id (mid_bytes id)))) lsn
  | RelationshipUpserted id from to kind lsn =>
      mkPbInvalidation (Some (PbRelationshipUpserted (hex_id (rid_bytes id)) (hex_id (mid_bytes from))
        (hex_id (mid_bytes to)) (kind_val kind) [])) lsn
  | RelationshipDeleted id lsn =>
      mkPbInvalidation (Some (PbRelationshipDeleted (hex_id (rid_bytes id)))) lsn
  | VisibilityAdvance lsn => mkPbInvalidation (Some PbVisibilityAdvance) lsn
  | MemorySnapshotUpserted memory lsn =>
      mkPbInvalidation (Some (PbMemoryUpserted (hex_id (mid_bytes (m_id memory)))
        (memory_to_vec memory))) lsn
  | RelationshipSnapshotUpserted r lsn =>
      mkPbInvalidation (Some (PbRelationshipUpserted (hex_id (rid_bytes (r_id r)))
        (hex_id (mid_bytes (r_from r))) (hex_id (mid_bytes (r_to r))) (kind_val (r_kind r))
        (relationship_to_vec r))) lsn
  | GraphReseed snapshot_json lsn => mkPbInvalidation (Some (PbGraphReseed snapshot_json)) lsn
  | DiscoveryAvailable record lsn =>
      mkPbInvalidation (Some (PbDiscoveryAvailable (discovery_to_vec record))) lsn
  end.

(** ** The node *)

(* SRC crates/exocortex-wire/src/lib.rs 9-11 WIRE_VERSION *)
Definition WIRE_VERSION : Z := 1.

(* SRC crates/exocortex-cluster/src/node.rs 16-31 ClusterError *)
Inductive ClusterError :=
  | WireMismatch
  | OntologyMismatch
  | HmacFailed
  | ClusterStorage (message : string).

(* SRC crates/exocortex-cluster/src/node.rs 53-62 FeedHealth *)
Record FeedHealth := mkFeedHealth { fh_epoch : Z; fh_ready : bool; fh_failures : Z }.

(** The broadcast hub is the list of the envelopes sent on it; the storage is a component of its
    own. *)
(* SRC crates/exocortex-cluster/src/node.rs 33-51 ClusterNode *)
Record ClusterNode := mkClusterNode {
  cn_node_id : string;
  cn_fp : list Z;
  cn_hmac_key : list Z;
  cn_tx : list InvalidationEnvelope;
  cn_change_log : RingChangeLog;
  cn_feed_health : FeedHealth;
}.

(* SRC crates/exocortex-cluster/src/node.rs 72-90 ClusterNode::new *)
Definition ClusterNode_new (node_id : string) (fp hmac_key : list Z) : ClusterNode :=
  mkClusterNode node_id fp hmac_key [] ring_new (mkFeedHealth 0 false 0).

(* SRC crates/exocortex-cluster/src/node.rs 92-96 with_replay_capacity *)
Definition with_replay_capacity (cap : Z) (n : ClusterNode) : ClusterNode :=
  mkClusterNode (cn_node_id n) (cn_fp n) (cn_hmac_key n) (cn_tx n) (ring_with_capacity cap)
    (cn_feed_health n).

(* SRC crates/exocortex-cluster/src/node.rs 104-107 replay_since *)
Definition replay_since (since_lsn : Z) (n : ClusterNode) : Replay :=
  ring_replay_since since_lsn (cn_change_log n).

(* SRC crates/exocortex-cluster/src/node.rs 109-113 replay_floor *)
Definition replay_floor (n : ClusterNode) : Z := ring_replay_floor (cn_change_log n).

(* SRC crates/exocortex-cluster/src/node.rs 115-123 publish_envelope *)
Definition publish_envelope (env : InvalidationEnvelope) (n : ClusterNode) : ClusterNode :=
  mkClusterNode (cn_node_id n) (cn_fp n) (cn_hmac_key n) (cn_tx n ++ [env])
    (ring_append (cn_change_log n) env) (cn_feed_health n).

Definition set_health (h : FeedHealth) (n : ClusterNode) : ClusterNode :=
  mkClusterNode (cn_node_id n) (cn_fp n) (cn_hmac_key n) (cn_tx n) (cn_change_log n) h.

(* SRC crates/exocortex-cluster/src/node.rs 188-193 mark_feed_ready *)
Definition mark_feed_ready (n : ClusterNode) : ClusterNode :=
  let s := cn_feed_health n in
  set_health (mkFeedHealth (u64_saturating_add (fh_epoch s) 1) true (fh_failures s)) n.

(* SRC crates/exocortex-cluster/src/node.rs 195-200 mark_feed_failed *)
Definition mark_feed_failed (n : ClusterNode) : ClusterNode :=
  let s := cn_feed_health n in
  set_health (mkFeedHealth (fh_epoch s) false (u64_saturating_add (fh_failures s) 1)) n.

Context `{Hmac, Message InvalidationEnvelope envelope_ok}.

(* SRC crates/exocortex-cluster/src/node.rs 212-225 envelope *)
Definition envelope (inv : Invalidation) (n : ClusterNode) : InvalidationEnvelope :=
  sign_invalidation_envelope (cn_hmac_key n)
    (mkEnvelope WIRE_VERSION (cn_fp n) (cn_node_id n) (Some (invalidation_to_pb inv)) []).

(* SRC crates/exocortex-cluster/src/node.rs 227-233 verify_hmac *)
Definition verify_hmac (env : InvalidationEnvelope) (n : ClusterNode) : result unit ClusterError :=
  if negb (verify_invalidation_envelope (cn_hmac_key n) env) then Err HmacFailed else Ok tt.

(* SRC crates/exocortex-cluster/src/node.rs 235-247 admit *)
Definition node_admit (env : InvalidationEnvelope) (n : ClusterNode) : result unit ClusterError :=
  if negb (wire_version env =? WIRE_VERSION) then Err WireMismatch
  else match admit_peer (ontology_fingerprint env) (cn_fp n) with
  | Err _ => Err OntologyMismatch
  | Ok _ => verify_hmac env n
  end.

(* SRC crates/exocortex-cluster/src/node.rs 125-133 admit_and_publish *)
Definition admit_and_publish (env : InvalidationEnvelope) (n : ClusterNode)
    : ClusterNode * result unit ClusterError :=
  match node_admit env n with
  | Err e => (n, Err e)
  | Ok _ => (publish_envelope env n, Ok tt)
  end.

(** The subscription is the list of the items it yields before it ends. *)
(* SRC crates/exocortex-cluster/src/node.rs 165-186 consume_feed_epoch *)
Fixpoint consume_feed_epoch (sub : list (result Invalidation StorageError)) (n : ClusterNode)
    : ClusterNode * result unit ClusterError :=
  match sub with
  | [] => (mark_feed_failed n, Ok tt)
  | Err _ :: _ => (mark_feed_failed n, Ok tt)
  | Ok inv :: sub =>
      match admit_and_publish (envelope inv n) n with
      | (n, Ok _) => consume_feed_epoch sub n
      | (n, Err e) => (n, Err e)
      end
  end.

(** [run]: one iteration per subscription attempt, with the pauses slept, in milliseconds. *)
(* SRC crates/exocortex-cluster/src/node.rs 135-163 run *)
Fixpoint run (attempts : list (result (list (result Invalidation StorageError)) StorageError))
    (delay : Z) (n : ClusterNode) : ClusterNode * list Z * result unit ClusterError :=
  match attempts with
  | [] => (n, [], Ok tt)
  | Err _ :: attempts =>
      let '(n, slept, r) := run attempts (Z.min (delay * 2) 5000) (mark_feed_failed n) in
      (n, delay :: slept, r)
  | Ok sub :: attempts =>
      match consume_feed_epoch sub (mark_feed_ready n) with
      | (n, Err e) => (n, [], Err e)
      | (n, Ok _) =>
          let '(n, slept, r) := run attempts (Z.min (100 * 2) 5000) n in
          (n, 100 :: slept, r)
      end
  end.
End node.

(** ** What a node serves *)

(** The events a subscription delivers before its first error. *)
Fixpoint ok_prefix (sub : list (result Invalidation StorageError)) : list Invalidation :=
  match sub with Ok inv :: sub => inv :: ok_prefix sub | _ => [] end.
Definition delivered (attempts : list (result (list (result Invalidation StorageError)) StorageError))
    : list Invalidation :=
  attempts ≫= λ a, match a with Ok sub => ok_prefix sub | Err _ => [] end.
Definition subscribed (attempts : list (result (list (result Invalidation StorageError)) StorageError))
    : list (list (result Invalidation StorageError)) :=
  attempts ≫= λ a, match a with Ok sub => [sub] | Err _ => [] end.

Lemma admit_peer_ok offered ours :
  admit_peer offered ours = Ok tt ↔ offered = ours ∧ length ours = 32%nat.
Proof.
  unfold admit_peer, try_into32. split.
  - rewrite result_bind_ok. unfold ok_or. intros (tried & Ht & Hb).
    destruct (Nat.eqb_spec (length offered) 32); [|done]. simplify_eq. case_bool_decide; by subst.
  - intros [-> Hl]. rewrite Hl. simpl. by rewrite bool_decide_eq_true_2.
Qed.

Section node_facts.
Context `{RowJson, Hmac, Message InvalidationEnvelope envelope_ok}.
Implicit Types n : ClusterNode.

(** The same identity, ontology and key. *)
Definition same_node n n' : Prop :=
  cn_node_id n = cn_node_id n' ∧ cn_fp n = cn_fp n' ∧ cn_hmac_key n = cn_hmac_key n'.

#[local] Instance same_node_equiv : Equivalence same_node.
Proof. unfold same_node. split; [by intros ?|by intros ?? (?&?&?)|intros ??? (?&?&?) (?&?&?)]; split_and!; congruence. Qed.

#[local] Instance envelope_proper inv : Proper (same_node ==> eq) (envelope inv).
Proof. intros n n' (E1 & E2 & E3). unfold envelope. by rewrite E1, E2, E3. Qed.

#[local] Instance admit_proper env : Proper (same_node ==> eq) (node_admit env).
Proof. intros n n' (E1 & E2 & E3). unfold node_admit, verify_hmac. by rewrite E2, E3. Qed.

Lemma verify_hmac_ok env n :
  verify_hmac env n = Ok tt ↔ env = sign_invalidation_envelope (cn_hmac_key n) env.
Proof.
  rewrite <-verify_envelope_iff.
  unfold verify_hmac. by destruct (verify_invalidation_envelope _ _).
Qed.

Lemma admit_ok env n :
  node_admit env n = Ok tt ↔
  wire_version env = WIRE_VERSION ∧ ontology_fingerprint env = cn_fp n ∧
  length (cn_fp n) = 32%nat ∧ env = sign_invalidation_envelope (cn_hmac_key n) env.
Proof.
  unfold node_admit. destruct (Z.eqb_spec (wire_version env) WIRE_VERSION) as [E|E]; simpl; [|naive_solver].
  destruct (admit_peer _ _) as [[]|] eqn:Hp.
  - apply admit_peer_ok in Hp as [-> Hl]. rewrite verify_hmac_ok. naive_solver.
  - split; [done|]. intros (_ & E1 & E2 & _). by rewrite (proj2 (admit_peer_ok _ _)) in Hp.
Qed.

(** A node admits an envelope exactly when it speaks this wire version, names this ontology and
    carries this cluster's signature over its other fields; otherwise it reports the first of the
    three that fails, and an envelope it does not let in changes nothing, neither what subscribers
    see nor what they can replay. *)
Theorem admission_exact env n :
  (node_admit env n = Ok tt ↔
     wire_version env = WIRE_VERSION ∧ ontology_fingerprint env = cn_fp n ∧
     length (cn_fp n) = 32%nat ∧ env = sign_invalidation_envelope (cn_hmac_key n) env) ∧
  (node_admit env n = Err WireMismatch ↔ wire_version env ≠ WIRE_VERSION) ∧
  (node_admit env n = Err OntologyMismatch ↔ wire_version env = WIRE_VERSION ∧
     ¬ (ontology_fingerprint env = cn_fp n ∧ length (cn_fp n) = 32%nat)) ∧
  (admit_and_publish env n =
   match node_admit env n with
   | Ok _ => (publish_envelope env n, Ok tt) | Err e => (n, Err e)
   end).
Proof.
  split_and!.
  - apply admit_ok.
  - unfold node_admit. destruct (Z.eqb_spec (wire_version env) WIRE_VERSION); simpl; [|naive_solver].
    destruct (admit_peer _ _); [|naive_solver]. unfold verify_hmac. case_match; naive_solver.
  - rewrite <-admit_peer_ok. unfold node_admit.
    destruct (Z.eqb_spec (wire_version env) WIRE_VERSION); simpl; [|naive_solver].
    destruct (admit_peer _ _) as [[]|]; [|naive_solver]. unfold verify_hmac. case_match; naive_solver.
  - unfold admit_and_publish. by destruct (node_admit env n).
Qed.

Lemma admit_own inv n : length (cn_fp n) = 32%nat → node_admit (envelope inv n) n = Ok tt.
Proof. intros Hl. apply admit_ok. split_and!; [done..|]. symmetry. apply sign_signed. Qed.

(** [n'] is [n] after publishing [es]. *)
Definition published (es : list InvalidationEnvelope) n n' : Prop :=
  same_node n n' ∧ cn_tx n' = cn_tx n ++ es ∧
  cn_change_log n' = foldl ring_append (cn_change_log n) es.

Lemma published_refl h n : published [] n (set_health h n).
Proof. split; [done|]. simpl. by rewrite app_nil_r. Qed.

Lemma published_trans es es' n1 n2 n3 :
  published es n1 n2 → published es' n2 n3 → published (es ++ es') n1 n3.
Proof.
  intros (Hs & Et & El) (Hs' & Et' & El'). split; [by etrans|].
  by rewrite Et', Et, El', El, foldl_app, (assoc_L (++)).
Qed.

Lemma envelopes_same n n' (invs : list Invalidation) :
  same_node n n' → (λ inv, envelope inv n') <$> invs = (λ inv, envelope inv n) <$> invs.
Proof. intros Hs. apply list_fmap_ext. intros i inv _. by rewrite Hs. Qed.

Lemma consume_feed_epoch_spec sub n :
  length (cn_fp n) = 32%nat →
  ∃ n', consume_feed_epoch sub n = (n', Ok tt) ∧
        published ((λ inv, envelope inv n) <$> ok_prefix sub) n n' ∧
        fh_epoch (cn_feed_health n') = fh_epoch (cn_feed_health n) ∧
        fh_ready (cn_feed_health n') = false ∧
        fh_failures (cn_feed_health n') = u64_saturating_add (fh_failures (cn_feed_health n)) 1.
Proof.
  revert n. induction sub as [|[inv|e] sub IH]; intros n Hl.
  - eexists. split; [done|]. by split; [apply published_refl|].
  - cbn [consume_feed_epoch ok_prefix]. unfold admit_and_publish. rewrite admit_own by done.
    destruct (IH (publish_envelope (envelope inv n) n) Hl) as (n' & E & Hp & Hh).
    exists n'. split; [done|]. split; [|done]. rewrite fmap_cons.
    change (?x :: ?l) with ([x] ++ l). eapply published_trans; [|exact Hp].
    by split.
  - eexists. split; [done|]. by split; [apply published_refl|].
Qed.

(** A finished [run]: what it published, how long it paused and what it counted. *)
Record ran (attempts : list (result (list (result Invalidation StorageError)) StorageError))
    n n' (slept : list Z) : Prop := {
  ran_published : published ((λ inv, envelope inv n) <$> delivered attempts) n n';
  ran_length : length slept = length attempts;
  ran_pauses : Forall (λ d, 100 ≤ d ≤ 5000) slept;
  ran_ready : fh_ready (cn_feed_health n') =
              match attempts with [] => fh_ready (cn_feed_health n) | _ => false end;
  ran_counts :
    let h := cn_feed_health n in
    let k := Z.of_nat (length attempts) in
    0 ≤ fh_failures h → 0 ≤ fh_epoch h → fh_failures h + k < 2 ^ 64 → fh_epoch h + k < 2 ^ 64 →
    fh_failures (cn_feed_health n') = fh_failures h + k ∧
    fh_epoch (cn_feed_health n') = fh_epoch h + Z.of_nat (length (subscribed attempts));
}.

Lemma ran_ok sub attempts n n1 n' slept :
  published ((λ inv, envelope inv n) <$> ok_prefix sub) n n1 →
  fh_epoch (cn_feed_health n1) = u64_saturating_add (fh_epoch (cn_feed_health n)) 1 →
  fh_ready (cn_feed_health n1) = false →
  fh_failures (cn_feed_health n1) = u64_saturating_add (fh_failures (cn_feed_health n)) 1 →
  ran attempts n1 n' slept → ran (Ok sub :: attempts) n n' (100 :: slept).
Proof.
  intros Hp1 He1 Hr1 Hf1 [Hp Hlen Hsl Hready Hcount]. split.
  - unfold delivered. rewrite bind_cons, fmap_app.
    rewrite (envelopes_same n n1) in Hp by apply Hp1. by eapply published_trans.
  - simpl. by rewrite Hlen.
  - constructor; [lia|done].
  - rewrite Hready. by destruct attempts.
  - intros h k ? ? ? ?. subst h k. cbn [length] in *. unfold subscribed in *. rewrite bind_cons.
    simpl length. unfold u64_saturating_add in *. cbv zeta in Hcount. rewrite He1, Hf1 in Hcount.
    destruct Hcount as [-> ->]; lia.
Qed.

Lemma ran_failed e attempts delay n n' slept :
  100 ≤ delay ≤ 5000 →
  ran attempts (mark_feed_failed n) n' slept → ran (Err e :: attempts) n n' (delay :: slept).
Proof.
  intros Hd [Hp Hlen Hsl Hready Hcount]. split.
  - exact Hp.
  - simpl. by rewrite Hlen.
  - by constructor.
  - rewrite Hready. by destruct attempts.
  - intros h k ? ? ? ?. subst h k. cbn [length] in *. unfold subscribed in *. rewrite bind_cons.
    simpl length. cbv zeta in Hcount. simpl in Hcount. unfold u64_saturating_add in Hcount.
    destruct Hcount as [-> ->]; lia.
Qed.

Lemma run_spec attempts delay n :
  length (cn_fp n) = 32%nat → 100 ≤ delay ≤ 5000 →
  ∃ n' slept, run attempts delay n = (n', slept, Ok tt) ∧ ran attempts n n' slept.
Proof.
  revert delay n. induction attempts as [|[sub|e] attempts IH]; intros delay n Hl Hd.
  - exists n, []. split; [done|]. split; try done; [by destruct n; apply published_refl|].
    simpl. intros. unfold subscribed. simpl. lia.
  - cbn [run]. destruct (consume_feed_epoch_spec sub (mark_feed_ready n) Hl)
      as (n1 & -> & Hp1 & He1 & Hr1 & Hf1).
    destruct (IH (Z.min (100 * 2) 5000) n1) as (n' & slept & -> & Hran);
      [by rewrite <-(proj1 (proj2 (proj1 Hp1)))|lia|].
    exists n', (100 :: slept). split; [done|]. by apply (ran_ok _ _ _ n1).
  - cbn [run]. destruct (IH (Z.min (delay * 2) 5000) (mark_feed_failed n) Hl)
      as (n' & slept & -> & Hran); [lia|].
    exists n', (delay :: slept). split; [done|]. by apply ran_failed.
Qed.

(** The supervised feed never stops on its own account: whatever the subscriptions yield, every
    event delivered before a subscription's first error is published once, in order, to the hub
    and to the change log alike, as an envelope the node itself admits; every epoch ends not
    ready and counted as a failure; and the node pauses between 100 ms and 5 s before each new
    attempt. *)
Theorem run_publishes attempts delay n :
  length (cn_fp n) = 32%nat → 100 ≤ delay ≤ 5000 →
  let es := (λ inv, envelope inv n) <$> delivered attempts in
  ∃ n' slept, run attempts delay n = (n', slept, Ok tt) ∧
    cn_tx n' = cn_tx n ++ es ∧
    cn_change_log n' = foldl ring_append (cn_change_log n) es ∧
    Forall (λ e, node_admit e n' = Ok tt) es ∧
    ran attempts n n' slept.
Proof.
  intros Hl Hd es. destruct (run_spec attempts delay n Hl Hd) as (n' & slept & E & Hran).
  destruct (ran_published _ _ _ _ Hran) as (Hs & Et & El).
  exists n', slept. split_and!; [done..| |done]. apply Forall_fmap, Forall_true.
  intros inv. simpl. rewrite <-Hs. by apply admit_own.
Qed.
End node_facts.
