(* ===== verification/Sync.v ===== *)
(** * The client's subscriber: [crates/exocortex-client/src/sync.rs]

    The hold-back gate that releases events in LSN order, the bounded parser of the event
    stream, the decoding and verification of one event, and the subscriber's connection loop as
    a machine over the items its [select!] yields. *)

From S2P Require Import Prelude Ids Kernel Packs Ontology StorageTypes Graph Reads Leases.
From S2P Require Import Ingest Governed Cycles Storage Interleaving Wire Cluster.

(** ** The hold-back gate *)

(* SRC crates/exocortex-client/src/sync.rs 486-495 LsnGate *)
Record LsnGate := mkLsnGate {
  lg_next : Z;
  lg_held : gmap Z Invalidation;
  lg_gap_since : option Z;
}.

(* SRC crates/exocortex-client/src/sync.rs 498-505 LsnGate::new *)
Definition LsnGate_new (next : Z) : LsnGate := mkLsnGate next ∅ None.

(** [while let Some(inv) = self.held.remove(&self.next)]: every round removes an entry. *)
Fixpoint release_loop (fuel : nat) (next : Z) (held : gmap Z Invalidation) (out : list Invalidation)
    : Z * gmap Z Invalidation * list Invalidation :=
  match fuel with
  | O => (next, held, out)
  | S fuel =>
      match held !! next with
      | Some inv => release_loop fuel (u64_add next 1) (delete next held) (out ++ [inv])
      | None => (next, held, out)
      end
  end.

(** [now] is the clock [get_or_insert_with] reads. *)
(* SRC crates/exocortex-client/src/sync.rs 525-537 release *)
Definition release (now : Z) (g : LsnGate) : LsnGate * list Invalidation :=
  let '(next, held, out) := release_loop (S (size (lg_held g))) (lg_next g) (lg_held g) [] in
  let gap_since :=
    if bool_decide (held = ∅) then None
    else match lg_gap_since g with Some t => Some t | None => Some now end in
  (mkLsnGate next held gap_since, out).

(* SRC crates/exocortex-client/src/sync.rs 512-523 push *)
Definition push (clk : nat → Z) (lsn : Z) (inv : Invalidation) (g : LsnGate)
    : LsnGate * list Invalidation :=
  if lsn <? lg_next g then (g, [])
  else
    let gap_since := if bool_decide (lg_held g = ∅) then Some (clk 0%nat) else lg_gap_since g in
    release (clk 1%nat) (mkLsnGate (lg_next g) (<[lsn := inv]> (lg_held g)) gap_since).

(* SRC crates/exocortex-client/src/sync.rs 539-546 gap_expired *)
Definition gap_expired (now timeout : Z) (g : LsnGate) : option Z :=
  match bool_decide (lg_held g = ∅), lg_gap_since g with
  | false, Some t => if timeout <=? now - t then Some (lg_next g) else None
  | _, _ => None
  end.

(* SRC crates/exocortex-client/src/sync.rs 548-554 gap_deadline *)
Definition gap_deadline (timeout : Z) (g : LsnGate) : option Z :=
  if bool_decide (lg_held g = ∅) then None
  else (λ started, started + timeout) <$> lg_gap_since g.

(** A run of pushes, with the clock of each. *)
Fixpoint push_all (es : list ((nat → Z) * Z * Invalidation)) (g : LsnGate)
    : LsnGate * list Invalidation :=
  match es with
  | [] => (g, [])
  | (clk, lsn, inv) :: es =>
      let '(g, out1) := push clk lsn inv g in
      let '(g, out2) := push_all es g in
      (g, out1 ++ out2)
  end.

(** *** Released in order, once, without gaps *)

(** The held entries are what [f] says at their LSNs. *)
Definition holds (f : Z → Invalidation) (held : gmap Z Invalidation) : Prop :=
  ∀ l inv, held !! l = Some inv → inv = f l ∧ 0 ≤ l < 2 ^ 64 - 1.

Lemma release_loop_spec f fuel next held out :
  holds f held → (size held < fuel)%nat → 0 ≤ next < 2 ^ 64 →
  ∃ k, 0 ≤ k ∧ next + k < 2 ^ 64 ∧
    (release_loop fuel next held out).1.1 = next + k ∧
    (release_loop fuel next held out).2 = out ++ (f <$> seqZ next k) ∧
    (∀ l, next ≤ l < next + k → is_Some (held !! l)) ∧
    held !! (next + k) = None ∧
    (∀ l, (release_loop fuel next held out).1.2 !! l =
          if bool_decide (next ≤ l < next + k) then None else held !! l).
Proof.
  revert next held out. induction fuel as [|fuel IH]; intros next held out Hf Hs Hn; [lia|]. simpl.
  destruct (held !! next) as [inv|] eqn:Hl.
  - destruct (Hf _ _ Hl) as [-> Hr].
    rewrite (u64_add_small next 1) by lia.
    destruct (IH (next + 1) (delete next held) (out ++ [f next])) as (k & Hk & Hb & -> & -> & H1 & H2 & H3).
    { intros l inv [_ Hi]%lookup_delete_Some. by apply Hf. }
    { assert (size held ≠ 0)%nat by (rewrite map_size_empty_iff; by intros ->).
      rewrite map_size_delete, Hl. lia. }
    { lia. }
    exists (k + 1). replace (next + (k + 1)) with (next + 1 + k) by lia.
    rewrite lookup_delete_ne in H2 by lia. split_and!; try lia; try done.
    + rewrite (seqZ_cons next) by lia. rewrite fmap_cons, <-(assoc_L (++)). simpl.
      by replace (Z.succ next) with (next + 1) by lia; replace (Z.pred (k + 1)) with k by lia.
    + intros l Hl'. destruct (decide (l = next)) as [->|]; [by eauto|].
      assert (is_Some (delete next held !! l)) as Hi by (apply H1; lia).
      by rewrite lookup_delete_ne in Hi by done.
    + intros l. rewrite H3. destruct (decide (l = next)) as [->|].
      * rewrite (bool_decide_eq_true_2 (next ≤ next < _)) by lia.
        by rewrite lookup_delete_eq; case_bool_decide.
      * rewrite lookup_delete_ne by done.
        by rewrite (bool_decide_ext (next + 1 ≤ l < _) (next ≤ l < next + 1 + k)) by lia.
  - exists 0. rewrite Z.add_0_r. simpl. rewrite app_nil_r. split_and!; try lia; try done.
    intros l. rewrite bool_decide_eq_false_2 by lia. done.
Qed.

(** The gate after the LSNs [P] arrived, having started at [n0]: everything before [lg_next] has
    arrived, [lg_next] has not, and what is held is what arrived beyond it. *)
Record gate_ok (f : Z → Invalidation) (n0 : Z) (P : list Z) (g : LsnGate) : Prop := {
  go_next : 0 ≤ n0 ≤ lg_next g ∧ lg_next g < 2 ^ 64;
  go_released : ∀ l, n0 ≤ l < lg_next g → l ∈ P;
  go_missing : lg_next g ∉ P;
  go_held : ∀ l inv, lg_held g !! l = Some inv ↔ inv = f l ∧ l ∈ P ∧ lg_next g < l;
  go_gap : is_Some (lg_gap_since g) ↔ lg_held g ≠ ∅;
}.

Lemma gate_ok_new f n : 0 ≤ n < 2 ^ 64 → gate_ok f n [] (LsnGate_new n).
Proof.
  intros Hn. split; simpl; [lia|intros; lia|by apply not_elem_of_nil| |].
  - intros l inv. rewrite lookup_empty. split; [done|]. by intros (_ & ?%elem_of_nil & _).
  - split; [by intros [? ?]|done].
Qed.

Lemma gate_ok_push f n0 P g clk lsn :
  Forall (λ l, 0 ≤ l < 2 ^ 64 - 1) (P ++ [lsn]) → gate_ok f n0 P g →
  gate_ok f n0 (P ++ [lsn]) (push clk lsn (f lsn) g).1 ∧
  lg_next g ≤ lg_next (push clk lsn (f lsn) g).1 ∧
  (push clk lsn (f lsn) g).2 =
  f <$> seqZ (lg_next g) (lg_next (push clk lsn (f lsn) g).1 - lg_next g).
Proof.
  intros Hr [Hn Hrel Hmiss Hheld Hgap]. unfold push.
  destruct (Z.ltb_spec lsn (lg_next g)) as [Hlt|Hge].
  { simpl. rewrite Z.sub_diag. split_and!; [|lia|done]. split; try done.
    - intros l Hl. apply elem_of_app. left. by apply Hrel.
    - rewrite not_elem_of_app, list_elem_of_singleton. split; [done|lia].
    - intros l inv. rewrite Hheld, elem_of_app, list_elem_of_singleton. naive_solver lia. }
  unfold release. cbn [lg_held lg_next lg_gap_since].
  set (held := <[lsn := f lsn]> (lg_held g)).
  assert (Hin : ∀ l, is_Some (held !! l) ↔ l ∈ P ++ [lsn] ∧ lg_next g ≤ l).
  { intros l. unfold held. rewrite lookup_insert_is_Some', elem_of_app, list_elem_of_singleton. split.
    - intros [->|H]; [|destruct H as [inv (_ & ? & ?)%Hheld]]; [split; [by right|lia]|split; [by left|lia]].
    - intros [[Hp| ->] Hle]; [right|by left]. destruct (decide (l = lg_next g)) as [->|]; [done|].
      exists (f l). apply Hheld. split_and!; [done|done|lia]. }
  assert (Hval : holds f held).
  { intros l inv Hl. pose proof (proj1 (Hin l) (mk_is_Some _ _ Hl)) as [Hp _].
    rewrite Forall_forall in Hr. split; [|by apply Hr]. unfold held in Hl.
    apply lookup_insert_Some in Hl as [[-> <-]|[_ Hl]]; [done|]. by apply Hheld in Hl as [-> _]. }
  destruct (release_loop_spec f (S (size held)) (lg_next g) held [] Hval) as
    (k & Hk & Hb & E1 & E2 & H1 & H2 & H3); [lia|lia|].
  destruct (release_loop _ _ _ _) as [[next' held'] out]. simpl in *. subst next' out.
  replace (lg_next g + k - lg_next g) with k by lia. split_and!; [|lia|done].
  split; cbn [lg_next lg_held lg_gap_since].
  - lia.
  - intros l Hl. destruct (decide (l < lg_next g)); [apply elem_of_app; left; apply Hrel; lia|].
    apply Hin, H1. lia.
  - intros Hp. assert (is_Some (held !! (lg_next g + k))) as [? Hc] by (apply Hin; split; [done|lia]).
    congruence.
  - intros l inv. rewrite H3. case_bool_decide as Hd.
    + split; [done|]. intros (_ & _ & ?). lia.
    + split.
      * intros Hl. destruct (Hval _ _ Hl) as [-> _].
        destruct (proj1 (Hin l) (mk_is_Some _ _ Hl)) as [? ?]. split_and!; [done|done|].
        assert (l ≠ lg_next g + k) by (intros ->; congruence). lia.
      * intros (-> & Hp & Hl). destruct (proj2 (Hin l)) as [inv Hi]; [split; [done|lia]|].
        rewrite Hi. by destruct (Hval _ _ Hi) as [-> _].
  - repeat case_bool_decide; repeat case_match; split; try done; try by intros []; eauto.
Qed.

Lemma push_all_spec f n0 P g es :
  Forall (λ l, 0 ≤ l < 2 ^ 64 - 1) (P ++ es.*1.*2) → Forall (λ e, e.2 = f e.1.2) es →
  gate_ok f n0 P g →
  gate_ok f n0 (P ++ es.*1.*2) (push_all es g).1 ∧
  lg_next g ≤ lg_next (push_all es g).1 ∧
  (push_all es g).2 = f <$> seqZ (lg_next g) (lg_next (push_all es g).1 - lg_next g).
Proof.
  revert P g. induction es as [|[[clk lsn] inv] es IH]; intros P g Hr Hf Hg.
  - simpl. rewrite app_nil_r, Z.sub_diag. split_and!; [done|lia|done].
  - apply Forall_cons in Hf as [Hi Hf]. simpl in Hi. subst inv. cbn [push_all].
    rewrite !fmap_cons in *. cbn [fst snd] in *. rewrite cons_middle, (assoc_L (++)) in Hr |- *.
    destruct (gate_ok_push f n0 P g clk lsn) as (Hg1 & Hle1 & Ho1);
      [by apply Forall_app in Hr as [? _]|done|].
    destruct (push clk lsn (f lsn) g) as [g1 out1]. simpl in *.
    destruct (IH (P ++ [lsn]) g1 Hr Hf Hg1) as (Hg2 & Hle2 & Ho2).
    destruct (push_all es g1) as [g2 out2]. simpl in *. split_and!; [done|lia|].
    rewrite Ho1, Ho2, <-fmap_app. f_equal.
    replace (lg_next g2 - lg_next g) with ((lg_next g1 - lg_next g) + (lg_next g2 - lg_next g1)) by lia.
    rewrite seqZ_app by lia. by replace (lg_next g + (lg_next g1 - lg_next g)) with (lg_next g1) by lia.
Qed.

(** However the feed delivers them, late, early or twice, the gate hands events on in LSN order,
    each once and without a gap: what it has released is exactly the events from its start up to
    the first LSN that has not arrived, and what it holds is exactly what arrived beyond that. *)
Theorem gate_in_order f n0 es :
  0 ≤ n0 < 2 ^ 64 → Forall (λ e, 0 ≤ e.1.2 < 2 ^ 64 - 1 ∧ e.2 = f e.1.2) es →
  let '(g, out) := push_all es (LsnGate_new n0) in
  n0 ≤ lg_next g ∧ out = f <$> seqZ n0 (lg_next g - n0) ∧
  (∀ l, n0 ≤ l < lg_next g → l ∈ es.*1.*2) ∧ (lg_next g ∉ es.*1.*2) ∧
  (∀ l inv, lg_held g !! l = Some inv ↔ inv = f l ∧ l ∈ es.*1.*2 ∧ lg_next g < l) ∧
  (∀ now timeout l, gap_expired now timeout g = Some l → l = lg_next g ∧ lg_held g ≠ ∅).
Proof.
  intros Hn Hes. apply Forall_and in Hes as [Hr Hf].
  destruct (push_all_spec f n0 [] (LsnGate_new n0) es) as ([H1 H2 H3 H4 H5] & _ & Ho);
    [by rewrite app_nil_l; apply Forall_fmap, Forall_fmap|done|by apply gate_ok_new|].
  destruct (push_all es (LsnGate_new n0)) as [g out]. simpl in *. split_and!; try done; [lia|].
  intros now timeout l. unfold gap_expired. case_bool_decide; [done|].
  destruct (lg_gap_since g); [|done]. case_match; [|done]. by intros [= <-].
Qed.

(** The timer of the gate runs from the moment something was first held, not from the moment the
    present gap opened: here LSN 3 opened the gap at time 0, LSN 6 arrived early at time 19, LSN
    3 closed that gap at time 19, and the gap at LSN 5, zero ticks old, is reported expired at
    time 20 with a timeout of 20. *)
Theorem gap_timer_not_per_gap a b c :
  let at_ t (_ : nat) := t in
  let g := (push_all [(at_ 0, 4, a); (at_ 19, 6, b); (at_ 19, 3, c)] (LsnGate_new 3)).1 in
  lg_next g = 5 ∧ gap_expired 20 20 g = Some 5.
Proof. by vm_compute. Qed.

(** ** The bounded event-stream parser *)

(** [core::str::from_utf8]'s validation: the well-formed sequences of the Unicode standard. *)
Definition cont (b : Z) : bool := (128 <=? b) && (b <=? 191).
Fixpoint utf8_valid (l : list Z) : bool :=
  match l with
  | [] => true
  | b :: l =>
      if b <? 128 then utf8_valid l
      else match l with
      | [] => false
      | c1 :: l =>
          if (194 <=? b) && (b <=? 223) then cont c1 && utf8_valid l
          else match l with
          | [] => false
          | c2 :: l =>
              if (224 <=? b) && (b <=? 239) then
                (if b =? 224 then (160 <=? c1) && (c1 <=? 191)
                 else if b =? 237 then (128 <=? c1) && (c1 <=? 159) else cont c1)
                && cont c2 && utf8_valid l
              else match l with
              | [] => false
              | c3 :: l =>
                  (if b =? 240 then (144 <=? c1) && (c1 <=? 191)
                   else if b =? 244 then (128 <=? c1) && (c1 <=? 143)
                   else (241 <=? b) && (b <=? 243) && cont c1)
                  && cont c2 && cont c3 && utf8_valid l
              end
          end
      end
  end.
Definition from_utf8 (l : list Z) : option string :=
  if utf8_valid l then Some (string_of_bytes l) else None.

(* SRC crates/exocortex-client/src/sync.rs 35-39 SseFrame *)
Inductive SseFrame :=
  | Activity
  | Event (event_type data : string).

(* SRC crates/exocortex-client/src/sync.rs 47-53 BoundedSseParser *)
Record BoundedSseParser := mkParser {
  sp_line : list Z;
  sp_event_type : string;
  sp_data : string;
  sp_pending_cr : bool;
  sp_max_data_bytes : Z;
}.

(* SRC crates/exocortex-client/src/sync.rs 56-64 BoundedSseParser::new *)
Definition parser_new (max_data_bytes : Z) : BoundedSseParser := mkParser [] "" "" false max_data_bytes.

Definition set_line (l : list Z) (p : BoundedSseParser) : BoundedSseParser :=
  mkParser l (sp_event_type p) (sp_data p) (sp_pending_cr p) (sp_max_data_bytes p).
Definition set_event (t : string) (p : BoundedSseParser) : BoundedSseParser :=
  mkParser (sp_line p) t (sp_data p) (sp_pending_cr p) (sp_max_data_bytes p).
Definition set_data (d : string) (p : BoundedSseParser) : BoundedSseParser :=
  mkParser (sp_line p) (sp_event_type p) d (sp_pending_cr p) (sp_max_data_bytes p).
Definition set_cr (b : bool) (p : BoundedSseParser) : BoundedSseParser :=
  mkParser (sp_line p) (sp_event_type p) (sp_data p) b (sp_max_data_bytes p).

(** [value.strip_prefix(b" ").unwrap_or(value)]. *)
Definition strip_space (value : list Z) : list Z :=
  match value with c :: rest => if c =? 32 then rest else value | [] => value end.

(** The field name and value of a line: the bytes before and after its first colon. *)
Fixpoint split_colon (line : list Z) : list Z * option (list Z) :=
  match line with
  | [] => ([], None)
  | c :: rest =>
      if c =? 58 then ([], Some rest)
      else let '(field, value) := split_colon rest in (c :: field, value)
  end.
Definition line_field (line : list Z) : list Z * list Z :=
  let '(field, value) := split_colon line in
  (field, match value with Some v => strip_space v | None => [] end).

(** [checked_add] on [usize]. *)
Definition usize_checked_add (x y : Z) : option Z := if x + y <? 2 ^ 64 then Some (x + y) else None.

(* SRC crates/exocortex-client/src/sync.rs 92-143 finish_line *)
Definition finish_line (p : BoundedSseParser) : result (BoundedSseParser * list SseFrame) string :=
  let line := sp_line p in
  let p := set_line [] p in
  match line with
  | [] =>
      if negb (String.eqb (sp_data p) "") || negb (String.eqb (sp_event_type p) "")
      then Ok (set_data "" (set_event "" p), [Event (sp_event_type p) (sp_data p)])
      else Ok (p, [])
  | c :: _ =>
      if c =? 58 then Ok (p, [Activity])
      else
        let '(field, value) := line_field line in
        if bool_decide (field = as_bytes "event") then
          let? t := ok_or (from_utf8 value) "SSE event type is not UTF-8"%string in
          Ok (set_event t p, [])
        else if bool_decide (field = as_bytes "data") then
          let separator := if String.eqb (sp_data p) "" then 0 else 1 in
          let? next_len :=
            ok_or (n ← usize_checked_add (byte_len (sp_data p)) separator;
                   usize_checked_add n (Z.of_nat (length value))) "SSE event size overflow"%string in
          if sp_max_data_bytes p <? next_len
          then Err "SSE data exceeds the encoded event ceiling"%string
          else
            let data := if separator =? 0 then sp_data p
                        else sp_data p +:+ string_of_bytes [10] in
            let? v := ok_or (from_utf8 value) "SSE data is not UTF-8"%string in
            Ok (set_data (data +:+ v) p, [])
        else Ok (p, [])
  end.

(** One round of the loop over the bytes. *)
Definition push_byte (p : BoundedSseParser) (byte : Z)
    : result (BoundedSseParser * list SseFrame) string :=
  let pending := sp_pending_cr p in
  let p := set_cr false p in
  if pending && (byte =? 10) then Ok (p, [])
  else if byte =? 13 then
    let? (p, frames) := finish_line p in Ok (set_cr true p, frames)
  else if byte =? 10 then finish_line p
  else if u64_saturating_add (sp_max_data_bytes p) 16 <=? Z.of_nat (length (sp_line p))
  then Err "SSE line exceeds the encoded event ceiling"%string
  else Ok (set_line (sp_line p ++ [byte]) p, []).

(* SRC crates/exocortex-client/src/sync.rs 66-90 push *)
Fixpoint parser_push (bytes : list Z) (p : BoundedSseParser)
    : result (BoundedSseParser * list SseFrame) string :=
  match bytes with
  | [] => Ok (p, [])
  | byte :: bytes =>
      let? (p, frames1) := push_byte p byte in
      let? (p, frames2) := parser_push bytes p in
      Ok (p, frames1 ++ frames2)
  end.

Example parser_crlf :
  (let? (p, f) := parser_push (as_bytes ": hi" ++ [13]) (parser_new 8) in
   let? (p, f') := parser_push ([10] ++ as_bytes "event: inv" ++ [13; 10] ++ as_bytes "data: Zg=="
     ++ [13; 10; 13; 10]) p in Ok (f ++ f')) =
  Ok (A := list SseFrame) (E := string) [Activity; Event "inv" "Zg=="].
Proof. vm_compute. reflexivity. Qed.

(** *** What the parser guarantees *)

(** Reading a stream in pieces is reading it at once. *)
Lemma parser_push_app a b p :
  parser_push (a ++ b) p =
  let? (p, f1) := parser_push a p in
  let? (p, f2) := parser_push b p in Ok (p, f1 ++ f2).
Proof.
  revert p. induction a as [|x a IH]; intros p; simpl.
  - destruct (parser_push b p) as [[]|]; done.
  - destruct (push_byte p x) as [[p1 f]|]; [|done]. cbn [result_bind]. rewrite IH.
    destruct (parser_push a p1) as [[p2 f2]|]; [|done]. cbn [result_bind].
    destruct (parser_push b p2) as [[p3 f3]|]; [|done]. cbn [result_bind].
    by rewrite (assoc_L (++)).
Qed.

(** The memory a parser holds between bytes. *)
Definition parser_bounded (p : BoundedSseParser) : Prop :=
  Z.of_nat (length (sp_line p)) ≤ sp_max_data_bytes p + 16 ∧
  byte_len (sp_data p) ≤ sp_max_data_bytes p.

(** A frame within the ceiling. *)
Definition frame_bounded (max : Z) (f : SseFrame) : Prop :=
  match f with Activity => True | Event _ data => byte_len data ≤ max end.

Lemma byte_len_app s t : byte_len (s +:+ t) = byte_len s + byte_len t.
Proof. unfold byte_len. induction s as [|c s IH]; [done|]. simpl in *. lia. Qed.

Lemma byte_len_bytes s : byte_len s = Z.of_nat (length (as_bytes s)).
Proof. unfold byte_len, as_bytes. rewrite length_fmap. f_equal. induction s; simpl; auto. Qed.

Lemma byte_len_from_utf8 l s : from_utf8 l = Some s → byte_len s = Z.of_nat (length l).
Proof.
  unfold from_utf8, byte_len, string_of_bytes. intros E. break_hyp E. f_equal.
  induction l as [|b l IH] in Heqb |- *; [done|]. simpl. f_equal. clear IH Heqb.
  induction l; simpl; auto.
Qed.

Lemma usize_add_add x y z n :
  (m ← usize_checked_add x y; usize_checked_add m z) = Some n → n = x + y + z.
Proof.
  unfold usize_checked_add. intros (m & Hm & Hn)%bind_Some. break_hyp Hm. by break_hyp Hn.
Qed.

Lemma finish_line_bounded p p' frames :
  parser_bounded p → finish_line p = Ok (p', frames) →
  sp_max_data_bytes p' = sp_max_data_bytes p ∧ sp_line p' = [] ∧
  byte_len (sp_data p') ≤ sp_max_data_bytes p' ∧ Forall (frame_bounded (sp_max_data_bytes p)) frames.
Proof.
  intros [Hl Hd] E. unfold finish_line in E.
  assert (0 ≤ sp_max_data_bytes p) by (unfold byte_len in Hd; lia).
  destruct (sp_line p) as [|c line]; [break_hyp E; split_and!; auto using Forall_nil|].
  destruct (c =? 58); [simplify_eq; split_and!; [done..|by repeat constructor]|].
  destruct (line_field (c :: line)) as [field value]. cbv beta iota in E.
  case_bool_decide; [|case_bool_decide; [|by simplify_eq; split_and!; auto using Forall_nil]].
  - apply result_bind_ok in E as (t & _ & [= <- <-]). split_and!; auto using Forall_nil.
  - apply result_bind_ok in E as (n & Hn & E). case_match; [done|]. bool_prop.
    apply result_bind_ok in E as (v & Hv & [= <- <-]). split_and!; auto using Forall_nil.
    unfold ok_or in Hn, Hv. simpl. destruct (from_utf8 value) as [v'|] eqn:Hu; simplify_eq.
    apply byte_len_from_utf8 in Hu. rewrite byte_len_app, Hu.
    destruct (_ ≫= _) as [n'|] eqn:Hs in Hn; simplify_eq. apply usize_add_add in Hs. simpl in *.
    destruct (String.eqb (sp_data p) "") eqn:He; simpl; [lia|].
    rewrite byte_len_app. change (byte_len (string_of_bytes [10])) with 1. lia.
Qed.

Lemma push_byte_bounded p b p' frames :
  parser_bounded p → push_byte p b = Ok (p', frames) →
  sp_max_data_bytes p' = sp_max_data_bytes p ∧ parser_bounded p' ∧
  Forall (frame_bounded (sp_max_data_bytes p)) frames.
Proof.
  intros Hp E. unfold push_byte in E. assert (Hp' : parser_bounded (set_cr false p)) by exact Hp.
  assert (0 ≤ sp_max_data_bytes p) by (destruct Hp as [_ Hd]; unfold byte_len in Hd; lia).
  case_match; [by simplify_eq; split_and!; auto using Forall_nil|].
  case_match.
  { apply result_bind_ok in E as ([q fs] & E & [= <- <-]).
    apply finish_line_bounded in E as (Em & El & Ed & Ef); [|done]. simpl in *.
    split_and!; [done|split; simpl; [rewrite El; simpl; lia|done]|done]. }
  case_match.
  { apply finish_line_bounded in E as (Em & El & Ed & Ef); [|done]. simpl in *.
    split_and!; [done|split; [rewrite El; simpl; lia|done]|done]. }
  case_match; [done|]. simplify_eq. bool_prop. split_and!; auto using Forall_nil.
  destruct Hp as [Hl Hd]. split; [|done]. simpl in *. rewrite length_app. simpl length.
  unfold u64_saturating_add in *. lia.
Qed.

(** Whatever the server sends, and however it is cut into chunks, the parser never holds more
    than one line of the ceiling plus sixteen bytes and one event of the ceiling, and no event it
    delivers exceeds the ceiling. *)
Theorem parser_never_exceeds bytes max p' frames :
  0 ≤ max → parser_push bytes (parser_new max) = Ok (p', frames) →
  parser_bounded p' ∧ sp_max_data_bytes p' = max ∧ Forall (frame_bounded max) frames.
Proof.
  intros Hmax.
  assert (∀ p, parser_bounded p → sp_max_data_bytes p = max → parser_push bytes p = Ok (p', frames) →
    parser_bounded p' ∧ sp_max_data_bytes p' = max ∧ Forall (frame_bounded max) frames) as Hgen.
  { revert frames. induction bytes as [|b bytes IH]; intros frames p Hp Hm E; simpl in E.
    - simplify_eq. auto using Forall_nil.
    - apply result_bind_ok in E as ([p1 f1] & E1 & ([p2 f2] & E2 & [= <- <-])%result_bind_ok).
      apply push_byte_bounded in E1 as (Em & Hp1 & Hf1); [|done].
      destruct (IH f2 p1) as (? & ? & ?); [done|congruence|done|].
      split_and!; [done|done|]. apply Forall_app. split; [by rewrite <-Hm|done]. }
  apply Hgen; [|done]. split; simpl; unfold byte_len; simpl; lia.
Qed.

(** *** Framing *)

(** The line ends of the event-stream format. *)
Definition is_eol (eol : list Z) : Prop := eol = [10] ∨ eol = [13; 10] ∨ eol = [13].

(** One event as a server writes it. *)
Definition sse_event (eol : list Z) (e : string * string) : list Z :=
  (as_bytes "event: " ++ as_bytes e.1) ++ eol ++ (as_bytes "data: " ++ as_bytes e.2) ++ eol ++ eol.

(** Text of one line. *)
Definition one_line (s : string) : Prop := Forall (λ b, b ≠ 10 ∧ b ≠ 13) (as_bytes s).

(** Between two events. *)
Definition parser_clean (p : BoundedSseParser) : Prop :=
  sp_line p = [] ∧ sp_event_type p = ""%string ∧ sp_data p = ""%string.

Lemma parser_push_cons b l p :
  parser_push (b :: l) p =
  let? (q, f1) := push_byte p b in let? (q, f2) := parser_push l q in Ok (q, f1 ++ f2).
Proof. done. Qed.

Lemma push_text b l p :
  Forall (λ b, b ≠ 10 ∧ b ≠ 13) (b :: l) →
  Z.of_nat (length (sp_line p) + length (b :: l)) ≤ sp_max_data_bytes p + 16 →
  sp_max_data_bytes p + 16 < 2 ^ 64 →
  parser_push (b :: l) p = Ok (set_cr false (set_line (sp_line p ++ b :: l) p), []).
Proof.
  revert b p. induction l as [|b' l IH]; intros b p [[Hn Hr] Hl]%Forall_cons Hlen Hmax;
    rewrite parser_push_cons; unfold push_byte at 1; cbn [sp_pending_cr sp_line sp_max_data_bytes set_cr];
    rewrite (proj2 (Z.eqb_neq b 10)), (proj2 (Z.eqb_neq b 13)), andb_false_r by done;
    (rewrite (proj2 (Z.leb_gt _ _)); [|unfold u64_saturating_add; simpl in Hlen; lia]);
    cbn [result_bind]; [done|].
  rewrite IH; [|done| |done].
  - cbn [result_bind]. do 2 f_equal. unfold set_cr, set_line. simpl. by rewrite <-(assoc_L (++)).
  - cbn [set_line sp_line set_cr sp_max_data_bytes]. rewrite length_app. simpl in *. lia.
Qed.

Lemma push_eol eol p :
  is_eol eol → (sp_pending_cr p = true → eol ≠ [10]) →
  parser_push eol p =
  let? (q, f) := finish_line (set_cr false p) in Ok (set_cr (bool_decide (eol = [13])) q, f).
Proof.
  intros He Hp. assert (∀ q f, finish_line (set_cr false p) = Ok (q, f) → sp_pending_cr q = false) as Hcr.
  { intros q f Hq. unfold finish_line in Hq. destruct (sp_line (set_cr false p)) as [|c line].
    - by break_hyp Hq.
    - destruct (c =? 58); [by simplify_eq|]. destruct (line_field (c :: line)) as [fd v]. cbv beta iota in Hq.
      case_bool_decide; [|case_bool_decide; [|by simplify_eq]].
      + by apply result_bind_ok in Hq as (t & _ & [= <- <-]).
      + apply result_bind_ok in Hq as (n & _ & Hq). case_match; [done|].
        by apply result_bind_ok in Hq as (t & _ & [= <- <-]). }
  destruct He as [->|[-> | ->]]; cbn [parser_push]; unfold push_byte.
  - destruct (sp_pending_cr p); [by destruct Hp|]. simpl andb. cbv iota. simpl Z.eqb. cbv iota.
    destruct (finish_line (set_cr false p)) as [[q f]|] eqn:E; [|done]. cbn [result_bind].
    rewrite app_nil_r, bool_decide_eq_false_2 by done. specialize (Hcr _ _ eq_refl).
    destruct q. simpl in *. by subst.
  - rewrite andb_false_r. simpl Z.eqb. cbv iota.
    destruct (finish_line (set_cr false p)) as [[q f]|] eqn:E; [|done]. cbn [result_bind set_cr sp_pending_cr].
    simpl. rewrite app_nil_r. done.
  - rewrite andb_false_r. simpl Z.eqb. cbv iota.
    destruct (finish_line (set_cr false p)) as [[q f]|] eqn:E; [|done]. cbn [result_bind].
    by rewrite app_nil_r, bool_decide_eq_true_2.
Qed.

Lemma string_of_as_bytes s : string_of_bytes (as_bytes s) = s.
Proof.
  unfold string_of_bytes, as_bytes. rewrite <-list_fmap_compose.
  assert ((ascii_of_byte ∘ byte_of_ascii) <$> String.list_ascii_of_string s =
          id <$> String.list_ascii_of_string s) as ->
    by (apply list_fmap_ext; intros i c _; apply ascii_of_byte_of_ascii).
  by rewrite list_fmap_id, String.string_of_list_ascii_of_string.
Qed.

Definition utf8 (s : string) : Prop := utf8_valid (as_bytes s) = true.

Lemma from_utf8_as_bytes s : utf8 s → from_utf8 (as_bytes s) = Some s.
Proof. unfold from_utf8. intros ->. by rewrite string_of_as_bytes. Qed.

Lemma finish_event_line p t :
  sp_line p = as_bytes "event: " ++ as_bytes t → utf8 t →
  finish_line p = Ok (set_event t (set_line [] p), []).
Proof.
  intros Hl Ht. unfold finish_line. rewrite Hl.
  change (as_bytes "event: " ++ as_bytes t) with (101 :: 118 :: 101 :: 110 :: 116 :: 58 :: 32 :: as_bytes t).
  cbn -[as_bytes from_utf8]. rewrite bool_decide_eq_true_2 by done. by rewrite from_utf8_as_bytes.
Qed.

Lemma finish_data_line p d :
  sp_line p = as_bytes "data: " ++ as_bytes d → utf8 d → sp_data p = ""%string →
  byte_len d ≤ sp_max_data_bytes p → sp_max_data_bytes p < 2 ^ 64 →
  finish_line p = Ok (set_data d (set_line [] p), []).
Proof.
  intros Hl Hd He Hb Hm. unfold finish_line. rewrite Hl.
  change (as_bytes "data: " ++ as_bytes d) with (100 :: 97 :: 116 :: 97 :: 58 :: 32 :: as_bytes d).
  rewrite byte_len_bytes in Hb.
  cbn -[as_bytes from_utf8 Z.pow]. rewrite bool_decide_eq_false_2, bool_decide_eq_true_2 by done.
  rewrite He. cbn -[as_bytes from_utf8 Z.pow usize_checked_add]. unfold usize_checked_add.
  rewrite (proj2 (Z.ltb_lt _ _)) by (vm_compute; done). cbn -[as_bytes from_utf8 Z.pow].
  change (byte_len "" + 0 + ?n) with (0 + n). rewrite Z.add_0_l.
  rewrite (proj2 (Z.ltb_lt _ _)) by lia. cbn -[as_bytes from_utf8 Z.pow].
  rewrite (proj2 (Z.ltb_ge _ _)) by lia. by rewrite from_utf8_as_bytes.
Qed.

(** The body's chunks, one after the other. *)
Fixpoint push_chunks (chunks : list (list Z)) (p : BoundedSseParser)
    : result (BoundedSseParser * list SseFrame) string :=
  match chunks with
  | [] => Ok (p, [])
  | c :: chunks =>
      let? (p, f1) := parser_push c p in
      let? (p, f2) := push_chunks chunks p in Ok (p, f1 ++ f2)
  end.

Lemma push_chunks_join chunks p : push_chunks chunks p = parser_push (mjoin chunks) p.
Proof.
  revert p. induction chunks as [|c chunks IH]; intros p; [done|]. simpl. rewrite parser_push_app.
  destruct (parser_push c p) as [[q f]|]; [|done]. cbn [result_bind]. by rewrite IH.
Qed.

(** An event the server may send through a parser with ceiling [max]. *)
Definition event_fits (max : Z) (e : string * string) : Prop :=
  one_line e.1 ∧ one_line e.2 ∧ utf8 e.1 ∧ utf8 e.2 ∧ e.1 ≠ ""%string ∧
  byte_len e.1 ≤ max ∧ byte_len e.2 ≤ max.

Lemma one_line_app s t :
  forallb (λ b, negb (b =? 10) && negb (b =? 13)) (as_bytes s) = true → one_line t →
  Forall (λ b, b ≠ 10 ∧ b ≠ 13) (as_bytes s ++ as_bytes t).
Proof.
  intros Hs Ht. apply Forall_app. split; [|exact Ht]. apply Forall_forall. intros b Hb.
  rewrite List.forallb_forall in Hs. apply list_elem_of_In, Hs in Hb. bool_prop. lia.
Qed.

(** Compute the state between two steps. *)
Ltac parser_state :=
  cbv beta iota delta [result_bind set_cr set_line set_event set_data sp_line sp_event_type sp_data
    sp_pending_cr sp_max_data_bytes]; rewrite ?app_nil_l, ?app_nil_r.

Lemma push_event eol e p :
  is_eol eol → parser_clean p → (sp_pending_cr p = true → eol ≠ [10]) →
  event_fits (sp_max_data_bytes p) e → sp_max_data_bytes p + 16 < 2 ^ 64 →
  parser_push (sse_event eol e) p =
  Ok (set_cr (bool_decide (eol = [13])) p, [Event e.1 e.2]).
Proof.
  destruct p as [l0 t0 d0 cr0 max]. unfold parser_clean.
  cbn [sp_line sp_event_type sp_data sp_pending_cr sp_max_data_bytes].
  intros He (-> & -> & ->) Hcr (H1 & H2 & U1 & U2 & Hne & B1 & B2) Hmax.
  destruct e as [t d]. unfold sse_event. cbn [fst snd] in *. pose proof B2 as B2'.
  rewrite byte_len_bytes in B1, B2. rewrite parser_push_app.
  rewrite (push_text 101 (as_bytes "vent: " ++ as_bytes t)); [|exact (one_line_app "event: " t eq_refl H1)
    |cbn [sp_line sp_max_data_bytes length]; rewrite length_app; change (length (as_bytes "vent: ")) with 6%nat; lia|done].
  parser_state. rewrite parser_push_app, push_eol by done. parser_state.
  rewrite (finish_event_line _ t) by done. parser_state. rewrite parser_push_app.
  rewrite (push_text 100 (as_bytes "ata: " ++ as_bytes d)); [|exact (one_line_app "data: " d eq_refl H2)
    |cbn [sp_line sp_max_data_bytes length]; rewrite length_app;
     change (length (as_bytes "ata: ")) with 5%nat; lia|cbn [sp_max_data_bytes]; lia].
  parser_state. rewrite parser_push_app, push_eol by done. parser_state.
  rewrite (finish_data_line _ d) by (done || cbn [sp_max_data_bytes]; lia). parser_state.
  rewrite push_eol by (done || cbn [sp_pending_cr]; by intros ->%bool_decide_eq_true). parser_state.
  unfold finish_line. cbn [sp_line sp_data sp_event_type set_line].
  rewrite (proj2 (String.eqb_neq t "")) by done. by rewrite orb_true_r.
Qed.

(** Events written in the event-stream format, with whichever line end, arrive as they were
    written, one frame each and in order, however the body is cut into chunks; and the parser is
    ready for the next. *)
Theorem sse_framing eol evs chunks p :
  is_eol eol → parser_clean p → (sp_pending_cr p = true → eol ≠ [10]) →
  Forall (event_fits (sp_max_data_bytes p)) evs → sp_max_data_bytes p + 16 < 2 ^ 64 →
  mjoin chunks = (evs ≫= sse_event eol) →
  ∃ p', push_chunks chunks p = Ok (p', (λ e, Event e.1 e.2) <$> evs) ∧ parser_clean p'.
Proof.
  intros He Hc Hcr Hevs Hmax Hj. rewrite push_chunks_join, Hj. clear Hj chunks.
  revert p Hc Hcr Hevs Hmax. induction evs as [|e evs IH]; intros p Hc Hcr Hevs Hmax.
  - by exists p.
  - apply Forall_cons in Hevs as [Hev Hevs]. rewrite bind_cons, parser_push_app, push_event by done.
    cbn [result_bind]. destruct (IH (set_cr (bool_decide (eol = [13])) p)) as (p' & -> & Hp');
      [done|by intros ->%bool_decide_eq_true|done|done|].
    by exists p'.
Qed.

(** ** Decoding one event *)

(** Why an envelope is rejected; the source carries the reason as its message. *)
Inductive Rejection :=
  | RejectWire
  | RejectOntology (e : CompatibilityError)
  | RejectHmac.

(* SRC crates/exocortex-client/src/sync.rs 146-166 SyncError *)
Inductive SyncError :=
  | BadPayload (message : string)
  | Rejected (reason : Rejection)
  | InitialHydrationTimeout (waited : Z) (last_error : option string).

(* SRC crates/exocortex-client/src/sync.rs 30-33 DecodedEvent *)
Inductive DecodedEvent :=
  | Change (inv : Invalidation) (lsn : Z)
  | Reseed (memories : list Memory) (relationships : list Relationship) (lsn : Z).

(** [memory.embedding = None]. *)
Definition m_clear_embedding (m : Memory) : Memory :=
  let '(mkMemory a b c d e f g h i j k n o p q r s _ l u) := m in
  mkMemory a b c d e f g h i j k n o p q r s None l u.

(** The closure [id16]: sixteen raw bytes, or thirty-two hex digits. *)
Definition id16 (b : list Z) : result (list Z) SyncError :=
  if Nat.eqb (length b) 16 then Ok b
  else if Nat.eqb (length b) 32 then ok_or (parse_hex_pairs b) (BadPayload "bad hex id")
  else Err (BadPayload "id not 16/32 bytes").

(** [.map_err(|e| SyncError::BadPayload(format!("..: {e}")))]. *)
Definition bad_json {A} (what : string) (r : result A string) : result A SyncError :=
  match r with Ok a => Ok a | Err e => Err (BadPayload (what +:+ e)) end.

Section decoding.
Context `{RowJson, Hmac, Message InvalidationEnvelope envelope_ok}.

(* SRC crates/exocortex-client/src/sync.rs 344-364 verify_envelope *)
Definition verify_envelope (hmac_key fingerprint : list Z) (env : InvalidationEnvelope)
    : result unit SyncError :=
  if negb (wire_version env =? WIRE_VERSION) then Err (Rejected RejectWire)
  else match admit_peer (ontology_fingerprint env) fingerprint with
  | Err error => Err (Rejected (RejectOntology error))
  | Ok _ =>
      if negb (verify_invalidation_envelope hmac_key env) then Err (Rejected RejectHmac) else Ok tt
  end.

(** The [match] on the kind of a verified invalidation. *)
Definition decode_kind (kind : PbKind) (lsn : Z) : result DecodedEvent SyncError :=
  match kind with
  | PbMemoryUpserted mid snapshot_json =>
      let? id := id16 mid in
      let? memory := bad_json "memory snapshot: " (memory_from_slice snapshot_json) in
      ensure bool_decide (m_id memory = mkMemoryId id)
        else BadPayload "memory snapshot id mismatch" in
      Ok (Change (MemorySnapshotUpserted (m_clear_embedding memory) lsn) lsn)
  | PbMemoryDeleted mid =>
      let? id := id16 mid in Ok (Change (MemoryDeleted (mkMemoryId id) lsn) lsn)
  | PbRelationshipUpserted rid rfrom rto rkind snapshot_json =>
      let? id := id16 rid in
      let? r := bad_json "relationship snapshot: " (relationship_from_slice snapshot_json) in
      let mismatch := BadPayload "relationship snapshot identity mismatch" in
      ensure bool_decide (r_id r = mkRelationshipId id) else mismatch in
      let? from := id16 rfrom in
      ensure bool_decide (r_from r = mkMemoryId from) else mismatch in
      let? to := id16 rto in
      ensure bool_decide (r_to r = mkMemoryId to) else mismatch in
      ensure bool_decide (r_kind r = mkRelKindId rkind) else mismatch in
      Ok (Change (RelationshipSnapshotUpserted r lsn) lsn)
  | PbRelationshipDeleted rid =>
      let? id := id16 rid in Ok (Change (RelationshipDeleted (mkRelationshipId id) lsn) lsn)
  | PbVisibilityAdvance => Ok (Change (VisibilityAdvance lsn) lsn)
  | PbGraphReseed snapshot_json =>
      let? (memories, relationships) :=
        bad_json "graph snapshot: " (snapshot_from_slice snapshot_json) in
      Ok (Reseed (m_clear_embedding <$> memories) relationships lsn)
  | PbDiscoveryAvailable record_json =>
      let? record := bad_json "discovery record: " (discovery_from_slice record_json) in
      Ok (Change (DiscoveryAvailable record lsn) lsn)
  end.

(* SRC crates/exocortex-client/src/sync.rs 381-484 decode_event *)
Definition decode_event (hmac_key fingerprint : list Z) (payload : string)
    : result DecodedEvent SyncError :=
  let? raw := ok_or (base64_decode_bounded payload MAX_SSE_EVENT_DATA_BYTES)
                (BadPayload "base64 or encoded event size") in
  let? env := bad_json "" (decode raw) in
  let? _ := verify_envelope hmac_key fingerprint env in
  let? inv := ok_or (env_inv env) (BadPayload "no inv") in
  let? kind := ok_or (pi_kind inv) (BadPayload "no kind") in
  decode_kind kind (pi_backend_lsn inv).

(* SRC crates/exocortex-client/src/sync.rs 366-379 decode_envelope *)
Definition decode_envelope (hmac_key fingerprint : list Z) (payload : string)
    : result (Invalidation * Z) SyncError :=
  let? event := decode_event hmac_key fingerprint payload in
  match event with
  | Change invalidation lsn => Ok (invalidation, lsn)
  | Reseed _ _ _ => Err (BadPayload "graph reseed is not a row invalidation")
  end.

(** A change carries the LSN of its envelope. *)
Lemma decode_event_lsn key fp payload inv lsn :
  decode_event key fp payload = Ok (Change inv lsn) → lsn_of inv = lsn.
Proof.
  unfold decode_event. rewrite result_bind_ok. intros (raw & _ & E).
  apply result_bind_ok in E as (env & _ & E). apply result_bind_ok in E as (u & _ & E).
  apply result_bind_ok in E as (i & _ & E). apply result_bind_ok in E as (k & _ & E).
  revert E. generalize (pi_backend_lsn i). intros l E. unfold decode_kind in E.
  destruct k; repeat (first [apply result_bind_ok in E as (? & _ & E) | case_bool_decide; [|done]]);
    try (by simplify_eq).
  destruct x as [? ?]. by simplify_eq.
Qed.
End decoding.

(** *** From the server to the client *)

Lemma hex_id_fmt bs : bytes_ok bs → hex_id bs = bs ≫= fmt_02x.
Proof.
  intros Hb. unfold hex_id. induction Hb as [|b bs Hb _ IH]; [done|]. rewrite !bind_cons, IH. f_equal.
  apply (bool_decide_eq_true ([nth (Z.to_nat (Z.shiftr b 4)) (as_bytes "0123456789abcdef") 0;
    nth (Z.to_nat (Z.land b 15)) (as_bytes "0123456789abcdef") 0] = fmt_02x b)).
  revert b Hb. apply byte_cases. vm_compute. reflexivity.
Qed.

(** A 16-byte identity. *)
Definition id_ok (bs : list Z) : Prop := length bs = 16%nat ∧ bytes_ok bs.

Lemma id16_hex_id bs : id_ok bs → id16 (hex_id bs) = Ok bs.
Proof.
  intros [Hl Hb]. unfold id16. rewrite hex_id_fmt, length_hex_bytes, Hl by done. simpl Nat.eqb.
  cbv iota. by rewrite parse_hex_pairs_fmt.
Qed.

Section feed.
Context `{RowJson, Hmac, Message InvalidationEnvelope envelope_ok}.

(** An event a subscriber can be sent: 16-byte identities, and a row that survives
    [serde_json].  The bare upserts never leave the server. *)
Definition sendable (inv : Invalidation) : Prop :=
  match inv with
  | MemoryDeleted id _ => id_ok (mid_bytes id)
  | RelationshipDeleted id _ => id_ok (rid_bytes id)
  | VisibilityAdvance _ => True
  | MemorySnapshotUpserted m _ =>
      id_ok (mid_bytes (m_id m)) ∧ memory_from_slice (memory_to_vec m) = Ok m
  | RelationshipSnapshotUpserted r _ =>
      id_ok (rid_bytes (r_id r)) ∧ id_ok (mid_bytes (r_from r)) ∧ id_ok (mid_bytes (r_to r)) ∧
      relationship_from_slice (relationship_to_vec r) = Ok r
  | GraphReseed js _ => ∃ rows, snapshot_from_slice js = Ok rows
  | DiscoveryAvailable d _ => discovery_from_slice (discovery_to_vec d) = Ok d
  | MemoryUpserted _ _ | RelationshipUpserted _ _ _ _ _ => False
  end.

(** What the client makes of it. *)
Definition received (inv : Invalidation) : DecodedEvent :=
  match inv with
  | MemorySnapshotUpserted m lsn => Change (MemorySnapshotUpserted (m_clear_embedding m) lsn) lsn
  | GraphReseed js lsn =>
      match snapshot_from_slice js with
      | Ok (ms, rs) => Reseed (m_clear_embedding <$> ms) rs lsn
      | Err _ => Reseed [] [] lsn
      end
  | inv => Change inv (lsn_of inv)
  end.

Lemma m_clear_embedding_id m : m_id (m_clear_embedding m) = m_id m.
Proof. by destruct m. Qed.

Lemma decode_kind_received inv :
  sendable inv →
  match pi_kind (invalidation_to_pb inv) with
  | Some kind => decode_kind kind (pi_backend_lsn (invalidation_to_pb inv)) = Ok (received inv)
  | None => False
  end.
Proof.
  assert (∀ id, mkMemoryId (mid_bytes id) = id) as Hm by by intros [].
  assert (∀ id, mkRelationshipId (rid_bytes id) = id) as Hr by by intros [].
  assert (∀ k, mkRelKindId (kind_val k) = k) as Hk by by intros [].
  destruct inv; simpl; try done.
  - intros Hid. rewrite id16_hex_id by done. simpl. by rewrite Hm.
  - intros Hid. rewrite id16_hex_id by done. simpl. by rewrite Hr.
  - by intros ->.
  - intros [Hid ->]. rewrite id16_hex_id by done. simpl. by rewrite Hm, bool_decide_eq_true_2.
  - intros (H1' & H2 & H3 & ->). rewrite !id16_hex_id by done. simpl.
    by rewrite Hr, !Hm, Hk, !bool_decide_eq_true_2.
  - by intros [[ms rs] ->].
Qed.

(** C39: an event crosses the wire intact: signed, encoded, put in base64, decoded, verified and
    parsed, it is what the server sent, without embeddings. *)
Theorem feed_roundtrip n inv :
  length (cn_fp n) = 32%nat → envelope_ok (envelope inv n) → sendable inv →
  Z.of_nat (length (encode_to_vec (envelope inv n))) ≤ MAX_SSE_ENVELOPE_BYTES →
  decode_event (cn_hmac_key n) (cn_fp n) (base64_encode (encode_to_vec (envelope inv n))) =
  Ok (received inv).
Proof.
  intros Hl Hok Hs Hlen. unfold decode_event.
  rewrite decode_bounded_encode by by apply encode_to_vec_bytes.
  rewrite (proj2 (Z.ltb_ge _ _)).
  2: { unfold MAX_SSE_EVENT_DATA_BYTES. rewrite (Z.mul_comm _ 4). apply Z.mul_le_mono_nonneg_l; [lia|].
       apply Z.div_le_mono; lia. }
  simpl ok_or. cbn [result_bind]. rewrite decode_encode by done. simpl bad_json. cbn [result_bind].
  pose proof (admit_own inv n Hl) as Ha. unfold node_admit in Ha. unfold verify_envelope.
  case_match; [done|]. destruct (admit_peer _ _); [|done].
  unfold verify_hmac in Ha. case_match; [done|]. cbn [result_bind].
  pose proof (decode_kind_received inv Hs) as Hk.
  change (env_inv (envelope inv n)) with (Some (invalidation_to_pb inv)). simpl ok_or. cbn [result_bind].
  destruct (pi_kind (invalidation_to_pb inv)); [|done]. exact Hk.
Qed.

(** Nothing else gets in: whatever a subscriber accepts decodes to an envelope of this wire
    version and this ontology, signed with its key. *)
Theorem only_authentic key fp payload event :
  decode_event key fp payload = Ok event →
  ∃ raw env, base64_decode_bounded payload MAX_SSE_EVENT_DATA_BYTES = Some raw ∧ decode raw = Ok env ∧
    wire_version env = WIRE_VERSION ∧ ontology_fingerprint env = fp ∧ length fp = 32%nat ∧
    env = sign_invalidation_envelope key env.
Proof.
  unfold decode_event. intros (raw & Hraw & E)%result_bind_ok. apply result_bind_ok in E as (env & Henv & E).
  apply result_bind_ok in E as ([] & Hv & _). exists raw, env.
  unfold ok_or in Hraw. destruct (base64_decode_bounded _ _); simplify_eq.
  unfold bad_json in Henv. destruct (decode raw); simplify_eq.
  unfold verify_envelope in Hv. destruct (Z.eqb_spec (wire_version env) WIRE_VERSION); [|done]. simpl in Hv.
  destruct (admit_peer _ _) as [[]|] eqn:Hp; [|done]. apply admit_peer_ok in Hp as [-> ?].
  destruct (verify_invalidation_envelope key env) eqn:Hh; [|done].
  split_and!; [done..|]. by apply verify_envelope_iff.
Qed.
End feed.

(** ** The subscriber's loop *)

(** What the loop hands to the cache: [submit(CacheWrite::Apply(..))] and [reseed_rows(..)]. *)
Inductive CacheEffect :=
  | Applied (inv : Invalidation)
  | Reseeded (memories : list Memory) (relationships : list Relationship) (lsn : Z).

(* SRC crates/exocortex-client/src/sync.rs 41-45 SseReadError *)
Inductive SseReadError :=
  | ResyncRequired
  | OtherError (message : string).

(** What [select!] yields: a timer, an item of the stream, or its end. *)
Inductive Item :=
  | ReconcileFired
  | GapFired
  | Received (frame : SseFrame)
  | Failed (e : SseReadError)
  | Ended.

(** The fields of the configuration the loop reads; times are in one unit. *)
(* SRC crates/exocortex-client/src/sync.rs 229-275 SseSyncConfig *)
Record SyncConfig := mkSyncConfig {
  sc_hmac_key : list Z;
  sc_client_key : option (list Z);
  sc_fingerprint : list Z;
  sc_gap_timeout : Z;
  sc_backoff : Z;
  sc_reconcile_interval : Z;
}.

(** The loop's variables: [next_lsn], [needs_seed], [backoff], and, within a connection, [gate]
    and [reconcile_deadline]. *)
Record SyncState := mkSyncState {
  ss_next_lsn : Z;
  ss_needs_seed : bool;
  ss_backoff : Z;
  ss_gate : LsnGate;
  ss_reconcile : option Z;
}.

(** Leave the connection: [needs_seed = true; reconnect_reason = ..; break]. *)
Definition reconnect (next_lsn : Z) (reason : string) (s : SyncState)
    : SyncState * list CacheEffect * option string :=
  (mkSyncState next_lsn true (ss_backoff s) (ss_gate s) (ss_reconcile s), [], Some reason).

(** [u64::saturating_sub]. *)
Definition u64_saturating_sub (x y : Z) : Z := Z.max 0 (x - y).

Section subscriber.
Context `{RowJson, Hmac, Message InvalidationEnvelope envelope_ok} (cfg : SyncConfig).

Definition is_visibility_advance (inv : Invalidation) : bool :=
  match inv with VisibilityAdvance _ => true | _ => false end.

(** The check for an expired gap after every event. *)
Definition check_gap (now : Z) (s : SyncState) (effects : list CacheEffect)
    : SyncState * list CacheEffect * option string :=
  match gap_expired now (sc_gap_timeout cfg) (ss_gate s) with
  | Some missing =>
      let '(s, _, reason) := reconnect missing "lsn gap" s in (s, effects, reason)
  | None => (s, effects, None)
  end.

(** One event frame. *)
Definition on_event (clk : nat → Z) (event_type data : string) (s : SyncState)
    : SyncState * list CacheEffect * option string :=
  if String.eqb event_type "inv" then
    let verify_key := default (sc_hmac_key cfg) (sc_client_key cfg) in
    match decode_event verify_key (sc_fingerprint cfg) data with
    | Ok (Change inv lsn) =>
        let '(gate, released) := push clk lsn inv (ss_gate s) in
        let next_lsn := foldl (λ next _, Z.max next (u64_add lsn 1)) (ss_next_lsn s) released in
        let next_lsn := Z.max next_lsn (lg_next gate) in
        let s := mkSyncState next_lsn (ss_needs_seed s) (ss_backoff s) gate (ss_reconcile s) in
        if existsb is_visibility_advance released then
          let '(s, _, reason) := reconnect next_lsn "visibility changed" s in
          (s, Applied <$> released, reason)
        else check_gap (clk 2%nat) s (Applied <$> released)
    | Ok (Reseed memories relationships lsn) =>
        let next_lsn := u64_saturating_add lsn 1 in
        let s := mkSyncState next_lsn (ss_needs_seed s) (sc_backoff cfg) (LsnGate_new next_lsn)
                   (Some (clk 0%nat + sc_reconcile_interval cfg)) in
        check_gap (clk 2%nat) s [Reseeded memories relationships lsn]
    | Err _ => reconnect (ss_next_lsn s) "invalid hydrated envelope" s
    end
  else check_gap (clk 2%nat) s [].

(** One turn of the inner loop; [None] is the panic of [expect] on a gap timer without a gap. *)
Definition on_item (clk : nat → Z) (item : Item) (s : SyncState)
    : option (SyncState * list CacheEffect * option string) :=
  match item with
  | ReconcileFired => Some (reconnect (ss_next_lsn s) "periodic authoritative reconciliation" s)
  | GapFired =>
      missing ← gap_expired (clk 0%nat) (sc_gap_timeout cfg) (ss_gate s);
      Some (reconnect missing "lsn gap" s)
  | Ended => Some (reconnect (ss_next_lsn s) "stream ended before publication" s)
  | Received Activity => Some (s, [], None)
  | Received (Event event_type data) => Some (on_event clk event_type data s)
  | Failed ResyncRequired => Some (reconnect (ss_next_lsn s) "409 resync" s)
  | Failed (OtherError _) => Some (reconnect (ss_next_lsn s) "stream error" s)
  end.

(** The inner loop: the items of one connection, up to the one that breaks it. *)
Fixpoint on_items (items : list ((nat → Z) * Item)) (s : SyncState)
    : option (SyncState * list CacheEffect * option string) :=
  match items with
  | [] => Some (s, [], None)
  | (clk, item) :: items =>
      r ← on_item clk item s;
      match r with
      | (s, effects, Some reason) => Some (s, effects, Some reason)
      | (s, effects1, None) =>
          r ← on_items items s;
          let '(s, effects2, reason) := r in Some (s, effects1 ++ effects2, reason)
      end
  end.

(** The state a connection opened at [now] starts in, and the subscription it asks for. *)
Definition connect (now : Z) (s : SyncState) : SyncState :=
  mkSyncState (ss_next_lsn s) (ss_needs_seed s) (ss_backoff s) (LsnGate_new (ss_next_lsn s))
    (if negb (ss_needs_seed s) then Some (now + sc_reconcile_interval cfg) else None).
Definition subscription (s : SyncState) : Z * bool :=
  (u64_saturating_sub (ss_next_lsn s) 1, ss_needs_seed s).

End subscriber.

(** A replaced owner's attach record: its keys in hex. *)
Record AttachKeys := mkAttachKeys { ak_hmac_key : string; ak_sse_key : string }.

(** Adopt a replaced owner's keys; a key that does not parse changes nothing. *)
Definition adopt (info : AttachKeys) (cfg : SyncConfig) : SyncConfig :=
  mkSyncConfig
    (match decode_hex32 (ak_hmac_key info) with Ok key => key | Err _ => sc_hmac_key cfg end)
    (match decode_hex32 (ak_sse_key info) with Ok key => Some key | Err _ => sc_client_key cfg end)
    (sc_fingerprint cfg) (sc_gap_timeout cfg) (sc_backoff cfg) (sc_reconcile_interval cfg).

(** After a connection: adopt a replaced owner's endpoint and start over with it, sleep, double
    the pause.  [10000] is ten seconds in milliseconds. *)
Definition between (adopted : option AttachKeys) (cfg : SyncConfig) (s : SyncState)
    : SyncConfig * SyncState :=
  let '(cfg, next_lsn, needs_seed, backoff) :=
    match adopted with
    | Some info => (adopt info cfg, 0, true, sc_backoff cfg)
    | None => (cfg, ss_next_lsn s, ss_needs_seed s, ss_backoff s)
    end in
  (cfg, mkSyncState next_lsn needs_seed (Z.min (backoff * 2) 10000) (ss_gate s) (ss_reconcile s)).

(** A connection the environment offers: when it opens, its items, and whether the attach record
    names a new owner afterwards. *)
Record Connection := mkConnection {
  co_now : Z;
  co_items : list ((nat → Z) * Item);
  co_adopted : option AttachKeys;
}.

(** The loop over the connections offered; it stops in the connection that is still open.  The
    result is the state, what the cache was handed and the subscriptions asked for. *)
(* SRC crates/exocortex-client/src/sync.rs 698-913 run_sse_sync *)
Fixpoint run_sse_sync `{RowJson, Hmac, Message InvalidationEnvelope envelope_ok}
    (cfg : SyncConfig) (connections : list Connection) (s : SyncState)
    : option (SyncState * list CacheEffect * list (Z * bool)) :=
  match connections with
  | [] => Some (s, [], [])
  | c :: connections =>
      r ← on_items cfg (co_items c) (connect cfg (co_now c) s);
      match r with
      | (s', effects, None) => Some (s', effects, [subscription s])
      | (s', effects1, Some _) =>
          let '(cfg, s') := between (co_adopted c) cfg s' in
          r ← run_sse_sync cfg connections s';
          let '(s'', effects2, subs) := r in
          Some (s'', effects1 ++ effects2, subscription s :: subs)
      end
  end.

(** [run_sse_sync(cfg, cache, next_lsn, ..)]. *)
Definition sync_start (cfg : SyncConfig) (next_lsn : Z) : SyncState :=
  mkSyncState next_lsn (next_lsn =? 0) (sc_backoff cfg) (LsnGate_new next_lsn) None.

(** *** The cache is handed a contiguous history *)

(** [contiguous n effects]: the changes come at the LSNs from [n] on, one by one, a full image
    moving the position past its own LSN; the result is the next LSN. *)
Fixpoint contiguous (n : Z) (effects : list CacheEffect) : option Z :=
  match effects with
  | [] => Some n
  | Applied inv :: effects => if lsn_of inv =? n then contiguous (n + 1) effects else None
  | Reseeded _ _ lsn :: effects => contiguous (u64_saturating_add lsn 1) effects
  end.

Lemma contiguous_app n l k : contiguous n (l ++ k) = m ← contiguous n l; contiguous m k.
Proof.
  revert n. induction l as [|[inv|ms rs lsn] l IH]; intros n; simpl; [done| |apply IH].
  case_match; [apply IH|done].
Qed.

Lemma contiguous_applied n k invs :
  0 ≤ k → lsn_of <$> invs = seqZ n k → contiguous n (Applied <$> invs) = Some (n + k).
Proof.
  revert n k. induction invs as [|inv invs IH]; intros n k Hk E.
  - destruct (decide (k = 0)) as [->|]; [by rewrite Z.add_0_r|]. rewrite seqZ_cons in E by lia. done.
  - destruct (decide (k = 0)) as [->|]; [done|]. rewrite seqZ_cons in E by lia.
    simpl in E. injection E as E1 E2. rewrite fmap_cons. cbn [contiguous]. rewrite E1, Z.eqb_refl.
    change (Z.succ n) with (n + 1) in E2. rewrite (IH (n + 1) (Z.pred k)) by (done || lia).
    f_equal. lia.
Qed.

(** A gate whose held events carry the LSN they are held at. *)
Definition gate_good (g : LsnGate) : Prop :=
  0 ≤ lg_next g < 2 ^ 64 ∧ lg_held g !! lg_next g = None ∧
  ∀ l inv, lg_held g !! l = Some inv → lsn_of inv = l ∧ 0 ≤ l < 2 ^ 64 - 1.

Lemma gate_good_new n : 0 ≤ n < 2 ^ 64 → gate_good (LsnGate_new n).
Proof. intros Hn. unfold gate_good. cbn [LsnGate_new lg_next lg_held]. split_and!; [lia|lia|apply lookup_empty|]. intros l inv. simpl. by rewrite lookup_empty. Qed.

Lemma gate_good_push clk lsn inv g :
  gate_good g → lsn_of inv = lsn → 0 ≤ lsn < 2 ^ 64 - 1 →
  gate_good (push clk lsn inv g).1 ∧ lg_next g ≤ lg_next (push clk lsn inv g).1 ∧
  lsn_of <$> (push clk lsn inv g).2 =
    seqZ (lg_next g) (lg_next (push clk lsn inv g).1 - lg_next g) ∧
  ((push clk lsn inv g).2 ≠ [] → lsn < lg_next (push clk lsn inv g).1).
Proof.
  intros (Hn & Hnone & Hg) Hl Hr. unfold push. destruct (Z.ltb_spec lsn (lg_next g)).
  { simpl. rewrite Z.sub_diag. by split_and!. }
  unfold release. cbn [lg_held lg_next lg_gap_since]. set (held := <[lsn := inv]> (lg_held g)).
  assert (Hheld : ∀ l i, held !! l = Some i → lsn_of i = l ∧ 0 ≤ l < 2 ^ 64 - 1).
  { intros l i [[<- <-]|[_ Hi]]%lookup_insert_Some; [done|by apply Hg]. }
  destruct (release_loop_spec (λ l, default (VisibilityAdvance l) (held !! l)) (S (size held))
    (lg_next g) held []) as (k & Hk & Hb & E1 & E2 & H1 & H2 & H3); [|lia|lia|].
  { intros l i Hi. rewrite Hi. split; [done|]. by apply (Hheld l i). }
  destruct (release_loop _ _ _ _) as [[next' held'] out]. simpl in *. subst next' out.
  replace (lg_next g + k - lg_next g) with k by lia. split_and!.
  - split_and!; cbn [lg_next lg_held]; [lia|lia|rewrite H3; by case_bool_decide|].
    intros l i. rewrite H3. case_bool_decide; [done|]. apply Hheld.
  - lia.
  - rewrite <-list_fmap_compose. rewrite <-(list_fmap_id (seqZ (lg_next g) k)) at 2.
    apply list_fmap_ext. intros i l Hi. simpl.
    apply list_elem_of_lookup_2, elem_of_seqZ in Hi. destruct (H1 l) as [inv' Hi']; [lia|].
    rewrite Hi'. by apply (Hheld l inv').
  - intros Hne. destruct (decide (k = 0)) as [->|]; [done|]. destruct (H1 (lg_next g)) as [i Hi]; [lia|].
    unfold held in Hi. apply lookup_insert_Some in Hi as [[-> _]|[_ Hi]]; [simpl; lia|congruence].
Qed.

Section subscriber_facts.
Context `{RowJson, Hmac, Message InvalidationEnvelope envelope_ok} (cfg : SyncConfig).

(** The LSNs the feed carries leave room for their successors. *)
Definition feed_lsns (items : list ((nat → Z) * Item)) : Prop :=
  ∀ key fp clk t data event, (clk, Received (Event t data)) ∈ items →
    decode_event key fp data = Ok event →
    match event with Change _ lsn | Reseed _ _ lsn => 0 ≤ lsn < 2 ^ 64 - 1 end.

Lemma feed_lsns_cons x items : feed_lsns (x :: items) → feed_lsns [x] ∧ feed_lsns items.
Proof.
  intros Hf. split; intros key fp clk t data event Hin; apply (Hf key fp clk t); [|by right].
  apply list_elem_of_singleton in Hin as ->. by left.
Qed.

(** The loop's position is its gate's. *)
Definition sync_ok (s : SyncState) : Prop :=
  gate_good (ss_gate s) ∧ ss_next_lsn s = lg_next (ss_gate s).

(** [effects] continue from [s] to [s']; leaving a connection asks for a full image. *)
Definition advances (s s' : SyncState) (effects : list CacheEffect) (reason : option string) : Prop :=
  sync_ok s' ∧ contiguous (ss_next_lsn s) effects = Some (ss_next_lsn s') ∧
  (is_Some reason → ss_needs_seed s' = true) ∧ (ss_needs_seed s = true → ss_needs_seed s' = true).

Lemma foldl_max_const {A} c n (l : list A) :
  foldl (λ next _, Z.max next c) n l = match l with [] => n | _ => Z.max n c end.
Proof. revert n. induction l as [|x l IH]; intros n; simpl; [done|]. rewrite IH. destruct l; lia. Qed.

Lemma advances_refl s : sync_ok s → advances s s [] None.
Proof. intros Hs. split_and!; [done|done|by intros []|done]. Qed.

Lemma advances_reconnect s reason :
  sync_ok s → advances s (reconnect (ss_next_lsn s) reason s).1.1 [] (Some reason).
Proof. intros Hs. by split_and!. Qed.

Lemma gap_expired_next now timeout g l : gap_expired now timeout g = Some l → l = lg_next g.
Proof. unfold gap_expired. case_bool_decide; [done|]. destruct (lg_gap_since g); [|done]. case_match; congruence. Qed.

Lemma advances_check_gap now s0 s effects :
  advances s0 s effects None →
  advances s0 (check_gap cfg now s effects).1.1 (check_gap cfg now s effects).1.2
    (check_gap cfg now s effects).2.
Proof.
  intros (Hs & Hc & _ & Hn). unfold check_gap. destruct (gap_expired _ _ _) as [l|] eqn:E; simpl; [|by split_and!].
  apply gap_expired_next in E as ->. destruct Hs as [Hg He]. split_and!; try done.
  by rewrite <-He.
Qed.

Lemma advances_event clk t data s :
  feed_lsns [(clk, Received (Event t data))] → sync_ok s →
  advances s (on_event cfg clk t data s).1.1 (on_event cfg clk t data s).1.2 (on_event cfg clk t data s).2.
Proof.
  intros Hf Hs. unfold on_event.
  destruct (String.eqb t "inv"); [|by apply advances_check_gap, advances_refl].
  destruct (decode_event _ _ data) as [[inv lsn|ms rs lsn]|e] eqn:Hd; [| |by apply advances_reconnect].
  - pose proof (decode_event_lsn _ _ _ _ _ Hd) as Hl.
    pose proof (Hf _ _ clk t data _ ltac:(by left) Hd) as Hr. simpl in Hr.
    destruct Hs as [Hg He].
    destruct (gate_good_push clk lsn inv (ss_gate s) Hg Hl Hr) as (Hg' & Hle & Hout & Hlt).
    destruct (push clk lsn inv (ss_gate s)) as [gate released]. cbn [fst snd] in *.
    assert (Hnext : Z.max (foldl (λ next _, Z.max next (u64_add lsn 1)) (ss_next_lsn s) released)
                          (lg_next gate) = lg_next gate).
    { rewrite foldl_max_const, He, u64_add_small by lia. destruct released; [lia|].
      specialize (Hlt ltac:(done)). lia. }
    rewrite Hnext. set (s1 := mkSyncState _ _ _ _ _).
    assert (Ha : advances s s1 (Applied <$> released) None).
    { split_and!; [by split| |by intros []|done]. rewrite He.
      rewrite (contiguous_applied _ (lg_next gate - lg_next (ss_gate s))) by (done || lia).
      simpl. f_equal. lia. }
    case_match; [|by apply advances_check_gap]. destruct Ha as (Hok & Hc & _ & _). by split_and!.
  - apply advances_check_gap.
    pose proof (Hf _ _ clk t data _ ltac:(by left) Hd) as Hr. simpl in Hr.
    split_and!; [|done|by intros []|done]. split; [apply gate_good_new|done].
    unfold u64_saturating_add. lia.
Qed.

Lemma advances_item clk item s r :
  feed_lsns [(clk, item)] → sync_ok s → on_item cfg clk item s = Some r →
  advances s r.1.1 r.1.2 r.2.
Proof.
  intros Hf Hs E. destruct item as [| |[|t data]|[|m]|]; simpl in E; simplify_eq;
    try (by apply advances_reconnect).
  - apply bind_Some in E as (l & Hl & [= <-]). apply gap_expired_next in Hl as ->.
    rewrite <-(proj2 Hs). by apply advances_reconnect.
  - by apply advances_refl.
  - by apply advances_event.
Qed.

Lemma advances_items items s r :
  feed_lsns items → sync_ok s → on_items cfg items s = Some r → advances s r.1.1 r.1.2 r.2.
Proof.
  revert s r. induction items as [|[clk item] items IH]; intros s r Hf Hs E; simpl in E.
  - simplify_eq. by apply advances_refl.
  - apply feed_lsns_cons in Hf as [Hf1 Hf]. apply bind_Some in E as ([[s1 e1] reason] & E1 & E).
    apply advances_item in E1; [|done|done].
    simpl in E1. destruct reason as [reason|]; [by simplify_eq|].
    apply bind_Some in E as ([[s2 e2] reason] & E2 & [= <-]). destruct E1 as (Hs1 & Hc1 & _ & Hn1).
    apply IH in E2 as (Hs2 & Hc2 & Hr2 & Hn2); [|done|done].
    simpl in *. split_and!; [done| |done|auto]. by rewrite contiguous_app, Hc1.
Qed.

(** The whole loop: every subscription after the first asks for a full image, and, while the
    owner is not replaced, the changes handed to the cache are one contiguous history. *)
Lemma run_contiguous connections s r :
  (∀ c, c ∈ connections → feed_lsns (co_items c) ∧ co_adopted c = None) →
  0 ≤ ss_next_lsn s < 2 ^ 64 →
  run_sse_sync cfg connections s = Some r →
  contiguous (ss_next_lsn s) r.1.2 = Some (ss_next_lsn r.1.1) ∧
  (∀ sub, sub ∈ tail r.2 → sub.2 = true) ∧ (ss_needs_seed s = true → ∀ sub, sub ∈ r.2 → sub.2 = true).
Proof.
  revert s r. induction connections as [|c connections IH]; intros s r Hcs Hn E; simpl in E.
  - simplify_eq. simpl. split_and!; [done|set_solver|set_solver].
  - destruct (Hcs c ltac:(by left)) as [Hf Ha]. apply bind_Some in E as ([[s1 e1] reason] & E1 & E).
    apply advances_items in E1 as (Hs1 & Hc1 & Hr1 & Hn1); [|done|by split; [apply gate_good_new|]].
    simpl in *. destruct reason as [reason|].
    + rewrite Ha in E. simpl in E. apply bind_Some in E as ([[s2 e2] subs] & E2 & [= <-]).
      destruct Hs1 as [[Hg _] He].
      apply IH in E2 as (Hc2 & _ & Hs2); [|intros c' Hc'; apply Hcs; by right|simpl; lia].
      simpl in *. specialize (Hr1 ltac:(eauto)). split_and!.
      * by rewrite contiguous_app, Hc1.
      * intros sub Hin. by apply Hs2.
      * intros Hseed sub [->|Hin]%elem_of_cons; [done|by apply Hs2].
    + simplify_eq. simpl. split_and!; [done|set_solver|]. intros Hseed sub. set_solver.
Qed.
End subscriber_facts.


(** A gap timer never finds the gate without its gap: it is armed for a held gap's deadline. *)
Theorem gap_timer_total `{RowJson, Hmac, Message InvalidationEnvelope envelope_ok} cfg clk s d :
  gap_deadline (sc_gap_timeout cfg) (ss_gate s) = Some d → d ≤ clk 0%nat →
  is_Some (on_item cfg clk GapFired s).
Proof.
  intros Hd Hle. simpl. unfold gap_deadline in Hd. unfold gap_expired. case_bool_decide; [done|].
  destruct (lg_gap_since (ss_gate s)) as [t|]; simplify_eq/=.
  rewrite (proj2 (Z.leb_le _ _)) by lia. simpl. eauto.
Qed.

(** ** LSNs the feed never carries

    The gate waits for every LSN, but not every LSN is announced: an audit row takes one and
    publishes nothing.  The next commit's event is then held, and nothing the storage publishes
    can release it; only the gap timeout does, with a full image. *)
Theorem audit_stalls_gate `{Blake3, HashOrder, Chrono, Sha256, DiscoveryJson} o clk now audit m st clk' :
  room 2 (graph st) →
  let l := g_lsn (graph st) in
  let st' := exec o clk now (UpsertMemory m) (exec o clk now (AppendAudit audit) st) in
  g_feed (graph st') = g_feed (graph st) ++ [MemoryUpserted (m_id m) (l + 2)] ∧
  let '(g, released) := push clk' (l + 2) (MemoryUpserted (m_id m) (l + 2)) (LsnGate_new (l + 1)) in
  released = [] ∧ lg_next g = l + 1 ∧ lg_held g = {[l + 2 := MemoryUpserted (m_id m) (l + 2)]}.
Proof.
  intros [Hl Hr] l st'. assert (E1 : u64_add l 1 = l + 1) by (apply u64_add_small; lia).
  assert (E2 : u64_add (l + 1) 1 = l + 2) by (rewrite u64_add_small; lia). split.
  - subst st'. unfold exec, append_audit, upsert_memory, next_lsn. simpl. fold l. rewrite E1, E2. by destruct m.
  - unfold push, release. cbn [LsnGate_new lg_next lg_held lg_gap_since].
    rewrite (proj2 (Z.ltb_ge _ _)) by lia. rewrite insert_empty.
    cbn [release_loop]. rewrite lookup_singleton_ne by lia. done.
Qed.
