(* ===== verification/Sse.v ===== *)
(** * The change feed of the server

    [crates/exocortex-server/src/sse.rs]: the stream a subscriber is served.  The live-stream and
    hydration limits, the shared hydration cache, the preparation of an event for one subscriber
    (its row re-read from the storage and shown only if that subscriber may see it), the
    authoritative image, and the handler that puts them together.

    The storage is any type of states with the reads of the [Storage] trait the feed uses (the
    class [RowReader]); the in-memory store is an instance.  Between two reads of one stream the
    store may change arbitrarily, so each event comes with the state it is hydrated from. *)

From stdpp Require Import pretty.
From S2P Require Import Prelude Ids Kernel Packs Ontology StorageTypes Graph Reads Leases.
From S2P Require Import Ingest Governed Cycles Storage Wire Cluster Sync.

(** ** What the feed reads *)

Class RowReader (S : Type) := {
  rd_memory : MemoryId → S → result (option Memory) StorageError;
  rd_memories : list MemoryId → S → result (list Memory) StorageError;
  rd_relationship : RelationshipId → S → result (option Relationship) StorageError;
  rd_discovery : string → S → result (option DiscoveryRecord) StorageError;
  rd_all_memories : S → list (result Memory StorageError);
  rd_all_relationships : S → list (result Relationship StorageError);
  rd_state_at : DateTime → S → result GraphSnapshot StorageError;
}.

#[export] Instance in_memory_reader `{HashOrder} : RowReader Store :=
  {| rd_memory id s := (get_memory id (reads s) (graph s)).2;
     rd_memories ids s := (get_memories ids (reads s) (graph s)).2;
     rd_relationship id s := (get_relationship id (reads s) (graph s)).2;
     rd_discovery id s := get_discovery id (governed s);
     rd_all_memories s := (stream_all_memories (reads s) (graph s)).2;
     rd_all_relationships s := (stream_all_relationships (reads s) (graph s)).2;
     rd_state_at t s := get_state_at t (graph s) |}.

(** ** Limits *)

(* SRC crates/exocortex-server/src/sse.rs 41-41 MAX_RESEED_ROWS *)
Definition MAX_RESEED_ROWS : Z := 50000.
(* SRC crates/exocortex-server/src/sse.rs 42-42 MAX_RESEED_BYTES *)
Definition MAX_RESEED_BYTES : Z := MAX_SSE_RESEED_JSON_BYTES.
(* SRC crates/exocortex-server/src/sse.rs 43-43 MAX_CONCURRENT_RESEEDS *)
Definition MAX_CONCURRENT_RESEEDS : Z := 2.
(* SRC crates/exocortex-server/src/sse.rs 44-44 MAX_LIVE_STREAMS_GLOBAL *)
Definition MAX_LIVE_STREAMS_GLOBAL : Z := 256.
(* SRC crates/exocortex-server/src/sse.rs 45-45 MAX_LIVE_STREAMS_PER_PRINCIPAL *)
Definition MAX_LIVE_STREAMS_PER_PRINCIPAL : Z := 8.

(** A semaphore is the number of permits left. *)
(* SRC crates/exocortex-server/src/sse.rs 54-60 LiveStreamAdmission *)
Record LiveStreamAdmission := mkAdmission {
  la_global : Z;
  la_per_principal : gmap (list Z) Z;
  la_per_principal_limit : Z;
}.

(* SRC crates/exocortex-server/src/sse.rs 68-74 LiveStreamAdmission::new *)
Definition LiveStreamAdmission_new (global_limit per_principal_limit : Z) : LiveStreamAdmission :=
  mkAdmission global_limit ∅ per_principal_limit.

(** The permits are the [true] of the result; on the failure of the second acquisition the first
    permit is dropped, and the entry of the principal stays. *)
(* SRC crates/exocortex-server/src/sse.rs 76-93 try_admit *)
Definition try_admit (principal_key : list Z) (A : LiveStreamAdmission)
    : LiveStreamAdmission * bool :=
  if la_global A =? 0 then (A, false)
  else
    let principal := default (la_per_principal_limit A) (la_per_principal A !! principal_key) in
    if principal =? 0
    then (mkAdmission (la_global A) (<[principal_key := principal]> (la_per_principal A))
            (la_per_principal_limit A), false)
    else (mkAdmission (la_global A - 1) (<[principal_key := principal - 1]> (la_per_principal A))
            (la_per_principal_limit A), true).

(** Dropping the permits of a stream. *)
(* SRC crates/exocortex-server/src/sse.rs 62-65 LiveStreamPermits *)
Definition drop_permits (principal_key : list Z) (A : LiveStreamAdmission) : LiveStreamAdmission :=
  let principal := default (la_per_principal_limit A) (la_per_principal A !! principal_key) in
  mkAdmission (la_global A + 1) (<[principal_key := principal + 1]> (la_per_principal A))
    (la_per_principal_limit A).

(** The admission with the principals of the streams that are open. *)
Inductive stream_step : LiveStreamAdmission * list (list Z) → LiveStreamAdmission * list (list Z) → Prop :=
  | stream_admitted A live key A' :
      try_admit key A = (A', true) → stream_step (A, live) (A', key :: live)
  | stream_refused A live key A' :
      try_admit key A = (A', false) → stream_step (A, live) (A', live)
  | stream_dropped A l1 key l2 :
      stream_step (A, l1 ++ key :: l2) (drop_permits key A, l1 ++ l2).

(** The open streams of one principal. *)
Definition open_streams (key : list Z) (live : list (list Z)) : Z :=
  Z.of_nat (length (List.filter (λ k, bool_decide (k = key)) live)).

(** Every permit is either left or held by an open stream. *)
Definition permits_balance (G P : Z) (s : LiveStreamAdmission * list (list Z)) : Prop :=
  la_global s.1 + Z.of_nat (length s.2) = G ∧ 0 ≤ la_global s.1 ∧ la_per_principal_limit s.1 = P ∧
  ∀ key, default P (la_per_principal s.1 !! key) + open_streams key s.2 = P ∧
         0 ≤ default P (la_per_principal s.1 !! key).

Lemma open_streams_app key l1 l2 : open_streams key (l1 ++ l2) = open_streams key l1 + open_streams key l2.
Proof. unfold open_streams. rewrite List.filter_app, length_app. lia. Qed.
Lemma open_streams_cons key k l :
  open_streams key (k :: l) = (if bool_decide (k = key) then 1 else 0) + open_streams key l.
Proof. unfold open_streams. simpl. case_bool_decide; simpl; lia. Qed.

Lemma default_insert (P x : Z) (m : gmap (list Z) Z) (k key : list Z) :
  default P (<[k := x]> m !! key) = if bool_decide (k = key) then x else default P (m !! key).
Proof. case_bool_decide; [subst; by rewrite lookup_insert_eq|by rewrite lookup_insert_ne]. Qed.

Lemma stream_step_balance G P s s' :
  permits_balance G P s → stream_step s s' → permits_balance G P s'.
Proof.
  unfold permits_balance. intros (Hg & H0 & HP & Hk) Hs.
  destruct Hs as [A live key A' E|A live key A' E|A l1 key l2]; simpl in *; unfold try_admit in *.
  - destruct (Z.eqb_spec (la_global A) 0); [done|]. destruct (Hk key). rewrite HP in E.
    destruct (Z.eqb_spec (default P (la_per_principal A !! key)) 0); simplify_eq/=.
    split_and!; [lia|lia|done|]. intros k. destruct (Hk k).
    rewrite default_insert, open_streams_cons. case_bool_decide; subst; lia.
  - destruct (Z.eqb_spec (la_global A) 0); [injection E as <-; by split_and!|]. rewrite HP in E.
    destruct (Z.eqb_spec (default P (la_per_principal A !! key)) 0) as [Hz|]; simplify_eq/=.
    split_and!; [lia|lia|done|]. intros k. destruct (Hk k).
    rewrite default_insert. case_bool_decide; subst; lia.
  - rewrite length_app in *. simpl in *. split_and!; [lia|lia|done|]. intros k. destruct (Hk k) as [Hs Hge].
    rewrite HP, default_insert. rewrite !open_streams_app, open_streams_cons in *.
    case_bool_decide; subst; lia.
Qed.

(** However streams open, fail to open and end, at most the global number of streams is open and
    at most the principal's number for each principal, and a stream is refused only when one of
    the two is reached: an ended or refused stream leaks no permit. *)
Theorem live_streams_limited G P A live key :
  0 ≤ G → 0 ≤ P →
  rtc stream_step (LiveStreamAdmission_new G P, []) (A, live) →
  Z.of_nat (length live) ≤ G ∧ (∀ k, open_streams k live ≤ P) ∧
  ((try_admit key A).2 = true ↔ Z.of_nat (length live) < G ∧ open_streams key live < P).
Proof.
  intros HG HP Hr.
  assert (permits_balance G P (A, live)) as (Hg & H0 & Hl & Hk).
  { eapply (rtc_ind_r (permits_balance G P)); [..|exact Hr].
    - unfold permits_balance, open_streams. simpl. split_and!; [lia|lia|done|].
      intros k. rewrite lookup_empty. simpl. lia.
    - intros s s' _ Hs Hb. by eapply stream_step_balance. }
  simpl in *. split_and!; [lia|intros k; destruct (Hk k); lia|].
  destruct (Hk key). unfold try_admit. rewrite Hl.
  destruct (Z.eqb_spec (la_global A) 0); [simpl; split; [done|lia]|].
  destruct (Z.eqb_spec (default P (la_per_principal A !! key)) 0); simpl; split; done || lia.
Qed.

(** ** Hydration *)

(* SRC crates/exocortex-server/src/sse.rs 96-101 HydrationKey *)
Record HydrationKey := mkHydrationKey { hk_lsn : Z; hk_kind : Z; hk_id : list Z }.

#[global] Instance HydrationKey_eq_dec : EqDecision HydrationKey.
Proof. solve_decision. Defined.
#[global] Instance HydrationKey_countable : Countable HydrationKey.
Proof.
  refine (inj_countable' (λ k, (hk_lsn k, hk_kind k, hk_id k)) (λ '(a, b, c), mkHydrationKey a b c) _).
  by intros [].
Defined.

(** Derived [Ord]. *)
Definition compare_hydration_key : HydrationKey → HydrationKey → comparison :=
  compare_on (λ k, (hk_lsn k, (hk_kind k, hk_id k)))
    (compare_lex Z.compare (compare_lex Z.compare compare_bytes)).

(* SRC crates/exocortex-server/src/sse.rs 107-112 HydratedEvent *)
Inductive HydratedEvent :=
  | HydratedMemory (memory : option Memory)
  | HydratedRelationship (relationship : option (Relationship * list Memory))
  | HydratedDiscovery (discovery : option (DiscoveryRecord * list Memory)).

(** The entries of [SharedEventHydration]; a cell is present once its loader succeeded, and the
    loads of one key are one load. *)
Abbreviation HydrationEntries := (gmap HydrationKey HydratedEvent).

(* SRC crates/exocortex-server/src/sse.rs 865-888 decode_id *)
Definition server_decode_id (raw : list Z) : result (list Z) StorageError :=
  if Nat.eqb (length raw) 16 then Ok raw
  else if negb (Nat.eqb (length raw) 32) then Err (Backend "SSE invalidation id has invalid width")
  else ok_or (parse_hex_pairs raw) (Backend "SSE invalidation id is not hexadecimal").

(* SRC crates/exocortex-server/src/sse.rs 703-717 discovery_visible *)
Definition discovery_visible (record : DiscoveryRecord) (endpoints : list Memory)
    (vc : VisibilityContext) : bool :=
  let region := dr_region record in
  if negb (String.eqb (rk_org region) "*") && negb (String.eqb (rk_org region) (vc_org_id vc)) then false
  else if negb (String.eqb (rk_project region) "*") &&
          negb (bool_decide (rk_project region ∈ project_ids vc)) then false
  else
    let from := List.find (λ memory, bool_decide (m_id memory = dr_from record)) endpoints in
    let to := List.find (λ memory, bool_decide (m_id memory = dr_to record)) endpoints in
    match from, to with
    | Some from, Some to => memory_visible from vc && memory_visible to vc
    | _, _ => false
    end.

(* SRC crates/exocortex-server/src/sse.rs 719-729 relationship_visible_with_endpoints *)
Definition relationship_visible_with_endpoints (relationship : Relationship)
    (endpoints : list Memory) (vc : VisibilityContext) : bool :=
  let from := List.find (λ memory, bool_decide (m_id memory = r_from relationship)) endpoints in
  let to := List.find (λ memory, bool_decide (m_id memory = r_to relationship)) endpoints in
  match from, to with
  | Some from, Some to => relationship_visible relationship from to vc
  | _, _ => false
  end.

Section feed.
Context {S : Type} `{RowReader S}.

(* SRC crates/exocortex-server/src/sse.rs 668-701 hydrate_event *)
Definition hydrate_event (s : S) (key : HydrationKey) : result HydratedEvent StorageError :=
  if hk_kind key =? 1 then
    let? id := server_decode_id (hk_id key) in
    let? memory := rd_memory (mkMemoryId id) s in
    Ok (HydratedMemory memory)
  else if hk_kind key =? 2 then
    let? id := server_decode_id (hk_id key) in
    let? relationship := rd_relationship (mkRelationshipId id) s in
    match relationship with
    | None => Ok (HydratedRelationship None)
    | Some relationship =>
        let? endpoints := rd_memories [r_from relationship; r_to relationship] s in
        Ok (HydratedRelationship (Some (relationship, endpoints)))
    end
  else if hk_kind key =? 3 then
    let? discovery_id := ok_or (from_utf8 (hk_id key)) (Backend "discovery id is not UTF-8") in
    let? record := rd_discovery discovery_id s in
    match record with
    | None => Ok (HydratedDiscovery None)
    | Some record =>
        let? endpoints := rd_memories [dr_from record; dr_to record] s in
        Ok (HydratedDiscovery (Some (record, endpoints)))
    end
  else Err (Backend "unsupported SSE hydration event kind").

(* SRC crates/exocortex-server/src/sse.rs 628-628 MAX_SHARED_EVENTS *)
Definition MAX_SHARED_EVENTS : nat := 1024.

(** [entries.keys().next()]. *)
Definition oldest_key (entries : HydrationEntries) : option HydrationKey :=
  fst <$> head (btree_iter compare_hydration_key entries).

(* SRC crates/exocortex-server/src/sse.rs 619-665 load_with *)
Definition load_hydrated (entries : HydrationEntries) (s : S) (key : HydrationKey)
    : HydrationEntries * result HydratedEvent StorageError :=
  match entries !! key with
  | Some event => (entries, Ok event)
  | None =>
      let entries :=
        if Nat.leb MAX_SHARED_EVENTS (size entries)
        then match oldest_key entries with Some oldest => delete oldest entries | None => entries end
        else entries in
      match hydrate_event s key with
      | Ok event => (<[key := event]> entries, Ok event)
      | Err error => (entries, Err (Backend (StorageError_to_string error)))
      end
  end.

(** *** One event for one subscriber *)

Context `{RowJson, Hmac, Message InvalidationEnvelope envelope_ok}.

(** [visibility.is_none_or(..)]. *)
Definition is_none_or {A} (o : option A) (f : A → bool) : bool :=
  match o with Some a => f a | None => true end.
Definition is_some_and {A} (o : option A) (f : A → bool) : bool :=
  match o with Some a => f a | None => false end.

Definition kind_mismatch : StorageError := Backend "SSE hydration kind mismatch".

(** The [match] on the kind, for an envelope at [lsn]. *)
Definition prepare_kind (n : ClusterNode) (s : S) (env : InvalidationEnvelope)
    (visibility : option VisibilityContext) (lsn : Z) (kind : option PbKind)
    (entries : HydrationEntries) : HydrationEntries * result InvalidationEnvelope StorageError :=
  let advance := Ok (envelope (VisibilityAdvance lsn) n) in
  match kind with
  | Some (PbMemoryUpserted id _) =>
      let '(entries, hydrated) := load_hydrated entries s (mkHydrationKey lsn 1 id) in
      (entries, let? hydrated := hydrated in
        match hydrated with
        | HydratedMemory (Some memory) =>
            if is_none_or visibility (memory_visible memory)
            then Ok (envelope (MemorySnapshotUpserted (m_clear_embedding memory) lsn) n)
            else advance
        | HydratedMemory None => advance
        | _ => Err kind_mismatch
        end)
  | Some (PbMemoryDeleted id) =>
      let '(entries, hydrated) := load_hydrated entries s (mkHydrationKey lsn 1 id) in
      (entries, let? hydrated := hydrated in
        match hydrated with
        | HydratedMemory memory =>
            if is_none_or visibility (λ vc, is_some_and memory (λ m, memory_visible m vc))
            then Ok env else advance
        | _ => Err kind_mismatch
        end)
  | Some (PbRelationshipUpserted id _ _ _ _) =>
      let '(entries, hydrated) := load_hydrated entries s (mkHydrationKey lsn 2 id) in
      (entries, let? hydrated := hydrated in
        match hydrated with
        | HydratedRelationship (Some (relationship, endpoints)) =>
            if is_none_or visibility (relationship_visible_with_endpoints relationship endpoints)
            then Ok (envelope (RelationshipSnapshotUpserted relationship lsn) n)
            else advance
        | HydratedRelationship None => advance
        | _ => Err kind_mismatch
        end)
  | Some (PbRelationshipDeleted id) =>
      let '(entries, hydrated) := load_hydrated entries s (mkHydrationKey lsn 2 id) in
      (entries, let? hydrated := hydrated in
        match hydrated with
        | HydratedRelationship relationship =>
            if is_none_or visibility (λ vc, is_some_and relationship
                 (λ '(r, endpoints), relationship_visible_with_endpoints r endpoints vc))
            then Ok env else advance
        | _ => Err kind_mismatch
        end)
  | Some (PbDiscoveryAvailable record_json) =>
      match discovery_from_slice record_json with
      | Err error => (entries, Err (Backend ("SSE discovery record malformed: " +:+ error)))
      | Ok encoded_record =>
          let '(entries, hydrated) :=
            load_hydrated entries s (mkHydrationKey lsn 3 (as_bytes (dr_discovery_id encoded_record))) in
          (entries, let? hydrated := hydrated in
            match hydrated with
            | HydratedDiscovery discovery =>
                if is_some_and discovery (λ '(record, endpoints),
                     discovery_eqb record encoded_record &&
                     is_none_or visibility (discovery_visible record endpoints))
                then Ok env else advance
            | _ => Err kind_mismatch
            end)
      end
  | Some PbVisibilityAdvance | Some (PbGraphReseed _) => (entries, Ok env)
  | None => (entries, Err (Backend "SSE invalidation missing event kind"))
  end.

(* SRC crates/exocortex-server/src/sse.rs 466-590 prepare_for_subscriber *)
Definition prepare_for_subscriber (n : ClusterNode) (s : S) (env : InvalidationEnvelope)
    (visibility : option VisibilityContext) (entries : HydrationEntries)
    : HydrationEntries * result InvalidationEnvelope StorageError :=
  match env_inv env with
  | None => (entries, Err (Backend "SSE envelope missing invalidation"))
  | Some inv => prepare_kind n s env visibility (pi_backend_lsn inv) (pi_kind inv) entries
  end.

Definition resign (client_key : option (list Z)) (env : InvalidationEnvelope) : InvalidationEnvelope :=
  match client_key with Some key => sign_invalidation_envelope key env | None => env end.

Definition zero_id : MemoryId := mkMemoryId (replicate 16 0).

(* SRC crates/exocortex-server/src/sse.rs 426-464 finalize_for_subscriber *)
Definition finalize_for_subscriber (n : ClusterNode) (env : InvalidationEnvelope)
    (client_key : option (list Z)) (supports_additive_events : bool)
    : result (list InvalidationEnvelope) ClusterError :=
  let? _ := verify_hmac env n in
  let needs_progress_companion :=
    match env_inv env with
    | Some invalidation =>
        match pi_kind invalidation with
        | Some PbVisibilityAdvance | Some (PbGraphReseed _) | Some (PbDiscoveryAvailable _) => true
        | _ => false
        end
    | None => false
    end in
  if needs_progress_companion && negb supports_additive_events then
    Ok [resign client_key (envelope (MemoryDeleted zero_id (envelope_lsn env)) n)]
  else Ok [resign client_key env].

(* SRC crates/exocortex-server/src/sse.rs 385-424 admit_envelope *)
Definition admit_envelope (n : ClusterNode) (s : S) (env : InvalidationEnvelope)
    (visibility : option VisibilityContext) (client_key : option (list Z))
    (supports_additive_events : bool) (entries : HydrationEntries)
    : HydrationEntries * option (list InvalidationEnvelope) :=
  match verify_hmac env n with
  | Err _ => (entries, None)
  | Ok _ =>
      let '(entries, prepared) := prepare_for_subscriber n s env visibility entries in
      (entries, match prepared with
        | Err _ => None
        | Ok env =>
            match finalize_for_subscriber n env client_key supports_additive_events with
            | Ok envelopes => Some envelopes
            | Err _ => None
            end
        end)
  end.

(** The envelopes of a stream; an item is the event with the store it is hydrated from, or the
    lag of the receiver. *)
Fixpoint serve (n : ClusterNode) (visibility : option VisibilityContext)
    (client_key : option (list Z)) (additive : bool) (items : list (S * option InvalidationEnvelope))
    (entries : HydrationEntries) : HydrationEntries * list InvalidationEnvelope :=
  match items with
  | [] => (entries, [])
  | (_, None) :: _ => (entries, [])
  | (s, Some env) :: items =>
      match admit_envelope n s env visibility client_key additive entries with
      | (entries, None) => (entries, [])
      | (entries, Some envelopes) =>
          let '(entries, out) := serve n visibility client_key additive items entries in
          (entries, envelopes ++ out)
      end
  end.

(** [seed] is the outcome of the hydration scan, when one was asked for. *)
(* SRC crates/exocortex-server/src/sse.rs 287-383 event_stream *)
Definition event_stream (n : ClusterNode) (visibility : option VisibilityContext)
    (client_key : option (list Z)) (supports_additive_events : bool)
    (seed : option (S * result InvalidationEnvelope StorageError))
    (replay : list (S * InvalidationEnvelope)) (live : list (S * option InvalidationEnvelope))
    (entries : HydrationEntries) : HydrationEntries * list InvalidationEnvelope :=
  let rest := ((λ '(s, env), (s, Some env)) <$> replay) ++ live in
  match seed with
  | Some (s, Ok env) =>
      serve n visibility client_key supports_additive_events ((s, Some env) :: rest) entries
  | Some (_, Err _) => (entries, [])
  | None => serve n visibility client_key supports_additive_events rest entries
  end.

(** *** The authoritative image *)

(* SRC crates/exocortex-server/src/sse.rs 851-863 ensure_reseed_budget *)
Definition ensure_reseed_budget (rows bytes : Z) : result unit StorageError :=
  if MAX_RESEED_ROWS <? rows then Err (Backend "SSE hydration exceeds 50000 rows")
  else if MAX_RESEED_BYTES <? bytes then Err (Backend "SSE hydration exceeds 33554432 bytes")
  else Ok tt.

(** [a.checked_add(encoded_json_len(..)?).and_then(|bytes| bytes.checked_add(1))]. *)
Definition add_row (bytes : Z) (row : list Z) : result Z StorageError :=
  ok_or (b ← usize_checked_add bytes (Z.of_nat (length row)); usize_checked_add b 1)
    (Backend "SSE hydration byte count overflow").

Definition live_at (until : option DateTime) (invalidated : bool) (now : DateTime) : bool :=
  is_none_or until (λ u, now <? u) && negb invalidated.
Definition live_memory (now : DateTime) (m : Memory) : bool :=
  live_at (m_valid_until m) (bool_decide (is_Some (m_invalidated_by m))) now.
Definition live_relationship (now : DateTime) (r : Relationship) : bool :=
  live_at (r_valid_until r) (bool_decide (is_Some (r_invalidated_by r))) now.

(** The locals of the two loops. *)
Record Image := mkImage {
  im_indices : gmap MemoryId nat;
  im_memories : list Memory;
  im_relationships : list Relationship;
  im_bytes : Z;
  im_rows : Z;
}.

(** [while let Some(row) = memory_rows.next().await]. *)
Fixpoint image_memories (visibility : option VisibilityContext) (now : DateTime)
    (rows : list (result Memory StorageError)) (im : Image) : result Image StorageError :=
  match rows with
  | [] => Ok im
  | Err e :: _ => Err e
  | Ok memory :: rows =>
      let seen := im_rows im + 1 in
      let? _ := ensure_reseed_budget seen (im_bytes im) in
      if live_memory now memory && is_none_or visibility (memory_visible memory) then
        let memory := m_clear_embedding memory in
        let? bytes := add_row (im_bytes im) (memory_to_vec memory) in
        let? _ := ensure_reseed_budget seen bytes in
        image_memories visibility now rows
          (mkImage (<[m_id memory := length (im_memories im)]> (im_indices im))
             (im_memories im ++ [memory]) (im_relationships im) bytes seen)
      else image_memories visibility now rows
             (mkImage (im_indices im) (im_memories im) (im_relationships im) (im_bytes im) seen)
  end.

(** The [match visibility] of the second loop; an index is always in bounds. *)
Definition edge_visible (visibility : option VisibilityContext) (im : Image) (r : Relationship) : bool :=
  match visibility with
  | None => true
  | Some vc =>
      match im_indices im !! r_from r ≫= (im_memories im !!.), im_indices im !! r_to r ≫= (im_memories im !!.) with
      | Some from, Some to => relationship_visible r from to vc
      | _, _ => false
      end
  end.

(** [while let Some(row) = relationship_rows.next().await]. *)
Fixpoint image_relationships (visibility : option VisibilityContext) (now : DateTime)
    (rows : list (result Relationship StorageError)) (im : Image) : result Image StorageError :=
  match rows with
  | [] => Ok im
  | Err e :: _ => Err e
  | Ok relationship :: rows =>
      let seen := im_rows im + 1 in
      let im := mkImage (im_indices im) (im_memories im) (im_relationships im) (im_bytes im) seen in
      let? _ := ensure_reseed_budget seen (im_bytes im) in
      if negb (live_relationship now relationship) then image_relationships visibility now rows im
      else if edge_visible visibility im relationship then
        let? bytes := add_row (im_bytes im) (relationship_to_vec relationship) in
        let? _ := ensure_reseed_budget seen bytes in
        image_relationships visibility now rows
          (mkImage (im_indices im) (im_memories im) (im_relationships im ++ [relationship]) bytes seen)
      else image_relationships visibility now rows im
  end.

(** The two scans read the store at two moments. *)
(* SRC crates/exocortex-server/src/sse.rs 744-825 graph_reseed_envelope_at *)
Definition graph_reseed_envelope_at (n : ClusterNode) (visibility : option VisibilityContext)
    (now : DateTime) (frontier : Z) (s1 s2 : S) : result InvalidationEnvelope StorageError :=
  let? im := image_memories visibility now (rd_all_memories s1) (mkImage ∅ [] [] 64 0) in
  let? im := image_relationships visibility now (rd_all_relationships s2) im in
  let snapshot_json := snapshot_to_vec (im_memories im) (im_relationships im) in
  let? _ := ensure_reseed_budget 0 (Z.of_nat (length snapshot_json)) in
  Ok (envelope (GraphReseed snapshot_json frontier) n).

(* SRC crates/exocortex-server/src/sse.rs 731-742 graph_reseed_envelope *)
Definition graph_reseed_envelope (n : ClusterNode) (visibility : option VisibilityContext)
    (now : DateTime) (s0 s1 s2 : S) : result InvalidationEnvelope StorageError :=
  let? frontier := rd_state_at now s0 in
  graph_reseed_envelope_at n visibility now (backend_lsn frontier) s1 s2.
End feed.

(** ** What a subscriber is shown *)

Section isolation.
Context {S : Type} `{RowReader S} `{RowJson, Hmac, Message InvalidationEnvelope envelope_ok}.
Implicit Types (seen : S → Prop) (entries : HydrationEntries).

(** The cache holds at most its limit, and only what one of the states [seen] gave. *)
Definition cache_ok seen entries : Prop :=
  (∀ key event, entries !! key = Some event → ∃ s, seen s ∧ hydrate_event s key = Ok event) ∧
  (size entries ≤ MAX_SHARED_EVENTS)%nat.

Lemma oldest_key_in entries k : oldest_key entries = Some k → is_Some (entries !! k).
Proof.
  unfold oldest_key. pose proof (btree_iter_perm compare_hydration_key entries) as Hp.
  destruct (btree_iter _ entries) as [|[k' v] l]; intros E; simplify_eq/=.
  exists v. apply elem_of_map_to_list. rewrite <-Hp. by left.
Qed.

Lemma oldest_key_none entries : oldest_key entries = None → entries = ∅.
Proof.
  unfold oldest_key. pose proof (btree_iter_perm compare_hydration_key entries) as Hp.
  destruct (btree_iter _ entries) as [|[k' v] l]; intros E; [|done].
  by apply map_to_list_empty_iff, Permutation_nil.
Qed.

Lemma load_hydrated_ok seen entries s key :
  cache_ok seen entries → seen s →
  cache_ok seen (load_hydrated entries s key).1 ∧
  ∀ event, (load_hydrated entries s key).2 = Ok event → ∃ s', seen s' ∧ hydrate_event s' key = Ok event.
Proof.
  intros [Hc Hsize] Hs. unfold load_hydrated. destruct (entries !! key) as [event|] eqn:Ek.
  { split; [done|]. intros ? [= <-]. by apply Hc. }
  set (room := if Nat.leb _ _ then _ else _).
  assert (Hroom : (size room < MAX_SHARED_EVENTS)%nat ∧ room ⊆ entries).
  { unfold room. destruct (Nat.leb_spec MAX_SHARED_EVENTS (size entries)); [|done].
    destruct (oldest_key entries) as [k|] eqn:Eo.
    - apply oldest_key_in in Eo as Ho. split; [|apply delete_subseteq].
      rewrite map_size_delete. destruct Ho as [v ->]. unfold MAX_SHARED_EVENTS in *. lia.
    - apply oldest_key_none in Eo as ->. rewrite map_size_empty in *. unfold MAX_SHARED_EVENTS in *. lia. }
  destruct Hroom as [Hlt Hsub].
  assert (cache_ok seen room) as [Hc' _].
  { split; [|lia]. intros k ev Hk. by apply Hc, (lookup_weaken _ _ _ _ Hk). }
  destruct (hydrate_event s key) as [event|error] eqn:Eh; simpl.
  - split; [|intros ? [= <-]; by exists s]. split.
    + intros k ev [[<- <-]|[_ Hk]]%lookup_insert_Some; [by exists s|by apply Hc'].
    + rewrite map_size_insert. case_match; simpl; lia.
  - split; [|done]. split; [done|lia].
Qed.

(** An image of rows [vc] may see, every relationship between two of its memories. *)
Definition image_shows (vc : VisibilityContext) (js : list Z) : Prop :=
  ∃ ms rs, js = snapshot_to_vec ms rs ∧
    Forall (λ m, memory_visible m vc = true ∧ embedding m = None) ms ∧
    Forall (λ r, ∃ f t, f ∈ ms ∧ t ∈ ms ∧ m_id f = r_from r ∧ m_id t = r_to r ∧
             relationship_visible r f t vc = true) rs.

(** What an envelope for the caller [vc] may hold: a row read from one of the states [seen] that
    [vc] may see, without its embedding; the deletion of one; a discovery between two such rows;
    an image of such rows; or no row at all. *)
Definition carries seen (vc : VisibilityContext) (kind : option PbKind) : Prop :=
  match kind with
  | Some (PbMemoryUpserted id js) =>
      ∃ s a m, seen s ∧ rd_memory a s = Ok (Some m) ∧ memory_visible m vc = true ∧
        id = hex_id (mid_bytes (m_id m)) ∧ js = memory_to_vec (m_clear_embedding m)
  | Some (PbMemoryDeleted id) =>
      id = hex_id (mid_bytes zero_id) ∨
      ∃ s a m, seen s ∧ server_decode_id id = Ok a ∧ rd_memory (mkMemoryId a) s = Ok (Some m) ∧
        memory_visible m vc = true
  | Some (PbRelationshipUpserted id from to k js) =>
      ∃ s a r es, seen s ∧ rd_relationship a s = Ok (Some r) ∧
        rd_memories [r_from r; r_to r] s = Ok es ∧ relationship_visible_with_endpoints r es vc = true ∧
        id = hex_id (rid_bytes (r_id r)) ∧ from = hex_id (mid_bytes (r_from r)) ∧
        to = hex_id (mid_bytes (r_to r)) ∧ k = kind_val (r_kind r) ∧ js = relationship_to_vec r
  | Some (PbRelationshipDeleted id) =>
      ∃ s a r es, seen s ∧ server_decode_id id = Ok a ∧ rd_relationship (mkRelationshipId a) s = Ok (Some r) ∧
        rd_memories [r_from r; r_to r] s = Ok es ∧ relationship_visible_with_endpoints r es vc = true
  | Some PbVisibilityAdvance => True
  | Some (PbGraphReseed js) => image_shows vc js
  | Some (PbDiscoveryAvailable js) =>
      ∃ s a record r es, seen s ∧ discovery_from_slice js = Ok record ∧ rd_discovery a s = Ok (Some r) ∧
        discovery_eqb r record = true ∧ rd_memories [dr_from r; dr_to r] s = Ok es ∧
        discovery_visible r es vc = true
  | None => False
  end.

Definition env_kind (env : InvalidationEnvelope) : option PbKind := env_inv env ≫= pi_kind.

(** A hydrated value says what the store said. *)
Lemma hydrated_memory s lsn id m :
  hydrate_event s (mkHydrationKey lsn 1 id) = Ok (HydratedMemory m) →
  ∃ a, server_decode_id id = Ok a ∧ rd_memory (mkMemoryId a) s = Ok m.
Proof.
  unfold hydrate_event. simpl. intros (a & Ha & E)%result_bind_ok.
  apply result_bind_ok in E as (m' & Hm & [= <-]). by exists a.
Qed.

Lemma hydrated_relationship s lsn id r es :
  hydrate_event s (mkHydrationKey lsn 2 id) = Ok (HydratedRelationship (Some (r, es))) →
  ∃ a, server_decode_id id = Ok a ∧ rd_relationship (mkRelationshipId a) s = Ok (Some r) ∧
       rd_memories [r_from r; r_to r] s = Ok es.
Proof.
  unfold hydrate_event. simpl. intros (a & Ha & E)%result_bind_ok.
  apply result_bind_ok in E as ([r'|] & Hr & E); [|done].
  apply result_bind_ok in E as (es' & Hes & [= <- <-]). by exists a.
Qed.

Lemma hydrated_discovery s lsn id r es :
  hydrate_event s (mkHydrationKey lsn 3 id) = Ok (HydratedDiscovery (Some (r, es))) →
  ∃ a, rd_discovery a s = Ok (Some r) ∧ rd_memories [dr_from r; dr_to r] s = Ok es.
Proof.
  unfold hydrate_event. simpl. intros (a & Ha & E)%result_bind_ok.
  apply result_bind_ok in E as ([r'|] & Hr & E); [|done].
  apply result_bind_ok in E as (es' & Hes & [= <- <-]). by exists a.
Qed.

(** The images among the events are the subscriber's own. *)
Definition own_image (vc : VisibilityContext) (env : InvalidationEnvelope) : Prop :=
  match env_kind env with Some (PbGraphReseed js) => image_shows vc js | _ => True end.

Lemma own_verifies inv n : verify_hmac (envelope inv n) n = Ok tt.
Proof. apply verify_hmac_ok. symmetry. apply sign_signed. Qed.

(** Take the hydration of the goal apart: what was loaded, and from which state. *)
Ltac hydrate :=
  match goal with
  | Hc : cache_ok ?seen ?entries, Hs : ?seen ?s |- context [load_hydrated ?entries ?s ?key] =>
      let Hl := fresh "Hl" in
      destruct (load_hydrated_ok seen entries s key Hc Hs) as [Hc' Hl];
      destruct (load_hydrated entries s key) as [entries' [hydrated|]]; simpl in *;
      [destruct (Hl hydrated eq_refl) as (s' & Hs' & Hh); clear Hl|by split_and!];
      split; [done|]; intros env' E
  end.

Lemma prepare_ok n seen s env vc entries :
  verify_hmac env n = Ok tt → own_image vc env → cache_ok seen entries → seen s →
  let '(entries', r) := prepare_for_subscriber n s env (Some vc) entries in
  cache_ok seen entries' ∧
  ∀ env', r = Ok env' →
    verify_hmac env' n = Ok tt ∧ carries seen vc (env_kind env') ∧ envelope_lsn env' = envelope_lsn env.
Proof.
  intros Hv Hown Hc Hs. unfold prepare_for_subscriber, own_image, env_kind in *.
  unfold envelope_lsn at 2. destruct (env_inv env) as [[kind lsn]|] eqn:Ei; [|done].
  simpl in *. assert (Hkeep : envelope_lsn env = lsn ∧ env_kind env = kind)
    by (unfold envelope_lsn, env_kind; by rewrite Ei). destruct Hkeep as [Elsn Ekind].
  unfold prepare_kind. destruct kind as [[id js|id|id f t k js|id| |js|js]|]; try done.
  - hydrate. destruct hydrated as [[m|]| |]; try done.
    + simpl in E. destruct (memory_visible m vc) eqn:Hm; simplify_eq; (split_and!; [apply own_verifies| |done]); [|done].
      apply hydrated_memory in Hh as (a & _ & Hr). exists s', (mkMemoryId a), m. split_and!; try done. simpl. by rewrite m_clear_embedding_id.
    + simplify_eq. by split; [apply own_verifies|].
  - hydrate. destruct hydrated as [m| |]; try done. simpl in E.
    destruct (is_some_and m _) eqn:Hm; simplify_eq; [|by split; [apply own_verifies|]].
    split_and!; [done| |done]. rewrite Ei. simpl. right.
    destruct m as [m|]; [|done]. apply hydrated_memory in Hh as (a & Ha & Hr). exists s', a, m. by split_and!.
  - hydrate. destruct hydrated as [|[[r es]|]|]; try done.
    + simpl in E. destruct (relationship_visible_with_endpoints r es vc) eqn:Hm; simplify_eq;
        (split_and!; [apply own_verifies| |done]); [|done].
      apply hydrated_relationship in Hh as (a & _ & Hr & Hes). exists s', (mkRelationshipId a), r, es. by split_and!.
    + simplify_eq. by split; [apply own_verifies|].
  - hydrate. destruct hydrated as [|r|]; try done. simpl in E.
    destruct (is_some_and r _) eqn:Hm; simplify_eq; [|by split; [apply own_verifies|]].
    split_and!; [done| |done]. rewrite Ei. simpl.
    destruct r as [[r es]|]; [|done]. apply hydrated_relationship in Hh as (a & Ha & Hr & Hes).
    exists s', a, r, es. by split_and!.
  - split; [done|]. intros env' [= <-]. by rewrite Ei.
  - split; [done|]. intros env' [= <-]. by rewrite Ei.
  - destruct (discovery_from_slice js) as [record|] eqn:Ej; [|done].
    hydrate. destruct hydrated as [| |d]; try done. simpl in E.
    destruct (is_some_and d _) eqn:Hm; simplify_eq; [|by split; [apply own_verifies|]].
    split_and!; [done| |done]. rewrite Ei. simpl.
    destruct d as [[r es]|]; [|done]. simpl in Hm. bool_prop.
    apply hydrated_discovery in Hh as (a & Hr & Hes). exists s', a, record, r, es. by split_and!.
Qed.

Lemma finalize_ok n env key additive out :
  finalize_for_subscriber n env (Some key) additive = Ok out →
  ∃ e, out = [sign_invalidation_envelope key e] ∧
       (e = env ∨ e = envelope (MemoryDeleted zero_id (envelope_lsn env)) n).
Proof.
  unfold finalize_for_subscriber. intros ([] & _ & E)%result_bind_ok.
  case_match; simplify_eq; eauto.
Qed.

(** What the subscriber gets from one event. *)
Definition delivered_ok (seen : S → Prop) vc key lsn (e : InvalidationEnvelope) : Prop :=
  verify_invalidation_envelope key e = true ∧ carries seen vc (env_kind e) ∧ envelope_lsn e = lsn.

Lemma admit_envelope_ok n seen s env vc key additive entries :
  own_image vc env → cache_ok seen entries → seen s →
  let '(entries', r) := admit_envelope n s env (Some vc) (Some key) additive entries in
  cache_ok seen entries' ∧
  ∀ out, r = Some out → ∃ e, out = [e] ∧ delivered_ok seen vc key (envelope_lsn env) e.
Proof.
  intros Hown Hc Hs. unfold admit_envelope.
  destruct (verify_hmac env n) as [[]|] eqn:Hv; [|done].
  pose proof (prepare_ok n seen s env vc entries Hv Hown Hc Hs) as Hp.
  destruct (prepare_for_subscriber n s env (Some vc) entries) as [entries' [env'|]]; [|by split; [apply Hp|]].
  destruct Hp as [Hc' Hp]. destruct (Hp env' eq_refl) as (Hv' & Hcar & El). split; [done|].
  intros out E. destruct (finalize_for_subscriber _ _ _ _) as [out'|] eqn:Ef; simplify_eq.
  apply finalize_ok in Ef as (e & -> & [->| ->]); eexists; (split; [done|]);
    (split; [by apply verify_envelope_iff|]).
  - by split.
  - split; [by left|exact El].
Qed.

(** The events of a stream and the moments they are hydrated at. *)
Definition stream_ok (seen : S → Prop) vc (items : list (S * option InvalidationEnvelope)) : Prop :=
  Forall (λ it, seen it.1 ∧ match it.2 with Some env => own_image vc env | None => True end) items.

Lemma serve_carries n seen vc key additive items entries :
  stream_ok seen vc items → cache_ok seen entries →
  let '(entries', out) := serve n (Some vc) (Some key) additive items entries in
  cache_ok seen entries' ∧
  Forall (λ e, verify_invalidation_envelope key e = true ∧ carries seen vc (env_kind e)) out ∧
  (envelope_lsn <$> out) `prefix_of` (envelope_lsn <$> omap snd items).
Proof.
  intros Hi. revert entries. induction Hi as [|[s [env|]] items [Hs Hown] _ IH]; intros entries Hc; simpl.
  - split_and!; [done|constructor|done].
  - pose proof (admit_envelope_ok n seen s env vc key additive entries Hown Hc Hs) as Ha.
    destruct (admit_envelope n s env (Some vc) (Some key) additive entries) as [entries1 [out|]].
    2: { split_and!; [apply Ha|constructor|apply prefix_nil]. }
    destruct Ha as [Hc1 Ha]. destruct (Ha out eq_refl) as (e & -> & Hv & Hcar & El).
    specialize (IH entries1 Hc1). destruct (serve _ _ _ _ _ entries1) as [entries2 out].
    destruct IH as (Hc2 & Hout & Hpre). split_and!; [done|by constructor|].
    simpl. rewrite El. by apply prefix_cons.
  - split_and!; [done|constructor|apply prefix_nil].
Qed.
(** C3: no subscriber is shown what it may not see.  Whatever the feed carries and however the store
    changes while the stream is open, every envelope delivered to a caller is signed with that
    caller's key, stands for the event of its LSN, in order and without leaving one out before
    the stream ends, and holds a row only if a state of the store gave that row and the caller
    may see it there; every other event becomes an LSN without a row.  The shared hydration cache
    keeps within its bound. *)
Theorem stream_no_leak n seen vc key additive seed replay live entries :
  match seed with Some (s, Ok env) => seen s ∧ own_image vc env | _ => True end →
  Forall (λ it, seen it.1 ∧ own_image vc it.2) replay → stream_ok seen vc live →
  cache_ok seen entries →
  let '(entries', out) := event_stream n (Some vc) (Some key) additive seed replay live entries in
  cache_ok seen entries' ∧
  Forall (λ e, verify_invalidation_envelope key e = true ∧ carries seen vc (env_kind e)) out ∧
  (envelope_lsn <$> out) `prefix_of`
    (envelope_lsn <$> match seed with
      | Some (_, Ok env) => env :: replay.*2 ++ omap snd live
      | Some (_, Err _) => []
      | None => replay.*2 ++ omap snd live
      end).
Proof.
  intros Hseed Hreplay Hlive Hc. unfold event_stream.
  set (rest := ((λ '(s, env), (s, Some env)) <$> replay) ++ live).
  assert (stream_ok seen vc rest) as Hrest.
  { apply Forall_app. split; [|done]. apply Forall_fmap. by eapply Forall_impl; [done|intros []]. }
  assert (omap snd rest = replay.*2 ++ omap snd live) as <-.
  { unfold rest. rewrite omap_app. f_equal. clear. induction replay as [|[] replay IH]; [done|].
    simpl. by f_equal. }
  destruct seed as [[s [env|]]|].
  - apply (serve_carries n seen vc key additive ((s, Some env) :: rest)); [by constructor|done].
  - split_and!; [done|constructor|done].
  - by apply serve_carries.
Qed.
End isolation.

(** ** What the subscriber makes of it *)

Section end_to_end.
Context {S : Type} `{RowReader S} `{RowJson, Hmac, Message InvalidationEnvelope envelope_ok}.
Implicit Types (seen : S → Prop) (entries : HydrationEntries).

(** What a decoded event tells the caller [vc]: a row the caller may see, as its JSON parses, or
    no row. *)
Definition shown seen (vc : VisibilityContext) (event : DecodedEvent) : Prop :=
  match event with
  | Change (MemorySnapshotUpserted m _) _ =>
      ∃ s a m0 m1, seen s ∧ rd_memory a s = Ok (Some m0) ∧ memory_visible m0 vc = true ∧
        memory_from_slice (memory_to_vec (m_clear_embedding m0)) = Ok m1 ∧ m = m_clear_embedding m1
  | Change (MemoryDeleted id _) _ =>
      id = zero_id ∨
      ∃ s m, seen s ∧ rd_memory id s = Ok (Some m) ∧ memory_visible m vc = true
  | Change (RelationshipSnapshotUpserted r _) _ =>
      ∃ s a r0 es, seen s ∧ rd_relationship a s = Ok (Some r0) ∧
        rd_memories [r_from r0; r_to r0] s = Ok es ∧
        relationship_visible_with_endpoints r0 es vc = true ∧
        relationship_from_slice (relationship_to_vec r0) = Ok r
  | Change (RelationshipDeleted id _) _ =>
      ∃ s r es, seen s ∧ rd_relationship id s = Ok (Some r) ∧
        rd_memories [r_from r; r_to r] s = Ok es ∧ relationship_visible_with_endpoints r es vc = true
  | Change (DiscoveryAvailable d _) _ =>
      ∃ s a r es, seen s ∧ rd_discovery a s = Ok (Some r) ∧ discovery_eqb r d = true ∧
        rd_memories [dr_from r; dr_to r] s = Ok es ∧ discovery_visible r es vc = true
  | Change (VisibilityAdvance _) _ => True
  | Reseed ms rs _ =>
      ∃ js ms0, image_shows vc js ∧ snapshot_from_slice js = Ok (ms0, rs) ∧ ms = m_clear_embedding <$> ms0
  | Change _ _ => False
  end.

Lemma decode_id_id16 raw a : server_decode_id raw = Ok a → id16 raw = Ok a.
Proof.
  unfold server_decode_id, id16. destruct (Nat.eqb (length raw) 16); [congruence|].
  destruct (Nat.eqb (length raw) 32); [|done]. simpl.
  destruct (parse_hex_pairs raw); [by intros [= ->]|done].
Qed.

Lemma bad_json_ok {A} what (r : result A string) a : bad_json what r = Ok a → r = Ok a.
Proof. by destruct r; intros [= <-]. Qed.

Lemma carried_shown seen vc kind lsn event :
  carries seen vc (Some kind) → decode_kind kind lsn = Ok event → shown seen vc event.
Proof.
  destruct kind as [id js|id|id f t k js|id| |js|js]; simpl; intros Hc E.
  - destruct Hc as (s & a & m & Hs & Hr & Hv & _ & ->).
    apply result_bind_ok in E as (i & _ & E). apply result_bind_ok in E as (m1 & Hm1%bad_json_ok & E).
    case_bool_decide; simplify_eq. by exists s, a, m, m1.
  - apply result_bind_ok in E as (i & Hi & [= <-]). destruct Hc as [->|(s & a & m & Hs & Ha & Hr & Hv)].
    + left. change (id16 (hex_id (mid_bytes zero_id)) = Ok i) in Hi.
      rewrite id16_hex_id in Hi; [by injection Hi as <-|]. split; [done|]. apply Forall_replicate. lia.
    + right. apply decode_id_id16 in Ha. rewrite Ha in Hi. injection Hi as <-. by exists s, m.
  - destruct Hc as (s & a & r & es & Hs & Hr & Hes & Hv & -> & -> & -> & -> & ->).
    apply result_bind_ok in E as (i & _ & E). apply result_bind_ok in E as (r1 & Hr1%bad_json_ok & E).
    case_bool_decide; [|done]. apply result_bind_ok in E as (? & _ & E).
    case_bool_decide; [|done]. apply result_bind_ok in E as (? & _ & E).
    repeat (case_bool_decide; [|done]). simplify_eq. by exists s, a, r, es.
  - destruct Hc as (s & a & r & es & Hs & Ha & Hr & Hes & Hv).
    apply result_bind_ok in E as (i & Hi & [= <-]). apply decode_id_id16 in Ha.
    rewrite Ha in Hi. injection Hi as <-. by exists s, r, es.
  - by simplify_eq.
  - apply result_bind_ok in E as ([ms rs] & Hm%bad_json_ok & [= <-]). by exists js, ms.
  - destruct Hc as (s & a & record & r & es & Hs & Hj & Hr & Heq & Hes & Hv).
    apply result_bind_ok in E as (d & Hd%bad_json_ok & [= <-]). rewrite Hj in Hd. simplify_eq.
    by exists s, a, r, es.
Qed.

Lemma decode_event_encoded key fp e event :
  envelope_ok e → decode_event key fp (base64_encode (encode_to_vec e)) = Ok event →
  ∃ kind, env_kind e = Some kind ∧ decode_kind kind (envelope_lsn e) = Ok event.
Proof.
  intros Hok. unfold decode_event. rewrite decode_bounded_encode by by apply encode_to_vec_bytes.
  case_match; [done|]. simpl ok_or. cbn [result_bind]. rewrite decode_encode by done.
  cbn [bad_json result_bind]. intros ([] & _ & E)%result_bind_ok.
  apply result_bind_ok in E as (i & Hi & E). apply result_bind_ok in E as (kind & Hk & E).
  unfold env_kind, envelope_lsn. destruct (env_inv e) as [i'|]; [|done]. simplify_eq/=.
  destruct (pi_kind i) as [k|]; [|done]. simplify_eq/=. by exists kind.
Qed.

(** C2: from the store to the subscriber's cache: whatever event the client decodes from what it is
    served stands for a row its caller may see in some state the store had while the stream was
    open, at the event's own LSN, or tells it no row at all. *)
Theorem subscriber_shown_only_visible n seen vc key additive items entries fp e event :
  stream_ok seen vc items → cache_ok seen entries →
  e ∈ (serve n (Some vc) (Some key) additive items entries).2 →
  envelope_ok e → decode_event key fp (base64_encode (encode_to_vec e)) = Ok event →
  shown seen vc event.
Proof.
  intros Hi Hc He Hok Hd. pose proof (serve_carries n seen vc key additive items entries Hi Hc) as Hs.
  destruct (serve n (Some vc) (Some key) additive items entries) as [entries' out].
  destruct Hs as (_ & Hout & _). simpl in He. apply (proj1 (Forall_forall _ _) Hout) in He as [_ Hcar].
  apply decode_event_encoded in Hd as (kind & Hk & Hd); [|done]. rewrite Hk in Hcar.
  by eapply carried_shown.
Qed.
End end_to_end.

(** ** The image is the visible graph *)

Section image.
Context {S : Type} `{RowReader S} `{RowJson, Hmac, Message InvalidationEnvelope envelope_ok}.

(** The last memory of an image with an id. *)
Definition find_memory (id : MemoryId) (ms : list Memory) : option Memory :=
  find_last (λ m, bool_decide (m_id m = id)) ms.

(** An edge whose endpoints are in the image and show it. *)
Definition edge_shown (visibility : option VisibilityContext) (ms : list Memory) (r : Relationship) : bool :=
  is_none_or visibility (λ vc,
    match find_memory (r_from r) ms, find_memory (r_to r) ms with
    | Some f, Some t => relationship_visible r f t vc
    | _, _ => false
    end).

(** The rows of the image over the streamed rows. *)
Definition image_memory_rows (visibility : option VisibilityContext) (now : DateTime)
    (rows : list Memory) : list Memory :=
  m_clear_embedding <$>
    List.filter (λ m, live_memory now m && is_none_or visibility (memory_visible m)) rows.
Definition image_relationship_rows (visibility : option VisibilityContext) (now : DateTime)
    (ms : list Memory) (rows : list Relationship) : list Relationship :=
  List.filter (λ r, live_relationship now r && edge_shown visibility ms r) rows.

(** The indices find the last row of each id. *)
Definition indices_ok (im : Image) : Prop :=
  ∀ id, im_indices im !! id ≫= (im_memories im !!.) = find_memory id (im_memories im) ∧
        ∀ i, im_indices im !! id = Some i → (i < length (im_memories im))%nat.

Lemma indices_ok_push indices ms rels b r b' r' m :
  indices_ok (mkImage indices ms rels b r) →
  indices_ok (mkImage (<[m_id m := length ms]> indices) (ms ++ [m]) rels b' r').
Proof.
  unfold indices_ok, find_memory. simpl. intros Hi id. rewrite find_last_snoc, length_app. simpl.
  destruct (Hi id) as [He Hl]. case_bool_decide as Hid; [subst id|].
  - rewrite lookup_insert_eq. simpl. split; [by apply list_lookup_middle|]. intros i [= <-]. lia.
  - rewrite lookup_insert_ne by done. split; [|intros i Hi'; specialize (Hl i Hi'); lia].
    rewrite <-He. destruct (indices !! id) as [i|] eqn:Ei; [|done]. simpl.
    by apply lookup_app_l, Hl.
Qed.

Lemma ensure_reseed_budget_ok rows bytes :
  ensure_reseed_budget rows bytes = Ok tt ↔ rows ≤ MAX_RESEED_ROWS ∧ bytes ≤ MAX_RESEED_BYTES.
Proof.
  unfold ensure_reseed_budget. destruct (Z.ltb_spec MAX_RESEED_ROWS rows); [split; [done|lia]|].
  destruct (Z.ltb_spec MAX_RESEED_BYTES bytes); [split; [done|lia]|]. done.
Qed.

Lemma image_memories_ok vis now rows im im' :
  image_memories vis now rows im = Ok im' → indices_ok im →
  ∃ ms, rows = Ok <$> ms ∧ im_memories im' = im_memories im ++ image_memory_rows vis now ms ∧
    im_relationships im' = im_relationships im ∧ indices_ok im' ∧
    im_rows im' = im_rows im + Z.of_nat (length ms) ∧ (ms ≠ [] → im_rows im' ≤ MAX_RESEED_ROWS).
Proof.
  revert im. induction rows as [|[m|e] rows IH]; intros im E Hi; simpl in E; [|cbv zeta in E|done].
  - simplify_eq. exists []. split_and!; try done; [by rewrite app_nil_r|simpl; lia].
  - apply result_bind_ok in E as ([] & Hb%ensure_reseed_budget_ok & E).
    assert (∀ im1, image_memories vis now rows im1 = Ok im' → indices_ok im1 →
      im_memories im1 = im_memories im ++ image_memory_rows vis now [m] →
      im_relationships im1 = im_relationships im → im_rows im1 = im_rows im + 1 →
      ∃ ms, Ok m :: rows = Ok <$> ms ∧ im_memories im' = im_memories im ++ image_memory_rows vis now ms ∧
        im_relationships im' = im_relationships im ∧ indices_ok im' ∧
        im_rows im' = im_rows im + Z.of_nat (length ms) ∧ (ms ≠ [] → im_rows im' ≤ MAX_RESEED_ROWS)) as Hstep.
    { intros im1 E1 Hi1 Hm1 Hr1 Hn1.
      destruct (IH im1 E1 Hi1) as (ms & -> & Hm & Hr & Hi' & Hn & Hmax).
      exists (m :: ms). split_and!; [done| |congruence|done|simpl; lia|].
      - rewrite Hm, Hm1, <-(assoc_L (++)). f_equal. unfold image_memory_rows.
        rewrite <-fmap_app, <-List.filter_app. done.
      - intros _. destruct ms; [simpl in *; lia|]. by apply Hmax. }
    destruct (live_memory now m && is_none_or vis (memory_visible m)) eqn:Hlive.
    + apply result_bind_ok in E as (b & _ & E). apply result_bind_ok in E as ([] & _ & E).
      eapply Hstep; [exact E| |simpl|done|done].
      * destruct im. by eapply indices_ok_push.
      * unfold image_memory_rows. simpl. by rewrite Hlive.
    + eapply Hstep; [exact E|exact Hi| |done|done].
      unfold image_memory_rows. simpl. by rewrite Hlive, app_nil_r.
Qed.

Lemma edge_visible_shown vis im r :
  indices_ok im → edge_visible vis im r = edge_shown vis (im_memories im) r.
Proof.
  intros Hi. unfold edge_visible, edge_shown, is_none_or. destruct vis; [|done].
  by rewrite (proj1 (Hi (r_from r))), (proj1 (Hi (r_to r))).
Qed.

Lemma image_relationships_ok vis now rows im im' :
  image_relationships vis now rows im = Ok im' → indices_ok im →
  ∃ rs, rows = Ok <$> rs ∧ im_memories im' = im_memories im ∧
    im_relationships im' = im_relationships im ++ image_relationship_rows vis now (im_memories im) rs ∧
    im_rows im' = im_rows im + Z.of_nat (length rs) ∧ (rs ≠ [] → im_rows im' ≤ MAX_RESEED_ROWS).
Proof.
  revert im. induction rows as [|[r|e] rows IH]; intros im E Hi; simpl in E; [|cbv zeta in E|done].
  - simplify_eq. exists []. split_and!; try done; [by rewrite app_nil_r|simpl; lia].
  - apply result_bind_ok in E as ([] & Hb%ensure_reseed_budget_ok & E).
    assert (∀ im1, image_relationships vis now rows im1 = Ok im' →
      im_indices im1 = im_indices im → im_memories im1 = im_memories im →
      im_relationships im1 = im_relationships im ++ image_relationship_rows vis now (im_memories im) [r] →
      im_rows im1 = im_rows im + 1 →
      ∃ rs, Ok r :: rows = Ok <$> rs ∧ im_memories im' = im_memories im ∧
        im_relationships im' = im_relationships im ++ image_relationship_rows vis now (im_memories im) rs ∧
        im_rows im' = im_rows im + Z.of_nat (length rs) ∧ (rs ≠ [] → im_rows im' ≤ MAX_RESEED_ROWS)) as Hstep.
    { intros im1 E1 Hx1 Hm1 Hr1 Hn1.
      destruct (IH im1 E1) as (rs & -> & Hm & Hr & Hn & Hmax); [unfold indices_ok; by rewrite Hx1, Hm1|].
      exists (r :: rs). split_and!; [done|congruence| |simpl; lia|].
      - rewrite Hr, Hr1, Hm1, <-(assoc_L (++)). f_equal. unfold image_relationship_rows.
        rewrite <-List.filter_app. done.
      - intros _. destruct rs; [simpl in *; lia|]. by apply Hmax. }
    destruct (live_relationship now r) eqn:Hlive; simpl in E.
    + rewrite edge_visible_shown in E by exact Hi. simpl in E.
      destruct (edge_shown vis (im_memories im) r) eqn:Hshown.
      * apply result_bind_ok in E as (b & _ & E). apply result_bind_ok in E as ([] & _ & E).
        eapply Hstep; [exact E|done|done| |done]. unfold image_relationship_rows. simpl. by rewrite Hlive, Hshown.
      * eapply Hstep; [exact E|done|done| |done]. unfold image_relationship_rows. simpl.
        by rewrite Hlive, Hshown, app_nil_r.
    + eapply Hstep; [exact E|done|done| |done]. unfold image_relationship_rows. simpl.
      by rewrite Hlive, app_nil_r.
Qed.

Lemma memory_visible_clear m vc : memory_visible (m_clear_embedding m) vc = memory_visible m vc.
Proof. by destruct m. Qed.

(** The image a subscriber is seeded with is the graph it may see, and nothing else: the live
    memories it may see, in the order they were streamed, without embeddings; the live
    relationships both of whose endpoints are among them and that those endpoints let it see; at
    the LSN read before either scan; at most 50,000 rows scanned and 32 MiB sent. *)
Theorem image_exact n visibility now frontier s1 s2 env :
  graph_reseed_envelope_at n visibility now frontier s1 s2 = Ok env →
  ∃ mrows rrows, rd_all_memories s1 = Ok <$> mrows ∧ rd_all_relationships s2 = Ok <$> rrows ∧
    let ms := image_memory_rows visibility now mrows in
    let rs := image_relationship_rows visibility now ms rrows in
    env = envelope (GraphReseed (snapshot_to_vec ms rs) frontier) n ∧
    (∀ vc, visibility = Some vc → own_image vc env) ∧
    Z.of_nat (length mrows + length rrows) ≤ MAX_RESEED_ROWS ∧
    Z.of_nat (length (snapshot_to_vec ms rs)) ≤ MAX_RESEED_BYTES.
Proof.
  unfold graph_reseed_envelope_at. intros (im1 & E1 & E)%result_bind_ok.
  apply result_bind_ok in E as (im2 & E2 & E).
  apply result_bind_ok in E as ([] & Hb%ensure_reseed_budget_ok & [= <-]).
  apply image_memories_ok in E1 as (mrows & Hm & Em & Er & Hi & Hn & Hmax); [|intros id; by split].
  apply image_relationships_ok in E2 as (rrows & Hr & Em' & Er' & Hn' & Hmax'); [|done].
  simpl in *. exists mrows, rrows. rewrite Em', Er', Er, Em in *. simpl in *.
  split_and!; [done..| | |lia].
  2: { destruct rrows as [|r rrows]; [destruct mrows as [|m mrows]; [done|]|].
       - specialize (Hmax ltac:(done)). simpl in *. lia.
       - specialize (Hmax' ltac:(done)). simpl in *. lia. }
  intros vc ->. exists (image_memory_rows (Some vc) now mrows).
  eexists. split; [done|]. split.
  - apply Forall_forall. intros m (m0 & -> & Hin)%list_elem_of_fmap.
    apply elem_of_filter in Hin as [_ Hv]. bool_prop. rewrite memory_visible_clear.
    split; [done|by destruct m0].
  - apply Forall_forall. intros r [_ Hs]%elem_of_filter. unfold edge_shown in Hs. bool_prop. simpl in *.
    destruct (find_memory (r_from r) _) as [f|] eqn:Ef; [|done].
    destruct (find_memory (r_to r) _) as [t|] eqn:Et; [|done].
    apply find_last_Some in Ef as [Hf Ef], Et as [Ht Et]. bool_prop. by exists f, t.
Qed.
End image.

(** ** The handler *)

(** [str::split(c)] and [split_once(c)] on bytes. *)
Fixpoint split_byte (c : Z) (l : list Z) : list (list Z) :=
  match l with
  | [] => [[]]
  | b :: l =>
      if b =? c then [] :: split_byte c l
      else match split_byte c l with
           | piece :: pieces => (b :: piece) :: pieces
           | [] => [[b]]
           end
  end.
Fixpoint split_once (c : Z) (l : list Z) : option (list Z * list Z) :=
  match l with
  | [] => None
  | b :: l => if b =? c then Some ([], l) else '(k, v) ← split_once c l; Some (b :: k, v)
  end.

(** [u32::from_str], [u64::from_str]: an optional [+], then decimal digits without overflow. *)
Fixpoint parse_digits (w : Z) (acc : Z) (l : list Z) : option Z :=
  match l with
  | [] => Some acc
  | b :: l =>
      if (48 <=? b) && (b <=? 57) then
        let acc := acc * 10 + (b - 48) in
        if acc <? 2 ^ w then parse_digits w acc l else None
      else None
  end.
Definition parse_uint (w : Z) (l : list Z) : option Z :=
  let digits := match l with 43 :: digits => digits | _ => l end in
  match digits with [] => None | _ => parse_digits w 0 digits end.

(** The query: [since_lsn] and [seed]; a later pair replaces an earlier one. *)
Definition parse_query (q : option string) : option Z * bool :=
  foldl (λ '(since_lsn, seed) pair,
    match split_once 61 pair with
    | Some (k, v) =>
        if bool_decide (k = as_bytes "since_lsn") then (parse_uint 64 v, seed)
        else if bool_decide (k = as_bytes "seed") then (since_lsn, bool_decide (v = as_bytes "true"))
        else (since_lsn, seed)
    | None => (since_lsn, seed)
    end) (None, false) (match q with Some qs => split_byte 38 (as_bytes qs) | None => [] end).

(* SRC crates/exocortex-wire/src/lib.rs 12-14 SSE_EVENT_VERSION *)
Definition SSE_EVENT_VERSION : Z := 2.

(** The parts of a request the handler reads. *)
Record Request := mkRequest {
  rq_query : option string;
  rq_authorization : option string;
  rq_sse_version : option string;
  rq_principal : option VisibilityContext;
}.

(** A stream the handler opens: what it was opened with. *)
Record Opened := mkOpened {
  op_visibility : VisibilityContext;
  op_client_key : list Z;
  op_additive : bool;
  op_seed : bool;
  op_replay : list InvalidationEnvelope;
  op_principal_key : list Z;
}.

Inductive Response :=
  | Unauthorized
  | LiveLimit
  | ReseedLimit
  | ConflictResync (min_lsn : Z)
  | Streaming (stream : Opened).

(** [strip_prefix("Bearer ")], non-empty. *)
Definition bearer_of (authorization : option string) : option string :=
  value ← authorization;
  if bool_decide (take 7 (as_bytes value) = as_bytes "Bearer ")
  then let token := string_of_bytes (drop 7 (as_bytes value)) in
       if String.eqb token "" then None else Some token
  else None.

Definition principal_identity (vc : VisibilityContext) : string :=
  pretty (N.of_nat (String.length (vc_org_id vc))) +:+ ":" +:+ vc_org_id vc +:+
  pretty (N.of_nat (String.length (vc_user_id vc))) +:+ ":" +:+ vc_user_id vc.

(** The limits the handlers share: the streams and the hydration permits left. *)
Record Limits := mkLimits { li_streams : LiveStreamAdmission; li_reseeds : Z }.

Section handler.
Context `{RowJson, Hmac, Message InvalidationEnvelope envelope_ok}.

(** The permits an answer other than a stream holds are dropped with it. *)
(* SRC crates/exocortex-server/src/sse.rs 155-285 handler *)
Definition handler (rq : Request) (n : ClusterNode) (L : Limits) : Limits * Response :=
  let '(since_lsn, seed) := parse_query (rq_query rq) in
  let supports_additive_events :=
    match v ← rq_sse_version rq; parse_uint 32 (as_bytes v) with
    | Some version => SSE_EVENT_VERSION <=? version
    | None => false
    end in
  match rq_principal rq, bearer_of (rq_authorization rq) with
  | Some visibility, Some token =>
      let principal_key := derive_sse_client_key (cn_hmac_key n) (principal_identity visibility) in
      match try_admit principal_key (li_streams L) with
      | (A, false) => (mkLimits A (li_reseeds L), LiveLimit)
      | (A, true) =>
          let refuse r := (mkLimits (drop_permits principal_key A) (li_reseeds L), r) in
          let stream reseeds replay :=
            (mkLimits A reseeds,
             Streaming (mkOpened visibility (derive_sse_client_key (cn_hmac_key n) token)
                          supports_additive_events seed replay principal_key)) in
          if seed then
            if li_reseeds L =? 0 then refuse ReseedLimit else stream (li_reseeds L - 1) []
          else
            match since_lsn with
            | Some since_lsn =>
                match replay_since since_lsn n with
                | Fresh envs => stream (li_reseeds L) envs
                | TooOld => refuse (ConflictResync (replay_floor n))
                end
            | None => stream (li_reseeds L) []
            end
      end
  | _, _ => (L, Unauthorized)
  end.
End handler.

Example query_1 : parse_query (Some "since_lsn=41&seed=true&x=1"%string) = (Some 41, true).
Proof. vm_compute. reflexivity. Qed.
Example query_2 : parse_query (Some "since_lsn=18446744073709551616"%string) = (None, false).
Proof. vm_compute. reflexivity. Qed.
Example bearer_1 : bearer_of (Some "Bearer t0k"%string) = Some "t0k"%string.
Proof. vm_compute. reflexivity. Qed.

(** *** Limits are per caller *)

Lemma principal_identity_inj vc vc' :
  principal_identity vc = principal_identity vc' →
  vc_org_id vc = vc_org_id vc' ∧ vc_user_id vc = vc_user_id vc'.
Proof.
  unfold principal_identity. intros E%(f_equal as_bytes).
  set (frame x := pretty (N.of_nat (String.length x)) +:+ ":" +:+ x).
  assert (as_bytes (frame (vc_org_id vc)) ++ as_bytes (frame (vc_user_id vc)) ++ [] =
          as_bytes (frame (vc_org_id vc')) ++ as_bytes (frame (vc_user_id vc')) ++ []) as E'.
  { unfold frame. rewrite !app_nil_r. rewrite !as_bytes_app, <-!(assoc_L (++)) in *. exact E. }
  apply framed_inj in E' as [Eo E']. by apply framed_inj in E' as [Eu _].
Qed.

Section handler_facts.
Context `{RowJson, Hmac, Message InvalidationEnvelope envelope_ok}.

(** Two callers share a stream limit only if they are the same user of the same organization, or
    under an HMAC collision. *)
Lemma principal_key_inj key vc vc' :
  derive_sse_client_key key (principal_identity vc) = derive_sse_client_key key (principal_identity vc') →
  (vc_org_id vc = vc_org_id vc' ∧ vc_user_id vc = vc_user_id vc') ∨ hmac_collision key.
Proof.
  unfold derive_sse_client_key. intros E.
  destruct (decide (principal_identity vc = principal_identity vc')) as [Ep|Hne].
  - left. by apply principal_identity_inj.
  - right. eexists _, _. split; [|exact E]. intros Ea%(inj (app _))%(inj as_bytes). done.
Qed.

(** What an answer did to the limits: it holds one stream permit, and a hydration permit if it
    seeds, or none at all. *)
Definition limits_after (L L' : Limits) (r : Response) : Prop :=
  match r with
  | Streaming op =>
      try_admit (op_principal_key op) (li_streams L) = (li_streams L', true) ∧
      li_reseeds L' = li_reseeds L - (if op_seed op then 1 else 0) ∧
      (op_seed op = true → li_reseeds L ≠ 0)
  | _ =>
      la_global (li_streams L') = la_global (li_streams L) ∧ li_reseeds L' = li_reseeds L ∧
      ∀ k, default (la_per_principal_limit (li_streams L)) (la_per_principal (li_streams L') !! k) =
           default (la_per_principal_limit (li_streams L)) (la_per_principal (li_streams L) !! k)
  end.

Lemma try_admit_false key A A' :
  try_admit key A = (A', false) →
  la_global A' = la_global A ∧
  ∀ k, default (la_per_principal_limit A) (la_per_principal A' !! k) =
       default (la_per_principal_limit A) (la_per_principal A !! k).
Proof.
  unfold try_admit. case_match; [by intros [= <-]|]. case_match; intros [= <-]. simpl. split; [done|].
  intros k. rewrite default_insert. by case_bool_decide; subst.
Qed.

Lemma try_admit_dropped key A A' :
  try_admit key A = (A', true) →
  la_global (drop_permits key A') = la_global A ∧
  ∀ k, default (la_per_principal_limit A) (la_per_principal (drop_permits key A') !! k) =
       default (la_per_principal_limit A) (la_per_principal A !! k).
Proof.
  unfold try_admit. case_match; [done|]. case_match; [done|]. intros [= <-]. unfold drop_permits. simpl.
  split; [lia|]. intros k. rewrite !default_insert.
  rewrite (bool_decide_eq_true_2 (key = key)) by done. case_bool_decide; [subst; lia|done].
Qed.

(** The handler: without both a principal and a bearer token there is no stream; a stream is the
    principal's own, signed with the key of the token presented; a refused request keeps no
    permit; and a reconnecting subscriber is told to resync exactly when the change log has lost
    an event after its LSN, and is otherwise replayed every one of them, in order, before the
    live feed. *)
Theorem handler_exact cap es rq n L :
  ascending es → cn_change_log n = ring_after cap es →
  let '(L', r) := handler rq n L in
  limits_after L L' r ∧
  (r = Unauthorized ↔ rq_principal rq = None ∨ bearer_of (rq_authorization rq) = None) ∧
  (∀ op, r = Streaming op →
     rq_principal rq = Some (op_visibility op) ∧
     (∃ token, bearer_of (rq_authorization rq) = Some token ∧
               op_client_key op = derive_sse_client_key (cn_hmac_key n) token) ∧
     (∀ since, in_range 64 since → parse_query (rq_query rq) = (Some since, false) →
        replay_floor n ≤ since + 1 ∧
        op_replay op = List.filter (λ e, since <? envelope_lsn e) es)) ∧
  (∀ floor, r = ConflictResync floor → ∃ since, parse_query (rq_query rq) = (Some since, false) ∧
     replay_since since n = TooOld ∧ floor = replay_floor n).
Proof.
  intros Hs Hlog. unfold handler. destruct (parse_query (rq_query rq)) as [since seed].
  destruct (rq_principal rq) as [vc|], (bearer_of (rq_authorization rq)) as [token|];
    try (split_and!; try done; split; [tauto|done]).
  set (key := derive_sse_client_key _ _). destruct (try_admit key (li_streams L)) as [A [|]] eqn:Ha.
  2: { apply try_admit_false in Ha as [? ?]. split_and!; try done. split; [done|]. by intros []. }
  pose proof (try_admit_dropped _ _ _ Ha) as [Hg Hp].
  destruct seed; [|destruct since as [since|]].
  - destruct (Z.eqb_spec (li_reseeds L) 0); (split; [by split_and!|]; split; [by split; [|intros []]|]);
      split; try done. intros op [= <-]. simpl. split_and!; [done|by exists token|done].
  - destruct (replay_since since n) as [envs|] eqn:Er.
    + split; [simpl; split_and!; done || lia|]. split; [by split; [|intros []]|]. split; [|done].
      intros op [= <-]. simpl. split_and!; [done|by exists token|]. intros since' Hr [= <-].
      unfold replay_since in Er. rewrite Hlog, (ring_replay_spec cap es Hs since Hr) in Er.
      unfold replay_floor. rewrite Hlog.
      destruct (Z.ltb_spec (since + 1) (ring_replay_floor (ring_after cap es))); [done|].
      by injection Er as <-.
    + split; [by split_and!|]. split; [by split; [|intros []]|]. split; [done|].
      intros floor [= <-]. by exists since.
  - split; [simpl; split_and!; done || lia|]. split; [by split; [|intros []]|]. split; [|done].
    intros op [= <-]. simpl. split_and!; [done|by exists token|done].
Qed.
End handler_facts.
