(* ===== verification/Wal.v ===== *)
(** * The client's write-ahead log

    [crates/exocortex-client/src/wal.rs]: the offline write buffer.  The [sled] tree is a map
    from key bytes to value bytes that iterates in key order and applies a batch atomically;
    its I/O failures are left out.  The log is verified against a plain list of entries in LSN
    order, which every operation refines. *)

From stdpp Require Import pretty.
From S2P Require Import Prelude Ids Kernel Packs Ontology StorageTypes Graph Reads Leases.
From S2P Require Import Ingest Governed.

(** ** Data *)

(* SRC crates/exocortex-client/src/wal.rs 16-28 WalState *)
Inductive WalState :=
  | Pending
  | Synced (backend_lsn : Z)
  | Failed.

#[global] Instance WalState_eq_dec : EqDecision WalState.
Proof. solve_decision. Defined.

(* SRC crates/exocortex-client/src/wal.rs 30-66 WalEntry *)
Record WalEntry := mkWalEntry {
  we_local_lsn : Z;
  we_session_id : string;
  we_memories : list MemoryDraft;
  we_memory_ids : list MemoryId;
  we_state : WalState;
  we_batch_id : string;
  we_draft_keys : list string;
  we_org : string;
  we_user : string;
  we_tags : list (list string);
}.

Definition set_local_lsn (l : Z) (e : WalEntry) : WalEntry :=
  mkWalEntry l (we_session_id e) (we_memories e) (we_memory_ids e) (we_state e) (we_batch_id e)
    (we_draft_keys e) (we_org e) (we_user e) (we_tags e).
Definition set_state (s : WalState) (e : WalEntry) : WalEntry :=
  mkWalEntry (we_local_lsn e) (we_session_id e) (we_memories e) (we_memory_ids e) s (we_batch_id e)
    (we_draft_keys e) (we_org e) (we_user e) (we_tags e).

(* SRC crates/exocortex-client/src/wal.rs 68-86 WalError *)
Inductive WalError :=
  | WalIo (message : string)
  | WalCorrupt (local_lsn : Z) (detail : string)
  | WalFull (used budget : Z).

(* SRC crates/exocortex-client/src/wal.rs 88-89 WAL_MAX_BYTES *)
Definition WAL_MAX_BYTES : Z := 100 * 1024 * 1024.

(* SRC crates/exocortex-client/src/wal.rs 91-107 TailRow *)
Record TailRow := mkTailRow {
  tr_local_lsn : Z;
  tr_recorded_at : string;
  tr_pending : bool;
  tr_batch_id : string;
  tr_memory_count : Z;
  tr_draft_keys : list string;
}.

(* SRC crates/exocortex-client/src/wal.rs 109-114 Wal *)
Record Wal := mkWal { wal_tree : gmap (list Z) (list Z); wal_max_bytes : Z }.

(** The log of an empty directory. *)
(* SRC crates/exocortex-client/src/wal.rs 122-133 open_with_budget *)
Definition open_with_budget (max_bytes : Z) : Wal := mkWal ∅ max_bytes.

(* SRC crates/exocortex-client/src/wal.rs 117-120 open *)
Definition wal_open : Wal := open_with_budget WAL_MAX_BYTES.

(** ** The codec *)

(** [serde_json] on an entry: what it prints it parses back. *)
Class WalJson := {
  entry_to_vec : WalEntry → result (list Z) string;
  entry_from_slice : list Z → result WalEntry string;
  entry_from_to e js : entry_to_vec e = Ok js → entry_from_slice js = Ok e;
}.

(* SRC crates/exocortex-client/src/wal.rs 499-500 WAL_CODEC_VERSION *)
Definition WAL_CODEC_VERSION : Z := 1.

Section codec.
Context `{WalJson}.

(* SRC crates/exocortex-client/src/wal.rs 502-509 encode_entry *)
Definition encode_entry (e : WalEntry) : result (list Z) string :=
  let? json := entry_to_vec e in
  Ok (WAL_CODEC_VERSION :: be_bytes 4 (as_u32 (Z.of_nat (length json))) ++ json).

(* SRC crates/exocortex-client/src/wal.rs 511-529 decode_entry *)
Definition decode_entry (bytes : list Z) : result WalEntry string :=
  if negb (bool_decide (head bytes = Some WAL_CODEC_VERSION))
  then Err ("unknown wal codec version " +:+ debug_bytes bytes)
  else if Nat.ltb (length bytes) 5 then Err "short wal entry"%string
  else
    let declared := from_be_bytes (take 4 (drop 1 bytes)) in
    let json := drop 5 bytes in
    if negb (Z.of_nat (length json) =? declared)
    then Err ("wal entry length mismatch: declared " +:+ pretty declared +:+ ", actual "
              +:+ pretty (Z.of_nat (length json)))
    else entry_from_slice json.

(* SRC crates/exocortex-client/src/wal.rs 495-497 decode_at *)
Definition decode_at (local_lsn : Z) (raw : list Z) : result WalEntry WalError :=
  match decode_entry raw with Ok e => Ok e | Err detail => Err (WalCorrupt local_lsn detail) end.

(* SRC crates/exocortex-client/src/wal.rs 487-493 key_to_lsn *)
Definition key_to_lsn (key : list Z) : result Z WalError :=
  if Nat.eqb (length key) 8 then Ok (from_be_bytes key)
  else Err (WalCorrupt 0 ("invalid " +:+ pretty (N.of_nat (length key)) +:+ "-byte sled key")).

(** [tree.iter()]. *)
Definition tree_iter (W : Wal) : list (list Z * list Z) := btree_iter compare_bytes (wal_tree W).

(* SRC crates/exocortex-client/src/wal.rs 135-140 used_bytes *)
Definition used_bytes (W : Wal) : Z :=
  foldl (λ used item, u64_saturating_add used (Z.of_nat (length item.2) + 16)) 0 (tree_iter W).

(* SRC crates/exocortex-client/src/wal.rs 286-297 next_lsn *)
Definition wal_next_lsn (W : Wal) : result Z WalError :=
  match last (tree_iter W) with
  | Some (key, _) =>
      let? lsn := key_to_lsn key in
      if lsn + 1 <? 2 ^ 64 then Ok (lsn + 1) else Err (WalIo "WAL local LSN space is exhausted")
  | None => Ok 1
  end.

(** ** Appends *)

Definition put_tree (key value : list Z) (W : Wal) : Wal :=
  mkWal (<[key := value]> (wal_tree W)) (wal_max_bytes W).

(** [.map_err(WalError::Io)]. *)
Definition wal_io {A} (r : result A string) : result A WalError :=
  match r with Ok a => Ok a | Err e => Err (WalIo e) end.

(* SRC crates/exocortex-client/src/wal.rs 308-321 insert_entry_locked *)
Definition insert_entry_locked (entry : WalEntry) (W : Wal) : Wal * result Z WalError :=
  let r :=
    let? local_lsn := wal_next_lsn W in
    let? bytes := wal_io (encode_entry (set_local_lsn local_lsn entry)) in
    let used := used_bytes W in
    ensure negb (wal_max_bytes W <? u64_saturating_add used (Z.of_nat (length bytes)))
      else WalFull used (wal_max_bytes W) in
    Ok (local_lsn, bytes) in
  match r with
  | Ok (local_lsn, bytes) => (put_tree (be_bytes 8 local_lsn) bytes W, Ok local_lsn)
  | Err e => (W, Err e)
  end.

(** [insert_entry] takes the append gate around it; the gate is not poisoned here. *)
(* SRC crates/exocortex-client/src/wal.rs 299-306 insert_entry *)
Definition insert_entry (entry : WalEntry) (W : Wal) : Wal * result Z WalError :=
  insert_entry_locked entry W.

(* SRC crates/exocortex-client/src/wal.rs 163-190 append_batch_full *)
Definition append_batch_full (session_id : string) (memories : list MemoryDraft)
    (memory_ids : list MemoryId) (batch_id : string) (draft_keys : list string)
    (tags : list (list string)) (org user : string) (W : Wal) : Wal * result Z WalError :=
  insert_entry (mkWalEntry 0 session_id memories memory_ids Pending batch_id draft_keys org user tags) W.

(* SRC crates/exocortex-client/src/wal.rs 142-161 append_batch *)
Definition append_batch (session_id : string) (memories : list MemoryDraft)
    (memory_ids : list MemoryId) (W : Wal) : Wal * result Z WalError :=
  append_batch_full session_id memories memory_ids "" [] [] "" "" W.

(** The search for a batch id: the first row that carries it, or the first that cannot be read. *)
Fixpoint find_batch (batch_id : string) (items : list (list Z * list Z))
    : result (option Z) WalError :=
  match items with
  | [] => Ok None
  | (key, raw) :: items =>
      let? local_lsn := key_to_lsn key in
      let? e := decode_at local_lsn raw in
      if String.eqb (we_batch_id e) batch_id then Ok (Some local_lsn)
      else find_batch batch_id items
  end.

(* SRC crates/exocortex-client/src/wal.rs 192-234 append_batch_full_idempotent *)
Definition append_batch_full_idempotent (session_id : string) (memories : list MemoryDraft)
    (memory_ids : list MemoryId) (batch_id : string) (draft_keys : list string)
    (tags : list (list string)) (org user : string) (W : Wal) : Wal * result Z WalError :=
  let entry := mkWalEntry 0 session_id memories memory_ids Pending batch_id draft_keys org user tags in
  let found := if negb (String.eqb batch_id "") then find_batch batch_id (tree_iter W) else Ok None in
  match found with
  | Err e => (W, Err e)
  | Ok (Some local_lsn) => (W, Ok local_lsn)
  | Ok None => insert_entry_locked entry W
  end.

(* SRC crates/exocortex-client/src/wal.rs 236-243 append_imported *)
Definition append_imported (entry : WalEntry) (W : Wal) : Wal * result Z WalError :=
  insert_entry (set_local_lsn 0 entry) W.

(** The loop that keys and encodes the rows of an import, with the bytes they take. *)
Fixpoint encode_import (lsn : Z) (entries : list WalEntry) (encoded_bytes : Z)
    : result (list (list Z * list Z) * Z) WalError :=
  match entries with
  | [] => Ok ([], encoded_bytes)
  | entry :: entries =>
      ensure (lsn <? 2 ^ 64) else WalIo "WAL local LSN overflow during import" in
      let? bytes := wal_io (encode_entry (set_local_lsn lsn entry)) in
      let? (rows, encoded_bytes) := encode_import (lsn + 1) entries
        (u64_saturating_add encoded_bytes (Z.of_nat (length bytes) + 16)) in
      Ok ((be_bytes 8 lsn, bytes) :: rows, encoded_bytes)
  end.

(* SRC crates/exocortex-client/src/wal.rs 251-284 append_imported_batch_with *)
Definition append_imported_batch_with (entries : list WalEntry) (before_commit : result unit WalError)
    (W : Wal) : Wal * result Z WalError :=
  match entries with
  | [] => (W, Ok 0)
  | _ =>
      let r :=
        let? first_lsn := wal_next_lsn W in
        let? (batch, encoded_bytes) := encode_import first_lsn entries 0 in
        let used := used_bytes W in
        ensure negb (wal_max_bytes W <? u64_saturating_add used encoded_bytes)
          else WalFull used (wal_max_bytes W) in
        let? _ := before_commit in
        Ok (first_lsn, batch) in
      match r with
      | Ok (first_lsn, batch) => (foldl (λ W '(k, v), put_tree k v W) W batch, Ok first_lsn)
      | Err e => (W, Err e)
      end
  end.

(* SRC crates/exocortex-client/src/wal.rs 245-249 append_imported_batch *)
Definition append_imported_batch (entries : list WalEntry) (W : Wal) : Wal * result Z WalError :=
  append_imported_batch_with entries (Ok tt) W.

(** ** Reads *)

Definition db_len (W : Wal) : Z := Z.of_nat (size (wal_tree W)).

(** [u64::saturating_mul]. *)
Definition u64_saturating_mul (x y : Z) : Z := Z.min (2 ^ 64 - 1) (x * y).

(* SRC crates/exocortex-client/src/wal.rs 329-332 near_full *)
Definition near_full (W : Wal) : bool :=
  u64_saturating_mul (wal_max_bytes W) 9 <=? u64_saturating_mul (used_bytes W) 10.

(** [collect::<Result<Vec<_>, _>>] over the rows: the first error wins. *)
Fixpoint decode_items (items : list (list Z * list Z)) : result (list WalEntry) WalError :=
  match items with
  | [] => Ok []
  | (key, value) :: items =>
      let? local_lsn := key_to_lsn key in
      let? e := decode_at local_lsn value in
      let? es := decode_items items in
      Ok (e :: es)
  end.

(* SRC crates/exocortex-client/src/wal.rs 409-418 decoded_entries *)
Definition decoded_entries (W : Wal) : result (list WalEntry) WalError := decode_items (tree_iter W).

(* SRC crates/exocortex-client/src/wal.rs 363-368 entries *)
Definition wal_entries (W : Wal) : result (list WalEntry) WalError := decoded_entries W.

Definition is_pending (e : WalEntry) : bool := bool_decide (we_state e = Pending).

(* SRC crates/exocortex-client/src/wal.rs 343-350 pending_entries *)
Definition pending_entries (W : Wal) : result (list WalEntry) WalError :=
  let? es := decoded_entries W in Ok (List.filter is_pending es).

(* SRC crates/exocortex-client/src/wal.rs 334-341 pending_count *)
Definition pending_count (W : Wal) : result Z WalError :=
  let? es := decoded_entries W in Ok (Z.of_nat (length (List.filter is_pending es))).

(* SRC crates/exocortex-client/src/wal.rs 352-361 entry *)
Definition wal_entry (local_lsn : Z) (W : Wal) : result (option WalEntry) WalError :=
  match wal_tree W !! be_bytes 8 local_lsn with
  | Some raw => let? e := decode_at local_lsn raw in Ok (Some e)
  | None => Ok None
  end.

(** [if !seen.contains(&pair) { seen.push(pair) }] for the rows with a partition. *)
Definition push_partition (seen : list (string * string)) (e : WalEntry) : list (string * string) :=
  if String.eqb (we_org e) "" then seen
  else if bool_decide ((we_org e, we_user e) ∈ seen) then seen else seen ++ [(we_org e, we_user e)].

(* SRC crates/exocortex-client/src/wal.rs 390-407 partitions *)
Definition partitions (W : Wal) : result (list (string * string)) WalError :=
  let? es := decoded_entries W in Ok (foldl push_partition [] es).

(* SRC crates/exocortex-client/src/wal.rs 370-388 pending_and_partitions *)
Definition pending_and_partitions (W : Wal) : result (Z * list (string * string)) WalError :=
  let? es := decoded_entries W in
  Ok (foldl (λ '(pending, seen) e,
        (if is_pending e then pending + 1 else pending, push_partition seen e)) (0, []) es).

(** One row of the tail; a key that is not eight bytes reads as LSN 0. *)
Definition tail_row `{Chrono} (item : list Z * list Z) : TailRow :=
  let lsn := if Nat.eqb (length item.1) 8 then from_be_bytes item.1 else 0 in
  match decode_entry item.2 with
  | Ok e =>
      mkTailRow lsn
        (match head (we_memories e) with
         | Some m => to_rfc3339 (timestamp (d_context m))
         | None => "unknown"
         end)
        (is_pending e) (we_batch_id e) (Z.of_nat (length (we_memories e))) (we_draft_keys e)
  | Err err => mkTailRow lsn "undecodable" true ("decode error: " +:+ err) 0 []
  end.

(* SRC crates/exocortex-client/src/wal.rs 420-456 tail *)
Definition wal_tail `{Chrono} (n : nat) (W : Wal) : list TailRow :=
  tail_row <$> take n (reverse (tree_iter W)).

(** ** State transitions *)

(* SRC crates/exocortex-client/src/wal.rs 468-484 update_state *)
Definition update_state (local_lsn : Z) (f : WalEntry → WalEntry) (W : Wal) : Wal * result unit WalError :=
  let key := be_bytes 8 local_lsn in
  match wal_tree W !! key with
  | None => (W, Err (WalIo ("no wal entry " +:+ pretty local_lsn)))
  | Some raw =>
      match (let? entry := wal_io (decode_entry raw) in wal_io (encode_entry (f entry))) with
      | Ok bytes => (put_tree key bytes W, Ok tt)
      | Err e => (W, Err e)
      end
  end.

(* SRC crates/exocortex-client/src/wal.rs 458-461 mark_synced *)
Definition mark_synced (local_lsn backend_lsn : Z) (W : Wal) : Wal * result unit WalError :=
  update_state local_lsn (set_state (Synced backend_lsn)) W.

(* SRC crates/exocortex-client/src/wal.rs 463-466 mark_failed *)
Definition mark_failed (local_lsn : Z) (W : Wal) : Wal * result unit WalError :=
  update_state local_lsn (set_state Failed) W.
End codec.

(** ** The log as a list *)

#[local] Opaque be_bytes.

Section refinement.
Context `{WalJson}.
Implicit Types (W : Wal) (log : list WalEntry).

(** The record of an entry in the tree. *)
Definition enc (e : WalEntry) : list Z := match encode_entry e with Ok b => b | Err _ => [] end.
Definition row (e : WalEntry) : list Z * list Z := (be_bytes 8 (we_local_lsn e), enc e).

(** An entry whose JSON has a 32-bit length. *)
Definition entry_fits (e : WalEntry) : Prop :=
  ∃ js, entry_to_vec e = Ok js ∧ Z.of_nat (length js) < 2 ^ 32.

(** The tree holds exactly the entries of [log], each under its own LSN. *)
Record repr W log : Prop := {
  re_tree : wal_tree W = list_to_map (row <$> log);
  re_sorted : StronglySorted (λ a b, we_local_lsn a < we_local_lsn b) log;
  re_entries : Forall (λ e, in_range 64 (we_local_lsn e) ∧ entry_fits e) log;
}.

Lemma encode_entry_fits e js :
  entry_to_vec e = Ok js → Z.of_nat (length js) < 2 ^ 32 →
  encode_entry e = Ok (WAL_CODEC_VERSION :: be_bytes 4 (Z.of_nat (length js)) ++ js).
Proof. intros E Hl. unfold encode_entry. rewrite E. cbn [result_bind]. unfold as_u32, wrap. by rewrite Z.mod_small by lia. Qed.

Lemma drop_header (v : Z) (h js : list Z) : length h = 4%nat → drop 5 (v :: h ++ js) = js ∧ take 4 (drop 1 (v :: h ++ js)) = h.
Proof. intros Hl. simpl. rewrite drop_0. by rewrite <-Hl, drop_app_length, take_app_length. Qed.

Lemma decode_framed v js :
  decode_entry (WAL_CODEC_VERSION :: be_bytes 4 v ++ js) =
  if negb (Z.of_nat (length js) =? from_be_bytes (be_bytes 4 v))
  then Err ("wal entry length mismatch: declared " +:+ pretty (from_be_bytes (be_bytes 4 v)) +:+ ", actual "
              +:+ pretty (Z.of_nat (length js)))
  else entry_from_slice js.
Proof.
  unfold decode_entry. rewrite bool_decide_eq_true_2 by done. cbn [negb].
  destruct (Nat.ltb_spec (length (WAL_CODEC_VERSION :: be_bytes 4 v ++ js)) 5) as [Hl|_].
  { rewrite length_cons, length_app, length_be_bytes in Hl. lia. }
  by destruct (drop_header WAL_CODEC_VERSION (be_bytes 4 v) js (length_be_bytes 4 v)) as [-> ->].
Qed.

Lemma decode_encode_entry e js :
  entry_to_vec e = Ok js → Z.of_nat (length js) < 2 ^ 32 →
  decode_entry (WAL_CODEC_VERSION :: be_bytes 4 (Z.of_nat (length js)) ++ js) = Ok e.
Proof.
  intros E Hl. rewrite decode_framed, from_be_bytes_be, Z.eqb_refl.
  - by apply entry_from_to.
  - split; [lia|]. by change (256 ^ Z.of_nat 4) with (2 ^ 32).
Qed.

Lemma decode_enc e : entry_fits e → decode_entry (enc e) = Ok e.
Proof. intros (js & E & Hl). unfold enc. rewrite (encode_entry_fits e js) by done. by apply decode_encode_entry. Qed.

Lemma key_to_lsn_be l : in_range 64 l → key_to_lsn (be_bytes 8 l) = Ok l.
Proof.
  intros Hl. unfold key_to_lsn. rewrite length_be_bytes. simpl. by rewrite from_be_bytes_be.
Qed.

Lemma row_sorted log :
  StronglySorted (λ a b, we_local_lsn a < we_local_lsn b) log →
  Forall (λ e, in_range 64 (we_local_lsn e) ∧ entry_fits e) log →
  key_sorted compare_bytes (row <$> log).
Proof.
  intros Hs. induction Hs as [|e log _ IH Hall]; intros Hf; [constructor|].
  apply Forall_cons in Hf as [[He _] Hf]. simpl. constructor; [by apply IH|].
  apply Forall_fmap, Forall_forall. intros e' Hin. rewrite Forall_forall in Hall, Hf. simpl.
  rewrite compare_be_bytes; [by apply Z.compare_lt_iff, Hall|done|]. by apply Hf.
Qed.

Lemma tree_iter_repr W log : repr W log → tree_iter W = row <$> log.
Proof.
  intros [Ht Hs Hf]. unfold tree_iter. rewrite Ht. by apply (btree_iter_sorted compare_bytes), row_sorted.
Qed.

Lemma decode_items_rows log :
  Forall (λ e, in_range 64 (we_local_lsn e) ∧ entry_fits e) log → decode_items (row <$> log) = Ok log.
Proof.
  induction 1 as [|e log [Hl He] _ IH]; [done|]. rewrite fmap_cons. unfold row at 1.
  cbn [decode_items]. rewrite key_to_lsn_be by done. cbn [result_bind].
  unfold decode_at. rewrite decode_enc by done. cbn [result_bind]. by rewrite IH.
Qed.

Lemma decoded_repr W log : repr W log → decoded_entries W = Ok log.
Proof. intros Hr. unfold decoded_entries. rewrite (tree_iter_repr W log) by done. apply decode_items_rows, Hr. Qed.

(** The LSN after the log. *)
Definition next_of log : Z := match last log with Some e => we_local_lsn e + 1 | None => 1 end.

Lemma last_lsn_range W log e : repr W log → last log = Some e → in_range 64 (we_local_lsn e).
Proof.
  intros Hr He%last_Some_elem_of. by apply (proj1 (Forall_forall _ _) (re_entries _ _ Hr)) in He as [? _].
Qed.

Lemma next_lsn_repr W log :
  repr W log →
  wal_next_lsn W = if next_of log <? 2 ^ 64 then Ok (next_of log)
                   else Err (WalIo "WAL local LSN space is exhausted").
Proof.
  intros Hr. unfold wal_next_lsn, next_of. rewrite (tree_iter_repr W log), fmap_last by done.
  destruct (last log) as [e|] eqn:El; [|done]. simpl.
  rewrite key_to_lsn_be by by eapply last_lsn_range. done.
Qed.

(** Everything in the log is before its next LSN. *)
Lemma before_next W log e : repr W log → e ∈ log → we_local_lsn e < next_of log.
Proof.
  intros [_ Hs _] He. unfold next_of.
  destruct log as [|e' log _] using rev_ind; [by apply elem_of_nil in He|].
  rewrite last_snoc. apply StronglySorted_app in Hs as (Hs & _).
  apply elem_of_app in He as [He| ->%list_elem_of_singleton]; [|lia].
  specialize (Hs e e' He ltac:(by left)). lia.
Qed.

Lemma row_fresh W log l : repr W log → next_of log ≤ l → in_range 64 l → be_bytes 8 l ∉ (row <$> log).*1.
Proof.
  intros Hr Hl Hr64 Hin. rewrite <-list_fmap_compose in Hin. apply list_elem_of_fmap in Hin as (e & E & He).
  pose proof (before_next W log e Hr He). simpl in E.
  apply be_bytes_inj in E; [lia|done|]. by apply (proj1 (Forall_forall _ _) (re_entries _ _ Hr)) in He as [? _].
Qed.

(** A row at the end of the log. *)
Lemma repr_snoc W log e :
  repr W log → next_of log ≤ we_local_lsn e → in_range 64 (we_local_lsn e) → entry_fits e →
  repr (put_tree (be_bytes 8 (we_local_lsn e)) (enc e) W) (log ++ [e]).
Proof.
  intros Hr Hl Hr64 Hf. split.
  - simpl. rewrite (re_tree _ _ Hr), fmap_app. simpl. symmetry. apply list_to_map_snoc.
    by apply (row_fresh W log).
  - apply StronglySorted_app_2; [|apply Hr|repeat constructor].
    intros a b Ha ->%list_elem_of_singleton. pose proof (before_next W log a Hr Ha). lia.
  - apply Forall_app. split; [apply Hr|]. constructor; [by split|constructor].
Qed.

(** The bytes the log takes. *)
Definition total log : Z := foldr (λ e acc, Z.of_nat (length (enc e)) + 16 + acc) 0 log.
Lemma total_cons e l : total (e :: l) = Z.of_nat (length (enc e)) + 16 + total l.
Proof. done. Qed.
Lemma total_app l k : total (l ++ k) = total l + total k.
Proof. unfold total. induction l as [|e l IH]; simpl; [done|]. rewrite IH. lia. Qed.
Lemma total_nonneg l : 0 ≤ total l.
Proof. unfold total. induction l; simpl; lia. Qed.

Lemma used_repr W log : repr W log → used_bytes W = Z.min (2 ^ 64 - 1) (total log).
Proof.
  intros Hr. unfold used_bytes. rewrite (tree_iter_repr W log) by done.
  assert (∀ acc, 0 ≤ acc → foldl (λ used item, u64_saturating_add used (Z.of_nat (length item.2) + 16))
    (Z.min (2 ^ 64 - 1) acc) (row <$> log) = Z.min (2 ^ 64 - 1) (acc + total log)) as Hfold.
  { clear. unfold total. induction log as [|e log IH]; intros acc Ha; simpl; [by rewrite Z.add_0_r|].
    replace (u64_saturating_add (Z.min (2 ^ 64 - 1) acc) (Z.of_nat (length (enc e)) + 16))
      with (Z.min (2 ^ 64 - 1) (acc + (Z.of_nat (length (enc e)) + 16))) by (unfold u64_saturating_add; lia).
    rewrite IH by lia. f_equal. lia. }
  exact (Hfold 0 (Z.le_refl 0)).
Qed.

(** A log whose budget bounds every record it can still take. *)
Definition sane W : Prop := wal_max_bytes W < 2 ^ 32.

(** What appending an entry does: all of it at the next LSN, or nothing. *)
Lemma insert_entry_repr W log e :
  repr W log → sane W →
  match insert_entry_locked e W with
  | (W', Ok l) =>
      let e' := set_local_lsn (next_of log) e in
      l = next_of log ∧ l < 2 ^ 64 ∧ repr W' (log ++ [e']) ∧ entry_fits e' ∧
      wal_max_bytes W' = wal_max_bytes W ∧ total (log ++ [e']) ≤ wal_max_bytes W + 16
  | (W', Err _) => W' = W
  end.
Proof.
  intros Hr Hs. unfold insert_entry_locked. rewrite (next_lsn_repr W log) by done.
  destruct (Z.ltb_spec (next_of log) (2 ^ 64)) as [Hn|]; [|done]. cbn [result_bind].
  set (e' := set_local_lsn (next_of log) e). unfold encode_entry.
  destruct (entry_to_vec e') as [js|] eqn:Ej; [|done]. cbn [result_bind wal_io].
  set (b := WAL_CODEC_VERSION :: _).
  destruct (Z.ltb_spec (wal_max_bytes W) (u64_saturating_add (used_bytes W) (Z.of_nat (length b)))) as [|Hb]; [done|].
  cbn [negb]. rewrite (used_repr W log) in Hb by done. unfold sane in Hs.
  pose proof (total_nonneg log). unfold u64_saturating_add in Hb.
  assert (Hlb : length b = (5 + length js)%nat) by (unfold b; simpl; by rewrite length_app, length_be_bytes).
  assert (Hfit : entry_fits e') by (exists js; split; [done|lia]).
  assert (Hb' : b = enc e').
  { unfold b, enc. rewrite (encode_entry_fits e' js) by (done || lia). do 3 f_equal.
    unfold as_u32, wrap. apply Z.mod_small. lia. }
  assert (Hn0 : in_range 64 (next_of log)).
  { split; [|done]. unfold next_of. destruct (last log) as [e0|] eqn:El; [|lia].
    pose proof (last_lsn_range W log e0 Hr El) as [? _]. lia. }
  split_and!; [done|done| |done|done|].
  - rewrite Hb'. by apply (repr_snoc W log e').
  - rewrite total_app. unfold total at 2. simpl. rewrite <-Hb'. lia.
Qed.

Lemma find_batch_rows id log :
  Forall (λ e, in_range 64 (we_local_lsn e) ∧ entry_fits e) log →
  find_batch id (row <$> log) = Ok (we_local_lsn <$> List.find (λ e, String.eqb (we_batch_id e) id) log).
Proof.
  induction 1 as [|e log [Hl He] _ IH]; [done|]. rewrite fmap_cons. unfold row at 1.
  cbn [find_batch List.find]. rewrite key_to_lsn_be by done. cbn [result_bind].
  unfold decode_at. rewrite decode_enc by done. cbn [result_bind].
  by destruct (String.eqb (we_batch_id e) id).
Qed.

Lemma find_batch_repr W log id :
  repr W log →
  find_batch id (tree_iter W) = Ok (we_local_lsn <$> List.find (λ e, String.eqb (we_batch_id e) id) log).
Proof. intros Hr. rewrite (tree_iter_repr W log) by done. apply find_batch_rows, Hr. Qed.

(** One entry of the log replaced by one of the same LSN. *)
Lemma repr_update W l1 e e' l2 :
  repr W (l1 ++ e :: l2) → we_local_lsn e' = we_local_lsn e → entry_fits e' →
  repr (put_tree (be_bytes 8 (we_local_lsn e)) (enc e') W) (l1 ++ e' :: l2).
Proof.
  intros Hr El Hf. pose proof (key_sorted_nodup compare_bytes _ (row_sorted _ (re_sorted _ _ Hr) (re_entries _ _ Hr))) as Hd.
  split.
  - simpl. rewrite (re_tree _ _ Hr), !fmap_app, !fmap_cons, !list_to_map_app. unfold row at 2 5. simpl.
    rewrite !fmap_app, !fmap_cons in Hd. apply NoDup_app in Hd as (_ & Hd & _).
    rewrite insert_union_r, insert_insert_eq, El; [done|].
    apply not_elem_of_list_to_map. intros Hin. apply (Hd _ Hin). by left.
  - pose proof (re_sorted _ _ Hr) as Hs. revert Hs. clear -El. induction l1 as [|a l1 IH]; simpl; intros Hs.
    + inversion Hs; subst. constructor; [done|]. by rewrite El.
    + inversion Hs as [|? ? Hs' Ha]; subst. constructor; [by apply IH|].
      apply Forall_app in Ha as [Ha1 [Ha Ha2]%Forall_cons]. apply Forall_app. split; [done|].
      constructor; [by rewrite El|done].
  - pose proof (re_entries _ _ Hr) as Hen. apply Forall_app in Hen as [H1 [[He _] H2]%Forall_cons].
    apply Forall_app. split; [done|]. constructor; [|done]. by rewrite El.
Qed.
End refinement.

(** ** Operations *)

Inductive WalOp :=
  | OpAppend (session_id : string) (memories : list MemoryDraft) (memory_ids : list MemoryId)
      (batch_id : string) (draft_keys : list string) (tags : list (list string)) (org user : string)
  | OpIdempotent (session_id : string) (memories : list MemoryDraft) (memory_ids : list MemoryId)
      (batch_id : string) (draft_keys : list string) (tags : list (list string)) (org user : string)
  | OpImportOne (entry : WalEntry)
  | OpImport (entries : list WalEntry) (before_commit : result unit WalError)
  | OpSynced (local_lsn backend_lsn : Z)
  | OpFailed (local_lsn : Z).

Section operations.
Context `{WalJson}.
Implicit Types (W : Wal) (log : list WalEntry).

Definition wal_exec (op : WalOp) (W : Wal) : Wal :=
  match op with
  | OpAppend s ms ids b ks ts o u => (append_batch_full s ms ids b ks ts o u W).1
  | OpIdempotent s ms ids b ks ts o u => (append_batch_full_idempotent s ms ids b ks ts o u W).1
  | OpImportOne e => (append_imported e W).1
  | OpImport es pre => (append_imported_batch_with es pre W).1
  | OpSynced l b => (mark_synced l b W).1
  | OpFailed l => (mark_failed l W).1
  end.

(** A state transition whose record stays below 4 GiB; appends are bounded by the budget. *)
Definition marks_fit (l : Z) (s : WalState) log : Prop :=
  ∀ e js, e ∈ log → we_local_lsn e = l → entry_to_vec (set_state s e) = Ok js →
    Z.of_nat (length js) < 2 ^ 32.
Definition op_fits (op : WalOp) log : Prop :=
  match op with
  | OpSynced l b => marks_fit l (Synced b) log
  | OpFailed l => marks_fit l Failed log
  | _ => True
  end.

(** The specification: a list that grows at its end by the next LSN, and whose entries change
    their state and nothing else. *)
Inductive log_step : list WalEntry → list WalEntry → Prop :=
  | log_append log e : we_local_lsn e = next_of log → log_step log (log ++ [e])
  | log_mark l1 e l2 s : log_step (l1 ++ e :: l2) (l1 ++ set_state s e :: l2).

(** The entries of an import under their new LSNs. *)
Fixpoint keyed (lsn : Z) (entries : list WalEntry) : list WalEntry :=
  match entries with
  | [] => []
  | e :: entries => set_local_lsn lsn e :: keyed (lsn + 1) entries
  end.

Lemma encode_import_acc entries lsn acc rows n :
  acc ≤ 2 ^ 64 - 1 → encode_import lsn entries acc = Ok (rows, n) → acc ≤ n.
Proof.
  revert lsn acc rows n. induction entries as [|e entries IH]; intros lsn acc rows n Ha E;
    cbn [encode_import] in E; [simplify_eq; lia|].
  destruct (lsn <? 2 ^ 64); [|done]. apply result_bind_ok in E as (b & _ & E).
  apply result_bind_ok in E as ([rows' n'] & E & [= <- <-]).
  apply IH in E; unfold u64_saturating_add in *; lia.
Qed.

Lemma encode_import_spec entries lsn acc rows n :
  0 ≤ lsn → 0 ≤ acc → n < 2 ^ 32 → encode_import lsn entries acc = Ok (rows, n) →
  n = acc + total (keyed lsn entries) ∧ rows = row <$> keyed lsn entries ∧
  Forall (λ e, in_range 64 (we_local_lsn e) ∧ entry_fits e) (keyed lsn entries).
Proof.
  revert lsn acc rows n. induction entries as [|e entries IH]; intros lsn acc rows n Hl Ha Hn E;
    cbn [encode_import keyed] in *.
  { simplify_eq. unfold total. simpl. split_and!; [lia|done|constructor]. }
  destruct (Z.ltb_spec lsn (2 ^ 64)) as [Hl64|]; [|done]. unfold encode_entry in E.
  destruct (entry_to_vec (set_local_lsn lsn e)) as [js|] eqn:Ej; [|done]. cbn [result_bind wal_io] in E.
  set (b := WAL_CODEC_VERSION :: _) in E.
  apply result_bind_ok in E as ([rows' n'] & E & [= <- <-]).
  assert (Hlb : length b = (5 + length js)%nat) by (unfold b; simpl; by rewrite length_app, length_be_bytes).
  assert (u64_saturating_add acc (Z.of_nat (length b) + 16) ≤ n') as Hle
    by (by eapply encode_import_acc; [|exact E]; unfold u64_saturating_add; lia).
  unfold u64_saturating_add in Hle.
  assert (Hs : u64_saturating_add acc (Z.of_nat (length b) + 16) = acc + (Z.of_nat (length b) + 16))
    by (unfold u64_saturating_add; lia).
  rewrite Hs in E. apply IH in E as (-> & -> & Hf); [|lia..].
  assert (Hfit : entry_fits (set_local_lsn lsn e)) by (exists js; split; [done|lia]).
  assert (Hb : b = enc (set_local_lsn lsn e)).
  { unfold b, enc. rewrite (encode_entry_fits _ js) by (done || lia). do 3 f_equal.
    unfold as_u32, wrap. apply Z.mod_small. lia. }
  split_and!.
  - rewrite total_cons, <-Hb. lia.
  - rewrite fmap_cons. by rewrite Hb.
  - constructor; [by split|done].
Qed.

Lemma next_of_snoc log e : next_of (log ++ [e]) = we_local_lsn e + 1.
Proof. unfold next_of. by rewrite last_snoc. Qed.

Lemma import_rows W log entries :
  repr W log →
  Forall (λ e, in_range 64 (we_local_lsn e) ∧ entry_fits e) (keyed (next_of log) entries) →
  repr (foldl (λ W '(k, v), put_tree k v W) W (row <$> keyed (next_of log) entries))
    (log ++ keyed (next_of log) entries) ∧
  rtc log_step log (log ++ keyed (next_of log) entries).
Proof.
  revert W log. induction entries as [|e entries IH]; intros W log Hr Hf; cbn [keyed] in *.
  { rewrite app_nil_r. by split. }
  apply Forall_cons in Hf as [[He Hfit] Hf]. rewrite fmap_cons. cbn [foldl].
  set (e' := set_local_lsn (next_of log) e) in *.
  assert (Hr' : repr (put_tree (be_bytes 8 (we_local_lsn e')) (enc e') W) (log ++ [e'])).
  { by apply repr_snoc; [|apply Z.le_refl|..]. }
  destruct (IH _ _ Hr') as [H1 H2]; rewrite next_of_snoc in *; [done|].
  rewrite <-(assoc_L (++)) in H1, H2. split; [exact H1|].
  eapply rtc_l; [by apply (log_append log e')|exact H2].
Qed.

Lemma import_repr W log entries pre :
  repr W log → sane W →
  match append_imported_batch_with entries pre W with
  | (W', Ok l) =>
      wal_max_bytes W' = wal_max_bytes W ∧
      repr W' (log ++ keyed (next_of log) entries) ∧ rtc log_step log (log ++ keyed (next_of log) entries) ∧
      (entries ≠ [] → l = next_of log ∧ total (log ++ keyed (next_of log) entries) ≤ wal_max_bytes W)
  | (W', Err _) => W' = W
  end.
Proof.
  intros Hr Hs. unfold append_imported_batch_with.
  destruct entries as [|e entries]; [rewrite app_nil_r; by split_and!|]. set (es := e :: entries).
  rewrite (next_lsn_repr W log) by done.
  destruct (Z.ltb_spec (next_of log) (2 ^ 64)) as [Hn|]; [|done]. cbn [result_bind].
  destruct (encode_import (next_of log) es 0) as [[batch n]|] eqn:E; [|done]. cbn [result_bind].
  destruct (Z.ltb_spec (wal_max_bytes W) (u64_saturating_add (used_bytes W) n)) as [|Hb]; [done|].
  cbn [negb]. rewrite (used_repr W log) in Hb by done. pose proof (total_nonneg log).
  unfold sane, u64_saturating_add in *.
  destruct pre as [[]|]; [|done]. cbn [result_bind].
  assert (0 ≤ next_of log).
  { unfold next_of. destruct (last log) as [e0|] eqn:El; [|lia].
    pose proof (last_lsn_range W log e0 Hr El) as [? _]. lia. }
  apply encode_import_spec in E as (En & -> & Hf); [|lia..].
  pose proof (total_nonneg (keyed (next_of log) es)).
  destruct (import_rows W log es Hr Hf) as [Hi1 Hi2]. split_and!; [|done|done|].
  - clear. generalize (row <$> keyed (next_of log) es) as rows. intros rows.
    revert W. induction rows as [|[k v] rows IH]; intros W; [done|]. simpl. by rewrite IH.
  - intros _. split; [done|]. rewrite total_app. lia.
Qed.

(** *** Transitions *)

Lemma split_at log l :
  (∃ l1 e l2, log = l1 ++ e :: l2 ∧ we_local_lsn e = l) ∨ ∀ e, e ∈ log → we_local_lsn e ≠ l.
Proof.
  induction log as [|e log [(l1 & e' & l2 & -> & E)|Hno]].
  - right. by intros e ?%elem_of_nil.
  - left. by exists (e :: l1), e', l2.
  - destruct (decide (we_local_lsn e = l)) as [E|Hne]; [left; by exists [], e, log|].
    right. intros e' [->|He]%elem_of_cons; [done|by apply Hno].
Qed.

Lemma lookup_repr W l1 e l2 : repr W (l1 ++ e :: l2) → wal_tree W !! be_bytes 8 (we_local_lsn e) = Some (enc e).
Proof.
  intros Hr. rewrite (re_tree _ _ Hr). apply elem_of_list_to_map_1.
  - by apply (key_sorted_nodup compare_bytes), row_sorted; apply Hr.
  - apply list_elem_of_fmap. exists e. split; [done|set_solver].
Qed.

Lemma lookup_none W log l :
  repr W log → in_range 64 l → (∀ e, e ∈ log → we_local_lsn e ≠ l) → wal_tree W !! be_bytes 8 l = None.
Proof.
  intros Hr Hl Hno. rewrite (re_tree _ _ Hr). apply not_elem_of_list_to_map_1.
  rewrite <-list_fmap_compose. intros (e & E & He)%list_elem_of_fmap. simpl in E.
  apply be_bytes_inj in E; [by apply (Hno e)|done|].
  by apply (proj1 (Forall_forall _ _) (re_entries _ _ Hr)) in He as [? _].
Qed.

Lemma update_repr W l1 e l2 s :
  repr W (l1 ++ e :: l2) → marks_fit (we_local_lsn e) s (l1 ++ e :: l2) →
  match update_state (we_local_lsn e) (set_state s) W with
  | (W', Ok _) => repr W' (l1 ++ set_state s e :: l2) ∧ wal_max_bytes W' = wal_max_bytes W
  | (W', Err _) => W' = W ∧ ∃ x, entry_to_vec (set_state s e) = Err x
  end.
Proof.
  intros Hr Hm. unfold update_state. rewrite (lookup_repr W l1 e l2) by done.
  pose proof (re_entries _ _ Hr) as Hen. apply Forall_app in Hen as [_ [[_ He] _]%Forall_cons].
  rewrite decode_enc by done. cbn [wal_io result_bind]. unfold encode_entry.
  destruct (entry_to_vec (set_state s e)) as [js|x] eqn:Ej; [|cbn [wal_io result_bind]; eauto].
  cbn [wal_io result_bind]. split; [|done].
  assert (Z.of_nat (length js) < 2 ^ 32) as Hl by (apply (Hm e); [set_solver|done|done]).
  assert (WAL_CODEC_VERSION :: be_bytes 4 (as_u32 (Z.of_nat (length js))) ++ js = enc (set_state s e)) as ->.
  { unfold enc. rewrite (encode_entry_fits _ js) by done. do 3 f_equal.
    unfold as_u32, wrap. apply Z.mod_small. lia. }
  apply repr_update; [done|done|by exists js].
Qed.

Lemma mark_repr W log l s :
  repr W log → in_range 64 l → marks_fit l s log →
  ∃ log', repr (update_state l (set_state s) W).1 log' ∧ rtc log_step log log' ∧
          wal_max_bytes (update_state l (set_state s) W).1 = wal_max_bytes W.
Proof.
  intros Hr Hl Hm. destruct (split_at log l) as [(l1 & e & l2 & -> & <-)|Hno].
  - pose proof (update_repr W l1 e l2 s Hr Hm) as Hu. destruct (update_state _ _ _) as [W' [u|x]].
    + destruct Hu as [Hr' Hb]. exists (l1 ++ set_state s e :: l2). split_and!; [done| |done].
      apply rtc_once, log_mark.
    + destruct Hu as [-> _]. by exists (l1 ++ e :: l2).
  - exists log. unfold update_state. by rewrite (lookup_none W log l).
Qed.

(** ** What the log promises *)

Definition op_ok (op : WalOp) log : Prop :=
  op_fits op log ∧
  match op with OpSynced l _ | OpFailed l => in_range 64 l | _ => True end.

Lemma insert_refines W log e :
  repr W log → sane W →
  ∃ log', repr (insert_entry_locked e W).1 log' ∧ rtc log_step log log' ∧
          wal_max_bytes (insert_entry_locked e W).1 = wal_max_bytes W.
Proof.
  intros Hr Hs. pose proof (insert_entry_repr W log e Hr Hs) as Hi.
  destruct (insert_entry_locked e W) as [W' [l|x]]; simpl.
  - destruct Hi as (_ & _ & Hr' & _ & Hb & _). eexists. split_and!; [exact Hr'| |done].
    by apply rtc_once, log_append.
  - subst. by exists log.
Qed.

Lemma exec_refines W log op :
  repr W log → sane W → op_ok op log →
  ∃ log', repr (wal_exec op W) log' ∧ rtc log_step log log' ∧ sane (wal_exec op W).
Proof.
  intros Hr Hs [Hf Hl]. unfold sane. destruct op as [| |e|es pre|l b|l]; simpl.
  - destruct (insert_refines W log (mkWalEntry 0 session_id memories memory_ids Pending batch_id draft_keys org user tags) Hr Hs)
    as (log' & H1 & H2 & H3). exists log'. unfold append_batch_full, insert_entry. rewrite H3. by split_and!.
  - unfold append_batch_full_idempotent. set (e := mkWalEntry _ _ _ _ _ _ _ _ _ _).
    destruct (insert_refines W log e Hr Hs) as (log' & H1 & H2 & H3).
    destruct (if negb (String.eqb batch_id "") then _ else _) as [[l|]|x]; [by exists log| |by exists log].
    exists log'. rewrite H3. by split_and!.
  - destruct (insert_refines W log (set_local_lsn 0 e) Hr Hs) as (log' & H1 & H2 & H3).
    exists log'. unfold append_imported, insert_entry. rewrite H3. by split_and!.
  - pose proof (import_repr W log es pre Hr Hs) as Hi.
    destruct (append_imported_batch_with es pre W) as [W' [l|x]]; simpl.
    * destruct Hi as (Hb & H1 & H2 & _). eexists. by split_and!; [exact H1|exact H2|rewrite Hb].
    * subst. by exists log.
  - destruct (mark_repr W log l (Synced b) Hr Hl Hf) as (log' & H1 & H2 & H3).
    exists log'. unfold mark_synced. rewrite H3. by split_and!.
  - destruct (mark_repr W log l Failed Hr Hl Hf) as (log' & H1 & H2 & H3).
    exists log'. unfold mark_failed. rewrite H3. by split_and!.
Qed.

(** C5: every operation of the log refines the specification: the tree is at all times the encoding
    of one list of entries in LSN order, which grows only at its end and by the next LSN, whose
    entries are never removed or reordered and change nothing but their state, and which every
    read returns. *)
Theorem wal_refines_log W log op :
  repr W log → sane W → op_ok op log →
  (∃ log', repr (wal_exec op W) log' ∧ rtc log_step log log' ∧ sane (wal_exec op W)) ∧
  wal_entries W = Ok log ∧ pending_entries W = Ok (List.filter is_pending log) ∧
  pending_count W = Ok (Z.of_nat (length (List.filter is_pending log))) ∧
  (∀ e, e ∈ log → wal_entry (we_local_lsn e) W = Ok (Some e)) ∧
  (∀ `{Chrono} n, tr_local_lsn <$> wal_tail n W = take n (reverse (we_local_lsn <$> log))).
Proof.
  intros Hr Hs Ho. pose proof (decoded_repr W log Hr) as Hd. split_and!.
  - by apply exec_refines.
  - done.
  - unfold pending_entries. by rewrite Hd.
  - unfold pending_count. by rewrite Hd.
  - intros e (l1 & l2 & ->)%list_elem_of_split. unfold wal_entry.
    rewrite (lookup_repr W l1 e l2) by done. unfold decode_at.
    pose proof (re_entries _ _ Hr) as Hen. apply Forall_app in Hen as [_ [[_ He] _]%Forall_cons].
    by rewrite decode_enc.
  - intros Hch n. unfold wal_tail. rewrite (tree_iter_repr W log) by done.
    rewrite <-!fmap_reverse, <-!fmap_take, <-!list_fmap_compose.
    apply list_fmap_ext. intros i e Hi. simpl. unfold tail_row. simpl.
    assert (e ∈ log) as He.
    { apply list_elem_of_lookup_2 in Hi. apply elem_of_take in Hi as (j & Hi & _).
      apply list_elem_of_lookup_2 in Hi. by rewrite elem_of_reverse in Hi. }
    apply (proj1 (Forall_forall _ _) (re_entries _ _ Hr)) in He as [Hr64 Hfit].
    rewrite decode_enc by done. rewrite length_be_bytes. simpl. by apply from_be_bytes_be.
Qed.

(** *** Exactly once *)

(** One operation on a log that represents some list. *)
Inductive wal_step : Wal → Wal → Prop :=
  | wal_stepped W log op : repr W log → sane W → op_ok op log → wal_step W (wal_exec op W).

Lemma wal_steps_refine W W' log :
  repr W log → sane W → rtc wal_step W W' →
  ∃ log', repr W' log' ∧ sane W' ∧ rtc log_step log log'.
Proof.
  intros Hr Hs Hsteps. revert log Hr Hs. induction Hsteps as [W|W1 W2 W3 Hst _ IH]; intros log Hr Hs; [by exists log|].
  destruct Hst as [W log1 op Hr1 _ Ho].
  assert (log1 = log) as ->.
  { pose proof (decoded_repr W log Hr) as E. rewrite (decoded_repr W log1 Hr1) in E. congruence. }
  destruct (exec_refines W log op Hr Hs Ho) as (log2 & Hr2 & Hst2 & Hs2).
  destruct (IH log2 Hr2 Hs2) as (log3 & Hr3 & Hs3 & Hst3). exists log3. by split_and!; [| |etrans].
Qed.

(** The first LSN of a batch id. *)
Definition lsn_of_batch (id : string) log : option Z :=
  we_local_lsn <$> List.find (λ e, String.eqb (we_batch_id e) id) log.

Lemma find_app {A} (p : A → bool) l k :
  List.find p (l ++ k) = match List.find p l with Some x => Some x | None => List.find p k end.
Proof. induction l as [|x l IH]; simpl; [done|]. by destruct (p x). Qed.

Lemma lsn_of_batch_step id log log' l :
  rtc log_step log log' → lsn_of_batch id log = Some l → lsn_of_batch id log' = Some l.
Proof.
  induction 1 as [|log1 log2 log3 Hs _ IH]; [done|]. intros Hl. apply IH. clear IH.
  unfold lsn_of_batch in *. destruct Hs as [log e _|l1 e l2 s].
  - rewrite find_app. by destruct (List.find _ log).
  - rewrite !find_app in *. destruct (List.find _ l1); [done|]. simpl in *.
    by destruct (String.eqb (we_batch_id e) id).
Qed.

(** A batch id is logged at most once by the idempotent append: once it answered an LSN, every
    later append of that id, whatever it carries and whatever happened to the log in between,
    appends, imports and state transitions, answers the same LSN and leaves the log as it is. *)
Theorem append_idempotent_once W W1 W2 log l session ms ids id keys tags org user
    session' ms' ids' keys' tags' org' user' :
  repr W log → sane W → id ≠ ""%string →
  append_batch_full_idempotent session ms ids id keys tags org user W = (W1, Ok l) →
  rtc wal_step W1 W2 →
  append_batch_full_idempotent session' ms' ids' id keys' tags' org' user' W2 = (W2, Ok l).
Proof.
  intros Hr Hs Hid E Hsteps. unfold append_batch_full_idempotent in *.
  apply String.eqb_neq in Hid. rewrite Hid in *. cbn [negb] in *.
  assert (∃ log1, repr W1 log1 ∧ sane W1 ∧ lsn_of_batch id log1 = Some l) as (log1 & Hr1 & Hs1 & Hl1).
  { rewrite (find_batch_repr W log id Hr) in E. fold (lsn_of_batch id log) in E.
    destruct (lsn_of_batch id log) as [l0|] eqn:El; [simplify_eq; by exists log|].
    set (e := mkWalEntry _ _ _ _ _ _ _ _ _ _) in E.
    pose proof (insert_entry_repr W log e Hr Hs) as Hi. rewrite E in Hi.
    destruct Hi as (-> & _ & Hr' & _ & Hb & _). eexists. split_and!; [exact Hr'|unfold sane; by rewrite Hb|].
    unfold lsn_of_batch in *. rewrite find_app. destruct (List.find _ log); [done|].
    simpl. by rewrite String.eqb_refl. }
  destruct (wal_steps_refine W1 W2 log1 Hr1 Hs1 Hsteps) as (log2 & Hr2 & Hs2 & Hst).
  rewrite (find_batch_repr W2 log2 id Hr2). fold (lsn_of_batch id log2).
  by rewrite (lsn_of_batch_step id log1 log2 l Hst Hl1).
Qed.

(** ** Imports and transitions *)


(** A transition reaches exactly the entry named and changes its state only; a missing entry is
    an error.  Nothing asks for the entry to be pending: a failed entry can be marked synced and
    a synced one failed. *)
Theorem mark_exact W l1 e l2 s :
  repr W (l1 ++ e :: l2) → marks_fit (we_local_lsn e) s (l1 ++ e :: l2) →
  (∃ js, entry_to_vec (set_state s e) = Ok js) →
  let '(W', r) := update_state (we_local_lsn e) (set_state s) W in
  r = Ok tt ∧ wal_entries W' = Ok (l1 ++ set_state s e :: l2) ∧
  (∀ l, in_range 64 l → (∀ e', e' ∈ l1 ++ e :: l2 → we_local_lsn e' ≠ l) →
     ∃ x, update_state l (set_state s) W = (W, Err x)).
Proof.
  intros Hr Hm [js Hj]. pose proof (update_repr W l1 e l2 s Hr Hm) as Hu.
  destruct (update_state (we_local_lsn e) (set_state s) W) as [W' [[]|x]].
  - destruct Hu as [Hr' _]. split_and!; [done|by apply decoded_repr|].
    intros l Hl Hno. unfold update_state. rewrite (lookup_none W _ l Hr Hl Hno). eauto.
  - destruct Hu as [_ [x' Hx]]. congruence.
Qed.

(** An append that succeeds leaves the log at most sixteen bytes over its budget, those of the
    new record's own overhead, which the check leaves out. *)
Theorem append_budget W log e W' l :
  repr W log → sane W → insert_entry e W = (W', Ok l) →
  used_bytes W' ≤ wal_max_bytes W' + 16 ∧
  l = next_of log ∧ wal_entries W' = Ok (log ++ [set_local_lsn l e]).
Proof.
  intros Hr Hs E. pose proof (insert_entry_repr W log e Hr Hs) as Hi.
  unfold insert_entry in E. rewrite E in Hi. destruct Hi as (-> & _ & Hr' & _ & Hb & Ht).
  split_and!; [|done|by apply decoded_repr]. rewrite (used_repr W' _ Hr'), Hb. lia.
Qed.

(** What the codec accepts is exactly a version-1 frame of the declared length around JSON that
    parses, and an encoded entry is one; no frame with another length is read. *)
Theorem codec_exact :
  (∀ e js, entry_to_vec e = Ok js → Z.of_nat (length js) < 2 ^ 32 →
     ∃ bytes, encode_entry e = Ok bytes ∧ decode_entry bytes = Ok e) ∧
  (∀ bytes e, decode_entry bytes = Ok e →
     ∃ h js, bytes = WAL_CODEC_VERSION :: h ++ js ∧ length h = 4%nat ∧
       from_be_bytes h = Z.of_nat (length js) ∧ entry_from_slice js = Ok e).
Proof.
  split.
  - intros e js E Hl. eexists. split; [by apply encode_entry_fits|by apply decode_encode_entry].
  - intros bytes e. unfold decode_entry. case_bool_decide as Hv; [|done]. cbn [negb].
    destruct (Nat.ltb_spec (length bytes) 5); [done|].
    destruct (Z.eqb_spec (Z.of_nat (length (drop 5 bytes))) (from_be_bytes (take 4 (drop 1 bytes)))) as [Hl|];
      [|done]. cbn [negb]. intros Hj.
    destruct bytes as [|v bytes]; [done|]. simpl in Hv. injection Hv as ->.
    exists (take 4 bytes), (drop 4 bytes). simpl in *. rewrite drop_0 in *.
    split_and!; [by rewrite take_drop|rewrite length_take; lia|done|done].
Qed.
End operations.
