(* ===== verification/Snapshot.v ===== *)
(** * A resident graph

    [GraphSnapshot] of [crates/exocortex-cache/src/lib.rs]: the typed graph of one organization
    with its indexes, the upsert and removal of rows, and the build from a storage's streams.

    [petgraph::StableGraph] and [lasso::ThreadedRodeo] are interfaces with the behaviour their
    documentation gives; a [DashMap] is a map and a [RoaringBitmap] a set of 32-bit numbers.  The
    interner is shared by every snapshot cloned from another: it lives in a heap, and a snapshot
    holds its address.  Sizes are [usize]s whose subtractions saturate as the code writes them. *)

From S2P Require Import Prelude Ids Kernel Packs Ontology StorageTypes.

(** ** Libraries *)

(** [petgraph::Direction]. *)
Inductive EdgeDirection := Outgoing | Incoming.
#[global] Instance EdgeDirection_eq_dec : EqDecision EdgeDirection.
Proof. solve_decision. Defined.

(** The end of an edge that [edges_directed] looks at. *)
Definition near_end (d : EdgeDirection) {E} (e : nat * nat * E) : nat :=
  match d with Outgoing => e.1.1 | Incoming => e.1.2 end.
Definition far_end (d : EdgeDirection) {E} (e : nat * nat * E) : nat :=
  match d with Outgoing => e.1.2 | Incoming => e.1.1 end.

(** [petgraph::StableGraph<N, E>]: indices stay valid until their element is removed, a fresh
    index is one not in use, removing a node removes its edges, and nodes are enumerated in a
    fixed order. *)
Class StableGraph (N E : Type) := {
  sgraph : Type;
  sg_new : sgraph;
  sg_nodes : sgraph → gmap nat N;
  sg_edges : sgraph → gmap nat (nat * nat * E);
  add_node : N → sgraph → sgraph * nat;
  set_node_weight : nat → N → sgraph → sgraph;
  remove_node : nat → sgraph → sgraph;
  add_edge : nat → nat → E → sgraph → sgraph * nat;
  set_edge_weight : nat → E → sgraph → sgraph;
  remove_edge : nat → sgraph → sgraph;
  node_indices : sgraph → list nat;
  edges_directed : nat → EdgeDirection → sgraph → list (nat * (nat * nat * E));
  sg_new_nodes : sg_nodes sg_new = ∅;
  sg_new_edges : sg_edges sg_new = ∅;
  add_node_fresh n g : sg_nodes g !! (add_node n g).2 = None;
  add_node_nodes n g : sg_nodes (add_node n g).1 = <[(add_node n g).2 := n]> (sg_nodes g);
  add_node_edges n g : sg_edges (add_node n g).1 = sg_edges g;
  set_node_nodes ix n g :
    is_Some (sg_nodes g !! ix) → sg_nodes (set_node_weight ix n g) = <[ix := n]> (sg_nodes g);
  set_node_edges ix n g : sg_edges (set_node_weight ix n g) = sg_edges g;
  remove_node_nodes ix g : sg_nodes (remove_node ix g) = delete ix (sg_nodes g);
  remove_node_edges ix g :
    sg_edges (remove_node ix g) = filter (λ e, e.2.1.1 ≠ ix ∧ e.2.1.2 ≠ ix) (sg_edges g);
  add_edge_fresh a b w g : sg_edges g !! (add_edge a b w g).2 = None;
  add_edge_edges a b w g :
    is_Some (sg_nodes g !! a) → is_Some (sg_nodes g !! b) →
    sg_edges (add_edge a b w g).1 = <[(add_edge a b w g).2 := (a, b, w)]> (sg_edges g);
  add_edge_nodes a b w g : sg_nodes (add_edge a b w g).1 = sg_nodes g;
  set_edge_edges i a b v w g :
    sg_edges g !! i = Some (a, b, v) →
    sg_edges (set_edge_weight i w g) = <[i := (a, b, w)]> (sg_edges g);
  set_edge_nodes i w g : sg_nodes (set_edge_weight i w g) = sg_nodes g;
  remove_edge_edges i g : sg_edges (remove_edge i g) = delete i (sg_edges g);
  remove_edge_nodes i g : sg_nodes (remove_edge i g) = sg_nodes g;
  node_indices_perm g : node_indices g ≡ₚ (map_to_list (sg_nodes g)).*1;
  edges_directed_perm ix d g :
    edges_directed ix d g ≡ₚ filter (λ e, near_end d e.2 = ix) (map_to_list (sg_edges g));
}.

(** [lasso::ThreadedRodeo]: an append-only interner. *)
Class Interner := {
  rodeo : Type;
  rodeo_new : rodeo;
  rodeo_get : string → rodeo → option Z;
  get_or_intern : string → rodeo → rodeo * Z;
  rodeo_new_get t : rodeo_get t rodeo_new = None;
  intern_get t r : rodeo_get t (get_or_intern t r).1 = Some (get_or_intern t r).2;
  intern_other t t' r : t ≠ t' → rodeo_get t' (get_or_intern t r).1 = rodeo_get t' r;
  intern_known t r k : rodeo_get t r = Some k → (get_or_intern t r).2 = k;
  rodeo_get_inj t t' r k : rodeo_get t r = Some k → rodeo_get t' r = Some k → t = t';
}.

(** [str::to_lowercase], a table of the Unicode standard. *)
Class Unicode := { str_to_lowercase : list Z → list Z }.

(** ** The tag index

    [by_tag] is keyed by interner handles.  What the snapshot's operations do with it is an
    interface over a heap, so that the same operations also run over tags themselves. *)
Class TagIndex (H T : Type) := {
  tags_new : H → H * T;
  tag_insert : string → Z → T → H → H * T;
  tag_remove : string → Z → T → H → T;
}.

(** [map.entry(k).or_default().insert(x)] and its converse, which drops an empty set. *)
Definition set_entry_insert {K} `{Countable K} (k : K) (x : Z) (m : gmap K (gset Z)) : gmap K (gset Z) :=
  <[k := {[x]} ∪ default ∅ (m !! k)]> m.
Definition set_entry_remove {K} `{Countable K} (k : K) (x : Z) (m : gmap K (gset Z)) : gmap K (gset Z) :=
  match m !! k with
  | Some b => if decide (b ∖ {[x]} = ∅) then delete k m else <[k := b ∖ {[x]}]> m
  | None => m
  end.

(** The code's index: the address of its interner and the sets of its handles. *)
Record HandleIndex := mkHandleIndex {
  hi_interner : nat;
  hi_by_tag : gmap Z (gset Z);
}.

Definition heap_rodeo `{Interner} (h : list rodeo) (a : nat) : rodeo := default rodeo_new (h !! a).

#[export] Instance handle_index `{Interner} : TagIndex (list rodeo) HandleIndex := {|
  tags_new h := (h ++ [rodeo_new], mkHandleIndex (length h) ∅);
  tag_insert t x i h :=
    let '(r, spur) := get_or_intern t (heap_rodeo h (hi_interner i)) in
    (<[hi_interner i := r]> h,
     mkHandleIndex (hi_interner i) (set_entry_insert spur x (hi_by_tag i)));
  tag_remove t x i h :=
    match rodeo_get t (heap_rodeo h (hi_interner i)) with
    | Some spur => mkHandleIndex (hi_interner i) (set_entry_remove spur x (hi_by_tag i))
    | None => i
    end
|}.

(** The same index keyed by tags. *)
#[export] Instance plain_index : TagIndex unit (gmap string (gset Z)) := {|
  tags_new h := (h, ∅);
  tag_insert t x m h := (h, set_entry_insert t x m);
  tag_remove t x m h := set_entry_remove t x m
|}.

(** ** The snapshot *)

Section operations.
Context {H T : Type} `{TagIndex H T} `{SG : StableGraph Memory Relationship} `{Unicode}.

(* SRC crates/exocortex-cache/src/lib.rs 27-66 GraphSnapshot *)
Record GraphSnapshot := mkSnapshot {
  petgraph : sgraph (N:=Memory) (E:=Relationship);
  by_id : gmap MemoryId nat;
  by_entity : gmap EntityId (list MemoryId);
  by_type : gmap Z (gset Z);
  by_tag : T;
  search_arena : list Z;
  search_offsets : list Z;
  search_nodes : list nat;
  search_live_bytes : Z;
  by_rel_id : gmap RelationshipId nat;
  last_local_lsn : Z;
  last_backend_lsn : Z;
  built_at : DateTime;
  est_bytes : Z;
}.

Definition set_graph g (s : GraphSnapshot) : GraphSnapshot :=
  let '(mkSnapshot _ a b c d e f h i j k l m n) := s in mkSnapshot g a b c d e f h i j k l m n.
Definition set_by_id x (s : GraphSnapshot) : GraphSnapshot :=
  let '(mkSnapshot g _ b c d e f h i j k l m n) := s in mkSnapshot g x b c d e f h i j k l m n.
Definition set_indexes x y z (s : GraphSnapshot) : GraphSnapshot :=
  let '(mkSnapshot g a _ _ _ e f h i j k l m n) := s in mkSnapshot g a x y z e f h i j k l m n.
Definition set_search x y z w (s : GraphSnapshot) : GraphSnapshot :=
  let '(mkSnapshot g a b c d _ _ _ _ j k l m n) := s in mkSnapshot g a b c d x y z w j k l m n.
Definition set_by_tag x (s : GraphSnapshot) : GraphSnapshot :=
  let '(mkSnapshot g a b c _ e f h i j k l m n) := s in mkSnapshot g a b c x e f h i j k l m n.
Definition set_by_rel_id x (s : GraphSnapshot) : GraphSnapshot :=
  let '(mkSnapshot g a b c d e f h i _ k l m n) := s in mkSnapshot g a b c d e f h i x k l m n.
Definition set_local_lsn x (s : GraphSnapshot) : GraphSnapshot :=
  let '(mkSnapshot g a b c d e f h i j _ l m n) := s in mkSnapshot g a b c d e f h i j x l m n.
Definition set_backend_lsn x (s : GraphSnapshot) : GraphSnapshot :=
  let '(mkSnapshot g a b c d e f h i j k _ m n) := s in mkSnapshot g a b c d e f h i j k x m n.
Definition set_built_at x (s : GraphSnapshot) : GraphSnapshot :=
  let '(mkSnapshot g a b c d e f h i j k l _ n) := s in mkSnapshot g a b c d e f h i j k l x n.
Definition set_est_bytes x (s : GraphSnapshot) : GraphSnapshot :=
  let '(mkSnapshot g a b c d e f h i j k l m _) := s in mkSnapshot g a b c d e f h i j k l m x.

Definition usize_saturating_sub (x y : Z) : Z := Z.max 0 (x - y).

(* SRC crates/exocortex-cache/src/lib.rs 95-97 lsb32 *)
Definition lsb32 (id : MemoryId) : Z :=
  from_be_bytes (reverse (take 4 (drop 12 (mid_bytes id)))).

(* SRC crates/exocortex-cache/src/lib.rs 100-119 GraphSnapshot::empty *)
Definition empty (now : DateTime) (h : H) : H * GraphSnapshot :=
  let '(h, tags) := tags_new h in
  (h, mkSnapshot sg_new ∅ ∅ ∅ tags [] [] [] 0 ∅ 0 0 now 0).

(* SRC crates/exocortex-cache/src/lib.rs 121-123 GraphSnapshot::estimate *)
Definition estimate (m : Memory) : Z :=
  512 + Z.of_nat (length (as_bytes (title m))) + Z.of_nat (length (as_bytes (content m))) +
  foldr (λ t acc, Z.of_nat (length (as_bytes t)) + 8 + acc) 0 (tags m).

(* SRC crates/exocortex-cache/src/lib.rs 125-134 GraphSnapshot::search_key *)
Definition search_key (m : Memory) : list Z :=
  str_to_lowercase (as_bytes (title m)) ++
  (tags m ≫= λ t, 32 :: str_to_lowercase (as_bytes t)).

(* SRC crates/exocortex-cache/src/lib.rs 92-93 NL *)
Definition NL : Z := 10.

(** [search_key.len() + NL.len_utf8()]. *)
Definition key_bytes (m : Memory) : Z := Z.of_nat (length (search_key m)) + 1.

(* SRC crates/exocortex-cache/src/lib.rs 82-90 blank_search_key_range *)
Definition blank_search_key_range (s : list Z) (from to : nat) : list Z :=
  take from s ++ replicate (to - from) 32 ++ drop to s.

(* SRC crates/exocortex-cache/src/lib.rs 163-181 GraphSnapshot::index_memory *)
Definition index_memory (memory : Memory) (ix : nat) (s : GraphSnapshot) (h : H)
    : H * GraphSnapshot :=
  let ent := foldl (λ be entity, entry_push entity (m_id memory) be) (by_entity s)
               (entities (context memory)) in
  let typ := set_entry_insert (memory_type memory) (lsb32 (m_id memory)) (by_type s) in
  let '(h, tg) := foldl (λ '(h, i) t, tag_insert t (lsb32 (m_id memory)) i h)
                    (h, by_tag s) (tags memory) in
  let s := set_indexes ent typ tg s in
  let key := search_key memory in
  (h, set_search (search_arena s ++ key ++ [NL])
        (search_offsets s ++ [as_u32 (Z.of_nat (length (search_arena s)))])
        (search_nodes s ++ [ix]) (search_live_bytes s + key_bytes memory) s).

(** [ids.retain(|id| id != memory.id)], dropping an empty entry. *)
Definition entity_remove (id : MemoryId) (be : gmap EntityId (list MemoryId)) (entity : EntityId)
    : gmap EntityId (list MemoryId) :=
  match be !! entity with
  | Some ids =>
      let ids := List.filter (λ i, negb (bool_decide (i = id))) ids in
      match ids with [] => delete entity be | _ => <[entity := ids]> be end
  | None => be
  end.

(** One turn of the loop over the slots: blank the slot's range when it belongs to the node. *)
Definition blank_slot (offsets : list Z) (ix : nat) (arena : list Z) (slot node : nat) : list Z :=
  if negb (bool_decide (node = ix)) then arena
  else
    let from := default 0 (offsets !! slot) in
    let to := default (as_u32 (Z.of_nat (length arena))) (offsets !! (slot + 1)%nat) in
    if (from <? to) && (to <=? Z.of_nat (length arena))
    then blank_search_key_range arena (Z.to_nat from) (Z.to_nat to) else arena.

Fixpoint blank_slots (offsets : list Z) (ix : nat) (slot : nat) (nodes : list nat) (arena : list Z)
    : list Z :=
  match nodes with
  | [] => arena
  | node :: nodes => blank_slots offsets ix (S slot) nodes (blank_slot offsets ix arena slot node)
  end.

(* SRC crates/exocortex-cache/src/lib.rs 183-234 GraphSnapshot::remove_memory_indexes *)
Definition remove_memory_indexes (memory : Memory) (ix : nat) (s : GraphSnapshot) (h : H)
    : GraphSnapshot :=
  let ent := foldl (entity_remove (m_id memory)) (by_entity s) (entities (context memory)) in
  let typ := set_entry_remove (memory_type memory) (lsb32 (m_id memory)) (by_type s) in
  let tg := foldl (λ i t, tag_remove t (lsb32 (m_id memory)) i h) (by_tag s) (tags memory) in
  let s := set_indexes ent typ tg s in
  let live := usize_saturating_sub (search_live_bytes s) (key_bytes memory) in
  set_search (blank_slots (search_offsets s) ix 0 (search_nodes s) (search_arena s))
    (search_offsets s) (search_nodes s) live s.

(* SRC crates/exocortex-cache/src/lib.rs 260-260 MIN_COMPACTION_GARBAGE *)
Definition MIN_COMPACTION_GARBAGE : Z := 1024.

(** The live rows in the order of their nodes. *)
Definition node_rows (g : sgraph (N:=Memory) (E:=Relationship)) : list (nat * Memory) :=
  omap (λ ix, (ix,.) <$> sg_nodes g !! ix) (node_indices g).
(** [node_weights()]. *)
Definition node_weights (g : sgraph (N:=Memory) (E:=Relationship)) : list Memory :=
  (node_rows g).*2.

(* SRC crates/exocortex-cache/src/lib.rs 259-298 GraphSnapshot::compact_search_index_if_needed *)
Definition compact_search_index_if_needed (s : GraphSnapshot) (h : H) : H * GraphSnapshot :=
  let len := Z.of_nat (length (search_arena s)) in
  let garbage := usize_saturating_sub len (search_live_bytes s) in
  if (garbage <? MIN_COMPACTION_GARBAGE) || (len <=? search_live_bytes s * 2) then (h, s)
  else
    let '(arena, offsets, nodes) := foldl (λ '(arena, offsets, nodes) '(ix, memory),
        (arena ++ search_key memory ++ [NL],
         offsets ++ [as_u32 (Z.of_nat (length arena))], nodes ++ [ix]))
      (([] : list Z), ([] : list Z), ([] : list nat)) (node_rows (petgraph s)) in
    let '(h, tg) := foldl (λ '(h, i) memory,
        foldl (λ '(h, i) t, tag_insert t (lsb32 (m_id memory)) i h) (h, i) (tags memory))
      (tags_new h) (node_weights (petgraph s)) in
    (h, set_by_tag tg (set_search arena offsets nodes (search_live_bytes s) s)).

(* SRC crates/exocortex-cache/src/lib.rs 136-161 GraphSnapshot::insert_memory *)
Definition insert_memory (m : Memory) (s : GraphSnapshot) (h : H) : H * GraphSnapshot * nat :=
  match by_id s !! m_id m with
  | Some ix =>
      let s := match sg_nodes (petgraph s) !! ix with
               | Some prior =>
                   let s := remove_memory_indexes prior ix s h in
                   set_est_bytes (usize_saturating_sub (est_bytes s) (estimate prior)) s
               | None => s
               end in
      let s := set_est_bytes (est_bytes s + estimate m) s in
      let '(h, s) := index_memory m ix s h in
      let s := set_graph (set_node_weight ix m (petgraph s)) s in
      let '(h, s) := compact_search_index_if_needed s h in
      (h, s, ix)
  | None =>
      let s := set_est_bytes (est_bytes s + estimate m) s in
      let '(g, ix) := add_node m (petgraph s) in
      let s := set_graph g s in
      let '(h, s) := index_memory m ix s h in
      let s := set_by_id (<[m_id m := ix]> (by_id s)) s in
      let '(h, s) := compact_search_index_if_needed s h in
      (h, s, ix)
  end.

(** The identities of the edges at a node. *)
Definition incident_ids (ix : nat) (g : sgraph (N:=Memory) (E:=Relationship)) : gset RelationshipId :=
  list_to_set ((λ e, r_id e.2.2) <$> (edges_directed ix Outgoing g ++ edges_directed ix Incoming g)).

(* SRC crates/exocortex-cache/src/lib.rs 236-257 GraphSnapshot::remove_memory *)
Definition remove_memory (id : MemoryId) (s : GraphSnapshot) (h : H) : GraphSnapshot :=
  match by_id s !! id with
  | None => s
  | Some ix =>
      let s := set_by_id (delete id (by_id s)) s in
      let s := match sg_nodes (petgraph s) !! ix with
               | Some m =>
                   let s := set_est_bytes (usize_saturating_sub (est_bytes s) (estimate m)) s in
                   remove_memory_indexes m ix s h
               | None => s
               end in
      let s := foldl (λ s relationship_id,
          set_est_bytes (usize_saturating_sub (est_bytes s) 256)
            (set_by_rel_id (delete relationship_id (by_rel_id s)) s))
        s (elements (incident_ids ix (petgraph s))) in
      set_graph (remove_node ix (petgraph s)) s
  end.

(* SRC crates/exocortex-cache/src/lib.rs 300-317 GraphSnapshot::insert_relationship *)
Definition insert_relationship (r : Relationship) (s : GraphSnapshot) : GraphSnapshot :=
  match by_id s !! r_from r, by_id s !! r_to r with
  | Some a, Some b =>
      let add (s : GraphSnapshot) :=
        let s := set_est_bytes (est_bytes s + 256) s in
        let '(g, eid) := add_edge a b r (petgraph s) in
        let s := set_graph g s in
        set_by_rel_id (<[r_id r := eid]> (by_rel_id s)) s in
      match by_rel_id s !! r_id r with
      | Some existing =>
          match sg_edges (petgraph s) !! existing with
          | Some _ =>
              let s := set_est_bytes (usize_saturating_sub (est_bytes s) 256 + 256) s in
              set_graph (set_edge_weight existing r (petgraph s)) s
          | None => add s
          end
      | None => add s
      end
  | _, _ => s
  end.

(* SRC crates/exocortex-cache/src/lib.rs 319-325 GraphSnapshot::remove_relationship *)
Definition remove_relationship (id : RelationshipId) (s : GraphSnapshot) : GraphSnapshot :=
  match by_rel_id s !! id with
  | None => s
  | Some eid =>
      let s := set_by_rel_id (delete id (by_rel_id s)) s in
      match sg_edges (petgraph s) !! eid with
      | Some _ =>
          let s := set_graph (remove_edge eid (petgraph s)) s in
          set_est_bytes (usize_saturating_sub (est_bytes s) 256) s
      | None => s
      end
  end.

(* SRC crates/exocortex-cache/src/lib.rs 327-330 GraphSnapshot::visible *)
Definition visible (m : Memory) (vc : VisibilityContext) : bool := memory_visible m vc.

(* SRC crates/exocortex-cache/src/lib.rs 332-338 GraphSnapshot::view *)
Definition view (vc : VisibilityContext) (s : GraphSnapshot) : list Memory :=
  List.filter (λ m, visible m vc) (node_weights (petgraph s)).

(** [invalidated_by.is_none() && valid_until.is_none_or(|v| v > now)]. *)
Definition live_row {A} (invalidated_by : option A) (valid_until : option DateTime) (now : DateTime)
    : bool :=
  match invalidated_by with Some _ => false | None => true end &&
  match valid_until with Some v => now <? v | None => true end.

Fixpoint stream_memories (now : DateTime) (ms : list (result Memory StorageError))
    (s : GraphSnapshot) (h : H) : result (H * GraphSnapshot) StorageError :=
  match ms with
  | [] => Ok (h, s)
  | row :: ms =>
      let? m := row in
      if live_row (m_invalidated_by m) (m_valid_until m) now
      then let '(h, s, _) := insert_memory m s h in stream_memories now ms s h
      else stream_memories now ms s h
  end.

Fixpoint stream_relationships (now : DateTime) (rs : list (result Relationship StorageError))
    (frontier : Z) (s : GraphSnapshot) : result (GraphSnapshot * Z) StorageError :=
  match rs with
  | [] => Ok (s, frontier)
  | row :: rs =>
      let? r := row in
      let frontier := Z.max frontier (lsn_value (r_lsn r)) in
      if live_row (r_invalidated_by r) (r_valid_until r) now
      then stream_relationships now rs frontier (insert_relationship r s)
      else stream_relationships now rs frontier s
  end.

(* SRC crates/exocortex-cache/src/lib.rs 366-396 GraphSnapshot::from_streams *)
Definition from_streams (now : DateTime) (ms : list (result Memory StorageError))
    (rs : list (result Relationship StorageError)) (h : H)
    : result (H * GraphSnapshot) StorageError :=
  let '(h, snap) := empty now h in
  let? (h, snap) := stream_memories now ms snap h in
  let? (snap, frontier) := stream_relationships now rs 0 snap in
  let frontier := foldl (λ f m, Z.max f (lsn_value (m_lsn m))) frontier
                    (node_weights (petgraph snap)) in
  Ok (h, set_backend_lsn frontier snap).

(* SRC crates/exocortex-cache/src/lib.rs 421-429 SnapshotDelta *)
Inductive SnapshotDelta :=
  | UpsertMemory (memory : Memory)
  | DeleteMemory (id : MemoryId)
  | UpsertRelationship (relationship : Relationship)
  | DeleteRelationship (id : RelationshipId)
  | AdvanceBackendLsn (lsn : Z)
  | AdvanceLocalLsn (lsn : Z).

(* SRC crates/exocortex-cache/src/lib.rs 432-449 SnapshotDelta::apply *)
Definition apply (d : SnapshotDelta) (snapshot : GraphSnapshot) (h : H) : H * GraphSnapshot :=
  match d with
  | UpsertMemory memory => let '(h, s, _) := insert_memory memory snapshot h in (h, s)
  | DeleteMemory id => (h, remove_memory id snapshot h)
  | UpsertRelationship relationship => (h, insert_relationship relationship snapshot)
  | DeleteRelationship id => (h, remove_relationship id snapshot)
  | AdvanceBackendLsn lsn =>
      (h, set_backend_lsn (Z.max (last_backend_lsn snapshot) lsn) snapshot)
  | AdvanceLocalLsn lsn => (h, set_local_lsn (Z.max (last_local_lsn snapshot) lsn) snapshot)
  end.

(** [for operation in &delta { operation.apply(&mut snapshot); }]. *)
Definition apply_all (delta : list SnapshotDelta) (snapshot : GraphSnapshot) (h : H)
    : H * GraphSnapshot :=
  foldl (λ '(h, s) d, apply d s h) (h, snapshot) delta.

(* SRC crates/exocortex-cache/src/lib.rs 1494-1514 clone_snapshot *)
Definition clone_snapshot (now : DateTime) (src : GraphSnapshot) : GraphSnapshot :=
  set_built_at now src.
End operations.
Arguments GraphSnapshot T {SG}.

(** ** Rows and links

    The part of a snapshot its readers see: the rows by identity, and the links by identity with
    the memories they are attached to.  [core] is what the two depend on; the indexes play no part
    in them. *)

Section rows.
Context {H T : Type} `{TagIndex H T} `{SG : StableGraph Memory Relationship} `{Unicode}.
Implicit Types (s : GraphSnapshot T) (h : H) (m : Memory) (r : Relationship).

Definition core s :=
  (petgraph s, by_id s, by_rel_id s, est_bytes s, last_local_lsn s, last_backend_lsn s).

Implicit Types (g : sgraph (N:=Memory) (E:=Relationship)) (ids : gmap MemoryId nat)
  (rels : gmap RelationshipId nat).

(** An edge with the identities of its ends. *)
Definition attached g (e : nat) : option (MemoryId * MemoryId * Relationship) :=
  '(a, b, r) ← sg_edges g !! e;
  f ← sg_nodes g !! a; t ← sg_nodes g !! b;
  Some (m_id f, m_id t, r).

Definition rows_of g ids : gmap MemoryId Memory := omap (λ ix, sg_nodes g !! ix) ids.
Definition links_of g rels : gmap RelationshipId (MemoryId * MemoryId * Relationship) :=
  omap (attached g) rels.
Definition row_table s := rows_of (petgraph s) (by_id s).
Definition link_table s := links_of (petgraph s) (by_rel_id s).

(** The indexes by identity are exact, no edge dangles, and the footprint is the sum of the
    footprints of the rows and 256 for each edge. *)
Record graph_index_ok g ids rels (bytes : Z) : Prop := {
  ok_ids id ix : ids !! id = Some ix ↔ ∃ m, sg_nodes g !! ix = Some m ∧ m_id m = id;
  ok_rels rid e : rels !! rid = Some e ↔ ∃ a b r, sg_edges g !! e = Some (a, b, r) ∧ r_id r = rid;
  ok_ends e a b r :
    sg_edges g !! e = Some (a, b, r) → is_Some (sg_nodes g !! a) ∧ is_Some (sg_nodes g !! b);
  ok_bytes : bytes = map_sum estimate (sg_nodes g) + map_sum (λ _, 256) (sg_edges g);
}.
Definition snap_ok s : Prop := graph_index_ok (petgraph s) (by_id s) (by_rel_id s) (est_bytes s).

Lemma index_memory_core m ix s h : core (index_memory m ix s h).2 = core s.
Proof. unfold index_memory. destruct (foldl _ _ (tags m)). by destruct s. Qed.
Lemma remove_memory_indexes_core m ix s h : core (remove_memory_indexes m ix s h) = core s.
Proof. by destruct s. Qed.
Lemma compact_core s h : core (compact_search_index_if_needed s h).2 = core s.
Proof.
  unfold compact_search_index_if_needed. case_match; [done|].
  destruct (foldl _ _ (node_rows _)) as [[??]?], (foldl _ _ (node_weights _)). by destruct s.
Qed.

(** The effect of an upsert on a resident identity, and on a new one. *)
Lemma insert_memory_core m s h :
  core (insert_memory m s h).1.2 =
  match by_id s !! m_id m with
  | Some ix =>
      (set_node_weight ix m (petgraph s), by_id s, by_rel_id s,
       match sg_nodes (petgraph s) !! ix with
       | Some prior => usize_saturating_sub (est_bytes s) (estimate prior)
       | None => est_bytes s end + estimate m,
       last_local_lsn s, last_backend_lsn s)
  | None =>
      ((add_node m (petgraph s)).1, <[m_id m := (add_node m (petgraph s)).2]> (by_id s),
       by_rel_id s, est_bytes s + estimate m, last_local_lsn s, last_backend_lsn s)
  end.
Proof.
  unfold insert_memory. destruct (by_id s !! m_id m) as [ix|].
  - set (s1 := match sg_nodes (petgraph s) !! ix with Some _ => _ | None => s end).
    assert (E1 : core s1 = (petgraph s, by_id s, by_rel_id s,
       match sg_nodes (petgraph s) !! ix with
       | Some prior => usize_saturating_sub (est_bytes s) (estimate prior)
       | None => est_bytes s end, last_local_lsn s, last_backend_lsn s)).
    { subst s1. destruct (sg_nodes (petgraph s) !! ix) as [prior|]; [|done]. by destruct s. }
    clearbody s1. set (s2 := set_est_bytes _ s1).
    pose proof (index_memory_core m ix s2 h) as E2. destruct (index_memory m ix s2 h) as [h3 s3].
    set (s4 := set_graph _ s3). pose proof (compact_core s4 h3) as E4.
    destruct (compact_search_index_if_needed s4 h3) as [h5 s5]. cbn [fst snd] in *.
    rewrite E4. subst s4 s2. destruct s1, s3. injection E1 as -> -> -> -> -> ->.
    injection E2 as -> -> -> -> -> ->. done.
  - destruct (add_node m (petgraph _)) as [g ix] eqn:Ea.
    assert (petgraph (set_est_bytes (est_bytes s + estimate m) s) = petgraph s) as Ep by by destruct s.
    rewrite Ep in Ea. rewrite Ea. clear Ep.
    set (s2 := set_graph g _). pose proof (index_memory_core m ix s2 h) as E2.
    destruct (index_memory m ix s2 h) as [h3 s3].
    set (s4 := set_by_id _ s3). pose proof (compact_core s4 h3) as E4.
    destruct (compact_search_index_if_needed s4 h3) as [h5 s5]. cbn [fst snd] in *.
    rewrite E4. subst s4 s2. destruct s, s3. injection E2 as -> -> -> -> -> ->. done.
Qed.

Lemma estimate_nonneg m : 0 ≤ estimate m.
Proof. unfold estimate. induction (tags m) as [|t l IH]; simpl; lia. Qed.

(** Attachments see a node only through its identity. *)
Lemma attached_nodes g g' e :
  sg_edges g' !! e = sg_edges g !! e →
  (∀ ix m, sg_nodes g !! ix = Some m → ∃ m', sg_nodes g' !! ix = Some m' ∧ m_id m' = m_id m) →
  (∀ a b r, sg_edges g !! e = Some (a, b, r) →
     is_Some (sg_nodes g !! a) ∧ is_Some (sg_nodes g !! b)) →
  attached g' e = attached g e.
Proof.
  intros He Hn Hends. unfold attached. rewrite He. destruct (sg_edges g !! e) as [[[a b] r]|]; [|done].
  destruct (Hends a b r eq_refl) as [[ma Ha] [mb Hb]]. simpl. rewrite Ha, Hb. simpl.
  apply Hn in Ha as (ma' & -> & Ea), Hb as (mb' & -> & Eb). simpl. by rewrite Ea, Eb.
Qed.

Lemma links_nodes g g' ids rels bytes :
  graph_index_ok g ids rels bytes → sg_edges g' = sg_edges g →
  (∀ ix m, sg_nodes g !! ix = Some m → ∃ m', sg_nodes g' !! ix = Some m' ∧ m_id m' = m_id m) →
  links_of g' rels = links_of g rels.
Proof.
  intros Hok He Hn. apply map_eq. intros rid. unfold links_of. rewrite !lookup_omap.
  destruct (rels !! rid) as [e|]; [|done]. simpl.
  apply attached_nodes; [by rewrite He|done|]. intros a b r. by eapply ok_ends.
Qed.

(** Upserting a row whose identity is resident. *)
Lemma replace_ok g ids rels bytes m ix prior :
  graph_index_ok g ids rels bytes → ids !! m_id m = Some ix → sg_nodes g !! ix = Some prior →
  let g' := set_node_weight ix m g in
  graph_index_ok g' ids rels (usize_saturating_sub bytes (estimate prior) + estimate m) ∧
  rows_of g' ids = <[m_id m := m]> (rows_of g ids) ∧ links_of g' rels = links_of g rels.
Proof.
  intros Hok Hid Hprior g'. pose proof Hok as [Hids Hrels Hends Hbytes].
  assert (Hp : m_id prior = m_id m) by (apply Hids in Hid as (? & ? & ?); naive_solver).
  assert (Hn : sg_nodes g' = <[ix := m]> (sg_nodes g)) by (by apply set_node_nodes; rewrite Hprior).
  assert (He : sg_edges g' = sg_edges g) by apply set_node_edges.
  assert (Hids' : ∀ ix0 m0, sg_nodes g !! ix0 = Some m0 →
            ∃ m', sg_nodes g' !! ix0 = Some m' ∧ m_id m' = m_id m0).
  { intros ix0 m0 Hm0. rewrite Hn. destruct (decide (ix0 = ix)) as [->|].
    - rewrite lookup_insert_eq. naive_solver.
    - rewrite lookup_insert_ne by done. eauto. }
  split_and!; [split|..].
  - intros id ix0. rewrite Hids, Hn. destruct (decide (ix0 = ix)) as [->|].
    + rewrite lookup_insert_eq. naive_solver.
    + by rewrite lookup_insert_ne.
  - intros rid e. by rewrite Hrels, He.
  - intros e a b r. rewrite He. intros [[? Ha] [? Hb]]%Hends.
    apply Hids' in Ha as (? & -> & _), Hb as (? & -> & _). eauto.
  - rewrite Hn, He, (map_sum_replace _ _ _ prior) by done. subst bytes.
    rewrite (map_sum_delete _ _ ix prior) by done. unfold usize_saturating_sub.
    pose proof (map_sum_nonneg estimate (delete ix (sg_nodes g)) estimate_nonneg).
    pose proof (map_sum_nonneg (λ _, 256) (sg_edges g) ltac:(done)).
    pose proof (estimate_nonneg prior). lia.
  - apply map_eq. intros id. unfold rows_of. rewrite lookup_omap.
    destruct (decide (id = m_id m)) as [->|Hne].
    + by rewrite Hid, lookup_insert_eq, <-(lookup_insert_eq (sg_nodes g) ix m), <-Hn.
    + rewrite lookup_insert_ne, lookup_omap by done. destruct (ids !! id) as [ix0|] eqn:Ei; [|done].
      simpl. rewrite Hn, lookup_insert_ne; [done|]. intros <-.
      apply Hids in Ei as (? & ? & ?). naive_solver.
  - by eapply links_nodes.
Qed.

(** Inserting a row with a new identity. *)
Lemma add_ok g ids rels bytes m :
  graph_index_ok g ids rels bytes → ids !! m_id m = None →
  let '(g', ix) := add_node m g in
  graph_index_ok g' (<[m_id m := ix]> ids) rels (bytes + estimate m) ∧
  rows_of g' (<[m_id m := ix]> ids) = <[m_id m := m]> (rows_of g ids) ∧
  links_of g' rels = links_of g rels.
Proof.
  intros Hok Hid. pose proof Hok as [Hids Hrels Hends Hbytes].
  pose proof (add_node_fresh m g) as Hf. pose proof (add_node_nodes m g) as Hn.
  pose proof (add_node_edges m g) as He. destruct (add_node m g) as [g' ix]. simpl in *.
  assert (Hkeep : ∀ ix0 m0, sg_nodes g !! ix0 = Some m0 →
            ∃ m', sg_nodes g' !! ix0 = Some m' ∧ m_id m' = m_id m0).
  { intros ix0 m0 Hm0. rewrite Hn, lookup_insert_ne by congruence. eauto. }
  assert (Hnew : ∀ id m0, sg_nodes g !! ix = Some m0 → m_id m0 = id → False) by naive_solver.
  split_and!; [split|..].
  - intros id ix0. rewrite Hn. destruct (decide (id = m_id m)) as [->|Hne].
    + rewrite lookup_insert_eq. split; [intros [= <-]; rewrite lookup_insert_eq; eauto|].
      intros (m0 & Hm0 & Heq). f_equal. destruct (decide (ix = ix0)) as [|Hne]; [done|].
      rewrite lookup_insert_ne in Hm0 by done.
      assert (ids !! m_id m = Some ix0) by (apply Hids; eauto). congruence.
    + rewrite lookup_insert_ne, Hids by done. destruct (decide (ix0 = ix)) as [->|].
      * rewrite lookup_insert_eq. naive_solver.
      * by rewrite lookup_insert_ne.
  - intros rid e. by rewrite Hrels, He.
  - intros e a b r. rewrite He. intros [[? Ha] [? Hb]]%Hends.
    apply Hkeep in Ha as (? & -> & _), Hb as (? & -> & _). eauto.
  - rewrite Hn, He, map_sum_insert by done. lia.
  - apply map_eq. intros id. unfold rows_of. rewrite lookup_omap.
    destruct (decide (id = m_id m)) as [->|Hne].
    + by rewrite !lookup_insert_eq; simpl; rewrite Hn, lookup_insert_eq.
    + rewrite !lookup_insert_ne, lookup_omap by done. destruct (ids !! id) as [ix0|] eqn:Ei; [|done].
      simpl. rewrite Hn, lookup_insert_ne; [done|]. intros <-. apply Hids in Ei as (? & ? & ?). eauto.
  - by eapply links_nodes.
Qed.

(** [insert_memory] is an upsert of the row, whatever was resident before. *)
Lemma insert_memory_spec m s h :
  snap_ok s →
  let s' := (insert_memory m s h).1.2 in
  snap_ok s' ∧ row_table s' = <[m_id m := m]> (row_table s) ∧ link_table s' = link_table s ∧
  last_local_lsn s' = last_local_lsn s ∧ last_backend_lsn s' = last_backend_lsn s.
Proof.
  intros Hok s'. pose proof (insert_memory_core m s h) as Hc. fold s' in Hc.
  unfold snap_ok, row_table, link_table in *. destruct (by_id s !! m_id m) as [ix|] eqn:Hid.
  - destruct (proj1 (ok_ids _ _ _ _ Hok _ _) Hid) as (prior & Hprior & _). rewrite Hprior in Hc.
    injection Hc as -> -> -> -> -> ->.
    destruct (replace_ok _ _ _ _ m ix prior Hok Hid Hprior) as (? & ? & ?). done.
  - injection Hc as -> -> -> -> -> ->. pose proof (add_ok _ _ _ _ m Hok Hid) as Ha.
    destruct (add_node m (petgraph s)) as [g' ix]. naive_solver.
Qed.

(** ** Removals *)

(** The links that do not touch a memory. *)
Definition detach (id : MemoryId) (L : gmap RelationshipId (MemoryId * MemoryId * Relationship)) :=
  filter (λ kv, kv.2.1.1 ≠ id ∧ kv.2.1.2 ≠ id) L.

Lemma elem_of_incident g ix rid :
  rid ∈ incident_ids ix g ↔
  ∃ e a b r, sg_edges g !! e = Some (a, b, r) ∧ r_id r = rid ∧ (a = ix ∨ b = ix).
Proof.
  unfold incident_ids. rewrite elem_of_list_to_set, list_elem_of_fmap.
  setoid_rewrite elem_of_app. setoid_rewrite edges_directed_perm.
  setoid_rewrite list_elem_of_filter. split.
  - intros ([e [[a b] r]] & -> & [[Hn He]|[Hn He]]); apply elem_of_map_to_list in He;
      exists e, a, b, r; naive_solver.
  - intros (e & a & b & r & He & <- & Hix). exists (e, (a, b, r)). split; [done|].
    rewrite elem_of_map_to_list. naive_solver.
Qed.

(** As many identities as edges: an identity is one edge's. *)
Lemma size_incident g ids rels bytes ix :
  graph_index_ok g ids rels bytes →
  length (elements (incident_ids ix g)) =
  size (filter (λ e, ¬ (e.2.1.1 ≠ ix ∧ e.2.1.2 ≠ ix)) (sg_edges g)).
Proof.
  intros Hok. set (inc := filter _ _).
  set (l := (λ e : nat * (nat * nat * Relationship), r_id e.2.2) <$> map_to_list inc).
  assert (Hinc : ∀ e a b r, (e, (a, b, r)) ∈ map_to_list inc ↔
            sg_edges g !! e = Some (a, b, r) ∧ (a = ix ∨ b = ix)).
  { intros. rewrite elem_of_map_to_list. unfold inc. rewrite map_lookup_filter_Some. simpl.
    destruct (decide (a = ix)), (decide (b = ix)); naive_solver. }
  assert (Hd : NoDup l).
  { apply NoDup_fmap_2_strong; [|apply NoDup_map_to_list].
    intros [e [[a b] r]] [e' [[a' b'] r']] Hx Hy Heq. simpl in Heq.
    apply Hinc in Hx as [Hx _], Hy as [Hy _].
    assert (Some e = Some e') as [= ->]; [|congruence].
    transitivity (rels !! r_id r); [symmetry|]; apply (ok_rels _ _ _ _ Hok); naive_solver. }
  assert (Heq : incident_ids ix g = list_to_set l).
  { apply set_eq. intros rid. rewrite elem_of_incident, elem_of_list_to_set.
    unfold l. rewrite list_elem_of_fmap. split.
    - intros (e & a & b & r & He & <- & Hix). exists (e, (a, b, r)). by rewrite Hinc.
    - intros ([e [[a b] r]] & -> & [He Hix]%Hinc). naive_solver. }
  transitivity (size (incident_ids ix g)); [done|].
  rewrite Heq, size_list_to_set by done. unfold l. by rewrite length_fmap, length_map_to_list.
Qed.

(** Removing a resident row takes its edges with it. *)
Lemma drop_ok g ids rels rels' bytes id ix m :
  graph_index_ok g ids rels bytes → ids !! id = Some ix → sg_nodes g !! ix = Some m →
  (∀ rid, rels' !! rid = if decide (rid ∈ incident_ids ix g) then None else rels !! rid) →
  let g' := remove_node ix g in
  graph_index_ok g' (delete id ids) rels'
    (bytes - estimate m - 256 * Z.of_nat (length (elements (incident_ids ix g)))) ∧
  rows_of g' (delete id ids) = delete id (rows_of g ids) ∧
  links_of g' rels' = detach id (links_of g rels).
Proof.
  intros Hok Hid Hm Hrels' g'. pose proof Hok as [Hids Hrels Hends Hbytes].
  pose proof (remove_node_nodes ix g) as Hn. pose proof (remove_node_edges ix g) as He. fold g' in Hn, He.
  assert (Hmid : m_id m = id) by (apply Hids in Hid as (? & ? & ?); naive_solver).
  assert (Hge : ∀ e a b r, sg_edges g' !! e = Some (a, b, r) ↔
            sg_edges g !! e = Some (a, b, r) ∧ a ≠ ix ∧ b ≠ ix).
  { intros. by rewrite He, map_lookup_filter_Some. }
  assert (Hinc : ∀ e a b r, sg_edges g !! e = Some (a, b, r) →
            r_id r ∈ incident_ids ix g ↔ a = ix ∨ b = ix).
  { intros e a b r Hedge. rewrite elem_of_incident. split; [|naive_solver].
    intros (e' & a' & b' & r' & He' & Hr & Hix).
    assert (Some e = Some e') as [= ->]; [|naive_solver].
    transitivity (rels !! r_id r); [symmetry|]; apply Hrels; naive_solver. }
  split_and!; [split|..].
  - intros id0 ix0. rewrite Hn. destruct (decide (id0 = id)) as [->|Hne].
    + rewrite lookup_delete_eq. split; [done|]. intros (m0 & Hm0 & Hm0id).
      destruct (decide (ix0 = ix)) as [->|]; [by rewrite lookup_delete_eq in Hm0|].
      rewrite lookup_delete_ne in Hm0 by done.
      assert (ids !! id = Some ix0) by (apply Hids; eauto). congruence.
    + rewrite lookup_delete_ne, Hids by done. destruct (decide (ix0 = ix)) as [->|].
      * rewrite lookup_delete_eq. naive_solver.
      * by rewrite lookup_delete_ne.
  - intros rid e. rewrite Hrels'. setoid_rewrite Hge. case_decide as Hin.
    + split; [done|]. intros (a & b & r & (Hedge & Ha & Hb) & <-).
      apply (Hinc e a b r Hedge) in Hin. naive_solver.
    + rewrite Hrels. split; intros (a & b & r & Hedge & Hr); exists a, b, r; [|naive_solver].
      subst rid. rewrite (Hinc e a b r Hedge) in Hin. naive_solver.
  - intros e a b r (Hedge & Ha & Hb)%Hge. rewrite Hn, !lookup_delete_ne by done. by eapply Hends.
  - rewrite Hbytes, Hn, (map_sum_delete _ _ ix m Hm), (size_incident _ _ _ _ _ Hok), !map_sum_const, He.
    rewrite (size_filter_split (λ e, e.2.1.1 ≠ ix ∧ e.2.1.2 ≠ ix) (sg_edges g)). lia.
  - apply map_eq. intros id0. unfold rows_of. rewrite lookup_omap.
    destruct (decide (id0 = id)) as [->|Hne]; [by rewrite !lookup_delete_eq|].
    rewrite !lookup_delete_ne, lookup_omap by done. destruct (ids !! id0) as [ix0|] eqn:Ei; [|done].
    simpl. rewrite Hn, lookup_delete_ne; [done|]. intros <-. apply Hids in Ei as (? & ? & ?). naive_solver.
  - apply map_eq. intros rid. unfold links_of, detach. rewrite lookup_omap, Hrels', map_lookup_filter.
    rewrite lookup_omap. destruct (rels !! rid) as [e|] eqn:Er; simpl; [|by case_decide].
    apply Hrels in Er as (a & b & r & Hedge & <-). destruct (Hends _ _ _ _ Hedge) as [[ma Ha] [mb Hb]].
    assert (Hend : ∀ c mc, sg_nodes g !! c = Some mc → m_id mc = id ↔ c = ix).
    { intros c mc Hc. split; [|naive_solver]. intros Hmc.
      assert (ids !! id = Some c) by (apply Hids; eauto). congruence. }
    unfold attached at 2. rewrite Hedge. simpl. rewrite Ha, Hb. simpl. case_decide as Hin.
    + apply (Hinc e a b r Hedge) in Hin.
      rewrite option_guard_False; [done|]. rewrite (Hend a ma Ha), (Hend b mb Hb). tauto.
    + rewrite (Hinc e a b r Hedge) in Hin.
      rewrite option_guard_True by (rewrite (Hend a ma Ha), (Hend b mb Hb); tauto). simpl.
      unfold attached. rewrite (proj2 (Hge e a b r)) by tauto. simpl.
      by rewrite Hn, !lookup_delete_ne, Ha, Hb by (intros ->; tauto).
Qed.

Lemma drop_rels_spec l s :
  let s' := foldl (λ s relationship_id,
      set_est_bytes (usize_saturating_sub (est_bytes s) 256)
        (set_by_rel_id (delete relationship_id (by_rel_id s)) s)) s l in
  petgraph s' = petgraph s ∧ by_id s' = by_id s ∧
  (∀ rid, by_rel_id s' !! rid = if decide (rid ∈ l) then None else by_rel_id s !! rid) ∧
  (256 * Z.of_nat (length l) ≤ est_bytes s → est_bytes s' = est_bytes s - 256 * Z.of_nat (length l)) ∧
  last_local_lsn s' = last_local_lsn s ∧ last_backend_lsn s' = last_backend_lsn s.
Proof.
  revert s. induction l as [|rid l IH]; intros s s'.
  - subst s'. simpl. split_and!; try done. lia.
  - subst s'. cbn [foldl]. set (s1 := set_est_bytes _ _).
    assert (E : petgraph s1 = petgraph s ∧ by_id s1 = by_id s ∧ by_rel_id s1 = delete rid (by_rel_id s) ∧
              est_bytes s1 = usize_saturating_sub (est_bytes s) 256 ∧
              last_local_lsn s1 = last_local_lsn s ∧ last_backend_lsn s1 = last_backend_lsn s)
      by (subst s1; by destruct s).
    clearbody s1. destruct E as (E1 & E2 & E3 & E4 & E5 & E6).
    destruct (IH s1) as (-> & -> & Hr & Hb & -> & ->). split_and!; try done.
    + intros rid'. rewrite Hr, E3. destruct (decide (rid' = rid)) as [->|Hne].
      * rewrite lookup_delete_eq, (decide_True _ _ (list_elem_of_here rid l)). by case_decide.
      * rewrite lookup_delete_ne by done. do 2 case_decide; set_solver.
    + cbn [length] in *. rewrite Nat2Z.inj_succ. unfold usize_saturating_sub in E4. lia.
Qed.

Lemma row_lookup s id : row_table s !! id = by_id s !! id ≫= λ ix, sg_nodes (petgraph s) !! ix.
Proof. unfold row_table, rows_of. by rewrite lookup_omap. Qed.
Lemma link_lookup s rid : link_table s !! rid = by_rel_id s !! rid ≫= attached (petgraph s).
Proof. unfold link_table, links_of. by rewrite lookup_omap. Qed.

(** [remove_memory] removes the row and the links that touch it, and nothing else. *)
Lemma remove_memory_spec id s h :
  snap_ok s →
  let s' := remove_memory id s h in
  snap_ok s' ∧ row_table s' = delete id (row_table s) ∧
  link_table s' = (if decide (is_Some (row_table s !! id)) then detach id (link_table s)
                   else link_table s) ∧
  last_local_lsn s' = last_local_lsn s ∧ last_backend_lsn s' = last_backend_lsn s.
Proof.
  intros Hok s'. rewrite row_lookup. unfold snap_ok, row_table, link_table in *.
  subst s'. unfold remove_memory. destruct (by_id s !! id) as [ix|] eqn:Hid; simpl.
  2: { split_and!; try done.
       rewrite delete_id; [done|]. unfold rows_of. by rewrite lookup_omap, Hid. }
  destruct (proj1 (ok_ids _ _ _ _ Hok _ _) Hid) as (m & Hm & _).
  rewrite Hm. simpl.
  set (s2 := match sg_nodes _ !! ix with Some _ => _ | None => _ end).
  assert (E : core s2 = (petgraph s, delete id (by_id s), by_rel_id s,
            usize_saturating_sub (est_bytes s) (estimate m), last_local_lsn s, last_backend_lsn s)).
  { subst s2. assert (E0 : petgraph (set_by_id (delete id (by_id s)) s) = petgraph s) by by destruct s.
    rewrite E0, Hm, remove_memory_indexes_core. by destruct s. }
  clearbody s2. injection E as E1 E2 E3 E4 E5 E6.
  pose proof (drop_rels_spec (elements (incident_ids ix (petgraph s2))) s2) as Hd.
  set (s3 := foldl _ s2 _) in *. cbv zeta in Hd. clearbody s3. destruct Hd as (D1 & D2 & D3 & D4 & D5 & D6).
  rewrite E1 in D1, D3, D4. rewrite E2 in D2. rewrite E3 in D3.
  assert (Hb : est_bytes s3 = est_bytes s - estimate m -
            256 * Z.of_nat (length (elements (incident_ids ix (petgraph s))))).
  { pose proof (ok_bytes _ _ _ _ Hok) as Hb.
    rewrite (map_sum_delete _ _ ix m Hm), map_sum_const,
      (size_filter_split (λ e, e.2.1.1 ≠ ix ∧ e.2.1.2 ≠ ix) (sg_edges (petgraph s))) in Hb.
    pose proof (map_sum_nonneg estimate (delete ix (sg_nodes (petgraph s))) estimate_nonneg).
    rewrite (size_incident _ _ _ _ _ Hok) in D4 |- *. unfold usize_saturating_sub in E4.
    rewrite E4 in D4. lia. }
  assert (Hr : ∀ rid, by_rel_id s3 !! rid =
            if decide (rid ∈ incident_ids ix (petgraph s)) then None else by_rel_id s !! rid).
  { intros rid. rewrite D3. do 2 case_decide; set_solver. }
  destruct (drop_ok _ _ _ _ _ id ix m Hok Hid Hm Hr) as (R1 & R2 & R3).
  destruct s3. cbn in *. subst. by rewrite E5, E6.
Qed.

(** ** Links *)

(** An edge change leaves the attachment of every other edge as it was. *)
Lemma attached_same g g' e :
  sg_nodes g' = sg_nodes g → sg_edges g' !! e = sg_edges g !! e → attached g' e = attached g e.
Proof. intros Hn He. unfold attached. by rewrite He, Hn. Qed.

Lemma attached_some g ids rels bytes e a b r :
  graph_index_ok g ids rels bytes → sg_edges g !! e = Some (a, b, r) →
  ∃ f t, attached g e = Some (f, t, r) ∧ ids !! f = Some a ∧ ids !! t = Some b.
Proof.
  intros Hok He. destruct (ok_ends _ _ _ _ Hok _ _ _ _ He) as [[ma Ha] [mb Hb]].
  exists (m_id ma), (m_id mb). unfold attached. rewrite He. simpl. rewrite Ha, Hb. simpl.
  split_and!; [done|apply (ok_ids _ _ _ _ Hok); eauto..].
Qed.

Lemma set_edge_ok g ids rels bytes e a b r0 r :
  graph_index_ok g ids rels bytes → sg_edges g !! e = Some (a, b, r0) → rels !! r_id r = Some e →
  let g' := set_edge_weight e r g in
  graph_index_ok g' ids rels bytes ∧ rows_of g' ids = rows_of g ids ∧
  ∃ f t, links_of g rels !! r_id r = Some (f, t, r0) ∧
         links_of g' rels = <[r_id r := (f, t, r)]> (links_of g rels).
Proof.
  intros Hok He Hr g'. pose proof Hok as [Hids Hrels Hends Hbytes].
  pose proof (set_edge_nodes e r g) as Hn. pose proof (set_edge_edges _ _ _ _ r g He) as Hg.
  fold g' in Hn, Hg.
  assert (Hr0 : r_id r0 = r_id r) by (apply Hrels in Hr as (? & ? & ? & ? & ?); congruence).
  destruct (attached_some _ _ _ _ _ _ _ _ Hok He) as (f & t & Hat & _ & _).
  split_and!; [split|..].
  - by setoid_rewrite Hn.
  - intros rid e0. rewrite Hrels, Hg. destruct (decide (e0 = e)) as [->|].
    + rewrite lookup_insert_eq. naive_solver.
    + by rewrite lookup_insert_ne.
  - intros e0 a0 b0 r1. rewrite Hg, Hn. destruct (decide (e0 = e)) as [->|].
    + rewrite lookup_insert_eq. intros [= <- <- <-]. by eapply Hends.
    + rewrite lookup_insert_ne by done. apply Hends.
  - rewrite Hn, Hg, (map_sum_replace _ _ _ (a, b, r0)) by done. lia.
  - unfold rows_of. by rewrite Hn.
  - exists f, t. split; [unfold links_of; by rewrite lookup_omap, Hr|].
    apply map_eq. intros rid. unfold links_of. rewrite lookup_omap.
    destruct (decide (rid = r_id r)) as [->|Hne].
    + rewrite Hr, lookup_insert_eq. simpl. unfold attached in *. rewrite He in Hat. simpl in Hat.
      rewrite Hg, lookup_insert_eq, Hn. simpl.
      destruct (sg_nodes g !! a); [|done]. destruct (sg_nodes g !! b); simplify_eq/=; done.
    + rewrite lookup_insert_ne, lookup_omap by done. destruct (rels !! rid) as [e0|] eqn:E0; [|done].
      simpl. apply attached_same; [done|]. rewrite Hg. apply lookup_insert_ne. intros <-.
      apply Hrels in E0 as (? & ? & ? & ? & ?), Hr as (? & ? & ? & ? & ?). congruence.
Qed.

Lemma add_edge_ok g ids rels bytes a b r :
  graph_index_ok g ids rels bytes → ids !! r_from r = Some a → ids !! r_to r = Some b →
  rels !! r_id r = None →
  let '(g', e) := add_edge a b r g in
  graph_index_ok g' ids (<[r_id r := e]> rels) (bytes + 256) ∧ rows_of g' ids = rows_of g ids ∧
  links_of g' (<[r_id r := e]> rels) = <[r_id r := (r_from r, r_to r, r)]> (links_of g rels).
Proof.
  intros Hok Ha Hb Hr. pose proof Hok as [Hids Hrels Hends Hbytes].
  apply Hids in Ha as (ma & Ha & Hma), Hb as (mb & Hb & Hmb).
  pose proof (add_edge_fresh a b r g) as Hf. pose proof (add_edge_nodes a b r g) as Hn.
  pose proof (add_edge_edges a b r g ltac:(eauto) ltac:(eauto)) as Hg.
  destruct (add_edge a b r g) as [g' e]. simpl in *. split_and!; [split|..].
  - by setoid_rewrite Hn.
  - intros rid e0. rewrite Hg. destruct (decide (rid = r_id r)) as [->|Hne].
    + rewrite lookup_insert_eq. split.
      * intros [= <-]. exists a, b, r. by rewrite lookup_insert_eq.
      * intros (a0 & b0 & r0 & He & Hid). f_equal. destruct (decide (e = e0)) as [|Hee]; [done|].
        rewrite lookup_insert_ne in He by done.
        assert (rels !! r_id r = Some e0) by (apply Hrels; eauto). congruence.
    + rewrite lookup_insert_ne, Hrels by done. destruct (decide (e0 = e)) as [->|].
      * rewrite lookup_insert_eq. naive_solver.
      * by rewrite lookup_insert_ne.
  - intros e0 a0 b0 r0. rewrite Hg, Hn. destruct (decide (e0 = e)) as [->|].
    + rewrite lookup_insert_eq. intros [= <- <- <-]. eauto.
    + rewrite lookup_insert_ne by done. apply Hends.
  - rewrite Hn, Hg, map_sum_insert by done. lia.
  - unfold rows_of. by rewrite Hn.
  - apply map_eq. intros rid. unfold links_of. rewrite lookup_omap.
    destruct (decide (rid = r_id r)) as [->|Hne].
    + rewrite !lookup_insert_eq. simpl. unfold attached. rewrite Hg, lookup_insert_eq, Hn. simpl.
      rewrite Ha, Hb. simpl. by rewrite Hma, Hmb.
    + rewrite !lookup_insert_ne, lookup_omap by done. destruct (rels !! rid) as [e0|] eqn:E0; [|done].
      simpl. apply attached_same; [done|]. rewrite Hg. apply lookup_insert_ne. intros <-.
      apply Hrels in E0 as (? & ? & ? & ? & ?). congruence.
Qed.

Lemma remove_edge_ok g ids rels bytes e rid :
  graph_index_ok g ids rels bytes → rels !! rid = Some e →
  let g' := remove_edge e g in
  graph_index_ok g' ids (delete rid rels) (bytes - 256) ∧ rows_of g' ids = rows_of g ids ∧
  links_of g' (delete rid rels) = delete rid (links_of g rels).
Proof.
  intros Hok Hr g'. pose proof Hok as [Hids Hrels Hends Hbytes].
  destruct (proj1 (Hrels _ _) Hr) as (a & b & r & He & Hid).
  pose proof (remove_edge_nodes e g) as Hn. pose proof (remove_edge_edges e g) as Hg.
  fold g' in Hn, Hg. split_and!; [split|..].
  - by setoid_rewrite Hn.
  - intros rid0 e0. rewrite Hg. destruct (decide (rid0 = rid)) as [->|Hne].
    + rewrite lookup_delete_eq. split; [done|]. intros (a0 & b0 & r0 & He0 & Hid0).
      destruct (decide (e0 = e)) as [->|]; [by rewrite lookup_delete_eq in He0|].
      rewrite lookup_delete_ne in He0 by done.
      assert (rels !! rid = Some e0) by (apply Hrels; eauto). congruence.
    + rewrite lookup_delete_ne, Hrels by done. destruct (decide (e0 = e)) as [->|].
      * rewrite lookup_delete_eq. naive_solver.
      * by rewrite lookup_delete_ne.
  - intros e0 a0 b0 r0. rewrite Hg, Hn, lookup_delete_Some. intros [_ ?]. by eapply Hends.
  - rewrite Hn, Hg, Hbytes, (map_sum_delete _ (sg_edges g) e (a, b, r)) by done. lia.
  - unfold rows_of. by rewrite Hn.
  - apply map_eq. intros rid0. unfold links_of. rewrite lookup_omap.
    destruct (decide (rid0 = rid)) as [->|Hne]; [by rewrite !lookup_delete_eq|].
    rewrite !lookup_delete_ne, lookup_omap by done. destruct (rels !! rid0) as [e0|] eqn:E0; [|done].
    simpl. apply attached_same; [done|]. rewrite Hg. apply lookup_delete_ne. intros <-.
    apply Hrels in E0 as (? & ? & ? & ? & ?). congruence.
Qed.

Lemma row_resident s id :
  snap_ok s → is_Some (row_table s !! id) ↔ is_Some (by_id s !! id).
Proof.
  intros Hok. rewrite row_lookup. destruct (by_id s !! id) as [ix|] eqn:E; [|by split; intros []].
  apply (ok_ids _ _ _ _ Hok) in E as (m & Hm & _). simpl. rewrite Hm. naive_solver.
Qed.

(** Upserting a link: a known identity keeps its ends. *)
Definition upsert_link r (L : gmap RelationshipId (MemoryId * MemoryId * Relationship)) :=
  <[r_id r := match L !! r_id r with
              | Some (f, t, _) => (f, t, r) | None => (r_from r, r_to r, r) end]> L.

(** [insert_relationship] upserts the link when both ends are resident. *)
Lemma insert_relationship_spec r s :
  snap_ok s →
  let s' := insert_relationship r s in
  snap_ok s' ∧ row_table s' = row_table s ∧
  link_table s' =
    (if decide (is_Some (row_table s !! r_from r) ∧ is_Some (row_table s !! r_to r))
     then upsert_link r (link_table s) else link_table s) ∧
  last_local_lsn s' = last_local_lsn s ∧ last_backend_lsn s' = last_backend_lsn s.
Proof.
  intros Hok. cbv zeta. unfold insert_relationship.
  destruct (by_id s !! r_from r) as [a|] eqn:Ha.
  2: { rewrite decide_False; [done|]. rewrite !row_resident by done. rewrite Ha. by intros [[] _]. }
  destruct (by_id s !! r_to r) as [b|] eqn:Hb.
  2: { rewrite decide_False; [done|]. rewrite !row_resident by done. rewrite Hb. by intros [_ []]. }
  rewrite decide_True by (rewrite !row_resident by done; rewrite Ha, Hb; eauto).
  unfold upsert_link. rewrite link_lookup.
  destruct (by_rel_id s !! r_id r) as [e|] eqn:Hr.
  - destruct (proj1 (ok_rels _ _ _ _ Hok _ _) Hr) as (a0 & b0 & r0 & He & _). rewrite He.
    destruct (set_edge_ok _ _ _ _ _ _ _ _ r Hok He Hr) as (R1 & R2 & f & t & R3 & R4).
    unfold links_of in R3. rewrite lookup_omap, Hr in R3. simpl in R3 |- *. rewrite R3.
    assert (Hb256 : usize_saturating_sub (est_bytes s) 256 + 256 = est_bytes s).
    { pose proof (ok_bytes _ _ _ _ Hok) as Hbytes. rewrite (map_sum_delete _ (sg_edges _) e _ He) in Hbytes.
      pose proof (map_sum_nonneg estimate (sg_nodes (petgraph s)) estimate_nonneg).
      pose proof (map_sum_nonneg (λ _, 256) (delete e (sg_edges (petgraph s))) ltac:(done)).
      unfold usize_saturating_sub. lia. }
    rewrite Hb256. unfold snap_ok, row_table, link_table in *. destruct s. cbn in *. done.
  - pose proof (add_edge_ok _ _ _ _ a b r Hok Ha Hb Hr) as Hadd. simpl.
    assert (E : petgraph (set_est_bytes (est_bytes s + 256) s) = petgraph s) by by destruct s.
    rewrite E. destruct (add_edge a b r (petgraph s)) as [g' e]. destruct Hadd as (R1 & R2 & R3).
    unfold snap_ok, row_table, link_table in *. destruct s. cbn in *. done.
Qed.

(** [remove_relationship] removes the link. *)
Lemma remove_relationship_spec rid s :
  snap_ok s →
  let s' := remove_relationship rid s in
  snap_ok s' ∧ row_table s' = row_table s ∧ link_table s' = delete rid (link_table s) ∧
  last_local_lsn s' = last_local_lsn s ∧ last_backend_lsn s' = last_backend_lsn s.
Proof.
  intros Hok. cbv zeta. unfold remove_relationship. destruct (by_rel_id s !! rid) as [e|] eqn:Hr.
  2: { split_and!; try done. rewrite delete_id; [done|]. by rewrite link_lookup, Hr. }
  destruct (remove_edge_ok _ _ _ _ _ _ Hok Hr) as (R1 & R2 & R3).
  destruct (proj1 (ok_rels _ _ _ _ Hok _ _) Hr) as (a & b & r & He & _).
  assert (Hb256 : usize_saturating_sub (est_bytes s) 256 = est_bytes s - 256).
  { pose proof (ok_bytes _ _ _ _ Hok) as Hbytes. rewrite (map_sum_delete _ (sg_edges _) e _ He) in Hbytes.
    pose proof (map_sum_nonneg estimate (sg_nodes (petgraph s)) estimate_nonneg).
    pose proof (map_sum_nonneg (λ _, 256) (delete e (sg_edges (petgraph s))) ltac:(done)).
    unfold usize_saturating_sub. lia. }
  unfold snap_ok, row_table, link_table in *. destruct s. cbn in *. rewrite He. cbn. by rewrite Hb256.
Qed.
End rows.

(** ** The image of a snapshot *)

(** What a snapshot holds: rows, links and the two frontiers. *)
Record Image := mkImage {
  im_rows : gmap MemoryId Memory;
  im_links : gmap RelationshipId (MemoryId * MemoryId * Relationship);
  im_local : Z;
  im_backend : Z;
}.

Definition image_step (d : SnapshotDelta) (i : Image) : Image :=
  let '(mkImage rows links local backend) := i in
  match d with
  | UpsertMemory m => mkImage (<[m_id m := m]> rows) links local backend
  | DeleteMemory id =>
      mkImage (delete id rows) (if decide (is_Some (rows !! id)) then detach id links else links)
        local backend
  | UpsertRelationship r =>
      mkImage rows (if decide (is_Some (rows !! r_from r) ∧ is_Some (rows !! r_to r))
                    then upsert_link r links else links) local backend
  | DeleteRelationship rid => mkImage rows (delete rid links) local backend
  | AdvanceBackendLsn lsn => mkImage rows links local (Z.max backend lsn)
  | AdvanceLocalLsn lsn => mkImage rows links (Z.max local lsn) backend
  end.

Section image.
Context {H T : Type} `{TagIndex H T} `{SG : StableGraph Memory Relationship} `{Unicode}.
Implicit Types (s : GraphSnapshot T) (h : H).

Definition image s : Image :=
  mkImage (row_table s) (link_table s) (last_local_lsn s) (last_backend_lsn s).

Lemma empty_spec now h :
  let s := (empty now h).2 in snap_ok s ∧ image s = mkImage ∅ ∅ 0 0.
Proof.
  unfold empty, image, snap_ok, row_table, link_table. destruct (tags_new h) as [h' tg]. simpl.
  split; [split|].
  - intros id ix. rewrite sg_new_nodes, !lookup_empty. naive_solver.
  - intros rid e. rewrite sg_new_edges, !lookup_empty. naive_solver.
  - intros e a b r. by rewrite sg_new_edges, lookup_empty.
  - by rewrite sg_new_nodes, sg_new_edges, !map_sum_empty.
  - unfold rows_of, links_of. by rewrite !omap_empty.
Qed.

Lemma apply_spec d s h :
  snap_ok s → let s' := (apply d s h).2 in snap_ok s' ∧ image s' = image_step d (image s).
Proof.
  intros Hok. destruct d as [m|id|r|rid|lsn|lsn]; simpl.
  - pose proof (insert_memory_spec m s h Hok) as Hs. destruct (insert_memory m s h) as [[h' s'] ix].
    simpl in *. unfold image. destruct Hs as (? & -> & -> & -> & ->). done.
  - destruct (remove_memory_spec id s h Hok) as (? & E1 & E2 & E3 & E4). split; [done|].
    unfold image. simpl. by rewrite E1, E2, E3, E4.
  - destruct (insert_relationship_spec r s Hok) as (? & E1 & E2 & E3 & E4). split; [done|].
    unfold image. simpl. by rewrite E1, E2, E3, E4.
  - destruct (remove_relationship_spec rid s Hok) as (? & E1 & E2 & E3 & E4). split; [done|].
    unfold image. by rewrite E1, E2, E3, E4.
  - by destruct s.
  - by destruct s.
Qed.

Lemma apply_all_cons d delta s h :
  apply_all (d :: delta) s h = apply_all delta (apply d s h).2 (apply d s h).1.
Proof. unfold apply_all. simpl. by destruct (apply d s h). Qed.

Lemma apply_all_app d1 d2 s h :
  apply_all (d1 ++ d2) s h = apply_all d2 (apply_all d1 s h).2 (apply_all d1 s h).1.
Proof. unfold apply_all. rewrite foldl_app. by destruct (foldl _ _ d1). Qed.

Lemma apply_all_spec delta s h :
  snap_ok s →
  let s' := (apply_all delta s h).2 in
  snap_ok s' ∧ image s' = foldl (λ i d, image_step d i) (image s) delta.
Proof.
  revert s h. induction delta as [|d delta IH]; intros s h Hok; [done|].
  cbv zeta. rewrite apply_all_cons. destruct (apply_spec d s h Hok) as [Hok' E].
  destruct (IH _ (apply d s h).1 Hok') as [Hok'' E']. split; [done|]. simpl. by rewrite E', E.
Qed.

(** *** Building from streams *)

(** The rows of a stream that yields no error. *)
Fixpoint stream_rows {A} (l : list (result A StorageError)) : result (list A) StorageError :=
  match l with
  | [] => Ok []
  | row :: l => let? x := row in let? l := stream_rows l in Ok (x :: l)
  end.

Definition live_memory (now : DateTime) (m : Memory) : bool :=
  live_row (m_invalidated_by m) (m_valid_until m) now.
Definition live_relationship (now : DateTime) (r : Relationship) : bool :=
  live_row (r_invalidated_by r) (r_valid_until r) now.

Lemma stream_memories_spec now ms s h :
  snap_ok s →
  match stream_rows ms with
  | Err e => stream_memories now ms s h = Err e
  | Ok l => ∃ h' s', stream_memories now ms s h = Ok (h', s') ∧ snap_ok s' ∧
      image s' = foldl (λ i d, image_step d i) (image s)
                   (UpsertMemory <$> List.filter (live_memory now) l)
  end.
Proof.
  revert s h. induction ms as [|[m|e] ms IH]; intros s h Hok; simpl; [eauto|..|done].
  fold (live_memory now m). destruct (live_memory now m) eqn:Hl.
  - destruct (apply_spec (UpsertMemory m) s h Hok) as [Hok' E]. simpl in Hok', E.
    destruct (insert_memory m s h) as [[h' s'] ix]. simpl in *. specialize (IH s' h' Hok').
    destruct (stream_rows ms) as [l|e]; simpl; [|done].
    destruct IH as (h'' & s'' & ? & ? & Ei). exists h'', s''. split_and!; [done..|].
    rewrite Ei, Hl. csimpl. by rewrite E.
  - specialize (IH s h Hok). destruct (stream_rows ms) as [l|e]; simpl; [|done]. by rewrite Hl.
Qed.

(** The frontier of the rows a stream gave, live or not. *)
Definition max_lsn {A} (lsn : A → LSN) (l : list A) (f : Z) : Z :=
  foldl (λ f x, Z.max f (lsn_value (lsn x))) f l.

Lemma stream_relationships_spec now rs f s :
  snap_ok s →
  match stream_rows rs with
  | Err e => stream_relationships now rs f s = Err e
  | Ok l => ∃ s', stream_relationships now rs f s = Ok (s', max_lsn r_lsn l f) ∧ snap_ok s' ∧
      image s' = foldl (λ i d, image_step d i) (image s)
                   (UpsertRelationship <$> List.filter (live_relationship now) l)
  end.
Proof.
  revert s f. induction rs as [|[r|e] rs IH]; intros s f Hok; simpl; [eauto|..|done].
  fold (live_relationship now r). set (f' := Z.max f _).
  destruct (live_relationship now r) eqn:Hl.
  - destruct (insert_relationship_spec r s Hok) as (Hok' & E1 & E2 & E3 & E4).
    specialize (IH _ f' Hok'). destruct (stream_rows rs) as [l|e]; simpl; [|done].
    destruct IH as (s'' & ? & ? & Ei). exists s''. split_and!; [done..|].
    rewrite Ei, Hl. csimpl. f_equal. unfold image. simpl. by rewrite E1, E2, E3, E4.
  - specialize (IH s f' Hok). destruct (stream_rows rs) as [l|e]; simpl; [|done]. by rewrite Hl.
Qed.
End image.

Section streams.
Context {H T : Type} `{TagIndex H T} `{SG : StableGraph Memory Relationship} `{Unicode}.
Implicit Types (s : GraphSnapshot T) (h : H) (g : sgraph (N:=Memory) (E:=Relationship)).

Lemma elem_of_node_rows g ix m : (ix, m) ∈ node_rows g ↔ sg_nodes g !! ix = Some m.
Proof.
  unfold node_rows. rewrite list_elem_of_omap. setoid_rewrite node_indices_perm. split.
  - intros (ix' & _ & E). destruct (sg_nodes g !! ix') eqn:Hx; naive_solver.
  - intros Hx. exists ix. rewrite Hx. split; [|done]. apply list_elem_of_fmap.
    exists (ix, m). by rewrite elem_of_map_to_list.
Qed.

Lemma elem_of_node_weights g m : m ∈ node_weights g ↔ ∃ ix, sg_nodes g !! ix = Some m.
Proof.
  unfold node_weights. rewrite list_elem_of_fmap. split.
  - intros ([ix m'] & -> & Hin). exists ix. by apply elem_of_node_rows.
  - intros [ix Hx]. exists (ix, m). by rewrite elem_of_node_rows.
Qed.

(** The nodes are the rows. *)
Lemma node_weights_rows s m :
  snap_ok s → m ∈ node_weights (petgraph s) ↔ row_table s !! m_id m = Some m.
Proof.
  intros Hok. rewrite elem_of_node_weights, row_lookup. split.
  - intros [ix Hx]. rewrite (proj2 (ok_ids _ _ _ _ Hok (m_id m) ix)) by eauto. done.
  - destruct (by_id s !! m_id m) as [ix|]; [|done]. simpl. eauto.
Qed.

Lemma row_id s id m : snap_ok s → row_table s !! id = Some m → m_id m = id.
Proof.
  intros Hok. rewrite row_lookup. destruct (by_id s !! id) as [ix|] eqn:E; [|done]. simpl.
  apply (ok_ids _ _ _ _ Hok) in E as (m' & E & <-). naive_solver.
Qed.

Lemma max_lsn_spec {A} (lsn : A → LSN) l f :
  f ≤ max_lsn lsn l f ∧ (∀ x, x ∈ l → lsn_value (lsn x) ≤ max_lsn lsn l f) ∧
  (max_lsn lsn l f = f ∨ ∃ x, x ∈ l ∧ max_lsn lsn l f = lsn_value (lsn x)).
Proof.
  revert f. induction l as [|y l IH]; intros f; simpl; [split_and!; [lia|set_solver|by left]|].
  unfold max_lsn in *. simpl. destruct (IH (Z.max f (lsn_value (lsn y)))) as (I1 & I2 & I3).
  split_and!; [lia| |].
  - intros x [->|Hx]%elem_of_cons; [lia|auto].
  - destruct I3 as [->|(x & ? & ?)]; [|right; set_solver].
    destruct (Z.max_spec f (lsn_value (lsn y))) as [[_ ->]|[_ ->]]; [right; set_solver|by left].
Qed.

(** Replayed upserts hold one of the upserted rows, the last of its identity. *)
Lemma upsert_rows (l : list Memory) (i : Image) id m :
  im_rows (foldl (λ i d, image_step d i) i (UpsertMemory <$> l)) !! id = Some m →
  im_rows i !! id = Some m ∨ m ∈ l.
Proof.
  revert i. induction l as [|x l IH]; intros [rows links loc bk]; csimpl; [by left|].
  intros [Hm|Hm]%IH; [|set_solver]. simpl in Hm. destruct (decide (id = m_id x)) as [->|].
  - rewrite lookup_insert_eq in Hm. injection Hm as ->. right. set_solver.
  - rewrite lookup_insert_ne in Hm by done. by left.
Qed.

Lemma upsert_links_rows (k : list Relationship) (i : Image) :
  im_rows (foldl (λ i d, image_step d i) i (UpsertRelationship <$> k)) = im_rows i.
Proof. revert i. induction k as [|r k IH]; intros []; csimpl; [done|]. by rewrite IH. Qed.

Lemma upserts_local (l : list Memory) (k : list Relationship) (i : Image) :
  im_local (foldl (λ i d, image_step d i) (foldl (λ i d, image_step d i) i (UpsertMemory <$> l))
              (UpsertRelationship <$> k)) = im_local i.
Proof.
  revert i. induction l as [|m l IH]; intros i; csimpl; [|rewrite IH; by destruct i].
  revert i. induction k as [|r k IH]; intros i; csimpl; [done|]. rewrite IH. by destruct i.
Qed.

(** A graph built from a storage's streams holds, for every identity, the last live row the
    stream gave and nothing soft-deleted, with the links whose ends are resident; its frontier is
    the highest commit among its rows and all the relationships read; and the first error of
    either stream is the build's error, with nothing built. *)
Theorem from_streams_exact now (ms : list (result Memory StorageError))
    (rs : list (result Relationship StorageError)) h :
  match stream_rows ms, stream_rows rs with
  | Ok l, Ok k =>
      ∃ h' s, from_streams now ms rs h = Ok (h', s) ∧ snap_ok s ∧
        image s = mkImage
          (im_rows (foldl (λ i d, image_step d i) (mkImage ∅ ∅ 0 0)
             (UpsertMemory <$> List.filter (live_memory now) l)))
          (im_links (foldl (λ i d, image_step d i) (mkImage ∅ ∅ 0 0)
             ((UpsertMemory <$> List.filter (live_memory now) l) ++
              (UpsertRelationship <$> List.filter (live_relationship now) k))))
          0 (last_backend_lsn s) ∧
        (∀ id m, row_table s !! id = Some m → live_memory now m = true ∧ m ∈ l ∧
           lsn_value (m_lsn m) ≤ last_backend_lsn s) ∧
        (∀ r, r ∈ k → lsn_value (r_lsn r) ≤ last_backend_lsn s)
  | Err e, _ => from_streams now ms rs h = Err e
  | Ok _, Err e => from_streams now ms rs h = Err e
  end.
Proof.
  unfold from_streams. destruct (empty_spec now h) as [Hok Himg]. destruct (empty now h) as [h0 s0].
  simpl in Hok, Himg. pose proof (stream_memories_spec now ms s0 h0 Hok) as Hm.
  destruct (stream_rows ms) as [l|e]; [|by rewrite Hm].
  destruct Hm as (h1 & s1 & -> & Hok1 & E1). simpl.
  pose proof (stream_relationships_spec now rs 0 s1 Hok1) as Hr.
  destruct (stream_rows rs) as [k|e]; [|by rewrite Hr].
  destruct Hr as (s2 & -> & Hok2 & E2). simpl.
  set (f := foldl _ _ (node_weights (petgraph s2))).
  exists h1, (set_backend_lsn f s2).
  assert (Hrows : row_table s2 = im_rows (foldl (λ i d, image_step d i) (mkImage ∅ ∅ 0 0)
             (UpsertMemory <$> List.filter (live_memory now) l))).
  { change (row_table s2) with (im_rows (image s2)). by rewrite E2, upsert_links_rows, E1, Himg. }
  assert (Hf : f = max_lsn m_lsn (node_weights (petgraph s2)) (max_lsn r_lsn k 0)) by done.
  pose proof (max_lsn_spec m_lsn (node_weights (petgraph s2)) (max_lsn r_lsn k 0)) as (F1 & F2 & _).
  pose proof (max_lsn_spec r_lsn k 0) as (G1 & G2 & _).
  rewrite <-Hf in F1, F2. clearbody f.
  assert (Es : row_table (set_backend_lsn f s2) = row_table s2 ∧
             link_table (set_backend_lsn f s2) = link_table s2 ∧
             last_local_lsn (set_backend_lsn f s2) = last_local_lsn s2 ∧
             last_backend_lsn (set_backend_lsn f s2) = f) by by destruct s2.
  destruct Es as (R1 & R2 & R3 & R4). split_and!; [done|by destruct s2|..].
  - unfold image. rewrite R1, R2, R3, R4, Hrows. f_equal.
    + change (link_table s2) with (im_links (image s2)). by rewrite E2, E1, Himg, foldl_app.
    + change (last_local_lsn s2) with (im_local (image s2)). by rewrite E2, E1, Himg, upserts_local.
  - rewrite R1, R4. intros id m Hm. assert (Hid : m_id m = id) by by eapply row_id.
    subst id. split_and!; [| |by apply F2, node_weights_rows].
    all: rewrite Hrows in Hm; apply upsert_rows in Hm as [|Hm]; [done|];
      apply list_elem_of_In, List.filter_In in Hm as [?%list_elem_of_In ?]; done.
  - rewrite R4. intros r Hr. specialize (G2 r Hr). lia.
Qed.
End streams.
