(* ===== verification/Interned.v ===== *)
(** * The shared interner

    The tag index of a resident graph ([crates/exocortex-cache/src/lib.rs]): snapshots cloned from
    one another share an interner, so what one of them interns the others see.  The index of
    handles is proved to stand for an index by tag through every operation of the snapshot and of
    every other snapshot on the same heap. *)

From S2P Require Import Prelude Ids Kernel Packs Ontology StorageTypes Snapshot.

(** ** The shared interner

    Snapshots cloned from one another hold one interner, and interning for one of them changes it
    for all.  Interning only adds: [heap_le] relates the heap to what it becomes, and [index_repr]
    says that a snapshot's handle index stands for an index by tag. *)

Section interner.
Context `{Interner}.
Implicit Types (h : list rodeo) (i : HandleIndex) (m : gmap string (gset Z)).

Record heap_le h h' : Prop := {
  heap_length : (length h ≤ length h')%nat;
  heap_known a t k : (a < length h)%nat →
    rodeo_get t (heap_rodeo h a) = Some k → rodeo_get t (heap_rodeo h' a) = Some k;
}.

#[export] Instance heap_le_preorder : PreOrder heap_le.
Proof.
  split; [by intros h; split|]. intros h1 h2 h3 [L1 K1] [L2 K2]. split; [lia|].
  intros a t k Ha Hk. apply K2; [lia|]. by apply K1.
Qed.

Record index_repr h i m : Prop := {
  ir_address : (hi_interner i < length h)%nat;
  ir_lookup t : m !! t = rodeo_get t (heap_rodeo h (hi_interner i)) ≫= λ k, hi_by_tag i !! k;
  ir_handles k : is_Some (hi_by_tag i !! k) →
    ∃ t, rodeo_get t (heap_rodeo h (hi_interner i)) = Some k;
}.

(** What another snapshot interns does not disturb an index. *)
#[export] Instance index_repr_mono :
  Proper (heap_le ==> eq ==> eq ==> impl) index_repr.
Proof.
  intros h h' [HL HK] i _ <- m _ <- [Ha Hl Hh]. split; [lia| |].
  - intros t. rewrite Hl. destruct (rodeo_get t (heap_rodeo h (hi_interner i))) as [k|] eqn:E.
    + by rewrite (HK _ _ _ Ha E).
    + simpl. destruct (rodeo_get t (heap_rodeo h' (hi_interner i))) as [k|] eqn:E'; [|done].
      simpl. symmetry. apply eq_None_not_Some. intros [t' Ht']%Hh.
      pose proof (HK _ _ _ Ha Ht') as Ht''. rewrite (rodeo_get_inj _ _ _ _ E' Ht'') in E. congruence.
  - intros k [t Ht]%Hh. exists t. by apply HK.
Qed.

Lemma heap_rodeo_insert h a r a' :
  (a < length h)%nat →
  heap_rodeo (<[a := r]> h) a' = if decide (a' = a) then r else heap_rodeo h a'.
Proof.
  intros Ha. unfold heap_rodeo. case_decide; subst; [by rewrite list_lookup_insert_eq|].
  by rewrite list_lookup_insert_ne.
Qed.

Lemma tags_new_spec h :
  let '(h', i) := tags_new (TagIndex:=handle_index) h in heap_le h h' ∧ index_repr h' i ∅.
Proof.
  assert (E : heap_rodeo (h ++ [rodeo_new]) (length h) = rodeo_new).
  { unfold heap_rodeo. by rewrite lookup_app_r, Nat.sub_diag by lia. }
  simpl. split; split; cbn [hi_interner hi_by_tag].
  - rewrite length_app. lia.
  - intros a t k Ha Hk. unfold heap_rodeo in *. by rewrite lookup_app_l by done.
  - rewrite length_app. simpl. lia.
  - intros t. by rewrite E, rodeo_new_get, lookup_empty.
  - intros k []%lookup_empty_is_Some.
Qed.

Lemma tag_insert_spec t x h i m :
  index_repr h i m →
  let '(h', i') := tag_insert (TagIndex:=handle_index) t x i h in
  heap_le h h' ∧ index_repr h' i' (set_entry_insert t x m).
Proof.
  intros [Ha Hl Hh]. simpl. set (r0 := heap_rodeo h (hi_interner i)) in *.
  pose proof (intern_get t r0) as Hg. pose proof (intern_known t r0) as Hk.
  assert (Ho : ∀ t', t ≠ t' → rodeo_get t' (get_or_intern t r0).1 = rodeo_get t' r0)
    by (intros; by apply intern_other).
  destruct (get_or_intern t r0) as [r k]. cbn [fst snd] in *.
  assert (Hget : ∀ t' k', rodeo_get t' r0 = Some k' → rodeo_get t' r = Some k').
  { intros t' k' Ht'. destruct (decide (t = t')) as [<-|]; [|by rewrite Ho].
    rewrite Hg. by rewrite (Hk k'). }
  assert (Hnew : rodeo_get t r0 = None → hi_by_tag i !! k = None).
  { intros Hn. apply eq_None_not_Some. intros [t' Ht']%Hh. pose proof (Hget _ _ Ht') as Ht''.
    rewrite (rodeo_get_inj _ _ _ _ Hg Ht'') in Hn. congruence. }
  assert (Hmk : m !! t = hi_by_tag i !! k).
  { rewrite Hl. destruct (rodeo_get t r0) as [k'|] eqn:E; simpl; [by rewrite (Hk k' eq_refl)|].
    by rewrite Hnew. }
  split; split; cbn [hi_interner hi_by_tag].
  - by rewrite length_insert.
  - intros a t' k' Ha' Ht'. rewrite heap_rodeo_insert by done. case_decide; subst; auto.
  - by rewrite length_insert.
  - intros t'. rewrite heap_rodeo_insert, decide_True by done. unfold set_entry_insert.
    destruct (decide (t' = t)) as [->|Hne].
    + by rewrite Hg, lookup_insert_eq; simpl; rewrite lookup_insert_eq, Hmk.
    + rewrite lookup_insert_ne, Hl, Ho by done. fold r0.
      destruct (rodeo_get t' r0) as [k'|] eqn:E; [|done]. simpl. rewrite lookup_insert_ne; [done|].
      intros <-. apply Hget in E. by destruct Hne, (rodeo_get_inj _ _ _ _ E Hg).
  - intros k'. rewrite heap_rodeo_insert, decide_True by done. unfold set_entry_insert.
    destruct (decide (k' = k)) as [->|]; [eauto|]. rewrite lookup_insert_ne by done.
    intros [t' Ht']%Hh. eauto.
Qed.

Lemma tag_remove_spec t x h i m :
  index_repr h i m →
  index_repr h (tag_remove (TagIndex:=handle_index) t x i h) (set_entry_remove t x m).
Proof.
  intros [Ha Hl Hh]. simpl. set (r0 := heap_rodeo h (hi_interner i)) in *.
  assert (Hmk := Hl t). unfold set_entry_remove. rewrite Hmk.
  destruct (rodeo_get t r0) as [k|] eqn:E; simpl in *; [|by split].
  assert (Hother : ∀ t' k', t' ≠ t → rodeo_get t' r0 = Some k' → k' ≠ k).
  { intros t' k' Hne E' ->. by destruct Hne, (rodeo_get_inj _ _ _ _ E' E). }
  destruct (hi_by_tag i !! k) as [b|] eqn:Eb; [|by split].
  split; cbn [hi_interner hi_by_tag]; fold r0; [done|..].
  - intros t'. destruct (decide (t' = t)) as [->|Hne].
    + rewrite E. simpl. case_decide; [by rewrite !lookup_delete_eq|by rewrite !lookup_insert_eq].
    + specialize (Hl t'). destruct (rodeo_get t' r0) as [k'|] eqn:E'; simpl in *.
      * pose proof (Hother _ _ Hne E').
        case_decide; [by rewrite !lookup_delete_ne by done|by rewrite !lookup_insert_ne by done].
      * case_decide; [by rewrite lookup_delete_ne|by rewrite lookup_insert_ne].
  - intros k'. destruct (decide (k' = k)) as [->|]; [eauto|].
    case_decide; [rewrite lookup_delete_ne by done|rewrite lookup_insert_ne by done]; apply Hh.
Qed.
End interner.

(** ** Snapshots over handles and over tags *)

Section simulation.
Context `{Interner} `{SG : StableGraph Memory Relationship} `{Unicode}.
Implicit Types (s : GraphSnapshot HandleIndex) (a : GraphSnapshot (gmap string (gset Z)))
  (h : list rodeo).

(** Every field but the tag index and the time of publication. *)
Definition skeleton {T} (s : GraphSnapshot T) : GraphSnapshot unit :=
  mkSnapshot (petgraph s) (by_id s) (by_entity s) (by_type s) tt (search_arena s) (search_offsets s)
    (search_nodes s) (search_live_bytes s) (by_rel_id s) (last_local_lsn s) (last_backend_lsn s) 0
    (est_bytes s).

(** A snapshot over handles stands for one over tags. *)
Record snap_repr h s a : Prop := {
  sr_skeleton : skeleton s = skeleton a;
  sr_tags : index_repr h (by_tag s) (by_tag a);
}.

#[export] Instance snap_repr_mono : Proper (heap_le ==> eq ==> eq ==> impl) snap_repr.
Proof. intros h h' Hh s _ <- a _ <- [Hs Ht]. split; [done|].
  by apply (index_repr_mono h h' Hh _ _ eq_refl _ _ eq_refl). Qed.

Lemma snap_repr_le h h' s a : heap_le h h' → snap_repr h s a → snap_repr h' s a.
Proof. intros Hh. exact (snap_repr_mono h h' Hh s s eq_refl a a eq_refl). Qed.

(** A step that answers with a heap and a snapshot. *)
Definition steps_to h (p : list rodeo * GraphSnapshot HandleIndex)
    (q : () * GraphSnapshot (gmap string (gset Z))) : Prop :=
  heap_le h p.1 ∧ snap_repr p.1 p.2 q.2.

Lemma insert_tags_repr (l : list string) x h i m :
  index_repr h i m →
  let p := foldl (λ '(h, i) t, tag_insert t x i h) (h, i) l in
  heap_le h p.1 ∧ index_repr p.1 p.2 (foldl (λ '(h, m) t, tag_insert t x m h) ((), m) l).2.
Proof.
  revert h i m. induction l as [|t l IH]; intros h i m Hr; [done|].
  cbv zeta. cbn [foldl]. pose proof (tag_insert_spec t x h i m Hr) as Ht.
  destruct (tag_insert t x i h) as [h1 i1]. destruct Ht as [Hh1 Hr1].
  destruct (IH h1 i1 _ Hr1) as [Hh2 Hr2]. split; [by etrans|exact Hr2].
Qed.

Lemma remove_tags_repr (l : list string) x h i m :
  index_repr h i m →
  index_repr h (foldl (λ i t, tag_remove t x i h) i l) (foldl (λ m t, tag_remove t x m ()) m l).
Proof.
  revert i m. induction l as [|t l IH]; intros i m Hr; [done|]. simpl. apply IH.
  exact (tag_remove_spec t x h i m Hr).
Qed.

Lemma index_memory_repr m ix h s a :
  snap_repr h s a → steps_to h (index_memory m ix s h) (index_memory m ix a ()).
Proof.
  intros [Hs Ht]. unfold index_memory, steps_to.
  pose proof (insert_tags_repr (tags m) (lsb32 (m_id m)) h (by_tag s) (by_tag a) Ht) as Hl.
  destruct (foldl _ (h, by_tag s) (tags m)) as [h' i'].
  destruct (foldl _ ((), by_tag a) (tags m)) as [u m']. destruct Hl as [Hh Hr].
  destruct s, a. injection Hs as -> -> -> -> -> -> -> -> -> -> -> ->. split; [done|]. by split.
Qed.

Lemma remove_memory_indexes_repr m ix h s a :
  snap_repr h s a → snap_repr h (remove_memory_indexes m ix s h) (remove_memory_indexes m ix a ()).
Proof.
  intros [Hs Ht]. pose proof (remove_tags_repr (tags m) (lsb32 (m_id m)) h _ _ Ht) as Hr.
  destruct s, a. injection Hs as -> -> -> -> -> -> -> -> -> -> -> ->. by split.
Qed.

Lemma skeleton_fields {T1 T2} (s : GraphSnapshot T1) (a : GraphSnapshot T2) :
  skeleton s = skeleton a →
  petgraph s = petgraph a ∧ by_id s = by_id a ∧ by_rel_id s = by_rel_id a ∧ est_bytes s = est_bytes a ∧
  search_arena s = search_arena a ∧ search_live_bytes s = search_live_bytes a ∧
  last_local_lsn s = last_local_lsn a ∧ last_backend_lsn s = last_backend_lsn a.
Proof. by intros [= ? ? ? ? ? ? ? ? ? ? ? ?]. Qed.

(** Fields outside the tag index are set alike. *)
Ltac repr_set :=
  intros [? ?]; match goal with
  | s : GraphSnapshot HandleIndex, a : GraphSnapshot (gmap _ _) |- _ => destruct s, a
  end;
  match goal with E : skeleton _ = skeleton _ |- _ =>
    injection E as -> -> -> -> -> -> -> -> -> -> -> -> end;
  by split.

Lemma repr_est_bytes x h s a : snap_repr h s a → snap_repr h (set_est_bytes x s) (set_est_bytes x a).
Proof. repr_set. Qed.
Lemma repr_graph x h s a : snap_repr h s a → snap_repr h (set_graph x s) (set_graph x a).
Proof. repr_set. Qed.
Lemma repr_by_id x h s a : snap_repr h s a → snap_repr h (set_by_id x s) (set_by_id x a).
Proof. repr_set. Qed.
Lemma repr_by_rel_id x h s a : snap_repr h s a → snap_repr h (set_by_rel_id x s) (set_by_rel_id x a).
Proof. repr_set. Qed.
Lemma repr_local x h s a : snap_repr h s a → snap_repr h (set_local_lsn x s) (set_local_lsn x a).
Proof. repr_set. Qed.
Lemma repr_backend x h s a : snap_repr h s a → snap_repr h (set_backend_lsn x s) (set_backend_lsn x a).
Proof. repr_set. Qed.
Lemma repr_built x y h s a : snap_repr h s a → snap_repr h (set_built_at x s) (set_built_at y a).
Proof. repr_set. Qed.

(** Compaction interns the tags of the live rows anew. *)
Lemma rebuild_tags_repr (l : list Memory) h i m :
  index_repr h i m →
  let p := foldl (λ '(h, i) memory,
      foldl (λ '(h, i) t, tag_insert t (lsb32 (m_id memory)) i h) (h, i) (tags memory)) (h, i) l in
  heap_le h p.1 ∧
  index_repr p.1 p.2 (foldl (λ '(h, m) memory,
      foldl (λ '(h, m) t, tag_insert t (lsb32 (m_id memory)) m h) (h, m) (tags memory)) ((), m) l).2.
Proof.
  revert h i m. induction l as [|x l IH]; intros h i m Hr; [done|].
  cbv zeta. cbn [foldl]. pose proof (insert_tags_repr (tags x) (lsb32 (m_id x)) h i m Hr) as Hl.
  destruct (foldl _ (h, i) (tags x)) as [h1 i1], (foldl _ ((), m) (tags x)) as [[] m1].
  destruct Hl as [Hh1 Hr1], (IH h1 i1 _ Hr1) as [Hh2 Hr2]. split; [by etrans|exact Hr2].
Qed.

Lemma compact_repr h s a :
  snap_repr h s a →
  steps_to h (compact_search_index_if_needed s h) (compact_search_index_if_needed a ()).
Proof.
  intros Hr. pose proof Hr as [Hs Ht]. pose proof (skeleton_fields _ _ Hs) as (Eg & _ & _ & _ & Ea & El & _).
  unfold compact_search_index_if_needed, steps_to. rewrite Ea, El, Eg.
  case_match; [done|]. clear Ea El Eg.
  destruct (foldl _ ([], [], []) _) as [[arena offsets] nodes].
  pose proof (tags_new_spec h) as Hn. destruct (tags_new (TagIndex:=handle_index) h) as [h1 i1].
  destruct Hn as [Hh1 Hr1].
  pose proof (rebuild_tags_repr (node_weights (petgraph a)) h1 i1 ∅ Hr1) as [Hh2 Hr2].
  change (tags_new (TagIndex:=plain_index) ()) with ((), ∅ : gmap string (gset Z)).
  destruct (foldl _ (h1, i1) _) as [h2 i2], (foldl _ ((), ∅) _) as [u m2]. cbn [fst snd] in *.
  split; [by etrans|]. destruct s, a. injection Hs as -> -> -> -> -> -> -> -> -> -> -> ->. by split.
Qed.

Lemma steps_to_trans h p q p' q' :
  steps_to h p q → (snap_repr p.1 p.2 q.2 → steps_to p.1 p' q') → steps_to h p' q'.
Proof. intros [Hh Hr] Hk. destruct (Hk Hr) as [Hh' Hr']. split; [by etrans|done]. Qed.

Lemma insert_memory_repr m h s a :
  snap_repr h s a →
  let '(h', s', ix) := insert_memory m s h in
  let '(_, a', ix') := insert_memory m a () in
  heap_le h h' ∧ snap_repr h' s' a' ∧ ix = ix'.
Proof.
  intros Hr. pose proof Hr as [Hs Ht]. pose proof (skeleton_fields _ _ Hs) as (Eg & Ei & _ & Ee & _).
  unfold insert_memory. rewrite Ei, Eg, Ee. destruct (by_id a !! m_id m) as [ix|].
  - set (s1 := match sg_nodes (petgraph a) !! ix with Some _ => _ | None => s end).
    set (a1 := match sg_nodes (petgraph a) !! ix with Some _ => _ | None => a end).
    assert (Hr1 : snap_repr h s1 a1).
    { subst s1 a1. destruct (sg_nodes _ !! ix) as [prior|]; [|done].
      pose proof (remove_memory_indexes_repr prior ix h s a Hr) as Hrm.
      pose proof (skeleton_fields _ _ (sr_skeleton _ _ _ Hrm)) as (_ & _ & _ & E & _).
      rewrite E. by apply repr_est_bytes. }
    clearbody s1 a1. pose proof (skeleton_fields _ _ (sr_skeleton _ _ _ Hr1)) as (_ & _ & _ & E1 & _).
    rewrite E1.
    pose proof (index_memory_repr m ix h _ _ (repr_est_bytes (est_bytes a1 + estimate m) _ _ _ Hr1)) as Hi.
    destruct (index_memory m ix _ h) as [h2 s2], (index_memory m ix _ ()) as [[] a2].
    destruct Hi as [Hh2 Hr2]. cbn [fst snd] in *.
    pose proof (skeleton_fields _ _ (sr_skeleton _ _ _ Hr2)) as (E2 & _). rewrite E2.
    pose proof (compact_repr h2 _ _ (repr_graph (set_node_weight ix m (petgraph a2)) _ _ _ Hr2)) as Hc.
    destruct (compact_search_index_if_needed _ h2) as [h3 s3], (compact_search_index_if_needed _ ()) as [[] a3].
    destruct Hc as [Hh3 Hr3]. cbn [fst snd] in *. split_and!; [by etrans|done|done].
  - assert (E1 : petgraph (set_est_bytes (est_bytes a + estimate m) s) =
               petgraph (set_est_bytes (est_bytes a + estimate m) a)) by (destruct s, a; simpl in *; congruence).
    rewrite E1. destruct (add_node m _) as [g ix]. clear E1.
    pose proof (index_memory_repr m ix h _ _
      (repr_graph g _ _ _ (repr_est_bytes (est_bytes a + estimate m) _ _ _ Hr))) as Hi.
    destruct (index_memory m ix _ h) as [h2 s2], (index_memory m ix _ ()) as [[] a2].
    destruct Hi as [Hh2 Hr2]. cbn [fst snd] in *.
    pose proof (skeleton_fields _ _ (sr_skeleton _ _ _ Hr2)) as (_ & E2 & _). rewrite E2.
    pose proof (compact_repr h2 _ _ (repr_by_id (<[m_id m := ix]> (by_id a2)) _ _ _ Hr2)) as Hc.
    destruct (compact_search_index_if_needed _ h2) as [h3 s3], (compact_search_index_if_needed _ ()) as [[] a3].
    destruct Hc as [Hh3 Hr3]. cbn [fst snd] in *. split_and!; [by etrans|done|done].
Qed.

Lemma remove_memory_repr id h s a :
  snap_repr h s a → snap_repr h (remove_memory id s h) (remove_memory id a ()).
Proof.
  intros Hr. pose proof Hr as [Hs Ht]. pose proof (skeleton_fields _ _ Hs) as (Eg & Ei & _).
  unfold remove_memory. rewrite Ei. destruct (by_id a !! id) as [ix|]; [|done].
  pose proof (repr_by_id (delete id (by_id a)) _ _ _ Hr) as Hr1.
  set (s1 := set_by_id _ s) in *. set (a1 := set_by_id _ a) in *. clearbody s1 a1.
  pose proof (skeleton_fields _ _ (sr_skeleton _ _ _ Hr1)) as (Eg1 & _ & _ & Ee1 & _).
  rewrite Eg1. set (s2 := match sg_nodes _ !! ix with Some _ => _ | None => s1 end).
  set (a2 := match sg_nodes _ !! ix with Some _ => _ | None => a1 end).
  assert (Hr2 : snap_repr h s2 a2).
  { subst s2 a2. destruct (sg_nodes _ !! ix) as [m|]; [|done].
    rewrite Ee1. by apply remove_memory_indexes_repr, repr_est_bytes. }
  clearbody s2 a2. pose proof (skeleton_fields _ _ (sr_skeleton _ _ _ Hr2)) as (Eg2 & _). rewrite Eg2.
  set (l := elements _). clearbody l. set (s3 := foldl _ s2 l). set (a3 := foldl _ a2 l).
  assert (Hr3 : snap_repr h s3 a3).
  { subst s3 a3. clear -Hr2. revert s2 a2 Hr2. induction l as [|rid l IH]; intros s a Hr; [done|].
    cbn [foldl]. apply IH. pose proof (skeleton_fields _ _ (sr_skeleton _ _ _ Hr)) as (_ & _ & -> & -> & _).
    by apply repr_est_bytes, repr_by_rel_id. }
  clearbody s3 a3. pose proof (skeleton_fields _ _ (sr_skeleton _ _ _ Hr3)) as (Eg3 & _). rewrite Eg3.
  by apply repr_graph.
Qed.

Lemma insert_relationship_repr r h s a :
  snap_repr h s a → snap_repr h (insert_relationship r s) (insert_relationship r a).
Proof.
  intros Hr. pose proof (skeleton_fields _ _ (sr_skeleton _ _ _ Hr)) as (Eg & Ei & Er & Ee & _).
  unfold insert_relationship. rewrite Ei, Er, Eg, Ee.
  destruct (by_id a !! r_from r) as [x|]; [|done]. destruct (by_id a !! r_to r) as [y|]; [|done].
  assert (Hadd : snap_repr h
     (let s := set_est_bytes (est_bytes a + 256) s in
      let '(g, eid) := add_edge x y r (petgraph s) in
      let s := set_graph g s in set_by_rel_id (<[r_id r := eid]> (by_rel_id s)) s)
     (let s := set_est_bytes (est_bytes a + 256) a in
      let '(g, eid) := add_edge x y r (petgraph s) in
      let s := set_graph g s in set_by_rel_id (<[r_id r := eid]> (by_rel_id s)) s)).
  { destruct Hr as [Hs Ht]. destruct s, a. simpl in *. subst. destruct (add_edge x y r _).
    by injection Hs as -> -> -> -> -> -> -> -> ; split. }
  destruct (by_rel_id a !! r_id r) as [e|]; [|exact Hadd].
  destruct (sg_edges (petgraph a) !! e); [|exact Hadd].
  assert (E : petgraph (set_est_bytes (usize_saturating_sub (est_bytes a) 256 + 256) s) =
              petgraph (set_est_bytes (usize_saturating_sub (est_bytes a) 256 + 256) a))
    by (destruct s, a; simpl in *; congruence).
  rewrite E. by apply repr_graph, repr_est_bytes.
Qed.

Lemma remove_relationship_repr rid h s a :
  snap_repr h s a → snap_repr h (remove_relationship rid s) (remove_relationship rid a).
Proof.
  intros Hr. pose proof (skeleton_fields _ _ (sr_skeleton _ _ _ Hr)) as (Eg & Ei & Er & Ee & _).
  unfold remove_relationship. rewrite Er. destruct (by_rel_id a !! rid) as [e|]; [|done].
  destruct Hr as [Hs Ht]. destruct s, a. simpl in *. subst.
  injection Hs as -> -> -> -> -> -> -> ->. destruct (sg_edges _ !! e); by split.
Qed.

(** Every change to a snapshot over handles is the change over tags. *)
Lemma apply_repr d h s a : snap_repr h s a → steps_to h (apply d s h) (apply d a ()).
Proof.
  intros Hr. pose proof (skeleton_fields _ _ (sr_skeleton _ _ _ Hr)) as E.
  destruct E as (_ & _ & _ & _ & _ & _ & El & Eb). destruct d as [m|id|r|rid|lsn|lsn]; simpl.
  - pose proof (insert_memory_repr m h s a Hr) as Hi.
    destruct (insert_memory m s h) as [[h' s'] ix], (insert_memory m a ()) as [[u a'] ix'].
    destruct Hi as (? & ? & _). by split.
  - split; [done|]. by apply remove_memory_repr.
  - split; [done|]. by apply insert_relationship_repr.
  - split; [done|]. by apply remove_relationship_repr.
  - split; [done|]. simpl. rewrite Eb. by apply repr_backend.
  - split; [done|]. simpl. rewrite El. by apply repr_local.
Qed.

Lemma apply_all_repr delta h s a : snap_repr h s a → steps_to h (apply_all delta s h) (apply_all delta a ()).
Proof.
  revert h s a. induction delta as [|d delta IH]; intros h s a Hr; [done|].
  rewrite !apply_all_cons. destruct (apply_repr d h s a Hr) as [Hh Hr'].
  destruct (apply d a ()) as [[] a'] eqn:Ea. cbn [fst snd] in *.
  destruct (IH _ _ _ Hr') as [Hh' Hr'']. split; [by etrans|done].
Qed.
End simulation.
