(* ===== verification/Slots.v ===== *)
(** * Publication of a resident graph

    [GraphSlot] of [crates/exocortex-cache/src/lib.rs]: one published snapshot and the writer's
    reuse state.  A reader holds the snapshot it loaded; the writer recycles a retired snapshot
    only when no reader holds it ([Arc::strong_count] is 1, the [reader_free] each publication is
    given), catches it up from the journal and publishes it.  The theorems say that whatever
    readers do, the published snapshot is the one all changes in sequence would have made. *)

From S2P Require Import Prelude Ids Kernel Packs Ontology StorageTypes Snapshot Interned.

(** ** Data and operations *)

Section slots.
Context {H T : Type} `{TagIndex H T} `{SG : StableGraph Memory Relationship} `{Unicode}.

(* SRC crates/exocortex-cache/src/lib.rs 452-455 RetiredSnapshot *)
Record RetiredSnapshot := mkRetired {
  rt_generation : Z;
  rt_snapshot : GraphSnapshot T;
}.

(* SRC crates/exocortex-cache/src/lib.rs 457-460 SnapshotJournalEntry *)
Record SnapshotJournalEntry := mkEntry {
  je_generation : Z;
  je_delta : list SnapshotDelta;
}.

(* SRC crates/exocortex-cache/src/lib.rs 462-466 SnapshotReuseState *)
Record SnapshotReuseState := mkReuse {
  ru_generation : Z;
  ru_retired : list RetiredSnapshot;
  ru_journal : list SnapshotJournalEntry;
}.

(* SRC crates/exocortex-cache/src/lib.rs 468-475 GraphSlot *)
Record GraphSlot := mkSlot {
  sl_current : GraphSnapshot T;
  sl_reuse : SnapshotReuseState;
}.

(* SRC crates/exocortex-cache/src/lib.rs 478-487 GraphSlot::new *)
Definition GraphSlot_new (snapshot : GraphSnapshot T) : GraphSlot :=
  mkSlot snapshot (mkReuse 0 [] []).

(* SRC crates/exocortex-cache/src/lib.rs 489-491 load_full *)
Definition load_full (slot : GraphSlot) : GraphSnapshot T := sl_current slot.

(* SRC crates/exocortex-cache/src/lib.rs 493-499 store *)
Definition store (snapshot : GraphSnapshot T) (slot : GraphSlot) : GraphSlot :=
  mkSlot snapshot (mkReuse (u64_saturating_add (ru_generation (sl_reuse slot)) 1) [] []).

(* SRC crates/exocortex-cache/src/lib.rs 545-545 RETIRED_BUFFERS *)
Definition RETIRED_BUFFERS : nat := 4.

(** [iter().position(p).and_then(|index| list.remove(index))]. *)
Fixpoint take_first {A} (p : A → bool) (l : list A) : option (A * list A) :=
  match l with
  | [] => None
  | x :: l => if p x then Some (x, l) else '(y, l) ← take_first p l; Some (y, x :: l)
  end.

(** [while p(list.front()) { list.pop_front(); }]. *)
Fixpoint drop_while {A} (p : A → bool) (l : list A) : list A :=
  match l with
  | x :: l' => if p x then drop_while p l' else l
  | [] => []
  end.

(** [iter().map(f).min()]. *)
Definition min_of {A} (f : A → Z) (l : list A) : option Z :=
  match l with
  | [] => None
  | x :: l => Some (foldl (λ acc y, Z.min acc (f y)) (f x) l)
  end.

(** [for entry in journal.filter(|e| e.generation > g) { for op in &entry.delta { op.apply(..) } }]. *)
Definition catch_up (g : Z) (journal : list SnapshotJournalEntry) : list SnapshotDelta :=
  List.filter (λ e, g <? je_generation e) journal ≫= je_delta.

(* SRC crates/exocortex-cache/src/lib.rs 535-599 publish_delta_locked *)
Definition publish_delta_locked (clk : nat → DateTime) (reader_free : RetiredSnapshot → bool)
    (delta : list SnapshotDelta) (slot : GraphSlot) (clone_count : Z) (h : H)
    : H * GraphSlot * Z * (Z * Z) :=
  let state := sl_reuse slot in
  let old_bytes := est_bytes (sl_current slot) in
  let '(h, next, retired, clone_count) :=
    match take_first reader_free (ru_retired state) with
    | Some (r, retired) =>
        let '(h, snapshot) := apply_all (catch_up (rt_generation r) (ru_journal state)) (rt_snapshot r) h in
        (h, snapshot, retired, clone_count)
    | None => (h, clone_snapshot (clk 0%nat) (sl_current slot), ru_retired state, u64_add clone_count 1)
    end in
  let '(h, next) := apply_all delta next h in
  let next := set_built_at (clk 1%nat) next in
  let generation := u64_saturating_add (ru_generation state) 1 in
  let retired := retired ++ [mkRetired (generation - 1) (sl_current slot)] in
  let retired := drop (length retired - RETIRED_BUFFERS) retired in
  let journal := ru_journal state ++ [mkEntry generation delta] in
  let journal :=
    match min_of rt_generation retired with
    | Some oldest => drop_while (λ e, je_generation e <=? oldest) journal
    | None => []
    end in
  (h, mkSlot next (mkReuse generation retired journal), clone_count, (old_bytes, est_bytes next)).

(* SRC crates/exocortex-cache/src/lib.rs 529-533 publish_delta *)
Definition publish_delta (clk : nat → DateTime) (reader_free : RetiredSnapshot → bool)
    (delta : list SnapshotDelta) (slot : GraphSlot) (clone_count : Z) (h : H)
    : H * GraphSlot * Z * (Z * Z) :=
  publish_delta_locked clk reader_free delta slot clone_count h.

(** The changes of a local submission. *)
Definition local_delta (memories : list Memory) (relationships : list Relationship) (local_lsn : Z)
    : list SnapshotDelta :=
  (UpsertMemory <$> memories) ++ (UpsertRelationship <$> relationships) ++ [AdvanceLocalLsn local_lsn].

(* SRC crates/exocortex-cache/src/lib.rs 501-527 apply_local *)
Definition slot_apply_local (clk : nat → DateTime) (reader_free : RetiredSnapshot → bool)
    (memories : list Memory) (relationships : list Relationship) (local_lsn : Z) (slot : GraphSlot)
    (clone_count : Z) (h : H) : option (H * GraphSlot * Z * (Z * Z)) :=
  if bool_decide (memories = []) && bool_decide (relationships = []) &&
     (local_lsn <=? last_local_lsn (sl_current slot))
  then None
  else Some (publish_delta_locked clk reader_free (local_delta memories relationships local_lsn)
               slot clone_count h).
End slots.
Arguments RetiredSnapshot T {SG}.
Arguments GraphSlot T {SG}.

Lemma take_first_spec {A} (p : A → bool) l x l' :
  take_first p l = Some (x, l') → p x = true ∧ ∃ l1 l2, l = l1 ++ x :: l2 ∧ l' = l1 ++ l2.
Proof.
  revert x l'. induction l as [|y l IH]; intros x l'; simpl; [done|].
  destruct (p y) eqn:Hp; [intros [= <- <-]; split; [done|]; by exists [], l|].
  destruct (take_first p l) as [[z k]|]; simpl; [|done]. intros [= <- <-].
  destruct (IH z k eq_refl) as (? & l1 & l2 & -> & ->). split; [done|]. by exists (y :: l1), l2.
Qed.

Lemma drop_while_suffix {A} (p : A → bool) l : ∃ l1, l = l1 ++ drop_while p l ∧ Forall (λ x, p x = true) l1.
Proof.
  induction l as [|x l (l1 & IH & Hl1)]; simpl; [by exists []|].
  destruct (p x) eqn:Hp; [|by exists []]. exists (x :: l1). simpl. split; [by rewrite <-IH|by constructor].
Qed.

Lemma min_of_le {A} (f : A → Z) l x m : x ∈ l → min_of f l = Some m → m ≤ f x.
Proof.
  destruct l as [|y l]; [set_solver|]. cbn [min_of].
  assert (Hle : ∀ l acc, foldl (λ acc y, Z.min acc (f y)) acc l ≤ acc ∧
            ∀ x, x ∈ l → foldl (λ acc y, Z.min acc (f y)) acc l ≤ f x).
  { clear. induction l as [|z l IH]; intros acc; simpl; [split; [lia|set_solver]|].
    destruct (IH (Z.min acc (f z))) as [I1 I2]. split; [lia|].
    intros x [->|Hx]%elem_of_cons; [lia|auto]. }
  intros Hx [= <-]. destruct (Hle l (f y)) as [H1 H2].
  apply elem_of_cons in Hx as [->|Hx]; auto.
Qed.

Lemma catch_up_snoc g j e :
  catch_up g (j ++ [e]) = catch_up g j ++ (if g <? je_generation e then je_delta e else []).
Proof.
  unfold catch_up. rewrite List.filter_app, bind_app. f_equal. simpl.
  destruct (g <? je_generation e); simpl; by rewrite ?app_nil_r.
Qed.

Lemma catch_up_old g j : Forall (λ e, je_generation e ≤ g) j → catch_up g j = [].
Proof.
  unfold catch_up. induction 1 as [|e j He Hj IH]; simpl; [done|].
  by rewrite (proj2 (Z.ltb_ge g (je_generation e)) He).
Qed.

(** Entries no retired snapshot needs may go. *)
Lemma catch_up_trim g oldest j :
  oldest ≤ g → catch_up g (drop_while (λ e, je_generation e <=? oldest) j) = catch_up g j.
Proof.
  intros Hg. destruct (drop_while_suffix (λ e, je_generation e <=? oldest) j) as (j1 & Hj & Hall).
  rewrite Hj at 2. unfold catch_up. rewrite List.filter_app, bind_app.
  fold (catch_up g j1). rewrite (catch_up_old g j1); [done|].
  eapply Forall_impl; [exact Hall|]. simpl. intros e He. apply Z.leb_le in He. lia.
Qed.

(** ** Reuse is invisible *)

Section rcu.
Context `{Interner} `{SG : StableGraph Memory Relationship} `{Unicode}.
Implicit Types (s : GraphSnapshot HandleIndex) (a : GraphSnapshot (gmap string (gset Z)))
  (h : list rodeo) (slot : GraphSlot HandleIndex).

(** The slot stands for one graph over tags: the published snapshot is it, and every retired
    snapshot, caught up from the journal, would be it too. *)
Record slot_repr h slot a : Prop := {
  sr_current : snap_repr h (sl_current slot) a;
  sr_retired r : r ∈ ru_retired (sl_reuse slot) →
    rt_generation r < ru_generation (sl_reuse slot) ∧
    ∃ ar, snap_repr h (rt_snapshot r) ar ∧
          (apply_all (catch_up (rt_generation r) (ru_journal (sl_reuse slot))) ar ()).2 = a;
  sr_journal : Forall (λ e, je_generation e ≤ ru_generation (sl_reuse slot)) (ru_journal (sl_reuse slot));
}.

Lemma slot_repr_mono h h' slot a : heap_le h h' → slot_repr h slot a → slot_repr h' slot a.
Proof.
  intros Hh [Hc Hr Hj]. split; [by eapply snap_repr_le| |done].
  intros r (? & ar & ? & ?)%Hr. split; [done|]. exists ar. split; [|done]. by eapply snap_repr_le.
Qed.

Lemma fresh_slot_repr h s a n : snap_repr h s a → slot_repr h (mkSlot s (mkReuse n [] [])) a.
Proof. intros Hs. split; [done|set_solver|constructor]. Qed.

Definition generation slot : Z := ru_generation (sl_reuse slot).

(** A publication is the changes applied to the published graph, whichever retired snapshot the
    readers leave free. *)
Lemma publish_spec clk free delta slot clones h a :
  slot_repr h slot a → 0 ≤ generation slot → generation slot + 1 < 2 ^ 64 →
  let '(h', slot', _, bytes) := publish_delta_locked clk free delta slot clones h in
  heap_le h h' ∧ slot_repr h' slot' (apply_all delta a ()).2 ∧
  generation slot' = generation slot + 1 ∧
  bytes = (est_bytes (sl_current slot), est_bytes (sl_current slot')).
Proof.
  intros [Hc Hr Hj] Hg0 Hg1. unfold publish_delta_locked, generation in *.
  destruct slot as [cur [gen retired journal]]. cbn [sl_current sl_reuse ru_generation ru_retired ru_journal] in *.
  set (pick := match take_first free retired with Some _ => _ | None => _ end).
  assert (Hpick : ∃ h1 s1 ret n, pick = (h1, s1, ret, n) ∧ heap_le h h1 ∧ snap_repr h1 s1 a ∧ ret ⊆ retired).
  { subst pick. destruct (take_first free retired) as [[r ret]|] eqn:Et.
    - apply take_first_spec in Et as (_ & l1 & l2 & -> & ->).
      destruct (Hr r ltac:(set_solver)) as (_ & ar & Har & Ha).
      pose proof (apply_all_repr (catch_up (rt_generation r) journal) h _ _ Har) as [Hh Hs].
      destruct (apply_all _ (rt_snapshot r) h) as [h1 s1]. rewrite Ha in Hs.
      eexists h1, s1, _, _. split_and!; [done..|]. set_solver.
    - eexists _, _, _, _. split_and!; [done|done| |done].
      pose proof (repr_built (clk 0%nat) (built_at a) h _ _ Hc) as Hb. by destruct a. }
  destruct Hpick as (h1 & s1 & ret & n & -> & Hh1 & Hs1 & Hret).
  pose proof (apply_all_repr delta h1 s1 a Hs1) as [Hh2 Hs2].
  destruct (apply_all delta s1 h1) as [h2 s2]. cbn [fst snd] in *.
  unfold u64_saturating_add. rewrite Z.min_r by lia.
  set (ret' := drop _ (ret ++ _)). set (jrn := journal ++ [mkEntry (gen + 1) delta]).
  split_and!; [by etrans| |done|done]. split; cbn [sl_current sl_reuse ru_generation ru_retired ru_journal].
  - pose proof (repr_built (clk 1%nat) (built_at (apply_all delta a ()).2) h2 _ _ Hs2) as Hb.
    by destruct (apply_all delta a ()) as [? []].
  - intros r Hin. assert (Hr' : r ∈ ret ∨ r = mkRetired (gen + 1 - 1) cur).
    { apply list_elem_of_In in Hin. assert (Hin' : In r (ret ++ [mkRetired (gen + 1 - 1) cur])).
      { rewrite <-(firstn_skipn (length (ret ++ [mkRetired (gen + 1 - 1) cur]) - RETIRED_BUFFERS)).
        apply in_app_iff. by right. }
      apply list_elem_of_In in Hin'. set_solver. }
    destruct (min_of rt_generation ret') as [oldest|] eqn:Eo.
    2: { destruct ret'; [set_solver|done]. }
    pose proof (min_of_le _ _ _ _ Hin Eo) as Hle. rewrite catch_up_trim by done.
    unfold jrn. rewrite catch_up_snoc. cbn [je_generation je_delta].
    destruct Hr' as [Hr'|Hr'].
    + destruct (Hr r (Hret _ Hr')) as (Hlt & ar & Har & Ha). split; [lia|]. exists ar.
      split; [eapply snap_repr_le; [|done]; by etrans|].
      rewrite (proj2 (Z.ltb_lt _ _)) by lia. rewrite apply_all_app. simpl.
      destruct (apply_all _ ar ()) as [[] a']. simpl in *. by subst.
    + rewrite Hr' in Hle |- *. cbn [rt_generation rt_snapshot]. split; [lia|]. exists a.
      split; [eapply snap_repr_le; [|done]; by etrans|].
      rewrite catch_up_old by (eapply Forall_impl; [exact Hj|]; simpl; lia).
      by rewrite (proj2 (Z.ltb_lt _ _)) by lia.
  - assert (Hjrn : Forall (λ e, je_generation e ≤ gen + 1) jrn).
    { apply Forall_app. split; [eapply Forall_impl; [exact Hj|]; simpl; lia|]. by repeat constructor. }
    destruct (min_of rt_generation ret') as [oldest|]; [|constructor].
    destruct (drop_while_suffix (λ e, je_generation e <=? oldest) jrn) as (j1 & E & _).
    rewrite E in Hjrn. by apply Forall_app in Hjrn as [_ ?].
Qed.

(** *** Sequences of publications

    What happens to a slot: a feed publication, a local submission, a rebuilt snapshot put in its
    place, or another graph interning tags in the shared heap. *)
Inductive SlotOp :=
  | OpPublish (clk : nat → DateTime) (free : RetiredSnapshot HandleIndex → bool)
      (delta : list SnapshotDelta)
  | OpLocal (clk : nat → DateTime) (free : RetiredSnapshot HandleIndex → bool)
      (ms : list Memory) (rs : list Relationship) (local_lsn : Z)
  | OpStore (s : GraphSnapshot HandleIndex) (a : GraphSnapshot (gmap string (gset Z)))
  | OpOther (h' : list rodeo).

Definition run_op (op : SlotOp) (w : list rodeo * GraphSlot HandleIndex)
    : list rodeo * GraphSlot HandleIndex :=
  let '(h, slot) := w in
  match op with
  | OpPublish clk free delta =>
      let '(h, slot, _, _) := publish_delta clk free delta slot 0 h in (h, slot)
  | OpLocal clk free ms rs local_lsn =>
      match slot_apply_local clk free ms rs local_lsn slot 0 h with
      | Some (h, slot, _, _) => (h, slot)
      | None => (h, slot)
      end
  | OpStore s _ => (h, store s slot)
  | OpOther h' => (h', slot)
  end.

(** The same changes on one graph over tags, in sequence. *)
Definition reference_op (op : SlotOp) (a : GraphSnapshot (gmap string (gset Z))) :=
  match op with
  | OpPublish _ _ delta => (apply_all delta a ()).2
  | OpLocal _ _ ms rs local_lsn =>
      if bool_decide (ms = []) && bool_decide (rs = []) && (local_lsn <=? last_local_lsn a) then a
      else (apply_all (local_delta ms rs local_lsn) a ()).2
  | OpStore _ a' => a'
  | OpOther _ => a
  end.

(** A snapshot put in place is well formed, and interning only adds. *)
Definition op_ok (h : list rodeo) (op : SlotOp) : Prop :=
  match op with
  | OpStore s a => snap_repr h s a
  | OpOther h' => heap_le h h'
  | _ => True
  end.

Fixpoint ops_ok (w : list rodeo * GraphSlot HandleIndex) (ops : list SlotOp) : Prop :=
  match ops with
  | [] => True
  | op :: ops => op_ok w.1 op ∧ ops_ok (run_op op w) ops
  end.

Lemma run_op_spec op h slot a :
  slot_repr h slot a → 0 ≤ generation slot → generation slot + 1 < 2 ^ 64 → op_ok h op →
  let '(h', slot') := run_op op (h, slot) in
  slot_repr h' slot' (reference_op op a) ∧
  generation slot ≤ generation slot' ≤ generation slot + 1.
Proof.
  intros Hr Hg0 Hg1 Hok.
  assert (Hpub : ∀ clk free delta,
    let '(h', slot', _, _) := publish_delta clk free delta slot 0 h in
    slot_repr h' slot' (apply_all delta a ()).2 ∧
    generation slot ≤ generation slot' ≤ generation slot + 1).
  { intros clk free delta. pose proof (publish_spec clk free delta slot 0 h a Hr Hg0 Hg1) as Hp.
    unfold publish_delta. destruct (publish_delta_locked _ _ _ _ _ _) as [[[h' slot'] n] b].
    destruct Hp as (_ & ? & -> & _). split; [done|lia]. }
  destruct op as [clk free delta|clk free ms rs lsn|s a'|h']; simpl in *.
  - specialize (Hpub clk free delta). by destruct (publish_delta _ _ _ _ _ _) as [[[h' slot'] n] b].
  - unfold slot_apply_local.
    pose proof (skeleton_fields _ _ (sr_skeleton _ _ _ (sr_current _ _ _ Hr)))
      as (_ & _ & _ & _ & _ & _ & El & _).
    rewrite El. destruct (bool_decide (ms = []) && _ && _)%bool; [split; [done|lia]|].
    specialize (Hpub clk free (local_delta ms rs lsn)). unfold publish_delta in Hpub.
    by destruct (publish_delta_locked _ _ _ _ _ _) as [[[h' slot'] n] b].
  - split; [by apply fresh_slot_repr|]. unfold generation in *. simpl. unfold u64_saturating_add. lia.
  - split; [by eapply slot_repr_mono|lia].
Qed.

(** C29: recycling retired snapshots is invisible: whatever readers hold, and whatever other
    graphs intern in the meantime, after any sequence of publications the published snapshot is,
    field by field and tag by tag, the one the same changes make applied in sequence to a single
    graph that nobody recycles. *)
Theorem reuse_invisible ops h slot a :
  slot_repr h slot a → 0 ≤ generation slot →
  generation slot + Z.of_nat (length ops) < 2 ^ 64 → ops_ok (h, slot) ops →
  let '(h', slot') := foldl (λ w op, run_op op w) (h, slot) ops in
  snap_repr h' (load_full slot') (foldl (λ a op, reference_op op a) a ops).
Proof.
  revert h slot a. induction ops as [|op ops IH]; intros h slot a Hr Hg0 Hg1 Hok;
    [exact (sr_current _ _ _ Hr)|].
  destruct Hok as [Hop Hok]. cbn [foldl length] in *. rewrite Nat2Z.inj_succ in Hg1.
  pose proof (run_op_spec op h slot a Hr Hg0 ltac:(lia) Hop) as Hs.
  destruct (run_op op (h, slot)) as [h1 slot1]. destruct Hs as [Hr1 Hg].
  apply (IH h1 slot1 _ Hr1); [lia..|exact Hok].
Qed.

(** A publication leaves at most [RETIRED_BUFFERS] snapshots behind it. *)
Lemma publish_bounded clk free delta slot clones h :
  let '(_, slot', _, _) := publish_delta clk free delta slot clones h in
  (length (ru_retired (sl_reuse slot')) ≤ RETIRED_BUFFERS)%nat.
Proof.
  unfold publish_delta, publish_delta_locked.
  destruct (match take_first free _ with Some _ => _ | None => _ end) as [[[h1 s1] ret] n].
  destruct (apply_all delta s1 h1) as [h2 s2]. simpl. rewrite length_drop. lia.
Qed.

(** *** Well-formed slots *)

Definition snap_wf h s : Prop := ∃ a, snap_repr h s a ∧ snap_ok a.
Definition slot_wf h slot : Prop := ∃ a, slot_repr h slot a ∧ snap_ok a ∧ 0 ≤ generation slot.

Lemma skeleton_image {T1 T2} (s : GraphSnapshot T1) (a : GraphSnapshot T2) :
  skeleton s = skeleton a → image s = image a ∧ (snap_ok s ↔ snap_ok a) ∧ est_bytes s = est_bytes a.
Proof.
  intros E. pose proof (skeleton_fields _ _ E) as (E1 & E2 & E3 & E4 & _ & _ & E7 & E8).
  unfold image, row_table, link_table, snap_ok. by rewrite E1, E2, E3, E4, E7, E8.
Qed.

Lemma slot_wf_mono h h' slot : heap_le h h' → slot_wf h slot → slot_wf h' slot.
Proof. intros Hh (a & Hr & ?). exists a. split; [by eapply slot_repr_mono|done]. Qed.

Lemma slot_wf_ok h slot : slot_wf h slot → snap_ok (sl_current slot).
Proof. intros (a & Hr & Ha & _). by apply (skeleton_image _ _ (sr_skeleton _ _ _ (sr_current _ _ _ Hr))). Qed.

Lemma fresh_slot_wf h s n : 0 ≤ n → snap_wf h s → slot_wf h (mkSlot s (mkReuse n [] [])).
Proof. intros Hn (a & Hr & Ha). exists a. split_and!; [by apply fresh_slot_repr|done|done]. Qed.

Lemma publish_wf clk free delta slot clones h :
  slot_wf h slot → generation slot + 1 < 2 ^ 64 →
  let '(h', slot', _, bytes) := publish_delta_locked clk free delta slot clones h in
  heap_le h h' ∧ slot_wf h' slot' ∧ generation slot' = generation slot + 1 ∧
  image (sl_current slot') = foldl (λ i d, image_step d i) (image (sl_current slot)) delta ∧
  bytes = (est_bytes (sl_current slot), est_bytes (sl_current slot')).
Proof.
  intros (a & Hr & Ha & Hg) Hroom. pose proof (publish_spec clk free delta slot clones h a Hr Hg Hroom) as Hp.
  destruct (publish_delta_locked _ _ _ _ _ _) as [[[h' slot'] n] b].
  destruct Hp as (? & Hr' & Hg' & ?). destruct (apply_all_spec delta a () Ha) as [Ha' Ei].
  split_and!; [done|exists (apply_all delta a ()).2; split_and!; [done|done|lia]|done| |done].
  destruct (skeleton_image _ _ (sr_skeleton _ _ _ (sr_current _ _ _ Hr'))) as [-> _].
  destruct (skeleton_image _ _ (sr_skeleton _ _ _ (sr_current _ _ _ Hr))) as [-> _]. done.
Qed.

(** An empty snapshot, and the rows added to one, are well formed. *)
Lemma empty_wf now h :
  let '(h', s) := empty now h in heap_le h h' ∧ snap_wf h' s ∧ image s = mkImage ∅ ∅ 0 0 ∧ est_bytes s = 0.
Proof.
  pose proof (tags_new_spec h) as Ht. pose proof (empty_spec now ()) as [Hok _].
  pose proof (empty_spec now h) as [_ Hi]. unfold empty in *.
  destruct (tags_new (TagIndex:=handle_index) h) as [h' i].
  change (tags_new (TagIndex:=plain_index) ()) with ((), ∅ : gmap string (gset Z)) in Hok.
  destruct Ht as [Hh Hr]. split_and!; [done| |done|done].
  eexists. split; [|exact Hok]. by split.
Qed.

Lemma apply_all_wf delta s h :
  snap_wf h s →
  let '(h', s') := apply_all delta s h in
  heap_le h h' ∧ snap_wf h' s' ∧ image s' = foldl (λ i d, image_step d i) (image s) delta.
Proof.
  intros (a & Hr & Ha). pose proof (apply_all_repr delta h s a Hr) as [Hh Hr'].
  destruct (apply_all_spec delta a () Ha) as [Ha' Ei].
  destruct (apply_all delta s h) as [h' s']. cbn [fst snd] in *.
  split_and!; [done|by eexists|].
  destruct (skeleton_image _ _ (sr_skeleton _ _ _ Hr')) as [-> _].
  by destruct (skeleton_image _ _ (sr_skeleton _ _ _ Hr)) as [-> _].
Qed.
End rcu.
