(* ===== verification/Cache.v ===== *)
(** * The local cache

    [LocalCache] of [crates/exocortex-cache/src/lib.rs]: the resident graphs of a client by
    organization, their admission and eviction under a byte budget (2Q), the single writer that
    applies the change feed, local submissions and rebuilt graphs, and the point reads and the
    bounded traversal of the graphs.

    [lru::LruCache] is an interface; the storage that hydrates feed events is the class
    [RowSource], of which the in-memory store is an instance. *)

From S2P Require Import Prelude Ids Kernel Packs Ontology StorageTypes Graph Reads Leases.
From S2P Require Import Ingest Governed Cycles Storage Snapshot Interned Slots.

(** ** Libraries *)

(** [lru::LruCache<SmolStr, ()>], as its keys from the most to the least recently used. *)
Class LruCache := {
  lru : Type;
  lru_new : Z → lru;
  lru_cap : lru → nat;
  lru_keys : lru → list string;
  lru_put : string → lru → lru;
  lru_pop : string → lru → lru;
  lru_pop_lru : lru → option (string * lru);
  lru_new_keys n : lru_keys (lru_new n) = [];
  lru_new_cap n : lru_cap (lru_new n) = Z.to_nat n;
  lru_put_keys k l :
    lru_keys (lru_put k l) = take (lru_cap l) (k :: List.filter (λ x, negb (String.eqb x k)) (lru_keys l));
  lru_put_cap k l : lru_cap (lru_put k l) = lru_cap l;
  lru_pop_keys k l : lru_keys (lru_pop k l) = List.filter (λ x, negb (String.eqb x k)) (lru_keys l);
  lru_pop_cap k l : lru_cap (lru_pop k l) = lru_cap l;
  lru_pop_lru_none l : lru_pop_lru l = None ↔ lru_keys l = [];
  lru_pop_lru_some l k l' :
    lru_pop_lru l = Some (k, l') → lru_keys l = lru_keys l' ++ [k] ∧ lru_cap l' = lru_cap l;
}.

(** [lru.contains(k)]. *)
Definition lru_contains `{LruCache} (k : string) (l : lru) : bool := bool_decide (k ∈ lru_keys l).

(** The reads of [Storage] that hydrate a cache. *)
Class RowSource (S : Type) := {
  src_memories : list MemoryId → S → result (list Memory) StorageError;
  src_relationships : list RelationshipId → S → result (list Relationship) StorageError;
  src_all_memories : S → list (result Memory StorageError);
  src_all_relationships : S → list (result Relationship StorageError);
}.

#[export] Instance in_memory_source `{HashOrder} : RowSource Store :=
  {| src_memories ids s := (get_memories ids (reads s) (graph s)).2;
     src_relationships ids s := (get_relationships ids (reads s) (graph s)).2;
     src_all_memories s := (stream_all_memories (reads s) (graph s)).2;
     src_all_relationships s := (stream_all_relationships (reads s) (graph s)).2 |}.

(** ** Traversal descriptors *)

(* SRC crates/exocortex-storage/src/types.rs 291-300 Direction *)
Inductive Direction := Out | In | Both.

(* SRC crates/exocortex-storage/src/types.rs 258-274 TraversalSpec *)
Record TraversalSpec := mkTraversalSpec {
  ts_direction : Direction;
  ts_kinds : list RelKindId;
  max_depth : Z;
  max_nodes : Z;
  ts_visibility_ctx : VisibilityContext;
  ts_as_of : option DateTime;
}.

(** [collect::<HashMap<_, _>>()] of rows by identity: a later row replaces an earlier one. *)
Definition by_key {K A} `{Countable K} (key : A → K) (rows : list A) : gmap K A :=
  foldl (λ m x, <[key x := x]> m) ∅ rows.

Section cache.
Context {H T : Type} `{TagIndex H T} `{SG : StableGraph Memory Relationship} `{Unicode}.
Context `{LC : LruCache} `{HashOrder}.

(* SRC crates/exocortex-cache/src/lib.rs 602-607 TwoQState *)
Record TwoQState := mkTwoQ {
  a1in : list string;
  am : lru;
  a1out : lru;
  tq_bytes : Z;
}.

(* SRC crates/exocortex-cache/src/lib.rs 610-615 entry_budget *)
Definition entry_budget (total : Z) : Z * Z :=
  let entries := Z.max (total / 1024) 8 in
  (entries / 4, entries / 2).

(* SRC crates/exocortex-cache/src/lib.rs 410-419 LocalCache *)
Record LocalCache := mkCache {
  graphs : gmap string (GraphSlot T);
  tq : TwoQState;
  budget : Z;
  snapshot_publications : Z;
  full_snapshot_clones : Z;
}.

Definition set_graphs x (c : LocalCache) : LocalCache :=
  mkCache x (tq c) (budget c) (snapshot_publications c) (full_snapshot_clones c).
Definition set_tq x (c : LocalCache) : LocalCache :=
  mkCache (graphs c) x (budget c) (snapshot_publications c) (full_snapshot_clones c).
Definition set_clones x (c : LocalCache) : LocalCache :=
  mkCache (graphs c) (tq c) (budget c) (snapshot_publications c) x.
(** [snapshot_publications.fetch_add(1)]. *)
Definition count_publication (c : LocalCache) : LocalCache :=
  mkCache (graphs c) (tq c) (budget c) (u64_add (snapshot_publications c) 1) (full_snapshot_clones c).
Definition set_tq_bytes x (q : TwoQState) : TwoQState := mkTwoQ (a1in q) (am q) (a1out q) x.

(* SRC crates/exocortex-cache/src/lib.rs 669-690 LocalCache::new *)
Definition LocalCache_new (budget_bytes : Z) : LocalCache :=
  let '(a1in_cap, am_cap) := entry_budget budget_bytes in
  mkCache ∅ (mkTwoQ [] (lru_new am_cap) (lru_new a1in_cap) 0) budget_bytes 0 0.

(** ** Admission *)

(** [self.graphs.get(&evicted)]'s bytes leave the account, and the graph leaves the map. *)
Definition evict_graph (evicted : string) (q : TwoQState) (gs : gmap string (GraphSlot T))
    : TwoQState * gmap string (GraphSlot T) :=
  let q := match gs !! evicted with
           | Some g => set_tq_bytes (usize_saturating_sub (tq_bytes q) (est_bytes (load_full g))) q
           | None => q
           end in
  (q, delete evicted gs).

Fixpoint evict_loop (fuel : nat) (budget : Z) (q : TwoQState) (gs : gmap string (GraphSlot T))
    : option (TwoQState * gmap string (GraphSlot T)) :=
  if tq_bytes q <=? budget then Some (q, gs)
  else
    match a1in q with
    | evicted :: rest =>
        match fuel with
        | O => None
        | S fuel =>
            let q := mkTwoQ rest (am q) (lru_put evicted (a1out q)) (tq_bytes q) in
            let '(q, gs) := evict_graph evicted q gs in
            evict_loop fuel budget q gs
        end
    | [] =>
        match lru_pop_lru (am q) with
        | Some (evicted, am') =>
            match fuel with
            | O => None
            | S fuel =>
                let q := mkTwoQ [] am' (a1out q) (tq_bytes q) in
                let '(q, gs) := evict_graph evicted q gs in
                evict_loop fuel budget q gs
            end
        | None => Some (q, gs)
        end
    end.

(** The queue an organization goes to when it is written or touched. *)
Definition enqueue (org : string) (q : TwoQState) : TwoQState :=
  if lru_contains org (am q) then mkTwoQ (a1in q) (lru_put org (am q)) (a1out q) (tq_bytes q)
  else if lru_contains org (a1out q) then
    mkTwoQ (a1in q) (lru_put org (am q)) (lru_pop org (a1out q)) (tq_bytes q)
  else if bool_decide (org ∈ a1in q) then
    mkTwoQ (List.filter (λ o, negb (String.eqb o org)) (a1in q)) (lru_put org (am q)) (a1out q)
      (tq_bytes q)
  else mkTwoQ (a1in q ++ [org]) (am q) (a1out q) (tq_bytes q).

(** Enough turns for the loop: every one takes an entry from a queue. *)
Definition evict_fuel (q : TwoQState) : nat := length (a1in q) + length (lru_keys (am q)).

(* SRC crates/exocortex-cache/src/lib.rs 943-990 admit *)
Definition cache_admit (org : string) (c : LocalCache) : LocalCache :=
  let q := enqueue org (tq c) in
  match evict_loop (evict_fuel q) (budget c) q (graphs c) with
  | Some (q, gs) => set_graphs gs (set_tq q c)
  | None => c
  end.

(** ** Publications *)

(** The reconciliation of the account with a publication's sizes. *)
Definition account (bytes : Z * Z) (q : TwoQState) : TwoQState :=
  let '(old_bytes, new_bytes) := bytes in
  if old_bytes <=? new_bytes then set_tq_bytes (tq_bytes q + (new_bytes - old_bytes)) q
  else set_tq_bytes (usize_saturating_sub (tq_bytes q) (old_bytes - new_bytes)) q.

(** A snapshot replaces an organization's graph: the shared body of [Reseed] and [publish]. *)
Definition put_snapshot (now : DateTime) (org : string) (snapshot : GraphSnapshot T) (c : LocalCache)
    (h : H) : H * LocalCache :=
  let q := tq c in
  let old := match graphs c !! org with Some g => est_bytes (load_full g) | None => 0 end in
  let q := set_tq_bytes (usize_saturating_sub (tq_bytes q) old + est_bytes snapshot) q in
  let '(h, slot) := match graphs c !! org with
                    | Some g => (h, g)
                    | None => let '(h, e) := empty now h in (h, GraphSlot_new e)
                    end in
  let c := set_graphs (<[org := store snapshot slot]> (graphs c)) (set_tq q c) in
  (h, cache_admit org (count_publication c)).

(* SRC crates/exocortex-cache/src/lib.rs 1390-1412 publish *)
Definition cache_publish (now : DateTime) (org : string) (snapshot : GraphSnapshot T) (c : LocalCache)
    (h : H) : H * LocalCache :=
  put_snapshot now org snapshot c h.

(** The slot of an organization, created empty when there is none. *)
Definition slot_or_empty (now : DateTime) (org : string) (c : LocalCache) (h : H)
    : H * GraphSlot T :=
  match graphs c !! org with
  | Some g => (h, g)
  | None => let '(h, e) := empty now h in (h, GraphSlot_new e)
  end.

(* SRC crates/exocortex-cache/src/lib.rs 1260-1298 LocalCache::apply_local *)
Definition apply_local (clk : nat → DateTime) (free : RetiredSnapshot T → bool) (org : string)
    (memories : list Memory) (relationships : list Relationship) (local_lsn : Z) (c : LocalCache)
    (h : H) : H * LocalCache :=
  let '(h, g) := slot_or_empty (clk 2%nat) org c h in
  let c := set_graphs (<[org := g]> (graphs c)) c in
  match slot_apply_local clk free memories relationships local_lsn g (full_snapshot_clones c) h with
  | None => (h, c)
  | Some (h, g, clones, bytes) =>
      let c := set_clones clones (set_graphs (<[org := g]> (graphs c)) c) in
      let c := set_tq (account bytes (tq c)) c in
      (h, cache_admit org (count_publication c))
  end.

(* SRC crates/exocortex-cache/src/lib.rs 1246-1258 advance_local_lsn *)
Definition advance_local_lsn (clk : nat → DateTime) (free : RetiredSnapshot T → bool) (org : string)
    (local_lsn : Z) (c : LocalCache) (h : H) : H * LocalCache :=
  match graphs c !! org with
  | None => (h, c)
  | Some g =>
      match slot_apply_local clk free [] [] local_lsn g (full_snapshot_clones c) h with
      | None => (h, c)
      | Some (h, g, clones, _) =>
          (h, count_publication (set_clones clones (set_graphs (<[org := g]> (graphs c)) c)))
      end
  end.

(* SRC crates/exocortex-cache/src/lib.rs 1300-1327 hydrate_memory *)
Definition hydrate_memory (clk : nat → DateTime) (free : RetiredSnapshot T → bool) (org : string)
    (memory : Memory) (c : LocalCache) (h : H) : H * LocalCache :=
  let backend_lsn := lsn_value (m_lsn memory) in
  let '(h, g) := slot_or_empty (clk 2%nat) org c h in
  let '(h, g, clones, bytes) := publish_delta clk free
      [UpsertMemory memory; AdvanceBackendLsn backend_lsn] g (full_snapshot_clones c) h in
  let c := set_clones clones (set_graphs (<[org := g]> (graphs c)) c) in
  let c := set_tq (account bytes (tq c)) c in
  (h, cache_admit org (count_publication c)).

(** The rows of a new snapshot, memories first. *)
Definition build_rows (now : DateTime) (memories : list Memory) (relationships : list Relationship)
    (h : H) : H * GraphSnapshot T :=
  let '(h, snap) := empty now h in
  apply_all ((UpsertMemory <$> memories) ++ (UpsertRelationship <$> relationships)) snap h.

(* SRC crates/exocortex-cache/src/lib.rs 1329-1352 seed_local *)
Definition seed_local (now : DateTime) (org : string) (memories : list Memory)
    (relationships : list Relationship) (last_local_lsn : Z) (c : LocalCache) (h : H)
    : H * LocalCache :=
  let '(h, snap) := build_rows now memories relationships h in
  cache_publish now org (set_local_lsn last_local_lsn snap) c h.

(** The snapshot [reseed_rows] submits to the writer. *)
(* SRC crates/exocortex-cache/src/lib.rs 1457-1475 reseed_rows *)
Definition reseed_rows (now : DateTime) (memories : list Memory) (relationships : list Relationship)
    (backend_lsn : Z) (h : H) : H * GraphSnapshot T :=
  let '(h, snap) := build_rows now memories relationships h in
  (h, set_backend_lsn backend_lsn snap).

(** ** The writer *)

Section writer.
Context {S : Type} `{RowSource S}.

(** The rows a burst needs: sorted, deduplicated, read in one batch. *)
Definition hydrate_memories (invalidations : list Invalidation) (storage : S)
    : result (gmap MemoryId Memory) StorageError :=
  let memory_ids := dedup (merge_sort (le_of compare_mid) (omap (λ i,
      match i with MemoryUpserted id _ => Some id | _ => None end) invalidations)) in
  if bool_decide (memory_ids = []) then Ok ∅
  else let? rows := src_memories memory_ids storage in Ok (by_key m_id rows).

Definition hydrate_relationships (invalidations : list Invalidation) (storage : S)
    : result (gmap RelationshipId Relationship) StorageError :=
  let relationship_ids := dedup (merge_sort (le_of compare_rid) (omap (λ i,
      match i with RelationshipUpserted id _ _ _ _ => Some id | _ => None end) invalidations)) in
  if bool_decide (relationship_ids = []) then Ok ∅
  else let? rows := src_relationships relationship_ids storage in Ok (by_key r_id rows).

(** The changes one event makes. *)
Definition event_delta (ms : gmap MemoryId Memory) (rs : gmap RelationshipId Relationship)
    (inv : Invalidation) : result (list SnapshotDelta) StorageError :=
  match inv with
  | MemoryUpserted id lsn =>
      Ok [match ms !! id with Some memory => UpsertMemory memory | None => DeleteMemory id end;
          AdvanceBackendLsn lsn]
  | MemoryDeleted id lsn => Ok [DeleteMemory id; AdvanceBackendLsn lsn]
  | RelationshipUpserted id _ _ _ lsn =>
      let? relationship := ok_or (rs !! id) (Backend "relationship invalidation row missing") in
      Ok [UpsertRelationship relationship; AdvanceBackendLsn lsn]
  | RelationshipDeleted id lsn => Ok [DeleteRelationship id; AdvanceBackendLsn lsn]
  | VisibilityAdvance lsn | DiscoveryAvailable _ lsn => Ok [AdvanceBackendLsn lsn]
  | MemorySnapshotUpserted memory lsn => Ok [UpsertMemory memory; AdvanceBackendLsn lsn]
  | RelationshipSnapshotUpserted relationship lsn =>
      Ok [UpsertRelationship relationship; AdvanceBackendLsn lsn]
  | GraphReseed _ _ => Err (Backend "graph reseed must use the atomic reseed path")
  end.

Fixpoint events_delta (ms : gmap MemoryId Memory) (rs : gmap RelationshipId Relationship)
    (invs : list Invalidation) : result (list SnapshotDelta) StorageError :=
  match invs with
  | [] => Ok []
  | inv :: invs =>
      let? d := event_delta ms rs inv in
      let? delta := events_delta ms rs invs in
      Ok (d ++ delta)
  end.

(* SRC crates/exocortex-cache/src/lib.rs 938-941 org_of_write *)
Definition org_of_write (c : LocalCache) : option string := head (hash_iter (graphs c)).*1.

(* SRC crates/exocortex-cache/src/lib.rs 805-936 apply_batch *)
Definition apply_batch (clk : nat → DateTime) (free : RetiredSnapshot T → bool) (storage : S)
    (invalidations : list Invalidation) (c : LocalCache) (h : H)
    : H * LocalCache * result () StorageError :=
  match (
    let? org := ok_or (org_of_write c) (Backend "cache invalidation has no resident org graph") in
    let? g := ok_or (graphs c !! org)
                (Backend "cache invalidation target was evicted before publication") in
    let? ms := hydrate_memories invalidations storage in
    let? rs := hydrate_relationships invalidations storage in
    let? delta := events_delta ms rs invalidations in
    Ok (org, g, delta)) with
  | Err e => (h, c, Err e)
  | Ok (org, g, delta) =>
      if bool_decide (delta = []) then (h, c, Ok tt)
      else
        let '(h, g, clones, bytes) := publish_delta clk free delta g (full_snapshot_clones c) h in
        let c := count_publication (set_clones clones (set_graphs (<[org := g]> (graphs c)) c)) in
        let c := set_tq (account bytes (tq c)) c in
        (h, cache_admit org c, Ok tt)
  end.

(** One message of the writer's channel; [ack] names the sender waiting for it. *)
(* SRC crates/exocortex-cache/src/lib.rs 618-659 CacheWrite *)
Inductive CacheWrite :=
  | Apply (inv : Invalidation)
  | ApplyAcknowledged (inv : Invalidation) (ack : nat)
  | ApplyBatchAcknowledged (invs : list Invalidation) (ack : nat)
  | Reseed (org : string) (snapshot : GraphSnapshot T) (ack : option nat)
  | Evict (org : string)
  | Barrier (ack : nat).

(* SRC crates/exocortex-cache/src/lib.rs 663-666 PendingApply *)
Record PendingApply := mkPending {
  pa_invalidation : Invalidation;
  pa_ack : option nat;
}.

(** What a sender is told. *)
Inductive Reply :=
  | Applied (ack : nat) (r : result () string)
  | Signalled (ack : nat).

(** The writer between two messages: the cache, the heap, the events waiting, the replies sent and
    how many bursts it has published (each reads the storage as it then is). *)
Record Writer := mkWriter {
  w_cache : LocalCache;
  w_heap : H;
  w_pending : list PendingApply;
  w_replies : list Reply;
  w_bursts : nat;
}.

(** The environment of the writer: clocks, readers and the storage, each burst seeing its own. *)
Record Env := mkEnv {
  ev_clock : nat → nat → DateTime;
  ev_free : nat → RetiredSnapshot T → bool;
  ev_storage : nat → S;
}.

(* SRC crates/exocortex-cache/src/lib.rs 784-803 apply_pending *)
Definition apply_pending (env : Env) (w : Writer) : Writer :=
  let '(mkWriter c h pending replies n) := w in
  match pending with
  | [] => w
  | _ =>
      let '(h, c, r) := apply_batch (ev_clock env n) (ev_free env n) (ev_storage env n)
                          (pa_invalidation <$> pending) c h in
      let result := match r with Ok _ => Ok tt | Err e => Err (StorageError_to_string e) end in
      mkWriter c h [] (replies ++ omap (λ p, (λ a, Applied a result) <$> pa_ack p) pending) (n + 1)%nat
  end.

(** The events of a burst; the last one carries the acknowledgement. *)
Fixpoint burst (invs : list Invalidation) (ack : nat) : list PendingApply :=
  match invs with
  | [] => []
  | [inv] => [mkPending inv (Some ack)]
  | inv :: invs => mkPending inv None :: burst invs ack
  end.

Definition enqueue_pending (ps : list PendingApply) (w : Writer) : Writer :=
  mkWriter (w_cache w) (w_heap w) (w_pending w ++ ps) (w_replies w) (w_bursts w).
Definition reply (r : list Reply) (w : Writer) : Writer :=
  mkWriter (w_cache w) (w_heap w) (w_pending w) (w_replies w ++ r) (w_bursts w).

(** One message of the loop's body. *)
Definition handle_message (env : Env) (msg : CacheWrite) (w : Writer) : Writer :=
  match msg with
  | Apply inv => enqueue_pending [mkPending inv None] w
  | ApplyAcknowledged inv ack => enqueue_pending [mkPending inv (Some ack)] w
  | ApplyBatchAcknowledged [] ack => reply [Applied ack (Ok tt)] w
  | ApplyBatchAcknowledged invs ack => enqueue_pending (burst invs ack) w
  | Reseed org snapshot ack =>
      let w := apply_pending env w in
      let '(h, c) := put_snapshot (ev_clock env (w_bursts w) 3%nat) org snapshot (w_cache w) (w_heap w) in
      reply (match ack with Some a => [Signalled a] | None => [] end)
        (mkWriter c h (w_pending w) (w_replies w) (w_bursts w))
  | Evict org =>
      let w := apply_pending env w in
      mkWriter (set_graphs (delete org (graphs (w_cache w))) (w_cache w)) (w_heap w) (w_pending w)
        (w_replies w) (w_bursts w)
  | Barrier ack => reply [Signalled ack] (apply_pending env w)
  end.

(** One turn of the loop: the messages drained together, then what they left pending. *)
(* SRC crates/exocortex-cache/src/lib.rs 692-782 run *)
Definition run_batch (env : Env) (messages : list CacheWrite) (w : Writer) : Writer :=
  apply_pending env (foldl (λ w msg, handle_message env msg w) w messages).

(** The writer loop over the batches it drains until its channel closes. *)
Definition run (env : Env) (batches : list (list CacheWrite)) (w : Writer) : Writer :=
  foldl (λ w messages, run_batch env messages w) w batches.

(* SRC crates/exocortex-cache/src/lib.rs 1427-1440 reseed_from_storage *)
Definition reseed_from_storage (now : DateTime) (storage : S) (h : H)
    : result (H * GraphSnapshot T) StorageError :=
  from_streams now (src_all_memories storage) (src_all_relationships storage) h.
End writer.

(** ** Reads *)

Section reads.
Implicit Types (c : LocalCache).

Definition graph_of (org : string) (c : LocalCache) : option (GraphSnapshot T) :=
  load_full <$> graphs c !! org.

(* SRC crates/exocortex-cache/src/lib.rs 992-1002 get_memory *)
Definition cache_get_memory (org : string) (id : MemoryId) (vc : VisibilityContext) (c : LocalCache)
    : option Memory :=
  snap ← graph_of org c;
  ix ← by_id snap !! id;
  m ← sg_nodes (petgraph snap) !! ix;
  if negb (visible m vc) then None else Some m.

(* SRC crates/exocortex-cache/src/lib.rs 1004-1035 superseded_by *)
Definition superseded_by (org : string) (id : MemoryId) (vc : VisibilityContext)
    (supersedes_kinds : list RelKindId) (c : LocalCache) : option Memory :=
  snap ← graph_of org c;
  node ← by_id snap !! id;
  head (omap (λ e : nat * (nat * nat * Relationship),
      let er := e.2.2 in
      if bool_decide (r_kind er ∈ supersedes_kinds) &&
         (vis_u8 (r_visibility er) <=? vis_u8 (max_visibility vc))
      then m ← sg_nodes (petgraph snap) !! e.2.1.1; if visible m vc then Some m else None
      else None)
    (edges_directed node Incoming (petgraph snap))).

(** The traversal's state: rows found, queue, nodes seen. *)
Record Walk := mkWalk {
  wk_out : list Memory;
  wk_queue : list (nat * Z);
  wk_seen : gset nat;
}.

(** The closure [visit]: one edge at a node of depth [d], leading to [other]. *)
Definition visit (snap : GraphSnapshot T) (spec : TraversalSpec) (d : Z) (w : Walk)
    (edge : nat * Relationship) : Walk :=
  let '(other, er) := edge in
  if negb (bool_decide (ts_kinds spec = [])) && negb (bool_decide (r_kind er ∈ ts_kinds spec)) then w
  else if vis_u8 (max_visibility (ts_visibility_ctx spec)) <? vis_u8 (r_visibility er) then w
  else
    match sg_nodes (petgraph snap) !! other with
    | None => w
    | Some m =>
        if negb (visible m (ts_visibility_ctx spec)) || bool_decide (other ∈ wk_seen w) then w
        else
          mkWalk (wk_out w ++ [m])
            (if d + 1 <? max_depth spec then wk_queue w ++ [(other, d + 1)] else wk_queue w)
            ({[other]} ∪ wk_seen w)
    end.

(** The hops from a node, in the order the two loops take them. *)
Definition hops (snap : GraphSnapshot T) (dir : Direction) (n : nat) : list (nat * Relationship) :=
  let out := (λ e : nat * (nat * nat * Relationship), (e.2.1.2, e.2.2)) <$>
               edges_directed n Outgoing (petgraph snap) in
  let inc := (λ e : nat * (nat * nat * Relationship), (e.2.1.1, e.2.2)) <$>
               edges_directed n Incoming (petgraph snap) in
  match dir with Out => out | In => inc | Both => out ++ inc end.

Fixpoint traverse_loop (fuel : nat) (snap : GraphSnapshot T) (spec : TraversalSpec) (w : Walk)
    : option (list Memory) :=
  match wk_queue w with
  | [] => Some (wk_out w)
  | (n, d) :: queue =>
      if max_nodes spec <=? Z.of_nat (length (wk_out w)) then Some (wk_out w)
      else
        match fuel with
        | O => None
        | Datatypes.S fuel =>
            traverse_loop fuel snap spec
              (foldl (visit snap spec d) (mkWalk (wk_out w) queue (wk_seen w))
                 (hops snap (ts_direction spec) n))
        end
  end.

(* SRC crates/exocortex-cache/src/lib.rs 1037-1101 traverse *)
Definition cache_traverse (org : string) (from : MemoryId) (spec : TraversalSpec) (c : LocalCache)
    : option (list Memory) :=
  match graph_of org c with
  | None => Some []
  | Some snap =>
      match by_id snap !! from with
      | None => Some []
      | Some start =>
          if match sg_nodes (petgraph snap) !! start with
             | Some memory => visible memory (ts_visibility_ctx spec) | None => false end
          then traverse_loop (size (sg_nodes (petgraph snap))) snap spec
                 (mkWalk [] [(start, 0)] {[start]})
          else Some []
      end
  end.

(* SRC crates/exocortex-cache/src/lib.rs 1200-1209 version *)
Definition version (org : string) (c : LocalCache) : option (Z * Z) :=
  snap ← graph_of org c; Some (last_local_lsn snap, last_backend_lsn snap).
End reads.
End cache.
Arguments LocalCache T {SG LC}.
