(* ===== verification/CacheSpec.v ===== *)
(** * What the local cache promises

    The account and the budget of the 2Q admission, the exact effect of a burst of feed events,
    and the acknowledgements of the writer ([crates/exocortex-cache/src/lib.rs]). *)

From S2P Require Import Prelude Ids Kernel Packs Ontology StorageTypes Graph Reads Leases.
From S2P Require Import Ingest Governed Cycles Storage Snapshot Interned Slots Cache.

Section budget.
Context `{Interner} `{SG : StableGraph Memory Relationship} `{Unicode} `{LC : LruCache} `{HashOrder}.
Implicit Types (c : LocalCache HandleIndex) (q : TwoQState) (gs : gmap string (GraphSlot HandleIndex))
  (h : list rodeo).

(** ** The account *)

Definition slot_bytes (g : GraphSlot HandleIndex) : Z := est_bytes (load_full g).
Definition resident_bytes gs : Z := map_sum slot_bytes gs.

Definition slots_wf h gs : Prop := map_Forall (λ _ g, slot_wf h g) gs.

(** Every resident graph that takes room is in a queue the budget can evict it from. *)
Definition queued q gs : Prop :=
  ∀ org g, gs !! org = Some g → slot_bytes g ≠ 0 → org ∈ a1in q ∨ org ∈ lru_keys (am q).

Record cache_ok h c : Prop := {
  co_slots : slots_wf h (graphs c);
  co_bytes : tq_bytes (tq c) = resident_bytes (graphs c);
  co_queued : queued (tq c) (graphs c);
}.

Lemma slot_bytes_nonneg h g : slot_wf h g → 0 ≤ slot_bytes g.
Proof.
  intros Hw%slot_wf_ok. unfold slot_bytes, load_full. rewrite (ok_bytes _ _ _ _ Hw).
  pose proof (map_sum_nonneg estimate (sg_nodes (petgraph (sl_current g))) estimate_nonneg).
  pose proof (map_sum_nonneg (λ _, 256) (sg_edges (petgraph (sl_current g))) ltac:(done)). lia.
Qed.

Lemma sum_nonneg {K V} `{Countable K} (f : V → Z) (m : gmap K V) :
  map_Forall (λ _ v, 0 ≤ f v) m → 0 ≤ map_sum f m.
Proof.
  induction m as [|k v m Hk IH] using map_ind; intros Hf; [by rewrite map_sum_empty|].
  rewrite map_sum_insert by done. apply map_Forall_insert in Hf as [Hv Hm]; [|done].
  specialize (IH Hm). lia.
Qed.

Lemma slots_nonneg h gs : slots_wf h gs → 0 ≤ resident_bytes gs.
Proof. intros Hw. apply sum_nonneg. eapply map_Forall_impl; [exact Hw|]. intros o g. apply slot_bytes_nonneg. Qed.

(** The graph a read loads is well formed. *)
Lemma graph_of_ok h c org snap : cache_ok h c → graph_of org c = Some snap → snap_ok snap.
Proof.
  intros [Hw _ _]. unfold graph_of. destruct (graphs c !! org) as [g|] eqn:Hg; [|done].
  intros [= <-]. by eapply slot_wf_ok, Hw.
Qed.

Lemma slots_wf_delete h gs org : slots_wf h gs → slots_wf h (delete org gs).
Proof. apply map_Forall_delete. Qed.

(** ** Eviction *)

Lemma evict_graph_spec h org q gs q' gs' :
  slots_wf h gs → tq_bytes q = resident_bytes gs → evict_graph org q gs = (q', gs') →
  gs' = delete org gs ∧ tq_bytes q' = resident_bytes gs' ∧
  a1in q' = a1in q ∧ am q' = am q ∧ a1out q' = a1out q.
Proof.
  intros Hw Hb [= <- <-]. destruct (gs !! org) as [g|] eqn:Hg.
  - split_and!; try done. simpl. rewrite Hb. unfold resident_bytes.
    rewrite (map_sum_delete _ _ _ _ Hg). fold (slot_bytes g).
    pose proof (slot_bytes_nonneg h g (Hw _ _ Hg)).
    pose proof (slots_nonneg h (delete org gs) (slots_wf_delete _ _ _ Hw)).
    unfold resident_bytes in *. unfold usize_saturating_sub. lia.
  - split_and!; try done. by rewrite delete_id.
Qed.

Lemma queued_delete q q' gs org :
  queued q gs →
  (∀ o, o ≠ org → o ∈ a1in q ∨ o ∈ lru_keys (am q) → o ∈ a1in q' ∨ o ∈ lru_keys (am q')) →
  queued q' (delete org gs).
Proof. intros Hq Hk o g [Hne Hg]%lookup_delete_Some Hb. apply Hk; [done|]. by eapply Hq. Qed.

(** The loop ends within its fuel; it only evicts, keeps the account exact, and stops at the
    budget or with nothing left to evict. *)
Lemma evict_loop_spec h fuel b q gs :
  slots_wf h gs → tq_bytes q = resident_bytes gs → queued q gs → (evict_fuel q ≤ fuel)%nat →
  ∃ q' gs', evict_loop fuel b q gs = Some (q', gs') ∧
    gs' ⊆ gs ∧ tq_bytes q' = resident_bytes gs' ∧ queued q' gs' ∧
    (tq_bytes q' ≤ b ∨ a1in q' = [] ∧ lru_keys (am q') = []).
Proof.
  revert q gs. induction fuel as [|fuel IH]; intros q gs Hw Hb Hq Hf; simpl;
    destruct (Z.leb_spec (tq_bytes q) b) as [Hle|Hgt]; try (eexists _, _; by split_and!; auto).
  - unfold evict_fuel in Hf. destruct (a1in q) as [|o rest] eqn:Ea; simpl in Hf; [|lia].
    assert (lru_keys (am q) = []) as Ek by (apply length_zero_iff_nil; lia).
    rewrite (proj2 (lru_pop_lru_none (am q)) Ek). eexists _, _; split_and!; auto.
  - assert (Hstep : ∀ org q1, tq_bytes q1 = tq_bytes q → (evict_fuel q1 ≤ fuel)%nat →
      (∀ o, o ≠ org → o ∈ a1in q ∨ o ∈ lru_keys (am q) → o ∈ a1in q1 ∨ o ∈ lru_keys (am q1)) →
      ∃ q' gs', (let '(q, gs) := evict_graph org q1 gs in evict_loop fuel b q gs) = Some (q', gs') ∧
        gs' ⊆ gs ∧ tq_bytes q' = resident_bytes gs' ∧ queued q' gs' ∧
        (tq_bytes q' ≤ b ∨ a1in q' = [] ∧ lru_keys (am q') = [])).
    { intros org q1 Hb1 Hf1 Hk. destruct (evict_graph org q1 gs) as [q2 gs2] eqn:Ee.
      apply (evict_graph_spec h) in Ee as (-> & Hb2 & Ea2 & Em2 & _); [|done|congruence].
      destruct (IH q2 (delete org gs)) as (q' & gs' & ? & ? & ? & ? & ?);
        [by apply slots_wf_delete|done| |unfold evict_fuel in *; by rewrite Ea2, Em2|].
      - eapply queued_delete; [exact Hq|]. intros o Ho Hin. rewrite Ea2, Em2. auto.
      - exists q', gs'. split_and!; try done. etrans; [done|apply delete_subseteq]. }
    unfold evict_fuel in Hf. destruct (a1in q) as [|o rest] eqn:Ea; simpl in Hf.
    + destruct (lru_pop_lru (am q)) as [[o am']|] eqn:Ep.
      * apply lru_pop_lru_some in Ep as [Ek _]. rewrite Ek, length_app in Hf. simpl in Hf.
        apply (Hstep o (mkTwoQ [] am' (a1out q) (tq_bytes q)));
          [done|unfold evict_fuel; simpl; lia|]. rewrite Ek. set_solver.
      * apply lru_pop_lru_none in Ep. eexists _, _; split_and!; auto.
    + apply (Hstep o (mkTwoQ rest (am q) (lru_put o (a1out q)) (tq_bytes q)));
        [done|unfold evict_fuel; simpl; lia|set_solver].
Qed.

(** ** Admission *)

(** The frequent queue has a place for an organization. *)
Definition lru_room (org : string) (l : lru) : Prop :=
  (length (org :: List.filter (λ x, negb (String.eqb x org)) (lru_keys l)) ≤ lru_cap l)%nat.

Lemma elem_of_others (o org : string) (l : list string) :
  o ∈ List.filter (λ x, negb (String.eqb x org)) l ↔ o ∈ l ∧ o ≠ org.
Proof.
  rewrite !list_elem_of_In, List.filter_In. rewrite negb_true_iff, String.eqb_neq. done.
Qed.

Lemma lru_put_elem o org l : lru_room org l → o ∈ lru_keys (lru_put org l) ↔ o = org ∨ o ∈ lru_keys l.
Proof.
  intros Hr. rewrite lru_put_keys, take_ge by done. rewrite elem_of_cons, elem_of_others.
  destruct (decide (o = org)); naive_solver.
Qed.

Lemma enqueue_spec org q :
  lru_room org (am q) →
  tq_bytes (enqueue org q) = tq_bytes q ∧
  ∀ o, o ∈ a1in (enqueue org q) ∨ o ∈ lru_keys (am (enqueue org q)) ↔
       o = org ∨ o ∈ a1in q ∨ o ∈ lru_keys (am q).
Proof.
  intros Hr. unfold enqueue, lru_contains.
  case_bool_decide; [split; [done|]; intros o; simpl; rewrite lru_put_elem by done; tauto|].
  case_bool_decide; [split; [done|]; intros o; simpl; rewrite lru_put_elem by done; tauto|].
  case_bool_decide; (split; [done|]); intros o; simpl.
  - rewrite lru_put_elem, elem_of_others by done. destruct (decide (o = org)); naive_solver.
  - rewrite elem_of_app, list_elem_of_singleton. tauto.
Qed.

(** Admission enforces the budget, whatever the queues held, and leaves the account exact. *)
Lemma cache_admit_spec h org c :
  slots_wf h (graphs c) → tq_bytes (tq c) = resident_bytes (graphs c) →
  (∀ o g, graphs c !! o = Some g → o ≠ org → slot_bytes g ≠ 0 →
     o ∈ a1in (tq c) ∨ o ∈ lru_keys (am (tq c))) →
  lru_room org (am (tq c)) → 0 ≤ budget c →
  let c' := cache_admit org c in
  cache_ok h c' ∧ graphs c' ⊆ graphs c ∧ resident_bytes (graphs c') ≤ budget c ∧
  budget c' = budget c ∧ snapshot_publications c' = snapshot_publications c.
Proof.
  intros Hw Hb Hq Hr Hbud. cbv zeta. unfold cache_admit.
  destruct (enqueue_spec org (tq c) Hr) as [Eb Ek].
  destruct (evict_loop_spec h (evict_fuel (enqueue org (tq c))) (budget c) (enqueue org (tq c)) (graphs c))
    as (q' & gs' & -> & Hsub & Hb' & Hq' & Hend); [done|congruence| |done|].
  { intros o g Hg Hne. apply Ek. destruct (decide (o = org)); [by left|right; eauto]. }
  assert (Hw' : slots_wf h gs') by (intros o g Hg; by eapply Hw, lookup_weaken).
  split_and!; [by split|done| |done|done]. simpl. destruct Hend as [?|[E1 E2]]; [lia|].
  unfold resident_bytes. assert (Hz : ∀ o g, gs' !! o = Some g → slot_bytes g = 0).
  { intros o g Hg. destruct (decide (slot_bytes g = 0)) as [|Hne]; [done|].
    destruct (Hq' o g Hg Hne) as [Hin|Hin]; rewrite ?E1, ?E2 in Hin; set_solver. }
  clear -Hz Hbud. assert (map_sum slot_bytes gs' = 0) as ->; [|done].
  induction gs' as [|o g gs Ho IH] using map_ind; [by rewrite map_sum_empty|].
  rewrite map_sum_insert by done. rewrite (Hz o g) by apply lookup_insert_eq. rewrite IH; [done|].
  intros o' g' Hg'. apply (Hz o'). rewrite lookup_insert_ne; [done|congruence].
Qed.

(** ** Writes *)

Lemma slots_wf_mono h h' gs : heap_le h h' → slots_wf h gs → slots_wf h' gs.
Proof. intros Hh Hw. eapply map_Forall_impl; [exact Hw|]. intros o g. by apply slot_wf_mono. Qed.

Lemma account_fields bytes q :
  a1in (account bytes q) = a1in q ∧ am (account bytes q) = am q.
Proof. unfold account. destruct bytes as [x y]. by destruct (x <=? y). Qed.

Lemma account_bytes h gs org g g' q :
  slots_wf h gs → tq_bytes q = resident_bytes gs → gs !! org = Some g ∨ gs !! org = None ∧ slot_bytes g = 0 →
  0 ≤ slot_bytes g' →
  tq_bytes (account (slot_bytes g, slot_bytes g') q) = resident_bytes (<[org := g']> gs).
Proof.
  intros Hw Hb Hg Hg'. unfold account, resident_bytes, usize_saturating_sub in *.
  destruct Hg as [Hg|[Hg Hz]].
  - rewrite (map_sum_replace _ _ _ _ _ Hg). rewrite (map_sum_delete _ _ _ _ Hg) in Hb |- *.
    pose proof (slots_nonneg h (delete org gs) (slots_wf_delete _ _ _ Hw)). unfold resident_bytes in *.
    destruct (Z.leb_spec (slot_bytes g) (slot_bytes g')); simpl; lia.
  - rewrite map_sum_insert by done. rewrite Hz in *.
    rewrite (proj2 (Z.leb_le 0 (slot_bytes g')) Hg'). simpl. lia.
Qed.

(** There is room for one more organization in the frequent queue. *)
Definition room_in_am c : Prop := (length (lru_keys (am (tq c))) < lru_cap (am (tq c)))%nat.

Lemma room_any org c : room_in_am c → lru_room org (am (tq c)).
Proof.
  unfold room_in_am, lru_room. intros Hr. simpl.
  pose proof (List.filter_length_le (λ x, negb (String.eqb x org)) (lru_keys (am (tq c)))). lia.
Qed.

(** A slot replaced and accounted for, then admitted. *)
Lemma admit_after h h' c org g g' c1 :
  cache_ok h c → heap_le h h' → slot_wf h' g' →
  graphs c !! org = Some g ∨ graphs c !! org = None ∧ slot_bytes g = 0 →
  graphs c1 = <[org := g']> (graphs c) → tq c1 = account (slot_bytes g, slot_bytes g') (tq c) →
  budget c1 = budget c → 0 ≤ budget c → room_in_am c →
  let c' := cache_admit org c1 in
  cache_ok h' c' ∧ graphs c' ⊆ <[org := g']> (graphs c) ∧ resident_bytes (graphs c') ≤ budget c ∧
  budget c' = budget c ∧ snapshot_publications c' = snapshot_publications c1.
Proof.
  intros [Hw Hb Hq] Hh Hg' Hg Egs Etq Ebud Hbud Hroom.
  pose proof (slots_wf_mono _ _ _ Hh Hw) as Hw'. destruct (account_fields (slot_bytes g, slot_bytes g') (tq c)) as [Ea Em].
  destruct (cache_admit_spec h' org c1) as (? & Hsub & Hle & Eb' & ?).
  - rewrite Egs. by apply map_Forall_insert_2.
  - rewrite Egs, Etq. eapply account_bytes; [done|done|done|]. by eapply slot_bytes_nonneg.
  - intros o g0 Ho Hne Hb0. rewrite Etq, Ea, Em. rewrite Egs, lookup_insert_ne in Ho by done. by eapply Hq.
  - rewrite Etq, Em. by apply room_any.
  - lia.
  - cbv zeta. rewrite Ebud in *. rewrite Egs in Hsub. by split_and!.
Qed.

(** What is written to the cache by its public operations. *)
Inductive CacheOp {S : Type} :=
  | CPut (now : DateTime) (org : string) (snapshot : GraphSnapshot HandleIndex)
  | CLocal (clk : nat → DateTime) (free : RetiredSnapshot HandleIndex → bool) (org : string)
      (ms : list Memory) (rs : list Relationship) (local_lsn : Z)
  | CHydrate (clk : nat → DateTime) (free : RetiredSnapshot HandleIndex → bool) (org : string)
      (memory : Memory)
  | CBatch (clk : nat → DateTime) (free : RetiredSnapshot HandleIndex → bool) (storage : S)
      (invs : list Invalidation).
Arguments CacheOp S : clear implicits.

Definition run_cache_op {S} `{RowSource S} (op : CacheOp S) (h : list rodeo) c
    : list rodeo * LocalCache HandleIndex :=
  match op with
  | CPut now org snapshot => cache_publish now org snapshot c h
  | CLocal clk free org ms rs local_lsn => apply_local clk free org ms rs local_lsn c h
  | CHydrate clk free org memory => hydrate_memory clk free org memory c h
  | CBatch clk free storage invs => (apply_batch clk free storage invs c h).1
  end.

Definition cache_op_ok {S} (h : list rodeo) (op : CacheOp S) : Prop :=
  match op with CPut _ _ snapshot => snap_wf h snapshot | _ => True end.

(** No slot is about to run out of generations. *)
Definition generations_left c : Prop :=
  map_Forall (λ _ g, generation g + 1 < 2 ^ 64) (graphs c).

Lemma slot_or_empty_spec now org h c :
  cache_ok h c → generations_left c →
  let '(h1, g) := slot_or_empty now org c h in
  heap_le h h1 ∧ slot_wf h1 g ∧ generation g + 1 < 2 ^ 64 ∧
  (graphs c !! org = Some g ∨ graphs c !! org = None ∧ slot_bytes g = 0).
Proof.
  intros [Hw _ _] Hgen. unfold slot_or_empty. destruct (graphs c !! org) as [g|] eqn:Hg.
  - split_and!; [done|by eapply Hw|by eapply Hgen|by left].
  - pose proof (empty_wf now h) as He. destruct (empty now h) as [h1 e].
    destruct He as (Hh & He & _ & Hb). split_and!; [done|by apply fresh_slot_wf|done|by right].
Qed.

Lemma put_snapshot_ok now org snapshot h c :
  cache_ok h c → snap_wf h snapshot → 0 ≤ budget c → room_in_am c → generations_left c →
  let '(h', c') := put_snapshot now org snapshot c h in
  heap_le h h' ∧ cache_ok h' c' ∧ resident_bytes (graphs c') ≤ budget c ∧ budget c' = budget c ∧
  (∀ o g, graphs c' !! o = Some g →
     if decide (o = org) then load_full g = snapshot else graphs c !! o = Some g).
Proof.
  intros Hok Hs Hbud Hroom Hgen. pose proof Hok as [Hw Hb Hq]. unfold put_snapshot.
  pose proof (slot_or_empty_spec now org h c Hok Hgen) as Hslot. unfold slot_or_empty in Hslot.
  set (old := match graphs c !! org with Some g => est_bytes (load_full g) | None => 0 end).
  set (pick := match graphs c !! org with Some g => (h, g) | None => _ end) in *.
  destruct pick as [h1 g] eqn:Ep. destruct Hslot as (Hh & Hg & _ & Hgs).
  assert (Hold : old = slot_bytes g).
  { subst old. destruct Hgs as [E|[E ->]]; rewrite E; done. }
  clearbody old. subst old. set (g' := store snapshot g).
  assert (Hg' : slot_wf h1 g').
  { destruct Hg as (a & ? & ? & ?). apply fresh_slot_wf.
    - unfold generation, u64_saturating_add in *. lia.
    - destruct Hs as (b & Hs & Hb'). exists b. split; [by eapply snap_repr_le|done]. }
  assert (Hb' : usize_saturating_sub (tq_bytes (tq c)) (slot_bytes g) + est_bytes snapshot =
            tq_bytes (account (slot_bytes g, slot_bytes g') (tq c))).
  { rewrite (account_bytes h (graphs c) org) by (done || by eapply slot_bytes_nonneg).
    rewrite Hb. unfold resident_bytes, usize_saturating_sub.
    destruct Hgs as [E|[E E0]].
    - rewrite (map_sum_replace _ _ _ _ _ E), (map_sum_delete _ _ _ _ E).
      pose proof (slots_nonneg h (delete org (graphs c)) (slots_wf_delete _ _ _ Hw)).
      unfold resident_bytes in *. change (slot_bytes g') with (est_bytes snapshot). lia.
    - rewrite map_sum_insert, E0 by done. pose proof (slots_nonneg h (graphs c) Hw).
      unfold resident_bytes in *. change (slot_bytes g') with (est_bytes snapshot). lia. }
  set (c1 := count_publication _).
  assert (Etq : tq c1 = account (slot_bytes g, slot_bytes g') (tq c)).
  { subst c1. simpl. rewrite Hb'. unfold account. by destruct (slot_bytes g <=? slot_bytes g'). }
  destruct (admit_after h h1 c org g g' c1) as (? & Hsub & ? & ? & _); try done.
  split_and!; [done..|]. intros o g0 Ho. eapply lookup_weaken in Ho; [|exact Hsub].
  destruct (decide (o = org)) as [->|].
  - rewrite lookup_insert_eq in Ho. by injection Ho as <-.
  - by rewrite lookup_insert_ne in Ho.
Qed.

(** A publication into a slot, accounted for and admitted. *)
Lemma publish_admit_ok h h1 c org g clk free delta clones :
  cache_ok h c → heap_le h h1 → slot_wf h1 g → generation g + 1 < 2 ^ 64 →
  graphs c !! org = Some g ∨ graphs c !! org = None ∧ slot_bytes g = 0 →
  0 ≤ budget c → room_in_am c →
  let '(h2, g', n, bytes) := publish_delta_locked clk free delta g clones h1 in
  ∀ c1, graphs c1 = <[org := g']> (graphs c) → tq c1 = account bytes (tq c) → budget c1 = budget c →
  let c' := cache_admit org c1 in
  heap_le h h2 ∧ cache_ok h2 c' ∧ resident_bytes (graphs c') ≤ budget c ∧ budget c' = budget c ∧
  (∀ o g0, graphs c' !! o = Some g0 →
     if decide (o = org)
     then image (load_full g0) = foldl (λ i d, image_step d i) (image (load_full g)) delta
     else graphs c !! o = Some g0).
Proof.
  intros Hok Hh Hg Hgen Hgs Hbud Hroom.
  pose proof (publish_wf clk free delta g clones h1 Hg Hgen) as Hp.
  destruct (publish_delta_locked _ _ _ _ _ _) as [[[h2 g'] n] bytes].
  destruct Hp as (Hh2 & Hg' & _ & Hi & ->). intros c1 Egs Etq Eb. cbv zeta.
  destruct (admit_after h h2 c org g g' c1) as (? & Hsub & ? & ? & _);
    [done|by etrans|done|done|done|done|done|done|done|].
  split_and!; [by etrans|done..|]. intros o g0 Ho. eapply lookup_weaken in Ho; [|exact Hsub].
  destruct (decide (o = org)) as [->|].
  - rewrite lookup_insert_eq in Ho. by injection Ho as <-.
  - by rewrite lookup_insert_ne in Ho.
Qed.

Lemma apply_local_ok clk free org ms rs local_lsn h c :
  cache_ok h c → 0 ≤ budget c → room_in_am c → generations_left c →
  let '(h', c') := apply_local clk free org ms rs local_lsn c h in
  heap_le h h' ∧ cache_ok h' c' ∧ budget c' = budget c ∧
  (resident_bytes (graphs c') ≤ budget c ∨ resident_bytes (graphs c') = resident_bytes (graphs c)).
Proof.
  intros Hok Hbud Hroom Hgen. pose proof Hok as [Hw Hb Hq]. unfold apply_local.
  pose proof (slot_or_empty_spec (clk 2%nat) org h c Hok Hgen) as Hs.
  destruct (slot_or_empty _ org c h) as [h1 g]. destruct Hs as (Hh & Hg & Hgg & Hgs).
  unfold slot_apply_local. destruct (bool_decide (ms = []) && _ && _)%bool.
  - split_and!; [done| |done|].
    + split; simpl.
      * apply map_Forall_insert_2; [done|by eapply slots_wf_mono].
      * rewrite Hb. unfold resident_bytes. destruct Hgs as [E|[E E0]]; [by rewrite insert_id|].
        rewrite map_sum_insert, E0 by done. lia.
      * intros o g0 Ho Hne. destruct (decide (o = org)) as [->|].
        -- rewrite lookup_insert_eq in Ho. injection Ho as <-. destruct Hgs as [E|[_ E0]]; [by eapply Hq|done].
        -- rewrite lookup_insert_ne in Ho by done. by eapply Hq.
    + right. unfold resident_bytes. simpl. destruct Hgs as [E|[E E0]]; [by rewrite insert_id|].
      rewrite map_sum_insert, E0 by done. lia.
  - pose proof (publish_admit_ok h h1 c org g clk free (local_delta ms rs local_lsn)
      (full_snapshot_clones (set_graphs (<[org := g]> (graphs c)) c))) as Hp.
    destruct (publish_delta_locked _ _ _ _ _ _) as [[[h2 g'] n] bytes].
    specialize (Hp Hok Hh Hg Hgg Hgs Hbud Hroom). cbv zeta in Hp.
    edestruct Hp as (? & ? & ? & ? & _); [| | |split_and!; [eassumption|eassumption|eassumption|by left]].
    + simpl. by rewrite insert_insert_eq.
    + done.
    + done.
Qed.

Lemma hydrate_memory_ok clk free org memory h c :
  cache_ok h c → 0 ≤ budget c → room_in_am c → generations_left c →
  let '(h', c') := hydrate_memory clk free org memory c h in
  heap_le h h' ∧ cache_ok h' c' ∧ budget c' = budget c ∧ resident_bytes (graphs c') ≤ budget c.
Proof.
  intros Hok Hbud Hroom Hgen. unfold hydrate_memory.
  pose proof (slot_or_empty_spec (clk 2%nat) org h c Hok Hgen) as Hs.
  destruct (slot_or_empty _ org c h) as [h1 g]. destruct Hs as (Hh & Hg & Hgg & Hgs).
  unfold publish_delta.
  pose proof (publish_admit_ok h h1 c org g clk free
    [UpsertMemory memory; AdvanceBackendLsn (lsn_value (m_lsn memory))] (full_snapshot_clones c)) as Hp.
  destruct (publish_delta_locked _ _ _ _ _ _) as [[[h2 g'] n] bytes].
  specialize (Hp Hok Hh Hg Hgg Hgs Hbud Hroom). cbv zeta in Hp.
  edestruct Hp as (? & ? & ? & ? & _); [| | |split_and!; eassumption]; done.
Qed.

Section batch.
Context {S : Type} `{RowSource S}.
Implicit Types (storage : S).

(** The events of a burst with the rows they are hydrated by, as changes. *)
Definition burst_delta storage (invs : list Invalidation) : result (list SnapshotDelta) StorageError :=
  let? ms := hydrate_memories invs storage in
  let? rs := hydrate_relationships invs storage in
  events_delta ms rs invs.

Lemma event_delta_nonempty ms rs inv d : event_delta ms rs inv = Ok d → d ≠ [].
Proof. destruct inv; simpl; try (by intros [= <-]). destruct (rs !! id); simpl; [by intros [= <-]|done]. Qed.

Lemma burst_delta_nil storage invs : burst_delta storage invs = Ok [] → invs = [].
Proof.
  unfold burst_delta. destruct (hydrate_memories invs storage) as [ms|]; [|done].
  destruct (hydrate_relationships invs storage) as [rs|]; [|done]. simpl.
  destruct invs as [|inv invs]; [done|]. simpl. destruct (event_delta ms rs inv) as [d|] eqn:Ed; [|done].
  simpl. destruct (events_delta ms rs invs); [|done]. intros [= Hd].
  apply event_delta_nonempty in Ed. by destruct d.
Qed.

Lemma apply_batch_spec clk free storage invs h c :
  cache_ok h c → 0 ≤ budget c → room_in_am c → generations_left c →
  let '(h', c', r) := apply_batch clk free storage invs c h in
  match r with
  | Err e => h' = h ∧ c' = c ∧ (org_of_write c = None ∨ burst_delta storage invs = Err e)
  | Ok _ =>
      ∃ org g delta, org_of_write c = Some org ∧ graphs c !! org = Some g ∧
        burst_delta storage invs = Ok delta ∧
        heap_le h h' ∧ cache_ok h' c' ∧ budget c' = budget c ∧
        (delta = [] ∧ c' = c ∨ resident_bytes (graphs c') ≤ budget c) ∧
        (∀ o g', graphs c' !! o = Some g' →
           if decide (o = org)
           then image (load_full g') = foldl (λ i d, image_step d i) (image (load_full g)) delta
           else graphs c !! o = Some g')
  end.
Proof.
  intros Hok Hbud Hroom Hgen. unfold apply_batch. destruct (org_of_write c) as [org|] eqn:Eo; simpl; [|auto].
  destruct (graphs c !! org) as [g|] eqn:Eg; simpl.
  2: { exfalso. unfold org_of_write in Eo. destruct (hash_iter (graphs c)) as [|[k v] l] eqn:El; [done|].
       injection Eo as ->. assert (Hin : (org, v) ∈ hash_iter (graphs c)) by (rewrite El; by left).
       apply elem_of_hash_iter in Hin. congruence. }
  assert (Eb : burst_delta storage invs =
    let? ms := hydrate_memories invs storage in
    let? rs := hydrate_relationships invs storage in events_delta ms rs invs) by done.
  destruct (hydrate_memories invs storage) as [ms|e]; simpl in *; [|auto].
  destruct (hydrate_relationships invs storage) as [rs|e]; simpl in *; [|auto].
  destruct (events_delta ms rs invs) as [delta|e]; simpl in *; [|auto].
  case_bool_decide as Hd.
  - exists org, g, delta. split_and!; [done..|by left|]. intros o g' Ho. case_decide; [|done].
    simplify_eq. done.
  - unfold publish_delta.
    pose proof (publish_admit_ok h h c org g clk free delta (full_snapshot_clones c)) as Hp.
    destruct (publish_delta_locked _ _ _ _ _ _) as [[[h2 g'] n] bytes].
    assert (Hg : slot_wf h g) by by eapply (co_slots _ _ Hok).
    assert (Hgg : generation g + 1 < 2 ^ 64) by by eapply Hgen.
    specialize (Hp Hok ltac:(done) Hg Hgg (or_introl Eg) Hbud Hroom).
    cbv zeta in Hp.
    edestruct Hp as (? & ? & ? & ? & ?); [| | |exists org, g, delta; split_and!; try eassumption]; auto.
Qed.
End batch.

(** ** What a burst leaves *)

(** What one event says of a row, given the rows it is hydrated by. *)
Definition row_event (ms : MemoryId → option Memory) (id : MemoryId) (r : option Memory)
    (inv : Invalidation) : option Memory :=
  match inv with
  | MemoryUpserted id' _ => if decide (id' = id) then ms id else r
  | MemoryDeleted id' _ => if decide (id' = id) then None else r
  | MemorySnapshotUpserted m _ => if decide (m_id m = id) then Some m else r
  | _ => r
  end.

Lemma event_delta_rows ms rs inv d i id :
  (∀ k m, ms !! k = Some m → m_id m = k) → event_delta ms rs inv = Ok d →
  let i' := foldl (λ i d, image_step d i) i d in
  im_rows i' !! id = row_event (λ k, ms !! k) id (im_rows i !! id) inv ∧
  im_backend i' = Z.max (im_backend i) (lsn_of inv) ∧ im_local i' = im_local i.
Proof.
  intros Hms. destruct i as [rows links loc bk].
  destruct inv as [id' l|id' l|rid f t k l|rid l|rec l|l|m l|r l|js l]; simpl; try done.
  - intros [= <-]. destruct (ms !! id') as [m|] eqn:Em; simpl.
    + rewrite (Hms _ _ Em). split; [|done]. case_decide; subst; [by rewrite lookup_insert_eq|].
      by rewrite lookup_insert_ne.
    + split; [|done]. case_decide; subst; [by rewrite lookup_delete_eq|]. by rewrite lookup_delete_ne.
  - intros [= <-]. simpl. split; [|done]. case_decide; subst; [by rewrite lookup_delete_eq|].
    by rewrite lookup_delete_ne.
  - destruct (rs !! rid); [|done]. by intros [= <-].
  - by intros [= <-].
  - by intros [= <-].
  - by intros [= <-].
  - intros [= <-]. simpl. split; [|done]. case_decide; subst; [by rewrite lookup_insert_eq|].
    by rewrite lookup_insert_ne.
  - by intros [= <-].
Qed.

Lemma events_delta_rows ms rs invs delta i id :
  (∀ k m, ms !! k = Some m → m_id m = k) → events_delta ms rs invs = Ok delta →
  let i' := foldl (λ i d, image_step d i) i delta in
  im_rows i' !! id = foldl (row_event (λ k, ms !! k) id) (im_rows i !! id) invs ∧
  im_backend i' = foldl Z.max (im_backend i) (lsn_of <$> invs) ∧ im_local i' = im_local i.
Proof.
  intros Hms. revert delta i. induction invs as [|inv invs IH]; intros delta i; simpl; [by intros [= <-]|].
  destruct (event_delta ms rs inv) as [d|] eqn:Ed; [|done]. simpl.
  destruct (events_delta ms rs invs) as [delta'|]; [|done]. simpl. intros [= <-]. cbv zeta.
  rewrite foldl_app. destruct (event_delta_rows ms rs inv d i id Hms Ed) as (E1 & E2 & E3).
  destruct (IH delta' (foldl (λ i d, image_step d i) i d) eq_refl) as (F1 & F2 & F3).
  rewrite F1, F2, F3, E1, E2, E3. done.
Qed.

Lemma by_key_lookup {K A} `{Countable K} (key : A → K) rows k x :
  by_key key rows !! k = Some x → key x = k ∧ x ∈ rows.
Proof.
  unfold by_key. assert (Hg : ∀ m : gmap K A, foldl (λ m x, <[key x := x]> m) m rows !! k = Some x →
    m !! k = Some x ∨ key x = k ∧ x ∈ rows); [|by intros [|]%Hg].
  induction rows as [|y rows IH]; intros m; simpl; [by left|].
  intros [Hm|[? ?]]%IH; [|right; set_solver]. destruct (decide (key y = k)) as [E|].
  - rewrite E, lookup_insert_eq in Hm. injection Hm as ->. right. set_solver.
  - rewrite lookup_insert_ne in Hm by done. by left.
Qed.

Lemma by_key_some {K A} `{Countable K} (key : A → K) rows x :
  (∀ y, y ∈ rows → key y = key x → y = x) → x ∈ rows → by_key key rows !! key x = Some x.
Proof.
  intros Hu Hx. unfold by_key. assert (Hg : ∀ m : gmap K A, (m !! key x = Some x ∨ x ∈ rows) →
    foldl (λ m x, <[key x := x]> m) m rows !! key x = Some x); [|by apply Hg; right].
  clear Hx. induction rows as [|y rows IH]; intros m Hm; simpl; [by destruct Hm as [|?%elem_of_nil]|].
  apply IH; [intros z Hz; apply Hu; by right|]. destruct (decide (key y = key x)) as [E|Hne].
  - rewrite (Hu y ltac:(left) E). left. by rewrite lookup_insert_eq.
  - destruct Hm as [Hm|[->|Hm]%elem_of_cons]; [left; by rewrite lookup_insert_ne|done|by right].
Qed.

(** Hydrated from the in-memory store, an event's row is the store's current version. *)
Lemma hydrate_in_memory invs st ms :
  graph_ok (graph st) → hydrate_memories (S:=Store) invs st = Ok ms →
  (∀ k m, ms !! k = Some m → m_id m = k) ∧
  (∀ id lsn, MemoryUpserted id lsn ∈ invs → ms !! id = current (g_memories (graph st)) id).
Proof.
  intros Hok. unfold hydrate_memories. set (ids := dedup _).
  assert (Hids : ∀ id lsn, MemoryUpserted id lsn ∈ invs → id ∈ ids).
  { intros id lsn Hin. subst ids. apply elem_of_dedup. rewrite merge_sort_Permutation.
    apply list_elem_of_omap. eexists. split; [exact Hin|done]. }
  case_bool_decide as Hn.
  { intros [= <-]. split; [by intros k m ?%lookup_empty_Some|]. intros id lsn Hin%Hids.
    rewrite Hn in Hin. set_solver. }
  simpl. unfold get_memories. destruct (fail_next_batch_read (reads st)); [done|]. simpl.
  intros [= <-].
  assert (Hrow : ∀ id m, current (g_memories (graph st)) id = Some m → m_id m = id).
  { intros id m Hc. by apply (current_ok _ _ _ _ (ok_memories _ Hok)) in Hc as (? & _). }
  split; [by intros k m [? _]%by_key_lookup|]. intros id lsn Hin%Hids.
  destruct (current (g_memories (graph st)) id) as [m|] eqn:Em.
  - rewrite <-(Hrow id m Em). apply by_key_some.
    + intros y (id' & _ & Hy)%list_elem_of_omap E. apply Hrow in Hy as E'. rewrite E, (Hrow id m Em) in E'.
      subst id'. congruence.
    + apply list_elem_of_omap. eauto.
  - apply eq_None_not_Some. intros [x [E (id' & _ & Hx)%list_elem_of_omap]%by_key_lookup].
    apply Hrow in Hx as E'. subst. congruence.
Qed.

Lemma row_event_ext f f' id invs r :
  (∀ lsn, MemoryUpserted id lsn ∈ invs → f id = f' id) →
  foldl (row_event f id) r invs = foldl (row_event f' id) r invs.
Proof.
  revert r. induction invs as [|inv invs IH]; intros r Hf; [done|]. simpl.
  assert (row_event f id r inv = row_event f' id r inv) as ->.
  { destruct inv; simpl; try done. case_decide; [|done]. subst. eapply Hf. by left. }
  apply IH. intros lsn Hin. apply (Hf lsn). by right.
Qed.



(** Evicting a graph by message leaves its bytes in the account. *)
Lemma evict_unaccounted {S} `{RowSource S} (env : Env (S:=S)) org g w h c :
  cache_ok h c → graphs c !! org = Some g → w_pending w = [] → w_cache w = c →
  let c' := w_cache (handle_message env (Evict org) w) in
  tq_bytes (tq c') = resident_bytes (graphs c') + slot_bytes g.
Proof.
  intros [_ Hb _] Hg Hp Hc. simpl. destruct w as [c0 h0 pending replies n]. simpl in *. subst.
  simpl. rewrite Hb. unfold resident_bytes. rewrite (map_sum_delete _ _ _ _ Hg). lia.
Qed.
End budget.

(** ** Acknowledgements *)

Section replies.
Context {H T S : Type} `{TagIndex H T} `{SG : StableGraph Memory Relationship} `{Unicode}
  `{LC : LruCache} `{HashOrder} `{RowSource S}.
Implicit Types (w : Writer (H:=H) (T:=T)) (env : Env (T:=T) (S:=S)).

(** The senders a message, an event or a reply names. *)
Definition acks_of (msg : CacheWrite (T:=T)) : list nat :=
  match msg with
  | ApplyAcknowledged _ a | ApplyBatchAcknowledged _ a | Reseed _ _ (Some a) | Barrier a => [a]
  | _ => []
  end.
Definition answered (r : Reply) : nat := match r with Applied a _ | Signalled a => a end.

(** Senders answered, and senders waiting. *)
Definition open_acks w : list nat := (answered <$> w_replies w) ++ omap pa_ack (w_pending w).

Lemma answered_pending (ps : list PendingApply) r :
  answered <$> omap (λ p, (λ a, Applied a r) <$> pa_ack p) ps = omap pa_ack ps.
Proof. induction ps as [|[inv [a|]] ps IH]; csimpl; by rewrite ?IH. Qed.

Lemma apply_pending_acks env w :
  open_acks (apply_pending env w) = open_acks w ∧ w_pending (apply_pending env w) = [].
Proof.
  destruct w as [c h [|p ps] replies n]; [done|]. unfold apply_pending, open_acks.
  destruct (apply_batch _ _ _ _ _ _) as [[h' c'] r]. cbn [w_replies w_pending].
  split; [|done]. by rewrite fmap_app, answered_pending, app_nil_r.
Qed.

Lemma burst_acks invs a : invs ≠ [] → omap pa_ack (burst invs a) = [a].
Proof.
  induction invs as [|inv [|inv' invs] IH]; [done|done|]. intros _.
  change (burst (inv :: inv' :: invs) a) with (mkPending inv None :: burst (inv' :: invs) a).
  csimpl. by apply IH.
Qed.

Lemma handle_message_acks env msg w :
  open_acks (handle_message env msg w) ≡ₚ open_acks w ++ acks_of msg.
Proof.
  assert (Henq : ∀ ps, open_acks (enqueue_pending ps w) = open_acks w ++ omap pa_ack ps).
  { intros ps. unfold open_acks, enqueue_pending. simpl. by rewrite omap_app, (assoc_L (++)). }
  assert (Hrep : ∀ rs w, open_acks (reply rs w) ≡ₚ open_acks w ++ (answered <$> rs)).
  { intros rs w0. unfold open_acks, reply. simpl. rewrite fmap_app, <-!(assoc_L (++)).
    f_equiv. apply Permutation_app_comm. }
  destruct (apply_pending_acks env w) as [Ha _]. destruct msg as [inv|inv a|invs a|org s a|org|a]; cbn [handle_message acks_of].
  - by rewrite Henq.
  - by rewrite Henq.
  - destruct invs as [|inv invs]; [by rewrite Hrep|]. rewrite Henq, burst_acks; done.
  - destruct (put_snapshot _ _ _ _ _) as [h' c'] eqn:E. rewrite Hrep.
    unfold open_acks at 1. simpl. rewrite <-Ha. unfold open_acks. by destruct a.
  - unfold open_acks at 1. simpl. rewrite app_nil_r, <-Ha. done.
  - rewrite Hrep, Ha. done.
Qed.

Lemma run_batch_acks env messages w :
  open_acks (run_batch env messages w) ≡ₚ open_acks w ++ (messages ≫= acks_of) ∧
  w_pending (run_batch env messages w) = [].
Proof.
  unfold run_batch. destruct (apply_pending_acks env (foldl (λ w msg, handle_message env msg w) w messages))
    as [-> ->]. split; [|done].
  revert w. induction messages as [|msg messages IH]; intros w; csimpl; [by rewrite app_nil_r|].
  rewrite IH, handle_message_acks. by rewrite <-(assoc_L (++)).
Qed.

(** C33: every sender that asked the writer for an answer gets exactly one: after any batches of
    messages, the answers given are those given before, those of the senders that were waiting
    and those of the senders in the messages, and once a batch is done nobody waits. *)
Theorem senders_answered_once env (batches : list (list CacheWrite)) w :
  (answered <$> w_replies (run env batches w)) ++ omap pa_ack (w_pending (run env batches w)) ≡ₚ
    (answered <$> w_replies w) ++ omap pa_ack (w_pending w) ++ (mjoin batches ≫= acks_of) ∧
  (batches ≠ [] → w_pending (run env batches w) = []).
Proof.
  revert w. induction batches as [|messages batches IH] using rev_ind; intros w.
  - split; [|done]. simpl. by rewrite app_nil_r.
  - unfold run in *. rewrite foldl_snoc.
    destruct (run_batch_acks env messages (foldl (λ w messages, run_batch env messages w) w batches))
      as [E Ep]. split; [|done].
    unfold open_acks in E. rewrite E. destruct (IH w) as [-> _].
    by rewrite join_app, bind_app, <-!(assoc_L (++)); simpl; rewrite app_nil_r.
Qed.
End replies.
