(* ===== verification/CacheReads.v ===== *)
(** * Reads of the local cache

    Point reads, supersession and the bounded traversal of a resident graph
    ([crates/exocortex-cache/src/lib.rs]): what they answer and what they never show. *)

From S2P Require Import Prelude Ids Kernel Packs Ontology StorageTypes Graph Reads Leases.
From S2P Require Import Ingest Governed Cycles Storage Snapshot Interned Slots Cache.

Section point_reads.
Context {H T : Type} `{TagIndex H T} `{SG : StableGraph Memory Relationship} `{Unicode}
  `{LC : LruCache} `{HashOrder}.
Implicit Types (c : LocalCache T) (s : GraphSnapshot T) (vc : VisibilityContext).

Lemma get_memory_spec org id vc c s :
  graph_of org c = Some s → snap_ok s →
  cache_get_memory org id vc c =
    match row_table s !! id with Some m => if memory_visible m vc then Some m else None | None => None end.
Proof.
  intros Hg Hok. unfold cache_get_memory. rewrite Hg, row_lookup. simpl.
  destruct (by_id s !! id) as [ix|]; [|done]. simpl. destruct (sg_nodes _ !! ix) as [m|]; [|done].
  simpl. unfold visible. by destruct (memory_visible m vc).
Qed.

(** The edges that arrive at a resident row, by their attachment. *)
Lemma incoming_links s id ix e a b r :
  snap_ok s → by_id s !! id = Some ix →
  (e, (a, b, r)) ∈ edges_directed ix Incoming (petgraph s) ↔
  sg_edges (petgraph s) !! e = Some (a, b, r) ∧ b = ix.
Proof. intros Hok Hid. rewrite edges_directed_perm, list_elem_of_filter, elem_of_map_to_list. simpl. naive_solver. Qed.

Lemma link_edge s rid f t r :
  snap_ok s →
  link_table s !! rid = Some (f, t, r) ↔
  ∃ e a b, sg_edges (petgraph s) !! e = Some (a, b, r) ∧ r_id r = rid ∧
           by_id s !! f = Some a ∧ by_id s !! t = Some b.
Proof.
  intros Hok. rewrite link_lookup. split.
  - destruct (by_rel_id s !! rid) as [e|] eqn:Er; [|done]. simpl. intros Ha.
    apply (ok_rels _ _ _ _ Hok) in Er as (a & b & r' & He & Hr).
    destruct (attached_some _ _ _ _ _ _ _ _ Hok He) as (f' & t' & Ha' & Hf & Ht).
    rewrite Ha in Ha'. injection Ha' as -> -> ->. by exists e, a, b.
  - intros (e & a & b & He & Hr & Hf & Ht).
    rewrite (proj2 (ok_rels _ _ _ _ Hok rid e)) by eauto. simpl.
    destruct (attached_some _ _ _ _ _ _ _ _ Hok He) as (f' & t' & -> & Hf' & Ht').
    apply (ok_ids _ _ _ _ Hok) in Hf as (m1 & N1 & <-), Ht as (m2 & N2 & <-),
      Hf' as (m3 & N3 & <-), Ht' as (m4 & N4 & <-). congruence.
Qed.

(** What supersedes a row: a visible source of a link of a superseding kind that points at it. *)
Definition supersedes (kinds : list RelKindId) vc s (id : MemoryId) (m : Memory) : Prop :=
  ∃ rid f r, link_table s !! rid = Some (f, id, r) ∧ r_kind r ∈ kinds ∧
    vis_u8 (r_visibility r) ≤ vis_u8 (max_visibility vc) ∧
    row_table s !! f = Some m ∧ memory_visible m vc = true.

Lemma superseded_by_spec org id vc kinds c s :
  graph_of org c = Some s → snap_ok s →
  match superseded_by org id vc kinds c with
  | Some m => supersedes kinds vc s id m
  | None => ∀ m, ¬ supersedes kinds vc s id m
  end.
Proof.
  intros Hg Hok. unfold superseded_by. rewrite Hg. simpl.
  destruct (by_id s !! id) as [ix|] eqn:Hid; simpl.
  2: { intros m (rid & f & r & (e & a & b & _ & _ & _ & Ht)%link_edge & _); [congruence|done]. }
  set (pick := λ e : nat * (nat * nat * Relationship), _).
  assert (Hpick : ∀ m, (∃ e, e ∈ edges_directed ix Incoming (petgraph s) ∧ pick e = Some m) ↔
            supersedes kinds vc s id m).
  { intros m. unfold supersedes. split.
    - intros ([e [[a b] r]] & [He ->]%(incoming_links s id ix) & Hp); [|done..].
      unfold pick in Hp. simpl in Hp. destruct (bool_decide _ && _) eqn:Hb; [|done]. bool_prop.
      destruct (sg_nodes (petgraph s) !! a) as [m'|] eqn:Ha; [|done]. simpl in Hp. unfold visible in Hp.
      destruct (memory_visible m' vc) eqn:Hv; [|done]. injection Hp as ->.
      exists (r_id r), (m_id m), r. assert (Hf : by_id s !! m_id m = Some a) by (apply (ok_ids _ _ _ _ Hok); eauto).
      split_and!; try done; [|by rewrite row_lookup, Hf].
      apply link_edge; [done|]. exists e, a, ix. done.
    - intros (rid & f & r & (e & a & b & He & Hr & Hf & Ht)%link_edge & Hk & Hl & Hm & Hv); [|done].
      exists (e, (a, b, r)). rewrite Hid in Ht. injection Ht as <-.
      split; [by apply (incoming_links s id ix)|]. unfold pick. simpl.
      rewrite bool_decide_eq_true_2, (proj2 (Z.leb_le _ _) Hl) by done. simpl.
      rewrite row_lookup, Hf in Hm. simpl in Hm. rewrite Hm. simpl. unfold visible. by rewrite Hv. }
  destruct (head (omap pick (edges_directed ix Incoming (petgraph s)))) as [m|] eqn:Eh.
  - apply head_Some_elem_of, list_elem_of_omap in Eh. by apply Hpick.
  - intros m Hm%Hpick. destruct (omap pick _) as [|? ?] eqn:El; [|done].
    assert (Hin : m ∈ omap pick (edges_directed ix Incoming (petgraph s))) by by apply list_elem_of_omap.
    rewrite El in Hin. set_solver.
Qed.

(** Point reads answer from the resident rows and show only what the caller may see: a row is
    given exactly when it is resident and visible; and the row given as superseding another is the
    visible source of a link of a superseding kind, under the caller's ceiling, that points at it,
    none being given exactly when there is no such source. *)
Theorem point_reads_exact org id vc kinds c s :
  graph_of org c = Some s → snap_ok s →
  (∀ m, cache_get_memory org id vc c = Some m ↔
        row_table s !! id = Some m ∧ memory_visible m vc = true) ∧
  match superseded_by org id vc kinds c with
  | Some m => supersedes kinds vc s id m
  | None => ∀ m, ¬ supersedes kinds vc s id m
  end.
Proof.
  intros Hg Hok. split; [|by apply superseded_by_spec]. intros m.
  rewrite (get_memory_spec org id vc c s Hg Hok). destruct (row_table s !! id) as [m'|]; [|split; [done|by intros [? _]]].
  destruct (memory_visible m' vc) eqn:Hv; (split; [by intros [= <-]|intros [[= <-] ?]; congruence]).
Qed.
End point_reads.

(** ** The traversal *)

Section walk.
Context {H T : Type} `{TagIndex H T} `{SG : StableGraph Memory Relationship} `{Unicode}
  `{LC : LruCache} `{HashOrder}.
Context (s : GraphSnapshot T) (spec : TraversalSpec) (start : nat).
Implicit Types (w : Walk) (δ : gmap nat Z) (ns : list nat).

(** An edge the caller may follow. *)
Definition passable (er : Relationship) : Prop :=
  (ts_kinds spec = [] ∨ r_kind er ∈ ts_kinds spec) ∧
  vis_u8 (r_visibility er) ≤ vis_u8 (max_visibility (ts_visibility_ctx spec)).
(** A node the caller may enter. *)
Definition enterable (n : nat) (m : Memory) : Prop :=
  sg_nodes (petgraph s) !! n = Some m ∧ memory_visible m (ts_visibility_ctx spec) = true.
Definition enters (n n' : nat) : Prop :=
  ∃ er m, (n', er) ∈ hops s (ts_direction spec) n ∧ passable er ∧ enterable n' m.

(** Reachable in a number of hops. *)
Inductive reach : nat → nat → Prop :=
  | reach_start : reach 0 start
  | reach_hop k n n' : reach k n → enters n n' → reach (S k) n'.

(** The depth the traversal goes to: the first hop is always taken. *)
Definition depth_limit : Z := Z.max 1 (max_depth spec).

(** The invariant of the walk: [δ] gives the depth of every node seen, [ns] the nodes of the rows
    found; the queue holds depths [d0] and then [d0 + 1]. *)
Record walk_inv w δ ns (d0 : Z) : Prop := {
  wi_seen : dom δ = wk_seen w;
  wi_start : δ !! start = Some 0;
  wi_nodes n : is_Some (δ !! n) → is_Some (sg_nodes (petgraph s) !! n);
  wi_out : Forall2 enterable ns (wk_out w);
  wi_nodup : NoDup ns;
  wi_found n : n ∈ ns ↔ n ≠ start ∧ is_Some (δ !! n);
  wi_reach n d : δ !! n = Some d → 0 ≤ d ≤ depth_limit ∧ reach (Z.to_nat d) n;
  wi_queue n d : (n, d) ∈ wk_queue w → δ !! n = Some d ∧ d < depth_limit;
  wi_order : ∃ q1 q2, wk_queue w = q1 ++ q2 ∧ Forall (λ p, p.2 = d0) q1 ∧ Forall (λ p, p.2 = d0 + 1) q2;
  wi_level n d : δ !! n = Some d → d ≤ d0 + 1;
}.

(** Nodes seen and no longer queued have had their neighbours seen. *)
Definition settled w δ (except : list nat) : Prop :=
  ∀ n d, δ !! n = Some d → d < depth_limit → n ∉ (wk_queue w).*1 → n ∉ except →
  ∀ n', enters n n' → ∃ d', δ !! n' = Some d' ∧ d' ≤ d + 1.

Lemma visit_cases d w n' er :
  (visit s spec d w (n', er) = w ∧ (∀ m, passable er → enterable n' m → n' ∈ wk_seen w)) ∨
  (∃ m, passable er ∧ enterable n' m ∧ (n' ∉ wk_seen w) ∧
     visit s spec d w (n', er) =
       mkWalk (wk_out w ++ [m])
         (if d + 1 <? max_depth spec then wk_queue w ++ [(n', d + 1)] else wk_queue w)
         ({[n']} ∪ wk_seen w)).
Proof.
  unfold visit, passable, enterable, visible.
  destruct (negb (bool_decide (ts_kinds spec = [])) && negb (bool_decide (r_kind er ∈ ts_kinds spec))) eqn:Ek.
  { bool_prop. left. split; [done|]. intros m [[?|?] _]; done. }
  assert (Hk : ts_kinds spec = [] ∨ r_kind er ∈ ts_kinds spec).
  { destruct (decide (ts_kinds spec = [])) as [|Hn]; [by left|right].
    rewrite (bool_decide_eq_false_2 _ Hn) in Ek. simpl in Ek. by apply negb_false_iff, bool_decide_eq_true in Ek. }
  destruct (Z.ltb_spec (vis_u8 (max_visibility (ts_visibility_ctx spec))) (vis_u8 (r_visibility er)));
    [left; split; [done|]; intros m [_ ?]; lia|].
  destruct (sg_nodes (petgraph s) !! n') as [m|]; [|left; split; [done|]; by intros m _ [? _]].
  destruct (memory_visible m (ts_visibility_ctx spec)) eqn:Hv; simpl;
    [|left; split; [done|]; intros m' _ [[= <-] ?]; congruence].
  destruct (decide (n' ∈ wk_seen w)) as [Hin|Hin].
  - left. rewrite bool_decide_eq_true_2 by done. split; [done|]. by intros.
  - right. exists m. rewrite bool_decide_eq_false_2 by done. by split_and!.
Qed.

(** Entering a new node one level down. *)
Lemma walk_inv_enter w δ ns d0 n n' m :
  walk_inv w δ ns d0 → δ !! n = Some d0 → d0 < depth_limit →
  enters n n' → enterable n' m → n' ∉ wk_seen w →
  walk_inv (mkWalk (wk_out w ++ [m])
      (if d0 + 1 <? max_depth spec then wk_queue w ++ [(n', d0 + 1)] else wk_queue w)
      ({[n']} ∪ wk_seen w))
    (<[n' := d0 + 1]> δ) (ns ++ [n']) d0.
Proof.
  intros Hinv Hn Hd Hent He Hnew. pose proof Hinv as [I1 I2 I3 I4 I5 I6 I7 I8 I9 I10].
  assert (Hnone : δ !! n' = None) by (apply not_elem_of_dom; by rewrite I1).
  assert (Hn' : n' ≠ start) by (intros ->; congruence).
  assert (Hd0 : 0 ≤ d0) by by eapply I7.
  split.
  - simpl. rewrite dom_insert_L. set_solver.
  - by rewrite lookup_insert_ne.
  - intros k. destruct (decide (k = n')) as [->|]; [intros _; destruct He as [-> _]; eauto|].
    rewrite lookup_insert_ne by done. apply I3.
  - apply Forall2_app; [done|]. by constructor.
  - apply NoDup_app. split_and!; [done| |apply NoDup_singleton].
    intros k [_ Hk]%I6 ->%list_elem_of_singleton. rewrite Hnone in Hk. by destruct Hk.
  - intros k. rewrite elem_of_app, list_elem_of_singleton, I6.
    destruct (decide (k = n')) as [->|Hne]; [rewrite lookup_insert_eq; naive_solver|].
    rewrite lookup_insert_ne by done. naive_solver.
  - intros k d. destruct (decide (k = n')) as [->|Hne].
    + rewrite lookup_insert_eq. intros [= <-]. unfold depth_limit in *. split; [lia|].
      replace (Z.to_nat (d0 + 1)) with (S (Z.to_nat d0)) by lia.
      eapply reach_hop; [by apply I7|]. exact Hent.
    + rewrite lookup_insert_ne by done. apply I7.
  - intros k d. simpl. destruct (Z.ltb_spec (d0 + 1) (max_depth spec)).
    + rewrite elem_of_app, list_elem_of_singleton. intros [Hin|[= -> ->]].
      * destruct (I8 k d Hin) as [Hk ?]. split; [|done]. rewrite lookup_insert_ne; [done|congruence].
      * rewrite lookup_insert_eq. unfold depth_limit. split; [done|lia].
    + intros Hin. destruct (I8 k d Hin) as [Hk ?]. split; [|done].
      rewrite lookup_insert_ne; [done|congruence].
  - destruct I9 as (q1 & q2 & Hq & Hq1 & Hq2). simpl. rewrite Hq.
    destruct (d0 + 1 <? max_depth spec); [|by exists q1, q2].
    exists q1, (q2 ++ [(n', d0 + 1)]). split_and!; [by rewrite (assoc_L (++))|done|].
    apply Forall_app. split; [done|]. by repeat constructor.
  - intros k d. destruct (decide (k = n')) as [->|Hne].
    + rewrite lookup_insert_eq. intros [= <-]. lia.
    + rewrite lookup_insert_ne by done. apply I10.
Qed.

Lemma visits_inv l n w δ ns d0 :
  walk_inv w δ ns d0 → δ !! n = Some d0 → d0 < depth_limit →
  l ⊆ hops s (ts_direction spec) n →
  let w' := foldl (visit s spec d0) w l in
  ∃ δ' ns', walk_inv w' δ' ns' d0 ∧ δ ⊆ δ' ∧ prefix (wk_queue w) (wk_queue w') ∧
    (∀ n' er m, (n', er) ∈ l → passable er → enterable n' m → is_Some (δ' !! n')) ∧
    (∀ k d, δ' !! k = Some d → δ !! k = None → d < depth_limit → k ∈ (wk_queue w').*1) ∧
    (length (wk_queue w') + size δ ≤ length (wk_queue w) + size δ')%nat.
Proof.
  revert w δ ns. induction l as [|[n' er] l IH]; intros w δ ns Hinv Hn Hd Hl; cbv zeta; cbn [foldl].
  { exists δ, ns. split_and!; [done..|set_solver|by intros; simplify_eq|done]. }
  assert (Hhop : (n', er) ∈ hops s (ts_direction spec) n) by (apply Hl; by left).
  assert (Hl' : l ⊆ hops s (ts_direction spec) n) by (intros x Hx; apply Hl; by right).
  destruct (visit_cases d0 w n' er) as [[-> Hseen]|(m & Hp & He & Hnew & ->)].
  - destruct (IH w δ ns Hinv Hn Hd Hl') as (δ' & ns' & Hinv' & Hsub & Hq & Hs & Hk & Hlen).
    exists δ', ns'. split_and!; try done. intros n1 er1 m [[= -> ->]|Hin]%elem_of_cons Hp He; [|by eapply Hs].
    specialize (Hseen m Hp He). rewrite <-(wi_seen _ _ _ _ Hinv) in Hseen.
    apply elem_of_dom in Hseen as [d Hd']. exists d. by eapply lookup_weaken.
  - set (w1 := mkWalk _ _ _). assert (Hd0 : 0 ≤ d0) by by eapply (wi_reach _ _ _ _ Hinv).
    assert (Hnone : δ !! n' = None) by (apply not_elem_of_dom; by rewrite (wi_seen _ _ _ _ Hinv)).
    assert (Hinv1 : walk_inv w1 (<[n' := d0 + 1]> δ) (ns ++ [n']) d0)
      by (eapply walk_inv_enter; try done; by exists er, m).
    destruct (IH w1 (<[n' := d0 + 1]> δ) (ns ++ [n']) Hinv1) as (δ' & ns' & Hinv' & Hsub & Hq & Hs & Hk & Hlen);
      [rewrite lookup_insert_ne; [done|congruence]|done|done|].
    assert (Hpre : wk_queue w `prefix_of` wk_queue w1).
    { unfold w1. simpl. destruct (d0 + 1 <? max_depth spec); [by apply prefix_app_r|done]. }
    exists δ', ns'. split_and!; [done| |by etrans| | |].
    + etrans; [|exact Hsub]. by apply insert_subseteq.
    + intros n1 er1 m1 [[= -> ->]|Hin]%elem_of_cons Hp1 He1; [|by eapply Hs].
      exists (d0 + 1). eapply lookup_weaken; [|exact Hsub]. apply lookup_insert_eq.
    + intros k d Hkd Hkn Hlt. destruct (decide (k = n')) as [->|Hne].
      * assert (δ' !! n' = Some (d0 + 1)) by (eapply lookup_weaken; [apply lookup_insert_eq|exact Hsub]).
        simplify_eq. assert (Hin : (n', d0 + 1) ∈ wk_queue w1).
        { unfold w1. simpl. unfold depth_limit in Hlt.
          rewrite (proj2 (Z.ltb_lt _ _)) by lia. set_solver. }
        apply list_elem_of_fmap. exists (n', d0 + 1). split; [done|].
        destruct Hq as [q Eq]. rewrite Eq. apply elem_of_app. by left.
      * apply (Hk k d Hkd); [by rewrite lookup_insert_ne|done].
    + assert (Hw1 : (length (wk_queue w1) ≤ length (wk_queue w) + 1)%nat)
        by (unfold w1; simpl; destruct (d0 + 1 <? max_depth spec); rewrite ?length_app; simpl; lia).
      rewrite map_size_insert_None in Hlen by done. lia.
Qed.

(** The loop ends within its fuel, finds rows of reachable nodes only, and all of them unless it
    stopped at the caller's row limit. *)
Lemma traverse_loop_spec fuel w δ ns d0 :
  walk_inv w δ ns d0 → settled w δ [] →
  (length (wk_queue w) + size (sg_nodes (petgraph s)) ≤ fuel + size δ)%nat →
  ∃ w' δ' ns' d', traverse_loop fuel s spec w = Some (wk_out w') ∧ walk_inv w' δ' ns' d' ∧
    (max_nodes spec ≤ Z.of_nat (length (wk_out w')) ∨ wk_queue w' = [] ∧ settled w' δ' []).
Proof.
  revert w δ ns d0. induction fuel as [|fuel IH]; intros w δ ns d0 Hinv Hset Hfuel; cbn [traverse_loop].
  all: destruct (wk_queue w) as [|[n d] queue] eqn:Eq; [exists w, δ, ns, d0; by split_and!; auto|].
  all: destruct (Z.leb_spec (max_nodes spec) (Z.of_nat (length (wk_out w))));
    [exists w, δ, ns, d0; split_and!; auto|].
  - exfalso. assert (size δ ≤ size (sg_nodes (petgraph s)))%nat; [|simpl in Hfuel; lia].
    rewrite <-!size_dom. apply subseteq_size. intros k. rewrite !elem_of_dom. apply (wi_nodes _ _ _ _ Hinv).
  - (* the head's depth is the level, or the level moves on to it *)
    assert (Hlev : walk_inv w δ ns d).
    { pose proof Hinv as [I1 I2 I3 I4 I5 I6 I7 I8 (q1 & q2 & Hq & Hq1 & Hq2) I10]. rewrite Eq in Hq.
      destruct q1 as [|p q1]; simplify_eq/=.
      - apply Forall_cons in Hq2 as [Hd Hq2]. simpl in Hd. subst d. split; try done.
        + exists ((n, d0 + 1) :: queue), []. rewrite app_nil_r. split_and!; [done|by constructor|constructor].
        + intros k d Hk. specialize (I10 k d Hk). lia.
      - apply Forall_cons in Hq1 as [Hd Hq1]. simpl in Hd. subst d. done. }
    destruct (wi_queue _ _ _ _ Hlev n d ltac:(rewrite Eq; by left)) as [Hn Hd].
    set (w0 := mkWalk (wk_out w) queue (wk_seen w)).
    assert (Hinv0 : walk_inv w0 δ ns d).
    { destruct Hlev as [I1 I2 I3 I4 I5 I6 I7 I8 (q1 & q2 & Hq & Hq1 & Hq2) I10]. split; try done.
      - intros k e Hk. apply I8. rewrite Eq. by right.
      - unfold w0. simpl. rewrite Eq in Hq. destruct q1 as [|p q1]; simplify_eq/=.
        + apply Forall_cons in Hq2 as [Hd' _]. simpl in Hd'. lia.
        + apply Forall_cons in Hq1 as [_ Hq1]. by exists q1, q2. }
    destruct (visits_inv (hops s (ts_direction spec) n) n w0 δ ns d Hinv0 Hn Hd ltac:(done))
      as (δ' & ns' & Hinv' & Hsub & Hq & Hs & Hk & Hlen).
    destruct (IH _ δ' ns' d Hinv') as (w' & δ'' & ns'' & d' & ? & ? & ?).
    + intros k dk Hkd Hlt Hkq _ k' Hent. destruct (δ !! k) as [dk'|] eqn:Ek.
      * assert (dk' = dk) as -> by (eapply lookup_weaken in Ek; [|exact Hsub]; congruence).
        destruct (decide (k = n)) as [->|Hne].
        -- assert (dk = d) as -> by congruence. destruct Hent as (er & m & Hhop & Hp & He).
           destruct (Hs k' er m Hhop Hp He) as [d'' Hd'']. exists d''. split; [done|].
           by eapply (wi_level _ _ _ _ Hinv').
        -- assert (Hkq' : k ∉ (wk_queue w).*1).
           { rewrite Eq. csimpl. intros [?|Hin]%elem_of_cons; [done|]. apply Hkq.
             destruct Hq as [q' Eq']. rewrite Eq', fmap_app. apply elem_of_app. by left. }
           destruct (Hset k dk Ek Hlt Hkq' ltac:(set_solver) k' Hent) as (d'' & Hd'' & ?).
           exists d''. split; [|done]. by eapply lookup_weaken.
      * destruct Hkq. by eapply Hk.
    + cbn [length] in Hfuel. change (wk_queue w0) with queue in Hlen. lia.
    + exists w', δ'', ns'', d'. by split_and!.
Qed.

(** With an empty queue and everything settled, every node within the depth has been seen. *)
Lemma settled_complete w δ ns d0 k n :
  walk_inv w δ ns d0 → wk_queue w = [] → settled w δ [] →
  reach k n → Z.of_nat k ≤ depth_limit → ∃ d, δ !! n = Some d ∧ d ≤ Z.of_nat k.
Proof.
  intros Hinv Hq Hset. induction 1 as [|k n n' Hr IH Hent]; intros Hk.
  - exists 0. split; [by eapply wi_start|done].
  - destruct IH as (d & Hd & Hle); [lia|].
    destruct (Hset n d Hd ltac:(lia) ltac:(rewrite Hq; set_solver) ltac:(set_solver) n' Hent)
      as (d' & ? & ?). exists d'. split; [done|lia].
Qed.
End walk.

(** *** By identity *)

Section hops.
Context {H T : Type} `{TagIndex H T} `{SG : StableGraph Memory Relationship} `{Unicode}
  `{LC : LruCache} `{HashOrder}.
Implicit Types (s : GraphSnapshot T) (spec : TraversalSpec).

(** A hop the caller may take: along a link, in the direction asked for, to a visible row. *)
Definition follows s spec (id id' : MemoryId) : Prop :=
  ∃ rid f t r, link_table s !! rid = Some (f, t, r) ∧ passable spec r ∧
    match ts_direction spec with
    | Out => id = f ∧ id' = t
    | In => id = t ∧ id' = f
    | Both => id = f ∧ id' = t ∨ id = t ∧ id' = f
    end ∧
    ∃ m, row_table s !! id' = Some m ∧ memory_visible m (ts_visibility_ctx spec) = true.

(** Reachable from a row in a number of hops. *)
Inductive within s spec (from : MemoryId) : nat → MemoryId → Prop :=
  | within_start : within s spec from 0 from
  | within_hop k id id' : within s spec from k id → follows s spec id id' → within s spec from (S k) id'.

Lemma elem_of_hops s dir n n' r :
  (n', r) ∈ hops s dir n ↔
  ∃ e a b, sg_edges (petgraph s) !! e = Some (a, b, r) ∧
    match dir with
    | Out => a = n ∧ b = n' | In => b = n ∧ a = n'
    | Both => a = n ∧ b = n' ∨ b = n ∧ a = n'
    end.
Proof.
  assert (Hout : ∀ d (f : nat * (nat * nat * Relationship) → nat),
    (n', r) ∈ ((λ e, (f e, e.2.2)) <$> edges_directed n d (petgraph s)) ↔
    ∃ e a b, sg_edges (petgraph s) !! e = Some (a, b, r) ∧ near_end d (a, b, r) = n ∧ f (e, (a, b, r)) = n').
  { intros d f. rewrite list_elem_of_fmap. setoid_rewrite edges_directed_perm.
    setoid_rewrite list_elem_of_filter. split.
    - intros ([e [[a b] r']] & [= -> ->] & Hn & He%elem_of_map_to_list). by exists e, a, b.
    - intros (e & a & b & He & Hn & <-). exists (e, (a, b, r)). by rewrite elem_of_map_to_list. }
  unfold hops. destruct dir; [..|rewrite elem_of_app]; rewrite !Hout; simpl; [done|done|].
  split.
  - intros [(e & a & b & ?)|(e & a & b & ?)]; exists e, a, b; naive_solver.
  - intros (e & a & b & He & [?|?]); [left|right]; by exists e, a, b.
Qed.

Lemma enters_follows s spec n id :
  snap_ok s → by_id s !! id = Some n →
  ∀ n', enters s spec n n' ↔ ∃ id', by_id s !! id' = Some n' ∧ follows s spec id id'.
Proof.
  intros Hok Hid n'.
  assert (Hend : ∀ a f, by_id s !! f = Some a → (f = id ↔ a = n)).
  { intros a f Hf. split; [intros ->; congruence|intros ->].
    apply (ok_ids _ _ _ _ Hok) in Hid as (? & ? & <-), Hf as (? & ? & <-). congruence. }
  unfold enters, follows. split.
  - intros (r & m & (e & a & b & He & Hdir)%elem_of_hops & Hp & Hm & Hv).
    destruct (attached_some _ _ _ _ _ _ _ _ Hok He) as (f & t & _ & Hf & Ht).
    assert (Hl : link_table s !! r_id r = Some (f, t, r)) by (apply link_edge; [done|]; by exists e, a, b).
    assert (Hrow : ∀ k, by_id s !! k = Some n' → row_table s !! k = Some m) by (intros k Hk; by rewrite row_lookup, Hk).
    assert (Hdir' : match ts_direction spec with
      | Out => f = id ∧ b = n' | In => t = id ∧ a = n' | Both => f = id ∧ b = n' ∨ t = id ∧ a = n' end).
    { destruct (ts_direction spec); rewrite ?(Hend a f Hf), ?(Hend b t Ht); done. }
    assert (Hcase : f = id ∧ b = n' ∧ (ts_direction spec = Out ∨ ts_direction spec = Both) ∨
                    t = id ∧ a = n' ∧ (ts_direction spec = In ∨ ts_direction spec = Both)).
    { destruct (ts_direction spec); naive_solver. }
    destruct Hcase as [(-> & -> & Hd)|(-> & -> & Hd)].
    + exists t. split; [done|]. exists (r_id r), id, t, r. split_and!; [done|done| |by exists m; auto].
      destruct Hd as [-> | ->]; auto.
    + exists f. split; [done|]. exists (r_id r), f, id, r. split_and!; [done|done| |by exists m; auto].
      destruct Hd as [-> | ->]; auto.
  - intros (id' & Hid' & rid & f & t & r & Hl & Hp & Hdir & m & Hm & Hv).
    apply link_edge in Hl as (e & a & b & He & _ & Hf & Ht); [|done].
    rewrite row_lookup, Hid' in Hm. simpl in Hm. exists r, m. split_and!; [|done..].
    apply elem_of_hops. exists e, a, b. split; [done|].
    destruct (ts_direction spec); naive_solver.
Qed.

Lemma reach_within s spec from start :
  snap_ok s → by_id s !! from = Some start →
  ∀ k n, reach s spec start k n ↔ ∃ id, by_id s !! id = Some n ∧ within s spec from k id.
Proof.
  intros Hok Hfrom k n. split.
  - induction 1 as [|k n n' _ (id & Hid & Hw) Hent]; [exists from; split; [done|constructor]|].
    apply (enters_follows s spec n id Hok Hid) in Hent as (id' & Hid' & Hf). exists id'.
    split; [done|]. by econstructor.
  - intros (id & Hid & Hw). revert n Hid.
    induction Hw as [|k id id' Hw IH Hf]; intros n Hid; [assert (n = start) as -> by congruence; constructor|].
    assert (is_Some (by_id s !! id)) as [n0 Hn0].
    { destruct Hf as (rid & f & t & r & Hl & _ & Hdir & _).
      apply link_edge in Hl as (e & a & b & _ & _ & Hf & Ht); [|done].
      destruct (ts_direction spec); naive_solver. }
    econstructor; [by apply IH|]. apply (enters_follows s spec n0 id Hok Hn0). eauto.
Qed.

(** The walk begins at its start. *)
Lemma walk_inv_start s spec start m0 :
  sg_nodes (petgraph s) !! start = Some m0 →
  walk_inv s spec start (mkWalk [] [(start, 0)] {[start]}) {[start := 0]} [] 0.
Proof.
  intros Hrow. split.
  - by rewrite dom_singleton_L.
  - by rewrite lookup_singleton_eq.
  - intros n [d [<- _]%lookup_singleton_Some]. eauto.
  - constructor.
  - constructor.
  - intros n. split; [set_solver|]. intros [Hne [d [? _]%lookup_singleton_Some]]. congruence.
  - intros n d [<- <-]%lookup_singleton_Some. unfold depth_limit. split; [lia|constructor].
  - intros n d Hin%list_elem_of_singleton. simplify_eq. rewrite lookup_singleton_eq.
    unfold depth_limit. split; [done|lia].
  - exists [(start, 0)], []. split_and!; [done|by repeat constructor|constructor].
  - intros n d [_ <-]%lookup_singleton_Some. lia.
Qed.

Lemma found_ids_nodup s spec ns out :
  (∀ n m, enterable s spec n m → by_id s !! m_id m = Some n) →
  Forall2 (enterable s spec) ns out → NoDup ns → NoDup (m_id <$> out).
Proof.
  intros Hid Hns Hd. induction Hns as [|n m ns out He Hns IH]; [constructor|]. csimpl.
  apply NoDup_cons in Hd as [Hn Hd]. constructor; [|by apply IH].
  intros (m' & E & Hm')%list_elem_of_fmap. apply Hn. apply list_elem_of_lookup in Hm' as [i Hi].
  destruct (Forall2_lookup_r _ _ _ _ _ Hns Hi) as (n' & Hn' & He').
  apply Hid in He, He'. rewrite E in He. assert (n = n') as -> by congruence. by eapply list_elem_of_lookup_2.
Qed.

(** C32: the bounded traversal of a resident graph ends, and answers with distinct rows other than
    its start, each visible to the caller and reached from the start within the depth asked for
    through links the caller may follow and rows it may see; and unless it stopped at the row
    limit, with all of them. *)
Theorem traverse_exact org from spec (c : LocalCache T) s m0 :
  graph_of org c = Some s → snap_ok s →
  row_table s !! from = Some m0 → memory_visible m0 (ts_visibility_ctx spec) = true →
  ∃ out, cache_traverse org from spec c = Some out ∧ NoDup (m_id <$> out) ∧
    (∀ m, m ∈ out → row_table s !! m_id m = Some m ∧ m_id m ≠ from ∧
       memory_visible m (ts_visibility_ctx spec) = true ∧
       ∃ k, Z.of_nat k ≤ Z.max 1 (max_depth spec) ∧ within s spec from k (m_id m)) ∧
    (Z.of_nat (length out) < max_nodes spec →
     ∀ k id, id ≠ from → Z.of_nat k ≤ Z.max 1 (max_depth spec) → within s spec from k id →
     ∃ m, m ∈ out ∧ m_id m = id).
Proof.
  intros Hg Hok Hrow Hv. rewrite row_lookup in Hrow. unfold cache_traverse. rewrite Hg.
  destruct (by_id s !! from) as [start|] eqn:Hfrom; [|done]. simpl in Hrow. rewrite Hrow.
  unfold visible. rewrite Hv. set (w0 := mkWalk [] [(start, 0)] {[start]}).
  assert (Hinv : walk_inv s spec start w0 {[start := 0]} [] 0) by by eapply walk_inv_start.
  assert (Hset : settled s spec w0 {[start := 0]} []).
  { intros n d [<- <-]%lookup_singleton_Some _ Hn. destruct Hn. simpl. by left. }
  destruct (traverse_loop_spec s spec start (size (sg_nodes (petgraph s))) w0 _ _ _ Hinv Hset)
    as (w & δ & ns & d & Hout & Hw & Hend).
  { simpl. rewrite map_size_singleton. lia. }
  exists (wk_out w). pose proof (wi_out _ _ _ _ _ _ _ Hw) as Hns.
  assert (Hnode : ∀ m, m ∈ wk_out w → ∃ n, n ∈ ns ∧ enterable s spec n m).
  { intros m [i Hi]%list_elem_of_lookup. destruct (Forall2_lookup_r _ _ _ _ _ Hns Hi) as (n & Hn & He).
    exists n. split; [by eapply list_elem_of_lookup_2|done]. }
  assert (Hid : ∀ n m, enterable s spec n m → by_id s !! m_id m = Some n)
    by (intros n m [Hm _]; apply (ok_ids _ _ _ _ Hok); eauto).
  split_and!; [done|..].
  - eapply found_ids_nodup; [exact Hid|exact Hns|]. by eapply wi_nodup.
  - intros m (n & Hn & He)%Hnode. pose proof (Hid _ _ He) as Hmid. destruct He as [Hm Hvis].
    apply (wi_found _ _ _ _ _ _ _ Hw) in Hn as [Hne [dn Hdn]].
    split_and!; [by rewrite row_lookup, Hmid|intros E; rewrite E in Hmid; congruence|done|].
    destruct (wi_reach _ _ _ _ _ _ _ Hw n dn Hdn) as [[? Hle] Hr].
    exists (Z.to_nat dn). unfold depth_limit in Hle. split; [lia|].
    apply (reach_within s spec from start Hok Hfrom) in Hr as (id & Hid' & Hwi).
    apply (ok_ids _ _ _ _ Hok) in Hid' as (m' & Hm' & <-). by simplify_eq.
  - intros Hlt k id Hne Hk Hwi. destruct Hend as [|[Hq Hset']]; [lia|].
    assert (is_Some (by_id s !! id)) as [n Hn].
    { destruct Hwi as [|k id id' _ (rid & f & t & r & _ & _ & _ & m & Hm & _)]; [done|].
      apply row_resident; eauto. }
    assert (Hr : reach s spec start k n) by (apply (reach_within s spec from start Hok Hfrom); eauto).
    destruct (settled_complete _ _ _ _ _ _ _ _ _ Hw Hq Hset' Hr Hk) as (dn & Hdn & _).
    assert (Hns' : n ∈ ns).
    { apply (wi_found _ _ _ _ _ _ _ Hw). split; [|eauto]. intros ->.
      apply (ok_ids _ _ _ _ Hok) in Hn as (? & ? & <-), Hfrom as (? & ? & <-). congruence. }
    apply list_elem_of_lookup in Hns' as [i Hi].
    destruct (Forall2_lookup_l _ _ _ _ _ Hns Hi) as (m & Hm & [Hnm _]).
    exists m. split; [by eapply list_elem_of_lookup_2|].
    apply (ok_ids _ _ _ _ Hok) in Hn as (m' & Hm' & <-). congruence.
Qed.
End hops.
