(* ===== verification/SearchIndex.v ===== *)
(** * The search index of a resident graph

    [search] of [crates/exocortex-cache/src/lib.rs] and the arena it scans: one contiguous string
    of lowercase keys, a slot of offset and node for each, blanked when a row is replaced and
    rebuilt when blanks prevail.  The invariant cuts the arena into the segments of its slots; the
    theorem says what a query finds.

    A score is IEEE binary32 arithmetic in the code's order. *)

From S2P Require Import Prelude Ids Kernel Packs Ontology StorageTypes Graph Reads Leases.
From S2P Require Import Ingest Governed Cycles Storage Snapshot Interned Slots Cache.

(** ** Substrings *)

(** [haystack.starts_with(needle)] on bytes. *)
Fixpoint starts_with (q l : list Z) : bool :=
  match q, l with
  | [], _ => true
  | x :: q, y :: l => (x =? y) && starts_with q l
  | _, [] => false
  end.

(** [haystack.find(needle)]: the first position. *)
Fixpoint find_sub (q l : list Z) : option nat :=
  if starts_with q l then Some 0%nat
  else match l with [] => None | _ :: l => S <$> find_sub q l end.

(** [slice.binary_search(&x)] on a strictly increasing slice: [inl] of the place of [x], or [inr]
    of the place it would take. *)
Fixpoint lower_bound (l : list Z) (x : Z) : nat :=
  match l with
  | y :: l => if y <? x then S (lower_bound l x) else 0%nat
  | [] => 0%nat
  end.
Definition binary_search (l : list Z) (x : Z) : nat + nat :=
  let i := lower_bound l x in
  if bool_decide (l !! i = Some x) then inl i else inr i.

(** ** Scores *)

Definition f32_0_10 : f32 := S754_finite false 13421773 (-27).
Definition f32_0_15 : f32 := S754_finite false 10066330 (-26).
Definition f32_0_30 : f32 := S754_finite false 10066330 (-25).
Definition f32_0_50 : f32 := S754_finite false 8388608 (-24).
Definition f32_7 : f32 := f32_of_Z 7.

(** [partial_cmp], an undefined comparison counting as equal; the better score first. *)
Definition compare_hit (a b : Memory * f32) : comparison :=
  match SFcompare b.2 a.2 with Some c => c | None => Eq end.

(** [Duration::num_days]: whole days, rounded towards zero. *)
Definition num_days (d : Z) : Z := Z.quot d 86400000000000.

Section search.
Context {H T : Type} `{TagIndex H T} `{SG : StableGraph Memory Relationship} `{Unicode}
  `{LC : LruCache} `{HashOrder}.
Implicit Types (snap : GraphSnapshot T).

(** The two sums of the loop over a row's outgoing edges. *)
Definition edge_score (acc : f32 * f32) (er : Relationship) : f32 * f32 :=
  let '(explicit, inferred) := acc in
  match r_provenance er with
  | Asserted _ _ => (f32_add explicit f32_one, inferred)
  | Derived _ _ | Computed _ _ | Extracted _ _ =>
      (explicit, f32_add inferred (f32_mul (rp_confidence (r_properties er)) f32_0_15))
  | Proposed _ _ | ExternalSnapshot _ => (f32_add explicit f32_one, inferred)
  end.

(** The score of a visible row. *)
Definition score (now : DateTime) snap (ix : nat) (m : Memory) : f32 :=
  let '(explicit, inferred) :=
    foldl (λ acc (e : nat * (nat * nat * Relationship)), edge_score acc e.2.2) (f32_zero, f32_zero)
      (edges_directed ix Outgoing (petgraph snap)) in
  let age_days := f32_of_Z (Z.max 0 (num_days (now - m_recorded_at m))) in
  let recency := if SFleb age_days f32_7 then f32_0_10 else f32_zero in
  f32_add (f32_add (f32_add (f32_add f32_one (f32_mul explicit f32_0_30)) inferred)
             (f32_mul (f01_get (importance m)) f32_0_50)) recency.

(** The row of a slot, scored, when the caller may see it. *)
Definition slot_hit (now : DateTime) snap (vc : VisibilityContext) (ix : nat) : option (Memory * f32) :=
  m ← sg_nodes (petgraph snap) !! ix;
  if visible m vc then Some (m, score now snap ix m) else None.

(** The slot a position belongs to. *)
Definition slot_of_pos snap (pos : nat) : nat :=
  match binary_search (search_offsets snap) (as_u32 (Z.of_nat pos)) with
  | inl i => i
  | inr i => (i - 1)%nat
  end.

(** The scan: [from] is where it continues and [last_idx] the last slot it looked at. *)
Fixpoint scan (fuel : nat) (now : DateTime) snap (vc : VisibilityContext) (q : list Z) (limit : Z)
    (from : nat) (last_idx : option nat) (hits : list (Memory * f32))
    : option (list (Memory * f32)) :=
  match find_sub q (drop from (search_arena snap)) with
  | None => Some hits
  | Some rel =>
      match fuel with
      | O => None
      | Datatypes.S fuel =>
          let pos := (from + rel)%nat in
          let slot := slot_of_pos snap pos in
          let next (hits : list (Memory * f32)) :=
            let from := (pos + length q)%nat in
            if bool_decide (length (search_arena snap) ≤ from)%nat then Some hits
            else scan fuel now snap vc q limit from (Some slot) hits in
          if bool_decide (last_idx = Some slot) then next hits
          else
            match search_nodes snap !! slot with
            | None => next hits
            | Some ix =>
                match slot_hit now snap vc ix with
                | None => next hits
                | Some hit =>
                    let hits := hits ++ [hit] in
                    if limit * 4 <=? Z.of_nat (length hits) then Some hits else next hits
                end
            end
      end
  end.

(* SRC crates/exocortex-cache/src/lib.rs 1103-1198 search *)
Definition search (now : DateTime) (org : string) (query : string) (limit : Z)
    (vc : VisibilityContext) (c : LocalCache T) : option (list (Memory * f32)) :=
  match graph_of org c with
  | None => Some []
  | Some snap =>
      if limit =? 0 then Some []
      else
        let q := str_to_lowercase (as_bytes query) in
        match q with
        | [] => Some []
        | _ =>
            hits ← scan (length (search_arena snap)) now snap vc q limit 0 None [];
            Some (take (Z.to_nat limit) (merge_sort (le_of compare_hit) hits))
        end
  end.
End search.

(** ** Occurrences *)

Lemma starts_with_spec q l : starts_with q l = true ↔ q `prefix_of` l.
Proof.
  revert l. induction q as [|x q IH]; intros l; simpl; [split; [by exists l|done]|].
  destruct l as [|y l]; [split; [done|intros [k Hk]; done]|].
  rewrite andb_true_iff, Z.eqb_eq, IH. split.
  - intros [-> [k ->]]. by exists k.
  - intros [k [= -> ->]]. split; [done|]. by exists k.
Qed.

(** [q] occurs in [l] at [p]. *)
Definition occurs (q l : list Z) (p : nat) : Prop := q `prefix_of` drop p l.
Definition contains (q l : list Z) : Prop := ∃ p, occurs q l p.

Lemma find_sub_spec q l :
  match find_sub q l with
  | Some p => occurs q l p ∧ ∀ p', (p' < p)%nat → ¬ occurs q l p'
  | None => ∀ p, ¬ occurs q l p
  end.
Proof.
  unfold occurs. induction l as [|y l IH]; simpl.
  - destruct (starts_with q []) eqn:Hs; [split; [by apply starts_with_spec|lia]|].
    intros p. rewrite drop_nil. intros Hp%starts_with_spec. congruence.
  - destruct (starts_with q (y :: l)) eqn:Hs; [split; [by apply starts_with_spec|lia]|].
    assert (H0 : ¬ q `prefix_of` y :: l) by (rewrite <-starts_with_spec; congruence).
    destruct (find_sub q l) as [p|]; simpl.
    + destruct IH as [Hp Hmin]. split; [done|]. intros [|p'] Hlt; [done|]. apply Hmin. lia.
    + intros [|p]; [done|]. apply IH.
Qed.

Lemma occurs_bound q l p : q ≠ [] → occurs q l p → (p + length q ≤ length l)%nat.
Proof.
  intros Hq [k Hk]. assert (Hl : length (drop p l) = length (q ++ k)) by by rewrite Hk.
  rewrite length_drop, length_app in Hl. destruct q; [done|]. simpl in *. lia.
Qed.

Lemma occurs_drop q l from p : occurs q (drop from l) p ↔ occurs q l (from + p).
Proof. unfold occurs. by rewrite drop_drop. Qed.

Lemma occurs_lookup q l p i x : occurs q l p → q !! i = Some x → l !! (p + i)%nat = Some x.
Proof.
  intros [k Hk] Hi. rewrite <-lookup_drop, Hk. by apply lookup_app_l_Some.
Qed.

Lemma occurs_middle q l1 l2 l3 p :
  (length l1 ≤ p)%nat → (p + length q ≤ length l1 + length l2)%nat →
  occurs q (l1 ++ l2 ++ l3) p ↔ occurs q l2 (p - length l1).
Proof.
  intros H1 H2. unfold occurs. rewrite drop_app_ge by done. rewrite drop_app_le by lia.
  split; [|intros [k ->]; exists (k ++ l3); by rewrite (assoc_L (++))].
  intros [k Hk]. exists (drop (length q) (drop (p - length l1) l2)).
  rewrite <-(take_drop (length q) (drop (p - length l1) l2)) at 1. f_equal.
  assert (Ht : take (length q) (drop (p - length l1) l2 ++ l3) = q) by (rewrite Hk; by apply take_app_length).
  rewrite take_app_le in Ht; [done|]. rewrite length_drop. lia.
Qed.

(** ** The segments of the arena *)

Section segments.
Context `{Unicode}.
Implicit Types (segs : list (list Z * nat)) (nodes : gmap nat Memory) (m : Memory).

Definition arena_of segs : list Z := segs ≫= fst.
Definition lens segs : list nat := (λ sg, length sg.1) <$> segs.

Fixpoint offsets_from (acc : nat) (l : list nat) : list Z :=
  match l with
  | [] => []
  | n :: l => Z.of_nat acc :: offsets_from (acc + n) l
  end.

(** The key of a row with its terminator. *)
Definition key_seg m : list Z := search_key m ++ [NL].
Definition is_blank (b : list Z) : bool := forallb (λ x, x =? 32) b.

(** A segment is blank, or the key of its node's row. *)
Definition seg_ok nodes (sg : list Z * nat) : Prop :=
  sg.1 ≠ [] ∧ (is_blank sg.1 = true ∨ ∃ m, nodes !! sg.2 = Some m ∧ sg.1 = key_seg m).

Definition live_segs segs : list (list Z * nat) := List.filter (λ sg, negb (is_blank sg.1)) segs.

Record arena_ok nodes (arena : list Z) (offsets : list Z) (snodes : list nat) (live : Z) segs : Prop := {
  ao_arena : arena = arena_of segs;
  ao_nodes : snodes = segs.*2;
  ao_offsets : offsets = offsets_from 0 (lens segs);
  ao_size : Z.of_nat (length arena) < 2 ^ 32;
  ao_segs : Forall (seg_ok nodes) segs;
  ao_live : (live_segs segs).*2 ≡ₚ (map_to_list nodes).*1;
  ao_bytes : live = map_sum key_bytes nodes;
}.

Lemma length_arena segs : length (arena_of segs) = sum_list (lens segs).
Proof. unfold arena_of, lens. induction segs as [|[b n] segs IH]; csimpl; [done|]. by rewrite length_app, IH. Qed.

Lemma arena_of_app s1 s2 : arena_of (s1 ++ s2) = arena_of s1 ++ arena_of s2.
Proof. apply bind_app. Qed.

Lemma arena_of_cons b n segs : arena_of ((b, n) :: segs) = b ++ arena_of segs.
Proof. done. Qed.

Lemma lens_app s1 s2 : lens (s1 ++ s2) = lens s1 ++ lens s2.
Proof. apply fmap_app. Qed.

Lemma length_offsets acc l : length (offsets_from acc l) = length l.
Proof. revert acc. induction l; intros; simpl; auto. Qed.

Lemma offsets_app acc l k : offsets_from acc (l ++ k) = offsets_from acc l ++ offsets_from (acc + sum_list l) k.
Proof.
  revert acc. induction l as [|n l IH]; intros acc; simpl; [by rewrite Nat.add_0_r|].
  by rewrite IH, Nat.add_assoc.
Qed.

Lemma offsets_lookup acc l j :
  (j < length l)%nat → offsets_from acc l !! j = Some (Z.of_nat (acc + sum_list (take j l))).
Proof.
  revert acc j. induction l as [|n l IH]; intros acc [|j] Hj; simpl in *; try lia.
  - by rewrite Nat.add_0_r.
  - rewrite IH by lia. f_equal. lia.
Qed.

Lemma key_seg_not_blank m : is_blank (key_seg m) = false.
Proof. unfold is_blank, key_seg. rewrite forallb_app. simpl. by rewrite andb_false_r. Qed.

Lemma blank_replicate n : is_blank (replicate n 32) = true.
Proof. by induction n. Qed.

Lemma key_seg_length m : Z.of_nat (length (key_seg m)) = key_bytes m.
Proof. unfold key_seg, key_bytes. rewrite length_app. simpl. lia. Qed.

Lemma live_app s1 s2 : live_segs (s1 ++ s2) = live_segs s1 ++ live_segs s2.
Proof. apply List.filter_app. Qed.

Lemma arena_ok_empty : arena_ok ∅ [] [] [] 0 [].
Proof. split; done || constructor. Qed.

(** Indexing a row appends its segment. *)
Lemma arena_ok_push nodes arena offsets snodes live segs ix m :
  arena_ok nodes arena offsets snodes live segs → nodes !! ix = None →
  Z.of_nat (length arena) + key_bytes m < 2 ^ 32 →
  arena_ok (<[ix := m]> nodes) (arena ++ search_key m ++ [NL])
    (offsets ++ [as_u32 (Z.of_nat (length arena))]) (snodes ++ [ix]) (live + key_bytes m)
    (segs ++ [(key_seg m, ix)]).
Proof.
  intros [Ha Hn Ho Hs Hsg Hl Hb] Hix Hroom. split.
  - rewrite arena_of_app, <-Ha. unfold arena_of. simpl. by rewrite app_nil_r.
  - by rewrite fmap_app, Hn.
  - rewrite lens_app, offsets_app, <-Ho. simpl. do 2 f_equal.
    rewrite <-length_arena, <-Ha. unfold as_u32. apply wrap_small. unfold in_range. lia.
  - pose proof (key_seg_length m). unfold key_seg in *. rewrite length_app. lia.
  - apply Forall_app. split.
    + eapply Forall_impl; [exact Hsg|]. intros [b k] [Hne [?|(m' & Hm' & ?)]]; (split; [done|]); [by left|].
      right. exists m'. split; [|done]. simpl in *. rewrite lookup_insert_ne; [done|congruence].
    + constructor; [|done]. split; [simpl; unfold key_seg; by destruct (search_key m)|]. right. exists m. by rewrite lookup_insert_eq.
  - rewrite live_app. unfold live_segs at 2. simpl.
    rewrite key_seg_not_blank. simpl. rewrite fmap_app, Hl. simpl.
    rewrite map_to_list_insert by done. simpl. apply Permutation_app_comm.
  - rewrite map_sum_insert by done. lia.
Qed.

(** Blanking the segments of a node. *)
Definition blank_seg (ix : nat) (sg : list Z * nat) : list Z * nat :=
  if decide (sg.2 = ix) then (replicate (length sg.1) 32, sg.2) else sg.

Lemma lens_blank ix segs : lens (blank_seg ix <$> segs) = lens segs.
Proof.
  unfold lens. rewrite <-list_fmap_compose. apply list_fmap_ext. intros _ [b n] _.
  unfold compose, blank_seg. simpl. case_decide; simpl; by rewrite ?length_replicate.
Qed.
Lemma nodes_blank ix segs : (blank_seg ix <$> segs).*2 = segs.*2.
Proof.
  rewrite <-list_fmap_compose. apply list_fmap_ext. intros _ [b n] _.
  unfold compose, blank_seg. simpl. by case_decide.
Qed.

Lemma blank_slot_spec ix pre b n post :
  b ≠ [] → Z.of_nat (length (arena_of (pre ++ (b, n) :: post))) < 2 ^ 32 →
  blank_slot (offsets_from 0 (lens (pre ++ (b, n) :: post))) ix (arena_of (pre ++ (b, n) :: post))
    (length pre) n = arena_of (pre ++ blank_seg ix (b, n) :: post).
Proof.
  intros Hb Hsize. unfold blank_slot, blank_seg. simpl.
  destruct (decide (n = ix)) as [Hn|Hn]; [rewrite bool_decide_eq_true_2 by done|by rewrite bool_decide_eq_false_2].
  simpl. set (segs := pre ++ (b, n) :: post).
  assert (Hlen : length (lens segs) = (length pre + S (length post))%nat)
    by (unfold lens, segs; rewrite length_fmap, length_app; done).
  assert (Htake : take (length pre) (lens segs) = lens pre).
  { unfold segs. rewrite lens_app. apply take_app_length'. symmetry. apply length_fmap. }
  rewrite offsets_lookup by lia. simpl. rewrite Htake, <-length_arena.
  assert (Hto : default (as_u32 (Z.of_nat (length (arena_of segs)))) (offsets_from 0 (lens segs) !! (length pre + 1)%nat)
            = Z.of_nat (length (arena_of pre) + length b)).
  { assert (Hsum : sum_list (take (length pre + 1) (lens segs)) = (length (arena_of pre) + length b)%nat).
    { unfold segs. rewrite lens_app, length_arena.
      replace (length pre + 1)%nat with (length (lens pre) + 1)%nat by (unfold lens; by rewrite length_fmap).
      rewrite take_app_add. unfold lens at 2. simpl. clear. induction (lens pre) as [|x l IH]; simpl; lia. }
    destruct post as [|sg post].
    - rewrite lookup_ge_None_2 by (rewrite length_offsets, Hlen; simpl; lia). simpl.
      unfold as_u32. rewrite wrap_small by (unfold in_range; fold segs in Hsize; lia).
      f_equal. unfold segs. by rewrite arena_of_app, length_app, arena_of_cons, app_nil_r.
    - rewrite offsets_lookup by (rewrite Hlen; simpl; lia). simpl. by rewrite Hsum. }
  rewrite Hto. assert (Hb' : (0 < length b)%nat) by (destruct b; [done|simpl; lia]).
  assert (Htot : length (arena_of segs) = (length (arena_of pre) + length b + length (arena_of post))%nat).
  { unfold segs. rewrite arena_of_app, arena_of_cons, !length_app. lia. }
  rewrite (proj2 (Z.ltb_lt _ _)), (proj2 (Z.leb_le _ _)) by lia. simpl.
  unfold blank_search_key_range. rewrite !Nat2Z.id.
  replace (length (arena_of pre) + length b - length (arena_of pre))%nat with (length b) by lia.
  unfold segs. rewrite !arena_of_app, !arena_of_cons.
  rewrite take_app_length. f_equal. f_equal. rewrite drop_app_add. by rewrite drop_app_length.
Qed.

Lemma blank_slots_spec ix pre post :
  Forall (λ sg : list Z * nat, sg.1 ≠ []) post →
  Z.of_nat (length (arena_of (pre ++ post))) < 2 ^ 32 →
  blank_slots (offsets_from 0 (lens (pre ++ post))) ix (length pre) post.*2 (arena_of (pre ++ post)) =
  arena_of (pre ++ (blank_seg ix <$> post)).
Proof.
  revert pre. induction post as [|[b n] post IH]; intros pre Hne Hsize; [done|].
  apply Forall_cons in Hne as [Hb Hne]. cbn [blank_slots fmap list_fmap snd].
  rewrite blank_slot_spec by done. set (sg := blank_seg ix (b, n)).
  assert (Hlens : lens (pre ++ (b, n) :: post) = lens ((pre ++ [sg]) ++ post)).
  { rewrite <-(assoc_L (++)), !lens_app. f_equal. simpl. unfold lens. simpl. f_equal.
    unfold sg, blank_seg. simpl. case_decide; simpl; by rewrite ?length_replicate. }
  assert (Happ : pre ++ sg :: post = (pre ++ [sg]) ++ post) by by rewrite <-(assoc_L (++)).
  rewrite Happ, Hlens. replace (S (length pre)) with (length (pre ++ [sg])) by (rewrite length_app; simpl; lia).
  rewrite IH; [by rewrite <-(assoc_L (++))|done|].
  rewrite length_arena, <-Hlens, <-length_arena. done.
Qed.

Lemma live_blank ix segs :
  (live_segs (blank_seg ix <$> segs)).*2 = List.filter (λ k, negb (bool_decide (k = ix))) (live_segs segs).*2.
Proof.
  unfold live_segs. induction segs as [|[b n] segs IH]; [done|]. csimpl.
  assert (E : blank_seg ix (b, n) = if decide (n = ix) then (replicate (length b) 32, n) else (b, n)) by done.
  rewrite E. destruct (decide (n = ix)) as [->|Hn]; cbn [fst snd].
  - rewrite blank_replicate. simpl. rewrite IH. destruct (is_blank b); csimpl; [done|].
    by rewrite bool_decide_eq_true_2.
  - destruct (is_blank b); csimpl; rewrite IH; [done|]. by rewrite bool_decide_eq_false_2.
Qed.

Lemma filter_perm {A} (f : A → bool) l k : l ≡ₚ k → List.filter f l ≡ₚ List.filter f k.
Proof.
  induction 1 as [|x l k _ IH|x y l|l k j _ IH1 _ IH2]; simpl; [done|..].
  - destruct (f x); by rewrite ?IH.
  - destruct (f x), (f y); try done. constructor.
  - by etrans.
Qed.

Lemma fst_delete_perm {A} (m : gmap nat A) ix x :
  m !! ix = Some x →
  List.filter (λ k, negb (bool_decide (k = ix))) (map_to_list m).*1 ≡ₚ (map_to_list (delete ix m)).*1.
Proof.
  intros Hx. pose proof (fmap_Permutation fst _ _ (map_to_list_delete m ix x Hx)) as Hp.
  rewrite <-(filter_perm _ _ _ Hp). clear Hp.
  assert (Hn : ix ∉ (map_to_list (delete ix m)).*1).
  { intros ([k y] & -> & Hin)%list_elem_of_fmap. apply elem_of_map_to_list in Hin.
    by rewrite lookup_delete_eq in Hin. }
  csimpl. rewrite bool_decide_eq_true_2 by done. simpl.
  induction (map_to_list (delete ix m)).*1 as [|k l IH]; [done|]. apply not_elem_of_cons in Hn as [? Hn].
  csimpl. rewrite bool_decide_eq_false_2 by done. simpl. by rewrite IH.
Qed.

(** Removing a row's indexes blanks its segment. *)
Lemma arena_ok_blank nodes arena offsets snodes live segs ix prior :
  arena_ok nodes arena offsets snodes live segs → nodes !! ix = Some prior →
  arena_ok (delete ix nodes) (blank_slots offsets ix 0 snodes arena) offsets snodes
    (usize_saturating_sub live (key_bytes prior)) (blank_seg ix <$> segs).
Proof.
  intros [Ha Hn Ho Hs Hsg Hl Hb] Hix.
  assert (Hne : Forall (λ sg : list Z * nat, sg.1 ≠ []) segs) by (eapply Forall_impl; [exact Hsg|]; by intros ? []).
  assert (E : blank_slots offsets ix 0 snodes arena = arena_of (blank_seg ix <$> segs)).
  { rewrite Ha, Hn, Ho. apply (blank_slots_spec ix [] segs Hne). by rewrite Ha in Hs. }
  rewrite E. split.
  - done.
  - by rewrite nodes_blank.
  - by rewrite lens_blank.
  - rewrite length_arena, lens_blank, <-length_arena, <-Ha. done.
  - apply Forall_fmap. eapply Forall_impl; [exact Hsg|]. intros [b k] [Hb' Hk]. unfold seg_ok, blank_seg. simpl in *.
    destruct (decide (k = ix)) as [->|Hkx]; simpl.
    + split; [by destruct b|]. left. apply blank_replicate.
    + split; [done|]. destruct Hk as [?|(m & Hm & ?)]; [by left|right; exists m].
      by rewrite lookup_delete_ne.
  - rewrite live_blank, (filter_perm _ _ _ Hl). by eapply fst_delete_perm.
  - rewrite Hb, (map_sum_delete _ _ _ _ Hix). unfold usize_saturating_sub.
    pose proof (map_sum_nonneg key_bytes (delete ix nodes) ltac:(intros; unfold key_bytes; lia)). lia.
Qed.

(** Overwriting and removing keep the other rows' keys. *)
Lemma arena_live_length nodes arena offsets snodes live segs :
  arena_ok nodes arena offsets snodes live segs → live ≤ Z.of_nat (length arena).
Proof.
  intros [-> _ _ _ Hsg Hl ->]. rewrite length_arena.
  assert (Hsum : map_sum key_bytes nodes = foldr (λ sg acc, Z.of_nat (length sg.1) + acc) 0 (live_segs segs)).
  { unfold map_sum. assert (Hf : Forall (λ sg, ∃ m, nodes !! sg.2 = Some m ∧ sg.1 = key_seg m) (live_segs segs)).
    { apply Forall_forall. intros sg [Hin Hnb]%list_elem_of_In%List.filter_In.
      rewrite Forall_forall in Hsg. apply negb_true_iff in Hnb.
      destruct (Hsg sg ltac:(by apply list_elem_of_In)) as [_ [?|?]]; [congruence|done]. }
    assert (Hfold : foldr (λ sg acc, Z.of_nat (length sg.1) + acc) 0 (live_segs segs) =
      foldr (λ k acc, match nodes !! k with Some m => key_bytes m | None => 0 end + acc) 0 (live_segs segs).*2).
    { clear Hl. induction Hf as [|sg l (m & Hm & Hk) _ IH]; simpl; [done|].
      by rewrite Hm, IH, Hk, key_seg_length. }
    rewrite Hfold. assert (Hp : ∀ l k : list nat, l ≡ₚ k →
      foldr (λ k acc, match nodes !! k with Some m => key_bytes m | None => 0 end + acc) 0 l =
      foldr (λ k acc, match nodes !! k with Some m => key_bytes m | None => 0 end + acc) 0 k)
      by (induction 1; simpl; lia).
    rewrite (Hp _ _ Hl). assert (Hall : Forall (λ kv, nodes !! kv.1 = Some kv.2) (map_to_list nodes)).
    { apply Forall_forall. intros [k m] Hin%elem_of_map_to_list. done. }
    clear Hl. induction Hall as [|[k m] l Hk _ IH]; simpl in *; [done|]. rewrite Hk. f_equal. exact IH. }
  rewrite Hsum. clear. induction segs as [|[b n] segs IH]; [done|]. unfold live_segs in *. simpl.
  destruct (is_blank b); simpl; lia.
Qed.
End segments.

(** ** The index through the snapshot's operations *)

Section index.
Context {H T : Type} `{TagIndex H T} `{SG : StableGraph Memory Relationship} `{Unicode}.
Implicit Types (s : GraphSnapshot T) (h : H) (m : Memory) (segs : list (list Z * nat)).

Definition search_fields s :=
  (search_arena s, search_offsets s, search_nodes s, search_live_bytes s).
(** The index of a snapshot is sound. *)
Definition indexed s : Prop :=
  ∃ segs, arena_ok (sg_nodes (petgraph s)) (search_arena s) (search_offsets s) (search_nodes s)
            (search_live_bytes s) segs.
(** The arena has room for a row's key below the 32-bit offsets. *)
Definition arena_room m s : Prop := Z.of_nat (length (search_arena s)) + key_bytes m < 2 ^ 32.

Lemma index_memory_search m ix s h :
  search_fields (index_memory m ix s h).2 =
  (search_arena s ++ search_key m ++ [NL],
   search_offsets s ++ [as_u32 (Z.of_nat (length (search_arena s)))],
   search_nodes s ++ [ix], search_live_bytes s + key_bytes m).
Proof. unfold index_memory. destruct (foldl _ _ (tags m)). by destruct s. Qed.

Lemma remove_memory_indexes_search m ix s h :
  search_fields (remove_memory_indexes m ix s h) =
  (blank_slots (search_offsets s) ix 0 (search_nodes s) (search_arena s), search_offsets s,
   search_nodes s, usize_saturating_sub (search_live_bytes s) (key_bytes m)).
Proof. by destruct s. Qed.

Lemma node_rows_perm (g : sgraph (N:=Memory) (E:=Relationship)) : node_rows g ≡ₚ map_to_list (sg_nodes g).
Proof.
  unfold node_rows. rewrite node_indices_perm.
  assert (Hall : Forall (λ kv, sg_nodes g !! kv.1 = Some kv.2) (map_to_list (sg_nodes g))).
  { apply Forall_forall. by intros [k m] Hin%elem_of_map_to_list. }
  induction Hall as [|[k m] l Hk _ IH]; [done|]. csimpl. simpl in Hk. rewrite Hk. simpl. by rewrite IH.
Qed.

(** The segments of a rebuilt arena. *)
Definition row_segs (rows : list (nat * Memory)) : list (list Z * nat) :=
  (λ '(ix, m), (key_seg m, ix)) <$> rows.

Lemma rebuild_spec (rows : list (nat * Memory)) segs :
  Z.of_nat (length (arena_of (segs ++ row_segs rows))) < 2 ^ 32 →
  foldl (λ '(arena, offsets, nodes) '(ix, memory),
      (arena ++ search_key memory ++ [NL], offsets ++ [as_u32 (Z.of_nat (length arena))], nodes ++ [ix]))
    (arena_of segs, offsets_from 0 (lens segs), segs.*2) rows =
  (arena_of (segs ++ row_segs rows), offsets_from 0 (lens (segs ++ row_segs rows)),
   (segs ++ row_segs rows).*2).
Proof.
  revert segs. induction rows as [|[ix m] rows IH]; intros segs Hsize; [by rewrite app_nil_r|].
  change (row_segs ((ix, m) :: rows)) with ([(key_seg m, ix)] ++ row_segs rows) in *.
  rewrite (assoc_L (++)) in Hsize |- *. cbn [foldl]. rewrite <-IH by done. f_equal. f_equal; [f_equal|].
  - rewrite arena_of_app, arena_of_cons. unfold key_seg. by rewrite app_nil_r.
  - rewrite lens_app, offsets_app, <-length_arena. simpl. do 2 f_equal. unfold as_u32. apply wrap_small.
    rewrite !arena_of_app, !length_app in Hsize. unfold in_range. lia.
  - by rewrite fmap_app.
Qed.

Lemma rebuilt_ok nodes arena offsets snodes live segs rows :
  arena_ok nodes arena offsets snodes live segs → rows ≡ₚ map_to_list nodes →
  arena_ok nodes (arena_of (row_segs rows)) (offsets_from 0 (lens (row_segs rows))) (row_segs rows).*2
    live (row_segs rows).
Proof.
  intros Hok Hp. pose proof (arena_live_length _ _ _ _ _ _ Hok) as Hle. pose proof Hok as [_ _ _ Hs _ _ Hb].
  assert (Hlen : Z.of_nat (length (arena_of (row_segs rows))) = live).
  { rewrite Hb. unfold map_sum. rewrite <-(sum_perm key_bytes _ _ Hp). clear.
    induction rows as [|[ix m] rows IH]; [done|].
    change (row_segs ((ix, m) :: rows)) with ((key_seg m, ix) :: row_segs rows).
    rewrite arena_of_cons, length_app. simpl. pose proof (key_seg_length m). lia. }
  split; [done|done|done|lia| | |done].
  - unfold row_segs. apply Forall_fmap, Forall_forall. intros [ix m] Hin. rewrite Hp in Hin.
    apply elem_of_map_to_list in Hin. unfold seg_ok. simpl.
    split; [unfold key_seg; by destruct (search_key m)|]. right. by exists m.
  - rewrite <-Hp. clear. assert ((live_segs (row_segs rows)).*2 = rows.*1) as ->; [|done].
    induction rows as [|[ix m] rows IH]; [done|].
    change (row_segs ((ix, m) :: rows)) with ((key_seg m, ix) :: row_segs rows).
    unfold live_segs in *. cbn [List.filter fst]. rewrite key_seg_not_blank. csimpl. by rewrite IH.
Qed.

Lemma compact_indexed s h :
  indexed s → indexed (compact_search_index_if_needed s h).2.
Proof.
  intros [segs Hok]. unfold compact_search_index_if_needed. case_match; [by exists segs|].
  pose proof (rebuilt_ok _ _ _ _ _ _ _ Hok (node_rows_perm (petgraph s))) as Hok'.
  pose proof (rebuild_spec (node_rows (petgraph s)) []) as Hr. simpl in Hr.
  specialize (Hr (ao_size _ _ _ _ _ _ Hok')). rewrite Hr.
  destruct (foldl _ _ (node_weights (petgraph s))). exists (row_segs (node_rows (petgraph s))).
  by destruct s.
Qed.

Lemma indexed_fields s s' :
  sg_nodes (petgraph s') = sg_nodes (petgraph s) → search_fields s' = search_fields s →
  indexed s → indexed s'.
Proof. intros En [= E1 E2 E3 E4] [segs Hok]. exists segs. by rewrite En, E1, E2, E3, E4. Qed.

Lemma insert_memory_indexed m s h :
  snap_ok s → indexed s → arena_room m s → indexed (insert_memory m s h).1.2.
Proof.
  intros Hok [segs Hidx] Hroom. unfold insert_memory, arena_room in *.
  destruct (by_id s !! m_id m) as [ix|] eqn:Hid.
  - destruct (proj1 (ok_ids _ _ _ _ Hok _ _) Hid) as (prior & Hprior & _). rewrite Hprior.
    set (s1 := set_est_bytes _ (remove_memory_indexes prior ix s h)).
    assert (E1 : search_fields s1 = search_fields (remove_memory_indexes prior ix s h) ∧ petgraph s1 = petgraph s)
      by (subst s1; by destruct s).
    clearbody s1. destruct E1 as [E1 Eg1]. rewrite remove_memory_indexes_search in E1.
    set (s2 := set_est_bytes _ s1).
    assert (E2 : search_fields s2 = search_fields s1 ∧ petgraph s2 = petgraph s1) by (subst s2; by destruct s1).
    clearbody s2. destruct E2 as [E2 Eg2]. rewrite E1 in E2. injection E2 as A1 A2 A3 A4.
    pose proof (index_memory_search m ix s2 h) as E3. pose proof (index_memory_core m ix s2 h) as Eg3.
    destruct (index_memory m ix s2 h) as [h3 s3]. cbn [fst snd] in *.
    injection Eg3 as Eg3 _ _ _ _ _. rewrite A1, A2, A3, A4 in E3. injection E3 as B1 B2 B3 B4.
    pose proof (arena_ok_blank _ _ _ _ _ _ ix prior Hidx Hprior) as Hb.
    assert (Hlen : length (blank_slots (search_offsets s) ix 0 (search_nodes s) (search_arena s)) =
              length (search_arena s)).
    { by rewrite (ao_arena _ _ _ _ _ _ Hb), length_arena, lens_blank, <-length_arena,
        <-(ao_arena _ _ _ _ _ _ Hidx). }
    pose proof (arena_ok_push _ _ _ _ _ _ ix m Hb (lookup_delete_eq _ _) ltac:(lia)) as Hp.
    rewrite insert_delete_eq in Hp.
    set (s4 := set_graph _ s3).
    assert (Hi4 : indexed s4).
    { eexists. subst s4. destruct s3. cbn in *. rewrite Eg3, Eg2, Eg1, set_node_nodes by eauto.
      rewrite B1, B2, B3, B4. exact Hp. }
    pose proof (compact_indexed s4 h3 Hi4) as Hc. by destruct (compact_search_index_if_needed s4 h3).
  - set (s1 := set_est_bytes _ s).
    assert (E1 : search_fields s1 = search_fields s ∧ petgraph s1 = petgraph s) by (subst s1; by destruct s).
    clearbody s1. destruct E1 as [E1 Eg1]. rewrite Eg1.
    pose proof (add_node_fresh m (petgraph s)) as Hf. pose proof (add_node_nodes m (petgraph s)) as Hn.
    destruct (add_node m (petgraph s)) as [g ix]. cbn [fst snd] in *.
    set (s2 := set_graph g s1).
    assert (E2 : search_fields s2 = search_fields s ∧ petgraph s2 = g) by (subst s2; by destruct s1).
    clearbody s2. destruct E2 as [E2 Eg2]. injection E2 as A1 A2 A3 A4.
    pose proof (index_memory_search m ix s2 h) as E3. pose proof (index_memory_core m ix s2 h) as Eg3.
    destruct (index_memory m ix s2 h) as [h3 s3]. cbn [fst snd] in *.
    injection Eg3 as Eg3 _ _ _ _ _. rewrite A1, A2, A3, A4 in E3. injection E3 as B1 B2 B3 B4.
    pose proof (arena_ok_push _ _ _ _ _ _ ix m Hidx Hf Hroom) as Hp.
    set (s4 := set_by_id _ s3).
    assert (Hi4 : indexed s4).
    { eexists. subst s4. destruct s3. cbn in *. rewrite Eg3, Eg2, Hn, B1, B2, B3, B4. exact Hp. }
    pose proof (compact_indexed s4 h3 Hi4) as Hc. by destruct (compact_search_index_if_needed s4 h3).
Qed.

Lemma drop_rels_search l s :
  let s' := foldl (λ s relationship_id,
      set_est_bytes (usize_saturating_sub (est_bytes s) 256)
        (set_by_rel_id (delete relationship_id (by_rel_id s)) s)) s l in
  search_fields s' = search_fields s ∧ petgraph s' = petgraph s.
Proof.
  revert s. induction l as [|rid l IH]; intros s; [done|]. cbn [foldl]. cbv zeta in *.
  destruct (IH (set_est_bytes (usize_saturating_sub (est_bytes s) 256)
    (set_by_rel_id (delete rid (by_rel_id s)) s))) as [-> ->]. by destruct s.
Qed.

Lemma remove_memory_indexed id s h : snap_ok s → indexed s → indexed (remove_memory id s h).
Proof.
  intros Hok [segs Hidx]. unfold remove_memory. destruct (by_id s !! id) as [ix|] eqn:Hid; [|by exists segs].
  destruct (proj1 (ok_ids _ _ _ _ Hok _ _) Hid) as (m & Hm & _).
  set (s2 := match sg_nodes _ !! ix with Some _ => _ | None => _ end).
  assert (E2 : search_fields s2 = search_fields (remove_memory_indexes m ix s h) ∧ petgraph s2 = petgraph s).
  { subst s2. assert (E0 : petgraph (set_by_id (delete id (by_id s)) s) = petgraph s) by by destruct s.
    rewrite E0, Hm. by destruct s. }
  clearbody s2. destruct E2 as [E2 Eg2].
  pose proof (drop_rels_search (elements (incident_ids ix (petgraph s2))) s2) as [E3 Eg3].
  set (s3 := foldl _ s2 _) in *. clearbody s3. rewrite E2, remove_memory_indexes_search in E3.
  injection E3 as A1 A2 A3 A4. pose proof (arena_ok_blank _ _ _ _ _ _ ix m Hidx Hm) as Hb.
  eexists. destruct s3. cbn in *. rewrite Eg3, Eg2, remove_node_nodes, A1, A2, A3, A4. exact Hb.
Qed.

Lemma insert_relationship_indexed r s : indexed s → indexed (insert_relationship r s).
Proof.
  apply indexed_fields; unfold insert_relationship;
    (destruct (by_id s !! r_from r) as [a|]; [|done]); (destruct (by_id s !! r_to r) as [b|]; [|done]);
    destruct s as [g ids ? ? ? ? ? ? ? rels ? ? ? ?]; simpl;
    (destruct (rels !! r_id r) as [e|]; [destruct (sg_edges g !! e)|]); simpl;
    rewrite ?set_edge_nodes; try done;
    pose proof (add_edge_nodes a b r g) as Hn; by destruct (add_edge a b r g).
Qed.

Lemma remove_relationship_indexed rid s : indexed s → indexed (remove_relationship rid s).
Proof.
  apply indexed_fields; unfold remove_relationship; (destruct (by_rel_id s !! rid) as [e|]; [|done]);
    destruct s as [g ? ? ? ? ? ? ? ? ? ? ? ? ?]; simpl; destruct (sg_edges g !! e); simpl;
    rewrite ?remove_edge_nodes; done.
Qed.

(** There is room for the keys a change adds. *)
Definition delta_room (d : SnapshotDelta) s : Prop :=
  match d with UpsertMemory m => arena_room m s | _ => True end.

(** Every change keeps the index sound. *)
Lemma apply_indexed d s h : snap_ok s → indexed s → delta_room d s → indexed (apply d s h).2.
Proof.
  intros Hok Hi Hroom. destruct d as [m|id|r|rid|lsn|lsn]; simpl.
  - pose proof (insert_memory_indexed m s h Hok Hi Hroom) as Hm. by destruct (insert_memory m s h) as [[??]?].
  - by apply remove_memory_indexed.
  - by apply insert_relationship_indexed.
  - by apply remove_relationship_indexed.
  - eapply indexed_fields; [..|exact Hi]; by destruct s.
  - eapply indexed_fields; [..|exact Hi]; by destruct s.
Qed.

Lemma empty_indexed now h : indexed (empty now h).2.
Proof.
  unfold empty. destruct (tags_new h). exists []. simpl. rewrite sg_new_nodes. apply arena_ok_empty.
Qed.

(** Changes in sequence, each with room for what it adds. *)
Fixpoint deltas_room (ds : list SnapshotDelta) s h : Prop :=
  match ds with
  | [] => True
  | d :: ds => delta_room d s ∧ let '(h', s') := apply d s h in deltas_room ds s' h'
  end.

Lemma apply_all_indexed ds s h :
  snap_ok s → indexed s → deltas_room ds s h → indexed (apply_all ds s h).2.
Proof.
  unfold apply_all. revert s h. induction ds as [|d ds IH]; intros s h Hok Hi; simpl; [done|].
  intros [Hd Hds]. pose proof (apply_indexed d s h Hok Hi Hd) as Hi'.
  destruct (apply_spec d s h Hok) as [Hok' _]. destruct (apply d s h) as [h' s']. by apply IH.
Qed.
End index.

(** ** What a query finds *)

(** A query without blanks and line breaks, which no match can leave a segment with. *)
Definition plain (q : list Z) : Prop := q ≠ [] ∧ (10 ∉ q) ∧ 32 ∉ q.
Definition contains_b (q l : list Z) : bool := match find_sub q l with Some _ => true | None => false end.

Lemma contains_b_spec q l : contains_b q l = true ↔ contains q l.
Proof.
  unfold contains_b, contains. pose proof (find_sub_spec q l) as Hf. destruct (find_sub q l) as [p|].
  - split; [|done]. intros _. exists p. tauto.
  - split; [done|]. intros [p Hp]. by destruct (Hf p).
Qed.

Section query.
Context `{Unicode}.
Implicit Types (segs : list (list Z * nat)) (nodes : gmap nat Memory).

(** A segment ends with a byte no plain query has. *)
Definition seg_ends (sg : list Z * nat) : Prop :=
  ∃ b x, sg.1 = b ++ [x] ∧ (x = 10 ∨ x = 32).

Lemma seg_ok_ends nodes sg : seg_ok nodes sg → seg_ends sg.
Proof.
  destruct sg as [b0 n]. unfold seg_ends. intros [Hne Hk]. simpl in *.
  destruct Hk as [Hb|(m & _ & ->)]; [|exists (search_key m), 10; auto].
  destruct (exists_last Hne) as (b & x & E). exists b, x. split; [done|]. right.
  unfold is_blank in Hb. rewrite E, forallb_app in Hb. simpl in Hb. bool_prop. done.
Qed.

(** An occurrence lies within one segment. *)
Lemma occurs_seg q segs p :
  plain q → Forall seg_ends segs → occurs q (arena_of segs) p →
  ∃ i b n, segs !! i = Some (b, n) ∧ (length (arena_of (take i segs)) ≤ p)%nat ∧
    (p + length q ≤ length (arena_of (take i segs)) + length b)%nat ∧
    occurs q b (p - length (arena_of (take i segs))).
Proof.
  intros (Hq & H10 & H32). intros Hends. revert p. induction Hends as [|[b n] segs He Hends IH]; intros p Hocc.
  { apply occurs_bound in Hocc; [|done]. destruct q; [done|]. simpl in Hocc. lia. }
  rewrite arena_of_cons in Hocc. destruct (decide (length b ≤ p)%nat) as [Hge|Hlt].
  - assert (Hocc' : occurs q (arena_of segs) (p - length b)).
    { unfold occurs in *. by rewrite drop_app_ge in Hocc. }
    destruct (IH _ Hocc') as (i & b' & n' & Hi & H1 & H2 & H3). exists (S i), b', n'.
    cbn [take firstn]. rewrite arena_of_cons, length_app. split_and!; [done|lia|lia|].
    by replace (p - (length b + length (arena_of (take i segs))))%nat
      with (p - length b - length (arena_of (take i segs)))%nat by lia.
  - destruct (decide (p + length q ≤ length b)%nat) as [Hle|Hgt].
    + exists 0%nat, b, n. simpl. split_and!; [done|lia|done|].
      apply (occurs_middle q [] b (arena_of segs) p); [simpl; lia|done|done].
    + exfalso. destruct He as (b' & x & Eb & Hx). simpl in Eb. rewrite Eb, length_app in Hlt, Hgt. simpl in Hlt, Hgt.
      destruct (q !! (length b' - p)%nat) as [y|] eqn:Hy; [|apply lookup_ge_None in Hy; lia].
      pose proof (occurs_lookup _ _ _ _ _ Hocc Hy) as Hl.
      replace (p + (length b' - p))%nat with (length b') in Hl by lia.
      rewrite Eb, <-(assoc_L (++)) in Hl. cbn [app] in Hl. rewrite list_lookup_middle in Hl by done. injection Hl as <-.
      apply list_elem_of_lookup_2 in Hy. destruct Hx as [-> | ->]; done.
Qed.

(** Conversely an occurrence in a segment is one in the arena. *)
Lemma seg_occurs q segs i b n p :
  q ≠ [] → segs !! i = Some (b, n) → occurs q b p → occurs q (arena_of segs) (length (arena_of (take i segs)) + p).
Proof.
  intros Hq Hi Hp. pose proof (occurs_bound _ _ _ Hq Hp). rewrite <-(take_drop_middle _ _ _ Hi) at 1.
  rewrite arena_of_app, arena_of_cons. apply occurs_middle; [lia|lia|].
  by replace (length (arena_of (take i segs)) + p - length (arena_of (take i segs)))%nat with p by lia.
Qed.

Lemma take_offsets segs i : sum_list (take i (lens segs)) = length (arena_of (take i segs)).
Proof. rewrite length_arena. unfold lens. by rewrite fmap_take. Qed.

Lemma offset_next segs i b n :
  segs !! i = Some (b, n) → length (arena_of (take (S i) segs)) = (length (arena_of (take i segs)) + length b)%nat.
Proof. intros Hi. rewrite (take_S_r _ _ _ Hi), arena_of_app, length_app, arena_of_cons. simpl. by rewrite app_nil_r. Qed.

Lemma offset_mono segs i j : (i ≤ j)%nat → (length (arena_of (take i segs)) ≤ length (arena_of (take j segs)))%nat.
Proof.
  intros Hij. replace (take i segs) with (take i (take j segs)) by (rewrite take_take; f_equal; lia).
  rewrite <-(take_drop i (take j segs)) at 2. rewrite arena_of_app, length_app. lia.
Qed.

Lemma lower_bound_offsets acc segs i b n x :
  Forall (λ sg : list Z * nat, sg.1 ≠ []) segs → segs !! i = Some (b, n) →
  (acc + length (arena_of (take i segs)) ≤ x < acc + length (arena_of (take i segs)) + length b)%nat →
  lower_bound (offsets_from acc (lens segs)) (Z.of_nat x) =
    if decide (x = acc + length (arena_of (take i segs)))%nat then i else S i.
Proof.
  intros Hne. revert acc i. induction Hne as [|[b0 n0] segs Hb0 Hne IH]; intros acc i Hi Hx; [done|].
  simpl in Hb0. assert (0 < length b0)%nat by (destruct b0; [done|simpl; lia]).
  change (lens ((b0, n0) :: segs)) with (length b0 :: lens segs). cbn [offsets_from lower_bound].
  destruct i as [|i]; cbn [take firstn lookup list_lookup] in *.
  - change (length (arena_of [])) with 0%nat in *. simplify_eq. rewrite !Nat.add_0_r in *. destruct (decide (x = acc)) as [->|Hne'].
    + by rewrite Z.ltb_irrefl.
    + rewrite (proj2 (Z.ltb_lt _ _)) by lia. f_equal. clear IH.
      destruct segs as [|[b1 n1] segs]; [done|]. simpl. rewrite (proj2 (Z.ltb_ge _ _)) by lia. done.
  - rewrite arena_of_cons, length_app in Hx |- *. rewrite (proj2 (Z.ltb_lt _ _)) by lia.
    rewrite (IH (acc + length b0)%nat i Hi) by lia.
    destruct (decide (x = (acc + length b0 + length (arena_of (take i segs)))%nat)),
      (decide (x = (acc + (length b0 + length (arena_of (take i segs))))%nat)); lia.
Qed.
End query.

Section scan_spec.
Context {H T : Type} `{TagIndex H T} `{SG : StableGraph Memory Relationship} `{Unicode}
  `{LC : LruCache} `{HashOrder}.
Context (now : DateTime) (snap : GraphSnapshot T) (vc : VisibilityContext) (q : list Z) (limit : Z).
Context (segs : list (list Z * nat)).
Hypothesis Hok : arena_ok (sg_nodes (petgraph snap)) (search_arena snap) (search_offsets snap)
  (search_nodes snap) (search_live_bytes snap) segs.
Hypothesis Hplain : plain q.

Definition offset (i : nat) : nat := length (arena_of (take i segs)).

Lemma segs_ends : Forall seg_ends segs.
Proof. eapply Forall_impl; [exact (ao_segs _ _ _ _ _ _ Hok)|]. intros sg. apply seg_ok_ends. Qed.
Lemma segs_nonempty : Forall (λ sg : list Z * nat, sg.1 ≠ []) segs.
Proof. eapply Forall_impl; [exact (ao_segs _ _ _ _ _ _ Hok)|]. by intros ? []. Qed.

Lemma slot_of_pos_spec i b n p :
  segs !! i = Some (b, n) → (offset i ≤ p < offset i + length b)%nat → slot_of_pos snap p = i.
Proof.
  intros Hi Hp. pose proof (ao_size _ _ _ _ _ _ Hok) as Hs. rewrite (ao_arena _ _ _ _ _ _ Hok) in Hs.
  assert (Hlen : (p < length (arena_of segs))%nat).
  { pose proof (offset_mono segs (S i) (length segs)) as Hm. rewrite (offset_next _ _ _ _ Hi) in Hm.
    apply lookup_lt_Some in Hi. rewrite (take_ge segs (length segs)) in Hm by done. unfold offset in Hp. lia. }
  unfold slot_of_pos, binary_search. rewrite (ao_offsets _ _ _ _ _ _ Hok).
  assert (E : as_u32 (Z.of_nat p) = Z.of_nat p) by (apply wrap_small; unfold in_range; lia).
  rewrite E, (lower_bound_offsets 0 segs i b n) by (done || apply segs_nonempty).
  destruct (decide (p = 0 + length (arena_of (take i segs)))%nat) as [->|Hne].
  - rewrite offsets_lookup by (unfold lens; rewrite length_fmap; by eapply lookup_lt_Some).
    rewrite take_offsets. by rewrite bool_decide_eq_true_2.
  - rewrite bool_decide_eq_false_2; [simpl; lia|].
    destruct (decide (S i < length (lens segs))%nat) as [Hlt|Hge].
    + rewrite offsets_lookup by done. rewrite take_offsets, (offset_next _ _ _ _ Hi).
      unfold offset in *. intros [= ?]. lia.
    + rewrite lookup_ge_None_2; [done|]. rewrite length_offsets. lia.
Qed.

(** The hits of the remaining segments, up to four times the limit. *)
Fixpoint collect (l : list (list Z * nat)) (hits : list (Memory * f32)) : list (Memory * f32) :=
  match l with
  | [] => hits
  | (b, ix) :: l =>
      if contains_b q b then
        match slot_hit now snap vc ix with
        | None => collect l hits
        | Some hit =>
            let hits := hits ++ [hit] in
            if limit * 4 <=? Z.of_nat (length hits) then hits else collect l hits
        end
      else collect l hits
  end.

Lemma collect_skip l1 l2 hits :
  Forall (λ sg, contains_b q sg.1 = false) l1 → collect (l1 ++ l2) hits = collect l2 hits.
Proof. induction 1 as [|[b n] l1 Hb _ IH]; [done|]. simpl in *. by rewrite Hb. Qed.

(** Where the scan stands: [k] segments are done with. *)
Definition stands (from : nat) (last : option nat) (k : nat) : Prop :=
  match last with
  | None => k = 0%nat ∧ from = 0%nat
  | Some j => k = S j ∧ (j < length segs)%nat ∧ (offset j ≤ from ≤ offset k)%nat
  end.

Lemma stands_from from last k : stands from last k → (from ≤ offset k)%nat.
Proof. destruct last; simpl; [intros (-> & _ & ?); lia|intros [-> ->]; lia]. Qed.

(** Segments that begin before the next occurrence do not contain the query. *)
Lemma none_before from k i :
  (from ≤ offset k)%nat → (k ≤ i)%nat →
  (∀ p, (from ≤ p)%nat → (p < offset i)%nat → ¬ occurs q (search_arena snap) p) →
  Forall (λ sg, contains_b q sg.1 = false) (drop k (take i segs)).
Proof.
  intros Hfrom Hki Hno. apply Forall_lookup. intros j [b n] Hj. rewrite lookup_drop in Hj.
  apply lookup_take_Some in Hj as [Hj Hlt]. apply not_true_iff_false. rewrite contains_b_spec. intros [p Hp].
  destruct Hplain as (Hq & _ & _). simpl in Hp.
  pose proof (seg_occurs _ _ _ _ _ _ Hq Hj Hp) as Hocc. rewrite <-(ao_arena _ _ _ _ _ _ Hok) in Hocc.
  pose proof (occurs_bound _ _ _ Hq Hp). assert (0 < length q)%nat by (destruct q; [done|simpl; lia]).
  pose proof (offset_mono segs k (k + j) ltac:(lia)). pose proof (offset_mono segs (S (k + j)) i ltac:(lia)) as Hm.
  rewrite (offset_next _ _ _ _ Hj) in Hm. apply (Hno _) in Hocc; [done|..]; unfold offset in *; lia.
Qed.

Lemma drop_split k i (Hki : (k ≤ i)%nat) : drop k segs = drop k (take i segs) ++ drop i segs.
Proof.
  rewrite <-(take_drop i segs) at 1. destruct (decide (i ≤ length segs)%nat).
  - rewrite drop_app_le; [done|]. rewrite length_take. lia.
  - rewrite (drop_ge segs i), app_nil_r by lia. by rewrite app_nil_r.
Qed.

Lemma offset_all k : (length (search_arena snap) ≤ offset k)%nat → drop k segs = [].
Proof.
  intros Hk. apply drop_ge. destruct (decide (length segs ≤ k)%nat) as [|Hn]; [done|exfalso].
  assert (Hlt : (k < length segs)%nat) by lia. apply lookup_lt_is_Some in Hlt as [[b n] Hb].
  pose proof (offset_mono segs (S k) (length segs)) as Hm. apply lookup_lt_Some in Hb as Hlt.
  rewrite (offset_next _ _ _ _ Hb), (take_ge segs (length segs)) in Hm by done.
  rewrite (ao_arena _ _ _ _ _ _ Hok) in Hk. unfold offset in Hk.
  pose proof segs_nonempty as Hne. rewrite Forall_lookup in Hne. specialize (Hne _ _ Hb). simpl in Hne.
  assert (0 < length b)%nat by (destruct b; [done|simpl; lia]). lia.
Qed.

(** The scan ends within its fuel with the hits of the segments in order. *)
Lemma scan_spec fuel from last k hits :
  stands from last k → (length (search_arena snap) ≤ fuel + from)%nat →
  scan fuel now snap vc q limit from last hits = Some (collect (drop k segs) hits).
Proof.
  destruct Hplain as (Hq & _ & _). assert (Hq0 : (0 < length q)%nat) by (destruct q; [done|simpl; lia]).
  revert from last k hits. induction fuel as [|fuel IH]; intros from last k hits Hst Hfuel; cbn [scan];
    pose proof (find_sub_spec q (drop from (search_arena snap))) as Hfind;
    destruct (find_sub q (drop from (search_arena snap))) as [rel|].
  1: { destruct Hfind as [Hocc _]. apply occurs_bound in Hocc; [|done]. rewrite length_drop in Hocc. lia. }
  1, 3: rewrite (drop_split k (length segs `max` k)) by lia; rewrite collect_skip;
    [by rewrite drop_ge by lia|]; apply (none_before from); [by eapply stands_from|lia|];
    intros p Hp _ Hocc; apply (Hfind (p - from)%nat), occurs_drop;
    by replace (from + (p - from))%nat with p by lia.
  destruct Hfind as [Hocc Hmin]. apply occurs_drop in Hocc. set (pos := (from + rel)%nat) in *.
  pose proof Hocc as Hocc'. rewrite (ao_arena _ _ _ _ _ _ Hok) in Hocc'.
  destruct (occurs_seg q segs pos Hplain segs_ends Hocc') as (i & b & n & Hi & Hlo & Hhi & Hin).
  fold (offset i) in Hlo, Hhi, Hin.
  rewrite (slot_of_pos_spec i b n pos Hi) by lia.
  assert (Hnode : search_nodes snap !! i = Some n).
  { rewrite (ao_nodes _ _ _ _ _ _ Hok), list_lookup_fmap, Hi. done. }
  assert (Hnext : ∀ hits', (k ≤ S i)%nat →
    (if bool_decide (length (search_arena snap) ≤ pos + length q)%nat then Some hits'
     else scan fuel now snap vc q limit (pos + length q) (Some i) hits') = Some (collect (drop (S i) segs) hits')).
  { intros hits' _. assert (Hoff : offset (S i) = (offset i + length b)%nat) by (by apply (offset_next _ _ b n)).
    case_bool_decide as Hend.
    - rewrite offset_all; [done|]. lia.
    - apply IH; [|lia]. simpl. split_and!; [done|by eapply lookup_lt_Some|lia|lia]. }
  assert (Hki : (k ≤ i)%nat ∨ last = Some i ∧ k = S i).
  { destruct last as [j|]; simpl in Hst; [|left; lia]. destruct Hst as (-> & Hj & Hlo' & _).
    destruct (decide (j < i)%nat); [left; lia|right]. assert (i ≤ j)%nat by lia.
    destruct (decide (i = j)) as [->|]; [done|].
    pose proof (offset_mono segs (S i) j ltac:(lia)) as Hm. rewrite (offset_next _ _ _ _ Hi) in Hm.
    unfold offset in *. lia. }
  destruct Hki as [Hki|[-> ->]].
  2: { rewrite bool_decide_eq_true_2 by done. by apply Hnext. }
  rewrite bool_decide_eq_false_2 by (destruct last as [j|]; simpl in Hst; [intros [= ->]; lia|done]).
  rewrite Hnode. rewrite (drop_split k i Hki), collect_skip.
  2: { apply (none_before from); [by eapply stands_from|done|]. intros p Hp Hlt Ho.
       apply (Hmin (p - from)%nat); [unfold pos in *; lia|]. apply occurs_drop.
       by replace (from + (p - from))%nat with p by lia. }
  rewrite (drop_S _ _ _ Hi). cbn [collect].
  rewrite (proj2 (contains_b_spec q b)) by (by eexists).
  destruct (slot_hit now snap vc n) as [hit|]; [|by apply Hnext; lia].
  cbv zeta. destruct (limit * 4 <=? Z.of_nat (length (hits ++ [hit]))); [done|]. by apply Hnext; lia.
Qed.

(** What the segments have to offer. *)
Definition offers (l : list (list Z * nat)) : list (Memory * f32) :=
  omap (λ sg, if contains_b q sg.1 then slot_hit now snap vc sg.2 else None) l.

Lemma collect_offers l hits :
  Z.of_nat (length hits) < limit * 4 →
  collect l hits = take (Z.to_nat (limit * 4)) (hits ++ offers l).
Proof.
  revert hits. induction l as [|[b n] l IH]; intros hits Hlt.
  - simpl. rewrite app_nil_r, take_ge; [done|lia].
  - cbn [collect]. unfold offers. csimpl. fold (offers l).
    destruct (contains_b q b); [|by apply IH]. destruct (slot_hit now snap vc n) as [hit|]; [|by apply IH].
    cbv zeta. rewrite length_app. simpl. destruct (Z.leb_spec (limit * 4) (Z.of_nat (length hits + 1))).
    + rewrite (cons_middle hit hits (offers l)), (assoc_L (++)), take_app_le by (rewrite length_app; simpl; lia).
      rewrite take_ge; [done|]. rewrite length_app. simpl. lia.
    + rewrite IH by (rewrite length_app; simpl; lia). by rewrite <-(assoc_L (++)).
Qed.

(** A row's key answers for its segment. *)
Lemma contains_key m : contains_b q (key_seg m) = contains_b q (search_key m).
Proof.
  apply eq_true_iff_eq. rewrite !contains_b_spec. destruct Hplain as (Hq & H10 & _). unfold key_seg. split.
  - intros [p Hp]. exists p. assert (Hb : (p + length q ≤ length (search_key m))%nat).
    { pose proof (occurs_bound _ _ _ Hq Hp) as Hle. rewrite length_app in Hle. simpl in Hle.
      destruct (decide (p + length q ≤ length (search_key m))%nat) as [|Hn]; [done|exfalso].
      destruct (q !! (length (search_key m) - p)%nat) as [y|] eqn:Hy; [|apply lookup_ge_None in Hy; destruct q; simpl in *; [done|lia]].
      pose proof (occurs_lookup _ _ _ _ _ Hp Hy) as Hl.
      replace (p + (length (search_key m) - p))%nat with (length (search_key m)) in Hl by (destruct q; simpl in *; [done|lia]).
      rewrite list_lookup_middle in Hl by done. injection Hl as <-. by apply list_elem_of_lookup_2 in Hy. }
    pose proof (occurs_middle q [] (search_key m) [NL] p ltac:(simpl; lia) Hb) as Hm. simpl in Hm.
    rewrite Nat.sub_0_r in Hm. by apply Hm.
  - intros [p Hp]. exists p. pose proof (occurs_bound _ _ _ Hq Hp) as Hb.
    pose proof (occurs_middle q [] (search_key m) [NL] p ltac:(simpl; lia) Hb) as Hm. simpl in Hm.
    rewrite Nat.sub_0_r in Hm. by apply Hm.
Qed.

Lemma blank_not_contains b : is_blank b = true → contains_b q b = false.
Proof.
  intros Hb. apply not_true_iff_false. rewrite contains_b_spec. intros [p Hp].
  destruct Hplain as (Hq & _ & H32). destruct q as [|y q'] eqn:Eq; [done|].
  assert (Hl : b !! (p + 0)%nat = Some y) by by eapply occurs_lookup.
  unfold is_blank in Hb. rewrite List.forallb_forall in Hb.
  assert (y = 32) as -> by (apply Z.eqb_eq, Hb, list_elem_of_In; by eapply list_elem_of_lookup_2).
  apply H32. by left.
Qed.

Lemma offers_live l : offers l = offers (live_segs l).
Proof.
  unfold offers, live_segs. induction l as [|[b n] l IH]; [done|]. csimpl.
  destruct (is_blank b) eqn:Hb; csimpl; rewrite IH; [by rewrite blank_not_contains|done].
Qed.

Lemma live_key sg : sg ∈ live_segs segs → ∃ m, sg_nodes (petgraph snap) !! sg.2 = Some m ∧ sg.1 = key_seg m.
Proof.
  intros [Hin Hnb]%list_elem_of_In%List.filter_In. apply negb_true_iff in Hnb.
  pose proof (ao_segs _ _ _ _ _ _ Hok) as Hall. rewrite Forall_forall in Hall.
  destruct (Hall sg ltac:(by apply list_elem_of_In)) as [_ [?|?]]; [congruence|done].
Qed.

Lemma slot_hit_spec ix m sc :
  slot_hit now snap vc ix = Some (m, sc) ↔
  sg_nodes (petgraph snap) !! ix = Some m ∧ memory_visible m vc = true ∧ sc = score now snap ix m.
Proof.
  unfold slot_hit, visible. destruct (sg_nodes (petgraph snap) !! ix) as [m'|]; simpl; [|split; [done|by intros [? _]]].
  destruct (memory_visible m' vc) eqn:Hv; [split; [by intros [= <- <-]|by intros ([= ->] & _ & ->)]|].
  split; [done|]. intros ([= ->] & ? & _). congruence.
Qed.

Lemma elem_of_offers m sc :
  (m, sc) ∈ offers segs ↔
  ∃ ix, sg_nodes (petgraph snap) !! ix = Some m ∧ memory_visible m vc = true ∧
        contains q (search_key m) ∧ sc = score now snap ix m.
Proof.
  rewrite offers_live. unfold offers. rewrite list_elem_of_omap. split.
  - intros ([b ix] & Hin & Hhit). destruct (live_key _ Hin) as (m' & Hm' & Hb). simpl in *. subst b.
    destruct (contains_b q (key_seg m')) eqn:Hc; [|done].
    apply slot_hit_spec in Hhit as (Hm & Hv & ->). exists ix. split_and!; [done|done| |done].
    rewrite Hm' in Hm. injection Hm as ->. by rewrite contains_key, contains_b_spec in Hc.
  - intros (ix & Hm & Hv & Hc & ->). pose proof (ao_live _ _ _ _ _ _ Hok) as Hl.
    assert (Hix : ix ∈ (live_segs segs).*2).
    { rewrite Hl. apply list_elem_of_fmap. exists (ix, m). by rewrite elem_of_map_to_list. }
    apply list_elem_of_fmap in Hix as ([b ix'] & -> & Hin). exists (b, ix'). split; [done|].
    destruct (live_key _ Hin) as (m' & Hm' & Hb). simpl in *. subst b.
    rewrite Hm in Hm'. injection Hm' as <-. rewrite contains_key, (proj2 (contains_b_spec _ _) Hc).
    by apply slot_hit_spec.
Qed.

Lemma offers_nodup : snap_ok snap → NoDup ((λ hit, m_id hit.1) <$> offers segs).
Proof.
  intros Hsnap. rewrite offers_live.
  assert (Hd : NoDup (live_segs segs).*2)
    by (rewrite (ao_live _ _ _ _ _ _ Hok); apply NoDup_fst_map_to_list).
  unfold offers. induction (live_segs segs) as [|[b ix] l IH]; csimpl; [constructor|].
  apply NoDup_cons in Hd as [Hn Hd]. destruct (contains_b q b); [|by apply IH].
  destruct (slot_hit now snap vc ix) as [[m sc]|] eqn:Hh; [|by apply IH].
  apply slot_hit_spec in Hh as (Hm & _ & _). csimpl. constructor; [|by apply IH].
  intros ([m' sc'] & E & ([b' ix'] & Hin & Hh')%list_elem_of_omap)%list_elem_of_fmap. simpl in *.
  destruct (contains_b q b'); [|done]. apply slot_hit_spec in Hh' as (Hm' & _ & _).
  apply Hn, list_elem_of_fmap. exists (b', ix'). split; [|done]. simpl.
  assert (Some ix = Some ix') as [= <-]; [|done].
  transitivity (by_id snap !! m_id m); [symmetry|rewrite E]; apply (ok_ids _ _ _ _ Hsnap); eauto.
Qed.
End scan_spec.

Section search_spec.
Context {H T : Type} `{TagIndex H T} `{SG : StableGraph Memory Relationship} `{Unicode}
  `{LC : LruCache} `{HashOrder}.
Implicit Types (c : LocalCache T) (snap : GraphSnapshot T).

(** A search for text without blanks or line breaks ends and answers from one list, without
    repetition, of exactly the rows resident in the graph that the caller may see and whose title
    or tags hold the text, each with its score: the first rows of it, four times the limit, are
    sorted by score and cut to the limit; so with no more matches than that it gives the best. *)
Theorem search_exact now org query limit vc c snap :
  graph_of org c = Some snap → snap_ok snap → indexed snap → 0 < limit →
  plain (str_to_lowercase (as_bytes query)) →
  ∃ all, search now org query limit vc c =
      Some (take (Z.to_nat limit) (merge_sort (le_of compare_hit) (take (Z.to_nat (limit * 4)) all))) ∧
    NoDup ((λ hit, m_id hit.1) <$> all) ∧
    ∀ m sc, (m, sc) ∈ all ↔
      ∃ ix, by_id snap !! m_id m = Some ix ∧ row_table snap !! m_id m = Some m ∧
        memory_visible m vc = true ∧ contains (str_to_lowercase (as_bytes query)) (search_key m) ∧
        sc = score now snap ix m.
Proof.
  intros Hg Hsnap [segs Hok] Hlim Hplain. set (q := str_to_lowercase (as_bytes query)) in *.
  exists (offers now snap vc q segs). split_and!.
  - unfold search. rewrite Hg. fold q. rewrite (proj2 (Z.eqb_neq limit 0)) by lia.
    rewrite (scan_spec now snap vc q limit segs Hok Hplain _ 0 None 0 []) by (done || lia).
    destruct q as [|x q'] eqn:Eq; [by destruct Hplain|]. cbn [mbind option_bind]. rewrite drop_0.
    by rewrite collect_offers by (simpl; lia).
  - by eapply offers_nodup.
  - intros m sc. rewrite (elem_of_offers now snap vc q segs Hok Hplain). split.
    + intros (ix & Hm & Hv & Hc & ->). exists ix.
      assert (Hid : by_id snap !! m_id m = Some ix) by (apply (ok_ids _ _ _ _ Hsnap); eauto).
      split_and!; try done. by rewrite row_lookup, Hid.
    + intros (ix & Hid & Hrow & Hv & Hc & ->). exists ix. rewrite row_lookup, Hid in Hrow. done.
Qed.
End search_spec.
