(* ===== verification/ShippedPacks.v ===== *)
(** * The packs shipped with the repository

    The [pack!] macro ([crates/exocortex-kernel/src/macros.rs]) as a function from the sections of
    its DSL to a [PackDef], the developer pack ([exocortex-pack-dev-v1]) and the mortgage pack
    ([exocortex-pack-mortgage-v1]) written in it, and what the assembled ontology satisfies.

    A panic of the builder is [None].  The source text of the rules is what [stringify!] prints, up
    to white space, on which [rule_ids_from_source] does not depend. *)

From stdpp Require Import strings.
From S2P Require Import Prelude Ids Kernel Packs Ontology.

(** ** The builder *)

(* SRC crates/exocortex-kernel/src/pack.rs 82-102 KindRow *)
Record KindRow := mkKindRow {
  kr_name : string;
  kr_bucket : RelBucket;
  inverse_name : option string;
  kr_bidirectional : bool;
  kr_default_strength : f32;
  kernel_const_name : string;
  companion : bool;
}.

(** One entry of [kinds!]; the inverse [Self] is [None]. *)
Record KindEntry := mkKindEntry {
  ke_name : string;
  ke_bucket : RelBucket;
  ke_inverse : option string;
  ke_bi : bool;
  ke_default_strength : f32;
  ke_kernel_const : string;
}.

(** One entry of [type_triples!]; the wildcard [_] is [None]. *)
Record TripleEntry := mkTripleEntry {
  te_kind : string;
  te_from : option (list string);
  te_to : option (list string);
}.

(* SRC crates/exocortex-kernel/src/verbs.rs 319-329 __GuidancePiece *)
Inductive GuidancePiece :=
  | When (text : string)
  | Caution (text : string)
  | Link (kind : string) (out : bool) (other : string).

(* SRC crates/exocortex-kernel/src/verbs.rs 253-255 MAX_TEXT_CHARS *)
Definition MAX_TEXT_CHARS : Z := 160.

(* SRC crates/exocortex-kernel/src/verbs.rs 331-367 __guidance_entry *)
Definition guidance_entry (key : string) (pieces : list GuidancePiece) : option GuidanceEntry :=
  foldl (λ entry piece,
    '(mkGuidanceEntry k w c ls) ← entry;
    match piece with
    | When text => if chars_count text <=? MAX_TEXT_CHARS
                   then Some (mkGuidanceEntry k (Some text) c ls) else None
    | Caution text => if chars_count text <=? MAX_TEXT_CHARS
                      then Some (mkGuidanceEntry k w (Some text) ls) else None
    | Link kind out other => Some (mkGuidanceEntry k w c (ls ++ [mkGuidanceLink kind out other]))
    end) (Some (mkGuidanceEntry key None None [])) pieces.

(** The sections of one [pack!]. *)
Record PackSource := mkPackSource {
  ps_name : string;
  ps_version : string;
  ps_kernel_min : string;
  ps_memory_types : list string;
  ps_entity_types : list string;
  ps_computed_only : list string;
  ps_kinds : list KindEntry;
  ps_type_triples : list TripleEntry;
  ps_crepe_rules : string;
  ps_actions : list PackActionDef;
  ps_functions : list PackFunctionDef;
  ps_guidance : list (string * list GuidancePiece);
}.

(** [default_strength: 0.85]: the [f32] nearest to the decimal, the correctly rounded quotient. *)
Definition f32_percent (n : Z) : f32 := SFdiv f32_prec f32_emax (f32_of_Z n) (f32_of_Z 100).

(* SRC crates/exocortex-kernel/src/macros.rs 285-389 __kind_rows *)
Definition kind_rows (e : KindEntry) : list KindRow :=
  match ke_inverse e with
  | None =>
      [mkKindRow (ke_name e) (ke_bucket e) (Some (ke_name e)) (ke_bi e) (ke_default_strength e)
         (ke_kernel_const e) false]
  | Some inv =>
      [mkKindRow (ke_name e) (ke_bucket e) (Some inv) (ke_bi e) (ke_default_strength e)
         (ke_kernel_const e) false;
       mkKindRow inv (ke_bucket e) (Some (ke_name e)) (ke_bi e) (ke_default_strength e) "" true]
  end.

(** [str::split(c)]. *)
Fixpoint split_on (c : Z) (acc l : list Z) : list (list Z) :=
  match l with
  | [] => [acc]
  | b :: l => if b =? c then acc :: split_on c [] l else split_on c (acc ++ [b]) l
  end.

(* SRC crates/exocortex-kernel/src/pack.rs 116-134 rule_ids_from_source *)
Definition rule_ids_from_source (src : string) : list string :=
  omap (λ chunk,
    let chunk := trim_start chunk in
    match chunk with
    | [] => None
    | _ =>
        let pred := default [] (head (split_on 40 [] chunk)) in
        match trim pred with
        | [] => None
        | id => if existsb (λ b, b =? 60) pred then None else Some (string_of_bytes id)
        end
    end) (split_on 59 [] (as_bytes src)).

(** The loop that numbers the rows: authored kinds from 0, companions from [0x4000]. *)
Fixpoint number_rows (authored companions : Z) (rows : list KindRow) : list (KindRow * RelKindId) :=
  match rows with
  | [] => []
  | row :: rows =>
      if negb (companion row) then
        match kernel_const_by_name (kernel_const_name row) with
        | Some k => (row, k) :: number_rows authored companions rows
        | None =>
            (row, mkRelKindId (Z.lor 0x80000000 authored)) :: number_rows (authored + 1) companions rows
        end
      else (row, mkRelKindId (Z.lor 0x80000000 companions)) :: number_rows authored (companions + 1) rows
  end.

(** [collect::<HashMap<_, _>>()] of named entries. *)
Definition by_name {A} (l : list (string * A)) : gmap string A := foldl (λ m e, <[e.1 := e.2]> m) ∅ l.

(** The ids of one side of a triple; an unknown name panics. *)
Definition side_ids (types : gmap string Z) (side : option (list string)) : option (option (list Z)) :=
  match side with
  | None => Some None
  | Some names => ids ← mapM (λ n, types !! n) names; Some (Some ids)
  end.

(** The guidance assertions. *)
Definition guidance_ok (kinds types : list string) (e : GuidanceEntry) : bool :=
  (bool_decide (ge_key e ∈ types) || bool_decide (ge_key e ∈ kinds)) &&
  forallb (λ l, bool_decide (gl_kind l ∈ kinds) && bool_decide (gl_other l ∈ types)) (ge_links e).

(* SRC crates/exocortex-kernel/src/macros.rs 114-268 pack_def *)
Definition pack_def (src : PackSource) : option PackDef :=
  let table := ps_kinds src ≫= kind_rows in
  let numbered := number_rows 0 0x4000 table in
  let id_by_name := by_name ((λ e : KindRow * RelKindId, (kr_name e.1, e.2)) <$> numbered) in
  let inverse_of (name : string) :=
    row ← List.find (λ r, String.eqb (kr_name r) name) table;
    inv ← inverse_name row;
    id_by_name !! inv in
  let kinds := (λ e : KindRow * RelKindId,
      mkRelMeta e.2 (kr_name e.1) (kr_bucket e.1) (inverse_of (kr_name e.1)) (kr_bidirectional e.1)
        (kr_default_strength e.1) (bool_decide (kr_name e.1 ∈ ps_computed_only src))) <$> numbered in
  let types := by_name (imap (λ i n, (n, Z.of_nat i)) (ps_memory_types src)) in
  triples ← mapM (λ t,
      k ← id_by_name !! te_kind t;
      f ← side_ids types (te_from t);
      o ← side_ids types (te_to t);
      Some (mkTypeTriple k f o)) (ps_type_triples src);
  guidance ← mapM (λ '(key, pieces), guidance_entry key pieces) (ps_guidance src);
  if forallb (guidance_ok (kr_name <$> table) (ps_memory_types src)) guidance then
    Some (mkPackDef (ps_name src) (PackVersion_parse (ps_version src))
            (PackVersion_parse (ps_kernel_min src)) (ps_memory_types src) (ps_entity_types src)
            kinds triples (rule_ids_from_source (ps_crepe_rules src)) (ps_actions src)
            (ps_functions src) guidance)
  else None.

(** ** The developer pack *)

(* SRC crates/exocortex-pack-dev-v1/src/lib.rs 21-184 pack! *)
Definition dev_v1 : PackSource := mkPackSource
  "exocortex-pack-dev-v1" "1.0.0" "1.0.0"
  ["Task"; "CodePattern"; "Problem"; "Solution"; "Project"; "Technology"; "Error"; "Fix";
   "Command"; "FileContext"; "Workflow"; "General"; "Conversation"]%string
  ["File"; "Function"; "Class"; "Error"; "Technology"; "Concept"; "Person"; "Project";
   "Command"; "Package"; "Url"; "Variable"]%string
  ["SimilarTo"; "Summarizes"]%string
  [
   mkKindEntry "Solves" Solution (Some "SolvedBy"%string) false (f32_percent 85) "SOLVES";
   mkKindEntry "Addresses" Solution (Some "AddressedBy"%string) false (f32_percent 70) "";
   mkKindEntry "AlternativeTo" Solution None true (f32_percent 60) "";
   mkKindEntry "Improves" Solution (Some "ImprovedBy"%string) false (f32_percent 70) "";
   mkKindEntry "Replaces" Solution (Some "ReplacedBy"%string) false (f32_percent 90) "";
   mkKindEntry "Causes" Causal (Some "CausedBy"%string) false (f32_percent 85) "CAUSES";
   mkKindEntry "Prevents" Causal (Some "PreventedBy"%string) false (f32_percent 80) "";
   mkKindEntry "Triggers" Causal (Some "TriggeredBy"%string) false (f32_percent 75) "";
   mkKindEntry "LeadsTo" Causal (Some "FollowsFrom"%string) false (f32_percent 70) "";
   mkKindEntry "Enables" Causal (Some "EnabledBy"%string) false (f32_percent 65) "";
   mkKindEntry "Blocks" Causal (Some "BlockedBy"%string) false (f32_percent 75) "";
   mkKindEntry "Fixes" Causal (Some "FixedBy"%string) false (f32_percent 90) "FIXES";
   mkKindEntry "Uses" Context (Some "UsedBy"%string) false (f32_percent 70) "";
   mkKindEntry "Requires" Context (Some "RequiredBy"%string) false (f32_percent 85) "";
   mkKindEntry "DependsOn" Context (Some "DependedBy"%string) false (f32_percent 75) "";
   mkKindEntry "Contains" Context (Some "ContainedBy"%string) false (f32_percent 70) "";
   mkKindEntry "PartOf" Context (Some "HasPart"%string) false (f32_percent 70) "";
   mkKindEntry "InSession" Context (Some "HasMember"%string) false (f32_percent 80) "IN_SESSION";
   mkKindEntry "InProject" Context (Some "ProjectHas"%string) false (f32_percent 80) "";
   mkKindEntry "WrittenIn" Context (Some "Powers"%string) false (f32_percent 65) "";
   mkKindEntry "Modifies" Context (Some "ModifiedBy"%string) false (f32_percent 65) "";
   mkKindEntry "Teaches" Learning (Some "LearnedFrom"%string) false (f32_percent 70) "";
   mkKindEntry "Demonstrates" Learning None true (f32_percent 65) "";
   mkKindEntry "Contradicts" Learning None true (f32_percent 80) "";
   mkKindEntry "Confirms" Learning (Some "ConfirmedBy"%string) false (f32_percent 75) "";
   mkKindEntry "BuildsOn" Learning (Some "BuiltOnBy"%string) false (f32_percent 75) "";
   mkKindEntry "Specializes" Learning (Some "Generalizes"%string) false (f32_percent 70) "";
   mkKindEntry "SimilarTo" Similarity None true (f32_percent 60) "";
   mkKindEntry "DifferentFrom" Similarity None true (f32_percent 55) "";
   mkKindEntry "AnalogousTo" Similarity None true (f32_percent 55) "";
   mkKindEntry "RelatedTo" Similarity None true (f32_percent 30) "";
   mkKindEntry "Precedes" Workflow (Some "Follows"%string) false (f32_percent 70) "";
   mkKindEntry "ParallelTo" Workflow None true (f32_percent 50) "";
   mkKindEntry "Executes" Workflow (Some "ExecutedBy"%string) false (f32_percent 75) "";
   mkKindEntry "Creates" Workflow (Some "CreatedBy"%string) false (f32_percent 75) "";
   mkKindEntry "Configures" Workflow (Some "ConfiguredBy"%string) false (f32_percent 65) "";
   mkKindEntry "Automates" Workflow (Some "AutomatedBy"%string) false (f32_percent 75) "";
   mkKindEntry "Validates" Quality (Some "ValidatedBy"%string) false (f32_percent 75) "";
   mkKindEntry "Tests" Quality (Some "TestedBy"%string) false (f32_percent 75) "";
   mkKindEntry "Measures" Quality (Some "MeasuredBy"%string) false (f32_percent 65) "";
   mkKindEntry "Documents" Quality (Some "DocumentedBy"%string) false (f32_percent 65) "";
   mkKindEntry "Verifies" Quality (Some "VerifiedBy"%string) false (f32_percent 75) "";
   mkKindEntry "IntegratesWith" Integration None true (f32_percent 70) "";
   mkKindEntry "Consumes" Integration (Some "ConsumedBy"%string) false (f32_percent 70) "";
   mkKindEntry "Produces" Integration (Some "ProducedBy"%string) false (f32_percent 70) "";
   mkKindEntry "Exposes" Integration (Some "ExposedBy"%string) false (f32_percent 65) "";
   mkKindEntry "Wraps" Integration (Some "WrappedBy"%string) false (f32_percent 70) "";
   mkKindEntry "Bridges" Integration (Some "BridgedBy"%string) false (f32_percent 70) "";
   mkKindEntry "Summarizes" Context None true (f32_percent 70) ""]
  [
   mkTripleEntry "Solves" (Some ["Solution"; "Fix"]%string) (Some ["Problem"; "Error"]%string);
   mkTripleEntry "Addresses" (Some ["Solution"; "Fix"]%string) (Some ["Problem"; "Error"]%string);
   mkTripleEntry "AlternativeTo" (Some ["Solution"; "Fix"]%string) (Some ["Solution"; "Fix"]%string);
   mkTripleEntry "Improves" (Some ["Solution"; "Fix"; "CodePattern"]%string) (Some ["Solution"; "Fix"; "CodePattern"; "Task"]%string);
   mkTripleEntry "Replaces" None None;
   mkTripleEntry "Causes" None (Some ["Error"; "Problem"]%string);
   mkTripleEntry "Prevents" (Some ["Solution"; "Fix"; "CodePattern"]%string) (Some ["Error"; "Problem"]%string);
   mkTripleEntry "Fixes" (Some ["Fix"]%string) (Some ["Error"; "Problem"]%string);
   mkTripleEntry "Triggers" None None;
   mkTripleEntry "LeadsTo" None None;
   mkTripleEntry "Enables" None None;
   mkTripleEntry "Blocks" None None;
   mkTripleEntry "Uses" None (Some ["Technology"; "Command"]%string);
   mkTripleEntry "Requires" None (Some ["Technology"]%string);
   mkTripleEntry "DependsOn" None None;
   mkTripleEntry "Contains" None None;
   mkTripleEntry "PartOf" None None;
   mkTripleEntry "InSession" None (Some ["Conversation"]%string);
   mkTripleEntry "InProject" None (Some ["Project"]%string);
   mkTripleEntry "WrittenIn" (Some ["CodePattern"; "FileContext"]%string) (Some ["Technology"]%string);
   mkTripleEntry "Modifies" (Some ["Task"; "Command"; "Fix"]%string) (Some ["FileContext"]%string);
   mkTripleEntry "Summarizes" None None;
   mkTripleEntry "Teaches" None None;
   mkTripleEntry "Demonstrates" None None;
   mkTripleEntry "Contradicts" None None;
   mkTripleEntry "Confirms" None None;
   mkTripleEntry "BuildsOn" None None;
   mkTripleEntry "Specializes" None None;
   mkTripleEntry "SimilarTo" None None;
   mkTripleEntry "DifferentFrom" None None;
   mkTripleEntry "AnalogousTo" None None;
   mkTripleEntry "RelatedTo" None None;
   mkTripleEntry "Precedes" None None;
   mkTripleEntry "ParallelTo" None None;
   mkTripleEntry "Executes" (Some ["Command"]%string) None;
   mkTripleEntry "Creates" (Some ["Task"; "Command"; "Fix"]%string) (Some ["FileContext"]%string);
   mkTripleEntry "Configures" None None;
   mkTripleEntry "Automates" (Some ["Workflow"; "Command"]%string) None;
   mkTripleEntry "Validates" None None;
   mkTripleEntry "Tests" None None;
   mkTripleEntry "Measures" None None;
   mkTripleEntry "Documents" None None;
   mkTripleEntry "Verifies" None None;
   mkTripleEntry "IntegratesWith" None None;
   mkTripleEntry "Consumes" None None;
   mkTripleEntry "Produces" None None;
   mkTripleEntry "Exposes" None None;
   mkTripleEntry "Wraps" None None;
   mkTripleEntry "Bridges" None None]
  "implied_solves(a, b) <- edge(a, b, Fixes), memory(a, MemoryType::Fix, _);
   transitive_builds_on(a, c) <- edge(a, b, BuildsOn), edge(b, c, BuildsOn);
   indirect_blocker(a, c) <- edge(a, b, Blocks), edge(b, c, Requires);
   contradiction_propagates(a, c) <- edge(a, b, Contradicts), edge(b, c, Confirms);
   shared_target(a, b, f) <- edge(a, f, Modifies), edge(b, f, Modifies), memory(a, _, _),
   memory(b, _, _), a != b; session_cohort(m, s) <- edge(m, s, InSession);"
  [] [] [].

(** ** The mortgage pack *)

(* SRC crates/exocortex-pack-mortgage-v1/src/lib.rs 42-174 pack! *)
Definition mortgage_v1 : PackSource := mkPackSource
  "exocortex-pack-mortgage-v1" "1.0.0" "1.0.0"
  ["Applicant"; "Transaction"; "IncomeSource"; "RuleDefinition"; "RuleFinding";
   "LenderConfiguration"; "LoanApplication"]%string
  ["Lender"; "Product"; "LoanOfficer"; "Agency"; "Institution"]%string
  ["MergeDuplicateApplicant"]%string
  [
   mkKindEntry "Governs" Context (Some "GovernedBy"%string) false (f32_percent 90) "";
   mkKindEntry "SupersedesRule" Learning (Some "SupersededByRule"%string) false (f32_percent 90) "";
   mkKindEntry "Categorizes" Quality (Some "CategorizedBy"%string) false (f32_percent 80) "";
   mkKindEntry "SupportsIncome" Quality (Some "IncomeSupportedBy"%string) false (f32_percent 75) "";
   mkKindEntry "ForApplicant" Context (Some "ApplicantOn"%string) false (f32_percent 85) "";
   mkKindEntry "PartOfApplication" Context (Some "HasApplicationPart"%string) false (f32_percent 70) "";
   mkKindEntry "UnderRule" Context (Some "FindingsUnder"%string) false (f32_percent 85) "";
   mkKindEntry "ConcerningApplication" Context (Some "FindingsConcerning"%string) false (f32_percent 85) "";
   mkKindEntry "PrecedesClosing" Workflow (Some "FollowsClosing"%string) false (f32_percent 70) "";
   mkKindEntry "VerifiedByOfficer" Quality (Some "OfficerVerified"%string) false (f32_percent 80) "";
   mkKindEntry "ReportedBy" Integration (Some "Reports"%string) false (f32_percent 70) "";
   mkKindEntry "MergeDuplicateApplicant" Similarity None true (f32_percent 60) ""]
  [
   mkTripleEntry "Governs" (Some ["RuleDefinition"; "LenderConfiguration"]%string) (Some ["LenderConfiguration"; "LoanApplication"; "IncomeSource"]%string);
   mkTripleEntry "SupersedesRule" (Some ["RuleDefinition"]%string) (Some ["RuleDefinition"]%string);
   mkTripleEntry "Categorizes" (Some ["RuleDefinition"; "LenderConfiguration"]%string) (Some ["Transaction"]%string);
   mkTripleEntry "SupportsIncome" (Some ["Transaction"]%string) (Some ["IncomeSource"]%string);
   mkTripleEntry "ForApplicant" (Some ["IncomeSource"; "LoanApplication"]%string) (Some ["Applicant"]%string);
   mkTripleEntry "PartOfApplication" (Some ["Transaction"; "RuleFinding"]%string) (Some ["LoanApplication"]%string);
   mkTripleEntry "UnderRule" (Some ["RuleFinding"]%string) (Some ["RuleDefinition"]%string);
   mkTripleEntry "ConcerningApplication" (Some ["RuleFinding"]%string) (Some ["LoanApplication"]%string);
   mkTripleEntry "PrecedesClosing" (Some ["Transaction"]%string) (Some ["Transaction"]%string);
   mkTripleEntry "VerifiedByOfficer" (Some ["IncomeSource"; "RuleFinding"]%string) (Some ["LoanApplication"]%string);
   mkTripleEntry "ReportedBy" (Some ["IncomeSource"]%string) (Some ["Applicant"]%string);
   mkTripleEntry "MergeDuplicateApplicant" (Some ["Applicant"]%string) (Some ["Applicant"]%string)]
  "finding_under_config(finding, config) <- edge(finding, r, UnderRule), edge(r, config,
   Governs); finding_categorized(finding, txn) <- edge(finding, r, UnderRule), edge(r, txn,
   Categorizes); finding_via_superseded(finding, old) <- edge(finding, r, UnderRule), edge(r,
   old, SupersedesRule);"
  [mkPackActionDef "AttachRuleFinding" Project "AttachRuleFinding::Input" "ActionProduct"]
  [mkPackFunctionDef "IsCategoricallyEligible" "scheme" "IsCategoricallyEligible::Input" "bool" 2000 5000]
  [("RuleDefinition"%string,
     [When "authoring or changing a lender rule";
      Link "Governs" true "LenderConfiguration"; Link "SupersedesRule" true "RuleDefinition"]);
   ("RuleFinding"%string,
     [When "recording a rule's verdict on a loan file";
      Link "UnderRule" true "RuleDefinition"; Link "ConcerningApplication" true "LoanApplication"]);
   ("Transaction"%string,
     [When "categorizing a bank transaction into an income source";
      Link "SupportsIncome" true "IncomeSource"]);
   ("MergeDuplicateApplicant"%string,
     [Caution "never assert directly - Dreams proposes it (R-T14)"])].

(** ** The packs assembled *)

Definition no_pack : PackDef :=
  mkPackDef "" (mkPackVersion 0 0 0) (mkPackVersion 0 0 0) [] [] [] [] [] [] [] [].
Definition built (src : PackSource) : PackDef := default no_pack (pack_def src).
Definition dev_pack : PackDef := Eval vm_compute in built dev_v1.
Definition mortgage_pack : PackDef := Eval vm_compute in built mortgage_v1.

Lemma dev_builds : pack_def dev_v1 = Some dev_pack.
Proof. vm_compute. reflexivity. Qed.
Lemma mortgage_builds : pack_def mortgage_v1 = Some mortgage_pack.
Proof. vm_compute. reflexivity. Qed.

(** ** What an assembled ontology satisfies *)

(** Kinds come in inverse pairs; every triple is about a registered kind and known memory types;
    a kind has triples exactly when it was authored, so a companion cannot be asserted. *)
Definition side_known (o : Ontology) (side : option (list Z)) : Prop :=
  ∀ ids id, side = Some ids → id ∈ ids → is_Some (memory_type_names o !! Z.to_nat id) ∧ 0 ≤ id.

Record well_typed (o : Ontology) : Prop := {
  wt_paired : inverse_paired o;
  wt_triples k ts t : triples_by_kind o !! k = Some ts → t ∈ ts →
    t_kind t = k ∧ is_Some (kinds_by_id o !! k) ∧
    side_known o (from_types t) ∧ side_known o (to_types t);
  wt_authored k m : kinds_by_id o !! k = Some m →
    is_Some (triples_by_kind o !! k) ↔ is_kernel k = true ∨ local_part k < 0x4000;
}.

(** The same as a test of the tables. *)
Definition side_known_b (n : nat) (side : option (list Z)) : bool :=
  match side with
  | None => true
  | Some ids => forallb (λ id, (0 <=? id) && (Z.to_nat id <? n)%nat) ids
  end.
Definition paired_b (kinds : gmap RelKindId RelMeta) : bool :=
  forallb (λ '(k, m),
    match inverse m with
    | Some i =>
        bool_decide (i = k) || km_bidirectional m ||
        match kinds !! i with
        | Some m' => bool_decide (inverse m' = Some k) && negb (km_bidirectional m')
        | None => false
        end
    | None => true
    end) (map_to_list kinds).
Definition triples_b (n : nat) (kinds : gmap RelKindId RelMeta)
    (triples : gmap RelKindId (list TypeTriple)) : bool :=
  forallb (λ '(k, ts),
    bool_decide (is_Some (kinds !! k)) &&
    forallb (λ t, bool_decide (t_kind t = k) && side_known_b n (from_types t) && side_known_b n (to_types t)) ts)
    (map_to_list triples).
Definition authored_b (kinds : gmap RelKindId RelMeta) (triples : gmap RelKindId (list TypeTriple)) : bool :=
  forallb (λ '(k, _),
    Bool.eqb (bool_decide (is_Some (triples !! k))) (is_kernel k || (local_part k <? 0x4000)))
    (map_to_list kinds).

Lemma forallb_map {K V} `{Countable K} (f : K * V → bool) (m : gmap K V) k v :
  forallb f (map_to_list m) = true → m !! k = Some v → f (k, v) = true.
Proof.
  rewrite List.forallb_forall. intros Hall Hk. apply Hall.
  by apply list_elem_of_In, elem_of_map_to_list.
Qed.

Lemma side_known_test o side :
  side_known_b (length (memory_type_names o)) side = true → side_known o side.
Proof.
  intros Hs ids id -> Hid. simpl in Hs. rewrite List.forallb_forall in Hs.
  apply list_elem_of_In, Hs in Hid. bool_prop. apply Nat.ltb_lt in H0.
  by split; [apply lookup_lt_is_Some|].
Qed.

Lemma well_typed_test o :
  paired_b (kinds_by_id o) = true →
  triples_b (length (memory_type_names o)) (kinds_by_id o) (triples_by_kind o) = true →
  authored_b (kinds_by_id o) (triples_by_kind o) = true → well_typed o.
Proof.
  intros Hp Ht Ha. split.
  - intros k m i Hk Hi Hne Hb. pose proof (forallb_map _ _ _ _ Hp Hk) as Hm. simpl in Hm.
    rewrite Hi, Hb, bool_decide_eq_false_2 in Hm by done. simpl in Hm.
    destruct (kinds_by_id o !! i) as [m'|]; [|done]. bool_prop. by exists m'.
  - intros k ts t Hk Hin. pose proof (forallb_map _ _ _ _ Ht Hk) as Hts. simpl in Hts. bool_prop.
    rewrite List.forallb_forall in H0. apply list_elem_of_In, H0 in Hin. bool_prop.
    split_and!; [done|done|by apply side_known_test..].
  - intros k m Hk. pose proof (forallb_map _ _ _ _ Ha Hk) as Hm. simpl in Hm.
    apply Bool.eqb_prop in Hm. rewrite <-(bool_decide_eq_true (is_Some _)), Hm, orb_true_iff, Z.ltb_lt.
    done.
Qed.

(** The tables of an assembled ontology, from its packs. *)
Definition kind_table (packs : list PackDef) : gmap RelKindId RelMeta :=
  list_to_map ((λ k, (km_id k, k)) <$> (canonicalized packs ≫= p_kinds)).

Lemma from_packs_tables `{Sha256, Bincode} packs :
  packs_ok packs →
  ∃ o, from_packs packs = Ok o ∧ kinds_by_id o = kind_table packs ∧
    triples_by_kind o = index_triples (canonicalized packs ≫= p_type_triples) ∧
    memory_type_names o = canonicalized packs ≫= p_memory_type_names ∧
    memory_type_by_name o = (assign_type_ids (canonicalized packs ≫= p_memory_type_names)).1.
Proof.
  intros Hok. apply from_packs_accepts in Hok. destruct (from_packs packs) as [o|e] eqn:Ho; [|done].
  destruct (from_packs_inv _ _ Ho) as ((_ & _ & _ & Hd & _) & _ & Hk & Ht & Hm & Hn & _).
  exists o. split_and!; try done. apply map_eq. intros id. apply option_eq. intros k.
  rewrite Hk. unfold kind_table.
  assert (Hd' : NoDup ((λ k, (km_id k, k)) <$> (canonicalized packs ≫= p_kinds)).*1)
    by by rewrite <-list_fmap_compose.
  rewrite <-elem_of_list_to_map by done. rewrite list_elem_of_fmap. naive_solver.
Qed.

Definition packs_ok_b (packs : list PackDef) : bool :=
  let c := canonicalized packs in
  bool_decide (NoDup (p_name <$> packs)) && bool_decide (NoDup (c ≫= p_memory_type_names)) &&
  bool_decide (NoDup (c ≫= p_entity_type_names)) && bool_decide (NoDup (km_id <$> (c ≫= p_kinds))) &&
  bool_decide (NoDup (display_name <$> (c ≫= p_kinds))) &&
  forallb (λ k, bool_decide (k ∈ km_id <$> (c ≫= p_kinds))) required_kinds.

Lemma packs_ok_test packs : packs_ok_b packs = true → packs_ok packs.
Proof.
  intros Hb. unfold packs_ok_b in Hb. bool_prop. split_and!; try done.
  intros k Hk. rewrite List.forallb_forall in H0. apply list_elem_of_In, H0 in Hk. bool_prop.
  apply list_elem_of_fmap in Hk as (row & -> & Hrow). by exists row.
Qed.

(** The pack sets a binary of the repository links. *)
Definition shipped : list (list PackDef) :=
  [[dev_pack]; [dev_pack; mortgage_pack]; [mortgage_pack; dev_pack]].

(** The developer pack's own ids: its kinds and its types in declaration order. *)
Definition dev_kinds : list RelMeta := Eval vm_compute in (canonical_meta 0 <$> p_kinds dev_pack).

Definition keeps_dev_ids (o : Ontology) : Prop :=
  (∀ m, m ∈ dev_kinds → kinds_by_id o !! km_id m = Some m) ∧
  (∀ i n, p_memory_type_names dev_pack !! i = Some n → memory_type_by_name o !! n = Some (Z.of_nat i)).

