(* ===== verification/Entities.v ===== *)
(** * Entity extraction

    [crates/exocortex-ingest/src/entities.rs]: the table of patterns per entity type, the
    deterministic extractor and the entities attached to a memory.  The regular expressions run in
    the [regex] crate: [Regex] is its interface on one pattern and one text. *)

From stdpp Require Import strings.
From S2P Require Import Prelude Ids Kernel.

(** [Regex::new(p)] and [RegexSet]: whether [p] matches, and every match with its first group. *)
Class Regex := {
  regex_is_match : string → string → bool;
  captures_iter : string → string → list (string * option string);
}.

(** ** The table *)

(* SRC crates/exocortex-ingest/src/entities.rs 11-13 ENTITY_TYPE_COUNT *)
Definition ENTITY_TYPE_COUNT : nat := 12.

(* SRC crates/exocortex-ingest/src/entities.rs 15-80 pattern_table *)
Definition pattern_table : list (string * list string) := [
  ("File", ["\b[\w\-/\.]+\.(rs|toml|py|ts|js|go|java|c|cpp|h|md)\b"]);
  ("Function", ["\b[a-z_][a-z0-9_]*\(\s*\)"; "\bfn\s+([a-z_][a-z0-9_]*)"]);
  ("Class", ["\b(?:struct|enum|trait|class)\s+([A-Z][A-Za-z0-9_]*)"]);
  ("Error", ["\b[A-Z][A-Za-z0-9]*Error\b"; "\bpanic![^\]]*\]"]);
  ("Technology",
    ["\b(rust|tokio|axum|serde|falkordb|redis|postgres|sqlite|python|typescript|kubernetes|docker)\b"]);
  ("Concept", ["\b[A-Z][a-z]+(?:[ -][A-Z][a-z]+)+\b"]);
  ("Person", ["@[a-z][a-z0-9_]{2,}"]);
  ("Project", ["\b[a-z0-9]+-[a-z0-9]+(?:-[a-z0-9]+)*-service\b"]);
  ("Command", ["\b(?:cargo|npm|pnpm|git|docker|kubectl|make|brew)\s+[a-z\-]+"]);
  ("Package", ["\b[a-z0-9_\-]+@[0-9]+\.[0-9]+(?:\.[0-9]+)?\b"]);
  ("Url", ["https?://[^\s]+"]);
  ("Variable", ["\b[A-Z_][A-Z0-9_]{3,}\b"])
]%string.

(* SRC crates/exocortex-ingest/src/entities.rs 202-206 table_is_complete *)
Definition table_is_complete : bool :=
  Nat.eqb (length pattern_table) ENTITY_TYPE_COUNT &&
  forallb (λ e : string * list string, negb (bool_decide (e.2 = []))) pattern_table.

(** ** Text *)

(** [str::trim] and [str::to_lowercase] on ASCII. *)
Definition str_trim (s : string) : string := string_of_bytes (trim (as_bytes s)).
Definition str_to_lowercase (s : string) : string := string_of_bytes (to_lowercase (as_bytes s)).

(** [trim_end_matches] of a suffix, and of a set of characters. *)
Fixpoint drop_suffixes (fuel : nat) (suffix l : list Z) : list Z :=
  match fuel with
  | O => l
  | S fuel =>
      let n := (length l - length suffix)%nat in
      if bool_decide (drop n l = suffix) && (length suffix <=? length l)%nat
      then drop_suffixes fuel suffix (take n l) else l
  end.
Definition trim_end_str (suffix s : string) : string :=
  let l := as_bytes s in string_of_bytes (drop_suffixes (length l) (as_bytes suffix) l).
Fixpoint drop_start (p : Z → bool) (l : list Z) : list Z :=
  match l with c :: l' => if p c then drop_start p l' else l | [] => [] end.
Definition trim_end_chars (p : Z → bool) (s : string) : string :=
  string_of_bytes (reverse (drop_start p (reverse (as_bytes s)))).

(* SRC crates/exocortex-ingest/src/entities.rs 192-200 canonicalize *)
Definition canonicalize (type_name raw : string) : string :=
  if String.eqb type_name "Function" then trim_end_str "()" raw
  else if String.eqb type_name "Technology" || String.eqb type_name "Concept" || String.eqb type_name "Project"
  then str_to_lowercase raw
  else if String.eqb type_name "Url" then trim_end_chars (λ c, (c =? 46) || (c =? 44)) raw
  else raw.

(** ** The extractor *)

(* SRC crates/exocortex-ingest/src/entities.rs 94-100 EntityExtractor *)
Record EntityExtractor := mkExtractor { ex_org_id : string }.

(** What [extract] yields: a type id, a canonical name, a confidence. *)
Definition Hit : Type := Z * string * f32.

(** The order of [(&a.0, &a.1)]. *)
Definition compare_hit_key : Z * string → Z * string → comparison :=
  compare_lex Z.compare (compare_on as_bytes compare_bytes).

Section extract.
Context `{Regex}.

(** The raw hits of one type, in the order of the patterns that match. *)
Definition raw_hits (patterns : list string) (text : string) : list string :=
  List.filter (λ p, regex_is_match p text) patterns ≫= λ p,
    (λ c : string * option string, str_trim (default c.1 c.2)) <$> captures_iter p text.

(** One type of the table: the loop over its hits. *)
Definition extract_type (acc : list Hit * gset (Z * string)) (i : Z) (type_name : string)
    (hits : list string) : list Hit * gset (Z * string) :=
  let confidence := if (1 <? length hits)%nat then f32_hundredths 60 else f32_hundredths 95 in
  foldl (λ '(out, seen) h,
    let canonical := canonicalize type_name h in
    if bool_decide ((i, canonical) ∈ seen) then (out, seen)
    else (out ++ [(i, canonical, confidence)], {[(i, canonical)]} ∪ seen)) acc hits.

(* SRC crates/exocortex-ingest/src/entities.rs 110-163 extract *)
Definition extract (content : string) (tgs : list string) : list Hit :=
  let text := content +:+ " " +:+ String.concat " " tgs in
  let out := (foldl (λ acc '(i, (type_name, patterns)),
      extract_type acc (as_u8 (Z.of_nat i)) type_name (raw_hits patterns text))
    ([], ∅) (imap pair pattern_table)).1 in
  dedup_by_key fst (merge_sort (le_of (compare_on fst compare_hit_key)) out).

Context `{Blake3}.

Definition compare_eid : EntityId → EntityId → comparison := compare_on eid_bytes compare_bytes.

(* SRC crates/exocortex-ingest/src/entities.rs 165-175 entity_ids *)
Definition entity_ids (e : EntityExtractor) (content : string) (tgs : list string) : list EntityId :=
  dedup (merge_sort (le_of compare_eid)
    ((λ h : Hit, EntityId_from_parts (ex_org_id e) h.1.1 h.1.2) <$> extract content tgs)).

Definition m_set_entities (l : list EntityId) (m : Memory) : Memory :=
  let '(mkMemory a b c d e f g h ctx j k n o p q r s t u v) := m in
  let '(mkMemoryContext c1 c2 c3 c4 c5 c6 c7 c8 c9 c10 c11 c12 c13 c14 c15 _ c17) := ctx in
  mkMemory a b c d e f g h (mkMemoryContext c1 c2 c3 c4 c5 c6 c7 c8 c9 c10 c11 c12 c13 c14 c15 l c17)
    j k n o p q r s t u v.

(* SRC crates/exocortex-ingest/src/entities.rs 213-239 attach_entities *)
Definition attach_entities (m : Memory) (extractor : EntityExtractor) : Memory :=
  let ids := entity_ids extractor (content m) (tags m) in
  let ids :=
    match m_provenance m with
    | ExternalSnapshot snapshot =>
        let k := es_external_key snapshot in
        if String.eqb (ek_table_uuid k) "" then ids
        else ids ++ [EntityId_from_external (ex_org_id extractor) (as_bytes (ek_table_uuid k)) (ek_logical_pk k)]
    | _ => ids
    end in
  m_set_entities (dedup (merge_sort (le_of compare_eid) ids)) m.
End extract.

(** ** What extraction finds *)

(** The order of strings by their bytes. *)
#[global] Instance compare_str_comparable : Comparable (compare_on as_bytes compare_bytes).
Proof. apply compare_on_comparable; apply _. Qed.
#[global] Instance compare_hit_key_comparable : Comparable compare_hit_key.
Proof. unfold compare_hit_key. apply _. Qed.
#[global] Instance compare_eid_comparable : Comparable compare_eid.
Proof. apply compare_on_comparable; [by intros [?] [?] [= ->]|apply _]. Qed.

Section extraction.
Context `{Regex}.

(** The confidence of a type's hits. *)
Definition confidence_of (hits : list string) : f32 :=
  if (1 <? length hits)%nat then f32_hundredths 60 else f32_hundredths 95.

Lemma extract_type_spec out seen i type_name hits :
  (∀ k, k ∈ seen ↔ k ∈ out.*1) → (∀ h, h ∈ out → h.1.1 ≠ i) →
  let '(out', seen') := extract_type (out, seen) i type_name hits in
  (∀ k, k ∈ seen' ↔ k ∈ out'.*1) ∧
  ∀ j name c, (j, name, c) ∈ out' ↔ (j, name, c) ∈ out ∨
    (j = i ∧ c = confidence_of hits ∧ ∃ h, h ∈ hits ∧ name = canonicalize type_name h).
Proof.
  intros Hs Hi. unfold extract_type. fold (confidence_of hits). set (conf := confidence_of hits).
  assert (Hgen : ∀ (l : list string) (out : list Hit) (seen : gset (Z * string)),
    (∀ k, k ∈ seen ↔ k ∈ out.*1) →
    (∀ h : Hit, h ∈ out → h.1.1 = i → h.2 = conf) →
    let '(out', seen') := foldl (λ '(out, seen) h,
      let canonical := canonicalize type_name h in
      if bool_decide ((i, canonical) ∈ seen) then (out, seen)
      else (out ++ [(i, canonical, conf)], ({[(i, canonical)]} : gset (Z * string)) ∪ seen)) (out, seen) l in
    (∀ k, k ∈ seen' ↔ k ∈ out'.*1) ∧
    ∀ j name c, (j, name, c) ∈ out' ↔ (j, name, c) ∈ out ∨
      (j = i ∧ c = conf ∧ ∃ h, h ∈ l ∧ name = canonicalize type_name h)).
  { induction l as [|h l IH]; intros out0 seen0 Hk Hc; cbn [foldl].
    { split; [done|]. intros. setoid_rewrite elem_of_nil. naive_solver. }
    case_bool_decide as Hin.
    - specialize (IH out0 seen0 Hk Hc). destruct (foldl _ _ l) as [out' seen'].
      destruct IH as [IH1 IH2]. split; [done|]. intros j name c. rewrite IH2. setoid_rewrite elem_of_cons.
      split; [naive_solver|]. intros [?|(-> & -> & h' & [->|?] & ->)]; [by left| |by right; eauto].
      left. apply Hk, list_elem_of_fmap in Hin as ([k c'] & E & Hin). simpl in E. subst k.
      by rewrite (Hc _ Hin eq_refl) in Hin || (pose proof (Hc _ Hin eq_refl); simpl in *; subst).
    - specialize (IH (out0 ++ [(i, canonicalize type_name h, conf)]) ({[(i, canonicalize type_name h)]} ∪ seen0)).
      destruct (foldl _ _ l) as [out' seen']. destruct IH as [IH1 IH2].
      + intros k. rewrite fmap_app, elem_of_app, elem_of_union, elem_of_singleton, Hk. simpl.
        rewrite list_elem_of_singleton. naive_solver.
      + intros x [Hx|Hx%list_elem_of_singleton]%elem_of_app; [by apply Hc|by subst].
      + split; [done|]. intros j name c. rewrite IH2, elem_of_app, list_elem_of_singleton.
        setoid_rewrite elem_of_cons. naive_solver. }
  apply Hgen; [done|]. intros h Hh He. by destruct (Hi h Hh).
Qed.

Lemma extract_table (text : string) (table : list (string * list string)) (n : nat) out seen :
  (n + length table ≤ 256)%nat →
  (∀ k, k ∈ seen ↔ k ∈ out.*1) → (∀ h : Hit, h ∈ out → h.1.1 < Z.of_nat n) →
  ∀ j name c, (j, name, c) ∈ (foldl (λ acc '(i, (type_name, patterns)),
      extract_type acc (as_u8 (Z.of_nat i)) type_name (raw_hits patterns text))
    (out, seen) (imap (λ i e, (n + i, e)%nat) table)).1 ↔
  (j, name, c) ∈ out ∨
  ∃ i type_name patterns, table !! i = Some (type_name, patterns) ∧ j = Z.of_nat (n + i) ∧
    c = confidence_of (raw_hits patterns text) ∧
    ∃ h, h ∈ raw_hits patterns text ∧ name = canonicalize type_name h.
Proof.
  revert n out seen. induction table as [|[tn ps] table IH]; intros n out seen Hn Hs Ho j name c.
  { simpl. split; [by left|]. intros [?|(i & ? & ? & Hi & _)]; [done|]. by rewrite lookup_nil in Hi. }
  cbn [imap foldl]. simpl in Hn. rewrite Nat.add_0_r.
  assert (Hw : as_u8 (Z.of_nat n) = Z.of_nat n) by (apply wrap_small; unfold in_range; lia). rewrite Hw.
  pose proof (extract_type_spec out seen (Z.of_nat n) tn (raw_hits ps text) Hs) as Ht.
  destruct (extract_type (out, seen) (Z.of_nat n) tn (raw_hits ps text)) as [out' seen'].
  destruct Ht as [Hs' Hm]; [intros h Hh E; specialize (Ho h Hh); lia|].
  assert (Himap : imap ((λ i e, (n + i, e)%nat) ∘ S) table = imap (λ i e, (S n + i, e)%nat) table).
  { apply imap_ext. intros i x _. simpl. by rewrite Nat.add_succ_r. }
  rewrite Himap, IH; [|lia|done|].
  2:{ intros [[j' name'] c'] [Hh|(-> & _)]%Hm; simpl; [specialize (Ho _ Hh); simpl in Ho|]; lia. }
  rewrite Hm. split.
  - intros [[?|(-> & -> & h & Hh & ->)]|(i & t & p & Hi & -> & -> & Hh)]; [by left| |].
    + right. exists 0%nat, tn, ps. split_and!; [done|lia|done|eauto].
    + right. exists (S i), t, p. split_and!; [done|lia|done|done].
  - intros [?|([|i] & t & p & Hi & -> & -> & Hh)]; [by left; left| |].
    + simpl in Hi. simplify_eq. left; right. destruct Hh as (h & Hh & ->). split_and!; [lia|done|eauto].
    + simpl in Hi. right. exists i, t, p. split_and!; [done|lia|done|done].
Qed.

Lemma extract_spec content0 tgs :
  let text := content0 +:+ " " +:+ String.concat " " tgs in
  StronglySorted (λ x y : Hit, compare_hit_key x.1 y.1 = Lt) (extract content0 tgs) ∧
  ∀ j name, (∃ c, (j, name, c) ∈ extract content0 tgs) ↔
    ∃ i type_name patterns, pattern_table !! i = Some (type_name, patterns) ∧ j = Z.of_nat i ∧
      ∃ h, h ∈ raw_hits patterns text ∧ name = canonicalize type_name h.
Proof.
  cbv zeta. unfold extract. set (text := content0 +:+ _). set (out := (foldl _ _ _).1).
  destruct (sort_dedup_spec (fst : Hit → Z * string) compare_hit_key out) as (Hs & Hin & Hkeys & _).
  split; [exact Hs|]. intros j name.
  pose proof (extract_table text pattern_table 0 [] ∅ ltac:(vm_compute; lia) ltac:(set_solver)
                ltac:(set_solver)) as Ht.
  change (imap (λ i e, (0 + i, e)%nat) pattern_table) with (imap pair pattern_table) in Ht. fold out in Ht.
  split.
  - intros (c & [ ? %not_elem_of_nil|(i & t & p & Hi & Hj & _ & Hh)]%Hin%Ht); [done|].
    exists i, t, p. split_and!; [done|lia|done].
  - intros (i & t & p & Hi & -> & Hh).
    assert ((Z.of_nat i, name, confidence_of (raw_hits p text)) ∈ out) as Ho
      by (apply Ht; right; exists i, t, p; done).
    apply Hkeys, list_elem_of_fmap in Ho as ([[j' name'] c] & E & Hc). simpl in E. simplify_eq. by exists c.
Qed.

Context `{Blake3}.

(** The entities of a memory.  They are in strict order and exactly those of its text and tags,
    type by type and pattern by pattern, with the identity of the external row when the memory is
    a snapshot of one; nothing else of the memory changes.  So memories of one external row, taken
    by any producers under any mapping, refer to one common entity. *)
Lemma attach_spec m e :
  StronglySorted (λ x y, compare_eid x y = Lt) (entities (context (attach_entities m e))) ∧
  (∀ x, x ∈ entities (context (attach_entities m e)) ↔
     (∃ j name c, (j, name, c) ∈ extract (content m) (tags m) ∧ x = EntityId_from_parts (ex_org_id e) j name) ∨
     (∃ s, m_provenance m = ExternalSnapshot s ∧ ek_table_uuid (es_external_key s) ≠ ""%string ∧
        x = EntityId_from_external (ex_org_id e) (as_bytes (ek_table_uuid (es_external_key s)))
              (ek_logical_pk (es_external_key s)))) ∧
  m_set_entities [] (attach_entities m e) = m_set_entities [] m.
Proof.
  unfold attach_entities. set (ids := match m_provenance m with ExternalSnapshot _ => _ | _ => _ end).
  destruct (sort_dedup_ids compare_eid ids) as (Hs & _ & Hin & _).
  assert (He : entities (context (m_set_entities (dedup (merge_sort (le_of compare_eid) ids)) m)) =
               dedup (merge_sort (le_of compare_eid) ids)) by (by destruct m as [? ? ? ? ? ? ? ? []]).
  rewrite He. split; [exact Hs|]. split; [|by destruct m as [? ? ? ? ? ? ? ? []]].
  intros x. rewrite Hin.
  assert (Hids : ∀ x, x ∈ entity_ids e (content m) (tags m) ↔
    ∃ j name c, (j, name, c) ∈ extract (content m) (tags m) ∧ x = EntityId_from_parts (ex_org_id e) j name).
  { intros y. unfold entity_ids. destruct (sort_dedup_ids compare_eid
      ((λ h : Hit, EntityId_from_parts (ex_org_id e) h.1.1 h.1.2) <$> extract (content m) (tags m))) as (_ & _ & -> & _).
    rewrite list_elem_of_fmap. split; [intros ([[j name] c] & -> & Hh); eauto|].
    intros (j & name & c & Hh & ->). by exists (j, name, c). }
  unfold ids. destruct (m_provenance m) as [| | | | |s];
    try (rewrite Hids; split; [by left|intros [?|(? & ? & _)]; done]).
  destruct (String.eqb_spec (ek_table_uuid (es_external_key s)) "") as [Ee|Ee].
  - rewrite Hids. split; [by left|]. intros [?|(s' & [= <-] & ? & _)]; done.
  - rewrite elem_of_app, list_elem_of_singleton, Hids. split.
    + intros [?| ->]; [by left|right; eauto].
    + intros [?|(s' & [= <-] & _ & ->)]; [by left|by right].
Qed.
End extraction.

(** The first group of the [File] pattern is the extension, and the group is preferred to the
    match: the entity of a mentioned file is its extension. *)
Lemma file_entity_is_extension `{Regex} (text path ext : string) :
  regex_is_match "\b[\w\-/\.]+\.(rs|toml|py|ts|js|go|java|c|cpp|h|md)\b" text = true →
  captures_iter "\b[\w\-/\.]+\.(rs|toml|py|ts|js|go|java|c|cpp|h|md)\b" text = [(path, Some ext)] →
  raw_hits ["\b[\w\-/\.]+\.(rs|toml|py|ts|js|go|java|c|cpp|h|md)\b"%string] text = [str_trim ext].
Proof. intros Hm Hc. unfold raw_hits. simpl. rewrite Hm. simpl. by rewrite Hc. Qed.
