(* ===== verification/IngestTypes.v ===== *)
(** * Data of the ingest service

    [crates/exocortex-ingest/src/service.rs], [grouping.rs], [demand.rs], [embedding.rs]: the acks
    and their reject codes, the registered sources and their policies, the recent-acceptance ring,
    the server's record, and the small conversions the handlers share.

    The [lru] crate, [chrono]'s timestamp constructor and the embedding model are interfaces. *)

From stdpp Require Import pretty strings.
From S2P Require Import Prelude Ids Kernel Packs Ontology StorageTypes Wire Entities.

(** ** Interfaces *)

(** [chrono::DateTime::from_timestamp]: the instant of a count of seconds and of nanoseconds, when
    it is in chrono's range. *)
Class FromTimestamp := {
  from_timestamp : Z → Z → option DateTime;
  from_timestamp_exact s n t : 0 ≤ n < 10 ^ 9 → from_timestamp s n = Some t → t = s * 10 ^ 9 + n;
}.

(** [lru::LruCache]: [get] promotes and never changes what the cache holds, [put] stores its entry
    and may drop others, [iter] lists what the cache holds. *)
Class Lru (K V : Type) := {
  lru : Type;
  lru_new : lru;
  lru_peek : K → lru → option V;
  lru_get : K → lru → lru;
  lru_put : K → V → lru → lru;
  lru_iter : lru → list (K * V);
  lru_peek_new k : lru_peek k lru_new = None;
  lru_peek_get k k' c : lru_peek k (lru_get k' c) = lru_peek k c;
  lru_peek_put k v c : lru_peek k (lru_put k v c) = Some v;
  lru_peek_put_ne k k' v c : k ≠ k' →
    lru_peek k (lru_put k' v c) = lru_peek k c ∨ lru_peek k (lru_put k' v c) = None;
  elem_of_lru_iter k v c : (k, v) ∈ lru_iter c ↔ lru_peek k c = Some v;
}.
Arguments lru K V {_}.

(** ** Acks *)

(* SRC crates/exocortex-wire/proto/ingest.proto 251-283 RejectCode *)
Inductive RejectCode :=
  | Unknown | IncompatibleOntology | UnknownSource | UnknownMemoryType | UnknownKindCode
  | InvalidTypeTripleCode | VisibilityWideningCode | MissingExternalKey | DuplicateBatch | BadChecksum
  | Unauthorized | RateLimited | ComputedKindRejected | InvalidExternalKey | ResourceLimitExceeded
  | SourceRewound | SchemaDrift | ProjectionBoundExceeded.

#[global] Instance RejectCode_eq_dec : EqDecision RejectCode.
Proof. solve_decision. Defined.

(** [code as i32] and [format!("{code:?}")]. *)
Definition reject_code (c : RejectCode) : Z :=
  match c with
  | Unknown => 0 | IncompatibleOntology => 1 | UnknownSource => 2 | UnknownMemoryType => 3
  | UnknownKindCode => 4 | InvalidTypeTripleCode => 5 | VisibilityWideningCode => 6
  | MissingExternalKey => 7 | DuplicateBatch => 8 | BadChecksum => 9 | Unauthorized => 10
  | RateLimited => 11 | ComputedKindRejected => 12 | InvalidExternalKey => 13
  | ResourceLimitExceeded => 14 | SourceRewound => 15 | SchemaDrift => 16
  | ProjectionBoundExceeded => 17
  end.
Definition reject_debug (c : RejectCode) : string :=
  match c with
  | Unknown => "Unknown" | IncompatibleOntology => "IncompatibleOntology"
  | UnknownSource => "UnknownSource" | UnknownMemoryType => "UnknownMemoryType"
  | UnknownKindCode => "UnknownKind" | InvalidTypeTripleCode => "InvalidTypeTriple"
  | VisibilityWideningCode => "VisibilityWidening" | MissingExternalKey => "MissingExternalKey"
  | DuplicateBatch => "DuplicateBatch" | BadChecksum => "BadChecksum"
  | Unauthorized => "Unauthorized" | RateLimited => "RateLimited"
  | ComputedKindRejected => "ComputedKindRejected" | InvalidExternalKey => "InvalidExternalKey"
  | ResourceLimitExceeded => "ResourceLimitExceeded" | SourceRewound => "SourceRewound"
  | SchemaDrift => "SchemaDrift" | ProjectionBoundExceeded => "ProjectionBoundExceeded"
  end%string.

(* SRC crates/exocortex-wire/proto/ingest.proto 237-241 RejectRow *)
Record RejectRow := mkRejectRow { rr_draft_key : string; rr_code : Z; rr_detail : string }.

(* SRC crates/exocortex-wire/proto/ingest.proto 242-250 SimilarToHint *)
Record SimilarToHint := mkSimilarToHint {
  sh_draft_key : string;
  existing_memory_id : string;
  existing_title : string;
  suggestion : string;
}.

(* SRC crates/exocortex-wire/proto/ingest.proto 226-236 IngestAck *)
Record IngestAck := mkIngestAck {
  ia_batch_id : string;
  ia_accepted : Z;
  ia_rejected : Z;
  rejections : list RejectRow;
  ia_assigned_lsn : Z;
  similar_to : list SimilarToHint;
}.

(** [tonic::Status]: its code and message. *)
Inductive StatusCode :=
  | Unauthenticated | PermissionDeniedCode | InvalidArgument | FailedPrecondition | Internal.
Record Status := mkStatus { st_code : StatusCode; st_message : string }.

(* SRC crates/exocortex-ingest/src/service.rs 1131-1154 ack_reject_all *)
Definition ack_reject_all (batch : PbIngestBatch) (code : RejectCode) (detail : string) : IngestAck := {|
  ia_batch_id := pb_batch_id batch;
  ia_accepted := 0;
  ia_rejected := as_u32 (Z.of_nat (length (pb_memories batch) + length (pb_relationships batch)));
  rejections :=
    ((λ m, mkRejectRow (pm_draft_key m) (reject_code code) detail) <$> pb_memories batch) ++
    ((λ r, mkRejectRow (pd_from_draft_key r +:+ "->" +:+ pd_to_draft_key r) (reject_code code) detail)
       <$> pb_relationships batch);
  ia_assigned_lsn := 0;
  similar_to := [];
|}.

(* SRC crates/exocortex-ingest/src/service.rs 1275-1279 reject_rows *)
Definition reject_rows (batch : PbIngestBatch) (rows : list RejectRow) : IngestAck :=
  let ack := ack_reject_all batch Unknown "atomic batch rejected" in
  mkIngestAck (ia_batch_id ack) (ia_accepted ack) (ia_rejected ack) rows (ia_assigned_lsn ack)
    (similar_to ack).

(** The single rejection of an idempotent replay. *)
Definition replay_row : RejectRow := mkRejectRow "" (reject_code DuplicateBatch) "idempotent replay".

(** ** Sources *)

(* SRC crates/exocortex-ingest/src/service.rs 42-63 StoredProjection *)
Record StoredProjection := mkStoredProjection {
  sp_selector : string;
  sp_fields : list (string * string * string);
  sp_columns : list (string * string);
  sp_schema_hash : string;
  sp_mapping_version : Z;
  sp_max_rows_per_window : Z;
  sp_max_graph_share_percent : Z;
}.
#[global] Instance StoredProjection_eq_dec : EqDecision StoredProjection.
Proof. solve_decision. Defined.

(* SRC crates/exocortex-ingest/src/service.rs 65-71 projection_schema_hash *)
Definition projection_schema_hash `{Sha256} (columns : list (string * string)) : string :=
  schema_hash_hex columns.

(* SRC crates/exocortex-ingest/src/service.rs 73-78 projection_required *)
Definition projection_required (flavor : string) : bool :=
  bool_decide (flavor ∈ ["iceberg"; "delta"; "parquet-dir"; "cdc-postgres"]%string).

(* SRC crates/exocortex-ingest/src/service.rs 80-109 SourceEntry *)
Record SourceEntry := mkSourceEntry {
  se_ceiling : Visibility;
  se_kind : ProducerKind;
  se_flavor : string;
  se_projection : option StoredProjection;
  se_default_rights : option Rights;
}.

(* SRC crates/exocortex-ingest/src/service.rs 111-121 AdminSourcePolicy *)
Record AdminSourcePolicy := mkAdminSourcePolicy {
  ap_ceiling : Visibility;
  ap_kind : ProducerKind;
  ap_signing_key : list Z;
}.

(** [(org, source_uri, producer_id)]. *)
Definition SourceKey : Type := string * string * string.

(* SRC crates/exocortex-ingest/src/service.rs 243-271 RecentEmbedding *)
Record RecentEmbedding := mkRecentEmbedding {
  re_org : string;
  re_id : MemoryId;
  re_memory_type : Z;
  re_title : string;
  re_content_exact : string;
  re_visibility : Visibility;
  re_project_id : option string;
  re_team_id : option string;
  re_user_id : option string;
  re_embedding : Embedding;
}.

(** ** Conversions *)

(* SRC crates/exocortex-ingest/src/service.rs 591-603 vis_from_i32 *)
Definition vis_from_i32 (v : Z) : result Visibility RejectCode :=
  if v =? 0 then Ok Private else if v =? 1 then Ok Project else if v =? 2 then Ok Team
  else if v =? 3 then Ok Org else if v =? 4 then Ok Public else Err VisibilityWideningCode.

(* SRC crates/exocortex-ingest/src/service.rs 3005-3020 wire_kind_to_kernel *)
Definition wire_kind_to_kernel (v : Z) : option ProducerKind :=
  if v =? 1 then Some CodingAgent else if v =? 2 then Some ResearchAgent
  else if v =? 3 then Some DocsAdapter else if v =? 4 then Some AnalyticsAdapter
  else if v =? 5 then Some Custom else if v =? 6 then Some ExtractedProducer
  else if v =? 7 then Some SaaSAdapter else None.

(** [str::strip_prefix], [starts_with] and a non-empty string. *)
Definition strip_prefix (prefix s : string) : option string :=
  if String.prefix prefix s then Some (String.substring (String.length prefix) (String.length s - String.length prefix) s)
  else None.
Definition non_empty (s : string) : option string := if String.eqb s "" then None else Some s.

(* SRC crates/exocortex-ingest/src/service.rs 3022-3031 session_id_of *)
Definition session_id_of (source_uri source_flavor : string) : option string :=
  if negb (String.eqb source_flavor "session") then None
  else strip_prefix "session://" source_uri ≫= non_empty.

(* SRC crates/exocortex-ingest/src/service.rs 3033-3052 kernel_error_to_reject *)
Definition kernel_error_to_reject (e : KernelError) : RejectCode :=
  match e with
  | TitleBounds | EmptyContent | SummaryBounds | MetadataTooLarge => Unknown
  | VisibilityWidening _ _ _ => VisibilityWideningCode
  | UnknownKind _ => UnknownKindCode
  | InvalidTypeTriple _ _ => InvalidTypeTripleCode
  | ScoreOutOfRange _ | InvalidActionInput _ => Unknown
  | DuplicatePack _ | DuplicateKind _ | DuplicateKindName _ | DuplicateTypeName _
  | UnboundKernelConstant _ => Unknown
  end.

(* SRC crates/exocortex-ingest/src/service.rs 1170-1174 BatchTimes *)
Record BatchTimes := mkBatchTimes { observed_at : DateTime; recorded_at : DateTime }.

Section times.
Context `{FromTimestamp}.

(* SRC crates/exocortex-ingest/src/service.rs 1176-1197 kernel_rights *)
Definition kernel_rights (r : PbRights) : Rights := {|
  licence := non_empty (str_trim (pr_licence r));
  consent_basis := non_empty (str_trim (pr_consent_basis r));
  retention_until :=
    (λ stamp, default 0 (from_timestamp (ts_seconds stamp) (as_u32 (ts_nanos stamp))))
      <$> pr_retention_until r;
  redacted := pr_redacted r;
|}.

(* SRC crates/exocortex-ingest/src/service.rs 1199-1208 checked_timestamp *)
Definition checked_timestamp (t : PbTimestamp) : result DateTime RejectCode :=
  if ts_nanos t <? 0 then Err Unknown
  else if 1000000000 <=? ts_nanos t then Err Unknown
  else ok_or (from_timestamp (ts_seconds t) (ts_nanos t)) Unknown.

(* SRC crates/exocortex-ingest/src/service.rs 1210-1224 batch_times *)
Definition batch_times (now : DateTime) (batch : PbIngestBatch) : result BatchTimes RejectCode :=
  let? recorded := match pb_recorded_at batch with
                   | Some value => checked_timestamp value
                   | None => Ok now
                   end in
  let? observed := match pb_observed_at batch with
                   | Some value => checked_timestamp value
                   | None => Ok recorded
                   end in
  Ok (mkBatchTimes observed recorded).
End times.

(** ** Messages *)

(** [CompatibilityError::to_string] of the one error [admit_producer_batch] returns. *)
(* SRC crates/exocortex-kernel/src/compatibility.rs 615-649 CompatibilityError::fmt *)
Definition not_admitted_text (e : CompatibilityError) : string :=
  match e with
  | ProducerNotAdmitted offered current =>
      "ontology fingerprint " +:+ hex offered +:+ " is not accepted by this server (current "
      +:+ hex current +:+ "); producers may know less than the server, never more — "
      +:+ "re-negotiate with a Fingerprint request"
  | _ => ""
  end.

(** ** Demand *)

(* SRC crates/exocortex-ingest/src/demand.rs 15-23 DemandEvent *)
Record DemandEvent := mkDemandEvent { de_key : string; de_org : string }.

(* SRC crates/exocortex-ingest/src/demand.rs 26-29 triple_key *)
Definition triple_key (kind_name from_label to_label : string) : string :=
  kind_name +:+ "/" +:+ from_label +:+ "->" +:+ to_label.
(* SRC crates/exocortex-ingest/src/demand.rs 31-34 unknown_kind_key *)
Definition unknown_kind_key (kind_name : string) : string := kind_name +:+ "/<unknown>".
(* SRC crates/exocortex-ingest/src/demand.rs 77-81 demand_hash_key *)
Definition demand_hash_key (org : string) : string := "exocortex:" +:+ org +:+ ":ontology-demand".
