(* ===== verification/Grouping.v ===== *)
(** * Grouping nodes

    [crates/exocortex-ingest/src/grouping.rs]: the rule a registered flavor selects, the
    deterministic node that stands for a group and the edge from each member to it. *)

From stdpp Require Import strings.
From S2P Require Import Prelude Ids Kernel Packs Ontology StorageTypes Wire Entities IngestTypes.

(** ** Rules *)

(* SRC crates/exocortex-ingest/src/grouping.rs 23-37 GroupingRule *)
Record GroupingRule := mkGroupingRule {
  gr_flavor : string;
  key_of : PbIngestBatch → option string;
  node_type : string;
  edge_kind : string;
}.

(* SRC crates/exocortex-ingest/src/grouping.rs 50-57 parse_session_uri *)
Definition parse_session_uri (batch : PbIngestBatch) : option string :=
  strip_prefix "session://" (pb_source_uri batch) ≫= non_empty.

(* SRC crates/exocortex-ingest/src/grouping.rs 39-48 grouping_rules *)
Definition grouping_rules : list GroupingRule :=
  [mkGroupingRule "session" parse_session_uri "Conversation" "InSession"].

(* SRC crates/exocortex-ingest/src/grouping.rs 59-71 grouping_key *)
Definition grouping_key (batch : PbIngestBatch) (source_flavor : string) (rules : list GroupingRule)
    : option (GroupingRule * string) :=
  rule ← List.find (λ rule, String.eqb (gr_flavor rule) source_flavor) rules;
  key ← key_of rule batch;
  Some (rule, key).

(** ** The node *)

(* SRC crates/exocortex-ingest/src/grouping.rs 188-191 hasher_update_str *)
Definition hasher_update_str (h : list Z) (s : string) : list Z :=
  h ++ le_bytes 8 (Z.of_nat (length (as_bytes s))) ++ as_bytes s.

Definition grouping_preimage (org flavor key : string) : list Z :=
  hasher_update_str (hasher_update_str (hasher_update_str (as_bytes "exocortex-grouping-v1") org) flavor) key.

(** [chars().take(n)]: whole UTF-8 characters. *)
Fixpoint take_chars (n : nat) (l : list Z) : list Z :=
  match l with
  | [] => []
  | c :: l =>
      if (128 <=? c) && (c <? 192) then c :: take_chars n l
      else match n with O => [] | S n => c :: take_chars n l end
  end.

(** [F01::new(x).unwrap()] of a constant of hundredths. *)
Definition f01_hundredths (n : Z) : F01 := mkF01 (f32_hundredths n).

(** A context with a timestamp and the coordinates the ingest path sets; the rest is empty. *)
Definition ingest_context (at_ : DateTime) (session project team tenant user : option string)
    : MemoryContext := {|
  timestamp := at_; project_id := project; project_path := None; team_id := team;
  tenant_id := tenant; session_id := session; user_id := user; created_by := None;
  files_involved := []; languages := []; frameworks := []; technologies := [];
  git_commit := None; git_branch := None; working_directory := None; entities := [];
  additional_metadata := JNull;
|}.

(** The provenance of a group's rows. *)
Definition grouping_provenance (rule : GroupingRule) : Provenance :=
  Derived ("grouping:" +:+ gr_flavor rule) [].

Section grouping.
Context `{Blake3, HashOrder}.

Definition grouping_id (org flavor key : string) : MemoryId :=
  mkMemoryId (hash16 (grouping_preimage org flavor key)).

(* SRC crates/exocortex-ingest/src/grouping.rs 73-140 grouping_node *)
Definition grouping_node (o : Ontology) (org : string) (rule : GroupingRule) (key : string)
    (now : DateTime) : option Memory :=
  mt ← memory_type_id o (node_type rule);
  let short := string_of_bytes (take_chars 8 (as_bytes key)) in
  Some {|
    m_id := grouping_id org (gr_flavor rule) key;
    memory_type := mt;
    title := "Session " +:+ short;
    content := "Backend grouping node (" +:+ gr_flavor rule +:+ ") for " +:+ key;
    summary := None;
    tags := [];
    m_visibility := Project;
    m_provenance := grouping_provenance rule;
    context := ingest_context now (Some key) None None None None;
    importance := f01_hundredths 50;
    confidence := f01_hundredths 80;
    effectiveness := None;
    usage_count := 0;
    m_valid_from := now;
    m_valid_until := None;
    m_recorded_at := now;
    m_invalidated_by := None;
    embedding := None;
    m_lsn := new_local 0;
    rights := None;
  |}.

(** [kinds_by_id.get(&kind).map(|m| m.default_strength).unwrap_or(0.8)]. *)
Definition default_strength_of (o : Ontology) (kind : RelKindId) : f32 :=
  match kinds_by_id o !! kind with Some k => default_strength k | None => f32_hundredths 80 end.

(* SRC crates/exocortex-ingest/src/grouping.rs 142-186 grouping_edge *)
Definition grouping_edge (o : Ontology) (rule : GroupingRule) (member node : Memory) (now : DateTime)
    : option Relationship :=
  kind ← kind_id o (edge_kind rule);
  Some {|
    r_id := RelationshipId_derive (m_id member) kind (m_id node) None;
    r_kind := kind;
    r_from := m_id member;
    r_to := m_id node;
    r_visibility := relationship_visibility (m_visibility member) (m_visibility node);
    r_provenance := grouping_provenance rule;
    r_properties := {|
      strength := default_strength_of o kind;
      rp_confidence := f32_hundredths 80;
      rp_context := None;
      evidence_count := 1;
      success_rate := None;
      validation_count := 0;
      counter_evidence_count := 0;
      last_validated := now;
    |};
    r_description := None;
    r_bidirectional := false;
    r_valid_from := now;
    r_valid_until := None;
    r_recorded_at := now;
    r_invalidated_by := None;
    r_lsn := new_local 0;
  |}.
End grouping.


(** ** One node per group *)

Definition grouping_fits (org flavor key : string) : Prop :=
  fits64 (as_bytes org) ∧ fits64 (as_bytes flavor) ∧ fits64 (as_bytes key).

Lemma grouping_preimage_inj o f k o' f' k' :
  grouping_fits o f k → grouping_fits o' f' k' →
  grouping_preimage o f k = grouping_preimage o' f' k' → (o, f, k) = (o', f', k').
Proof.
  intros (Ho & Hf & Hk) (Ho' & Hf' & Hk'). unfold grouping_preimage, hasher_update_str.
  rewrite <-!(assoc_L (++)). intros E%(inj (app _)).
  apply frame_inj in E as [Eo E]; [|done..]. apply frame_inj in E as [Ef E]; [|done..].
  destruct (frame_inj (as_bytes k) (as_bytes k') [] []) as [Ek _]; [done|done|by rewrite !app_nil_r|].
  apply (inj as_bytes) in Eo, Ef, Ek. congruence.
Qed.

(** Two groups share their node's identity only when the hash collides. *)
Lemma grouping_id_decides `{Blake3} o f k o' f' k' :
  grouping_fits o f k → grouping_fits o' f' k' →
  grouping_id o f k = grouping_id o' f' k' → (o, f, k) = (o', f', k') ∨ hash16_collision.
Proof.
  intros Hg Hg' [= E]. apply hash16_decides in E as [E|Hc]; [left|by right].
  by eapply grouping_preimage_inj.
Qed.
