(* ===== verification/IngestService.v ===== *)
(** * The ingest service: admission and validation

    [crates/exocortex-ingest/src/service.rs], up to the verdict on a batch: producer
    authentication, admission, the registered source, the validation of every draft and
    [preflight].  [IngestServer] is the configuration of a server; what its clones share behind
    mutexes is [Shared]; the storage behind it is any [IngestStore].  A function that records
    ontology demand returns the events it records. *)

From stdpp Require Import pretty strings.
From S2P Require Import Prelude Ids Kernel Packs Ontology StorageTypes Graph Reads Leases Ingest Governed.
From S2P Require Import Cycles Storage Wire Entities IngestTypes Grouping.

(** ** The storage *)

Class IngestStore (S : Type) := {
  is_recognized : S → list (list Z);
  is_fingerprint : S → list Z;
  is_memories : list MemoryId → S → S * result (list Memory) StorageError;
  is_commit : (nat → DateTime) → IngestBatchKey → list Memory → list Relationship → Z →
    PostIngestEffect → S → S * result IngestCommitOutcome StorageError;
  is_upsert : (nat → DateTime) → list Memory → list Relationship → S →
    S * result (list CommitRecord) StorageError;
  is_append_audit : (nat → DateTime) → AuditEvent → S → S * result CommitRecord StorageError;
  is_stream : S → S * list (result Memory StorageError);
  is_memory : MemoryId → S → S * result (option Memory) StorageError;
  is_upsert_audited : (nat → DateTime) → list Memory → list Relationship → AuditEvent → S →
    S * result (list CommitRecord) StorageError;
}.

Definition set_reads (c : ReadState) (st : Store) : Store :=
  mkStore (graph st) c (lease_table st) (ingest st) (governed st) (journals st).

(** The in-memory store, with the fingerprints it recognizes. *)
Definition in_memory_ingest `{Blake3, Chrono, HashOrder} (o : Ontology) (recognized : list (list Z))
    : IngestStore Store := {|
  is_recognized _ := recognized_ontology_fingerprints o recognized;
  is_fingerprint _ := fingerprint o;
  is_memories ids st := let '(c, r) := get_memories ids (reads st) (graph st) in (set_reads c st, r);
  is_commit clk key ms rs n eff st :=
    let '(IS, g, r) := commit_ingest_batch_with_effect o clk key ms rs n eff (ingest st) (graph st) in
    (put_graph g (put_ingest IS st), r);
  is_upsert clk ms rs st := let '(g, r) := upsert_batch o clk ms rs (graph st) in (put_graph g st, r);
  is_append_audit clk audit st :=
    let '(d, g, r) := append_audit clk audit (governed st) (graph st) in
    (put_graph g (put_governed d st), r);
  is_stream st := let '(c, rows) := stream_all_memories (reads st) (graph st) in (set_reads c st, rows);
  is_memory id st := let '(c, r) := get_memory id (reads st) (graph st) in (set_reads c st, r);
  is_upsert_audited clk ms rs audit st :=
    let '(d, g, r) := upsert_batch_audited o clk ms rs audit (governed st) (graph st) in
    (put_graph g (put_governed d st), r)
|}.

(** ** The server *)

(* SRC crates/exocortex-ingest/src/embedding.rs 15-37 Embedder *)
Record Embedder := mkEmbedder {
  embed_batch : list string → result (list (list f32)) string;
  model_id : string;
  model_version : string;
}.

(* SRC crates/exocortex-ingest/src/service.rs 136-221 IngestServer *)
Record IngestServer := mkIngestServer {
  ontology : Ontology;
  default_producer_key : option (list Z);
  org_guard : option string;
  source_registry_error : option string;
  embedder : option Embedder;
  extractor : EntityExtractor;
  admin_policies : gmap SourceKey AdminSourcePolicy;
  require_admin_policy : bool;
  require_principal : bool;
  personal_scopes : bool;
  ingest_similarity_seeding : bool;
  server_grouping_rules : list GroupingRule;
}.

(** What the clones of a server share. *)
Record Shared `{Lru SourceKey SourceEntry, Lru SourceKey IngestAck} := mkShared {
  sources : lru SourceKey SourceEntry;
  seen_batches : lru SourceKey IngestAck;
  recent : list RecentEmbedding;
  seen_snapshots : gmap SourceKey (list string);
  submit_permits : nat;
}.

(** The clocks and fresh identities one request reads. *)
Record Ambient := mkAmbient {
  at_batch : DateTime;
  at_draft : nat → DateTime;
  new_v7 : nat → MemoryId;
  at_group : DateTime;
  at_seed : DateTime;
  commit_clock : nat → DateTime;
  seed_clock : nat → DateTime;
}.

Section service.
Context `{Blake3, HashOrder, SerdeJson, Regex, FromTimestamp, Hmac}.
Context `{Message PbIngestBatch batch_ok, Message PbMemoryDraft memory_draft_ok}.
Context `{Message PbRelationshipDraft relationship_draft_ok, Message PbSnapshotInfo snapshot_info_ok}.
Context `{Lsrc : Lru SourceKey SourceEntry, Lack : Lru SourceKey IngestAck}.
Context {S : Type} `{IngestStore S}.
Implicit Types (s : IngestServer) (w : Shared) (st : S) (batch : PbIngestBatch).

Definition put_sources (l : lru SourceKey SourceEntry) w : Shared :=
  mkShared _ _ l (seen_batches w) (recent w) (seen_snapshots w) (submit_permits w).
Definition put_acks (l : lru SourceKey IngestAck) w : Shared :=
  mkShared _ _ (sources w) l (recent w) (seen_snapshots w) (submit_permits w).
Definition put_recent (l : list RecentEmbedding) w : Shared :=
  mkShared _ _ (sources w) (seen_batches w) l (seen_snapshots w) (submit_permits w).
Definition put_snapshots (m : gmap SourceKey (list string)) w : Shared :=
  mkShared _ _ (sources w) (seen_batches w) (recent w) m (submit_permits w).
Definition put_permits (n : nat) w : Shared :=
  mkShared _ _ (sources w) (seen_batches w) (recent w) (seen_snapshots w) n.

(** ** Authentication *)

(* SRC crates/exocortex-ingest/src/service.rs 544-552 producer_key *)
Definition producer_key s (org source producer : string) : result (list Z) Status :=
  match admin_policies s !! (org, source, producer) with
  | Some policy => Ok (ap_signing_key policy)
  | None =>
      ok_or (default_producer_key s)
        (mkStatus PermissionDeniedCode "producer has no administrator signing policy")
  end.

(* SRC crates/exocortex-ingest/src/service.rs 554-562 producer_auth_key *)
Definition producer_auth_key s batch : result (list Z) Status :=
  match pb_producer batch with
  | None => Err (mkStatus Unauthenticated "no producer")
  | Some producer =>
      if bool_decide (pp_hmac_signature producer = [])
      then Err (mkStatus Unauthenticated "missing hmac")
      else producer_key s (pb_org_id batch) (pb_source_uri batch) (pb_producer_id batch)
  end.

(* SRC crates/exocortex-ingest/src/service.rs 564-576 ontology_matches *)
Definition ontology_matches s batch st : result unit string :=
  match admit_producer_batch (pb_ontology_fingerprint batch) (ontology s) (is_recognized st) with
  | Ok _ => Ok tt
  | Err e => Err (not_admitted_text e)
  end.

(** A request is its message with the principal the ingress layer installed. *)
(* SRC crates/exocortex-ingest/src/service.rs 578-589 request_principal *)
Definition request_principal s (principal : option VisibilityContext)
    : result (option VisibilityContext) Status :=
  if require_principal s && bool_decide (principal = None)
  then Err (mkStatus Unauthenticated "request has no authenticated principal")
  else Ok principal.

(** ** Admission *)

(* SRC crates/exocortex-ingest/src/service.rs 1298-1364 admit_batch_with *)
Definition admit_batch_with s (verify_hmac : list Z → PbIngestBatch → result unit Status)
    (checksum : PbIngestBatch → string) batch w st : result Shared IngestAck :=
  match producer_auth_key s batch with
  | Err error => Err (ack_reject_all batch Unauthorized (st_message error))
  | Ok producer_key =>
  match validate_batch_resources (pb_memories batch) (pb_relationships batch) with
  | Err detail => Err (ack_reject_all batch ResourceLimitExceeded detail)
  | Ok _ =>
  match submit_permits w with
  | O => Err (ack_reject_all batch RateLimited "concurrent ingestion limit reached")
  | Datatypes.S n =>
  match verify_hmac producer_key batch with
  | Err error => Err (ack_reject_all batch Unauthorized (st_message error))
  | Ok _ =>
  if negb (String.eqb (pb_checksum batch) (checksum batch))
  then Err (ack_reject_all batch BadChecksum "checksum mismatch")
  else match ontology_matches s batch st with
  | Err detail => Err (ack_reject_all batch IncompatibleOntology detail)
  | Ok _ =>
  if match org_guard s with Some guard => negb (String.eqb (pb_org_id batch) guard) | None => false end
  then Err (ack_reject_all batch UnknownSource "org does not match this node")
  else Ok (put_permits n w)
  end end end end end.

(* SRC crates/exocortex-ingest/src/service.rs 1281-1296 admit_batch *)
Definition admit_batch s batch w st : result Shared IngestAck :=
  admit_batch_with s (λ key candidate,
      if verify_signature key candidate then Ok tt
      else Err (mkStatus Unauthenticated "hmac verification failed"))
    canonical_checksum batch w st.

(** The permit's drop. *)
Definition release_permit w : Shared := put_permits (Datatypes.S (submit_permits w)) w.

(** ** The registered source *)

Definition source_key batch : SourceKey := (pb_org_id batch, pb_source_uri batch, pb_producer_id batch).

Definition eq_ignore_ascii_case (a b : string) : bool := String.eqb (str_to_lowercase a) (str_to_lowercase b).

(** The verdict on a snapshot against the registered projection and the snapshots seen. *)
Definition check_snapshot batch (projection : StoredProjection) (snapshot : PbSnapshotInfo) w
    : result unit IngestAck :=
  if negb (eq_ignore_ascii_case (hex (si_schema_hash snapshot)) (sp_schema_hash projection)) then
    Err (ack_reject_all batch SchemaDrift ("snapshot schema_hash differs from the registered mapping — "
      +:+ "re-register the projection deliberately with a bumped mapping_version"))
  else match seen_snapshots w !! source_key batch ≫= last with
  | Some newest =>
      if negb (String.eqb (si_snapshot_id snapshot) newest) &&
         existsb (String.eqb (si_snapshot_id snapshot)) (default [] (seen_snapshots w !! source_key batch))
      then Err (ack_reject_all batch SourceRewound ("snapshot " +:+ si_snapshot_id snapshot
             +:+ " was already superseded by " +:+ newest
             +:+ " — the source was rewound and needs an operator"))
      else Ok tt
  | None => Ok tt
  end.

(** The projection's verdicts. *)
Definition check_projection batch (source : SourceEntry) w : result unit IngestAck :=
  match se_projection source with
  | None => Ok tt
  | Some projection =>
      let rows := Z.of_nat (length (pb_memories batch)) in
      if (0 <? sp_max_rows_per_window projection) && (sp_max_rows_per_window projection <? rows) then
        Err (ack_reject_all batch ProjectionBoundExceeded
          ("batch carries " +:+ pretty rows +:+ " rows; the declared max_rows_per_window is "
           +:+ pretty (sp_max_rows_per_window projection)))
      else match pb_snapshot batch with
           | Some snapshot => check_snapshot batch projection snapshot w
           | None => Ok tt
           end
  end.

(* SRC crates/exocortex-ingest/src/service.rs 1366-1465 registered_source *)
Definition registered_source s batch w : Shared * result SourceEntry IngestAck :=
  match source_registry_error s with
  | Some _ => (w, Err (ack_reject_all batch UnknownSource "source registry unavailable"))
  | None =>
      let found := lru_peek (source_key batch) (sources w) in
      let w := put_sources (lru_get (source_key batch) (sources w)) w in
      (w,
       let? source := ok_or found (ack_reject_all batch UnknownSource "producer not registered") in
       match vis_from_i32 (pb_ceiling batch) with
       | Err _ => Err (ack_reject_all batch UnknownSource "unknown source ceiling discriminant")
       | Ok requested =>
           if negb (bool_decide (requested = se_ceiling source))
           then Err (ack_reject_all batch UnknownSource "ceiling mismatch (R-I3)")
           else if match pb_snapshot batch with
                   | Some snapshot => negb (String.eqb (si_source_flavor snapshot) (se_flavor source))
                   | None => false
                   end
           then Err (ack_reject_all batch UnknownSource
                       "snapshot source_flavor differs from the registered source")
           else let? _ := check_projection batch source w in Ok source
       end)
  end.

(* SRC crates/exocortex-ingest/src/service.rs 1742-1764 source_entry *)
Definition source_entry s (org source_uri producer_id : string) w : Shared * result SourceEntry string :=
  match source_registry_error s with
  | Some error => (w, Err ("source registry unavailable: " +:+ error))
  | None =>
      let key := (org, source_uri, producer_id) in
      (put_sources (lru_get key (sources w)) w,
       ok_or (lru_peek key (sources w)) "producer not registered"%string)
  end.

(* SRC crates/exocortex-ingest/src/service.rs 1976-1987 producer_signing_key *)
Definition producer_signing_key s (org source_uri producer_id : string) : result (list Z) string :=
  match producer_key s org source_uri producer_id with
  | Ok key => Ok key
  | Err error => Err (st_message error)
  end.

(** ** One memory *)

(** The scope a principal asks for in the producer's metadata. *)
Definition requested_project batch : option string :=
  producer ← pb_producer batch; metadata ← pp_client_metadata producer; non_empty (cm_project_id metadata).
Definition requested_team batch : option string :=
  producer ← pb_producer batch; metadata ← pp_client_metadata producer; non_empty (cm_team_id metadata).

Definition member_of (id : option string) (granted : list string) : bool :=
  match id with Some id => existsb (λ allowed, String.eqb allowed id) granted | None => false end.

(** Tenant, user, project and team of a draft at visibility [vis]. *)
Definition draft_scope s batch (vis : Visibility) (principal : option VisibilityContext)
    : result (option string * option string * option string * option string) RejectCode :=
  match principal with
  | None => Ok (None, None, None, None)
  | Some principal =>
      if vis_u8 (max_visibility principal) <? vis_u8 vis then Err VisibilityWideningCode
      else if negb (personal_scopes s) && bool_decide (vis = Project) &&
              negb (member_of (requested_project batch) (project_ids principal))
      then Err VisibilityWideningCode
      else if negb (personal_scopes s) && bool_decide (vis = Team) &&
              negb (member_of (requested_team batch) (team_ids principal))
      then Err VisibilityWideningCode
      else Ok (Some (vc_org_id principal), Some (vc_user_id principal),
               requested_project batch, requested_team batch)
  end.

(** The provenance of a draft. *)
Definition draft_provenance batch (m : PbMemoryDraft) (snapshot : bool) (source : SourceEntry)
    (times : BatchTimes) : Provenance :=
  if snapshot then ExternalSnapshot {|
    es_source_uri := pb_source_uri batch;
    es_snapshot_id := match pb_snapshot batch with Some s => si_snapshot_id s | None => "" end;
    es_schema_hash := match pb_snapshot batch with Some s => si_schema_hash s | None => replicate 32 0 end;
    es_observed_at := observed_at times;
    es_external_key := match pm_external_key m with
      | Some k => mkExternalKey (hex (Wire.ek_table_uuid k)) (as_bytes (Wire.ek_logical_pk k))
                    (Wire.ek_mapping_version k)
      | None => mkExternalKey "" [] 0
      end;
    es_producer_id := pb_producer_id batch |}
  else Asserted (pb_producer_id batch) (Some (se_kind source)).

(** The validity of a draft. *)
Definition draft_validity (m : PbMemoryDraft) (times : BatchTimes)
    : result (DateTime * option DateTime) RejectCode :=
  let? valid_from := match pm_valid_from m with
                     | Some value => checked_timestamp value
                     | None => Ok (recorded_at times)
                     end in
  let? valid_until := match pm_valid_until m with
                      | Some value => let? t := checked_timestamp value in Ok (Some t)
                      | None => Ok None
                      end in
  if match valid_until with Some t => t <? valid_from | None => false end then Err Unknown
  else Ok (valid_from, valid_until).

(** The rights of a draft: its own, or else the source's. *)
Definition draft_rights (m : PbMemoryDraft) (source : SourceEntry) (valid_from : DateTime)
    : result (option Rights) RejectCode :=
  let rights := match pm_rights m with Some r => Some (kernel_rights r) | None => se_default_rights source end in
  if match rights ≫= retention_until with Some until => until <? valid_from | None => false end
  then Err Unknown else Ok rights.

(* SRC crates/exocortex-ingest/src/service.rs 605-866 validate_memory *)
Definition validate_memory s batch (m : PbMemoryDraft) (snapshot : bool) (source : SourceEntry)
    (times : BatchTimes) (principal : option VisibilityContext) (now : DateTime) (fresh : MemoryId)
    : result Memory RejectCode :=
  let? mt := ok_or (memory_type_by_name (ontology s) !! pm_memory_type m) UnknownMemoryType in
  let? vis := vis_from_i32 (pm_visibility m) in
  let? scope := draft_scope s batch vis principal in
  let '(tenant, user, project, team) := scope in
  let kernel_draft := {|
    d_memory_type := mt; d_title := pm_title m; d_content := pm_content m; d_summary := None;
    d_visibility := vis; d_context := ingest_context now None project team tenant user;
    d_edge_hints := []; d_external_key := None |} in
  match validate_draft (ontology s) kernel_draft (mkSourceCeiling "ingest" (se_ceiling source)) with
  | Err e => Err (kernel_error_to_reject e)
  | Ok _ =>
  if snapshot && bool_decide (pm_external_key m = None) then Err MissingExternalKey
  else if match pm_external_key m with
          | Some k => negb (Nat.eqb (length (Wire.ek_table_uuid k)) 16)
          | None => false
          end then Err InvalidExternalKey
  else if match pb_snapshot batch with
          | Some s => negb (Nat.eqb (length (si_schema_hash s)) 32)
          | None => false
          end then Err InvalidExternalKey
  else
  let? validity := draft_validity m times in
  let '(valid_from, valid_until) := validity in
  let? rights := draft_rights m source valid_from in
  Ok (attach_entities {|
    m_id := match pm_external_key m with
            | Some k => MemoryId_from_external (pb_org_id batch) (pb_source_uri batch)
                          (Wire.ek_table_uuid k) (as_bytes (Wire.ek_logical_pk k)) (Wire.ek_mapping_version k)
            | None => fresh
            end;
    memory_type := mt;
    title := pm_title m;
    content := pm_content m;
    summary := None;
    tags := normalize_tags (pm_tags m);
    m_visibility := vis;
    m_provenance := draft_provenance batch m snapshot source times;
    context := ingest_context (observed_at times)
      (session_id_of (pb_source_uri batch) (se_flavor source)) project team tenant user;
    importance := f01_hundredths 50;
    confidence := f01_hundredths 80;
    effectiveness := None;
    usage_count := 0;
    m_valid_from := valid_from;
    m_valid_until := valid_until;
    m_recorded_at := recorded_at times;
    m_invalidated_by := None;
    embedding := None;
    m_lsn := new_local 0;
    Kernel.rights := rights |} (extractor s))
  end.

(** ** One relationship *)

(** [is_finite] and the range of a score. *)
Definition unit_score (x : f32) : bool := SFleb f32_zero x && SFleb x f32_one.

(** A kind's and a memory type's name, as a demand key shows them. *)
Definition kind_label (o : Ontology) (kind : RelKindId) : string :=
  match kinds_by_id o !! kind with
  | Some k => display_name k
  | None => "kind:" +:+ pretty (kind_val kind)
  end.
Definition type_label (o : Ontology) (t : Z) : string :=
  match memory_type_names o !! Z.to_nat t with Some n => n | None => "type:" +:+ pretty t end.

(** A score a draft leaves at zero takes the kind's default strength. *)
Definition or_default (o : Ontology) (kind : RelKindId) (x : f32) : f32 :=
  if f32_eqb x f32_zero then default_strength_of o kind else x.

(** The edge a draft asserts, once everything about it is checked. *)
Definition asserted_edge (o : Ontology) batch (r : PbRelationshipDraft) (kind : RelKindId)
    (from to : Memory) (producer_kind : ProducerKind) (at_ : DateTime) : Relationship := {|
  r_id := RelationshipId_derive (m_id from) kind (m_id to) None;
  r_kind := kind;
  r_from := m_id from;
  r_to := m_id to;
  r_visibility := relationship_visibility (m_visibility from) (m_visibility to);
  r_provenance :=
    if bool_decide (pb_snapshot batch = None) then Asserted (pb_producer_id batch) (Some producer_kind)
    else m_provenance from;
  r_properties := {|
    strength := or_default o kind (pd_strength r);
    rp_confidence := or_default o kind (pd_confidence r);
    rp_context := None;
    evidence_count := 1;
    success_rate := None;
    validation_count := 0;
    counter_evidence_count := 0;
    last_validated := at_;
  |};
  r_description := None;
  r_bidirectional := match kinds_by_id o !! kind with Some k => km_bidirectional k | None => false end;
  r_valid_from := at_;
  r_valid_until := None;
  r_recorded_at := at_;
  r_invalidated_by := None;
  r_lsn := new_local 0;
|}.

(** The key of the target: a draft key or the hexadecimal identity of a stored memory. *)
Definition target_key (r : PbRelationshipDraft) : option string :=
  if String.eqb (pd_to_memory_id r) ""
  then non_empty (pd_to_draft_key r)
  else if String.eqb (pd_to_draft_key r) "" then Some (pd_to_memory_id r) else None.

(* SRC crates/exocortex-ingest/src/service.rs 867-1027 validate_relationship *)
Definition validate_relationship s batch (r : PbRelationshipDraft) (draft_ids : gmap string Memory)
    (ceiling : Visibility) (producer_kind : ProducerKind) (times : BatchTimes)
    : list DemandEvent * result Relationship RejectCode :=
  let o := ontology s in
  match draft_ids !! pd_from_draft_key r with
  | None => ([], Err InvalidTypeTripleCode)
  | Some from_mem =>
  match target_key r ≫= (draft_ids !!.) with
  | None => ([], Err InvalidTypeTripleCode)
  | Some to_mem =>
  match kind_id o (pd_kind r) with
  | None => ([mkDemandEvent (unknown_kind_key (pd_kind r)) (pb_org_id batch)], Err UnknownKindCode)
  | Some kind =>
  if match kinds_by_id o !! kind with Some k => computed_only k | None => false end
  then ([], Err ComputedKindRejected)
  else match vis_from_i32 (pd_visibility r) with
  | Err code => ([], Err code)
  | Ok _ =>
  let vis := relationship_visibility (m_visibility from_mem) (m_visibility to_mem) in
  if negb (within vis ceiling) then ([], Err VisibilityWideningCode)
  else match validate_triple o (memory_type from_mem) kind (memory_type to_mem) with
  | Err e =>
      (match e with
       | InvalidTypeTriple _ _ =>
           [mkDemandEvent (triple_key (kind_label o kind) (type_label o (memory_type from_mem))
                             (type_label o (memory_type to_mem))) (pb_org_id batch)]
       | _ => []
       end, Err (kernel_error_to_reject e))
  | Ok _ =>
  if negb (unit_score (pd_strength r)) then ([], Err Unknown)
  else if negb (unit_score (pd_confidence r)) then ([], Err Unknown)
  else ([], Ok (asserted_edge o batch r kind from_mem to_mem producer_kind (recorded_at times)))
  end end end end end.

(** ** The batch *)

(** [message.to_lowercase().contains("connect")]. *)
Definition str_contains (needle s : string) : bool :=
  existsb (λ i, bool_decide (take (length (as_bytes needle)) (drop i (as_bytes s)) = as_bytes needle))
    (seq 0 (Datatypes.S (length (as_bytes s)))).
Definition transient (e : StorageError) : bool :=
  match e with Backend message => str_contains "connect" (str_to_lowercase message) | _ => false end.

(* SRC crates/exocortex-ingest/src/service.rs 1226-1232 internal_storage_status *)
Definition internal_storage_status : Status := mkStatus Internal "internal storage error".

(** [MAX_ATTEMPTS]. *)
Definition MAX_ATTEMPTS : nat := 6.

(** The attempts that are left; the gap between two is not modelled. *)
Fixpoint storage_attempts {T} (n : nat) (call : S → S * result T StorageError) st
    : S * result T Status :=
  match n with
  | O => (st, Err internal_storage_status)
  | Datatypes.S n =>
      match call st with
      | (st, Ok value) => (st, Ok value)
      | (st, Err error) =>
          if transient error && negb (Nat.eqb n 0) then storage_attempts n call st
          else (st, Err internal_storage_status)
      end
  end.

(* SRC crates/exocortex-ingest/src/service.rs 1234-1272 storage_retry *)
Definition storage_retry {T} (call : S → S * result T StorageError) st : S * result T Status :=
  storage_attempts MAX_ATTEMPTS call st.

(* SRC crates/exocortex-ingest/src/service.rs 1156-1160 ValidatedBatch *)
Record ValidatedBatch := mkValidated {
  v_memories : list Memory;
  v_relationships : list Relationship;
  v_loaded : gmap MemoryId Memory;
}.

(** The verdict on every draft, in order. *)
Definition memory_verdicts s batch (source : SourceEntry) (times : BatchTimes)
    (principal : option VisibilityContext) (amb : Ambient) : list (PbMemoryDraft * result Memory RejectCode) :=
  imap (λ i draft, (draft,
    validate_memory s batch draft (bool_decide (is_Some (pb_snapshot batch))) source times principal
      (at_draft amb i) (new_v7 amb i))) (pb_memories batch).

Definition accepted_of {D A} (l : list (D * result A RejectCode)) : list A :=
  omap (λ v, match v.2 with Ok a => Some a | Err _ => None end) l.
Definition rejected_of {D A} (key : D → string) (l : list (D * result A RejectCode)) : list RejectRow :=
  omap (λ v, match v.2 with
             | Ok _ => None
             | Err code => Some (mkRejectRow (key v.1) (reject_code code) (reject_debug code))
             end) l.
(** The loop's [insert]s: a later draft key replaces an earlier one. *)
Definition keyed_of (l : list (PbMemoryDraft * result Memory RejectCode)) : gmap string Memory :=
  foldl (λ ids v, match v.2 with Ok m => <[pm_draft_key v.1 := m]> ids | Err _ => ids end) ∅ l.

Definition edge_key (r : PbRelationshipDraft) : string :=
  if String.eqb (pd_to_memory_id r) "" then pd_from_draft_key r +:+ "->" +:+ pd_to_draft_key r
  else pd_from_draft_key r +:+ "->#" +:+ pd_to_memory_id r.

(** The stored memories the edges name, and the names that are not identities. *)
Definition external_target (r : PbRelationshipDraft) : option (PbRelationshipDraft * option MemoryId) :=
  if String.eqb (pd_to_memory_id r) "" then None else Some (r, parse_hex (pd_to_memory_id r)).
Definition external_ids (l : list (PbRelationshipDraft * option MemoryId)) : list MemoryId := omap snd l.
Definition malformed_rows (l : list (PbRelationshipDraft * option MemoryId)) : list RejectRow :=
  omap (λ e, match e.2 with
             | Some _ => None
             | None => Some (mkRejectRow (pd_from_draft_key e.1 +:+ "->#" +:+ pd_to_memory_id e.1)
                 (reject_code InvalidTypeTripleCode)
                 ("to_memory_id `" +:+ pd_to_memory_id e.1 +:+ "` is not a 32-hex memory id"))
             end) l.

Definition compare_mid : MemoryId → MemoryId → comparison := compare_on mid_bytes compare_bytes.

(** One target: a stored memory the principal may read joins the draft keys. *)
Definition resolve_target (principal : option VisibilityContext) (loaded : gmap MemoryId Memory)
    (acc : list RejectRow * gmap string Memory) (e : PbRelationshipDraft * MemoryId)
    : list RejectRow * gmap string Memory :=
  let '(rows, draft_ids) := acc in
  let '(r, id) := e in
  let key := pd_from_draft_key r +:+ "->#" +:+ pd_to_memory_id r in
  match loaded !! id with
  | Some target =>
      if match principal with Some context => negb (memory_visible target context) | None => false end
      then (rows ++ [mkRejectRow key (reject_code VisibilityWideningCode)
              ("to_memory_id `" +:+ pd_to_memory_id r +:+ "` is outside the authenticated membership")],
            draft_ids)
      else (rows, <[pd_to_memory_id r := target]> draft_ids)
  | None =>
      (rows ++ [mkRejectRow key (reject_code InvalidTypeTripleCode)
         ("to_memory_id `" +:+ pd_to_memory_id r +:+ "` does not exist")], draft_ids)
  end.

(* SRC crates/exocortex-ingest/src/service.rs 1562-1706 validate_batch *)
Definition validate_batch s batch (source : SourceEntry) (principal : option VisibilityContext)
    (amb : Ambient) st : S * list DemandEvent * result (result ValidatedBatch IngestAck) Status :=
  match batch_times (at_batch amb) batch with
  | Err code =>
      (st, [], Ok (Err (ack_reject_all batch code "malformed or out-of-range temporal coordinate")))
  | Ok times =>
  let verdicts := memory_verdicts s batch source times principal amb in
  match rejected_of pm_draft_key verdicts with
  | row :: rows => (st, [], Ok (Err (reject_rows batch (row :: rows))))
  | [] =>
  let external := omap external_target (pb_relationships batch) in
  let unique := dedup (merge_sort (le_of compare_mid) (external_ids external)) in
  match storage_retry (is_memories unique) st with
  | (st, Err status) => (st, [], Err status)
  | (st, Ok found) =>
  let loaded := foldl (λ m memory, <[m_id memory := memory]> m) (∅ : gmap MemoryId Memory) found in
  let '(rows, draft_ids) :=
    foldl (resolve_target principal loaded) (malformed_rows external, keyed_of verdicts)
      (omap (λ e : PbRelationshipDraft * option MemoryId, id ← e.2; Some (e.1, id)) external) in
  match rows with
  | row :: rows => (st, [], Ok (Err (reject_rows batch (row :: rows))))
  | [] =>
  let edges := (λ r, (r, validate_relationship s batch r draft_ids (se_ceiling source) (se_kind source) times))
                 <$> pb_relationships batch in
  let events := edges ≫= λ e, e.2.1 in
  match rejected_of edge_key ((λ e, (e.1, e.2.2)) <$> edges) with
  | row :: rows => (st, events, Ok (Err (reject_rows batch (row :: rows))))
  | [] => (st, events, Ok (Ok (mkValidated (accepted_of verdicts)
             (accepted_of ((λ e, (e.1, e.2.2)) <$> edges)) loaded)))
  end end end end end.

(** ** Preflight *)

(** Admission, source and verdict, in the order both entry points run them, with the permit
    released. *)
Definition preflight_ack batch (v : ValidatedBatch) : IngestAck :=
  mkIngestAck (pb_batch_id batch)
    (as_u32 (Z.of_nat (length (v_memories v) + length (v_relationships v)))) 0 [] 0 [].

(* SRC crates/exocortex-ingest/src/service.rs 1708-1740 preflight_batch *)
Definition preflight_batch s (principal : option VisibilityContext) batch (amb : Ambient) w st
    : Shared * S * list DemandEvent * result IngestAck Status :=
  match admit_batch s batch w st with
  | Err ack => (w, st, [], Ok ack)
  | Ok w =>
  match registered_source s batch w with
  | (w, Err ack) => (release_permit w, st, [], Ok ack)
  | (w, Ok source) =>
  match validate_batch s batch source principal amb st with
  | (st, events, Err status) => (release_permit w, st, events, Err status)
  | (st, events, Ok (Err ack)) => (release_permit w, st, events, Ok ack)
  | (st, events, Ok (Ok validated)) => (release_permit w, st, events, Ok (preflight_ack batch validated))
  end end end.

(** The principal may not act for another organization. *)
Definition foreign_org (principal : option VisibilityContext) (org : string) : bool :=
  match principal with Some context => negb (String.eqb (vc_org_id context) org) | None => false end.

(* SRC crates/exocortex-ingest/src/service.rs 2601-2616 preflight *)
Definition preflight s (principal : option VisibilityContext) batch (amb : Ambient) w st
    : Shared * S * list DemandEvent * result IngestAck Status :=
  match request_principal s principal with
  | Err status => (w, st, [], Err status)
  | Ok principal =>
      if foreign_org principal (pb_org_id batch)
      then (w, st, [], Err (mkStatus PermissionDeniedCode
                              "authenticated principal cannot preflight another org"))
      else preflight_batch s principal batch amb w st
  end.
End service.
