(* ===== verification/IngestCommit.v ===== *)
(** * The ingest service: commit

    [crates/exocortex-ingest/src/service.rs], from an accepted batch to its ack: embedding, the rows
    a commit carries, the durable commit and its effect, near-duplicate hints and the similarity
    skeleton, the replay registry, [submit], [submit_stream] and the reindex. *)

From stdpp Require Import pretty strings.
From S2P Require Import Prelude Ids Kernel Packs Ontology StorageTypes Wire Entities IngestTypes Grouping.
From S2P Require Import IngestService.

#[global] Instance RegionKey_countable : Countable RegionKey.
Proof.
  refine (inj_countable' (λ k, (rk_org k, rk_project k, rk_memory_type k))
            (λ '(a, b, c), mkRegionKey a b c) _).
  by intros [].
Defined.

(** ** Cosine similarity *)

Definition f32_sqrt (x : f32) : f32 := SFsqrt f32_prec f32_emax x.

(** [dot], [na] and [nb] after each component. *)
Definition cosine_sums (a b : list f32) : f32 * f32 * f32 :=
  foldl (λ '(dot, na, nb) '(x, y),
      (f32_add dot (f32_mul x y), f32_add na (f32_mul x x), f32_add nb (f32_mul y y)))
    (f32_zero, f32_zero, f32_zero) (zip a b).

(* SRC crates/exocortex-dreams/src/mcr2.rs 264-277 cosine *)
Definition cosine (a b : list f32) : f32 :=
  let '(dot, na, nb) := cosine_sums a b in
  if f32_eqb na f32_zero || f32_eqb nb f32_zero then f32_zero
  else SFdiv f32_prec f32_emax dot (f32_mul (f32_sqrt na) (f32_sqrt nb)).

(* SRC crates/exocortex-ingest/src/service.rs 302-304 RECENT_RING_LEN *)
Definition RECENT_RING_LEN : nat := 512.
(* SRC crates/exocortex-ingest/src/service.rs 305-307 SIMILAR_HINT_THRESHOLD *)
Definition SIMILAR_HINT_THRESHOLD : f32 := Eval vm_compute in f32_hundredths 92.
(* SRC crates/exocortex-ingest/src/service.rs 308-313 SIMILAR_TO_SEED_THRESHOLD *)
Definition SIMILAR_TO_SEED_THRESHOLD : f32 := Eval vm_compute in f32_hundredths 85.

(* SRC crates/exocortex-ingest/src/service.rs 273-300 hint_visible *)
Definition hint_visible (entry : RecentEmbedding) (draft : MemoryContext) : bool :=
  match re_visibility entry with
  | Public | Org => true
  | Project => match re_project_id entry with
               | Some project => bool_decide (project_id draft = Some project)
               | None => false
               end
  | Team => match re_team_id entry with
            | Some team => bool_decide (team_id draft = Some team)
            | None => false
            end
  | Private => bool_decide (is_Some (re_user_id entry)) && bool_decide (re_user_id entry = user_id draft)
  end.

(** Comparable vectors: one model, one length. *)
Definition comparable (a b : Embedding) : bool :=
  String.eqb (em_name (emb_model a)) (em_name (emb_model b)) &&
  String.eqb (em_version (emb_model a)) (em_version (emb_model b)) &&
  Nat.eqb (length (emb_vector a)) (length (emb_vector b)).

Section commit.
Context `{Blake3, HashOrder, SerdeJson, Regex, FromTimestamp, Hmac}.
Context `{Message PbIngestBatch batch_ok, Message PbMemoryDraft memory_draft_ok}.
Context `{Message PbRelationshipDraft relationship_draft_ok, Message PbSnapshotInfo snapshot_info_ok}.
Context `{Lsrc : Lru SourceKey SourceEntry, Lack : Lru SourceKey IngestAck}.
Context {S : Type} `{IngestStore S}.
Implicit Types (s : IngestServer) (w : Shared) (st : S) (batch : PbIngestBatch).

(** ** Embedding *)

Definition m_set_embedding (e : option Embedding) (m : Memory) : Memory :=
  let '(mkMemory a b c d e0 f g h ctx j k n o p q r t _ v u) := m in
  mkMemory a b c d e0 f g h ctx j k n o p q r t e v u.
Definition m_set_confidence (x : F01) (m : Memory) : Memory :=
  let '(mkMemory a b c d e f g h ctx j _ n o p q r t i v u) := m in
  mkMemory a b c d e f g h ctx j x n o p q r t i v u.

Definition embed_text (m : Memory) : string := title m +:+ string_of_bytes [10] +:+ content m.

(** The admission permits and the blocking pool only delay an invocation. *)
(* SRC crates/exocortex-ingest/src/service.rs 1485-1516 embed_texts *)
Definition embed_texts s (texts : list string) : result (list (list f32)) string :=
  match embedder s with
  | None => Err "no embedder configured"%string
  | Some e =>
      if bool_decide (texts = []) then Ok []
      else match embed_batch e texts with
           | Ok vectors =>
               if Nat.eqb (length vectors) (length texts) then Ok vectors
               else Err ("embedder returned " +:+ pretty (length vectors) +:+ " vectors for "
                         +:+ pretty (length texts) +:+ " texts")
           | Err error => Err error
           end
  end.

(** The loop of [stamp_embeddings]. *)
Fixpoint stamp (model : EmbeddingModel) (ms : list Memory) (vectors : list (list f32)) : list Memory :=
  match ms, vectors with
  | m :: ms, v :: vectors => m_set_embedding (Some (mkEmbedding model v)) m :: stamp model ms vectors
  | ms, _ => ms
  end.

(** [self.embedder.map(..).unwrap_or("")]. *)
Definition current_model s : EmbeddingModel :=
  match embedder s with
  | Some e => mkEmbeddingModel (model_id e) (model_version e)
  | None => mkEmbeddingModel "" ""
  end.

(* SRC crates/exocortex-ingest/src/service.rs 1518-1540 stamp_embeddings *)
Definition stamp_embeddings s (ms : list Memory) (vectors : list (list f32)) : list Memory :=
  stamp (current_model s) ms vectors.

(* SRC crates/exocortex-ingest/src/service.rs 1467-1483 embed_memories *)
Definition embed_memories s (ms : list Memory) : list Memory :=
  match ms with
  | [] => []
  | _ => match embed_texts s (embed_text <$> ms) with
         | Ok vectors => stamp_embeddings s ms vectors
         | Err _ => ms
         end
  end.

(** ** The rows of a commit *)

(* SRC crates/exocortex-ingest/src/service.rs 1162-1168 CommitRows *)
Record CommitRows := mkCommitRows {
  c_memories : list Memory;
  c_relationships : list Relationship;
  producer_memories : list Memory;
  grouping_nodes_created : Z;
  c_accepted : Z;
}.

(** The iteration of a [HashSet]. *)
Definition hash_set {K} `{Countable K} (X : gset K) : list K := (hash_iter (gset_to_gmap tt X)).*1.

Definition supersession_kind (o : Ontology) (kind : RelKindId) : bool :=
  match kinds_by_id o !! kind with
  | Some k => String.eqb (display_name k) "Replaces" || String.eqb (display_name k) "Contradicts"
  | None => false
  end.

(** The confidence of a superseded memory; [derived_confidence] unwraps a score in range. *)
Definition confidence_floor : F01 :=
  match derived_confidence true 0 0 with Ok c => c | Err _ => mkF01 f32_zero end.

Definition above_floor (m : Memory) : bool :=
  match partial_cmp_score (confidence m) confidence_floor with Gt => true | _ => false end.

(** A superseded memory of the batch itself. *)
Definition lower_own (targets : gset MemoryId) (m : Memory) : Memory :=
  if bool_decide (m_id m ∈ targets) && above_floor m then m_set_confidence confidence_floor m else m.

(** A superseded memory of the store, unless the batch writes it. *)
Definition lower_stored (loaded : gmap MemoryId Memory) (ms : list Memory) (target : MemoryId)
    : list Memory :=
  if existsb (λ m, bool_decide (m_id m = target)) ms then ms
  else match loaded !! target with
       | Some stale => if above_floor stale then ms ++ [m_set_confidence confidence_floor stale] else ms
       | None => ms
       end.

(** The node of a group takes the narrowest visibility and the scope of its members. *)
Definition scope_node (members : list Memory) (node : Memory) : Memory :=
  match members with
  | [] => node
  | scope :: _ =>
      let '(mkMemory a b c d e f _ h ctx j k n o p q r t i v u) := node in
      let '(mkMemoryContext c1 _ c3 _ _ c6 _ c8 c9 c10 c11 c12 c13 c14 c15 c16 c17) := ctx in
      mkMemory a b c d e f
        (default (m_visibility scope) (narrowest_visibility (m_visibility <$> members))) h
        (mkMemoryContext c1 (project_id (context scope)) c3 (team_id (context scope))
           (tenant_id (context scope)) c6 (user_id (context scope)) c8 c9 c10 c11 c12 c13 c14 c15 c16 c17)
        j k n o p q r t i v u
  end.

(* SRC crates/exocortex-ingest/src/service.rs 2051-2090 materialize_grouping *)
Definition materialize_grouping s batch (source_flavor : string) (now : DateTime) (members ms : list Memory)
    (rs : list Relationship) : list Memory * list Relationship * Z :=
  match grouping_key batch source_flavor (server_grouping_rules s) with
  | None => (ms, rs, 0)
  | Some (rule, key) =>
      match grouping_node (ontology s) (pb_org_id batch) rule key now with
      | None => (ms, rs, 0)
      | Some node =>
          let node := scope_node members node in
          (ms ++ [node],
           rs ++ omap (λ member, grouping_edge (ontology s) rule member node now) members, 1)
      end
  end.

(** One row of [materialize_inverses]. *)
Definition add_inverse (o : Ontology) (acc : gset RelationshipId * list Relationship) (r : Relationship)
    : gset RelationshipId * list Relationship :=
  match materialize_inverse o r with
  | Some inv =>
      if bool_decide (r_id inv ∈ acc.1) then acc else ({[r_id inv]} ∪ acc.1, acc.2 ++ [inv])
  | None => acc
  end.

(* SRC crates/exocortex-ingest/src/service.rs 2092-2106 materialize_inverses *)
Definition materialize_inverses (o : Ontology) (rs : list Relationship) : list Relationship :=
  (foldl (add_inverse o) (list_to_set (r_id <$> rs), rs) rs).2.

(** The memories an accepted batch supersedes. *)
Definition supersession_targets (o : Ontology) (rs : list Relationship) : gset MemoryId :=
  list_to_set (r_to <$> List.filter (λ r, supersession_kind o (r_kind r)) rs).

(* SRC crates/exocortex-ingest/src/service.rs 1989-2049 materialize_commit_rows *)
Definition materialize_commit_rows s batch (source_flavor : string) (now : DateTime) (v : ValidatedBatch)
    : CommitRows :=
  let targets := supersession_targets (ontology s) (v_relationships v) in
  let accepted := as_u32 (Z.of_nat (length (v_memories v) + length (v_relationships v))) in
  let own := lower_own targets <$> v_memories v in
  let ms := foldl (lower_stored (v_loaded v)) own (hash_set targets) in
  let '(ms, rs, created) := materialize_grouping s batch source_flavor now own ms (v_relationships v) in
  mkCommitRows ms (materialize_inverses (ontology s) rs) own created accepted.

(** ** The durable commit *)

Definition batch_key batch : IngestBatchKey :=
  mkIngestBatchKey (pb_org_id batch) (pb_producer_id batch) (pb_batch_id batch).

(** [serde_json::to_string] of the key. *)
Definition key_text (key : IngestBatchKey) : string :=
  json_to_string (JObject [("org_id", JString (ib_org_id key)); ("producer_id", JString (ib_producer_id key));
                           ("batch_id", JString (ib_batch_id key))]%string).

(** The region of a memory, and the counts the memories and the edges add. *)
Definition region_of batch (m : Memory) : RegionKey :=
  mkRegionKey (pb_org_id batch) (default "*"%string (project_id (context m))) (memory_type m).
Definition count_memory batch (regions : gmap RegionKey (Z * Z)) (m : Memory) : gmap RegionKey (Z * Z) :=
  let '(ms, rs) := default (0, 0) (regions !! region_of batch m) in
  <[region_of batch m := (ms + 1, rs)]> regions.
Definition count_relationship (memory_regions : gmap MemoryId RegionKey)
    (regions : gmap RegionKey (Z * Z)) (r : Relationship) : gmap RegionKey (Z * Z) :=
  match memory_regions !! r_from r with
  | Some region => let '(ms, rs) := default (0, 0) (regions !! region) in <[region := (ms, rs + 1)]> regions
  | None => regions
  end.
Definition region_counts batch (rows : CommitRows) : gmap RegionKey (Z * Z) :=
  let memory_regions := foldl (λ m memory, <[m_id memory := region_of batch memory]> m) ∅
                          (producer_memories rows) in
  foldl (count_relationship memory_regions) (foldl (count_memory batch) ∅ (producer_memories rows))
    (c_relationships rows).

(** The order of the deltas. *)
Definition compare_region : RegionKey → RegionKey → comparison :=
  compare_on (λ r, (rk_org r, (rk_project r, rk_memory_type r)))
    (compare_lex (compare_on as_bytes compare_bytes)
       (compare_lex (compare_on as_bytes compare_bytes) Z.compare)).

(* SRC crates/exocortex-ingest/src/service.rs 2150-2210 post_ingest_effect *)
Definition post_ingest_effect batch (rows : CommitRows) (key : IngestBatchKey) : PostIngestEffect := {|
  effect_id := key_text key;
  session_memory_ids :=
    if String.prefix "session://" (pb_source_uri batch) then m_id <$> producer_memories rows else [];
  region_deltas :=
    merge_sort (le_of (compare_on rd_region compare_region))
      ((λ '(region, (ms, rs)), mkIngestRegionDelta region ms rs) <$> hash_iter (region_counts batch rows));
|}.

(* SRC crates/exocortex-ingest/src/service.rs 2108-2148 commit_rows *)
Definition commit_rows batch (rows : CommitRows) (clk : nat → DateTime) st
    : S * result (result (Z * Z) IngestAck) Status :=
  let key := batch_key batch in
  let effect := post_ingest_effect batch rows key in
  match storage_retry (is_commit clk key (c_memories rows) (c_relationships rows) (c_accepted rows) effect) st with
  | (st, Err status) => (st, Err status)
  | (st, Ok (Committed _ settled)) => (st, Ok (Ok (assigned_lsn settled, c_accepted rows)))
  | (st, Ok (Duplicate settled)) =>
      (st, Ok (Err (mkIngestAck (pb_batch_id batch) (accepted settled) (rejected settled) [replay_row]
                      (assigned_lsn settled) [])))
  end.

(** ** Hints *)

(** The exact-content marker of a memory. *)
Definition content_exact (m : Memory) : string := hex (blake3 (as_bytes (embed_text m))).

(** One entry of the ring against one draft: the best so far is kept unless it is beaten. *)
Definition best_entry (org : string) (ctx : MemoryContext) (emb : Embedding)
    (best : option (f32 * RecentEmbedding)) (e : RecentEmbedding) : option (f32 * RecentEmbedding) :=
  if negb (String.eqb (re_org e) org) || negb (comparable (re_embedding e) emb) || negb (hint_visible e ctx)
  then best
  else
    let c := cosine (emb_vector emb) (emb_vector (re_embedding e)) in
    if SFleb SIMILAR_HINT_THRESHOLD c &&
       match best with Some (bc, _) => SFltb bc c | None => true end
    then Some (c, e) else best.

Definition suggestion_for (m : Memory) (e : RecentEmbedding) : string :=
  if negb (re_memory_type e =? memory_type m) then "contradicts"
  else if String.eqb (re_content_exact e) (content_exact m) then "duplicate" else "replaces".

Definition hint_for (org : string) (ring : list RecentEmbedding) (c : string * Memory) : option SimilarToHint :=
  emb ← embedding c.2;
  '(_, e) ← foldl (best_entry org (context c.2) emb) None ring;
  Some (mkSimilarToHint c.1 (hex (mid_bytes (re_id e))) (re_title e) (suggestion_for c.2 e)).

Definition ring_entry (org : string) (m : Memory) : option RecentEmbedding :=
  emb ← embedding m;
  Some (mkRecentEmbedding org (m_id m) (memory_type m) (title m) (content_exact m) (m_visibility m)
          (project_id (context m)) (team_id (context m)) (user_id (context m)) emb).

(** [while ring.len() > n { ring.pop_front(); }]. *)
Definition keep_newest {A} (n : nat) (l : list A) : list A := drop (length l - n) l.

(* SRC crates/exocortex-ingest/src/service.rs 1031-1128 similar_to_hints *)
Definition similar_to_hints (org : string) (committed : list (string * Memory)) w
    : Shared * list SimilarToHint :=
  (put_recent (keep_newest RECENT_RING_LEN (recent w ++ omap (λ c, ring_entry org c.2) committed)) w,
   omap (hint_for org (recent w)) committed).

(** ** The similarity skeleton *)

(** The edge between a committed memory and one entry of the ring. *)
Definition seed_edge (org : string) (kind : RelKindId) (now : DateTime) (m : Memory) (emb : Embedding)
    (e : RecentEmbedding) : option Relationship :=
  if negb (String.eqb (re_org e) org) || bool_decide (re_id e = m_id m)
     || negb (re_memory_type e =? memory_type m) || negb (comparable (re_embedding e) emb)
  then None
  else
    let c := cosine (emb_vector emb) (emb_vector (re_embedding e)) in
    if negb (SFleb SIMILAR_TO_SEED_THRESHOLD c && SFltb c SIMILAR_HINT_THRESHOLD) then None
    else Some {|
      r_id := RelationshipId_derive (m_id m) kind (re_id e) None;
      r_kind := kind;
      r_from := m_id m;
      r_to := re_id e;
      r_visibility := relationship_visibility (m_visibility m) (re_visibility e);
      r_provenance := Computed SimilarityCosine SIMILAR_TO_SEED_THRESHOLD;
      r_properties := {|
        strength := f32_clamp c f32_zero f32_one;
        rp_confidence := f32_clamp c f32_zero f32_one;
        rp_context := None;
        evidence_count := 1;
        success_rate := None;
        validation_count := 0;
        counter_evidence_count := 0;
        last_validated := now;
      |};
      r_description := None;
      r_bidirectional := true;
      r_valid_from := now;
      r_valid_until := None;
      r_recorded_at := now;
      r_invalidated_by := None;
      r_lsn := new_local 0;
    |}.

Definition seed_edges (org : string) (kind : RelKindId) (now : DateTime) (ring : list RecentEmbedding)
    (ms : list Memory) : list Relationship :=
  ms ≫= λ m, match embedding m with
             | Some emb => omap (seed_edge org kind now m emb) ring
             | None => []
             end.

(* SRC crates/exocortex-ingest/src/service.rs 2451-2549 seed_similarity_edges *)
Definition seed_similarity_edges s (org : string) (rows : CommitRows) (amb : Ambient) w st : S :=
  match kind_id (ontology s) "SimilarTo" with
  | None => st
  | Some kind =>
      if forallb (λ m, bool_decide (embedding m = None)) (producer_memories rows) then st
      else match seed_edges org kind (at_seed amb) (recent w) (producer_memories rows) with
           | [] => st
           | edges => (is_upsert (seed_clock amb) [] edges st).1
           end
  end.

(** ** The ack *)

Definition ack_key batch : SourceKey := (pb_org_id batch, pb_producer_id batch, pb_batch_id batch).

(* SRC crates/exocortex-ingest/src/service.rs 1542-1560 replay_ack *)
Definition replay_ack batch w : Shared * option IngestAck :=
  (put_acks (lru_get (ack_key batch) (seen_batches w)) w,
   (λ a, mkIngestAck (ia_batch_id a) (ia_accepted a) (ia_rejected a) [replay_row] (ia_assigned_lsn a)
           (similar_to a)) <$> lru_peek (ack_key batch) (seen_batches w)).

(* SRC crates/exocortex-ingest/src/service.rs 2392-2402 remember_ack *)
Definition remember_ack batch (ack : IngestAck) w : Shared :=
  put_acks (lru_put (ack_key batch) ack (seen_batches w)) w.

(** [history.push] unless it is the newest, and the oldest of more than sixteen removed. *)
Definition push_snapshot (id : string) (history : list string) : list string :=
  if bool_decide (last history = Some id) then history
  else let history := history ++ [id] in
       if (16 <? length history)%nat then tail history else history.

(* SRC crates/exocortex-ingest/src/service.rs 2404-2449 finish_commit *)
Definition finish_commit batch (rows : CommitRows) (lsn n : Z) w : Shared * IngestAck :=
  let w := match pb_snapshot batch with
           | Some snapshot =>
               put_snapshots (<[source_key batch :=
                   push_snapshot (si_snapshot_id snapshot) (default [] (seen_snapshots w !! source_key batch))]>
                 (seen_snapshots w)) w
           | None => w
           end in
  let keyed := zip_with (λ draft memory, (pm_draft_key draft, memory)) (pb_memories batch)
                 (producer_memories rows) in
  let '(w, hints) := similar_to_hints (pb_org_id batch) keyed w in
  (w, mkIngestAck (pb_batch_id batch) n 0 [] lsn hints).

(** ** Submit *)

(** What follows a positive verdict. *)
Definition commit_validated s batch (source : SourceEntry) (v : ValidatedBatch) (amb : Ambient) w st
    : Shared * S * result IngestAck Status :=
  let v := mkValidated (embed_memories s (v_memories v)) (v_relationships v) (v_loaded v) in
  let rows := materialize_commit_rows s batch (se_flavor source) (at_group amb) v in
  match commit_rows batch rows (commit_clock amb) st with
  | (st, Err status) => (w, st, Err status)
  | (st, Ok (Err ack)) => (remember_ack batch ack w, st, Ok ack)
  | (st, Ok (Ok (lsn, n))) =>
      let st := if ingest_similarity_seeding s
                then seed_similarity_edges s (pb_org_id batch) rows amb w st else st in
      let '(w, ack) := finish_commit batch rows lsn n w in
      (remember_ack batch ack w, st, Ok ack)
  end.

(* SRC crates/exocortex-ingest/src/service.rs 2554-2597 submit *)
Definition submit s (principal : option VisibilityContext) batch (amb : Ambient) w st
    : Shared * S * list DemandEvent * result IngestAck Status :=
  match request_principal s principal with
  | Err status => (w, st, [], Err status)
  | Ok principal =>
  if foreign_org principal (pb_org_id batch)
  then (w, st, [], Err (mkStatus PermissionDeniedCode "authenticated principal cannot write another org"))
  else match admit_batch s batch w st with
  | Err ack => (w, st, [], Ok ack)
  | Ok w =>
  match replay_ack batch w with
  | (w, Some replay) => (release_permit w, st, [], Ok replay)
  | (w, None) =>
  match registered_source s batch w with
  | (w, Err ack) => (release_permit w, st, [], Ok ack)
  | (w, Ok source) =>
  match validate_batch s batch source principal amb st with
  | (st, events, Err status) => (release_permit w, st, events, Err status)
  | (st, events, Ok (Err ack)) => (release_permit w, st, events, Ok ack)
  | (st, events, Ok (Ok v)) =>
      let '(w, st, r) := commit_validated s batch source v amb w st in
      (release_permit w, st, events, r)
  end end end end end.

(** ** The stream *)

(** The ack of a message without a body. *)
Definition no_body_ack : IngestAck :=
  mkIngestAck "" 0 0 [mkRejectRow "" (reject_code Unknown) "submit_one carried no body"] 0 [].

(** What arrives: a message with or without a body, or a transport error; with the clocks its
    submission reads. *)
Definition Inbound : Type := result (option PbIngestBatch) string * Ambient.

(** The forwarding task, while the caller reads its answers. *)
Fixpoint forward s (principal : option VisibilityContext) (inbound : list Inbound) w st
    : Shared * S * list DemandEvent * list (result IngestAck Status) :=
  match inbound with
  | [] => (w, st, [], [])
  | (Err _, _) :: _ => (w, st, [], [Err (mkStatus Internal "inbound stream error")])
  | (Ok None, _) :: inbound =>
      let '(w, st, events, acks) := forward s principal inbound w st in
      (w, st, events, Ok no_body_ack :: acks)
  | (Ok (Some batch), amb) :: inbound =>
      let '(w, st, events, ack) := submit s principal batch amb w st in
      let '(w, st, events', acks) := forward s principal inbound w st in
      (w, st, events ++ events', ack :: acks)
  end.

(* SRC crates/exocortex-ingest/src/service.rs 2618-2683 submit_stream *)
Definition submit_stream s (principal : option VisibilityContext) (inbound : list Inbound) w st
    : Shared * S * list DemandEvent * result (list (result IngestAck Status)) Status :=
  match request_principal s principal with
  | Err status => (w, st, [], Err status)
  | Ok principal =>
      let '(w, st, events, acks) := forward s principal inbound w st in (w, st, events, Ok acks)
  end.

(** ** Reindexing *)

(* SRC crates/exocortex-ingest/src/service.rs 223-241 ReindexReport *)
Record ReindexReport := mkReindexReport {
  scanned : Z;
  reembedded : Z;
  unchanged : Z;
  superseded : Z;
  rep_model : EmbeddingModel;
}.

Definition embedding_eqb (a b : option Embedding) : bool :=
  match a, b with
  | None, None => true
  | Some a, Some b =>
      String.eqb (em_name (emb_model a)) (em_name (emb_model b)) &&
      String.eqb (em_version (emb_model a)) (em_version (emb_model b)) &&
      list_eqb f32_eqb (emb_vector a) (emb_vector b)
  | _, _ => false
  end.

(** The rows whose log position is still the one the scan saw, in order, and how many are not. *)
Fixpoint still_current (rows : list Memory) st : S * (list Memory * Z) :=
  match rows with
  | [] => (st, ([], 0))
  | row :: rows =>
      let '(st, read) := is_memory (m_id row) st in
      let '(st, (keep, gone)) := still_current rows st in
      if match read with Ok (Some current) => bool_decide (m_lsn current = m_lsn row) | _ => false end
      then (st, (row :: keep, gone)) else (st, (keep, gone + 1))
  end.

(** The audit of a chunk. *)
Definition reindex_audit s (actor : string) (now : DateTime) (first : Memory) (rows : list Memory) st
    : AuditEvent := {|
  action := "reindex_embeddings";
  StorageTypes.actor := actor;
  ae_org_id := default "unknown"%string
    (match tenant_id (context first) with Some org => Some org | None => org_guard s end);
  input_digest := blake3 (as_bytes (em_name (current_model s) +:+ "|" +:+ em_version (current_model s)));
  output_ids := (λ m, to_hex (m_id m)) <$> rows;
  ae_fingerprint := is_fingerprint st;
  ae_lease_epoch := None;
  ae_recorded_at := now;
|}.

(* SRC crates/exocortex-ingest/src/service.rs 1826-1911 reindex_chunk *)
Definition reindex_chunk s (clk : DateTime * (nat → DateTime)) (rows : list Memory) (actor : string) st
    : S * result (Z * Z * Z) string :=
  match embed_texts s (embed_text <$> rows) with
  | Err error => (st, Err error)
  | Ok vectors =>
      let stamped := zip (stamp_embeddings s rows vectors) (embedding <$> rows) in
      let changed := (List.filter (λ p, negb (embedding_eqb (embedding p.1) p.2)) stamped).*1 in
      let same := Z.of_nat (length stamped) - Z.of_nat (length changed) in
      match changed with
      | [] => (st, Ok (0, same, 0))
      | _ =>
          match still_current changed st with
          | (st, ([], gone)) => (st, Ok (0, same, gone))
          | (st, (first :: rest, gone)) =>
              match is_upsert_audited clk.2 (first :: rest) []
                      (reindex_audit s actor clk.1 first (first :: rest) st) st with
              | (st, Ok _) => (st, Ok (Z.of_nat (length (first :: rest)), same, gone))
              | (st, Err error) =>
                  (st, Err ("reindex chunk commit failed: " +:+ StorageError_to_string error))
              end
          end
      end
  end.

(** The clocks chunk [i] reads: the audit's instant and those of the commit. *)
Definition ChunkClock : Type := nat → DateTime * (nat → DateTime).

(** One chunk committed and counted into the report. *)
Definition flush s (clk : DateTime * (nat → DateTime)) (actor : string) (chunk : list Memory)
    (report : ReindexReport) st : S * result ReindexReport string :=
  match reindex_chunk s clk chunk actor st with
  | (st, Err error) =>
      (st, Err ("reindex failed after " +:+ pretty (scanned report) +:+ " rows scanned / "
                +:+ pretty (reembedded report) +:+ " re-embedded: " +:+ error))
  | (st, Ok (e, u, p)) =>
      (st, Ok (mkReindexReport (scanned report + (e + u + p)) (reembedded report + e)
                 (unchanged report + u) (superseded report + p) (rep_model report)))
  end.

(** The scan: a chunk is committed when it is full, the last one when the stream ends. *)
Fixpoint reindex_loop s (clks : ChunkClock) (i : nat) (actor : string)
    (stream : list (result Memory StorageError)) (chunk : list Memory) (report : ReindexReport) st
    : S * result ReindexReport string :=
  match stream with
  | [] => match chunk with [] => (st, Ok report) | _ => flush s (clks i) actor chunk report st end
  | Err error :: _ => (st, Err ("reindex scan failed: " +:+ StorageError_to_string error))
  | Ok memory :: stream =>
      let chunk := chunk ++ [memory] in
      if Z.of_nat (length chunk) <? MAX_MEMORIES_PER_BATCH
      then reindex_loop s clks i actor stream chunk report st
      else match flush s (clks i) actor chunk report st with
           | (st, Err error) => (st, Err error)
           | (st, Ok report) => reindex_loop s clks (Datatypes.S i) actor stream [] report st
           end
  end.

(* SRC crates/exocortex-ingest/src/service.rs 1766-1824 reindex_embeddings *)
Definition reindex_embeddings s (clks : ChunkClock) (actor : string) st : S * result ReindexReport string :=
  match embedder s with
  | None => (st, Err "no embedder configured (R-Lat3); nothing to reindex under"%string)
  | Some e =>
      let '(st, stream) := is_stream st in
      let zero := mkReindexReport 0 0 0 0 (mkEmbeddingModel "" "") in
      match reindex_loop s clks 0 actor stream [] zero st with
      | (st, Err error) => (st, Err error)
      | (st, Ok report) =>
          (st, Ok (mkReindexReport (scanned report) (reembedded report) (unchanged report)
                     (superseded report) (mkEmbeddingModel (model_id e) (model_version e))))
      end
  end.
End commit.
