(* ===== verification/Registration.v ===== *)
(** * Source registration

    [crates/exocortex-ingest/src/service.rs]: the durable source registry, [with_sources_file],
    [register_source] and [validation_manifest].  What the registry file holds is [Disk]; whether
    a replacement of it succeeds is an input of the step. *)

From stdpp Require Import pretty strings.
From S2P Require Import Prelude Ids Kernel Packs Ontology StorageTypes Wire Entities IngestTypes Grouping.
From S2P Require Import IngestService.

(** The rows of the registry file; [None] when the server has no file. *)
Definition SourceRow : Type := SourceKey * SourceEntry.
Definition Disk : Type := option (list SourceRow).

(** What reading the file gives: no file, its rows, or an error. *)
Inductive RegistryFile := NotFound | Rows (rows : list SourceRow) | Malformed | Unreadable.

(** ** The manifest's rows *)

(* SRC crates/exocortex-wire/src/manifest.rs 13-15 MANIFEST_VERSION *)
Definition MANIFEST_VERSION : Z := 1.
(* SRC crates/exocortex-wire/src/manifest.rs 44-51 ManifestMemoryType *)
Record ManifestMemoryType := mkManifestMemoryType { mm_name : string; mm_id : Z }.
(* SRC crates/exocortex-wire/src/manifest.rs 53-65 ManifestKind *)
Record ManifestKind := mkManifestKind {
  mk_id : Z; mk_name : string; mk_computed_only : bool; mk_default_strength : f32 }.
(* SRC crates/exocortex-wire/src/manifest.rs 67-76 ManifestTriple *)
Record ManifestTriple := mkManifestTriple {
  mt_kind : Z; mt_from_types : option (list Z); mt_to_types : option (list Z) }.
(* SRC crates/exocortex-wire/src/manifest.rs 17-42 ValidationManifest *)
Record ValidationManifest := mkManifest {
  manifest_version : Z;
  vm_fingerprint : string;
  vm_memory_types : list ManifestMemoryType;
  vm_kinds : list ManifestKind;
  vm_type_triples : list ManifestTriple;
  title_min_chars : Z;
  title_max_chars : Z;
  registered_ceiling : option Z;
}.

Section registration.
Context `{Blake3, Sha256, Hmac, FromTimestamp, Message PbRegisterSource registration_ok}.
Context `{Lsrc : Lru SourceKey SourceEntry, Lack : Lru SourceKey IngestAck}.
Context {S : Type} `{IngestStore S}.
Implicit Types (s : IngestServer) (w : Shared) (st : S) (r : PbRegisterSource).

(** ** The registry file *)

Definition with_registry_error (e : string) s : IngestServer :=
  mkIngestServer (ontology s) (default_producer_key s) (org_guard s) (Some e) (embedder s) (extractor s)
    (admin_policies s) (require_admin_policy s) (require_principal s) (personal_scopes s)
    (ingest_similarity_seeding s) (server_grouping_rules s).

(* SRC crates/exocortex-ingest/src/service.rs 487-519 with_sources_file *)
Definition with_sources_file (file : RegistryFile) s w : IngestServer * Shared * Disk :=
  match file with
  | NotFound => (s, w, Some [])
  | Rows rows => (s, put_sources (foldl (λ c '(key, entry), lru_put key entry c) (sources w) rows) w, Some rows)
  | Malformed => (with_registry_error "source registry is malformed" s, w, Some [])
  | Unreadable => (with_registry_error "source registry is unreadable" s, w, Some [])
  end.

(* SRC crates/exocortex-ingest/src/service.rs 521-526 source_rows *)
Definition source_rows (c : lru SourceKey SourceEntry) : list SourceRow := lru_iter c.

(* SRC crates/exocortex-ingest/src/service.rs 528-542 persist_source_rows *)
Definition persist_source_rows (write_ok : bool) (rows : list SourceRow) (disk : Disk) : option Disk :=
  match disk with
  | None => Some None
  | Some _ => if write_ok then Some (Some rows) else None
  end.

(** ** The projection *)

Definition columns_of (d : PbProjectionDescriptor) : list (string * string) :=
  (λ c, (sc_name c, sc_data_type c)) <$> pj_source_schema d.

(** The projection a descriptor declares, when it maps declared columns only. *)
Definition incoming_projection (d : PbProjectionDescriptor) : result StoredProjection Status :=
  let columns := columns_of d in
  let fields := (λ f, (pf_source_field f, pf_memory_type f, pf_kind f)) <$> pj_fields d in
  if negb (forallb (λ f : string * string * string, existsb (λ c : string * string, String.eqb c.1 f.1.1) columns) fields)
  then Err (mkStatus FailedPrecondition
         ("projection maps a field absent from the declared source schema "
          +:+ "(indistinguishable from a removed or renamed column — fail closed)"))
  else Ok (mkStoredProjection (pj_selector d) fields columns (projection_schema_hash columns)
             (pj_mapping_version d)
             (match pj_bounds d with Some b => pj_max_rows_per_window b | None => 0 end)
             (match pj_bounds d with Some b => pj_max_graph_share_percent b | None => 0 end)).

(** The verdict on each column of the previous schema. *)
Fixpoint check_columns (incoming previous : list (string * string)) : result unit Status :=
  match previous with
  | [] => Ok tt
  | (name, data_type) :: previous =>
      match List.find (λ c, String.eqb c.1 name) incoming with
      | None => Err (mkStatus FailedPrecondition ("mapped-adjacent column `" +:+ name
                  +:+ "` was removed or renamed — fail closed until the mapping is re-authored"))
      | Some (_, new_type) =>
          if negb (String.eqb new_type data_type)
          then Err (mkStatus FailedPrecondition ("column `" +:+ name +:+ "` was retyped (" +:+ data_type
                      +:+ " -> " +:+ new_type +:+ ") — fail closed until the mapping is re-authored"))
          else check_columns incoming previous
      end
  end.

(** The projection to store and the extension to audit. *)
Definition stored_projection (flavor : string) (descriptor : option PbProjectionDescriptor)
    (previous : option StoredProjection) : result (option StoredProjection * option StoredProjection) Status :=
  if negb (projection_required flavor) then Ok (None, None)
  else match descriptor with
  | None => Err (mkStatus InvalidArgument
      ("table-shaped source requires a declared projection: selector, field mapping, "
       +:+ "source schema, bounds (adapter-contract D21-a)"))
  | Some d =>
      let? incoming := incoming_projection d in
      match previous with
      | None => Ok (Some incoming, None)
      | Some previous =>
          if bool_decide (incoming = previous) then Ok (Some incoming, None)
          else if sp_mapping_version incoming <=? sp_mapping_version previous
          then Err (mkStatus FailedPrecondition "projection change requires a mapping_version bump (D21-a)")
          else let? _ := check_columns (sp_columns incoming) (sp_columns previous) in
               Ok (Some incoming, Some incoming)
      end
  end.

(** ** The entry *)

(** The ceiling of the registration: the administrator's, else the existing one. *)
Definition effective_ceiling s (key : SourceKey) (existing : option SourceEntry) (requested : Visibility)
    : result Visibility Status :=
  match admin_policies s !! key with
  | Some a =>
      if vis_u8 (ap_ceiling a) <? vis_u8 requested
      then Err (mkStatus PermissionDeniedCode
                  "requested ceiling exceeds the admin-configured value (R-I3)")
      else Ok (ap_ceiling a)
  | None =>
      if require_admin_policy s
      then Err (mkStatus PermissionDeniedCode
                  "source has no administrator-provisioned ceiling (R-I3)")
      else Ok (match existing with Some e => se_ceiling e | None => requested end)
  end.

Definition effective_kind s (key : SourceKey) (existing : option SourceEntry) (declared : ProducerKind)
    : ProducerKind :=
  match admin_policies s !! key, existing with
  | Some a, _ => ap_kind a
  | None, Some e => se_kind e
  | None, None => declared
  end.

(** The entry a registration stores and the extension it audits. *)
Definition registered_entry s (key : SourceKey) r (existing : option SourceEntry)
    (requested : Visibility) (declared : ProducerKind) : result (SourceEntry * option StoredProjection) Status :=
  let? ceiling := effective_ceiling s key existing requested in
  let kind := effective_kind s key existing declared in
  let flavor := match existing with Some e => se_flavor e | None => rg_source_flavor r end in
  if match existing with Some e => negb (String.eqb (se_flavor e) (rg_source_flavor r)) | None => false end
  then Err (mkStatus FailedPrecondition "source_flavor differs from the existing registration")
  else
    let? projections := stored_projection (rg_source_flavor r) (rg_projection r) (existing ≫= se_projection) in
    let rights := match existing with
                  | Some e => se_default_rights e
                  | None => kernel_rights <$> rg_default_rights r
                  end in
    Ok (mkSourceEntry ceiling kind flavor projections.1 rights, projections.2).

(** The audit of an extended schema. *)
Definition extension_audit (key : SourceKey) (projection : StoredProjection) (now : DateTime) st : AuditEvent := {|
  action := "schema_extended";
  actor := key.2;
  ae_org_id := key.1.1;
  input_digest := blake3 (as_bytes (key.1.2 +:+ "|" +:+ sp_schema_hash projection +:+ "|"
                                    +:+ pretty (sp_mapping_version projection)));
  output_ids := [];
  ae_fingerprint := is_fingerprint st;
  ae_lease_epoch := None;
  ae_recorded_at := now;
|}.

(** ** The handler *)

(** The checks before the registry is read. *)
Definition registration_request s (principal : option VisibilityContext) r
    : result (Visibility * ProducerKind) Status :=
  let? principal := request_principal s principal in
  let? key := producer_key s (rg_org_id r) (rg_source_uri r) (rg_producer_id r) in
  if negb (verify_registration key r)
  then Err (mkStatus Unauthenticated "registration requires a valid producer HMAC (R-I8)")
  else if match org_guard s with Some guard => negb (String.eqb (rg_org_id r) guard) | None => false end
  then Err (mkStatus InvalidArgument "org does not match this node")
  else if foreign_org principal (rg_org_id r)
  then Err (mkStatus PermissionDeniedCode "authenticated principal cannot register another org")
  else if bool_decide (is_Some (source_registry_error s))
  then Err (mkStatus FailedPrecondition "source registry unavailable")
  else match vis_from_i32 (rg_ceiling r) with
  | Err _ => Err (mkStatus InvalidArgument "unknown source ceiling discriminant")
  | Ok requested =>
      if match principal with Some p => vis_u8 (max_visibility p) <? vis_u8 requested | None => false end
      then Err (mkStatus PermissionDeniedCode "requested source ceiling exceeds authenticated principal")
      else
        let? declared := ok_or (wire_kind_to_kernel (rg_producer_kind r))
          (mkStatus InvalidArgument "producer_kind must be a declared ProducerKind (D8)") in
        match declared with
        | Unspecified => Err (mkStatus InvalidArgument
            "producer_kind UNSPECIFIED is rejected: every producer declares what it is (D8)")
        | _ => Ok (requested, declared)
        end
  end.

(* SRC crates/exocortex-ingest/src/service.rs 2727-2986 register_source *)
Definition register_source s (principal : option VisibilityContext) r (write_ok : bool) (now : DateTime)
    (clk : nat → DateTime) w (disk : Disk) st : Shared * Disk * S * result Visibility Status :=
  match registration_request s principal r with
  | Err status => (w, disk, st, Err status)
  | Ok (requested, declared) =>
  let key : SourceKey := (rg_org_id r, rg_source_uri r, rg_producer_id r) in
  match registered_entry s key r (lru_peek key (sources w)) requested declared with
  | Err status => (w, disk, st, Err status)
  | Ok (entry, extended) =>
  let candidate := lru_put key entry (lru_get key (sources w)) in
  match persist_source_rows write_ok (source_rows candidate) disk with
  | None => (w, disk, st, Err (mkStatus Internal "source registry persistence failed"))
  | Some disk =>
  let w := put_sources candidate w in
  match extended with
  | None => (w, disk, st, Ok (se_ceiling entry))
  | Some projection =>
      match is_append_audit clk (extension_audit key projection now st) st with
      | (st, Ok _) => (w, disk, st, Ok (se_ceiling entry))
      | (st, Err _) => (w, disk, st, Err (mkStatus Internal "schema-extension audit append failed"))
      end
  end end end end.

(** ** The manifest *)

(** The wire value of a registered ceiling, as the manifest states it. *)
Definition manifest_ceiling (v : Visibility) : Z :=
  match v with Private => 0 | Project => 1 | Team => 2 | Org | Public => 3 end.

Definition manifest_type_le (a b : ManifestMemoryType) : Prop :=
  le_of (compare_on mm_name (compare_on as_bytes compare_bytes)) a b.
#[local] Instance manifest_type_le_dec : RelDecision manifest_type_le.
Proof. intros a b. unfold manifest_type_le. apply _. Defined.

(* SRC crates/exocortex-ingest/src/service.rs 1913-1974 validation_manifest *)
Definition validation_manifest s (org source_uri producer_id : string) w : Shared * ValidationManifest :=
  let summary := o_summary (ontology s) in
  let '(w, entry) := source_entry s org source_uri producer_id w in
  (w, {|
    manifest_version := MANIFEST_VERSION;
    vm_fingerprint := hex (fingerprint (ontology s));
    vm_memory_types := merge_sort manifest_type_le
      (imap (λ i name, mkManifestMemoryType name (as_u8 (Z.of_nat i))) (s_memory_types summary));
    vm_kinds := (λ k, mkManifestKind (ks_id k) (ks_name k) (ks_computed_only k) (ks_default_strength k))
                  <$> s_kinds summary;
    vm_type_triples := (λ t, mkManifestTriple (ts_kind t) (ts_from_types t) (ts_to_types t))
                         <$> s_type_triples summary;
    title_min_chars := 1;
    title_max_chars := 200;
    registered_ceiling := match entry with Ok e => Some (manifest_ceiling (se_ceiling e)) | Err _ => None end;
  |}).

(* SRC crates/exocortex-ingest/src/service.rs 2685-2700 fingerprint *)
Definition fingerprint_response s (principal : option VisibilityContext) : result (list Z * list string) Status :=
  let? _ := request_principal s principal in
  Ok (fingerprint (ontology s), p_name <$> o_packs (ontology s)).

(* SRC crates/exocortex-ingest/src/service.rs 2702-2725 get_validation_manifest *)
Definition get_validation_manifest s (principal : option VisibilityContext) (org source_uri producer_id : string) w
    : Shared * result (ValidationManifest * list Z) Status :=
  match request_principal s principal with
  | Err status => (w, Err status)
  | Ok _ =>
      if match org_guard s with Some guard => negb (String.eqb guard org) | None => false end
      then (w, Err (mkStatus PermissionDeniedCode "org does not match this node"))
      else let '(w, manifest) := validation_manifest s org source_uri producer_id w in
           (w, Ok (manifest, fingerprint (ontology s)))
  end.
End registration.
