(* ===== verification/IngestSpec.v ===== *)
(** * What the ingest service admits

    The conditions admission checks, what a positive verdict says of every row, and that
    [preflight] and [submit] reach one verdict. *)

From stdpp Require Import pretty strings.
From S2P Require Import Prelude Ids Kernel Packs Ontology StorageTypes Wire Entities IngestTypes Grouping.
From S2P Require Import IngestService IngestCommit.

(** ** Sound rows *)

(** A memory a producer may assert through [source]. *)
Record memory_sound (s : IngestServer) (batch : PbIngestBatch) (source : SourceEntry)
    (principal : option VisibilityContext) (m : Memory) : Prop := {
  ms_type : ∃ name, memory_type_by_name (ontology s) !! name = Some (memory_type m);
  ms_title : title m ≠ ""%string ∧ chars_count (title m) ≤ 200 ∧ content m ≠ ""%string;
  ms_ceiling : vis_u8 (m_visibility m) ≤ vis_u8 (se_ceiling source);
  ms_principal p : principal = Some p →
    vis_u8 (m_visibility m) ≤ vis_u8 (max_visibility p) ∧
    tenant_id (context m) = Some (vc_org_id p) ∧ user_id (context m) = Some (vc_user_id p);
  ms_member p : principal = Some p → personal_scopes s = false →
    (m_visibility m = Project → ∃ id, project_id (context m) = Some id ∧ id ∈ project_ids p) ∧
    (m_visibility m = Team → ∃ id, team_id (context m) = Some id ∧ id ∈ team_ids p);
  ms_provenance :
    if bool_decide (is_Some (pb_snapshot batch))
    then ∃ d, m_provenance m = ExternalSnapshot d ∧ es_producer_id d = pb_producer_id batch ∧
              es_source_uri d = pb_source_uri batch ∧ length (es_schema_hash d) = 32%nat
    else m_provenance m = Asserted (pb_producer_id batch) (Some (se_kind source));
  ms_window until : m_valid_until m = Some until → m_valid_from m ≤ until;
  ms_retention r until : Kernel.rights m = Some r → retention_until r = Some until → m_valid_from m ≤ until;
}.

(** A memory the principal may read. *)
Definition readable (principal : option VisibilityContext) (m : Memory) : Prop :=
  ∀ p, principal = Some p → memory_visible m p = true.

(** An edge a producer may assert between two memories of [ends]. *)
Record edge_sound `{Blake3} (o : Ontology) (batch : PbIngestBatch) (source : SourceEntry)
    (ends : Memory → Prop) (r : Relationship) : Prop := {
  es_ends : ∃ f t, ends f ∧ ends t ∧ r_from r = m_id f ∧ r_to r = m_id t ∧
    r_visibility r = relationship_visibility (m_visibility f) (m_visibility t) ∧
    validate_triple o (memory_type f) (r_kind r) (memory_type t) = Ok tt ∧
    r_provenance r = (if bool_decide (pb_snapshot batch = None)
                      then Asserted (pb_producer_id batch) (Some (se_kind source)) else m_provenance f);
  es_ceiling : vis_u8 (r_visibility r) ≤ vis_u8 (se_ceiling source);
  es_kind k : kinds_by_id o !! r_kind r = Some k → computed_only k = false;
  es_id : r_id r = RelationshipId_derive (r_from r) (r_kind r) (r_to r) None;
  es_scores : Forall (λ x, unit_score x = true ∨ x = default_strength_of o (r_kind r))
    [strength (r_properties r); rp_confidence (r_properties r)];
}.

Lemma bind_ok {A B E} (c : result A E) (k : A → result B E) b :
  result_bind c k = Ok b ↔ ∃ a, c = Ok a ∧ k a = Ok b.
Proof. destruct c as [a|e]; simpl; naive_solver. Qed.
Lemma Ok_inj {A E} (a b : A) : Ok (E:=E) a = Ok b → a = b.
Proof. by intros [= ->]. Qed.
Lemma ok_or_ok {A E} (o : option A) (e : E) a : ok_or o e = Ok a ↔ o = Some a.
Proof. destruct o; simpl; naive_solver. Qed.

Lemma member_of_spec id granted :
  member_of id granted = true ↔ ∃ i, id = Some i ∧ i ∈ granted.
Proof.
  destruct id as [i|]; simpl; [|naive_solver]. rewrite existsb_exists. split.
  - intros (x & Hx%list_elem_of_In & ->%String.eqb_eq). eauto.
  - intros (j & [= ->] & Hj). exists j. split; [by apply list_elem_of_In|apply String.eqb_refl].
Qed.

Section verdict.
Context `{Blake3, HashOrder, SerdeJson, Regex, FromTimestamp, Hmac}.
Context `{Message PbIngestBatch batch_ok, Message PbMemoryDraft memory_draft_ok}.
Context `{Message PbRelationshipDraft relationship_draft_ok, Message PbSnapshotInfo snapshot_info_ok}.
Context `{Lsrc : Lru SourceKey SourceEntry, Lack : Lru SourceKey IngestAck}.
Context {S : Type} `{IngestStore S}.
Implicit Types (s : IngestServer) (w : Shared) (st : S) (batch : PbIngestBatch).

(** The fields entity extraction leaves alone. *)
Lemma attach_fields m e :
  let m' := attach_entities m e in
  m_id m' = m_id m ∧ memory_type m' = memory_type m ∧ title m' = title m ∧ content m' = content m ∧
  m_visibility m' = m_visibility m ∧ m_provenance m' = m_provenance m ∧
  m_valid_from m' = m_valid_from m ∧ m_valid_until m' = m_valid_until m ∧ Kernel.rights m' = Kernel.rights m ∧
  tenant_id (context m') = tenant_id (context m) ∧ user_id (context m') = user_id (context m) ∧
  project_id (context m') = project_id (context m) ∧ team_id (context m') = team_id (context m) ∧
  embedding m' = embedding m.
Proof. cbv zeta. unfold attach_entities. destruct m as [? ? ? ? ? ? ? ? []]; simpl. by split_and!. Qed.

Lemma draft_scope_spec s batch vis principal tenant user project team :
  draft_scope s batch vis principal = Ok (tenant, user, project, team) →
  ∀ p, principal = Some p →
    vis_u8 vis ≤ vis_u8 (max_visibility p) ∧ tenant = Some (vc_org_id p) ∧ user = Some (vc_user_id p) ∧
    project = requested_project batch ∧ team = requested_team batch ∧
    (personal_scopes s = false →
      (vis = Project → member_of project (project_ids p) = true) ∧
      (vis = Team → member_of team (team_ids p) = true)).
Proof.
  intros Hs p ->. unfold draft_scope in Hs.
  destruct (vis_u8 (max_visibility p) <? vis_u8 vis) eqn:E1; [done|].
  destruct (negb (personal_scopes s) && bool_decide (vis = Project) && _) eqn:E2; [done|].
  destruct (negb (personal_scopes s) && bool_decide (vis = Team) && _) eqn:E3; [done|].
  injection Hs as <- <- <- <-. apply Z.ltb_ge in E1. split_and!; [done..|].
  intros Hp. rewrite Hp in E2, E3. simpl in E2, E3.
  split; intros ->; rewrite ?bool_decide_eq_true_2 in E2, E3 by done; simpl in *.
  - by destruct (member_of _ _).
  - by destruct (member_of _ _).
Qed.


Lemma draft_validity_ok m times from until :
  draft_validity m times = Ok (from, until) → ∀ t, until = Some t → from ≤ t.
Proof.
  unfold draft_validity. intros (f & _ & (u & _ & Hr)%bind_ok)%bind_ok t ->.
  destruct u as [u|]; [destruct (u <? f) eqn:E; [done|]|done].
  injection Hr as -> ->. by apply Z.ltb_ge in E.
Qed.

Lemma draft_rights_ok m source from r :
  draft_rights m source from = Ok r → ∀ x t, r = Some x → retention_until x = Some t → from ≤ t.
Proof.
  unfold draft_rights. set (rights := match pm_rights m with Some _ => _ | None => _ end).
  intros Hr x t -> Ht. destruct (match rights ≫= retention_until with Some _ => _ | None => _ end) eqn:E; [done|].
  injection Hr as Hr. rewrite Hr in E. simpl in E. rewrite Ht in E. by apply Z.ltb_ge in E.
Qed.

Lemma validate_memory_sound s batch d source times principal now fresh m :
  validate_memory s batch d (bool_decide (is_Some (pb_snapshot batch))) source times principal now fresh = Ok m →
  memory_sound s batch source principal m ∧
  memory_type_by_name (ontology s) !! pm_memory_type d = Some (memory_type m) ∧
  title m = pm_title d ∧ content m = pm_content d ∧ embedding m = None.
Proof.
  unfold validate_memory. intros (mt & Hmt%ok_or_ok & (vis & Hvis & (scope & Hscope & Hm)%bind_ok)%bind_ok)%bind_ok.
  destruct scope as [[[tenant user] project] team].
  pose proof (draft_scope_spec _ _ _ _ _ _ _ _ Hscope) as Hsc. clear Hscope.
  destruct (validate_draft _ _ _) as [[]|] eqn:Hd in Hm; [|done].
  apply validate_draft_exact in Hd as (Ht & Hc & Hcont & _ & _ & Hceil & _). simpl in Ht, Hc, Hcont, Hceil.
  destruct (bool_decide (is_Some (pb_snapshot batch)) && _) eqn:E1; [done|].
  destruct (match pm_external_key d with Some _ => _ | None => _ end) eqn:E2 in Hm; [done|].
  destruct (match pb_snapshot batch with Some _ => _ | None => _ end) eqn:E3 in Hm; [done|].
  apply bind_ok in Hm as ([from until] & Hval & (rts & Hrts & <-%Ok_inj)%bind_ok).
  set (m0 := {| m_id := _ |}).
  destruct (attach_fields m0 (extractor s))
    as (F1 & F2 & F3 & F4 & F5 & F6 & F7 & F8 & F9 & F10 & F11 & F12 & F13 & F14).
  split; [|by rewrite F2, F3, F4, F14].
  constructor; rewrite ?F2, ?F3, ?F4, ?F5, ?F6, ?F7, ?F8, ?F9, ?F10, ?F11, ?F12, ?F13; simpl.
  - eauto.
  - done.
  - done.
  - intros p Hp. by destruct (Hsc p Hp) as (? & ? & ? & _).
  - intros p Hp Hper. destruct (Hsc p Hp) as (_ & _ & _ & Hproj & Hteam & Hmem).
    destruct (Hmem Hper) as [Hmp Hmt']. split; intros Hv.
    + by apply member_of_spec, Hmp.
    + by apply member_of_spec, Hmt'.
  - unfold draft_provenance. case_bool_decide as Hsn; [|done].
    eexists; split; [done|]. simpl. split_and!; [done|done|].
    destruct (pb_snapshot batch) as [sn|]; [|by destruct Hsn]. simpl.
    by apply negb_false_iff, Nat.eqb_eq in E3.
  - intros t ->. by eapply draft_validity_ok.
  - intros x t -> Hx. by eapply draft_rights_ok.
Qed.

(** ** One edge *)

Lemma or_default_scores o kind x : unit_score x = true →
  unit_score (or_default o kind x) = true ∨ or_default o kind x = default_strength_of o kind.
Proof. unfold or_default. destruct (f32_eqb x f32_zero); auto. Qed.

Lemma validate_relationship_sound s batch d ids source times events r :
  validate_relationship s batch d ids (se_ceiling source) (se_kind source) times = (events, Ok r) →
  edge_sound (ontology s) batch source (λ m, ∃ k, ids !! k = Some m) r ∧ events = [].
Proof.
  unfold validate_relationship. destruct (ids !! pd_from_draft_key d) as [f|] eqn:Hf; [|done].
  destruct (target_key d ≫= _) as [t|] eqn:Ht; [|done].
  destruct (kind_id (ontology s) (pd_kind d)) as [kind|] eqn:Hk; [|done].
  destruct (match kinds_by_id (ontology s) !! kind with Some _ => _ | None => _ end) eqn:Hc; [done|].
  destruct (vis_from_i32 (pd_visibility d)) as [v|]; [|done].
  destruct (within _ _) eqn:Hw; [|done]. simpl.
  destruct (validate_triple _ _ _ _) as [[]|] eqn:Htr; [|done].
  destruct (unit_score (pd_strength d)) eqn:Hs1; [|done]. destruct (unit_score (pd_confidence d)) eqn:Hs2; [|done].
  simpl. intros [= <- <-]. split; [|done]. apply bind_Some in Ht as (key & _ & Ht).
  constructor; simpl.
  - exists f, t. split_and!; [eauto|eauto|done|done|done|done|done].
  - by apply Z.leb_le in Hw.
  - intros k Hkk. by rewrite Hkk in Hc.
  - done.
  - apply Forall_cons; split; [by apply or_default_scores|].
    apply Forall_singleton. by apply or_default_scores.
Qed.

(** ** The batch *)

Lemma keyed_of_lookup l k m : keyed_of l !! k = Some m → m ∈ accepted_of l.
Proof.
  unfold keyed_of. assert (Hgen : ∀ ids : gmap string Memory,
    foldl (λ ids v, match v.2 with Ok m => <[pm_draft_key v.1 := m]> ids | Err _ => ids end) ids l !! k = Some m →
    ids !! k = Some m ∨ m ∈ accepted_of l).
  { induction l as [|[d [m'|c]] l IH]; intros ids; cbn [foldl]; [by left| |].
    - intros [Hi|Hi]%IH; [|right; simpl; set_solver].
      apply lookup_insert_Some in Hi as [[_ ->]|[_ Hi]]; [right; simpl; set_solver|by left].
    - intros [Hi|Hi]%IH; [by left|by right]. }
  intros [Hi|Hi]%Hgen; [by rewrite lookup_empty in Hi|done].
Qed.

Lemma rejected_none {D A} (key : D → string) (l : list (D * result A RejectCode)) :
  rejected_of key l = [] → l.*2 = Ok <$> accepted_of l.
Proof.
  induction l as [|[d [a|c]] l IH]; [done| |done]. intros Hr. csimpl. f_equal. by apply IH.
Qed.

Lemma resolve_targets principal loaded l rows ids rows' ids' :
  foldl (resolve_target principal loaded) (rows, ids) l = (rows', ids') → rows' = [] →
  rows = [] ∧ ∀ k m, ids' !! k = Some m → ids !! k = Some m ∨
    ∃ id, loaded !! id = Some m ∧ readable principal m.
Proof.
  revert rows ids. induction l as [|[r id] l IH]; intros rows ids; cbn [foldl].
  { intros [= -> ->] ->. eauto. }
  simpl. destruct (loaded !! id) as [target|] eqn:Hl.
  - destruct (match principal with Some _ => _ | None => _ end) eqn:Hp; intros E Hn.
    + apply IH in E as [Hr _]; [|done]. by destruct rows.
    + apply IH in E as [-> Hids]; [|done]. split; [done|]. intros k m [Hk|?]%Hids; [|by right].
      apply lookup_insert_Some in Hk as [[_ ->]|[_ Hk]]; [|by left]. right. exists id. split; [done|].
      intros p ->. by apply negb_false_iff in Hp.
  - intros E Hn. apply IH in E as [Hr _]; [|done]. by destruct rows.
Qed.

Lemma loaded_lookup (found : list Memory) id m :
  foldl (λ m memory, <[m_id memory := memory]> m) (∅ : gmap MemoryId Memory) found !! id = Some m →
  m_id m = id ∧ m ∈ found.
Proof.
  assert (Hgen : ∀ ms : gmap MemoryId Memory,
    foldl (λ m memory, <[m_id memory := memory]> m) ms found !! id = Some m →
    ms !! id = Some m ∨ (m_id m = id ∧ m ∈ found)).
  { induction found as [|x found IH]; intros ms; cbn [foldl]; [by left|].
    intros [Hi|[? ?]]%IH; [|right; set_solver].
    apply lookup_insert_Some in Hi as [[<- <-]|[_ Hi]]; [right; set_solver|by left]. }
  intros [Hi|?]%Hgen; [by rewrite lookup_empty in Hi|done].
Qed.

(** What the store may do between the first and the last read of targets. *)
Definition reads_only st st' : Prop := rtc (λ a b, ∃ ids, b = (is_memories ids a).1) st st'.

Lemma storage_retry_reads ids st :
  reads_only st (storage_retry (is_memories ids) st).1.
Proof.
  unfold storage_retry. generalize MAX_ATTEMPTS. intros n. revert st.
  induction n as [|n IH]; intros st; simpl; [apply rtc_refl|].
  destruct (is_memories ids st) as [st' [v|e]] eqn:E.
  - apply rtc_once. exists ids. by rewrite E.
  - assert (reads_only st st') by (apply rtc_once; exists ids; by rewrite E).
    destruct (transient e && negb (Nat.eqb n 0)); [|done]. unfold reads_only in *. etrans; [eassumption|apply IH].
Qed.

(** The two ends an accepted edge may have. *)
Definition known_end (principal : option VisibilityContext) (v : ValidatedBatch) (m : Memory) : Prop :=
  m ∈ v_memories v ∨ (v_loaded v !! m_id m = Some m ∧ readable principal m).

(** A positive verdict. *)
Record verdict_sound s batch source principal (v : ValidatedBatch) : Prop := {
  vs_memories : Forall (memory_sound s batch source principal) (v_memories v);
  vs_rows : Forall2 (λ d m, memory_type_by_name (ontology s) !! pm_memory_type d = Some (memory_type m) ∧
                            title m = pm_title d ∧ content m = pm_content d) (pb_memories batch) (v_memories v);
  vs_edges : Forall (edge_sound (ontology s) batch source (known_end principal v)) (v_relationships v);
  vs_count : length (v_relationships v) = length (pb_relationships batch);
  vs_loaded id m : v_loaded v !! id = Some m → m_id m = id;
  vs_unembedded : Forall (λ m, embedding m = None) (v_memories v);
}.

Lemma edge_sound_mono o batch source (P Q : Memory → Prop) r :
  (∀ m, P m → Q m) → edge_sound o batch source P r → edge_sound o batch source Q r.
Proof. intros HPQ [(f & t & Hf & Ht & Hr) ? ? ? ?]. constructor; [|done..]. exists f, t. eauto 10. Qed.

Lemma accepted_rows {D A} (l : list (D * result A RejectCode)) i a :
  l.*2 = Ok <$> accepted_of l → accepted_of l !! i = Some a → ∃ d, l !! i = Some (d, Ok a).
Proof.
  intros E Hi. assert (l.*2 !! i = Some (Ok a)) as Hl by (by rewrite E, list_lookup_fmap, Hi).
  rewrite list_lookup_fmap in Hl. destruct (l !! i) as [[d x]|]; simplify_eq/=. eauto.
Qed.

Lemma validate_batch_sound s batch source principal amb st st' events v :
  validate_batch s batch source principal amb st = (st', events, Ok (Ok v)) →
  verdict_sound s batch source principal v ∧ reads_only st st'.
Proof.
  unfold validate_batch. destruct (batch_times _ _) as [times|]; [|done].
  set (verdicts := memory_verdicts _ _ _ _ _ _).
  destruct (rejected_of pm_draft_key verdicts) eqn:Hrej; [|done]. apply rejected_none in Hrej.
  set (external := omap external_target _). set (unique := dedup _).
  pose proof (storage_retry_reads unique st) as Hreads.
  destruct (storage_retry (is_memories unique) st) as [st1 [found|status]]; [|done]. simpl in Hreads.
  set (loaded := foldl _ ∅ found). destruct (foldl (resolve_target principal loaded) _ _) as [rows ids] eqn:Hres.
  destruct rows; [|done]. apply resolve_targets in Hres as [_ Hids]; [|done].
  set (edges := _ <$> pb_relationships batch). set (verd2 := (λ e, (e.1, e.2.2)) <$> edges).
  destruct (rejected_of edge_key verd2) eqn:Hrej2; [|done]. apply rejected_none in Hrej2.
  intros [= <- <- <-]. split; [|done].
  assert (Hends : ∀ m, (∃ k, ids !! k = Some m) →
    known_end principal (mkValidated (accepted_of verdicts) (accepted_of verd2) loaded) m).
  { intros m [k Hk]. apply Hids in Hk as [Hk%keyed_of_lookup|(id & Hl & Hr)]; [by left|right].
    simpl. split; [|done]. destruct (loaded_lookup _ _ _ Hl) as [<- _]. done. }
  assert (Hverd : ∀ i m, accepted_of verdicts !! i = Some m → ∃ d, pb_memories batch !! i = Some d ∧
    validate_memory s batch d (bool_decide (is_Some (pb_snapshot batch))) source times principal
      (at_draft amb i) (new_v7 amb i) = Ok m).
  { intros i m Hi. apply (accepted_rows _ _ _ Hrej) in Hi as [d Hd].
    unfold verdicts, memory_verdicts in Hd. rewrite list_lookup_imap in Hd.
    destruct (pb_memories batch !! i) as [d'|] eqn:E; simplify_eq/=. eauto. }
  assert (Hlen : length (accepted_of verdicts) = length (pb_memories batch)).
  { apply (f_equal length) in Hrej. rewrite !length_fmap in Hrej.
    rewrite <-Hrej. unfold verdicts, memory_verdicts. by rewrite length_imap. }
  constructor; simpl.
  - apply Forall_lookup. intros i m (d & _ & Hd)%Hverd. by apply validate_memory_sound in Hd as [? _].
  - apply Forall2_same_length_lookup. split; [done|]. intros i d m Hd Hm.
    apply Hverd in Hm as (d' & Hd' & Hv). simplify_eq.
    apply validate_memory_sound in Hv as (_ & ? & ? & ? & _). done.
  - apply Forall_lookup. intros i r Hr. apply (accepted_rows _ _ _ Hrej2) in Hr as [d Hd].
    unfold verd2, edges in Hd. rewrite !list_lookup_fmap in Hd.
    destruct (pb_relationships batch !! i) as [d'|]; simplify_eq/=.
    destruct (validate_relationship _ _ _ _ _ _ _) as [ev rr] eqn:Hv. simplify_eq/=.
    apply validate_relationship_sound in Hv as [Hv _]. by eapply edge_sound_mono; [apply Hends|].
  - apply (f_equal length) in Hrej2. rewrite !length_fmap in Hrej2. rewrite <-Hrej2.
    unfold verd2, edges. by rewrite !length_fmap.
  - intros id m Hl. by apply loaded_lookup in Hl as [? _].
  - apply Forall_lookup. intros i m (d & _ & Hd)%Hverd.
    by apply validate_memory_sound in Hd as (_ & _ & _ & _ & ?).
Qed.
End verdict.
