(* ===== verification/CommitSpec.v ===== *)
(** * What the ingest service commits

    The rows of a commit, the whole of [submit] against its steps, the agreement of [preflight] with
    [submit], idempotence over the in-memory store, the bounds of the recent ring and of the
    snapshot history, and the hints. *)

From stdpp Require Import pretty strings.
From S2P Require Import Prelude Ids Kernel Packs Ontology StorageTypes Graph Reads Ingest Storage.
From S2P Require Import Wire Entities IngestTypes Grouping IngestService IngestCommit IngestSpec.

(** ** Rows *)

Section rows.
Context `{Blake3, HashOrder, SerdeJson, Regex, FromTimestamp, Hmac}.
Context `{Message PbIngestBatch batch_ok, Message PbMemoryDraft memory_draft_ok}.
Context `{Message PbRelationshipDraft relationship_draft_ok, Message PbSnapshotInfo snapshot_info_ok}.
Context `{Lsrc : Lru SourceKey SourceEntry, Lack : Lru SourceKey IngestAck}.
Context {S : Type} `{IngestStore S}.
Implicit Types (s : IngestServer) (w : Shared) (st : S) (batch : PbIngestBatch).

(** [m'] is [m] with another vector or a lower confidence. *)
Definition touched (m m' : Memory) : Prop :=
  m_set_confidence (confidence m) (m_set_embedding (embedding m) m') = m.

Lemma touched_fields m m' : touched m m' →
  m_id m' = m_id m ∧ memory_type m' = memory_type m ∧ title m' = title m ∧ content m' = content m ∧
  m_visibility m' = m_visibility m ∧ m_provenance m' = m_provenance m ∧ context m' = context m ∧
  m_valid_from m' = m_valid_from m ∧ m_valid_until m' = m_valid_until m ∧ Kernel.rights m' = Kernel.rights m.
Proof. unfold touched. destruct m, m'. simpl. intros [=]; subst. by split_and!. Qed.

Lemma touched_embedding m e : touched m (m_set_embedding e m).
Proof. by destruct m. Qed.
Lemma touched_confidence m c : touched m (m_set_confidence c m).
Proof. by destruct m. Qed.
Lemma touched_refl m : touched m m.
Proof. by destruct m. Qed.
Lemma touched_trans a b c : touched a b → touched b c → touched a c.
Proof. unfold touched. destruct a, b, c; simpl. intros [=]; subst. intros [=]; by subst. Qed.

Lemma memory_sound_touched s batch source principal m m' :
  touched m m' → memory_sound s batch source principal m → memory_sound s batch source principal m'.
Proof.
  intros (_ & F2 & F3 & F4 & F5 & F6 & F7 & F8 & F9 & F10)%touched_fields [].
  constructor; rewrite ?F2, ?F3, ?F4, ?F5, ?F6, ?F7, ?F8, ?F9, ?F10; done.
Qed.

Lemma embed_touched s ms : Forall2 touched ms (embed_memories s ms).
Proof.
  assert (Hrefl : ∀ l, Forall2 touched l l) by (intros l; apply Forall_Forall2_diag, Forall_true, touched_refl).
  unfold embed_memories. destruct ms as [|m ms]; [done|].
  destruct (embed_texts _ _) as [vectors|]; [|done]. unfold stamp_embeddings.
  generalize (current_model s). intros model. revert vectors. generalize (m :: ms). intros l.
  induction l as [|x l IH]; intros [|v vectors]; simpl; [done..| |].
  - apply Hrefl.
  - constructor; [apply touched_embedding|apply IH].
Qed.

Lemma lower_own_touched targets m : touched m (lower_own targets m).
Proof. unfold lower_own. destruct (_ && _); [apply touched_confidence|apply touched_refl]. Qed.

Lemma elem_of_hash_set {K} `{Countable K} (X : gset K) k : k ∈ hash_set X ↔ k ∈ X.
Proof.
  unfold hash_set. rewrite list_elem_of_fmap. split.
  - intros ([k' []] & -> & Hk%elem_of_hash_iter%lookup_gset_to_gmap_Some). apply Hk.
  - intros Hk. exists (k, tt). split; [done|]. by apply elem_of_hash_iter, lookup_gset_to_gmap_Some.
Qed.

Lemma lower_stored_grows loaded ms t : ms `prefix_of` lower_stored loaded ms t.
Proof.
  unfold lower_stored. destruct (existsb _ ms); [done|]. destruct (loaded !! t) as [x|]; [|done].
  destruct (above_floor x); [by apply prefix_app_r|done].
Qed.

Lemma lower_stored_spec loaded targets ms m :
  m ∈ foldl (lower_stored loaded) ms targets →
  m ∈ ms ∨ ∃ target stale, target ∈ targets ∧ loaded !! target = Some stale ∧
    above_floor stale = true ∧ m = m_set_confidence confidence_floor stale ∧
    (∀ x, x ∈ ms → m_id x ≠ target).
Proof.
  revert ms. induction targets as [|t targets IH]; intros ms; cbn [foldl]; [by left|].
  intros [Hm|(t' & stale & Ht & Hl & Ha & -> & Hn)]%IH.
  - unfold lower_stored in Hm. destruct (existsb _ ms) eqn:E; [by left|].
    destruct (loaded !! t) as [stale|] eqn:Hl; [|by left]. destruct (above_floor stale) eqn:Ha; [|by left].
    apply elem_of_app in Hm as [Hm|Hm%list_elem_of_singleton]; [by left|right].
    exists t, stale. split_and!; [apply elem_of_cons; by left|done|done|done|].
    intros x Hx Hid. assert (existsb (λ m, bool_decide (m_id m = t)) ms = true) as Hc; [|congruence].
    apply existsb_exists. exists x. rewrite bool_decide_eq_true. split; [by apply list_elem_of_In|done].
  - right. exists t', stale. split_and!; [apply elem_of_cons; by right|done|done|done|]. intros x Hx. apply Hn.
    destruct (lower_stored_grows loaded ms t) as [k ->]. apply elem_of_app. by left.
Qed.

Lemma lower_stored_prefix loaded targets ms : ms `prefix_of` foldl (lower_stored loaded) ms targets.
Proof.
  revert ms. induction targets as [|t targets IH]; intros ms; cbn [foldl]; [done|].
  etrans; [apply lower_stored_grows|apply IH].
Qed.

(** A group's node: no wider than any member. *)
Record node_sound s batch (flavor : string) (members : list Memory) (node : Memory) : Prop := {
  ns_rule : ∃ rule key, grouping_key batch flavor (server_grouping_rules s) = Some (rule, key) ∧
    m_id node = grouping_id (pb_org_id batch) (gr_flavor rule) key ∧
    m_provenance node = grouping_provenance rule ∧ session_id (context node) = Some key;
  ns_visibility m : m ∈ members → vis_u8 (m_visibility node) ≤ vis_u8 (m_visibility m);
  ns_tenant m : head members = Some m → tenant_id (context node) = tenant_id (context m) ∧
    user_id (context node) = user_id (context m) ∧ project_id (context node) = project_id (context m) ∧
    team_id (context node) = team_id (context m);
}.

Lemma narrowest_le vs v : v ∈ vs → ∃ n, narrowest_visibility vs = Some n ∧ vis_u8 n ≤ vis_u8 v.
Proof.
  destruct vs as [|v0 vs]; [by intros ?%not_elem_of_nil|]. intros Hv. exists (foldl vis_min v0 vs). split; [done|].
  assert (Hmin : ∀ a b, vis_u8 (vis_min a b) ≤ vis_u8 a ∧ vis_u8 (vis_min a b) ≤ vis_u8 b).
  { intros a b. unfold vis_min. destruct (Z.ltb_spec (vis_u8 b) (vis_u8 a)); lia. }
  revert v v0 Hv. induction vs as [|v1 vs IH]; intros v v0 Hv; simpl.
  { by apply list_elem_of_singleton in Hv as ->. }
  destruct (Hmin v0 v1) as [Hm0 Hm1].
  assert (vis_u8 (foldl vis_min (vis_min v0 v1) vs) ≤ vis_u8 (vis_min v0 v1))
    by (apply IH, elem_of_cons; by left).
  apply elem_of_cons in Hv as [-> |[-> |Hv]%elem_of_cons]; [lia|lia|].
  apply IH, elem_of_cons. by right.
Qed.

Lemma scope_node_sound s batch flavor rule key now members node :
  grouping_key batch flavor (server_grouping_rules s) = Some (rule, key) →
  grouping_node (ontology s) (pb_org_id batch) rule key now = Some node →
  node_sound s batch flavor members (scope_node members node).
Proof.
  intros Hk (mt & _ & [= <-])%bind_Some.
  constructor.
  - exists rule, key. by destruct members as [|m members].
  - intros m Hm. destruct members as [|m0 members]; [by apply not_elem_of_nil in Hm|]. simpl.
    destruct (narrowest_le (m_visibility <$> m0 :: members) (m_visibility m)) as (n & Hn & Hle);
      [by apply list_elem_of_fmap_2|]. simpl in Hn. injection Hn as Hn. by rewrite <-Hn in Hle.
  - intros m Hm. destruct members as [|m0 members]; [done|]. by injection Hm as ->.
Qed.

(** The edge from a member to the node of its group. *)
Record group_edge (o : Ontology) (members : list Memory) (node : Memory) (r : Relationship) : Prop := {
  ge_from : ∃ m, m ∈ members ∧ r_from r = m_id m ∧
    r_visibility r = relationship_visibility (m_visibility m) (m_visibility node);
  ge_to : r_to r = m_id node;
  ge_provenance : r_provenance r = m_provenance node;
  ge_id : r_id r = RelationshipId_derive (r_from r) (r_kind r) (r_to r) None;
}.

Lemma elem_of_inverses o rs r :
  r ∈ materialize_inverses o rs → r ∈ rs ∨ ∃ base, base ∈ rs ∧ materialize_inverse o base = Some r.
Proof.
  unfold materialize_inverses.
  assert (Hgen : ∀ l acc, l ⊆ rs → (∀ x, x ∈ acc.2 → x ∈ rs ∨ ∃ base, base ∈ rs ∧ materialize_inverse o base = Some x) →
    ∀ x, x ∈ (foldl (add_inverse o) acc l).2 → x ∈ rs ∨ ∃ base, base ∈ rs ∧ materialize_inverse o base = Some x).
  { induction l as [|b l IH]; intros acc Hl Hacc; cbn [foldl]; [done|]. apply IH; [intros x Hx; apply Hl, elem_of_cons; by right|].
    unfold add_inverse. destruct (materialize_inverse o b) as [inv|] eqn:E; [|done].
    case_bool_decide; [done|]. simpl. intros x [Hx|Hx%list_elem_of_singleton]%elem_of_app; [by apply Hacc|].
    subst x. right. exists b. split; [apply Hl, elem_of_cons; by left|done]. }
  apply Hgen; [done|by left].
Qed.

Lemma inverses_prefix o rs : rs `prefix_of` materialize_inverses o rs.
Proof.
  unfold materialize_inverses.
  assert (Hgen : ∀ l acc, rs `prefix_of` acc.2 → rs `prefix_of` (foldl (add_inverse o) acc l).2).
  { induction l as [|b l IH]; intros acc Hacc; cbn [foldl]; [done|]. apply IH.
    unfold add_inverse. destruct (materialize_inverse o b); [|done]. case_bool_decide; [done|].
    simpl. by apply prefix_app_r. }
  by apply Hgen.
Qed.

(** The rows a positive verdict commits. *)
Record rows_sound s batch source principal (rows : CommitRows) : Prop := {
  rw_producer : Forall2 (λ d m, memory_sound s batch source principal m ∧
      memory_type_by_name (ontology s) !! pm_memory_type d = Some (memory_type m) ∧
      title m = pm_title d ∧ content m = pm_content d) (pb_memories batch) (producer_memories rows);
  rw_written : producer_memories rows `prefix_of` c_memories rows;
  rw_memories m : m ∈ c_memories rows → m ∈ producer_memories rows ∨
    (∃ stale r, readable principal stale ∧ r ∈ c_relationships rows ∧
       supersession_kind (ontology s) (r_kind r) = true ∧ r_to r = m_id stale ∧
       above_floor stale = true ∧ m = m_set_confidence confidence_floor stale) ∨
    node_sound s batch (se_flavor source) (producer_memories rows) m;
  rw_edges r : r ∈ c_relationships rows → ∃ base,
    (r = base ∨ materialize_inverse (ontology s) base = Some r) ∧
    (edge_sound (ontology s) batch source (λ m, m ∈ producer_memories rows ∨ readable principal m) base ∨
     ∃ node, node ∈ c_memories rows ∧ group_edge (ontology s) (producer_memories rows) node base);
  rw_accepted : c_accepted rows =
    as_u32 (Z.of_nat (length (pb_memories batch) + length (pb_relationships batch)));
}.

Lemma edge_sound_touched o batch source (P Q : Memory → Prop) r :
  (∀ m, P m → ∃ m', touched m m' ∧ Q m') → edge_sound o batch source P r → edge_sound o batch source Q r.
Proof.
  intros HPQ [(f & t & Hf & Ht & Ef & Et & Ev & Etr & Ep) ? ? ? ?]. constructor; [|done..].
  destruct (HPQ _ Hf) as (f' & (Af & Tf & _ & _ & Vf & Pf & _)%touched_fields & Hf').
  destruct (HPQ _ Ht) as (t' & (At & Tt & _ & _ & Vt & Pt & _)%touched_fields & Ht').
  exists f', t'. rewrite Af, At, Tf, Tt, Vf, Vt, Pf. done.
Qed.

Lemma grouping_spec s batch flavor now members ms rs ms' rs' created :
  materialize_grouping s batch flavor now members ms rs = (ms', rs', created) →
  (ms' = ms ∧ rs' = rs) ∨ ∃ node, node_sound s batch flavor members node ∧ ms' = ms ++ [node] ∧
    ∃ new, rs' = rs ++ new ∧ ∀ r, r ∈ new → group_edge (ontology s) members node r.
Proof.
  unfold materialize_grouping. destruct (grouping_key _ _ _) as [[rule key]|] eqn:Hk; [|intros [= <- <- <-]; by left].
  destruct (grouping_node _ _ _ _ _) as [node|] eqn:Hn; [|intros [= <- <- <-]; by left].
  pose proof (scope_node_sound s batch flavor rule key now members node Hk Hn) as Hs.
  assert (Hprov : m_provenance (scope_node members node) = grouping_provenance rule).
  { apply bind_Some in Hn as (mt & _ & [= <-]). by destruct members. }
  set (node' := scope_node members node) in *. intros [= <- <- <-]. right.
  exists node'. split; [exact Hs|]. split; [done|]. eexists; split; [done|].
  intros r (m & Hm & Hr)%list_elem_of_omap.
  apply bind_Some in Hr as (kind & _ & [= <-]). constructor; simpl; [by exists m|done|done|done].
Qed.

Lemma materialize_sound s batch source principal now v ms :
  verdict_sound s batch source principal v → Forall2 touched (v_memories v) ms →
  rows_sound s batch source principal
    (materialize_commit_rows s batch (se_flavor source) now (mkValidated ms (v_relationships v) (v_loaded v))).
Proof.
  intros [Hmem Hrows Hedges Hcount Hloaded _] Hms. unfold materialize_commit_rows. cbn [v_memories v_relationships v_loaded].
  set (targets := supersession_targets _ _). set (own := lower_own targets <$> ms).
  assert (Hown : Forall2 touched (v_memories v) own).
  { apply Forall2_fmap_r. eapply Forall2_impl; [exact Hms|]. intros a b Hab.
    eapply touched_trans; [exact Hab|apply lower_own_touched]. }
  set (lowered := foldl (lower_stored (v_loaded v)) own (hash_set targets)).
  destruct (materialize_grouping _ _ _ _ _ _ _) as [[ms' rs'] created] eqn:Hg.
  apply grouping_spec in Hg. set (rs := materialize_inverses (ontology s) rs').
  assert (Hends : ∀ m, known_end principal v m →
    ∃ m', touched m m' ∧ (m' ∈ own ∨ readable principal m')).
  { intros m [Hm|[_ Hm]]; [|exists m; split; [apply touched_refl|by right]].
    apply list_elem_of_lookup in Hm as [i Hi]. destruct (Forall2_lookup_l _ _ _ _ _ Hown Hi) as (m' & Hi' & Ht).
    exists m'. split; [done|left]. by eapply list_elem_of_lookup_2. }
  assert (Hrs : v_relationships v `prefix_of` rs).
  { etrans; [|apply inverses_prefix]. destruct Hg as [[_ ->]|(node & _ & _ & new & -> & _)]; [done|].
    by apply prefix_app_r. }
  assert (Hlow : own `prefix_of` ms').
  { assert (own `prefix_of` lowered) by apply lower_stored_prefix.
    destruct Hg as [[-> _]|(node & _ & -> & _)]; [done|]. by apply prefix_app_r. }
  constructor; simpl.
  - apply Forall2_same_length_lookup. split.
    { apply Forall2_length in Hown, Hrows. congruence. }
    intros i d m Hd Hm. destruct (Forall2_lookup_r _ _ _ _ _ Hown Hm) as (m0 & Hm0 & Ht).
    destruct (Forall2_lookup_lr _ _ _ _ _ _ Hrows Hd Hm0) as (R1 & R2 & R3).
    assert (memory_sound s batch source principal m0) as Hs0 by (by eapply Forall_lookup_1).
    pose proof (touched_fields _ _ Ht) as (_ & F2 & F3 & F4 & _). rewrite F2, F3, F4.
    split; [by eapply memory_sound_touched|done].
  - exact Hlow.
  - intros m Hm. assert (m ∈ lowered ∨ node_sound s batch (se_flavor source) own m) as [Hm'|Hn].
    { destruct Hg as [[-> _]|(node & Hn & -> & _)]; [by left|].
      apply elem_of_app in Hm as [Hm|Hm%list_elem_of_singleton]; [by left|subst m; by right]. }
    2:{ by right; right. }
    apply lower_stored_spec in Hm' as [Hm'|(target & stale & Ht & Hl & Ha & -> & Hne)]; [by left|right; left].
    apply elem_of_hash_set in Ht. unfold targets, supersession_targets in Ht.
    apply elem_of_list_to_set, list_elem_of_fmap in Ht as (r & -> & Hr%list_elem_of_In).
    apply List.filter_In in Hr as [Hr%list_elem_of_In Hk].
    pose proof (proj1 (Forall_forall _ _) Hedges r Hr) as [(f & t & _ & Ht & _ & Et & _) _ _ _ _].
    rewrite Et in Hl. destruct Ht as [Ht|[Ht Hread]].
    + exfalso. apply list_elem_of_lookup in Ht as [i Hi].
      destruct (Forall2_lookup_l _ _ _ _ _ Hown Hi) as (m' & Hi' & (Hid & _)%touched_fields).
      apply (Hne m'); [by eapply list_elem_of_lookup_2|]. by rewrite Hid, Et.
    + rewrite Ht in Hl. injection Hl as ->. exists stale, r. split_and!; [done| |done|done|done|done].
      by eapply elem_of_prefix.
  - intros r [Hr|(base & Hr & Hinv)]%elem_of_inverses.
    + exists r. split; [by left|]. destruct Hg as [[_ ->]|(node & Hn & Ems & new & -> & Hnew)].
      * left. eapply edge_sound_touched; [exact Hends|]. by eapply Forall_forall in Hedges.
      * apply elem_of_app in Hr as [Hr|Hr].
        { left. eapply edge_sound_touched; [exact Hends|]. by eapply Forall_forall in Hedges. }
        right. exists node. split; [|by apply Hnew]. rewrite Ems. apply elem_of_app. right.
        by apply list_elem_of_singleton.
    + exists base. split; [by right|]. destruct Hg as [[_ ->]|(node & Hn & Ems & new & -> & Hnew)].
      * left. eapply edge_sound_touched; [exact Hends|]. by eapply Forall_forall in Hedges.
      * apply elem_of_app in Hr as [Hr|Hr].
        { left. eapply edge_sound_touched; [exact Hends|]. by eapply Forall_forall in Hedges. }
        right. exists node. split; [|by apply Hnew]. rewrite Ems. apply elem_of_app. right.
        by apply list_elem_of_singleton.
  - apply Forall2_length in Hms, Hrows. by rewrite Hcount, <-Hms, <-Hrows.
Qed.
End rows.
