(* ===== verification/SubmitSpec.v ===== *)
(** * What [submit] and [preflight] do

    Admission exactly, [submit] against its steps over any store, the agreement of [preflight] with
    [submit], idempotence over the in-memory store, and the bounds of what a server remembers. *)

From stdpp Require Import pretty strings.
From S2P Require Import Prelude Ids Kernel Packs Ontology StorageTypes Graph Reads Ingest Governed Storage.
From S2P Require Import Wire Entities IngestTypes Grouping IngestService IngestCommit IngestSpec CommitSpec.

Section submit.
Context `{Blake3, HashOrder, SerdeJson, Regex, FromTimestamp, Hmac}.
Context `{Message PbIngestBatch batch_ok, Message PbMemoryDraft memory_draft_ok}.
Context `{Message PbRelationshipDraft relationship_draft_ok, Message PbSnapshotInfo snapshot_info_ok}.
Context `{Lsrc : Lru SourceKey SourceEntry, Lack : Lru SourceKey IngestAck}.
Context {S : Type} `{IngestStore S}.
Implicit Types (s : IngestServer) (w : Shared) (st : S) (batch : PbIngestBatch).

(** ** Admission *)

(** What a batch must satisfy before its source is looked at. *)
Record admitted s batch st : Prop := {
  ad_signed : ∃ key, producer_auth_key s batch = Ok key ∧ verify_signature key batch = true;
  ad_resources : validate_batch_resources (pb_memories batch) (pb_relationships batch) = Ok tt;
  ad_checksum : pb_checksum batch = canonical_checksum batch;
  ad_ontology : length (pb_ontology_fingerprint batch) = 32%nat ∧
    (pb_ontology_fingerprint batch = fingerprint (ontology s) ∨ pb_ontology_fingerprint batch ∈ is_recognized st);
  ad_org guard : org_guard s = Some guard → pb_org_id batch = guard;
}.

Lemma admit_producer_ok offered o recognized :
  admit_producer_batch offered o recognized = Ok tt ↔
  length offered = 32%nat ∧ (offered = fingerprint o ∨ offered ∈ recognized).
Proof.
  unfold admit_producer_batch, try_into32. destruct (Nat.eqb_spec (length offered) 32) as [E|E]; simpl;
    [|split; [done|by intros [? _]]].
  destruct (bool_decide (offered = fingerprint o) || bool_decide (offered ∈ recognized)) eqn:Eb.
  - apply orb_true_iff in Eb as [?%bool_decide_eq_true|?%bool_decide_eq_true]; split; auto.
  - apply orb_false_iff in Eb as [?%bool_decide_eq_false ?%bool_decide_eq_false]. split; [done|by intros [_ []]].
Qed.

Lemma admit_spec s batch w st w' :
  admit_batch s batch w st = Ok w' ↔
  admitted s batch st ∧ ∃ n, submit_permits w = Datatypes.S n ∧ w' = put_permits n w.
Proof.
  unfold admit_batch, admit_batch_with. split.
  - destruct (producer_auth_key s batch) as [key|] eqn:E1; [|done].
    destruct (validate_batch_resources _ _) as [[]|] eqn:E2; [|done].
    destruct (submit_permits w) as [|n] eqn:E3; [done|].
    destruct (verify_signature key batch) eqn:E4; [|done].
    destruct (String.eqb_spec (pb_checksum batch) (canonical_checksum batch)) as [E5|]; [|done]. simpl.
    unfold ontology_matches. destruct (admit_producer_batch _ _ _) as [[]|] eqn:E6; [|done].
    destruct (org_guard s) as [guard|] eqn:E7.
    + destruct (String.eqb_spec (pb_org_id batch) guard); [|done]. simpl. intros [= <-].
      split; [|eauto]. constructor; [eauto|done|done|by apply admit_producer_ok|intros ? Hg; congruence].
    + intros [= <-]. split; [|eauto]. constructor; [eauto|done|done|by apply admit_producer_ok|intros ? Hg; congruence].
  - intros ([(key & E1 & E4) E2 E5 E6 E7] & n & E3 & ->). rewrite E1, E2, E3, E4.
    rewrite E5, String.eqb_refl. unfold ontology_matches. rewrite (proj2 (admit_producer_ok _ _ _) E6).
    destruct (org_guard s) as [guard|]; [|done]. by rewrite (E7 guard eq_refl), String.eqb_refl.
Qed.

(** ** The registered source *)

Lemma registered_source_ok s batch w w' source :
  registered_source s batch w = (w', Ok source) →
  w' = put_sources (lru_get (source_key batch) (sources w)) w ∧
  lru_peek (source_key batch) (sources w) = Some source ∧ source_registry_error s = None ∧
  vis_from_i32 (pb_ceiling batch) = Ok (se_ceiling source) ∧ check_projection batch source w' = Ok tt.
Proof.
  unfold registered_source. destruct (source_registry_error s); [done|].
  intros [= <- (source' & Hs%ok_or_ok & Hr)%bind_ok].
  destruct (vis_from_i32 _) as [v|] eqn:Ev; [|done].
  case_bool_decide as Hv; [|done]. simpl in Hr. destruct (match pb_snapshot batch with Some _ => _ | None => _ end); [done|].
  apply bind_ok in Hr as ([] & Hc & [= ->]). by subst v.
Qed.

Lemma registered_source_sources s batch w :
  ∃ l, (registered_source s batch w).1 = put_sources l w ∧ ∀ k, lru_peek k l = lru_peek k (sources w).
Proof.
  unfold registered_source. destruct (source_registry_error s); simpl.
  - exists (sources w). by destruct w.
  - exists (lru_get (source_key batch) (sources w)). split; [done|]. intros k. apply lru_peek_get.
Qed.

(** What a request leaves as it was. *)
Record quiet w w' : Prop := {
  q_recent : recent w' = recent w;
  q_snapshots : seen_snapshots w' = seen_snapshots w;
  q_permits : submit_permits w' = submit_permits w;
  q_acks k : lru_peek k (seen_batches w') = lru_peek k (seen_batches w);
  q_sources k : lru_peek k (sources w') = lru_peek k (sources w);
}.

Lemma quiet_refl w : quiet w w.
Proof. done. Qed.

(** Admission, the replay registry's promotion, the source's promotion and the permit's drop. *)
Lemma quiet_admitted w n l la :
  submit_permits w = Datatypes.S n → (∀ k, lru_peek k l = lru_peek k (sources w)) →
  (∀ k, lru_peek k la = lru_peek k (seen_batches w)) →
  quiet w (release_permit (put_sources l (put_acks la (put_permits n w)))).
Proof. intros Hn Hl Hla. by constructor. Qed.

(** ** Validation changes nothing *)

Lemma validate_batch_reads s batch source principal amb st st' events r :
  validate_batch s batch source principal amb st = (st', events, r) → reads_only st st'.
Proof.
  unfold validate_batch. intros E.
  assert (Hrefl : reads_only st st) by apply rtc_refl.
  destruct (batch_times _ _) as [times|]; [|by injection E as <- _ _].
  destruct (rejected_of _ _); [|by injection E as <- _ _].
  set (unique := dedup _) in E. pose proof (storage_retry_reads unique st) as Hreads.
  destruct (storage_retry (is_memories unique) st) as [st1 [found|status]]; [|by injection E as <- _ _].
  destruct (foldl _ _ _) as [rows ids]. destruct rows; [|by injection E as <- _ _].
  destruct (rejected_of edge_key _); by injection E as <- _ _.
Qed.

(** ** The commit *)

(** A fresh ack: the whole batch is accepted at the settled position. *)
Definition fresh_ack batch (lsn n : Z) (ack : IngestAck) : Prop :=
  ia_batch_id ack = pb_batch_id batch ∧ ia_accepted ack = n ∧ ia_rejected ack = 0 ∧
  rejections ack = [] ∧ ia_assigned_lsn ack = lsn.

(** What the durable commit's answer makes of a submission. *)
Definition answers s batch (rows : CommitRows) (amb : Ambient) w w' st2 st'
    (res : result (result (Z * Z) IngestAck) Status) (r : result IngestAck Status) : Prop :=
  match res with
  | Err status => st' = st2 ∧ r = Err status ∧ w' = w
  | Ok (Err ack) => st' = st2 ∧ r = Ok ack ∧ w' = remember_ack batch ack w
  | Ok (Ok (lsn, n)) =>
      st' = (if ingest_similarity_seeding s then seed_similarity_edges s (pb_org_id batch) rows amb w st2 else st2) ∧
      ∃ ack, r = Ok ack ∧ fresh_ack batch lsn n ack ∧
        w' = remember_ack batch ack (finish_commit batch rows lsn n w).1
  end.

Lemma commit_validated_answers s batch source v amb w st w' st' r :
  commit_validated s batch source v amb w st = (w', st', r) →
  let rows := materialize_commit_rows s batch (se_flavor source) (at_group amb)
                (mkValidated (embed_memories s (v_memories v)) (v_relationships v) (v_loaded v)) in
  let '(st2, res) := commit_rows batch rows (commit_clock amb) st in
  answers s batch rows amb w w' st2 st' res r.
Proof.
  unfold commit_validated. cbv zeta. set (rows := materialize_commit_rows _ _ _ _ _).
  destruct (commit_rows _ _ _ _) as [st2 [[[lsn n]|ack]|status]].
  - destruct (finish_commit batch rows lsn n w) as [w2 ack] eqn:Ef. intros [= <- <- <-].
    split; [done|]. exists ack. split; [done|]. split; [|by rewrite Ef].
    unfold finish_commit in Ef. destruct (similar_to_hints _ _ _) as [w3 hints]. by injection Ef as _ <-.
  - by intros [= <- <- <-].
  - by intros [= <- <- <-].
Qed.

(** ** Submit *)

Definition registered w batch (source : SourceEntry) : Prop :=
  lru_peek (source_key batch) (sources w) = Some source ∧
  vis_from_i32 (pb_ceiling batch) = Ok (se_ceiling source).

(** A submission that ends before the commit. *)
Definition refused batch w w' st st' (r : result IngestAck Status) : Prop :=
  quiet w w' ∧ reads_only st st' ∧
  ∀ ack, r = Ok ack → ia_accepted ack = 0 ∨
    ∃ old, lru_peek (ack_key batch) (seen_batches w) = Some old ∧ ia_accepted ack = ia_accepted old ∧
      ia_assigned_lsn ack = ia_assigned_lsn old ∧ rejections ack = [replay_row].

(** A submission that reaches the commit: admitted, from a registered source, with sound rows, in
    the principal's organization. *)
Definition carried s principal batch amb w w' st st' (r : result IngestAck Status) : Prop :=
  ∃ source rows w1 st1, admitted s batch st ∧ registered w batch source ∧
    (∀ p, principal = Some p → vc_org_id p = pb_org_id batch) ∧
    (lru_peek (ack_key batch) (seen_batches w) = None) ∧
    rows_sound s batch source principal rows ∧ reads_only st st1 ∧ quiet w (release_permit w1) ∧
    let '(st2, res) := commit_rows batch rows (commit_clock amb) st1 in
    ∃ w2, answers s batch rows amb w1 w2 st2 st' res r ∧ w' = release_permit w2.

Lemma foreign_org_false principal org p :
  foreign_org principal org = false → principal = Some p → vc_org_id p = org.
Proof. intros Hf ->. by apply negb_false_iff, String.eqb_eq in Hf. Qed.

(** The refusal of a batch without rows is an ack without a rejection, as the acceptance of one would be. *)
Lemma empty_refusal_silent batch code detail : pb_memories batch = [] → pb_relationships batch = [] →
  ack_reject_all batch code detail = mkIngestAck (pb_batch_id batch) 0 0 [] 0 [].
Proof. intros Hm Hr. unfold ack_reject_all. by rewrite Hm, Hr. Qed.

Lemma refused_reject batch w w' st st' a :
  quiet w w' → reads_only st st' → ia_accepted a = 0 → refused batch w w' st st' (Ok a).
Proof. intros. split_and!; [done..|]. intros ack [= <-]. by left. Qed.

Lemma submit_cases s principal batch amb w st w' st' events r :
  submit s principal batch amb w st = (w', st', events, r) →
  refused batch w w' st st' r ∨ carried s principal batch amb w w' st st' r.
Proof.
  unfold submit. assert (Hrefl : reads_only st st) by apply rtc_refl.
  destruct (request_principal s principal) as [p|] eqn:Hp; [|intros [= <- <- <- <-]; left; by split_and!].
  assert (p = principal) as ->.
  { unfold request_principal in Hp. destruct (_ && _); [done|]. by injection Hp. }
  destruct (foreign_org principal (pb_org_id batch)) eqn:Hfo; [intros [= <- <- <- <-]; left; by split_and!|].
  destruct (admit_batch s batch w st) as [w1|ack] eqn:Had.
  2:{ intros [= <- <- <- <-]. left. apply refused_reject; [apply quiet_refl|done|].
      unfold admit_batch, admit_batch_with in Had. repeat case_match; simplify_eq; done. }
  apply admit_spec in Had as (Had & n & Hn & ->).
  unfold replay_ack. cbn [seen_batches put_permits].
  set (la := lru_get (ack_key batch) (seen_batches w)).
  assert (Hla : ∀ k, lru_peek k la = lru_peek k (seen_batches w)) by (intros; apply lru_peek_get).
  destruct (lru_peek (ack_key batch) (seen_batches w)) as [old|] eqn:Hold; cbn [fmap option_fmap option_map].
  { intros [= <- <- <- <-]. left. split_and!; [|done|].
    - by apply (quiet_admitted w n (sources w) la).
    - intros ack [= <-]. right. exists old. by split_and!. }
  destruct (registered_source s batch (put_acks la (put_permits n w))) as [w2 rs] eqn:Hrs.
  pose proof (registered_source_sources s batch (put_acks la (put_permits n w))) as (l & Hw2 & Hl).
  rewrite Hrs in Hw2. simpl in Hw2, Hl. subst w2.
  assert (Hq : quiet w (release_permit (put_sources l (put_acks la (put_permits n w)))))
    by (by apply quiet_admitted).
  destruct rs as [source|ack].
  2:{ intros [= <- <- <- <-]. left. apply refused_reject; [done|done|].
      unfold registered_source in Hrs. destruct (source_registry_error s); [by injection Hrs as _ <-|].
      injection Hrs as _ Hrs. destruct (lru_peek _ _) as [src|] in Hrs; [|by injection Hrs as <-]. simpl in Hrs.
      destruct (vis_from_i32 _); [|by injection Hrs as <-].
      destruct (negb _); [by injection Hrs as <-|].
      destruct (match pb_snapshot batch with Some _ => _ | None => _ end); [by injection Hrs as <-|].
      destruct (check_projection _ _ _) as [[]|rej] eqn:Hc; [done|]. injection Hrs as <-.
      unfold check_projection, check_snapshot in Hc. repeat case_match; simplify_eq; done. }
  apply registered_source_ok in Hrs as (_ & Hsrc & _ & Hceil & _). simpl in Hsrc.
  destruct (validate_batch s batch source principal amb st) as [[st1 ev] rv] eqn:Hv.
  pose proof (validate_batch_reads _ _ _ _ _ _ _ _ _ Hv) as Hreads.
  destruct rv as [[v|ack]|status].
  - apply validate_batch_sound in Hv as [Hsound _].
    set (w1 := put_sources l (put_acks la (put_permits n w))) in *.
    destruct (commit_validated s batch source v amb w1 st1) as [[w3 st3] r3] eqn:Hc.
    intros [= <- <- <- <-]. right.
    apply commit_validated_answers in Hc. cbv zeta in Hc.
    set (rows := materialize_commit_rows _ _ _ _ _) in Hc.
    exists source, rows, w1, st1. split; [exact Had|]. split; [by split|].
    split; [intros p; by apply foreign_org_false|]. split; [done|].
    split; [by apply materialize_sound; [|apply embed_touched]|]. split; [done|]. split; [done|].
    destruct (commit_rows _ _ _ _) as [st2 res]. by exists w3.
  - intros [= <- <- <- <-]. left. apply refused_reject; [done|done|].
    unfold validate_batch in Hv. repeat case_match; simplify_eq; done.
  - intros [= <- <- <- <-]. left. by split_and!.
Qed.

Lemma registered_source_acks s batch la w :
  (registered_source s batch (put_acks la w)).2 = (registered_source s batch w).2.
Proof. unfold registered_source. by destruct (source_registry_error s). Qed.

(** C10: a submission either ends before the commit, with no change but reads and promotions and no new
    row reported, or was admitted from a registered source and commits sound rows once, answering
    with what the durable commit said. *)
Theorem submit_sound s principal batch amb w st w' st' events r :
  submit s principal batch amb w st = (w', st', events, r) →
  refused batch w w' st st' r ∨ carried s principal batch amb w w' st st' r.
Proof. apply submit_cases. Qed.

(** C12: [preflight] changes nothing but reads and promotions, and reaches the verdict [submit] reaches: the
    same demand, the same rejection, the same status code, and an acceptance of as many rows exactly when
    [submit] goes on to the commit of that many. *)
Theorem preflight_agrees s principal batch amb w st wp stp evp rp ws sts evs rs :
  lru_peek (ack_key batch) (seen_batches w) = None →
  preflight s principal batch amb w st = (wp, stp, evp, rp) →
  submit s principal batch amb w st = (ws, sts, evs, rs) →
  quiet w wp ∧ reads_only st stp ∧ evs = evp ∧
  match rp with
  | Err status => sts = stp ∧ ∃ status', rs = Err status' ∧ st_code status' = st_code status
  | Ok ack =>
      (rs = Ok ack ∧ sts = stp) ∨
      (ia_rejected ack = 0 ∧ rejections ack = [] ∧ ∃ source rows w1 w2,
         rows_sound s batch source principal rows ∧ c_accepted rows = ia_accepted ack ∧
         let '(st2, res) := commit_rows batch rows (commit_clock amb) stp in
         answers s batch rows amb w1 w2 st2 sts res rs)
  end.
Proof.
  intros Hseen. unfold preflight, submit. assert (Hrefl : reads_only st st) by apply rtc_refl.
  destruct (request_principal s principal) as [p|status] eqn:Hp.
  2:{ intros [= <- <- <- <-] [= <- <- <- <-]. split_and!; [apply quiet_refl|done|done|done|eauto]. }
  assert (p = principal) as ->.
  { unfold request_principal in Hp. destruct (_ && _); [done|]. by injection Hp. }
  destruct (foreign_org principal (pb_org_id batch)) eqn:Hfo.
  { intros [= <- <- <- <-] [= <- <- <- <-]. split_and!; [apply quiet_refl|done|done|done|eauto]. }
  unfold preflight_batch. destruct (admit_batch s batch w st) as [w1|ack] eqn:Had.
  2:{ intros [= <- <- <- <-] [= <- <- <- <-]. split_and!; [apply quiet_refl|done|done|by left]. }
  apply admit_spec in Had as (Had & n & Hn & ->).
  unfold replay_ack. cbn [seen_batches put_permits]. rewrite Hseen. cbn [fmap option_fmap option_map].
  set (la := lru_get (ack_key batch) (seen_batches w)).
  pose proof (registered_source_acks s batch la (put_permits n w)) as Hacks.
  pose proof (registered_source_sources s batch (put_permits n w)) as (l & Hl & Hpeek).
  destruct (registered_source s batch (put_acks la (put_permits n w))) as [w2 rs2].
  destruct (registered_source s batch (put_permits n w)) as [w3 rs3]. simpl in Hacks, Hl, Hpeek. subst rs2 w3.
  assert (Hq : quiet w (release_permit (put_sources l (put_permits n w)))) by (by constructor).
  destruct rs3 as [source|ack].
  2:{ intros [= <- <- <- <-] [= <- <- <- <-]. split_and!; [exact Hq|done|done|by left]. }
  destruct (validate_batch s batch source principal amb st) as [[st1 ev] rv] eqn:Hv.
  pose proof (validate_batch_reads _ _ _ _ _ _ _ _ _ Hv) as Hreads.
  destruct rv as [[v|ack]|status].
  - apply validate_batch_sound in Hv as [Hsound _].
    destruct (commit_validated s batch source v amb w2 st1) as [[w4 st4] r4] eqn:Hc.
    intros [= <- <- <- <-] [= <- <- <- <-]. split_and!; [exact Hq|done|done|right].
    apply commit_validated_answers in Hc. cbv zeta in Hc. set (rows := materialize_commit_rows _ _ _ _ _) in Hc.
    assert (Hrows : rows_sound s batch source principal rows)
      by (by apply materialize_sound; [|apply embed_touched]).
    split; [done|]. split; [done|]. exists source, rows, w2, w4. split; [exact Hrows|].
    split; [|exact Hc]. rewrite (rw_accepted _ _ _ _ _ Hrows). simpl.
    rewrite (vs_count _ _ _ _ _ Hsound). by rewrite (Forall2_length _ _ _ (vs_rows _ _ _ _ _ Hsound)).
  - intros [= <- <- <- <-] [= <- <- <- <-]. split_and!; [exact Hq|done|done|by left].
  - intros [= <- <- <- <-] [= <- <- <- <-]. split_and!; [exact Hq|done|done|done|eauto].
Qed.
End submit.

(** ** Idempotence over the in-memory store *)

(** Two stores that differ at most in the counters of their reads. *)
Definition same_data (a b : Store) : Prop :=
  graph b = graph a ∧ ingest b = ingest a ∧ governed b = governed a ∧ journals b = journals a ∧
  lease_table b = lease_table a.

Section once.
Context `{Blake3, HashOrder, SerdeJson, Regex, FromTimestamp, Hmac, Chrono}.
Context `{Message PbIngestBatch batch_ok, Message PbMemoryDraft memory_draft_ok}.
Context `{Message PbRelationshipDraft relationship_draft_ok, Message PbSnapshotInfo snapshot_info_ok}.
Context `{Lsrc : Lru SourceKey SourceEntry, Lack : Lru SourceKey IngestAck}.
Context (o : Ontology) (recognized : list (list Z)).
#[local] Instance once_store : IngestStore Store := in_memory_ingest o recognized.

Lemma reads_same st st' : reads_only st st' → same_data st st'.
Proof.
  induction 1 as [|a b c [ids ->] _ IH]; [by split_and!|].
  unfold same_data. destruct IH as (-> & -> & -> & -> & ->). simpl.
  destruct (get_memories ids (reads a) (graph a)). by split_and!.
Qed.

Lemma attempts_once {T} n (call : Store → Store * result T StorageError) st st' v :
  (∀ st1 e, call st = (st1, Err e) → transient e = true → st1 = st) →
  storage_attempts n call st = (st', Ok v) → call st = (st', Ok v).
Proof.
  intros Hdet. induction n as [|n IH]; simpl; [done|].
  destruct (call st) as [st1 [x|e]] eqn:E; [by intros [= -> ->]|].
  destruct (transient e && negb (Nat.eqb n 0)) eqn:Et; [|done].
  apply andb_true_iff in Et as [Et _]. rewrite (Hdet st1 e eq_refl Et). by intros Hn%IH.
Qed.

Lemma commit_transient clk key ms rs n eff st st' e :
  is_commit clk key ms rs n eff st = (st', Err e) → transient e = true → st' = st.
Proof.
  destruct st as [g R T IS d J]. simpl. unfold commit_ingest_batch_with_effect. cbn [ingest graph].
  destruct (fail_next_ingest_commit IS).
  { intros [= <- <-]. by vm_compute. }
  unfold commit_ingest_locked. destruct (settled_ingest IS !! key); [done|].
  destruct (match ingest_effects IS !! effect_id eff with Some _ => _ | None => _ end); [by intros [= <- _]|].
  destruct (upsert_batch_locked o clk ms rs g) as [g' [[records invs]|e']] eqn:E; [done|].
  apply upsert_batch_locked_err in E as ->. by intros [= <- _].
Qed.

(** What the durable commit answers. *)
Lemma commit_rows_settled batch rows clk st st2 res :
  commit_rows batch rows clk st = (st2, res) →
  match res with
  | Err _ => settled_ingest (ingest st) !! batch_key batch = None ∨ fail_next_ingest_commit (ingest st) = true
  | Ok (Ok (lsn, n)) => n = c_accepted rows ∧ settled_ingest (ingest st) !! batch_key batch = None ∧
      settled_ingest (ingest st2) !! batch_key batch = Some (mkSettled n 0 lsn)
  | Ok (Err ack) => same_data st st2 ∧ ∃ settled, settled_ingest (ingest st) !! batch_key batch = Some settled ∧
      ia_accepted ack = accepted settled ∧ ia_assigned_lsn ack = assigned_lsn settled ∧
      rejections ack = [replay_row]
  end.
Proof.
  unfold commit_rows. set (key := batch_key batch). set (eff := post_ingest_effect batch rows key).
  destruct (storage_retry _ st) as [st1 [out|status]] eqn:Hr.
  - apply attempts_once in Hr; [|intros; by eapply commit_transient].
    destruct st as [g R T IS d J]. simpl in Hr. unfold commit_ingest_batch_with_effect in Hr. cbn [ingest graph] in Hr.
    destruct (fail_next_ingest_commit IS); [done|]. unfold commit_ingest_locked in Hr.
    destruct (settled_ingest IS !! key) as [settled|] eqn:Hset.
    + injection Hr as <- <-. intros [= <- <-]. split; [by split_and!|]. by exists settled.
    + destruct (match ingest_effects IS !! effect_id eff with Some _ => _ | None => _ end); [done|].
      destruct (upsert_batch_locked o clk _ _ g) as [g' [[records invs]|e']]; [|done].
      injection Hr as <- <-. intros [= <- <-]. split; [done|]. split; [done|]. simpl.
      by rewrite (proj1 (set_effects_fields _ _)), (proj1 (set_settled_fields _ _)), lookup_insert_eq.
  - intros [= <- <-]. destruct (settled_ingest (ingest st) !! key) as [settled|] eqn:Hset; [|by left].
    right. destruct st as [g R T IS d J]. simpl in Hset. simpl.
    destruct (fail_next_ingest_commit IS) eqn:Hf; [done|]. exfalso.
    unfold storage_retry, MAX_ATTEMPTS in Hr. cbn [storage_attempts] in Hr. revert Hr. simpl.
    unfold commit_ingest_batch_with_effect. rewrite Hf. unfold commit_ingest_locked. by rewrite Hset.
Qed.

(** A settled batch is never committed again. *)
Lemma submit_settled s principal batch amb w (st : Store) settled w' st' events r :
  settled_ingest (ingest st) !! batch_key batch = Some settled →
  fail_next_ingest_commit (ingest st) = false →
  submit s principal batch amb w st = (w', st', events, r) →
  same_data st st' ∧ ∀ ack, r = Ok ack → ia_accepted ack = 0 ∨
    (rejections ack = [replay_row] ∧
     ((ia_accepted ack = accepted settled ∧ ia_assigned_lsn ack = assigned_lsn settled) ∨
      ∃ old, lru_peek (ack_key batch) (seen_batches w) = Some old ∧
        ia_accepted ack = ia_accepted old ∧ ia_assigned_lsn ack = ia_assigned_lsn old)).
Proof.
  intros Hset Hf [(Hq & Hr & Hack)|Hc]%submit_cases.
  - split; [by apply reads_same|]. intros ack E. destruct (Hack ack E) as [?|(old & ? & ? & ? & ?)]; [by left|].
    right. split; [done|right]. by exists old.
  - destruct Hc as (source & rows & w1 & st1 & _ & _ & _ & _ & _ & Hr & _ & Hc).
    apply reads_same in Hr as (E1 & E2 & E3 & E4 & E5).
    destruct (commit_rows batch rows _ st1) as [st2 res] eqn:Hcr.
    apply commit_rows_settled in Hcr. destruct Hc as (w2 & Ha & _).
    destruct res as [[[lsn n]|ack]|status]; simpl in Ha.
    + destruct Hcr as (_ & Hn & _). congruence.
    + destruct Hcr as ((D1 & D2 & D3 & D4 & D5) & settled' & Hs' & A1 & A2 & A3). destruct Ha as (-> & -> & _).
      rewrite E2, Hset in Hs'. injection Hs' as <-.
      split; [split_and!; congruence|]. intros ack' [= <-]. right. split; [done|left]. done.
    + exfalso. rewrite E2, Hset, Hf in Hcr. by destruct Hcr.
Qed.

Lemma seed_ingest s org rows amb w (st : Store) :
  ingest (seed_similarity_edges s org rows amb w st) = ingest st.
Proof.
  unfold seed_similarity_edges. destruct (kind_id _ _); [|done]. destruct (forallb _ _); [done|].
  destruct (seed_edges _ _ _ _ _) as [|e l]; [done|]. simpl. by destruct (upsert_batch o _ _ _ _).
Qed.

End once.
