(* ===== verification/RingSpec.v ===== *)
(** * What the ingest service remembers

    The bounds of the recent ring and of the snapshot histories, the rewind verdict, what a hint
    discloses, the region deltas of a commit's effect, and the reindex. *)

From stdpp Require Import pretty strings.
From S2P Require Import Prelude Ids Kernel Packs Ontology StorageTypes Wire Entities IngestTypes Grouping.
From S2P Require Import IngestService IngestCommit IngestSpec CommitSpec SubmitSpec.

(** ** Bounds *)

Lemma length_keep_newest {A} n (l : list A) : (length (keep_newest n l) ≤ n)%nat.
Proof. unfold keep_newest. rewrite length_drop. lia. Qed.

Lemma length_push_snapshot id history :
  (length history ≤ 16)%nat → (length (push_snapshot id history) ≤ 16)%nat.
Proof.
  intros Hl. unfold push_snapshot. case_bool_decide; [done|]. rewrite length_app. simpl.
  destruct (Nat.ltb_spec 16 (length history + 1)); [|by rewrite length_app; simpl].
  destruct history; simpl in *; [lia|]. rewrite length_app. simpl. lia.
Qed.

Lemma last_push_snapshot id history : last (push_snapshot id history) = Some id.
Proof.
  unfold push_snapshot. case_bool_decide as E; [done|].
  destruct (16 <? length (history ++ [id]))%nat eqn:El; [|apply last_snoc].
  destruct history as [|x history]; [done|]. simpl. apply last_snoc.
Qed.

Section memory.
Context `{Blake3, HashOrder, SerdeJson, Regex, FromTimestamp, Hmac}.
Context `{Message PbIngestBatch batch_ok, Message PbMemoryDraft memory_draft_ok}.
Context `{Message PbRelationshipDraft relationship_draft_ok, Message PbSnapshotInfo snapshot_info_ok}.
Context `{Lsrc : Lru SourceKey SourceEntry, Lack : Lru SourceKey IngestAck}.
Context {S : Type} `{IngestStore S}.
Implicit Types (s : IngestServer) (w : Shared) (st : S) (batch : PbIngestBatch).

(** A server's memory is bounded. *)
Definition remembered w : Prop :=
  (length (recent w) ≤ RECENT_RING_LEN)%nat ∧
  map_Forall (λ _ history, (length history ≤ 16)%nat) (seen_snapshots w).

Lemma finish_commit_remembered batch rows lsn n w :
  remembered w → remembered (finish_commit batch rows lsn n w).1.
Proof.
  intros [Hr Hs]. unfold finish_commit. simpl. split; [apply length_keep_newest|].
  destruct (pb_snapshot batch) as [snapshot|]; [|exact Hs]. simpl.
  apply map_Forall_insert_2; [|exact Hs]. apply length_push_snapshot.
  destruct (seen_snapshots w !! source_key batch) as [history|] eqn:E; simpl; [|lia]. by apply Hs in E.
Qed.

Lemma quiet_remembered w w' : quiet w w' → remembered w → remembered w'.
Proof. intros [Hr Hs _ _ _] [? ?]. split; by rewrite ?Hr, ?Hs. Qed.

(** What a server remembers stays bounded through every submission: at most 512 recent embeddings, and
    at most sixteen snapshots a source; the permits in use are all returned, and the newest snapshot of
    a committed batch is the newest of its source's history. *)
Theorem submit_bounded s principal batch amb w st w' st' events r :
  submit s principal batch amb w st = (w', st', events, r) → remembered w →
  remembered w' ∧ submit_permits w' = submit_permits w ∧
  ∀ ack snapshot, r = Ok ack → 0 < ia_accepted ack → rejections ack = [] → pb_snapshot batch = Some snapshot →
    seen_snapshots w' !! source_key batch ≫= last = Some (si_snapshot_id snapshot).
Proof.
  intros [(Hq & _ & Hack)|Hc]%submit_cases Hw.
  - split; [by eapply quiet_remembered|]. split; [by apply q_permits|].
    intros ack snapshot Hr Hpos Hrej. destruct (Hack ack Hr) as [?|(old & _ & _ & _ & E)]; [lia|congruence].
  - destruct Hc as (source & rows & w1 & st1 & _ & _ & _ & _ & _ & _ & Hq & Hc).
    destruct (commit_rows batch rows _ st1) as [st2 res] eqn:Hcr. destruct Hc as (w2 & Ha & ->).
    pose proof (quiet_remembered _ _ Hq Hw) as Hw1. pose proof (q_permits _ _ Hq) as Hp. simpl in Hp.
    destruct res as [[[lsn n]|a]|status]; simpl in Ha.
    + destruct Ha as (_ & ack & -> & _ & ->).
      assert (Hf : remembered (finish_commit batch rows lsn n w1).1) by (by apply finish_commit_remembered).
      split; [done|]. split.
      { simpl. by destruct (pb_snapshot batch). }
      intros ack' snapshot _ _ _ Hsn. unfold finish_commit. rewrite Hsn. simpl.
      rewrite lookup_insert_eq. simpl. apply last_push_snapshot.
    + destruct Ha as (_ & -> & ->). split; [done|]. split; [done|].
      intros ack snapshot [= <-] _ Hrej. unfold commit_rows in Hcr.
      destruct (storage_retry _ _) as [st3 [[|]|]]; simplify_eq/=.
    + destruct Ha as (_ & -> & ->). by split_and!.
Qed.

(** The declared projection governs a submission: a batch of a projected source is let through only with
    at most the declared rows, and a snapshot only with the registered schema and when it is the newest
    seen or one not seen among the last sixteen. *)
Theorem projection_enforced s batch w w' source projection :
  registered_source s batch w = (w', Ok source) → se_projection source = Some projection →
  (0 < sp_max_rows_per_window projection →
     Z.of_nat (length (pb_memories batch)) ≤ sp_max_rows_per_window projection) ∧
  ∀ snapshot, pb_snapshot batch = Some snapshot →
    eq_ignore_ascii_case (hex (si_schema_hash snapshot)) (sp_schema_hash projection) = true ∧
    ∀ history newest, seen_snapshots w !! source_key batch = Some history → last history = Some newest →
      si_snapshot_id snapshot = newest ∨ si_snapshot_id snapshot ∉ history.
Proof.
  intros (-> & _ & _ & _ & Hc)%registered_source_ok Hp. unfold check_projection in Hc. rewrite Hp in Hc.
  destruct ((0 <? _) && _) eqn:Eb; [done|]. split.
  { intros Hpos. apply andb_false_iff in Eb as [?%Z.ltb_ge|?%Z.ltb_ge]; lia. }
  intros snapshot Hsn. rewrite Hsn in Hc. unfold check_snapshot in Hc.
  destruct (eq_ignore_ascii_case _ _); [|done]. simpl in Hc. split; [done|].
  intros history newest Hh Hl. rewrite Hh in Hc. simpl in Hc. rewrite Hl in Hc.
  destruct (String.eqb_spec (si_snapshot_id snapshot) newest) as [E|E]; [by left|right]. simpl in Hc.
  destruct (existsb _ _) eqn:Ex; [done|]. rewrite ?Hh in Ex. intros Hin.
  assert (existsb (String.eqb (si_snapshot_id snapshot)) history = true) as Hc'; [|congruence].
  apply existsb_exists. exists (si_snapshot_id snapshot). split; [by apply list_elem_of_In|apply String.eqb_refl].
Qed.

(** ** Hints *)

Lemma best_entry_fold org ctx emb ring best c e :
  foldl (best_entry org ctx emb) best ring = Some (c, e) →
  best = Some (c, e) ∨ (e ∈ ring ∧ re_org e = org ∧ comparable (re_embedding e) emb = true ∧
    hint_visible e ctx = true ∧ c = cosine (emb_vector emb) (emb_vector (re_embedding e)) ∧
    SFleb SIMILAR_HINT_THRESHOLD c = true).
Proof.
  revert best. induction ring as [|x ring IH]; intros best; cbn [foldl]; [by left|].
  intros [E|(He & Hrest)]%IH; [|right; split; [by right|done]].
  unfold best_entry in E.
  destruct (String.eqb_spec (re_org x) org) as [Eo|]; [|by left].
  destruct (comparable (re_embedding x) emb) eqn:Ec; [|by left].
  destruct (hint_visible x ctx) eqn:Ev; [|by left]. cbn [negb orb] in E.
  destruct (SFleb SIMILAR_HINT_THRESHOLD (cosine (emb_vector emb) (emb_vector (re_embedding x)))) eqn:Et; [|by left].
  destruct (match best with Some _ => _ | None => _ end) in E; [|by left].
  injection E as <- <-. right. split_and!; [by left|done..].
Qed.

(** A memory whose row the ring holds. *)
Definition ringed w org e : Prop := e ∈ recent w ∧ re_org e = org.

Lemma hint_from_ring org w c h :
  hint_for org (recent w) c = Some h → ∃ e, ringed w org e ∧ hint_visible e (context c.2) = true ∧
    sh_draft_key h = c.1 ∧ existing_memory_id h = hex (mid_bytes (re_id e)) ∧ existing_title h = re_title e ∧
    suggestion h = suggestion_for c.2 e.
Proof.
  unfold hint_for. intros (emb & _ & ([best e] & Hf & [= <-])%bind_Some)%bind_Some.
  apply best_entry_fold in Hf as [?|(He & Ho & _ & Hv & _)]; [done|]. exists e. by split_and!.
Qed.

(** A hint discloses only the title of a row the ring holds for the organization, and of one the
    submitter may read: provided the scope written into the draft is the principal's own, and the row is
    within the principal's organization and ceiling. *)
Theorem hints_readable org w committed w' hints h p :
  similar_to_hints org committed w = (w', hints) → h ∈ hints →
  ∃ e m, ringed w org e ∧ existing_title h = re_title e ∧ (sh_draft_key h, m) ∈ committed ∧
    ∀ row, ring_entry org row = Some e →
      user_id (context m) = Some (vc_user_id p) →
      (∀ x, project_id (context m) = Some x → x ∈ project_ids p) →
      (∀ x, team_id (context m) = Some x → x ∈ team_ids p) →
      tenant_id (context row) = Some (vc_org_id p) →
      vis_u8 (effective (m_visibility row)) ≤ vis_u8 (max_visibility p) →
      memory_visible row p = true.
Proof.
  intros [= <- <-] Hh. apply list_elem_of_omap in Hh as ([k m] & Hin & Hf).
  apply hint_from_ring in Hf as (e & He & Hv & Hk & _ & Ht & _). simpl in Hk, Hv.
  exists e, m. split; [done|]. split; [done|]. split; [by rewrite Hk|].
  intros row (emb & _ & [= <-])%bind_Some Hu Hpr Hte Hten Hmax. unfold hint_visible in Hv. simpl in Hv.
  unfold memory_visible. rewrite bool_decide_eq_true_2 by done. simpl.
  destruct (Z.ltb_spec (vis_u8 (max_visibility p)) (vis_u8 (effective (m_visibility row)))); [lia|].
  destruct (m_visibility row); simpl; [| | |done..].
  - apply andb_true_iff in Hv as [_ Hv%bool_decide_eq_true]. apply bool_decide_eq_true. congruence.
  - destruct (project_id (context row)) as [x|]; [|done]. apply bool_decide_eq_true in Hv.
    unfold project_granted. apply existsb_exists. exists x. split; [by apply list_elem_of_In, Hpr|].
    by rewrite String.eqb_refl.
  - destruct (team_id (context row)) as [x|]; [|done]. apply bool_decide_eq_true in Hv.
    apply bool_decide_eq_true. by apply Hte.
Qed.

(** The proviso matters: the project of a draft that is not itself project-scoped is not checked against
    the principal's memberships, yet a hint trusts it.  A principal of no project may claim any project
    with a private draft, and is shown the titles of that project's rows. *)
Lemma hint_discloses_unread s batch project row e org p ctx :
  personal_scopes s = false → requested_project batch = Some project →
  vis_u8 Private ≤ vis_u8 (max_visibility p) → project_ids p = [] →
  m_visibility row = Project → project_id (context row) = Some project → ring_entry org row = Some e →
  draft_scope s batch Private (Some p) =
    Ok (Some (vc_org_id p), Some (vc_user_id p), Some project, requested_team batch) ∧
  (project_id ctx = Some project → hint_visible e ctx = true) ∧ memory_visible row p = false.
Proof.
  intros Hper Hreq Hmax Hids Hv Hp (emb & _ & [= <-])%bind_Some. split_and!.
  - unfold draft_scope. destruct (Z.ltb_spec (vis_u8 (max_visibility p)) (vis_u8 Private)); [lia|].
    by rewrite Hper, Hreq.
  - intros Hc. unfold hint_visible. simpl. rewrite Hv, Hp. by apply bool_decide_eq_true.
  - unfold memory_visible. destruct (negb _); [done|]. rewrite Hv. simpl.
    destruct (_ <? _); [done|]. by rewrite Hp, Hids.
Qed.

(** ** The effect of a commit *)

(** The memories of a region, and the region of the last memory with an identity. *)
Definition region_members batch (ms : list Memory) (region : RegionKey) : list Memory :=
  List.filter (λ m, bool_decide (region_of batch m = region)) ms.
Definition home_region batch (ms : list Memory) (id : MemoryId) : option RegionKey :=
  region_of batch <$> find_last (λ m, bool_decide (m_id m = id)) ms.

Lemma home_region_fold batch ms id :
  foldl (λ m memory, <[m_id memory := region_of batch memory]> m) (∅ : gmap MemoryId RegionKey) ms !! id
  = home_region batch ms id.
Proof.
  unfold home_region. induction ms as [|m ms IH] using rev_ind; [done|].
  rewrite foldl_app, find_last_snoc. simpl. case_bool_decide as E.
  - by rewrite E, lookup_insert_eq.
  - by rewrite lookup_insert_ne.
Qed.

Lemma count_memories_spec batch ms acc region :
  let c := default (0, 0) (acc !! region) in
  let n := Z.of_nat (length (region_members batch ms region)) in
  let acc' := foldl (count_memory batch) acc ms in
  default (0, 0) (acc' !! region) = (c.1 + n, c.2) ∧
  (is_Some (acc' !! region) ↔ is_Some (acc !! region) ∨ 0 < n).
Proof.
  revert acc. induction ms as [|m ms IH]; intros acc; cbn [foldl].
  { unfold region_members. simpl. rewrite Z.add_0_r. split; [by destruct (default _ _)|].
    split; [by left|intros [?|?]; [done|lia]]. }
  destruct (IH (count_memory batch acc m)) as [IH1 IH2]. cbv zeta in *. rewrite IH1, IH2. clear IH IH1 IH2.
  unfold region_members. cbn [List.filter]. unfold count_memory.
  destruct (default (0, 0) (acc !! region_of batch m)) as [a b] eqn:E. case_bool_decide as Er.
  - rewrite <-Er. rewrite lookup_insert_eq. rewrite E. cbn [from_option id fst snd length].
    split; [apply (f_equal (λ z, (z, b))); lia|].
    split; [intros _; right; lia|intros _; left; eauto].
  - by rewrite lookup_insert_ne.
Qed.

Lemma count_relationships_spec (home : gmap MemoryId RegionKey) rs acc region :
  (∀ id r, home !! id = Some r → is_Some (acc !! r)) →
  let c := default (0, 0) (acc !! region) in
  let n := Z.of_nat (length (List.filter (λ r, bool_decide (home !! r_from r = Some region)) rs)) in
  let acc' := foldl (count_relationship home) acc rs in
  default (0, 0) (acc' !! region) = (c.1, c.2 + n) ∧ (is_Some (acc' !! region) ↔ is_Some (acc !! region)).
Proof.
  revert acc. induction rs as [|r rs IH]; intros acc Hhome; cbn [foldl].
  { simpl. split; [by destruct (default _ _); simpl; rewrite Z.add_0_r|done]. }
  assert (Hstep : ∀ k, is_Some (acc !! k) → is_Some (count_relationship home acc r !! k)).
  { intros k Hk. unfold count_relationship. destruct (home !! r_from r) as [h|]; [|done].
    destruct (default _ _) as [a b]. destruct (decide (h = k)) as [-> |]; [rewrite lookup_insert_eq; eauto|].
    by rewrite lookup_insert_ne. }
  destruct (IH (count_relationship home acc r)) as [IH1 IH2]; [intros; eauto|].
  cbv zeta in *. rewrite IH1, IH2. clear IH IH1 IH2 Hstep. cbn [List.filter]. unfold count_relationship.
  destruct (home !! r_from r) as [h|] eqn:Eh; [|done].
  destruct (default (0, 0) (acc !! h)) as [a b] eqn:E. case_bool_decide as Er.
  - injection Er as ->. rewrite lookup_insert_eq, E. cbn [from_option id fst snd length].
    split; [apply (f_equal (pair a)); lia|].
    split; [intros _; by eapply Hhome|eauto].
  - rewrite lookup_insert_ne by congruence. done.
Qed.

(** The effect of a commit counts exactly: per region of the batch's memories, in order, the memories in
    it and the edges that start at one, and no other region; and it lists the memories of a session. *)
Theorem region_deltas_exact batch rows key :
  let effect := post_ingest_effect batch rows key in
  let ms := producer_memories rows in
  StronglySorted (λ x y, compare_region (rd_region x) (rd_region y) = Lt) (region_deltas effect) ∧
  (∀ region a b, mkIngestRegionDelta region a b ∈ region_deltas effect ↔
     a = Z.of_nat (length (region_members batch ms region)) ∧ 0 < a ∧
     b = Z.of_nat (length (List.filter (λ r, bool_decide (home_region batch ms (r_from r) = Some region))
                                       (c_relationships rows)))) ∧
  (session_memory_ids effect ≠ [] → session_memory_ids effect = m_id <$> ms ∧
     String.prefix "session://" (pb_source_uri batch) = true).
Proof.
  cbv zeta. split; [|split].
  - simpl. apply sort_by_key_strict.
    { unfold compare_region. apply compare_on_comparable; [|apply _]. by intros [] [] [= -> -> ->]. }
    rewrite <-list_fmap_compose.
    assert (Hd : NoDup (hash_iter (region_counts batch rows)).*1)
      by (rewrite hash_iter_perm; apply NoDup_fst_map_to_list).
    erewrite list_fmap_ext; [exact Hd|]. by intros _ [region [a b]] _.
  - intros region a b. simpl. rewrite merge_sort_Permutation, list_elem_of_fmap.
    set (home := foldl (λ m memory, <[m_id memory := region_of batch memory]> m) (∅ : gmap MemoryId RegionKey)
                   (producer_memories rows)).
    assert (Hhome : ∀ id, home !! id = home_region batch (producer_memories rows) id) by apply home_region_fold.
    destruct (count_memories_spec batch (producer_memories rows) ∅ region) as [C1 C2]. cbv zeta in C1, C2.
    rewrite lookup_empty in C1, C2. simpl in C1.
    destruct (count_relationships_spec home (c_relationships rows)
                (foldl (count_memory batch) ∅ (producer_memories rows)) region) as [D1 D2].
    { intros id r Hr. rewrite Hhome in Hr. unfold home_region in Hr.
      apply fmap_Some in Hr as (m & Hm & ->). apply find_last_Some in Hm.
      apply (count_memories_spec batch (producer_memories rows) ∅ (region_of batch m)). right.
      destruct Hm as [Hm _]. apply list_elem_of_split in Hm as (l1 & l2 & ->).
      unfold region_members. rewrite List.filter_app, length_app. cbn [List.filter].
      rewrite bool_decide_eq_true_2 by done. simpl. lia. }
    cbv zeta in D1, D2. rewrite C1 in D1. rewrite C2 in D2. simpl in D1.
    assert (Hf : length (List.filter (λ r, bool_decide (home !! r_from r = Some region)) (c_relationships rows)) =
                 length (List.filter (λ r, bool_decide (home_region batch (producer_memories rows) (r_from r) = Some region))
                           (c_relationships rows))) by (f_equal; apply List.filter_ext; intros r; by rewrite Hhome).
    rewrite Hf in D1. change (foldl (count_relationship home) _ _) with (region_counts batch rows) in D1, D2.
    split.
    + intros ([r [a' b']] & [= -> -> ->] & Hin%elem_of_hash_iter). rewrite Hin in D1, D2.
      simpl in D1. injection D1 as -> ->. split; [lia|]. split; [|done].
      destruct (proj1 D2) as [[? ?]|Hn]; [eauto|done|]. lia.
    + intros (-> & Hpos & ->). destruct (proj2 D2) as [[a b] Hx]; [by right|].
      exists (region, (a, b)). rewrite Hx in D1. simpl in D1. injection D1 as -> ->.
      split; [f_equal; lia|]. by apply elem_of_hash_iter.
  - simpl. destruct (String.prefix _ _); [done|]. by intros [].
Qed.

(** ** The reindex *)

Lemma stamp_touched model ms vectors : Forall2 touched ms (stamp model ms vectors).
Proof.
  revert vectors. induction ms as [|m ms IH]; intros [|v vectors]; simpl; [done..| |].
  - apply (Forall_Forall2_diag touched (m :: ms)), Forall_true, touched_refl.
  - constructor; [apply touched_embedding|apply IH].
Qed.

Lemma stamp_confidence model ms vectors i m m0 :
  ms !! i = Some m0 → stamp model ms vectors !! i = Some m → confidence m = confidence m0.
Proof.
  revert i vectors. induction ms as [|x ms IH]; intros i [|v vectors] Hm0 Hm; simpl in *; simplify_eq; [done|].
  destruct i; simpl in *; simplify_eq/=; [by destruct m0|]. by eapply IH.
Qed.

Lemma still_current_spec rows st st' keep gone :
  still_current rows st = (st', (keep, gone)) →
  keep `sublist_of` rows ∧ Z.of_nat (length keep) + gone = Z.of_nat (length rows) ∧ 0 ≤ gone.
Proof.
  revert st st' keep gone. induction rows as [|row rows IH]; intros st st' keep gone; simpl.
  { intros [= <- <- <-]. by split_and!. }
  destruct (is_memory (m_id row) st) as [st1 read]. destruct (still_current rows st1) as [st2 [k g]] eqn:E.
  apply IH in E as (Hs & Hl & Hg).
  destruct (match read with Ok _ => _ | Err _ => _ end); intros [= <- <- <-]; simpl.
  - split_and!; [by apply sublist_skip|lia|done].
  - split_and!; [by apply sublist_cons|lia|lia].
Qed.

(** A chunk's numbers add up to the rows scanned, and it writes nothing but new vectors on scanned rows:
    either no commit is made, or one audited commit of scanned rows that differ from the scan in the
    vector only, whose number is the number reported, and of no edge. *)
Theorem reindex_chunk_exact s clk rows actor st st' e u p :
  reindex_chunk s clk rows actor st = (st', Ok (e, u, p)) →
  e + u + p = Z.of_nat (length rows) ∧ 0 ≤ e ∧ 0 ≤ u ∧ 0 ≤ p ∧
  ∃ st1 written, e = Z.of_nat (length written) ∧
    (∀ m, m ∈ written → ∃ m0, m0 ∈ rows ∧ touched m0 m ∧ confidence m = confidence m0) ∧
    (written = [] → st' = st1) ∧
    ∀ first rest, written = first :: rest →
      st' = (is_upsert_audited clk.2 written [] (reindex_audit s actor clk.1 first written st1) st1).1.
Proof.
  unfold reindex_chunk. destruct (embed_texts _ _) as [vectors|]; [|done].
  set (stamped := stamp_embeddings s rows vectors). set (pairs := zip stamped (embedding <$> rows)).
  assert (Hst : Forall2 touched rows stamped) by apply stamp_touched.
  assert (Hconf : ∀ m, m ∈ stamped → ∃ m0, m0 ∈ rows ∧ touched m0 m ∧ confidence m = confidence m0).
  { intros m Hm. apply list_elem_of_lookup in Hm as [i Hi].
    destruct (Forall2_lookup_r _ _ _ _ _ Hst Hi) as (m0 & Hm0 & Ht). exists m0.
    split; [by eapply list_elem_of_lookup_2|]. split; [done|].
    by eapply stamp_confidence. }
  assert (Hlen : length pairs = length rows).
  { unfold pairs. rewrite length_zip_with, length_fmap, <-(Forall2_length _ _ _ Hst). lia. }
  set (changed := (List.filter _ pairs).*1).
  assert (Hle : (length changed ≤ length pairs)%nat).
  { unfold changed. rewrite length_fmap. apply List.filter_length_le. }
  assert (Hin : ∀ m, m ∈ changed → m ∈ stamped).
  { intros m ([m' x] & -> & [Hm _]%list_elem_of_In%List.filter_In)%list_elem_of_fmap.
    apply list_elem_of_In in Hm. by apply elem_of_zip_l in Hm. }
  rewrite Hlen. destruct changed as [|c cs] eqn:Ec.
  { intros [= <- <- <- <-]. simpl. split; [lia|]. split_and!; [lia..|]. exists st, []. split; [done|].
    split; [by intros m ?%not_elem_of_nil|]. by split. }
  rewrite <-Ec in *. destruct (still_current changed st) as [st1 [keep gone]] eqn:Es.
  apply still_current_spec in Es as (Hs & Hl & Hg).
  destruct keep as [|first rest] eqn:Ek.
  { intros [= <- <- <- <-]. simpl in Hl. split_and!; [lia..|]. exists st1, []. split; [done|].
    split; [by intros m ?%not_elem_of_nil|]. by split. }
  destruct (is_upsert_audited _ _ _ _ _) as [st2 [records|error]] eqn:Eu; [|done].
  intros [= <- <- <- <-]. split_and!; [simpl in *; lia..|]. exists st1, (first :: rest).
  split; [done|]. split; [|split; [done|]].
  - intros m Hm. apply Hconf, Hin. by eapply elem_of_sublist.
  - intros f r [= <- <-]. by rewrite Eu.
Qed.
End memory.
