(* ===== verification/RegistrationSpec.v ===== *)
(** * What registration guarantees

    [register_source]: who may register, what a registration may change, what stays of an existing one,
    and that the registry and its file agree. *)

From stdpp Require Import pretty strings.
From S2P Require Import Prelude Ids Kernel Packs Ontology StorageTypes Wire Entities IngestTypes Grouping.
From S2P Require Import IngestService IngestSpec Registration.

Section spec.
Context `{Blake3, Sha256, Hmac, FromTimestamp, Message PbRegisterSource registration_ok}.
Context `{Lsrc : Lru SourceKey SourceEntry, Lack : Lru SourceKey IngestAck}.
Context {S : Type} `{IngestStore S}.
Implicit Types (s : IngestServer) (w : Shared) (st : S) (r : PbRegisterSource).

Definition request_key r : SourceKey := (rg_org_id r, rg_source_uri r, rg_producer_id r).

(** A request that passes the checks before the registry. *)
Record authorized s (principal : option VisibilityContext) r (requested : Visibility)
    (declared : ProducerKind) : Prop := {
  au_signed : ∃ key, producer_key s (rg_org_id r) (rg_source_uri r) (rg_producer_id r) = Ok key ∧
    verify_registration key r = true;
  au_guard guard : org_guard s = Some guard → rg_org_id r = guard;
  au_principal p : principal = Some p →
    vc_org_id p = rg_org_id r ∧ vis_u8 requested ≤ vis_u8 (max_visibility p);
  au_present : require_principal s = true → is_Some principal;
  au_healthy : source_registry_error s = None;
  au_requested : vis_from_i32 (rg_ceiling r) = Ok requested;
  au_kind : wire_kind_to_kernel (rg_producer_kind r) = Some declared ∧ declared ≠ Unspecified;
}.

Lemma registration_request_ok s principal r requested declared :
  registration_request s principal r = Ok (requested, declared) → authorized s principal r requested declared.
Proof.
  unfold registration_request. intros (p & Hp & (key & Hkey & Hr)%bind_ok)%bind_ok.
  assert (p = principal ∧ (require_principal s = true → is_Some principal)) as [-> Hpres].
  { unfold request_principal in Hp. destruct principal as [p0|].
    - rewrite bool_decide_eq_false_2, andb_false_r in Hp by done. injection Hp as <-. split; [done|eauto].
    - rewrite bool_decide_eq_true_2, andb_true_r in Hp by done.
      destruct (require_principal s); [done|]. by injection Hp as <-. }
  destruct (verify_registration key r) eqn:Hv; [|done]. cbn [negb] in Hr.
  destruct (match org_guard s with Some _ => _ | None => _ end) eqn:Hg; [done|].
  destruct (foreign_org principal (rg_org_id r)) eqn:Hf; [done|].
  case_bool_decide as He; [done|].
  destruct (vis_from_i32 (rg_ceiling r)) as [req|] eqn:Hreq; [|done].
  destruct (match principal with Some _ => _ | None => _ end) eqn:Hmax; [done|].
  apply bind_ok in Hr as (kind & Hkind%ok_or_ok & Hr).
  assert (kind ≠ Unspecified ∧ req = requested ∧ kind = declared) as (Hu & -> & ->) by (destruct kind; by simplify_eq).
  constructor.
  - eauto.
  - intros guard E. rewrite E in Hg. by apply negb_false_iff, String.eqb_eq in Hg.
  - intros p ->. split; [by apply negb_false_iff, String.eqb_eq in Hf|by apply Z.ltb_ge in Hmax].
  - done.
  - destruct (source_registry_error s); [by destruct He|done].
  - done.
  - done.
Qed.

(** A projection [new] may replace [old]: it is the same, or it is of a later mapping and keeps every
    column under its type. *)
Definition extends_projection (old new : StoredProjection) : Prop :=
  new = old ∨ (sp_mapping_version old < sp_mapping_version new ∧
    ∀ name ty, (name, ty) ∈ sp_columns old → ∃ c, List.find (λ c, String.eqb c.1 name) (sp_columns new) = Some c ∧
      c = (name, ty)).

Lemma check_columns_ok incoming previous :
  check_columns incoming previous = Ok tt → ∀ name ty, (name, ty) ∈ previous →
    ∃ c, List.find (λ c, String.eqb c.1 name) incoming = Some c ∧ c = (name, ty).
Proof.
  induction previous as [|[n t] previous IH]; simpl; [by intros _ ? ? ?%not_elem_of_nil|].
  destruct (List.find _ incoming) as [[n' t']|] eqn:Ef; [|done].
  destruct (String.eqb_spec t' t) as [->|]; [|done]. simpl. intros Hc name ty [[= -> ->]|Hin]%elem_of_cons.
  - exists (n', t). split; [done|]. apply List.find_some in Ef as [_ E%String.eqb_eq]. simpl in E. by subst.
  - by apply IH.
Qed.

Lemma stored_projection_ok flavor d previous p e :
  stored_projection flavor d previous = Ok (p, e) →
  (projection_required flavor = true → ∃ new, p = Some new ∧
     sp_schema_hash new = projection_schema_hash (sp_columns new) ∧
     (∀ f, f ∈ sp_fields new → ∃ ty, (f.1.1, ty) ∈ sp_columns new) ∧
     ∀ old, previous = Some old → extends_projection old new) ∧
  (projection_required flavor = false → p = None ∧ e = None) ∧
  (∀ new, e = Some new → p = Some new ∧ ∃ old, previous = Some old ∧ new ≠ old).
Proof.
  unfold stored_projection. destruct (projection_required flavor) eqn:Er; cbn [negb].
  2:{ by intros [= <- <-]. }
  destruct d as [d|]; [|done]. intros (incoming & Hi & Hr)%bind_ok.
  assert (Hin : sp_schema_hash incoming = projection_schema_hash (sp_columns incoming) ∧
    ∀ f, f ∈ sp_fields incoming → ∃ ty, (f.1.1, ty) ∈ sp_columns incoming).
  { unfold incoming_projection in Hi. destruct (forallb _ _) eqn:Ef; [|done]. simpl in Hi. injection Hi as <-.
    simpl. split; [done|]. intros f Hf. rewrite forallb_forall in Ef.
    specialize (Ef f (proj1 (list_elem_of_In _ _) Hf)). apply existsb_exists in Ef as ([n ty] & Hc & E%String.eqb_eq).
    simpl in E. subst n. exists ty. by apply list_elem_of_In. }
  destruct previous as [old|].
  - case_bool_decide as Eq.
    + injection Hr as <- <-. split; [|by split]. intros _. exists incoming. destruct Hin. split_and!; [done..|].
      intros old' [= <-]. by left.
    + destruct (Z.leb_spec (sp_mapping_version incoming) (sp_mapping_version old)); [done|].
      apply bind_ok in Hr as ([] & Hc & [= <- <-]). split; [|split; [done|]].
      * intros _. exists incoming. destruct Hin. split_and!; [done..|]. intros old' [= <-]. right.
        split; [done|]. by apply check_columns_ok.
      * intros new [= <-]. eauto.
  - injection Hr as <- <-. split; [|by split]. intros _. exists incoming. destruct Hin. by split_and!.
Qed.

(** What an entry may be, given the request and the existing entry. *)
Record entry_sound s r (existing : option SourceEntry) (requested : Visibility) (declared : ProducerKind)
    (e : SourceEntry) : Prop := {
  en_admin a : admin_policies s !! request_key r = Some a →
    se_ceiling e = ap_ceiling a ∧ vis_u8 requested ≤ vis_u8 (ap_ceiling a) ∧ se_kind e = ap_kind a;
  en_policy : require_admin_policy s = true → is_Some (admin_policies s !! request_key r);
  en_first old : existing = Some old → se_flavor e = se_flavor old ∧ se_default_rights e = se_default_rights old ∧
    (admin_policies s !! request_key r = None → se_ceiling e = se_ceiling old ∧ se_kind e = se_kind old);
  en_new : existing = None → se_flavor e = rg_source_flavor r ∧
    (admin_policies s !! request_key r = None → se_ceiling e = requested ∧ se_kind e = declared);
  en_projection : projection_required (se_flavor e) = true → ∃ new, se_projection e = Some new ∧
    sp_schema_hash new = projection_schema_hash (sp_columns new) ∧
    (∀ f, f ∈ sp_fields new → ∃ ty, (f.1.1, ty) ∈ sp_columns new) ∧
    ∀ old, existing ≫= se_projection = Some old → extends_projection old new;
}.

Lemma registered_entry_ok s r existing requested declared e ext :
  registered_entry s (request_key r) r existing requested declared = Ok (e, ext) →
  entry_sound s r existing requested declared e ∧
  (∀ new, ext = Some new → se_projection e = Some new ∧ ∃ old, existing ≫= se_projection = Some old ∧ new ≠ old).
Proof.
  unfold registered_entry. intros (ceiling & Hc & Hr)%bind_ok.
  destruct (match existing with Some _ => _ | None => _ end) eqn:Hfl in Hr; [done|].
  apply bind_ok in Hr as ([p ext'] & Hp & [= <- <-]).
  apply stored_projection_ok in Hp as (P1 & P2 & P3). unfold effective_ceiling in Hc.
  assert (Hflavor : ∀ old, existing = Some old → se_flavor old = rg_source_flavor r).
  { intros old ->. by apply negb_false_iff, String.eqb_eq in Hfl. }
  assert (Hf : match existing with Some e => se_flavor e | None => rg_source_flavor r end = rg_source_flavor r)
    by (destruct existing as [old|]; [by apply Hflavor|done]).
  split; [|done]. constructor; simpl; rewrite ?Hf.
  - intros a Ha. rewrite Ha in Hc. unfold effective_kind. rewrite Ha.
    destruct (Z.ltb_spec (vis_u8 (ap_ceiling a)) (vis_u8 requested)); [done|]. by injection Hc as <-.
  - intros Hreq. destruct (admin_policies s !! request_key r); [eauto|]. by rewrite Hreq in Hc.
  - intros old ->. split; [by rewrite (Hflavor old)|]. split; [done|]. intros Ha. rewrite Ha in Hc.
    unfold effective_kind. rewrite Ha. destruct (require_admin_policy s); [done|]. by injection Hc as <-.
  - intros ->. split; [done|]. intros Ha. rewrite Ha in Hc. unfold effective_kind. rewrite Ha.
    destruct (require_admin_policy s); [done|]. by injection Hc as <-.
  - intros Hreq. by apply P1.
Qed.

(** The registry file holds what the registry holds. *)
Definition disk_agrees (disk : Disk) w : Prop :=
  match disk with
  | None => True
  | Some rows => ∀ key e, (key, e) ∈ rows ↔ lru_peek key (sources w) = Some e
  end.


(** A restart reads back no source the file does not hold; a file that cannot be read or parsed shuts
    registration and submission. *)
Theorem restart_fails_closed file s w s' w' disk :
  with_sources_file file s w = (s', w', disk) → (∀ k, lru_peek k (sources w) = None) →
  (∀ k e, lru_peek k (sources w') = Some e → ∃ rows, file = Rows rows ∧ (k, e) ∈ rows) ∧
  (file = Malformed ∨ file = Unreadable →
     (∀ principal r requested declared, registration_request s' principal r ≠ Ok (requested, declared)) ∧
     ∀ batch w1, ∃ ack, registered_source s' batch w1 = (w1, Err ack)).
Proof.
  intros Hf Hempty. split.
  - intros k e Hk. destruct file as [|rows| |]; simplify_eq/=; try (by rewrite Hempty in Hk).
    exists rows. split; [done|]. revert Hk.
    assert (Hgen : ∀ (c : lru SourceKey SourceEntry),
      lru_peek k (foldl (λ c '(key, entry), lru_put key entry c) c rows) = Some e →
      lru_peek k c = Some e ∨ (k, e) ∈ rows).
    { induction rows as [|[k' e'] rows IH]; intros c; cbn [foldl]; [by left|].
      intros [Hk|Hk]%IH; [|by right; right]. destruct (decide (k = k')) as [->|Hne].
      - rewrite lru_peek_put in Hk. injection Hk as ->. right. by left.
      - destruct (lru_peek_put_ne k k' e' c Hne) as [E|E]; rewrite E in Hk; [by left|done]. }
    intros [Hk|?]%Hgen; [by rewrite Hempty in Hk|done].
  - intros Hbad. assert (∃ err, source_registry_error s' = Some err) as [err Herr].
    { destruct Hbad as [-> | ->]; simplify_eq/=; eauto. }
    split.
    + intros principal r requested declared [_ _ _ _ E _ _]%registration_request_ok. congruence.
    + intros batch w1. unfold registered_source. rewrite Herr. eauto.
Qed.

(** The manifest states a public ceiling as the organization's, which a batch of that source may not state. *)
Lemma manifest_ceiling_public s batch w source :
  lru_peek (source_key batch) (sources w) = Some source → se_ceiling source = Public →
  pb_ceiling batch = manifest_ceiling (se_ceiling source) → source_registry_error s = None →
  (registered_source s batch w).2 = Err (ack_reject_all batch UnknownSource "ceiling mismatch (R-I3)").
Proof.
  intros Hl Hp Hb He. unfold registered_source. rewrite He, Hl, Hb, Hp. simpl. by rewrite Hp.
Qed.
End spec.
