(* ===== verification/Split.v ===== *)
(** * Splitting a unit into batches

    [crates/exocortex-adapter-sdk/src/split.rs] and the data of [lib.rs] it works on: the structural
    checks of a unit, the union-find that welds the endpoints of every relationship into one component,
    and the packing of components into batches within the byte budget and the server's row ceilings.

    A panic of the source (indexing a map by an absent key) and an exhausted fuel are [None]; SplitSpec.v
    shows that neither happens. *)

From stdpp Require Import pretty strings.
From S2P Require Import Prelude Ids Kernel Wire Entities.

(** ** Data *)

(* SRC crates/exocortex-adapter-sdk/src/lib.rs 244-258 BatchUnit *)
Record BatchUnit := mkBatchUnit {
  batch_id_seed : string;
  bu_memories : list PbMemoryDraft;
  bu_relationships : list PbRelationshipDraft;
  bu_snapshot : option PbSnapshotInfo;
  bu_observed_at : Z;
}.

(** [ProjectionBoundExceeded] and [SourceRewound] under other names, since they are reject codes too. *)
(* SRC crates/exocortex-adapter-sdk/src/lib.rs 273-373 SdkError *)
Inductive SdkError :=
  | Transport (code : Z) (detail : string)
  | TransportConnect (detail : string)
  | RetriesExhausted (attempts : Z)
  | CeilingMismatch (configured registered : Z)
  | FingerprintDrift (expected got : list Z)
  | Unsplittable (draft_keys : list string) (bound : string)
  | ProjectionBoundHit (bound : string) (value declared : Z)
  | SourceWentBack (observed last : string)
  | InvalidUnit (detail : string)
  | LocalRejections (rejects : list (string * string * string))
  | Fatal (code : Z) (detail : string)
  | CursorIo (detail : string)
  | CursorCorrupt (detail : string).

(** A component: memories and the relationships between them. *)
Abbreviation Component := (list PbMemoryDraft * list PbRelationshipDraft)%type.

(** ** The checks of a unit *)

(** [{:?}] of printable ASCII text without quotes or backslashes, and of a slice of such. *)
Definition quote : string := string_of_bytes [34].
Definition debug_str (s : string) : string := quote +:+ s +:+ quote.
Definition debug_strs (l : list string) : string := "[" +:+ String.concat ", " (debug_str <$> l) +:+ "]".

(** The keys seen before. *)
Fixpoint duplicates (seen : list string) (ks : list string) : list string :=
  match ks with
  | [] => []
  | k :: ks => if bool_decide (k ∈ seen) then k :: duplicates seen ks else duplicates (k :: seen) ks
  end.

Definition dangling (keys : list string) (r : PbRelationshipDraft) : bool :=
  negb (bool_decide (pd_from_draft_key r ∈ keys)) || negb (bool_decide (pd_to_draft_key r ∈ keys)).
Definition unkeyed (m : PbMemoryDraft) : bool := bool_decide (pm_external_key m = None).

(* SRC crates/exocortex-adapter-sdk/src/split.rs 240-282 validate_unit *)
Definition validate_unit (unit : BatchUnit) : result () SdkError :=
  let keys := pm_draft_key <$> bu_memories unit in
  match duplicates [] keys with
  | _ :: _ as dups => Err (InvalidUnit ("duplicate draft_key(s): " +:+ debug_strs dups))
  | [] =>
  match List.find (dangling keys) (bu_relationships unit) with
  | Some r =>
      Err (InvalidUnit ("relationship " +:+ pd_from_draft_key r +:+ "->" +:+ pd_to_draft_key r
                        +:+ " references a draft_key not in this unit"))
  | None =>
  match bu_snapshot unit, List.find unkeyed (bu_memories unit) with
  | Some _, Some m =>
      Err (InvalidUnit ("snapshot unit memory " +:+ pm_draft_key m
                        +:+ " lacks an external_key (MISSING_EXTERNAL_KEY pre-empted)"))
  | _, _ => Ok tt
  end end end.

(** ** Union-find *)

Abbreviation Parents := (gmap string string).

(** The walk to the root, and the walk that points every key on the way at it. *)
Fixpoint walk_root (fuel : nat) (cur : string) (parent : Parents) : option string :=
  next ← parent !! cur;
  if String.eqb next cur then Some cur
  else match fuel with O => None | S fuel => walk_root fuel next parent end.
Fixpoint compress (fuel : nat) (walk root : string) (parent : Parents) : option Parents :=
  if String.eqb walk root then Some parent
  else match fuel with
       | O => None
       | S fuel => next ← parent !! walk; compress fuel next root (<[walk := root]> parent)
       end.

Definition find (k : string) (parent : Parents) : option (string * Parents) :=
  root ← walk_root (size parent) k parent;
  parent ← compress (size parent) k root parent;
  Some (root, parent).

(** A relationship welds its endpoints. *)
Definition weld (parent : Parents) (r : PbRelationshipDraft) : option Parents :=
  '(a, parent) ← find (pd_from_draft_key r) parent;
  '(b, parent) ← find (pd_to_draft_key r) parent;
  Some (if String.eqb a b then parent else <[a := b]> parent).

Fixpoint weld_all (parent : Parents) (rs : list PbRelationshipDraft) : option Parents :=
  match rs with
  | [] => Some parent
  | r :: rs => parent ← weld parent r; weld_all parent rs
  end.

Definition parents_of (ms : list PbMemoryDraft) : Parents :=
  list_to_map ((λ m, (pm_draft_key m, pm_draft_key m)) <$> reverse ms).

(** ** Components *)

Abbreviation Components := (gmap string Component).

Definition add_memory (root : string) (m : PbMemoryDraft) (cs : Components) : Components :=
  let '(ms, rs) := default ([], []) (cs !! root) in <[root := (ms ++ [m], rs)]> cs.
Definition add_edge (root : string) (r : PbRelationshipDraft) (cs : Components) : Components :=
  let '(ms, rs) := default ([], []) (cs !! root) in <[root := (ms, rs ++ [r])]> cs.

(** One loop over rows: each goes to the component of its key's root. *)
Fixpoint gather {R} (key : R → string) (add : string → R → Components → Components)
    (rows : list R) (parent : Parents) (cs : Components) : option (Parents * Components) :=
  match rows with
  | [] => Some (parent, cs)
  | row :: rows => '(root, parent) ← find (key row) parent; gather key add rows parent (add root row cs)
  end.

Definition components (unit : BatchUnit) : option (list Component) :=
  parent ← weld_all (parents_of (bu_memories unit)) (bu_relationships unit);
  '(parent, cs) ← gather pm_draft_key add_memory (bu_memories unit) parent ∅;
  '(_, cs) ← gather pd_from_draft_key add_edge (bu_relationships unit) parent cs;
  Some (snd <$> btree_iter (compare_on as_bytes compare_bytes) cs).

(** ** Batches *)

(* SRC crates/exocortex-adapter-sdk/src/split.rs 322-328 system_ts *)
Definition system_ts (t : Z) : PbTimestamp :=
  if t <? 0 then mkTimestamp 0 0 else mkTimestamp (t / 10 ^ 9) (t `mod` 10 ^ 9).

Abbreviation compare_str := (compare_on as_bytes compare_bytes).
Definition by_draft_key : PbMemoryDraft → PbMemoryDraft → Prop := le_of (compare_on pm_draft_key compare_str).
Definition by_endpoints : PbRelationshipDraft → PbRelationshipDraft → Prop :=
  le_of (compare_on (λ r, (pd_from_draft_key r, (pd_to_draft_key r, pd_kind r)))
           (compare_lex compare_str (compare_lex compare_str compare_str))).
#[global] Instance by_draft_key_dec : RelDecision by_draft_key.
Proof. unfold by_draft_key. apply _. Defined.
#[global] Instance by_endpoints_dec : RelDecision by_endpoints.
Proof. unfold by_endpoints. apply _. Defined.

Section split.
Context `{Blake3, Message PbIngestBatch batch_ok, Message PbMemoryDraft memory_draft_ok}.
Context `{Message PbRelationshipDraft relationship_draft_ok, Message PbSnapshotInfo snapshot_info_ok}.

Definition encoded_len (b : PbIngestBatch) : Z := Z.of_nat (length (encode_to_vec b)).

Definition no_producer : PbProducer := mkPbProducer "" "" "" [] None.

(** The batch of some rows; its id names their checksum. *)
Definition batch_of (producer_id : string) (unit : BatchUnit) (index : Z) (ms : list PbMemoryDraft)
    (rs : list PbRelationshipDraft) : PbIngestBatch :=
  let ms := merge_sort by_draft_key ms in
  let rs := merge_sort by_endpoints rs in
  let content := canonical_checksum
    (mkPbIngestBatch "" "" producer_id "" "" [] 0 "" None None (bu_snapshot unit) ms rs None) in
  mkPbIngestBatch "" "" producer_id
    (producer_id +:+ ":" +:+ batch_id_seed unit +:+ ":" +:+ pretty index +:+ ":" +:+ content)
    "" [] 0 "" (Some (system_ts (bu_observed_at unit))) None (bu_snapshot unit) ms rs (Some no_producer).

Record Packing := mkPacking {
  out : list PbIngestBatch;
  pending : list Component;
  pending_bytes : Z;
  pending_memories : Z;
  pending_edges : Z;
  index : Z;
}.

Definition flush (producer_id : string) (unit : BatchUnit) (p : Packing) : Packing :=
  match pending p with
  | [] => p
  | comps =>
      mkPacking (out p ++ [batch_of producer_id unit (index p) (comps ≫= fst) (comps ≫= snd)]) []
        (pending_bytes p) (pending_memories p) (pending_edges p) (as_u32 (index p + 1))
  end.

Definition zeros (n : nat) : list Z := replicate n 0.

(* SRC crates/exocortex-adapter-sdk/src/split.rs 284-320 component_bytes *)
Definition component_bytes (producer_id : string) (unit : BatchUnit) (comp : Component) (index : Z) : Z :=
  encoded_len (mkPbIngestBatch "" "" producer_id
    (producer_id +:+ ":" +:+ batch_id_seed unit +:+ ":" +:+ pretty index) "" (zeros 32) 3
    (string_of_bytes (replicate 64 48)) (Some (system_ts (bu_observed_at unit))) None (bu_snapshot unit)
    (merge_sort by_draft_key comp.1) comp.2 (Some (mkPbProducer "n" "" "" (zeros 32) None))).

Definition draft_keys (ms : list PbMemoryDraft) : list string := pm_draft_key <$> ms.
Definition sorted_keys (ms : list PbMemoryDraft) : list string := merge_sort (le_of compare_str) (draft_keys ms).

(** The loop over the components. *)
Definition pack (producer_id : string) (unit : BatchUnit) (max_batch_bytes : Z) (p : Packing) (comp : Component)
    : result Packing SdkError :=
  let bytes := component_bytes producer_id unit comp (index p) in
  let n := Z.of_nat (length comp.1) in
  let e := Z.of_nat (length comp.2) in
  if MAX_MEMORIES_PER_BATCH <? n then Err (Unsplittable (sorted_keys comp.1) "max_memories_per_batch")
  else if MAX_EDGES_PER_BATCH <? e then Err (Unsplittable (sorted_keys comp.1) "max_edges_per_batch")
  else if max_batch_bytes <? bytes then
    Err (Unsplittable
      (if (n =? 1) && (e =? 0) && bool_decide (pending p = []) && bool_decide (out p = [])
       then draft_keys comp.1
       else if negb (e =? 0) then sorted_keys comp.1 else draft_keys comp.1) "max_batch_bytes")
  else
    let overflows := (max_batch_bytes <? pending_bytes p + bytes)
                     || (MAX_MEMORIES_PER_BATCH <? pending_memories p + n)
                     || (MAX_EDGES_PER_BATCH <? pending_edges p + e) in
    let p := if overflows && negb (bool_decide (pending p = []))
             then let p := flush producer_id unit p in mkPacking (out p) (pending p) 0 0 0 (index p)
             else p in
    Ok (mkPacking (out p) (pending p ++ [comp]) (pending_bytes p + bytes) (pending_memories p + n)
          (pending_edges p + e) (index p)).

Fixpoint pack_all (producer_id : string) (unit : BatchUnit) (max_batch_bytes : Z) (p : Packing)
    (comps : list Component) : result Packing SdkError :=
  match comps with
  | [] => Ok (flush producer_id unit p)
  | comp :: comps => let? p := pack producer_id unit max_batch_bytes p comp in
                     pack_all producer_id unit max_batch_bytes p comps
  end.

(** The last loop: the checksum, and the size of the batch as it stands. *)
Fixpoint seal (max_batch_bytes : Z) (bs : list PbIngestBatch) : result (list PbIngestBatch) SdkError :=
  match bs with
  | [] => Ok []
  | b :: bs =>
      let b := with_checksum (canonical_checksum b) b in
      if max_batch_bytes <? encoded_len b then Err (Unsplittable (sorted_keys (pb_memories b)) "max_batch_bytes")
      else let? bs := seal max_batch_bytes bs in Ok (b :: bs)
  end.

(* SRC crates/exocortex-adapter-sdk/src/split.rs 16-238 split_unit *)
Definition split_unit (producer_id : string) (unit : BatchUnit) (max_batch_bytes : Z)
    : option (result (list PbIngestBatch) SdkError) :=
  match validate_unit unit with
  | Err e => Some (Err e)
  | Ok _ =>
      comps ← components unit;
      Some (let? p := pack_all producer_id unit max_batch_bytes (mkPacking [] [] 0 0 0 0) comps in
            seal max_batch_bytes (out p))
  end.
End split.
