(* ===== verification/SplitSpec.v ===== *)
(** * What splitting promises

    [split_unit] never panics and ends; what it returns holds every row of the unit exactly once, keeps
    every relationship with its endpoints, and stays within the byte budget and the row ceilings. *)

From stdpp Require Import pretty strings.
From S2P Require Import Prelude Ids Kernel Wire Entities Split.

(** ** Forests

    Every parent is a key, and a key that is not its own parent ranks below its parent. *)
Definition forest (rank : string → nat) (parent : Parents) : Prop :=
  ∀ k p, parent !! k = Some p → is_Some (parent !! p) ∧ (p = k ∨ (rank k < rank p)%nat).

(** The root a key walks to. *)
Inductive root_of (parent : Parents) : string → string → Prop :=
  | root_here k : parent !! k = Some k → root_of parent k k
  | root_up k p r : parent !! k = Some p → p ≠ k → root_of parent p r → root_of parent k r.

Lemma root_of_fixed parent k r : root_of parent k r → parent !! r = Some r.
Proof. by induction 1. Qed.

Lemma root_of_det parent k r r' : root_of parent k r → root_of parent k r' → r = r'.
Proof. intros Hr. revert r'. induction Hr; inversion 1; simplify_eq; auto. Qed.

Lemma root_of_rank rank parent k r : forest rank parent → root_of parent k r → r = k ∨ (rank k < rank r)%nat.
Proof.
  intros Hf. induction 1 as [|k p r Hp Hne Hr IH]; [by left|]. right. apply Hf in Hp as [_ [?|Hlt]]; [done|].
  destruct IH as [->|]; lia.
Qed.

(** The keys above a key. *)
Definition above (rank : string → nat) (parent : Parents) (k : string) : gset string :=
  filter (λ k', (rank k < rank k')%nat) (dom parent).

Lemma above_up rank parent k p : is_Some (parent !! p) → (rank k < rank p)%nat →
  (size (above rank parent p) < size (above rank parent k))%nat.
Proof.
  intros Hp Hlt. apply subset_size, strict_spec_alt. split.
  - intros x. unfold above. rewrite !elem_of_filter. intros [? ?]. split; [lia|done].
  - intros E. assert (p ∈ above rank parent k) as Hin by (apply elem_of_filter; split; [done|by apply elem_of_dom]).
    rewrite <-E in Hin. apply elem_of_filter in Hin as [? _]. lia.
Qed.

Lemma above_size rank parent k : (size (above rank parent k) ≤ size parent)%nat.
Proof. rewrite <-(size_dom parent). apply subseteq_size. unfold above. set_solver. Qed.

Lemma walk_root_forest rank fuel parent k :
  forest rank parent → is_Some (parent !! k) → (size (above rank parent k) ≤ fuel)%nat →
  ∃ r, walk_root fuel k parent = Some r ∧ root_of parent k r.
Proof.
  intros Hf. revert k. induction fuel as [|fuel IH]; intros k [p Hp] Hl; simpl; rewrite Hp; simpl;
    (destruct (String.eqb_spec p k) as [->|Hne]; [exists k; split; [done|by constructor]|]);
    pose proof (Hf _ _ Hp) as [Hs [?|Hlt]]; try done; pose proof (above_up rank parent k p Hs Hlt).
  - lia.
  - destruct (IH p Hs) as (r & Hw & Hr); [lia|]. exists r. split; [done|by eapply root_up].
Qed.

Lemma root_of_compressed parent k r k' r' : root_of parent k r → root_of parent k' r' →
  root_of (<[k := r]> parent) k' r'.
Proof.
  intros Hk. induction 1 as [k' Hk'|k' p r' Hp Hne Hroot IH].
  - destruct (decide (k = k')) as [->|].
    + assert (r = k') as -> by (eapply root_of_det; [exact Hk|by constructor]).
      constructor. apply lookup_insert_eq.
    + constructor. by rewrite lookup_insert_ne.
  - destruct (decide (k = k')) as [->|].
    + assert (r = r') as -> by (eapply root_of_det; [exact Hk|by eapply root_up]).
      destruct (decide (r' = k')) as [->|]; [constructor; apply lookup_insert_eq|].
      eapply root_up; [apply lookup_insert_eq|done|]. constructor. rewrite lookup_insert_ne by done.
      by apply root_of_fixed in Hroot.
    + eapply root_up; [by rewrite lookup_insert_ne|done|done].
Qed.

Lemma is_Some_insert (parent : Parents) k r x : is_Some (parent !! x) → is_Some (<[k := r]> parent !! x).
Proof. intros Hx. destruct (decide (k = x)) as [->|]; [rewrite lookup_insert_eq; eauto|by rewrite lookup_insert_ne]. Qed.

Lemma forest_compressed rank parent k r : forest rank parent → root_of parent k r → forest rank (<[k := r]> parent).
Proof.
  intros Hf Hr k' p. destruct (decide (k = k')) as [<-|].
  - rewrite lookup_insert_eq. intros [= <-]. split; [apply is_Some_insert; rewrite (root_of_fixed _ _ _ Hr); eauto|].
    by eapply root_of_rank.
  - rewrite lookup_insert_ne by done. intros Hp%Hf. destruct Hp. split; [by apply is_Some_insert|done].
Qed.

(** Two parent maps with the same keys and roots. *)
Record same_roots (p p' : Parents) : Prop := {
  sr_dom : dom p' = dom p;
  sr_root k r : root_of p k r → root_of p' k r;
}.
#[export] Instance same_roots_preorder : PreOrder same_roots.
Proof. split; [by intros p; constructor|]. intros p q s [E1 H1] [E2 H2]. constructor; [congruence|eauto]. Qed.

Lemma compress_forest rank fuel parent k r :
  forest rank parent → root_of parent k r → (size (above rank parent k) ≤ fuel)%nat →
  ∃ parent', compress fuel k r parent = Some parent' ∧ forest rank parent' ∧ same_roots parent parent'.
Proof.
  revert parent k. induction fuel as [|fuel IH]; intros parent k Hf Hr Hl; simpl;
    (destruct (String.eqb_spec k r) as [->|Hne]; [exists parent; split_and!; done|]);
    inversion Hr as [? Hk|? p ? Hp Hpk Hroot]; subst; try done; pose proof (Hf _ _ Hp) as [Hs [?|Hlt]]; try done;
    pose proof (above_up rank parent k p Hs Hlt); [lia|]. rewrite Hp. simpl.
  assert (Hd : dom (<[k := r]> parent) = dom parent).
  { rewrite dom_insert_L. apply subseteq_union_1_L, singleton_subseteq_l, elem_of_dom. eauto. }
  destruct (IH (<[k := r]> parent) p) as (parent' & Hc & Hf' & Hs').
  - by apply forest_compressed.
  - by apply root_of_compressed.
  - unfold above in *. rewrite Hd. lia.
  - exists parent'. split_and!; [done..|]. etrans; [|exact Hs']. constructor; [done|].
    intros k' r'. by apply root_of_compressed.
Qed.

(** A walk in a forest ends at the root and keeps every root. *)
Lemma find_forest rank parent k : forest rank parent → is_Some (parent !! k) →
  ∃ r parent', find k parent = Some (r, parent') ∧ root_of parent k r ∧ forest rank parent' ∧ same_roots parent parent'.
Proof.
  intros Hf Hk. pose proof (above_size rank parent k) as Hl.
  destruct (walk_root_forest rank (size parent) parent k Hf Hk Hl) as (r & Hw & Hr).
  destruct (compress_forest rank (size parent) parent k r Hf Hr Hl) as (parent' & Hc & Hf' & Hs).
  exists r, parent'. unfold find. rewrite Hw. simpl. rewrite Hc. by split_and!.
Qed.

(** Joining two roots: what had the first now has the second. *)
Lemma root_of_join parent a b k r : parent !! a = Some a → parent !! b = Some b → a ≠ b → root_of parent k r →
  root_of (<[a := b]> parent) k (if decide (r = a) then b else r).
Proof.
  intros Ha Hb Hab. induction 1 as [k Hk|k p r Hp Hne Hroot IH].
  - case_decide as E; [subst|constructor; by rewrite lookup_insert_ne].
    eapply root_up; [apply lookup_insert_eq|done|]. constructor. by rewrite lookup_insert_ne.
  - eapply root_up; [|done|exact IH]. rewrite lookup_insert_ne; [done|]. intros ->. congruence.
Qed.

Lemma forest_join rank parent a b : forest rank parent → parent !! a = Some a → parent !! b = Some b → a ≠ b →
  forest (λ k, if decide (k = b) then rank a + rank b + 1 else rank k)%nat (<[a := b]> parent).
Proof.
  intros Hf Ha Hb Hab k p. destruct (decide (a = k)) as [<-|].
  - rewrite lookup_insert_eq. intros [= <-]. split; [apply is_Some_insert; eauto|]. right.
    rewrite decide_False, decide_True by done. lia.
  - rewrite lookup_insert_ne by done. intros Hp. pose proof (Hf _ _ Hp) as [Hs [->|Hlt]].
    + split; [by apply is_Some_insert|by left].
    + split; [by apply is_Some_insert|right]. destruct (decide (k = b)) as [->|]; [|case_decide; subst; lia].
      assert (p = b) as -> by congruence. lia.
Qed.

(** ** Welding *)

(** What the parent map of a unit keeps: its keys, and joined endpoints stay joined. *)
Definition joined (parent : Parents) (x y : string) : Prop := ∃ r, root_of parent x r ∧ root_of parent y r.

Record grown (p p' : Parents) : Prop := {
  gr_dom : dom p' = dom p;
  gr_joined x y : joined p x y → joined p' x y;
}.
#[export] Instance grown_preorder : PreOrder grown.
Proof. split; [by intros p; constructor|]. intros p q s [E1 H1] [E2 H2]. constructor; [congruence|eauto]. Qed.
Lemma same_roots_grown p p' : same_roots p p' → grown p p'.
Proof. intros [E H]. constructor; [done|]. intros x y (r & ? & ?). exists r. eauto. Qed.

Lemma weld_forest rank parent r :
  forest rank parent → pd_from_draft_key r ∈ dom parent → pd_to_draft_key r ∈ dom parent →
  ∃ rank' parent', weld parent r = Some parent' ∧ forest rank' parent' ∧ grown parent parent' ∧
    joined parent' (pd_from_draft_key r) (pd_to_draft_key r).
Proof.
  intros Hf Hx Hy. unfold weld.
  destruct (find_forest rank parent (pd_from_draft_key r) Hf) as (a & p1 & -> & Ha & Hf1 & H1); [by apply elem_of_dom|].
  destruct (find_forest rank p1 (pd_to_draft_key r) Hf1) as (b & p2 & E2 & Hb & Hf2 & H2).
  { apply elem_of_dom. by rewrite (sr_dom _ _ H1). }
  simpl. rewrite E2. simpl. pose proof (sr_root _ _ H2 _ _ (sr_root _ _ H1 _ _ Ha)) as Ha2.
  pose proof (sr_root _ _ H2 _ _ Hb) as Hb2.
  assert (Hg : grown parent p2) by (etrans; by apply same_roots_grown).
  destruct (String.eqb_spec a b) as [<-|Hab].
  { exists rank, p2. split_and!; [done..|]. by exists a. }
  pose proof (root_of_fixed _ _ _ Ha2) as Fa. pose proof (root_of_fixed _ _ _ Hb2) as Fb.
  eexists _, (<[a := b]> p2). split_and!; [done|by apply (forest_join rank)| |].
  - etrans; [exact Hg|]. constructor.
    + rewrite dom_insert_L. apply subseteq_union_1_L, singleton_subseteq_l, elem_of_dom. eauto.
    + intros x y (c & Hc1 & Hc2). eexists. split; by apply root_of_join.
  - exists b. split.
    + pose proof (root_of_join _ a b _ _ Fa Fb Hab Ha2) as Hj. by rewrite decide_True in Hj.
    + pose proof (root_of_join _ a b _ _ Fa Fb Hab Hb2) as Hj. by rewrite decide_False in Hj.
Qed.

Lemma weld_all_forest rs : ∀ rank parent, forest rank parent →
  (∀ r, r ∈ rs → pd_from_draft_key r ∈ dom parent ∧ pd_to_draft_key r ∈ dom parent) →
  ∃ rank' parent', weld_all parent rs = Some parent' ∧ forest rank' parent' ∧ grown parent parent' ∧
    ∀ r, r ∈ rs → joined parent' (pd_from_draft_key r) (pd_to_draft_key r).
Proof.
  induction rs as [|r rs IH]; intros rank parent Hf Hin; simpl.
  { exists rank, parent. split_and!; [done..|]. by intros r ?%elem_of_nil. }
  destruct (Hin r) as [Hx Hy]; [left|].
  destruct (weld_forest rank parent r Hf Hx Hy) as (rank1 & p1 & -> & Hf1 & Hg1 & Hj1). simpl.
  destruct (IH rank1 p1 Hf1) as (rank2 & p2 & Hw & Hf2 & Hg2 & Hj2).
  { intros r' Hr'. rewrite (gr_dom _ _ Hg1). apply Hin. by right. }
  exists rank2, p2. split_and!; [done|done|by etrans|].
  intros r' [->|Hr']%elem_of_cons; [by apply (gr_joined _ _ Hg2)|by apply Hj2].
Qed.

Lemma parents_of_lookup ms k : k ∈ pm_draft_key <$> ms → parents_of ms !! k = Some k.
Proof.
  intros (m & -> & Hm)%list_elem_of_fmap. unfold parents_of.
  assert (∀ k p, (list_to_map ((λ m, (pm_draft_key m, pm_draft_key m)) <$> reverse ms) : Parents) !! k = Some p → p = k) as Hid.
  { intros k p Hp%elem_of_list_to_map_2. apply list_elem_of_fmap in Hp as (? & [= -> ->] & _). done. }
  destruct (_ !! pm_draft_key m) as [p|] eqn:E; [by rewrite (Hid _ _ E)|].
  apply not_elem_of_list_to_map_2 in E as []. apply list_elem_of_fmap. exists (pm_draft_key m, pm_draft_key m).
  split; [done|]. apply list_elem_of_fmap. exists m. split; [done|]. by apply elem_of_reverse.
Qed.

Lemma parents_of_forest ms : forest (λ _, 0%nat) (parents_of ms) ∧ dom (parents_of ms) = list_to_set (pm_draft_key <$> ms).
Proof.
  assert (Hid : ∀ k p, parents_of ms !! k = Some p → p = k ∧ k ∈ pm_draft_key <$> ms).
  { intros k p Hp%elem_of_list_to_map_2. apply list_elem_of_fmap in Hp as (m & [= -> ->] & Hm).
    split; [done|]. apply list_elem_of_fmap. exists m. split; [done|]. by rewrite elem_of_reverse in Hm. }
  split.
  - intros k p Hp. pose proof (Hid _ _ Hp) as [-> Hk]. split; [eauto|by left].
  - apply set_eq. intros k. rewrite elem_of_dom, elem_of_list_to_set. split; [by intros [p [_ Hp]%Hid]|].
    intros Hk%parents_of_lookup. eauto.
Qed.

(** ** Components *)

Definition root_fn (parent : Parents) (k : string) : string := default k (walk_root (size parent) k parent).

Lemma root_fn_spec rank parent k : forest rank parent → k ∈ dom parent → root_of parent k (root_fn parent k).
Proof.
  intros Hf Hk%elem_of_dom.
  destruct (walk_root_forest rank (size parent) parent k Hf Hk (above_size rank parent k)) as (r & Hw & Hr).
  unfold root_fn. by rewrite Hw.
Qed.

Lemma foldl_ext_in {A B} (f g : A → B → A) l : ∀ x,
  (∀ x y, y ∈ l → f x y = g x y) → foldl f x l = foldl g x l.
Proof.
  induction l as [|y l IH]; intros x Hfg; simpl; [done|].
  rewrite Hfg by left. apply IH. intros x' y' Hy. apply Hfg. by right.
Qed.

(** What a key is gathered under never changes. *)
Lemma gather_spec {R} (key : R → string) (add : string → R → Components → Components) rank rows :
  ∀ parent cs, forest rank parent → (∀ row, row ∈ rows → key row ∈ dom parent) →
  ∃ parent', gather key add rows parent cs
      = Some (parent', foldl (λ cs row, add (root_fn parent (key row)) row cs) cs rows) ∧
    forest rank parent' ∧ same_roots parent parent'.
Proof.
  induction rows as [|row rows IH]; intros parent cs Hf Hin; simpl; [by exists parent|].
  assert (Hk : key row ∈ dom parent) by (apply Hin; left).
  destruct (find_forest rank parent (key row) Hf) as (r & p1 & -> & Hr & Hf1 & H1); [by apply elem_of_dom|]. simpl.
  assert (r = root_fn parent (key row)) as -> by (eapply root_of_det; [exact Hr|by eapply root_fn_spec]).
  destruct (IH p1 (add (root_fn parent (key row)) row cs) Hf1) as (p2 & Hg & Hf2 & H2).
  { intros row' Hrow'. rewrite (sr_dom _ _ H1). apply Hin. by right. }
  exists p2. split_and!; [|done|by etrans]. rewrite Hg. f_equal. f_equal.
  apply foldl_ext_in. intros acc x Hx. f_equal.
  eapply root_of_det; [eapply root_fn_spec; [exact Hf1|]|].
  - rewrite (sr_dom _ _ H1). apply Hin. by right.
  - apply (sr_root _ _ H1). eapply root_fn_spec; [exact Hf|]. apply Hin. by right.
Qed.

Definition comp_at (cs : Components) (k : string) : Component := default ([], []) (cs !! k).

Lemma fold_memories (f : PbMemoryDraft → string) ms : ∀ cs, let cs' := foldl (λ cs m, add_memory (f m) m cs) cs ms in
  (∀ k, comp_at cs' k = ((comp_at cs k).1 ++ filter (λ m, f m = k) ms, (comp_at cs k).2)) ∧
  dom cs' = dom cs ∪ list_to_set (f <$> ms).
Proof.
  induction ms as [|m ms IH]; intros cs; simpl.
  { split; [intros k; rewrite app_nil_r; by destruct (comp_at cs k)|set_solver]. }
  destruct (IH (add_memory (f m) m cs)) as [Hc Hd]. split.
  - intros k. rewrite Hc. clear Hc Hd IH. unfold add_memory, comp_at. destruct (decide (f m = k)) as [<-|Hne].
    + rewrite filter_cons_True by done. destruct (cs !! f m) as [[ms0 rs0]|]; simpl;
        rewrite lookup_insert_eq; simpl; [by rewrite <-(assoc_L (++))|done].
    + rewrite filter_cons_False by done. destruct (default ([], []) (cs !! f m)) as [ms0 rs0].
      by rewrite lookup_insert_ne.
  - rewrite Hd. unfold add_memory. destruct (default ([], []) (cs !! f m)) as [ms0 rs0].
    rewrite dom_insert_L. set_solver.
Qed.

Lemma fold_edges (f : PbRelationshipDraft → string) rs : ∀ cs, let cs' := foldl (λ cs r, add_edge (f r) r cs) cs rs in
  (∀ k, comp_at cs' k = ((comp_at cs k).1, (comp_at cs k).2 ++ filter (λ r, f r = k) rs)) ∧
  dom cs' = dom cs ∪ list_to_set (f <$> rs).
Proof.
  induction rs as [|r rs IH]; intros cs; simpl.
  { split; [intros k; rewrite app_nil_r; by destruct (comp_at cs k)|set_solver]. }
  destruct (IH (add_edge (f r) r cs)) as [Hc Hd]. split.
  - intros k. rewrite Hc. clear Hc Hd IH. unfold add_edge, comp_at. destruct (decide (f r = k)) as [<-|Hne].
    + rewrite filter_cons_True by done. destruct (cs !! f r) as [[ms0 rs0]|]; simpl;
        rewrite lookup_insert_eq; simpl; [by rewrite <-(assoc_L (++))|done].
    + rewrite filter_cons_False by done. destruct (default ([], []) (cs !! f r)) as [ms0 rs0].
      by rewrite lookup_insert_ne.
  - rewrite Hd. unfold add_edge. destruct (default ([], []) (cs !! f r)) as [ms0 rs0].
    rewrite dom_insert_L. set_solver.
Qed.

(** A list taken apart by a key and put together again. *)
Lemma partition_by {A} (f : A → string) (l : list A) ks : NoDup ks → (∀ x, x ∈ l → f x ∈ ks) →
  ks ≫= (λ k, filter (λ x, f x = k) l) ≡ₚ l.
Proof.
  intros Hn. induction l as [|x l IH]; intros Hin.
  - clear. by induction ks.
  - assert (Hx : f x ∈ ks) by (apply Hin; left). apply list_elem_of_split in Hx as (k1 & k2 & ->).
    apply NoDup_app in Hn as Hn'. destruct Hn' as (_ & H1 & H2). apply NoDup_cons in H2 as [H2 _].
    assert (Hskip : ∀ ks', (∀ k, k ∈ ks' → k ≠ f x) →
      ks' ≫= (λ k, filter (λ y, f y = k) (x :: l)) = ks' ≫= (λ k, filter (λ y, f y = k) l)).
    { intros ks' Hk. induction ks' as [|k ks' IHk]; [done|]. simpl.
      rewrite filter_cons_False; [|intros <-; by apply (Hk (f x)); [left|]]. f_equal. apply IHk. intros k' ?. apply Hk. by right. }
    rewrite <-IH by (intros y Hy; apply Hin; by right). rewrite !bind_app. csimpl.
    rewrite (Hskip k1), (Hskip k2), filter_cons_True by (done || (intros k Hk ->; by apply H2) || (intros k Hk ->; eapply H1; [done|left])).
    simpl. solve_Permutation.
Qed.

(** The components hold the rows of the unit, and each relationship with its endpoints. *)
Definition closed_comp (c : Component) : Prop :=
  ∀ r, r ∈ c.2 → pd_from_draft_key r ∈ draft_keys c.1 ∧ pd_to_draft_key r ∈ draft_keys c.1.

Lemma components_spec unit :
  (∀ r, r ∈ bu_relationships unit → pd_from_draft_key r ∈ draft_keys (bu_memories unit) ∧
                                    pd_to_draft_key r ∈ draft_keys (bu_memories unit)) →
  ∃ comps, components unit = Some comps ∧ comps ≫= fst ≡ₚ bu_memories unit ∧
    comps ≫= snd ≡ₚ bu_relationships unit ∧ Forall closed_comp comps.
Proof.
  intros Hends. unfold components. destruct (parents_of_forest (bu_memories unit)) as [Hf0 Hd0].
  destruct (weld_all_forest (bu_relationships unit) _ _ Hf0) as (rank & p1 & -> & Hf1 & Hg1 & Hj1).
  { intros r Hr%Hends. rewrite Hd0, !elem_of_list_to_set. exact Hr. }
  simpl. pose proof (gr_dom _ _ Hg1) as Hd1. rewrite Hd0 in Hd1.
  assert (Hkm : ∀ m, m ∈ bu_memories unit → pm_draft_key m ∈ dom p1).
  { intros m Hm. rewrite Hd1, elem_of_list_to_set. apply list_elem_of_fmap. eauto. }
  assert (Hkr : ∀ r, r ∈ bu_relationships unit → pd_from_draft_key r ∈ dom p1 ∧ pd_to_draft_key r ∈ dom p1).
  { intros r Hr%Hends. rewrite Hd1, !elem_of_list_to_set. exact Hr. }
  destruct (gather_spec pm_draft_key add_memory rank (bu_memories unit) p1 ∅ Hf1 Hkm) as (p2 & -> & Hf2 & H2). simpl.
  destruct (gather_spec pd_from_draft_key add_edge rank (bu_relationships unit) p2
    (foldl (λ cs m, add_memory (root_fn p1 (pm_draft_key m)) m cs) ∅ (bu_memories unit)) Hf2) as (p3 & -> & _ & _).
  { intros r Hr. rewrite (sr_dom _ _ H2). by apply Hkr. }
  simpl. set (fm := λ m, root_fn p1 (pm_draft_key m)). set (fr := λ r, root_fn p2 (pd_from_draft_key r)).
  set (cs1 := foldl _ ∅ _). set (cs := foldl _ cs1 _).
  destruct (fold_memories fm (bu_memories unit) ∅) as [Hc1 Hdc1].
  change (dom cs1 = dom (∅ : Components) ∪ list_to_set (fm <$> bu_memories unit)) in Hdc1.
  destruct (fold_edges fr (bu_relationships unit) cs1) as [Hc2 Hdc2].
  change (dom cs = dom cs1 ∪ list_to_set (fr <$> bu_relationships unit)) in Hdc2.
  assert (Hfr : ∀ r, r ∈ bu_relationships unit → ∃ m, m ∈ bu_memories unit ∧ pm_draft_key m = pd_from_draft_key r ∧
    fm m = fr r ∧ ∃ m', m' ∈ bu_memories unit ∧ pm_draft_key m' = pd_to_draft_key r ∧ fm m' = fr r).
  { intros r Hr. destruct (Hends r Hr) as [(m & Em & Hm)%list_elem_of_fmap (m' & Em' & Hm')%list_elem_of_fmap].
    destruct (Hkr r Hr) as [Hx Hy]. destruct (Hj1 r Hr) as (c & Ha & Hb).
    assert (fr r = c) as Efr.
    { eapply root_of_det; [eapply (root_fn_spec rank); [done|by rewrite (sr_dom _ _ H2)]|by apply (sr_root _ _ H2)]. }
    exists m. split_and!; [done|done| |].
    - rewrite Efr. unfold fm. rewrite <-Em. eapply root_of_det; [by eapply root_fn_spec|done].
    - exists m'. split_and!; [done|done|]. rewrite Efr. unfold fm. rewrite <-Em'.
      eapply root_of_det; [by eapply root_fn_spec|done]. }
  set (items := btree_iter compare_str cs).
  assert (Hitems : ∀ k c, (k, c) ∈ items ↔ cs !! k = Some c).
  { intros k c. unfold items. rewrite btree_iter_perm. apply elem_of_map_to_list. }
  assert (Hn : NoDup items.*1) by apply list_to_map_btree.
  assert (Hval : ∀ k c, (k, c) ∈ items →
    c = (filter (λ m, fm m = k) (bu_memories unit), filter (λ r, fr r = k) (bu_relationships unit))).
  { intros k c Hkc%Hitems. assert (comp_at cs k = c) as Ecc. { unfold comp_at. by rewrite Hkc. } rewrite <-Ecc.
    rewrite Hc2, Hc1. unfold comp_at. by rewrite lookup_empty. }
  assert (Hdom : ∀ k, k ∈ items.*1 ↔ k ∈ dom cs).
  { intros k. rewrite elem_of_dom, list_elem_of_fmap. split.
    - intros ([k' c] & -> & Hkc%Hitems). eauto.
    - intros [c Hc]. exists (k, c). split; [done|]. by apply Hitems. }
  assert (Hcat : ∀ {X} (g : Component → list X) (h : string → list X),
    (∀ k c, (k, c) ∈ items → g c = h k) → items.*2 ≫= g = items.*1 ≫= h).
  { intros X g h Hgh. clear -Hgh. induction items as [|[k c] it IH]; [done|]. csimpl. rewrite (Hgh k c) by left.
    f_equal. apply IH. intros k' c' ?. apply Hgh. by right. }
  exists (snd <$> items). split_and!; [done| | |].
  - rewrite (Hcat _ fst (λ k, filter (λ m, fm m = k) (bu_memories unit))) by (by intros k c ->%Hval).
    apply partition_by; [done|]. intros m Hm. apply Hdom. rewrite Hdc2, Hdc1.
    apply elem_of_union_l, elem_of_union_r, elem_of_list_to_set, list_elem_of_fmap. eauto.
  - rewrite (Hcat _ snd (λ k, filter (λ r, fr r = k) (bu_relationships unit))) by (by intros k c ->%Hval).
    apply partition_by; [done|]. intros r Hr. apply Hdom. rewrite Hdc2.
    apply elem_of_union_r, elem_of_list_to_set, list_elem_of_fmap. eauto.
  - apply Forall_forall. intros c ([k c'] & -> & Hc)%list_elem_of_fmap. simpl. rewrite (Hval _ _ Hc).
    intros r [Er Hr]%list_elem_of_filter. simpl.
    destruct (Hfr r Hr) as (m & Hm & Em & Fm & m' & Hm' & Em' & Fm').
    split; apply list_elem_of_fmap; [exists m|exists m']; (split; [congruence|]);
      apply list_elem_of_filter; split; congruence.
Qed.

(** ** The checks of a unit *)

Lemma duplicates_nil seen ks : duplicates seen ks = [] → NoDup ks ∧ ∀ k, k ∈ ks → k ∉ seen.
Proof.
  revert seen. induction ks as [|k ks IH]; intros seen; simpl; [split; [constructor|by intros ? ?%elem_of_nil]|].
  case_bool_decide as Hk; [done|]. intros [Hn Hs]%IH. split.
  - constructor; [|done]. intros Hin. apply (Hs k Hin). by left.
  - intros k' [->|Hin]%elem_of_cons; [done|]. intros Hc. apply (Hs k' Hin). by right.
Qed.

Lemma find_none {A} (f : A → bool) l : List.find f l = None → ∀ x, x ∈ l → f x = false.
Proof. intros Hf x Hx. eapply List.find_none; [done|by apply list_elem_of_In]. Qed.

(** A unit the checks let through. *)
Record unit_ok (unit : BatchUnit) : Prop := {
  uo_keys : NoDup (draft_keys (bu_memories unit));
  uo_ends r : r ∈ bu_relationships unit →
    pd_from_draft_key r ∈ draft_keys (bu_memories unit) ∧ pd_to_draft_key r ∈ draft_keys (bu_memories unit);
  uo_external m : bu_snapshot unit ≠ None → m ∈ bu_memories unit → pm_external_key m ≠ None;
}.

Lemma validate_unit_ok unit : validate_unit unit = Ok tt → unit_ok unit.
Proof.
  unfold validate_unit. destruct (duplicates [] _) as [|d ds] eqn:Ed; [|done].
  destruct (List.find (dangling _) _) as [r|] eqn:Er; [done|].
  intros Hs. constructor.
  - by apply duplicates_nil in Ed as [? _].
  - intros r Hr. pose proof (find_none _ _ Er r Hr) as Hd. unfold dangling in Hd.
    apply orb_false_iff in Hd as [H1 H2]. by apply negb_false_iff, bool_decide_eq_true in H1, H2.
  - intros m Hsnap Hm. destruct (bu_snapshot unit); [|done].
    destruct (List.find unkeyed (bu_memories unit)) eqn:Ef; [done|].
    pose proof (find_none _ _ Ef m Hm) as Hu. by apply bool_decide_eq_false in Hu.
Qed.

(** ** Packing *)

Section packing.
Context `{Blake3, Message PbIngestBatch batch_ok, Message PbMemoryDraft memory_draft_ok}.
Context `{Message PbRelationshipDraft relationship_draft_ok, Message PbSnapshotInfo snapshot_info_ok}.

(** A batch whose edges join its own memories, within the ceilings of the server. *)
Record batch_fine (b : PbIngestBatch) : Prop := {
  bf_memories : Z.of_nat (length (pb_memories b)) ≤ MAX_MEMORIES_PER_BATCH;
  bf_edges : Z.of_nat (length (pb_relationships b)) ≤ MAX_EDGES_PER_BATCH;
  bf_closed : closed_comp (pb_memories b, pb_relationships b);
  bf_producer : is_Some (pb_producer b);
}.

Definition weight_of {X} (g : Component → list X) (comps : list Component) : Z := Z.of_nat (length (comps ≫= g)).

Lemma weight_snoc {X} (g : Component → list X) comps c :
  weight_of g (comps ++ [c]) = weight_of g comps + Z.of_nat (length (g c)).
Proof. unfold weight_of. rewrite bind_app, length_app. simpl. rewrite app_nil_r. lia. Qed.

(** The state of the loop after some components. *)
Record packed (p : Packing) (comps : list Component) : Prop := {
  pk_memories : (out p ≫= pb_memories) ++ (pending p ≫= fst) ≡ₚ comps ≫= fst;
  pk_edges : (out p ≫= pb_relationships) ++ (pending p ≫= snd) ≡ₚ comps ≫= snd;
  pk_out : Forall batch_fine (out p);
  pk_closed : Forall closed_comp (pending p);
  pk_count : pending_memories p = weight_of fst (pending p) ∧ pending_edges p = weight_of snd (pending p);
  pk_bound : weight_of fst (pending p) ≤ MAX_MEMORIES_PER_BATCH ∧ weight_of snd (pending p) ≤ MAX_EDGES_PER_BATCH;
}.

Lemma closed_bind comps : Forall closed_comp comps → closed_comp (comps ≫= fst, comps ≫= snd).
Proof.
  intros Hc r (c & Hr & Hin)%list_elem_of_bind. rewrite Forall_forall in Hc. destruct (Hc c Hin r Hr) as [Hx Hy].
  assert (∀ k, k ∈ draft_keys c.1 → k ∈ draft_keys (comps ≫= fst)) as Hup.
  { intros k (m & -> & Hm)%list_elem_of_fmap. apply list_elem_of_fmap. exists m. split; [done|].
    apply list_elem_of_bind. by exists c. }
  split; by apply Hup.
Qed.

Lemma closed_perm ms ms' rs rs' : ms' ≡ₚ ms → rs' ≡ₚ rs → closed_comp (ms, rs) → closed_comp (ms', rs').
Proof.
  intros Hm Hr Hc r Hin. simpl in *. unfold draft_keys. rewrite Hm. apply Hc. simpl. by rewrite <-Hr.
Qed.

Lemma batch_of_fine producer_id unit i comps :
  Forall closed_comp comps → weight_of fst comps ≤ MAX_MEMORIES_PER_BATCH → weight_of snd comps ≤ MAX_EDGES_PER_BATCH →
  batch_fine (batch_of producer_id unit i (comps ≫= fst) (comps ≫= snd)).
Proof.
  intros Hc Hm He. unfold weight_of in *. constructor; simpl; rewrite ?merge_sort_Permutation; [done|done|..].
  - eapply closed_perm; [apply merge_sort_Permutation..|by apply closed_bind].
  - by eexists.
Qed.

Lemma flush_packed producer_id unit p comps : packed p comps →
  packed (let p := flush producer_id unit p in mkPacking (out p) (pending p) 0 0 0 (index p)) comps
  ∧ pending (flush producer_id unit p) = [].
Proof.
  intros [Hm He Ho Hc Hn Hb]. unfold flush. destruct (pending p) as [|c cs] eqn:Ep.
  { rewrite Ep. split; [|done]. constructor; cbn [out pending pending_memories pending_edges]; rewrite ?Ep; done. }
  cbn [out pending index]. split; [|done].
  constructor; cbn [out pending pending_memories pending_edges]; [| | |done|done|done].
  - rewrite bind_app. simpl. rewrite !app_nil_r, merge_sort_Permutation. exact Hm.
  - rewrite bind_app. simpl. rewrite !app_nil_r, merge_sort_Permutation. exact He.
  - apply Forall_app. split; [done|]. constructor; [|constructor]. apply batch_of_fine; [done|apply Hb|apply Hb].
Qed.

Lemma pack_packed producer_id unit max p comps c p' :
  packed p comps → closed_comp c → pack producer_id unit max p c = Ok p' → packed p' (comps ++ [c]).
Proof.
  intros Hp Hc. unfold pack.
  destruct (Z.ltb_spec MAX_MEMORIES_PER_BATCH (Z.of_nat (length c.1))) as [|Hn]; [done|].
  destruct (Z.ltb_spec MAX_EDGES_PER_BATCH (Z.of_nat (length c.2))) as [|He]; [done|].
  destruct (max <? component_bytes _ _ _ _); [done|]. cbv zeta. set (over := (_ || _) || _).
  set (p1 := if over && _ then _ else p). intros [= <-].
  assert (packed p1 comps ∧ pending_memories p1 + Z.of_nat (length c.1) ≤ MAX_MEMORIES_PER_BATCH
          ∧ pending_edges p1 + Z.of_nat (length c.2) ≤ MAX_EDGES_PER_BATCH) as (Hpk1 & Hn1 & He1).
  { destruct (flush_packed producer_id unit p comps Hp) as [Hf _]. unfold p1.
    destruct over eqn:Eo; simpl.
    - case_bool_decide as Epend; simpl.
      + pose proof Hp as Hp0. destruct Hp as [_ _ _ _ [-> ->] _]. rewrite Epend. unfold weight_of. simpl. split; [|lia].
        exact Hp0.
      + split; [exact Hf|lia].
    - unfold over in Eo. apply orb_false_iff in Eo as [[_ E1]%orb_false_iff E2]. split; [done|]. lia. }
  clearbody p1. destruct Hpk1 as [Hm1 Hed1 Ho1 Hc1 [Hcm Hce] Hb1].
  constructor; cbn [out pending pending_memories pending_edges].
  - rewrite !bind_app, (assoc_L (++)), Hm1. done.
  - rewrite !bind_app, (assoc_L (++)), Hed1. done.
  - done.
  - apply Forall_app. by split; [|constructor].
  - rewrite !weight_snoc. split; lia.
  - rewrite !weight_snoc. lia.
Qed.

(** What an [Unsplittable] error names. *)
Definition unsplittable_of (ms : list PbMemoryDraft) (e : SdkError) : Prop :=
  ∃ keys bound, e = Unsplittable keys bound ∧ ∀ k, k ∈ keys → k ∈ draft_keys ms.

Lemma pack_err producer_id unit max p c e :
  pack producer_id unit max p c = Err e → unsplittable_of c.1 e.
Proof.
  assert (∀ bound, unsplittable_of c.1 (Unsplittable (sorted_keys c.1) bound)) as Hs.
  { intros bound. exists (sorted_keys c.1), bound. split; [done|]. intros k. unfold sorted_keys.
    by rewrite merge_sort_Permutation. }
  assert (∀ bound, unsplittable_of c.1 (Unsplittable (draft_keys c.1) bound)) as Hd.
  { intros bound. by exists (draft_keys c.1), bound. }
  unfold pack. destruct (_ <? _); [by intros [= <-]|]. destruct (_ <? _); [by intros [= <-]|].
  destruct (max <? _); [|done]. intros [= <-]. destruct (_ && _); [done|]. by destruct (negb _).
Qed.

Lemma pack_all_packed producer_id unit max comps : ∀ p before,
  packed p before → Forall closed_comp comps →
  match pack_all producer_id unit max p comps with
  | Ok p' => (out p' ≫= pb_memories) ≡ₚ (before ++ comps) ≫= fst ∧
      (out p' ≫= pb_relationships) ≡ₚ (before ++ comps) ≫= snd ∧ Forall batch_fine (out p')
  | Err e => ∃ c, c ∈ comps ∧ unsplittable_of c.1 e
  end.
Proof.
  induction comps as [|c comps IH]; intros p before Hp Hc; simpl.
  - rewrite app_nil_r. destruct (flush_packed producer_id unit p before Hp) as [[Hm He Ho _ _ _] Hpend].
    cbn [out pending] in *. rewrite Hpend in Hm, He. simpl in Hm, He. rewrite app_nil_r in Hm, He. done.
  - apply Forall_cons in Hc as [Hc1 Hc].
    destruct (pack producer_id unit max p c) as [p1|e] eqn:Epack; simpl.
    + replace (before ++ c :: comps) with ((before ++ [c]) ++ comps) by (by rewrite <-(assoc_L (++))).
      pose proof (IH p1 (before ++ [c]) (pack_packed _ _ _ _ _ _ _ Hp Hc1 Epack) Hc) as IHp.
      destruct (pack_all _ _ _ p1 comps) as [p2|e]; [done|]. destruct IHp as (c' & Hc' & He). exists c'. split; [by right|done].
    + exists c. split; [left|]. by eapply pack_err.
Qed.

Lemma seal_spec max bs :
  match seal max bs with
  | Ok bs' => bs' = (λ b, with_checksum (canonical_checksum b) b) <$> bs ∧ Forall (λ b, encoded_len b ≤ max) bs'
  | Err e => ∃ b, b ∈ bs ∧ e = Unsplittable (sorted_keys (pb_memories b)) "max_batch_bytes"
  end.
Proof.
  induction bs as [|b bs IH]; simpl; [split; [done|constructor]|].
  destruct (Z.ltb_spec max (encoded_len (with_checksum (canonical_checksum b) b))) as [|Hl].
  { exists b. split; [left|done]. }
  destruct (seal max bs) as [bs'|e]; simpl.
  - destruct IH as [-> Hf]. split; [done|]. by constructor.
  - destruct IH as (b' & Hb' & ->). exists b'. split; [by right|done].
Qed.

Lemma bind_checksum {X} (g : PbIngestBatch → list X) bs : (∀ b c, g (with_checksum c b) = g b) →
  ((λ b, with_checksum (canonical_checksum b) b) <$> bs) ≫= g = bs ≫= g.
Proof. intros Hg. induction bs as [|b bs IH]; [done|]. csimpl. rewrite Hg. by f_equal. Qed.

Lemma bind_subset {X} (g : Component → list X) comps c x : c ∈ comps → x ∈ g c → x ∈ comps ≫= g.
Proof. intros Hc Hx. apply list_elem_of_bind. by exists c. Qed.

(** A split never panics and ends.  It returns batches that hold every memory and every relationship of
    the unit exactly once, each with its endpoints in its own batch, within the server's row ceilings and
    the byte budget, and sealed with their checksums; or it refuses the unit as malformed, or names draft
    keys of the unit that do not fit together. *)
Lemma split_exact producer_id unit max : ∃ r, split_unit producer_id unit max = Some r ∧
  match r with
  | Ok bs => unit_ok unit ∧ (bs ≫= pb_memories) ≡ₚ bu_memories unit ∧ (bs ≫= pb_relationships) ≡ₚ bu_relationships unit ∧
      ∀ b, b ∈ bs → batch_fine b ∧ encoded_len b ≤ max ∧ pb_checksum b = canonical_checksum b
  | Err e => (∃ detail, e = InvalidUnit detail) ∨
      ∃ keys bound, e = Unsplittable keys bound ∧ ∀ k, k ∈ keys → k ∈ draft_keys (bu_memories unit)
  end.
Proof.
  unfold split_unit. destruct (validate_unit unit) as [[]|e] eqn:Ev.
  2:{ eexists. split; [done|]. left. revert Ev. unfold validate_unit. repeat case_match; intros [= <-]; eauto. }
  apply validate_unit_ok in Ev. destruct (components_spec unit (uo_ends _ Ev)) as (comps & -> & Hm & Hr & Hc). simpl.
  eexists. split; [done|]. assert (Hp0 : packed (mkPacking [] [] 0 0 0 0) []) by (by constructor).
  pose proof (pack_all_packed producer_id unit max comps _ _ Hp0 Hc) as Hpack.
  destruct (pack_all _ _ _ _ comps) as [p|e]; simpl.
  2:{ right. destruct Hpack as (c & Hcin & keys & bound & -> & Hk). exists keys, bound. split; [done|].
      intros k (m & -> & Hin)%Hk%list_elem_of_fmap. apply list_elem_of_fmap. exists m. split; [done|].
      rewrite <-Hm. by eapply bind_subset. }
  simpl in Hpack. destruct Hpack as (Hom & Hor & Hof). pose proof (seal_spec max (out p)) as Hs.
  destruct (seal max (out p)) as [bs|e].
  - destruct Hs as [-> Hl]. split; [done|]. rewrite !bind_checksum by done. split_and!; [by rewrite Hom|by rewrite Hor|].
    intros b Hb. rewrite Forall_forall in Hl. split_and!; [|by apply Hl|].
    + apply list_elem_of_fmap in Hb as (b0 & -> & Hb0). rewrite Forall_forall in Hof. destruct (Hof _ Hb0). by constructor.
    + by apply list_elem_of_fmap in Hb as (b0 & -> & _).
  - right. destruct Hs as (b & Hb & ->). eexists _, _. split; [done|]. intros k.
    unfold sorted_keys. rewrite merge_sort_Permutation. intros (m & -> & Hin)%list_elem_of_fmap. apply list_elem_of_fmap.
    exists m. split; [done|]. rewrite <-Hm, <-Hom. apply list_elem_of_bind. by exists b.
Qed.
End packing.
