(* ===== verification/LocalRules.v ===== *)
(** * The rulebook as data

    [crates/exocortex-adapter-sdk/src/manifest.rs], [classify.rs] and [crates/exocortex-wire/src]
    ([corrections.rs], [compatibility.rs]): the adapter's local verdicts over a validation manifest, the
    triage of reject codes, and the comparison of fingerprints by a component that links no kernel.

    A [HashMap] collected from a list keeps the last row of a key. *)

From stdpp Require Import pretty strings.
From S2P Require Import Prelude Ids Kernel Packs Ontology StorageTypes Wire Entities IngestTypes.
From S2P Require Import IngestService Registration Split.

(** ** Triage *)

(* SRC crates/exocortex-wire/src/corrections.rs 14-25 Disposition *)
Inductive Disposition := Success | Retry | Permanent | FatalCode.
#[global] Instance Disposition_eq_dec : EqDecision Disposition.
Proof. solve_decision. Defined.

(* SRC crates/exocortex-wire/src/corrections.rs 36-114 guidance *)
Definition disposition (code : RejectCode) : Disposition :=
  match code with
  | DuplicateBatch => Success
  | RateLimited => Retry
  | Unknown | UnknownMemoryType | UnknownKindCode | InvalidTypeTripleCode | VisibilityWideningCode
  | MissingExternalKey | InvalidExternalKey | ResourceLimitExceeded | BadChecksum | ComputedKindRejected => Permanent
  | Unauthorized | UnknownSource | IncompatibleOntology | SourceRewound | SchemaDrift
  | ProjectionBoundExceeded => FatalCode
  end.

(* SRC crates/exocortex-adapter-sdk/src/classify.rs 10-16 classify *)
Definition classify (code : RejectCode) : Disposition := disposition code.

(** [RejectCode::try_from(code)], an unknown code read as [Unknown]. *)
Definition all_codes : list RejectCode :=
  [Unknown; IncompatibleOntology; UnknownSource; UnknownMemoryType; UnknownKindCode; InvalidTypeTripleCode;
   VisibilityWideningCode; MissingExternalKey; DuplicateBatch; BadChecksum; Unauthorized; RateLimited;
   ComputedKindRejected; InvalidExternalKey; ResourceLimitExceeded; SourceRewound; SchemaDrift;
   ProjectionBoundExceeded].
Definition reject_of (code : Z) : RejectCode :=
  default Unknown (List.find (λ c, reject_code c =? code) all_codes).

(** ** Fingerprints *)

(* SRC crates/exocortex-wire/src/compatibility.rs 17-38 negotiated_fingerprint_still_current *)
Definition negotiated_fingerprint_still_current (negotiated current : list Z) : result unit string :=
  if bool_decide (negotiated = current) then Ok tt
  else if negb (Nat.eqb (length current) 32)
  then Err ("server fingerprint is " +:+ pretty (length current) +:+ " bytes, expected 32")
  else Err ("negotiated " +:+ hex negotiated +:+ " but the server now reports " +:+ hex current
            +:+ " — the backend's ontology drifted mid-run; reconnect and re-negotiate before resubmitting").

(** ** The manifest *)

(** [serde_json::from_str] of a manifest. *)
Class ManifestJson := { manifest_from_str : string → result ValidationManifest string }.

(* SRC crates/exocortex-wire/src/manifest.rs 78-90 parse_manifest *)
Definition parse_manifest `{ManifestJson} (json : string) : result ValidationManifest string :=
  match manifest_from_str json with
  | Err e => Err ("manifest is not valid: " +:+ e)
  | Ok manifest =>
      if negb (manifest_version manifest =? MANIFEST_VERSION)
      then Err ("manifest scheme " +:+ pretty (manifest_version manifest) +:+ " is not this reader's "
                +:+ pretty MANIFEST_VERSION +:+ " — update the SDK")
      else Ok manifest
  end.

(* SRC crates/exocortex-adapter-sdk/src/manifest.rs 17-26 LocalReject *)
Record LocalReject := mkLocalReject { lr_draft_key : string; lr_code : RejectCode; lr_detail : string }.

(* SRC crates/exocortex-adapter-sdk/src/manifest.rs 28-33 visibility_order *)
Definition visibility_order (v : Z) : option Z := if (0 <=? v) && (v <=? 4) then Some v else None.

Section rules.
Context (manifest : ValidationManifest) (configured_ceiling : Z).

Definition ceiling_order : Z :=
  default 3 (visibility_order (default configured_ceiling (registered_ceiling manifest))).
Definition type_ids : gmap string Z :=
  list_to_map (reverse ((λ t, (mm_name t, mm_id t)) <$> vm_memory_types manifest)).
Definition kind_ids : gmap string Z :=
  list_to_map (reverse ((λ k, (mk_name k, mk_id k)) <$> vm_kinds manifest)).
Definition computed_only_names : gmap string bool :=
  list_to_map (reverse ((λ k, (mk_name k, mk_computed_only k)) <$> vm_kinds manifest)).

(** The verdicts on one memory: at most one of type, title and content, or those on its visibility and its
    key. *)
Definition memory_rejects (snapshot : bool) (draft : PbMemoryDraft) : list LocalReject :=
  let reject code detail := mkLocalReject (pm_draft_key draft) code detail in
  let chars := chars_count (pm_title draft) in
  if bool_decide (type_ids !! pm_memory_type draft = None)
  then [reject UnknownMemoryType ("unknown memory type `" +:+ pm_memory_type draft +:+ "`")]
  else if (chars <? title_min_chars manifest) || (title_max_chars manifest <? chars)
  then [reject Unknown ("title is " +:+ pretty chars +:+ " chars; the rulebook bounds are "
          +:+ pretty (title_min_chars manifest) +:+ "..=" +:+ pretty (title_max_chars manifest))]
  else if String.eqb (pm_content draft) "" then [reject Unknown "content is empty"]
  else
    match visibility_order (pm_visibility draft) with
    | None => [reject VisibilityWideningCode ("unknown visibility discriminant " +:+ pretty (pm_visibility draft))]
    | Some order =>
        if ceiling_order <? order
        then [reject VisibilityWideningCode ("visibility " +:+ pretty order
                +:+ " exceeds the registered ceiling " +:+ pretty ceiling_order)]
        else []
    end
    ++ (if snapshot && bool_decide (pm_external_key draft = None)
        then [reject MissingExternalKey "snapshot batch without an ExternalKey (R-T16a)"] else []).

(** The type of every draft whose type the manifest knows. *)
Definition resolved (drafts : list PbMemoryDraft) : gmap string Z :=
  list_to_map (reverse (omap (λ d, t ← type_ids !! pm_memory_type d; Some (pm_draft_key d, t)) drafts)).

Definition side_permits (types : option (list Z)) (t : Z) : bool :=
  match types with None => true | Some types => bool_decide (t ∈ types) end.

Definition edge_rejects (types : gmap string Z) (rel : PbRelationshipDraft) : list LocalReject :=
  let key := pd_from_draft_key rel +:+ "->" +:+ pd_to_draft_key rel in
  if String.eqb (pd_to_memory_id rel) "" && String.eqb (pd_to_draft_key rel) ""
  then [mkLocalReject (pd_from_draft_key rel +:+ "->") InvalidTypeTripleCode
          "edge names neither to_draft_key nor to_memory_id"]
  else if negb (String.eqb (pd_to_memory_id rel) "") then []
  else match kind_ids !! pd_kind rel with
  | None => [mkLocalReject key UnknownKindCode ("unknown kind `" +:+ pd_kind rel +:+ "`")]
  | Some kind_id =>
      if default false (computed_only_names !! pd_kind rel)
      then [mkLocalReject key ComputedKindRejected ("`" +:+ pd_kind rel
              +:+ "` is computed-only (R-T14): produced exclusively by Dreams")]
      else match types !! pd_from_draft_key rel, types !! pd_to_draft_key rel with
      | Some from_type, Some to_type =>
          if existsb (λ t, (mt_kind t =? kind_id) && side_permits (mt_from_types t) from_type
                           && side_permits (mt_to_types t) to_type) (vm_type_triples manifest)
          then []
          else [mkLocalReject key InvalidTypeTripleCode ("kind `" +:+ pd_kind rel
                  +:+ "` does not permit this endpoint pair (R-T17)")]
      | _, _ => []
      end
  end.

(* SRC crates/exocortex-adapter-sdk/src/manifest.rs 35-188 validate_unit *)
Definition local_rejects (unit : BatchUnit) : list LocalReject :=
  (bu_memories unit ≫= memory_rejects (negb (bool_decide (bu_snapshot unit = None))))
  ++ (bu_relationships unit ≫= edge_rejects (resolved (bu_memories unit))).

(* SRC crates/exocortex-adapter-sdk/src/manifest.rs 190-217 validate_units *)
Definition validate_units (units : list BatchUnit) : result unit SdkError :=
  match List.find (λ u, negb (bool_decide (length (local_rejects u) = 0%nat))) units with
  | Some u => Err (LocalRejections
      ((λ r, (lr_draft_key r, reject_debug (lr_code r), lr_detail r)) <$> local_rejects u))
  | None => Ok tt
  end.
End rules.
