(* ===== verification/LocalSpec.v ===== *)
(** * What the rulebook as data promises

    The validation manifest of a server states the tables of its ontology, and the adapter's local verdicts
    over it are the server's: a row refused locally is refused by the server, and a row that passes locally
    is refused by the server only for what the manifest does not state. *)

From stdpp Require Import pretty strings.
From S2P Require Import Prelude Ids Kernel Packs Ontology StorageTypes Wire Entities IngestTypes.
From S2P Require Import Grouping IngestService IngestSpec Registration Split LocalRules.

(** The tables of a manifest are those of an ontology. *)
Record states (o : Ontology) (manifest : ValidationManifest) : Prop := {
  states_types n : type_ids manifest !! n = memory_type_by_name o !! n;
  states_kinds n id : kind_ids manifest !! n = Some (kind_val id) ↔
    ∃ k, kinds_by_id o !! id = Some k ∧ display_name k = n;
  states_kind_ids n i : kind_ids manifest !! n = Some i → ∃ id, i = kind_val id;
  states_computed n id k : kinds_by_id o !! id = Some k → display_name k = n →
    computed_only_names manifest !! n = Some (computed_only k);
  states_triples id f t :
    existsb (λ tr, (mt_kind tr =? kind_val id) && side_permits (mt_from_types tr) f
                   && side_permits (mt_to_types tr) t) (vm_type_triples manifest) = true ↔
    validate_triple o f id t = Ok tt;
  states_title : title_min_chars manifest = 1 ∧ title_max_chars manifest = 200;
}.

(** The last row of a list wins in the map collected from it; with distinct keys, every row does. *)
Lemma collected_lookup {A} (l : list (string * A)) k a : NoDup l.*1 →
  (list_to_map (reverse l) : gmap string A) !! k = Some a ↔ (k, a) ∈ l.
Proof.
  intros Hd. rewrite <-elem_of_list_to_map; [by rewrite elem_of_reverse|]. by rewrite fmap_reverse, reverse_Permutation.
Qed.

Lemma index_triples_lookup ts id :
  versions (index_triples ts) id = filter (λ t, t_kind t = id) ts ∧
  (index_triples ts !! id = None → filter (λ t, t_kind t = id) ts = []).
Proof.
  assert (Hv : versions (index_triples ts) id = filter (λ t, t_kind t = id) ts).
  { unfold index_triples. rewrite <-(app_nil_l (filter _ _)). change (@nil TypeTriple) with (versions (∅ : gmap RelKindId (list TypeTriple)) id).
    generalize (∅ : gmap RelKindId (list TypeTriple)) as m. induction ts as [|t ts IH]; intros m; cbn [foldl]; [by rewrite app_nil_r|].
    rewrite IH, versions_entry_push, filter_cons. destruct (decide (t_kind t = id)); [by rewrite <-(assoc_L (++))|by rewrite app_nil_r]. }
  split; [done|]. intros Hn. rewrite <-Hv. unfold versions. by rewrite Hn.
Qed.

Section manifest.
Context `{Sha256, Bincode}.
Context {packs : list PackDef} {o : Ontology} (Ho : from_packs packs = Ok o).

(** The rows of the manifest, from the summary. *)
Definition type_rows : list ManifestMemoryType :=
  imap (λ i name, mkManifestMemoryType name (as_u8 (Z.of_nat i))) (s_memory_types (o_summary o)).
Definition kind_rows : list ManifestKind :=
  (λ k, mkManifestKind (ks_id k) (ks_name k) (ks_computed_only k) (ks_default_strength k)) <$> s_kinds (o_summary o).

Lemma kind_rows_perm : kind_rows ≡ₚ
  (λ k, mkManifestKind (kind_val (km_id k)) (display_name k) (computed_only k) (default_strength k))
    <$> (canonicalized packs ≫= p_kinds).
Proof.
  destruct (from_packs_inv _ _ Ho) as (_ & _ & _ & _ & _ & _ & Hs & _). unfold kind_rows. rewrite Hs. simpl.
  rewrite merge_sort_Permutation. generalize (canonicalized packs). intros ps.
  induction ps as [|p ps IH]; [done|]. cbn [mbind list_bind]. rewrite !fmap_app. f_equiv; [|exact IH].
  rewrite <-list_fmap_compose. apply Permutation_refl', list_fmap_ext. intros i k _. unfold kind_summary. simpl.
  by destruct (bucket_parts (bucket k)).
Qed.

Lemma kind_row r : r ∈ kind_rows ↔ ∃ id k, kinds_by_id o !! id = Some k ∧
  r = mkManifestKind (kind_val id) (display_name k) (computed_only k) (default_strength k).
Proof.
  destruct (from_packs_inv _ _ Ho) as (_ & _ & Hk & _). rewrite kind_rows_perm, list_elem_of_fmap. split.
  - intros (k & -> & Hin). exists (km_id k), k. split; [by apply Hk|done].
  - intros (id & k & [Hin <-]%Hk & ->). by exists k.
Qed.

Lemma kind_names_nodup : NoDup (mk_name <$> kind_rows).
Proof.
  destruct (from_packs_inv _ _ Ho) as ((_ & _ & _ & _ & Hd & _) & _). rewrite kind_rows_perm, <-list_fmap_compose. exact Hd.
Qed.

Lemma type_rows_names : mm_name <$> type_rows = memory_type_names o.
Proof.
  destruct (from_packs_inv _ _ Ho) as (_ & _ & _ & _ & _ & Hn & Hs & _). unfold type_rows. rewrite Hs, Hn. simpl.
  rewrite fmap_imap. apply list_eq. intros i. rewrite list_lookup_imap. by destruct (_ !! i).
Qed.

Lemma manifest_states manifest :
  vm_memory_types manifest ≡ₚ type_rows → vm_kinds manifest = kind_rows →
  vm_type_triples manifest = (λ t, mkManifestTriple (ts_kind t) (ts_from_types t) (ts_to_types t))
                               <$> s_type_triples (o_summary o) →
  title_min_chars manifest = 1 → title_max_chars manifest = 200 → states o manifest.
Proof.
  intros Et Ek Etr Hmin Hmax.
  destruct (from_packs_inv _ _ Ho) as ((_ & Hdt & _ & _ & Hdn & _) & _ & Hk & Htr & Hm & Hn & Hs & _).
  assert (Hkn : NoDup ((λ k, (mk_name k, mk_id k)) <$> vm_kinds manifest).*1) by
    (rewrite <-list_fmap_compose, Ek; apply kind_names_nodup).
  assert (Hkc : NoDup ((λ k, (mk_name k, mk_computed_only k)) <$> vm_kinds manifest).*1) by
    (rewrite <-list_fmap_compose, Ek; apply kind_names_nodup).
  assert (Hid : ∀ n i, kind_ids manifest !! n = Some i ↔ ∃ id k, kinds_by_id o !! id = Some k ∧ i = kind_val id ∧ display_name k = n).
  { intros n i. unfold kind_ids. rewrite collected_lookup by done. rewrite list_elem_of_fmap, Ek. split.
    - intros (r & [= -> ->] & (id & k & Hl & ->)%kind_row). eauto.
    - intros (id & k & Hl & -> & <-). eexists. split; [|by apply kind_row; exists id, k]. done. }
  constructor; [..|done].
  - intros n. apply option_eq. intros v. unfold type_ids. rewrite collected_lookup.
    2:{ rewrite <-list_fmap_compose. change (fst ∘ _) with mm_name. rewrite Et, type_rows_names, Hn. done. }
    rewrite Hm, assign_type_ids_lookup by done. rewrite list_elem_of_fmap. setoid_rewrite Et. unfold type_rows.
    rewrite Hs. simpl. split.
    + intros (r & [= -> ->] & (i & x & -> & Hi)%elem_of_lookup_imap_1). exists i. split; [|done]. done.
    + intros (i & Hi & ->). eexists. split; [|by eapply elem_of_lookup_imap_2]. done.
  - intros n id. rewrite Hid. split; [|by intros (k & ? & ?); exists id, k].
    intros (id' & k & Hl & E & Hd). exists k. assert (id = id') as -> by (destruct id, id'; simpl in *; by subst). done.
  - intros n i (id & k & _ & -> & _)%Hid. by exists id.
  - intros n id k Hl <-. unfold computed_only_names. apply collected_lookup; [done|]. apply list_elem_of_fmap. rewrite Ek.
    eexists. split; [|by apply kind_row; exists id, k]. done.
  - intros id f t. rewrite existsb_elem, validate_triple_ok, Etr, Hs. simpl.
    assert (Hin : ∀ tr, tr ∈ (λ t, mkManifestTriple (ts_kind t) (ts_from_types t) (ts_to_types t)) <$>
      merge_sort (le_of compare_triple) (canonicalized packs ≫= λ p, triple_summary <$> p_type_triples p) ↔
      ∃ t, t ∈ (canonicalized packs ≫= p_type_triples) ∧ tr = mkManifestTriple (kind_val (t_kind t)) (from_types t) (to_types t)).
    { intros tr. rewrite list_elem_of_fmap. split.
      - intros (ts & -> & Hin). rewrite merge_sort_Permutation in Hin.
        apply list_elem_of_bind in Hin as (p & (t0 & -> & Ht)%list_elem_of_fmap & Hp). exists t0.
        split; [apply list_elem_of_bind; by exists p|done].
      - intros (t0 & (p & Ht & Hp)%list_elem_of_bind & ->). exists (triple_summary t0). split; [done|].
        rewrite merge_sort_Permutation. apply list_elem_of_bind. exists p. split; [|done].
        apply list_elem_of_fmap. by exists t0. }
    destruct (index_triples_lookup (canonicalized packs ≫= p_type_triples) id) as [Hv Hnone]. rewrite <-Htr in Hv, Hnone.
    split.
    + intros (tr & (x & Hx & ->)%Hin & Hb). simpl in Hb. bool_prop.
      assert (t_kind x = id) as Hxk by (destruct (t_kind x), id; simpl in *; by subst).
      assert (Hf : x ∈ filter (λ t, t_kind t = id) (canonicalized packs ≫= p_type_triples)) by by apply list_elem_of_filter.
      destruct (triples_by_kind o !! id) as [ts|] eqn:El; [|rewrite Hnone in Hf by done; by apply elem_of_nil in Hf].
      exists ts, x. unfold versions in Hv. rewrite El in Hv. simpl in Hv. by rewrite Hv.
    + intros (ts & x & El & Hx & Hf & Ht). unfold versions in Hv. rewrite El in Hv. simpl in Hv. rewrite Hv in Hx.
      apply list_elem_of_filter in Hx as [Hxk Hx]. eexists. split; [apply Hin; by exists x|]. simpl.
      rewrite Hxk, Z.eqb_refl. by rewrite andb_true_iff.
Qed.
End manifest.

(** ** Verdicts *)

Section verdicts.
Context `{Blake3, HashOrder, SerdeJson, Regex, FromTimestamp, Hmac, Sha256, Bincode}.
Context `{Message PbIngestBatch batch_ok, Message PbMemoryDraft memory_draft_ok, Message PbRegisterSource registration_ok}.
Context `{Message PbRelationshipDraft relationship_draft_ok, Message PbSnapshotInfo snapshot_info_ok}.
Context `{Lsrc : Lru SourceKey SourceEntry, Lack : Lru SourceKey IngestAck}.
Implicit Types (s : IngestServer) (source : SourceEntry).

(** What the manifest states of a memory. *)
Record admitted o source (snapshot : bool) (m : PbMemoryDraft) : Prop := {
  ad_type : is_Some (memory_type_by_name o !! pm_memory_type m);
  ad_title : 1 ≤ chars_count (pm_title m) ≤ 200;
  ad_content : pm_content m ≠ "";
  ad_visibility : ∃ vis, vis_from_i32 (pm_visibility m) = Ok vis ∧ vis_u8 vis ≤ vis_u8 (se_ceiling source);
  ad_key : snapshot = true → pm_external_key m ≠ None;
}.

Lemma vis_order v : match visibility_order v with
  | Some n => ∃ vis, vis_from_i32 v = Ok vis ∧ vis_u8 vis = n
  | None => vis_from_i32 v = Err VisibilityWideningCode
  end.
Proof.
  unfold visibility_order, vis_from_i32. destruct (Z.leb_spec 0 v), (Z.leb_spec v 4); simpl.
  { assert (v = 0 ∨ v = 1 ∨ v = 2 ∨ v = 3 ∨ v = 4) as [->|[->|[->|[->| ->]]]] by lia; simpl; by eexists. }
  all: repeat match goal with |- context [?x =? ?y] => destruct (Z.eqb_spec x y); [lia|] end; done.
Qed.

Lemma memory_rejects_exact o manifest configured source snapshot m :
  states o manifest → registered_ceiling manifest = Some (manifest_ceiling (se_ceiling source)) →
  se_ceiling source ≠ Public →
  memory_rejects manifest configured snapshot m = [] ↔ admitted o source snapshot m.
Proof.
  intros Hs Hc Hp. unfold memory_rejects. rewrite (states_types _ _ Hs).
  destruct (states_title _ _ Hs) as [-> ->].
  assert (Hco : ceiling_order manifest configured = vis_u8 (se_ceiling source)).
  { unfold ceiling_order. rewrite Hc. by destruct (se_ceiling source). }
  pose proof (vis_order (pm_visibility m)) as Hv.
  case_bool_decide as Ht; [split; [done|]; intros [[? Ht'] _ _ _ _]; congruence|].
  destruct (Z.ltb_spec (chars_count (pm_title m)) 1); simpl; [split; [done|]; intros []; lia|].
  destruct (Z.ltb_spec 200 (chars_count (pm_title m))); simpl; [split; [done|]; intros []; lia|].
  destruct (String.eqb_spec (pm_content m) "") as [|Hne]; [split; [done|]; by intros []|].
  destruct (visibility_order (pm_visibility m)) as [order|].
  2:{ split; [done|]. intros [_ _ _ (vis & Hvis & _) _]. congruence. }
  destruct Hv as (vis & Hvis & <-). rewrite Hco.
  destruct (Z.ltb_spec (vis_u8 (se_ceiling source)) (vis_u8 vis)) as [Hlt|Hle].
  { split; [done|]. intros [_ _ _ (vis' & Hvis' & ?) _]. rewrite Hvis in Hvis'. simplify_eq. lia. }
  simpl. destruct snapshot; simpl; [case_bool_decide|].
  - split; [done|]. intros []. naive_solver.
  - split; [intros _|done]. constructor; [by apply not_eq_None_Some|lia|done|eauto|done].
  - split; [intros _|done]. constructor; [by apply not_eq_None_Some|lia|done|eauto|done].
Qed.

Lemma validated_admitted s batch m snapshot source times principal now fresh mem :
  (pm_title m ≠ "" → 1 ≤ chars_count (pm_title m)) →
  validate_memory s batch m snapshot source times principal now fresh = Ok mem →
  admitted (ontology s) source snapshot m.
Proof.
  intros Htext. unfold validate_memory.
  intros (mt & Hmt%ok_or_ok & (vis & Hvis & (scope & _ & Hm)%bind_ok)%bind_ok)%bind_ok.
  destruct scope as [[[tenant user] project] team].
  destruct (validate_draft _ _ _) as [[]|] eqn:Hd in Hm; [|done].
  apply validate_draft_exact in Hd as (Ht & Hc & Hcont & _ & _ & Hceil & _). simpl in Ht, Hc, Hcont, Hceil.
  destruct (snapshot && bool_decide (pm_external_key m = None)) eqn:E1; [done|].
  constructor; [by eexists|split; [by apply Htext|done]|done|by eexists|].
  intros ->. simpl in E1. by bool_prop.
Qed.

Definition no_false_alarm_edge s manifest (types : gmap string Z) r (ids : gmap string Memory) : Prop :=
  ∀ batch ceiling pk times e, (validate_relationship s batch r ids ceiling pk times).2 = Ok e →
    edge_rejects manifest types r = [].

Lemma edge_no_false_alarm packs s manifest types ids r :
  from_packs packs = Ok (ontology s) → states (ontology s) manifest →
  pd_to_memory_id r = "" → (∀ k, types !! k = memory_type <$> ids !! k) → no_false_alarm_edge s manifest types r ids.
Proof.
  intros Ho Hs Hto Hty batch ceiling pk times e. unfold validate_relationship, edge_rejects. rewrite Hto. simpl.
  destruct (ids !! pd_from_draft_key r) as [f|] eqn:Ef; [|done]. unfold target_key. rewrite Hto. simpl. unfold non_empty.
  destruct (String.eqb_spec (pd_to_draft_key r) "") as [|Hne]; [done|]. simpl.
  destruct (ids !! pd_to_draft_key r) as [t|] eqn:Et; [|done].
  destruct (kind_id (ontology s) (pd_kind r)) as [kind|] eqn:Ek; [|done].
  apply (kind_id_resolves _ _ _ _ Ho) in Ek as (k & Hk & Hn). rewrite Hk.
  rewrite (proj2 (states_kinds _ _ Hs (pd_kind r) kind)) by eauto.
  rewrite (states_computed _ _ Hs _ _ _ Hk Hn). simpl. destruct (computed_only k); [done|].
  destruct (vis_from_i32 _); [|done]. destruct (within _ _); [|done]. simpl.
  destruct (validate_triple _ _ _ _) as [[]|] eqn:Etr; [|done]. intros _.
  rewrite !Hty, Ef, Et. simpl. by rewrite (proj2 (states_triples _ _ Hs _ _ _) Etr).
Qed.

Lemma edge_rejects_complete packs s manifest types ids r f t :
  from_packs packs = Ok (ontology s) → states (ontology s) manifest →
  pd_to_memory_id r = "" → (∀ k, types !! k = memory_type <$> ids !! k) →
  ids !! pd_from_draft_key r = Some f → ids !! pd_to_draft_key r = Some t → edge_rejects manifest types r = [] →
  ∀ batch ceiling pk times code, (validate_relationship s batch r ids ceiling pk times).2 = Err code →
    code = VisibilityWideningCode ∨ code = Unknown.
Proof.
  intros Ho Hs Hto Hty Ef Et. unfold validate_relationship, edge_rejects. rewrite Hto, Ef. simpl. unfold target_key, non_empty.
  rewrite Hto. simpl. destruct (String.eqb_spec (pd_to_draft_key r) "") as [|Hne]; [done|]. simpl. rewrite Et.
  destruct (kind_ids manifest !! pd_kind r) as [i|] eqn:Ei; [|done].
  destruct (states_kind_ids _ _ Hs _ _ Ei) as [kind ->]. apply (states_kinds _ _ Hs) in Ei as (k & Hk & Hn).
  rewrite (states_computed _ _ Hs _ _ _ Hk Hn). simpl. destruct (computed_only k) eqn:Ec; [done|].
  rewrite !Hty, Ef, Et. simpl. destruct (existsb _ _) eqn:Ex; [|done]. intros _.
  apply (states_triples _ _ Hs) in Ex.
  rewrite (proj2 (kind_id_resolves _ _ _ kind Ho)) by eauto. rewrite Hk, Ec, Ex.
  intros batch ceiling pk times code. unfold vis_from_i32. repeat case_match; simplify_eq/=; naive_solver.
Qed.

End verdicts.
