(* ===== verification/Session.v ===== *)
(** * An adapter's session

    [crates/exocortex-adapter-sdk/src/lib.rs] and [retry.rs], with the admission of a backend URL of
    [crates/exocortex-wire/src/transport.rs]: the handshake, the construction of signed batches within the
    byte budget, the submission of a window with its retries and its triage of acks, the dry run, and the
    durable cursor.

    The service on the other end of the channel is the interface [Backend]: a state that every call may
    change, and an answer or a status.  What can fail in replacing the cursor file is an input of the
    step, and the delays a session sleeps are recorded. *)

From stdpp Require Import pretty strings.
From S2P Require Import Prelude Ids Kernel Packs Ontology StorageTypes Wire Entities IngestTypes.
From S2P Require Import IngestService Registration Split LocalRules.

(** ** Backend addresses *)

(** [tonic]'s parser of endpoints, giving the scheme and the host of the URI, and the standard library's
    parser of IP addresses with its test for loopback ones. *)
Class Endpoints := {
  from_shared : string → result (option string * option string) string;
  loopback_address : string → bool;
}.

Definition str_drop (n : nat) (s : string) : string := substring n (String.length s - n) s.
(** [split_once] and the first piece of [split] over a set of characters. *)
Definition split_once (sep s : string) : option (string * string) :=
  match String.index 0 sep s with
  | Some n => Some (substring 0 n s, str_drop (n + String.length sep) s)
  | None => None
  end.
Definition before_any (stops : list Z) (s : string) : list Z :=
  take_while (λ c, negb (bool_decide (c ∈ stops))) (as_bytes s).

Definition carries_userinfo (url : string) : bool :=
  match split_once "://" url with
  | Some (_, remainder) => bool_decide (64 ∈ before_any [47; 63; 35] remainder)
  | None => false
  end.

(** A host without the brackets of an IPv6 literal, when it has both. *)
Definition unbracketed (host : string) : string :=
  match as_bytes host with
  | 91 :: rest => match reverse rest with
                  | 93 :: inner => string_of_bytes (reverse inner)
                  | _ => host
                  end
  | _ => host
  end.

(* SRC crates/exocortex-wire/src/transport.rs 92-136 validate_backend_url *)
Definition validate_backend_url `{Endpoints} (url : string) : result unit string :=
  if carries_userinfo url then Err "backend URL must not contain userinfo"
  else match from_shared url with
  | Err error => Err ("invalid backend URL: " +:+ error)
  | Ok (scheme, host) =>
      if bool_decide (scheme = Some "https") then Ok tt
      else if bool_decide (scheme = Some "http") then
        match host with
        | None => Err "plaintext backend URL has no host"
        | Some host =>
            if String.eqb (str_to_lowercase host) "localhost" || loopback_address (unbracketed host) then Ok tt
            else Err "plaintext backend URL is allowed only for literal loopback or localhost"
        end
      else Err "backend URL must use https (http is loopback-only)"
  end.

(** ** Configuration *)

(* SRC crates/exocortex-adapter-sdk/src/lib.rs 128-137 ProjectionField *)
Record ProjectionField := mkProjectionField { f_source_field : string; f_memory_type : string; f_kind : string }.
(* SRC crates/exocortex-adapter-sdk/src/lib.rs 139-146 SourceColumn *)
Record SourceColumn := mkSourceColumn { col_name : string; col_data_type : string }.
(* SRC crates/exocortex-adapter-sdk/src/lib.rs 148-160 ProjectionBounds *)
Record ProjectionBounds := mkProjectionBounds {
  max_rows_per_window : Z; max_rows_per_run : Z; max_graph_share_percent : Z }.
(* SRC crates/exocortex-adapter-sdk/src/lib.rs 105-126 Projection *)
Record Projection := mkProjection {
  pr_selector : string;
  pr_fields : list ProjectionField;
  pr_source_schema : list SourceColumn;
  pr_mapping_version : Z;
  pr_bounds : ProjectionBounds;
  pr_last_snapshot_id : string;
}.

(* SRC crates/exocortex-adapter-sdk/src/lib.rs 163-193 to_wire *)
Definition to_wire (p : Projection) : PbProjectionDescriptor :=
  mkPbProjection (pr_selector p)
    ((λ f, mkPbProjectionField (f_source_field f) (f_memory_type f) (f_kind f)) <$> pr_fields p)
    ((λ c, mkPbSourceColumn (col_name c) (col_data_type c)) <$> pr_source_schema p)
    (pr_mapping_version p)
    (Some (mkPbProjectionBounds (max_rows_per_window (pr_bounds p)) (max_rows_per_run (pr_bounds p))
             (max_graph_share_percent (pr_bounds p))))
    (pr_last_snapshot_id p).

(** Durations are in nanoseconds. *)
(* SRC crates/exocortex-adapter-sdk/src/lib.rs 220-231 RetryPolicy *)
Record RetryPolicy := mkRetryPolicy { rp_base : Z; rp_max : Z; max_attempts : Z; jitter : bool }.

(** [1 ms], and the largest [Duration]: [u64::MAX] seconds and 999999999 nanoseconds. *)
Definition MILLIS : Z := 10 ^ 6.
Definition DURATION_MAX : Z := 2 ^ 64 * 10 ^ 9 - 1.

(* SRC crates/exocortex-adapter-sdk/src/lib.rs 234-241 RetryPolicy::default *)
Definition RetryPolicy_default : RetryPolicy := mkRetryPolicy (250 * MILLIS) (60000 * MILLIS) 8 true.

(* SRC crates/exocortex-adapter-sdk/src/lib.rs 61-103 AdapterConfig *)
Record AdapterConfig := mkAdapterConfig {
  ac_org_id : string;
  ac_source_uri : string;
  ac_producer_id : string;
  ac_adapter_id : string;
  ac_node_id : string;
  ac_source_flavor : string;
  ac_producer_kind : Z;
  ac_ceiling : Z;
  ac_backend_url : string;
  ac_auth_token : string;
  ac_hmac_key : list Z;
  ac_max_batch_bytes : Z;
  ac_retry : RetryPolicy;
  ac_projection : option Projection;
}.

(** ** Backoff *)

(** The float computation of a jittered delay: from the capped delay, the top 53 bits of the entropy and
    the policy's maximum. *)
Class SecsF64 := { jittered : Z → Z → Z → Z }.

(** The xorshift step, on 64 bits. *)
Definition xorshift (x : Z) : Z :=
  let x := Z.lxor x (wrap 64 (Z.shiftl x 13)) in
  let x := Z.lxor x (Z.shiftr x 7) in
  Z.lxor x (wrap 64 (Z.shiftl x 17)).

(* SRC crates/exocortex-adapter-sdk/src/retry.rs 26-50 next_delay *)
Definition next_delay `{SecsF64} (policy : RetryPolicy) (attempt entropy : Z) : Z * Z :=
  let exp := Z.min DURATION_MAX (rp_base policy * Z.shiftl 1 (Z.min (Z.max (attempt - 1) 0) 16)) in
  let capped := Z.min exp (rp_max policy) in
  if negb (jitter policy) then (capped, entropy)
  else let x := xorshift entropy in (jittered capped (Z.shiftr x 11) (rp_max policy), x).

(** ** The session *)

(* SRC crates/exocortex-adapter-sdk/src/lib.rs 260-271 WindowOutcome *)
Record WindowOutcome := mkWindowOutcome {
  wo_accepted : Z;
  wo_duplicates : Z;
  permanent_rejections : list RejectRow;
  cursor_advanced : bool;
}.
Definition WindowOutcome_default : WindowOutcome := mkWindowOutcome 0 0 [] false.

(* SRC crates/exocortex-adapter-sdk/src/lib.rs 375-394 AdapterSession *)
Record AdapterSession := mkAdapterSession {
  config : AdapterConfig;
  negotiated : list Z;
  verified_ceiling : Z;
  cursor : option string;
  rows_this_run : Z;
  seen_snapshots : list string;
  rulebook : option ValidationManifest;
}.

(** A status of the channel: its code's number and its message. *)
Record RpcStatus := mkRpcStatus { rs_code : Z; rs_message : string }.

(* SRC crates/exocortex-adapter-sdk/src/lib.rs 881-884 Triage *)
Inductive Triage := Settled | TryAgain.

(* SRC crates/exocortex-adapter-sdk/src/lib.rs 886-902 classify_status *)
Definition classify_status (status : RpcStatus) : Disposition :=
  if bool_decide (rs_code status ∈ [14; 4; 8; 10; 13; 2]) then Retry else FatalCode.

(** The calls of the ingest service, as the client sees them. *)
Class Backend (B : Type) := {
  rpc_fingerprint : B → B * result (list Z) RpcStatus;
  rpc_register_source : PbRegisterSource → B → B * result Z RpcStatus;
  rpc_get_manifest : string → string → string → B → B * result (list Z * string) RpcStatus;
  rpc_submit : PbIngestBatch → B → B * result IngestAck RpcStatus;
  rpc_preflight : PbIngestBatch → B → B * result IngestAck RpcStatus;
}.

(** The characters [tonic] admits in a metadata value, and the clock readings [rand_state] mixes: the
    [n]-th delay's entropy. *)
Class Process := { metadata_value : string → bool; rand_state : nat → Z }.

(** What reading the cursor file gives, and what can fail in replacing it. *)
Inductive CursorFile := Absent | Text (s : string) | Broken (e : string).
Inductive SaveFault := CreateDir (e : string) | WriteTemp (e : string) | Rename (e : string).

(* SRC crates/exocortex-adapter-sdk/src/lib.rs 912-918 load_cursor *)
Definition load_cursor (file : CursorFile) : result (option string) SdkError :=
  match file with
  | Text s => Ok (Some s)
  | Absent => Ok None
  | Broken e => Err (CursorCorrupt e)
  end.

(* SRC crates/exocortex-adapter-sdk/src/lib.rs 920-928 save_cursor *)
Definition save_cursor (fault : option SaveFault) (text : string) (file : CursorFile)
    : CursorFile * result unit SdkError :=
  match fault with
  | Some (CreateDir e) | Some (WriteTemp e) | Some (Rename e) => (file, Err (CursorIo e))
  | None => (Text text, Ok tt)
  end.

Section session.
Context `{Blake3, Hmac, Endpoints, SecsF64, ManifestJson, Process}.
Context `{Message PbIngestBatch batch_ok, Message PbMemoryDraft memory_draft_ok}.
Context `{Message PbRelationshipDraft relationship_draft_ok, Message PbSnapshotInfo snapshot_info_ok}.
Context `{Message PbRegisterSource registration_ok}.
Context {B : Type} `{Backend B}.

(* SRC crates/exocortex-adapter-sdk/src/lib.rs 50-59 authenticated_request *)
Definition authenticated_request {T} (token : string) (message : T) : result T SdkError :=
  if metadata_value ("Bearer " +:+ token) then Ok message
  else Err (InvalidUnit "adapter auth_token contains invalid metadata bytes").

(** A call whose status ends the operation: [client.call(authenticated_request(..)?).await?]. *)
Definition call {T R} (token : string) (message : T) (rpc : T → B → B * result R RpcStatus) (b : B)
    : B * result R SdkError :=
  match authenticated_request token message with
  | Err e => (b, Err e)
  | Ok message =>
      match rpc message b with
      | (b, Ok r) => (b, Ok r)
      | (b, Err status) => (b, Err (Transport (rs_code status) (rs_message status)))
      end
  end.

(** ** The handshake *)

Definition registration_of (config : AdapterConfig) : PbRegisterSource :=
  sign_registration (ac_hmac_key config)
    (mkPbRegisterSource (ac_org_id config) (ac_source_uri config) (ac_producer_id config) (ac_ceiling config)
       (ac_source_flavor config)
       (Some (mkPbProducer (ac_node_id config) "" (ac_adapter_id config) [] None))
       (ac_producer_kind config) (to_wire <$> ac_projection config) None).

(** The rulebook of an answer: one of the negotiated ontology, which parses. *)
Definition rulebook_of (fingerprint : list Z) (answer : result (list Z * string) RpcStatus)
    : option ValidationManifest :=
  match answer with
  | Ok (compatibility_fingerprint, json) =>
      if bool_decide (compatibility_fingerprint = fingerprint)
      then match parse_manifest json with Ok manifest => Some manifest | Err _ => None end
      else None
  | Err _ => None
  end.

(* SRC crates/exocortex-adapter-sdk/src/lib.rs 405-518 connect_with *)
Definition connect (config : AdapterConfig) (reachable : result unit string) (file : CursorFile) (b : B)
    : B * result AdapterSession SdkError :=
  match validate_backend_url (ac_backend_url config) with
  | Err detail => (b, Err (InvalidUnit ("backend_url: " +:+ detail)))
  | Ok _ =>
  if String.eqb (ac_auth_token config) "" then (b, Err (InvalidUnit "adapter auth_token must be non-empty"))
  else match reachable with
  | Err e => (b, Err (TransportConnect e))
  | Ok _ =>
  match call (ac_auth_token config) tt (λ _, rpc_fingerprint) b with
  | (b, Err e) => (b, Err e)
  | (b, Ok fingerprint) =>
  if negb (Nat.eqb (length fingerprint) 32)
  then (b, Err (InvalidUnit ("server fingerprint is " +:+ pretty (length fingerprint) +:+ " bytes, expected 32")))
  else match call (ac_auth_token config) (registration_of config) rpc_register_source b with
  | (b, Err e) => (b, Err e)
  | (b, Ok registered) =>
  if negb (registered =? ac_ceiling config) then (b, Err (CeilingMismatch (ac_ceiling config) registered))
  else match load_cursor file with
  | Err e => (b, Err e)
  | Ok cursor =>
  match authenticated_request (ac_auth_token config) tt with
  | Err e => (b, Err e)
  | Ok _ =>
      let '(b, answer) := rpc_get_manifest (ac_org_id config) (ac_source_uri config) (ac_producer_id config) b in
      (b, Ok (mkAdapterSession config fingerprint registered cursor 0 [] (rulebook_of fingerprint answer)))
  end end end end end end.

(** ** Batches *)

(** A batch of the split with the session's identity, checksummed and signed. *)
Definition stamp (s : AdapterSession) (b : PbIngestBatch) : PbIngestBatch :=
  let config := config s in
  prepare_batch (ac_hmac_key config)
    (mkPbIngestBatch (ac_org_id config) (ac_source_uri config) (ac_producer_id config) (pb_batch_id b)
       (ac_source_flavor config) (negotiated s) (verified_ceiling s) (pb_checksum b) (pb_observed_at b)
       (pb_recorded_at b) (pb_snapshot b) (pb_memories b) (pb_relationships b)
       ((λ p, mkPbProducer (ac_node_id config) (ac_producer_id config) (ac_adapter_id config)
                (pp_hmac_signature p) (pp_client_metadata p)) <$> pb_producer b)).

(** The split of every unit; [None] when a split is. *)
Fixpoint split_units (producer_id : string) (budget : Z) (units : list BatchUnit)
    : option (result (list PbIngestBatch) SdkError) :=
  match units with
  | [] => Some (Ok [])
  | unit :: units =>
      match split_unit producer_id unit budget with
      | None => None
      | Some (Err e) => Some (Err e)
      | Some (Ok bs) =>
          match split_units producer_id budget units with
          | Some (Ok rest) => Some (Ok (bs ++ rest))
          | r => r
          end
      end
  end.

(** By how much the first batch too large exceeds the limit, and the batches, stamped up to it. *)
Fixpoint stamp_all (s : AdapterSession) (bs : list PbIngestBatch) : list PbIngestBatch * option Z :=
  match bs with
  | [] => ([], None)
  | b :: bs =>
      let b := stamp s b in
      if ac_max_batch_bytes (config s) <? encoded_len b
      then (b :: bs, Some (encoded_len b - ac_max_batch_bytes (config s)))
      else let '(bs, violation) := stamp_all s bs in (b :: bs, violation)
  end.

Definition tightened (budget over : Z) : Z := Z.max (Z.max (budget - (over + 16)) 0) 64.

Fixpoint prepare_within (fuel : nat) (s : AdapterSession) (units : list BatchUnit) (budget : Z)
    : option (result (list PbIngestBatch) SdkError) :=
  match split_units (ac_producer_id (config s)) budget units with
  | None => None
  | Some (Err e) => Some (Err e)
  | Some (Ok bs) =>
      match stamp_all s bs with
      | (bs, None) => Some (Ok bs)
      | (bs, Some over) =>
          let next := tightened budget over in
          if next =? budget
          then Some (Err (Unsplittable (bs ≫= (λ b, draft_keys (pb_memories b))) "max_batch_bytes"))
          else match fuel with
               | O => None
               | S fuel => prepare_within fuel s units next
               end
      end
  end.

(** The iterations a budget allows: each tightening takes at least 17 bytes, down to 64. *)
Definition budget_fuel (max_batch_bytes : Z) : nat := Z.to_nat (max_batch_bytes / 17) + 2.

(* SRC crates/exocortex-adapter-sdk/src/lib.rs 697-752 prepare_batches *)
Definition prepare_batches (s : AdapterSession) (units : list BatchUnit)
    : option (result (list PbIngestBatch) SdkError) :=
  prepare_within (budget_fuel (ac_max_batch_bytes (config s))) s units (ac_max_batch_bytes (config s)).

(** ** Triage of an ack *)

(** The verdict of a fatal row: an incompatible ontology is negotiated again to name both fingerprints. *)
Definition fatal_row (s : AdapterSession) (row : RejectRow) (b : B) : B * SdkError :=
  if bool_decide (reject_of (rr_code row) = IncompatibleOntology) then
    match call (ac_auth_token (config s)) tt (λ _, rpc_fingerprint) b with
    | (b, Err e) => (b, e)
    | (b, Ok got) =>
        if negb (Nat.eqb (length got) 32) then (b, InvalidUnit ("fingerprint len " +:+ pretty (length got)))
        else match negotiated_fingerprint_still_current (negotiated s) got with
             | Err _ => (b, FingerprintDrift (negotiated s) got)
             | Ok _ => (b, Fatal (rr_code row) (rr_detail row))
             end
    end
  else (b, Fatal (rr_code row) (rr_detail row)).

(** The rows of an ack: whether one asks for a retry, whether one is a duplicate, and the permanent
    rejections; the first fatal one ends. *)
Fixpoint triage_rows (s : AdapterSession) (rows : list RejectRow) (retry duplicate : bool)
    (permanent : list RejectRow) (b : B) : B * result (bool * bool * list RejectRow) SdkError :=
  match rows with
  | [] => (b, Ok (retry, duplicate, permanent))
  | row :: rows =>
      match classify (reject_of (rr_code row)) with
      | Success => triage_rows s rows retry true permanent b
      | Retry => triage_rows s rows true duplicate permanent b
      | Permanent => triage_rows s rows retry duplicate (permanent ++ [row]) b
      | FatalCode => let '(b, e) := fatal_row s row b in (b, Err e)
      end
  end.

(* SRC crates/exocortex-adapter-sdk/src/lib.rs 798-878 triage_ack *)
Definition triage_ack (s : AdapterSession) (ack : IngestAck) (outcome : WindowOutcome) (b : B)
    : B * result (WindowOutcome * Triage) SdkError :=
  let '(mkWindowOutcome accepted duplicates permanent advanced) := outcome in
  match rejections ack with
  | [] => (b, Ok (mkWindowOutcome (as_u32 (accepted + ia_accepted ack)) duplicates permanent advanced, Settled))
  | rows =>
      match triage_rows s rows false false permanent b with
      | (b, Err e) => (b, Err e)
      | (b, Ok (true, _, permanent)) => (b, Ok (mkWindowOutcome accepted duplicates permanent advanced, TryAgain))
      | (b, Ok (false, true, permanent)) =>
          (b, Ok (mkWindowOutcome (as_u32 (accepted + ia_accepted ack)) (as_u32 (duplicates + 1)) permanent advanced,
                  Settled))
      | (b, Ok (false, false, permanent)) => (b, Ok (mkWindowOutcome accepted duplicates permanent advanced, Settled))
      end
  end.

(** ** The submission of a window *)

(** What a session touches: the service, the cursor file and the delays slept so far. *)
Record World := mkWorld { backend : B; cursor_file : CursorFile; slept : list Z }.
Definition with_backend (b : B) (w : World) : World := mkWorld b (cursor_file w) (slept w).

Definition sleep (s : AdapterSession) (attempt : Z) (w : World) : World :=
  mkWorld (backend w) (cursor_file w)
    (slept w ++ [(next_delay (ac_retry (config s)) attempt (rand_state (length (slept w)))).1]).

(** The loop of one batch at its [attempt], with [spare] attempts after it. *)
Fixpoint submit_batch (spare : nat) (s : AdapterSession) (batch : PbIngestBatch) (attempt : Z)
    (outcome : WindowOutcome) (w : World) : World * result WindowOutcome SdkError :=
  let again outcome w :=
    match spare with
    | O => (w, Err (RetriesExhausted attempt))
    | S spare => submit_batch spare s batch (attempt + 1) outcome (sleep s attempt w)
    end in
  match authenticated_request (ac_auth_token (config s)) batch with
  | Err e => (w, Err e)
  | Ok message =>
      match rpc_submit message (backend w) with
      | (b, Err status) =>
          let w := with_backend b w in
          if bool_decide (classify_status status = Retry) then again outcome w
          else (w, Err (Fatal (rs_code status) (rs_message status)))
      | (b, Ok ack) =>
          match triage_ack s ack outcome b with
          | (b, Err e) => (with_backend b w, Err e)
          | (b, Ok (outcome, Settled)) => (with_backend b w, Ok outcome)
          | (b, Ok (outcome, TryAgain)) => again outcome (with_backend b w)
          end
      end
  end.

Definition attempts_after_first (s : AdapterSession) : nat := Z.to_nat (max_attempts (ac_retry (config s)) - 1).

Fixpoint submit_batches (s : AdapterSession) (batches : list PbIngestBatch) (outcome : WindowOutcome) (w : World)
    : World * result WindowOutcome SdkError :=
  match batches with
  | [] => (w, Ok outcome)
  | batch :: batches =>
      match submit_batch (attempts_after_first s) s batch 1 outcome w with
      | (w, Ok outcome) => submit_batches s batches outcome w
      | (w, Err e) => (w, Err e)
      end
  end.

(** ** The checks before the wire *)

(** [sum] of [u64]s, in a release build. *)
Definition window_rows (units : list BatchUnit) : Z :=
  foldl (λ n u, wrap 64 (n + Z.of_nat (length (bu_memories u)))) 0 units.

(** A snapshot the session has seen, other than the last one. *)
Definition rewound (seen : list string) (unit : BatchUnit) : option (string * string) :=
  snapshot ← bu_snapshot unit;
  newest ← last seen;
  if negb (String.eqb (si_snapshot_id snapshot) newest) && bool_decide (si_snapshot_id snapshot ∈ seen)
  then Some (si_snapshot_id snapshot, newest) else None.

Definition window_bound (p : Projection) (units : list BatchUnit) : result unit SdkError :=
  if max_rows_per_window (pr_bounds p) <? window_rows units
  then Err (ProjectionBoundHit "max_rows_per_window" (window_rows units) (max_rows_per_window (pr_bounds p)))
  else Ok tt.

Definition projection_bounds (s : AdapterSession) (units : list BatchUnit) : result unit SdkError :=
  match ac_projection (config s) with
  | None => Ok tt
  | Some p =>
      let? _ := window_bound p units in
      let run_rows := u64_saturating_add (rows_this_run s) (window_rows units) in
      if max_rows_per_run (pr_bounds p) <? run_rows
      then Err (ProjectionBoundHit "max_rows_per_run" run_rows (max_rows_per_run (pr_bounds p)))
      else match head (omap (rewound (seen_snapshots s)) units) with
           | Some (observed, newest) => Err (SourceWentBack observed newest)
           | None => Ok tt
           end
  end.

Definition local_pass (s : AdapterSession) (units : list BatchUnit) : result unit SdkError :=
  match rulebook s with
  | Some manifest => validate_units manifest (verified_ceiling s) units
  | None => Ok tt
  end.

(** The snapshots a settled window leaves, oldest first and at most sixteen. *)
Definition observe (seen : list string) (unit : BatchUnit) : list string :=
  match bu_snapshot unit with
  | Some snapshot =>
      if bool_decide (last seen = Some (si_snapshot_id snapshot)) then seen
      else let seen := seen ++ [si_snapshot_id snapshot] in
           if (16 <? length seen)%nat then drop 1 seen else seen
  | None => seen
  end.

Definition settle (s : AdapterSession) (units : list BatchUnit) (text : string) : AdapterSession :=
  mkAdapterSession (config s) (negotiated s) (verified_ceiling s) (Some text)
    (u64_saturating_add (rows_this_run s) (window_rows units)) (foldl observe (seen_snapshots s) units) (rulebook s).

(* SRC crates/exocortex-adapter-sdk/src/lib.rs 540-695 submit_window *)
Definition submit_window (s : AdapterSession) (units : list BatchUnit) (text : string) (fault : option SaveFault)
    (w : World) : option (AdapterSession * World * result WindowOutcome SdkError) :=
  match (let? _ := projection_bounds s units in local_pass s units) with
  | Err e => Some (s, w, Err e)
  | Ok _ =>
      match prepare_batches s units with
      | None => None
      | Some (Err e) => Some (s, w, Err e)
      | Some (Ok batches) => Some
          match submit_batches s batches WindowOutcome_default w with
          | (w, Err e) => (s, w, Err e)
          | (w, Ok (mkWindowOutcome accepted duplicates permanent _)) =>
              let '(file, saved) := save_cursor fault text (cursor_file w) in
              let w := mkWorld (backend w) file (slept w) in
              match saved with
              | Err e => (s, w, Err e)
              | Ok _ => (settle s units text, w, Ok (mkWindowOutcome accepted duplicates permanent true))
              end
          end
      end
  end.

(** ** The dry run *)

Fixpoint preflight_batches (token : string) (batches : list PbIngestBatch) (b : B)
    : B * result (list IngestAck) SdkError :=
  match batches with
  | [] => (b, Ok [])
  | batch :: batches =>
      match authenticated_request token batch with
      | Err e => (b, Err e)
      | Ok message =>
          match rpc_preflight message b with
          | (b, Err status) => (b, Err (Fatal (rs_code status) (rs_message status)))
          | (b, Ok ack) =>
              let '(b, r) := preflight_batches token batches b in
              (b, let? acks := r in Ok (ack :: acks))
          end
      end
  end.

(* SRC crates/exocortex-adapter-sdk/src/lib.rs 754-796 preflight *)
Definition adapter_preflight (s : AdapterSession) (units : list BatchUnit) (b : B)
    : option (B * result (list IngestAck) SdkError) :=
  match (let? _ := match ac_projection (config s) with Some p => window_bound p units | None => Ok tt end in
         local_pass s units) with
  | Err e => Some (b, Err e)
  | Ok _ =>
      match prepare_batches s units with
      | None => None
      | Some (Err e) => Some (b, Err e)
      | Some (Ok batches) => Some (preflight_batches (ac_auth_token (config s)) batches b)
      end
  end.
End session.
