(* ===== verification/SessionSpec.v ===== *)
(** * What a session promises

    The batches of a window are the unit rows, each once, signed under the session's identity and within
    every limit; the submission of a window settles every batch in order before the cursor moves, within
    the attempts of its policy, and leaves session and cursor as they were when it fails. *)

From stdpp Require Import pretty strings.
From S2P Require Import Prelude Ids Kernel Packs Ontology StorageTypes Wire Entities IngestTypes.
From S2P Require Import IngestService Registration Split SplitSpec LocalRules Session.

Section session.
Context `{Blake3, Hmac, Endpoints, SecsF64, ManifestJson, Process}.
Context `{Message PbIngestBatch batch_ok, Message PbMemoryDraft memory_draft_ok}.
Context `{Message PbRelationshipDraft relationship_draft_ok, Message PbSnapshotInfo snapshot_info_ok}.
Context `{Message PbRegisterSource registration_ok}.
Context {B : Type} `{Backend B}.
Implicit Types (s : AdapterSession) (w : World (B:=B)) (units : list BatchUnit).

(** ** The batches of a window *)

Lemma split_units_spec producer_id budget units : ∃ r, split_units producer_id budget units = Some r ∧
  match r with
  | Ok bs => Forall unit_ok units ∧ (bs ≫= pb_memories) ≡ₚ (units ≫= bu_memories)
      ∧ (bs ≫= pb_relationships) ≡ₚ (units ≫= bu_relationships) ∧ Forall batch_fine bs
  | Err e => (∃ detail, e = InvalidUnit detail) ∨
      ∃ keys bound, e = Unsplittable keys bound ∧ ∀ k, k ∈ keys → k ∈ draft_keys (units ≫= bu_memories)
  end.
Proof.
  induction units as [|unit units IH]; [eexists; split; [done|]; by split_and!|]. simpl.
  destruct (split_exact producer_id unit budget) as (r & -> & Hr). destruct r as [bs|e].
  2:{ eexists. split; [done|]. destruct Hr as [?|(keys & bound & -> & Hk)]; [by left|right]. eexists _, _. split; [done|].
      intros k ?%Hk. unfold draft_keys. rewrite fmap_app. apply elem_of_app. by left. }
  destruct Hr as (Hu & Hm & Hr & Hb). destruct IH as (r & -> & IH). destruct r as [rest|e].
  - eexists. split; [done|]. destruct IH as (Hus & Hms & Hrs & Hbs). rewrite !bind_app, Hm, Hr, Hms, Hrs.
    split_and!; [by constructor|done..|]. apply Forall_app. split; [|done]. apply Forall_forall. intros b ?. by apply Hb.
  - eexists. split; [done|]. destruct IH as [?|(keys & bound & -> & Hk)]; [by left|right]. eexists _, _. split; [done|].
    intros k ?%Hk. unfold draft_keys. rewrite fmap_app. apply elem_of_app. by right.
Qed.

(** A batch as the session sends it. *)
Record stamped s (b : PbIngestBatch) : Prop := {
  st_org : pb_org_id b = ac_org_id (config s);
  st_uri : pb_source_uri b = ac_source_uri (config s);
  st_producer : pb_producer_id b = ac_producer_id (config s);
  st_flavor : pb_mapping_version b = ac_source_flavor (config s);
  st_fingerprint : pb_ontology_fingerprint b = negotiated s;
  st_ceiling : pb_ceiling b = verified_ceiling s;
  st_checksum : pb_checksum b = canonical_checksum b;
  st_signed : verify_signature (ac_hmac_key (config s)) b = true;
}.

Lemma sign_fields key b : ∃ p, sign_batch key b = with_producer p b.
Proof.
  unfold sign_batch. destruct (pb_producer b) eqn:E; [by eexists|]. exists None. rewrite <-E. by destruct b.
Qed.

Lemma stamp_stamped s b : is_Some (pb_producer b) → stamped s (stamp s b).
Proof.
  intros [p Hp]. constructor; unfold stamp, prepare_batch; [..|].
  1-7: match goal with |- context [sign_batch ?k ?b] => by destruct (sign_fields k b) as [? ->] end.
  unfold verify_signature. rewrite unsigned_bytes_sign. unfold sign_batch. simpl. rewrite Hp. simpl.
  by apply ct_verify_iff.
Qed.

Lemma stamp_fields s b : pb_memories (stamp s b) = pb_memories b ∧ pb_relationships (stamp s b) = pb_relationships b
  ∧ (is_Some (pb_producer b) → is_Some (pb_producer (stamp s b))).
Proof.
  unfold stamp, prepare_batch. split_and!.
  1-2: match goal with |- context [sign_batch ?k ?b] => by destruct (sign_fields k b) as [? ->] end.
  intros [p Hp]. unfold sign_batch. simpl. rewrite Hp. by eexists.
Qed.

Lemma stamp_fine s b : batch_fine b → batch_fine (stamp s b).
Proof. destruct (stamp_fields s b) as (Hm & Hr & Hp). intros []. constructor; rewrite ?Hm, ?Hr; auto. Qed.

Lemma stamp_all_spec s bs : Forall batch_fine bs → let '(bs', violation) := stamp_all s bs in
  (bs' ≫= pb_memories) = (bs ≫= pb_memories) ∧ (bs' ≫= pb_relationships) = (bs ≫= pb_relationships)
  ∧ match violation with
    | None => ∀ b, b ∈ bs' → batch_fine b ∧ stamped s b ∧ encoded_len b ≤ ac_max_batch_bytes (config s)
    | Some over => 0 < over
    end.
Proof.
  induction 1 as [|b bs Hb Hbs IH]; simpl; [split_and!; try done; by intros b ?%elem_of_nil|].
  destruct (stamp_fields s b) as (Hm & Hr & _).
  destruct (Z.ltb_spec (ac_max_batch_bytes (config s)) (encoded_len (stamp s b))) as [|Hl].
  { simpl. rewrite Hm, Hr. split_and!; [done..|lia]. }
  destruct (stamp_all s bs) as [bs' [over|]]; simpl; rewrite Hm, Hr; destruct IH as (Em & Er & IH);
    (split_and!; [by apply (f_equal (pb_memories b ++.))|by apply (f_equal (pb_relationships b ++.))|]); try done.
  intros b' [->|?]%elem_of_cons; [|by apply IH]. split_and!; [by apply stamp_fine|by apply stamp_stamped, Hb|done].
Qed.

(** What [prepare_batches] returns. *)
Definition prepared s units (r : result (list PbIngestBatch) SdkError) : Prop :=
  match r with
  | Ok bs => Forall unit_ok units ∧ (bs ≫= pb_memories) ≡ₚ (units ≫= bu_memories)
      ∧ (bs ≫= pb_relationships) ≡ₚ (units ≫= bu_relationships)
      ∧ ∀ b, b ∈ bs → batch_fine b ∧ stamped s b ∧ encoded_len b ≤ ac_max_batch_bytes (config s)
  | Err e => (∃ detail, e = InvalidUnit detail) ∨
      ∃ keys bound, e = Unsplittable keys bound ∧ ∀ k, k ∈ keys → k ∈ draft_keys (units ≫= bu_memories)
  end.

Lemma tightened_smaller budget over : 0 < over → 64 < budget →
  tightened budget over = 64 ∨ tightened budget over ≤ budget - 17.
Proof. unfold tightened. lia. Qed.

Lemma prepare_within_spec s units : ∀ fuel budget, (Z.to_nat (budget / 17) + 2 ≤ fuel)%nat ∨ budget = 64 →
  ∃ r, prepare_within fuel s units budget = Some r ∧ prepared s units r.
Proof.
  assert (Hbody : ∀ fuel budget, (∀ over, 0 < over → tightened budget over ≠ budget → ∃ fuel', fuel = S fuel' ∧
      ∃ r, prepare_within fuel' s units (tightened budget over) = Some r ∧ prepared s units r) →
      ∃ r, prepare_within fuel s units budget = Some r ∧ prepared s units r).
  { intros fuel budget Hnext.
    destruct (split_units_spec (ac_producer_id (config s)) budget units) as (r & E & Hr).
    destruct fuel as [|fuel]; simpl; rewrite E; destruct r as [bs|e]; try (by eexists);
      destruct Hr as (Hu & Hm & Hrl & Hf); pose proof (stamp_all_spec s bs Hf) as Hs;
      destruct (stamp_all s bs) as [bs' [over|]]; destruct Hs as (Hsm & Hsr & Hs).
    all: try (eexists; split; [done|]; split_and!; [done|by rewrite Hsm|by rewrite Hsr|done]).
    all: destruct (Z.eqb_spec (tightened budget over) budget) as [|Hne].
    1,3: eexists; split; [done|]; right; eexists _, _; split; [done|]; intros k;
         intros (b & (m & -> & Hmb)%list_elem_of_fmap & Hb)%list_elem_of_bind; apply list_elem_of_fmap; exists m; split; [done|];
         rewrite <-Hm, <-Hsm; apply list_elem_of_bind; by exists b.
    all: destruct (Hnext over Hs Hne) as (fuel' & Ef & Hn); simplify_eq; done. }
  induction fuel as [|fuel IH]; intros budget Hb; apply Hbody; intros over Ho Hne.
  - unfold tightened in Hne. lia.
  - exists fuel. split; [done|]. apply IH. destruct (Z.le_gt_cases budget 64) as [Hle|Hgt].
    + right. unfold tightened in *. lia.
    + destruct (tightened_smaller budget over Ho Hgt) as [?|Hlt]; [by right|left].
      destruct Hb as [Hb|]; [|lia].
      assert (tightened budget over / 17 ≤ budget / 17 - 1).
      { change (budget / 17 - 1) with (budget / 17 + -1). rewrite <-Z.div_add by done. apply Z.div_le_mono; lia. }
      assert (0 ≤ tightened budget over / 17) by (apply Z.div_pos; unfold tightened; lia). lia.
Qed.

Lemma prepare_batches_spec s units : ∃ r, prepare_batches s units = Some r ∧ prepared s units r.
Proof. apply prepare_within_spec. left. unfold budget_fuel. lia. Qed.

(** C22: the batches of a window are prepared or refused, never lost in a loop or a panic.  Prepared, they hold
    every memory and every relationship of the units once, each batch closed under its relationships,
    within the server's row ceilings and the byte limit as sent, checksummed and signed under the
    session's identity and the negotiated fingerprint; refused, a unit is malformed or draft keys of the
    units are named that do not fit. *)
Theorem prepare_batches_exact s units : ∃ r, prepare_batches s units = Some r ∧ prepared s units r.
Proof. apply prepare_batches_spec. Qed.

(** ** Acks *)

Definition class_of (row : RejectRow) : Disposition := classify (reject_of (rr_code row)).
Definition classes (ack : IngestAck) : list Disposition := class_of <$> rejections ack.
Definition permanent_rows (ack : IngestAck) : list RejectRow :=
  filter (λ row, class_of row = Permanent) (rejections ack).

(** What an ack adds to the outcome when its batch settles with it, and when its batch is sent again. *)
Definition settled_outcome (ack : IngestAck) (o : WindowOutcome) : WindowOutcome :=
  let replay := bool_decide (Success ∈ classes ack) in
  mkWindowOutcome
    (if bool_decide (rejections ack = []) || replay then as_u32 (wo_accepted o + ia_accepted ack) else wo_accepted o)
    (if replay then as_u32 (wo_duplicates o + 1) else wo_duplicates o)
    (permanent_rejections o ++ permanent_rows ack) (cursor_advanced o).
Definition retried_outcome (ack : IngestAck) (o : WindowOutcome) : WindowOutcome :=
  mkWindowOutcome (wo_accepted o) (wo_duplicates o) (permanent_rejections o ++ permanent_rows ack) (cursor_advanced o).

Lemma triage_rows_spec s rows : ∀ retry duplicate permanent (b : B),
  match triage_rows s rows retry duplicate permanent b with
  | (b', Ok r) => (FatalCode ∉ (class_of <$> rows)) ∧ b' = b ∧
      r = (retry || bool_decide (Retry ∈ class_of <$> rows), duplicate || bool_decide (Success ∈ class_of <$> rows),
           permanent ++ filter (λ row, class_of row = Permanent) rows)
  | (_, Err _) => FatalCode ∈ (class_of <$> rows)
  end.
Proof.
  induction rows as [|row rows IH]; intros retry duplicate permanent b; cbn [triage_rows].
  { split; [apply not_elem_of_nil|]. by rewrite !bool_decide_eq_false_2, !orb_false_r, app_nil_r by apply not_elem_of_nil. }
  rewrite fmap_cons, filter_cons. fold (class_of row). destruct (class_of row) eqn:E; cbn [triage_rows];
    [specialize (IH retry true permanent b)|specialize (IH true duplicate permanent b)
    |specialize (IH retry duplicate (permanent ++ [row]) b)|destruct (fatal_row s row b) as [b' e]; left];
    (destruct (triage_rows _ _ _ _ _ _) as [b' [[[r d] p]|e]]; [|by right]);
    destruct IH as (Hf & -> & [= -> -> ->]); (split; [by rewrite not_elem_of_cons|]); (split; [done|]);
    first [rewrite decide_False by done|rewrite decide_True by done]; rewrite <-?(assoc_L (++)); simpl;
    f_equal; f_equal; repeat case_bool_decide; rewrite ?orb_true_r, ?orb_false_r; try done; exfalso; set_solver.
Qed.

(** One batch, sent until it settles: how many calls it took, and what they add to the outcome. *)
Inductive delivered (batch : PbIngestBatch) : nat → WindowOutcome → B → WindowOutcome → B → Prop :=
  | delivered_settled o b b' ack :
      rpc_submit batch b = (b', Ok ack) → FatalCode ∉ classes ack → Retry ∉ classes ack →
      delivered batch 1 o b (settled_outcome ack o) b'
  | delivered_status n o b b1 status o' b' :
      rpc_submit batch b = (b1, Err status) → classify_status status = Retry →
      delivered batch n o b1 o' b' → delivered batch (S n) o b o' b'
  | delivered_limited n o b b1 ack o' b' :
      rpc_submit batch b = (b1, Ok ack) → FatalCode ∉ classes ack → Retry ∈ classes ack →
      delivered batch n (retried_outcome ack o) b1 o' b' → delivered batch (S n) o b o' b'.

(** The batches of a window, one after the other, each within the attempts of the policy. *)
Inductive all_delivered s : list PbIngestBatch → WindowOutcome → B → WindowOutcome → B → Prop :=
  | all_delivered_nil o b : all_delivered s [] o b o b
  | all_delivered_cons batch batches n o b o1 b1 o' b' :
      delivered batch n o b o1 b1 → Z.of_nat n ≤ Z.max 1 (max_attempts (ac_retry (config s))) →
      all_delivered s batches o1 b1 o' b' → all_delivered s (batch :: batches) o b o' b'.

Lemma triage_ack_spec s ack o (b : B) :
  match triage_ack s ack o b with
  | (b', Ok (o', Settled)) => b' = b ∧ (FatalCode ∉ classes ack) ∧ (Retry ∉ classes ack) ∧ o' = settled_outcome ack o
  | (b', Ok (o', TryAgain)) => b' = b ∧ (FatalCode ∉ classes ack) ∧ Retry ∈ classes ack ∧ o' = retried_outcome ack o
  | (_, Err _) => FatalCode ∈ classes ack
  end.
Proof.
  destruct o as [acc dup perm adv]. unfold triage_ack, settled_outcome, retried_outcome, permanent_rows, classes.
  destruct (rejections ack) as [|row rows] eqn:E.
  { split_and!; [done|apply not_elem_of_nil..|]. simpl. by rewrite app_nil_r. }
  pose proof (triage_rows_spec s (row :: rows) false false perm b) as Ht.
  destruct (triage_rows _ _ _ _ _ _) as [b' [[[r d] p]|e]]; [|done].
  destruct Ht as (Hf & -> & [= -> -> ->]). rewrite !orb_false_l.
  repeat case_bool_decide; simpl; by split_and!.
Qed.

Lemma submit_batch_spec s batch : ∀ spare attempt o w,
  let '(w', r) := submit_batch spare s batch attempt o w in
  cursor_file w' = cursor_file w ∧ (length (slept w') ≤ length (slept w) + spare)%nat ∧
  ∀ o', r = Ok o' → ∃ n, delivered batch n o (backend w) o' (backend w') ∧ (n ≤ S spare)%nat.
Proof.
  assert (Hgive : ∀ spare w w' (e : SdkError) o n, cursor_file w' = cursor_file w → slept w' = slept w →
    cursor_file w' = cursor_file w ∧ (length (slept w') ≤ length (slept w) + spare)%nat ∧
    ∀ o', Err e = Ok o' → ∃ k, delivered batch k o (backend w) o' (backend w') ∧ (k ≤ n)%nat).
  { intros spare w w' e o n Hc Hs. rewrite Hc, Hs. split_and!; [done|lia|done]. }
  induction spare as [|spare IH]; intros attempt o w; cbn [submit_batch];
    unfold authenticated_request; (destruct (metadata_value _); [|by apply Hgive]);
    destruct (rpc_submit batch (backend w)) as [b [ack|status]] eqn:E.
  all: try (pose proof (triage_ack_spec s ack o b) as Ht; destruct (triage_ack s ack o b) as [b' [[o1 []]|e]]; [| |by apply Hgive];
            destruct Ht as (-> & Hf & Hr & ->)).
  all: try case_bool_decide; try by apply Hgive.
  1,2: split_and!; [done|simpl; lia|]; intros o' [= <-]; exists 1%nat; (split; [by apply delivered_settled|lia]).
  - specialize (IH (attempt + 1) (retried_outcome ack o) (sleep s attempt (with_backend b w))).
    destruct (submit_batch _ _ _ _ _ _) as [w' r]. destruct IH as (Hc & Hl & Hd). simpl in *.
    rewrite length_app in Hl. simpl in Hl. split_and!; [done|lia|]. intros o' (n & Hn & Hln)%Hd. exists (S n).
    split; [by eapply delivered_limited|lia].
  - specialize (IH (attempt + 1) o (sleep s attempt (with_backend b w))).
    destruct (submit_batch _ _ _ _ _ _) as [w' r]. destruct IH as (Hc & Hl & Hd). simpl in *.
    rewrite length_app in Hl. simpl in Hl. split_and!; [done|lia|]. intros o' (n & Hn & Hln)%Hd. exists (S n).
    split; [by eapply delivered_status|lia].
Qed.

Lemma submit_batches_spec s batches : ∀ o w,
  let '(w', r) := submit_batches s batches o w in
  cursor_file w' = cursor_file w ∧ ∀ o', r = Ok o' → all_delivered s batches o (backend w) o' (backend w').
Proof.
  induction batches as [|batch batches IH]; intros o w; cbn [submit_batches].
  { split; [done|]. intros o' [= <-]. constructor. }
  pose proof (submit_batch_spec s batch (attempts_after_first s) 1 o w) as Hb.
  destruct (submit_batch _ _ _ _ _ _) as [w1 [o1|e]]; destruct Hb as (Hc & _ & Hd); [|done].
  specialize (IH o1 w1). destruct (submit_batches s batches o1 w1) as [w' r]. destruct IH as (Hc' & Hd').
  split; [congruence|]. intros o' Ho'. destruct (Hd o1 eq_refl) as (n & Hn & Hln).
  eapply all_delivered_cons; [done| |by apply Hd']. unfold attempts_after_first in Hln. lia.
Qed.

(** ** The window *)

Lemma observe_length seen unit : (length (observe seen unit) ≤ 16 `max` length seen)%nat.
Proof.
  unfold observe. destruct (bu_snapshot unit); [|lia]. case_bool_decide; [lia|]. rewrite length_app. simpl.
  destruct (Nat.ltb_spec 16 (length seen + 1)); rewrite ?length_drop, length_app; simpl; lia.
Qed.

Lemma foldl_observe_length units : ∀ seen, (length (foldl observe seen units) ≤ 16 `max` length seen)%nat.
Proof.
  induction units as [|u us IH]; intros seen; simpl; [lia|]. pose proof (IH (observe seen u)).
  pose proof (observe_length seen u). lia.
Qed.

(** The declared bounds hold, and no unit names a snapshot already superseded. *)
Definition within_projection s units : Prop :=
  ∀ p, ac_projection (config s) = Some p →
    window_rows units ≤ max_rows_per_window (pr_bounds p) ∧
    u64_saturating_add (rows_this_run s) (window_rows units) ≤ max_rows_per_run (pr_bounds p) ∧
    ∀ unit snapshot, unit ∈ units → bu_snapshot unit = Some snapshot →
      si_snapshot_id snapshot ∉ seen_snapshots s ∨ last (seen_snapshots s) = Some (si_snapshot_id snapshot).

Lemma projection_bounds_ok s units : projection_bounds s units = Ok tt → within_projection s units.
Proof.
  unfold projection_bounds, window_bound. intros Hb p Hp. rewrite Hp in Hb.
  destruct (Z.ltb_spec (max_rows_per_window (pr_bounds p)) (window_rows units)); [done|]. simpl in Hb.
  destruct (Z.ltb_spec (max_rows_per_run (pr_bounds p)) (u64_saturating_add (rows_this_run s) (window_rows units))); [done|].
  split_and!; [lia..|]. intros unit snapshot Hin Hs.
  destruct (omap (rewound (seen_snapshots s)) units) as [|[ob nw] l] eqn:E; [|done].
  destruct (decide (si_snapshot_id snapshot ∈ seen_snapshots s)) as [Hseen|]; [right|by left].
  destruct (last (seen_snapshots s)) as [newest|] eqn:El.
  2:{ apply last_None in El. rewrite El in Hseen. by apply elem_of_nil in Hseen. }
  destruct (String.eqb_spec (si_snapshot_id snapshot) newest) as [->|Hne]; [done|]. exfalso.
  assert (Hin' : (si_snapshot_id snapshot, newest) ∈ omap (rewound (seen_snapshots s)) units).
  { apply list_elem_of_omap. exists unit. split; [done|]. unfold rewound. rewrite Hs, El. simpl.
    by rewrite (proj2 (String.eqb_neq _ _) Hne), bool_decide_eq_true_2. }
  rewrite E in Hin'. by apply elem_of_nil in Hin'.
Qed.

(** C21: a window ends.  Refused or failed, whatever was already sent, the session and the durable cursor are
    as they were.  Accepted, it was within the declared bounds, no snapshot went back, every prepared
    batch was sent, in order, until the service settled it, each within the attempts of the policy, and
    only then the cursor file holds the window's cursor; what the outcome counts and the rejections it
    lists are those of the acks; at most sixteen snapshots are remembered. *)
Theorem submit_window_exact s units text fault w : ∃ s' w' r,
  submit_window s units text fault w = Some (s', w', r) ∧
  match r with
  | Err _ => s' = s ∧ cursor_file w' = cursor_file w
  | Ok outcome =>
      within_projection s units ∧
      (∃ batches o, prepare_batches s units = Some (Ok batches) ∧ prepared s units (Ok batches) ∧
        all_delivered s batches WindowOutcome_default (backend w) o (backend w') ∧
        outcome = mkWindowOutcome (wo_accepted o) (wo_duplicates o) (permanent_rejections o) true) ∧
      cursor_file w' = Text text ∧ cursor s' = Some text ∧ config s' = config s ∧ negotiated s' = negotiated s ∧
      rows_this_run s' = u64_saturating_add (rows_this_run s) (window_rows units) ∧
      (length (seen_snapshots s') ≤ 16 `max` length (seen_snapshots s))%nat
  end.
Proof.
  unfold submit_window. destruct (projection_bounds s units) as [[]|e] eqn:Ep; simpl; [|by eexists _, _, _].
  destruct (local_pass s units) as [[]|e]; [|by eexists _, _, _].
  destruct (prepare_batches_spec s units) as ([batches|e] & Eb & Hb); rewrite Eb; [|by eexists _, _, _].
  pose proof (submit_batches_spec s batches WindowOutcome_default w) as Hs.
  destruct (submit_batches _ _ _ _) as [w1 [o|e]]; destruct Hs as (Hc & Hd); [|by eexists _, _, _].
  destruct o as [acc dup perm adv]. specialize (Hd _ eq_refl). destruct fault as [[e|e|e]|]; simpl; try by eexists _, _, _.
  eexists _, _, _. split; [done|]. cbn beta iota. split_and!; try done; [by apply projection_bounds_ok| |apply foldl_observe_length].
  by eexists _, _.
Qed.
End session.
