(* ===== verification/Drain.v ===== *)
(** * The drain of the write-ahead log

    [crates/exocortex-client/src/drain.rs]: entries written offline are rebuilt into batches, signed
    afresh, submitted in the order of their local LSNs, and marked by what the service answers.  The
    service is the interface [Backend] of Session.v; the bearer token, which the header of a call carries
    when it is a valid metadata value, does not change what is sent. *)

From stdpp Require Import pretty strings.
From S2P Require Import Prelude Ids Kernel Packs Ontology StorageTypes Wire Entities IngestTypes.
From S2P Require Import IngestService Registration Split LocalRules Session Wal.

(* SRC crates/exocortex-client/src/drain.rs 20-21 PRODUCER_ID *)
Definition PRODUCER_ID : string := "session-wrapup".

(* SRC crates/exocortex-client/src/drain.rs 23-34 DrainReport *)
Record DrainReport := mkDrainReport {
  attempted : Z;
  synced : Z;
  failed : Z;
  still_pending : Z;
}.
Definition DrainReport_default : DrainReport := mkDrainReport 0 0 0 0.
Definition count_attempted (r : DrainReport) : DrainReport :=
  let '(mkDrainReport a s f p) := r in mkDrainReport (a + 1) s f p.
Definition count_synced (r : DrainReport) : DrainReport :=
  let '(mkDrainReport a s f p) := r in mkDrainReport a (s + 1) f p.
Definition count_failed (r : DrainReport) : DrainReport :=
  let '(mkDrainReport a s f p) := r in mkDrainReport a s (f + 1) p.
Definition count_pending (r : DrainReport) : DrainReport :=
  let '(mkDrainReport a s f p) := r in mkDrainReport a s f (p + 1).

(** ** Batch ids *)

(* SRC crates/exocortex-client/src/drain.rs 276-287 BatchIdDraft *)
Class BatchIdDraft (D : Type) := {
  bd_draft_key : D → string;
  bd_memory_type : D → string;
  bd_title : D → string;
  bd_content : D → string;
  bd_visibility : D → Z;
  bd_tags : D → list string;
}.
(* SRC crates/exocortex-client/src/drain.rs 289-296 BatchIdEdge *)
Class BatchIdEdge (E : Type) := {
  be_source_key : E → string;
  be_to_memory_id : E → string;
  be_to_draft_key : E → string;
  be_kind : E → string;
  be_strength : E → f32;
}.

#[export] Instance wire_draft_id : BatchIdDraft PbMemoryDraft := {|
  bd_draft_key := pm_draft_key; bd_memory_type := pm_memory_type; bd_title := pm_title;
  bd_content := pm_content; bd_visibility := pm_visibility; bd_tags := pm_tags;
|}.
#[export] Instance wire_edge_id : BatchIdEdge PbRelationshipDraft := {|
  be_source_key := pd_from_draft_key; be_to_memory_id := pd_to_memory_id; be_to_draft_key := pd_to_draft_key;
  be_kind := pd_kind; be_strength := pd_strength;
|}.

(** The drafts a tool call carries before they have wire form. *)
(* SRC crates/exocortex-ops/src/preflight.rs 17-34 PreflightMemoryDraft *)
Record PreflightMemoryDraft := mkPreflightDraft {
  pf_draft_key : string;
  pf_memory_type : string;
  pf_title : string;
  pf_content : string;
  pf_visibility : string;
  pf_tags : list string;
}.
(* SRC crates/exocortex-ops/src/preflight.rs 36-52 PreflightEdgeHint *)
Record PreflightEdgeHint := mkPreflightEdge {
  pe_from_draft_key : string;
  pe_to_draft_key : string;
  pe_to_memory_id : string;
  pe_kind : string;
  pe_strength : f32;
}.

(* SRC crates/exocortex-client/src/drain.rs 337-348 visibility_discriminant *)
Definition visibility_discriminant (label : string) : Z :=
  let label := str_to_lowercase label in
  if String.eqb label "private" then 0 else if String.eqb label "project" then 1
  else if String.eqb label "team" then 2 else if String.eqb label "org" then 3 else -1.

#[export] Instance preflight_draft_id : BatchIdDraft PreflightMemoryDraft := {|
  bd_draft_key := pf_draft_key; bd_memory_type := pf_memory_type; bd_title := pf_title;
  bd_content := pf_content; bd_visibility d := visibility_discriminant (pf_visibility d); bd_tags := pf_tags;
|}.
#[export] Instance preflight_edge_id : BatchIdEdge PreflightEdgeHint := {|
  be_source_key := pe_from_draft_key; be_to_memory_id := pe_to_memory_id; be_to_draft_key := pe_to_draft_key;
  be_kind := pe_kind; be_strength := pe_strength;
|}.

Section ids.
Context `{Blake3} {D E : Type} `{BatchIdDraft D, BatchIdEdge E}.

Definition draft_preimage (d : D) : list Z :=
  as_bytes (bd_draft_key d) ++ [30] ++ as_bytes (bd_memory_type d) ++ [30] ++ as_bytes (bd_title d) ++ [30] ++
  as_bytes (bd_content d) ++ [30] ++ le_bytes 4 (wrap 32 (bd_visibility d)) ++
  (bd_tags d ≫= λ t, as_bytes t ++ [31]) ++ [30].
Definition edge_preimage (r : E) : list Z :=
  as_bytes (be_source_key r) ++ [30] ++ as_bytes (be_to_memory_id r) ++ [30] ++
  as_bytes (be_to_draft_key r) ++ [30] ++ as_bytes (be_kind r) ++ [30] ++
  le_bytes 4 (f32_to_bits (be_strength r)).

(* SRC crates/exocortex-client/src/drain.rs 389-429 content_batch_id *)
Definition content_batch_id (session_id : string) (drafts : list D) (rels : list E) : string :=
  hex (blake3 (as_bytes session_id ++ (drafts ≫= draft_preimage) ++ (rels ≫= edge_preimage))).
End ids.

(* SRC crates/exocortex-client/src/drain.rs 431-439 hex16 *)
Definition hex16 (b : list Z) : string := hex b.

(** ** Rebuilding a batch *)

(** Collecting, stopped by the first error, or by an index out of bounds. *)
Fixpoint try_collect {A B E} (f : A → option (result B E)) (l : list A) : option (result (list B) E) :=
  match l with
  | [] => Some (Ok [])
  | x :: l =>
      match f x with
      | None => None
      | Some (Err e) => Some (Err e)
      | Some (Ok y) =>
          match try_collect f l with
          | Some (Ok ys) => Some (Ok (y :: ys))
          | r => r
          end
      end
  end.

Section rebuild.
Context `{Blake3} (o : Ontology) (fingerprint : list Z) (org_id : string).

Definition wire_draft (entry : WalEntry) (i : nat) (d : MemoryDraft) : option (result PbMemoryDraft string) :=
  match memory_type_names o !! Z.to_nat (d_memory_type d) with
  | None => Some (Err ("memory type id " +:+ pretty (d_memory_type d) +:+ " no longer resolves"))
  | Some label =>
      match we_draft_keys entry !! i, we_memory_ids entry !! i with
      | Some key, Some id => Some (Ok {|
          pm_draft_key := key;
          pm_id := hex16 (mid_bytes id);
          pm_memory_type := label;
          pm_title := d_title d;
          pm_content := d_content d;
          pm_tags := default [] (we_tags entry !! i);
          pm_visibility := vis_u8 (d_visibility d);
          pm_valid_from := None;
          pm_valid_until := None;
          pm_external_key := None;
          pm_rights := None;
        |})
      | _, _ => None
      end
  end.

(** [entry.memory_ids.iter().position(..)]. *)
Definition position (id : MemoryId) (ids : list MemoryId) : option nat :=
  fst <$> list_find (λ x, x = id) ids.

Definition wire_edge (entry : WalEntry) (i : nat) (d : MemoryDraft) (hint : EdgeHint)
    : option (result (option PbRelationshipDraft) string) :=
  match position (eh_to hint) (we_memory_ids entry) with
  | None => Some (Ok None)
  | Some to_pos =>
      match kinds_by_id o !! eh_kind hint with
      | None => Some (Err ("kind id RelKindId(" +:+ pretty (kind_val (eh_kind hint)) +:+ ") no longer resolves"))
      | Some k =>
          match we_memories entry !! to_pos, we_draft_keys entry !! i, we_draft_keys entry !! to_pos with
          | Some to, Some from_key, Some to_key => Some (Ok (Some {|
              pd_from_draft_key := from_key;
              pd_to_draft_key := to_key;
              pd_kind := display_name k;
              pd_strength := default f32_zero (eh_strength hint);
              pd_confidence := default (f32_hundredths 80) (eh_confidence hint);
              pd_context := "";
              pd_visibility := vis_u8 (relationship_visibility (d_visibility d) (d_visibility to));
              pd_to_memory_id := "";
            |}))
          | _, _, _ => None
          end
      end
  end.

(** Every hint of every draft, with the draft's index. *)
Definition indexed_hints (entry : WalEntry) : list (nat * MemoryDraft * EdgeHint) :=
  imap (λ i d, (i, d)) (we_memories entry) ≫= λ p, pair p <$> d_edge_hints p.2.

(** [None] is an index out of bounds: ids or keys that are not parallel to the drafts. *)
(* SRC crates/exocortex-client/src/drain.rs 177-274 rebuild_batch *)
Definition rebuild_batch (entry : WalEntry) : option (result PbIngestBatch string) :=
  let n := length (we_memories entry) in
  let keys := we_draft_keys entry in
  if negb (length keys =? n)%nat
  then Some (Err ("entry " +:+ pretty (we_local_lsn entry) +:+ " carries " +:+ pretty (length keys) +:+
                  " draft keys for " +:+ pretty n +:+ " memories"))
  else
    match try_collect (λ p, wire_draft entry p.1 p.2) (imap (λ i d, (i, d)) (we_memories entry)) with
    | None => None
    | Some (Err e) => Some (Err e)
    | Some (Ok drafts) =>
        match try_collect (λ p, wire_edge entry p.1.1 p.1.2 p.2) (indexed_hints entry) with
        | None => None
        | Some (Err e) => Some (Err e)
        | Some (Ok rels) =>
            let rels := omap (λ r, r) rels in
            Some (Ok {|
              pb_org_id := org_id;
              pb_source_uri := "session://" +:+ we_session_id entry;
              pb_producer_id := PRODUCER_ID;
              pb_batch_id := if String.eqb (we_batch_id entry) "" then content_batch_id (we_session_id entry) drafts rels
                             else we_batch_id entry;
              pb_mapping_version := "session-wrapup:1.0.0";
              pb_ontology_fingerprint := fingerprint;
              pb_ceiling := 3;
              pb_checksum := "";
              pb_observed_at := None;
              pb_recorded_at := None;
              pb_snapshot := None;
              pb_memories := drafts;
              pb_relationships := rels;
              pb_producer := Some (mkPbProducer "" "" "" [] None);
            |})
        end
    end.
End rebuild.

(** ** The pass *)

(* SRC crates/exocortex-client/src/drain.rs 168-175 rank *)
Definition rank (d : Disposition) : Z :=
  match d with Success => 0 | Retry => 1 | Permanent => 2 | FatalCode => 3 end.

(** The worst disposition of the rejected rows, the first of them on a tie. *)
Definition worse (worst : Disposition) (row : RejectRow) : Disposition :=
  let d := classify (reject_of (rr_code row)) in if rank worst <? rank d then d else worst.
Definition worst_of (rows : list RejectRow) : Disposition := foldl worse Success rows.

(** What an ack makes of an entry. *)
Inductive Verdict := Delivered (backend_lsn : Z) | Again | Refused.
Definition verdict (ack : IngestAck) : Verdict :=
  if 0 <? ia_accepted ack then Delivered (if 0 <? ia_assigned_lsn ack then ia_assigned_lsn ack else 0)
  else match worst_of (rejections ack) with
       | Success => Delivered (ia_assigned_lsn ack)
       | Retry => Again
       | Permanent | FatalCode => Refused
       end.

Section drain.
Context `{Blake3, Hmac, WalJson}.
Context `{Message PbIngestBatch batch_ok, Message PbMemoryDraft memory_draft_ok}.
Context `{Message PbRelationshipDraft relationship_draft_ok, Message PbSnapshotInfo snapshot_info_ok}.
Context `{Message PbRegisterSource registration_ok}.
Context {B : Type} `{Backend B}.
Context (hmac_key fingerprint : list Z) (org_id : string) (o : Ontology) (node_id : string).

(** The result of a mark is dropped. *)
(* SRC crates/exocortex-client/src/drain.rs 120-166 settle *)
Definition settle (entry : WalEntry) (ack : IngestAck) (W : Wal) (report : DrainReport) : Wal * DrainReport :=
  match verdict ack with
  | Delivered backend_lsn => ((mark_synced (we_local_lsn entry) backend_lsn W).1, count_synced report)
  | Again => (W, count_pending report)
  | Refused => ((mark_failed (we_local_lsn entry) W).1, count_failed report)
  end.

(** The registration that precedes a submission. *)
Definition drain_registration (batch : PbIngestBatch) : PbRegisterSource :=
  sign_registration hmac_key (mkPbRegisterSource org_id (pb_source_uri batch) (pb_producer_id batch)
    (pb_ceiling batch) "session" (Some (mkPbProducer node_id "" "" [] None)) 1 None None).

(** How an entry leaves the pass: on to the next one, the end of the pass, or a panic. *)
Inductive Flow := Continue | Stop | Panic.

Definition drain_entry (entry : WalEntry) (W : Wal) (b : B) (report : DrainReport) : Wal * B * DrainReport * Flow :=
  let report := count_attempted report in
  match rebuild_batch o fingerprint org_id entry with
  | None => (W, b, report, Panic)
  | Some (Err _) => ((mark_failed (we_local_lsn entry) W).1, b, count_failed report, Continue)
  | Some (Ok batch) =>
      match rpc_register_source (drain_registration batch) b with
      | (b, Err _) => (W, b, count_pending report, Continue)
      | (b, Ok _) =>
          match rpc_submit (prepare_batch hmac_key batch) b with
          | (b, Ok ack) => let '(W, report) := settle entry ack W report in (W, b, report, Continue)
          | (b, Err _) => (W, b, count_pending report, Stop)
          end
      end
  end.

Fixpoint drain_entries (entries : list WalEntry) (W : Wal) (b : B) (report : DrainReport)
    : Wal * B * option DrainReport :=
  match entries with
  | [] => (W, b, Some report)
  | entry :: entries =>
      match drain_entry entry W b report with
      | (W, b, report, Continue) => drain_entries entries W b report
      | (W, b, report, Stop) => (W, b, Some report)
      | (W, b, _, Panic) => (W, b, None)
      end
  end.

(** [None] in the answer is the panic. *)
(* SRC crates/exocortex-client/src/drain.rs 36-118 drain_once *)
Definition drain_once (W : Wal) (b : B) : Wal * B * option (result DrainReport WalError) :=
  match pending_entries W with
  | Err e => (W, b, Some (Err e))
  | Ok entries =>
      let '(W, b, report) := drain_entries entries W b DrainReport_default in (W, b, Ok <$> report)
  end.

(** How the passes of a drain end: nothing is left to retry, the log cannot be read, a pass panics, or the
    process ends during a pause. *)
Inductive Drained := Quiescent | Unreadable | Panicked | Interrupted.

(** One pass for the start and one after each pause; [others] is what becomes of the log and the service
    during the pauses. *)
(* SRC crates/exocortex-client/src/drain.rs 441-487 drain_all *)
Fixpoint drain_all (others : list (Wal * B → Wal * B)) (W : Wal) (b : B) : Wal * B * Drained :=
  match drain_once W b with
  | (W, b, None) => (W, b, Panicked)
  | (W, b, Some (Ok report)) =>
      if (attempted report =? 0) || (still_pending report =? 0) then (W, b, Quiescent)
      else match others with
           | [] => (W, b, Interrupted)
           | f :: others => let '(W, b) := f (W, b) in drain_all others W b
           end
  | (W, b, Some (Err _)) =>
      match others with
      | [] => (W, b, Interrupted)
      | f :: others =>
          let '(W, b) := f (W, b) in
          match pending_count W with
          | Ok n => if n =? 0 then (W, b, Quiescent) else drain_all others W b
          | Err _ => (W, b, Unreadable)
          end
      end
  end.
End drain.
