(* ===== verification/DrainSpec.v ===== *)
(** * What the drain promises

    A service is durable when what it settled stays settled and it answers for a batch with rows as
    delivered only once the key of the batch is settled.  Over such a service a pass keeps every entry of
    the log but for the states of pending ones, and an entry it marks as synced is settled. *)

From stdpp Require Import pretty strings.
From S2P Require Import Prelude Ids Kernel Packs Ontology StorageTypes Wire Entities IngestTypes.
From S2P Require Import IngestService IngestCommit Registration Split LocalRules Session Wal Drain.

(** ** Batch ids *)

(** The id does not tell where the session ends and the first draft begins. *)
Lemma batch_id_collision `{Blake3} :
  let draft key := mkPreflightDraft key "Fix" "title" "content" "org" [] in
  content_batch_id "s" [draft "1k"%string] ([] : list PreflightEdgeHint) =
  content_batch_id "s1" [draft "k"%string] ([] : list PreflightEdgeHint).
Proof. reflexivity. Qed.

(** ** Rebuilding *)

(** Ids and keys parallel to the drafts. *)
Definition parallel (e : WalEntry) : Prop := length (we_memory_ids e) = length (we_memories e).

Lemma try_collect_total {A B E} (f : A → option (result B E)) l :
  (∀ x, x ∈ l → f x ≠ None) →
  match try_collect f l with
  | None => False
  | Some (Ok ys) => length ys = length l ∧ ∀ i x y, l !! i = Some x → ys !! i = Some y → f x = Some (Ok y)
  | Some (Err e) => ∃ x, x ∈ l ∧ f x = Some (Err e)
  end.
Proof.
  induction l as [|x l IH]; intros Hf; [simpl; split; [done|]; by intros [] ? ?|]. cbn [try_collect].
  pose proof (Hf x ltac:(by left)) as Hx. destruct (f x) as [[y|e]|] eqn:Efx; [| |done].
  - specialize (IH ltac:(intros; apply Hf; by right)). destruct (try_collect f l) as [[ys|e]|]; [| |done].
    + destruct IH as [Hl Hi]. split; [simpl; by rewrite Hl|]. intros [|i] a b; simpl; [by intros [= <-] [= <-]|apply Hi].
    + destruct IH as (a & Ha & Ea). exists a. split; [by right|done].
  - exists x. split; [by left|done].
Qed.

Section rebuild.
Context `{Blake3} (o : Ontology) (fingerprint : list Z) (org_id : string).

Lemma position_spec id ids i : position id ids = Some i → ids !! i = Some id ∧ (i < length ids)%nat.
Proof.
  unfold position. destruct (list_find _ ids) as [[j x]|] eqn:E; [|done]. intros [= ->].
  apply list_find_Some in E as (Hi & -> & _). split; [done|]. by eapply lookup_lt_Some.
Qed.

Lemma elem_of_indexed {A B} (g : nat → A → B) (l : list A) x :
  x ∈ imap g l → ∃ i a, l !! i = Some a ∧ x = g i a.
Proof.
  intros (i & Hi)%list_elem_of_lookup. rewrite list_lookup_imap in Hi. destruct (l !! i) as [a|] eqn:E; [|done].
  injection Hi as <-. by exists i, a.
Qed.

(** The batch of an entry, when there is one: it is keyed by the entry alone, has a row for each of its
    drafts, and an entry with parallel ids never makes the rebuild panic. *)
Lemma rebuild_batch_spec e : parallel e →
  match rebuild_batch o fingerprint org_id e with
  | None => False
  | Some (Err _) => True
  | Some (Ok batch) => pb_org_id batch = org_id ∧ pb_producer_id batch = PRODUCER_ID ∧
                       length (pb_memories batch) = length (we_memories e) ∧ pb_snapshot batch = None
  end.
Proof.
  intros Hp. unfold rebuild_batch. destruct (Nat.eqb_spec (length (we_draft_keys e)) (length (we_memories e))) as [Hk|]; [|done].
  cbn [negb].
  pose proof (try_collect_total (λ p, wire_draft o e p.1 p.2) (imap (λ i d, (i, d)) (we_memories e))) as H1.
  destruct (try_collect (λ p, wire_draft o e p.1 p.2) _) as [[drafts|err]|]; [|done|].
  2:{ apply H1. intros x (i & d & Hi & ->)%elem_of_indexed. apply lookup_lt_Some in Hi. unfold wire_draft. simpl.
      destruct (memory_type_names o !! _); [|done].
      destruct (lookup_lt_is_Some_2 (we_draft_keys e) i) as [k ->]; [lia|].
      destruct (lookup_lt_is_Some_2 (we_memory_ids e) i) as [j ->]; [unfold parallel in Hp; lia|]. done. }
  assert (length drafts = length (we_memories e)) as Hdrafts.
  { destruct H1 as [Hl _]; [|by rewrite Hl, length_imap].
    intros x (i & d & Hi & ->)%elem_of_indexed. apply lookup_lt_Some in Hi. unfold wire_draft. simpl.
    destruct (memory_type_names o !! _); [|done].
    destruct (lookup_lt_is_Some_2 (we_draft_keys e) i) as [k ->]; [lia|].
    destruct (lookup_lt_is_Some_2 (we_memory_ids e) i) as [j ->]; [unfold parallel in Hp; lia|]. done. }
  pose proof (try_collect_total (λ p, wire_edge o e p.1.1 p.1.2 p.2) (indexed_hints e)) as H2.
  destruct (try_collect _ (indexed_hints e)) as [[rels|err]|]; [|done|].
  - cbn. by split_and!.
  - apply H2. intros [[i d] hint] Hin. unfold indexed_hints in Hin. apply list_elem_of_bind in Hin as (p & Hin & Hp').
    apply list_elem_of_fmap in Hin as (hint' & [= <- ->] & _). apply elem_of_indexed in Hp' as (i' & d' & Hi & [= -> ->]).
    apply lookup_lt_Some in Hi. unfold wire_edge. simpl.
    destruct (position _ _) as [j|] eqn:Hj; [|done]. apply position_spec in Hj as [_ Hj]. unfold parallel in Hp.
    destruct (kinds_by_id o !! _); [|done].
    destruct (lookup_lt_is_Some_2 (we_memories e) j) as [m ->]; [lia|].
    destruct (lookup_lt_is_Some_2 (we_draft_keys e) i') as [k1 ->]; [lia|].
    destruct (lookup_lt_is_Some_2 (we_draft_keys e) j) as [k2 ->]; [lia|]. done.
Qed.

(** The state of an entry does not matter: a retry sends what was sent before. *)
Lemma rebuild_state s e : rebuild_batch o fingerprint org_id (set_state s e) = rebuild_batch o fingerprint org_id e.
Proof. by destruct e. Qed.
End rebuild.

(** ** A durable service *)

Section drain.
Context `{Blake3, Hmac, WalJson}.
Context `{Message PbIngestBatch batch_ok, Message PbMemoryDraft memory_draft_ok}.
Context `{Message PbRelationshipDraft relationship_draft_ok, Message PbSnapshotInfo snapshot_info_ok}.
Context `{Message PbRegisterSource registration_ok}.
Context {B : Type} `{Backend B}.

Record durable (sound : B → Prop) (settled : B → IngestBatchKey → Prop) : Prop := {
  du_register r b b' x : rpc_register_source r b = (b', x) → sound b →
    sound b' ∧ ∀ k, settled b k → settled b' k;
  du_submit batch b b' x : rpc_submit batch b = (b', x) → sound b →
    sound b' ∧ ∀ k, settled b k → settled b' k;
  du_told batch b b' ack n : rpc_submit batch b = (b', Ok ack) → sound b → pb_memories batch ≠ [] →
    verdict ack = Delivered n → settled b' (batch_key batch);
}.

Context (hmac_key fingerprint : list Z) (org_id : string) (o : Ontology) (node_id : string).
Context (sound : B → Prop) (settled : B → IngestBatchKey → Prop) (Hdur : durable sound settled).
Implicit Types (log : list WalEntry) (e : WalEntry) (W : Wal).

(** The key an entry is submitted under. *)
Definition delivered (b : B) e : Prop :=
  ∃ batch, rebuild_batch o fingerprint org_id e = Some (Ok batch) ∧ settled b (batch_key batch).
(** An entry that cannot be shaped, or that the service refused for good. *)
Definition rejected e : Prop :=
  (∃ m, rebuild_batch o fingerprint org_id e = Some (Err m)) ∨
  ∃ batch b b' ack, rebuild_batch o fingerprint org_id e = Some (Ok batch) ∧
    rpc_submit (prepare_batch hmac_key batch) b = (b', Ok ack) ∧ verdict ack = Refused.

(** What a pass makes of an entry. *)
Definition drained (b : B) e e' : Prop :=
  e' = e ∨ (we_state e = Pending ∧
    ((∃ n, e' = set_state (Synced n) e ∧ delivered b e) ∨ (e' = set_state Failed e ∧ rejected e))).

(** The log can record every state of its entries, and its pending entries have rows and parallel ids. *)
Definition drainable log : Prop :=
  Forall (λ e, (∀ s, entry_fits (set_state s e)) ∧ (we_state e = Pending → parallel e ∧ we_memories e ≠ [])) log.

Lemma prepare_key batch : batch_key (prepare_batch hmac_key batch) = batch_key batch.
Proof. unfold prepare_batch, sign_batch. by destruct batch as [? ? ? ? ? ? ? ? ? ? ? ? ? []]. Qed.
Lemma prepare_memories batch : pb_memories (prepare_batch hmac_key batch) = pb_memories batch.
Proof. unfold prepare_batch, sign_batch. by destruct batch as [? ? ? ? ? ? ? ? ? ? ? ? ? []]. Qed.

Lemma drained_trans b b' e1 e2 e3 :
  (∀ k, settled b k → settled b' k) → drained b e1 e2 → drained b' e2 e3 → drained b' e1 e3.
Proof.
  intros Hmono [->|(Hp & H12)]; [done|]. intros [->|(Hp2 & _)].
  - right. split; [done|]. destruct H12 as [(n & -> & batch & Hb & Hs)|?]; [|by right]. left. exists n. split; [done|].
    exists batch. auto.
  - destruct H12 as [(n & -> & _)|[-> _]]; by destruct e1.
Qed.
Lemma drained_all_trans b b' l1 l2 l3 :
  (∀ k, settled b k → settled b' k) → Forall2 (drained b) l1 l2 → Forall2 (drained b') l2 l3 → Forall2 (drained b') l1 l3.
Proof.
  intros Hm H12. revert l3. induction H12 as [|x y l1 l2 Hxy _ IH]; intros l3 H23; inversion H23; subst; constructor; [|auto].
  by eapply drained_trans.
Qed.
Lemma drained_refl b log : Forall2 (drained b) log log.
Proof. induction log; constructor; [by left|done]. Qed.

Lemma drainable_drained b log log' : drainable log → Forall2 (drained b) log log' → drainable log'.
Proof.
  intros Hd Hf. unfold drainable in *. induction Hf as [|e e' log log' He _ IH]; [done|].
  apply Forall_cons in Hd as [[He1 He2] Hd]. constructor; [|by apply IH].
  assert (Hset : ∀ s s' x, set_state s (set_state s' x) = set_state s x) by done.
  destruct He as [->|(Hp & [(n & -> & _)|[-> _]])]; [done|..]; (split; [intros s; rewrite Hset; apply He1|done]).
Qed.

(** ** One mark *)

Lemma same_lsn W l1 e l2 e' : repr W (l1 ++ e :: l2) → e' ∈ l1 ++ e :: l2 → we_local_lsn e' = we_local_lsn e → e' = e.
Proof.
  intros [_ Hs _] He' Hl. apply StronglySorted_app in Hs as (Hlt & _ & Hs2).
  apply StronglySorted_inv in Hs2 as [_ Hs2]. rewrite Forall_forall in Hs2.
  apply elem_of_app in He' as [He'|[->|He']%elem_of_cons]; [|done|].
  - specialize (Hlt e' e He' ltac:(by left)). lia.
  - specialize (Hs2 e' He'). lia.
Qed.

Lemma mark_log W l1 e l2 s : repr W (l1 ++ e :: l2) → entry_fits (set_state s e) →
  repr (update_state (we_local_lsn e) (set_state s) W).1 (l1 ++ set_state s e :: l2).
Proof.
  intros Hr (js & Hjs & Hlen). pose proof (update_repr W l1 e l2 s Hr) as Hu.
  assert (marks_fit (we_local_lsn e) s (l1 ++ e :: l2)) as Hm.
  { intros e' js' He' Hl Hjs'. rewrite (same_lsn W l1 e l2 e' Hr He' Hl) in Hjs'. congruence. }
  destruct (update_state _ _ W) as [W' [u|x]]; [by apply Hu|]. destruct (Hu Hm) as [_ (y & Hy)]. congruence.
Qed.

(** ** One entry *)

(** What a step makes of the log, the service and the report, when it leaves [e] to a later pass or not. *)
Lemma entry_spec l1 e l2 W b report W' b' report' flow :
  repr W (l1 ++ e :: l2) → drainable (l1 ++ e :: l2) → we_state e = Pending → sound b →
  drain_entry hmac_key fingerprint org_id o node_id e W b report = (W', b', report', flow) →
  flow ≠ Panic ∧ sound b' ∧ (∀ k, settled b k → settled b' k) ∧ attempted report' = attempted report + 1 ∧
  attempted report' - synced report' - failed report' - still_pending report'
    = attempted report - synced report - failed report - still_pending report ∧
  synced report ≤ synced report' ∧ failed report ≤ failed report' ∧
  ∃ e', repr W' (l1 ++ e' :: l2) ∧ drained b' e e' ∧
    ((e' = e ∧ still_pending report' = still_pending report + 1) ∨
     (flow = Continue ∧ we_state e' ≠ Pending ∧ still_pending report' = still_pending report)).
Proof.
  intros Hr Hd Hpend Hs. unfold drain_entry. destruct report as [a sy fa pe]. cbn [count_attempted].
  assert ((∀ s, entry_fits (set_state s e)) ∧ (we_state e = Pending → parallel e ∧ we_memories e ≠ [])) as [Hfit Hpar].
  { unfold drainable in Hd. rewrite Forall_forall in Hd. apply Hd. set_solver. }
  destruct (Hpar Hpend) as [Hp Hne]. pose proof (rebuild_batch_spec o fingerprint org_id e Hp) as Hb.
  destruct (rebuild_batch o fingerprint org_id e) as [[batch|m]|] eqn:Hbatch; [| |done].
  2:{ intros [= <- <- <- <-]. simpl. split_and!; [done|done|done|lia|lia|lia|lia|]. exists (set_state Failed e).
      split; [by apply mark_log|]. split; [right; split; [done|right]; split; [done|left; by exists m]|]. right. by destruct e. }
  destruct (rpc_register_source _ b) as [b1 x] eqn:Hreg. destruct (du_register _ _ Hdur _ _ _ _ Hreg Hs) as [Hs1 Hm1].
  destruct x as [ceiling|status].
  2:{ intros [= <- <- <- <-]. simpl. split_and!; [done|done|done|lia|lia|lia|lia|]. exists e. split; [done|]. split; [by left|].
      by left. }
  destruct (rpc_submit _ b1) as [b2 y] eqn:Hsub. destruct (du_submit _ _ Hdur _ _ _ _ Hsub Hs1) as [Hs2 Hm2].
  destruct y as [ack|status].
  2:{ intros [= <- <- <- <-]. simpl. split_and!; [done|done|auto|lia|lia|lia|lia|]. exists e. split; [done|]. split; [by left|].
      by left. }
  unfold settle. destruct (verdict ack) as [n| |] eqn:Hv; intros [= <- <- <- <-]; simpl;
    (split_and!; [done|done|auto|lia|lia|lia|lia|]).
  - exists (set_state (Synced n) e). split; [by apply mark_log|]. split; [|right; by destruct e].
    right. split; [done|]. left. exists n. split; [done|]. exists batch. split; [done|].
    rewrite <-prepare_key. eapply (du_told _ _ Hdur); [exact Hsub|done| |exact Hv]. rewrite prepare_memories.
    destruct Hb as (_ & _ & Hl & _). intros Hnil. rewrite Hnil in Hl. by destruct (we_memories e).
  - exists e. split; [done|]. split; [by left|]. by left.
  - exists (set_state Failed e). split; [by apply mark_log|]. split; [|right; by destruct e].
    right. split; [done|]. right. split; [done|]. right. by exists batch, b1, b2, ack.
Qed.

(** ** The pass *)

(** Every pending entry of [log'] was pending before. *)
Lemma drained_pending b e e' : drained b e e' → we_state e' = Pending → e' = e.
Proof. intros [->|(_ & [(n & -> & _)|[-> _]])]; [done|by destruct e..]. Qed.

Lemma entries_spec entries pre post W b report W' b' r :
  (* [entries] are the pending entries after [pre] *)
  List.filter is_pending post = entries → repr W (pre ++ post) → drainable (pre ++ post) → sound b →
  drain_entries hmac_key fingerprint org_id o node_id entries W b report = (W', b', r) →
  sound b' ∧ (∀ k, settled b k → settled b' k) ∧ ∃ report' post',
    r = Some report' ∧ repr W' (pre ++ post') ∧ Forall2 (drained b') post post' ∧
    attempted report' - synced report' - failed report' - still_pending report'
      = attempted report - synced report - failed report - still_pending report ∧
    attempted report ≤ attempted report' ≤ attempted report + Z.of_nat (length entries) ∧
    still_pending report ≤ still_pending report' ∧ synced report ≤ synced report' ∧ failed report ≤ failed report' ∧
    (still_pending report' = still_pending report → Forall (λ e, we_state e ≠ Pending) post').
Proof.
  revert pre post W b report. induction entries as [|e entries IH]; intros pre post W b report Hf Hr Hd Hs.
  { simpl. intros [= <- <- <-]. split; [done|]. split; [done|]. exists report, post.
    split_and!; [done|done|apply drained_refl|done|lia|simpl; lia|lia|lia|lia|]. intros _. apply Forall_forall. intros e He Hp.
    assert (e ∈ List.filter is_pending post) as Hin.
    { apply list_elem_of_In, List.filter_In. split; [by apply list_elem_of_In|]. unfold is_pending. by apply bool_decide_eq_true. }
    rewrite Hf in Hin. by apply not_elem_of_nil in Hin. }
  assert (∃ skip rest, post = skip ++ e :: rest ∧ Forall (λ x, we_state x ≠ Pending) skip ∧ we_state e = Pending ∧
            List.filter is_pending rest = entries) as (skip & rest & -> & Hskip & Hpend & Hrest).
  { clear -Hf. induction post as [|x post IH]; [done|]. simpl in Hf. unfold is_pending at 1 in Hf.
    case_bool_decide as Hx.
    - injection Hf as -> Hf. exists [], post. by split_and!.
    - destruct (IH Hf) as (skip & rest & -> & ? & ? & ?). exists (x :: skip), rest. split_and!; [done| |done..].
      by constructor. }
  cbn [drain_entries]. destruct (drain_entry _ _ _ _ _ e W b report) as [[[W1 b1] report1] flow] eqn:He.
  rewrite (assoc_L (++)) in Hr, Hd. pose proof (entry_spec _ _ _ _ _ _ _ _ _ _ Hr Hd Hpend Hs He) as
    (Hflow & Hs1 & Hm1 & Ha1 & Hbal & Hsy & Hfa & e' & Hr1 & Hde & Hcase).
  assert (Hd1 : drainable ((pre ++ skip) ++ e' :: rest)).
  { eapply (drainable_drained b1); [exact Hd|]. apply Forall2_app; [apply drained_refl|]. constructor; [done|apply drained_refl]. }
  destruct flow; [|intros [= <- <- <-]|done].
  - replace ((pre ++ skip) ++ e' :: rest) with ((pre ++ skip ++ [e']) ++ rest) in Hr1, Hd1 by (by rewrite <-!(assoc_L (++))).
    intros Hx. destruct (IH _ _ _ _ _ Hrest Hr1 Hd1 Hs1 Hx) as (Hs2 & Hm2 & report' & post' & -> & Hr2 & Hd2 & Hb2 & Ha2 & Hp2 & Hsy2 & Hfa2 & Hq2).
    split; [done|]. split; [auto|]. exists report', (skip ++ e' :: post'). split_and!; [done| | |lia|lia|simpl; lia|lia|lia|lia|].
    + by rewrite <-!(assoc_L (++)) in Hr2.
    + eapply (drained_all_trans b1); [exact Hm2|apply Forall2_app; [apply (drained_refl b1)|]|].
      * constructor; [exact Hde|apply (drained_refl b1)].
      * apply Forall2_app; [apply drained_refl|]. constructor; [by left|done].
    + intros Heq. destruct Hcase as [[-> Hst]|(_ & Hst & Hst')]; [lia|].
      apply Forall_app. split; [done|]. constructor; [done|]. apply Hq2. lia.
  - split; [done|]. split; [done|]. exists report1, (skip ++ e' :: rest).
    destruct Hcase as [[-> Hst]|(Hc & _)]; [|done].
    split_and!; [done|by rewrite <-!(assoc_L (++)) in Hr1|apply drained_refl|lia|lia|simpl; lia|lia|lia|lia|lia].
Qed.

(** A pass over a durable service never panics and never fails; it changes nothing of the log but the state
    of pending entries, marks an entry synced only when the service has settled its key, and failed only
    when it cannot be shaped or was refused for good; its report accounts for every entry it tried; and
    when it leaves nothing to retry, nothing is pending. *)
Theorem drain_exact W log b W' b' r :
  repr W log → drainable log → sound b →
  drain_once hmac_key fingerprint org_id o node_id W b = (W', b', r) →
  sound b' ∧ (∀ k, settled b k → settled b' k) ∧
  ∃ report log', r = Some (Ok report) ∧ repr W' log' ∧ Forall2 (drained b') log log' ∧
    attempted report = synced report + failed report + still_pending report ∧
    0 ≤ attempted report ≤ Z.of_nat (length (List.filter is_pending log)) ∧
    (attempted report = 0 ∨ still_pending report = 0 → Forall (λ e, we_state e ≠ Pending) log').
Proof.
  intros Hr Hd Hs. unfold drain_once, pending_entries. rewrite (decoded_repr W log Hr). cbn [result_bind].
  destruct (drain_entries _ _ _ _ _ _ W b DrainReport_default) as [[W1 b1] r1] eqn:He. intros [= <- <- <-].
  destruct (entries_spec _ [] log W b _ _ _ _ eq_refl Hr Hd Hs He) as
    (Hs1 & Hm & report & log' & -> & Hr1 & Hd1 & Hbal & Ha & Hp & Hsy & Hfa & Hq). simpl in *.
  split; [done|]. split; [done|]. exists report, log'. split_and!; [done..|lia|lia|lia|].
  intros Hz. apply Hq. lia.
Qed.

(** ** Passes until nothing is left *)

(** What a log becomes: its entries drained, and new ones after them. *)
Definition progress (b : B) log log' : Prop := ∃ kept new, log' = kept ++ new ∧ Forall2 (drained b) log kept.

(** What happens during a pause: appends, other drains, other calls of the service. *)
Definition harmless (f : Wal * B → Wal * B) : Prop :=
  ∀ W b log W' b', repr W log → drainable log → sound b → f (W, b) = (W', b') →
    sound b' ∧ (∀ k, settled b k → settled b' k) ∧ ∃ log', repr W' log' ∧ drainable log' ∧ progress b' log log'.

Lemma progress_trans b b' l1 l2 l3 :
  (∀ k, settled b k → settled b' k) → progress b l1 l2 → progress b' l2 l3 → progress b' l1 l3.
Proof.
  intros Hm (k1 & n1 & -> & Hk1) (k2 & n2 & -> & Hk2). apply Forall2_app_inv_l in Hk2 as (k3 & k4 & Hk3 & _ & ->).
  exists k3, (k4 ++ n2). split; [by rewrite (assoc_L (++))|]. by eapply drained_all_trans.
Qed.

(** The drain ends - if it does not, that is because the process was interrupted during a pause - with no
    pending entry in the log, whatever was appended meanwhile. *)
Theorem drain_all_exact others W log b W' b' q :
  Forall harmless others → repr W log → drainable log → sound b →
  drain_all hmac_key fingerprint org_id o node_id others W b = (W', b', q) →
  sound b' ∧ (∀ k, settled b k → settled b' k) ∧
  ∃ log', repr W' log' ∧ progress b' log log' ∧
    match q with
    | Quiescent => Forall (λ e, we_state e ≠ Pending) log'
    | Interrupted => True
    | Unreadable | Panicked => False
    end.
Proof.
  intros Ho. revert W log b. induction Ho as [|f others Hf _ IH]; intros W log b Hr Hd Hs; cbn [drain_all];
    destruct (drain_once _ _ _ _ _ W b) as [[W1 b1] r] eqn:Hx;
    destruct (drain_exact W log b W1 b1 r Hr Hd Hs Hx) as (Hs1 & Hm1 & report & log1 & -> & Hr1 & Hd1 & _ & _ & Hq).
  - assert (progress b1 log log1) as Hp by (exists log1, []; by rewrite app_nil_r).
    destruct (_ || _) eqn:E; intros [= <- <- <-]; (split; [done|]; split; [done|]; exists log1; split_and!; [done..|]); [|done].
    apply Hq. by apply orb_true_iff in E as [?%Z.eqb_eq|?%Z.eqb_eq]; [left|right].
  - assert (progress b1 log log1) as Hp by (exists log1, []; by rewrite app_nil_r).
    destruct (_ || _) eqn:E.
    + intros [= <- <- <-]. split; [done|]. split; [done|]. exists log1. split_and!; [done..|].
      apply Hq. by apply orb_true_iff in E as [?%Z.eqb_eq|?%Z.eqb_eq]; [left|right].
    + destruct (f (W1, b1)) as [W2 b2] eqn:Hf2. intros Hrest.
      destruct (Hf _ _ _ _ _ Hr1 (drainable_drained _ _ _ Hd Hd1) Hs1 Hf2) as (Hs2 & Hm2 & log2 & Hr2 & Hd2 & Hp2).
      destruct (IH _ _ _ Hr2 Hd2 Hs2 Hrest) as (Hs3 & Hm3 & log3 & Hr3 & Hp3 & Hend).
      split; [done|]. split; [auto|]. exists log3. split; [done|]. split; [|done].
      eapply (progress_trans b2); [done|by eapply (progress_trans b1)|done].
Qed.
End drain.
