(* ===== verification/DrainServer.v ===== *)
(** * The drain against the ingest service

    The other side of the drain's calls: [register_source] and [submit] of one node of the service
    ([crates/exocortex-ingest/src/service.rs]) over its in-memory store, behind a channel that may not reach
    the node or lose its answer, while other clients submit.  The node is a durable service, so a
    drain delivers what it reports as delivered. *)

From stdpp Require Import pretty strings.
From S2P Require Import Prelude Ids Kernel Packs Ontology StorageTypes Graph Reads Ingest Governed Storage.
From S2P Require Import Wire Entities IngestTypes Grouping IngestService IngestCommit Registration IngestSpec.
From S2P Require Import CommitSpec SubmitSpec Split LocalRules Session SessionSpec Wal Drain DrainSpec.

(** What becomes of a call: it is answered, it is served and the answer is lost, or it does not arrive. *)
Inductive Fate := Answered | AnswerLost | Unreached.

(** The number of a status code on the wire. *)
Definition code_number (c : StatusCode) : Z :=
  match c with
  | InvalidArgument => 3 | PermissionDeniedCode => 7 | FailedPrecondition => 9 | Internal => 13
  | Unauthenticated => 16
  end.
Definition rpc_status (s : Status) : RpcStatus := mkRpcStatus (code_number (st_code s)) (st_message s).
Definition unavailable : RpcStatus := mkRpcStatus 14 "transport error".

(** The answer the caller sees. *)
Definition carry {A B} (fate : Fate) (f : A → B) (r : result A Status) : result B RpcStatus :=
  match fate with
  | Answered => match r with Ok a => Ok (f a) | Err s => Err (rpc_status s) end
  | _ => Err unavailable
  end.

(** The key of the replay registry and the key of the store are one triple. *)
Definition store_key (k : SourceKey) : IngestBatchKey := mkIngestBatchKey k.1.1 k.1.2 k.2.
Definition settled_in (st : Store) (key : IngestBatchKey) : Prop := is_Some (settled_ingest (ingest st) !! key).

Section node.
Context `{Blake3, Sha256, HashOrder, SerdeJson, Regex, FromTimestamp, Hmac, Chrono}.
Context `{Message PbIngestBatch batch_ok, Message PbMemoryDraft memory_draft_ok}.
Context `{Message PbRelationshipDraft relationship_draft_ok, Message PbSnapshotInfo snapshot_info_ok}.
Context `{Message PbRegisterSource registration_ok}.
Context `{Lsrc : Lru SourceKey SourceEntry, Lack : Lru SourceKey IngestAck}.
Context (o : Ontology) (recognized : list (list Z)).
#[local] Instance node_store : IngestStore Store := in_memory_ingest o recognized.

(** A submission of another client: its principal, its batch, and what the request reads. *)
Definition Visit : Type := option VisibilityContext * PbIngestBatch * Ambient.

(** The node's configuration, the caller's principal, and what each call meets, by its number: the
    submissions served before it, the clocks it reads, whether the registry file can be replaced, and
    its fate.  [manifest_json] is the JSON of a manifest. *)
Record Setting := mkSetting {
  server : IngestServer;
  principal : option VisibilityContext;
  visits : nat → list Visit;
  ambient : nat → Ambient;
  write_ok : nat → bool;
  fate : nat → Fate;
  manifest_json : ValidationManifest → string;
}.
Context (N : Setting).

Record Node := mkNode { n_shared : Shared; n_disk : Disk; n_store : Store; n_calls : nat }.

(** The submissions of others, in turn. *)
Fixpoint serve (l : list Visit) (w : Shared) (st : Store) : Shared * Store :=
  match l with
  | [] => (w, st)
  | (p, batch, amb) :: l =>
      let '(w, st, _, _) := submit (server N) p batch amb w st in serve l w st
  end.

(** The node when call [n] begins. *)
Definition arrive (b : Node) : Node :=
  let '(mkNode w disk st n) := b in
  let '(w, st) := serve (visits N n) w st in mkNode w disk st n.

Definition call_submit (batch : PbIngestBatch) (b : Node) : Node * result IngestAck RpcStatus :=
  let '(mkNode w disk st n) := arrive b in
  match fate N n with
  | Unreached => (mkNode w disk st (S n), Err unavailable)
  | f =>
      let '(w, st, _, r) := submit (server N) (principal N) batch (ambient N n) w st in
      (mkNode w disk st (S n), carry f id r)
  end.

Definition call_preflight (batch : PbIngestBatch) (b : Node) : Node * result IngestAck RpcStatus :=
  let '(mkNode w disk st n) := arrive b in
  match fate N n with
  | Unreached => (mkNode w disk st (S n), Err unavailable)
  | f =>
      let '(w, st, _, r) := preflight (server N) (principal N) batch (ambient N n) w st in
      (mkNode w disk st (S n), carry f id r)
  end.

Definition call_register (r : PbRegisterSource) (b : Node) : Node * result Z RpcStatus :=
  let '(mkNode w disk st n) := arrive b in
  match fate N n with
  | Unreached => (mkNode w disk st (S n), Err unavailable)
  | f =>
      let '(w, disk, st, r) := register_source (server N) (principal N) r (write_ok N n) (at_batch (ambient N n))
                                 (commit_clock (ambient N n)) w disk st in
      (mkNode w disk st (S n), carry f vis_u8 r)
  end.

Definition call_manifest (org source_uri producer_id : string) (b : Node)
    : Node * result (list Z * string) RpcStatus :=
  let '(mkNode w disk st n) := arrive b in
  match fate N n with
  | Unreached => (mkNode w disk st (S n), Err unavailable)
  | f =>
      let '(w, r) := get_validation_manifest (server N) (principal N) org source_uri producer_id w in
      (mkNode w disk st (S n), carry f (λ a, (a.2, manifest_json N a.1)) r)
  end.

Definition call_fingerprint (b : Node) : Node * result (list Z) RpcStatus :=
  let '(mkNode w disk st n) := arrive b in
  match fate N n with
  | Unreached => (mkNode w disk st (S n), Err unavailable)
  | f => (mkNode w disk st (S n), carry f fst (fingerprint_response (server N) (principal N)))
  end.

#[local] Instance node_backend : Backend Node := {|
  rpc_fingerprint := call_fingerprint;
  rpc_register_source := call_register;
  rpc_get_manifest := call_manifest;
  rpc_submit := call_submit;
  rpc_preflight := call_preflight;
|}.

(** ** What is settled stays settled *)

(** The replay registry remembers settled batches only. *)
Definition remembers (w : Shared) (st : Store) : Prop :=
  ∀ k ack, lru_peek k (seen_batches w) = Some ack → settled_in st (store_key k).

(** From one store and registry to later ones. *)
Definition forward_step (w : Shared) (st : Store) (w' : Shared) (st' : Store) : Prop :=
  (∀ key, settled_in st key → settled_in st' key) ∧ (remembers w st → remembers w' st').

Lemma forward_refl w st : forward_step w st w st.
Proof. by split. Qed.
Lemma forward_trans w1 st1 w2 st2 w3 st3 :
  forward_step w1 st1 w2 st2 → forward_step w2 st2 w3 st3 → forward_step w1 st1 w3 st3.
Proof. intros [Ha1 Ha2] [Hb1 Hb2]. split; auto. Qed.

(** Data and registry unchanged. *)
Lemma forward_same w st w' st' :
  ingest st' = ingest st → (∀ k, lru_peek k (seen_batches w') = lru_peek k (seen_batches w)) →
  forward_step w st w' st'.
Proof. unfold forward_step, remembers, settled_in. intros -> Hl. split; [done|]. setoid_rewrite Hl. done. Qed.

Lemma attempts_steps n batch rows clk eff (st st' : Store) r :
  storage_attempts n (is_commit clk (batch_key batch) (c_memories rows) (c_relationships rows) (c_accepted rows) eff)
    st = (st', r) →
  rtc (ingest_step o) (ingest st, graph st) (ingest st', graph st').
Proof.
  revert st. induction n as [|n IH]; intros st; cbn [storage_attempts]; [by intros [= <- _]|].
  destruct (is_commit _ _ _ _ _ _ st) as [st1 r1] eqn:Hc.
  assert (ingest_step o (ingest st, graph st) (ingest st1, graph st1)) as Hstep.
  { simpl in Hc. pose proof (istep_commit_effect o clk (batch_key batch) (c_memories rows) (c_relationships rows)
      (c_accepted rows) eff (ingest st) (graph st)) as Hs.
    destruct (commit_ingest_batch_with_effect _ _ _ _ _ _ _ _ _) as [[IS g] r2].
    injection Hc as <- _. by destruct st. }
  destruct r1 as [v|e]; [intros [= <- _]; by apply rtc_once|].
  destruct (transient e && _); [intros Hr; eapply rtc_l; [exact Hstep|by apply IH]|].
  intros [= <- _]. by apply rtc_once.
Qed.

Lemma commit_rows_keeps batch rows clk (st st' : Store) r :
  commit_rows batch rows clk st = (st', r) → ∀ key, settled_in st key → settled_in st' key.
Proof.
  unfold commit_rows. destruct (storage_retry _ st) as [st1 r1] eqn:Hs. intros Hr.
  assert (st' = st1) as ->.
  { destruct r1 as [[]|]; injection Hr; congruence. }
  apply attempts_steps in Hs. intros key [s Hk].
  exists s. exact (ingest_steps_settled o _ _ key s Hs Hk).
Qed.

Lemma commit_rows_told batch rows clk (st st' : Store) v :
  commit_rows batch rows clk st = (st', Ok v) → settled_in st' (batch_key batch).
Proof.
  intros Hc%commit_rows_settled. destruct v as [[lsn n]|ack]; [destruct Hc as (_ & _ & Hs); by eexists|].
  destruct Hc as ((_ & Hi & _) & s & Hs & _). unfold settled_in. rewrite Hi. by eexists.
Qed.

(** A batch the registry comes to remember is settled. *)
Lemma forward_remember w st batch ack w' st' :
  (∀ key, settled_in st key → settled_in st' key) → settled_in st' (batch_key batch) →
  (∀ k, lru_peek k (seen_batches w') = lru_peek k (seen_batches w)) →
  forward_step w st (remember_ack batch ack w') st'.
Proof.
  intros Hk Hb Hl. split; [done|]. intros Hr k a. unfold remember_ack, put_acks. cbn [seen_batches].
  destruct (decide (k = ack_key batch)) as [->|Hne]; [by intros _|].
  destruct (lru_peek_put_ne k (ack_key batch) ack (seen_batches w') Hne) as [->| ->]; [|done].
  rewrite Hl. intros Ha. by eapply Hk, Hr.
Qed.

(** The commit's end of a submission. *)
Lemma answers_forward s batch rows amb clk w (st : Store) st2 res w' st' r :
  commit_rows batch rows clk st = (st2, res) → answers s batch rows amb w w' st2 st' res r →
  forward_step w st w' st' ∧ ∀ ack, r = Ok ack → settled_in st' (batch_key batch).
Proof.
  intros Hcr Ha. pose proof (commit_rows_keeps _ _ _ _ _ _ Hcr) as Hk. destruct res as [v'|status].
  2:{ destruct Ha as (-> & -> & ->). split; [|done]. split; [done|]. intros Hm k a Hl. by eapply Hk, Hm. }
  pose proof (commit_rows_told _ _ _ _ _ _ Hcr) as Ht. destruct v' as [[lsn n]|ack]; simpl in Ha.
  - destruct Ha as (Hst' & ack & -> & _ & ->).
    assert (ingest st' = ingest st2) as Hi by (rewrite Hst'; destruct (ingest_similarity_seeding s); [apply seed_ingest|done]).
    assert (settled_in st' = settled_in st2) as Hs by (unfold settled_in; by rewrite Hi).
    split; rewrite ?Hs; [|done]. apply forward_remember; rewrite ?Hs; [done..|].
    intros k. unfold finish_commit. destruct (pb_snapshot batch); by destruct w.
  - destruct Ha as (-> & -> & ->). split; [|done]. by apply forward_remember.
Qed.

(** A submission, whatever becomes of it. *)
Lemma submit_forward s p batch amb w (st : Store) w' st' events r :
  submit s p batch amb w st = (w', st', events, r) → forward_step w st w' st'.
Proof.
  intros [(Hq & Hr & _)|Hc]%submit_cases.
  - apply forward_same; [by apply reads_same in Hr as (_ & ? & _)|apply Hq].
  - destruct Hc as (source & rows & w1 & st1 & _ & _ & _ & _ & _ & Hr & Hq & Hc).
    destruct (commit_rows batch rows _ st1) as [st2 res] eqn:Hcr. destruct Hc as (w2 & Ha & ->).
    apply reads_same in Hr as (_ & Hi & _).
    apply (forward_trans _ _ w1 st1); [apply forward_same; [done|]; intros k; exact (q_acks _ _ Hq k)|].
    apply (forward_trans _ _ w2 st'); [|by apply forward_same].
    by apply (answers_forward _ _ _ _ _ _ _ _ _ _ _ _ Hcr Ha).
Qed.

Lemma serve_forward l : ∀ w st, forward_step w st (serve l w st).1 (serve l w st).2.
Proof.
  induction l as [|[[p batch] amb] l IH]; intros w st; simpl; [apply forward_refl|].
  destruct (submit _ p batch amb w st) as [[[w1 st1] ev] r] eqn:Hs.
  eapply forward_trans; [by eapply submit_forward|apply IH].
Qed.

(** ** A refusal says so *)

(** No verdict on a draft, an edge or a coordinate is the code of a replay. *)
Definition never_replay {A} (r : result A RejectCode) : Prop := ∀ code, r = Err code → code ≠ DuplicateBatch.

Lemma never_bind {A B} (r : result A RejectCode) (f : A → result B RejectCode) :
  never_replay r → (∀ a, never_replay (f a)) → never_replay (result_bind r f).
Proof. destruct r as [a|code]; simpl; [intros _ Hf; apply Hf|]. intros Hr _ c [= <-]. by apply Hr. Qed.
Lemma never_ok {A} (a : A) : never_replay (Ok a).
Proof. done. Qed.
Lemma never_err {A} code : code ≠ DuplicateBatch → never_replay (Err code : result A RejectCode).
Proof. by intros ? c [= <-]. Qed.

Ltac never :=
  repeat first
    [ apply never_ok | apply never_err; done
    | match goal with
      | |- never_replay (result_bind _ _) => apply never_bind; [|intros]
      | |- never_replay (ok_or ?x _) => destruct x; simpl
      | |- never_replay (let '(_, _) := ?x in _) => destruct x
      | |- never_replay (if ?b then _ else _) => destruct b
      | |- never_replay (match ?x with _ => _ end) => destruct x
      end ].

Lemma never_timestamp t : never_replay (checked_timestamp t).
Proof. unfold checked_timestamp. never. Qed.
Lemma never_vis v : never_replay (vis_from_i32 v).
Proof. unfold vis_from_i32. never. Qed.
Lemma never_times now batch : never_replay (batch_times now batch).
Proof. unfold batch_times. never; apply never_timestamp. Qed.

Lemma never_memory s batch m snapshot source times p now fresh :
  never_replay (validate_memory s batch m snapshot source times p now fresh).
Proof.
  unfold validate_memory. never; try apply never_vis; try apply never_timestamp.
  - unfold draft_scope. never.
  - unfold draft_validity. never; apply never_timestamp.
  - unfold draft_rights. never.
  - apply never_err. by destruct e.
Qed.

Lemma never_relationship s batch r ids ceiling kind times :
  never_replay (validate_relationship s batch r ids ceiling kind times).2.
Proof.
  unfold validate_relationship. repeat case_match; simpl; never.
  all: apply never_err; by eapply never_vis.
Qed.

(** An ack that commits nothing and has a row that is not a replay's. *)
Definition outspoken (ack : IngestAck) : Prop :=
  ia_accepted ack = 0 ∧ Exists (λ row, class_of row ≠ Success) (rejections ack).

Lemma class_of_code k code detail : code ≠ DuplicateBatch → class_of (mkRejectRow k (reject_code code) detail) ≠ Success.
Proof. by destruct code. Qed.

Lemma worst_of_at_least rows : ∀ w, rank w ≤ rank (foldl worse w rows) ∧
  Forall (λ row, rank (class_of row) ≤ rank (foldl worse w rows)) rows.
Proof.
  induction rows as [|row rows IH]; intros w; simpl; [split; [lia|constructor]|].
  destruct (IH (worse w row)) as [Hw Hr].
  assert (rank w ≤ rank (worse w row) ∧ rank (class_of row) ≤ rank (worse w row)) as [Ha Hb].
  { unfold worse. fold (class_of row). destruct (Z.ltb_spec (rank w) (rank (class_of row))); lia. }
  split; [lia|]. constructor; [lia|done].
Qed.

Lemma outspoken_verdict ack n : outspoken ack → verdict ack ≠ Delivered n.
Proof.
  intros [Hz Hex]. unfold verdict. rewrite Hz. cbn.
  destruct (worst_of_at_least (rejections ack) Success) as [_ Hall]. fold (worst_of (rejections ack)) in Hall.
  destruct (worst_of _); [|done..]. exfalso. rewrite Forall_forall in Hall.
  apply Exists_exists in Hex as (row & Hin & Hrow). specialize (Hall row Hin). by destruct (class_of row).
Qed.

Lemma reject_all_outspoken batch code detail :
  pb_memories batch ≠ [] → code ≠ DuplicateBatch → outspoken (ack_reject_all batch code detail).
Proof.
  intros Hm Hc. split; [done|]. unfold ack_reject_all. cbn [rejections].
  destruct (pb_memories batch); [done|]. left. by apply class_of_code.
Qed.

Lemma reject_rows_outspoken batch rows :
  rows ≠ [] → Forall (λ row, class_of row ≠ Success) rows → outspoken (reject_rows batch rows).
Proof. intros Hr Ha. split; [done|]. cbn. destruct Ha; [done|]. by left. Qed.

Lemma rejected_of_codes {D A} (key : D → string) (l : list (D * result A RejectCode)) :
  Forall (λ v, never_replay v.2) l → Forall (λ row, class_of row ≠ Success) (rejected_of key l).
Proof.
  induction 1 as [|[d [a|code]] l Hv _ IH]; cbn; [constructor|done|].
  constructor; [|done]. apply class_of_code. by apply Hv.
Qed.

Lemma resolve_rows p loaded l : ∀ acc, Forall (λ row, class_of row ≠ Success) acc.1 →
  Forall (λ row, class_of row ≠ Success) (foldl (resolve_target p loaded) acc l).1.
Proof.
  induction l as [|[r id] l IH]; intros [rows ids] Hacc; cbn [foldl]; [done|]. apply IH. simpl in *.
  destruct (loaded !! id).
  - destruct (match p with Some _ => _ | None => _ end); [|done]. simpl. apply Forall_app. split; [done|].
    constructor; [discriminate|done].
  - simpl. apply Forall_app. split; [done|]. constructor; [discriminate|done].
Qed.

Lemma malformed_codes l : Forall (λ row, class_of row ≠ Success) (malformed_rows l).
Proof.
  unfold malformed_rows. induction l as [|[r [id|]] l IH]; cbn; [constructor|done|].
  constructor; [discriminate|done].
Qed.

Lemma admit_outspoken s batch w (st : Store) ack :
  pb_memories batch ≠ [] → admit_batch s batch w st = Err ack → outspoken ack.
Proof.
  intros Hm. unfold admit_batch, admit_batch_with. intros E. repeat case_match; simplify_eq; by apply reject_all_outspoken.
Qed.

Lemma source_outspoken s batch w w' ack :
  pb_memories batch ≠ [] → registered_source s batch w = (w', Err ack) → outspoken ack.
Proof.
  intros Hm. unfold registered_source. intros E.
  destruct (source_registry_error s); [injection E as _ <-; by apply reject_all_outspoken|].
  injection E as _ E. destruct (lru_peek _ _) as [source|]; simpl in E; [|injection E as <-; by apply reject_all_outspoken].
  destruct (vis_from_i32 _); [|injection E as <-; by apply reject_all_outspoken].
  destruct (negb _); [injection E as <-; by apply reject_all_outspoken|].
  destruct (match pb_snapshot batch with Some _ => _ | None => _ end); [injection E as <-; by apply reject_all_outspoken|].
  unfold check_projection, check_snapshot in E.
  repeat (case_match; simpl in E); simplify_eq; by apply reject_all_outspoken.
Qed.

Lemma validate_outspoken s batch source p amb (st : Store) st' events ack :
  pb_memories batch ≠ [] → validate_batch s batch source p amb st = (st', events, Ok (Err ack)) → outspoken ack.
Proof.
  intros Hm. unfold validate_batch. intros E.
  destruct (batch_times _ _) as [times|code] eqn:Et.
  2:{ injection E as _ _ <-. apply reject_all_outspoken; [done|]. by eapply never_times. }
  assert (Forall (λ v, never_replay v.2) (memory_verdicts s batch source times p amb)) as Hv.
  { apply Forall_lookup_2. intros i x Hx. unfold memory_verdicts in Hx. rewrite list_lookup_imap in Hx.
    destruct (pb_memories batch !! i); [|done]. injection Hx as <-. apply never_memory. }
  pose proof (rejected_of_codes pm_draft_key _ Hv) as Hrej.
  destruct (rejected_of pm_draft_key _) as [|row rows]; [|injection E as _ _ <-; by apply reject_rows_outspoken].
  destruct (storage_retry _ st) as [st1 [found|status]]; [|done].
  set (external := omap external_target _) in E. set (loaded := foldl _ ∅ found) in E.
  pose proof (resolve_rows p loaded (omap (λ e : PbRelationshipDraft * option MemoryId, id ← e.2; Some (e.1, id)) external)
    (malformed_rows external, keyed_of (memory_verdicts s batch source times p amb)) (malformed_codes external)) as Hres.
  destruct (foldl (resolve_target p loaded) _ _) as [rows ids]. simpl in Hres.
  destruct rows as [|row rows]; [|injection E as _ _ <-; by apply reject_rows_outspoken].
  set (edges := _ <$> pb_relationships batch) in E.
  assert (Forall (λ v, never_replay v.2) ((λ e, (e.1, e.2.2)) <$> edges)) as He.
  { apply Forall_fmap, Forall_fmap, Forall_true. intros r. apply never_relationship. }
  pose proof (rejected_of_codes edge_key _ He) as Hrej2.
  destruct (rejected_of edge_key _) as [|row rows]; [done|injection E as _ _ <-; by apply reject_rows_outspoken].
Qed.

(** A submission with rows that is answered as delivered is settled. *)
Lemma submit_told s p batch amb w (st : Store) w' st' events ack n :
  submit s p batch amb w st = (w', st', events, Ok ack) → remembers w st → pb_memories batch ≠ [] →
  verdict ack = Delivered n → settled_in st' (batch_key batch).
Proof.
  intros Hs Hr Hm Hv. assert (¬ outspoken ack) as Hno by (intros Ho; by eapply outspoken_verdict).
  pose proof (submit_forward _ _ _ _ _ _ _ _ _ _ Hs) as [Hkeep _]. revert Hs. unfold submit.
  destruct (request_principal s p) as [p'|]; [|done].
  destruct (foreign_org p' _); [done|].
  destruct (admit_batch s batch w st) as [w1|a] eqn:Had; [|intros [= _ _ _ <-]; by apply admit_outspoken in Had].
  apply admit_spec in Had as (_ & k & _ & ->). unfold replay_ack. cbn [seen_batches put_permits].
  destruct (lru_peek (ack_key batch) (seen_batches w)) as [old|] eqn:Hold; cbn [fmap option_fmap option_map].
  { intros _. apply Hkeep. exact (Hr _ _ Hold). }
  destruct (registered_source s batch _) as [w2 [source|a]] eqn:Hsrc;
    [|intros [= _ _ _ <-]; by apply source_outspoken in Hsrc].
  destruct (validate_batch s batch source p' amb st) as [[st1 ev] [[v|a]|status]] eqn:Hval; [| |done].
  2:{ intros [= _ _ _ <-]. by apply validate_outspoken in Hval. }
  destruct (commit_validated s batch source v amb w2 st1) as [[w3 st3] r] eqn:Hc. intros [= _ <- _ ->].
  apply commit_validated_answers in Hc. cbv zeta in Hc.
  destruct (commit_rows batch _ _ st1) as [st2 res] eqn:Hcr.
  by eapply (answers_forward _ _ _ _ _ _ _ _ _ _ _ _ Hcr Hc).
Qed.

(** ** The node is durable *)

Definition node_sound (b : Node) : Prop := remembers (n_shared b) (n_store b).
Definition node_settled (b : Node) : IngestBatchKey → Prop := settled_in (n_store b).

(** A registration changes neither the registry of replays nor what the store has settled. *)
Lemma register_same s p r ok now clk w disk (st : Store) w' disk' st' x :
  register_source s p r ok now clk w disk st = (w', disk', st', x) →
  seen_batches w' = seen_batches w ∧ ingest st' = ingest st.
Proof.
  unfold register_source. destruct (registration_request s p r) as [[requested declared]|]; [|by intros [= <- _ <- _]].
  destruct (registered_entry _ _ _ _ _ _) as [[entry extended]|]; [|by intros [= <- _ <- _]].
  destruct (persist_source_rows _ _ _) as [disk1|]; [|by intros [= <- _ <- _]].
  destruct extended as [projection|]; [|by intros [= <- _ <- _]].
  destruct (is_append_audit clk _ st) as [st1 [c|e]] eqn:Ha; intros [= <- _ <- _]; (split; [done|]); simpl in Ha;
    by simplify_eq; destruct st.
Qed.

Lemma arrive_forward b w disk st n : arrive b = mkNode w disk st n →
  forward_step (n_shared b) (n_store b) w st.
Proof.
  destruct b as [w0 disk0 st0 n0]. unfold arrive. pose proof (serve_forward (visits N n0) w0 st0) as Hf.
  destruct (serve _ w0 st0) as [w1 st1]. by intros [= <- _ <- _].
Qed.

Lemma submit_call batch b b' x : call_submit batch b = (b', x) →
  forward_step (n_shared b) (n_store b) (n_shared b') (n_store b') ∧
  ∀ ack n, x = Ok ack → node_sound b → pb_memories batch ≠ [] → verdict ack = Delivered n →
    node_settled b' (batch_key batch).
Proof.
  unfold call_submit. destruct (arrive b) as [w disk st n] eqn:Ha. apply arrive_forward in Ha.
  destruct (submit (server N) (principal N) batch (ambient N n) w st) as [[[w1 st1] ev] r] eqn:Hs.
  pose proof (submit_forward _ _ _ _ _ _ _ _ _ _ Hs) as Hf.
  destruct (fate N n); intros [= <- <-]; (split; [try done; by eapply forward_trans|]); try done.
  intros ack k Hx Hb Hm Hv. destruct r as [a|]; [|done]. injection Hx as ->.
  eapply (submit_told _ _ _ _ _ _ _ _ _ _ _ Hs); [by apply Ha|done|done].
Qed.

Lemma register_call r b b' x : call_register r b = (b', x) →
  forward_step (n_shared b) (n_store b) (n_shared b') (n_store b').
Proof.
  unfold call_register. destruct (arrive b) as [w disk st n] eqn:Ha. apply arrive_forward in Ha.
  destruct (register_source _ _ _ _ _ _ w disk st) as [[[w1 disk1] st1] y] eqn:Hr.
  apply register_same in Hr as [Hseen Hi].
  destruct (fate N n); intros [= <- _]; simpl; [..|done];
    (eapply forward_trans; [exact Ha|apply forward_same; [done|intros; by rewrite Hseen]]).
Qed.

Lemma node_durable : durable node_sound node_settled.
Proof.
  constructor.
  - intros r b b' x [Hk Hs]%register_call Hb. split; [by apply Hs|exact Hk].
  - intros batch b b' x [[Hk Hs] _]%submit_call Hb. split; [by apply Hs|exact Hk].
  - intros batch b b' ack n [_ Ht]%submit_call Hb Hm Hv. by eapply Ht.
Qed.

(** ** The drain delivers *)

Context `{WalJson}.
Context (hmac_key fp : list Z) (org_id node_id : string) (o_client : Ontology).

(** The batch of an entry is settled in the node's store. *)
Definition committed (st : Store) (e : WalEntry) : Prop :=
  ∃ batch s, rebuild_batch o_client fp org_id e = Some (Ok batch) ∧
    settled_ingest (ingest st) !! batch_key batch = Some s.

End node.
