(* ===== verification/Materialize.v ===== *)
(** * What the client serves of its log

    [crates/exocortex-client/src/materialize.rs]: the rows an entry of the write-ahead log becomes when there
    is no backend, edge by edge and with the node of its session, and the fold over the whole log at
    boot. *)

From stdpp Require Import pretty strings gmap.
From S2P Require Import Prelude Ids Kernel Packs Ontology StorageTypes Wire Entities IngestTypes Grouping.
From S2P Require Import Split LocalRules Session Wal Drain.

(** Why something was not served; the code keeps the text of each. *)
Inductive Dropped :=
  | LengthMismatch (local_lsn memories memory_ids : Z)
  | NoLocalRow (local_lsn : Z) (from to : MemoryId)
  | Rejected (local_lsn : Z) (from to : MemoryId) (e : KernelError)
  | MissingKind (local_lsn : Z)
  | MissingType (local_lsn : Z).

(* SRC crates/exocortex-client/src/materialize.rs 44-53 Materialized *)
Record Materialized := mkMaterialized {
  mz_memories : list Memory;
  mz_edges : list Relationship;
  dropped_edges : list Dropped;
}.
Definition Materialized_default : Materialized := mkMaterialized [] [] [].

(** The type and visibility of a local row. *)
Definition Target : Type := Z * Visibility.

(* SRC crates/exocortex-client/src/materialize.rs 246-248 GROUPING_FLAVOR *)
Definition GROUPING_FLAVOR : string := "session".
Definition GROUPING_NODE_TYPE : string := "Conversation".
Definition GROUPING_EDGE_KIND : string := "InSession".

(* SRC crates/exocortex-client/src/materialize.rs 341-364 grouping_context *)
Definition grouping_context (key : string) (now : DateTime) : MemoryContext := {|
  timestamp := now; project_id := None; project_path := None; team_id := None; tenant_id := None;
  session_id := Some key; user_id := None; created_by := None; files_involved := []; languages := [];
  frameworks := []; technologies := []; git_commit := None; git_branch := None; working_directory := None;
  entities := []; additional_metadata := JNull;
|}.

Definition local_provenance : Provenance := Derived ("grouping:" +:+ GROUPING_FLAVOR) [].
Definition asserted_provenance : Provenance := Asserted PRODUCER_ID (Some CodingAgent).

Section materialize.
Context `{Blake3, HashOrder}.

(* SRC crates/exocortex-client/src/materialize.rs 252-296 grouping_node_local *)
Definition grouping_node_local (o : Ontology) (org key : string) (now : DateTime) : option Memory :=
  mt ← memory_type_id o GROUPING_NODE_TYPE;
  let hash := blake3 (hasher_update_str (hasher_update_str
                (hasher_update_str (as_bytes "exocortex-grouping-v1") org) GROUPING_FLAVOR) key) in
  let short := string_of_bytes (take_chars 8 (as_bytes key)) in
  Some {|
    m_id := mkMemoryId (take 16 hash);
    memory_type := mt;
    title := "Session " +:+ short;
    content := "Backend grouping node (" +:+ GROUPING_FLAVOR +:+ ") for " +:+ key;
    summary := None;
    tags := [];
    m_visibility := Project;
    m_provenance := local_provenance;
    context := grouping_context key now;
    importance := f01_hundredths 50;
    confidence := f01_hundredths 80;
    effectiveness := None;
    usage_count := 0;
    m_valid_from := now;
    m_valid_until := None;
    m_recorded_at := now;
    m_invalidated_by := None;
    embedding := None;
    m_lsn := new_local 0;
    rights := None;
  |}.

(** An edge of this client, but for what the two kinds of edge differ in. *)
Definition local_properties (strength confidence : f32) (at_ : DateTime) : RelationshipProperties := {|
  Kernel.strength := strength;
  rp_confidence := confidence;
  rp_context := None;
  evidence_count := 1;
  success_rate := None;
  validation_count := 0;
  counter_evidence_count := 0;
  last_validated := at_;
|}.

(* SRC crates/exocortex-client/src/materialize.rs 298-339 grouping_edge_local *)
Definition grouping_edge_local (o : Ontology) (member node : Memory) (now : DateTime) : option Relationship :=
  kind ← kind_id o GROUPING_EDGE_KIND;
  Some {|
    r_id := RelationshipId_derive (m_id member) kind (m_id node) None;
    r_kind := kind;
    r_from := m_id member;
    r_to := m_id node;
    r_visibility := relationship_visibility (m_visibility member) (m_visibility node);
    r_provenance := local_provenance;
    r_properties := local_properties
      (match kinds_by_id o !! kind with Some m => default_strength m | None => f32_hundredths 80 end)
      (f32_hundredths 80) now;
    r_description := None;
    r_bidirectional := false;
    r_valid_from := now;
    r_valid_until := None;
    r_recorded_at := now;
    r_invalidated_by := None;
    r_lsn := new_local 0;
  |}.

(* SRC crates/exocortex-client/src/materialize.rs 371-418 relationship_from_hint *)
Definition relationship_from_hint (o : Ontology) (from : Memory) (to : MemoryId) (to_vis : Visibility)
    (hint : EdgeHint) (ts : DateTime) (local_lsn : Z) : Relationship :=
  let default_strength :=
    match kinds_by_id o !! eh_kind hint with Some m => default_strength m | None => f32_hundredths 50 end in {|
    r_id := RelationshipId_derive (m_id from) (eh_kind hint) to None;
    r_kind := eh_kind hint;
    r_from := m_id from;
    r_to := to;
    r_visibility := relationship_visibility (m_visibility from) to_vis;
    r_provenance := asserted_provenance;
    r_properties := local_properties (default default_strength (eh_strength hint))
      (default (f32_hundredths 80) (eh_confidence hint)) ts;
    r_description := None;
    r_bidirectional := false;
    r_valid_from := ts;
    r_valid_until := None;
    r_recorded_at := ts;
    r_invalidated_by := None;
    r_lsn := new_local local_lsn;
  |}.

(** The row of the [idx]-th draft. *)
Definition served_memory (entry : WalEntry) (idx : nat) (draft : MemoryDraft) (id : MemoryId) : Memory := {|
  m_id := id;
  memory_type := d_memory_type draft;
  title := d_title draft;
  content := d_content draft;
  summary := None;
  tags := normalize_tags (default [] (we_tags entry !! idx));
  m_visibility := d_visibility draft;
  m_provenance := asserted_provenance;
  context := d_context draft;
  importance := f01_hundredths 50;
  confidence := f01_hundredths 80;
  effectiveness := None;
  usage_count := 0;
  m_valid_from := timestamp (d_context draft);
  m_valid_until := None;
  m_recorded_at := timestamp (d_context draft);
  m_invalidated_by := None;
  embedding := None;
  m_lsn := new_local (we_local_lsn entry);
  rights := None;
|}.
Definition served_memories (entry : WalEntry) : list Memory :=
  imap (λ i p, served_memory entry i p.1 p.2) (zip (we_memories entry) (we_memory_ids entry)).

Definition target_of (m : Memory) : Target := (memory_type m, m_visibility m).
(** The loop's [insert]s. *)
Definition insert_rows (ms : list Memory) (known : gmap MemoryId Target) : gmap MemoryId Target :=
  foldl (λ known m, <[m_id m := target_of m]> known) known ms.

(** One hint of one row. *)
Definition serve_hint (o : Ontology) (local_lsn : Z) (local : gmap MemoryId Target)
    (resolve_target : MemoryId → option Target) (from : Memory) (hint : EdgeHint) : Relationship + Dropped :=
  match (match local !! eh_to hint with Some t => Some t | None => resolve_target (eh_to hint) end) with
  | None => inr (NoLocalRow local_lsn (m_id from) (eh_to hint))
  | Some (to_type, to_vis) =>
      match validate_triple o (memory_type from) (eh_kind hint) to_type with
      | Err e => inr (Rejected local_lsn (m_id from) (eh_to hint) e)
      | Ok _ => inl (relationship_from_hint o from (eh_to hint) to_vis hint (m_recorded_at from) local_lsn)
      end
  end.

(** The narrowest visibility and the scope of the members, on the node. *)
Definition scope_local (members : list Memory) (node : Memory) : Memory :=
  match members with
  | [] => node
  | scope :: _ =>
      let '(mkMemory a b c d e f _ h ctx j k n o p q r t i v u) := node in
      let '(mkMemoryContext c1 _ c3 _ _ c6 _ c8 c9 c10 c11 c12 c13 c14 c15 c16 c17) := ctx in
      mkMemory a b c d e f
        (default (m_visibility scope) (narrowest_visibility (m_visibility <$> members))) h
        (mkMemoryContext c1 (project_id (context scope)) c3 (team_id (context scope))
           (tenant_id (context scope)) c6 (user_id (context scope)) c8 c9 c10 c11 c12 c13 c14 c15 c16 c17)
        j k n o p q r t i v u
  end.

(** The node of the session, its edges and what was dropped. *)
Definition group_rows (o : Ontology) (org : string) (entry : WalEntry) (members : list Memory) : Materialized :=
  match we_session_id entry, head (we_memories entry) with
  | EmptyString, _ | _, None => Materialized_default
  | key, Some first =>
      let first_ts := timestamp (d_context first) in
      match grouping_node_local o org key first_ts with
      | None => mkMaterialized [] [] [MissingType (we_local_lsn entry)]
      | Some node =>
          let node := scope_local members node in
          let edges := (λ m, grouping_edge_local o m node first_ts) <$> members in
          mkMaterialized [node] (omap id edges)
            (omap (λ e : option Relationship, match e with Some _ => None | None => Some (MissingKind (we_local_lsn entry)) end)
               edges)
      end
  end.

Definition append_rows (a b : Materialized) : Materialized :=
  mkMaterialized (mz_memories a ++ mz_memories b) (mz_edges a ++ mz_edges b) (dropped_edges a ++ dropped_edges b).

Definition kept {A B} (l : list (A + B)) : list A := omap (λ x, match x with inl a => Some a | inr _ => None end) l.
Definition lost {A B} (l : list (A + B)) : list B := omap (λ x, match x with inl _ => None | inr b => Some b end) l.

(** Every hint, with the row it starts from. *)
Definition served_hints (entry : WalEntry) : list (Memory * EdgeHint) :=
  zip (served_memories entry) (we_memories entry) ≫= λ p, pair p.1 <$> d_edge_hints p.2.

(* SRC crates/exocortex-client/src/materialize.rs 60-211 materialize_entry *)
Definition materialize_entry (o : Ontology) (org : string) (entry : WalEntry)
    (resolve_target : MemoryId → option Target) : Materialized :=
  if negb (length (we_memories entry) =? length (we_memory_ids entry))%nat
  then mkMaterialized [] []
         [LengthMismatch (we_local_lsn entry) (Z.of_nat (length (we_memories entry)))
            (Z.of_nat (length (we_memory_ids entry)))]
  else
    let memories := served_memories entry in
    let local := insert_rows memories ∅ in
    let hints := (λ p, serve_hint o (we_local_lsn entry) local resolve_target p.1 p.2) <$> served_hints entry in
    append_rows (mkMaterialized memories (kept hints) (lost hints)) (group_rows o org entry memories).

(** One entry of the fold: the rows so far and what is known of them. *)
Definition materialize_next (o : Ontology) (org : string) (acc : Materialized * gmap MemoryId Target) (entry : WalEntry)
    : Materialized * gmap MemoryId Target :=
  let rows := materialize_entry o org entry (λ id, acc.2 !! id) in
  (append_rows acc.1 rows, insert_rows (mz_memories rows) acc.2).

(* SRC crates/exocortex-client/src/materialize.rs 213-231 materialize_all *)
Definition materialize_all (o : Ontology) (org : string) (entries : list WalEntry) : Materialized :=
  (foldl (materialize_next o org) (Materialized_default, ∅) entries).1.
End materialize.
