(* ===== verification/MaterializeSpec.v ===== *)
(** * What the client's rows satisfy

    The graph a client serves from its log is closed: every edge joins two rows it serves, no more visible than
    either, and an asserted one is of an admitted triple; nothing of an entry disappears silently.  The session
    node and its edges are those the service makes of the drained batch. *)

From stdpp Require Import pretty strings gmap.
From S2P Require Import Prelude Ids Kernel Packs Ontology StorageTypes Wire Entities IngestTypes Grouping.
From S2P Require Import IngestService IngestCommit Split LocalRules Session Wal Drain DrainSpec Materialize.

Section spec.
Context `{Blake3, HashOrder}.
Implicit Types (o : Ontology) (e : WalEntry) (ms : list Memory).

Lemma insert_rows_lookup ms : ∀ known i t, insert_rows ms known !! i = Some t →
  (∃ m, m ∈ ms ∧ m_id m = i ∧ target_of m = t) ∨ known !! i = Some t.
Proof.
  unfold insert_rows. induction ms as [|m ms IH]; intros known i t; simpl; [by right|].
  intros [(m' & ? & ? & ?)|Hk]%IH; [left; exists m'; split; [by right|done]|].
  apply lookup_insert_Some in Hk as [[<- <-]|[_ Hk]]; [left; exists m; split; [by left|done]|by right].
Qed.

Lemma insert_rows_app ms1 ms2 known : insert_rows (ms1 ++ ms2) known = insert_rows ms2 (insert_rows ms1 known).
Proof. apply foldl_app. Qed.

(** Everything [resolve] answers is a row of [ms]. *)
Definition knows (resolve : MemoryId → option Target) ms : Prop :=
  ∀ i t, resolve i = Some t → ∃ m, m ∈ ms ∧ m_id m = i ∧ target_of m = t.

(** An edge of the served graph. *)
Definition served_edge o ms (r : Relationship) : Prop :=
  ∃ from to, from ∈ ms ∧ to ∈ ms ∧ r_from r = m_id from ∧ r_to r = m_id to ∧
    r_visibility r = relationship_visibility (m_visibility from) (m_visibility to) ∧
    (r_provenance r = asserted_provenance →
     validate_triple o (memory_type from) (r_kind r) (memory_type to) = Ok tt).

Lemma served_edge_mono o ms ms' r : ms ⊆ ms' → served_edge o ms r → served_edge o ms' r.
Proof. intros Hs (from & to & ? & ? & ?). exists from, to. split; [auto|]. split; [auto|done]. Qed.

Lemma elem_of_kept {A B} (l : list (A + B)) a : a ∈ kept l ↔ inl a ∈ l.
Proof.
  unfold kept. rewrite list_elem_of_omap. split; [by intros ([?|?] & ? & [= <-])|intros; by exists (inl a)].
Qed.
Lemma kept_lost {A B} (l : list (A + B)) : (length (kept l) + length (lost l) = length l)%nat.
Proof.
  induction l as [|[a|b] l IH]; [done| |].
  - change (kept (inl a :: l)) with (a :: kept l). change (lost (inl a :: l)) with (lost l). simpl. lia.
  - change (kept (inr b :: l)) with (kept l). change (lost (inr b :: l)) with (b :: lost l). simpl. lia.
Qed.

Lemma some_none {A D} (d : D) (l : list (option A)) :
  (length (omap id l) + length (omap (λ x : option A, match x with Some _ => None | None => Some d end) l) = length l)%nat.
Proof. unfold omap. induction l as [|[a|] l IH]; cbn [list_omap id length] in *; lia. Qed.

Lemma omap_fmap_id {A B} (f : A → option B) (l : list A) : omap id (f <$> l) = omap f l.
Proof. induction l as [|a l IH]; [done|]. csimpl. destruct (f a); simpl; by rewrite IH. Qed.

Lemma served_hints_from e m hint : (m, hint) ∈ served_hints e → m ∈ served_memories e.
Proof.
  unfold served_hints. intros ([m' d] & Hin & Hz)%list_elem_of_bind.
  apply list_elem_of_fmap in Hin as (h & [= <- <-] & _). by apply elem_of_zip_l in Hz.
Qed.

Lemma hint_served o lsn ms prev resolve m hint r :
  m ∈ ms → knows resolve prev → serve_hint o lsn (insert_rows ms ∅) resolve m hint = inl r →
  served_edge o (prev ++ ms) r.
Proof.
  intros Hm Hk. unfold serve_hint.
  destruct (match insert_rows ms ∅ !! eh_to hint with Some t => Some t | None => resolve (eh_to hint) end) as [[ty vis]|] eqn:Et;
    [|done].
  assert (∃ m', m' ∈ prev ++ ms ∧ m_id m' = eh_to hint ∧ target_of m' = (ty, vis)) as (to & Hto & Hid & [= <- <-]).
  { destruct (insert_rows ms ∅ !! eh_to hint) as [t|] eqn:El.
    - injection Et as ->. apply insert_rows_lookup in El as [(m' & ? & ? & ?)|El]; [|by rewrite lookup_empty in El].
      exists m'. split; [apply elem_of_app; by right|done].
    - apply Hk in Et as (m' & ? & ? & ?). exists m'. split; [apply elem_of_app; by left|done]. }
  destruct (validate_triple _ _ _ _) as [[]|] eqn:Hv; [|done]. intros [= <-].
  exists m, to. split_and!; [apply elem_of_app; by right|done|done|by rewrite Hid|done|]. by intros _.
Qed.

Lemma scope_local_id ms node : m_id (scope_local ms node) = m_id node.
Proof. unfold scope_local. destruct ms; [done|]. by destruct node as [? ? ? ? ? ? ? ? []]. Qed.

(** The session's rows: at most one node, and edges from members to it. *)
Lemma group_rows_served o org e ms :
  Forall (served_edge o (ms ++ mz_memories (group_rows o org e ms))) (mz_edges (group_rows o org e ms)).
Proof.
  unfold group_rows. destruct (we_session_id e) as [|c key] eqn:Ek; [constructor|].
  destruct (head (we_memories e)) as [first|]; [|constructor].
  destruct (grouping_node_local _ _ _ _) as [node|]; [|constructor]. cbn [mz_edges mz_memories].
  apply Forall_forall. intros r (x & Hx & Hr)%list_elem_of_omap. unfold id in Hr. subst x.
  apply list_elem_of_fmap in Hx as (m & Hx & Hm).
  unfold grouping_edge_local in Hx. destruct (kind_id o _) as [kind|]; [|done]. injection Hx as ->.
  exists m, (scope_local ms node). split_and!; [apply elem_of_app; by left|apply elem_of_app; right; by left|done..].
Qed.

Definition group_count o org e ms : nat :=
  match we_session_id e, head (we_memories e) with
  | EmptyString, _ | _, None => 0
  | key, Some first => match grouping_node_local o org key (timestamp (d_context first)) with Some _ => length ms | None => 1 end
  end.

Lemma group_rows_count o org e ms :
  (length (mz_edges (group_rows o org e ms)) + length (dropped_edges (group_rows o org e ms)) = group_count o org e ms)%nat.
Proof.
  unfold group_rows, group_count. destruct (we_session_id e) as [|c key] eqn:Ek; [done|].
  destruct (head (we_memories e)) as [first|]; [|done].
  destruct (grouping_node_local _ _ _ _) as [node|]; [|done]. cbn [mz_edges dropped_edges].
  by rewrite some_none, length_fmap.
Qed.

(** One entry: its rows, closed over what is known, and every hint and every member served or reported. *)
Definition entry_count o org e : nat :=
  if decide (parallel e) then length (served_hints e) + group_count o org e (served_memories e) else 1.

Lemma entry_served o org e resolve prev :
  knows resolve prev →
  let R := materialize_entry o org e resolve in
  Forall (served_edge o (prev ++ mz_memories R)) (mz_edges R) ∧
  (length (mz_edges R) + length (dropped_edges R) = entry_count o org e)%nat ∧
  (parallel e → served_memories e ⊆ mz_memories R).
Proof.
  intros Hk. cbv zeta. unfold materialize_entry, entry_count, parallel.
  destruct (Nat.eqb_spec (length (we_memories e)) (length (we_memory_ids e))) as [Hl|Hl]; cbn [negb].
  2:{ rewrite decide_False by done. split; [constructor|]. split; [done|]. by intros ?%symmetry. }
  rewrite decide_True by done. cbn [append_rows mz_memories mz_edges dropped_edges].
  set (ms := served_memories e). set (hints := (λ p, serve_hint o _ _ _ p.1 p.2) <$> served_hints e).
  split; [|split].
  - rewrite Forall_app. split.
    + apply Forall_forall. intros r Hr%elem_of_kept. apply list_elem_of_fmap in Hr as ([m hint] & Hr & Hin).
      apply served_hints_from in Hin. eapply (hint_served _ _ ms prev) in Hin; [|exact Hk|by symmetry].
      eapply served_edge_mono; [|exact Hin]. set_solver.
    + eapply Forall_impl; [apply group_rows_served|]. intros r. apply served_edge_mono. set_solver.
  - rewrite !length_app. pose proof (kept_lost hints) as Hc. unfold hints in Hc at 3. rewrite length_fmap in Hc.
    pose proof (group_rows_count o org e ms). lia.
  - intros _. set_solver.
Qed.

(** The rows of the log so far: every edge is closed, what is known are rows, and every entry is accounted for. *)
Definition boot_inv o org (seen : list WalEntry) (acc : Materialized * gmap MemoryId Target) : Prop :=
  Forall (served_edge o (mz_memories acc.1)) (mz_edges acc.1) ∧
  knows (λ i, acc.2 !! i) (mz_memories acc.1) ∧
  (length (mz_edges acc.1) + length (dropped_edges acc.1) = sum_list_with (entry_count o org) seen)%nat ∧
  ∀ e, e ∈ seen → parallel e → served_memories e ⊆ mz_memories acc.1.

Lemma next_inv o org seen acc e :
  boot_inv o org seen acc → boot_inv o org (seen ++ [e]) (materialize_next o org acc e).
Proof.
  destruct acc as [R known]. intros (He & Hk & Hc & Hm). unfold materialize_next.
  destruct (entry_served o org e _ _ Hk) as (He' & Hc' & Hm'). set (R' := materialize_entry o org e _) in *.
  split_and!; cbn [append_rows mz_memories mz_edges dropped_edges fst snd] in *.
  - rewrite Forall_app. split; [|done]. eapply Forall_impl; [exact He|]. intros r. apply served_edge_mono. set_solver.
  - intros i t [(m & ? & ? & ?)|Hi]%insert_rows_lookup.
    + exists m. split; [apply elem_of_app; by right|done].
    + apply Hk in Hi as (m & ? & ?). exists m. split; [apply elem_of_app; by left|done].
  - rewrite !length_app, sum_list_with_app. simpl. lia.
  - intros e' [Hin| ->%list_elem_of_singleton]%elem_of_app Hp; [specialize (Hm e' Hin Hp)|specialize (Hm' Hp)]; set_solver.
Qed.


(** ** The service's grouping *)

(** The rule the client's constants copy. *)
Definition session_rule : GroupingRule := mkGroupingRule GROUPING_FLAVOR parse_session_uri GROUPING_NODE_TYPE GROUPING_EDGE_KIND.

Lemma node_parity o org key now : grouping_node_local o org key now = grouping_node o org session_rule key now.
Proof. reflexivity. Qed.
Lemma edge_parity o m node now : grouping_edge_local o m node now = grouping_edge o session_rule m node now.
Proof. reflexivity. Qed.
Lemma prefix_app p s : String.prefix p (p +:+ s) = true.
Proof. induction p as [|c p IH]; simpl; [by destruct s|]. by destruct (ascii_dec c c). Qed.
Lemma length_string_app p s : String.length (p +:+ s) = (String.length p + String.length s)%nat.
Proof. induction p as [|c p IH]; [done|]. simpl. f_equal. exact IH. Qed.
Lemma substring_all s : String.substring 0 (String.length s) s = s.
Proof. induction s as [|c s IH]; [done|]. simpl. by f_equal. Qed.
Lemma substring_app p s : String.substring (String.length p) (String.length s) (p +:+ s) = s.
Proof. induction p as [|c p IH]; [apply substring_all|exact IH]. Qed.
Lemma strip_prefix_app p s : strip_prefix p (p +:+ s) = Some s.
Proof.
  unfold strip_prefix. rewrite prefix_app, length_string_app.
  replace (_ + _ - _)%nat with (String.length s) by lia. by rewrite substring_app.
Qed.

Lemma rebuild_fields fp org e batch : ∀ o, rebuild_batch o fp org e = Some (Ok batch) →
  pb_source_uri batch = "session://" +:+ we_session_id e ∧ pb_org_id batch = org.
Proof.
  intros o. unfold rebuild_batch. destruct (negb _); [done|].
  destruct (try_collect _ _) as [[drafts|]|]; [|done..].
  destruct (try_collect _ _) as [[rels|]|]; [|done..]. by intros [= <-].
Qed.

Lemma session_key batch key : pb_source_uri batch = "session://" +:+ key → key ≠ ""%string →
  grouping_key batch GROUPING_FLAVOR grouping_rules = Some (session_rule, key).
Proof.
  intros Hu Hk. assert (parse_session_uri batch = Some key) as Hp.
  { unfold parse_session_uri, non_empty. rewrite Hu, strip_prefix_app. cbn [mbind option_bind].
    by destruct (String.eqb_spec key ""). }
  unfold grouping_key. change (List.find _ _) with (Some session_rule). cbn [mbind option_bind].
  change (key_of session_rule batch) with (parse_session_uri batch). by rewrite Hp.
Qed.

End spec.
