(* ===== verification/EntityResolution.v ===== *)
(** * Probabilistic entity resolution

    [crates/exocortex-entity-resolution/src/lib.rs]: the string comparators, blocking, the comparison vector
    of two records, the Fellegi-Sunter model with its estimation, the decision, and the evaluation over a
    labelled set.

    A [String] is the list of its characters ([Text]), which Rust orders as its bytes are ordered; what
    the standard library's Unicode tables say of a character is the interface [Unicode].  [f64] is IEEE
    binary64 with the code's order of operations; [ln] is a parameter.  An index out of range, which would
    panic, is [None]. *)

From stdpp Require Import pretty strings.
From S2P Require Import Prelude Ids Kernel.

(** ** Characters *)

Abbreviation Text := (list Z) (only parsing).

(** [char::to_lowercase], [str::to_lowercase], [char::is_whitespace] and [char::is_alphanumeric]. *)
Class Unicode := {
  char_to_lowercase : Z → list Z;
  lowercase : Text → Text;
  is_whitespace : Z → bool;
  is_alphanumeric : Z → bool;
}.

(** [f64::ln]. *)
Class Ln := { f64_ln : f64 → f64 }.

(** A decimal literal of two digits after the point. *)
Definition hundredths (n : Z) : f64 := f64_div (f64_of_Z n) (f64_of_Z 100).
Definition f64_zero : f64 := S754_zero false.
Definition f64_one : f64 := f64_of_Z 1.
Definition f64_ge (x y : f64) : bool := SFleb y x.
Definition f64_gt (x y : f64) : bool := SFltb y x.

Section text.
Context `{Unicode}.

(** [split_whitespace]: the runs of characters that are no whitespace. *)
Fixpoint words_from (word : Text) (l : Text) : list Text :=
  match l with
  | [] => match word with [] => [] | _ => [word] end
  | c :: l =>
      if is_whitespace c then match word with [] => words_from [] l | _ => word :: words_from [] l end
      else words_from (word ++ [c]) l
  end.
Definition split_whitespace (l : Text) : list Text := words_from [] l.

(** [trim_matches] and [trim]. *)
Fixpoint skip_while (p : Z → bool) (l : Text) : Text :=
  match l with c :: l' => if p c then skip_while p l' else l | [] => [] end.
Definition trim_matches (p : Z → bool) (l : Text) : Text := reverse (skip_while p (reverse (skip_while p l))).
Definition trim_text (l : Text) : Text := trim_matches is_whitespace l.

(** [join] with a blank. *)
Fixpoint join_blank (ws : list Text) : Text :=
  match ws with [] => [] | [w] => w | w :: ws => w ++ 32 :: join_blank ws end.
End text.

(** ** Comparators *)

Section comparators.
Context `{Unicode}.

(** The first index in [[start, end)] of an unmatched equal character. *)
Fixpoint first_match (c : Z) (b : Text) (matched : list bool) (js : list nat) : option nat :=
  match js with
  | [] => None
  | j :: js => if negb (nth j matched true) && bool_decide (b !! j = Some c) then Some j
               else first_match c b matched js
  end.

(** The matching loop at index [i]: the flags of both sides and the number of matches. *)
Fixpoint match_chars (window i : nat) (a b : Text) (b_matched : list bool) : list bool * list bool * nat :=
  match a with
  | [] => ([], b_matched, 0%nat)
  | c :: a =>
      let start := (i - window)%nat in
      let stop := Nat.min (i + window + 1) (length b) in
      match first_match c b b_matched (seq start (stop - start)) with
      | Some j =>
          let '(fa, fb, n) := match_chars window (S i) a b (<[j := true]> b_matched) in (true :: fa, fb, S n)
      | None => let '(fa, fb, n) := match_chars window (S i) a b b_matched in (false :: fa, fb, n)
      end
  end.

(** [while !b_matched[k] { k += 1 }], from the flags at [k] on: how far [k] moves. *)
Fixpoint next_matched (flags : list bool) : option nat :=
  match flags with
  | [] => None
  | true :: _ => Some 0%nat
  | false :: flags => S <$> next_matched flags
  end.

(** The transposition loop. *)
Fixpoint count_transpositions (a : Text) (fa : list bool) (b : Text) (fb : list bool) (k : nat) : option nat :=
  match a, fa with
  | x :: a, true :: fa =>
      d ← next_matched (drop k fb);
      y ← b !! (k + d)%nat;
      n ← count_transpositions a fa b fb (S (k + d));
      Some (if x =? y then n else S n)
  | _ :: a, false :: fa => count_transpositions a fa b fb k
  | _, _ => Some 0%nat
  end.

Definition fold_case (s : Text) : Text := s ≫= char_to_lowercase.

(* SRC crates/exocortex-entity-resolution/src/lib.rs 41-85 jaro *)
Definition jaro (a b : Text) : option f64 :=
  let a := fold_case a in
  let b := fold_case b in
  match a, b with
  | [], [] => Some f64_one
  | [], _ | _, [] => Some f64_zero
  | _, _ =>
      let window := (Nat.max (length a) (length b) / 2 - 1)%nat in
      let '(fa, fb, matches) := match_chars window 0 a b (replicate (length b) false) in
      if Nat.eqb matches 0 then Some f64_zero
      else
        transpositions ← count_transpositions a fa b fb 0;
        let m := f64_of_Z (Z.of_nat matches) in
        Some (f64_div
          (f64_add
             (f64_add (f64_div m (f64_of_Z (Z.of_nat (length a)))) (f64_div m (f64_of_Z (Z.of_nat (length b)))))
             (f64_div (f64_sub m (f64_div (f64_of_Z (Z.of_nat transpositions)) (f64_of_Z 2))) m))
          (f64_of_Z 3))
  end.

(** The length of the common prefix. *)
Fixpoint common_prefix (a b : Text) : nat :=
  match a, b with
  | x :: a, y :: b => if x =? y then S (common_prefix a b) else 0%nat
  | _, _ => 0%nat
  end.

(* SRC crates/exocortex-entity-resolution/src/lib.rs 87-102 jaro_winkler *)
Definition jaro_winkler (a b : Text) : option f64 :=
  base ← jaro a b;
  if SFleb base (hundredths 70) then Some base
  else
    let prefix := common_prefix (take 4 (lowercase a)) (take 4 (lowercase b)) in
    Some (f64_add base
      (f64_mul (f64_mul (hundredths 10) (f64_of_Z (Z.of_nat prefix))) (f64_sub f64_one base))).

Definition tokens (s : Text) : gset Text :=
  list_to_set (filter (λ t, t ≠ []) ((λ t, lowercase (trim_matches (λ c, negb (is_alphanumeric c)) t)) <$> split_whitespace s)).

(* SRC crates/exocortex-entity-resolution/src/lib.rs 104-129 token_set *)
Definition token_set (a b : Text) : f64 :=
  let a := tokens a in
  let b := tokens b in
  if bool_decide (a = ∅) && bool_decide (b = ∅) then f64_one
  else if bool_decide (a = ∅) || bool_decide (b = ∅) then f64_zero
  else f64_div (f64_of_Z (Z.of_nat (size (a ∩ b)))) (f64_of_Z (Z.of_nat (size (a ∪ b)))).

Definition SUFFIXES : list Text := as_bytes <$>
  ["inc"; "incorporated"; "llc"; "llp"; "ltd"; "limited"; "corp"; "corporation"; "co"; "company"; "gmbh"; "ag";
   "sa"; "s.a."; "plc"; "pty"; "pvt"]%string.

(* SRC crates/exocortex-entity-resolution/src/lib.rs 131-159 strip_legal_suffixes *)
Definition strip_legal_suffixes (name : Text) : Text :=
  join_blank (filter (λ t, t ∉ SUFFIXES)
    ((λ t, lowercase (trim_matches (λ c, c =? 46) t)) <$> split_whitespace name)).
End comparators.

(** ** Records *)

(* SRC crates/exocortex-entity-resolution/src/lib.rs 165-178 EntityRecord *)
Record EntityRecord := mkEntityRecord { e_id : Text; e_name : Text; e_attributes : gmap (list Z) (list Z) }.
(* SRC crates/exocortex-entity-resolution/src/lib.rs 180-187 LabelledPair *)
Record LabelledPair := mkLabelledPair { lp_a : Text; lp_b : Text; lp_label : Text }.

Definition text (s : string) : Text := as_bytes s.
Definition MATCH : Text := text "match".
Definition NON_MATCH : Text := text "non_match".

(** [str::lines]: line feeds end a line, a carriage return before one goes with it. *)
Fixpoint lines_from (line : Text) (l : Text) : list Text :=
  match l with
  | [] => match line with [] => [] | _ => [line] end
  | c :: l => if c =? 10 then (match reverse line with 13 :: r => reverse r | _ => line end) :: lines_from [] l
              else lines_from (line ++ [c]) l
  end.

(** [serde_json::from_str] at a type. *)
Class FromJson (T : Type) := { from_json : Text → result T Text }.

Section load.
Context `{Unicode}.

(** The loop over the numbered lines; the error is the outermost context of the failure. *)
Fixpoint load_lines `{FromJson T} (what path : Text) (n : nat) (ls : list Text) : result (list T) Text :=
  match ls with
  | [] => Ok []
  | line :: ls =>
      let line := trim_text line in
      if bool_decide (line = []) then load_lines what path (S n) ls
      else match from_json line with
           | Ok value => let? rest := load_lines what path (S n) ls in Ok (value :: rest)
           | Err _ => Err (text "parsing " ++ what ++ text " " ++ path ++ text " line " ++ text (pretty (S n)))
           end
  end.

(* SRC crates/exocortex-entity-resolution/src/lib.rs 216-234 load_jsonl *)
Definition load_jsonl `{FromJson T} (path what : Text) (file : result Text Text) : result (list T) Text :=
  match file with
  | Err _ => Err (text "reading " ++ what ++ text " " ++ path)
  | Ok content => load_lines what path 0 (lines_from [] content)
  end.

(* SRC crates/exocortex-entity-resolution/src/lib.rs 189-192 load_corpus *)
Definition load_corpus `{FromJson EntityRecord} (path : Text) (file : result Text Text)
    : result (list EntityRecord) Text := load_jsonl path (text "corpus") file.

(** The checks of one pair. *)
Definition check_pair (ids : gset (list Z)) (pair : LabelledPair) : result unit Text :=
  if negb (bool_decide (lp_label pair = MATCH)) && negb (bool_decide (lp_label pair = NON_MATCH))
  then Err (text "labelled pair " ++ lp_a pair ++ text " <-> " ++ lp_b pair ++ text " carries label `" ++ lp_label pair
            ++ text "` " ++ [8212] ++ text " expected `match` or `non_match`")
  else if negb (bool_decide (lp_a pair ∈ ids))
  then Err (text "labelled pair names corpus id " ++ lp_a pair ++ text " that does not exist")
  else if negb (bool_decide (lp_b pair ∈ ids))
  then Err (text "labelled pair names corpus id " ++ lp_b pair ++ text " that does not exist")
  else Ok tt.

Fixpoint check_pairs (ids : gset (list Z)) (pairs : list LabelledPair) : result unit Text :=
  match pairs with [] => Ok tt | p :: ps => let? _ := check_pair ids p in check_pairs ids ps end.

(* SRC crates/exocortex-entity-resolution/src/lib.rs 194-214 load_labelled *)
Definition load_labelled `{FromJson LabelledPair} (path : Text) (file : result Text Text)
    (corpus : list EntityRecord) : result (list LabelledPair) Text :=
  let? pairs := load_jsonl path (text "labelled set") file in
  let? _ := check_pairs (list_to_set (e_id <$> corpus)) pairs in
  Ok pairs.
End load.

(** ** Blocking *)

Section blocking.
Context `{Unicode}.

Definition raw_keys (record : EntityRecord) : list Text :=
  let stripped := strip_legal_suffixes (e_name record) in
  let prefix := take 3 stripped in
  (if bool_decide (trim_text prefix = []) then [] else [text "p:" ++ prefix])
  ++ ((λ t, text "t:" ++ t) <$> split_whitespace stripped)
  ++ (btree_iter compare_bytes (e_attributes record) ≫= λ av,
        (λ t, text "a:" ++ av.1 ++ text ":" ++ t) <$> split_whitespace av.2).

(* SRC crates/exocortex-entity-resolution/src/lib.rs 240-263 blocking_keys *)
Definition blocking_keys (record : EntityRecord) : list Text :=
  dedup (merge_sort (le_of compare_bytes) (raw_keys record)).

(** The records under each key, in corpus order. *)
Definition index_key (m : gmap (list Z) (list nat)) (p : nat * Text) : gmap (list Z) (list nat) :=
  entry_push p.2 p.1 m.
Definition index_record (m : gmap (list Z) (list nat)) (ir : nat * EntityRecord) : gmap (list Z) (list nat) :=
  foldl (λ m key, index_key m (ir.1, key)) m (blocking_keys ir.2).
Definition by_key (corpus : list EntityRecord) : gmap (list Z) (list nat) :=
  foldl index_record ∅ (imap pair corpus).

(** The pairs of a list of members, and those not seen before. *)
Fixpoint member_pairs (members : list nat) : list (nat * nat) :=
  match members with [] => [] | i :: ms => ((λ j, (i, j)) <$> ms) ++ member_pairs ms end.
Definition see (acc : gset (nat * nat) * list (nat * nat)) (p : nat * nat) : gset (nat * nat) * list (nat * nat) :=
  if bool_decide (p ∈ acc.1) then acc else ({[p]} ∪ acc.1, acc.2 ++ [p]).

Definition compare_pair : nat * nat → nat * nat → comparison := compare_lex Nat.compare Nat.compare.

(* SRC crates/exocortex-entity-resolution/src/lib.rs 265-287 candidates *)
Definition candidates (corpus : list EntityRecord) : list (nat * nat) :=
  merge_sort (le_of compare_pair)
    (foldl see (∅, []) ((btree_iter compare_bytes (by_key corpus)).*2 ≫= member_pairs)).2.
End blocking.

(** ** Comparison *)

(* SRC crates/exocortex-entity-resolution/src/lib.rs 293-306 Comparison *)
Inductive Comparison := Exact | Similar | Different | Missing.
#[global] Instance Comparison_eq_dec : EqDecision Comparison.
Proof. solve_decision. Defined.

(* SRC crates/exocortex-entity-resolution/src/lib.rs 308-316 ComparisonVector *)
Record ComparisonVector := mkVector { name_jw : Comparison; name_tokens : Comparison; v_attributes : gmap (list Z) Comparison }.

(* SRC crates/exocortex-entity-resolution/src/lib.rs 318-320 NAME_SIMILAR_BAND *)
Definition NAME_SIMILAR_BAND : f64 := hundredths 85.
(* SRC crates/exocortex-entity-resolution/src/lib.rs 321-321 ATTRIBUTE_SIMILAR_BAND *)
Definition ATTRIBUTE_SIMILAR_BAND : f64 := hundredths 85.

Section comparison.
Context `{Unicode}.

(* SRC crates/exocortex-entity-resolution/src/lib.rs 323-337 band *)
Definition band (a b : Text) (similar_band : f64) : option Comparison :=
  let a := lowercase (trim_text a) in
  let b := lowercase (trim_text b) in
  if bool_decide (a = b) then Some Exact
  else if bool_decide (a = []) || bool_decide (b = []) then Some Missing
  else jw ← jaro_winkler a b; Some (if f64_ge jw similar_band then Similar else Different).

Definition attribute_outcome (a b : EntityRecord) (key : Text) : option Comparison :=
  match e_attributes a !! key, e_attributes b !! key with
  | Some va, Some vb => band va vb ATTRIBUTE_SIMILAR_BAND
  | _, _ => Some Missing
  end.

(* SRC crates/exocortex-entity-resolution/src/lib.rs 339-369 compare *)
Definition compare (a b : EntityRecord) : option ComparisonVector :=
  let name_a := strip_legal_suffixes (e_name a) in
  let name_b := strip_legal_suffixes (e_name b) in
  jw ← band name_a name_b NAME_SIMILAR_BAND;
  let tokens := if bool_decide (name_a = name_b) then Exact
                else if f64_ge (token_set (e_name a) (e_name b)) NAME_SIMILAR_BAND then Similar else Different in
  let keys := merge_sort (le_of compare_bytes) (elements (dom (e_attributes a) ∪ dom (e_attributes b))) in
  outcomes ← mapM (λ key, o ← attribute_outcome a b key; Some (key, o)) keys;
  Some (mkVector jw tokens (list_to_map outcomes)).
End comparison.

(** ** The model *)

(** [[T; 4]]. *)
Record Quad (T : Type) := mkQuad { q0 : T; q1 : T; q2 : T; q3 : T }.
Arguments mkQuad {T} _ _ _ _.
Arguments q0 {T} _.
Arguments q1 {T} _.
Arguments q2 {T} _.
Arguments q3 {T} _.

(* SRC crates/exocortex-entity-resolution/src/lib.rs 371-390 FsModel *)
Record FsModel := mkFsModel {
  fs_m : gmap (list Z) (Quad f64);
  fs_u : gmap (list Z) (Quad f64);
  accept_threshold : f64;
  review_threshold : f64;
}.

(** [slot_index] and the access at it. *)
(* SRC crates/exocortex-entity-resolution/src/lib.rs 392-399 slot_index *)
Definition slot {T} (q : Quad T) (c : Comparison) : T :=
  match c with Exact => q0 q | Similar => q1 q | Different => q2 q | Missing => q3 q end.
Definition bump (q : Quad Z) (c : Comparison) : Quad Z :=
  match c with
  | Exact => mkQuad (as_u32 (q0 q + 1)) (q1 q) (q2 q) (q3 q)
  | Similar => mkQuad (q0 q) (as_u32 (q1 q + 1)) (q2 q) (q3 q)
  | Different => mkQuad (q0 q) (q1 q) (as_u32 (q2 q + 1)) (q3 q)
  | Missing => mkQuad (q0 q) (q1 q) (q2 q) (as_u32 (q3 q + 1))
  end.

Abbreviation Counts := (gmap (list Z) (Quad Z)).

(** The slots of a vector with their outcomes, in the order they are recorded and scored. *)
Definition features (v : ComparisonVector) : list (Text * Comparison) :=
  (text "name", name_jw v) :: (text "name_tokens", name_tokens v)
  :: ((λ ao, (text "attr:" ++ ao.1, ao.2)) <$> btree_iter compare_bytes (v_attributes v)).

Definition record_one (counts : Counts) (f : Text * Comparison) : Counts :=
  <[f.1 := bump (default (mkQuad 0 0 0 0) (counts !! f.1)) f.2]> counts.
Definition record_vector (counts : Counts) (v : ComparisonVector) : Counts := foldl record_one counts (features v).

(** Laplace smoothing over the four outcomes. *)
Definition smooth (q : Quad Z) : Quad f64 :=
  let denominator := f64_of_Z (as_u32 (as_u32 (q0 q + q1 q + q2 q + q3 q) + 4)) in
  let p c := f64_div (f64_of_Z (as_u32 (c + 1))) denominator in
  mkQuad (p (q0 q)) (p (q1 q)) (p (q2 q)) (p (q3 q)).

(* SRC crates/exocortex-entity-resolution/src/lib.rs 548-554 Decision *)
Inductive Decision := Match | Review | NonMatch.

Section model.
Context `{Unicode, Ln}.

(** The record of an identity: the last one of the corpus. *)
Definition by_id (corpus : list EntityRecord) : gmap (list Z) EntityRecord :=
  list_to_map (reverse ((λ r, (e_id r, r)) <$> corpus)).

Definition add_feature (model : FsModel) (score : f64) (f : Text * Comparison) : f64 :=
  match fs_m model !! f.1, fs_u model !! f.1 with
  | Some m, Some u => f64_add score (f64_ln (f64_div (slot m f.2) (slot u f.2)))
  | _, _ => score
  end.

(* SRC crates/exocortex-entity-resolution/src/lib.rs 518-534 score *)
Definition score (model : FsModel) (v : ComparisonVector) : f64 :=
  foldl (add_feature model) f64_zero (features v).

(* SRC crates/exocortex-entity-resolution/src/lib.rs 536-545 decide *)
Definition decide_score (model : FsModel) (s : f64) : Decision :=
  if f64_ge s (accept_threshold model) then Match
  else if f64_ge s (review_threshold model) then Review else NonMatch.

(** The vectors of the labelled pairs, up to the first that names a missing record; [None] when a
    comparison is. *)
Fixpoint vectors (missing : LabelledPair → Text) (ids : gmap (list Z) EntityRecord) (labelled : list LabelledPair)
    : option (result (list (bool * ComparisonVector)) Text) :=
  match labelled with
  | [] => Some (Ok [])
  | lp :: labelled =>
      match ids !! lp_a lp, ids !! lp_b lp with
      | Some a, Some b =>
          v ← compare a b;
          r ← vectors missing ids labelled;
          Some (let? rest := r in Ok ((bool_decide (lp_label lp = MATCH), v) :: rest))
      | _, _ => Some (Err (missing lp))
      end
  end.

Definition of_label (match_ : bool) (vs : list (bool * ComparisonVector)) : list ComparisonVector :=
  omap (λ lv, if Bool.eqb lv.1 match_ then Some lv.2 else None) vs.
Definition counts_of (vs : list ComparisonVector) : Counts := foldl record_vector ∅ vs.

Definition mean (scores : list f64) : f64 := f64_div (foldl f64_add f64_zero scores) (f64_of_Z (Z.of_nat (length scores))).

Definition missing_in_estimate (pair : LabelledPair) : Text :=
  text "labelled pair " ++ lp_a pair ++ text " <-> " ++ lp_b pair
  ++ text " names a missing corpus id (validated earlier " ++ [8212] ++ text " internal error)".

(* SRC crates/exocortex-entity-resolution/src/lib.rs 401-515 estimate *)
Definition estimate (corpus : list EntityRecord) (labelled : list LabelledPair) : option (result FsModel Text) :=
  if bool_decide (length labelled = 0%nat)
  then Some (Err (text "the labelled set is empty " ++ [8212] ++ text " m/u estimation needs labelled pairs"))
  else
  r ← vectors missing_in_estimate (by_id corpus) labelled;
  Some (
  let? vs := r in
  let m := smooth <$> counts_of (of_label true vs) in
  let u := smooth <$> counts_of (of_label false vs) in
  match List.find (λ s, bool_decide (u !! s = None)) (btree_iter compare_bytes m).*1 with
  | Some s => Err (text "feature `" ++ s ++ text "` appears only in match pairs " ++ [8212] ++ text " the labelled set has no "
                   ++ text "non-match evidence for it; label pairs that exercise it or drop the attribute")
  | None =>
      let provisional := mkFsModel m u f64_zero f64_zero in
      let match_scores := score provisional <$> of_label true vs in
      let non_match_scores := score provisional <$> of_label false vs in
      if bool_decide (length match_scores = 0%nat) || bool_decide (length non_match_scores = 0%nat)
      then Err (text "the labelled set needs BOTH match and non_match pairs to calibrate thresholds ("
                ++ text (pretty (length match_scores)) ++ text " match, "
                ++ text (pretty (length non_match_scores)) ++ text " non_match)")
      else
        let mu_m := mean match_scores in
        let mu_u := mean non_match_scores in
        let boundary := f64_div (f64_add mu_m mu_u) (f64_of_Z 2) in
        Ok (mkFsModel m u
              (f64_add boundary (f64_mul (hundredths 75) (f64_sub mu_m boundary)))
              (f64_sub boundary (f64_mul (hundredths 75) (f64_sub boundary mu_u))))
  end).

(* SRC crates/exocortex-entity-resolution/src/lib.rs 556-563 ScoredPair *)
Record ScoredPair := mkScoredPair { sp_a : Text; sp_b : Text; sp_score : f64; sp_decision : string }.

Definition decision_name (d : Decision) : string :=
  match d with Match => "match" | Review => "review" | NonMatch => "non_match" end.

(* SRC crates/exocortex-entity-resolution/src/lib.rs 565-584 score_candidates *)
Definition score_candidates (corpus : list EntityRecord) (model : FsModel) : option (list ScoredPair) :=
  mapM (λ p : nat * nat,
    a ← corpus !! p.1; b ← corpus !! p.2; v ← compare a b;
    let s := score model v in
    Some (mkScoredPair (e_id a) (e_id b) s (decision_name (decide_score model s)))) (candidates corpus).

(** ** Evaluation *)

(* SRC crates/exocortex-entity-resolution/src/lib.rs 590-605 Evaluation *)
Record Evaluation := mkEvaluation {
  labelled_pairs : Z;
  true_positives : Z;
  false_positives : Z;
  false_negatives : Z;
  true_negatives : Z;
  review : Z;
  precision : f64;
  recall : f64;
  f1 : f64;
}.

Definition tally (model : FsModel) (e : Evaluation) (lv : bool * ComparisonVector) : Evaluation :=
  let '(mkEvaluation n tp fp fn tn rv p r f) := e in
  match decide_score model (score model lv.2), lv.1 with
  | Match, true => mkEvaluation n (tp + 1) fp fn tn rv p r f
  | Match, false => mkEvaluation n tp (fp + 1) fn tn rv p r f
  | Review, _ => mkEvaluation n tp fp fn tn (rv + 1) p r f
  | NonMatch, true => mkEvaluation n tp fp (fn + 1) tn rv p r f
  | NonMatch, false => mkEvaluation n tp fp fn (tn + 1) rv p r f
  end.

Definition ratio_or_zero (x y : f64) : f64 := if f64_gt y f64_zero then f64_div x y else f64_zero.

Definition missing_in_evaluate (pair : LabelledPair) : Text := text "labelled pair names a missing corpus id".

(* SRC crates/exocortex-entity-resolution/src/lib.rs 607-653 evaluate *)
Definition evaluate (corpus : list EntityRecord) (labelled : list LabelledPair) (model : FsModel)
    : option (result Evaluation Text) :=
  r ← vectors missing_in_evaluate (by_id corpus) labelled;
  Some (
  let? vs := r in
  let e := foldl (tally model) (mkEvaluation (Z.of_nat (length labelled)) 0 0 0 0 0 f64_zero f64_zero f64_zero) vs in
  let tp := f64_of_Z (true_positives e) in
  let fp := f64_of_Z (false_positives e) in
  let fn := f64_of_Z (false_negatives e) in
  let p := ratio_or_zero tp (f64_add tp fp) in
  let r := ratio_or_zero tp (f64_add tp fn) in
  let f := ratio_or_zero (f64_mul (f64_of_Z 2) (f64_mul p r)) (f64_add p r) in
  Ok (mkEvaluation (labelled_pairs e) (true_positives e) (false_positives e) (false_negatives e) (true_negatives e)
        (review e) p r f)).
End model.
