(* ===== verification/ResolutionSpec.v ===== *)
(** * What entity resolution promises

    Blocking pairs exactly the records that share a key; the comparators never index out of range, so
    comparing, scoring, estimating and evaluating never panic; an estimated model knows every slot on both
    sides; the confusion table of an evaluation counts every labelled pair once. *)

From stdpp Require Import pretty strings.
From S2P Require Import Prelude Ids Kernel EntityResolution.

#[global] Instance nat_comparable : Comparable Nat.compare.
Proof.
  split; intros; [apply Nat.compare_eq_iff|apply Nat.compare_antisym|].
  rewrite Nat.compare_lt_iff in *. lia.
Qed.
#[global] Instance compare_pair_comparable : Comparable compare_pair.
Proof. unfold compare_pair. apply _. Qed.

Section blocking.
Context `{Unicode}.
Implicit Types (corpus : list EntityRecord).

Lemma blocking_keys_nodup r : NoDup (blocking_keys r).
Proof. unfold blocking_keys. by destruct (sort_dedup_ids compare_bytes (raw_keys r)) as (_ & ? & _). Qed.

Lemma index_record_versions m i r k :
  versions (index_record m (i, r)) k = versions m k ++ (if decide (k ∈ blocking_keys r) then [i] else []).
Proof.
  unfold index_record. simpl. pose proof (blocking_keys_nodup r) as Hd. revert m.
  induction Hd as [|k0 ks Hk Hd IH]; intros m; cbn [foldl]; [by rewrite app_nil_r|].
  rewrite IH. unfold index_key. simpl. rewrite versions_entry_push.
  destruct (decide (k0 = k)) as [->|Hne].
  - rewrite decide_False by done. rewrite decide_True by left. by rewrite app_nil_r.
  - rewrite app_nil_r. f_equal. repeat case_decide; set_solver.
Qed.

(** The positions, from [n] on, of the records that carry a key. *)
Fixpoint occurrences (n : nat) corpus (k : Text) : list nat :=
  match corpus with
  | [] => []
  | r :: corpus => (if decide (k ∈ blocking_keys r) then [n] else []) ++ occurrences (S n) corpus k
  end.

Lemma fold_index_versions corpus : ∀ n m k,
  versions (foldl index_record m (imap (λ i r, ((n + i)%nat, r)) corpus)) k = versions m k ++ occurrences n corpus k.
Proof.
  induction corpus as [|r corpus IH]; intros n m k; cbn [imap foldl occurrences]; [by rewrite app_nil_r|].
  rewrite (assoc_L (++)), <-(index_record_versions _ n r). rewrite Nat.add_0_r.
  rewrite <-IH. do 2 f_equal. apply imap_ext. intros i x _. simpl. f_equal. lia.
Qed.

Lemma occurrences_spec corpus : ∀ n k,
  StronglySorted lt (occurrences n corpus k) ∧
  ∀ i, i ∈ occurrences n corpus k ↔ ∃ j r, i = (n + j)%nat ∧ corpus !! j = Some r ∧ k ∈ blocking_keys r.
Proof.
  induction corpus as [|r corpus IH]; intros n k; simpl.
  { split; [constructor|]. intros i. split; [by intros ?%elem_of_nil|by intros (? & ? & _ & ? & _)]. }
  destruct (IH (S n) k) as [Hs He]. split.
  - case_decide; simpl; [|done]. constructor; [done|]. apply Forall_forall. intros i (j & ? & -> & _)%He. lia.
  - intros i. rewrite elem_of_app, He. split.
    + intros [Hi|(j & r' & -> & Hl & Hk)].
      * case_decide as Hk; [|by apply elem_of_nil in Hi]. apply list_elem_of_singleton in Hi as ->.
        exists 0%nat, r. split_and!; [lia|done|done].
      * exists (S j), r'. split_and!; [lia|done|done].
    + intros ([|j] & r' & -> & Hl & Hk); simpl in Hl.
      * simplify_eq. left. rewrite decide_True by done. apply list_elem_of_singleton. lia.
      * right. exists j, r'. split_and!; [lia|done|done].
Qed.

Lemma by_key_versions corpus k : versions (by_key corpus) k = occurrences 0 corpus k.
Proof.
  unfold by_key. rewrite <-(app_nil_l (occurrences 0 corpus k)).
  change (@nil nat) with (versions (∅ : gmap (list Z) (list nat)) k). rewrite <-fold_index_versions. done.
Qed.

Lemma member_pairs_spec ms : StronglySorted lt ms →
  ∀ i j, (i, j) ∈ member_pairs ms ↔ i ∈ ms ∧ j ∈ ms ∧ (i < j)%nat.
Proof.
  induction 1 as [|x ms Hs IH Hx]; intros i j; simpl; [set_solver|]. rewrite Forall_forall in Hx.
  rewrite elem_of_app, list_elem_of_fmap, IH. split.
  - intros [(j' & [= -> ->] & Hj)|(? & ? & ?)]; [|set_solver]. split_and!; [by left|by right|by apply Hx].
  - intros ([->|Hi]%elem_of_cons & [->|Hj]%elem_of_cons & Hlt).
    + lia.
    + left. by exists j.
    + apply Hx in Hi. lia.
    + by right.
Qed.

Lemma see_spec ps : ∀ acc, NoDup acc.2 → (∀ p, p ∈ acc.1 ↔ p ∈ acc.2) →
  NoDup (foldl see acc ps).2 ∧ ∀ p, p ∈ (foldl see acc ps).2 ↔ p ∈ acc.2 ∨ p ∈ ps.
Proof.
  induction ps as [|p ps IH]; intros acc Hd He; cbn [foldl]; [split; [done|set_solver]|].
  destruct (IH (see acc p)) as [H1 H2].
  - unfold see. case_bool_decide as Hp; [done|]. simpl. apply NoDup_app. split_and!; [done| |apply NoDup_singleton].
    intros x Hx ->%list_elem_of_singleton. by apply Hp, He.
  - intros q. unfold see. case_bool_decide; [apply He|]. simpl. rewrite elem_of_union, elem_of_app, He. set_solver.
  - split; [done|]. intros q. rewrite H2. unfold see. case_bool_decide as Hp; simpl.
    + apply He in Hp. set_solver.
    + set_solver.
Qed.

Lemma candidates_spec corpus :
  StronglySorted (λ p q, compare_pair p q = Lt) (candidates corpus) ∧
  ∀ i j, (i, j) ∈ candidates corpus ↔ (i < j)%nat ∧
    ∃ a b k, corpus !! i = Some a ∧ corpus !! j = Some b ∧ k ∈ blocking_keys a ∧ k ∈ blocking_keys b.
Proof.
  destruct (see_spec ((btree_iter compare_bytes (by_key corpus)).*2 ≫= member_pairs) (∅, [])) as [Hd He];
    [constructor|set_solver|]. simpl in He. unfold candidates. split.
  - apply (sort_by_key_strict (λ p, p) compare_pair). by rewrite list_fmap_id.
  - intros i j. rewrite merge_sort_Permutation, He.
    rewrite (ltac:(set_solver) : (i, j) ∈ [] ∨ (i, j) ∈ (btree_iter compare_bytes (by_key corpus)).*2 ≫= member_pairs ↔
      (i, j) ∈ (btree_iter compare_bytes (by_key corpus)).*2 ≫= member_pairs).
    rewrite list_elem_of_bind. split.
    + intros (ms & Hp & ([k ms'] & -> & Hm)%list_elem_of_fmap). rewrite btree_iter_perm in Hm.
      apply elem_of_map_to_list in Hm. simpl in Hp.
      assert (Hv : occurrences 0 corpus k = ms') by (rewrite <-by_key_versions; unfold versions; by rewrite Hm).
      destruct (occurrences_spec corpus 0 k) as [Hs Ho]. rewrite Hv in Hs, Ho.
      apply (member_pairs_spec _ Hs) in Hp as (Hi & Hj & Hlt). split; [done|].
      apply Ho in Hi as (i' & a & -> & Ha & Hka). apply Ho in Hj as (j' & b & -> & Hb & Hkb). by exists a, b, k.
    + intros (Hlt & a & b & k & Ha & Hb & Hka & Hkb).
      destruct (occurrences_spec corpus 0 k) as [Hs Ho].
      exists (occurrences 0 corpus k). split.
      * apply (member_pairs_spec _ Hs). split_and!; [| |done]; apply Ho; [by exists i, a|by exists j, b].
      * apply list_elem_of_fmap. exists (k, occurrences 0 corpus k). split; [done|]. rewrite btree_iter_perm.
        apply elem_of_map_to_list. rewrite <-by_key_versions. unfold versions.
        destruct (by_key corpus !! k) as [ms|] eqn:E; [done|]. exfalso.
        assert (Hi : i ∈ occurrences 0 corpus k) by (apply Ho; by exists i, a).
        rewrite <-by_key_versions in Hi. unfold versions in Hi. rewrite E in Hi. by apply elem_of_nil in Hi.
Qed.

(** Blocking proposes, in order and once each, exactly the pairs of different records that share a blocking
    key, whatever order anything is iterated in. *)
Theorem candidates_exact corpus :
  StronglySorted (λ p q, compare_pair p q = Lt) (candidates corpus) ∧
  ∀ i j, (i, j) ∈ candidates corpus ↔ (i < j)%nat ∧
    ∃ a b k, corpus !! i = Some a ∧ corpus !! j = Some b ∧ k ∈ blocking_keys a ∧ k ∈ blocking_keys b.
Proof. apply candidates_spec. Qed.

(** ** The comparators are total *)

Fixpoint trues (l : list bool) : nat :=
  match l with [] => 0 | true :: l => S (trues l) | false :: l => trues l end%nat.

Lemma first_match_spec c b matched js j :
  first_match c b matched js = Some j → b !! j = Some c ∧ matched !! j = Some false.
Proof.
  induction js as [|j0 js IH]; simpl; [done|]. destruct (negb (nth j0 matched true) && _) eqn:E; [|done].
  intros [= <-]. apply andb_true_iff in E as [E1 E2]. apply bool_decide_eq_true in E2. split; [done|].
  apply negb_true_iff in E1. rewrite nth_lookup in E1. by destruct (matched !! j0) as [[]|].
Qed.

Lemma trues_insert l j : l !! j = Some false → trues (<[j := true]> l) = S (trues l).
Proof.
  revert j. induction l as [|b l IH]; intros [|j] Hj; simplify_eq/=; [done|].
  destruct b; simpl; by rewrite IH.
Qed.

Lemma match_chars_spec window b : ∀ a i fb fa' fb' n, length fb = length b →
  match_chars window i a b fb = (fa', fb', n) →
  length fa' = length a ∧ length fb' = length b ∧ trues fa' = n ∧ (trues fb' = trues fb + n)%nat.
Proof.
  induction a as [|c a IH]; intros i fb fa' fb' n Hl; simpl.
  { intros [= <- <- <-]. split_and!; [done|done|done|lia]. }
  destruct (first_match c b fb _) as [j|] eqn:Ef.
  - apply first_match_spec in Ef as [_ Hj].
    destruct (match_chars window (S i) a b _) as [[fa1 fb1] n1] eqn:Em. intros [= <- <- <-].
    apply IH in Em as (H1 & H2 & H3 & H4); [|by rewrite length_insert]. rewrite trues_insert in H4 by done.
    simpl. split_and!; lia.
  - destruct (match_chars window (S i) a b fb) as [[fa1 fb1] n1] eqn:Em. intros [= <- <- <-].
    apply IH in Em as (H1 & H2 & H3 & H4); [|done]. simpl. split_and!; lia.
Qed.

Lemma next_matched_spec flags : (0 < trues flags)%nat →
  ∃ d, next_matched flags = Some d ∧ (d < length flags)%nat ∧ trues (drop (S d) flags) = pred (trues flags).
Proof.
  induction flags as [|[] flags IH]; simpl; [lia| |].
  - intros _. exists 0%nat. split_and!; [done|lia|]. by rewrite drop_0.
  - intros Hpos. destruct IH as (d & -> & Hd & Ht); [done|]. exists (S d). split_and!; [done|lia|done].
Qed.

Lemma count_transpositions_total b fb : length fb = length b → ∀ a fa k, (trues fa ≤ trues (drop k fb))%nat →
  ∃ n, count_transpositions a fa b fb k = Some n ∧ (n ≤ trues fa)%nat.
Proof.
  intros Hl. induction a as [|x a IH]; intros fa k Ht; simpl; [exists 0%nat; split; [done|lia]|].
  destruct fa as [|[] fa]; simpl in *; [exists 0%nat; split; [done|lia]| |].
  - destruct (next_matched_spec (drop k fb)) as (d & -> & Hd & Htd); [lia|].
    simpl. rewrite length_drop in Hd. destruct (lookup_lt_is_Some_2 b (k + d)) as [y Hy]; [lia|]. rewrite Hy. simpl.
    rewrite drop_drop, Nat.add_succ_r in Htd.
    destruct (IH fa (S (k + d))) as (n & -> & Hn); [rewrite Htd; lia|].
    simpl. eexists. split; [done|]. destruct (x =? y); lia.
  - destruct (IH fa k) as (n & -> & Hn); [done|]. by exists n.
Qed.

Lemma trues_replicate n : trues (replicate n false) = 0%nat.
Proof. by induction n. Qed.

Lemma jaro_total a b : is_Some (jaro a b).
Proof.
  unfold jaro. destruct (fold_case a) as [|x l], (fold_case b) as [|y k]; try by eexists.
  set (fc := x :: l). set (gc := y :: k). destruct (match_chars _ 0 fc gc _) as [[fa fb] n] eqn:E.
  apply match_chars_spec in E as (H1 & H2 & H3 & H4); [|by rewrite length_replicate].
  destruct (Nat.eqb n 0); [by eexists|].
  destruct (count_transpositions_total gc fb H2 fc fa 0) as (t & -> & _); [|by eexists].
  rewrite drop_0, H4, H3, trues_replicate. lia.
Qed.

Lemma jaro_winkler_total a b : is_Some (jaro_winkler a b).
Proof. unfold jaro_winkler. destruct (jaro_total a b) as [x ->]. simpl. destruct (SFleb _ _); by eexists. Qed.

Lemma band_total a b t : is_Some (band a b t).
Proof.
  unfold band. case_bool_decide; [by eexists|]. destruct (_ || _); [by eexists|].
  destruct (jaro_winkler_total (lowercase (trim_text a)) (lowercase (trim_text b))) as [x ->]. by eexists.
Qed.

Lemma mapM_found {A B} (f : A → option B) (P : A → B → Prop) l :
  (∀ x, x ∈ l → ∃ y, f x = Some y ∧ P x y) → ∃ k, mapM f l = Some k ∧ Forall2 P l k.
Proof.
  intros Hf. assert (∃ k, Forall2 (λ x y, f x = Some y ∧ P x y) l k) as [k Hk].
  { induction l as [|x l IH]; [by exists []|]. destruct IH as [k Hk]; [intros y Hy; apply Hf; by right|].
    destruct (Hf x) as [y Hy]; [left|]. exists (y :: k). by constructor. }
  exists k. split; [apply mapM_Some_2|]; (eapply Forall2_impl; [exact Hk|naive_solver]).
Qed.

Lemma mapM_total {A B} (f : A → option B) l : (∀ x, x ∈ l → is_Some (f x)) → is_Some (mapM f l).
Proof. intros Hf. apply mapM_is_Some. by apply Forall_forall. Qed.

Lemma compare_total a b : is_Some (compare a b).
Proof.
  unfold compare. destruct (band_total (strip_legal_suffixes (e_name a)) (strip_legal_suffixes (e_name b))
    NAME_SIMILAR_BAND) as [jw ->]. simpl.
  match goal with |- context [mapM ?f ?l] => destruct (mapM_total f l) as [x ->] end; [|by eexists].
  intros key _. unfold attribute_outcome.
  destruct (e_attributes a !! key), (e_attributes b !! key); simpl; try by eexists.
  match goal with |- context [band ?u ?v ?t] => destruct (band_total u v t) as [c ->] end. by eexists.
Qed.
End blocking.

(** ** The model *)

Section model.
Context `{Unicode, Ln}.
Implicit Types (corpus : list EntityRecord) (labelled : list LabelledPair).

(** Both records of every labelled pair exist. *)
Definition resolvable corpus labelled : Prop :=
  ∀ p, p ∈ labelled → is_Some (by_id corpus !! lp_a p) ∧ is_Some (by_id corpus !! lp_b p).

Lemma vectors_spec missing corpus labelled :
  ∃ r, vectors missing (by_id corpus) labelled = Some r ∧
  match r with
  | Ok vs => resolvable corpus labelled ∧ length vs = length labelled ∧
      vs.*1 = (λ p, bool_decide (lp_label p = MATCH)) <$> labelled
  | Err _ => ¬ resolvable corpus labelled
  end.
Proof.
  induction labelled as [|p labelled IH]; simpl.
  { eexists. split; [done|]. split_and!; [|done|done]. by intros p ?%elem_of_nil. }
  destruct (by_id corpus !! lp_a p) as [a|] eqn:Ea.
  2:{ eexists. split; [done|]. intros Hr. destruct (Hr p) as [[x Hx] _]; [left|congruence]. }
  destruct (by_id corpus !! lp_b p) as [b|] eqn:Eb.
  2:{ eexists. split; [done|]. intros Hr. destruct (Hr p) as [_ [x Hx]]; [left|congruence]. }
  destruct (compare_total a b) as [v ->]. simpl. destruct IH as (r & -> & Hr). simpl. eexists. split; [done|].
  destruct r as [vs|e]; simpl.
  - destruct Hr as (Hres & Hl & Hf). split_and!; [|simpl; lia|by apply (f_equal (cons (bool_decide (lp_label p = MATCH))))].
    intros q [->|Hq]%elem_of_cons; [|by apply Hres]. rewrite Ea, Eb. by split; eexists.
  - intros Hres. apply Hr. intros q Hq. apply Hres. by right.
Qed.

Definition decided model (d : Decision) (lbl : bool) (lv : bool * ComparisonVector) : bool :=
  match decide_score model (score model lv.2), d with
  | Match, Match | Review, Review | NonMatch, NonMatch => Bool.eqb lv.1 lbl
  | _, _ => false
  end.

Definition counted model d lbl (vs : list (bool * ComparisonVector)) : Z :=
  Z.of_nat (length (List.filter (decided model d lbl) vs)).

Lemma counted_cons model d lbl lv vs :
  counted model d lbl (lv :: vs) = (if decided model d lbl lv then 1 else 0) + counted model d lbl vs.
Proof. unfold counted. cbn [List.filter]. destruct (decided model d lbl lv); simpl; lia. Qed.

Lemma tally_spec model vs : ∀ n tp fp fn tn rv p r f,
  foldl (tally model) (mkEvaluation n tp fp fn tn rv p r f) vs =
  mkEvaluation n (tp + counted model Match true vs) (fp + counted model Match false vs)
    (fn + counted model NonMatch true vs) (tn + counted model NonMatch false vs)
    (rv + counted model Review true vs + counted model Review false vs) p r f.
Proof.
  induction vs as [|[lbl v] vs IH]; intros; cbn [foldl].
  { unfold counted. simpl. f_equal; lia. }
  rewrite (counted_cons _ Match true), (counted_cons _ Match false), (counted_cons _ NonMatch true),
    (counted_cons _ NonMatch false), (counted_cons _ Review true), (counted_cons _ Review false).
  unfold decided, tally at 2. simpl. destruct (decide_score model (score model v)), lbl; simpl; rewrite IH; f_equal; lia.
Qed.

Lemma counted_total model vs :
  counted model Match true vs + counted model Match false vs + counted model NonMatch true vs
  + counted model NonMatch false vs + counted model Review true vs + counted model Review false vs
  = Z.of_nat (length vs).
Proof.
  induction vs as [|[lbl v] vs IH]; [done|]. rewrite !counted_cons. unfold decided. simpl.
  destruct (decide_score model (score model v)), lbl; simpl; lia.
Qed.

(** C24: resolution never panics: every candidate is scored, under its records' identities and in order, and an
    evaluation is refused exactly when a labelled pair names no record; otherwise its confusion table
    counts every labelled pair exactly once, each under the decision of its score and its own label. *)
Theorem resolution_total corpus labelled model :
  (∃ scored, score_candidates corpus model = Some scored ∧
    Forall2 (λ (p : nat * nat) s, e_id <$> corpus !! p.1 = Some (sp_a s) ∧ e_id <$> corpus !! p.2 = Some (sp_b s))
      (candidates corpus) scored) ∧
  (∃ r, evaluate corpus labelled model = Some r ∧
    match r with
    | Err _ => ¬ resolvable corpus labelled
    | Ok e => resolvable corpus labelled ∧ labelled_pairs e = Z.of_nat (length labelled) ∧
        true_positives e + false_positives e + false_negatives e + true_negatives e + review e
          = Z.of_nat (length labelled) ∧
        ∃ vs, vectors missing_in_evaluate (by_id corpus) labelled = Some (Ok vs) ∧
          vs.*1 = ((λ p, bool_decide (lp_label p = MATCH)) <$> labelled) ∧
          true_positives e = counted model Match true vs ∧ false_positives e = counted model Match false vs ∧
          false_negatives e = counted model NonMatch true vs ∧ true_negatives e = counted model NonMatch false vs
    end) ∧
  is_Some (estimate corpus labelled).
Proof.
  split_and!.
  - assert (Hall : ∀ p, p ∈ candidates corpus → ∃ a b, corpus !! p.1 = Some a ∧ corpus !! p.2 = Some b).
    { intros [i j] (_ & a & b & _ & Ha & Hb & _)%candidates_spec. by exists a, b. }
    apply mapM_found. intros p Hp. destruct (Hall p Hp) as (a & b & Ha & Hb). destruct (compare_total a b) as [v Hv].
    rewrite Ha, Hb. simpl. rewrite Hv. simpl. eexists. split; [done|]. done.
  - unfold evaluate. destruct (vectors_spec missing_in_evaluate corpus labelled) as (r & -> & Hr). simpl.
    eexists. split; [done|]. destruct r as [vs|e]; [|done]. destruct Hr as (Hres & Hl & Hf). simpl.
    rewrite tally_spec. simpl. split_and!; [done|done| |].
    + rewrite <-Hl, <-(counted_total model vs). lia.
    + exists vs. split_and!; [done|done|lia..].
  - unfold estimate. case_bool_decide; [by eexists|].
    destruct (vectors_spec missing_in_estimate corpus labelled) as (r & -> & _). by eexists.
Qed.

Lemma find_none_forall {A} (f : A → bool) l : List.find f l = None → ∀ x, x ∈ l → f x = false.
Proof.
  induction l as [|y l IH]; simpl; [by intros _ x ?%elem_of_nil|]. destruct (f y) eqn:E; [done|].
  intros Hf x [->|Hx]%elem_of_cons; [done|by apply IH].
Qed.

(** An estimated model: every slot it has for matches it has for non-matches, and both classes were
    labelled. *)
Lemma estimate_ok corpus labelled model : estimate corpus labelled = Some (Ok model) →
  resolvable corpus labelled ∧ (∀ s, is_Some (fs_m model !! s) → is_Some (fs_u model !! s)) ∧
  (∃ p, p ∈ labelled ∧ lp_label p = MATCH) ∧ (∃ p, p ∈ labelled ∧ lp_label p ≠ MATCH).
Proof.
  unfold estimate. case_bool_decide; [done|].
  destruct (vectors_spec missing_in_estimate corpus labelled) as (r & -> & Hr). destruct r as [vs|e]; [|done].
  destruct Hr as (Hres & Hl & Hf). simpl. destruct (List.find _ _) eqn:Ef; [done|].
  destruct (bool_decide _ || bool_decide _) eqn:Eb; [done|]. bool_prop. intros [= <-]. simpl.
  assert (Hlab : ∀ lbl, of_label lbl vs ≠ [] → ∃ p, p ∈ labelled ∧ bool_decide (lp_label p = MATCH) = lbl).
  { intros lbl Hne. destruct (of_label lbl vs) as [|v l] eqn:E; [done|].
    assert (Hv : v ∈ of_label lbl vs) by (rewrite E; left). unfold of_label in Hv.
    apply list_elem_of_omap in Hv as ([lb v'] & Hin & Hm). simpl in Hm.
    destruct (Bool.eqb lb lbl) eqn:El; [|done]. apply Bool.eqb_prop in El as ->.
    assert (Hl1 : lbl ∈ vs.*1) by (apply list_elem_of_fmap; by exists (lbl, v')).
    rewrite Hf in Hl1. apply list_elem_of_fmap in Hl1 as (p & -> & Hp). by exists p. }
  split_and!; [done| | |].
  - intros s [q Hq]. apply not_eq_None_Some. intros Hn.
    assert (Hin : s ∈ (btree_iter compare_bytes (smooth <$> counts_of (of_label true vs))).*1).
    { apply list_elem_of_fmap. exists (s, q). split; [done|]. rewrite btree_iter_perm. by apply elem_of_map_to_list. }
    apply (find_none_forall _ _ Ef) in Hin. by rewrite bool_decide_eq_true_2 in Hin.
  - destruct (Hlab true) as (p & Hp & E%bool_decide_eq_true); [|by exists p].
    intros E. rewrite E in *. done.
  - destruct (Hlab false) as (p & Hp & E%bool_decide_eq_false); [|by exists p].
    intros E. rewrite E in *. done.
Qed.

(** Two names that are nothing but legal suffixes agree exactly, whatever they are. *)
Lemma bare_suffixes_agree a b : strip_legal_suffixes (e_name a) = [] → strip_legal_suffixes (e_name b) = [] →
  ∃ v, compare a b = Some v ∧ name_jw v = Exact ∧ name_tokens v = Exact.
Proof.
  intros Ea Eb. destruct (compare_total a b) as [v Hv]. exists v. split; [done|].
  unfold compare in Hv. rewrite Ea, Eb in Hv. unfold band in Hv. rewrite bool_decide_eq_true_2 in Hv by done.
  cbn [mbind option_bind] in Hv. case_bool_decide; [|done].
  match type of Hv with context [mapM ?f ?l] => destruct (mapM f l) as [os|] end; [|done].
  cbn [mbind option_bind] in Hv. by simplify_eq.
Qed.
End model.
