(* ===== verification/Mcr2.v ===== *)
(** * The MCR² engine and the graph diagnostics

    [crates/exocortex-dreams/src/mcr2.rs]: the coding rate of a set of embeddings by a log-determinant, the
    gain a partition into classes brings, the pairs worth merging, the sparsity of a region, and the
    strength of an edge.

    [f32] and [f64] are IEEE binary32 and binary64 with the code's order of operations; [ln] is a parameter
    ([Ln]).  The rates of the classes are summed in the order a hash map yields them.  An index out of
    range, which would panic, is [None]. *)

From stdpp Require Import pretty strings.
From S2P Require Import Prelude Ids Kernel IngestCommit EntityResolution.

(** ** Conversions between the float types *)

(** [x as f64] and [x as f32]: the same value, and the nearest one. *)
Definition float_convert (prec emax : Z) (x : spec_float) : spec_float :=
  match x with
  | S754_finite s m e => binary_normalize prec emax (cond_Zopp s (Zpos m)) e s
  | _ => x
  end.
Definition f64_of_f32 (x : f32) : f64 := float_convert 53 1024 x.
Definition f32_of_f64 (x : f64) : f32 := float_convert f32_prec f32_emax x.

Definition f64_sqrt (x : f64) : f64 := SFsqrt 53 1024 x.
Definition f32_div (x y : f32) : f32 := SFdiv f32_prec f32_emax x y.
(** [f32::max] and [f32::min]: a NaN loses. *)
Definition f32_max (x y : f32) : f32 :=
  match x, y with
  | S754_nan, _ => y
  | _, S754_nan => x
  | _, _ => if SFltb x y then y else x
  end.
Definition f32_min (x y : f32) : f32 :=
  match x, y with
  | S754_nan, _ => y
  | _, S754_nan => x
  | _, _ => if SFltb y x then y else x
  end.
Definition f32_ge (x y : f32) : bool := SFleb y x.
Definition f32_gt (x y : f32) : bool := SFltb y x.

(** [slice::sort_by], which keeps the order of what it does not distinguish: [before y x] is
    [compare(y, x) == Less]. *)
Section stable_sort.
Context {A : Type} (before : A → A → bool).
Fixpoint stable_insert (x : A) (l : list A) : list A :=
  match l with
  | [] => [x]
  | y :: l => if before y x then y :: stable_insert x l else x :: y :: l
  end.
Definition stable_sort (l : list A) : list A := foldr stable_insert [] l.
End stable_sort.

(** ** Data *)

(* SRC crates/exocortex-dreams/src/mcr2.rs 12-19 EmbeddingModelId *)
Record EmbeddingModelId := mkModelId { mi_name : string; mi_version : string }.

(* SRC crates/exocortex-dreams/src/mcr2.rs 22-28 EmbeddingModelId::bge_small *)
Definition bge_small : EmbeddingModelId := mkModelId "bge-small" "v1".

(* SRC crates/exocortex-dreams/src/mcr2.rs 32-37 EmbeddingModelId::from *)
Definition model_id_from (model : EmbeddingModel) : EmbeddingModelId :=
  mkModelId (em_name model) (em_version model).

(* SRC crates/exocortex-dreams/src/mcr2.rs 40-51 MemoryWithEmbedding *)
Record MemoryWithEmbedding := mkAnchor {
  an_id : MemoryId;
  an_class : Z;
  an_visibility : Visibility;
  an_embedding : Embedding;
}.
Definition an_vector (m : MemoryWithEmbedding) : list f32 := emb_vector (an_embedding m).

(* SRC crates/exocortex-dreams/src/mcr2.rs 53-70 MCR2Value *)
Record MCR2Value := mkMCR2Value {
  delta_r : f32;
  total_rate : f32;
  class_rates : gmap Z f32;
  compact_rate : f32;
  n_memories : Z;
  embedding_model : EmbeddingModelId;
  computed_at : DateTime;
}.

(* SRC crates/exocortex-dreams/src/mcr2.rs 72-84 MCR2Error *)
Inductive MCR2Error := CrossModelComparison | TooFew (n : Z) | DimensionMismatch.

(* SRC crates/exocortex-dreams/src/mcr2.rs 86-90 MCR2Engine *)
Definition default_epsilon : f32 := f32_hundredths 50.

(** ** The coding rate *)

Abbreviation Matrix := (list (list f64)) (only parsing).
Definition zeros (d : nat) : Matrix := replicate d (replicate d f64_zero).
Definition mget (a : Matrix) (i j : nat) : f64 := default f64_zero (a !! i ≫= (.!! j)).
Definition mset (a : Matrix) (i j : nat) (x : f64) : Matrix := alter <[j := x]> i a.

(** One row into the Gram matrix; [r] is read at every index below [d]. *)
Definition gram_row (d : nat) (a : Matrix) (r : list f32) : option Matrix :=
  if (length r <? d)%nat then None
  else
    let at_ i := f64_of_f32 (default f32_zero (r !! i)) in
    Some (imap (λ i row, imap (λ j cell, f64_add cell (f64_mul (at_ i) (at_ j))) row) a).

Fixpoint gram (d : nat) (a : Matrix) (rows : list (list f32)) : option Matrix :=
  match rows with
  | [] => Some a
  | r :: rows => a ← gram_row d a r; gram d a rows
  end.

(** [I + alpha * a]. *)
Definition shifted (alpha : f64) (a : Matrix) : Matrix :=
  imap (λ i row, imap (λ j cell,
    let cell := f64_mul cell alpha in
    if (i =? j)%nat then f64_add cell f64_one else cell) row) a.

(** One entry of the factor; [None] is the break out of both loops. *)
Definition cholesky_entry (a : Matrix) (ridge : f64) (l : Matrix) (i j : nat) : option Matrix :=
  let sum := f64_add (mget a i j) (if (i =? j)%nat then ridge else f64_zero) in
  let sum := foldl (λ sum k, f64_sub sum (f64_mul (mget l i k) (mget l j k))) sum (seq 0 j) in
  if (i =? j)%nat
  then if SFleb sum f64_zero then None else Some (mset l i j (f64_sqrt sum))
  else Some (mset l i j (f64_div sum (mget l j j))).

Definition cholesky (d : nat) (a : Matrix) (ridge : f64) : option Matrix :=
  foldl (λ l ij, l ← l; cholesky_entry a ridge l ij.1 ij.2) (Some (zeros d))
    (seq 0 d ≫= λ i, pair i <$> seq 0 (S i)).

(** [[0.0, 1e-8, 1e-6, 1e-4]]. *)
Definition ridges : list f64 :=
  f64_zero :: ((λ n, f64_div f64_one (f64_of_Z (10 ^ n))) <$> [8; 6; 4]).

(** The first ridge under which the factorization succeeds. *)
Fixpoint first_factor (d : nat) (a : Matrix) (rs : list f64) : option Matrix :=
  match rs with
  | [] => None
  | ridge :: rs => match cholesky d a ridge with Some l => Some l | None => first_factor d a rs end
  end.

Section rates.
Context `{Ln, HashOrder}.

Definition half_log_det (d : nat) (l : Matrix) : f32 :=
  let logdet := foldl (λ s i, f64_add s (f64_mul (f64_of_Z 2) (f64_ln (mget l i i)))) f64_zero (seq 0 d) in
  f32_of_f64 (f64_mul (f64_div f64_one (f64_of_Z 2)) logdet).

(* SRC crates/exocortex-dreams/src/mcr2.rs 98-156 log_det_cov *)
Definition log_det_cov (rows : list (list f32)) (epsilon : f32) : option f32 :=
  let d := match rows with r :: _ => length r | [] => O end in
  if (d =? 0)%nat then Some f32_zero
  else
    let n := f32_of_Z (Z.of_nat (length rows)) in
    let alpha := f32_div (f32_of_Z (Z.of_nat d)) (f32_mul (f32_mul n epsilon) epsilon) in
    a ← gram d (zeros d) rows;
    match first_factor d (shifted (f64_of_f32 alpha) a) ridges with
    | Some l => Some (half_log_det d l)
    | None => Some f32_zero
    end.

(** The vectors of every class, in order. *)
Definition by_class (ms : list MemoryWithEmbedding) : gmap Z (list (list f32)) :=
  foldl (λ m a, <[an_class a := default [] (m !! an_class a) ++ [an_vector a]]> m) ∅ ms.

(** One class into the rates and the compact rate. *)
Definition class_rate (epsilon n : f32) (acc : option (gmap Z f32 * f32)) (c : Z * list (list f32))
    : option (gmap Z f32 * f32) :=
  '(rates, compact) ← acc;
  rate ← log_det_cov c.2 epsilon;
  let weight := f32_div (f32_of_Z (Z.of_nat (length c.2))) n in
  Some (<[c.1 := rate]> rates, f32_add compact (f32_mul weight rate)).

(* SRC crates/exocortex-dreams/src/mcr2.rs 159-209 MCR2Engine::compute *)
Definition compute (epsilon : f32) (now : DateTime) (memories : list MemoryWithEmbedding)
    : option (result MCR2Value MCR2Error) :=
  match memories with
  | first :: _ :: _ =>
      let model := emb_model (an_embedding first) in
      if existsb (λ m, negb (String.eqb (em_name (emb_model (an_embedding m))) (em_name model)
                             && String.eqb (em_version (emb_model (an_embedding m))) (em_version model))) memories
      then Some (Err CrossModelComparison)
      else if existsb (λ m, negb (length (an_vector m) =? length (an_vector first))%nat) memories
      then Some (Err DimensionMismatch)
      else
        total ← log_det_cov (an_vector <$> memories) epsilon;
        let n := f32_of_Z (Z.of_nat (length memories)) in
        '(rates, compact) ← foldl (class_rate epsilon n) (Some (∅, f32_zero)) (hash_iter (by_class memories));
        Some (Ok (mkMCR2Value (f32_sub total compact) total rates compact (Z.of_nat (length memories))
                    (model_id_from model) now))
  | _ => Some (Err (TooFew 2))
  end.
End rates.

(* SRC crates/exocortex-dreams/src/mcr2.rs 211-215 MCR2Engine::should_consolidate *)
Definition should_consolidate (current : MCR2Value) : bool :=
  SFltb (delta_r current) f32_zero
  || f32_gt (f32_div (compact_rate current)
               (f32_max (total_rate current) (f32_div f32_one (f32_of_Z (10 ^ 6)))))
            (f32_hundredths 98).

(** ** Merge candidates *)

(* SRC crates/exocortex-dreams/src/mcr2.rs 251-262 MergeCandidate *)
Record MergeCandidate := mkMergeCandidate {
  mc_a : MemoryId;
  mc_b : MemoryId;
  predicted_delta_r_gain : f32;
  cosine_similarity : f32;
}.

(** Every pair of a list, the earlier element first. *)
Fixpoint ordered_pairs {A} (l : list A) : list (A * A) :=
  match l with
  | [] => []
  | x :: l => (pair x <$> l) ++ ordered_pairs l
  end.

Definition merge_candidate (p : MemoryWithEmbedding * MemoryWithEmbedding) : option MergeCandidate :=
  let '(a, b) := p in
  if negb (an_class a =? an_class b) then None
  else
    let sim := cosine (an_vector a) (an_vector b) in
    if f32_gt sim (f32_hundredths 90) then Some (mkMergeCandidate (an_id a) (an_id b) sim sim) else None.

(* SRC crates/exocortex-dreams/src/mcr2.rs 217-248 MCR2Engine::identify_merge_candidates *)
Definition identify_merge_candidates (memories : list MemoryWithEmbedding) : list MergeCandidate :=
  stable_sort (λ y x, SFltb (predicted_delta_r_gain x) (predicted_delta_r_gain y))
    (omap merge_candidate (ordered_pairs memories)).

(** ** Sparsity *)

(* SRC crates/exocortex-dreams/src/mcr2.rs 284-301 GraphSparsity *)
Record GraphSparsity := mkSparsity {
  avg_out_degree : f32;
  median_out_degree_by_type : gmap Z f32;
  hairball_fraction : f32;
  weighted_density_by_cluster : gmap Z f32;
  gs_n_memories : Z;
  n_edges : Z;
  gs_computed_at : DateTime;
}.

(** An edge of the diagnostic: its ends, kind, cluster and confidence. *)
Record SparsityEdge := mkSparsityEdge {
  se_from : MemoryId;
  se_to : MemoryId;
  se_kind : Z;
  se_cluster : Z;
  se_confidence : f32;
}.

(** The loop over the edges: out-degrees, and the confidence and number of edges of a cluster. *)
Definition count_edge (similar_kind : option RelKindId) (acc : gmap MemoryId Z * gmap Z (f32 * Z))
    (e : SparsityEdge) : gmap MemoryId Z * gmap Z (f32 * Z) :=
  if match similar_kind with Some sk => kind_val sk =? se_kind e | None => false end then acc
  else
    let '(out_deg, densities) := acc in
    let '(conf, n) := default (f32_zero, 0) (densities !! se_cluster e) in
    (<[se_from e := as_u32 (default 0 (out_deg !! se_from e) + 1)]> out_deg,
     <[se_cluster e := (f32_add conf (se_confidence e), n + 1)]> densities).

Definition median (ds : list Z) : f32 :=
  let ds := merge_sort Z.le ds in
  let mid := Nat.div (length ds) 2 in
  let at_ i := f32_of_Z (default 0 (ds !! i)) in
  if Nat.odd (length ds) then at_ mid
  else f32_div (f32_add (at_ (mid - 1)%nat) (at_ mid)) (f32_of_Z 2).

(** [conf_sum / max(1, n * (n - 1))] for a cluster of [n] nodes. *)
Definition density (nodes : nat) (cluster : Z) (e : f32 * Z) : f32 :=
  let nodes_in := Z.max 1 (if (cluster =? 0) && negb (nodes =? 0)%nat then Z.of_nat nodes else e.2) in
  f32_div e.1 (f32_of_Z (Z.max 1 (nodes_in * (nodes_in - 1)))).

(* SRC crates/exocortex-dreams/src/mcr2.rs 303-381 compute_sparsity *)
Definition compute_sparsity `{HashOrder} (now : DateTime) (nodes : list (MemoryId * Z))
    (edges : list SparsityEdge) (hairball_threshold : Z) (similar_kind : option RelKindId) : GraphSparsity :=
  let '(out_deg, densities) := foldl (count_edge similar_kind) (∅, ∅) edges in
  let n := f32_of_Z (Z.max 1 (Z.of_nat (length nodes))) in
  let degree id := default 0 (out_deg !! id) in
  let by_type := foldl (λ m (node : MemoryId * Z),
    <[node.2 := default [] (m !! node.2) ++ [degree node.1]]> m) (∅ : gmap Z (list Z)) nodes in
  {| avg_out_degree := f32_div (f32_of_Z (as_u32 (foldl Z.add 0 (hash_values out_deg)))) n;
     median_out_degree_by_type := median <$> by_type;
     hairball_fraction := f32_div (f32_of_Z (Z.of_nat (length (List.filter (λ d, hairball_threshold <? d)
                            (hash_values out_deg))))) n;
     weighted_density_by_cluster := map_imap (λ c e, Some (density (length nodes) c e)) densities;
     gs_n_memories := Z.of_nat (length nodes);
     n_edges := Z.of_nat (length edges);
     gs_computed_at := now |}.

(** ** Strength *)

(* SRC crates/exocortex-dreams/src/mcr2.rs 383-392 effective_strength *)
Definition effective_strength (base : f32) (evidence_count : Z) (success_rate age_days : f32) : f32 :=
  let boost := f32_min (f32_mul (f32_hundredths 5)
                 (f32_sqrt (f32_max (f32_sub (f32_of_Z evidence_count) f32_one) f32_zero))) (f32_hundredths 20) in
  let success := f32_add (f32_hundredths 50) (f32_mul (f32_hundredths 50) success_rate) in
  let decay := f32_max (f32_sub f32_one (f32_mul (f32_hundredths 1) age_days)) (f32_hundredths 50) in
  f32_clamp (f32_mul (f32_mul (f32_add base boost) success) decay) f32_zero f32_one.
