(* ===== verification/Consolidation.v ===== *)
(** * What a Dreams cycle works on and writes

    The first half of [crates/exocortex-dreams/src/lib.rs]: the working set of a region, the journal of a
    cycle, the choice of its anchors, and what each consolidation action writes - the merge of a duplicate,
    the strengthening of edges, the similarity edges and the abstractions - as functions of the working
    set.  DreamsCycle.v commits them under a lease.

    A hash map is enumerated in any order.  Metrics and logging are left out. *)

From stdpp Require Import pretty strings.
From S2P Require Import Prelude Ids Kernel Packs Ontology StorageTypes Graph Reads Leases.
From S2P Require Import Cycles Entities IngestCommit ShippedPacks EntityResolution Mcr2.

(** ** The working set *)

(* SRC crates/exocortex-dreams/src/lib.rs 44-47 RegionWorkingSet *)
Record RegionWorkingSet := mkWorkingSet {
  ws_memories : gmap MemoryId Memory;
  ws_relationships : gmap RelationshipId Relationship;
}.

(** A class, a label and the subject the label restricts to. *)
Abbreviation ScopeKey := (Z * (Z * option string))%type.

Section consolidation.
Context `{Blake3, Sha256, Bincode, HashOrder}.
Implicit Types (ws : RegionWorkingSet) (m : Memory) (r : Relationship).

(** [result.ok()]. *)
Definition ok {A E} (r : result A E) : option A := match r with Ok a => Some a | Err _ => None end.

(* SRC crates/exocortex-dreams/src/lib.rs 238-244 dreams_ontology *)
Definition dreams_ontology : option Ontology := ok (from_packs [dev_pack]).

Definition inverse_of r : option Relationship := o ← dreams_ontology; materialize_inverse o r.

(** A relationship and its companion into the map. *)
Definition apply_write (rels : gmap RelationshipId Relationship) r : gmap RelationshipId Relationship :=
  let rels := <[r_id r := r]> rels in
  from_option (λ inv, <[r_id inv := inv]> rels) rels (inverse_of r).

(* SRC crates/exocortex-dreams/src/lib.rs 50-59 apply_relationship_writes *)
Definition apply_relationship_writes (writes : list Relationship) ws : RegionWorkingSet :=
  mkWorkingSet (ws_memories ws) (foldl apply_write (ws_relationships ws) writes).

Definition insert_memory m ws : RegionWorkingSet :=
  mkWorkingSet (<[m_id m := m]> (ws_memories ws)) (ws_relationships ws).

Definition live_memory m : bool := bool_decide (m_valid_until m = None).
Definition live_edge r : bool := bool_decide (r_valid_until r = None).
Definition computed (p : Provenance) : bool := match p with Computed _ _ => true | _ => false end.

(** ** The journal of a cycle *)

(* SRC crates/exocortex-dreams/src/lib.rs 122-131 CycleJournal *)
Record CycleJournal := mkCycleJournal {
  jr_cycle_id : string;
  jr_memories : gmap MemoryId Memory;
  jr_relationships : gmap RelationshipId Relationship;
  jr_created_memories : gmap MemoryId Memory;
  jr_created_relationships : gmap RelationshipId Relationship;
  jr_memory_lsns : lsn_map MemoryId;
  jr_relationship_lsns : lsn_map RelationshipId;
}.
Implicit Types (j : CycleJournal).

(* SRC crates/exocortex-dreams/src/lib.rs 134-144 CycleJournal::new *)
Definition CycleJournal_new (cycle_id : string) : CycleJournal := mkCycleJournal cycle_id ∅ ∅ ∅ ∅ ∅ ∅.

(** [map.entry(id).or_insert_with(|| row.clone())]. *)
Definition or_insert {K A} `{Countable K} (k : K) (x : A) (t : gmap K A) : gmap K A :=
  match t !! k with Some _ => t | None => <[k := x]> t end.

(* SRC crates/exocortex-dreams/src/lib.rs 146-152 record_memory *)
Definition record_memory m j : CycleJournal :=
  let '(mkCycleJournal i ms rs cms crs mo ro) := j in
  if bool_decide (is_Some (cms !! m_id m)) then j
  else mkCycleJournal i (or_insert (m_id m) m ms) rs cms crs mo ro.

(* SRC crates/exocortex-dreams/src/lib.rs 154-160 record_relationship *)
Definition record_relationship r j : CycleJournal :=
  let '(mkCycleJournal i ms rs cms crs mo ro) := j in
  if bool_decide (is_Some (crs !! r_id r)) then j
  else mkCycleJournal i ms (or_insert (r_id r) r rs) cms crs mo ro.

(* SRC crates/exocortex-dreams/src/lib.rs 162-168 create_relationship *)
Definition create_relationship r j : CycleJournal :=
  let '(mkCycleJournal i ms rs cms crs mo ro) := j in
  if bool_decide (is_Some (rs !! r_id r)) then j
  else mkCycleJournal i ms rs cms (or_insert (r_id r) r crs) mo ro.

(* SRC crates/exocortex-dreams/src/lib.rs 170-179 create_memory *)
Definition create_memory m j : CycleJournal :=
  let '(mkCycleJournal i ms rs cms crs mo ro) := j in
  if bool_decide (is_Some (ms !! m_id m)) then j
  else mkCycleJournal i ms rs (or_insert (m_id m) m cms) crs mo ro.

(* SRC crates/exocortex-dreams/src/lib.rs 199-208 prepare_relationship *)
Definition prepare_relationship (current : gmap RelationshipId Relationship) r j : CycleJournal :=
  match current !! r_id r with
  | Some preimage => record_relationship preimage j
  | None => create_relationship r j
  end.

(** One write and, unless its id was seen, its companion. *)
Definition prepare_write (current : gmap RelationshipId Relationship)
    (acc : gset RelationshipId * CycleJournal) r : gset RelationshipId * CycleJournal :=
  let '(seen, j) := acc in
  let j := prepare_relationship current r j in
  from_option (λ inv, if bool_decide (r_id inv ∈ seen) then (seen, j)
                      else ({[r_id inv]} ∪ seen, prepare_relationship current inv j)) (seen, j) (inverse_of r).

(* SRC crates/exocortex-dreams/src/lib.rs 181-197 prepare_relationship_writes *)
Definition prepare_relationship_writes (writes : list Relationship)
    (current : gmap RelationshipId Relationship) j : CycleJournal :=
  (foldl (prepare_write current) (list_to_set (r_id <$> writes), j) writes).2.

(* SRC crates/exocortex-dreams/src/lib.rs 210-220 record_commit *)
Definition record_commit (commit : FencedBatchCommit) j : CycleJournal :=
  let '(mkCycleJournal i ms rs cms crs mo ro) := j in
  mkCycleJournal i ms rs cms crs (extend_lsns mo (memory_lsns commit))
    (extend_lsns ro (relationship_lsns commit)).

(** The values of a [BTreeMap], by key. *)
Definition btree_values {K V} `{Countable K} (cmp : K → K → comparison) (t : gmap K V) : list V :=
  (btree_iter cmp t).*2.

(* SRC crates/exocortex-dreams/src/lib.rs 222-231 CycleJournal::restore *)
Definition journal_restore j : FencedRestore :=
  mkFencedRestore (btree_values compare_mid (jr_memories j)) (btree_values compare_rid (jr_relationships j))
    (btree_values compare_mid (jr_created_memories j)) (btree_values compare_rid (jr_created_relationships j))
    (jr_memory_lsns j) (jr_relationship_lsns j).

(* SRC crates/exocortex-dreams/src/lib.rs 233-235 CycleJournal::is_empty *)
Definition journal_is_empty j : bool :=
  bool_decide (jr_memory_lsns j = ∅) && bool_decide (jr_relationship_lsns j = ∅).

(** ** The linked pack *)

(* SRC crates/exocortex-dreams/src/lib.rs 2458-2472 summarizes_kind *)
Definition summarizes_kind : option RelKindId := o ← dreams_ontology; kind_id o "Summarizes".

(* SRC crates/exocortex-dreams/src/lib.rs 2474-2485 abstraction_carrier_type *)
Definition abstraction_carrier_type : option Z := o ← dreams_ontology; memory_type_id o "General".

(* SRC crates/exocortex-dreams/src/lib.rs 2487-2497 type_name *)
Definition type_name (class : Z) : option string :=
  o ← dreams_ontology; memory_type_names o !! Z.to_nat class.

(* SRC crates/exocortex-dreams/src/lib.rs 2516-2524 similar_to_kind *)
Definition similar_to_kind : option RelKindId := o ← dreams_ontology; kind_id o "SimilarTo".

(* SRC crates/exocortex-dreams/src/lib.rs 2499-2514 derive_abstraction_id *)
Definition derive_abstraction_id (members : list MemoryId) : MemoryId :=
  mkMemoryId (take 16 (sha256 (as_bytes "exocortex-abstraction-v1" ++ (members ≫= mid_bytes)))).

(** ** Anchors and diagnostics *)

Definition anchor_of m : option (DateTime * MemoryWithEmbedding) :=
  if negb (live_memory m) || computed (m_provenance m) then None
  else e ← embedding m; Some (m_recorded_at m, mkAnchor (m_id m) (memory_type m) (m_visibility m) e).

(** [-(now - t).num_days()]. *)
Definition recency (now t : DateTime) : Z := - Z.quot (now - t) 86400000000000.

(** [score(b).cmp(&score(a)).then(b.id.cmp(&a.id))]. *)
Definition compare_anchor (now : DateTime) (x y : DateTime * MemoryWithEmbedding) : comparison :=
  cmp_then (recency now y.1 ?= recency now x.1) (compare_mid (an_id y.2) (an_id x.2)).

(* SRC crates/exocortex-dreams/src/lib.rs 1183-1219 select_anchors *)
Definition select_anchors (now : DateTime) ws : list MemoryWithEmbedding :=
  (take 32 (merge_sort (le_of (compare_anchor now)) (omap anchor_of (hash_values (ws_memories ws))))).*2.

(* SRC crates/exocortex-dreams/src/lib.rs 1225-1254 sparsity *)
Definition sparsity (now : DateTime) ws : GraphSparsity :=
  let nodes := (λ m, (m_id m, memory_type m)) <$> List.filter live_memory (hash_values (ws_memories ws)) in
  let members : gset MemoryId := list_to_set nodes.*1 in
  let edges := (λ r, mkSparsityEdge (r_from r) (r_to r) (kind_val (r_kind r)) 0 (rp_confidence (r_properties r)))
    <$> List.filter (λ r, live_edge r && bool_decide (r_from r ∈ members) && bool_decide (r_to r ∈ members))
          (hash_values (ws_relationships ws)) in
  compute_sparsity now nodes edges 32 similar_to_kind.

(** ** Merging a duplicate *)

Definition r_with_until (until : option DateTime) r : Relationship :=
  let '(mkRelationship a b c d e f g h i k _ n o l) := r in mkRelationship a b c d e f g h i k until n o l.

(** The edge with [b] replaced by [a], recorded now. *)
Definition rewired (a b : MemoryId) (now : DateTime) r : Relationship :=
  let from := if bool_decide (r_from r = b) then a else r_from r in
  let to := if bool_decide (r_to r = b) then a else r_to r in
  {| r_id := RelationshipId_derive from (r_kind r) to None; r_kind := r_kind r; r_from := from; r_to := to;
     r_visibility := r_visibility r; r_provenance := r_provenance r; r_properties := r_properties r;
     r_description := r_description r; r_bidirectional := r_bidirectional r; r_valid_from := now;
     r_valid_until := None; r_recorded_at := now; r_invalidated_by := None; r_lsn := r_lsn r |}.

Record MergeState := mkMergeState {
  mg_journal : CycleJournal;
  mg_updates : gmap RelationshipId Relationship;
  mg_rewired : list RelationshipId;
}.

(** The body of the loop over the live edges of [b]. *)
Definition merge_edge ws (a b : MemoryId) (now : DateTime) (s : MergeState) r : MergeState :=
  let j := record_relationship r (mg_journal s) in
  let updates := <[r_id r := r_with_until (Some now) r]> (mg_updates s) in
  let w := rewired a b now r in
  if bool_decide (r_from w = r_to w) then mkMergeState j updates (mg_rewired s)
  else
    let write j := mkMergeState j (<[r_id w := w]> updates) (mg_rewired s ++ [r_id w]) in
    match ws_relationships ws !! r_id w with
    | Some existing =>
        if live_edge existing then mkMergeState j updates (mg_rewired s)
        else write (record_relationship existing j)
    | None => write (create_relationship w j)
    end.

Definition touches (b : MemoryId) r : bool :=
  live_edge r && (bool_decide (r_from r = b) || bool_decide (r_to r = b)).

(** The absorbed row: closed, and invalidated by the survivor. *)
Definition absorbed (now : DateTime) (a : MemoryId) m : Memory :=
  let '(mkMemory x b c d e f g h i k l n o p _ s _ u v w) := m in
  mkMemory x b c d e f g h i k l n o p (Some now) s (Some a) u v w.

(** What merging a candidate writes: the journal that prepares it, the row, the edges, and the ids of the
    rewired ones; nothing when either row is not live. *)
(* SRC crates/exocortex-dreams/src/lib.rs 1256-1340 merge *)
Definition plan_merge (now : DateTime) (c : MergeCandidate) ws j
    : option (CycleJournal * Memory * list Relationship * list RelationshipId) :=
  match ws_memories ws !! mc_a c, ws_memories ws !! mc_b c with
  | Some survivor, Some m =>
      if live_memory survivor && live_memory m then
        let s := foldl (merge_edge ws (mc_a c) (mc_b c) now) (mkMergeState (record_memory m j) ∅ [])
                   (List.filter (touches (mc_b c)) (hash_values (ws_relationships ws))) in
        let updates := btree_values compare_rid (mg_updates s) in
        Some (prepare_relationship_writes updates (ws_relationships ws) (mg_journal s),
              absorbed now (mc_a c) m, updates, mg_rewired s)
      else None
  | _, _ => None
  end.

(** ** Strengthening *)

(* SRC crates/exocortex-dreams/src/lib.rs 2526-2529 decay_factor *)
Definition decay_factor (age_days : f32) : f32 :=
  f32_max (f32_sub f32_one (f32_mul (f32_hundredths 1) age_days)) (f32_hundredths 50).

(** [f32::EPSILON]. *)
Definition f32_epsilon : f32 := S754_finite false 8388608 (-46).

Definition r_with_properties (p : RelationshipProperties) r : Relationship :=
  let '(mkRelationship a b c d e f _ h i k n o q l) := r in mkRelationship a b c d e f p h i k n o q l.

Definition strengthen_edge (now : DateTime) r : Relationship :=
  let '(mkRelationshipProperties st conf ctx ev succ val counter last) := r_properties r in
  let ev := as_u32 (ev + 1) in
  let age_days := f32_of_Z (Z.max 0 (Z.quot (now - r_recorded_at r) 86400000000000)) in
  r_with_properties (mkRelationshipProperties
    (effective_strength (f32_div st (f32_max (decay_factor age_days) f32_epsilon)) ev
       (default f32_one succ) age_days) conf ctx ev succ val counter last) r.

Definition strengthens (members : gset MemoryId) (done_ : list RelationshipId) r : bool :=
  bool_decide (r_from r ∈ members) && bool_decide (r_to r ∈ members) && live_edge r &&
  negb (computed (r_provenance r)) && negb (bool_decide (r_id r ∈ done_)).

(* SRC crates/exocortex-dreams/src/lib.rs 1342-1412 strengthen *)
Definition plan_strengthen (now : DateTime) (done_ : list RelationshipId) ws j : CycleJournal * list Relationship :=
  let members : gset MemoryId :=
    list_to_set (m_id <$> List.filter live_memory (hash_values (ws_memories ws))) in
  let rows := List.filter (strengthens members done_) (hash_values (ws_relationships ws)) in
  let j := foldl (λ j r, record_relationship r j) j rows in
  let updates := merge_sort (le_of (compare_on r_id compare_rid)) (strengthen_edge now <$> rows) in
  (prepare_relationship_writes updates (ws_relationships ws) j, updates).

(** ** Similarity edges *)

(* SRC crates/exocortex-dreams/src/lib.rs 29-30 SIMILAR_TO_THRESHOLD *)
Definition SIMILAR_TO_THRESHOLD : f32 := f32_hundredths 85.

(** A computed edge, as the cycle writes them. *)
Definition computed_edge (now : DateTime) (producer : ComputedProducer) (threshold level : f32) (evidence : Z)
    (kind : RelKindId) (from to : MemoryId) (vis : Visibility) : Relationship :=
  {| r_id := RelationshipId_derive from kind to None; r_kind := kind; r_from := from; r_to := to;
     r_visibility := vis; r_provenance := Computed producer threshold;
     r_properties := {| strength := f32_clamp level f32_zero f32_one; rp_confidence := f32_clamp level f32_zero f32_one;
                        rp_context := None; evidence_count := evidence; success_rate := None; validation_count := 0;
                        counter_evidence_count := 0; last_validated := now |};
     r_description := None; r_bidirectional := true; r_valid_from := now; r_valid_until := None;
     r_recorded_at := now; r_invalidated_by := None; r_lsn := new_local 0 |}.

Definition similar_edge (now : DateTime) (kind : RelKindId) (p : MemoryWithEmbedding * MemoryWithEmbedding)
    : option Relationship :=
  let '(a, b) := p in
  if negb (an_class a =? an_class b) || bool_decide (an_id a = an_id b) then None
  else
    let sim := cosine (an_vector a) (an_vector b) in
    if SFltb sim SIMILAR_TO_THRESHOLD then None
    else Some (computed_edge now SimilarityHnsw SIMILAR_TO_THRESHOLD sim 1 kind (an_id a) (an_id b)
                 (relationship_visibility (an_visibility a) (an_visibility b))).

(** Edges that are there and live are left alone. *)
Definition fresh_edge (current : gmap RelationshipId Relationship) (acc : list Relationship * CycleJournal) r
    : list Relationship * CycleJournal :=
  let '(fresh, j) := acc in
  match current !! r_id r with
  | Some row => if live_edge row then acc else (fresh ++ [r], record_relationship row j)
  | None => (fresh ++ [r], create_relationship r j)
  end.

(* SRC crates/exocortex-dreams/src/lib.rs 1414-1502 write_similar_edges *)
Definition plan_similar_edges (now : DateTime) (survivors : list MemoryWithEmbedding) ws j
    : CycleJournal * list Relationship :=
  from_option (λ kind,
    let '(fresh, j) := foldl (fresh_edge (ws_relationships ws)) ([], j)
      (omap (similar_edge now kind) (ordered_pairs survivors)) in
    (match fresh with [] => j | _ => prepare_relationship_writes fresh (ws_relationships ws) j end, fresh))
    (j, []) similar_to_kind.

(** ** Abstractions *)

(* SRC crates/exocortex-dreams/src/lib.rs 31-33 MIN_ABSTRACT_MEMBERS *)
Definition MIN_ABSTRACT_MEMBERS : nat := 3.

(** The access scope of an anchor: its label and the subject the label restricts it to. *)
Definition subject_of m (v : Visibility) : option string :=
  match v with
  | Project => project_id (context m)
  | Team => team_id (context m)
  | Private => user_id (context m)
  | Org | Public => None
  end.
Definition scope_of ws (a : MemoryWithEmbedding) : Z * option string :=
  (vis_u8 (an_visibility a), row ← ws_memories ws !! an_id a; subject_of row (an_visibility a)).

Definition compare_scope : ScopeKey → ScopeKey → comparison :=
  compare_lex Z.compare (compare_lex Z.compare (compare_option (compare_on as_bytes compare_bytes))).

(** The anchors by class and scope, in the order of the keys. *)
Definition scope_groups ws (anchors : list MemoryWithEmbedding) : gmap ScopeKey (list MemoryWithEmbedding) :=
  foldl (λ g a, let k := (an_class a, scope_of ws a) in <[k := default [] (g !! k) ++ [a]]> g) ∅ anchors.
Definition groups ws (anchors : list MemoryWithEmbedding) : list (list MemoryWithEmbedding) :=
  btree_values compare_scope (scope_groups ws anchors).

Definition sorted_ids (members : list MemoryWithEmbedding) : list MemoryId :=
  merge_sort (le_of compare_mid) (an_id <$> members).

(** The mean cosine of the pairs. *)
Definition cohesion (members : list MemoryWithEmbedding) : f32 :=
  let pairs := ordered_pairs members in
  let sum := foldl (λ s p, f32_add s (cosine (an_vector p.1) (an_vector p.2))) f32_zero pairs in
  match pairs with [] => f32_one | _ => f32_div sum (f32_of_Z (Z.of_nat (length pairs))) end.

(** [for (slot, value) in centroid.iter_mut().zip(vector) { *slot += value; }]. *)
Fixpoint add_into (centroid vector : list f32) : list f32 :=
  match centroid, vector with
  | x :: centroid, y :: vector => f32_add x y :: add_into centroid vector
  | _, _ => centroid
  end.

Definition centroid (members : list MemoryWithEmbedding) : list f32 :=
  let dim := match members with a :: _ => length (an_vector a) | [] => O end in
  let c := foldl (λ c a, add_into c (an_vector a)) (replicate dim f32_zero) members in
  let norm := f32_sqrt (foldl (λ s x, f32_add s (f32_mul x x)) f32_zero c) in
  if f32_gt norm f32_zero then (λ x, f32_div x norm) <$> c else c.

Definition newline : string := String (Ascii.ascii_of_nat 10) EmptyString.

(** The titles of the members, at most eight of them. *)
Definition abstraction_content (titles : list string) : string :=
  String.concat newline (take 8 titles) +:+
  (if (8 <? length titles)%nat
   then newline +:+ "…and " +:+ pretty (length titles - 8)%nat +:+ " more" else "").

Definition half : f32 := f32_hundredths 50.
(** [F01::new(x.clamp(0.0, 1.0)).unwrap_or(0.5)]. *)
Definition score_or_half (x : f32) : F01 :=
  match F01_new (f32_clamp x f32_zero f32_one) with Ok c => c | Err _ => mkF01 half end.

Definition with_timestamp (now : DateTime) (c : MemoryContext) : MemoryContext :=
  let '(mkMemoryContext _ a b d e f g h i k l n o p q r s) := c in
  mkMemoryContext now a b d e f g h i k l n o p q r s.

(** The row over a group; [None] when its first member is not in the working set. *)
Definition abstraction_row (now : DateTime) (carrier : Z) ws (first : MemoryWithEmbedding)
    (members : list MemoryWithEmbedding) : option Memory :=
  let ids := sorted_ids members in
  let titles := title <$> omap (λ id, ws_memories ws !! id) ids in
  row ← (id ← ids !! 0%nat; ws_memories ws !! id);
  Some {|
    m_id := derive_abstraction_id ids;
    memory_type := carrier;
    title := "Abstraction of " +:+ pretty (length members) +:+ " "
               +:+ from_option id ("class-" +:+ pretty (an_class first)) (type_name (an_class first));
    content := abstraction_content titles;
    summary := None;
    tags := [];
    m_visibility := foldl (λ v a, vis_min v (an_visibility a)) (an_visibility first) members;
    m_provenance := Computed Kernel.Abstraction (cohesion members);
    context := with_timestamp now (context row);
    importance := mkF01 half;
    confidence := score_or_half (cohesion members);
    effectiveness := None;
    usage_count := 0;
    m_valid_from := now;
    m_valid_until := None;
    m_recorded_at := now;
    m_invalidated_by := None;
    embedding := Some (mkEmbedding (emb_model (an_embedding first)) (centroid members));
    m_lsn := new_local 0;
    rights := None;
  |}.

(** The membership edges that are not there. *)
Definition abstraction_edges (now : DateTime) (summarizes : RelKindId) ws (row : Memory)
    (members : list MemoryWithEmbedding) : list Relationship :=
  List.filter (λ r, bool_decide (ws_relationships ws !! r_id r = None))
    ((λ a, computed_edge now Kernel.Abstraction (cohesion members) (cohesion members)
             (Z.of_nat (length members)) summarizes (m_id row) (an_id a)
             (relationship_visibility (m_visibility row) (an_visibility a))) <$> members).

(** ** Pruning *)

(* SRC crates/exocortex-dreams/src/lib.rs 109-120 PruneReason *)
Inductive PruneReason := Redundant | Superseded | Stale | LowValue.

(* SRC crates/exocortex-dreams/src/lib.rs 1768-1777 prune *)
Definition prune ws : list (MemoryId * PruneReason) :=
  merge_sort (le_of (compare_on fst compare_mid))
    ((λ m, (m_id m, Redundant)) <$> List.filter (λ m, negb (live_memory m)) (hash_values (ws_memories ws))).
End consolidation.
