(* ===== verification/ConsolidationSpec.v ===== *)
(** * What the consolidation actions promise

    Scoring never panics and says exactly why it refuses a set; an abstraction is seen by nobody who does
    not see every row it stands on; a merge leaves no live edge on the row it absorbs.  Merge candidates,
    unlike abstractions, are blind to scopes, and strengthening compounds. *)

From stdpp Require Import pretty strings.
From S2P Require Import Prelude Ids Kernel Packs Ontology StorageTypes Graph Reads Leases.
From S2P Require Import Cycles Entities IngestCommit ShippedPacks EntityResolution Mcr2 Consolidation.

(** ** Scoring *)

#[local] Instance EmbeddingModel_eq_dec : EqDecision EmbeddingModel.
Proof. solve_decision. Defined.

Section scoring.
Context `{Ln, HashOrder}.
Implicit Types (ms : list MemoryWithEmbedding).

Lemma gram_total d a rows : Forall (λ r, (d ≤ length r)%nat) rows → is_Some (gram d a rows).
Proof.
  intros Hf. revert a. induction Hf as [|r rows Hr Hf IH]; intros a; [by eexists|]. simpl. unfold gram_row.
  rewrite (proj2 (Nat.ltb_ge _ _)) by done. simpl. apply IH.
Qed.

Lemma log_det_total rows epsilon d : Forall (λ r, length r = d) rows → is_Some (log_det_cov rows epsilon).
Proof.
  intros Hf. unfold log_det_cov. destruct rows as [|r rows]; [by eexists|].
  assert (length r = d) as Hr by by apply Forall_cons in Hf as [? _].
  destruct (Nat.eqb (length r) 0); [by eexists|]. destruct (gram_total (length r) (zeros (length r)) (r :: rows)) as [a ->].
  { eapply Forall_impl; [exact Hf|]. simpl. lia. }
  cbn [mbind option_bind]. destruct (first_factor _ _ _); by eexists.
Qed.

(** The classes hold the vectors of their members. *)
Lemma by_class_from ms (g : gmap Z (list (list f32))) cls :
  foldl (λ m a, <[an_class a := default [] (m !! an_class a) ++ [an_vector a]]> m) g ms !! cls =
  match an_vector <$> List.filter (λ a, an_class a =? cls) ms with
  | [] => g !! cls
  | l => Some (default [] (g !! cls) ++ l)
  end.
Proof.
  revert g. induction ms as [|a ms IH]; intros g; [done|]. cbn [foldl List.filter]. rewrite IH.
  destruct (Z.eqb_spec (an_class a) cls) as [<-|Hne].
  - rewrite lookup_insert_eq. csimpl. destruct (an_vector <$> List.filter _ ms); [done|]. simpl.
    by rewrite <-(assoc_L (++)).
  - by rewrite lookup_insert_ne.
Qed.

Lemma by_class_lookup ms cls :
  by_class ms !! cls = match an_vector <$> List.filter (λ a, an_class a =? cls) ms with [] => None | l => Some l end.
Proof. unfold by_class. rewrite by_class_from, lookup_empty. by destruct (an_vector <$> _). Qed.

Lemma class_rates_total epsilon n d cs acc :
  Forall (λ c : Z * list (list f32), Forall (λ r, length r = d) c.2) cs →
  ∃ rates compact, foldl (class_rate epsilon n) (Some acc) cs = Some (rates, compact) ∧ dom rates = dom acc.1 ∪ list_to_set cs.*1.
Proof.
  intros Hf. revert acc. induction Hf as [|[cls rows] cs Hr Hf IH]; intros [rates compact].
  { exists rates, compact. simpl. split; [done|]. set_solver. }
  cbn [foldl]. unfold class_rate at 2. simpl. destruct (log_det_total rows epsilon d Hr) as [rate ->]. simpl.
  edestruct IH as (rates' & compact' & -> & Hd). exists rates', compact'. split; [done|]. rewrite Hd. simpl.
  rewrite dom_insert_L. set_solver.
Qed.

Definition same_model (a b : MemoryWithEmbedding) : Prop := emb_model (an_embedding a) = emb_model (an_embedding b).
Definition same_dim (a b : MemoryWithEmbedding) : Prop := length (an_vector a) = length (an_vector b).

(** Scoring never panics; it refuses fewer than two rows, else rows of different models, else vectors of
    different lengths, and only these; a score counts the rows and has a rate for every class of them. *)
Theorem compute_exact epsilon now ms :
  ∃ r, compute epsilon now ms = Some r ∧
  match r with
  | Err (TooFew n) => n = 2 ∧ (length ms < 2)%nat
  | Err CrossModelComparison => (2 ≤ length ms)%nat ∧ ∃ a b, a ∈ ms ∧ b ∈ ms ∧ ¬ same_model a b
  | Err DimensionMismatch => (2 ≤ length ms)%nat ∧ (∀ a b, a ∈ ms → b ∈ ms → same_model a b) ∧
                             ∃ a b, a ∈ ms ∧ b ∈ ms ∧ ¬ same_dim a b
  | Ok v => (2 ≤ length ms)%nat ∧ (∀ a b, a ∈ ms → b ∈ ms → same_model a b ∧ same_dim a b) ∧
            n_memories v = Z.of_nat (length ms) ∧ dom (class_rates v) = list_to_set (an_class <$> ms)
  end.
Proof.
  unfold compute. destruct ms as [|x [|y ms']]; [eexists; split; [done|simpl; split; lia]..|].
  set (ms := x :: y :: ms'). assert (2 ≤ length ms)%nat as Hlen by (simpl; lia). assert (Hx : x ∈ ms) by by left.
  assert (Hm : ∀ a, negb (String.eqb (em_name (emb_model (an_embedding a))) (em_name (emb_model (an_embedding x)))
      && String.eqb (em_version (emb_model (an_embedding a))) (em_version (emb_model (an_embedding x)))) = true ↔ ¬ same_model a x).
  { intros a. unfold same_model. rewrite negb_true_iff, andb_false_iff, !String.eqb_neq.
    destruct (emb_model (an_embedding a)) as [n1 v1], (emb_model (an_embedding x)) as [n2 v2]. simpl.
    split; [intros [?|?]; congruence|]. intros Hne. destruct (decide (n1 = n2)); [right; congruence|by left]. }
  destruct (existsb _ ms) eqn:Hmodel.
  { eexists. split; [done|]. split; [done|]. apply List.existsb_exists in Hmodel as (a & Ha%list_elem_of_In & Hb%Hm).
    by exists a, x. }
  assert (Hsame : ∀ a, a ∈ ms → same_model a x).
  { intros a Ha. destruct (decide (emb_model (an_embedding a) = emb_model (an_embedding x))) as [?|Hne]; [done|].
    exfalso. apply not_true_iff_false in Hmodel. apply Hmodel, List.existsb_exists. exists a.
    split; [by apply list_elem_of_In|by apply Hm]. }
  assert (Hpair : ∀ a b, a ∈ ms → b ∈ ms → same_model a b).
  { intros a b Ha Hb. unfold same_model in *. etrans; [by apply Hsame|symmetry; by apply Hsame]. }
  destruct (existsb (λ m, negb (length (an_vector m) =? length (an_vector x))%nat) ms) eqn:Hdim.
  { eexists. split; [done|]. split; [done|]. split; [by intros; apply Hpair|].
    apply List.existsb_exists in Hdim as (a & Ha%list_elem_of_In & Hb%negb_true_iff%Nat.eqb_neq). by exists a, x. }
  assert (Hd : ∀ a, a ∈ ms → length (an_vector a) = length (an_vector x)).
  { intros a Ha. destruct (decide (length (an_vector a) = length (an_vector x))) as [?|Hne]; [done|].
    exfalso. apply not_true_iff_false in Hdim. apply Hdim, List.existsb_exists. exists a.
    split; [by apply list_elem_of_In|by apply negb_true_iff, Nat.eqb_neq]. }
  destruct (log_det_total (an_vector <$> ms) epsilon (length (an_vector x))) as [total ->].
  { apply Forall_forall. intros r (a & -> & Ha)%list_elem_of_fmap. by apply Hd. }
  cbn [mbind option_bind]. cbv zeta.
  destruct (class_rates_total epsilon (f32_of_Z (Z.of_nat (length ms))) (length (an_vector x)) (hash_iter (by_class ms)) (∅, f32_zero))
    as (rates & compact & -> & Hdom).
  { apply Forall_forall. intros [cls l] Hin%elem_of_hash_iter. rewrite by_class_lookup in Hin. simpl. apply Forall_forall.
    intros r Hr. assert (r ∈ an_vector <$> List.filter (λ a, an_class a =? cls) ms) as Hr'.
    { destruct (an_vector <$> List.filter (λ a, an_class a =? cls) ms); [done|]. by injection Hin as ->. }
    apply list_elem_of_fmap in Hr' as (a & -> & [Ha _]%elem_of_filter). by apply Hd. }
  eexists. split; [done|]. split; [done|]. split.
  { intros a b Ha Hb. split; [by apply Hpair|]. unfold same_dim. etrans; [by apply Hd|symmetry; by apply Hd]. }
  split; [done|]. clearbody ms. cbn [class_rates]. rewrite Hdom. cbn [fst]. rewrite dom_empty_L, (left_id_L ∅ (∪)). apply set_eq. intros cls.
  rewrite !elem_of_list_to_set, list_elem_of_fmap, (list_elem_of_fmap an_class). split.
  - intros ([c l] & -> & Hin%elem_of_hash_iter). rewrite by_class_lookup in Hin. simpl.
    destruct (List.filter (λ a, an_class a =? c) ms) as [|a l'] eqn:E; [done|].
    assert (a ∈ List.filter (λ a, an_class a =? c) ms) as [Ha Hc%Z.eqb_eq]%elem_of_filter by (rewrite E; by left). by exists a.
  - intros (a & -> & Ha). destruct (by_class ms !! an_class a) as [l|] eqn:E.
    + exists (an_class a, l). split; [done|]. by apply elem_of_hash_iter.
    + rewrite by_class_lookup in E. assert (an_vector a ∈ an_vector <$> List.filter (λ b, an_class b =? an_class a) ms) as Hin.
      { apply list_elem_of_fmap_2, elem_of_filter. by rewrite Z.eqb_refl. }
      destruct (an_vector <$> _); [by apply not_elem_of_nil in Hin|done].
Qed.
End scoring.

(** ** Abstractions *)

Section abstractions.
Context `{Blake3, Sha256, Bincode, HashOrder}.
Implicit Types (ws : RegionWorkingSet) (a : MemoryWithEmbedding).

(** The working set is keyed by id. *)
Definition keyed ws : Prop :=
  (∀ id m, ws_memories ws !! id = Some m → m_id m = id) ∧
  (∀ id r, ws_relationships ws !! id = Some r → r_id r = id).

Lemma anchor_row now ws a :
  keyed ws → a ∈ select_anchors now ws →
  ∃ m, ws_memories ws !! an_id a = Some m ∧ m_visibility m = an_visibility a ∧ memory_type m = an_class a.
Proof.
  intros [Hk _]. unfold select_anchors. rewrite list_elem_of_fmap. intros ([t x] & -> & Hin). simpl.
  apply elem_of_take in Hin as (i & Hin & _). apply list_elem_of_lookup_2 in Hin.
  rewrite merge_sort_Permutation, list_elem_of_omap in Hin. destruct Hin as (m & Hm & Ha).
  apply elem_of_hash_values in Hm as [id Hm]. pose proof (Hk _ _ Hm) as Hid. unfold anchor_of in Ha.
  destruct (_ || _); [done|]. destruct (embedding m); [|done]. simpl in Ha. injection Ha as <- <-. simpl.
  exists m. by rewrite Hid.
Qed.

Lemma scope_groups_from ws (anchors : list MemoryWithEmbedding) (g : gmap ScopeKey (list MemoryWithEmbedding))
    (key : ScopeKey) (members : list MemoryWithEmbedding) :
  (∀ key l a, g !! key = Some l → a ∈ l → key = (an_class a, scope_of ws a)) →
  foldl (λ g a, let k := (an_class a, scope_of ws a) in <[k := default [] (g !! k) ++ [a]]> g) g anchors !! key = Some members →
  ∀ a, a ∈ members → key = (an_class a, scope_of ws a) ∧ (a ∈ anchors ∨ ∃ l, g !! key = Some l ∧ a ∈ l).
Proof.
  revert g. induction anchors as [|b anchors IH]; intros g Hg; simpl.
  { intros Hk a Ha. split; [by eapply Hg|right; eauto]. }
  intros Hk a Ha. destruct (IH (<[(an_class b, scope_of ws b) := default [] (g !! (an_class b, scope_of ws b)) ++ [b]]> g))
    with (a := a) as [-> Hin]; [|done|done|].
  - intros key' l a'. rewrite lookup_insert_Some. intros [[<- <-]|[_ Hl]]; [|by apply Hg].
    rewrite elem_of_app. intros [Ha'| ->%list_elem_of_singleton]; [|done].
    destruct (g !! (an_class b, scope_of ws b)) as [l|] eqn:E; [by eapply Hg|by apply not_elem_of_nil in Ha'].
  - split; [done|]. destruct Hin as [?|(l & Hl & Ha')]; [left; by right|].
    rewrite lookup_insert_Some in Hl. destruct Hl as [[Heq <-]|[_ Hl]]; [|right; eauto].
    rewrite elem_of_app in Ha'. destruct Ha' as [Ha'| ->%list_elem_of_singleton]; [|left; by left].
    right. rewrite <-Heq. destruct (g !! (an_class b, scope_of ws b)) as [l|] eqn:E; [by exists l|by apply not_elem_of_nil in Ha'].
Qed.

(** The members of a group are anchors of one class and one scope. *)
Lemma group_scope ws anchors members a b :
  members ∈ groups ws anchors → a ∈ members → b ∈ members →
  a ∈ anchors ∧ an_class a = an_class b ∧ scope_of ws a = scope_of ws b.
Proof.
  unfold groups, btree_values. rewrite list_elem_of_fmap. intros ([key l] & -> & Hin). simpl.
  rewrite btree_iter_perm, elem_of_map_to_list in Hin. unfold scope_groups in Hin. intros Ha Hb.
  pose proof (scope_groups_from ws anchors ∅ key l) as Hs.
  assert (∀ key l a, (∅ : gmap ScopeKey (list MemoryWithEmbedding)) !! key = Some l → a ∈ l → key = (an_class a, scope_of ws a))
    as Hnone by (intros key' l' a'; by rewrite lookup_empty).
  destruct (Hs Hnone Hin a Ha) as [-> [Hin'|(l' & Hl' & _)]]; [|by rewrite lookup_empty in Hl'].
  destruct (Hs Hnone Hin b Hb) as [Heq _]. split; [done|]. by apply pair_eq in Heq.
Qed.

Lemma min_visibility v l : (∀ a, a ∈ l → an_visibility a = v) → foldl (λ v a, vis_min v (an_visibility a)) v l = v.
Proof.
  intros Hl. induction l as [|a l IH]; [done|]. simpl. rewrite (Hl a) by by left.
  assert (vis_min v v = v) as -> by (unfold vis_min; by destruct (_ <? _)). apply IH. intros. apply Hl. by right.
Qed.

Lemma with_timestamp_fields t ctx :
  tenant_id (with_timestamp t ctx) = tenant_id ctx ∧ user_id (with_timestamp t ctx) = user_id ctx ∧
  project_id (with_timestamp t ctx) = project_id ctx ∧ team_id (with_timestamp t ctx) = team_id ctx.
Proof. by destruct ctx. Qed.

(** Two rows of one organization under one label and one subject are visible to the same callers. *)
Lemma same_scope_visible m m' vc :
  tenant_id (context m) = tenant_id (context m') → m_visibility m = m_visibility m' →
  subject_of m (m_visibility m) = subject_of m' (m_visibility m) →
  memory_visible m vc = memory_visible m' vc.
Proof.
  unfold memory_visible. intros -> <- Hs. destruct (negb _); [done|]. destruct (_ <? _); [done|].
  destruct (m_visibility m); simpl in *; try done; by rewrite Hs.
Qed.


(** ** Merges *)

(** Merge candidates do not depend on the labels, let alone the subjects, of the rows they pair. *)
Definition relabel (f : MemoryWithEmbedding → Visibility) a : MemoryWithEmbedding :=
  mkAnchor (an_id a) (an_class a) (f a) (an_embedding a).

Lemma ordered_pairs_fmap {A B} (f : A → B) l : ordered_pairs (f <$> l) = (λ p, (f p.1, f p.2)) <$> ordered_pairs l.
Proof.
  induction l as [|x l IH]; [done|]. csimpl. rewrite IH, fmap_app. f_equal. by rewrite <-!list_fmap_compose.
Qed.

Lemma candidates_blind f anchors :
  identify_merge_candidates (relabel f <$> anchors) = identify_merge_candidates anchors.
Proof.
  unfold identify_merge_candidates. f_equal. rewrite ordered_pairs_fmap.
  induction (ordered_pairs anchors) as [|[a b] l IH]; [done|]. csimpl. by rewrite IH.
Qed.

End abstractions.

Section merges.
Context `{Blake3, Sha256, Bincode, HashOrder}.
Implicit Types (ws : RegionWorkingSet).

(** What a merge writes for a live edge of the absorbed row. *)
Definition merge_write ws (a b : MemoryId) (now : DateTime) (r : Relationship) : Prop :=
  ∃ r0, ws_relationships ws !! r_id r0 = Some r0 ∧ touches b r0 = true ∧
    (r = r_with_until (Some now) r0 ∨
     (r = rewired a b now r0 ∧ r_from r ≠ r_to r ∧
      ∀ x, ws_relationships ws !! r_id r = Some x → live_edge x = false)).

Lemma merge_write_detached ws a b now r : a ≠ b → merge_write ws a b now r → touches b r = false.
Proof.
  intros Hab (r0 & _ & _ & [-> |(-> & _)]); [by destruct r0|]. unfold touches, rewired. simpl.
  rewrite !bool_decide_eq_false_2; [done|case_bool_decide; congruence..].
Qed.

Lemma merge_edge_updates ws a b now s r :
  ws_relationships ws !! r_id r = Some r → touches b r = true →
  map_Forall (λ id x, r_id x = id ∧ merge_write ws a b now x) (mg_updates s) →
  map_Forall (λ id x, r_id x = id ∧ merge_write ws a b now x) (mg_updates (merge_edge ws a b now s r)) ∧
  dom (mg_updates s) ∪ {[r_id r]} ⊆ dom (mg_updates (merge_edge ws a b now s r)).
Proof.
  intros Hr Ht Hs. assert (Hclosed : merge_write ws a b now (r_with_until (Some now) r)) by (exists r; auto).
  assert (Hold : map_Forall (λ id x, r_id x = id ∧ merge_write ws a b now x) (<[r_id r := r_with_until (Some now) r]> (mg_updates s)))
    by (apply map_Forall_insert_2; [split; [by destruct r|done]|done]).
  unfold merge_edge. case_bool_decide as Hloop; simpl; [by rewrite dom_insert_L; split; [|set_solver]|].
  assert (Hnew : (∀ x, ws_relationships ws !! r_id (rewired a b now r) = Some x → live_edge x = false) →
               merge_write ws a b now (rewired a b now r)).
  { intros Hx. exists r. split_and!; [done..|]. right. done. }
  change (RelationshipId_derive (if bool_decide (r_from r = b) then a else r_from r) (r_kind r)
            (if bool_decide (r_to r = b) then a else r_to r) None) with (r_id (rewired a b now r)).
  destruct (ws_relationships ws !! r_id (rewired a b now r)) as [x|] eqn:Hx; [destruct (live_edge x) eqn:Hl|]; simpl;
    rewrite ?dom_insert_L; (split; [|set_solver]); try done; apply map_Forall_insert_2; try done;
    (split; [done|]); apply Hnew; naive_solver.
Qed.

Lemma merge_edges_updates ws a b now l s :
  Forall (λ r, ws_relationships ws !! r_id r = Some r ∧ touches b r = true) l →
  map_Forall (λ id x, r_id x = id ∧ merge_write ws a b now x) (mg_updates s) →
  map_Forall (λ id x, r_id x = id ∧ merge_write ws a b now x) (mg_updates (foldl (merge_edge ws a b now) s l)) ∧
  dom (mg_updates s) ∪ list_to_set (r_id <$> l) ⊆ dom (mg_updates (foldl (merge_edge ws a b now) s l)).
Proof.
  intros Hl. revert s. induction Hl as [|r l [Hr Ht] Hl IH]; intros s Hs; [split; [done|set_solver]|]. cbn [foldl].
  destruct (merge_edge_updates ws a b now s r Hr Ht Hs) as [Hs' Hd]. destruct (IH _ Hs') as [? ?]. split; [done|].
  csimpl. set_solver.
Qed.

Lemma inverse_touches b r inv : inverse_of r = Some inv → touches b inv = touches b r.
Proof.
  unfold inverse_of. destruct dreams_ontology as [o|]; [|done]. cbn [mbind option_bind]. unfold materialize_inverse.
  destruct (kinds_by_id o !! r_kind r) as [meta|]; [|done]. cbn [mbind option_bind].
  destruct (inverse meta) as [i|]; [|done]. cbn [mbind option_bind]. destruct (_ || _); [done|]. intros [= <-].
  unfold touches, live_edge. simpl. by rewrite (orb_comm (bool_decide (r_to r = b))).
Qed.

(** Writes that touch no [b] leave no live edge of [b] but the old ones they do not replace. *)
Lemma apply_writes_detached b writes (rels : gmap RelationshipId Relationship) id r :
  Forall (λ w, touches b w = false) writes → foldl apply_write rels writes !! id = Some r →
  touches b r = false ∨ (rels !! id = Some r ∧ id ∉ r_id <$> writes).
Proof.
  intros Hw. revert rels. induction Hw as [|w writes Hw Hws IH]; intros rels; simpl; [intros; right; split; [done|apply not_elem_of_nil]|].
  intros [?|[Hr Hn]]%IH; [by left|]. unfold apply_write in Hr.
  assert (<[r_id w := w]> rels !! id = Some r ∨ touches b r = false) as [Hr'|?]; [|..|by left].
  { destruct (inverse_of w) as [inv|] eqn:Hi; cbn [from_option] in Hr; [|left; exact Hr].
    apply lookup_insert_Some in Hr as [[_ <-]|[_ ?]]; [right|by left]. pose proof (inverse_touches b w inv Hi) as E. congruence. }
  apply lookup_insert_Some in Hr' as [[_ <-]|[Hne Hr']]; [by left|]. right. split; [exact Hr'|].
  apply not_elem_of_cons. split; [exact (not_eq_sym Hne)|exact Hn].
Qed.

(** C18: a merge closes the absorbed row in favour of the survivor and detaches it: no live edge of the region
    touches it any more, whatever ids collide.  Every edge it writes is a live edge of the absorbed row,
    closed, or such an edge with the survivor in its place, under an id no live edge has. *)
Theorem merge_detaches now c ws j j' m updates ids :
  keyed ws → mc_a c ≠ mc_b c → plan_merge now c ws j = Some (j', m, updates, ids) →
  let ws' := apply_relationship_writes updates (insert_memory m ws) in
  (∃ m0, ws_memories ws !! mc_b c = Some m0 ∧ m_valid_until m0 = None ∧ m = absorbed now (mc_a c) m0 ∧
         ws_memories ws' = <[mc_b c := m]> (ws_memories ws)) ∧
  (∀ id r, ws_relationships ws' !! id = Some r → touches (mc_b c) r = false) ∧
  ∀ r, r ∈ updates → merge_write ws (mc_a c) (mc_b c) now r.
Proof.
  intros [Hkm Hkr] Hab. unfold plan_merge. destruct (ws_memories ws !! mc_a c) as [survivor|]; [|done].
  destruct (ws_memories ws !! mc_b c) as [m0|] eqn:Hm0; [|done].
  destruct (live_memory survivor && live_memory m0) eqn:Hlive; [|done].
  set (l := List.filter (touches (mc_b c)) (hash_values (ws_relationships ws))).
  set (s := foldl (merge_edge ws (mc_a c) (mc_b c) now) (mkMergeState (record_memory m0 j) ∅ []) l).
  assert (Hl : Forall (λ r, ws_relationships ws !! r_id r = Some r ∧ touches (mc_b c) r = true) l).
  { apply Forall_forall. intros r [Hr Ht]%elem_of_filter. split; [|done]. apply elem_of_hash_values in Hr as [id Hr].
    by rewrite (Hkr _ _ Hr). }
  destruct (merge_edges_updates ws (mc_a c) (mc_b c) now l (mkMergeState (record_memory m0 j) ∅ []) Hl) as [Hall Hdom];
    [apply map_Forall_empty|]. fold s in Hall, Hdom.
  intros Heq. apply (inj Some) in Heq. apply pair_eq in Heq as [Heq _]. apply pair_eq in Heq as [Heq Hup].
  apply pair_eq in Heq as [_ Hm]. subst m updates.
  assert (Hin : ∀ r, r ∈ btree_values compare_rid (mg_updates s) ↔ ∃ id, mg_updates s !! id = Some r).
  { intros r. unfold btree_values. rewrite list_elem_of_fmap. split.
    - intros ([id x] & -> & Hx). rewrite btree_iter_perm, elem_of_map_to_list in Hx. by exists id.
    - intros [id Hr]. exists (id, r). by rewrite btree_iter_perm, elem_of_map_to_list. }
  assert (Hwrites : ∀ r, r ∈ btree_values compare_rid (mg_updates s) → merge_write ws (mc_a c) (mc_b c) now r)
    by (intros r [id Hr]%Hin; by apply (Hall _ _ Hr)).
  apply andb_true_iff in Hlive as [_ Hlive%bool_decide_eq_true]. split_and!; [|..|done].
  - exists m0. split_and!; [done..|]. simpl. f_equal. apply Hkm in Hm0. by destruct m0.
  - intros id r Hr. destruct (touches (mc_b c) r) eqn:Ht; [|done]. exfalso.
    apply (apply_writes_detached (mc_b c)) in Hr as [Hr|[Hr Hn]].
    + congruence.
    + simpl in Hr. pose proof (Hkr _ _ Hr) as Hid. apply Hn, list_elem_of_fmap.
      assert (id ∈ dom (mg_updates s)) as [x Hx]%elem_of_dom.
      { apply Hdom, elem_of_union. right. apply elem_of_list_to_set, list_elem_of_fmap. exists r. split; [done|].
        apply elem_of_filter. split; [|done]. apply elem_of_hash_values. by exists id. }
      exists x. split; [by destruct (Hall _ _ Hx)|]. apply Hin. by exists id.
    + apply Forall_forall. intros x Hx%Hwrites. by eapply merge_write_detached.
Qed.
End merges.

(** Strengthening feeds its own result back: a second pass over an edge nobody touched raises it again. *)
Lemma strength_compounds :
  let pass s := effective_strength s 2 f32_one f32_zero in
  SFltb half (pass half) = true ∧ SFltb (pass half) (pass (pass half)) = true.
Proof. vm_compute. split; reflexivity. Qed.
