(* ===== verification/Discovery.v ===== *)
(** * The finders of a Dreams cycle

    The discovery half of [crates/exocortex-dreams/src/lib.rs]: the two-hop finder, the cross-domain finder,
    and the proposals they give.  Proposals are data and never edges. *)

From stdpp Require Import pretty strings.
From S2P Require Import Prelude Ids Kernel StorageTypes Graph Reads Mcr2 Consolidation.

(** ** Proposals *)

(* SRC crates/exocortex-dreams/src/lib.rs 2323-2334 DiscoveryKind *)
Inductive DiscoveryKind := CrossDomain | TemporalEcho | Orphan | Transitive.
#[global] Instance DiscoveryKind_eq_dec : EqDecision DiscoveryKind.
Proof. solve_decision. Defined.

(* SRC crates/exocortex-dreams/src/lib.rs 2337-2347 default_quality *)
Definition default_quality (k : DiscoveryKind) : f32 :=
  f32_hundredths match k with CrossDomain => 90 | TemporalEcho => 70 | Orphan => 40 | Transitive => 60 end.

(* SRC crates/exocortex-dreams/src/lib.rs 2304-2321 Discovery *)
Record Discovery := mkProposed {
  di_id : string;
  di_kind : DiscoveryKind;
  di_endpoints : MemoryId * MemoryId;
  di_quality : f32;
  di_via_types : Z * Z;
  di_cycle_id : string;
  di_discovered_at : DateTime;
}.

(** The record a proposal is stored as. *)
Definition discovery_record (region : RegionKey) (d : Discovery) : DiscoveryRecord :=
  mkDiscovery (di_id d) region (di_endpoints d).1 (di_endpoints d).2
    (match di_kind d with CrossDomain => "cross_domain" | _ => "transitive" end)
    (di_quality d) (di_via_types d) (di_cycle_id d) (di_discovered_at d).

(** ** Two-hop paths *)

(* SRC crates/exocortex-dreams/src/lib.rs 34-35 MAX_DISCOVERIES_PER_CYCLE *)
Definition MAX_DISCOVERIES_PER_CYCLE : nat := 16.
(* SRC crates/exocortex-dreams/src/lib.rs 36-37 MAX_DISCOVERY_PATH_INSPECTIONS *)
Definition MAX_DISCOVERY_PATH_INSPECTIONS : Z := 50000.

(* SRC crates/exocortex-dreams/src/lib.rs 42-42 DiscoveryEdge *)
Abbreviation DiscoveryEdge := (MemoryId * MemoryId * Z * bool)%type.
Abbreviation Candidate := (MemoryId * MemoryId * Z * Z)%type.

Definition edge_from (e : DiscoveryEdge) : MemoryId := e.1.1.1.
Definition edge_to (e : DiscoveryEdge) : MemoryId := e.1.1.2.
Definition edge_kind (e : DiscoveryEdge) : Z := e.1.2.
Definition edge_derived (e : DiscoveryEdge) : bool := e.2.

(** [outgoing.entry(edge.0).or_default().push(edge)]. *)
Definition outgoing_edges (edges : list DiscoveryEdge) : gmap MemoryId (list DiscoveryEdge) :=
  foldl (λ m e, <[edge_from e := default [] (m !! edge_from e) ++ [e]]> m) ∅ edges.

Record Scan := mkScan { seen : gset Candidate; found : list Candidate; inspected : nat }.

(** The loop over the second edges; [true] is the break out of both loops. *)
Fixpoint scan_next (direct : gset (MemoryId * MemoryId)) (budget : nat) (a : MemoryId) (k1 : Z)
    (next : list DiscoveryEdge) (s : Scan) : Scan * bool :=
  match next with
  | [] => (s, false)
  | e :: next =>
      if (budget <=? inspected s)%nat then (s, true)
      else
        let s := mkScan (seen s) (found s) (S (inspected s)) in
        let c := edge_to e in
        let candidate := (a, c, k1, edge_kind e) in
        if negb (edge_derived e) && negb (bool_decide (c = a)) && negb (bool_decide ((a, c) ∈ direct))
           && negb (bool_decide (candidate ∈ seen s))
        then
          let s := mkScan ({[candidate]} ∪ seen s) (found s ++ [candidate]) (inspected s) in
          if (MAX_DISCOVERIES_PER_CYCLE <=? length (found s))%nat then (s, true)
          else scan_next direct budget a k1 next s
        else scan_next direct budget a k1 next s
  end.

(** The loop over the first edges. *)
Fixpoint scan_first (direct : gset (MemoryId * MemoryId)) (outgoing : gmap MemoryId (list DiscoveryEdge))
    (budget : nat) (edges : list DiscoveryEdge) (s : Scan) : Scan :=
  match edges with
  | [] => s
  | e :: edges =>
      if edge_derived e then scan_first direct outgoing budget edges s
      else match outgoing !! edge_to e with
           | None => scan_first direct outgoing budget edges s
           | Some next =>
               match scan_next direct budget (edge_from e) (edge_kind e) next s with
               | (s, true) => s
               | (s, false) => scan_first direct outgoing budget edges s
               end
           end
  end.

(* SRC crates/exocortex-dreams/src/lib.rs 2086-2122 transitive_candidates *)
Definition transitive_candidates (edges : list DiscoveryEdge) (inspection_budget : nat) : list Candidate * nat :=
  let direct : gset (MemoryId * MemoryId) := list_to_set ((λ e, (edge_from e, edge_to e)) <$> edges) in
  let s := scan_first direct (outgoing_edges edges) inspection_budget edges (mkScan ∅ [] 0) in
  (found s, inspected s).

(** The edge the finder sees of a relationship. *)
Definition discovery_edge (r : Relationship) : DiscoveryEdge :=
  (r_from r, r_to r, kind_val (r_kind r), match r_provenance r with Derived _ _ => true | _ => false end).

(** ** Patterns across projects *)

Definition CROSS_DOMAIN_ANCHOR_CAP : nat := 64.
Definition SHARED_ENTITY_FLOOR : nat := 2.

Definition shared_entities (a b : Memory) : nat :=
  length (List.filter (λ e, bool_decide (e ∈ entities (context b))) (entities (context a))).

Definition crosses (p : Memory * Memory) : bool :=
  let '(a, b) := p in
  (memory_type a =? memory_type b) && negb (bool_decide (m_id a = m_id b)) &&
  negb (bool_decide (project_id (context a) = project_id (context b))) &&
  (SHARED_ENTITY_FLOOR <=? shared_entities a b)%nat.

(** The pairs of the first 64 rows, by id, that are not computed. *)
(* SRC crates/exocortex-dreams/src/lib.rs 1894-1969 cross_domain_candidates *)
Definition cross_domain_pairs (memories : list Memory) : list (MemoryId * MemoryId) :=
  let memories := List.filter (λ m, negb (computed (m_provenance m))) (merge_sort (le_of compare_memory) memories) in
  (λ p : Memory * Memory, (m_id p.1, m_id p.2))
    <$> List.filter crosses (ordered_pairs (take CROSS_DOMAIN_ANCHOR_CAP memories)).
