(* ===== verification/DiscoverySpec.v ===== *)
(** * What the finders promise

    The two-hop finder is the list of paths, cut at the inspection budget, filtered, without repetitions
    and cut at the number of proposals of a cycle; it never looks at more paths than it is allowed. *)

From stdpp Require Import pretty strings.
From S2P Require Import Prelude Ids Kernel StorageTypes Graph Reads Mcr2 Consolidation Discovery.

Implicit Types (edges : list DiscoveryEdge) (direct : gset (MemoryId * MemoryId)) (s : Scan).

(** The two-hop paths whose first edge is not derived, in the order of their edges. *)
Definition two_hops edges : list (DiscoveryEdge * DiscoveryEdge) :=
  edges ≫= λ e1, if edge_derived e1 then []
                 else pair e1 <$> List.filter (λ e2, bool_decide (edge_from e2 = edge_to e1)) edges.

(** What a path proposes: its ends, unless its second edge is derived, it returns, or an edge joins them. *)
Definition proposes edges (p : DiscoveryEdge * DiscoveryEdge) : option Candidate :=
  let '(e1, e2) := p in
  if edge_derived e2 || bool_decide (edge_to e2 = edge_from e1)
     || bool_decide ((edge_from e1, edge_to e2) ∈ (λ e, (edge_from e, edge_to e)) <$> edges)
  then None else Some (edge_from e1, edge_to e2, edge_kind e1, edge_kind e2).

(** The elements of a list after those of [l], each at its first occurrence. *)
Definition add_new {A} `{EqDecision A} (l : list A) (x : A) : list A :=
  if bool_decide (x ∈ l) then l else l ++ [x].
Definition first_seen {A} `{EqDecision A} (l : list A) : list A := foldl add_new [] l.

(** The finder over a flat list of paths. *)
Fixpoint scan_paths direct (budget : nat) (paths : list (DiscoveryEdge * DiscoveryEdge)) s : Scan * bool :=
  match paths with
  | [] => (s, false)
  | (e1, e2) :: paths =>
      match scan_next direct budget (edge_from e1) (edge_kind e1) [e2] s with
      | (s, true) => (s, true)
      | (s, false) => scan_paths direct budget paths s
      end
  end.

Lemma scan_next_paths direct budget e1 next s :
  scan_next direct budget (edge_from e1) (edge_kind e1) next s = scan_paths direct budget (pair e1 <$> next) s.
Proof.
  revert s. induction next as [|e next IH]; intros s; [done|].
  cbn [fmap list_fmap scan_paths scan_next]. destruct (budget <=? inspected s)%nat; [done|].
  destruct (negb (edge_derived e) && _ && _ && _); [|apply IH].
  destruct (_ <=? _)%nat; [done|]. apply IH.
Qed.

Lemma scan_paths_app direct budget l k s :
  scan_paths direct budget (l ++ k) s =
  match scan_paths direct budget l s with (s, true) => (s, true) | (s, false) => scan_paths direct budget k s end.
Proof.
  revert s. induction l as [|[e1 e2] l IH]; intros s; [done|]. cbn [app scan_paths].
  destruct (scan_next _ _ _ _ [e2] s) as [s' []]; [done|apply IH].
Qed.

Lemma outgoing_lookup_from edges (m : gmap MemoryId (list DiscoveryEdge)) id :
  foldl (λ m e, <[edge_from e := default [] (m !! edge_from e) ++ [e]]> m) m edges !! id =
  match List.filter (λ e, bool_decide (edge_from e = id)) edges with
  | [] => m !! id
  | l => Some (default [] (m !! id) ++ l)
  end.
Proof.
  revert m. induction edges as [|e edges IH]; intros m; [done|]. cbn [foldl List.filter]. rewrite IH.
  case_bool_decide as E.
  - subst id. rewrite lookup_insert_eq. destruct (List.filter _ edges) as [|x l]; [done|]. simpl.
    by rewrite <-(assoc_L (++)).
  - by rewrite lookup_insert_ne.
Qed.

Lemma scan_first_paths direct edges budget l s :
  scan_first direct (outgoing_edges edges) budget l s =
  (scan_paths direct budget (l ≫= λ e1, if edge_derived e1 then []
     else pair e1 <$> List.filter (λ e2, bool_decide (edge_from e2 = edge_to e1)) edges) s).1.
Proof.
  revert s. induction l as [|e l IH]; intros s; [done|]. cbn [scan_first mbind list_bind]. rewrite scan_paths_app.
  destruct (edge_derived e); [apply IH|]. unfold outgoing_edges. rewrite outgoing_lookup_from, lookup_empty.
  destruct (List.filter _ edges) as [|x next] eqn:E; [apply IH|].
  change (default [] None ++ x :: next) with (x :: next). rewrite scan_next_paths.
  destruct (scan_paths _ _ _ s) as [s' []]; [done|apply IH].
Qed.

Lemma add_new_prefix {A} `{EqDecision A} (l k : list A) : l `prefix_of` foldl add_new l k.
Proof.
  revert l. induction k as [|x k IH]; intros l; [done|]. simpl. etrans; [|apply IH].
  unfold add_new. case_bool_decide; [done|]. by eexists.
Qed.

(** A path that proposes nothing new. *)
Ltac skip_path := cbn [negb andb orb option_list foldl]; eexists _, false; split_and!; done.

(** One path. *)
Lemma scan_one edges budget e1 e2 s :
  let direct := list_to_set ((λ e, (edge_from e, edge_to e)) <$> edges) in
  (inspected s < budget)%nat → (length (found s) < 16)%nat → seen s = list_to_set (found s) →
  ∃ s' stop, scan_next direct budget (edge_from e1) (edge_kind e1) [e2] s = (s', stop) ∧
    inspected s' = S (inspected s) ∧ seen s' = list_to_set (found s') ∧
    found s' = foldl add_new (found s) (option_list (proposes edges (e1, e2))) ∧
    (if stop then length (found s') = 16%nat else (length (found s') < 16)%nat).
Proof.
  intros direct Hb Hl Hs. cbn [scan_next]. rewrite (proj2 (Nat.leb_gt _ _)) by done. cbv zeta.
  cbn [seen found inspected]. unfold proposes. rewrite Hs.
  assert (E : bool_decide ((edge_from e1, edge_to e2) ∈ direct) =
              bool_decide ((edge_from e1, edge_to e2) ∈ (λ e, (edge_from e, edge_to e)) <$> edges)).
  { apply bool_decide_ext. unfold direct. by rewrite elem_of_list_to_set. }
  rewrite E. clear E. set (c := (edge_from e1, edge_to e2, edge_kind e1, edge_kind e2)).
  rewrite (bool_decide_ext (c ∈ (list_to_set (found s) : gset Candidate)) (c ∈ found s))
    by (by rewrite elem_of_list_to_set).
  destruct (edge_derived e2); [skip_path|]. destruct (bool_decide (edge_to e2 = edge_from e1)); [skip_path|].
  destruct (bool_decide (_ ∈ _ <$> edges)); [skip_path|]. cbn [negb andb orb].
  change (foldl add_new (found s) (option_list (Some c))) with (add_new (found s) c). unfold add_new.
  destruct (bool_decide (c ∈ found s)); [skip_path|]. cbn [negb]. rewrite length_app. cbn [length].
  assert (Hset : {[c]} ∪ list_to_set (found s) = (list_to_set (found s ++ [c]) : gset Candidate)) by set_solver.
  rewrite Hset. unfold MAX_DISCOVERIES_PER_CYCLE. destruct (Nat.leb_spec 16 (length (found s) + 1)).
  - eexists _, true. cbn [inspected seen found]. split_and!; [done..|simpl; rewrite length_app; simpl; lia].
  - eexists _, false. cbn [inspected seen found]. split_and!; [done..|simpl; rewrite length_app; simpl; lia].
Qed.

Lemma scan_paths_spec edges budget paths s :
  let direct := list_to_set ((λ e, (edge_from e, edge_to e)) <$> edges) in
  let s' := (scan_paths direct budget paths s).1 in
  (inspected s ≤ budget)%nat → (length (found s) < 16)%nat → seen s = list_to_set (found s) →
  found s' = take 16 (foldl add_new (found s) (omap (proposes edges) (take (budget - inspected s) paths))) ∧
  (inspected s' ≤ budget)%nat ∧ (inspected s' ≤ inspected s + length paths)%nat ∧
  ((length (found s') < 16)%nat → inspected s' = Nat.min budget (inspected s + length paths)).
Proof.
  intros direct. revert s. induction paths as [|[e1 e2] paths IH]; intros s s' Hb Hl Hs; subst s'.
  { rewrite take_nil. simpl. rewrite take_ge by lia. split_and!; [done|lia..]. }
  cbn [scan_paths length]. destruct (decide (inspected s = budget)) as [<-|Hn].
  { cbn [scan_next]. rewrite Nat.leb_refl, Nat.sub_diag. simpl. rewrite take_ge by lia. split_and!; [done|lia..]. }
  destruct (scan_one edges budget e1 e2 s) as (s1 & stop & E & Hi & Hs1 & Hf & Hstop); [lia|done..|].
  fold direct in E. rewrite E.
  replace (budget - inspected s)%nat with (S (budget - inspected s1)) by lia. cbn [take].
  assert (Hom : omap (proposes edges) ((e1, e2) :: take (budget - inspected s1) paths) =
                option_list (proposes edges (e1, e2)) ++ omap (proposes edges) (take (budget - inspected s1) paths)).
  { cbn [omap list_omap]. by destruct (proposes edges (e1, e2)). }
  rewrite Hom, foldl_app, <-Hf. destruct stop; cbn [fst].
  - destruct (add_new_prefix (found s1) (omap (proposes edges) (take (budget - inspected s1) paths))) as [k ->].
    rewrite take_app_length' by done. split_and!; [done|lia..].
  - destruct (IH s1) as (-> & Hb' & Hi' & Hx); [lia|done..|]. split_and!; [done|done|lia|].
    intros Hlt. rewrite Hx by done. lia.
Qed.

(** C20: the two-hop finder is its specification: the two-hop paths over edges that are not derived, in
    order, as many as the budget allows to inspect, keeping those that return to no start and join no pair
    an edge already joins, each candidate once, the first sixteen; it inspects no more paths than the
    budget allows, and all of them unless it stopped at the sixteenth candidate. *)
Theorem transitive_candidates_exact edges budget :
  (transitive_candidates edges budget).1 =
    take MAX_DISCOVERIES_PER_CYCLE (first_seen (omap (proposes edges) (take budget (two_hops edges)))) ∧
  ((transitive_candidates edges budget).2 ≤ Nat.min budget (length (two_hops edges)))%nat ∧
  ((length (transitive_candidates edges budget).1 < MAX_DISCOVERIES_PER_CYCLE)%nat →
   (transitive_candidates edges budget).2 = Nat.min budget (length (two_hops edges))).
Proof.
  unfold transitive_candidates. cbn [fst snd]. rewrite scan_first_paths. fold (two_hops edges).
  destruct (scan_paths_spec edges budget (two_hops edges) (mkScan ∅ [] 0)) as (H1 & H2 & H3 & H4);
    [simpl; lia..|done|]. cbn [inspected found] in *. rewrite Nat.sub_0_r in H1. split_and!; [exact H1|lia|exact H4].
Qed.
