(* ===== verification/DreamsCycle.v ===== *)
(** * The Dreams cycle

    The driver of [crates/exocortex-dreams/src/lib.rs] over the in-memory store: one cycle of a region under
    its lease, from the recovery of a predecessor's journal to the settlement, with its compensation.

    A cycle is a program over the store.  Before each of its calls the environment acts, as a script says:
    other writers commit rows, leases are acquired, renewed and lost, others' discoveries change; the task
    that renews the lease may have failed, which a cancellable call notices in its place; the process may
    be lost.  The environment runs no other cycle of the region's lease meanwhile.  A call that would take
    an LSN past 64 bits leaves the model ([Exhausted]).  [now()] and random UUIDs are read from streams. *)

From stdpp Require Import pretty strings.
From S2P Require Import Prelude Ids Kernel Packs Ontology StorageTypes Graph Reads Leases Ingest Governed Cycles.
From S2P Require Import Storage IngestCommit ShippedPacks EntityResolution Mcr2 Consolidation Discovery.

(** ** Errors *)

(** The sites of the cycle's errors; the messages carry the error below. *)
Inductive DreamsError :=
  | NotLeader
  | LeaseError (e : StorageError)
  | LoadSettlement (e : StorageError)
  | ReleaseSettled (e : StorageError)
  | LoadJournal (e : StorageError)
  | RecoverCycle (e : StorageError)
  | CompleteRecovered (e : StorageError)
  | StorageFailed (e : StorageError)
  | ScoreFailed (e : MCR2Error)
  | UnknownRegion (org project : string)
  | RenewalFailed
  | RestoreFailed (cycle rollback : DreamsError)
  | CompletionFailed (cycle : DreamsError) (complete : StorageError)
  | RenewalAlsoFailed (cycle : DreamsError)
  | ReleaseFailed (e : StorageError)
  | ReleaseAlsoFailed (cycle : DreamsError) (e : StorageError)
  | AlreadySettled
  | Panicked.

(** ** The environment *)

Inductive Fate := Runs | RenewalLost | ProcessLost.

(** What happens up to a call: its readings of the clock, the rows others commit, what becomes of the
    leases and of others' discoveries, and whether the renewal or the process is lost. *)
Record Event := mkEvent {
  ev_clk : nat → DateTime;
  ev_rows : list Write;
  ev_leases : LeaseTable → LeaseTable;
  ev_governed : Governed → Governed;
  ev_fate : Fate;
}.

(** A row as the store keeps it. *)
Definition stamped (lsn : Z) (w : Write) : Write :=
  match w with
  | WMemory m => WMemory (m_set_lsn (new_backend lsn) m)
  | WRelationship r => WRelationship (r_set_lsn (new_backend lsn) r)
  end.
Definition stamped_from (lsn : Z) (ws : list Write) : list Write :=
  imap (λ i w, stamped (lsn + 1 + Z.of_nat i) w) ws.

(** The state of a cycle: the store, its own journal, whether the renewal has failed, the proposals of the
    engine, the calls made and readings taken, and the rows others wrote meanwhile. *)
Record Cycle := mkCycle {
  cy_store : Store;
  cy_journal : CycleJournal;
  cy_renewal_lost : bool;
  cy_discoveries : gmap string Discovery;
  cy_calls : nat;
  cy_ticks : nat;
  cy_others : list Write;
}.

Definition put_store st (c : Cycle) : Cycle :=
  let '(mkCycle _ j l d n t o) := c in mkCycle st j l d n t o.
Definition put_journal j (c : Cycle) : Cycle :=
  let '(mkCycle st _ l d n t o) := c in mkCycle st j l d n t o.
Definition put_lost l (c : Cycle) : Cycle :=
  let '(mkCycle st j _ d n t o) := c in mkCycle st j l d n t o.
Definition put_discoveries d (c : Cycle) : Cycle :=
  let '(mkCycle st j l _ n t o) := c in mkCycle st j l d n t o.
Definition tick (c : Cycle) : Cycle :=
  let '(mkCycle st j l d n t o) := c in mkCycle st j l d n (S t) o.

(** What others do before a call. *)
Definition interfere (e : Event) (c : Cycle) : Cycle :=
  let '(mkCycle st j l d n t o) := c in
  let g := graph st in
  let st := put_graph (commit_writes (ev_rows e) g) st in
  let st := put_leases (ev_leases e (lease_table st)) st in
  let st := put_governed (ev_governed e (governed st)) st in
  mkCycle st j l d (S n) t (o ++ stamped_from (g_lsn g) (ev_rows e)).

(** ** Programs *)

Inductive Outcome (A : Type) := Done (a : A) | Failed (e : DreamsError) | Stopped | Crashed | Exhausted.
Arguments Done {A} a.
Arguments Failed {A} e.
Arguments Stopped {A}.
Arguments Crashed {A}.
Arguments Exhausted {A}.

Definition M (A : Type) : Type := Cycle → Cycle * Outcome A.

Definition ret {A} (a : A) : M A := λ c, (c, Done a).
Definition fail {A} (e : DreamsError) : M A := λ c, (c, Failed e).
Definition bind {A B} (m : M A) (k : A → M B) : M B := λ c,
  match m c with
  | (c, Done a) => k a c
  | (c, Failed e) => (c, Failed e)
  | (c, Stopped) => (c, Stopped)
  | (c, Crashed) => (c, Crashed)
  | (c, Exhausted) => (c, Exhausted)
  end.

Declare Scope cycle_scope.
Delimit Scope cycle_scope with cycle.
Notation "'do!' x := m 'in' k" := (bind m (λ x, k))
  (at level 10, x pattern, m at level 100, k at level 200) : cycle_scope.
Notation "m ;;; k" := (bind m (λ _ : unit, k)) (at level 100, right associativity) : cycle_scope.
Open Scope cycle_scope.

(** The outcome as a [Result]: a cancelled future yields the error of the renewal. *)
Definition attempt {A} (m : M A) : M (result A DreamsError) := λ c,
  match m c with
  | (c, Done a) => (c, Done (Ok a))
  | (c, Failed e) => (c, Done (Err e))
  | (c, Stopped) => (c, Done (Err RenewalFailed))
  | (c, Crashed) => (c, Crashed)
  | (c, Exhausted) => (c, Exhausted)
  end.

(** The same beside the renewal task, with whether the renewal was what ended it. *)
Definition select {A} (m : M A) : M (result A DreamsError * bool) := λ c,
  match m c with
  | (c, Done a) => (c, Done (Ok a, false))
  | (c, Failed e) => (c, Done (Err e, false))
  | (c, Stopped) => (c, Done (Err RenewalFailed, true))
  | (c, Crashed) => (c, Crashed)
  | (c, Exhausted) => (c, Exhausted)
  end.

Definition get_journal : M CycleJournal := λ c, (c, Done (cy_journal c)).
Definition set_journal_to (j : CycleJournal) : M unit := λ c, (put_journal j c, Done tt).
Definition renewal_lost : M bool := λ c, (c, Done (cy_renewal_lost c)).

(** [map_err] and [?]. *)
Definition or_fail {A E} (f : E → DreamsError) (r : result A E) : M A :=
  match r with Ok a => ret a | Err e => fail (f e) end.
(** A value the code unwraps. *)
Definition unwrap {A} (o : option A) : M A := match o with Some a => ret a | None => fail Panicked end.

(** Before the renewal task is spawned; while it runs beside a future that goes on; and beside one that is
    dropped when it fails. *)
Inductive Mode := Unwatched | Watched | Cancellable.

Section cycle.
Context `{Blake3, Sha256, Bincode, HashOrder, DiscoveryJson, Ln}.
Context (o : Ontology) (script : nat → Event) (clock : nat → DateTime) (uuid : nat → string).

Definition now : M DateTime := λ c, (tick c, Done (clock (cy_ticks c))).
Definition new_v4 : M string := λ c, (tick c, Done (uuid (cy_ticks c))).

(** One call of the store, which takes at most [n] LSNs. *)
Definition call {A} (mode : Mode) (n : nat) (op : (nat → DateTime) → Store → Store * A) : M A := λ c,
  let e := script (cy_calls c) in
  if 2 ^ 64 <=? g_lsn (graph (cy_store c)) + Z.of_nat (length (ev_rows e) + n) then (c, Exhausted)
  else
    let c := interfere e c in
    match ev_fate e, mode with
    | ProcessLost, _ => (c, Crashed)
    | RenewalLost, Cancellable => (put_lost true c, Stopped)
    | fate, _ =>
        if match mode with Cancellable => cy_renewal_lost c | _ => false end then (c, Stopped)
        else
          let c := match fate, mode with RenewalLost, Watched => put_lost true c | _, _ => c end in
          let '(st, a) := op (ev_clk e) (cy_store c) in
          (put_store st c, Done a)
    end.

(** ** The calls *)

Definition st_acquire (key : LeaseKey) (ttl : Z) (clk : nat → DateTime) (st : Store) :=
  let '(T, r) := acquire_lease (clk 0%nat) key ttl (lease_table st) in (put_leases T st, r).
Definition st_release (lease : OwnerLease) (clk : nat → DateTime) (st : Store) :=
  let '(T, r) := release_lease lease (lease_table st) in (put_leases T st, r).
Definition st_succeeded (cycle_id : string) (lease : OwnerLease) (clk : nat → DateTime) (st : Store) :=
  (st, cycle_succeeded_fenced (clk 0%nat) cycle_id lease (lease_table st) (journals st)).
Definition st_active (key : LeaseKey) (clk : nat → DateTime) (st : Store) :=
  (st, get_active_cycle_journal key (journals st)).
Definition st_restore (rst : FencedRestore) (lease : OwnerLease) (clk : nat → DateTime) (st : Store) :=
  let '(g, r) := restore_fenced clk rst lease (lease_table st) (graph st) in (put_graph g st, r).
Definition st_complete (cycle_id : string) (lease : OwnerLease) (clk : nat → DateTime) (st : Store) :=
  let '(J, r) := complete_cycle_journal_fenced (clk 0%nat) cycle_id lease (lease_table st) (journals st) in
  (put_journals J st, r).
Definition st_batch (ms : list Memory) (rs : list Relationship) (prepared : FencedRestore) (cycle_id : string)
    (lease : OwnerLease) (clk : nat → DateTime) (st : Store) :=
  let '(J, g, r) := upsert_batch_fenced_journaled o clk ms rs prepared cycle_id lease
                      (lease_table st) (journals st) (graph st) in
  (put_graph g (put_journals J st), r).
Definition st_memories (region : RegionKey) (limit : Z) (clk : nat → DateTime) (st : Store) :=
  (st, memories_in_region region limit (graph st)).
Definition st_current_relationships (region : RegionKey) (limit : Z) (clk : nat → DateTime) (st : Store) :=
  (st, current_relationships_in_region region limit (graph st)).
Definition st_relationships (region : RegionKey) (limit : Z) (clk : nat → DateTime) (st : Store) :=
  (st, relationships_in_region region limit (graph st)).
Definition st_get_memory (id : MemoryId) (clk : nat → DateTime) (st : Store) :=
  let '(c, r) := get_memory id (reads st) (graph st) in
  (mkStore (graph st) c (lease_table st) (ingest st) (governed st) (journals st), r).
Definition st_settle (cycle_id : string) (records : list DiscoveryRecord) (lease : OwnerLease)
    (clk : nat → DateTime) (st : Store) :=
  let '(J, d, g, r) := settle_dreams_cycle_fenced (clk 0%nat) cycle_id records lease
                         (lease_table st) (journals st) (governed st) (graph st) in
  (put_graph g (put_governed d (put_journals J st)), r).
Definition st_store_discovery (record : DiscoveryRecord) (lease : OwnerLease) (clk : nat → DateTime) (st : Store) :=
  let '(d, g, r) := store_discovery_fenced (clk 0%nat) record lease (lease_table st) (governed st) (graph st) in
  (put_graph g (put_governed d st), r).

(** ** The result of a cycle *)

(* SRC crates/exocortex-dreams/src/lib.rs 62-107 ConsolidationResult *)
Record ConsolidationResult := mkConsolidation {
  cr_session_id : string;
  cr_user_id : option string;
  cr_started_at : DateTime;
  cr_completed_at : DateTime;
  cr_region : RegionKey;
  memories_input : Z;
  memories_output : Z;
  mcr2_before : MCR2Value;
  mcr2_after : MCR2Value;
  sparsity_before : GraphSparsity;
  sparsity_after : GraphSparsity;
  cr_merged : list MemoryId;
  cr_abstracted : list MemoryId;
  cr_pruned : list (MemoryId * PruneReason);
  cr_strengthened : list RelationshipId;
  cr_rewired : list RelationshipId;
  cr_similar_edges : list RelationshipId;
  cr_owner_node_id : string;
  cr_lease_epoch : Z;
  cr_regression : bool;
  cr_hairball_regression : bool;
}.

(** The configuration of an engine. *)
Record Engine := mkEngine {
  leader_gate : option bool;
  tolerance : f32;
  hairball_tolerance : f32;
  rollback_on_regression : bool;
  node_id : string;
  lease_ttl : Z;
}.
Context (en : Engine).

Definition MAX_REGION_MEMORIES : Z := 50000.
Definition MAX_REGION_RELATIONSHIPS : Z := 50000.

Definition dreams_key (region : RegionKey) : LeaseKey :=
  Dreams (rk_org region) (rk_project region +:+ ":" +:+ pretty (rk_memory_type region)).

(** ** Recovery and loading *)

(* SRC crates/exocortex-dreams/src/lib.rs 876-898 recover_active_cycle *)
Definition recover_active_cycle (key : LeaseKey) (lease : OwnerLease) : M unit :=
  do! active := call Unwatched 0 (st_active key) in
  do! active := or_fail LoadJournal active in
  match active with
  | None => ret tt
  | Some active =>
      let n := (size (owned_memory_lsns (restore active)) + size (owned_relationship_lsns (restore active)))%nat in
      do! restored := call Unwatched n (st_restore (restore active) lease) in
      do! _ := or_fail RecoverCycle restored in
      do! completed := call Unwatched 0 (st_complete (cj_cycle_id active) lease) in
      or_fail CompleteRecovered completed
  end.

Definition by_id {K A} `{Countable K} (key : A → K) (rows : list A) : gmap K A :=
  foldl (λ m x, <[key x := x]> m) ∅ rows.

(* SRC crates/exocortex-dreams/src/lib.rs 1159-1181 load_region_working_set *)
Definition load_region_working_set (mode : Mode) (region : RegionKey) : M RegionWorkingSet :=
  do! memories := call mode 0 (st_memories region MAX_REGION_MEMORIES) in
  do! memories := or_fail StorageFailed memories in
  do! relationships := call mode 0 (st_current_relationships region MAX_REGION_RELATIONSHIPS) in
  do! relationships := or_fail StorageFailed relationships in
  ret (mkWorkingSet (by_id m_id memories) (by_id r_id relationships)).

(* SRC crates/exocortex-dreams/src/lib.rs 1812-1828 validate_loaded_region *)
Definition validate_loaded_region (region : RegionKey) (memories : list Memory) : M unit :=
  if String.eqb (rk_org region) "*" || String.eqb (rk_project region) "*" then ret tt
  else if existsb live_memory memories then ret tt
  else fail (UnknownRegion (rk_org region) (rk_project region)).

(* SRC crates/exocortex-dreams/src/lib.rs 1830-1850 validate_region *)
Definition validate_region (mode : Mode) (region : RegionKey) : M unit :=
  if String.eqb (rk_org region) "*" || String.eqb (rk_project region) "*" then ret tt
  else
    do! memories := call mode 0 (st_memories region MAX_REGION_MEMORIES) in
    do! memories := or_fail StorageFailed memories in
    validate_loaded_region region (hash_values (by_id m_id memories)).

(** ** The actions *)

(** One journaled batch, and what the journal of the cycle learns of it. *)
Definition commit_batch (ms : list Memory) (rs : list Relationship) (lease : OwnerLease) : M unit :=
  do! j := get_journal in
  do! r := call Cancellable (length ms + 2 * length rs)
             (st_batch ms rs (journal_restore j) (jr_cycle_id j) lease) in
  do! commit := or_fail StorageFailed r in
  set_journal_to (record_commit commit j).

(** A batch of edges, unless there is none. *)
Definition write_edges (rs : list Relationship) (lease : OwnerLease) (ws : RegionWorkingSet)
    : M (RegionWorkingSet * list RelationshipId) :=
  match rs with
  | [] => ret (ws, [])
  | _ => commit_batch [] rs lease ;;; ret (apply_relationship_writes rs ws, r_id <$> rs)
  end.

(** What a cycle carries from action to action: the working set and the lists of its audit. *)
Record Progress := mkProgress {
  pg_set : RegionWorkingSet;
  pg_merged : list MemoryId;
  pg_rewired : list RelationshipId;
  pg_abstracted : list MemoryId;
}.

(** The clock is read before the rows are looked at. *)
(* SRC crates/exocortex-dreams/src/lib.rs 1256-1340 merge *)
Definition merge (c : MergeCandidate) (lease : OwnerLease) (p : Progress) : M Progress :=
  do! t := now in
  do! j := get_journal in
  match plan_merge t c (pg_set p) j with
  | None => ret p
  | Some (j, m, updates, rewired) =>
      set_journal_to j ;;;
      commit_batch [m] updates lease ;;;
      ret (mkProgress (apply_relationship_writes updates (insert_memory m (pg_set p)))
             (pg_merged p ++ [mc_b c]) (pg_rewired p ++ rewired) (pg_abstracted p))
  end.

Fixpoint merge_all (cs : list MergeCandidate) (lease : OwnerLease) (p : Progress) : M Progress :=
  match cs with
  | [] => ret p
  | c :: cs =>
      if f32_ge (cosine_similarity c) (f32_hundredths 92)
      then do! p := merge c lease p in merge_all cs lease p
      else merge_all cs lease p
  end.

(* SRC crates/exocortex-dreams/src/lib.rs 1342-1412 strengthen *)
Definition strengthen (lease : OwnerLease) (ws : RegionWorkingSet) : M (RegionWorkingSet * list RelationshipId) :=
  do! t := now in
  do! j := get_journal in
  let plan := plan_strengthen t [] ws j in
  set_journal_to plan.1 ;;;
  write_edges plan.2 lease ws.

(* SRC crates/exocortex-dreams/src/lib.rs 1414-1502 write_similar_edges *)
Definition write_similar_edges (survivors : list MemoryWithEmbedding) (lease : OwnerLease) (ws : RegionWorkingSet)
    : M (RegionWorkingSet * list RelationshipId) :=
  do! t := now in
  do! j := get_journal in
  let plan := plan_similar_edges t survivors ws j in
  set_journal_to plan.1 ;;;
  write_edges plan.2 lease ws.

(** One group: the abstraction over it is there, or its row and edges are to be written. *)
Definition abstract_group (t : DateTime) (carrier : Z) (summarizes : RelKindId) (ws : RegionWorkingSet)
    (members : list MemoryWithEmbedding) : M (option MemoryId * list Memory * list Relationship) :=
  match members with
  | [] => ret (None, [], [])
  | first :: _ =>
      if (length members <? MIN_ABSTRACT_MEMBERS)%nat then ret (None, [], [])
      else
        let id := derive_abstraction_id (sorted_ids members) in
        if bool_decide (is_Some (ws_memories ws !! id)) then ret (Some id, [], [])
        else
          do! stored := call Cancellable 0 (st_get_memory id) in
          do! stored := or_fail StorageFailed stored in
          match stored, abstraction_row t carrier ws first members with
          | Some _, _ => ret (Some id, [], [])
          | None, None => ret (None, [], [])
          | None, Some row =>
              let edges := abstraction_edges t summarizes ws row members in
              do! j := get_journal in
              set_journal_to (foldl (λ j r, create_relationship r j) (create_memory row j) edges) ;;;
              ret (Some id, [row], edges)
          end
  end.

Fixpoint abstract_groups (t : DateTime) (carrier : Z) (summarizes : RelKindId) (ws : RegionWorkingSet)
    (gs : list (list MemoryWithEmbedding)) : M (list MemoryId * list Memory * list Relationship) :=
  match gs with
  | [] => ret ([], [], [])
  | g :: gs =>
      do! (id, ms, rs) := abstract_group t carrier summarizes ws g in
      do! (ids, ms', rs') := abstract_groups t carrier summarizes ws gs in
      ret (option_list id ++ ids, ms ++ ms', rs ++ rs')
  end.

(* SRC crates/exocortex-dreams/src/lib.rs 1504-1766 write_abstractions *)
Definition write_abstractions (anchors : list MemoryWithEmbedding) (lease : OwnerLease) (p : Progress) : M Progress :=
  from_option (λ carrier, from_option (λ summarizes,
    do! t := now in
    let ws := pg_set p in
    let survivors := List.filter (λ a, negb (bool_decide (an_id a ∈ pg_merged p))) anchors in
    do! (ids, ms, rs) := abstract_groups t carrier summarizes ws (groups ws survivors) in
    match ms, rs with
    | [], [] => ret (mkProgress ws (pg_merged p) (pg_rewired p) (pg_abstracted p ++ ids))
    | _, _ =>
        do! j := get_journal in
        set_journal_to (prepare_relationship_writes rs (ws_relationships ws) j) ;;;
        commit_batch ms rs lease ;;;
        ret (mkProgress (apply_relationship_writes rs (foldl (λ ws m, insert_memory m ws) ws ms))
               (pg_merged p) (pg_rewired p) (pg_abstracted p ++ ids))
    end) (ret p) summarizes_kind) (ret p) abstraction_carrier_type.

(** [rollback], which is cancelled inside a cycle and awaited in its compensation. *)
(* SRC crates/exocortex-dreams/src/lib.rs 1779-1802 rollback *)
Definition rollback (mode : Mode) (lease : OwnerLease) : M unit :=
  do! j := get_journal in
  let n := (size (jr_memory_lsns j) + size (jr_relationship_lsns j))%nat in
  do! r := call mode n (st_restore (journal_restore j) lease) in
  do! _ := or_fail StorageFailed r in
  ret tt.

(** ** Consolidation *)

Definition score_with (anchors : list MemoryWithEmbedding) : M (result MCR2Value MCR2Error) :=
  do! t := now in unwrap (compute default_epsilon t anchors).

(* SRC crates/exocortex-dreams/src/lib.rs 2532-2583 empty_result *)
Definition empty_result (region : RegionKey) (lease : OwnerLease) (n : Z) (ws : RegionWorkingSet)
    : M ConsolidationResult :=
  do! t0 := now in
  do! id := new_v4 in
  do! t1 := now in
  do! t2 := now in
  do! t3 := now in
  do! t4 := now in
  let score t := mkMCR2Value f32_zero f32_zero ∅ f32_zero 0 bge_small t in
  ret (mkConsolidation ("dream:" +:+ id) None t1 t2 region n n (score t3) (score t4)
         (sparsity t0 ws) (sparsity t0 ws) [] [] [] [] [] [] (node_id en) (epoch lease) false false).

(* SRC crates/exocortex-dreams/src/lib.rs 995-1136 consolidate_under_tracked *)
Definition consolidate_under_tracked (lease : OwnerLease) (region : RegionKey) (ws : RegionWorkingSet)
    : M (ConsolidationResult * RegionWorkingSet) :=
  do! t := now in
  let anchors := select_anchors t ws in
  let n := as_u32 (Z.of_nat (length anchors)) in
  do! before := score_with anchors in
  match before with
  | Err (TooFew _) => do! res := empty_result region lease n ws in ret (res, ws)
  | Err e => fail (ScoreFailed e)
  | Ok before =>
      do! t := now in
      let sparse := sparsity t ws in
      do! j := get_journal in
      do! started := now in
      do! _ := now in
      do! p := merge_all (take 32 (identify_merge_candidates anchors)) lease (mkProgress ws [] [] []) in
      do! p := write_abstractions anchors lease p in
      do! (ws, strengthened) := strengthen lease (pg_set p) in
      let pruned := prune ws in
      let output := as_u32 (n - Z.of_nat (length (pg_merged p))) in
      let survivors := List.filter (λ a, negb (bool_decide (an_id a ∈ pg_merged p))) anchors in
      do! (ws, similar) := write_similar_edges survivors lease ws in
      do! after := score_with survivors in
      do! after := match after with
                   | Ok after => ret after
                   | Err (TooFew _) => ret before
                   | Err e => fail (ScoreFailed e)
                   end in
      do! t := now in
      let sparse' := sparsity t ws in
      do! completed := now in
      let regression := SFltb (delta_r after) (f32_sub (delta_r before) (tolerance en)) in
      (if regression && rollback_on_regression en then rollback Cancellable lease else ret tt) ;;;
      let hairball := f32_gt (hairball_fraction sparse') (f32_add (hairball_fraction sparse) (hairball_tolerance en)) in
      ret (mkConsolidation (jr_cycle_id j) None started completed region n output before after sparse sparse'
             (pg_merged p) (pg_abstracted p) pruned strengthened (pg_rewired p) similar (node_id en) (epoch lease)
             regression hairball, ws)
  end.

(* SRC crates/exocortex-dreams/src/lib.rs 966-993 finish_cycle *)
Definition finish_cycle (outcome : result ConsolidationResult DreamsError) (lease : OwnerLease)
    : M ConsolidationResult :=
  match outcome with
  | Ok res => ret res
  | Err error =>
      do! j := get_journal in
      if journal_is_empty j then fail error
      else
        do! rolled := attempt (rollback Watched lease) in
        do! _ := or_fail (RestoreFailed error) rolled in
        do! completed := call Watched 0 (st_complete (jr_cycle_id j) lease) in
        do! _ := or_fail (CompletionFailed error) completed in
        fail error
  end.

(** ** Discovery *)

(** [out.push(Discovery { id: new_v4(), .., discovered_at: now() })]. *)
Definition propose (kind : DiscoveryKind) (cycle_id : string) (ends : MemoryId * MemoryId) (via : Z * Z) : M Discovery :=
  do! id := new_v4 in
  do! t := now in
  ret (mkProposed id kind ends (default_quality kind) via cycle_id t).

Fixpoint propose_all (kind : DiscoveryKind) (cycle_id : string) (l : list (MemoryId * MemoryId * (Z * Z)))
    : M (list Discovery) :=
  match l with
  | [] => ret []
  | (ends, via) :: l =>
      do! d := propose kind cycle_id ends via in
      do! ds := propose_all kind cycle_id l in
      ret (d :: ds)
  end.

(* SRC crates/exocortex-dreams/src/lib.rs 1894-1969 cross_domain_candidates *)
Definition cross_domain_candidates (region : RegionKey) (cycle_id : string) (working_set : option RegionWorkingSet)
    : M (list Discovery) :=
  do! memories := match working_set with
                  | Some ws => ret (hash_values (ws_memories ws))
                  | None =>
                      do! memories := call Cancellable 0 (st_memories region MAX_REGION_MEMORIES) in
                      or_fail StorageFailed memories
                  end in
  propose_all CrossDomain cycle_id ((λ ends, (ends, (2 ^ 32 - 1, 2 ^ 32 - 1))) <$> cross_domain_pairs memories).

Fixpoint store_all (records : list DiscoveryRecord) (lease : OwnerLease) : M unit :=
  match records with
  | [] => ret tt
  | record :: records =>
      do! r := call Cancellable 1 (st_store_discovery record lease) in
      or_fail StorageFailed r ;;; store_all records lease
  end.

(* SRC crates/exocortex-dreams/src/lib.rs 1971-2052 run_discovery_fenced *)
Definition run_discovery_fenced (region : RegionKey) (lease : OwnerLease) (cycle_id : option string)
    (working_set : option RegionWorkingSet) : M (list Discovery) :=
  do! rels := call Cancellable 0 (st_relationships region MAX_DISCOVERY_PATH_INSPECTIONS) in
  do! rels := or_fail StorageFailed rels in
  let candidates := (transitive_candidates (discovery_edge <$> rels)
                       (Z.to_nat MAX_DISCOVERY_PATH_INSPECTIONS)).1 in
  do! cycle := match cycle_id with
               | Some id => ret id
               | None => do! id := new_v4 in ret ("dream:" +:+ id)
               end in
  do! two_hops := propose_all Transitive cycle ((λ '(a, c, k1, k2), (a, c, (k1, k2))) <$> candidates) in
  do! across := cross_domain_candidates region cycle working_set in
  let out := two_hops ++ across in
  let records := discovery_record region <$> out in
  (match cycle_id with
   | Some id => do! r := call Cancellable (length records) (st_settle id records lease) in or_fail StorageFailed r
   | None => store_all records lease
   end) ;;;
  (λ c, (put_discoveries (foldl (λ m d, <[di_id d := d]> m) ∅ out) c, Done out)).

(** ** The cycle *)

(** The lease released at the end, and the errors of both. *)
Definition release_after {A} (outcome : result A DreamsError) (lease : OwnerLease) : M A :=
  do! released := call Unwatched 0 (st_release lease) in
  match outcome, released with
  | Ok a, Ok _ => ret a
  | Err e, Ok _ => fail e
  | Ok _, Err r => fail (ReleaseFailed r)
  | Err e, Err r => fail (ReleaseAlsoFailed e r)
  end.

(** A failure before the cycle starts: the lease is released and the error returned. *)
Definition released {A} (lease : OwnerLease) (m : M A) : M A :=
  do! r := attempt m in
  match r with
  | Ok a => ret a
  | Err e => do! _ := call Unwatched 0 (st_release lease) in fail e
  end.

Definition spawn_renewal : M unit := λ c, (put_lost false c, Done tt).

(** From the working set to the outcome, with the renewal running. *)
Definition run_cycle (region : RegionKey) (lease : OwnerLease) (cycle_id : string) (ws : RegionWorkingSet)
    : M (result ConsolidationResult DreamsError) :=
  spawn_renewal ;;;
  set_journal_to (CycleJournal_new cycle_id) ;;;
  do! (outcome, stopped) := select (consolidate_under_tracked lease region ws) in
  let cycled_set := match outcome with Ok (_, ws) => Some ws | Err _ => None end in
  let outcome := match outcome with Ok (res, _) => Ok res | Err e => Err e end in
  do! finished := attempt (finish_cycle outcome lease) in
  do! lost := renewal_lost in
  match finished with
  | Err e => ret (Err (if negb stopped && lost then RenewalAlsoFailed e else e))
  | Ok res =>
      if (lost : bool) then ret (Err RenewalFailed)
      else attempt (do! _ := run_discovery_fenced region lease (Some cycle_id) cycled_set in ret res)
  end.

(* SRC crates/exocortex-dreams/src/lib.rs 734-874 try_consolidate_inner *)
Definition try_consolidate_inner (region : RegionKey) (stable_cycle_id : option string)
    : M (option ConsolidationResult) :=
  if match leader_gate en with Some leads => negb leads | None => false end then fail NotLeader
  else
    let key := dreams_key region in
    do! lease := call Unwatched 0 (st_acquire key (lease_ttl en)) in
    do! lease := or_fail LeaseError lease in
    do! cycle_id := match stable_cycle_id with
                    | Some id => ret id
                    | None => do! id := new_v4 in ret ("dream:" +:+ id)
                    end in
    do! settled := call Unwatched 0 (st_succeeded cycle_id lease) in
    do! settled := or_fail LoadSettlement settled in
    if (settled : bool)
    then
      do! r := call Unwatched 0 (st_release lease) in
      do! _ := or_fail ReleaseSettled r in
      ret None
    else
      released lease (recover_active_cycle key lease) ;;;
      do! ws := released lease (load_region_working_set Unwatched region) in
      released lease (validate_loaded_region region (hash_values (ws_memories ws))) ;;;
      do! outcome := run_cycle region lease cycle_id ws in
      do! res := release_after outcome lease in
      ret (Some res).

(* SRC crates/exocortex-dreams/src/lib.rs 711-719 try_consolidate *)
Definition try_consolidate (region : RegionKey) : M ConsolidationResult :=
  do! res := try_consolidate_inner region None in
  match res with Some res => ret res | None => fail AlreadySettled end.

(* SRC crates/exocortex-dreams/src/lib.rs 1852-1892 run_discovery *)
Definition run_discovery (region : RegionKey) : M (list Discovery) :=
  do! lease := call Unwatched 0 (st_acquire (dreams_key region) (lease_ttl en)) in
  do! lease := or_fail LeaseError lease in
  spawn_renewal ;;;
  do! outcome := attempt (validate_region Cancellable region ;;; run_discovery_fenced region lease None None) in
  release_after outcome lease.
End cycle.
