(* ===== verification/DreamsInv.v ===== *)
(** * The invariant of a Dreams cycle

    What a lease key's journal owns is set apart from the rows of the store: the logical rows are those the
    journal does not own, which is what a recovery leaves.  A journaled batch changes no logical row, a
    rollback makes the rows the logical ones, and a settlement makes the logical rows all the rows. *)

From stdpp Require Import pretty strings.
From S2P Require Import Prelude Ids Kernel Packs Ontology StorageTypes Graph Reads Leases Ingest Governed Cycles.
From S2P Require Import Storage Interleaving IngestCommit ShippedPacks EntityResolution Mcr2 Consolidation Discovery.
From S2P Require Import DreamsCycle.

(** ** Rows of either table *)

Abbreviation Slot := (MemoryId + RelationshipId)%type.

Definition row_stamp (w : Write) : Z :=
  match w with WMemory m => lsn_value (m_lsn m) | WRelationship r => lsn_value (r_lsn r) end.

(** The versions of a memory or of a relationship. *)
Definition rows (g : Graph) (s : Slot) : list Write :=
  match s with inl id => WMemory <$> memory_history g id | inr id => WRelationship <$> relationship_history g id end.
Definition of_slot (s : Slot) (ws : list Write) : list Write := List.filter (λ w, bool_decide (slot_of w = s)) ws.
(** The rows whose LSN is not in [X]. *)
Definition without (X : gset Z) (ws : list Write) : list Write :=
  List.filter (λ w, negb (bool_decide (row_stamp w ∈ X))) ws.

Definition journal_owns (J : Journals) (k : LeaseKey) (s : Slot) : gset Z :=
  match s with inl id => journal_memory_lsns J k id | inr id => journal_rel_lsns J k id end.
Definition restore_owns (rst : FencedRestore) (s : Slot) : gset Z :=
  match s with
  | inl id => owned_of (owned_memory_lsns rst) id
  | inr id => owned_of (owned_relationship_lsns rst) id
  end.
Definition commit_owns (c : FencedBatchCommit) (s : Slot) : gset Z :=
  match s with
  | inl id => owned_of (memory_lsns c) id
  | inr id => owned_of (relationship_lsns c) id
  end.
Definition cycle_owns (j : CycleJournal) (s : Slot) : gset Z := restore_owns (journal_restore j) s.

(** The rows the journal of [k] does not own. *)
Definition logical (k : LeaseKey) (st : Store) (s : Slot) : list Write :=
  without (journal_owns (journals st) k s) (rows (graph st) s).

(** ** Filtering by LSN *)

Lemma without_app X l l' : without X (l ++ l') = without X l ++ without X l'.
Proof. apply List.filter_app. Qed.
Lemma without_keep X l : (∀ w, w ∈ l → row_stamp w ∉ X) → without X l = l.
Proof.
  intros Hl. induction l as [|w l IH]; [done|]. simpl. rewrite bool_decide_eq_false_2 by (apply Hl; by left).
  simpl. f_equal. apply IH. intros. apply Hl. by right.
Qed.
Lemma without_drop X l : (∀ w, w ∈ l → row_stamp w ∈ X) → without X l = [].
Proof.
  intros Hl. induction l as [|w l IH]; [done|]. simpl. rewrite bool_decide_eq_true_2 by (apply Hl; by left).
  apply IH. intros. apply Hl. by right.
Qed.
Lemma without_ext X Y l : (∀ w, w ∈ l → row_stamp w ∈ X ↔ row_stamp w ∈ Y) → without X l = without Y l.
Proof.
  intros Hl. induction l as [|w l IH]; [done|]. simpl.
  rewrite (bool_decide_ext (row_stamp w ∈ X) (row_stamp w ∈ Y)) by (apply Hl; by left).
  rewrite IH; [done|]. intros. apply Hl. by right.
Qed.
Lemma without_twice X l : without X (without X l) = without X l.
Proof. apply filter_idemp. Qed.
Lemma without_empty l : without ∅ l = l.
Proof. apply without_keep. set_solver. Qed.
Lemma without_sublist X l : without X l `sublist_of` l.
Proof.
  induction l as [|w l IH]; [done|]. simpl. destruct (negb _); [by apply sublist_skip|by apply sublist_cons].
Qed.

(** ** The rows a graph gains and loses *)

Lemma of_slot_cons s w ws : of_slot s (w :: ws) = (if decide (slot_of w = s) then [w] else []) ++ of_slot s ws.
Proof. unfold of_slot. simpl. case_bool_decide; by case_decide. Qed.
Lemma of_slot_app s ws ws' : of_slot s (ws ++ ws') = of_slot s ws ++ of_slot s ws'.
Proof. apply List.filter_app. Qed.

Lemma slot_stamped l w : slot_of (stamped l w) = slot_of w.
Proof. destruct w as [m|r]; [by destruct m|by destruct r]. Qed.
Lemma row_stamp_stamped l w : row_stamp (stamped l w) = l.
Proof. destruct w as [m|r]; [by destruct m|by destruct r]. Qed.

Lemma stamped_from_cons l w ws : stamped_from l (w :: ws) = stamped (l + 1) w :: stamped_from (l + 1) ws.
Proof.
  unfold stamped_from. simpl. rewrite Z.add_0_r. f_equal. apply imap_ext. intros i ? _. simpl. f_equal. lia.
Qed.

Lemma stamped_from_bound l ws w : w ∈ stamped_from l ws → l < row_stamp w ≤ l + Z.of_nat (length ws).
Proof.
  revert l. induction ws as [|x ws IH]; intros l; [set_solver|]. rewrite stamped_from_cons.
  intros [->|Hin%IH]%elem_of_cons; [rewrite row_stamp_stamped; simpl; lia|simpl; lia].
Qed.

Lemma rows_append w g s :
  room 1 g → rows (append w g) s = rows g s ++ of_slot s [stamped (g_lsn g + 1) w].
Proof.
  intros Hr. destruct (append_history w g Hr) as [Hm Hrel]. rewrite of_slot_cons, slot_stamped, app_nil_r.
  destruct s as [id|id]; simpl; [rewrite Hm|rewrite Hrel]; rewrite fmap_app; f_equal; destruct w as [m|r]; simpl;
    repeat case_decide; simplify_eq/=; done.
Qed.

Lemma rows_append_all ws g s :
  room (length ws) g → rows (append_all ws g) s = rows g s ++ of_slot s (stamped_from (g_lsn g) ws).
Proof.
  revert g. induction ws as [|w ws IH]; intros g [Hl Hr]; [by rewrite app_nil_r|]. simpl in Hr.
  assert (Hlsn : g_lsn (append w g) = g_lsn g + 1) by (apply append_lsn; split; simpl; lia).
  change (append_all (w :: ws) g) with (append_all ws (append w g)). rewrite IH by (split; lia).
  rewrite rows_append by (split; simpl; lia). rewrite Hlsn, stamped_from_cons, <-(assoc_L (++)). f_equal.
  by rewrite <-of_slot_app.
Qed.

Lemma rows_publish invs g s : rows (publish invs g) s = rows g s.
Proof.
  destruct (publish_fields invs g) as (E1 & E2 & _). destruct s; simpl; unfold memory_history, relationship_history;
    by rewrite ?E1, ?E2.
Qed.

Lemma rows_commit ws g s :
  room (length ws) g → rows (commit_writes ws g) s = rows g s ++ of_slot s (stamped_from (g_lsn g) ws).
Proof. intros. unfold commit_writes. by rewrite rows_publish, rows_append_all. Qed.

Lemma rows_bound g s w : graph_ok g → w ∈ rows g s → row_stamp w ≤ g_lsn g.
Proof.
  intros Hok. destruct s as [id|id]; simpl; intros (x & -> & Hx)%list_elem_of_fmap; simpl.
  - apply (versions_ok (g_lsn g)) in Hx; [unfold row_lsn_value in Hx; simpl in Hx; lia|apply Hok].
  - apply (versions_ok (g_lsn g)) in Hx; [unfold row_lsn_value in Hx; simpl in Hx; lia|apply Hok].
Qed.

Lemma of_slot_bound s l ws w : w ∈ of_slot s (stamped_from l ws) → l < row_stamp w ≤ l + Z.of_nat (length ws).
Proof. unfold of_slot. intros [Hin _]%elem_of_filter. by apply stamped_from_bound. Qed.

Lemma commit_ok ws g : graph_ok g → room (length ws) g → graph_ok (commit_writes ws g).
Proof. intros Hok Hr. eapply graph_steps_ok; [by apply commit_writes_steps|done]. Qed.

(** The events of a commit name the LSNs of its rows. *)
Definition names (s : Slot) (l : Z) (invs : list Invalidation) : Prop :=
  match s with
  | inl id => MemoryUpserted id l ∈ invs
  | inr id => ∃ f t k, RelationshipUpserted id f t k l ∈ invs
  end.

Lemma names_events s l top ws :
  names s l (events_from top ws) ↔ ∃ w, w ∈ of_slot s (stamped_from top ws) ∧ row_stamp w = l.
Proof.
  revert top. induction ws as [|w ws IH]; intros top.
  { destruct s; simpl; split; [set_solver..| |]; [intros (?&?&?&Hx)|intros (?&Hx&_)]; set_solver. }
  rewrite events_from_cons, stamped_from_cons, of_slot_cons, slot_stamped. setoid_rewrite elem_of_app.
  assert (Hc : names s l (event_of (top + 1) w :: events_from (top + 1) ws) ↔
               (slot_of w = s ∧ top + 1 = l) ∨ names s l (events_from (top + 1) ws)).
  { destruct s as [id|id], w as [m|r]; simpl; setoid_rewrite elem_of_cons; naive_solver. }
  rewrite Hc, IH. split.
  - intros [[Hs <-]|(x & Hx & Hl)].
    + exists (stamped (top + 1) w). split; [left|apply row_stamp_stamped]. case_decide; [by left|done].
    + exists x. split; [by right|done].
  - intros (x & [Hx|Hx] & Hl).
    + left. case_decide; [|set_solver]. apply list_elem_of_singleton in Hx as ->.
      rewrite row_stamp_stamped in Hl. done.
    + right. by exists x.
Qed.

(** ** Rollback *)

Lemma fmap_filter {A B} (f : A → B) (P : B → bool) l :
  f <$> List.filter (λ x, P (f x)) l = List.filter P (f <$> l).
Proof. induction l as [|x l IH]; [done|]. csimpl. destruct (P (f x)); csimpl; by rewrite IH. Qed.

Lemma restore_rows clk rst lease T g g' records s :
  graph_ok g → restore_fenced clk rst lease T g = (g', Ok records) →
  rows g' s = without (restore_owns rst s) (rows g s).
Proof.
  intros Hok Hres. destruct (restore_tables _ _ _ _ _ _ _ Hok Hres) as [Hm Hr].
  destruct s as [id|id]; simpl; unfold without.
  - rewrite <-(fmap_filter WMemory). f_equal.
    by apply (kept_versions (g_memories g) (g_memories g') (retain_memories (owned_of (owned_memory_lsns rst) id))).
  - rewrite <-(fmap_filter WRelationship). f_equal.
    by apply (kept_versions (g_rels g) (g_rels g') (retain_relationships (owned_of (owned_relationship_lsns rst) id))).
Qed.

Lemma restore_ok clk rst lease T g g' records :
  graph_ok g → room (size (owned_memory_lsns rst) + size (owned_relationship_lsns rst)) g →
  restore_fenced clk rst lease T g = (g', Ok records) → graph_ok g' ∧ g_lsn g ≤ g_lsn g'.
Proof.
  intros Hok Hroom. unfold restore_fenced. destruct (check_lease_current _ _ _); [|done].
  destruct (restore_locked _ rst g) as [[g1 records1] invs] eqn:Hr. intros [= <- _].
  apply restore_locked_narrows in Hr; [|done..].
  destruct (publish_fields invs g1) as (_ & _ & -> & _). split; [|apply Hr].
  eapply graph_steps_ok; [apply publish_steps|]. by eapply narrows_ok.
Qed.

(** ** A journaled batch *)

Lemma journaled_fails `{Blake3} o clk ms rs prepared cycle_id lease T J g J' g' e :
  upsert_batch_fenced_journaled o clk ms rs prepared cycle_id lease T J g = (J', g', Err e) → J' = J ∧ g' = g.
Proof.
  unfold upsert_batch_fenced_journaled. destruct (check_lease_current _ _ _); [|by intros [= <- <- _]].
  destruct (match cycle_journals J !! _ with Some _ => _ | None => _ end); [by intros [= <- <- _]|].
  destruct (upsert_batch_locked o _ ms rs g) as [g1 [[? ?]|?]] eqn:Hb; [done|].
  intros [= <- <- _]. split; [done|]. by eapply upsert_batch_locked_err.
Qed.

Lemma journaled_commit `{Blake3} o clk ms rs prepared cycle_id lease T J g J' g' c :
  room (length ms + 2 * length rs) g →
  upsert_batch_fenced_journaled o clk ms rs prepared cycle_id lease T J g = (J', g', Ok c) →
  succeeded_cycles J' = succeeded_cycles J ∧
  ∀ s l, l ∈ commit_owns c s ↔ names s l (events_from (g_lsn g) (batch_writes o ms rs)).
Proof.
  intros Hroom. unfold upsert_batch_fenced_journaled. destruct (check_lease_current _ _ _); [|done].
  destruct (match cycle_journals J !! _ with Some _ => _ | None => _ end); [done|].
  rewrite upsert_batch_locked_spec by done. destruct (List.find _ rs); [done|]. intros [= <- _ <-]. split; [done|].
  intros s l. match goal with |- context [fenced_commit ?a ?b] => destruct (fenced_commit_owned a b) as [Em Er] end.
  destruct s as [id|id]; simpl; [rewrite Em, note_commits_elem|rewrite Er, note_commits_rel_elem];
    unfold owned_of; simpl; rewrite lookup_empty; set_solver.
Qed.

Lemma journaled_owns `{Blake3} o clk ms rs prepared cycle_id lease T J g J' g' c :
  room (length ms + 2 * length rs) g →
  upsert_batch_fenced_journaled o clk ms rs prepared cycle_id lease T J g = (J', g', Ok c) →
  g' = commit_writes (batch_writes o ms rs) g ∧ succeeded_cycles J' = succeeded_cycles J ∧
  (∃ j, get_active_cycle_journal (ol_key lease) J' = Ok (Some j)) ∧
  ∀ s l, (l ∈ journal_owns J' (ol_key lease) s ↔
            l ∈ journal_owns J (ol_key lease) s ∨ l ∈ restore_owns prepared s ∨ l ∈ commit_owns c s).
Proof.
  intros Hroom Hj. destruct (journaled_commit _ _ _ _ _ _ _ _ _ _ _ _ _ Hroom Hj) as [Hs Hc].
  destruct (journaled_inv _ _ _ _ _ _ _ _ _ _ _ _ _ Hroom Hj) as (-> & _ & (j & Hj' & Hact & _) & Hm & Hr).
  split_and!; [done|done| |].
  - exists j. unfold get_active_cycle_journal. rewrite Hj'. simpl. by rewrite bool_decide_eq_true_2.
  - intros s l. rewrite Hc. destruct s as [id|id]; simpl; [apply Hm|apply Hr].
Qed.
