(* ===== verification/DreamsSpec.v ===== *)
(** * What a Dreams cycle promises

    A cycle is a transaction over the rows of its region's lease: unless it settles, the logical rows - what
    a recovery leaves - are exactly what they were and what others wrote meanwhile, wherever it fails, is
    cancelled or is lost with its process; and the journal that a cycle leaves idle owns no row. *)

From stdpp Require Import pretty strings.
From S2P Require Import Prelude Ids Kernel Packs Ontology StorageTypes Graph Reads Leases Ingest Governed Cycles.
From S2P Require Import Storage Interleaving IngestCommit ShippedPacks EntityResolution Mcr2 Consolidation Discovery.
From S2P Require Import DreamsCycle DreamsInv.

(** ** Triples

    A program from [P] ends in [Q] of its value, or fails, is cancelled or lost in [E]. *)
Definition hoare {A} (P : Cycle → Prop) (m : M A) (Q : A → Cycle → Prop) (E : Cycle → Prop) : Prop :=
  ∀ c, P c → match m c with
             | (c, Done a) => Q a c
             | (_, Exhausted) => True
             | (c, _) => E c
             end.

Lemma hoare_ret {A} (P : Cycle → Prop) (a : A) Q E : (∀ c, P c → Q a c) → hoare P (ret a) Q E.
Proof. intros HQ c Hc. by apply HQ. Qed.
Lemma hoare_fail {A} (P : Cycle → Prop) e (Q : A → Cycle → Prop) (E : Cycle → Prop) :
  (∀ c, P c → E c) → hoare P (fail e) Q E.
Proof. intros HE c Hc. by apply HE. Qed.
Lemma hoare_bind {A B} P (m : M A) (k : A → M B) R Q E :
  hoare P m R E → (∀ a, hoare (R a) (k a) Q E) → hoare P (bind m k) Q E.
Proof.
  intros Hm Hk c Hc. unfold bind. specialize (Hm c Hc). destruct (m c) as [c' []]; try done. by apply Hk.
Qed.
Lemma hoare_consequence {A} P P' (m : M A) (Q Q' : A → Cycle → Prop) (E E' : Cycle → Prop) :
  hoare P m Q E → (∀ c, P' c → P c) → (∀ a c, Q a c → Q' a c) → (∀ c, E c → E' c) → hoare P' m Q' E'.
Proof. intros Hm HP HQ HE c Hc. specialize (Hm c (HP c Hc)). destruct (m c) as [c' []]; eauto. Qed.
Lemma hoare_attempt {A} P (m : M A) (Q : A → Cycle → Prop) E :
  hoare P m Q E → hoare P (attempt m) (λ r c, match r with Ok a => Q a c | Err _ => E c end) E.
Proof. intros Hm c Hc. unfold attempt. specialize (Hm c Hc). by destruct (m c) as [c' []]. Qed.
Lemma hoare_or_fail {A X} (P : Cycle → Prop) (f : X → DreamsError) (r : result A X) (Q : A → Cycle → Prop) (E : Cycle → Prop) :
  (∀ a, r = Ok a → ∀ c, P c → Q a c) → (∀ x, r = Err x → ∀ c, P c → E c) → hoare P (or_fail f r) Q E.
Proof. intros HQ HE. destruct r; [apply hoare_ret|apply hoare_fail]; eauto. Qed.

(** ** The invariant *)

(** The journal of [k] owns LSNs that were given out, and none of a row when it is idle. *)
Record sound (k : LeaseKey) (st : Store) : Prop := {
  so_graph : graph_ok (graph st);
  so_owned s l : l ∈ journal_owns (journals st) k s → l ≤ g_lsn (graph st);
  so_idle : get_active_cycle_journal k (journals st) = Ok None → ∀ s, logical k st s = rows (graph st) s;
}.

Section spec.
Context `{Blake3, Sha256, Bincode, HashOrder, DiscoveryJson, Ln}.
Context (o : Ontology) (script : nat → Event) (clock : nat → DateTime) (uuid : nat → string).
Context (k : LeaseKey) (base : Slot → list Write) (done_ : gmap (LeaseKey * string) string).
Implicit Types (c : Cycle) (st : Store).

Abbreviation call := (call script).

(** The logical rows are [base] and what others wrote. *)
Record tracks c : Prop := {
  tr_sound : sound k (cy_store c);
  tr_rows s : logical k (cy_store c) s = base s ++ of_slot s (cy_others c);
  tr_done : succeeded_cycles (journals (cy_store c)) = done_;
}.

(** The rows are the logical rows, whatever the journal says. *)
Definition clean c : Prop := ∀ s, logical k (cy_store c) s = rows (graph (cy_store c)) s.

(** Inside a cycle: its journal owns of the rows what the stored journal owns. *)
Record in_cycle (id : string) c : Prop := {
  ic_tracks : tracks c;
  ic_id : jr_cycle_id (cy_journal c) = id;
  ic_sub s : cycle_owns (cy_journal c) s ⊆ journal_owns (journals (cy_store c)) k s;
  ic_same s : without (cycle_owns (cy_journal c) s) (rows (graph (cy_store c)) s) = logical k (cy_store c) s;
}.

(** Others' rows are fresh: no journal owns them. *)
Lemma interfere_rows e c s :
  graph_ok (graph (cy_store c)) → room (length (ev_rows e)) (graph (cy_store c)) →
  rows (graph (cy_store (interfere e c))) s =
    rows (graph (cy_store c)) s ++ of_slot s (stamped_from (g_lsn (graph (cy_store c))) (ev_rows e)).
Proof. intros Hok Hr. destruct c as [st j l d n t os]. by apply rows_commit. Qed.

Lemma interfere_fields e c :
  journals (cy_store (interfere e c)) = journals (cy_store c) ∧ cy_journal (interfere e c) = cy_journal c ∧
  graph (cy_store (interfere e c)) = commit_writes (ev_rows e) (graph (cy_store c)) ∧
  cy_others (interfere e c) = cy_others c ++ stamped_from (g_lsn (graph (cy_store c))) (ev_rows e).
Proof. by destruct c. Qed.

Lemma interfere_without e c X s :
  graph_ok (graph (cy_store c)) → room (length (ev_rows e)) (graph (cy_store c)) →
  (∀ l, l ∈ X → l ≤ g_lsn (graph (cy_store c))) →
  without X (rows (graph (cy_store (interfere e c))) s) =
    without X (rows (graph (cy_store c)) s) ++ of_slot s (stamped_from (g_lsn (graph (cy_store c))) (ev_rows e)).
Proof.
  intros Hok Hr HX. rewrite interfere_rows, without_app by done. f_equal. apply without_keep.
  intros w Hw%of_slot_bound Hin%HX. lia.
Qed.

Lemma interfere_lsn e c :
  room (length (ev_rows e)) (graph (cy_store c)) →
  g_lsn (graph (cy_store (interfere e c))) = g_lsn (graph (cy_store c)) + Z.of_nat (length (ev_rows e)).
Proof. intros. destruct (interfere_fields e c) as (_ & _ & -> & _). by apply commit_writes_lsn. Qed.

Lemma interfere_logical e c s :
  sound k (cy_store c) → room (length (ev_rows e)) (graph (cy_store c)) →
  logical k (cy_store (interfere e c)) s =
    logical k (cy_store c) s ++ of_slot s (stamped_from (g_lsn (graph (cy_store c))) (ev_rows e)).
Proof.
  intros Hs Hr. unfold logical. destruct (interfere_fields e c) as (-> & _).
  apply interfere_without; [apply Hs|done|]. intros l. apply (so_owned _ _ Hs s).
Qed.

Lemma interfere_sound e c :
  sound k (cy_store c) → room (length (ev_rows e)) (graph (cy_store c)) → sound k (cy_store (interfere e c)).
Proof.
  intros Hs Hr. destruct (interfere_fields e c) as (EJ & _ & EG & _). split.
  - rewrite EG. apply commit_ok; [apply Hs|done].
  - intros s l. rewrite EJ, interfere_lsn by done. intros Hl%(so_owned _ _ Hs). lia.
  - intros Hidle s. rewrite EJ in Hidle. rewrite interfere_logical, interfere_rows by (done || apply Hs).
    by rewrite (so_idle _ _ Hs Hidle).
Qed.

Lemma interfere_tracks e c :
  tracks c → room (length (ev_rows e)) (graph (cy_store c)) → tracks (interfere e c).
Proof.
  intros [Hs Hl Hd] Hr. destruct (interfere_fields e c) as (EJ & _ & _ & EO). split.
  - by apply interfere_sound.
  - intros s. by rewrite interfere_logical, Hl, EO, of_slot_app, (assoc_L (++)).
  - by rewrite EJ.
Qed.

Lemma interfere_clean e c :
  tracks c → room (length (ev_rows e)) (graph (cy_store c)) → clean c → clean (interfere e c).
Proof.
  intros Ht Hr Hc s. rewrite interfere_logical, interfere_rows by (done || apply Ht). by rewrite Hc.
Qed.

Lemma interfere_in_cycle id e c :
  in_cycle id c → room (length (ev_rows e)) (graph (cy_store c)) → in_cycle id (interfere e c).
Proof.
  intros [Ht Hi Hsub Hsame] Hr. destruct (interfere_fields e c) as (EJ & Ej & EG & EO). split.
  - by apply interfere_tracks.
  - by rewrite Ej.
  - intros s. rewrite EJ, Ej. apply Hsub.
  - intros s. rewrite Ej, interfere_without, interfere_logical, Hsame; try done; [apply Ht..|].
    intros l Hl%Hsub. by apply (so_owned _ _ (tr_sound _ Ht) s).
Qed.

(** An invariant others' actions keep, that says nothing of the renewal, the calls and the leases. *)
Record stable (P : Cycle → Prop) : Prop := {
  st_interfere e c : P c → room (length (ev_rows e)) (graph (cy_store c)) → P (interfere e c);
  st_lost b c : P c → P (put_lost b c);
  st_tick c : P c → P (tick c);
  st_discoveries d c : P c → P (put_discoveries d c);
  st_lsn c : P c → 0 ≤ g_lsn (graph (cy_store c));
  st_quiet st c : P c → graph st = graph (cy_store c) → journals st = journals (cy_store c) → P (put_store st c);
}.

(** What a call must give. *)
Lemma hoare_call {A} (P : Cycle → Prop) mode n (op : (nat → DateTime) → Store → Store * A) (Q : A → Cycle → Prop)
    (E : Cycle → Prop) :
  stable P → (∀ c, P c → E c) →
  (∀ clk c st a, P c → room n (graph (cy_store c)) → op clk (cy_store c) = (st, a) → Q a (put_store st c)) →
  hoare P (call mode n op) Q E.
Proof.
  intros HP HE HQ c Hc. unfold DreamsCycle.call.
  destruct (Z.leb_spec (2 ^ 64) (g_lsn (graph (cy_store c)) + Z.of_nat (length (ev_rows (script (cy_calls c))) + n)));
    [done|].
  set (e := script (cy_calls c)) in *. pose proof (st_lsn P HP c Hc) as Hl0.
  assert (Hr : room (length (ev_rows e)) (graph (cy_store c))) by (split; lia).
  pose proof (st_interfere P HP e c Hc Hr) as Hi.
  assert (Hn : ∀ b, room n (graph (cy_store (put_lost b (interfere e c))))).
  { intros b. assert (E' : graph (cy_store (put_lost b (interfere e c))) = graph (cy_store (interfere e c)))
      by by destruct (interfere e c). rewrite E'. split; rewrite interfere_lsn by done; lia. }
  assert (Hrun : ∀ b, let c := put_lost b (interfere e c) in
            match (let '(st, a) := op (ev_clk e) (cy_store c) in (put_store st c, Done a)) with
            | (c, Done a) => Q a c | (_, Exhausted) => True | (c, _) => E c end).
  { intros b c'. destruct (op (ev_clk e) (cy_store c')) as [st a] eqn:Hop.
    eapply HQ; [by apply (st_lost P HP)|apply Hn|done]. }
  assert (Hsame : put_lost (cy_renewal_lost (interfere e c)) (interfere e c) = interfere e c) by by destruct (interfere e c).
  pose proof (Hrun (cy_renewal_lost (interfere e c))) as Hrun'. rewrite Hsame in Hrun'. cbv zeta in Hrun'.
  specialize (Hrun true). destruct (ev_fate e), mode; simpl; try (by apply HE);
    try (apply HE; by apply (st_lost P HP)); try exact Hrun'; try exact Hrun.
  destruct (cy_renewal_lost (interfere e c)); [by apply HE|exact Hrun'].
Qed.

(** A call that leaves graph and journals alone. *)
Definition quiet {A} (op : (nat → DateTime) → Store → Store * A) : Prop :=
  ∀ clk st, graph (op clk st).1 = graph st ∧ journals (op clk st).1 = journals st.

Lemma hoare_quiet {A} (P : Cycle → Prop) mode n (op : (nat → DateTime) → Store → Store * A) :
  stable P → quiet op → hoare P (call mode n op) (λ _, P) P.
Proof.
  intros HP Hq. apply hoare_call; [done..|]. intros clk c st a Hc _ Hop.
  destruct (Hq clk (cy_store c)) as [Hg Hj]. rewrite Hop in Hg, Hj. by apply (st_quiet P HP).
Qed.

(** ** Stability *)

Lemma same_logical st st' s :
  graph st = graph st' → journals st = journals st' → logical k st s = logical k st' s.
Proof. unfold logical. by intros -> ->. Qed.
Lemma same_sound st st' : graph st = graph st' → journals st = journals st' → sound k st' → sound k st.
Proof.
  intros Eg Ej [Hg Ho Hi]. split; rewrite ?Eg, ?Ej; [done..|].
  intros Hn s. rewrite (same_logical st st') by done. by apply Hi.
Qed.

Lemma stable_tracks : stable tracks.
Proof.
  split.
  - intros. by apply interfere_tracks.
  - intros b [st j l d n t os] [? ? ?]. by split.
  - intros [st j l d n t os] [? ? ?]. by split.
  - intros d' [st j l d n t os] [? ? ?]. by split.
  - intros c [[? _ _] _ _]. by apply ok_lsn.
  - intros st [st0 j l d n t os] [Hs Hr Hd] Eg Ej. simpl in *. split; simpl.
    + by apply (same_sound st st0).
    + intros s. rewrite (same_logical st st0) by done. apply Hr.
    + by rewrite Ej.
Qed.

(** Nothing is to be recovered. *)
Definition settled_rows c : Prop := tracks c ∧ clean c.

Lemma stable_settled : stable settled_rows.
Proof.
  split.
  - intros e c [Ht Hc] Hr. split; [by apply interfere_tracks|by apply interfere_clean].
  - intros b c [Ht Hc]. split; [by apply (st_lost _ stable_tracks)|by destruct c].
  - intros c [Ht Hc]. split; [by apply (st_tick _ stable_tracks)|by destruct c].
  - intros d c [Ht Hc]. split; [by apply (st_discoveries _ stable_tracks)|by destruct c].
  - intros c [Ht _]. by apply (st_lsn _ stable_tracks).
  - intros st c [Ht Hc] Eg Ej. split; [by apply (st_quiet _ stable_tracks)|].
    intros s. destruct c as [st0 j l d n t os]. simpl in *. rewrite (same_logical st st0), Eg by done. apply Hc.
Qed.

Lemma stable_in_cycle id : stable (in_cycle id).
Proof.
  split.
  - intros. by apply interfere_in_cycle.
  - intros b c [Ht ? ? ?]. split; [by apply (st_lost _ stable_tracks)|by destruct c..].
  - intros c [Ht ? ? ?]. split; [by apply (st_tick _ stable_tracks)|by destruct c..].
  - intros d c [Ht ? ? ?]. split; [by apply (st_discoveries _ stable_tracks)|by destruct c..].
  - intros c [Ht _ _ _]. by apply (st_lsn _ stable_tracks).
  - intros st c [Ht Hi Hsub Hs] Eg Ej. split; [by apply (st_quiet _ stable_tracks)|..];
      destruct c as [st0 j l d n t os]; simpl in *; [done|by rewrite Ej|].
    intros s. rewrite (same_logical st st0), Eg by done. apply Hs.
Qed.

(** ** Programs that keep an invariant *)

Definition keeps (P : Cycle → Prop) {A} (m : M A) : Prop := hoare P m (λ _, P) P.

Lemma keeps_ret P {A} (a : A) : keeps P (ret a).
Proof. by apply hoare_ret. Qed.
Lemma keeps_fail P {A} e : keeps P (fail (A:=A) e).
Proof. by apply hoare_fail. Qed.
Lemma keeps_bind P {A B} (m : M A) (f : A → M B) : keeps P m → (∀ a, keeps P (f a)) → keeps P (bind m f).
Proof. intros. by eapply hoare_bind. Qed.
Lemma keeps_or_fail P {A X} (f : X → DreamsError) (r : result A X) : keeps P (or_fail f r).
Proof. destruct r; [apply keeps_ret|apply keeps_fail]. Qed.
Lemma keeps_unwrap P {A} (x : option A) : keeps P (unwrap x).
Proof. destruct x; [apply keeps_ret|apply keeps_fail]. Qed.
Lemma keeps_now P : stable P → keeps P (now clock).
Proof. intros HP c Hc. by apply (st_tick P HP). Qed.
Lemma keeps_uuid P : stable P → keeps P (new_v4 uuid).
Proof. intros HP c Hc. by apply (st_tick P HP). Qed.
Lemma keeps_call P {A} mode n (op : (nat → DateTime) → Store → Store * A) :
  stable P → quiet op → keeps P (call mode n op).
Proof. apply hoare_quiet. Qed.

Lemma quiet_memories region limit : quiet (st_memories region limit).
Proof. done. Qed.
Lemma quiet_current region limit : quiet (st_current_relationships region limit).
Proof. done. Qed.
Lemma quiet_relationships region limit : quiet (st_relationships region limit).
Proof. done. Qed.
Lemma quiet_get_memory id : quiet (st_get_memory id).
Proof. done. Qed.
Lemma quiet_succeeded id lease : quiet (st_succeeded id lease).
Proof. done. Qed.
Lemma quiet_active key : quiet (st_active key).
Proof. done. Qed.
Lemma quiet_acquire key ttl : quiet (st_acquire key ttl).
Proof. intros clk st. unfold st_acquire. by destruct (acquire_lease _ _ _ _). Qed.
Lemma quiet_release lease : quiet (st_release lease).
Proof. done. Qed.

(** ** The journal inside a cycle *)

(** The journals differ in what they prepare only. *)
Definition same_owned (j j' : CycleJournal) : Prop :=
  jr_cycle_id j = jr_cycle_id j' ∧ jr_memory_lsns j = jr_memory_lsns j' ∧
  jr_relationship_lsns j = jr_relationship_lsns j'.

#[local] Instance same_owned_trans : RelationClasses.Transitive same_owned.
Proof. intros a b d (? & ? & ?) (? & ? & ?). split_and!; congruence. Qed.

Lemma same_record_memory m j : same_owned (record_memory m j) j.
Proof. destruct j. unfold record_memory. by case_bool_decide. Qed.
Lemma same_create_memory m j : same_owned (create_memory m j) j.
Proof. destruct j. unfold create_memory. by case_bool_decide. Qed.
Lemma same_record_relationship r j : same_owned (record_relationship r j) j.
Proof. destruct j. unfold record_relationship. by case_bool_decide. Qed.
Lemma same_create_relationship r j : same_owned (create_relationship r j) j.
Proof. destruct j. unfold create_relationship. by case_bool_decide. Qed.
Lemma same_prepare current r j : same_owned (prepare_relationship current r j) j.
Proof. unfold prepare_relationship. destruct (current !! r_id r); [apply same_record_relationship|apply same_create_relationship]. Qed.

Lemma same_foldl {X} (f : CycleJournal → X → CycleJournal) l j :
  (∀ j x, same_owned (f j x) j) → same_owned (foldl f j l) j.
Proof.
  intros Hf. revert j. induction l as [|x l IH]; intros j; simpl; [done|]. by etrans; [apply IH|].
Qed.
Lemma same_foldl_by {S X} (get : S → CycleJournal) (f : S → X → S) l s :
  (∀ s x, same_owned (get (f s x)) (get s)) → same_owned (get (foldl f s l)) (get s).
Proof.
  intros Hf. revert s. induction l as [|x l IH]; intros s; simpl; [done|]. by etrans; [apply IH|].
Qed.

Lemma same_prepare_writes writes current j : same_owned (prepare_relationship_writes writes current j) j.
Proof.
  unfold prepare_relationship_writes. apply (same_foldl_by snd). intros [seen j'] r. simpl.
  destruct (inverse_of r) as [inv|]; simpl; [case_bool_decide; simpl|].
  - apply same_prepare.
  - etrans; apply same_prepare.
  - apply same_prepare.
Qed.

Lemma same_merge_edge ws a b t s r : same_owned (mg_journal (merge_edge ws a b t s r)) (mg_journal s).
Proof.
  unfold merge_edge. case_bool_decide; simpl; [apply same_record_relationship|].
  destruct (ws_relationships ws !! _) as [x|]; [destruct (live_edge x)|]; simpl.
  - apply same_record_relationship.
  - etrans; apply same_record_relationship.
  - etrans; [apply same_create_relationship|apply same_record_relationship].
Qed.

Lemma same_plan_merge t cand ws j j' m rs ids :
  plan_merge t cand ws j = Some (j', m, rs, ids) → same_owned j' j.
Proof.
  unfold plan_merge. destruct (ws_memories ws !! mc_a cand); [|done]. destruct (ws_memories ws !! mc_b cand); [|done].
  destruct (live_memory _ && live_memory _); [|done]. intros [= <- _ _ _]. etrans; [apply same_prepare_writes|].
  etrans; [apply (same_foldl_by mg_journal); intros; apply same_merge_edge|]. apply same_record_memory.
Qed.

Lemma same_plan_strengthen t ids ws j : same_owned (plan_strengthen t ids ws j).1 j.
Proof.
  unfold plan_strengthen. simpl. etrans; [apply same_prepare_writes|].
  apply same_foldl. intros. apply same_record_relationship.
Qed.

Lemma same_fresh current edges acc : same_owned (foldl (fresh_edge current) acc edges).2 acc.2.
Proof.
  apply (same_foldl_by snd). intros [fresh j'] r. simpl. destruct (current !! r_id r) as [row|]; simpl.
  - destruct (live_edge row); simpl; [done|apply same_record_relationship].
  - apply same_create_relationship.
Qed.

Lemma same_plan_similar t survivors ws j : same_owned (plan_similar_edges t survivors ws j).1 j.
Proof.
  unfold plan_similar_edges. destruct similar_to_kind as [kind|]; simpl; [|done].
  pose proof (same_fresh (ws_relationships ws) (omap (similar_edge t kind) (ordered_pairs survivors)) ([], j)) as Hs.
  destruct (foldl _ _ _) as [fresh j']. simpl in *. destruct fresh; [done|]. etrans; [apply same_prepare_writes|done].
Qed.

Definition holding (id : string) (j : CycleJournal) c : Prop := in_cycle id c ∧ cy_journal c = j.

Lemma stable_holding id j : stable (holding id j).
Proof.
  pose proof (stable_in_cycle id) as HP. split.
  - intros e c [Hc Hj] Hr. split; [by apply (st_interfere _ HP)|]. by destruct (interfere_fields e c) as (_ & -> & _).
  - intros b c [Hc Hj]. split; [by apply (st_lost _ HP)|by destruct c].
  - intros c [Hc Hj]. split; [by apply (st_tick _ HP)|by destruct c].
  - intros d c [Hc Hj]. split; [by apply (st_discoveries _ HP)|by destruct c].
  - intros c [Hc _]. by apply (st_lsn _ HP).
  - intros st c [Hc Hj] Eg Ej. split; [by apply (st_quiet _ HP)|by destruct c].
Qed.

Lemma hoare_journal {A} id (f : CycleJournal → M A) Q E :
  (∀ j, hoare (holding id j) (f j) Q E) → hoare (in_cycle id) (bind get_journal f) Q E.
Proof. intros Hf. eapply hoare_bind; [|exact Hf]. intros c Hc. by split. Qed.

Lemma in_cycle_journal id j c :
  in_cycle id c → same_owned j (cy_journal c) → in_cycle id (put_journal j c).
Proof.
  intros [[Hs Hr Hd] Hi Hsub Hsame] (E1 & E2 & E3).
  assert (Ho : ∀ s, cycle_owns j s = cycle_owns (cy_journal c) s).
  { intros [x|x]; unfold cycle_owns; simpl; [by rewrite E2|by rewrite E3]. }
  destruct c as [st j0 l d n t os]. simpl in *. split; simpl; [by split|congruence|..]; intros s; rewrite Ho; [apply Hsub|apply Hsame].
Qed.

Lemma hoare_set_journal id j j' : same_owned j' j → hoare (holding id j) (set_journal_to j') (λ _, in_cycle id) (in_cycle id).
Proof. intros Hs c [Hc <-]. by apply in_cycle_journal. Qed.

(** ** A batch of the cycle *)

Lemma extend_lsns_owned {K} `{Countable K} (a b : lsn_map K) x l :
  l ∈ owned_of (extend_lsns a b) x ↔ l ∈ owned_of a x ∨ l ∈ owned_of b x.
Proof. rewrite owned_extend_lsns. set_solver. Qed.

Lemma record_commit_owns commit j s l :
  l ∈ cycle_owns (record_commit commit j) s ↔ l ∈ cycle_owns j s ∨ l ∈ commit_owns commit s.
Proof. destruct j, s; apply extend_lsns_owned. Qed.

Lemma batch_in_cycle id j commit ms rs lease clk c st :
  ol_key lease = k → holding id j c → room (length ms + 2 * length rs) (graph (cy_store c)) →
  st_batch o ms rs (journal_restore j) (jr_cycle_id j) lease clk (cy_store c) = (st, Ok commit) →
  in_cycle id (put_journal (record_commit commit j) (put_store st c)).
Proof.
  intros Hk [[[Hs Hr Hd] Hi Hsub Hsame] Hj] Hroom. unfold st_batch.
  destruct (upsert_batch_fenced_journaled _ _ _ _ _ _ _ _ _ _) as [[J' g'] r] eqn:Hb. intros [= <- ->].
  destruct (journaled_owns _ _ _ _ _ _ _ _ _ _ _ _ _ Hroom Hb) as (-> & Hsucc & [ja Hact] & Hown). rewrite Hk in *.
  set (g := graph (cy_store c)) in *. set (J := journals (cy_store c)) in *.
  set (ws := batch_writes o ms rs) in *.
  assert (Hws : room (length ws) g) by (eapply room_le; [apply length_batch_writes|done]).
  assert (Hcom : ∀ s l, l ∈ commit_owns commit s ↔
            ∃ w, w ∈ of_slot s (stamped_from (g_lsn g) ws) ∧ row_stamp w = l).
  { intros s l. destruct (journaled_commit _ _ _ _ _ _ _ _ _ _ _ _ _ Hroom Hb) as [_ ->]. apply names_events. }
  assert (Hnew : ∀ s l, l ∈ commit_owns commit s → g_lsn g < l ≤ g_lsn g + Z.of_nat (length ws)).
  { intros s l (w & Hw & <-)%Hcom. by apply of_slot_bound in Hw. }
  assert (Hgone : ∀ X s, (∀ l, l ∈ commit_owns commit s → l ∈ X) →
            without X (rows (commit_writes ws g) s) = without X (rows g s)).
  { intros X s HX. rewrite rows_commit, without_app by done. rewrite (without_drop X (of_slot _ _)), app_nil_r; [done|].
    intros w Hw. apply HX, Hcom. by exists w. }
  assert (Hold : ∀ X Y s, (∀ l, l ∈ Y ↔ l ∈ X ∨ l ∈ commit_owns commit s) →
            without Y (rows (commit_writes ws g) s) = without X (rows g s)).
  { intros X Y s HY. rewrite Hgone by (intros l Hl; apply HY; by right). apply without_ext. intros w Hw. rewrite HY.
    split; [|by left]. intros [?|Hin%Hnew]; [done|]. apply (rows_bound g s) in Hw; [lia|apply Hs]. }
  assert (HJ : ∀ s l, l ∈ journal_owns J' k s ↔ l ∈ journal_owns J k s ∨ l ∈ commit_owns commit s).
  { intros s l. rewrite Hown. split; [|naive_solver]. intros [?|[Hin|?]]; [by left| |by right].
    left. apply (Hsub s). by rewrite Hj. }
  assert (Hlog : ∀ s, without (journal_owns J' k s) (rows (commit_writes ws g) s) = logical k (cy_store c) s)
    by (intros s; by apply Hold).
  destruct c as [st0 j0 l0 d0 n0 t0 os0]. simpl in *. subst j0. split; simpl; [split; simpl; [split; simpl|..]|..].
  - by apply commit_ok; [apply Hs|].
  - intros s l. rewrite HJ, commit_writes_lsn by done. intros [Hl%(so_owned _ _ Hs)|Hl%Hnew]; subst g; simpl in *; lia.
  - intros Hidle. by rewrite Hidle in Hact.
  - intros s. unfold logical. simpl. rewrite Hlog. apply Hr.
  - by rewrite Hsucc.
  - by destruct j.
  - intros s l. rewrite record_commit_owns, HJ. intros [Hl|Hl]; [left; by apply Hsub|by right].
  - intros s. unfold logical. simpl. rewrite Hlog, <-Hsame. apply Hold. intros l. apply record_commit_owns.
Qed.

Lemma keeps_commit_batch id ms rs lease : ol_key lease = k → keeps (in_cycle id) (commit_batch o script ms rs lease).
Proof.
  intros Hk. unfold commit_batch. apply hoare_journal. intros j.
  eapply (hoare_bind _ _ _ (λ r c, match r with
    | Ok commit => in_cycle id (put_journal (record_commit commit j) c) | Err _ => in_cycle id c end)).
  - apply hoare_call; [apply stable_holding|by intros c []|]. intros clk c st r Hc Hroom Hop.
    destruct r as [commit|e]; [by eapply batch_in_cycle|]. unfold st_batch in Hop.
    destruct (upsert_batch_fenced_journaled _ _ _ _ _ _ _ _ _ _) as [[J' g'] r] eqn:Hb. injection Hop as <- ->.
    apply journaled_fails in Hb as [-> ->]. by apply (st_quiet _ (stable_in_cycle id)); [apply Hc|..].
  - intros r. eapply (hoare_bind _ _ _ (λ commit c, in_cycle id (put_journal (record_commit commit j) c))).
    + apply hoare_or_fail; by intros a ->.
    + intros commit c Hc. exact Hc.
Qed.

(** ** Rollback and recovery *)

Lemma stable_journals P (R : Journals → Prop) : stable P → stable (λ c, P c ∧ R (journals (cy_store c))).
Proof.
  intros HP. split.
  - intros e c [Hc HR] Hr. split; [by apply (st_interfere _ HP)|]. by destruct (interfere_fields e c) as (-> & _).
  - intros b c [Hc HR]. split; [by apply (st_lost _ HP)|by destruct c].
  - intros c [Hc HR]. split; [by apply (st_tick _ HP)|by destruct c].
  - intros d c [Hc HR]. split; [by apply (st_discoveries _ HP)|by destruct c].
  - intros c [Hc _]. by apply (st_lsn _ HP).
  - intros st c [Hc HR] Eg Ej. split; [by apply (st_quiet _ HP)|]. destruct c. simpl in *. by rewrite Ej.
Qed.

(** A rollback that removes what the journal owns leaves the logical rows. *)
Lemma restore_tracks rst lease clk c st records :
  tracks c → room (size (owned_memory_lsns rst) + size (owned_relationship_lsns rst)) (graph (cy_store c)) →
  (∀ s, without (restore_owns rst s) (rows (graph (cy_store c)) s) = logical k (cy_store c) s) →
  st_restore rst lease clk (cy_store c) = (st, Ok records) →
  settled_rows (put_store st c) ∧ journals st = journals (cy_store c) ∧
  (∀ s, rows (graph st) s = logical k (cy_store c) s).
Proof.
  intros [Hs Hr Hd] Hroom Hw. unfold st_restore. destruct (restore_fenced _ _ _ _ _) as [g' r] eqn:Hres.
  intros [= <- ->]. destruct (restore_ok _ _ _ _ _ _ _ (so_graph _ _ Hs) Hroom Hres) as [Hok Hle].
  assert (Hrows : ∀ s, rows g' s = logical k (cy_store c) s).
  { intros s. rewrite <-Hw. eapply restore_rows; [apply Hs|done]. }
  assert (Hlog : ∀ s, logical k (put_graph g' (cy_store c)) s = logical k (cy_store c) s).
  { intros s. unfold logical. simpl. rewrite Hrows. unfold logical. apply without_twice. }
  destruct c as [st0 j l d n t os]. simpl in *. split_and!; [|done|done]. split; [split; simpl; [split; simpl|..]|].
  - done.
  - intros s l'. intros Hl%(so_owned _ _ Hs). lia.
  - intros _ s. by rewrite Hlog.
  - intros s. by rewrite Hlog.
  - done.
  - intros s. simpl. by rewrite Hlog.
Qed.

Lemma restore_fails rst lease clk st st' e : st_restore rst lease clk st = (st', Err e) → graph st' = graph st ∧ journals st' = journals st.
Proof.
  unfold st_restore, restore_fenced. destruct (check_lease_current _ _ _).
  - by destruct (restore_locked _ _ _) as [[? ?] ?].
  - by intros [= <- _].
Qed.

Lemma complete_owns id lease now T J J' r :
  ol_key lease = k → complete_cycle_journal_fenced now id lease T J = (J', r) →
  (∀ s, journal_owns J' k s = journal_owns J k s) ∧ succeeded_cycles J' = succeeded_cycles J.
Proof.
  intros Hk. unfold complete_cycle_journal_fenced. destruct (check_lease_current _ _ _); [|by intros [= <- _]].
  rewrite Hk. destruct (cycle_journals J !! k) as [jj|] eqn:Hj; [|by intros [= <- _]].
  destruct (negb _); intros [= <- _]; split; try done. intros [x|x]; simpl; unfold journal_memory_lsns, journal_rel_lsns; simpl;
    by rewrite lookup_insert_eq, Hj.
Qed.

Lemma keeps_complete mode id lease : ol_key lease = k → keeps settled_rows (call mode 0 (st_complete id lease)).
Proof.
  intros Hk. apply hoare_call; [apply stable_settled|done|]. intros clk c st r [[Hs Hr Hd] Hc] _. unfold st_complete.
  destruct (complete_cycle_journal_fenced _ _ _ _ _) as [J' r'] eqn:Hcomp. intros [= <- ->].
  destruct (complete_owns _ _ _ _ _ _ _ Hk Hcomp) as [Ho Hd'].
  assert (Hlog : ∀ s, logical k (put_journals J' (cy_store c)) s = logical k (cy_store c) s)
    by (intros s; unfold logical; simpl; by rewrite Ho).
  destruct c as [st0 j l d n t os]. simpl in *. split; [split; simpl; [split; simpl|..]|].
  - apply Hs.
  - intros s l'. rewrite Ho. apply (so_owned _ _ Hs).
  - intros _ s. rewrite Hlog. apply Hc.
  - intros s. by rewrite Hlog.
  - by rewrite Hd'.
  - intros s. simpl. by rewrite Hlog.
Qed.

Lemma recover_settles lease :
  ol_key lease = k → hoare tracks (recover_active_cycle script k lease) (λ _, settled_rows) tracks.
Proof.
  intros Hk. unfold recover_active_cycle.
  eapply (hoare_bind _ _ _ (λ r c, tracks c ∧ r = get_active_cycle_journal k (journals (cy_store c)))).
  { apply hoare_call; [apply stable_tracks|done|]. intros clk c st r Hc _ [= <- <-]. by destruct c. }
  intros r. eapply (hoare_bind _ _ _ (λ a c, tracks c ∧ Ok a = get_active_cycle_journal k (journals (cy_store c)))).
  { apply hoare_or_fail; [by intros a ->|by intros e _ c [? _]]. }
  intros [active|].
  2: { apply hoare_ret. intros c [Hc Ha]. split; [done|]. intros s. by apply (so_idle _ _ (tr_sound _ Hc)). }
  eapply (hoare_bind _ _ _ (λ r c, match r with Ok _ => settled_rows c | Err _ => tracks c end)).
  - apply hoare_call; [apply (stable_journals tracks (λ J, Ok (Some active) = get_active_cycle_journal k J)), stable_tracks
                      |by intros c []|].
    intros clk c st r' [Hc Ha] Hroom Hop. destruct r' as [records|e].
    + eapply restore_tracks; [done..| |done]. intros s. unfold logical. apply without_ext. intros w _.
      unfold get_active_cycle_journal in Ha. unfold journal_owns, journal_memory_lsns, journal_rel_lsns.
      destruct (cycle_journals _ !! k) as [jj|]; [|done]. simpl in Ha. case_bool_decide; [|done].
      injection Ha as ->. by destruct s.
    + apply restore_fails in Hop as [Eg Ej]. by apply (st_quiet _ stable_tracks).
  - intros r'. eapply (hoare_bind _ _ _ (λ _, settled_rows)).
    { apply hoare_or_fail; by intros a ->. }
    intros _. eapply (hoare_bind _ _ _ (λ _, settled_rows)).
    { eapply hoare_consequence; [by apply keeps_complete|done|done|by intros c []]. }
    intros r''. apply hoare_or_fail; [done|by intros e _ c []].
Qed.

Lemma rollback_settles id mode lease :
  hoare (in_cycle id) (rollback script mode lease) (λ _ c, in_cycle id c ∧ clean c) (in_cycle id).
Proof.
  unfold rollback. apply hoare_journal. intros j.
  eapply (hoare_bind _ _ _ (λ r c, in_cycle id c ∧ (is_ok r = true → clean c))).
  - apply hoare_call; [apply stable_holding|by intros c []|]. intros clk c st r [Hc Hj] Hroom Hop.
    destruct r as [records|e].
    + destruct (restore_tracks (journal_restore j) lease clk c st records (ic_tracks _ _ Hc) Hroom ltac:(intros s; rewrite <-(ic_same _ _ Hc), Hj; done) Hop)
        as ([Ht Hcl] & Ej & Hrows).
      split; [|done]. split; [done| | |]; destruct c as [st0 j0 l d n t os]; simpl in *.
      * apply (ic_id _ _ Hc).
      * intros s. rewrite Ej. apply (ic_sub _ _ Hc).
      * intros s. specialize (Hcl s). pose proof (ic_same _ _ Hc s) as Hsame. simpl in *.
        by rewrite Hcl, (Hrows s), <-Hsame, without_twice.
    + apply restore_fails in Hop as [Eg Ej]. split; [|done]. by apply (st_quiet _ (stable_in_cycle id)).
  - intros r. eapply (hoare_bind _ _ _ (λ _ c, in_cycle id c ∧ clean c)).
    + apply hoare_or_fail; [by intros a -> c [? ?]; eauto|by intros e _ c []].
    + intros _. by apply hoare_ret.
Qed.

(** ** The actions *)

Lemma keeps_set_plan id j j' (m : M unit) {A} (f : unit → M A) :
  m = set_journal_to j' → same_owned j' j → (∀ u, keeps (in_cycle id) (f u)) →
  hoare (holding id j) (bind m f) (λ _, in_cycle id) (in_cycle id).
Proof. intros -> Hs Hf. eapply hoare_bind; [by apply hoare_set_journal|exact Hf]. Qed.

Lemma keeps_held id j {A} (m : M A) : keeps (in_cycle id) m → hoare (holding id j) m (λ _, in_cycle id) (in_cycle id).
Proof. intros Hm. eapply hoare_consequence; [exact Hm|by intros c []|done..]. Qed.

Lemma keeps_merge id cand lease p : ol_key lease = k → keeps (in_cycle id) (merge o script clock cand lease p).
Proof.
  intros Hk. unfold merge. apply keeps_bind; [apply keeps_now, stable_in_cycle|intros t]. apply hoare_journal. intros j.
  destruct (plan_merge t cand (pg_set p) j) as [[[[j' m] updates] ids]|] eqn:Hp; [|apply keeps_held, keeps_ret].
  eapply keeps_set_plan; [done|by eapply same_plan_merge|]. intros _.
  apply keeps_bind; [by apply keeps_commit_batch|intros; apply keeps_ret].
Qed.

Lemma keeps_merge_all id cands lease p : ol_key lease = k → keeps (in_cycle id) (merge_all o script clock cands lease p).
Proof.
  intros Hk. revert p. induction cands as [|cand cands IH]; intros p; simpl; [apply keeps_ret|].
  destruct (f32_ge _ _); [|apply IH]. apply keeps_bind; [by apply keeps_merge|apply IH].
Qed.

Lemma keeps_write_edges id rs lease ws : ol_key lease = k → keeps (in_cycle id) (write_edges o script rs lease ws).
Proof.
  intros Hk. destruct rs; [apply keeps_ret|]. apply keeps_bind; [by apply keeps_commit_batch|intros; apply keeps_ret].
Qed.

Lemma keeps_strengthen id lease ws : ol_key lease = k → keeps (in_cycle id) (strengthen o script clock lease ws).
Proof.
  intros Hk. unfold strengthen. apply keeps_bind; [apply keeps_now, stable_in_cycle|intros t]. apply hoare_journal. intros j.
  eapply keeps_set_plan; [done|apply same_plan_strengthen|]. intros _. by apply keeps_write_edges.
Qed.

Lemma keeps_similar id survivors lease ws :
  ol_key lease = k → keeps (in_cycle id) (write_similar_edges o script clock survivors lease ws).
Proof.
  intros Hk. unfold write_similar_edges. apply keeps_bind; [apply keeps_now, stable_in_cycle|intros t].
  apply hoare_journal. intros j. eapply keeps_set_plan; [done|apply same_plan_similar|]. intros _. by apply keeps_write_edges.
Qed.

Lemma keeps_abstract_group id t carrier kind ws members :
  keeps (in_cycle id) (abstract_group script t carrier kind ws members).
Proof.
  unfold abstract_group. destruct members as [|first members]; [apply keeps_ret|].
  destruct (_ <? _)%nat; [apply keeps_ret|]. cbv zeta. case_bool_decide; [apply keeps_ret|].
  apply keeps_bind; [apply keeps_call; [apply stable_in_cycle|apply quiet_get_memory]|intros r].
  apply keeps_bind; [apply keeps_or_fail|intros stored]. destruct stored; [apply keeps_ret|].
  destruct (abstraction_row _ _ _ _ _) as [row|]; [|apply keeps_ret]. apply hoare_journal. intros j.
  eapply keeps_set_plan; [done| |intros; apply keeps_ret]. etrans; [apply same_foldl|apply same_create_memory].
  intros. apply same_create_relationship.
Qed.

Lemma keeps_abstract_groups id t carrier kind ws gs :
  keeps (in_cycle id) (abstract_groups script t carrier kind ws gs).
Proof.
  induction gs as [|g gs IH]; [apply keeps_ret|]. simpl.
  apply keeps_bind; [apply keeps_abstract_group|intros [[x ms] rs]].
  apply keeps_bind; [exact IH|intros [[ids ms'] rs']; apply keeps_ret].
Qed.

Lemma keeps_abstractions id anchors lease p :
  ol_key lease = k → keeps (in_cycle id) (write_abstractions o script clock anchors lease p).
Proof.
  intros Hk. unfold write_abstractions.
  destruct abstraction_carrier_type as [carrier|]; [|apply keeps_ret]. cbn [from_option].
  destruct summarizes_kind as [kind|]; [|apply keeps_ret]. cbn [from_option].
  apply keeps_bind; [apply keeps_now, stable_in_cycle|intros t]. cbv zeta.
  apply keeps_bind; [apply keeps_abstract_groups|intros [[ids ms] rs]].
  assert (Hwrite : ∀ x, keeps (in_cycle id) (bind get_journal (λ j,
            set_journal_to (prepare_relationship_writes rs (ws_relationships (pg_set p)) j) ;;;
            commit_batch o script ms rs lease ;;; ret (A:=Progress) x))).
  { intros x. apply hoare_journal. intros j. eapply keeps_set_plan; [done|apply same_prepare_writes|]. intros _.
    apply keeps_bind; [by apply keeps_commit_batch|intros; apply keeps_ret]. }
  destruct ms; [destruct rs; [apply keeps_ret|]|]; apply Hwrite.
Qed.

Lemma keeps_score P anchors : stable P → keeps P (score_with clock anchors).
Proof. intros HP. apply keeps_bind; [by apply keeps_now|intros; apply keeps_unwrap]. Qed.

Lemma keeps_consolidate en id lease region ws :
  ol_key lease = k → keeps (in_cycle id) (consolidate_under_tracked o script clock uuid en lease region ws).
Proof.
  intros Hk. pose proof (stable_in_cycle id) as HP. unfold consolidate_under_tracked.
  apply keeps_bind; [by apply keeps_now|intros t]. apply keeps_bind; [by apply keeps_score|intros before].
  destruct before as [before|[]]; [|apply keeps_fail| |apply keeps_fail].
  2: { apply keeps_bind; [|intros; apply keeps_ret]. unfold empty_result.
       repeat (apply keeps_bind; [first [by apply keeps_now|by apply keeps_uuid]|intros ?]). apply keeps_ret. }
  apply keeps_bind; [by apply keeps_now|intros t1]. apply hoare_journal. intros j. apply keeps_held.
  apply keeps_bind; [by apply keeps_now|intros started]. apply keeps_bind; [by apply keeps_now|intros _].
  apply keeps_bind; [by apply keeps_merge_all|intros p]. apply keeps_bind; [by apply keeps_abstractions|intros p'].
  apply keeps_bind; [by apply keeps_strengthen|intros [ws1 str]]. apply keeps_bind; [by apply keeps_similar|intros [ws2 sim]].
  apply keeps_bind; [by apply keeps_score|intros after].
  apply keeps_bind; [destruct after as [|[]]; first [apply keeps_ret|apply keeps_fail]|intros after'].
  apply keeps_bind; [by apply keeps_now|intros t2]. apply keeps_bind; [by apply keeps_now|intros completed].
  apply keeps_bind; [|intros; apply keeps_ret]. destruct (_ && _); [|apply keeps_ret].
  eapply hoare_consequence; [apply rollback_settles|done|by intros _ c []|done].
Qed.

(** A failed cycle is rolled back, or its journal is left to a successor. *)
Lemma finish_settles id outcome lease :
  ol_key lease = k →
  hoare (in_cycle id) (finish_cycle script outcome lease) (λ res c, outcome = Ok res ∧ in_cycle id c) tracks.
Proof.
  intros Hk. unfold finish_cycle. destruct outcome as [res|e]; [by apply hoare_ret|].
  apply hoare_journal. intros j. destruct (journal_is_empty j); [apply hoare_fail; by intros c [[] _]|].
  eapply hoare_bind.
  { eapply hoare_consequence; [apply hoare_attempt, rollback_settles|by intros c []| |by intros c []].
    intros r c Hr. exact Hr. }
  intros r. cbv beta. eapply (hoare_bind _ _ _ (λ _, settled_rows)).
  { apply hoare_or_fail; [by intros a -> c [[] ?]|by intros x -> c []]. }
  intros _. eapply hoare_bind; [eapply hoare_consequence; [by apply keeps_complete|done|intros a c Hc; exact Hc|by intros c []]|].
  intros r'. eapply (hoare_bind _ _ _ (λ _, settled_rows)); [apply hoare_or_fail; [done|by intros x _ c []]|].
  intros _. apply hoare_fail. by intros c [].
Qed.

(** ** Settlement *)

(** The cycle [id] is settled: every row is a logical one, and what was there and what others wrote is
    among them, in order. *)
Record settled (id : string) c : Prop := {
  se_sound : sound k (cy_store c);
  se_rows s : base s ++ of_slot s (cy_others c) `sublist_of` rows (graph (cy_store c)) s;
  se_idle : get_active_cycle_journal k (journals (cy_store c)) = Ok None;
  se_done : ∃ digest, succeeded_cycles (journals (cy_store c)) = <[(k, id) := digest]> done_;
}.

Lemma stable_settlement id : stable (settled id).
Proof.
  split.
  - intros e c [Hs Hr Hi Hd] Hroom. destruct (interfere_fields e c) as (EJ & _ & _ & EO). split; rewrite ?EJ; try done.
    + by apply interfere_sound.
    + intros s. rewrite EO, of_slot_app, (assoc_L (++)), interfere_rows by (done || apply Hs). by apply sublist_app.
  - intros b [st j l d n t os] [? ? ? ?]. by split.
  - intros [st j l d n t os] [? ? ? ?]. by split.
  - intros d' [st j l d n t os] [? ? ? ?]. by split.
  - intros c [[? _ _] _ _ _]. by apply ok_lsn.
  - intros st [st0 j l d n t os] [Hs Hr Hi Hd] Eg Ej. simpl in *. split; simpl; rewrite ?Ej, ?Eg; try done.
    by apply (same_sound st st0).
Qed.

Lemma settle_changes now id digest records lease T J d g J' d' g' invs :
  room (length records) g → ol_key lease = k → succeeded_cycles J !! (k, id) = None → graph_ok g →
  settle_locked now id digest records lease T J d g = (J', d', g', Ok invs) →
  graph_ok g' ∧ g_lsn g ≤ g_lsn g' ∧ (∀ s, rows g' s = rows g s) ∧ (∀ s, journal_owns J' k s = ∅) ∧
  get_active_cycle_journal k J' = Ok None ∧ succeeded_cycles J' = <[(k, id) := digest]> (succeeded_cycles J).
Proof.
  intros [Hl Hr] Hk Hnone Hok Hsettle.
  pose proof (gs_settle false now id digest records lease T J d g (conj Hl Hr)) as Hsteps. rewrite Hsettle in Hsteps.
  apply gsteps_ok in Hsteps; [|done]. simpl in Hsteps.
  revert Hsettle. unfold settle_locked. destruct (check_lease_current _ _ _); [|done]. rewrite Hk, Hnone.
  destruct (match cycle_journals J !! k with Some _ => _ | None => _ end); [done|].
  destruct (existsb _ records); [done|]. destruct (foldl settle_record _ records) as [[ds l] invs'] eqn:Hf.
  intros [= <- <- <- <-]. apply settle_fold in Hf as (Hll & _); [|done..]. split_and!; [done|simpl; lia|by intros []| | |done].
  - intros [x|x]; simpl; unfold journal_memory_lsns, journal_rel_lsns; simpl; by rewrite lookup_insert_eq.
  - unfold get_active_cycle_journal. simpl. by rewrite lookup_insert_eq.
Qed.

Lemma settle_settles id records lease clk c st r :
  ol_key lease = k → done_ !! (k, id) = None → in_cycle id c → room (length records) (graph (cy_store c)) →
  st_settle id records lease clk (cy_store c) = (st, r) →
  match r with Ok _ => settled id (put_store st c) | Err _ => tracks (put_store st c) end.
Proof.
  intros Hk Hnone Hc Hroom. unfold st_settle, settle_dreams_cycle_fenced.
  assert (Hfail : ∀ d, tracks (put_store (put_graph (graph (cy_store c)) (put_governed d (put_journals (journals (cy_store c))
            (cy_store c)))) c)) by (intros d; apply (st_quiet _ stable_tracks); [apply Hc|done..]).
  destruct (dreams_settlement_effect_digest records) as [digest|e]; [|intros [= <- <-]; apply Hfail].
  destruct (settle_locked _ _ _ _ _ _ _ _ _) as [[[J' d'] g'] r'] eqn:Hs. destruct r' as [invs|e].
  - intros [= <- <-]. destruct Hc as [[Hsd Hr Hd] _ _ _]. rewrite <-Hd in Hnone.
    destruct (settle_changes _ _ _ _ _ _ _ _ _ _ _ _ _ Hroom Hk Hnone (so_graph _ _ Hsd) Hs)
      as (Hok & Hle & Hrows & Hown & Hidle & Hdone).
    destruct (publish_fields invs g') as (_ & _ & El & _). destruct c as [st0 j l d n t os]. simpl in *.
    split; simpl; [split; simpl|..].
    + eapply graph_steps_ok; [apply publish_steps|done].
    + intros s l'. rewrite Hown. set_solver.
    + intros _ s. unfold logical. simpl. rewrite Hown. apply without_empty.
    + intros s. rewrite rows_publish, Hrows, <-Hr. apply without_sublist.
    + done.
    + exists digest. by rewrite Hdone, Hd.
  - intros [= <- <-]. assert (J' = journals (cy_store c) ∧ g' = graph (cy_store c)) as [-> ->]; [|apply Hfail].
    revert Hs. unfold settle_locked. destruct (check_lease_current _ _ _); [|by intros [= <- _ <- _]].
    destruct (succeeded_cycles _ !! _); [destruct (String.eqb _ _); by intros [= <- _ <- _]|].
    destruct (match cycle_journals _ !! _ with Some _ => _ | None => _ end); [by intros [= <- _ <- _]|].
    destruct (existsb _ records); [by intros [= <- _ <- _]|]. by destruct (foldl _ _ _) as [[? ?] ?].
Qed.

Lemma keeps_propose_all P kind id l : stable P → keeps P (propose_all clock uuid kind id l).
Proof.
  intros HP. induction l as [|[ends via] l IH]; simpl; [apply keeps_ret|].
  apply keeps_bind; [|intros d; apply keeps_bind; [exact IH|intros; apply keeps_ret]].
  apply keeps_bind; [by apply keeps_uuid|intros]. apply keeps_bind; [by apply keeps_now|intros; apply keeps_ret].
Qed.

Lemma keeps_cross P region id ws : stable P → keeps P (cross_domain_candidates script clock uuid region id ws).
Proof.
  intros HP. unfold cross_domain_candidates. apply keeps_bind; [|intros; by apply keeps_propose_all].
  destruct ws; [apply keeps_ret|]. apply keeps_bind; [by apply keeps_call; [|apply quiet_memories]|intros; apply keeps_or_fail].
Qed.

Lemma discovery_settles id region lease ws :
  ol_key lease = k → done_ !! (k, id) = None →
  hoare (in_cycle id) (run_discovery_fenced script clock uuid region lease (Some id) ws) (λ _, settled id) tracks.
Proof.
  intros Hk Hnone. pose proof (stable_in_cycle id) as HP. unfold run_discovery_fenced.
  assert (Hkeep : ∀ {A} (m : M A), keeps (in_cycle id) m → hoare (in_cycle id) m (λ _, in_cycle id) tracks)
    by (intros A m Hm; eapply hoare_consequence; [exact Hm|done|done|by intros c []]).
  eapply hoare_bind; [apply Hkeep, keeps_call; [done|apply quiet_relationships]|intros r].
  eapply hoare_bind; [apply Hkeep, keeps_or_fail|intros rels]. cbv zeta.
  eapply hoare_bind; [apply Hkeep, keeps_ret|intros cycle].
  eapply hoare_bind; [by apply Hkeep, keeps_propose_all|intros two]. 
  eapply hoare_bind; [by apply Hkeep, keeps_cross|intros across].
  eapply (hoare_bind _ _ _ (λ _, settled id)).
  - eapply (hoare_bind _ _ _ (λ r c, match r with Ok _ => settled id c | Err _ => tracks c end)).
    + apply hoare_call; [done|by intros c []|]. intros clk c st r' Hc Hroom Hop. by eapply settle_settles.
    + intros r'. apply hoare_or_fail; by intros a ->.
  - intros _ c Hc. by apply (st_discoveries _ (stable_settlement id)).
Qed.

(** ** A cycle from its working set *)

Lemma run_cycle_settles en region lease id ws :
  ol_key lease = k → done_ !! (k, id) = None →
  hoare settled_rows (run_cycle o script clock uuid en region lease id ws)
    (λ r c, match r with Ok _ => settled id c | Err _ => tracks c end) tracks.
Proof.
  intros Hk Hnone. unfold run_cycle.
  eapply (hoare_bind _ _ _ (λ _, settled_rows)).
  { intros c Hc. by apply (st_lost _ stable_settled). }
  intros _. eapply (hoare_bind _ _ _ (λ _, in_cycle id)).
  { intros c [[Hs Hr Hd] Hc]. destruct c as [st j l d n t os]. simpl in *.
    assert (Hnil : ∀ s, cycle_owns (CycleJournal_new id) s = ∅)
      by (intros [x|x]; unfold cycle_owns; simpl; unfold owned_of; by rewrite lookup_empty).
    split; simpl; [by split|done|..]; intros s; rewrite Hnil; [set_solver|].
    rewrite without_empty. symmetry. apply Hc. }
  intros _. eapply (hoare_bind _ _ _ (λ _, in_cycle id)).
  { intros c Hc. unfold select. pose proof (keeps_consolidate en id lease region ws Hk c Hc) as Hcons.
    destruct (consolidate_under_tracked _ _ _ _ _ _ _ _ c) as [c' []]; try done. by destruct Hcons. }
  intros [outcome stopped]. cbv zeta.
  eapply hoare_bind; [by apply hoare_attempt, finish_settles|]. intros finished. cbv beta.
  eapply (hoare_bind _ _ _ (λ _ c, match finished with Ok _ => in_cycle id c | Err _ => tracks c end)).
  { intros c Hc. simpl. by destruct finished as [res|e]; [destruct Hc|]. }
  intros lost. destruct finished as [res|e]; [|by apply hoare_ret].
  destruct lost; [apply hoare_ret; by intros c []|].
  apply (hoare_attempt _ _ (λ _, settled id)). eapply hoare_bind; [by apply discovery_settles|intros; by apply hoare_ret].
Qed.

Lemma released_settles {A} lease (m : M A) P Q :
  hoare P m Q tracks → hoare P (released script lease m) Q tracks.
Proof.
  intros Hm. unfold released. eapply hoare_bind; [by apply hoare_attempt|]. intros [a|e]; [by apply hoare_ret|].
  eapply hoare_bind; [apply keeps_call; [apply stable_tracks|apply quiet_release]|]. intros ?. by apply hoare_fail.
Qed.

(** The same with the process lost in [X]. *)
Definition ends {A} (P : Cycle → Prop) (m : M A) (Q : A → Cycle → Prop) (E X : Cycle → Prop) : Prop :=
  ∀ c, P c → match m c with
             | (c, Done a) => Q a c
             | (_, Exhausted) => True
             | (c, Crashed) => X c
             | (c, _) => E c
             end.

Lemma ends_hoare {A} P (m : M A) Q (E X : Cycle → Prop) : hoare P m Q E → (∀ c, E c → X c) → ends P m Q E X.
Proof. intros Hm HX c Hc. specialize (Hm c Hc). destruct (m c) as [c' []]; auto. Qed.
Lemma ends_bind {A B} P (m : M A) (f : A → M B) R Q (E X : Cycle → Prop) :
  ends P m R E X → (∀ a, ends (R a) (f a) Q E X) → ends P (bind m f) Q E X.
Proof.
  intros Hm Hf c Hc. unfold bind. specialize (Hm c Hc). destruct (m c) as [c' []]; try done. by apply Hf.
Qed.

Lemma call_unwatched {A} n (op : (nat → DateTime) → Store → Store * A) c :
  match (call Unwatched n op c).2 with Failed _ | Stopped => False | _ => True end.
Proof.
  unfold DreamsCycle.call. destruct (_ <=? _); [done|]. destruct (ev_fate _); simpl; try done; by destruct (op _ _).
Qed.

Lemma release_ends {A} (r : result A DreamsError) id lease :
  ends (λ c, match r with Ok _ => settled id c | Err _ => tracks c end) (release_after script r lease)
    (λ _, settled id) tracks (λ c, tracks c ∨ settled id c).
Proof.
  set (P := λ c, match r with Ok _ => settled id c | Err _ => tracks c end).
  assert (HP : stable P) by (unfold P; destruct r; [apply stable_settlement|apply stable_tracks]).
  assert (Hcall : hoare P (call Unwatched 0 (st_release lease)) (λ x c, P c ∧ x = Ok tt) P).
  { apply hoare_call; [done|done|]. intros clk c st x Hc _ Hop. injection Hop as <- <-.
    split; [by apply (st_quiet P HP)|done]. }
  intros c Hc. unfold release_after, bind. specialize (Hcall c Hc). pose proof (call_unwatched 0 (st_release lease) c) as Hn.
  destruct (call Unwatched 0 (st_release lease) c) as [c' [x|e| | |]]; try done.
  - destruct Hcall as [Hc' ->]. by destruct r.
  - unfold P in Hcall. destruct r; [by right|by left].
Qed.

(** ** A whole cycle *)

(** Only others have written, and no journal has changed. *)
Definition untouched (J : Journals) (phys : Slot → list Write) c : Prop :=
  tracks c ∧ journals (cy_store c) = J ∧ ∀ s, rows (graph (cy_store c)) s = phys s ++ of_slot s (cy_others c).

Lemma stable_untouched J phys : stable (untouched J phys).
Proof.
  pose proof stable_tracks as HP. split.
  - intros e c (Ht & Hj & Hr) Hroom. destruct (interfere_fields e c) as (EJ & _ & _ & EO).
    split_and!; [by apply (st_interfere _ HP)|by rewrite EJ|]. intros s.
    rewrite EO, of_slot_app, interfere_rows, Hr by (done || apply Ht). by rewrite (assoc_L (++)).
  - intros b c (Ht & Hj & Hr). split_and!; [by apply (st_lost _ HP)|by destruct c..].
  - intros c (Ht & Hj & Hr). split_and!; [by apply (st_tick _ HP)|by destruct c..].
  - intros d c (Ht & Hj & Hr). split_and!; [by apply (st_discoveries _ HP)|by destruct c..].
  - intros c (Ht & _). by apply (st_lsn _ HP).
  - intros st c (Ht & Hj & Hr) Eg Ej. split_and!; [by apply (st_quiet _ HP)|destruct c; simpl in *; congruence|].
    intros s. destruct c. simpl in *. by rewrite Eg.
Qed.

(** What a cycle returns, and what it leaves. *)
Definition concluded (J : Journals) (phys : Slot → list Write) (res : option ConsolidationResult) c : Prop :=
  match res with
  | Some _ => ∃ id, done_ !! (k, id) = None ∧ settled id c
  | None => (∃ id, is_Some (done_ !! (k, id))) ∧ untouched J phys c
  end.

Lemma cycle_ends en region stable_id J phys :
  dreams_key region = k →
  ends (untouched J phys) (try_consolidate_inner o script clock uuid en region stable_id)
    (concluded J phys) tracks (λ c, tracks c ∨ ∃ id, done_ !! (k, id) = None ∧ settled id c).
Proof.
  intros Hk. pose proof (stable_untouched J phys) as HP. unfold try_consolidate_inner.
  destruct (match leader_gate en with Some _ => _ | None => _ end); [apply ends_hoare; [|auto]; apply hoare_fail; by intros c []|].
  cbv zeta. rewrite Hk.
  assert (Hquiet : ∀ {A} n (op : (nat → DateTime) → Store → Store * A), quiet op →
            ends (untouched J phys) (call Unwatched n op) (λ _, untouched J phys) tracks
              (λ c, tracks c ∨ ∃ id, done_ !! (k, id) = None ∧ settled id c)).
  { intros A n op Hq. apply ends_hoare; [|auto]. eapply hoare_consequence; [by apply keeps_call|done|done|by intros c []]. }
  eapply (ends_bind _ _ _ (λ r c, untouched J phys c ∧ ∀ lease, r = Ok lease → ol_key lease = k)).
  { apply ends_hoare; [|auto]. apply hoare_call; [done|by intros c []|]. intros clk c st r Hc _ Hop.
    destruct (quiet_acquire k (lease_ttl en) clk (cy_store c)) as [Eg Ej]. rewrite Hop in Eg, Ej.
    split; [by apply (st_quiet _ HP)|]. intros lease ->. unfold st_acquire, acquire_lease in Hop.
    destruct (match leases _ !! _ with Some _ => _ | None => _ end); [done|]. by injection Hop as _ <-. }
  intros r. eapply (ends_bind _ _ _ (λ lease c, untouched J phys c ∧ ol_key lease = k)).
  { apply ends_hoare; [|auto]. apply hoare_or_fail; [intros lease -> c [? ?]; eauto|by intros e _ c [[] _]]. }
  intros lease. eapply (ends_bind _ _ _ (λ _ c, untouched J phys c ∧ ol_key lease = k)).
  { destruct stable_id as [id|]; [intros c Hc; exact Hc|]. intros c [Hc Hl]. simpl. split; [by apply (st_tick _ HP)|done]. }
  intros id. eapply (ends_bind _ _ _ (λ r c, (untouched J phys c ∧ ol_key lease = k) ∧
    ∀ b, r = Ok b → b = bool_decide (is_Some (done_ !! (k, id))))).
  { apply ends_hoare; [|auto].
    apply hoare_call; [exact (stable_journals _ (λ _, ol_key lease = k) HP)|by intros c [[] _]|]. intros clk c st r' [Hc Hl] _ [= <- <-].
    split; [split; [|done]; by apply (st_quiet _ HP)|]. intros b. unfold cycle_succeeded_fenced.
    destruct (check_lease_current _ _ _); [|done]. intros [= <-]. destruct Hc as ([_ _ Hd] & _).
    by rewrite Hd, Hl. }
  intros r'. eapply (ends_bind _ _ _ (λ b c, (untouched J phys c ∧ ol_key lease = k) ∧ b = bool_decide (is_Some (done_ !! (k, id))))).
  { apply ends_hoare; [|auto]. apply hoare_or_fail; [intros b -> c [? ?]; eauto|by intros e _ c [[[] _] _]]. }
  intros [].
  - intros c [[Hc _] Hb]. symmetry in Hb. apply bool_decide_eq_true in Hb. revert c Hc.
    change (ends (untouched J phys) (bind (call Unwatched 0 (st_release lease)) (λ r,
      bind (or_fail ReleaseSettled r) (λ _, ret None))) (concluded J phys) tracks
      (λ c, tracks c ∨ ∃ id, done_ !! (k, id) = None ∧ settled id c)).
    eapply ends_bind; [apply Hquiet, quiet_release|]. intros x.
    eapply (ends_bind _ _ _ (λ _, untouched J phys)); [apply ends_hoare; [|auto]; apply hoare_or_fail; [done|by intros e _ c []]|].
    intros _ c Hc. split; [by exists id|done].
  - intros c [[Hc Hl] Hb]. symmetry in Hb. apply bool_decide_eq_false in Hb.
    assert (Hnone : done_ !! (k, id) = None) by (destruct (done_ !! (k, id)); [by destruct Hb|done]).
    assert (Ht : tracks c) by by destruct Hc. clear Hc Hb. revert c Ht.
    match goal with |- ∀ c, _ → match ?m c with _ => _ end => change (ends tracks m (concluded J phys) tracks
      (λ c, tracks c ∨ ∃ id, done_ !! (k, id) = None ∧ settled id c)) end.
    eapply ends_bind; [apply ends_hoare; [by apply released_settles, recover_settles|auto]|]. intros ?.
    eapply (ends_bind _ _ _ (λ _, settled_rows)).
    { apply ends_hoare; [|auto]. apply released_settles.
      apply (hoare_consequence settled_rows _ _ (λ _, settled_rows) _ settled_rows); [|done|done|by intros c []].
      change (keeps settled_rows (load_region_working_set script Unwatched region)). unfold load_region_working_set. pose proof stable_settled as HS.
      apply keeps_bind; [by apply keeps_call; [|apply quiet_memories]|intros ms]. apply keeps_bind; [apply keeps_or_fail|intros].
      apply keeps_bind; [by apply keeps_call; [|apply quiet_current]|intros rs]. apply keeps_bind; [apply keeps_or_fail|intros].
      apply keeps_ret. }
    intros ws. eapply (ends_bind _ _ _ (λ _, settled_rows)).
    { apply ends_hoare; [|auto]. apply released_settles. unfold validate_loaded_region.
      destruct (_ || _); [by apply hoare_ret|]. destruct (existsb _ _); [by apply hoare_ret|]. apply hoare_fail. by intros c []. }
    intros _. eapply ends_bind; [apply ends_hoare; [by apply run_cycle_settles|auto]|]. intros outcome.
    eapply (ends_bind _ _ _ (λ _, settled id)).
    { intros c Hc. pose proof (release_ends outcome id lease c Hc) as Hr.
      destruct (release_after script outcome lease c) as [c' []]; try done. destruct Hr as [?|?]; [by left|right; eauto]. }
    intros res c Hc. exists id. done.
Qed.
End spec.


(** A recovery that succeeds leaves the logical rows and what others wrote meanwhile, and nothing else; one
    that does not changes no logical row. *)
Theorem recovery_exact `{Blake3, Sha256, Bincode, HashOrder, DiscoveryJson, Ln} script k lease c :
  let st := cy_store c in
  sound k st → cy_others c = [] → ol_key lease = k →
  match recover_active_cycle script k lease c with
  | (c', Done _) => sound k (cy_store c') ∧
                    ∀ s, rows (graph (cy_store c')) s = logical k st s ++ of_slot s (cy_others c')
  | (_, Exhausted) => True
  | (c', _) => tracks k (logical k st) (succeeded_cycles (journals st)) c'
  end.
Proof.
  intros st Hs Hnil Hk.
  assert (tracks k (logical k st) (succeeded_cycles (journals st)) c) as Hc
    by (split; rewrite ?Hnil; [done|intros s; by rewrite app_nil_r|done]).
  pose proof (recover_settles script k _ _ lease Hk c Hc) as Hr.
  destruct (recover_active_cycle _ _ _ c) as [c' []]; try done.
  destruct Hr as [[Hs' Hr' _] Hcl]. split; [done|]. intros s. by rewrite <-Hcl.
Qed.

(** A store whose key has no journal is sound. *)
Lemma sound_fresh k st : graph_ok (graph st) → cycle_journals (journals st) !! k = None → sound k st.
Proof.
  intros Hg Hj. assert (Hn : ∀ s, journal_owns (journals st) k s = ∅)
    by (intros [x|x]; simpl; unfold journal_memory_lsns, journal_rel_lsns; by rewrite Hj).
  split; [done|intros s l; rewrite Hn; set_solver|]. intros _ s. unfold logical. rewrite Hn. apply without_empty.
Qed.
