(* ===== verification/Trigger.v ===== *)
(** * The Dreams trigger

    [crates/exocortex-dreams/src/trigger.rs] and the counting half of [DreamsEngine] in [lib.rs]: the
    write counters of a region, the predicate that fires a cycle, the bounded queue of regions to
    consolidate, and what the completion of a cycle takes off the counters.

    [WriteSink] is what the ingest service needs of either transport of the counters: this local one;
    the shared one keeps its counters in Redis and is not modelled. *)

From stdpp Require Import strings.
From S2P Require Import Prelude Ids Kernel StorageTypes IngestCommit.

(** ** Counters and the predicate *)

(* SRC crates/exocortex-dreams/src/trigger.rs 3-12 RegionWriteCounters *)
Record RegionWriteCounters := mkCounters {
  memories_since : Z;
  edges_since : Z;
  seconds_since : Z;
}.
#[global] Instance RegionWriteCounters_eq_dec : EqDecision RegionWriteCounters.
Proof. solve_decision. Defined.

(** [RegionWriteCounters::default()]. *)
Definition no_writes : RegionWriteCounters := mkCounters 0 0 0.

(* SRC crates/exocortex-dreams/src/trigger.rs 14-25 DreamsTrigger *)
Record DreamsTrigger := mkTrigger {
  memory_threshold : Z;
  edge_threshold : Z;
  age_floor_days : Z;
  min_interval_hours : Z;
}.

(* SRC crates/exocortex-dreams/src/trigger.rs 28-35 DreamsTrigger::default *)
Definition DreamsTrigger_default : DreamsTrigger := mkTrigger 1000 5000 30 6.

(* SRC crates/exocortex-dreams/src/trigger.rs 39-48 should_fire *)
Definition should_fire (t : DreamsTrigger) (c : RegionWriteCounters) : bool :=
  let min_interval := min_interval_hours t * 3600 in
  if seconds_since c <? min_interval then false
  else (memory_threshold t <=? memories_since c) || (edge_threshold t <=? edges_since c)
       || (age_floor_days t * 86400 <=? seconds_since c).

Definition u32_saturating_add (x y : Z) : Z := Z.min (2 ^ 32 - 1) (x + y).
Definition saturating_sub (x y : Z) : Z := Z.max 0 (x - y).

(** ** The local engine *)

(** The fields of [DreamsEngine] the counters use; [in_flight] is the region its loop is consolidating. *)
(* SRC crates/exocortex-dreams/src/lib.rs 246-309 DreamsEngine *)
Record Dreams := mkDreams {
  leader : bool;
  counters : gmap RegionKey RegionWriteCounters;
  pending_regions : gset RegionKey;
  last_local_write_event : gmap RegionKey string;
  last_cycle_at : gmap RegionKey DateTime;
  trigger : DreamsTrigger;
  fire_queue : list (RegionKey * RegionWriteCounters);
  fire_capacity : nat;
}.

Definition put_counters c (d : Dreams) : Dreams :=
  let '(mkDreams a _ p e l t q n) := d in mkDreams a c p e l t q n.
Definition put_pending p (d : Dreams) : Dreams :=
  let '(mkDreams a c _ e l t q n) := d in mkDreams a c p e l t q n.
Definition put_events e (d : Dreams) : Dreams :=
  let '(mkDreams a c p _ l t q n) := d in mkDreams a c p e l t q n.
Definition put_last l (d : Dreams) : Dreams :=
  let '(mkDreams a c p e _ t q n) := d in mkDreams a c p e l t q n.
Definition put_queue q (d : Dreams) : Dreams :=
  let '(mkDreams a c p e l t _ n) := d in mkDreams a c p e l t q n.

(* SRC crates/exocortex-dreams/src/lib.rs 319-361 DreamsEngine::new *)
Definition DreamsEngine_new (t : DreamsTrigger) : Dreams := mkDreams true ∅ ∅ ∅ ∅ t [] 1000.

(* SRC crates/exocortex-dreams/src/lib.rs 616-628 schedule_region *)
Definition schedule_region (region : RegionKey) (snapshot : RegionWriteCounters) (d : Dreams) : Dreams :=
  if bool_decide (region ∈ pending_regions d) then d
  else if (length (fire_queue d) <? fire_capacity d)%nat
  then put_queue (fire_queue d ++ [(region, snapshot)]) (put_pending ({[region]} ∪ pending_regions d) d)
  else d.

(** [(now - anchor).num_seconds().max(0)]. *)
Definition elapsed_seconds (now anchor : DateTime) : Z := Z.max 0 (Z.quot (now - anchor) (10 ^ 9)).

(* SRC crates/exocortex-dreams/src/lib.rs 460-500 on_writes *)
Definition on_writes (now : DateTime) (region : RegionKey) (memories edges : Z) (d : Dreams) : Dreams :=
  let anchor := default now (last_cycle_at d !! region) in
  let d := put_last (<[region := anchor]> (last_cycle_at d)) d in
  let e := default no_writes (counters d !! region) in
  let e := mkCounters (u32_saturating_add (memories_since e) memories)
                      (u32_saturating_add (edges_since e) edges) (elapsed_seconds now anchor) in
  let d := put_counters (<[region := e]> (counters d)) d in
  if leader d && should_fire (trigger d) e then schedule_region region e d else d.

(* SRC crates/exocortex-dreams/src/lib.rs 452-458 on_write *)
Definition on_write (now : DateTime) (region : RegionKey) (d : Dreams) : Dreams := on_writes now region 1 0 d.

(* SRC crates/exocortex-dreams/src/lib.rs 502-545 on_writes_once *)
Definition on_writes_once (now : DateTime) (event_id : string) (region : RegionKey) (memories edges : Z)
    (d : Dreams) : Dreams * result unit string :=
  if String.eqb event_id "" then (d, Err "Dreams write event id must not be empty"%string)
  else if bool_decide (last_local_write_event d !! region = Some event_id) then (d, Ok tt)
  else let d := on_writes now region memories edges d in
       (put_events (<[region := event_id]> (last_local_write_event d)) d, Ok tt).

(** The loop of [settle_writes_once]. *)
Definition forget_event (event_id : string) (m : gmap RegionKey string) (region : RegionKey) : gmap RegionKey string :=
  if bool_decide (m !! region = Some event_id) then delete region m else m.

(* SRC crates/exocortex-dreams/src/lib.rs 547-585 settle_writes_once *)
Definition settle_writes_once (event_id : string) (regions : list RegionKey) (d : Dreams)
    : Dreams * result unit string :=
  if String.eqb event_id "" then (d, Err "Dreams write event id must not be empty"%string)
  else (put_events (foldl (forget_event event_id) (last_local_write_event d) regions) d, Ok tt).

(* SRC crates/exocortex-dreams/src/lib.rs 587-595 notify *)
Definition notify (region : RegionKey) (d : Dreams) : Dreams :=
  if negb (leader d) then d
  else schedule_region region (default no_writes (counters d !! region)) d.

(** The loop takes the region at the head of the queue; it stays pending. *)
Definition take_region (d : Dreams) : option (RegionKey * RegionWriteCounters * Dreams) :=
  match fire_queue d with
  | [] => None
  | (region, fired_at) :: rest => Some (region, fired_at, put_queue rest d)
  end.

(* SRC crates/exocortex-dreams/src/lib.rs 630-653 complete_region *)
Definition complete_region (now : DateTime) (region : RegionKey) (fired_at : RegionWriteCounters)
    (success : bool) (d : Dreams) : Dreams :=
  let d :=
    if success then
      let d := match counters d !! region with
               | Some current =>
                   put_counters (<[region := mkCounters
                     (saturating_sub (memories_since current) (memories_since fired_at))
                     (saturating_sub (edges_since current) (edges_since fired_at)) 0]> (counters d)) d
               | None => d
               end in
      put_last (<[region := now]> (last_cycle_at d)) d
    else d in
  let d := put_pending (pending_regions d ∖ {[region]}) d in
  if success && leader d then
    match counters d !! region with
    | Some current => if should_fire (trigger d) current then schedule_region region current d else d
    | None => d
    end
  else d.

(** ** The interface *)

(** What a delivery needs of the counters: to count one effect's writes to a region, and to forget the
    effect once the outbox has acknowledged it. *)
Class WriteSink (D : Type) := {
  ws_record : DateTime → string → Z → RegionKey → Z → Z → D → D * result unit string;
  ws_settle : string → Z → bool → list RegionKey → D → D * result unit string;
}.

Definition local_sink : WriteSink Dreams := {|
  ws_record now event _ region memories edges d := on_writes_once now event region memories edges d;
  ws_settle event _ _ regions d := settle_writes_once event regions d;
|}.

(** ** The engine's life *)

(** What happens to the local engine: a write, an explicit fire, a change of leadership, the loop taking
    a region, and the end of the cycle it ran.  The second half of the state is the region in flight
    with the counters it was fired at. *)
Inductive EngineEvent :=
  | Write (now : DateTime) (region : RegionKey) (memories edges : N)
  | Notify (region : RegionKey)
  | Lead (elected : bool)
  | Take
  | Complete (now : DateTime) (success : bool).

Definition EngineState : Type := Dreams * option (RegionKey * RegionWriteCounters).

Definition put_leader b (d : Dreams) : Dreams :=
  let '(mkDreams _ c p e l t q n) := d in mkDreams b c p e l t q n.

(* SRC crates/exocortex-dreams/src/lib.rs 655-709 run *)
Definition engine_do (q : EngineState) (ev : EngineEvent) : EngineState :=
  let '(d, running) := q in
  match ev, running with
  | Write now region memories edges, _ => (on_writes now region (Z.of_N memories) (Z.of_N edges) d, running)
  | Notify region, _ => (notify region d, running)
  | Lead elected, _ => (put_leader elected d, running)
  | Take, None =>
      match take_region d with
      | Some (region, fired_at, d') => (d', Some (region, fired_at))
      | None => (d, None)
      end
  | Complete now success, Some (region, fired_at) => (complete_region now region fired_at success d, None)
  | Take, Some _ | Complete _ _, None => q
  end.

Definition engine_run (q : EngineState) (evs : list EngineEvent) : EngineState := foldl engine_do q evs.

(** A count of a region, memories or edges. *)
Definition weight (edges : bool) (c : RegionWriteCounters) : Z := if edges then edges_since c else memories_since c.
Definition counter_of (d : Dreams) (r : RegionKey) : RegionWriteCounters := default no_writes (counters d !! r).

Definition written1 (b : bool) (r : RegionKey) (ev : EngineEvent) : Z :=
  match ev with
  | Write _ r' m e => if bool_decide (r' = r) then Z.of_N (if b then e else m) else 0
  | _ => 0
  end.
Definition written (b : bool) (r : RegionKey) (evs : list EngineEvent) : Z :=
  foldr (λ ev n, written1 b r ev + n) 0 evs.

(** What a successful cycle consolidates: the counters it was fired at. *)
Definition consolidated1 (b : bool) (r : RegionKey) (q : EngineState) (ev : EngineEvent) : Z :=
  match ev, q.2 with
  | Complete _ true, Some (r', fired_at) => if bool_decide (r' = r) then weight b fired_at else 0
  | _, _ => 0
  end.
Fixpoint consolidated (b : bool) (r : RegionKey) (q : EngineState) (evs : list EngineEvent) : Z :=
  match evs with
  | [] => 0
  | ev :: rest => consolidated1 b r q ev + consolidated b r (engine_do q ev) rest
  end.

(** ** The invariant *)

Definition slots (q : EngineState) : list (RegionKey * RegionWriteCounters) := fire_queue q.1 ++ option_list q.2.

(** The regions queued or running are distinct and are those pending, the queue is bounded, and no slot
    was fired at more than its region's counters now hold. *)
Record engine_ok (q : EngineState) : Prop := {
  eo_nodup : NoDup (slots q).*1;
  eo_pending r : r ∈ pending_regions q.1 ↔ r ∈ (slots q).*1;
  eo_bound : (length (fire_queue q.1) ≤ fire_capacity q.1)%nat;
  eo_snap r f b : (r, f) ∈ slots q → 0 ≤ weight b f ≤ weight b (counter_of q.1 r);
  eo_counter r b : 0 ≤ weight b (counter_of q.1 r);
}.

Lemma new_ok t : engine_ok (DreamsEngine_new t, None).
Proof.
  constructor; simpl; [constructor| |lia| |].
  - intros r. split; intros H; [set_solver|by apply elem_of_nil in H].
  - intros r f b H. by apply elem_of_nil in H.
  - intros r b. by destruct b.
Qed.

(** Any change of the counters that keeps the queue and lowers no counter. *)
Lemma engine_ok_raise d d' running :
  fire_queue d' = fire_queue d → pending_regions d' = pending_regions d → fire_capacity d' = fire_capacity d →
  (∀ r b, weight b (counter_of d r) ≤ weight b (counter_of d' r)) →
  engine_ok (d, running) → engine_ok (d', running).
Proof.
  intros E1 E2 E3 Hle [Hd Hp Hb Hs Hc]. unfold slots in *. simpl in *.
  constructor; unfold slots; simpl; rewrite ?E1, ?E2, ?E3; try done.
  - intros r f b Hin. specialize (Hs r f b Hin). specialize (Hle r b). lia.
  - intros r b. specialize (Hc r b). specialize (Hle r b). lia.
Qed.

Lemma schedule_ok region snapshot d running :
  (∀ b, 0 ≤ weight b snapshot ≤ weight b (counter_of d region)) →
  engine_ok (d, running) → engine_ok (schedule_region region snapshot d, running).
Proof.
  intros Hsnap Hok. unfold schedule_region. case_bool_decide as Hin; [done|].
  destruct (Nat.ltb_spec (length (fire_queue d)) (fire_capacity d)); [|done].
  destruct Hok as [Hd Hp Hb Hs Hc]. unfold slots in *. destruct d as [a c p e l t q n]. simpl in *.
  assert (HP : (q ++ [(region, snapshot)]) ++ option_list running ≡ₚ (region, snapshot) :: (q ++ option_list running))
    by solve_Permutation.
  rewrite Hp in Hin.
  constructor; unfold slots; simpl; try done.
  - rewrite HP. by apply NoDup_cons.
  - intros r. rewrite HP, elem_of_union, elem_of_singleton, fmap_cons, elem_of_cons, Hp. done.
  - rewrite length_app. simpl. lia.
  - intros r f b. rewrite HP. intros [[= -> ->]|Hin']%elem_of_cons; [by apply Hsnap|by apply Hs].
Qed.

Lemma counter_of_insert d r r' c :
  counter_of (put_counters (<[r := c]> (counters d)) d) r' = if decide (r = r') then c else counter_of d r'.
Proof.
  destruct d. unfold counter_of. simpl. case_decide as E; [subst; by rewrite lookup_insert_eq|].
  by rewrite lookup_insert_ne.
Qed.

Lemma add_weight b x m e s :
  0 ≤ weight b x → 0 ≤ m → 0 ≤ e →
  weight b (mkCounters (u32_saturating_add (memories_since x) m) (u32_saturating_add (edges_since x) e) s)
  = Z.min (2 ^ 32 - 1) (weight b x + if b then e else m).
Proof. by destruct b. Qed.

(** A write is counted up to the width of the counter, for its region alone. *)
Lemma on_writes_counter now region m e d b r : 0 ≤ m → 0 ≤ e → 0 ≤ weight b (counter_of d region) →
  weight b (counter_of (on_writes now region m e d) r)
  = if decide (region = r) then Z.min (2 ^ 32 - 1) (weight b (counter_of d r) + if b then e else m)
    else weight b (counter_of d r).
Proof.
  intros Hm He Hc. unfold on_writes.
  set (d1 := put_last _ d). set (c := mkCounters _ _ _).
  assert (E : ∀ d0, counters d0 = <[region := c]> (counters d) → weight b (counter_of d0 r)
    = if decide (region = r) then Z.min (2 ^ 32 - 1) (weight b (counter_of d r) + if b then e else m)
      else weight b (counter_of d r)).
  { intros d0 Ed. unfold counter_of. rewrite Ed. case_decide as Er; [|by rewrite lookup_insert_ne].
    subst r. rewrite lookup_insert_eq. unfold c. cbn [default from_option id].
    destruct d. unfold d1, counter_of in *. simpl in *. rewrite add_weight; [done|done|done|done]. }
  match goal with |- context [if ?x then _ else _] => destruct x end; apply E;
    unfold schedule_region; repeat case_match; by destruct d.
Qed.

Lemma on_writes_ok now region m e d running : 0 ≤ m → 0 ≤ e →
  (∀ r b, weight b (counter_of d r) ≤ 2 ^ 32 - 1) →
  engine_ok (d, running) → engine_ok (on_writes now region m e d, running).
Proof.
  intros Hm He Hw Hok. unfold on_writes.
  set (d1 := put_last _ d). set (c := mkCounters _ _ _). set (d2 := put_counters _ d1).
  assert (Hc : ∀ r, counter_of d2 r = if decide (region = r) then c else counter_of d r).
  { intros r. unfold d2. rewrite counter_of_insert. case_decide; [done|]. unfold d1, counter_of. by destruct d. }
  assert (Hcw : ∀ b, weight b (counter_of d region) ≤ weight b c).
  { intros b. pose proof (eo_counter _ Hok region b) as H. simpl in H. unfold c.
    assert (E : default no_writes (counters d1 !! region) = counter_of d region) by (by destruct d).
    rewrite E, add_weight by done. specialize (Hw region b). destruct b; lia. }
  assert (Hd2 : engine_ok (d2, running)).
  { eapply engine_ok_raise; [..|exact Hok]; try (by destruct d).
    intros r b. rewrite Hc. case_decide as E; [subst; apply Hcw|lia]. }
  destruct (leader d2 && should_fire (trigger d2) c); [|done].
  apply schedule_ok; [|done]. intros b. rewrite Hc, decide_True by done.
  pose proof (eo_counter _ Hd2 region b) as H. simpl in H. rewrite Hc, decide_True in H by done. lia.
Qed.

(** The end of a cycle takes off exactly what the cycle was fired at. *)
Lemma complete_counter now region f success d b r : engine_ok (d, Some (region, f)) →
  weight b (counter_of (complete_region now region f success d) r)
  = weight b (counter_of d r) - (if success && bool_decide (region = r) then weight b f else 0).
Proof.
  intros Hok. unfold complete_region. cbv zeta. set (d1 := if success then _ else d). set (d2 := put_pending _ d1).
  assert (E : ∀ d0, counters d0 = counters d1 → weight b (counter_of d0 r)
    = weight b (counter_of d r) - (if success && bool_decide (region = r) then weight b f else 0)).
  { intros d0 Ed. unfold counter_of. rewrite Ed. unfold d1. destruct success; simpl; [|lia].
    assert (Hs : 0 ≤ weight b f ≤ weight b (counter_of d region)).
    { apply (eo_snap _ Hok). unfold slots. simpl. apply elem_of_app. right. by left. }
    unfold counter_of in Hs. destruct d as [? c ? ? ? ? ? ?]. simpl in *.
    destruct (c !! region) as [cur|] eqn:Ec; simpl in *; case_bool_decide as Er; subst.
    - rewrite lookup_insert_eq, Ec. unfold saturating_sub. destruct b; simpl in *; lia.
    - rewrite lookup_insert_ne by done. lia.
    - rewrite Ec. simpl. destruct b; simpl in *; lia.
    - lia. }
  assert (Hcs : ∀ x y d0, counters (schedule_region x y d0) = counters d0).
  { intros x y d0. unfold schedule_region. repeat case_match; by destruct d0. }
  assert (E2 : counters d2 = counters d1) by (unfold d2; by destruct d1).
  apply E. repeat case_match; by rewrite ?Hcs, E2.
Qed.

Lemma complete_ok now region f success d :
  engine_ok (d, Some (region, f)) → engine_ok (complete_region now region f success d, None).
Proof.
  intros Hok. pose proof (complete_counter now region f success d) as Hcount.
  unfold complete_region in *. cbv zeta in *. set (d1 := if success then _ else d) in *. set (d2 := put_pending _ d1) in *.
  assert (E1 : fire_queue d2 = fire_queue d ∧ pending_regions d2 = pending_regions d ∖ {[region]}
    ∧ fire_capacity d2 = fire_capacity d).
  { unfold d2, d1. destruct success; destruct d as [? c ? ? ? ? ? ?]; simpl; [by destruct (c !! region)|done]. }
  destruct E1 as (E1 & E2 & E3).
  assert (Ecnt : ∀ r b, weight b (counter_of d2 r)
    = weight b (counter_of d r) - (if success && bool_decide (region = r) then weight b f else 0)).
  { intros r b. rewrite <-(Hcount b r Hok). f_equal. unfold counter_of. do 2 f_equal.
    repeat case_match; unfold schedule_region; repeat case_match; by destruct d2. }
  clear Hcount. assert (Hd2 : engine_ok (d2, None)).
  { destruct Hok as [Hd Hp Hb Hs Hc]. unfold slots in *. simpl in *. rewrite fmap_app in Hd, Hp. simpl in *.
    apply NoDup_app in Hd as (Hq & Hqr & _).
    constructor; unfold slots; simpl; rewrite ?app_nil_r, ?E1, ?E2, ?E3; [done| |done| |].
    - intros x. rewrite elem_of_difference, elem_of_singleton, Hp, elem_of_app, list_elem_of_singleton.
      split; [naive_solver|]. intros Hx. split; [by left|]. intros ->. apply (Hqr region Hx). by left.
    - intros r g b Hin. rewrite Ecnt, bool_decide_eq_false_2, andb_false_r, Z.sub_0_r;
        [apply Hs, elem_of_app; by left|].
      intros ->. apply (Hqr r); [|by left]. apply list_elem_of_fmap. by exists (r, g).
    - intros r b. rewrite Ecnt. specialize (Hs region f b). rewrite elem_of_app in Hs. specialize (Hc r b).
      destruct success; simpl; [|lia]. case_bool_decide; [subst|lia]. lapply Hs; [lia|]. right. by left. }
  destruct (success && leader d2); [|done]. destruct (counters d2 !! region) as [cur|] eqn:Ecur; [|done].
  destruct (should_fire _ _); [|done]. apply schedule_ok; [|done]. intros b.
  pose proof (eo_counter _ Hd2 region b) as H. unfold counter_of in *. simpl in *. rewrite Ecur in *. simpl in *. lia.
Qed.

Lemma take_ok d d' region f : take_region d = Some (region, f, d') →
  engine_ok (d, None) → engine_ok (d', Some (region, f)).
Proof.
  unfold take_region. destruct (fire_queue d) as [|[r g] rest] eqn:Eq; [done|]. intros [= -> -> <-] [Hd Hp Hb Hs Hc].
  unfold slots in *. destruct d as [a c p e l t fq n]. simpl in *. subst fq. rewrite app_nil_r in *.
  assert (HP : rest ++ [(region, f)] ≡ₚ (region, f) :: rest) by solve_Permutation.
  constructor; unfold slots; simpl; [by rewrite HP| |simpl in Hb; lia| |done].
  - intros x. rewrite HP. apply Hp.
  - intros r g b. rewrite HP. apply Hs.
Qed.

(** ** What a run keeps *)

(** The invariant with the account of a run: what was written is what is counted and what was
    consolidated. *)
Definition accounted (q : EngineState) (n : bool → RegionKey → Z) : Prop :=
  engine_ok q ∧ ∀ r b, weight b (counter_of q.1 r) = n b r.

Lemma engine_do_accounted q ev n : (∀ b r, n b r + written1 b r ev ≤ 2 ^ 32 - 1) → accounted q n →
  accounted (engine_do q ev) (λ b r, n b r + written1 b r ev - consolidated1 b r q ev).
Proof.
  destruct q as [d running]. intros Hle [Hok Hn]. simpl in *.
  destruct ev as [now region m e|region|elected| |now success]; simpl in *.
  - assert (Hw : ∀ r b, weight b (counter_of d r) ≤ 2 ^ 32 - 1).
    { intros r b. specialize (Hle b r). rewrite Hn. revert Hle. case_bool_decide; destruct b; lia. }
    split; [by apply on_writes_ok; [lia..| |]|]. intros r b. simpl.
    pose proof (eo_counter _ Hok region b) as Hc. simpl in Hc.
    rewrite on_writes_counter by (done || lia). specialize (Hle b r). rewrite Hn.
    unfold consolidated1. revert Hle. simpl. case_decide; [rewrite bool_decide_eq_true_2 by done|rewrite bool_decide_eq_false_2 by done]; destruct b; lia.
  - split.
    + unfold notify. destruct (leader d); [|done]. simpl. apply schedule_ok; [|done]. intros b.
      pose proof (eo_counter _ Hok region b) as H. unfold counter_of in *. simpl in *. lia.
    + intros r b. simpl. rewrite <-Hn. unfold consolidated1, notify, schedule_region, counter_of. simpl.
      repeat case_match; destruct d; simpl; lia.
  - split; [eapply engine_ok_raise; [..|exact Hok]; by destruct d|]. intros r b. rewrite <-Hn.
    unfold consolidated1, counter_of. destruct d. simpl. lia.
  - destruct running as [[region f]|].
    + split; [done|]. intros r b. rewrite <-Hn. unfold consolidated1. simpl. lia.
    + destruct (take_region d) as [[[region f] d']|] eqn:Et.
      * split; [by eapply take_ok|]. intros r b. simpl. rewrite <-Hn. unfold consolidated1. simpl.
        unfold take_region in Et. destruct d as [a c p e l t [|[] ?] k]; [done|]. injection Et as _ _ <-.
        unfold counter_of. simpl. lia.
      * split; [done|]. intros r b. rewrite <-Hn. unfold consolidated1. simpl. lia.
  - destruct running as [[region f]|]; simpl.
    + split; [by apply complete_ok|]. intros r b. simpl. rewrite complete_counter, Hn by done.
      unfold consolidated1. simpl. destruct success; simpl; [case_bool_decide|]; lia.
    + split; [done|]. intros r b. rewrite <-Hn. unfold consolidated1. simpl. destruct success; simpl; lia.
Qed.

Lemma written1_nonneg b r ev : 0 ≤ written1 b r ev.
Proof. destruct ev; simpl; try case_bool_decide; try destruct b; lia. Qed.
Lemma written_nonneg b r evs : 0 ≤ written b r evs.
Proof. induction evs as [|ev evs IH]; simpl; [lia|]. pose proof (written1_nonneg b r ev). fold (written b r evs). lia. Qed.

Lemma consolidated1_nonneg b r q ev : engine_ok q → 0 ≤ consolidated1 b r q ev.
Proof.
  intros Hok. unfold consolidated1. destruct ev as [| | | |? []]; try lia.
  destruct q as [d [[region f]|]]; simpl; [|lia]. case_bool_decide; [|lia].
  apply (eo_snap _ Hok region f b), elem_of_app. right. by left.
Qed.

Lemma engine_run_accounted evs q n : accounted q n → (∀ b r, n b r + written b r evs ≤ 2 ^ 32 - 1) →
  accounted (engine_run q evs) (λ b r, n b r + written b r evs - consolidated b r q evs).
Proof.
  revert q n. induction evs as [|ev evs IH]; intros q n Hq Hle; simpl in *.
  { destruct Hq as [Hok Hn]. split; [done|]. intros r b. rewrite Hn. lia. }
  fold (engine_run (engine_do q ev) evs).
  assert (H1 : accounted (engine_do q ev) (λ b r, n b r + written1 b r ev - consolidated1 b r q ev)).
  { apply engine_do_accounted; [|done]. intros b r. specialize (Hle b r). pose proof (written_nonneg b r evs).
    unfold written in *. lia. }
  destruct (IH _ _ H1) as [Hok Hn].
  { intros b r. specialize (Hle b r). pose proof (consolidated1_nonneg b r q ev (proj1 Hq)). unfold written in *. lia. }
  split; [done|]. intros r b. rewrite Hn. unfold written. lia.
Qed.

(** C15: however writes, explicit fires, changes of leadership, fires taken and cycles ended interleave, no
    write is lost or counted twice: what a region was ever written is what its counters hold together
    with what its successful cycles consolidated, as long as the total fits the 32-bit counter; and a
    region never has two slots, queued or running, in a queue that never exceeds its capacity. *)
Theorem engine_exact t evs :
  (∀ b r, written b r evs ≤ 2 ^ 32 - 1) →
  let q := engine_run (DreamsEngine_new t, None) evs in
  (∀ b r, weight b (counter_of q.1 r) + consolidated b r (DreamsEngine_new t, None) evs = written b r evs)
  ∧ NoDup (slots q).*1 ∧ (length (fire_queue q.1) ≤ fire_capacity q.1)%nat.
Proof.
  intros Hle. destruct (engine_run_accounted evs (DreamsEngine_new t, None) (λ _ _, 0)) as [Hok Hn].
  - split; [apply new_ok|]. intros r b. by destruct b.
  - intros b r. specialize (Hle b r). lia.
  - split_and!; [|apply Hok|apply Hok]. intros b r. rewrite Hn. lia.
Qed.

Definition demo_region : RegionKey := mkRegionKey "org" "proj" 1.
Definition demo_trigger : DreamsTrigger := mkTrigger 2 5 30 0.

Lemma engine_exact_witness :
  let evs := [Write 0 demo_region 2 1; Take; Write 10 demo_region 3 0; Complete 20 true; Take; Complete 30 true] in
  let q := engine_run (DreamsEngine_new demo_trigger, None) evs in
  weight false (counter_of q.1 demo_region)
  + consolidated false demo_region (DreamsEngine_new demo_trigger, None) evs = 5.
Proof.
  set (evs := [_; _; _; _; _; _]).
  assert (Hle : ∀ b r, written b r evs ≤ 2 ^ 32 - 1).
  { intros b r. unfold written, evs. simpl. case_bool_decide; destruct b; vm_compute; discriminate. }
  intros q. pose proof (engine_exact demo_trigger evs Hle) as [H _].
  specialize (H false demo_region).
  assert (E : written false demo_region evs = 5) by (vm_compute; reflexivity).
  rewrite <-E. exact H.
Defined.
