(* ===== verification/DreamsLoop.v ===== *)
(** * The loop of the Dreams engine

    What surrounds a cycle in [crates/exocortex-dreams/src/lib.rs]: the turn of [run] that takes a region
    off the queue, runs its cycle and settles its counters, the task that renews the lease of the cycle,
    and the proposals that go out to callers.  The renewal theorem is about time: as long as its calls are answered, the lease never lapses,
    and when they are not, the task gives up early enough for a rollback to be fenced by the lease still. *)

From stdpp Require Import pretty strings.
From S2P Require Import Prelude Ids Kernel Packs Ontology StorageTypes Graph Reads Leases Ingest Governed Cycles.
From S2P Require Import Storage Interleaving IngestCommit ShippedPacks EntityResolution Mcr2 Consolidation Discovery.
From S2P Require Import DreamsCycle DreamsInv DreamsSpec Trigger.

(** ** The renewal task *)

(** What the task holds between its calls: the lease it last confirmed and how long it sleeps. *)
Record Renewal := mkRenewal {
  rn_current : OwnerLease;
  rn_delay : Z;
}.

Definition one_ms : Z := 10 ^ 6.
Definition renewal_ttl (lease_ttl : Z) (l : OwnerLease) : Z :=
  if acquired_at l <=? expires_at l then expires_at l - acquired_at l else lease_ttl.
Definition renewal_interval (ttl : Z) : Z := Z.max (ttl / 3) one_ms.
Definition renewal_retry (ttl : Z) : Z := Z.max (ttl / 12) one_ms.

(** One answer of the store: the lease is renewed; or the call is tried again later, as long as more than
    the reserve is left of the lease. *)
Definition renewal_step (interval retry : Z) (now : DateTime) (answer : result OwnerLease StorageError)
    (s : Renewal) : result Renewal StorageError :=
  match answer with
  | Ok renewed => Ok (mkRenewal renewed interval)
  | Err error =>
      let remaining := Z.max 0 (expires_at (rn_current s) - now) in
      if remaining <=? interval then Err error
      else Ok (mkRenewal (rn_current s) (Z.min retry (saturating_sub remaining interval)))
  end.

(** An attempt: how late the task wakes, and whether its call reaches the store. *)
Record Attempt := mkAttempt {
  at_late : Z;
  at_lost : option StorageError;
}.

(** The time, the task and the leases; or the time it gave up at, the lease it held and the leases. *)
Definition Renewing : Type := DateTime * Renewal * LeaseTable.

Definition attempt_renewal (interval retry : Z) (q : Renewing) (a : Attempt)
    : LeaseTable * DateTime * result Renewal StorageError :=
  let '(now, s, T) := q in
  let now := now + rn_delay s + at_late a in
  let '(T, answer) := match at_lost a with
                      | Some e => (T, Err e)
                      | None => renew_lease now (rn_current s) T
                      end in
  (T, now, renewal_step interval retry now answer s).

Fixpoint renewal_loop (interval retry : Z) (q : Renewing) (attempts : list Attempt)
    : Renewing + (DateTime * OwnerLease * LeaseTable) :=
  match attempts with
  | [] => inl q
  | a :: rest =>
      match attempt_renewal interval retry q a with
      | (T, now, Ok s) => renewal_loop interval retry (now, s, T) rest
      | (T, now, Err _) => inr (now, rn_current q.1.2, T)
      end
  end.

(* SRC crates/exocortex-dreams/src/lib.rs 910-964 spawn_lease_renewal *)
Definition spawn_lease_renewal (lease_ttl : Z) (l : OwnerLease) (now : DateTime) (T : LeaseTable)
    (attempts : list Attempt) : Renewing + (DateTime * OwnerLease * LeaseTable) :=
  let ttl := renewal_ttl lease_ttl l in
  renewal_loop (renewal_interval ttl) (renewal_retry ttl) (now, mkRenewal l (renewal_interval ttl), T) attempts.

(** ** The turn of the loop *)

Section turn.
Context `{Blake3, Sha256, Bincode, HashOrder, DiscoveryJson, Ln}.
Context (o : Ontology) (script : nat → Event) (clock : nat → DateTime) (uuid : nat → string).

(** The region at the head of the queue, its cycle under the identity of its fire, and the completion. *)
(* SRC crates/exocortex-dreams/src/lib.rs 655-709 run *)
Definition run_turn (en : Engine) (fire_id : option string) (d : Dreams)
    : M (Dreams * option (result (option ConsolidationResult) DreamsError)) :=
  match take_region d with
  | None => ret (d, None)
  | Some (region, fired_at, d) =>
      do! outcome := attempt (try_consolidate_inner o script clock uuid en region
                                ((λ id, "dream-fire:" +:+ id) <$> fire_id)) in
      let success := match outcome with Ok _ => true | Err _ => false end in
      do! t := DreamsCycle.now clock in
      ret (complete_region t region fired_at success d, Some outcome)
  end.

(** ** Proposals *)

Definition st_create_proposal (p : DiscoveryProposal) (clk : nat → DateTime) (st : Store) :=
  let '(d, r) := create_discovery_proposal p (governed st) in (put_governed d st, r).

(** A pending discovery becomes a stored proposal and leaves the engine. *)
(* SRC crates/exocortex-dreams/src/lib.rs 2054-2078 issue_discovery_proposal *)
Definition issue_discovery_proposal (d : Discovery) (region : RegionKey) (kind : RelKindId)
    (visibility : Visibility) (scope : VisibilityContext) : M DiscoveryProposal :=
  let p := {|
    dp_discovery_id := di_id d;
    dp_region := region;
    dp_from := (di_endpoints d).1;
    dp_to := (di_endpoints d).2;
    dp_kind := kind;
    proposed_visibility := visibility;
    dp_caller_scope := scope;
    issued_at := di_discovered_at d;
  |} in
  do! r := call script Unwatched 0 (st_create_proposal p) in
  do! _ := or_fail StorageFailed r in
  (λ c, (put_discoveries (delete (di_id d) (cy_discoveries c)) c, Done p)).

(* SRC crates/exocortex-dreams/src/lib.rs 2080-2083 pending_discoveries *)
Definition pending_discoveries : M (list Discovery) := λ c, (c, Done (hash_values (cy_discoveries c))).
End turn.

(** ** The renewal keeps the lease *)

(** The store holds [l], which is still good at [now] for what is left of the sleep and the reserve. *)
Record renewing (ttl : Z) (key : LeaseKey) (token : string) (q : Renewing) : Prop := {
  rg_held : leases q.2 !! key = Some (mkInMemoryLease token (expires_at (rn_current q.1.2)));
  rg_key : ol_key (rn_current q.1.2) = key;
  rg_token : fencing_token (rn_current q.1.2) = token;
  rg_ttl : expires_at (rn_current q.1.2) - acquired_at (rn_current q.1.2) = ttl;
  rg_delay : 0 ≤ rn_delay q.1.2;
  rg_reserve : q.1.1 + rn_delay q.1.2 + ttl / 3 ≤ expires_at (rn_current q.1.2);
  rg_slack : expires_at (rn_current q.1.2) - (q.1.1 + rn_delay q.1.2 + ttl / 3) ≤ 5 * renewal_retry ttl;
}.

Definition prompt (ttl : Z) (a : Attempt) : Prop := 0 ≤ at_late a < ttl / 3.
Definition unanswered (a : Attempt) : Prop := at_lost a ≠ None.

Lemma interval_third ttl : 3 * one_ms ≤ ttl → renewal_interval ttl = ttl / 3 ∧ one_ms ≤ ttl / 3.
Proof. unfold renewal_interval, one_ms. intros Ht. assert (10 ^ 6 ≤ ttl / 3) by (apply Z.div_le_lower_bound; lia). lia. Qed.

Lemma slack_bound ttl : 3 * one_ms ≤ ttl → ttl - 2 * (ttl / 3) ≤ 5 * renewal_retry ttl.
Proof.
  unfold renewal_retry, one_ms. intros Ht. pose proof (Z.div_mod ttl 3). pose proof (Z.mod_pos_bound ttl 3).
  pose proof (Z.div_mod ttl 12). pose proof (Z.mod_pos_bound ttl 12). lia.
Qed.

(** A call that is answered confirms a whole lease; one that is not leaves the reserve. *)
Lemma attempt_keeps ttl key token q a : 3 * one_ms ≤ ttl → prompt ttl a → renewing ttl key token q →
  match attempt_renewal (ttl / 3) (renewal_retry ttl) q a with
  | (T, now, Ok s) => renewing ttl key token (now, s, T) ∧ now < expires_at (rn_current s)
  | (T, now, Err _) => leases T !! key = Some (mkInMemoryLease token (expires_at (rn_current q.1.2))) ∧
                       unanswered a ∧ ttl / 3 - at_late a ≤ expires_at (rn_current q.1.2) - now
  end.
Proof.
  intros Ht [Hl0 Hl]. destruct (interval_third ttl Ht) as [_ H3]. pose proof (slack_bound ttl Ht) as Hs.
  assert (Hr : one_ms ≤ renewal_retry ttl) by (unfold renewal_retry; lia). pose proof (Z.mul_div_le ttl 3).
  unfold one_ms in *.
  destruct q as [[now s] T]. intros [Hh Hk Htok Httl Hd Hre Hsl]. simpl in *. unfold attempt_renewal.
  set (t := now + rn_delay s + at_late a). destruct (at_lost a) as [e|] eqn:Ha.
  - cbn [renewal_step]. destruct (Z.leb_spec (Z.max 0 (expires_at (rn_current s) - t)) (ttl / 3)).
    + split; [done|]. split; [by unfold unanswered; rewrite Ha|lia].
    + unfold saturating_sub. split; [|simpl; lia]. split; simpl; try done; lia.
  - unfold renew_lease. rewrite Hk, Hh. cbn [il_token il_expires_at]. rewrite Htok, String.eqb_refl.
    destruct (Z.ltb_spec t (expires_at (rn_current s))); [|lia]. cbn. split; [|lia].
    split; cbn; rewrite ?lookup_insert_eq; try done; lia.
Qed.

Lemma loop_keeps ttl key token attempts q : 3 * one_ms ≤ ttl → Forall (prompt ttl) attempts →
  renewing ttl key token q →
  match renewal_loop (ttl / 3) (renewal_retry ttl) q attempts with
  | inl q' => renewing ttl key token q'
  | inr (now, l, T) => leases T !! key = Some (mkInMemoryLease token (expires_at l)) ∧
                       ∃ a, a ∈ attempts ∧ unanswered a ∧ ttl / 3 - at_late a ≤ expires_at l - now
  end.
Proof.
  intros Ht Hp. revert q. induction Hp as [|a rest Ha Hp IH]; intros q Hq; [done|]. cbn [renewal_loop].
  pose proof (attempt_keeps ttl key token q a Ht Ha Hq) as Hk.
  destruct (attempt_renewal _ _ q a) as [[T now] [s|e]].
  - destruct Hk as [Hk _]. specialize (IH _ Hk). destruct (renewal_loop _ _ _ rest) as [q'|[[? ?] ?]]; [done|].
    destruct IH as (Hh & x & Hx & Hu & Hr). split; [done|]. exists x. split_and!; [by right|done..].
  - destruct Hk as (? & ? & ?). split; [done|]. exists a. split_and!; [by left|done..].
Qed.

(** Six calls in a row without an answer end the task. *)
Lemma loop_ends ttl key token n attempts q : 3 * one_ms ≤ ttl → Forall (λ a, prompt ttl a ∧ unanswered a) attempts →
  renewing ttl key token q →
  expires_at (rn_current q.1.2) - (q.1.1 + rn_delay q.1.2 + ttl / 3) ≤ Z.of_nat n * renewal_retry ttl →
  length attempts = S n → ∃ x, renewal_loop (ttl / 3) (renewal_retry ttl) q attempts = inr x.
Proof.
  intros Ht Hp. revert n q. induction Hp as [|a rest [Ha Hu] Hp IH]; intros n q Hq Hsl Hlen; [done|]. cbn [renewal_loop].
  pose proof (attempt_keeps ttl key token q a Ht Ha Hq) as Hk. injection Hlen as Hlen.
  destruct (attempt_renewal _ _ q a) as [[T now] [s|e]] eqn:Hat; [|eexists; reflexivity].
  destruct Hk as [Hk _]. destruct q as [[t s0] T0]. unfold attempt_renewal, unanswered in *. destruct (at_lost a) as [e|]; [|by destruct Hu].
  simpl in Hsl. cbn [renewal_step] in Hat. destruct (Z.leb_spec (Z.max 0 (expires_at (rn_current s0) - (t + rn_delay s0 + at_late a))) (ttl / 3)); [discriminate|].
  injection Hat as <- <- <-. unfold saturating_sub in *. destruct Ha as [Ha _].
  destruct (interval_third ttl Ht) as [_ H3]. unfold one_ms in *. destruct n as [|n]; [lia|].
  apply (IH n); [done| |done]. simpl. assert (0 ≤ Z.of_nat n * renewal_retry ttl) by (apply Z.mul_nonneg_nonneg; unfold renewal_retry, one_ms; lia).
  rewrite Nat2Z.inj_succ, Z.mul_succ_l in Hsl. lia.
Qed.

(** C17: while a cycle runs, the task that renews its lease wakes a third of the lease before it lapses at the
    latest.  As long as its calls are answered the lease is held by the same token, whenever it is looked
    at; when they are not, the task gives up on a call that was not answered, with a third of the lease
    left - less what it woke too late - for the rollback to be fenced; and it gives up after six calls
    without an answer at most, however long the lease. *)
Theorem renewal_reserve lease_ttl l T before after :
  let ttl := expires_at l - acquired_at l in
  let held T l := leases T !! ol_key l = Some (mkInMemoryLease (fencing_token l) (expires_at l)) in
  3 * one_ms ≤ ttl → held T l → Forall (prompt ttl) (before ++ after) →
  match spawn_lease_renewal lease_ttl l (acquired_at l) T before with
  | inl (now, s, T') =>
      leases T' !! ol_key l = Some (mkInMemoryLease (fencing_token l) (expires_at (rn_current s))) ∧
      now + rn_delay s + ttl / 3 ≤ expires_at (rn_current s) ∧
      (length after = 6%nat → Forall unanswered after →
       ∃ x, spawn_lease_renewal lease_ttl l (acquired_at l) T (before ++ after) = inr x)
  | inr (now, l', T') =>
      leases T' !! ol_key l = Some (mkInMemoryLease (fencing_token l) (expires_at l')) ∧
      ∃ a, a ∈ before ∧ unanswered a ∧ 0 < ttl / 3 - at_late a ≤ expires_at l' - now
  end.
Proof.
  intros ttl held Ht Hh [Hb Ha]%Forall_app. unfold spawn_lease_renewal.
  assert (renewal_ttl lease_ttl l = ttl) as -> .
  { unfold renewal_ttl. destruct (Z.leb_spec (acquired_at l) (expires_at l)); [done|]. unfold one_ms, ttl in *. lia. }
  destruct (interval_third ttl Ht) as [-> H3]. pose proof (slack_bound ttl Ht) as Hs. unfold one_ms in H3.
  assert (Hq : renewing ttl (ol_key l) (fencing_token l) (acquired_at l, mkRenewal l (ttl / 3), T)).
  { split; simpl; try done; pose proof (Z.mul_div_le ttl 3); subst ttl; lia. }
  assert (Happ : ∀ q, renewal_loop (ttl / 3) (renewal_retry ttl) q (before ++ after) =
    match renewal_loop (ttl / 3) (renewal_retry ttl) q before with
    | inl q => renewal_loop (ttl / 3) (renewal_retry ttl) q after | inr x => inr x end).
  { clear. induction before as [|a l' IH]; intros q; [done|]. simpl. by destruct (attempt_renewal _ _ q a) as [[? ?] []]. }
  rewrite Happ. pose proof (loop_keeps ttl _ _ before _ Ht Hb Hq) as Hk.
  destruct (renewal_loop _ _ _ before) as [[[now s] T']|[[now l'] T']].
  - split_and!; [apply Hk..|]. intros Hlen Hu. eapply (loop_ends ttl _ _ 5); [done| |exact Hk|apply Hk|done].
    apply Forall_forall. intros x Hx. rewrite Forall_forall in Ha, Hu. auto.
  - destruct Hk as (? & a & Hin & Hua & Hr). split; [done|]. exists a. rewrite Forall_forall in Hb.
    split_and!; [done..| |done]. pose proof (Hb a Hin) as [_ ?]. lia.
Qed.

(** ** What a turn does *)

Lemma take_counter d region f d' r : take_region d = Some (region, f, d') → counter_of d' r = counter_of d r.
Proof.
  unfold take_region. destruct d as [a c p e l t [|[] ?] n]; [done|]. by intros [= <- <- <-].
Qed.

(** A turn of the loop takes the counters of a region down by what its fire was for exactly when the cycle
    was settled, in this turn or before it; otherwise the counters keep every write and the store is what
    it was, with what others wrote. *)
Theorem turn_exact `{Blake3, Sha256, Bincode, HashOrder, DiscoveryJson, Ln} o script clock uuid en fire_id d
    region fired_at d1 c :
  let k := dreams_key region in
  let st := cy_store c in
  let done_ := succeeded_cycles (journals st) in
  engine_ok (d, None) → take_region d = Some (region, fired_at, d1) → sound k st → cy_others c = [] →
  match run_turn o script clock uuid en fire_id d c with
  | (c', Done (d', Some outcome)) =>
      engine_ok (d', None) ∧
      (∀ r b, weight b (counter_of d' r) = weight b (counter_of d r) -
         match outcome with Ok _ => if bool_decide (region = r) then weight b fired_at else 0 | Err _ => 0 end) ∧
      match outcome with
      | Ok (Some _) => ∃ id, done_ !! (k, id) = None ∧ settled k (logical k st) done_ id c'
      | Ok None => (∃ id, is_Some (done_ !! (k, id))) ∧ tracks k (logical k st) done_ c'
      | Err _ => tracks k (logical k st) done_ c'
      end
  | (c', Crashed) => tracks k (logical k st) done_ c' ∨
                     ∃ id, done_ !! (k, id) = None ∧ settled k (logical k st) done_ id c'
  | (_, Exhausted) => True
  | _ => False
  end.
Proof.
  intros k st done_ Hok Ht Hs Hnil. unfold run_turn. rewrite Ht.
  pose proof (λ r, take_counter _ _ _ _ r Ht) as Hcnt.
  pose proof (take_ok d d1 region fired_at Ht Hok) as Hok1.
  assert (untouched k (logical k st) done_ (journals st) (rows (graph st)) c) as Hc.
  { split; [split|]; rewrite ?Hnil; [done|intros s; by rewrite app_nil_r|done|]. split; [done|intros s; by rewrite app_nil_r]. }
  pose proof (cycle_ends o script clock uuid k (logical k st) done_ en region
    ((λ id, "dream-fire:" +:+ id) <$> fire_id) (journals st) (rows (graph st)) eq_refl c Hc) as He.
  unfold bind, attempt, ret, DreamsCycle.now. cbv beta.
  pose proof (stable_tracks k (logical k st) done_) as HT.
  destruct (try_consolidate_inner _ _ _ _ _ _ _ c) as [c' [res|e| | |]]; cbv beta iota in *; try done;
    (split; [by apply complete_ok|]; split;
      [intros r b; rewrite (complete_counter _ _ _ _ d1 b r Hok1), Hcnt; simpl; try case_bool_decide; lia|]).
  - destruct res as [res|].
    + destruct He as (id & ? & ?). exists id. split; [done|]. by apply (st_tick _ (stable_settlement _ _ _ id)).
    + destruct He as (? & ? & _). split; [done|]. by apply (st_tick _ HT).
  - by apply (st_tick _ HT).
  - by apply (st_tick _ HT).
Qed.
