(* ===== verification/Effects.v ===== *)
(** * The post-ingest effect worker

    [deliver_post_ingest_effect], [reclaim_ingest_effect] and [run_post_ingest_effects] of
    [crates/exocortex-ingest/src/service.rs]: a durable effect is claimed, told to the Dreams counters
    and to the reasoning worker, acknowledged, and its delivery identity forgotten.

    A delivery is a future that its worker drops when it loses its claim, so it is modelled as the
    sequence of its await points ([Phase]); [run_delivery] interleaves them with the renewals of the
    claim, and a schedule that ends early is a worker that died. *)

From stdpp Require Import strings.
From S2P Require Import Prelude Ids Kernel Packs StorageTypes Graph Ingest IngestCommit Trigger.

(** ** What the worker needs *)

(** The outbox of the storage seam; the first argument of an operation is the instant it runs at. *)
Class EffectOutbox (S : Type) := {
  eo_claim : Z → string → Z → S → S * result (option ClaimedPostIngestEffect) StorageError;
  eo_renew : Z → string → string → Z → S → S * result bool StorageError;
  eo_acknowledge : Z → string → string → S → S * result bool StorageError;
  eo_cleanups : Z → S → result (list ClaimedPostIngestEffect) StorageError;
  eo_complete : string → S → S * result bool StorageError;
}.

Definition in_memory_outbox `{HashOrder} : EffectOutbox IngestState := {|
  eo_claim := claim_ingest_effect;
  eo_renew := renew_ingest_effect_claim;
  eo_acknowledge := acknowledge_ingest_effect;
  eo_cleanups := pending_ingest_effect_cleanups;
  eo_complete := complete_ingest_effect_cleanup;
|}.

(** The reasoning worker, asked for one durable wrap-up of a session and awaited. *)
Class ReasoningWorker (R : Type) := {
  rw_wrapup : string → list MemoryId → R → R * result unit StorageError;
}.

Definition CLAIM_LEASE_MS : Z := 30000.

Section Worker.
Context {S D R : Type} `{EffectOutbox S, WriteSink D, ReasoningWorker R}.

Record World := mkWorld {
  storage : S;
  dreams : option D;
  reasoning : option R;
}.

Definition with_storage (st : S) (w : World) : World := mkWorld st (dreams w) (reasoning w).
Definition with_dreams (d : D) (w : World) : World := mkWorld (storage w) (Some d) (reasoning w).
Definition with_reasoning (r : R) (w : World) : World := mkWorld (storage w) (dreams w) (Some r).

(** Where a delivery is: the deltas it has yet to count, the wrap-up, the acknowledgement, and the two
    calls of the reclamation. *)
Inductive Phase :=
  | Deltas (rest : list IngestRegionDelta)
  | Wrapup
  | Acknowledge
  | Settle
  | Cleanup
  | Done (r : result unit string).

(** [reclaim_ingest_effect] up to its first await, and from there. *)
Definition settle_step (claimed : ClaimedPostIngestEffect) (w : World) : World * Phase :=
  match dreams w with
  | None => (w, Cleanup)
  | Some d =>
      let '(d, r) := ws_settle (effect_id (ce_effect claimed)) (ce_delivery_generation claimed)
                       (ce_retain_legacy_identity claimed)
                       (rd_region <$> region_deltas (ce_effect claimed)) d in
      match r with
      | Ok _ => (with_dreams d w, Cleanup)
      | Err e => (with_dreams d w, Done (Err
          ("post-ingest effect was acknowledged but Dreams identity reclamation failed: " +:+ e)))
      end
  end.

Definition cleanup_step (claimed : ClaimedPostIngestEffect) (w : World) : World * Phase :=
  let '(st, r) := eo_complete (effect_id (ce_effect claimed)) (storage w) in
  (with_storage st w, Done match r with
    | Err e => Err (StorageError_to_string e)
    | Ok false => Err "post-ingest cleanup lost its acknowledged effect"
    | Ok true => Ok tt
    end).

(* SRC crates/exocortex-ingest/src/service.rs 2256-2290 reclaim_ingest_effect *)
Definition reclaim_ingest_effect (claimed : ClaimedPostIngestEffect) (w : World) : World * result unit string :=
  match settle_step claimed w with
  | (w, Done r) => (w, r)
  | (w, _) => match cleanup_step claimed w with
              | (w, Done r) => (w, r)
              | (w, _) => (w, Ok tt)
              end
  end.

(* SRC crates/exocortex-ingest/src/service.rs 2212-2254 deliver_post_ingest_effect *)
Definition delivery_step (utc : DateTime) (now : Z) (token : string) (claimed : ClaimedPostIngestEffect)
    (ph : Phase) (w : World) : World * Phase :=
  let effect := ce_effect claimed in
  match ph with
  | Deltas (delta :: rest) =>
      match dreams w with
      | None => (w, Wrapup)
      | Some d =>
          let '(d, r) := ws_record utc (effect_id effect) (ce_delivery_generation claimed) (rd_region delta)
                           (rd_memories delta) (rd_relationships delta) d in
          (with_dreams d w, match r with Ok _ => Deltas rest | Err e => Done (Err e) end)
      end
  | Deltas [] => (w, Wrapup)
  | Wrapup =>
      match session_memory_ids effect, reasoning w with
      | _ :: _, Some engine =>
          let '(engine, r) := rw_wrapup ("reasoning:" +:+ effect_id effect) (session_memory_ids effect) engine in
          (with_reasoning engine w,
           match r with Ok _ => Acknowledge | Err e => Done (Err (StorageError_to_string e)) end)
      | _, _ => (w, Acknowledge)
      end
  | Acknowledge =>
      let '(st, r) := eo_acknowledge now (effect_id effect) token (storage w) in
      (with_storage st w, match r with
        | Err e => Done (Err (StorageError_to_string e))
        | Ok false => Done (Err "post-ingest outbox acknowledgement lost its pending effect")
        | Ok true => Settle
        end)
  | Settle => settle_step claimed w
  | Cleanup => cleanup_step claimed w
  | Done r => (w, Done r)
  end.

(** A turn of the worker's select: the renewal timer, or the delivery. *)
Inductive Turn := Renewal (now : Z) | Progress (utc : DateTime) (now : Z).

(* SRC crates/exocortex-ingest/src/service.rs 2292-2390 run_post_ingest_effects *)
Fixpoint run_delivery (token : string) (claimed : ClaimedPostIngestEffect) (sched : list Turn) (ph : Phase)
    (w : World) : World * Phase :=
  match ph, sched with
  | Done _, _ | _, [] => (w, ph)
  | _, Renewal now :: rest =>
      let '(st, r) := eo_renew now (effect_id (ce_effect claimed)) token CLAIM_LEASE_MS (storage w) in
      let w := with_storage st w in
      match r with
      | Ok true => run_delivery token claimed rest ph w
      | Ok false => (w, Done (Err "post-ingest claim ownership was lost"))
      | Err e => (w, Done (Err ("post-ingest claim renewal failed: " +:+ StorageError_to_string e)))
      end
  | _, Progress utc now :: rest =>
      let '(w, ph) := delivery_step utc now token claimed ph w in run_delivery token claimed rest ph w
  end.

(** One pass of the loop: an effect already acknowledged is cleaned up first. *)
(* SRC crates/exocortex-ingest/src/service.rs 2292-2390 run_post_ingest_effects *)
Definition effects_pass (now : Z) (claim_token : string) (sched : list Turn) (w : World) : World * option Phase :=
  match eo_cleanups 1 (storage w) with
  | Err _ => (w, None)
  | Ok (claimed :: _) => let '(w, r) := reclaim_ingest_effect claimed w in (w, Some (Done r))
  | Ok [] =>
      match eo_claim now claim_token CLAIM_LEASE_MS (storage w) with
      | (st, Ok (Some claimed)) =>
          let '(w, ph) := run_delivery claim_token claimed sched (Deltas (region_deltas (ce_effect claimed)))
                            (with_storage st w) in (w, Some ph)
      | (st, _) => (with_storage st w, None)
      end
  end.

(** ** Acknowledged only once told *)

(** The counters went from [d] to [d'] by recording each delta of the effect, in order, successfully. *)
Inductive told (claimed : ClaimedPostIngestEffect) : list IngestRegionDelta → D → D → Prop :=
  | told_nil d : told claimed [] d d
  | told_cons utc delta rest d d1 d' :
      ws_record utc (effect_id (ce_effect claimed)) (ce_delivery_generation claimed) (rd_region delta)
        (rd_memories delta) (rd_relationships delta) d = (d1, Ok tt) →
      told claimed rest d1 d' → told claimed (delta :: rest) d d'.

Lemma told_app claimed ds1 ds2 d d1 d2 :
  told claimed ds1 d d1 → told claimed ds2 d1 d2 → told claimed (ds1 ++ ds2) d d2.
Proof. induction 1; simpl; [done|]. intros. econstructor; eauto. Qed.
End Worker.

Section Told.
Context `{HashOrder} {D R : Type} `{WriteSink D, ReasoningWorker R}.
#[local] Existing Instance in_memory_outbox.
Implicit Types (w : World (S:=IngestState) (D:=D) (R:=R)).

(** The effect's row is acknowledged. *)
Definition acked (id : string) (st : IngestState) : bool :=
  match ingest_effects st !! id with Some row => acknowledged row | None => false end.

Definition all_told (claimed : ClaimedPostIngestEffect) (o : option D) : Prop :=
  ∀ d, o = Some d → ∃ d', told claimed (region_deltas (ce_effect claimed)) d d'.
Definition wrapped_up (claimed : ClaimedPostIngestEffect) (o : option R) : Prop :=
  session_memory_ids (ce_effect claimed) ≠ [] → ∀ r, o = Some r → ∃ r',
    rw_wrapup ("reasoning:" +:+ effect_id (ce_effect claimed)) (session_memory_ids (ce_effect claimed)) r = (r', Ok tt).

(** What a delivery begun at [w0] has done when it is in a phase at [w]. *)
Definition progressed (claimed : ClaimedPostIngestEffect) w0 (ph : Phase) w : Prop :=
  let id := effect_id (ce_effect claimed) in
  match ph with
  | Deltas rest => acked id (storage w) = false ∧ reasoning w = reasoning w0 ∧
      ∃ before, region_deltas (ce_effect claimed) = before ++ rest ∧
        (∀ d0, dreams w0 = Some d0 → ∃ d, dreams w = Some d ∧ told claimed before d0 d) ∧
        (dreams w0 = None → dreams w = None)
  | Wrapup => acked id (storage w) = false ∧ reasoning w = reasoning w0 ∧ all_told claimed (dreams w0)
  | Done _ => acked id (storage w) = true → all_told claimed (dreams w0) ∧ wrapped_up claimed (reasoning w0)
  | _ => all_told claimed (dreams w0) ∧ wrapped_up claimed (reasoning w0)
  end.

Lemma renew_acked now id token ms st id' :
  acked id' (renew_ingest_effect_claim now id token ms st).1 = acked id' st.
Proof.
  unfold renew_ingest_effect_claim, acked. destruct (ingest_effects st !! id) as [row|] eqn:E; [|done].
  destruct (holds_claim now token row); [|done]. simpl.
  destruct (set_effects_fields <[id := with_claim (Some (token, claim_until now ms)) row]> st) as (_ & _ & -> & _).
  destruct (decide (id = id')) as [<-|]; [|by rewrite lookup_insert_ne]. rewrite lookup_insert_eq, E. by destruct row.
Qed.

Lemma delivery_step_progress utc now token claimed w0 ph w w' ph' :
  delivery_step utc now token claimed ph w = (w', ph') →
  progressed claimed w0 ph w → progressed claimed w0 ph' w'.
Proof.
  destruct ph as [rest| | | | |r]; simpl.
  - intros E (Hack & Hr & before & Hds & Hd & Hn). destruct rest as [|delta rest].
    { injection E as <- <-. split_and!; [done..|]. intros d0 Ed0. rewrite app_nil_r in Hds. rewrite Hds.
      destruct (Hd d0 Ed0) as (d & _ & Ht). by exists d. }
    destruct (dreams w) as [d|] eqn:Ew.
    2:{ injection E as <- <-. split_and!; [done..|]. intros d0 Ed0. destruct (Hd d0 Ed0) as (? & ? & _). congruence. }
    destruct (ws_record _ _ _ _ _ _ _) as [d1 r] eqn:Erec. destruct r as [[]|e]; injection E as <- <-; simpl.
    + split_and!; [done..|]. exists (before ++ [delta]). split_and!.
      * by rewrite <-(assoc_L (++)).
      * intros d0 Ed0. destruct (Hd d0 Ed0) as (d' & [= <-] & Ht). exists d1. split; [done|].
        eapply told_app; [done|]. by econstructor; [|constructor].
      * intros Hno. by specialize (Hn Hno).
    + intros Hack'. congruence.
  - intros E (Hack & Hr & Htold). destruct (session_memory_ids (ce_effect claimed)) as [|x ids] eqn:Eids.
    { injection E as <- <-. split; [done|]. intros Hne. by rewrite Eids in Hne. }
    destruct (reasoning w) as [eng|] eqn:Er.
    2:{ injection E as <- <-. split; [done|]. intros _ r0 Er0. congruence. }
    destruct (rw_wrapup _ _ _) as [eng' r] eqn:Ew. destruct r as [[]|e]; injection E as <- <-; simpl.
    + split; [done|]. intros _ r0 Er0. rewrite Er0 in Hr. injection Hr as <-. rewrite Eids. by exists eng'.
    + intros Hack'. congruence.
  - intros E Hdone. destruct (acknowledge_ingest_effect _ _ _ _) as [st r]. injection E as <- <-.
    destruct r as [[]|]; simpl; try intros _; done.
  - intros E Hdone. unfold settle_step in E. destruct (dreams w) as [d0|]; [|by injection E as <- <-].
    destruct (ws_settle _ _ _ _ _) as [d r]. destruct r; injection E as <- <-; [done|]. by intros _.
  - intros E Hdone. unfold cleanup_step in E. simpl in E. destruct (complete_ingest_effect_cleanup _ _) as [st r].
    injection E as <- <-. by intros _.
  - intros E Hd. by injection E as <- <-.
Qed.

Lemma with_storage_progress claimed w0 ph w st :
  acked (effect_id (ce_effect claimed)) st = acked (effect_id (ce_effect claimed)) (storage w) →
  progressed claimed w0 ph w → progressed claimed w0 ph (with_storage st w).
Proof. intros E. destruct ph; simpl; rewrite ?E; done. Qed.

Lemma run_delivery_progress token claimed w0 sched ph w w' ph' :
  run_delivery token claimed sched ph w = (w', ph') →
  progressed claimed w0 ph w → progressed claimed w0 ph' w'.
Proof.
  revert ph w. induction sched as [|turn sched IH]; intros ph w E Hp.
  { destruct ph; simpl in E; by injection E as <- <-. }
  assert (Hdone : ∀ r, ph = Done r → progressed claimed w0 ph' w').
  { intros r ->. simpl in E. by injection E as <- <-. }
  destruct ph as [rest| | | | |r]; [..|by eapply Hdone]; clear Hdone; cbn [run_delivery] in E; destruct turn as [now|utc now];
    try (destruct (delivery_step utc now token claimed _ w) as [w1 ph1] eqn:Es;
         eapply IH; [exact E|eapply delivery_step_progress; [exact Es|exact Hp]]).
  all: change (@eo_renew _ in_memory_outbox) with renew_ingest_effect_claim in E.
  all: match type of E with context [renew_ingest_effect_claim ?n ?i ?t ?m ?s] =>
    pose proof (renew_acked n i t m s (effect_id (ce_effect claimed))) as Ha;
    destruct (renew_ingest_effect_claim n i t m s) as [st r] end.
  all: simpl in Ha; destruct r as [[]|e].
  all: try (eapply IH; [exact E|by apply with_storage_progress]).
  all: injection E as <- <-; simpl; intros Hack; try done; destruct Hp as [Hp1 Hp2]; try done; congruence.
Qed.

(** C14: a claimed effect is acknowledged only once it was told: if a delivery, however interleaved with the
    renewals of its claim and wherever it stopped, leaves a row acknowledged that was not, then the
    Dreams counters recorded every region of the effect, in order and without error, and the reasoning
    worker finished the wrap-up of its session.  An effect either consumer refused therefore stays in the
    outbox. *)
Theorem acknowledged_told token claimed sched w w' ph :
  run_delivery token claimed sched (Deltas (region_deltas (ce_effect claimed))) w = (w', ph) →
  acked (effect_id (ce_effect claimed)) (storage w) = false →
  acked (effect_id (ce_effect claimed)) (storage w') = true →
  all_told claimed (dreams w) ∧ wrapped_up claimed (reasoning w).
Proof.
  intros E Hno Hyes. assert (Hp : progressed claimed w ph w').
  { eapply run_delivery_progress; [exact E|]. simpl. split_and!; [done..|]. exists []. split_and!; [done| |done].
    intros d0 Ed0. exists d0. split; [done|constructor]. }
  destruct ph; simpl in Hp; try done; try (by apply Hp); destruct Hp as [Hp _]; congruence.
Qed.
End Told.

(** ** The local counters are told twice *)

(** A worker whose reasoning fails the first time it is asked. *)
#[local] Instance flaky_worker : ReasoningWorker nat := {|
  rw_wrapup _ _ n := (Datatypes.S n, if (n =? 0)%nat then Err (Backend "down") else Ok tt);
|}.

Section Twice.
#[local] Existing Instance demo_order.
#[local] Existing Instance in_memory_outbox.
#[local] Existing Instance local_sink.

Definition demo_effect (id : string) (ids : list MemoryId) : PostIngestEffect :=
  mkPostIngestEffect id ids [mkIngestRegionDelta demo_region 1 0].

(** The outbox once the effect has been committed. *)
Definition commit_effect (e : PostIngestEffect) : IngestState → IngestState :=
  set_effects <[effect_id e := mkEffectRow e false false None false None]>.

Definition progress (now : Z) (n : nat) : list Turn := repeat (Progress 0 now) n.

(** The effect ["b"] is counted, and its wrap-up fails; its claim runs out; the effect ["a"] of the same
    region is committed, delivered and cleaned up; ["b"] is delivered again. *)
Definition twice_trace : World (S:=IngestState) (D:=Dreams) (R:=nat) :=
  let w := mkWorld (commit_effect (demo_effect "b" [mkMemoryId [1]]) no_ingest) (Some (DreamsEngine_new DreamsTrigger_default)) (Some 0%nat) in
  let w := (effects_pass 0 "t1" (progress 0 9) w).1 in
  let w := with_storage (commit_effect (demo_effect "a" []) (storage w)) w in
  let w := (effects_pass (31 * 10 ^ 9) "t2" (progress (31 * 10 ^ 9) 9) w).1 in
  (effects_pass (32 * 10 ^ 9) "t3" (progress (32 * 10 ^ 9) 9) w).1.

(** Two effects of one memory each, and a counter of three: the local engine remembers only the latest
    effect of a region, and the deliveries are not serialized as its comment says they are. *)
Lemma local_delivery_counts_twice :
  let w := twice_trace in
  acked "a" (storage w) = true ∧ acked "b" (storage w) = true ∧
  ((λ d, memories_since (counter_of d demo_region)) <$> dreams w) = Some 3.
Proof. vm_compute. done. Qed.
End Twice.
