(* ===== verification/Rules.v ===== *)
(** * The rule program

    [crates/exocortex-reasoning/src/rules.rs]: the Datalog program over a bounded scope of facts.
    [crepe] evaluates rules to sets; no head of this program occurs in a body, so one pass over the
    input relations is the fixpoint, and every rule is a join of two input relations.  A relation
    is a [gset]; the vectors of [Derived] enumerate the output sets in an unspecified order. *)

From S2P Require Import Prelude Ids Kernel Packs Ontology StorageTypes Graph Reads ShippedPacks.

(** ** Facts *)

(* SRC crates/exocortex-reasoning/src/rules.rs 72-73 Edge *)
Definition Edge : Type := MemoryId * MemoryId * RelKindId.
(* SRC crates/exocortex-reasoning/src/rules.rs 76-77 EntityFact *)
Definition EntityFact : Type := MemoryId * EntityId.
(* SRC crates/exocortex-reasoning/src/rules.rs 80-81 TagFact *)
Definition TagFact : Type := MemoryId * Z.
(* SRC crates/exocortex-reasoning/src/rules.rs 84-85 MemoryFact *)
Definition MemoryFact : Type := MemoryId * Z.

(** The position of a variant in the developer pack's [MemoryType]. *)
Definition type_const (name : string) : Z :=
  match list_find (λ n, n = name) (p_memory_type_names dev_pack) with
  | Some (i, _) => Z.of_nat i
  | None => 0
  end.
(* SRC crates/exocortex-reasoning/src/rules.rs 22-22 SOLUTION_TYPE *)
Definition SOLUTION_TYPE : Z := Eval vm_compute in type_const "Solution".
(* SRC crates/exocortex-reasoning/src/rules.rs 23-23 FIX_TYPE *)
Definition FIX_TYPE : Z := Eval vm_compute in type_const "Fix".
(* SRC crates/exocortex-reasoning/src/rules.rs 24-24 PROBLEM_TYPE *)
Definition PROBLEM_TYPE : Z := Eval vm_compute in type_const "Problem".

(* SRC crates/exocortex-reasoning/src/rules.rs 26-42 PackKinds *)
Record PackKinds := mkPackKinds {
  depends_on : RelKindId;
  requires : RelKindId;
  builds_on : RelKindId;
  blocks : RelKindId;
  contradicts : RelKindId;
  confirms : RelKindId;
  modifies : RelKindId;
}.

(* SRC crates/exocortex-reasoning/src/rules.rs 54-67 prime *)
Definition prime `{HashOrder} (onto : Ontology) : option PackKinds :=
  depends_on ← kind_id onto "DependsOn";
  requires ← kind_id onto "Requires";
  builds_on ← kind_id onto "BuildsOn";
  blocks ← kind_id onto "Blocks";
  contradicts ← kind_id onto "Contradicts";
  confirms ← kind_id onto "Confirms";
  modifies ← kind_id onto "Modifies";
  Some (mkPackKinds depends_on requires builds_on blocks contradicts confirms modifies).

(** ** Rules *)

Section rules.
Context (pk : PackKinds).
Implicit Types (edges : list Edge).

(** The pairs a two-atom body gives. *)
Definition join {A B C} `{Countable C} (l : list A) (k : list B) (f : A → B → option C) : gset C :=
  list_to_set (l ≫= λ x, omap (f x) k).

(** [Edge(a, b, k1), Edge(b, c, k2), k1 == u, k2 == v]. *)
Definition chain (u v : RelKindId) edges : gset (MemoryId * MemoryId) :=
  join edges edges (λ '(a, b, k1) '(b', c, k2),
    if bool_decide (b = b') && bool_decide (k1 = u) && bool_decide (k2 = v) then Some (a, c) else None).

(** [Edge(a, p, k1), Edge(b, p, k2), k1 == u, k2 == u, a != b]. *)
Definition fork (u : RelKindId) edges : gset (MemoryId * MemoryId) :=
  join edges edges (λ '(a, p, k1) '(b, p', k2),
    if bool_decide (p = p') && bool_decide (k1 = u) && bool_decide (k2 = u) && negb (bool_decide (a = b))
    then Some (a, b) else None).

(** [Fact(a, x), Fact(b, x), a != b]: one fact per pair and shared item. *)
Definition shared {X} `{Countable X} (facts : list (MemoryId * X)) : gset (MemoryId * MemoryId * X) :=
  join facts facts (λ '(a, x) '(b, y),
    if bool_decide (x = y) && negb (bool_decide (a = b)) then Some (a, b, x) else None).

(** [Edge(a, b, k), k == u] with a head over its ends. *)
Definition of_kind {C} `{Countable C} (u : RelKindId) (head : MemoryId → MemoryId → option C) edges : gset C :=
  list_to_set (omap (λ '(a, b, k), if bool_decide (k = u) then head a b else None) edges).

(* SRC crates/exocortex-reasoning/src/rules.rs 215-247 Derived *)
Record Derived := mkDerived {
  type_from_solves : list (MemoryId * Z);
  type_from_fixes : list (MemoryId * Z);
  type_from_causes : list (MemoryId * Z);
  transitive_depends_on : list (MemoryId * MemoryId);
  transitive_requires : list (MemoryId * MemoryId);
  co_occurrence_affinity : list (MemoryId * MemoryId);
  problem_solution_bridge : list (MemoryId * MemoryId);
  similar_tags_affinity : list (MemoryId * MemoryId);
  implied_solves : list (MemoryId * MemoryId);
  transitive_builds_on : list (MemoryId * MemoryId);
  indirect_blocker : list (MemoryId * MemoryId);
  contradiction_propagates : list (MemoryId * MemoryId);
  session_cohort : list (MemoryId * MemoryId);
  shared_target : list (MemoryId * MemoryId);
}.

(* SRC crates/exocortex-reasoning/src/rules.rs 69-194 crepe! *)
Definition rule_program `{HashOrder} edges (ents : list EntityFact) (tgs : list TagFact)
    (memories : list MemoryFact) : Derived := {|
  type_from_solves := hash_elements (of_kind SOLVES (λ a _, Some (a, SOLUTION_TYPE)) edges);
  type_from_fixes := hash_elements (of_kind FIXES (λ a _, Some (a, FIX_TYPE)) edges);
  type_from_causes := hash_elements (of_kind CAUSES (λ _ b, Some (b, PROBLEM_TYPE)) edges);
  transitive_depends_on := hash_elements (chain (depends_on pk) (depends_on pk) edges);
  transitive_requires := hash_elements (chain (requires pk) (requires pk) edges);
  co_occurrence_affinity := fst <$> hash_elements (shared ents);
  problem_solution_bridge := hash_elements (fork SOLVES edges);
  similar_tags_affinity := fst <$> hash_elements (shared tgs);
  implied_solves := hash_elements (of_kind FIXES
    (λ a b, if bool_decide ((a, FIX_TYPE) ∈ memories) then Some (a, b) else None) edges);
  transitive_builds_on := hash_elements (chain (builds_on pk) (builds_on pk) edges);
  indirect_blocker := hash_elements (chain (blocks pk) (requires pk) edges);
  contradiction_propagates := hash_elements (chain (contradicts pk) (confirms pk) edges);
  session_cohort := hash_elements (of_kind IN_SESSION (λ m s, Some (m, s)) edges);
  shared_target := hash_elements (fork (modifies pk) edges);
|}.

(* SRC crates/exocortex-reasoning/src/rules.rs 268-317 evaluate *)
Definition evaluate `{HashOrder} edges (ents : list EntityFact) (tgs : list TagFact)
    (memories : list MemoryFact) : Derived :=
  rule_program edges ents tgs memories.

(* SRC crates/exocortex-reasoning/src/rules.rs 250-265 total *)
Definition total (d : Derived) : nat :=
  length (type_from_solves d) + length (type_from_fixes d) + length (type_from_causes d)
  + length (transitive_depends_on d) + length (transitive_requires d)
  + length (co_occurrence_affinity d) + length (problem_solution_bridge d)
  + length (similar_tags_affinity d) + length (implied_solves d) + length (transitive_builds_on d)
  + length (indirect_blocker d) + length (contradiction_propagates d) + length (session_cohort d).
End rules.

(** ** Shared counts *)

Definition compare_pair : MemoryId * MemoryId → MemoryId * MemoryId → comparison :=
  compare_lex compare_mid compare_mid.

(** One turn of the loop over the sorted pairs; the last entry is at the end. *)
Definition count_pair (out : list (MemoryId * MemoryId * Z)) (p : MemoryId * MemoryId)
    : list (MemoryId * MemoryId * Z) :=
  match last out with
  | Some (a, b, n) =>
      if bool_decide ((a, b) = p) then removelast out ++ [(a, b, as_u32 (n + 1))] else out ++ [(p, 1)]
  | None => [(p, 1)]
  end.

(* SRC crates/exocortex-reasoning/src/rules.rs 196-209 pair_counts *)
Definition pair_counts (pairs : list (MemoryId * MemoryId)) : list (MemoryId * MemoryId * Z) :=
  foldl count_pair [] (merge_sort (le_of compare_pair) pairs).

(** ** What the rules derive *)

Lemma hash_elements_nodup `{HashOrder} {K} `{Countable K} (X : gset K) : NoDup (hash_elements X).
Proof. unfold hash_elements. rewrite hash_iter_perm. apply NoDup_fst_map_to_list. Qed.

Lemma hash_elements_perm `{HashOrder} {K} `{Countable K} (X : gset K) : hash_elements X ≡ₚ elements X.
Proof.
  apply NoDup_Permutation; [apply hash_elements_nodup|apply NoDup_elements|].
  intros x. by rewrite elem_of_hash_elements, elem_of_elements.
Qed.

Section membership.
Context `{HashOrder} (pk : PackKinds).
Implicit Types (edges : list Edge).

Lemma elem_of_join {A B C} `{Countable C} (l : list A) (k : list B) (f : A → B → option C) z :
  z ∈ join l k f ↔ ∃ x y, x ∈ l ∧ y ∈ k ∧ f x y = Some z.
Proof.
  unfold join. rewrite elem_of_list_to_set, list_elem_of_bind.
  setoid_rewrite list_elem_of_omap. naive_solver.
Qed.

Lemma elem_of_chain u v edges a c :
  (a, c) ∈ chain u v edges ↔ ∃ b, (a, b, u) ∈ edges ∧ (b, c, v) ∈ edges.
Proof.
  unfold chain. rewrite elem_of_join. split.
  - intros ([[a' b] k1] & [[b' c'] k2] & H1 & H2 & E).
    destruct (bool_decide (b = b') && _ && _) eqn:Hb; [|done]. bool_prop. simplify_eq. eauto.
  - intros (b & H1 & H2). exists (a, b, u), (b, c, v). split_and!; [done..|]. simpl.
    rewrite !bool_decide_eq_true_2 by done. done.
Qed.

Lemma elem_of_fork u edges a b :
  (a, b) ∈ fork u edges ↔ a ≠ b ∧ ∃ p, (a, p, u) ∈ edges ∧ (b, p, u) ∈ edges.
Proof.
  unfold fork. rewrite elem_of_join. split.
  - intros ([[a' p] k1] & [[b' p'] k2] & H1 & H2 & E).
    destruct (bool_decide (p = p') && _ && _ && _) eqn:Hb; [|done]. bool_prop. simplify_eq. eauto.
  - intros (Hne & p & H1 & H2). exists (a, p, u), (b, p, u). split_and!; [done..|]. simpl.
    by rewrite (bool_decide_eq_true_2 (p = p)), (bool_decide_eq_true_2 (u = u)), (bool_decide_eq_false_2 (a = b)).
Qed.

Lemma elem_of_shared {X} `{Countable X} (facts : list (MemoryId * X)) a b x :
  (a, b, x) ∈ shared facts ↔ a ≠ b ∧ (a, x) ∈ facts ∧ (b, x) ∈ facts.
Proof.
  unfold shared. rewrite elem_of_join. split.
  - intros ([a' x'] & [b' y] & H1 & H2 & E).
    destruct (bool_decide (x' = y) && _) eqn:Hb; [|done]. bool_prop. by simplify_eq.
  - intros (Hne & H1 & H2). exists (a, x), (b, x). split_and!; [done..|]. simpl.
    by rewrite (bool_decide_eq_true_2 (x = x)), (bool_decide_eq_false_2 (a = b)).
Qed.

Lemma elem_of_of_kind {C} `{Countable C} u (head : MemoryId → MemoryId → option C) edges z :
  z ∈ of_kind u head edges ↔ ∃ a b, (a, b, u) ∈ edges ∧ head a b = Some z.
Proof.
  unfold of_kind. rewrite elem_of_list_to_set, list_elem_of_omap. split.
  - intros ([[a b] k] & Hin & E). case_bool_decide; [|done]. subst. eauto.
  - intros (a & b & Hin & E). exists (a, b, u). simpl. by rewrite bool_decide_eq_true_2.
Qed.
End membership.

(** ** The counts *)

Definition occurrences (p : MemoryId * MemoryId) (l : list (MemoryId * MemoryId)) : Z :=
  Z.of_nat (length (filter (λ q, q = p) l)).

#[global] Instance compare_pair_comparable : Comparable compare_pair.
Proof. unfold compare_pair. apply _. Qed.

Lemma occurrences_snoc p q l :
  occurrences p (l ++ [q]) = occurrences p l + (if decide (q = p) then 1 else 0).
Proof.
  unfold occurrences. rewrite filter_app, filter_cons, filter_nil, length_app.
  case_decide; simpl; lia.
Qed.
Lemma occurrences_pos p l : p ∈ l ↔ 0 < occurrences p l.
Proof.
  unfold occurrences. split.
  - intros Hin. assert (p ∈ filter (λ q, q = p) l) as Hf by by apply list_elem_of_filter.
    destruct (filter _ l); [by apply not_elem_of_nil in Hf|simpl; lia].
  - intros Hl. destruct (filter (λ q, q = p) l) as [|q k] eqn:E; [simpl in Hl; lia|].
    assert (q ∈ filter (λ q, q = p) l) as Hq by (rewrite E; by left).
    by apply list_elem_of_filter in Hq as [-> ?].
Qed.
Lemma occurrences_le p l : occurrences p l ≤ Z.of_nat (length l).
Proof. unfold occurrences. pose proof (length_filter (λ q, q = p) l). lia. Qed.

Lemma occurrences_perm p l k : l ≡ₚ k → occurrences p l = occurrences p k.
Proof. intros E. unfold occurrences. by rewrite E. Qed.

(** A sorted list that goes on with something new has not had it before. *)
Lemma sorted_new (l : list (MemoryId * MemoryId)) x :
  StronglySorted (le_of compare_pair) (l ++ [x]) → last l ≠ Some x → x ∉ l.
Proof.
  intros Hs Hl Hin. destruct l as [|y l _] using rev_ind; [by apply not_elem_of_nil in Hin|].
  rewrite last_snoc in Hl. apply elem_of_app in Hin as [Hin|Hin%list_elem_of_singleton]; [|congruence].
  destruct Hl. f_equal. apply (anti_symm (le_of compare_pair)).
  - apply (StronglySorted_app_1_elem_of _ _ _ _ _ Hs); set_solver.
  - apply StronglySorted_app_1_l in Hs. apply (StronglySorted_app_1_elem_of _ _ _ _ _ Hs); set_solver.
Qed.

Lemma count_pair_spec l :
  StronglySorted (le_of compare_pair) l → Z.of_nat (length l) < 2 ^ 32 →
  let out := foldl count_pair [] l in
  (∀ p n, (p, n) ∈ out ↔ p ∈ l ∧ n = occurrences p l) ∧ fst <$> last out = last l ∧ NoDup out.*1.
Proof.
  induction l as [|x l IH] using rev_ind; intros Hs Hlen; simpl.
  { split_and!; [|done|constructor]. intros p n. rewrite !elem_of_nil. naive_solver. }
  rewrite length_app in Hlen. simpl in Hlen.
  destruct (IH (StronglySorted_app_1_l _ _ _ Hs) ltac:(lia)) as (Hin & Hlast & Hd).
  rewrite foldl_snoc. set (out := foldl count_pair [] l) in *.
  assert (Hnew : last l ≠ Some x → ((x, 1) ∉ out) ∧ (x ∉ out.*1) ∧ occurrences x l = 0).
  { intros Hne%(sorted_new l x Hs). split_and!.
    - by intros [? _]%Hin.
    - intros ([p n] & -> & [? _]%Hin)%list_elem_of_fmap. done.
    - assert (¬ 0 < occurrences x l) by by rewrite <-occurrences_pos.
      unfold occurrences in *. lia. }
  assert (Happ : last l ≠ Some x →
    (∀ p n, (p, n) ∈ out ++ [(x, 1)] ↔ p ∈ l ++ [x] ∧ n = occurrences p (l ++ [x])) ∧
    fst <$> last (out ++ [(x, 1)]) = last (l ++ [x]) ∧ NoDup (out ++ [(x, 1)]).*1).
  { intros Hne. destruct (Hnew Hne) as (_ & Hx & H0). split_and!.
    - intros p n. rewrite elem_of_app, list_elem_of_singleton, Hin, elem_of_app, list_elem_of_singleton,
        occurrences_snoc.
      pose proof (sorted_new l x Hs Hne). case_decide; [subst p; rewrite H0|]; naive_solver lia.
    - by rewrite !last_snoc.
    - rewrite fmap_app. apply NoDup_app. split_and!; [done| |apply NoDup_singleton]. set_solver. }
  unfold count_pair. destruct out as [|[[a b] n] out' _] eqn:Eo using rev_ind.
  { apply Happ. simpl in Hlast. rewrite <-Hlast. done. }
  rewrite last_snoc in Hlast |- *. simpl in Hlast. case_bool_decide as Hx; [subst x|apply Happ; congruence].
  rewrite removelast_last. rewrite fmap_app in Hd. apply NoDup_app in Hd as (Hd1 & Hd2 & _).
  assert (Hn : n = occurrences (a, b) l) by (apply (Hin (a, b) n); set_solver).
  assert (Hw : as_u32 (n + 1) = occurrences (a, b) (l ++ [(a, b)])).
  { rewrite occurrences_snoc, decide_True by done. rewrite <-Hn. apply wrap_small.
    pose proof (occurrences_le (a, b) l). unfold in_range. unfold occurrences in *. lia. }
  split_and!.
  - intros p m. rewrite !elem_of_app, !list_elem_of_singleton, Hw.
    assert (Hp : (p, m) ∈ out' ↔ p ≠ (a, b) ∧ p ∈ l ∧ m = occurrences p l).
    { rewrite <-Hin, elem_of_app, list_elem_of_singleton. split.
      - intros Hpm. split; [|by left]. intros ->. apply (Hd2 (a, b)); [|by left].
        apply list_elem_of_fmap. by exists (a, b, m).
      - intros [Hne [?|[= -> ->]]]; done. }
    rewrite Hp. destruct (decide (p = (a, b))) as [->|Hne].
    + split; [intros [[? _]|[= ->]]; [done|]|intros [_ ->]; by right]. split; [by right|done].
    + rewrite (occurrences_snoc p), decide_False, Z.add_0_r by congruence. naive_solver.
  - by rewrite !last_snoc.
  - rewrite fmap_app. apply NoDup_app. split_and!; [done|exact Hd2|apply NoDup_singleton].
Qed.

Lemma pair_counts_spec l :
  Z.of_nat (length l) < 2 ^ 32 →
  NoDup (pair_counts l).*1 ∧
  ∀ p n, (p, n) ∈ pair_counts l ↔ p ∈ l ∧ n = occurrences p l.
Proof.
  intros Hlen. unfold pair_counts. set (k := merge_sort (le_of compare_pair) l).
  assert (Hk : k ≡ₚ l) by apply merge_sort_Permutation.
  destruct (count_pair_spec k) as (Hin & _ & Hd).
  - apply Sorted_StronglySorted; [apply _|apply Sorted_merge_sort, _].
  - by rewrite Hk.
  - split; [done|]. intros p n. rewrite Hin, (occurrences_perm _ _ _ Hk). by rewrite Hk.
Qed.

(** ** Affinities: the count of a pair is the number of items both share *)

Definition items_of {X} `{Countable X} (facts : list (MemoryId * X)) (m : MemoryId) : gset X :=
  list_to_set (omap (λ f : MemoryId * X, if bool_decide (f.1 = m) then Some f.2 else None) facts).

Lemma elem_of_items {X} `{Countable X} (facts : list (MemoryId * X)) m x :
  x ∈ items_of facts m ↔ (m, x) ∈ facts.
Proof.
  unfold items_of. rewrite elem_of_list_to_set, list_elem_of_omap. split.
  - intros ([m' y] & Hin & E). simpl in E. case_bool_decide; [|done]. by simplify_eq.
  - intros Hin. exists (m, x). simpl. by rewrite bool_decide_eq_true_2.
Qed.

Lemma filter_fmap_fst {A B} `{EqDecision A} (p : A) (l : list (A * B)) :
  filter (λ q, q = p) (fst <$> l) = fst <$> filter (λ y, y.1 = p) l.
Proof. induction l as [|y l IH]; [done|]. csimpl. rewrite !filter_cons, IH. by case_decide. Qed.

Lemma shared_occurrences `{HashOrder} {X} `{Countable X} (facts : list (MemoryId * X)) a b :
  a ≠ b →
  occurrences (a, b) (fst <$> hash_elements (shared facts)) =
  Z.of_nat (size (items_of facts a ∩ items_of facts b)).
Proof.
  intros Hne. unfold occurrences. f_equal.
  rewrite filter_fmap_fst, length_fmap. unfold size, set_size. simpl.
  rewrite <-(length_fmap snd). apply Permutation_length, NoDup_Permutation.
  - pose proof (NoDup_filter (λ y, y.1 = (a, b)) _ (hash_elements_nodup (shared facts))) as Hd.
    apply NoDup_fmap_2_strong; [|exact Hd].
    intros [[a1 b1] x1] [[a2 b2] x2] [E1 _]%list_elem_of_filter [E2 _]%list_elem_of_filter E3. simpl in *.
    by simplify_eq.
  - apply NoDup_elements.
  - intros x. rewrite elem_of_elements, elem_of_intersection, !elem_of_items, list_elem_of_fmap. split.
    + intros ([[a' b'] y] & -> & [E Hin]%list_elem_of_filter). simpl in *. simplify_eq.
      by apply elem_of_hash_elements, elem_of_shared in Hin as (_ & ? & ?).
    + intros [H1 H2]. exists (a, b, x). split; [done|]. apply list_elem_of_filter. split; [done|].
      by apply elem_of_hash_elements, elem_of_shared.
Qed.

(** The affinity counts: a pair is listed once, exactly when it shares something, with the number
    of items it shares. *)
Lemma affinity_counts `{HashOrder} {X} `{Countable X} (facts : list (MemoryId * X)) a b n :
  Z.of_nat (size (shared facts)) < 2 ^ 32 →
  ((a, b), n) ∈ pair_counts (fst <$> hash_elements (shared facts)) ↔
  a ≠ b ∧ n = Z.of_nat (size (items_of facts a ∩ items_of facts b)) ∧ 0 < n.
Proof.
  intros Hlen. destruct (pair_counts_spec (fst <$> hash_elements (shared facts))) as [_ ->].
  { rewrite length_fmap, (Permutation_length (hash_elements_perm _)). exact Hlen. }
  rewrite occurrences_pos. split.
  - intros [Hp ->]. assert (a ≠ b) as Hne.
    { apply occurrences_pos, list_elem_of_fmap in Hp as ([[a' b'] x] & E & Hin%elem_of_hash_elements).
      simpl in E. simplify_eq. by apply elem_of_shared in Hin as [? _]. }
    rewrite shared_occurrences in * by done. done.
  - intros (Hne & -> & Hn). by rewrite shared_occurrences.
Qed.
