(* ===== verification/Reasoning.v ===== *)
(** * The reasoning engine

    [crates/exocortex-reasoning/src/engine.rs]: bounded neighbourhoods harvested from a store, the
    rules evaluated over them, and the derived relationships written back.

    The store is the class [ReasoningStore], the six calls of [Storage] the engine makes; the
    in-memory backend is an instance.  Every call threads the store, since reads count themselves.
    The ontology of the engine is the developer pack's ([storage_ontology]); an [expect] that would
    panic is [None]. *)

From stdpp Require Import pretty.
From S2P Require Import Prelude Ids Kernel Packs Ontology StorageTypes Graph Reads Leases.
From S2P Require Import Ingest Governed Cycles Storage ShippedPacks Rules.

(** ** The store *)

Class ReasoningStore (S : Type) := {
  rs_touching : list MemoryId → Z → S → S * result (list Relationship) StorageError;
  rs_memories : list MemoryId → S → S * result (list Memory) StorageError;
  rs_sharing : list string → list EntityId → Z → S → S * result (list Memory) StorageError;
  rs_relationships : list RelationshipId → S → S * result (list Relationship) StorageError;
  rs_upsert : (nat → DateTime) → list Memory → list Relationship → S →
    S * result (list CommitRecord) StorageError;
  rs_upsert_once : (nat → DateTime) → string → list Memory → list Relationship → S →
    S * result bool StorageError;
}.

Definition put_reads (c : ReadState) (st : Store) : Store :=
  mkStore (graph st) c (lease_table st) (ingest st) (governed st) (journals st).

Definition in_memory_reasoning `{Blake3, HashOrder} (o : Ontology) : ReasoningStore Store := {|
  rs_touching frontier limit st :=
    let '(c, r) := relationships_touching frontier limit (reads st) (graph st) in (put_reads c st, r);
  rs_memories ids st :=
    let '(c, r) := get_memories ids (reads st) (graph st) in (put_reads c st, r);
  rs_sharing tgs ents limit st :=
    let '(c, r) := memories_sharing_attributes tgs ents limit (reads st) (graph st) in
    (put_reads c st, r);
  rs_relationships ids st :=
    let '(c, r) := get_relationships ids (reads st) (graph st) in (put_reads c st, r);
  rs_upsert clk ms rs st :=
    let '(g, r) := upsert_batch o clk ms rs (graph st) in (put_graph g st, r);
  rs_upsert_once clk key ms rs st :=
    let '(IS, g, r) := upsert_batch_once o clk key ms rs (ingest st) (graph st) in
    (put_graph g (put_ingest IS st), r)
|}.

(** ** Floats *)

(** [x.ceil() as usize] for a number that is not negative: the cast saturates. *)
Definition usize_max64 : Z := 2 ^ 64 - 1.
Definition ceil_as_usize (x : f64) : Z :=
  match x with
  | S754_finite false m e =>
      if 0 <=? e then Z.min usize_max64 (Z.pos m * 2 ^ e)
      else Z.min usize_max64 ((Z.pos m + 2 ^ (- e) - 1) / 2 ^ (- e))
  | S754_infinity false => usize_max64
  | _ => 0
  end.

(** [f32::min]; the arguments are no NaN. *)
Definition f32_min (x y : f32) : f32 := if SFltb x y then x else y.
Definition f32_div (x y : f32) : f32 := SFdiv f32_prec f32_emax x y.

(** ** Constants *)

(* SRC crates/exocortex-reasoning/src/engine.rs 14-14 MAX_REASONING_NODES *)
Definition MAX_REASONING_NODES : Z := 512.
(* SRC crates/exocortex-reasoning/src/engine.rs 15-15 MAX_REASONING_EDGES *)
Definition MAX_REASONING_EDGES : Z := 4096.
(* SRC crates/exocortex-reasoning/src/engine.rs 16-16 MAX_DERIVED_RELATIONSHIPS *)
Definition MAX_DERIVED_RELATIONSHIPS : Z := 10000.
(* SRC crates/exocortex-reasoning/src/engine.rs 234-234 MAX_POSTING_LIST *)
Definition MAX_POSTING_LIST : Z := 256.

(* SRC crates/exocortex-reasoning/src/engine.rs 637-640 storage_ontology *)
Definition storage_ontology `{Sha256, Bincode} : option Ontology :=
  match from_packs [dev_pack] with Ok o => Some o | Err _ => None end.

(* SRC crates/exocortex-reasoning/src/engine.rs 642-660 derived_kind *)
Definition derived_kind `{HashOrder} (onto : Ontology) (rule_id : string) : option RelKindId :=
  if String.eqb rule_id "R4" then kind_id onto "DependsOn"
  else if String.eqb rule_id "R5" then kind_id onto "Requires"
  else if String.eqb rule_id "D1" then Some SOLVES
  else if String.eqb rule_id "D2" then kind_id onto "BuildsOn"
  else if String.eqb rule_id "D3" then kind_id onto "Blocks"
  else if String.eqb rule_id "D4" then kind_id onto "Contradicts"
  else kind_id onto "RelatedTo".

(* SRC crates/exocortex-reasoning/src/engine.rs 662-672 derived_confidence *)
Definition derived_confidence (rule_id : string) (n : Z) : f32 :=
  if String.eqb rule_id "R4" || String.eqb rule_id "R5" then f32_percent 50
  else if String.eqb rule_id "R7" || String.eqb rule_id "R9" then
    f32_min (f32_div (f32_of_Z n) (f32_of_Z 5)) f32_one
  else if String.eqb rule_id "R8" || String.eqb rule_id "D1" then f32_percent 80
  else f32_percent 50.

(* SRC crates/exocortex-reasoning/src/engine.rs 674-682 fxhash_tag *)
Definition fxhash_tag (tag : string) : Z :=
  foldl (λ h b, wrap 32 (Z.lxor h b * 0x01000193)) 0x811c9dc5 (as_bytes tag).

(* SRC crates/exocortex-reasoning/src/engine.rs 619-635 durable_cohort_key *)
Definition durable_cohort_key (effect_key : string) (seeds : list MemoryId) : string :=
  let seeds := dedup (merge_sort (le_of compare_mid) seeds) in
  "reasoning:v2:" +:+ pretty (N.of_nat (String.length effect_key)) +:+ ":" +:+ effect_key +:+ ":" +:+
  pretty (N.of_nat (length seeds)) +:+ ":" +:+ hex (seeds ≫= mid_bytes).

(** ** The harvest *)

Section engine.
Context `{Blake3, Sha256, Bincode, HashOrder} {S : Type} `{ReasoningStore S}.
Implicit Types (st : S).

(** The locals of the breadth-first search. *)
Record Harvest := mkHarvest {
  neighborhood : gset MemoryId;
  seen_edges : gset RelationshipId;
  relationship_rows : list Relationship;
}.

(** One end of a row: [neighborhood.len() < MAX && neighborhood.insert(other)]. *)
Definition visit_end (acc : gset MemoryId * list MemoryId) (other : MemoryId)
    : gset MemoryId * list MemoryId :=
  if (Z.of_nat (size acc.1) <? MAX_REASONING_NODES) && negb (bool_decide (other ∈ acc.1))
  then ({[other]} ∪ acc.1, acc.2 ++ [other]) else acc.

(** One row of a hop. *)
Definition visit_row (acc : Harvest * list MemoryId) (row : Relationship) : Harvest * list MemoryId :=
  let '(h, next) := acc in
  if bool_decide (r_id row ∈ seen_edges h) then acc
  else
    let '(nb, next) := foldl visit_end (neighborhood h, next) [r_from row; r_to row] in
    (mkHarvest nb ({[r_id row]} ∪ seen_edges h) (relationship_rows h ++ [row]), next).

(** The loop over the hops. *)
Fixpoint harvest (k : nat) (h : Harvest) (frontier : list MemoryId) st
    : S * result Harvest StorageError :=
  match k with
  | O => (st, Ok h)
  | Datatypes.S k =>
      match frontier with
      | [] => (st, Ok h)
      | _ =>
          match rs_touching frontier MAX_REASONING_EDGES st with
          | (st, Err e) => (st, Err e)
          | (st, Ok rows) =>
              let '(h, next) := foldl visit_row (h, []) rows in
              if bool_decide (next = []) ||
                 (MAX_REASONING_EDGES <=? Z.of_nat (length (relationship_rows h)))
              then (st, Ok h)
              else harvest k h (dedup (merge_sort (le_of compare_mid) next)) st
          end
      end
  end.

(** The edge facts: rows with both ends inside. *)
Definition edge_facts (h : Harvest) : list Edge :=
  omap (λ r, if bool_decide (r_from r ∈ neighborhood h) && bool_decide (r_to r ∈ neighborhood h)
             then Some (r_from r, r_to r, r_kind r) else None) (relationship_rows h).

(** The rows whose attributes are joined: the neighbourhood's, then those sharing an attribute. *)
Definition attribute_rows (nb : gset MemoryId) st : S * result (list Memory) StorageError :=
  match rs_memories (merge_sort (le_of compare_mid) (hash_elements nb)) st with
  | (st, Err e) => (st, Err e)
  | (st, Ok memory_rows) =>
      let attribute_tags := list_to_set (C:=gset string) (memory_rows ≫= tags) in
      let attribute_entities := list_to_set (C:=gset EntityId) (memory_rows ≫= λ m, entities (context m)) in
      if negb (bool_decide (attribute_tags = ∅)) || negb (bool_decide (attribute_entities = ∅)) then
        match rs_sharing (hash_elements attribute_tags) (hash_elements attribute_entities) 4096 st with
        | (st, Err e) => (st, Err e)
        | (st, Ok expansion) =>
            let '(_, kept) := foldl (λ '(seen, kept) m,
                if bool_decide (m_id m ∈ seen) then (seen, kept)
                else ({[m_id m]} ∪ seen, kept ++ [m]))
              (list_to_set (C:=gset MemoryId) (m_id <$> memory_rows), []) expansion in
            (st, Ok (memory_rows ++ kept))
        end
      else (st, Ok memory_rows)
  end.

(** How often an attribute occurs, and the facts on the rarer ones. *)
Definition posting_count {X} `{EqDecision X} (facts : list (MemoryId * X)) (x : X) : Z :=
  Z.of_nat (length (filter (λ f, f.2 = x) facts)).
Definition posting_filter {X} `{EqDecision X} (facts : list (MemoryId * X)) : list (MemoryId * X) :=
  List.filter (λ f, posting_count facts f.2 <=? MAX_POSTING_LIST) facts.

Definition tag_facts (memory_rows : list Memory) : list TagFact :=
  posting_filter (memory_rows ≫= λ m, (λ t, (m_id m, fxhash_tag t)) <$> tags m).
Definition entity_facts (memory_rows : list Memory) : list EntityFact :=
  posting_filter (memory_rows ≫= λ m, (λ e, (m_id m, e)) <$> entities (context m)).
Definition memory_facts (memory_rows : list Memory) : list MemoryFact :=
  (λ m, (m_id m, memory_type m)) <$> memory_rows.

Definition set_affinities (co tg : list (MemoryId * MemoryId)) (d : Derived) : Derived :=
  mkDerived (type_from_solves d) (type_from_fixes d) (type_from_causes d) (transitive_depends_on d)
    (transitive_requires d) co (problem_solution_bridge d) tg (implied_solves d)
    (transitive_builds_on d) (indirect_blocker d) (contradiction_propagates d) (session_cohort d)
    (shared_target d).

(** The cap on the affinity facts: both lists are cut in proportion. *)
Definition cap_affinities (d : Derived) : Derived :=
  let before := Z.of_nat (length (co_occurrence_affinity d) + length (similar_tags_affinity d)) in
  if MAX_DERIVED_RELATIONSHIPS <? before then
    let scale := f64_div (f64_of_Z MAX_DERIVED_RELATIONSHIPS) (f64_of_Z before) in
    let keep (v : list (MemoryId * MemoryId)) :=
      let n := ceil_as_usize (f64_mul (f64_of_Z (Z.of_nat (length v))) scale) in
      take (Z.to_nat (Z.min n (Z.of_nat (length v)))) v in
    set_affinities (keep (co_occurrence_affinity d)) (keep (similar_tags_affinity d)) d
  else d.

(** ** Derived rows *)

(** What [push] is called with. *)
Record Candidate := mkCandidate {
  cd_from : MemoryId;
  cd_to : MemoryId;
  cd_rule : string;
  cd_strength : f32;
  cd_shared : Z;
  cd_evidence : list RelationshipId;
}.

(** The closure [support]: the first two hops of the given kinds, in the order of the rows. *)
Definition support (rows : list Relationship) (from to : MemoryId) (k1 k2 : RelKindId)
    : list RelationshipId :=
  let outs (m : MemoryId) := List.filter (λ r, bool_decide (r_from r = m)) rows in
  match head (omap (λ r1,
      if negb (bool_decide (r_kind r1 = k1)) then None
      else head (omap (λ r2,
          if bool_decide (r_to r2 = to) && bool_decide (r_kind r2 = k2)
          then Some [r_id r1; r_id r2] else None) (outs (r_to r1)))) (outs from)) with
  | Some evidence => evidence
  | None => []
  end.

(** The pairs [(m1, m2)] of a sorted group, each with the members after it. *)
Fixpoint cohort_pairs (group : list MemoryId) : list (MemoryId * MemoryId) :=
  match group with
  | [] => []
  | m1 :: group =>
      omap (λ m2, if negb (bool_decide (m1 = m2)) then Some (m1, m2) else None) group ++
      cohort_pairs group
  end.

(** [by_session], its keys sorted, and the pairs of every group. *)
Definition session_pairs (cohort : list (MemoryId * MemoryId)) : list (MemoryId * MemoryId) :=
  let by_session := foldl (λ m e, entry_push e.2 e.1 m) (∅ : gmap MemoryId (list MemoryId)) cohort in
  merge_sort (le_of compare_mid) (hash_iter by_session).*1 ≫= λ sess,
    cohort_pairs (dedup (merge_sort (le_of compare_mid) (versions by_session sess))).

(** The calls of [push], in order. *)
Definition candidates (pk : PackKinds) (rows : list Relationship) (d : Derived) : list Candidate :=
  let plain (rule : string) (strength : f32) (pairs : list (MemoryId * MemoryId)) :=
    (λ p : MemoryId * MemoryId, mkCandidate p.1 p.2 rule strength 0 []) <$> pairs in
  let hops (rule : string) (k1 k2 : RelKindId) (pairs : list (MemoryId * MemoryId)) :=
    (λ p : MemoryId * MemoryId, mkCandidate p.1 p.2 rule (f32_percent 50) 0 (support rows p.1 p.2 k1 k2))
      <$> pairs in
  let counted (rule : string) (pairs : list (MemoryId * MemoryId)) :=
    (λ c : MemoryId * MemoryId * Z, mkCandidate c.1.1 c.1.2 rule (f32_percent 30) c.2 [])
      <$> pair_counts pairs in
  hops "R4" (depends_on pk) (depends_on pk) (transitive_depends_on d) ++
  hops "R5" (requires pk) (requires pk) (transitive_requires d) ++
  counted "R7" (co_occurrence_affinity d) ++
  plain "R8" (f32_percent 30) (problem_solution_bridge d) ++
  counted "R9" (similar_tags_affinity d) ++
  plain "D1" (f32_percent 80) (implied_solves d) ++
  hops "D2" (builds_on pk) (builds_on pk) (transitive_builds_on d) ++
  hops "D3" (blocks pk) (requires pk) (indirect_blocker d) ++
  hops "D4" (contradicts pk) (confirms pk) (contradiction_propagates d) ++
  plain "D5" (f32_percent 40) (shared_target d) ++
  plain "D6" (f32_percent 60) (session_pairs (session_cohort d)).

(** [collect]-like maps of the rows' labels; a later row replaces an earlier one. *)
Definition memory_labels (rows : list Memory) : gmap MemoryId Visibility :=
  foldl (λ m x, <[m_id x := m_visibility x]> m) ∅ rows.
Definition edge_labels (rows : list Relationship) : gmap RelationshipId Visibility :=
  foldl (λ m r, <[r_id r := r_visibility r]> m) ∅ rows.

(** The closure [push]: nothing when an end is not among the rows. *)
Definition derived_row (onto : Ontology) (now : DateTime) (mv : gmap MemoryId Visibility)
    (ev : gmap RelationshipId Visibility) (c : Candidate) : option (option Relationship) :=
  match mv !! cd_from c, mv !! cd_to c with
  | Some from_visibility, Some to_visibility =>
      visibility ← narrowest_visibility
        ([from_visibility; to_visibility] ++ omap (λ id, ev !! id) (cd_evidence c));
      kind ← derived_kind onto (cd_rule c);
      Some (Some {|
        r_id := RelationshipId_derive (cd_from c) kind (cd_to c) (Some (cd_rule c));
        r_kind := kind;
        r_from := cd_from c;
        r_to := cd_to c;
        r_visibility := visibility;
        r_provenance := Kernel.Derived (cd_rule c) (cd_evidence c);
        r_properties := mkRelationshipProperties (cd_strength c)
          (derived_confidence (cd_rule c) (cd_shared c)) None 1 None 0 0 now;
        r_description := None;
        r_bidirectional := false;
        r_valid_from := now;
        r_valid_until := None;
        r_recorded_at := now;
        r_invalidated_by := None;
        r_lsn := new_local 0;
      |})
  | _, _ => Some None
  end.

Definition derived_rows (onto : Ontology) (pk : PackKinds) (now : DateTime) (memory_rows : list Memory)
    (rows : list Relationship) (d : Derived) : option (list Relationship) :=
  pushed ← mapM (derived_row onto now (memory_labels memory_rows) (edge_labels rows))
             (candidates pk rows d);
  Some (take (Z.to_nat MAX_DERIVED_RELATIONSHIPS)
          (dedup_by_key r_id (merge_sort (le_of (compare_on r_id compare_rid)) (omap id pushed)))).

(** The writes of a pass, once its rows are known. *)
Definition commit_rows (clk : nat → DateTime) (new_rels : list Relationship)
    (operation_key : option string) st : S * result () StorageError :=
  if bool_decide (new_rels = []) && bool_decide (operation_key = None) then (st, Ok tt)
  else
    match rs_relationships (r_id <$> new_rels) st with
    | (st, Err e) => (st, Err e)
    | (st, Ok known) =>
        let existing := list_to_set (C:=gset RelationshipId) (r_id <$> known) in
        let fresh := List.filter (λ r, negb (bool_decide (r_id r ∈ existing))) new_rels in
        match operation_key with
        | Some key =>
            match rs_upsert_once clk key [] fresh st with
            | (st, Err e) => (st, Err e)
            | (st, Ok _) => (st, Ok tt)
            end
        | None =>
            if negb (bool_decide (fresh = [])) then
              match rs_upsert clk [] fresh st with
              | (st, Err e) => (st, Err e)
              | (st, Ok _) => (st, Ok tt)
              end
            else (st, Ok tt)
        end
    end.

(* SRC crates/exocortex-reasoning/src/engine.rs 346-587 write_back *)
Definition write_back (clk : nat → DateTime) (d : Derived) (memory_rows : list Memory)
    (rows : list Relationship) (operation_key : option string) st
    : option (S * result () StorageError) :=
  onto ← storage_ontology;
  pk ← prime onto;
  new_rels ← derived_rows onto pk (clk 0%nat) memory_rows rows d;
  Some (commit_rows (λ i, clk (i + 1)%nat) new_rels operation_key st).

(* SRC crates/exocortex-reasoning/src/engine.rs 153-335 try_k_hop_reason *)
Definition try_k_hop_reason (clk : nat → DateTime) (k_hop : Z) (seeds : list MemoryId) (k : Z)
    (operation_key : option string) st : option (S * result () StorageError) :=
  let k := Z.max 1 (Z.min k (Z.max k_hop 1)) in
  let seed_ids := dedup (merge_sort (le_of compare_mid) seeds) in
  if MAX_REASONING_NODES <? Z.of_nat (length seed_ids) then
    Some (st, Err (Backend ("reasoning seed cohort exceeds " +:+ pretty MAX_REASONING_NODES +:+ " memories")))
  else
    match harvest (Z.to_nat k) (mkHarvest (list_to_set seed_ids) ∅ []) seed_ids st with
    | (st, Err e) => Some (st, Err e)
    | (st, Ok h) =>
        match attribute_rows (neighborhood h) st with
        | (st, Err e) => Some (st, Err e)
        | (st, Ok memory_rows) =>
            onto ← storage_ontology;
            pk ← prime onto;
            let derived := evaluate pk (edge_facts h) (entity_facts memory_rows)
                             (tag_facts memory_rows) (memory_facts memory_rows) in
            write_back clk (cap_affinities derived) memory_rows (relationship_rows h) operation_key st
        end
    end.

(* SRC crates/exocortex-reasoning/src/engine.rs 337-344 process_session_wrapup *)
Definition process_session_wrapup (clk : nat → DateTime) (k_hop : Z) (ms : list MemoryId)
    (operation_key : option string) st : option (S * result () StorageError) :=
  try_k_hop_reason clk k_hop ms 3 ((λ key, durable_cohort_key key ms) <$> operation_key) st.

(* SRC crates/exocortex-reasoning/src/engine.rs 139-151 k_hop_reason *)
Definition k_hop_reason (clk : nat → DateTime) (k_hop : Z) (seed : MemoryId) (k : Z) st : option S :=
  fst <$> try_k_hop_reason clk k_hop [seed] k None st.

(* SRC crates/exocortex-reasoning/src/engine.rs 589-612 inferred_type *)
Definition inferred_type (id : MemoryId) st : option (S * option Z) :=
  onto ← storage_ontology;
  pk ← prime onto;
  match rs_touching [id] 4096 st with
  | (st, Err _) => Some (st, None)
  | (st, Ok rels) =>
      let edges : list Edge := omap (λ r,
        if bool_decide (r_from r = id) || bool_decide (r_to r = id)
        then Some (r_from r, r_to r, r_kind r) else None) rels in
      let d := evaluate pk edges [] [] [] in
      Some (st, snd <$> List.find (λ p, bool_decide (p.1 = id))
                   (type_from_solves d ++ type_from_fixes d ++ type_from_causes d))
  end.

(** ** The queue *)

(* SRC crates/exocortex-reasoning/src/engine.rs 18-47 ReasoningWork *)
Inductive ReasoningWork :=
  | KHopOver (seed : MemoryId) (k : Z)
  | SessionWrapup (memories : list MemoryId)
  | DurableSessionWrapup (memories : list MemoryId) (operation_key : string) (completion : nat).

(* SRC crates/exocortex-reasoning/src/engine.rs 49-55 ReasoningEngine *)
Record ReasoningEngine := mkEngine {
  rx_work : list ReasoningWork;
  queue_depth : nat;
  re_k_hop : Z;
  dropped_total : Z;
}.

(* SRC crates/exocortex-reasoning/src/engine.rs 58-68 new *)
Definition ReasoningEngine_new (queue_depth : nat) (k_hop : Z) : ReasoningEngine :=
  mkEngine [] queue_depth k_hop 0.

(* SRC crates/exocortex-reasoning/src/engine.rs 70-76 enqueue *)
Definition enqueue_work (w : ReasoningWork) (e : ReasoningEngine) : ReasoningEngine :=
  if (length (rx_work e) <? queue_depth e)%nat
  then mkEngine (rx_work e ++ [w]) (queue_depth e) (re_k_hop e) (dropped_total e)
  else mkEngine (rx_work e) (queue_depth e) (re_k_hop e) (dropped_total e + 1).

(** One turn of the consumer: what it answers to a durable sender. *)
(* SRC crates/exocortex-reasoning/src/engine.rs 78-108 run *)
Definition run_work (clk : nat → DateTime) (e : ReasoningEngine) st
    : option (ReasoningEngine * S * option (nat * result () StorageError)) :=
  match rx_work e with
  | [] => Some (e, st, None)
  | w :: rest =>
      let e := mkEngine rest (queue_depth e) (re_k_hop e) (dropped_total e) in
      match w with
      | KHopOver seed k => st ← k_hop_reason clk (re_k_hop e) seed k st; Some (e, st, None)
      | SessionWrapup memories =>
          '(st, _) ← process_session_wrapup clk (re_k_hop e) memories None st; Some (e, st, None)
      | DurableSessionWrapup memories key completion =>
          '(st, r) ← process_session_wrapup clk (re_k_hop e) memories (Some key) st;
          Some (e, st, Some (completion, r))
      end
  end.
End engine.
