(* ===== verification/HarvestSpec.v ===== *)
(** * The bounded neighbourhood

    The breadth-first harvest of [try_k_hop_reason] ([crates/exocortex-reasoning/src/engine.rs])
    over the in-memory backend: what it may return, and when it is the whole neighbourhood. *)

From S2P Require Import Prelude Ids Kernel Packs Ontology StorageTypes Graph Reads Leases.
From S2P Require Import Ingest Governed Cycles Storage ShippedPacks Rules Reasoning.

(** An open edge of the graph. *)
Definition open_edge (g : Graph) (r : Relationship) : Prop :=
  current (g_rels g) (r_id r) = Some r ∧ is_current r = true.

(** [within_hops g seeds n m]: at most [n] open edges lead from a seed to [m], either way. *)
Inductive within_hops (g : Graph) (seeds : list MemoryId) : nat → MemoryId → Prop :=
  | within_seed n m : m ∈ seeds → within_hops g seeds n m
  | within_step n m r m' :
      within_hops g seeds n m → open_edge g r →
      (r_from r = m ∧ r_to r = m') ∨ (r_to r = m ∧ r_from r = m') → within_hops g seeds (S n) m'.

(** An id listed under a node is the id of an edge that touches it. *)
Definition index_sound (g : Graph) : Prop :=
  ∀ node X id r, rels_by_node g !! node = Some X → id ∈ X → current (g_rels g) id = Some r →
    r_from r = node ∨ r_to r = node.

Lemma within_hops_le g seeds n n' m : (n ≤ n')%nat → within_hops g seeds n m → within_hops g seeds n' m.
Proof.
  intros Hle Hw. revert n' Hle. induction Hw as [n m Hm|n m r m' Hw IH Hr He]; intros n' Hle.
  - by constructor.
  - destruct n' as [|n']; [lia|]. eapply within_step; [apply IH; lia|done|done].
Qed.

(** ** One page *)

Definition ends_in (nb : gset MemoryId) (r : Relationship) : Prop := r_from r ∈ nb ∧ r_to r ∈ nb.

Lemma visit_end_spec acc m acc' :
  visit_end acc m = acc' →
  acc.1 ⊆ acc'.1 ∧ (∃ new, acc'.2 = acc.2 ++ new ∧ acc'.1 = acc.1 ∪ list_to_set new ∧
    (∀ x, x ∈ new → x = m ∧ x ∉ acc.1)) ∧
  (Z.of_nat (size acc.1) ≤ MAX_REASONING_NODES → Z.of_nat (size acc'.1) ≤ MAX_REASONING_NODES) ∧
  (Z.of_nat (size acc'.1) < MAX_REASONING_NODES → m ∈ acc'.1).
Proof.
  intros <-. unfold visit_end. destruct (Z.ltb_spec (Z.of_nat (size acc.1)) MAX_REASONING_NODES); simpl.
  2:{ split_and!; [done|exists []|done|lia]. rewrite app_nil_r. split_and!; [done|set_solver|set_solver]. }
  case_bool_decide as Hm; simpl.
  { split_and!; [done|exists []|done|done]. rewrite app_nil_r. split_and!; [done|set_solver|set_solver]. }
  split_and!; [set_solver|exists [m]| |set_solver].
  - split_and!; [done|set_solver|set_solver].
  - intros _. rewrite size_union, size_singleton by set_solver. lia.
Qed.

(** What visiting rows does to the search. *)
Definition visited (h h' : Harvest) (next new : list MemoryId) (next' : list MemoryId)
    (page : list Relationship) : Prop :=
  next' = next ++ new ∧ neighborhood h' = neighborhood h ∪ list_to_set new ∧
  (∀ m, m ∈ new → (m ∉ neighborhood h) ∧ ∃ r, r ∈ page ∧ (m = r_from r ∨ m = r_to r)) ∧
  (Z.of_nat (size (neighborhood h)) ≤ MAX_REASONING_NODES →
   Z.of_nat (size (neighborhood h')) ≤ MAX_REASONING_NODES) ∧
  (∃ rows, relationship_rows h' = relationship_rows h ++ rows ∧
     seen_edges h' = seen_edges h ∪ list_to_set (r_id <$> rows) ∧ NoDup (r_id <$> rows) ∧
     (∀ r, r ∈ rows → r ∈ page ∧ (r_id r ∉ seen_edges h) ∧
        (Z.of_nat (size (neighborhood h')) < MAX_REASONING_NODES → ends_in (neighborhood h') r)) ∧
     (∀ r, r ∈ page → r_id r ∈ seen_edges h')).

Lemma visit_row_spec h next r h' next' :
  visit_row (h, next) r = (h', next') → ∃ new, visited h h' next new next' [r].
Proof.
  unfold visit_row. case_bool_decide as Hs.
  { intros [= <- <-]. exists []. unfold visited. rewrite app_nil_r.
    split_and!; [done|set_solver|set_solver|done|]. exists []. rewrite app_nil_r.
    split_and!; [done|set_solver|constructor|set_solver|]. by intros ? ->%list_elem_of_singleton. }
  simpl. set (a1 := visit_end (neighborhood h, next) (r_from r)).
  set (a2 := visit_end a1 (r_to r)). destruct a2 as [nb next2] eqn:E2. intros [= <- <-].
  destruct (visit_end_spec (neighborhood h, next) (r_from r) a1 eq_refl)
    as (S1 & (n1 & N1 & B1 & X1) & Z1 & F1).
  destruct (visit_end_spec a1 (r_to r) a2 eq_refl) as (S2 & (n2 & N2 & B2 & X2) & Z2 & F2).
  rewrite E2 in *. simpl in *. exists (n1 ++ n2). unfold visited. simpl. split_and!.
  - by rewrite N2, N1, app_assoc.
  - rewrite B2, B1. set_solver.
  - intros m [[-> ?]%X1|[-> ?]%X2]%elem_of_app; (split; [set_solver|exists r; split; [by left|auto]]).
  - auto.
  - exists [r]. simpl. split_and!; [done|set_solver|apply NoDup_singleton| |set_solver].
    intros r' ->%list_elem_of_singleton. split_and!; [by left|done|]. intros Hl. split; [|by apply F2].
    apply S2, F1. pose proof (subseteq_size _ _ S2). lia.
Qed.

Lemma visit_rows_spec page h next h' next' :
  foldl visit_row (h, next) page = (h', next') → ∃ new, visited h h' next new next' page.
Proof.
  revert h next. induction page as [|r page IH]; intros h next; cbn [foldl].
  { intros [= <- <-]. exists []. unfold visited. rewrite app_nil_r.
    split_and!; [done|set_solver|set_solver|done|]. exists []. rewrite app_nil_r.
    split_and!; [done|set_solver|constructor|set_solver|set_solver]. }
  destruct (visit_row (h, next) r) as [h1 next1] eqn:E1. intros E.
  destruct (visit_row_spec _ _ _ _ _ E1) as (n1 & Hn1 & B1 & X1 & Z1 & rows1 & R1 & S1 & D1 & M1 & C1).
  destruct (IH _ _ E) as (n2 & Hn2 & B2 & X2 & Z2 & rows2 & R2 & S2 & D2 & M2 & C2).
  assert (Hsub : neighborhood h1 ⊆ neighborhood h') by set_solver.
  exists (n1 ++ n2). unfold visited. split_and!.
  - by rewrite Hn2, Hn1, app_assoc.
  - rewrite B2, B1. set_solver.
  - intros m [Hm|Hm]%elem_of_app.
    + destruct (X1 m Hm) as (? & r' & ?%list_elem_of_singleton & ?). subst. split; [done|].
      exists r. split; [by left|done].
    + destruct (X2 m Hm) as (? & r' & ? & ?). split; [set_solver|]. exists r'. split; [by right|done].
  - auto.
  - exists (rows1 ++ rows2). split_and!.
    + by rewrite R2, R1, app_assoc.
    + rewrite S2, S1, fmap_app. set_solver.
    + rewrite fmap_app. apply NoDup_app. split_and!; [done| |done].
      intros i Hi (r' & -> & Hr')%list_elem_of_fmap. destruct (M2 r' Hr') as (_ & Hnew & _). set_solver.
    + intros r' [Hr'|Hr']%elem_of_app.
      * destruct (M1 r' Hr') as (?%list_elem_of_singleton & ? & He). subst. split_and!; [by left|done|].
        intros Hl. destruct He as [? ?]; [pose proof (subseteq_size _ _ Hsub); lia|].
        split; set_solver.
      * destruct (M2 r' Hr') as (? & ? & He). split_and!; [by right|set_solver|done].
    + intros r' [->|Hr']%elem_of_cons; [|auto]. assert (r_id r ∈ seen_edges h1) by (apply C1; by left).
      set_solver.
Qed.

(** ** The frontier's page *)

Lemma page_of `{HashOrder} frontier limit c g rows :
  graph_ok g → index_complete g → relationships_touching frontier limit c g = (bump_frontier c, Ok rows) →
  (∀ r, r ∈ rows → open_edge g r) ∧ NoDup (r_id <$> rows) ∧
  (index_sound g → ∀ r, r ∈ rows → r_from r ∈ frontier ∨ r_to r ∈ frontier) ∧
  (Z.of_nat (length rows) < limit →
   ∀ r, open_edge g r → r_from r ∈ frontier ∨ r_to r ∈ frontier → r ∈ rows).
Proof.
  intros Hok Hidx E.
  destruct (relationships_touching_exact frontier limit c g rows Hok Hidx) as [Hs Hc]; [by rewrite E|].
  injection E as E. unfold take_limit in E. set (ids := ⋃ _) in E.
  set (l := List.filter is_current (omap (current (g_rels g)) (hash_elements ids))) in E.
  assert (Hsub : rows `sublist_of` l) by (rewrite <-E; apply sublist_take). split_and!; [exact Hs| | |].
  - eapply sublist_NoDup; [|by apply fmap_sublist, Hsub].
    assert (Hd : ∀ k, NoDup k → NoDup (r_id <$> List.filter is_current (omap (current (g_rels g)) k))).
    { induction k as [|i k IH]; [constructor|]. intros [Hi Hk]%NoDup_cons. csimpl.
      destruct (current (g_rels g) i) as [r|] eqn:Ei; [|by apply IH]. csimpl.
      destruct (is_current r); [|by apply IH]. csimpl. constructor; [|by apply IH].
      destruct (current_ok (g_lsn g) (g_rels g) i r) as [Hid _]; [apply Hok|done|]. simpl in Hid.
      intros (r' & Er & [Hr' _]%elem_of_filter)%list_elem_of_fmap.
      apply list_elem_of_omap in Hr' as (i' & Hi' & Ei').
      destruct (current_ok (g_lsn g) (g_rels g) i' r') as [Hid' _]; [apply Hok|done|]. simpl in Hid'.
      congruence. }
    apply Hd. unfold hash_elements. rewrite hash_iter_perm. apply NoDup_fst_map_to_list.
  - intros Hsound r Hr. apply (sublist_subseteq _ _ Hsub), elem_of_filter in Hr as [Hr _].
    apply list_elem_of_omap in Hr as (i & Hi%elem_of_hash_elements & Ei).
    apply elem_of_union_list in Hi as (X & (node & Hn & HX)%list_elem_of_omap & Hi).
    destruct (Hsound _ _ _ _ HX Hi Ei) as [-> | ->]; auto.
  - intros Hl r [Hcur Ho] Ht. destruct (Hc r Hcur Ho Ht); [done|lia].
Qed.

(** ** The search *)

Section search.
Context `{Blake3, Sha256, Bincode, HashOrder} (o : Ontology) (g : Graph) (seeds : list MemoryId).
Hypothesis graph_valid : graph_ok g.
Hypothesis graph_indexed : index_complete g.
#[local] Instance store_reads : ReasoningStore Store := in_memory_reasoning o.

(** Nothing was cut: fewer nodes and fewer edges than the limits. *)
Definition uncut (h : Harvest) : Prop :=
  Z.of_nat (size (neighborhood h)) < MAX_REASONING_NODES ∧
  Z.of_nat (length (relationship_rows h)) < MAX_REASONING_EDGES.

(** The search after [j] hops with a frontier to visit. *)
Record searched (j : nat) (h : Harvest) (frontier : list MemoryId) : Prop := {
  sd_size : Z.of_nat (size (neighborhood h)) ≤ MAX_REASONING_NODES;
  sd_open : ∀ r, r ∈ relationship_rows h → open_edge g r;
  sd_nodup : NoDup (r_id <$> relationship_rows h);
  sd_seen : seen_edges h = list_to_set (r_id <$> relationship_rows h);
  sd_frontier : ∀ m, m ∈ frontier → m ∈ neighborhood h;
  sd_sound : index_sound g → ∀ m, m ∈ neighborhood h → within_hops g seeds j m;
  sd_ends : Z.of_nat (size (neighborhood h)) < MAX_REASONING_NODES →
    ∀ r, r ∈ relationship_rows h → ends_in (neighborhood h) r;
  sd_nodes : uncut h → ∀ m, within_hops g seeds j m → m ∈ neighborhood h;
  sd_edges : uncut h → ∀ r m, open_edge g r → m ∈ neighborhood h → r_from r = m ∨ r_to r = m →
    m ∈ frontier ∨ r ∈ relationship_rows h;
  sd_done : uncut h → ∀ n r m, (n < j)%nat → within_hops g seeds n m → open_edge g r →
    r_from r = m ∨ r_to r = m → r ∈ relationship_rows h;
}.

Lemma uncut_anti h h' :
  neighborhood h ⊆ neighborhood h' → (length (relationship_rows h) ≤ length (relationship_rows h'))%nat →
  uncut h' → uncut h.
Proof. intros Hs Hl [Hu1 Hu2]. pose proof (subseteq_size _ _ Hs). split; lia. Qed.

Lemma searched_step j h frontier h' next c page :
  searched j h frontier →
  relationships_touching frontier MAX_REASONING_EDGES c g = (bump_frontier c, Ok page) →
  foldl visit_row (h, []) page = (h', next) →
  searched (S j) h' next ∧ ∀ f, (∀ m, m ∈ f ↔ m ∈ next) → searched (S j) h' f.
Proof.
  intros [Hsz Hop Hnd Hseen Hfr Hso Hen Hno Hed _] Hpage Hv.
  destruct (page_of _ _ _ _ _ graph_valid graph_indexed Hpage) as (Po & Pd & Ps & Pc).
  destruct (visit_rows_spec _ _ _ _ _ Hv) as (new & Hn & B & X & Z1 & rows & R & S1 & D & M & C).
  simpl in Hn. subst next.
  assert (Hsub : neighborhood h ⊆ neighborhood h') by set_solver.
  assert (Hlen : (length (relationship_rows h) ≤ length (relationship_rows h'))%nat)
    by (rewrite R, length_app; lia).
  assert (Hseen' : seen_edges h' = list_to_set (r_id <$> relationship_rows h')).
  { rewrite S1, R, fmap_app, Hseen. set_solver. }
  assert (Hop' : ∀ r, r ∈ relationship_rows h' → open_edge g r).
  { intros r. rewrite R. intros [?|[? _]%M]%elem_of_app; auto. }
  assert (Hin : ∀ r, r ∈ page → r ∈ relationship_rows h').
  { intros r Hr. pose proof (C r Hr) as Hi. rewrite Hseen' in Hi.
    apply elem_of_list_to_set, list_elem_of_fmap in Hi as (r' & Er & Hr').
    destruct (Hop' r' Hr') as [E1 _], (Po r Hr) as [E2 _]. rewrite <-Er in E1. congruence. }
  assert (Hnd' : NoDup (r_id <$> relationship_rows h')).
  { rewrite R, fmap_app. apply NoDup_app. split_and!; [done| |done].
    intros i Hi (r & -> & (_ & Hnew & _)%M)%list_elem_of_fmap. apply Hnew. rewrite Hseen. set_solver. }
  assert (Hlong : (length page ≤ length (relationship_rows h'))%nat).
  { rewrite <-(length_fmap r_id page), <-(length_fmap r_id (relationship_rows h')).
    apply submseteq_length, NoDup_submseteq; [done|].
    intros i (r & -> & Hr)%list_elem_of_fmap. by apply list_elem_of_fmap_2, Hin. }
  assert (Hcov : uncut h' → ∀ r m, open_edge g r → m ∈ neighborhood h → r_from r = m ∨ r_to r = m →
    r ∈ relationship_rows h').
  { intros Hu r m Hr Hm He. destruct (Hed (uncut_anti _ _ Hsub Hlen Hu) r m Hr Hm He) as [Hf|Hr'].
    - apply Hin, Pc; [destruct Hu; lia|done|]. destruct He as [-> | ->]; auto.
    - rewrite R. set_solver. }
  assert (Hends' : Z.of_nat (size (neighborhood h')) < MAX_REASONING_NODES →
    ∀ r, r ∈ relationship_rows h' → ends_in (neighborhood h') r).
  { intros Hl r. rewrite R. intros [Hr|Hr]%elem_of_app.
    - assert (Z.of_nat (size (neighborhood h)) < MAX_REASONING_NODES) as Hl'
        by (pose proof (subseteq_size _ _ Hsub); lia).
      destruct (Hen Hl' r Hr). split; set_solver.
    - by apply M. }
  assert (Hall : searched (S j) h' new).
  { constructor; [auto|done|done|done|set_solver| |done| | |].
    - intros Hsd m. rewrite B. intros [Hm|Hm%elem_of_list_to_set]%elem_of_union.
      + eapply within_hops_le, (Hso Hsd m Hm). lia.
      + destruct (X m Hm) as (Hnew & r & Hr & He).
        assert (Hf : ∀ x, x ∈ frontier → within_hops g seeds j x) by (intros x Hx; by apply Hso, Hfr).
        destruct (Ps Hsd r Hr) as [Hx|Hx]; destruct He as [-> | ->]; try (by destruct Hnew; apply Hfr);
          (eapply within_step; [by apply Hf|by apply Po|by auto]).
    - intros Hu m Hm. inversion Hm as [? ? Hs|n m0 r ? Hw Hr He]; subst.
      + apply Hsub, Hno; [by eapply uncut_anti|by constructor].
      + assert (m0 ∈ neighborhood h) as Hm0 by (apply Hno; [by eapply uncut_anti|done]).
        assert (r ∈ relationship_rows h') as Hr' by (eapply Hcov; [done|done|exact Hm0|naive_solver]).
        destruct (Hends' ltac:(apply Hu) r Hr'). destruct He as [[_ <-]|[_ <-]]; done.
    - intros Hu r m Hr Hm He. rewrite B in Hm. apply elem_of_union in Hm as [Hm|Hm%elem_of_list_to_set].
      + right. by eapply Hcov.
      + by left.
    - intros Hu n r m Hn Hw Hr He. apply (Hcov Hu r m Hr); [|done].
      apply Hno; [by eapply uncut_anti|]. eapply within_hops_le, Hw. lia. }
  split; [exact Hall|]. intros f Hf. destruct Hall as [? ? ? ? Ff ? ? ? Fe ?].
  constructor; try assumption.
  - intros m Hm%Hf. by apply Ff.
  - intros Hu r m Hr Hm He. rewrite Hf. by apply (Fe Hu r m).
Qed.

(** A search with nothing left to visit has found every hop. *)
Lemma searched_closed j h n m :
  searched j h [] → uncut h → within_hops g seeds n m → m ∈ neighborhood h.
Proof.
  intros Hs Hu Hw. induction Hw as [n m Hm|n m r m' Hw IH Hr He].
  - apply (sd_nodes _ _ _ Hs Hu). by constructor.
  - destruct (sd_edges _ _ _ Hs Hu r m Hr IH) as [?%not_elem_of_nil|Hin]; [naive_solver|done|].
    destruct (sd_ends _ _ _ Hs (proj1 Hu) r Hin). destruct He as [[_ <-]|[_ <-]]; done.
Qed.

(** What a search of [k] hops returns. *)
Record harvested (k : nat) (h : Harvest) : Prop := {
  hv_size : Z.of_nat (size (neighborhood h)) ≤ MAX_REASONING_NODES;
  hv_rows : Z.of_nat (length (relationship_rows h)) < 2 * MAX_REASONING_EDGES;
  hv_open : ∀ r, r ∈ relationship_rows h → open_edge g r;
  hv_nodup : NoDup (r_id <$> relationship_rows h);
  hv_sound : index_sound g → ∀ m, m ∈ neighborhood h → within_hops g seeds k m;
  hv_nodes : uncut h → ∀ m, within_hops g seeds k m → m ∈ neighborhood h;
  hv_edges : uncut h → ∀ n r m, (n < k)%nat → within_hops g seeds n m → open_edge g r →
    r_from r = m ∨ r_to r = m → r ∈ relationship_rows h;
}.

Lemma searched_stop j k h frontier :
  searched j h frontier → (j ≤ k)%nat → (frontier = [] ∨ j = k) →
  Z.of_nat (length (relationship_rows h)) < 2 * MAX_REASONING_EDGES → harvested k h.
Proof.
  intros Hs Hjk Hstop Hlen. constructor.
  - apply Hs.
  - exact Hlen.
  - apply Hs.
  - apply Hs.
  - intros Hsd m Hm. eapply within_hops_le, (sd_sound _ _ _ Hs Hsd m Hm). lia.
  - intros Hu m Hw. destruct Hstop as [-> | ->]; [by eapply searched_closed|by apply (sd_nodes _ _ _ Hs)].
  - intros Hu n r m Hn Hw Hr He. destruct Hstop as [-> | ->]; [|by eapply (sd_done _ _ _ Hs)].
    destruct (sd_edges _ _ _ Hs Hu r m Hr) as [?%not_elem_of_nil| ?]; [|done|done|done].
    by eapply searched_closed.
Qed.

Lemma searched_cut j k h frontier :
  searched j h frontier → (j ≤ k)%nat → MAX_REASONING_EDGES ≤ Z.of_nat (length (relationship_rows h)) →
  Z.of_nat (length (relationship_rows h)) < 2 * MAX_REASONING_EDGES → harvested k h.
Proof.
  intros Hs Hjk Hcut Hlen. constructor; try apply Hs; [exact Hlen| | |].
  - intros Hsd m Hm. eapply within_hops_le, (sd_sound _ _ _ Hs Hsd m Hm). lia.
  - intros [_ Hu]. lia.
  - intros [_ Hu]. lia.
Qed.

Lemma harvest_loop k j h frontier st :
  graph st = g → searched j h frontier → Z.of_nat (length (relationship_rows h)) < MAX_REASONING_EDGES →
  ∃ c h', harvest k h frontier st = (put_reads c st, Ok h') ∧ harvested (j + k) h' ∧
    fail_next_batch_read c = fail_next_batch_read (reads st).
Proof.
  revert j h frontier st. induction k as [|k IH]; intros j h frontier st Hg Hs Hlen.
  { exists (reads st), h. split; [by destruct st|]. split; [|done].
    eapply searched_stop; [done|lia|by right; lia|lia]. }
  cbn [harvest]. destruct frontier as [|m0 frontier'].
  { exists (reads st), h. split; [by destruct st|]. split; [|done].
    eapply searched_stop; [done|lia|by left|lia]. }
  set (frontier := m0 :: frontier') in *.
  destruct (relationships_touching frontier MAX_REASONING_EDGES (reads st) (graph st)) as [c r] eqn:Et.
  assert (∃ page, c = bump_frontier (reads st) ∧ r = Ok page ∧ Z.of_nat (length page) ≤ MAX_REASONING_EDGES)
    as (page & -> & -> & Hpl).
  { unfold relationships_touching in Et. injection Et as <- <-. eexists. split_and!; [done..|].
    unfold take_limit. rewrite length_take. unfold MAX_REASONING_EDGES. lia. }
  change (rs_touching frontier MAX_REASONING_EDGES st) with
    (let '(c, r) := relationships_touching frontier MAX_REASONING_EDGES (reads st) (graph st) in
     (put_reads c st, r)).
  rewrite Et. rewrite Hg in Et. destruct (foldl visit_row (h, []) page) as [h' next] eqn:Ev.
  destruct (searched_step _ _ _ _ _ _ _ Hs Et Ev) as [Hs' Hf].
  assert (Hlen' : Z.of_nat (length (relationship_rows h')) < 2 * MAX_REASONING_EDGES).
  { destruct (visit_rows_spec _ _ _ _ _ Ev) as (new & _ & _ & _ & _ & rows & R & _ & D & M & _).
    rewrite R, length_app. assert (length rows ≤ length page)%nat; [|lia].
    rewrite <-(length_fmap r_id rows), <-(length_fmap r_id page). apply submseteq_length, NoDup_submseteq; [done|].
    intros i (x & -> & Hx)%list_elem_of_fmap. by apply list_elem_of_fmap_2, M. }
  destruct (bool_decide (next = [])) eqn:Hn; cbn [orb].
  { bool_prop. subst next. exists (bump_frontier (reads st)), h'. split; [done|]. split; [|by destruct (reads st)].
    eapply searched_stop; [done|lia|by left|done]. }
  destruct (Z.leb_spec MAX_REASONING_EDGES (Z.of_nat (length (relationship_rows h')))) as [Hc|Hc].
  { exists (bump_frontier (reads st)), h'. split; [done|]. split; [|by destruct (reads st)].
    eapply searched_cut; [done|lia|done|done]. }
  destruct (sort_dedup_ids compare_mid next) as (_ & _ & Hin & _).
  destruct (IH (S j) h' (dedup (merge_sort (le_of compare_mid) next)) (put_reads (bump_frontier (reads st)) st))
    as (c & h2 & E & Hh & Hfl); [done|by apply Hf|done|].
  exists c, h2. split; [exact E|]. split; [by rewrite <-plus_n_Sm|].
  rewrite Hfl. simpl. by destruct (reads st).
Qed.

Lemma harvest_spec k st :
  graph st = g → NoDup seeds → Z.of_nat (length seeds) ≤ MAX_REASONING_NODES →
  ∃ c h, harvest k (mkHarvest (list_to_set seeds) ∅ []) seeds st = (put_reads c st, Ok h) ∧ harvested k h ∧
    fail_next_batch_read c = fail_next_batch_read (reads st).
Proof.
  intros Hg Hd Hl. apply (harvest_loop k 0); [done| |simpl; unfold MAX_REASONING_EDGES; lia].
  constructor; simpl; try set_solver.
  - by rewrite size_list_to_set.
  - constructor.
  - intros _ m Hm. constructor. set_solver.
  - intros _ m Hw. inversion Hw; subst. set_solver.
  - lia.
Qed.

End search.
