(* ===== verification/ReasoningSpec.v ===== *)
(** * What the reasoning engine promises

    The meaning of the rules over a harvested neighbourhood, the derived rows against it, the
    bounds of the harvest, and that a durable pass takes effect once
    ([crates/exocortex-reasoning/src/engine.rs]). *)

From stdpp Require Import pretty.
From S2P Require Import Prelude Ids Kernel Packs Ontology StorageTypes Graph Reads Leases.
From S2P Require Import Ingest Governed Cycles Storage ShippedPacks Rules Reasoning.

(** ** The meaning of the rules *)

Section meaning.
Context (pk : PackKinds) (edges : list Edge) (ents : list EntityFact) (tgs : list TagFact)
  (mems : list MemoryFact).

(** The two hops a chained rule stands on. *)
Definition hop_kinds (rule : string) : option (RelKindId * RelKindId) :=
  if String.eqb rule "R4" then Some (depends_on pk, depends_on pk)
  else if String.eqb rule "R5" then Some (requires pk, requires pk)
  else if String.eqb rule "D2" then Some (builds_on pk, builds_on pk)
  else if String.eqb rule "D3" then Some (blocks pk, requires pk)
  else if String.eqb rule "D4" then Some (contradicts pk, confirms pk)
  else None.

(** [follows rule a b n]: the rule derives an edge from [a] to [b], with [n] shared items. *)
Inductive follows : string → MemoryId → MemoryId → Z → Prop :=
  | follows_hops rule u v a b c :
      hop_kinds rule = Some (u, v) → (a, b, u) ∈ edges → (b, c, v) ∈ edges → follows rule a c 0
  | follows_entities a b n :
      a ≠ b → n = Z.of_nat (size (items_of ents a ∩ items_of ents b)) → 0 < n → follows "R7" a b n
  | follows_solutions a b p :
      a ≠ b → (a, p, SOLVES) ∈ edges → (b, p, SOLVES) ∈ edges → follows "R8" a b 0
  | follows_tags a b n :
      a ≠ b → n = Z.of_nat (size (items_of tgs a ∩ items_of tgs b)) → 0 < n → follows "R9" a b n
  | follows_fix a b : (a, b, FIXES) ∈ edges → (a, FIX_TYPE) ∈ mems → follows "D1" a b 0
  | follows_target a b p :
      a ≠ b → (a, p, modifies pk) ∈ edges → (b, p, modifies pk) ∈ edges → follows "D5" a b 0
  | follows_cohort a b s :
      compare_mid a b = Lt → (a, s, IN_SESSION) ∈ edges → (b, s, IN_SESSION) ∈ edges →
      follows "D6" a b 0.

Definition affinities (d : Derived) : Z :=
  Z.of_nat (length (co_occurrence_affinity d) + length (similar_tags_affinity d)).
End meaning.

(** The rows a derivation names as evidence: the two hops, or none. *)
Definition backed (pk : PackKinds) (rows : list Relationship) (rule : string) (a c : MemoryId)
    (evidence : list RelationshipId) : Prop :=
  match hop_kinds pk rule with
  | Some (u, v) =>
      ∃ r1 r2, evidence = [r_id r1; r_id r2] ∧ r1 ∈ rows ∧ r2 ∈ rows ∧ r_from r1 = a ∧
        r_kind r1 = u ∧ r_from r2 = r_to r1 ∧ r_kind r2 = v ∧ r_to r2 = c
  | None => evidence = []
  end.

(** ** Evidence *)

Lemma head_omap_some {A B} (f : A → option B) l x y :
  x ∈ l → f x = Some y → ∃ z, head (omap f l) = Some z.
Proof.
  intros Hx Hf. destruct (head (omap f l)) as [z|] eqn:E; [by exists z|].
  apply head_None in E. assert (y ∈ omap f l) as Hy by (apply list_elem_of_omap; eauto).
  rewrite E in Hy. by apply not_elem_of_nil in Hy.
Qed.

Lemma head_omap_inv {A B} (f : A → option B) l z :
  head (omap f l) = Some z → ∃ x, x ∈ l ∧ f x = Some z.
Proof. intros Hz. apply list_elem_of_omap. destruct (omap f l); simplify_eq/=. by left. Qed.

Lemma support_finds rows a c u v r1 r2 :
  r1 ∈ rows → r2 ∈ rows → r_from r1 = a → r_kind r1 = u → r_from r2 = r_to r1 → r_kind r2 = v →
  r_to r2 = c →
  ∃ s1 s2, support rows a c u v = [r_id s1; r_id s2] ∧ s1 ∈ rows ∧ s2 ∈ rows ∧ r_from s1 = a ∧
    r_kind s1 = u ∧ r_from s2 = r_to s1 ∧ r_kind s2 = v ∧ r_to s2 = c.
Proof.
  intros H1 H2 Ha Hu Hm Hv Hc. unfold support.
  set (second := λ s1 : Relationship, λ s2, if bool_decide (r_to s2 = c) && bool_decide (r_kind s2 = v)
    then Some [r_id s1; r_id s2] else None).
  set (outs := λ m, List.filter (λ r, bool_decide (r_from r = m)) rows).
  assert (Hsec : ∃ l, head (omap (second r1) (outs (r_to r1))) = Some l).
  { eapply head_omap_some; [|unfold second; by rewrite !bool_decide_eq_true_2].
    apply elem_of_filter. split; [done|]. by apply bool_decide_eq_true_2. }
  destruct Hsec as [l Hl].
  set (first := λ s1, if negb (bool_decide (r_kind s1 = u)) then None
                      else head (omap (second s1) (outs (r_to s1)))).
  destruct (head_omap_some first (outs a) r1 l) as [z Hz].
  { apply elem_of_filter. split; [done|]. by apply bool_decide_eq_true_2. }
  { unfold first. by rewrite bool_decide_eq_true_2. }
  change (∃ s1 s2, match head (omap first (outs a)) with Some e => e | None => [] end = [r_id s1; r_id s2] ∧
    s1 ∈ rows ∧ s2 ∈ rows ∧ r_from s1 = a ∧ r_kind s1 = u ∧ r_from s2 = r_to s1 ∧ r_kind s2 = v ∧ r_to s2 = c).
  rewrite Hz. apply head_omap_inv in Hz as (s1 & [Hs1 Hf1]%elem_of_filter & Hs).
  unfold first in Hs. case_bool_decide as Hk; [|done]. simpl in Hs.
  apply head_omap_inv in Hs as (s2 & [Hs2 Hf2]%elem_of_filter & Hs). unfold second in Hs.
  destruct (bool_decide (r_to s2 = c) && _) eqn:Hb; [|done]. bool_prop. simplify_eq. eauto 12.
Qed.

(** ** The session pairs *)

Lemma elem_of_pushed (l : list (MemoryId * MemoryId)) m s x :
  x ∈ versions (foldl (λ m e, entry_push e.2 e.1 m) m l) s ↔ x ∈ versions m s ∨ (x, s) ∈ l.
Proof.
  revert m. induction l as [|[y t] l IH]; intros m; simpl.
  { rewrite elem_of_nil. naive_solver. }
  rewrite IH, elem_of_cons. destruct (decide (s = t)) as [->|Hne].
  - rewrite versions_entry_push_eq, elem_of_app, list_elem_of_singleton. naive_solver.
  - rewrite versions_entry_push_ne by done. naive_solver.
Qed.

Lemma elem_of_cohort_pairs group a b :
  StronglySorted (λ x y, compare_mid x y = Lt) group →
  (a, b) ∈ cohort_pairs group ↔ a ∈ group ∧ b ∈ group ∧ compare_mid a b = Lt.
Proof.
  assert (Hirr : ∀ x, compare_mid x x ≠ Lt).
  { intros x. by rewrite (proj2 (cmp_eq (cmp:=compare_mid) x x) eq_refl). }
  induction 1 as [|m1 group Hs IH Hlt]; simpl.
  { rewrite !elem_of_nil. naive_solver. }
  rewrite Forall_forall in Hlt.
  rewrite elem_of_app, IH, list_elem_of_omap, !elem_of_cons. split.
  - intros [(m2 & Hm2 & E)|(? & ? & ?)]; [|naive_solver].
    destruct (negb _) eqn:Hne; [|done]. simplify_eq. naive_solver.
  - intros ([->|Ha] & [->|Hb] & Hl); [by destruct (Hirr m1)| | |eauto].
    + left. exists b. split; [done|]. rewrite bool_decide_eq_false_2; [done|]. intros ->. by destruct (Hirr b).
    + specialize (Hlt a Ha). exfalso. apply (Hirr a).
      by eapply (cmp_lt_trans (cmp:=compare_mid)).
Qed.

Lemma elem_of_session_pairs `{HashOrder} (cohort : list (MemoryId * MemoryId)) a b :
  (a, b) ∈ session_pairs cohort ↔ compare_mid a b = Lt ∧ ∃ s, (a, s) ∈ cohort ∧ (b, s) ∈ cohort.
Proof.
  unfold session_pairs. set (by_session := foldl _ _ _).
  assert (Hv : ∀ s x, x ∈ versions by_session s ↔ (x, s) ∈ cohort).
  { intros s x. unfold by_session. rewrite elem_of_pushed. unfold versions. rewrite lookup_empty.
    simpl. rewrite elem_of_nil. naive_solver. }
  rewrite list_elem_of_bind. split.
  - intros (s & Hp & _). destruct (sort_dedup_ids compare_mid (versions by_session s)) as (Hs & _ & Hin & _).
    apply (elem_of_cohort_pairs _ _ _ Hs) in Hp as (Ha & Hb & Hl).
    rewrite Hin, Hv in Ha, Hb. eauto.
  - intros (Hl & s & Ha & Hb). exists s.
    destruct (sort_dedup_ids compare_mid (versions by_session s)) as (Hs & _ & Hin & _). split.
    + apply (elem_of_cohort_pairs _ _ _ Hs). by rewrite !Hin, !Hv.
    + rewrite merge_sort_Permutation. apply Hv in Ha. unfold versions in Ha.
      destruct (by_session !! s) as [l|] eqn:Es; [|by apply not_elem_of_nil in Ha].
      apply list_elem_of_fmap. exists (s, l). split; [done|]. by apply elem_of_hash_iter.
Qed.

(** ** Candidates *)

Section candidates.
Context `{HashOrder} (pk : PackKinds) (h : Harvest) (ents : list EntityFact) (tgs : list TagFact)
  (mems : list MemoryFact).
Let edges := edge_facts h.
Let d := evaluate pk edges ents tgs mems.

Lemma edge_fact_row a b u :
  (a, b, u) ∈ edges → ∃ r, r ∈ relationship_rows h ∧ r_from r = a ∧ r_to r = b ∧ r_kind r = u.
Proof.
  unfold edges, edge_facts. intros (r & Hr & E)%list_elem_of_omap.
  destruct (_ && _); [|done]. simplify_eq. eauto.
Qed.

Lemma chain_backed rule u v a c :
  hop_kinds pk rule = Some (u, v) → (a, c) ∈ chain u v edges →
  backed pk (relationship_rows h) rule a c (support (relationship_rows h) a c u v).
Proof.
  intros Hk (b & (r1 & H1 & <- & Hb & Hu)%edge_fact_row & (r2 & H2 & Hb' & <- & Hv)%edge_fact_row)%elem_of_chain.
  unfold backed. rewrite Hk. apply (support_finds _ _ _ _ _ r1 r2); congruence.
Qed.

(** The shared counts before and after the cap. *)
Definition counts {X} `{Countable X} (facts : list (MemoryId * X)) (l : list (MemoryId * MemoryId)) : Prop :=
  (∀ a b n, ((a, b), n) ∈ pair_counts l → a ≠ b ∧
     0 < Z.of_nat (size (items_of facts a ∩ items_of facts b)) ∧
     n ≤ Z.of_nat (size (items_of facts a ∩ items_of facts b))).

Lemma as_u32_le n : 0 ≤ n → 0 ≤ as_u32 n ≤ n.
Proof.
  intros Hn. unfold as_u32, wrap. split; [apply Z.mod_pos_bound; lia|apply Z.mod_le; lia].
Qed.

(** Without a bound on the length a count may have wrapped: it is never too high. *)
Lemma count_pair_le l :
  let out := foldl count_pair [] l in
  ∀ p n, (p, n) ∈ out → p ∈ l ∧ 0 ≤ n ≤ occurrences p l.
Proof.
  induction l as [|x l IH] using rev_ind; simpl; [by intros p n ?%not_elem_of_nil|].
  rewrite foldl_snoc. set (out := foldl count_pair [] l) in *.
  assert (Hold : ∀ p n, (p, n) ∈ out → p ∈ l ++ [x] ∧ 0 ≤ n ≤ occurrences p (l ++ [x])).
  { intros p n [Hp Hn]%IH. rewrite elem_of_app, occurrences_snoc. split; [by left|]. case_decide; lia. }
  assert (H1 : x ∈ l ++ [x] ∧ 0 ≤ 1 ≤ occurrences x (l ++ [x])).
  { split; [set_solver|]. split; [lia|].
    pose proof (proj1 (occurrences_pos x (l ++ [x])) ltac:(set_solver)). lia. }
  intros p n. unfold count_pair. destruct (last out) as [[[a b] m]|] eqn:El.
  - apply last_Some in El as [k Ek]. case_bool_decide as Hx.
    + rewrite Ek, removelast_last, elem_of_app, list_elem_of_singleton.
      intros [Hk|[= -> ->]]; [apply Hold; rewrite Ek; set_solver|].
      destruct (IH (a, b) m) as [_ Hm]; [rewrite Ek; set_solver|]. subst x.
      pose proof (as_u32_le (m + 1)). rewrite occurrences_snoc, decide_True by done.
      split; [set_solver|]. lia.
    + rewrite elem_of_app, list_elem_of_singleton. intros [?|[= -> ->]]; [by apply Hold|done].
  - rewrite list_elem_of_singleton. by intros [= -> ->].
Qed.

Lemma occurrences_sublist p l k : l `sublist_of` k → occurrences p l ≤ occurrences p k.
Proof.
  intros Hs. unfold occurrences. assert (length (filter (λ q, q = p) l) ≤ length (filter (λ q, q = p) k))%nat; [|lia].
  induction Hs; rewrite ?filter_nil, ?filter_cons; [lia|case_decide; simpl; lia|case_decide; simpl; lia].
Qed.

Lemma affinity_counts_le {X} `{Countable X} (facts : list (MemoryId * X)) l :
  l `sublist_of` (fst <$> hash_elements (shared facts)) → counts facts l.
Proof.
  intros Hs a b n [Hin Hn]%(count_pair_le (merge_sort (le_of compare_pair) l)).
  rewrite merge_sort_Permutation in Hin. rewrite (occurrences_perm _ _ _ (merge_sort_Permutation _ l)) in Hn.
  assert (a ≠ b) as Hne.
  { assert ((a, b) ∈ fst <$> hash_elements (shared facts)) as Hp by (eapply sublist_subseteq; done).
    apply list_elem_of_fmap in Hp as ([[a' b'] x] & E & Hx%elem_of_hash_elements).
    simpl in E. simplify_eq. by apply elem_of_shared in Hx as [? _]. }
  apply occurrences_pos in Hin. pose proof (occurrences_sublist (a, b) _ _ Hs) as Hle.
  rewrite shared_occurrences in Hle by done. split_and!; [done|lia|lia].
Qed.

Lemma cap_sublists :
  co_occurrence_affinity (cap_affinities d) `sublist_of` (fst <$> hash_elements (shared ents)) ∧
  similar_tags_affinity (cap_affinities d) `sublist_of` (fst <$> hash_elements (shared tgs)).
Proof. unfold cap_affinities. case_match; [|done]. split; apply sublist_take. Qed.

Lemma cap_rest :
  cap_affinities d = set_affinities (co_occurrence_affinity (cap_affinities d))
                       (similar_tags_affinity (cap_affinities d)) d.
Proof. unfold cap_affinities. by case_match. Qed.
End candidates.

(** Every call of [push] follows from a rule, with its evidence; without the affinity cap every
    derivation is pushed, with its count. *)
Section exact.
Context `{HashOrder} (pk : PackKinds) (h : Harvest) (ents : list EntityFact) (tgs : list TagFact)
  (mems : list MemoryFact).
Let edges := edge_facts h.
Let rows := relationship_rows h.
Let d := evaluate pk edges ents tgs mems.

Lemma hop_candidates rule u v c :
  hop_kinds pk rule = Some (u, v) →
  c ∈ ((λ p : MemoryId * MemoryId, mkCandidate p.1 p.2 rule (f32_percent 50) 0 (support rows p.1 p.2 u v))
         <$> hash_elements (chain u v edges)) →
  follows pk edges ents tgs mems (cd_rule c) (cd_from c) (cd_to c) 0 ∧ cd_shared c = 0 ∧
  backed pk rows (cd_rule c) (cd_from c) (cd_to c) (cd_evidence c).
Proof.
  intros Hk ([a b] & -> & Hin%elem_of_hash_elements)%list_elem_of_fmap. simpl. split_and!; [|done|].
  - apply elem_of_chain in Hin as (m & H1 & H2). by eapply follows_hops.
  - by apply chain_backed.
Qed.

Lemma counted_candidates {X} `{Countable X} (facts : list (MemoryId * X)) rule l c :
  l `sublist_of` (fst <$> hash_elements (shared facts)) →
  c ∈ ((λ c : MemoryId * MemoryId * Z, mkCandidate c.1.1 c.1.2 rule (f32_percent 30) c.2 []) <$> pair_counts l) →
  cd_rule c = rule ∧ cd_evidence c = [] ∧ cd_from c ≠ cd_to c ∧
  cd_shared c ≤ Z.of_nat (size (items_of facts (cd_from c) ∩ items_of facts (cd_to c))) ∧
  0 < Z.of_nat (size (items_of facts (cd_from c) ∩ items_of facts (cd_to c))).
Proof.
  intros Hs ([[a b] n] & -> & Hin)%list_elem_of_fmap. simpl.
  by apply (affinity_counts_le _ _ Hs) in Hin as (? & ? & ?).
Qed.

Lemma candidate_sound c :
  c ∈ candidates pk rows (cap_affinities d) →
  (∃ n, follows pk edges ents tgs mems (cd_rule c) (cd_from c) (cd_to c) n ∧ cd_shared c ≤ n) ∧
  backed pk rows (cd_rule c) (cd_from c) (cd_to c) (cd_evidence c).
Proof.
  destruct (cap_sublists pk h ents tgs mems) as [Hco Htg].
  pose proof (cap_rest pk h ents tgs mems) as E. fold edges d in E, Hco, Htg.
  unfold candidates. rewrite E. clear E. cbv zeta.
  cbn [transitive_depends_on transitive_requires co_occurrence_affinity problem_solution_bridge
       similar_tags_affinity implied_solves transitive_builds_on indirect_blocker
       contradiction_propagates shared_target session_cohort set_affinities].
  set (co := co_occurrence_affinity (cap_affinities d)) in *.
  set (tg := similar_tags_affinity (cap_affinities d)) in *.
  assert (Hhop : ∀ rule u v c, hop_kinds pk rule = Some (u, v) →
    c ∈ ((λ p : MemoryId * MemoryId, mkCandidate p.1 p.2 rule (f32_percent 50) 0 (support rows p.1 p.2 u v))
         <$> hash_elements (chain u v edges)) →
    (∃ n, follows pk edges ents tgs mems (cd_rule c) (cd_from c) (cd_to c) n ∧ cd_shared c ≤ n) ∧
    backed pk rows (cd_rule c) (cd_from c) (cd_to c) (cd_evidence c)).
  { intros rule u v c' Hk (Hf & -> & Hb)%hop_candidates; [|done]. split; [by exists 0|done]. }
  rewrite !elem_of_app. intros [Hc|[Hc|[Hc|[Hc|[Hc|[Hc|[Hc|[Hc|[Hc|[Hc|Hc]]]]]]]]]];
    try (by eapply Hhop; [|exact Hc]).
  - destruct (counted_candidates _ _ _ _ Hco Hc) as (-> & -> & Hne & Hle & Hpos).
    split; [|done]. eexists. split; [by apply follows_entities|done].
  - apply list_elem_of_fmap in Hc as ([a b] & -> & (Hne & p & H1 & H2)%elem_of_hash_elements%elem_of_fork).
    split; [|done]. exists 0. split; [by eapply follows_solutions|done].
  - destruct (counted_candidates _ _ _ _ Htg Hc) as (-> & -> & Hne & Hle & Hpos).
    split; [|done]. eexists. split; [by apply follows_tags|done].
  - apply list_elem_of_fmap in Hc as ([a b] & -> & (a' & b' & H1 & E)%elem_of_hash_elements%elem_of_of_kind).
    case_bool_decide; [|done]. simplify_eq. split; [|done]. exists 0. split; [by apply follows_fix|done].
  - apply list_elem_of_fmap in Hc as ([a b] & -> & (Hne & p & H1 & H2)%elem_of_hash_elements%elem_of_fork).
    split; [|done]. exists 0. split; [by eapply follows_target|done].
  - apply list_elem_of_fmap in Hc as ([a b] & -> & (Hl & s & Ha & Hb)%elem_of_session_pairs).
    apply elem_of_hash_elements, elem_of_of_kind in Ha as (? & ? & Ha & [= -> ->]).
    apply elem_of_hash_elements, elem_of_of_kind in Hb as (? & ? & Hb & [= -> ->]).
    split; [|done]. exists 0. split; [by eapply follows_cohort|done].
Qed.

Lemma uncapped : affinities d ≤ MAX_DERIVED_RELATIONSHIPS → cap_affinities d = d.
Proof.
  intros Hl. unfold cap_affinities. unfold affinities in Hl.
  by rewrite (proj2 (Z.ltb_ge _ _) Hl).
Qed.

Lemma counted_complete {X} `{Countable X} (facts : list (MemoryId * X)) rule a b n :
  Z.of_nat (length (fst <$> hash_elements (shared facts))) ≤ MAX_DERIVED_RELATIONSHIPS →
  a ≠ b → n = Z.of_nat (size (items_of facts a ∩ items_of facts b)) → 0 < n →
  mkCandidate a b rule (f32_percent 30) n [] ∈
    ((λ c : MemoryId * MemoryId * Z, mkCandidate c.1.1 c.1.2 rule (f32_percent 30) c.2 [])
       <$> pair_counts (fst <$> hash_elements (shared facts))).
Proof.
  intros Hl Hne Hn Hpos. apply list_elem_of_fmap. exists ((a, b), n). split; [done|].
  apply affinity_counts; [|done]. rewrite length_fmap, (Permutation_length (hash_elements_perm _)) in Hl.
  unfold MAX_DERIVED_RELATIONSHIPS in Hl. unfold size, set_size. simpl. lia.
Qed.

Lemma candidate_complete rule a b n :
  affinities d ≤ MAX_DERIVED_RELATIONSHIPS → follows pk edges ents tgs mems rule a b n →
  ∃ c, c ∈ candidates pk rows (cap_affinities d) ∧ cd_rule c = rule ∧ cd_from c = a ∧ cd_to c = b ∧
    cd_shared c = n.
Proof.
  intros Hl Hf. rewrite uncapped by done. unfold candidates. cbv zeta.
  unfold affinities in Hl. simpl in Hl.
  assert (Hhop : ∀ rule u v, (a, b) ∈ chain u v edges →
    mkCandidate a b rule (f32_percent 50) 0 (support rows a b u v) ∈
    ((λ p : MemoryId * MemoryId, mkCandidate p.1 p.2 rule (f32_percent 50) 0 (support rows p.1 p.2 u v))
         <$> hash_elements (chain u v edges))).
  { intros rule' u v Hc. apply list_elem_of_fmap. exists (a, b). split; [done|].
    by apply elem_of_hash_elements. }
  destruct Hf as [rule u v a m c Hk H1 H2|a b n Hne Hn Hpos|a b p Hne H1 H2|a b n Hne Hn Hpos|a b H1 H2
                 |a b p Hne H1 H2|a b s Hlt H1 H2].
  - assert ((a, c) ∈ chain u v edges) as Hc by (apply elem_of_chain; eauto).
    specialize (Hhop rule u v Hc). unfold hop_kinds in Hk.
    exists (mkCandidate a c rule (f32_percent 50) 0 (support rows a c u v)); split; [|done].
    repeat match type of Hk with
    | (if String.eqb rule ?n then _ else _) = _ =>
        destruct (String.eqb_spec rule n) as [->|_]; [simplify_eq; rewrite !elem_of_app; tauto|]
    end. done.
  - exists (mkCandidate a b "R7" (f32_percent 30) n []); split; [|done]. rewrite !elem_of_app; do 2 right; left. apply counted_complete; [lia|done..].
  - exists (mkCandidate a b "R8" (f32_percent 30) 0 []); split; [|done]. rewrite !elem_of_app; do 3 right; left.
    apply list_elem_of_fmap. exists (a, b). split; [done|].
    apply elem_of_hash_elements, elem_of_fork. eauto.
  - exists (mkCandidate a b "R9" (f32_percent 30) n []); split; [|done]. rewrite !elem_of_app; do 4 right; left. apply counted_complete; [lia|done..].
  - exists (mkCandidate a b "D1" (f32_percent 80) 0 []); split; [|done]. rewrite !elem_of_app; do 5 right; left.
    apply list_elem_of_fmap. exists (a, b). split; [done|].
    apply elem_of_hash_elements, elem_of_of_kind. exists a, b. split; [done|].
    by rewrite bool_decide_eq_true_2.
  - exists (mkCandidate a b "D5" (f32_percent 40) 0 []); split; [|done]. rewrite !elem_of_app; do 9 right; left.
    apply list_elem_of_fmap. exists (a, b). split; [done|].
    apply elem_of_hash_elements, elem_of_fork. eauto.
  - exists (mkCandidate a b "D6" (f32_percent 60) 0 []); split; [|done]. rewrite !elem_of_app; do 10 right.
    apply list_elem_of_fmap. exists (a, b). split; [done|]. apply elem_of_session_pairs. split; [done|].
    exists s. split; apply elem_of_hash_elements, elem_of_of_kind; eauto.
Qed.
End exact.

(** ** The rows of a pass *)

Lemma narrowest_spec v vs : ∃ w, narrowest_visibility (v :: vs) = Some w ∧ ∀ x, x ∈ v :: vs → vis_u8 w ≤ vis_u8 x.
Proof.
  exists (foldl vis_min v vs). split; [done|]. revert v. induction vs as [|u vs IH]; intros v x; simpl.
  { rewrite list_elem_of_singleton. intros ->. lia. }
  assert (vis_u8 (vis_min v u) ≤ vis_u8 v ∧ vis_u8 (vis_min v u) ≤ vis_u8 u) as [Hv Hu].
  { unfold vis_min. destruct (Z.ltb_spec (vis_u8 u) (vis_u8 v)); lia. }
  pose proof (IH (vis_min v u) (vis_min v u) ltac:(by left)) as Hm.
  rewrite !elem_of_cons. intros [->|[->|Hx]]; [lia|lia|]. apply IH. by right.
Qed.

Lemma foldl_labels {A K} `{Countable K} (key : A → K) (label : A → Visibility) (l : list A) :
  NoDup (key <$> l) → ∀ x, x ∈ l → foldl (λ m x, <[key x := label x]> m) (∅ : gmap K Visibility) l !! key x = Some (label x).
Proof.
  induction l as [|y l IH] using rev_ind; [by intros _ x ?%not_elem_of_nil|].
  rewrite fmap_app, foldl_snoc. simpl. intros (Hd & Hne & _)%NoDup_app x.
  rewrite elem_of_app, list_elem_of_singleton. intros [Hx| ->]; [|by rewrite lookup_insert_eq].
  rewrite lookup_insert_ne; [by apply IH|]. intros E. apply (Hne (key x)); [by apply list_elem_of_fmap_2|].
  rewrite E. by left.
Qed.

Lemma foldl_labels_dom {A K} `{Countable K} (key : A → K) (label : A → Visibility) (l : list A) k :
  is_Some (foldl (λ m x, <[key x := label x]> m) (∅ : gmap K Visibility) l !! k) ↔ k ∈ key <$> l.
Proof.
  induction l as [|y l IH] using rev_ind; simpl.
  { rewrite elem_of_nil. split; [|done]. by intros [? ?%lookup_empty_Some]. }
  rewrite fmap_app, foldl_snoc, elem_of_app. simpl. rewrite list_elem_of_singleton.
  rewrite lookup_insert_is_Some, IH. destruct (decide (key y = k)); naive_solver.
Qed.

Section rows.
Context `{Blake3, Sha256, Bincode, HashOrder}.

(** The names the engine resolves and the kinds they are in the developer pack. *)
Definition dev_kind (name : string) : option RelKindId :=
  km_id <$> List.find (λ m, String.eqb (display_name m) name) dev_kinds.

Lemma storage_ontology_ok :
  ∃ o, storage_ontology = Some o ∧ ∀ name k, dev_kind name = Some k → kind_id o name = Some k.
Proof.
  destruct (from_packs_tables [dev_pack]) as (o & Ho & Hk & _).
  { apply packs_ok_test. vm_compute. reflexivity. }
  exists o. unfold storage_ontology. rewrite Ho. split; [done|]. intros name k Hd.
  apply (kind_id_resolves _ _ _ _ Ho). unfold dev_kind in Hd.
  destruct (List.find _ dev_kinds) as [m|] eqn:Hf; [|done]. injection Hd as <-.
  apply List.find_some in Hf as [Hin Hn%String.eqb_eq]. exists m. split; [|done].
  rewrite Hk. assert (forallb (λ m, bool_decide (kind_table [dev_pack] !! km_id m = Some m)) dev_kinds = true)
    as Hall by (vm_compute; reflexivity).
  rewrite List.forallb_forall in Hall. by apply Hall, bool_decide_eq_true in Hin.
Qed.

(** Nothing the engine expects of its ontology is missing. *)
Lemma rules_resolve :
  ∃ onto pk, storage_ontology = Some onto ∧ prime onto = Some pk ∧ ∀ rule, is_Some (derived_kind onto rule).
Proof.
  destruct storage_ontology_ok as (o & Ho & Hk). exists o.
  assert (Hs : ∀ name, bool_decide (is_Some (dev_kind name)) = true → ∃ k, kind_id o name = Some k).
  { intros name [k Hd]%bool_decide_eq_true. exists k. by apply Hk. }
  destruct (Hs "DependsOn" eq_refl) as [k1 Hn1], (Hs "Requires" eq_refl) as [k2 Hn2],
    (Hs "BuildsOn" eq_refl) as [k3 Hn3], (Hs "Blocks" eq_refl) as [k4 Hn4],
    (Hs "Contradicts" eq_refl) as [k5 Hn5], (Hs "Confirms" eq_refl) as [k6 Hn6],
    (Hs "Modifies" eq_refl) as [k7 Hn7], (Hs "RelatedTo" eq_refl) as [k8 Hn8].
  exists (mkPackKinds k1 k2 k3 k4 k5 k6 k7). split_and!; [done|by unfold prime; rewrite Hn1, Hn2, Hn3, Hn4, Hn5, Hn6, Hn7|].
  intros rule. unfold derived_kind. rewrite Hn1, Hn2, Hn3, Hn4, Hn5, Hn8.
  repeat (destruct (String.eqb rule _); [by eexists|]). by eexists.
Qed.

Lemma derived_row_spec onto now mv ev c :
  (∀ rule, is_Some (derived_kind onto rule)) →
  ∃ x, derived_row onto now mv ev c = Some x ∧
    (is_Some x ↔ is_Some (mv !! cd_from c) ∧ is_Some (mv !! cd_to c)) ∧
    ∀ r, x = Some r →
      r_from r = cd_from c ∧ r_to r = cd_to c ∧ derived_kind onto (cd_rule c) = Some (r_kind r) ∧
      r_id r = RelationshipId_derive (cd_from c) (r_kind r) (cd_to c) (Some (cd_rule c)) ∧
      r_provenance r = Kernel.Derived (cd_rule c) (cd_evidence c) ∧
      rp_confidence (r_properties r) = derived_confidence (cd_rule c) (cd_shared c) ∧
      r_valid_until r = None ∧ r_invalidated_by r = None ∧
      (∀ v, mv !! cd_from c = Some v ∨ mv !! cd_to c = Some v ∨
            (∃ id, id ∈ cd_evidence c ∧ ev !! id = Some v) → vis_u8 (r_visibility r) ≤ vis_u8 v).
Proof.
  intros Hk. unfold derived_row.
  destruct (mv !! cd_from c) as [v1|] eqn:E1;
    [|exists None; split_and!; [done| |done]; split; [by intros []|by intros [[] _]]].
  destruct (mv !! cd_to c) as [v2|] eqn:E2;
    [|exists None; split_and!; [done| |done]; split; [by intros []|by intros [_ []]]].
  destruct (narrowest_spec v1 (v2 :: omap (λ id, ev !! id) (cd_evidence c))) as (w & Hw & Hle).
  simpl app. rewrite Hw. destruct (Hk (cd_rule c)) as [k Hk']. rewrite Hk'. simpl.
  eexists. split; [done|]. split; [by split|]. intros r [= <-]. simpl.
  split_and!; try done. intros v Hv. apply Hle. rewrite !elem_of_cons, list_elem_of_omap. naive_solver.
Qed.

(** Deducing rows never panics. *)
Lemma derived_rows_total onto pk now memory_rows rows d :
  (∀ rule, is_Some (derived_kind onto rule)) → ∃ out, derived_rows onto pk now memory_rows rows d = Some out.
Proof.
  intros Hk. unfold derived_rows.
  destruct (mapM _ (candidates pk rows d)) as [pushed|] eqn:Hm; [by eexists|].
  apply mapM_None, Exists_exists in Hm as (c & _ & Hc).
  destruct (derived_row_spec onto now (memory_labels memory_rows) (edge_labels rows) c Hk) as (x & Hx & _).
  congruence.
Qed.

(** Derived rows join memories of the neighbourhood. *)
Lemma derived_rows_ends onto pk now memory_rows rows d out r :
  derived_rows onto pk now memory_rows rows d = Some out → r ∈ out →
  r_from r ∈ m_id <$> memory_rows ∧ r_to r ∈ m_id <$> memory_rows.
Proof.
  unfold derived_rows. intros (pushed & Hm & [= <-])%bind_Some Hr.
  eapply sublist_subseteq in Hr; [|apply sublist_take].
  destruct (sort_dedup_spec r_id compare_rid (omap id pushed)) as (_ & Hin & _ & _). apply Hin in Hr.
  apply list_elem_of_omap in Hr as (x & Hx & Ex). unfold id in Ex. subst x.
  apply list_elem_of_lookup in Hx as [i Hi]. apply mapM_Some in Hm.
  destruct (Forall2_lookup_r _ _ _ _ _ Hm Hi) as (c & _ & Hrow). unfold derived_row in Hrow.
  destruct (memory_labels memory_rows !! cd_from c) as [v1|] eqn:E1; [|congruence].
  destruct (memory_labels memory_rows !! cd_to c) as [v2|] eqn:E2; [|congruence].
  apply bind_Some in Hrow as (v & _ & Hrow). apply bind_Some in Hrow as (k & _ & [= <-]). simpl.
  split; apply (foldl_labels_dom m_id m_visibility); by eexists.
Qed.

(** C27: the rows a pass writes.  It never panics; its rows are in strict order of identity and at most
    [MAX_DERIVED_RELATIONSHIPS]; every one follows from a rule of the program over the facts of the
    neighbourhood, stands on two harvested edges when the rule chains two, has the identity,
    kind and confidence of its rule, and is no more visible than either end or any edge it stands
    on.  When neither cap is reached every derivation between harvested memories has its row. *)
Theorem derived_rows_exact now memory_rows h ents tgs mems :
  NoDup (m_id <$> memory_rows) → NoDup (r_id <$> relationship_rows h) →
  ∃ onto pk out,
    storage_ontology = Some onto ∧ prime onto = Some pk ∧
    let d := evaluate pk (edge_facts h) ents tgs mems in
    derived_rows onto pk now memory_rows (relationship_rows h) (cap_affinities d) = Some out ∧
    StronglySorted (λ x y, compare_rid (r_id x) (r_id y) = Lt) out ∧
    Z.of_nat (length out) ≤ MAX_DERIVED_RELATIONSHIPS ∧
    (∀ r, r ∈ out → ∃ rule evidence n k,
       r_provenance r = Kernel.Derived rule evidence ∧
       follows pk (edge_facts h) ents tgs mems rule (r_from r) (r_to r) n ∧
       backed pk (relationship_rows h) rule (r_from r) (r_to r) evidence ∧
       derived_kind onto rule = Some (r_kind r) ∧
       r_id r = RelationshipId_derive (r_from r) (r_kind r) (r_to r) (Some rule) ∧
       rp_confidence (r_properties r) = derived_confidence rule k ∧ k ≤ n ∧
       (∀ m, m ∈ memory_rows → m_id m = r_from r ∨ m_id m = r_to r →
          vis_u8 (r_visibility r) ≤ vis_u8 (m_visibility m)) ∧
       (∀ e, e ∈ relationship_rows h → r_id e ∈ evidence →
          vis_u8 (r_visibility r) ≤ vis_u8 (r_visibility e))) ∧
    (affinities d ≤ MAX_DERIVED_RELATIONSHIPS → Z.of_nat (length out) < MAX_DERIVED_RELATIONSHIPS →
     ∀ rule a b n, follows pk (edge_facts h) ents tgs mems rule a b n →
       a ∈ m_id <$> memory_rows → b ∈ m_id <$> memory_rows →
       ∃ r k, r ∈ out ∧ derived_kind onto rule = Some k ∧
         r_id r = RelationshipId_derive a k b (Some rule)).
Proof.
  intros Hdm Hdr. destruct rules_resolve as (onto & pk & Ho & Hp & Hk). exists onto, pk.
  set (rows := relationship_rows h). set (d := evaluate pk (edge_facts h) ents tgs mems).
  set (mv := memory_labels memory_rows). set (ev := edge_labels rows).
  destruct (mapM (derived_row onto now mv ev) (candidates pk rows (cap_affinities d))) as [pushed|] eqn:Hm.
  2:{ apply mapM_None, Exists_exists in Hm as (c & _ & Hc).
      destruct (derived_row_spec onto now mv ev c Hk) as (x & Hx & _). congruence. }
  apply mapM_Some in Hm.
  set (all := dedup_by_key r_id (merge_sort (le_of (compare_on r_id compare_rid)) (omap id pushed))).
  exists (take (Z.to_nat MAX_DERIVED_RELATIONSHIPS) all). split; [done|]. split; [done|].
  destruct (sort_dedup_spec r_id compare_rid (omap id pushed)) as (Hs & Hin & Hkeys & _). fold all in Hs, Hin, Hkeys.
  assert (Htake : ∀ r, r ∈ take (Z.to_nat MAX_DERIVED_RELATIONSHIPS) all → r ∈ all).
  { intros r Hr. eapply sublist_subseteq, Hr. apply sublist_take. }
  simpl. split_and!.
  - unfold derived_rows. fold mv ev d. by rewrite (proj2 (mapM_Some _ _ _) Hm).
  - rewrite <-(take_drop (Z.to_nat MAX_DERIVED_RELATIONSHIPS) all) in Hs. by eapply StronglySorted_app_1_l.
  - rewrite length_take. unfold MAX_DERIVED_RELATIONSHIPS. lia.
  - intros r Hr%Htake%Hin. apply list_elem_of_omap in Hr as (x & Hx & Ex). unfold id in Ex. subst x.
    apply list_elem_of_lookup in Hx as [i Hi].
    destruct (Forall2_lookup_r _ _ _ _ _ Hm Hi) as (c & Hc & Hrow). apply list_elem_of_lookup_2 in Hc.
    destruct (candidate_sound pk h ents tgs mems c Hc) as ((n & Hf & Hle) & Hb).
    destruct (derived_row_spec onto now mv ev c Hk) as (x & Hx & _ & Hr). rewrite Hx in Hrow.
    injection Hrow as ->. destruct (Hr r eq_refl) as (E1 & E2 & Hkind & Hid & Hpv & Hcf & _ & _ & Hl).
    exists (cd_rule c), (cd_evidence c), n, (cd_shared c). rewrite E1, E2.
    split_and!; [exact Hpv|exact Hf|exact Hb|exact Hkind|exact Hid|exact Hcf|exact Hle| |].
    + intros m Hm' Hends. apply Hl.
      pose proof (foldl_labels m_id m_visibility memory_rows Hdm m Hm') as E.
      change (mv !! m_id m = Some (m_visibility m)) in E. destruct Hends as [<-|<-]; auto.
    + intros e He Hev. apply Hl. right; right. exists (r_id e). split; [done|].
      pose proof (foldl_labels r_id r_visibility rows Hdr e He) as E. exact E.
  - intros Hcap Hlen rule a b n Hf Ha Hb.
    destruct (candidate_complete pk h ents tgs mems rule a b n Hcap Hf) as (c & Hc & <- & <- & <- & _).
    apply list_elem_of_lookup in Hc as [i Hi].
    destruct (Forall2_lookup_l _ _ _ _ _ Hm Hi) as (x & Hx & Hrow). apply list_elem_of_lookup_2 in Hx.
    destruct (derived_row_spec onto now mv ev c Hk) as (x' & Hx' & Hsome & Hr).
    rewrite Hx' in Hrow. injection Hrow as ->. destruct (proj2 Hsome) as [r ->].
    { pose proof (proj2 (foldl_labels_dom m_id m_visibility memory_rows _) Ha) as E1.
      pose proof (proj2 (foldl_labels_dom m_id m_visibility memory_rows _) Hb) as E2. exact (conj E1 E2). }
    destruct (Hr r eq_refl) as (_ & _ & Hkind & Hid & _).
    assert (r ∈ omap id pushed) as Hr1 by (apply list_elem_of_omap; exists (Some r); exact (conj Hx eq_refl)).
    apply Hkeys, list_elem_of_fmap in Hr1 as (r' & Eid & Hr').
    exists r', (r_kind r). split; [|split; [exact Hkind|rewrite <-Eid; exact Hid]].
    rewrite length_take in Hlen. rewrite take_ge by lia. exact Hr'.
Qed.
End rows.
