(* ===== verification/PassSpec.v ===== *)
(** * A reasoning pass over the in-memory backend

    [try_k_hop_reason] and [process_session_wrapup] end to end ([crates/exocortex-reasoning/src/engine.rs]):
    what a pass writes, that it never panics, and that a pass with an operation key takes effect once. *)

From stdpp Require Import pretty.
From S2P Require Import Prelude Ids Kernel Packs Ontology StorageTypes Graph Reads Leases.
From S2P Require Import Ingest Governed Cycles Storage ShippedPacks Rules Reasoning HarvestSpec ReasoningSpec.

Section pass.
Context `{Blake3, Sha256, Bincode, HashOrder} (o : Ontology).
#[local] Instance store_of : ReasoningStore Store := in_memory_reasoning o.
Implicit Types (st : Store).

(** ** The attribute join *)

Lemma current_present (t : gmap MemoryId (list Memory)) i m : current t i = Some m → is_Some (t !! i).
Proof. unfold current. destruct (t !! i); [by eexists|done]. Qed.

Lemma NoDup_current_omap (g : Graph) ids :
  graph_ok g → NoDup ids → NoDup (m_id <$> omap (current (g_memories g)) ids).
Proof.
  intros Hok. induction ids as [|i ids IH]; [constructor|]. intros [Hi Hids]%NoDup_cons. csimpl.
  destruct (current (g_memories g) i) as [m|] eqn:Ei; [|by apply IH]. csimpl. constructor; [|by apply IH].
  destruct (current_ok (g_lsn g) (g_memories g) i m) as [Hid _]; [apply Hok|done|]. simpl in Hid.
  intros (m' & Em & (i' & Hi' & Ei')%list_elem_of_omap)%list_elem_of_fmap.
  destruct (current_ok (g_lsn g) (g_memories g) i' m') as [Hid' _]; [apply Hok|done|]. simpl in Hid'.
  congruence.
Qed.

(** Keeping the rows whose id was not seen. *)
Lemma keep_unseen (l : list Memory) (seen : gset MemoryId) kept :
  NoDup (m_id <$> kept) → (∀ m, m ∈ kept → m_id m ∈ seen) →
  let '(seen', kept') := foldl (λ '(seen, kept) m,
      if bool_decide (m_id m ∈ seen) then (seen, kept) else ({[m_id m]} ∪ seen, kept ++ [m]))
    (seen, kept) l in
  NoDup (m_id <$> kept') ∧ (∀ m, m ∈ kept' → m ∈ kept ∨ (m ∈ l ∧ m_id m ∉ seen)).
Proof.
  revert seen kept. induction l as [|x l IH]; intros seen kept Hd Hs; cbn [foldl]; [split; [done|by left]|].
  case_bool_decide as Hx.
  - specialize (IH seen kept Hd Hs). destruct (foldl _ _ l) as [seen' kept']. destruct IH as [IH1 IH2].
    split; [done|]. intros m [?|[? ?]]%IH2; [by left|right; split; [by right|done]].
  - specialize (IH ({[m_id x]} ∪ seen) (kept ++ [x])).
    destruct (foldl _ _ l) as [seen' kept']. destruct IH as [IH1 IH2].
    + rewrite fmap_app. apply NoDup_app. split_and!; [done| |apply NoDup_singleton].
      intros i (m & -> & Hm)%list_elem_of_fmap. csimpl. rewrite list_elem_of_singleton. intros E.
      apply Hx. rewrite <-E. by apply Hs.
    + intros m [?| ->%list_elem_of_singleton]%elem_of_app; set_solver.
    + split; [done|]. intros m [[Hm| ->%list_elem_of_singleton]%elem_of_app|[? ?]]%IH2;
        [by left|right; split; [by left|done]|right; split; [by right|set_solver]].
Qed.

(** The rows joined are current memories, each once, and the neighbourhood's are all there. *)
Lemma attribute_rows_spec nb st :
  graph_ok (graph st) →
  ∃ c r, attribute_rows nb st = (put_reads c st, r) ∧
    (is_ok r = negb (fail_next_batch_read (reads st))) ∧
    ∀ rows, r = Ok rows →
      NoDup (m_id <$> rows) ∧ (∀ m, m ∈ rows → current (g_memories (graph st)) (m_id m) = Some m) ∧
      (∀ i m, i ∈ nb → current (g_memories (graph st)) i = Some m → m ∈ rows).
Proof.
  intros Hok. unfold attribute_rows, rs_memories, rs_sharing; simpl. unfold get_memories.
  destruct (fail_next_batch_read (reads st)); [by eexists _, _|].
  set (ids := merge_sort _ _). set (rows := omap (current (g_memories (graph st))) ids).
  assert (Hids : NoDup ids) by (unfold ids; rewrite merge_sort_Permutation; apply hash_elements_nodup).
  assert (Hrows : ∀ m, m ∈ rows → current (g_memories (graph st)) (m_id m) = Some m).
  { intros m (i & _ & Ei)%list_elem_of_omap.
    destruct (current_ok (g_lsn (graph st)) (g_memories (graph st)) i m) as [Hid _]; [apply Hok|done|].
    simpl in Hid. by rewrite Hid. }
  assert (Hd : NoDup (m_id <$> rows)) by by apply NoDup_current_omap.
  assert (Hnb : ∀ i m, i ∈ nb → current (g_memories (graph st)) i = Some m → m ∈ rows).
  { intros i m Hi Ei. apply list_elem_of_omap. exists i. split; [|done].
    unfold ids. by rewrite merge_sort_Permutation, elem_of_hash_elements. }
  destruct (negb _ || negb _).
  2:{ eexists _, _. split; [reflexivity|]. split; [done|]. intros ? [= <-]. done. }
  set (tgs := hash_elements _). set (ents := hash_elements _).
  unfold memories_sharing_attributes. set (expansion := take_limit 4096 _).
  pose proof (keep_unseen expansion (list_to_set (m_id <$> rows)) [] ltac:(constructor) ltac:(set_solver)) as Hk.
  cbn [reads put_reads graph].
  destruct (foldl _ _ expansion) as [seen kept]. destruct Hk as [Hk1 Hk2].
  eexists _, _. split; [reflexivity|]. split; [done|]. intros ? [= <-].
  assert (Hexp : ∀ m, m ∈ expansion → current (g_memories (graph st)) (m_id m) = Some m).
  { intros m Hm. assert (m ∈ current_rows (g_memories (graph st))) as Hc.
    { unfold expansion, take_limit in Hm.
      eapply sublist_subseteq in Hm; [|apply sublist_take]. by apply elem_of_filter in Hm as [? _]. }
    by apply (elem_of_current_rows (g_lsn (graph st))) in Hc; [|apply Hok]. }
  split_and!.
  - rewrite fmap_app. apply NoDup_app. split_and!; [done| |done].
    intros i Hi (m & -> & Hm)%list_elem_of_fmap.
    destruct (Hk2 m Hm) as [?%not_elem_of_nil|[_ Hn]]; [done|]. apply Hn. by apply elem_of_list_to_set.
  - intros m [Hm|Hm]%elem_of_app; [by apply Hrows|].
    destruct (Hk2 m Hm) as [?%not_elem_of_nil|[He _]]; [done|]. by apply Hexp.
  - intros i m Hi Ei. apply elem_of_app. left. by eapply Hnb.
Qed.
(** ** The pass *)

(** The rows a pass deduces from a store. *)
Definition deduced (k : nat) (seeds : list MemoryId) (now : DateTime) st (rows : list Relationship) : Prop :=
  ∃ onto pk h memory_rows,
    storage_ontology = Some onto ∧ prime onto = Some pk ∧ harvested (graph st) seeds k h ∧
    NoDup (m_id <$> memory_rows) ∧
    (∀ m, m ∈ memory_rows → current (g_memories (graph st)) (m_id m) = Some m) ∧
    (∀ i m, i ∈ neighborhood h → current (g_memories (graph st)) i = Some m → m ∈ memory_rows) ∧
    derived_rows onto pk now memory_rows (relationship_rows h)
      (cap_affinities (evaluate pk (edge_facts h) (entity_facts memory_rows) (tag_facts memory_rows)
                         (memory_facts memory_rows))) = Some rows.

(** The rows among them whose id the store has never seen. *)
Definition fresh_rows st (rows : list Relationship) : list Relationship :=
  List.filter (λ r, bool_decide (current (g_rels (graph st)) (r_id r) = None)) rows.

Definition recorded (key : option string) st : bool :=
  match key with Some x => bool_decide (x ∈ governed_imports (ingest st)) | None => false end.

Definition record_key (key : option string) (IS : IngestState) : IngestState :=
  match key with Some x => set_imports (λ imports, {[x]} ∪ imports) IS | None => IS end.

Lemma upsert_batch_nil clk g : upsert_batch o clk [] [] g = (g, Ok []).
Proof. by destruct g. Qed.

Lemma existing_filter (g : Graph) rows :
  graph_ok g →
  List.filter (λ r, negb (bool_decide
    (r_id r ∈ list_to_set (C:=gset RelationshipId) (r_id <$> omap (current (g_rels g)) (r_id <$> rows))))) rows
  = List.filter (λ r, bool_decide (current (g_rels g) (r_id r) = None)) rows.
Proof.
  intros Hok. apply List.filter_ext_in. intros r Hr%list_elem_of_In.
  rewrite <-bool_decide_not. apply bool_decide_ext. rewrite elem_of_list_to_set, list_elem_of_fmap.
  rewrite eq_None_not_Some. apply not_iff_compat. split.
  - intros (x & Hx & (i & _ & Ei)%list_elem_of_omap). rewrite Hx.
    destruct (current_ok (g_lsn g) (g_rels g) i x) as [Hid _]; [apply Hok|done|]. simpl in Hid.
    rewrite Hid, Ei. by eexists.
  - intros [x Ex]. exists x. destruct (current_ok (g_lsn g) (g_rels g) (r_id r) x) as [Hid _]; [apply Hok|done|].
    split; [by rewrite <-Hid|]. apply list_elem_of_omap. exists (r_id r).
    split; [by apply list_elem_of_fmap_2|done].
Qed.

Lemma commit_rows_spec clk rows key st :
  graph_ok (graph st) →
  (∀ r, r ∈ rows → is_Some (g_memories (graph st) !! r_from r) ∧ is_Some (g_memories (graph st) !! r_to r)) →
  ∃ c, commit_rows clk rows key st =
    (if recorded key st then put_reads c st
     else put_graph (upsert_batch o clk [] (fresh_rows st rows) (graph st)).1
            (put_ingest (record_key key (ingest st)) (put_reads c st)), Ok tt).
Proof.
  intros Hok Hends. unfold commit_rows. case_bool_decide as Hn; cbn [andb].
  { subst rows. case_bool_decide as Hkey.
    { subst key. exists (reads st). change (fresh_rows st []) with (@nil Relationship). rewrite upsert_batch_nil. by destruct st. }
    destruct key as [x|]; [|done]. exists (bump_batch (reads st)).
    unfold rs_relationships, rs_upsert_once; simpl. unfold upsert_batch_once; simpl.
    case_bool_decide; by destruct st as [[] ? ? ? ? ?]. }
  unfold rs_relationships; simpl. rewrite existing_filter by done.
  fold (fresh_rows st rows). set (fresh := fresh_rows st rows). exists (bump_batch (reads st)).
  assert (Hfind : List.find (endpoint_missing (graph st) []) fresh = None).
  { apply find_missing_none. intros r [Hr _]%elem_of_filter. apply endpoint_missing_spec.
    intros i Hi. left. destruct (Hends r Hr). by destruct Hi as [-> | ->]. }
  destruct key as [x|]; simpl.
  - unfold rs_upsert_once; simpl. unfold upsert_batch_once, upsert_batch; simpl.
    case_bool_decide; [by destruct st|].
    unfold upsert_batch_locked. rewrite Hfind. by destruct st.
  - case_bool_decide as Hf; simpl.
    { rewrite Hf. rewrite upsert_batch_nil. by destruct st. }
    unfold rs_upsert; simpl. unfold upsert_batch, upsert_batch_locked. rewrite Hfind. by destruct st.
Qed.

Definition effective_hops (k_hop k : Z) : nat := Z.to_nat (Z.max 1 (Z.min k (Z.max k_hop 1))).

Definition seed_cohort (seeds : list MemoryId) : list MemoryId := dedup (merge_sort (le_of compare_mid) seeds).

Definition accepted_pass (seeds : list MemoryId) st : bool :=
  (Z.of_nat (length (seed_cohort seeds)) <=? MAX_REASONING_NODES) && negb (fail_next_batch_read (reads st)).

(** A pass that is refused, or whose key is recorded, reads only; any other pass writes the rows it
    deduced that the store has never seen, and records its key with them. *)
Lemma pass_spec clk k_hop seeds k key st :
  graph_ok (graph st) → index_complete (graph st) →
  ∃ c r, if accepted_pass seeds st then
      ∃ rows, deduced (effective_hops k_hop k) (seed_cohort seeds) (clk 0%nat) st rows ∧
        try_k_hop_reason clk k_hop seeds k key st =
        Some (if recorded key st then put_reads c st
              else put_graph (upsert_batch o (λ i, clk (i + 1)%nat) [] (fresh_rows st rows) (graph st)).1
                     (put_ingest (record_key key (ingest st)) (put_reads c st)), Ok tt)
    else try_k_hop_reason clk k_hop seeds k key st = Some (put_reads c st, Err r).
Proof.
  intros Hok Hidx. unfold accepted_pass, try_k_hop_reason. fold (seed_cohort seeds).
  fold (effective_hops k_hop k).
  destruct (sort_dedup_ids compare_mid seeds) as (_ & Hnd & _ & _). fold (seed_cohort seeds) in Hnd.
  destruct (Z.ltb_spec MAX_REASONING_NODES (Z.of_nat (length (seed_cohort seeds)))) as [Hl|Hl].
  { rewrite (proj2 (Z.leb_gt _ _) Hl). simpl. exists (reads st). eexists. by destruct st. }
  rewrite (proj2 (Z.leb_le _ _) Hl). cbn [andb].
  destruct (harvest_spec o (graph st) (seed_cohort seeds) Hok Hidx (effective_hops k_hop k) st eq_refl Hnd Hl)
    as (c & h & Eh & Hh & Hfl).
  change (HarvestSpec.store_reads o) with store_of in Eh. rewrite Eh.
  destruct (attribute_rows_spec (neighborhood h) (put_reads c st) Hok) as (c2 & r & Ea & Hr & Hrows).
  rewrite Ea. cbn [reads put_reads] in Hr. rewrite Hfl in Hr.
  destruct (fail_next_batch_read (reads st)); cbn [negb] in Hr |- *.
  { destruct r as [|e]; [done|]. exists c2, e. by destruct st. }
  destruct r as [memory_rows|]; [|done]. destruct (Hrows memory_rows eq_refl) as (Hd & Hcur & Hnb).
  destruct rules_resolve as (onto & pk & Ho & Hp & Hk). unfold write_back. rewrite Ho; cbn [mbind option_bind].
  rewrite Hp; cbn [mbind option_bind]. rewrite ?Hp; cbn [mbind option_bind].
  set (d := cap_affinities _).
  destruct (derived_rows_total onto pk (clk 0%nat) memory_rows (relationship_rows h) d Hk) as [out Hout].
  rewrite Hout; cbn [mbind option_bind].
  destruct (commit_rows_spec (λ i, clk (i + 1)%nat) out key (put_reads c2 (put_reads c st)) Hok) as [c3 Hc].
  { intros x Hx. destruct (derived_rows_ends _ _ _ _ _ _ _ _ Hout Hx) as [E1 E2].
    assert (Hm : ∀ i, i ∈ m_id <$> memory_rows → is_Some (g_memories (graph st) !! i)).
    { intros i (m & -> & Hm)%list_elem_of_fmap. exact (current_present _ _ _ (Hcur m Hm)). }
    exact (conj (Hm _ E1) (Hm _ E2)). }
  exists c3, PermissionDenied, out. split; [|exact (f_equal Some Hc)].
  exists onto, pk, h, memory_rows.
  exact (conj Ho (conj Hp (conj Hh (conj Hd (conj Hcur (conj Hnb Hout)))))).
Qed.

(** C26: a reasoning pass.  On a well-formed store it never panics.  It is refused, having read only,
    exactly when it has more distinct seeds than it may harvest or its batched read fails.
    Otherwise it writes the rows it deduced, in one batch, without those whose id the store has
    ever held, so that a retracted edge stays retracted; under an operation key the same commit
    records the key, and under a recorded key nothing is written at all. *)
Theorem reasoning_pass_exact clk k_hop seeds k key st :
  graph_ok (graph st) → index_complete (graph st) →
  ∃ c r, if accepted_pass seeds st then
      ∃ rows, deduced (effective_hops k_hop k) (seed_cohort seeds) (clk 0%nat) st rows ∧
        try_k_hop_reason clk k_hop seeds k key st =
        Some (if recorded key st then put_reads c st
              else put_graph (upsert_batch o (λ i, clk (i + 1)%nat) [] (fresh_rows st rows) (graph st)).1
                     (put_ingest (record_key key (ingest st)) (put_reads c st)), Ok tt)
    else try_k_hop_reason clk k_hop seeds k key st = Some (put_reads c st, Err r).
Proof. apply pass_spec. Qed.

Lemma imports_of f IS : governed_imports (set_imports f IS) = f (governed_imports IS).
Proof. by destruct IS. Qed.

(** A durable wrap-up takes effect once: an acknowledged pass has its key recorded, and while the
    key is recorded a redelivery, whatever its clock and hop bound, leaves the graph and the
    recorded keys alone. *)
Lemma wrapup_once clk k_hop ms effect_key st st' r :
  graph_ok (graph st) → index_complete (graph st) →
  process_session_wrapup clk k_hop ms (Some effect_key) st = Some (st', r) →
  let key := durable_cohort_key effect_key ms in
  (r = Ok tt → key ∈ governed_imports (ingest st')) ∧
  (key ∈ governed_imports (ingest st) ∨ r ≠ Ok tt → graph st' = graph st ∧ ingest st' = ingest st).
Proof.
  intros Hok Hidx E. cbv zeta. unfold process_session_wrapup in E. simpl in E.
  set (key := durable_cohort_key effect_key ms) in *.
  destruct (pass_spec clk k_hop ms 3 (Some key) st Hok Hidx) as (c & e & Hp).
  destruct (accepted_pass ms st).
  - destruct Hp as (rows & _ & Hp). rewrite Hp in E. injection E as <- <-.
    clear Hp. unfold recorded. case_bool_decide as Er.
    + split; [intros _; exact Er|done].
    + assert (Hk : key ∈ ({[key]} ∪ governed_imports (ingest st) : gset string)) by set_solver.
      cbn [ingest put_graph put_ingest]. rewrite imports_of. split; [intros _; exact Hk|].
      intros [Hin|Hne]; [by destruct (Er Hin)|by destruct Hne].
  - rewrite Hp in E. injection E as <- <-. done.
Qed.

(** ** Keys of a durable cohort *)

Lemma concat_ids_inj (l k : list MemoryId) :
  Forall mid_ok l → Forall mid_ok k → length l = length k → l ≫= mid_bytes = k ≫= mid_bytes → l = k.
Proof.
  intros Hl. revert k. induction Hl as [|a l [La _] Hl IH]; intros [|b k] Hk E Eb; try done.
  apply Forall_cons in Hk as [[Lb _] Hk]. simpl in E. rewrite !bind_cons in Eb.
  apply app_inj_1 in Eb as [E1 E2]; [|congruence].
  f_equal; [by destruct a, b; simpl in *; congruence|]. apply IH; [done|lia|done].
Qed.

Lemma cohort_ok seeds : Forall mid_ok seeds → Forall mid_ok (seed_cohort seeds).
Proof.
  rewrite !Forall_forall. intros Hs m Hm. apply Hs.
  by destruct (sort_dedup_ids compare_mid seeds) as (_ & _ & <- & _).
Qed.

Lemma cohort_bytes_ok l : Forall mid_ok l → Forall (λ x, 0 ≤ x < 256) (l ≫= mid_bytes).
Proof.
  induction 1 as [|a l [_ Ha] _ IH]; [constructor|]. rewrite bind_cons. by apply Forall_app.
Qed.

(** Two lists of memories are one cohort when they have the same members. *)
Definition same_cohort (ms ms' : list MemoryId) : Prop := ∀ m, m ∈ ms ↔ m ∈ ms'.

Lemma durable_cohort_key_inj e e' ms ms' :
  Forall mid_ok ms → Forall mid_ok ms' →
  durable_cohort_key e ms = durable_cohort_key e' ms' ↔ e = e' ∧ ∀ m, m ∈ ms ↔ m ∈ ms'.
Proof.
  intros Hm Hm'. rewrite (sort_dedup_ext compare_mid). unfold durable_cohort_key.
  fold (seed_cohort ms) (seed_cohort ms').
  split; [|by intros [-> ->]]. intros E%(f_equal as_bytes).
  rewrite !as_bytes_app in E. apply (inj (app _)) in E. rewrite !(assoc_L (++)) in E.
  assert (as_bytes (pretty (N.of_nat (String.length e)) +:+ ":" +:+ e) ++
            (as_bytes ":" ++ as_bytes (pretty (N.of_nat (length (seed_cohort ms)))) ++ as_bytes ":" ++
             as_bytes (hex (seed_cohort ms ≫= mid_bytes))) =
          as_bytes (pretty (N.of_nat (String.length e')) +:+ ":" +:+ e') ++
            (as_bytes ":" ++ as_bytes (pretty (N.of_nat (length (seed_cohort ms')))) ++ as_bytes ":" ++
             as_bytes (hex (seed_cohort ms' ≫= mid_bytes)))) as E'.
  { rewrite !as_bytes_app, !(assoc_L (++)). exact E. }
  apply framed_inj in E' as [-> E']. split; [done|].
  apply (inj (app _)) in E'. change (as_bytes ":") with [58] in E'. simpl in E'.
  apply colon_inj in E' as [En Eh]; [|apply pretty_digits..].
  apply (inj as_bytes), (inj pretty), (inj N.of_nat) in En.
  apply (inj as_bytes), hex_inj in Eh; [|by apply cohort_bytes_ok, cohort_ok..].
  apply concat_ids_inj; [by apply cohort_ok..|done|done].
Qed.

(** A durable wrap-up takes effect once.  Its key names the effect and the set of its memories,
    whatever their order and repetitions; an acknowledged pass has the key recorded, and a
    redelivery to any later store, with any clock and hop bound, changes neither the graph nor
    the recorded keys. *)
Theorem durable_wrapup_once clk clk' k_hop k_hop' ms ms' effect_key effect_key' st st1 st' st2 r :
  graph_ok (graph st) → index_complete (graph st) →
  graph_ok (graph st1) → index_complete (graph st1) → Forall mid_ok ms → Forall mid_ok ms' →
  process_session_wrapup clk k_hop ms (Some effect_key) st = Some (st', Ok tt) →
  governed_imports (ingest st') ⊆ governed_imports (ingest st1) →
  process_session_wrapup clk' k_hop' ms' (Some effect_key') st1 = Some (st2, r) →
  (durable_cohort_key effect_key ms = durable_cohort_key effect_key' ms' ↔
     effect_key = effect_key' ∧ same_cohort ms ms') ∧
  (effect_key = effect_key' → same_cohort ms ms' →
     graph st2 = graph st1 ∧ ingest st2 = ingest st1).
Proof.
  intros Hok Hidx Hok1 Hidx1 Hm Hm' E Hsub E1.
  pose proof (durable_cohort_key_inj effect_key effect_key' ms ms' Hm Hm') as Hinj. split; [exact Hinj|].
  intros He Hms. apply wrapup_once in E as [Hrec _]; [|done..]. specialize (Hrec eq_refl).
  apply wrapup_once in E1 as [_ Hkeep]; [|done..]. apply Hkeep. left.
  rewrite <-(proj2 Hinj (conj He Hms)). by apply Hsub.
Qed.
End pass.
