(* ===== verification/Demo.v ===== *)
(** * Concrete instances

    Computable instances of the parameters and a small store built by the model's own
    operations: an ontology of one pack with an inverse pair of kinds, three memories, an edge,
    leases, a discovery, an ingest batch.  The witnesses evaluate the model on them. *)

From S2P Require Import Prelude Ids Kernel Packs Ontology StorageTypes Graph Reads Leases.
From S2P Require Import Ingest Governed Cycles Storage.

(** A call that succeeds, taken apart. *)
Lemma ok_inv {S A E} (p : S * result A E) : is_ok p.2 = true → ∃ s a, p = (s, Ok a).
Proof. destruct p as [s [a|e]]; [eauto|done]. Qed.
Lemma is_some_inv {A} (o : option A) :
  match o with Some _ => true | None => false end = true → ∃ a, o = Some a.
Proof. destruct o; [eauto|done]. Qed.

Lemma result_inv {A E} (r : result A E) : is_ok r = true → ∃ a, r = Ok a.
Proof. destruct r; [eauto|done]. Qed.
Lemma committed_inv {S E} (p : S * Graph * result IngestCommitOutcome E) :
  match p.2 with Ok (Committed _ _) => true | _ => false end = true →
  ∃ s g records settled, p = (s, g, Ok (Committed records settled)).
Proof. destruct p as [[s g] [[]|]]; [eauto|done..]. Qed.
Lemma claimed_inv {S A E} (p : S * result (option A) E) :
  match p.2 with Ok (Some _) => true | _ => false end = true → ∃ s a, p = (s, Ok (Some a)).
Proof. destruct p as [s [[a|]|]]; [eauto|done..]. Qed.

(** ** Parameters *)

#[export] Existing Instance demo_blake3.
#[export] Existing Instance demo_order.
#[export] Instance demo_sha256 : Sha256 :=
  {| sha256 := demo_digest; sha256_length := length_demo_digest |}.
#[export] Instance demo_bincode : Bincode := {| bincode_serialize p := as_bytes (p_name p) |}.
#[export] Instance demo_chrono : Chrono := {| to_rfc3339 _ := "2026-01-01T00:00:00Z"%string |}.
#[export] Instance demo_discovery_json : DiscoveryJson :=
  {| discoveries_to_vec l := l ≫= λ r, as_bytes (dr_discovery_id r) |}.
Definition demo_clk (i : nat) : DateTime := 1000 + Z.of_nat i.

(** ** An ontology *)

Definition demo_strength : f32 := f32_one.
Definition demo_kind (id : Z) (name : string) (inv : option RelKindId) : RelMeta :=
  mkRelMeta (mkRelKindId id) name Workflow inv false demo_strength false.

Definition demo_pack : PackDef :=
  mkPackDef "core" (mkPackVersion 1 0 0) (mkPackVersion 1 0 0)
    ["solution"; "problem"] ["tool"]
    [demo_kind 0 "SOLVES" None; demo_kind 1 "FIXES" None; demo_kind 2 "CAUSES" None;
     demo_kind 3 "IN_SESSION" None;
     demo_kind 10 "PRECEDES" (Some (mkRelKindId 11)); demo_kind 11 "FOLLOWS" (Some (mkRelKindId 10))]
    [mkTypeTriple SOLVES (Some [0]) (Some [1]); mkTypeTriple (mkRelKindId 10) None None]
    ["rule-1"] [] [] [].

(** A second pack, whose types come after the first's. *)
Definition demo_pack2 : PackDef :=
  mkPackDef "extra" (mkPackVersion 1 0 0) (mkPackVersion 1 0 0)
    ["runbook"] [] [] [mkTypeTriple SOLVES (Some [0]) None] [] [] [] [].

Definition no_ontology : Ontology :=
  mkOntology [] ∅ ∅ ∅ ∅ [] [] [] [] (mkOntologySummary [] [] [] [] [] [] []).
Definition ontology_of (packs : list PackDef) : Ontology :=
  match from_packs packs with Ok o => o | Err _ => no_ontology end.
Definition demo_ontology : Ontology := ontology_of [demo_pack; demo_pack2].
Definition demo_old_ontology : Ontology := ontology_of [demo_pack].

Lemma demo_ontology_ok : from_packs [demo_pack; demo_pack2] = Ok demo_ontology.
Proof. vm_compute. reflexivity. Qed.

(** [inverse_paired] as a test. *)
Definition inverse_paired_b (o : Ontology) : bool :=
  forallb (λ '(k, m),
    match inverse m with
    | Some i =>
        bool_decide (i = k) || km_bidirectional m ||
        match kinds_by_id o !! i with
        | Some m' => bool_decide (inverse m' = Some k) && negb (km_bidirectional m')
        | None => false
        end
    | None => true
    end) (map_to_list (kinds_by_id o)).

Lemma inverse_paired_test o : inverse_paired_b o = true → inverse_paired o.
Proof.
  unfold inverse_paired_b. rewrite List.forallb_forall. intros Hall k m i Hk Hi Hne Hb.
  assert (Hin : In (k, m) (map_to_list (kinds_by_id o)))
    by (by apply list_elem_of_In, elem_of_map_to_list).
  apply Hall in Hin. simpl in Hin. rewrite Hi, Hb, bool_decide_eq_false_2 in Hin by done.
  simpl in Hin. destruct (kinds_by_id o !! i) as [m'|]; [|done]. bool_prop. by exists m'.
Qed.

Lemma demo_paired : inverse_paired demo_ontology.
Proof. apply inverse_paired_test. vm_compute. reflexivity. Qed.

(** ** Memories and edges *)

Definition demo_mid (n : Z) : MemoryId := mkMemoryId (replicate 15 0 ++ [n]).
Definition demo_eid : EntityId := mkEntityId (replicate 15 0 ++ [99]).

Definition demo_context (user project : string) : MemoryContext :=
  mkMemoryContext 500 (Some project) None None (Some "acme"%string) None (Some user) None
    [] [] [] [] None None None [demo_eid] JNull.

Definition demo_memory (n : Z) (v : Visibility) : Memory :=
  mkMemory (demo_mid n) 0 "title" "content" None [] v (Asserted "alice" None)
    (demo_context "alice" "apollo") (mkF01 f32_one) (mkF01 f32_one) None 0 100 None 200 None None
    (new_local 0) None.

Definition demo_props : RelationshipProperties :=
  mkRelationshipProperties f32_one f32_one None 1 None 0 0 200.

Definition demo_edge (f t : Z) (k : Z) : Relationship :=
  mkRelationship (RelationshipId_derive (demo_mid f) (mkRelKindId k) (demo_mid t) None)
    (mkRelKindId k) (demo_mid f) (demo_mid t) Project (Asserted "alice" None) demo_props None false
    100 None 200 None (new_local 0).

(** A store holding memories 1 and 2 and the edge between them with its companion. *)
Definition demo_graph : Graph :=
  (upsert_batch demo_ontology demo_clk [demo_memory 1 Project; demo_memory 2 Project]
     [demo_edge 1 2 10] empty_graph).1.

Lemma room_le_bound n g : 0 ≤ g_lsn g ≤ 2 ^ 63 → (Z.of_nat n < 2 ^ 63) → room n g.
Proof. unfold room. lia. Qed.

Lemma demo_graph_ok : graph_ok demo_graph.
Proof.
  eapply graph_steps_ok; [apply upsert_batch_steps|apply graph_ok_empty].
  apply room_le_bound; simpl; lia.
Qed.

Lemma demo_graph_lsn : g_lsn demo_graph = 4.
Proof. vm_compute. reflexivity. Qed.

Lemma demo_room n : (n ≤ 1000)%nat → room n demo_graph.
Proof. intros. apply room_le_bound; rewrite ?demo_graph_lsn; lia. Qed.

(** The index of the demo store, by its two edges. *)
Definition indexed_b (g : Graph) : bool :=
  forallb (λ '(_, h), forallb (λ r,
    forallb (λ node, match rels_by_node g !! node with
                     | Some ids => bool_decide (r_id r ∈ ids) | None => false end)
      [r_from r; r_to r]) h) (map_to_list (g_rels g)).

Lemma indexed_test g : indexed_b g = true → index_complete g.
Proof.
  unfold indexed_b. rewrite List.forallb_forall. intros Hall id r Hr node Hn.
  unfold relationship_history, versions in Hr.
  destruct (g_rels g !! id) as [h|] eqn:Hh; [|by apply not_elem_of_nil in Hr].
  assert (In (id, h) (map_to_list (g_rels g))) as Hin
    by (by apply list_elem_of_In, elem_of_map_to_list).
  apply Hall in Hin. rewrite List.forallb_forall in Hin.
  apply list_elem_of_In, Hin in Hr. rewrite List.forallb_forall in Hr.
  assert (In node [r_from r; r_to r]) as Hnode by (destruct Hn as [->| ->]; simpl; auto).
  apply Hr in Hnode. destruct (rels_by_node g !! node) as [ids|]; [|done].
  bool_prop. by exists ids.
Qed.

Lemma demo_indexed : index_complete demo_graph.
Proof. apply indexed_test. vm_compute. reflexivity. Qed.

(** ** Callers *)

Definition demo_vc : VisibilityContext := mkVisibilityContext "bob" "acme" ["apollo"] [] Org.
Definition demo_vc_narrow : VisibilityContext := mkVisibilityContext "bob" "acme" ["apollo"] [] Project.
Definition demo_region : RegionKey := mkRegionKey "acme" "*" 0.

(** ** Leases *)

Definition demo_key : LeaseKey := Dreams "acme" "r".
Definition demo_acquire (now : DateTime) (T : LeaseTable) : LeaseTable * OwnerLease :=
  match acquire_lease now demo_key 30 T with
  | (T, Ok l) => (T, l)
  | (T, Err _) => (T, mkOwnerLease demo_key "" 0 0 0 0 "")
  end.
Definition demo_leases : LeaseTable := (demo_acquire 1000 no_leases).1.
Definition demo_lease : OwnerLease := (demo_acquire 1000 no_leases).2.

(** ** A discovery and its proposal *)

Definition demo_discovery : DiscoveryRecord :=
  mkDiscovery "d1" demo_region (demo_mid 2) (demo_mid 1) "bridge" f32_one (0, 1) "cycle-1" 900.
Definition demo_proposal : DiscoveryProposal :=
  mkProposal "d1" demo_region (demo_mid 2) (demo_mid 1) (mkRelKindId 10) Project demo_vc 950.
Definition demo_audit : AuditEvent := mkAuditEvent "accept" "bob" "acme" [1] ["d1"] [2] None 1000.
Definition demo_acceptance : DiscoveryAcceptance :=
  mkAcceptance "d1" demo_region demo_vc (demo_edge 2 1 10) demo_audit.
Definition demo_stored : Governed * Graph :=
  let '(d, g, _) := store_discovery demo_discovery no_governed demo_graph in (d, g).
Definition demo_proposed : Governed := (create_discovery_proposal demo_proposal demo_stored.1).1.
