(* ===== verification/FeedDemo.v ===== *)
(** * Concrete instances of the wire

    Computable instances of the parameters of the wire and of the feed: a message encoding that
    inverts on every message, an HMAC and [serde_json] on the demo rows, and a node, a
    configuration and a signed event built by the model's own operations. *)

From stdpp Require Import countable strings.
From S2P Require Import Prelude Ids Kernel Packs Ontology StorageTypes Graph Reads Leases.
From S2P Require Import Ingest Governed Cycles Storage Wire Cluster Sync Sse Wal Demo.

(** ** Messages

    A message is encoded as the binary digits of its [Countable] code. *)

Ltac solve_record_countable f g := refine (inj_countable' f g _); by intros [].

#[global] Instance spec_float_countable : Countable f32.
Proof.
  refine (inj_countable'
    (λ x, match x with S754_zero s => inl (inl s) | S754_infinity s => inl (inr s)
          | S754_nan => inr (inl tt) | S754_finite s m e => inr (inr (s, m, e)) end)
    (λ x, match x with inl (inl s) => S754_zero s | inl (inr s) => S754_infinity s
          | inr (inl _) => S754_nan | inr (inr (s, m, e)) => S754_finite s m e end) _).
  by intros [].
Defined.

#[global] Instance PbKind_eq_dec : EqDecision PbKind.
Proof. solve_decision. Defined.
#[global] Instance PbKind_countable : Countable PbKind.
Proof.
  refine (inj_countable'
    (λ k, match k with
      | PbMemoryUpserted id js => inl (inl (id, js))
      | PbMemoryDeleted id => inl (inr (inl id))
      | PbRelationshipUpserted id f t k js => inl (inr (inr (id, f, t, k, js)))
      | PbRelationshipDeleted id => inr (inl (inl id))
      | PbVisibilityAdvance => inr (inl (inr tt))
      | PbGraphReseed js => inr (inr (inl js))
      | PbDiscoveryAvailable js => inr (inr (inr js)) end)
    (λ x, match x with
      | inl (inl (id, js)) => PbMemoryUpserted id js
      | inl (inr (inl id)) => PbMemoryDeleted id
      | inl (inr (inr (id, f, t, k, js))) => PbRelationshipUpserted id f t k js
      | inr (inl (inl id)) => PbRelationshipDeleted id
      | inr (inl (inr _)) => PbVisibilityAdvance
      | inr (inr (inl js)) => PbGraphReseed js
      | inr (inr (inr js)) => PbDiscoveryAvailable js end) _).
  by intros [].
Defined.

#[global] Instance PbInvalidation_eq_dec : EqDecision PbInvalidation.
Proof. solve_decision. Defined.
#[global] Instance PbInvalidation_countable : Countable PbInvalidation.
Proof. solve_record_countable (λ i, (pi_kind i, pi_backend_lsn i)) (λ '(k, l), mkPbInvalidation k l). Defined.

#[global] Instance InvalidationEnvelope_eq_dec : EqDecision InvalidationEnvelope.
Proof. solve_decision. Defined.
#[global] Instance InvalidationEnvelope_countable : Countable InvalidationEnvelope.
Proof.
  solve_record_countable
    (λ e, (wire_version e, ontology_fingerprint e, emitter_node_id e, env_inv e, env_hmac e))
    (λ '(a, b, c, d, e), mkEnvelope a b c d e).
Defined.

#[global] Instance PbTimestamp_eq_dec : EqDecision PbTimestamp.
Proof. solve_decision. Defined.
#[global] Instance PbTimestamp_countable : Countable PbTimestamp.
Proof. solve_record_countable (λ t, (ts_seconds t, ts_nanos t)) (λ '(a, b), mkTimestamp a b). Defined.

#[global] Instance PbRights_eq_dec : EqDecision PbRights.
Proof. solve_decision. Defined.
#[global] Instance PbRights_countable : Countable PbRights.
Proof.
  solve_record_countable (λ r, (pr_licence r, pr_consent_basis r, pr_retention_until r, pr_redacted r))
    (λ '(a, b, c, d), mkPbRights a b c d).
Defined.

#[global] Instance PbExternalKey_eq_dec : EqDecision PbExternalKey.
Proof. solve_decision. Defined.
#[global] Instance PbExternalKey_countable : Countable PbExternalKey.
Proof.
  solve_record_countable (λ k, (ek_table_uuid k, ek_logical_pk k, ek_mapping_version k))
    (λ '(a, b, c), mkPbExternalKey a b c).
Defined.

#[global] Instance PbMemoryDraft_eq_dec : EqDecision PbMemoryDraft.
Proof. solve_decision. Defined.
#[global] Instance PbMemoryDraft_countable : Countable PbMemoryDraft.
Proof.
  solve_record_countable
    (λ m, (pm_draft_key m, pm_id m, pm_memory_type m, pm_title m, pm_content m, pm_tags m,
           pm_visibility m, pm_valid_from m, pm_valid_until m, pm_external_key m, pm_rights m))
    (λ '(a, b, c, d, e, f, g, h, i, j, k), mkPbMemoryDraft a b c d e f g h i j k).
Defined.

#[global] Instance PbRelationshipDraft_eq_dec : EqDecision PbRelationshipDraft.
Proof. solve_decision. Defined.
#[global] Instance PbRelationshipDraft_countable : Countable PbRelationshipDraft.
Proof.
  solve_record_countable
    (λ r, (pd_from_draft_key r, pd_to_draft_key r, pd_kind r, pd_strength r, pd_confidence r,
           pd_context r, pd_visibility r, pd_to_memory_id r))
    (λ '(a, b, c, d, e, f, g, h), mkPbRelationshipDraft a b c d e f g h).
Defined.

#[global] Instance PbSnapshotInfo_eq_dec : EqDecision PbSnapshotInfo.
Proof. solve_decision. Defined.
#[global] Instance PbSnapshotInfo_countable : Countable PbSnapshotInfo.
Proof.
  solve_record_countable (λ s, (si_snapshot_id s, si_schema_hash s, si_source_flavor s))
    (λ '(a, b, c), mkPbSnapshotInfo a b c).
Defined.

#[global] Instance PbClientMetadata_eq_dec : EqDecision PbClientMetadata.
Proof. solve_decision. Defined.
#[global] Instance PbClientMetadata_countable : Countable PbClientMetadata.
Proof.
  solve_record_countable
    (λ c, (cm_playbook_version c, cm_client_version c, cm_harness_hint c, cm_project_id c, cm_team_id c))
    (λ '(a, b, c, d, e), mkPbClientMetadata a b c d e).
Defined.

#[global] Instance PbProducer_eq_dec : EqDecision PbProducer.
Proof. solve_decision. Defined.
#[global] Instance PbProducer_countable : Countable PbProducer.
Proof.
  solve_record_countable
    (λ p, (pp_node_id p, pp_agent_id p, pp_adapter_id p, pp_hmac_signature p, pp_client_metadata p))
    (λ '(a, b, c, d, e), mkPbProducer a b c d e).
Defined.

#[global] Instance PbIngestBatch_eq_dec : EqDecision PbIngestBatch.
Proof. solve_decision. Defined.
#[global] Instance PbIngestBatch_countable : Countable PbIngestBatch.
Proof.
  solve_record_countable
    (λ b, (pb_org_id b, pb_source_uri b, pb_producer_id b, pb_batch_id b, pb_mapping_version b,
           pb_ontology_fingerprint b, pb_ceiling b, pb_checksum b, pb_observed_at b,
           pb_recorded_at b, pb_snapshot b, pb_memories b, pb_relationships b, pb_producer b))
    (λ '(a, b, c, d, e, f, g, h, i, j, k, l, m, n), mkPbIngestBatch a b c d e f g h i j k l m n).
Defined.

(** The digits of a positive, least significant first. *)
Fixpoint pos_digits (p : positive) : list Z :=
  match p with xH => [] | xO p => 0 :: pos_digits p | xI p => 1 :: pos_digits p end.
Fixpoint digits_pos (l : list Z) : positive :=
  match l with [] => xH | b :: l => if b =? 0 then xO (digits_pos l) else xI (digits_pos l) end.
Lemma digits_pos_digits p : digits_pos (pos_digits p) = p.
Proof. induction p; simpl; by f_equal. Qed.
Lemma pos_digits_bytes p : bytes_ok (pos_digits p).
Proof. induction p; simpl; repeat constructor; done || lia. Qed.

Definition demo_decode {M} `{Countable M} (l : list Z) : result M string :=
  match countable.decode (digits_pos l) with Some m => Ok m | None => Err "bad message"%string end.
Definition demo_message {M} `{Countable M} (ok : M → Prop) : Message M ok.
Proof.
  refine {| encode_to_vec m := pos_digits (countable.encode m); decode := demo_decode |}.
  - intros m _. unfold demo_decode. by rewrite digits_pos_digits, countable.decode_encode.
  - intros m _. apply pos_digits_bytes.
Defined.

#[export] Instance demo_envelopes : Message InvalidationEnvelope envelope_ok := demo_message _.
#[export] Instance demo_batches : Message PbIngestBatch batch_ok := demo_message _.
#[export] Instance demo_memory_drafts : Message PbMemoryDraft memory_draft_ok := demo_message _.
#[export] Instance demo_relationship_drafts : Message PbRelationshipDraft relationship_draft_ok :=
  demo_message _.
#[export] Instance demo_snapshot_infos : Message PbSnapshotInfo snapshot_info_ok := demo_message _.

(** ** Signatures and rows *)

Definition demo_mac (x : list Z) : list Z :=
  le_bytes 32 (foldl (λ acc b, wrap 16 (acc * 31 + b + 1)) 7 x).
#[export] Instance demo_hmac : Hmac :=
  {| hmac_sha256 key m := demo_mac (key ++ m);
     hmac_length key m := length_le_bytes 32 _;
     hmac_bytes key m := le_bytes_ok 32 _ |}.

(** The demo rows as single bytes. *)
#[export] Instance demo_row_json : RowJson :=
  {| memory_to_vec m := mid_bytes (m_id m);
     memory_from_slice l := Ok (demo_memory (default 0 (last l)) Project);
     relationship_to_vec r := [0]; relationship_from_slice _ := Ok (demo_edge 1 2 10);
     discovery_to_vec d := [0]; discovery_from_slice _ := Ok demo_discovery;
     snapshot_to_vec _ _ := [0];
     snapshot_from_slice _ := Ok ([demo_memory 1 Project], []) |}.

(** ** A node and a subscriber *)

Definition demo_fp : list Z := replicate 32 7.
Definition demo_hmac_key : list Z := replicate 32 9.
Definition demo_node : ClusterNode := with_replay_capacity 2 (ClusterNode_new "n1" demo_fp demo_hmac_key).
Definition demo_sync : SyncConfig := mkSyncConfig demo_hmac_key None demo_fp 20000 100 60000.

(** The event stream of a change. *)
Definition demo_event (inv : Invalidation) : string :=
  base64_encode (encode_to_vec (envelope inv demo_node)).

(** ** The client's log *)

#[global] Instance WalState_countable : Countable WalState.
Proof.
  refine (inj_countable'
    (λ s, match s with Pending => None | Failed => Some None | Synced l => Some (Some l) end)
    (λ o, match o with None => Pending | Some None => Failed | Some (Some l) => Synced l end) _).
  by intros [].
Defined.

(** The fields of an entry but its memories; entries with memories are not printed. *)
Definition demo_fields (e : WalEntry) :=
  (we_local_lsn e, we_session_id e, we_memory_ids e, we_state e, we_batch_id e, we_draft_keys e,
   we_org e, we_user e, we_tags e).
Definition demo_entry_of (t : Z * string * list MemoryId * WalState * string * list string *
    string * string * list (list string)) : WalEntry :=
  let '(l, s, ids, st, b, ks, o, u, ts) := t in mkWalEntry l s [] ids st b ks o u ts.
#[export] Instance demo_wal_json : WalJson.
Proof.
  refine {| entry_to_vec e :=
              match we_memories e with
              | [] => Ok (pos_digits (countable.encode (demo_fields e)))
              | _ => Err "memories"%string
              end;
            entry_from_slice l :=
              match countable.decode (digits_pos l) with
              | Some t => Ok (demo_entry_of t)
              | None => Err "bad entry"%string
              end |}.
  intros [l s [|] ids st b ks o u ts] js; [|done]. intros [= <-].
  by rewrite digits_pos_digits, countable.decode_encode.
Defined.

Definition demo_wal : Wal := wal_open.
Definition demo_wal_entry (id : string) : WalEntry := mkWalEntry 0 "s1" [] [] Pending id [] "acme" "bob" [].
Definition demo_append (id : string) (W : Wal) : Wal * result Z WalError :=
  append_batch_full_idempotent "s1" [] [] id [] [] "acme" "bob" W.
Definition demo_logged : Wal := (demo_append "b1" demo_wal).1.
