(* ===== verification/Witnesses.v ===== *)
(** * Witnesses

    Each property with a hypothesis, applied at a concrete input of the demo store where its
    hypotheses hold, and what it says there. *)

From S2P Require Import Prelude Ids Kernel Packs Ontology StorageTypes Graph Reads Leases.
From S2P Require Import Ingest Governed Cycles Storage Interleaving Demo.

(** ** The kernel *)

Lemma subset_preserves_meaning_witness :
  is_subset_of (o_summary demo_old_ontology) (o_summary demo_ontology) = true ∧
  s_memory_types (o_summary demo_ontology) !! 1%nat = Some "problem"%string ∧
  triples_admit (s_type_triples (o_summary demo_ontology)) 0 0 1 = true.
Proof.
  assert (is_subset_of (o_summary demo_old_ontology) (o_summary demo_ontology) = true) as Hs
    by (vm_compute; reflexivity).
  destruct (subset_preserves_meaning _ _ Hs) as (Hm & _ & _ & Ht & _).
  split; [exact Hs|]. split; [apply Hm; vm_compute; reflexivity|apply Ht; vm_compute; reflexivity].
Defined.

Lemma fingerprint_determines_summary_witness :
  summary_fits (mkOntologySummary ["solution"] [] [] [] [] [] []) ∧
  compatibility_fingerprint (mkOntologySummary ["solution"] [] [] [] [] [] []) =
    compatibility_fingerprint (mkOntologySummary ["solution"] [] [] [] [] [] []) ∧
  (mkOntologySummary ["solution"] [] [] [] [] [] [] = mkOntologySummary ["solution"] [] [] [] [] [] []
   ∨ ∃ x y, x ≠ y ∧ sha256 x = sha256 y).
Proof.
  assert (summary_fits (mkOntologySummary ["solution"] [] [] [] [] [] [])) as Hf.
  { unfold summary_fits, section_fits, str_fits, len32. simpl.
    split_and!; repeat constructor; simpl; lia. }
  split_and!; [exact Hf|reflexivity|].
  exact (fingerprint_determines_summary _ _ Hf Hf eq_refl).
Defined.

Lemma from_packs_order_independent_witness :
  NoDup (p_name <$> [demo_pack; demo_pack2]) ∧
  from_packs [demo_pack; demo_pack2] = from_packs [demo_pack2; demo_pack].
Proof.
  assert (NoDup (p_name <$> [demo_pack; demo_pack2])) as Hd
    by (apply (bool_decide_eq_true_1 _); vm_compute; reflexivity).
  split; [exact Hd|].
  apply (from_packs_order_independent _ _); [apply Permutation_swap|exact Hd].
Defined.

Lemma kind_id_resolves_witness :
  from_packs [demo_pack; demo_pack2] = Ok demo_ontology ∧
  ∃ k, kinds_by_id demo_ontology !! mkRelKindId 11 = Some k ∧ display_name k = "FOLLOWS"%string.
Proof.
  split; [exact demo_ontology_ok|].
  apply (kind_id_resolves _ _ "FOLLOWS" (mkRelKindId 11) demo_ontology_ok). vm_compute. reflexivity.
Defined.

Lemma type_ids_unique_witness :
  from_packs [demo_pack; demo_pack2] = Ok demo_ontology ∧
  memory_type_id demo_ontology "runbook" = Some 2.
Proof.
  split; [exact demo_ontology_ok|].
  apply (proj1 (type_ids_unique _ _ demo_ontology_ok) ltac:(vm_compute; lia)).
  split; [lia|vm_compute; reflexivity].
Defined.

Lemma triples_follow_types_witness :
  merge_sort pack_le [demo_pack; demo_pack2] !! 1%nat = Some demo_pack2 ∧
  ∃ p', o_packs demo_ontology !! 1%nat = Some p' ∧
    Forall2 (λ t t', side_resolved demo_ontology ["runbook"%string] (from_types t) (from_types t') ∧
                     side_resolved demo_ontology ["runbook"%string] (to_types t) (to_types t'))
      (p_type_triples demo_pack2) (p_type_triples p').
Proof.
  assert (merge_sort pack_le [demo_pack; demo_pack2] !! 1%nat = Some demo_pack2) as Hi
    by (vm_compute; reflexivity).
  assert (length (memory_type_names demo_ontology) ≤ 256)%nat as Hn by (vm_compute; lia).
  split; [exact Hi|].
  exact (triples_follow_types _ _ 1 demo_pack2 demo_ontology_ok Hn Hi).
Defined.

Lemma inverse_of_inverse_witness :
  inverse_paired demo_ontology ∧
  ∃ inv rel', materialize_inverse demo_ontology (demo_edge 1 2 10) = Some inv ∧
    materialize_inverse demo_ontology inv = Some rel' ∧ r_id rel' = r_id (demo_edge 1 2 10).
Proof.
  split; [exact demo_paired|].
  assert (∃ a, materialize_inverse demo_ontology (demo_edge 1 2 10) = Some a)
    as [inv E] by (apply is_some_inv; vm_compute; reflexivity).
  destruct (inverse_of_inverse demo_ontology _ inv demo_paired E)
    as (rel' & Hr & _ & _ & _ & _ & _ & _ & _ & _ & _ & Hid).
  exists inv, rel'. split_and!; [exact E|exact Hr|apply Hid; reflexivity].
Defined.

Lemma demo_strengths : strengths_ok (o_summary demo_ontology).
Proof.
  unfold strengths_ok. apply (proj1 (Forall_forall (λ k, ks_default_strength k ≠ S754_nan) _)).
  vm_compute. repeat (apply List.Forall_cons; [discriminate|]). apply List.Forall_nil.
Qed.

(** The record a node of the larger ontology replaces the older one's by. *)
Definition demo_next : PinnedOntology :=
  with_accepted (describing demo_ontology) [hex (fingerprint demo_old_ontology)].

Lemma admit_node_graph_settles_witness :
  admit_node_graph (PinV2 (describing demo_old_ontology)) demo_ontology = Ok (Advance demo_next) ∧
  admit_node_graph (PinV2 demo_next) demo_ontology = Ok Satisfied.
Proof.
  assert (fingerprint demo_ontology = compatibility_fingerprint (o_summary demo_ontology)) as Hf
    by (vm_compute; reflexivity).
  assert (admit_node_graph (PinV2 (describing demo_old_ontology)) demo_ontology
          = Ok (Advance demo_next)) as E by (vm_compute; reflexivity).
  split; [exact E|].
  exact (proj1 (proj2 (proj2 (proj2 (admit_node_graph_settles _ _ _ demo_strengths Hf E))))).
Defined.

Lemma refusal_reports_no_divergence_witness :
  is_subset_of (o_summary demo_old_ontology) (o_summary demo_ontology) = true ∧
  is_subset_of (o_summary demo_ontology) (o_summary demo_old_ontology) = false ∧
  admit_backup (Summarized (o_summary demo_ontology)) demo_old_ontology = Err (NotASuperset None).
Proof.
  assert (is_subset_of (o_summary demo_old_ontology) (o_summary demo_ontology) = true) as H1
    by (vm_compute; reflexivity).
  assert (is_subset_of (o_summary demo_ontology) (o_summary demo_old_ontology) = false) as H2
    by (vm_compute; reflexivity).
  split_and!; [exact H1|exact H2|].
  exact (proj1 (refusal_reports_no_divergence demo_old_ontology _ H1 H2)).
Defined.

(** ** Visibility *)

Lemma demo_scope : scope_le demo_vc_narrow demo_vc.
Proof. split; simpl; try done; lia. Qed.

Lemma visibility_monotone_witness :
  scope_le demo_vc_narrow demo_vc ∧
  memory_visible (demo_memory 1 Project) demo_vc = true ∧
  memory_visible (demo_memory 1 Project) (mkVisibilityContext "bob" "other" ["*"] [] Public) = false.
Proof.
  destruct (visibility_monotone (demo_memory 1 Project) (demo_edge 1 2 10) (demo_memory 1 Project)
    (demo_memory 2 Project) _ _ demo_scope) as (Hm & _ & Ho).
  split_and!; [exact demo_scope|apply Hm; vm_compute; reflexivity|apply Ho; discriminate].
Defined.

(** ** The graph *)

Lemma upsert_batch_exact_witness :
  room 4 empty_graph ∧
  ∃ g' records, upsert_batch demo_ontology demo_clk [demo_memory 1 Project; demo_memory 2 Project]
      [demo_edge 1 2 10] empty_graph = (g', Ok records) ∧
    cr_lsn <$> records = [1; 2; 3; 4] ∧ lsn_of <$> g_feed g' = [1; 2; 3; 4].
Proof.
  assert (room 4 empty_graph) as Hr by (unfold room; simpl; lia). split; [exact Hr|].
  assert (∃ s a, upsert_batch demo_ontology demo_clk [demo_memory 1 Project; demo_memory 2 Project]
    [demo_edge 1 2 10] empty_graph = (s, Ok a))
    as (g' & records & E) by (apply ok_inv; vm_compute; reflexivity).
  pose proof (upsert_batch_exact demo_ontology demo_clk [demo_memory 1 Project; demo_memory 2 Project]
    [demo_edge 1 2 10] empty_graph Hr) as H.
  rewrite E in H. destruct H as (_ & _ & Hrec & _ & events & Hfeed & Hlsn).
  exists g', records. split; [exact E|]. rewrite Hfeed. simpl. rewrite Hlsn, Hrec.
  split; vm_compute; reflexivity.
Defined.

Lemma batch_rows_present_witness :
  ∃ g' records inv, upsert_batch demo_ontology demo_clk [demo_memory 1 Project; demo_memory 2 Project]
      [demo_edge 1 2 10] empty_graph = (g', Ok records) ∧
    materialize_inverse demo_ontology (demo_edge 1 2 10) = Some inv ∧
    ∃ x l, g_lsn empty_graph < l ≤ g_lsn g' ∧ r_id x = r_id inv ∧
      r_set_lsn (new_backend l) x ∈ relationship_history g' (r_id inv).
Proof.
  assert (∃ s a, upsert_batch demo_ontology demo_clk [demo_memory 1 Project; demo_memory 2 Project]
    [demo_edge 1 2 10] empty_graph = (s, Ok a))
    as (g' & records & E) by (apply ok_inv; vm_compute; reflexivity).
  assert (∃ a, materialize_inverse demo_ontology (demo_edge 1 2 10) = Some a)
    as [inv Ei] by (apply is_some_inv; vm_compute; reflexivity).
  assert (room 4 empty_graph) as Hr by (unfold room; simpl; lia).
  destruct (batch_rows_present demo_ontology demo_clk
    [demo_memory 1 Project; demo_memory 2 Project] [demo_edge 1 2 10] _ g' records graph_ok_empty Hr E) as (_ & _ & Hc).
  exists g', records, inv. split_and!; [exact E|exact Ei|].
  exact (Hc _ inv ltac:(constructor) Ei).
Defined.

(** ** Reads *)

Lemma delete_memory_exact_witness :
  current (g_memories demo_graph) (demo_mid 1)
    = Some (m_set_lsn (new_backend 1) (demo_memory 1 Project)) ∧
  let g' := (delete_memory demo_clk (demo_mid 1) demo_graph).1 in
  valid_at (demo_mid 1) 1000 g' = Ok None ∧
  valid_at (demo_mid 1) 999 g' = valid_at (demo_mid 1) 999 demo_graph.
Proof.
  assert (current (g_memories demo_graph) (demo_mid 1)
    = Some (m_set_lsn (new_backend 1) (demo_memory 1 Project))) as Hc by (vm_compute; reflexivity).
  split; [exact Hc|].
  pose proof (delete_memory_exact demo_clk (demo_mid 1) demo_graph _ demo_graph_ok
    (demo_room 1 ltac:(lia)) Hc) as H.
  split; [exact (H (demo_mid 1) 1000)|exact (H (demo_mid 1) 999)].
Defined.

Lemma relationships_in_region_exact_witness :
  graph_ok demo_graph ∧
  ∃ rows, relationships_in_region demo_region 10 demo_graph = Ok rows ∧ length rows = 2%nat ∧
    ∀ r, r ∈ rows ↔ open_in_region demo_region demo_graph r.
Proof.
  split; [exact demo_graph_ok|].
  pose proof (relationships_in_region_exact demo_region 10 demo_graph demo_graph_ok) as H.
  assert (∃ a, relationships_in_region demo_region 10 demo_graph = Ok a)
    as [rows E] by (apply result_inv; vm_compute; reflexivity).
  rewrite E in H. exists rows. split_and!; [exact E| |exact (proj2 (proj2 H))].
  apply (f_equal (λ r, match r with Ok rows => length rows | Err _ => 0%nat end)) in E.
  rewrite <-E. vm_compute. reflexivity.
Defined.

Definition demo_filter : MemoryFilter := mkMemoryFilter [] [] None None None 1 demo_vc.

Lemma find_by_entity_exact_witness :
  graph_ok demo_graph ∧
  ∃ rows, find_by_entity demo_eid demo_filter demo_graph = Ok rows ∧ length rows = 1%nat ∧
    ∀ m, m ∈ rows → memory_visible m demo_vc = true.
Proof.
  split; [exact demo_graph_ok|].
  pose proof (find_by_entity_exact demo_eid demo_filter demo_graph demo_graph_ok) as H.
  assert (∃ a, find_by_entity demo_eid demo_filter demo_graph = Ok a)
    as [rows E] by (apply result_inv; vm_compute; reflexivity).
  rewrite E in H. destruct H as (_ & _ & H & _).
  exists rows. split_and!; [exact E| |intros m Hm; exact (proj2 (proj2 (H m Hm)))].
  apply (f_equal (λ r, match r with Ok rows => length rows | Err _ => 0%nat end)) in E.
  rewrite <-E. vm_compute. reflexivity.
Defined.

Lemma relationships_touching_exact_witness :
  graph_ok demo_graph ∧ index_complete demo_graph ∧
  ∃ rows, (relationships_touching [demo_mid 1] 10 read_state0 demo_graph).2 = Ok rows ∧
    ∀ r, r ∈ rows → current (g_rels demo_graph) (r_id r) = Some r ∧ is_current r = true.
Proof.
  split_and!; [exact demo_graph_ok|exact demo_indexed|].
  assert (∃ a, (relationships_touching [demo_mid 1] 10 read_state0 demo_graph).2 = Ok a)
    as [rows E] by (apply result_inv; vm_compute; reflexivity).
  exists rows. split; [exact E|].
  exact (proj1 (relationships_touching_exact _ _ _ _ rows demo_graph_ok demo_indexed E)).
Defined.

(** ** Leases *)

Lemma demo_acquired : acquire_lease 1000 demo_key 30 no_leases = (demo_leases, Ok demo_lease).
Proof. vm_compute. reflexivity. Qed.

Lemma demo_epoch : epoch_of no_leases demo_key + 1 < 2 ^ 64.
Proof. vm_compute. reflexivity. Qed.

Lemma stale_lease_fenced_witness :
  acquire_lease 1000 demo_key 30 no_leases = (demo_leases, Ok demo_lease) ∧
  ∃ T3 l2, acquire_lease 2000 demo_key 30 demo_leases = (T3, Ok l2) ∧
    epoch demo_lease < epoch l2 ∧
    check_lease_current 2001 demo_lease (release_lease l2 T3).1 = Err (FencedWriteRejected 1).
Proof.
  split; [exact demo_acquired|].
  assert (∃ s a, acquire_lease 2000 demo_key 30 demo_leases = (s, Ok a))
    as (T3 & l2 & E) by (apply ok_inv; vm_compute; reflexivity).
  assert (epoch_of demo_leases demo_key + 1 < 2 ^ 64) as He by (vm_compute; reflexivity).
  destruct (stale_lease_fenced no_leases demo_leases demo_leases T3 (release_lease l2 T3).1
    demo_key 1000 30 demo_lease 2000 30 l2 lease_ok_empty demo_epoch demo_acquired
    (rtc_refl _ _) He E (rtc_once _ _ (step_release l2 T3))) as [Hlt Hf].
  exists T3, l2. split_and!; [exact E|exact Hlt|exact (proj1 (Hf 2001))].
Defined.

Lemma lease_exclusive_witness :
  lease_ok no_leases ∧ acquire_lease 1000 demo_key 30 no_leases = (demo_leases, Ok demo_lease) ∧
  acquire_lease 1029 demo_key 5 demo_leases = (demo_leases, Err (Backend "lease held by another node")).
Proof.
  split_and!; [exact lease_ok_empty|exact demo_acquired|].
  destruct (lease_exclusive _ _ _ _ _ _ lease_ok_empty demo_epoch demo_acquired) as [_ H].
  apply (proj1 (proj2 (H 1029))). vm_compute. reflexivity.
Defined.

(** ** Ingest *)

Definition demo_ingest_key : IngestBatchKey := mkIngestBatchKey "acme" "producer" "batch-1".
Definition demo_effect : PostIngestEffect := mkPostIngestEffect "e1" [demo_mid 3] [].

Lemma ingest_exactly_once_witness :
  room 1 demo_graph ∧
  ∃ st' g' records s,
    commit_ingest_batch_with_effect demo_ontology demo_clk demo_ingest_key [demo_memory 3 Org] []
      1 demo_effect no_ingest demo_graph = (st', g', Ok (Committed records s)) ∧
    commit_ingest_batch demo_ontology demo_clk demo_ingest_key [] [] 9 st' g'
      = (st', g', Ok (Duplicate s)).
Proof.
  assert (room 1 demo_graph) as Hr by (apply demo_room; lia). split; [exact Hr|].
  pose proof (ingest_exactly_once demo_ontology demo_clk demo_ingest_key [demo_memory 3 Org] [] 1
    demo_effect no_ingest demo_graph Hr eq_refl) as H.
  assert (∃ s g r t, commit_ingest_batch_with_effect demo_ontology demo_clk demo_ingest_key
    [demo_memory 3 Org] [] 1 demo_effect no_ingest demo_graph = (s, g, Ok (Committed r t)))
    as (st' & g' & records & s & E) by (apply committed_inv; vm_compute; reflexivity).
  rewrite E in H. destruct H as (_ & _ & _ & H).
  exists st', g', records, s. split; [exact E|].
  exact (proj1 (H st' g' demo_clk [] [] 9 demo_effect (rtc_refl _ _))).
Defined.

Definition demo_outbox : IngestState :=
  mkIngestState ∅ {["e1"%string := mkEffectRow demo_effect false false None false None]} 0 ∅ false.

Lemma demo_generations : generations_ok demo_outbox.
Proof.
  split; [simpl; lia|]. intros id row n Hrow Hn.
  change (({[ "e1"%string := mkEffectRow demo_effect false false None false None ]}
           : gmap string InMemoryIngestEffect) !! id = Some row) in Hrow.
  apply lookup_singleton_Some in Hrow as [_ <-]. discriminate Hn.
Qed.

Lemma claim_exclusive_witness :
  generations_ok demo_outbox ∧
  ∃ st' c, claim_ingest_effect 0 "node-a" 5 demo_outbox = (st', Ok (Some c)) ∧
    claim_ingest_effect 4999999 "node-b" 5 st' = (st', Ok None).
Proof.
  split; [exact demo_generations|].
  pose proof (claim_exclusive 0 "node-a" 5 demo_outbox demo_generations) as H.
  assert (∃ s a, claim_ingest_effect 0 "node-a" 5 demo_outbox = (s, Ok (Some a)))
    as (st' & c & E) by (apply claimed_inv; vm_compute; reflexivity).
  rewrite E in H. destruct H as (_ & _ & _ & H).
  exists st', c. split; [exact E|]. apply H. vm_compute. reflexivity.
Defined.

(** ** Discoveries and audits *)

Definition demo_discovery_graph : Graph := demo_stored.2.

Lemma demo_discovery_room n : (n ≤ 1000)%nat → room n demo_discovery_graph.
Proof. intros. apply room_le_bound; [vm_compute; split; discriminate|lia]. Qed.

Lemma accept_discovery_once_witness :
  room 2 demo_discovery_graph ∧
  ∃ d' g' record,
    accept_discovery demo_ontology demo_clk demo_acceptance demo_proposed demo_discovery_graph
      = (d', g', Ok record) ∧
    cr_lsn record = g_lsn demo_discovery_graph + 1 ∧
    accept_discovery demo_ontology demo_clk demo_acceptance d' g' = (d', g', Err ProposalNotFound).
Proof.
  assert (room 2 demo_discovery_graph) as Hr by (apply demo_discovery_room; lia). split; [exact Hr|].
  pose proof (accept_discovery_once demo_ontology demo_clk demo_acceptance demo_proposed
    demo_discovery_graph Hr) as H.
  assert (∃ dg a, accept_discovery demo_ontology demo_clk demo_acceptance demo_proposed
    demo_discovery_graph = (dg, Ok a)) as ([d' g'] & record & E)
    by (apply ok_inv; vm_compute; reflexivity).
  rewrite E in H. destruct H as (_ & _ & Hl & _ & H).
  exists d', g', record. split_and!; [exact E|exact Hl|].
  exact (proj1 (H d' g' (rtc_refl _ _)) demo_clk demo_acceptance eq_refl).
Defined.

Lemma proposals_immutable_witness :
  proposals demo_proposed !! "d1"%string = Some (mkStored demo_proposal false) ∧
  discoveries demo_proposed !! "d1"%string = None.
Proof.
  assert (proposals demo_proposed !! "d1"%string = Some (mkStored demo_proposal false)) as Hp
    by (vm_compute; reflexivity).
  split; [exact Hp|].
  assert (rtc (governed_step demo_ontology) (no_governed, demo_graph)
            (demo_proposed, demo_discovery_graph)) as Hsteps.
  { eapply rtc_l; [exact (gstep_store demo_ontology demo_discovery no_governed demo_graph)|].
    exact (rtc_once _ _ (gstep_propose demo_ontology demo_proposal _ _)). }
  exact (proj1 (proposals_immutable demo_ontology demo_graph demo_proposed demo_discovery_graph
    _ _ "d1" _ Hsteps (rtc_refl _ _) Hp)).
Defined.

Lemma audited_writes_coupled_witness :
  graph_ok demo_graph ∧ room 2 demo_graph ∧
  ∃ d' g' record,
    promote_memory_visibility_audited demo_clk (demo_memory 1 Org) demo_audit no_governed demo_graph
      = (d', g', Ok record) ∧
    audits d' = [audit_value demo_audit (cr_lsn record)] ∧ cr_lsn record = g_lsn demo_graph + 1.
Proof.
  assert (room 2 demo_graph) as Hr by (apply demo_room; lia).
  split_and!; [exact demo_graph_ok|exact Hr|].
  destruct (audited_writes_coupled demo_ontology demo_clk [demo_memory 3 Org] []
    (r_id (demo_edge 1 2 10)) (demo_memory 1 Org) demo_audit no_governed demo_graph
    demo_graph_ok Hr) as (_ & _ & H).
  assert (∃ dg a, promote_memory_visibility_audited demo_clk (demo_memory 1 Org) demo_audit
    no_governed demo_graph = (dg, Ok a)) as ([d' g'] & record & E)
    by (apply ok_inv; vm_compute; reflexivity).
  rewrite E in H. destruct H as (_ & _ & Hl & Ha).
  exists d', g', record. split_and!; [exact E|exact Ha|exact Hl].
Defined.

(** ** Cycles *)

Lemma fence_rejects_witness :
  check_lease_current 1030 demo_lease demo_leases = Err (FencedWriteRejected (epoch demo_lease)) ∧
  upsert_batch_fenced demo_ontology (λ _, 1030) [demo_memory 3 Org] [] demo_lease demo_leases demo_graph
    = (demo_graph, Err (FencedWriteRejected 1)).
Proof.
  assert (check_lease_current 1030 demo_lease demo_leases
          = Err (FencedWriteRejected (epoch demo_lease))) as Hc by (vm_compute; reflexivity).
  split; [exact Hc|].
  exact (proj1 (fence_rejects demo_ontology (λ _, 1030) [demo_memory 3 Org] [] FencedRestore_default
    "c" [] demo_discovery (demo_mid 1) FencedRestore_default demo_lease demo_leases no_journals
    no_governed demo_graph Hc)).
Defined.

(** The clock of a cycle within the term of the demo lease. *)
Definition demo_cycle_clk (_ : nat) : DateTime := 1010.

(** One journaled batch of the cycle [cycle-1]: a memory and an edge with its companion. *)
Definition demo_cycle_call (cycle_id : string) (J : Journals) (g : Graph) :=
  upsert_batch_fenced_journaled demo_ontology demo_cycle_clk [demo_memory 3 Org] [demo_edge 3 1 10]
    FencedRestore_default cycle_id demo_lease demo_leases J g.
Definition demo_cycle : Journals * Graph := (demo_cycle_call "cycle-1" no_journals demo_graph).1.
Definition demo_journal : CycleJournalRecord :=
  match cycle_journals demo_cycle.1 !! demo_key with
  | Some j => j
  | None => mkJournal "" demo_key 0 FencedRestore_default Active
  end.

Lemma demo_cycle_ok : ∃ c, demo_cycle_call "cycle-1" no_journals demo_graph = (demo_cycle, Ok c).
Proof.
  assert (∃ p c, demo_cycle_call "cycle-1" no_journals demo_graph = (p, Ok c)) as (p & c & E)
    by (apply ok_inv; vm_compute; reflexivity).
  exists c. unfold demo_cycle. rewrite E. done.
Qed.

Lemma demo_cycle_graph_ok : graph_ok demo_cycle.2.
Proof.
  destruct demo_cycle_ok as [c E]. destruct demo_cycle as [J g] eqn:Ed.
  assert (room 3 demo_graph) as Hr by (apply demo_room; lia).
  apply (journaled_inv demo_ontology demo_cycle_clk [demo_memory 3 Org] [demo_edge 3 1 10]) in E
    as [-> _]; [|exact Hr].
  eapply graph_steps_ok; [apply commit_writes_steps|exact demo_graph_ok].
  eapply room_le; [apply length_batch_writes|exact Hr].
Qed.

Lemma restore_exact_witness :
  graph_ok demo_cycle.2 ∧
  ∃ g' records, restore_fenced demo_cycle_clk (restore demo_journal) demo_lease demo_leases demo_cycle.2
      = (g', Ok records) ∧
    memory_history g' (demo_mid 3) =
      retain_memories {[5]} (memory_history demo_cycle.2 (demo_mid 3)).
Proof.
  split; [exact demo_cycle_graph_ok|].
  assert (∃ s a, restore_fenced demo_cycle_clk (restore demo_journal) demo_lease demo_leases demo_cycle.2
    = (s, Ok a)) as (g' & records & E) by (apply ok_inv; vm_compute; reflexivity).
  exists g', records. split; [exact E|].
  rewrite (proj1 (restore_exact _ _ _ _ _ g' records demo_cycle_graph_ok E) (demo_mid 3)).
  vm_compute. reflexivity.
Defined.

Lemma default_owns_nothing base :
  (∀ id l, l ∈ owned_of (owned_memory_lsns FencedRestore_default) id → base < l) ∧
  (∀ id l, l ∈ owned_of (owned_relationship_lsns FencedRestore_default) id → base < l).
Proof.
  split; intros id l Hl; unfold owned_of in Hl; simpl in Hl; rewrite lookup_empty in Hl;
    by apply not_elem_of_empty in Hl.
Qed.

Lemma demo_cycle_batch :
  cycle_batch demo_ontology demo_key "cycle-1" (g_lsn demo_graph) (no_journals, demo_graph) demo_cycle.
Proof.
  destruct demo_cycle_ok as [c E]. rewrite (surjective_pairing demo_cycle) in E |- *.
  assert (ol_key demo_lease = demo_key) as Hk by (vm_compute; reflexivity).
  assert (room 3 demo_graph) as Hr by (apply demo_room; lia).
  destruct (default_owns_nothing (g_lsn demo_graph)) as [Hm Hn].
  exact (cycle_batch_intro _ _ _ _ demo_cycle_clk [demo_memory 3 Org] [demo_edge 3 1 10]
    FencedRestore_default demo_lease demo_leases _ _ _ _ c Hk Hr Hm Hn E).
Qed.


(** The journals after the cycle is completed. *)
Definition demo_completed : Journals :=
  (complete_cycle_journal_fenced 1010 "cycle-1" demo_lease demo_leases demo_cycle.1).1.

Lemma completed_cycle_rolled_back_witness :
  ∃ J' g' c j', demo_cycle_call "cycle-2" demo_completed demo_cycle.2 = (J', g', Ok c) ∧
    get_active_cycle_journal demo_key J' = Ok (Some j') ∧
    ∃ v, v ∈ memory_history demo_cycle.2 (demo_mid 3) ∧
      ∀ g2 records, restore_fenced demo_cycle_clk (restore j') demo_lease demo_leases g' = (g2, Ok records) →
        v ∉ memory_history g2 (demo_mid 3).
Proof.
  assert (∃ p c, demo_cycle_call "cycle-2" demo_completed demo_cycle.2 = (p, Ok c))
    as ([J' g'] & c & E) by (apply ok_inv; vm_compute; reflexivity).
  assert (room 3 demo_cycle.2) as Hr
    by (apply room_le_bound; [vm_compute; split; discriminate|simpl; lia]).
  assert (cycle_journals demo_completed !! demo_key = Some (mkJournal "cycle-1" demo_key 1
    (restore demo_journal) Completed)) as Hj by (vm_compute; reflexivity).
  assert (m_set_lsn (new_backend 5) (demo_memory 3 Org) ∈ memory_history demo_cycle.2 (demo_mid 3))
    as Hv by (apply (list_elem_of_lookup_2 _ 0); vm_compute; reflexivity).
  assert (5 ∈ owned_of (owned_memory_lsns (restore demo_journal)) (demo_mid 3)) as Ho
    by (apply (bool_decide_eq_true_1 _); vm_compute; reflexivity).
  assert (∀ clk2 g2 records, ∃ j', get_active_cycle_journal demo_key J' = Ok (Some j') ∧
    (restore_fenced clk2 (restore j') demo_lease demo_leases g' = (g2, Ok records) →
     m_set_lsn (new_backend 5) (demo_memory 3 Org) ∉ memory_history g2 (demo_mid 3))) as H.
  { intros clk2 g2 records. pose proof E as E'. unfold demo_cycle_call in E'.
    destruct (completed_cycle_rolled_back demo_ontology demo_cycle_clk [demo_memory 3 Org]
      [demo_edge 3 1 10] FencedRestore_default "cycle-2" demo_lease demo_leases demo_completed
      demo_cycle.2 J' g' c _ clk2 demo_lease demo_leases g2 records demo_cycle_graph_ok Hr Hj eq_refl E')
      as (j' & Hj' & _ & Hr').
    exists j'. split; [exact Hj'|]. intros Hres. exact (proj2 (Hr' Hres _ _ Hv Ho)). }
  destruct (H demo_cycle_clk demo_graph []) as (j' & Hj' & _).
  exists J', g', c, j'. split_and!; [exact E|exact Hj'|].
  eexists. split; [exact Hv|]. intros g2 records Hres.
  destruct (H demo_cycle_clk g2 records) as (j2 & Hj2 & H2). rewrite Hj' in Hj2. injection Hj2 as <-.
  exact (H2 Hres).
Defined.

Lemma settlement_once_witness :
  room 1 demo_graph ∧
  ∃ J' d' g',
    settle_dreams_cycle_fenced 1010 "cycle-1" [demo_discovery] demo_lease demo_leases no_journals
      no_governed demo_graph = (J', d', g', Ok tt) ∧
    settle_dreams_cycle_fenced 1020 "cycle-1" [demo_discovery] demo_lease demo_leases J' d' g'
      = (J', d', g', Ok tt).
Proof.
  assert (room 1 demo_graph) as Hr by (apply demo_room; lia). split; [exact Hr|].
  assert (∃ s a, settle_dreams_cycle_fenced 1010 "cycle-1" [demo_discovery] demo_lease demo_leases
    no_journals no_governed demo_graph = (s, Ok a)) as ([[J' d'] g'] & [] & E)
    by (apply ok_inv; vm_compute; reflexivity).
  destruct (settlement_once 1010 "cycle-1" [demo_discovery] demo_lease demo_leases no_journals
    no_governed demo_graph J' d' g' Hr (lookup_empty _) E) as (_ & _ & _ & _ & _ & _ & _ & H).
  exists J', d', g'. split; [exact E|].
  assert (check_lease_current 1020 demo_lease demo_leases = Ok tt) as Hc by (vm_compute; reflexivity).
  exact (proj1 (H 1020 demo_lease demo_leases d' g' [demo_discovery] eq_refl Hc) eq_refl).
Defined.

(** ** The store under concurrent callers *)

(** Two calls: a batch leaves the gate, a memory is written, and the batch publishes its first
    event. *)
Lemma interleaving_safe_witness :
  ∃ st outs, rtc (sys_step demo_ontology) (build, []) (st, outs) ∧ graph_ok (graph st) ∧
    g_lsn (graph st) = 5 ∧ covers (pending outs) (graph st).
Proof.
  assert (∃ st invs, gate demo_ontology demo_clk 0 (UpsertBatch
    [demo_memory 1 Project; demo_memory 2 Project] [demo_edge 1 2 10]) build = (st, invs) ∧
    g_lsn (graph st) = 4) as (st1 & invs & E1 & Hl1)
    by (eexists _, _; split; [apply surjective_pairing|vm_compute; reflexivity]).
  assert (∃ st invs, gate demo_ontology demo_clk 0 (UpsertMemory (demo_memory 3 Org)) st1 = (st, invs))
    as (st2 & invs2 & E2) by (eexists _, _; apply surjective_pairing).
  assert (rtc (sys_step demo_ontology) (build, []) (st2, [invs; invs2])) as Hs.
  { eapply rtc_l.
    { eapply (sys_gate _ _ _ _ _ [] _ _); [|exact E1]. apply room_le_bound; simpl; lia. }
    simpl. eapply rtc_once, (sys_gate _ _ _ _ _ [invs] _ _ _ E2).
    Unshelve. apply room_le_bound; [rewrite Hl1|simpl]; lia. }
  exists st2, [invs; invs2].
  destruct (interleaving_safe demo_ontology st2 _ Hs) as (Hok & Hc & _ & _).
  split_and!; [exact Hs|exact Hok| |exact Hc].
  apply (f_equal (λ p, g_lsn (graph p.1))) in E2. simpl in E2. rewrite <-E2. simpl. rewrite Hl1.
  reflexivity.
Defined.

Lemma history_append_only_witness :
  is_rollback (DeleteMemory (demo_mid 1)) = false ∧
  memory_history demo_graph (demo_mid 1) `prefix_of`
    memory_history (graph (exec demo_ontology demo_clk 0 (DeleteMemory (demo_mid 1))
      (put_graph demo_graph build))) (demo_mid 1).
Proof.
  split; [reflexivity|].
  destruct (history_append_only demo_ontology demo_clk 0 (DeleteMemory (demo_mid 1))
    (put_graph demo_graph build) demo_graph_ok (demo_room 1 ltac:(lia)) eq_refl) as (_ & H & _).
  exact (H (demo_mid 1)).
Defined.
