(* ===== verification/FeedWitnesses.v ===== *)
(** * Witnesses of the wire and the feed

    The properties of the wire, the cluster node and the subscriber that have hypotheses, each
    applied at a concrete input where they hold. *)

From S2P Require Import Prelude Ids Kernel Packs Ontology StorageTypes Graph Reads Leases.
From S2P Require Import Ingest Governed Cycles Storage Wire Cluster Sync Sse Wal Demo FeedDemo.

Lemma bytes_ok_test l : forallb (λ b, (0 <=? b) && (b <? 256)) l = true → bytes_ok l.
Proof.
  rewrite List.forallb_forall. intros Hl. apply Forall_forall. intros b Hb%list_elem_of_In%Hl.
  bool_prop. lia.
Qed.
Ltac byte_list := apply bytes_ok_test; vm_compute; reflexivity.

(** ** The wire *)

Lemma base64_roundtrip_witness :
  bytes_ok [102; 111] ∧ base64_decode_bounded (base64_encode [102; 111]) 4 = Some [102; 111] ∧
  base64_decode_bounded (base64_encode [102; 111]) 3 = None.
Proof.
  assert (bytes_ok [102; 111]) as Hb by byte_list.
  split_and!; [exact Hb|exact (proj1 (proj2 (base64_roundtrip _ _ 4 Hb Hb)))
    |exact (proj1 (proj2 (base64_roundtrip _ _ 3 Hb Hb)))].
Defined.

Definition demo_unsigned : InvalidationEnvelope :=
  mkEnvelope 1 demo_fp "n1" (Some (mkPbInvalidation (Some PbVisibilityAdvance) 5)) [].

Lemma demo_unsigned_ok : envelope_ok demo_unsigned.
Proof.
  split_and!; [split; reflexivity || discriminate|byte_list|constructor|].
  split; [split; reflexivity || discriminate|exact I].
Qed.

Lemma envelope_signature_witness :
  let e := sign_invalidation_envelope demo_hmac_key demo_unsigned in
  verify_invalidation_envelope demo_hmac_key e = true ∧ (e = e ∨ hmac_collision demo_hmac_key).
Proof.
  intros e. destruct (envelope_signature demo_hmac_key) as (Hv & _ & _ & Hu).
  assert (envelope_ok e) as He by (apply sign_envelope_ok, demo_unsigned_ok).
  split; [apply Hv|]. apply (Hu e e He He eq_refl); apply Hv.
Defined.

Definition demo_draft (id : string) : PbMemoryDraft :=
  mkPbMemoryDraft "k1" id "solution" "title" "content" ["b"; "a"]%string 2 None None None None.
Definition demo_wire_batch (ms : list PbMemoryDraft) : PbIngestBatch :=
  mkPbIngestBatch "acme" "uri" "p" "b1" "1" demo_fp 2 "" None None None ms []
    (Some (mkPbProducer "n1" "a1" "" [] None)).

Lemma demo_draft_ok id : memory_draft_ok (demo_draft id).
Proof. unfold memory_draft_ok, in_i. simpl. lia. Qed.
Lemma demo_batch_ok h :
  bytes_ok h →
  batch_ok (with_producer (Some (with_signature h (mkPbProducer "n1" "a1" "" [] None)))
              (demo_wire_batch [demo_draft "x"])).
Proof.
  intros Hh. unfold batch_ok. simpl. split_and!; try done.
  - byte_list.
  - constructor; [apply demo_draft_ok|constructor].
Qed.

Lemma batch_signature_witness :
  let b := sign_batch demo_hmac_key (demo_wire_batch [demo_draft "x"]) in
  verify_signature demo_hmac_key b = true ∧ (b = b ∨ hmac_collision demo_hmac_key).
Proof.
  intros b. destruct (batch_signature demo_hmac_key) as (Hs & _ & Hu).
  assert (verify_signature demo_hmac_key b = true) as Hv by (unfold b; rewrite Hs; reflexivity).
  assert (batch_ok b) as Hb by (apply demo_batch_ok, hmac_bytes).
  split; [exact Hv|]. exact (Hu b b _ _ Hb Hb eq_refl eq_refl eq_refl Hv Hv).
Defined.

Lemma rows_fit_test l :
  forallb (λ r, Z.of_nat (length r) <? 2 ^ 64) l = true → (Z.of_nat (length l) <? 2 ^ 64) = true →
  rows_fit l.
Proof.
  rewrite List.forallb_forall. unfold rows_fit, fits64, in_range. rewrite Z.ltb_lt. intros Hl Hn.
  split; [|done]. apply Forall_forall. intros r Hr%list_elem_of_In%Hl. lia.
Qed.

Lemma canonical_checksum_exact_witness :
  let a := demo_wire_batch [demo_draft "x"; demo_draft "y"] in
  let b := demo_wire_batch [demo_draft "y"; demo_draft "x"] in
  same_rows a b ∧ canonical_checksum a = canonical_checksum b ∧
  (same_rows a b ∨ blake3_collision).
Proof.
  intros a b.
  assert (same_rows a b) as Hs.
  { split_and!; [|constructor|reflexivity]. exists (pb_memories a). split; [apply Permutation_swap|].
    repeat constructor. }
  assert (batch_fits a ∧ batch_fits b) as [Ha Hb].
  { split; (split; [repeat constructor; apply demo_draft_ok|constructor|exact I| |]);
      apply rows_fit_test; vm_compute; reflexivity. }
  destruct (canonical_checksum_exact a b) as [Heq Hinj].
  split_and!; [exact Hs|exact (Heq Hs)|exact (Hinj Ha Hb (Heq Hs))].
Defined.

Lemma batch_resources_exact_witness :
  let ms := [demo_draft "x"; demo_draft "y"] in
  validate_batch_resources ms [] = Ok tt ∧
  payload ms ≤ MAX_MEMORIES_PER_BATCH * (MAX_MEMORY_CONTENT_BYTES + MAX_TAG_BYTES_PER_MEMORY).
Proof.
  intros ms. assert (validate_batch_resources ms [] = Ok tt) as Hv by (vm_compute; reflexivity).
  split; [exact Hv|]. exact (proj2 (batch_resources_exact ms []) Hv).
Defined.

Lemma decode_hex32_exact_witness :
  decode_hex32 (hex demo_hmac_key) = Ok demo_hmac_key ∧
  decode_hex32 "+1+1+1+1+1+1+1+1+1+1+1+1+1+1+1+1+1+1+1+1+1+1+1+1+1+1+1+1+1+1+1+1" =
    Ok (replicate 32 1).
Proof.
  destruct decode_hex32_exact as (Hrt & _ & Hplus). split.
  - apply Hrt; [byte_list|reflexivity].
  - exact (Hplus 49 1 eq_refl ltac:(lia)).
Defined.

(** ** The node *)

Definition demo_env (lsn : Z) : InvalidationEnvelope := envelope (VisibilityAdvance lsn) demo_node.

Lemma change_log_contract_witness :
  ascending [demo_env 1; demo_env 2; demo_env 3] ∧
  ring_replay_since 0 (ring_after 2 [demo_env 1; demo_env 2; demo_env 3]) = TooOld ∧
  ring_replay_since 1 (ring_after 2 [demo_env 1; demo_env 2; demo_env 3]) = Fresh [demo_env 2; demo_env 3].
Proof.
  set (es := [demo_env 1; demo_env 2; demo_env 3]).
  assert (ascending es) as Hs.
  { unfold ascending, es, in_range. unfold envelope_lsn, demo_env, envelope. simpl.
    split; repeat constructor; simpl; lia. }
  destruct (change_log_contract 2 es Hs) as (Hr & _).
  split_and!; [exact Hs| |].
  - rewrite (Hr 0) by (unfold in_range; lia). reflexivity.
  - rewrite (Hr 1) by (unfold in_range; lia). reflexivity.
Defined.

Lemma unordered_append_gap_witness :
  envelope_lsn (demo_env 2) = 2 ∧ envelope_lsn (demo_env 1) = 1 ∧ envelope_lsn (demo_env 3) = 3 ∧
  ring_replay_since 0 (ring_after 2 [demo_env 2; demo_env 1; demo_env 3]) =
    Fresh [demo_env 1; demo_env 3].
Proof. split_and!; [reflexivity..|]. apply unordered_append_gap; reflexivity. Defined.

Definition demo_attempts : list (result (list (result Invalidation StorageError)) StorageError) :=
  [Err PermissionDenied; Ok [Ok (VisibilityAdvance 1); Err PermissionDenied; Ok (VisibilityAdvance 9)];
   Ok [Ok (VisibilityAdvance 2)]].

Lemma run_publishes_witness :
  length (cn_fp demo_node) = 32%nat ∧
  ∃ n' slept, run demo_attempts 100 demo_node = (n', slept, Ok tt) ∧
    cn_tx n' = [demo_env 1; demo_env 2] ∧ fh_ready (cn_feed_health n') = false.
Proof.
  split; [reflexivity|].
  destruct (run_publishes demo_attempts 100 demo_node eq_refl ltac:(lia))
    as (n' & slept & Er & Et & _ & _ & Hran).
  exists n', slept. split_and!; [exact Er|exact Et|exact (ran_ready _ _ _ _ Hran)].
Defined.

(** ** The subscriber *)

Lemma gate_in_order_witness :
  let f l := VisibilityAdvance l in
  let es := [((λ _ : nat, 0), 4, f 4); ((λ _, 0), 3, f 3); ((λ _, 0), 6, f 6); ((λ _, 0), 3, f 3)] in
  let r := push_all es (LsnGate_new 3) in
  Forall (λ e, 0 ≤ e.1.2 < 2 ^ 64 - 1 ∧ e.2 = f e.1.2) es ∧
  lg_next r.1 = 5 ∧ r.2 = [f 3; f 4] ∧ 5 ∉ es.*1.*2.
Proof.
  intros f es r.
  assert (Forall (λ e, 0 ≤ e.1.2 < 2 ^ 64 - 1 ∧ e.2 = f e.1.2) es) as Hes
    by (repeat constructor; simpl; lia).
  pose proof (gate_in_order f 3 es ltac:(lia) Hes) as Hg.
  assert (lg_next r.1 = 5) as Hn by (vm_compute; reflexivity).
  fold r in Hg. destruct r as [g out]. simpl in Hn |- *. destruct Hg as (_ & Ho & _ & Hmiss & _).
  rewrite Hn in Ho, Hmiss. split_and!; [exact Hes|exact Hn|exact Ho|exact Hmiss].
Defined.

Lemma parser_never_exceeds_witness :
  let body := as_bytes "data: hello" ++ [10; 10] in
  ∃ p' frames, parser_push body (parser_new 8) = Ok (p', frames) ∧ Forall (frame_bounded 8) frames.
Proof.
  intros body.
  assert (∃ r, parser_push body (parser_new 8) = Ok r) as [[p' frames] E]
    by (apply result_inv; vm_compute; reflexivity).
  exists p', frames. split; [exact E|]. exact (proj2 (proj2 (parser_never_exceeds body 8 p' frames ltac:(lia) E))).
Defined.

Lemma sse_framing_witness :
  let e := ("inv", "AAAA")%string in
  let body := sse_event [13; 10] e in
  ∃ p', push_chunks [take 7 body; drop 7 body] (parser_new 8) = Ok (p', [Event "inv" "AAAA"]) ∧
        parser_clean p'.
Proof.
  intros e body.
  apply (sse_framing [13; 10] [e] [take 7 body; drop 7 body] (parser_new 8)).
  - unfold is_eol. tauto.
  - repeat split; reflexivity.
  - simpl. discriminate.
  - constructor; [|constructor].
    split_and!; [repeat constructor; discriminate|repeat constructor; discriminate|vm_compute; reflexivity
      |vm_compute; reflexivity|discriminate|unfold byte_len; simpl; lia|unfold byte_len; simpl; lia].
  - simpl. lia.
  - reflexivity.
Defined.

Lemma demo_sendable : sendable (MemorySnapshotUpserted (demo_memory 1 Project) 5).
Proof.
  simpl. split; [|reflexivity]. split; [reflexivity|byte_list].
Qed.

Lemma demo_envelope_ok : envelope_ok (envelope (MemorySnapshotUpserted (demo_memory 1 Project) 5) demo_node).
Proof.
  apply sign_envelope_ok. split_and!; [split; reflexivity || discriminate| |constructor|].
  - byte_list.
  - split; [split; reflexivity || discriminate|]. split; byte_list.
Qed.

Lemma feed_roundtrip_witness :
  decode_event demo_hmac_key demo_fp (demo_event (MemorySnapshotUpserted (demo_memory 1 Project) 5)) =
  Ok (Change (MemorySnapshotUpserted (demo_memory 1 Project) 5) 5).
Proof.
  apply (feed_roundtrip demo_node (MemorySnapshotUpserted (demo_memory 1 Project) 5) eq_refl
    demo_envelope_ok demo_sendable).
  apply (bool_decide_eq_true_1 _). vm_compute. reflexivity.
Defined.

(** The envelope a payload holds. *)
Definition demo_envelope (payload : string) : option InvalidationEnvelope :=
  raw ← base64_decode_bounded payload MAX_SSE_EVENT_DATA_BYTES;
  match decode (ok := envelope_ok) raw with Ok env => Some env | Err _ => None end.

(** Whatever the keys, what a payload decodes to carries the LSN of its envelope. *)
Lemma decode_event_position key fp payload event env lsn :
  demo_envelope payload = Some env → envelope_lsn env = lsn →
  decode_event key fp payload = Ok event →
  match event with Change _ l | Reseed _ _ l => l = lsn end.
Proof.
  unfold demo_envelope, decode_event. intros (raw & -> & Hd)%bind_Some Hl.
  simpl ok_or. cbn [result_bind]. destruct (decode raw) as [e|]; [|done]. simplify_eq. simpl.
  intros (u & _ & E)%result_bind_ok. apply result_bind_ok in E as (i & Hi & E).
  apply result_bind_ok in E as (k & _ & E). unfold envelope_lsn.
  destruct (env_inv env) as [i'|]; [|done]. simplify_eq/=. unfold decode_kind in E.
  destruct k; repeat (first [apply result_bind_ok in E as (? & _ & E) | case_bool_decide; [|done]]);
    try (by simplify_eq).
  destruct x. by simplify_eq.
Qed.

Lemma one_event_lsns payload env clk clk' t lsn :
  demo_envelope payload = Some env → envelope_lsn env = lsn → 0 ≤ lsn < 2 ^ 64 - 1 →
  feed_lsns [(clk, Received (Event t payload)); (clk', Ended)].
Proof.
  intros He Hl Hr key fp c t' data event [E|[E|[]]]%list_elem_of_In Hd; [|done].
  injection E as _ _ <-. pose proof (decode_event_position _ _ _ _ _ _ He Hl Hd).
  destruct event; by subst.
Qed.

(** A connection that carries one event and ends, and the one after it. *)
Definition demo_connections : list Connection :=
  [mkConnection 0 [((λ _, 0), Received (Event "inv" (demo_event (VisibilityAdvance 5)))); ((λ _, 0), Ended)] None;
   mkConnection 0 [] None].

Lemma demo_event_envelope :
  demo_envelope (demo_event (VisibilityAdvance 5)) = Some (demo_env 5).
Proof. vm_compute. reflexivity. Qed.

Lemma demo_connections_lsns c :
  c ∈ demo_connections → feed_lsns (co_items c) ∧ co_adopted c = None.
Proof.
  intros [<-|[<-|[]]]%list_elem_of_In; (split; [|reflexivity]).
  - exact (one_event_lsns _ _ _ _ "inv" 5 demo_event_envelope eq_refl ltac:(lia)).
  - by intros key fp clk t data event ?%list_elem_of_In.
Qed.


Lemma gap_timer_total_witness :
  let s := mkSyncState 3 false 100
             (push (λ _, 0) 4 (VisibilityAdvance 4) (LsnGate_new 3)).1 None in
  gap_deadline (sc_gap_timeout demo_sync) (ss_gate s) = Some 20000 ∧
  is_Some (on_item demo_sync (λ _, 20000) GapFired s).
Proof.
  intros s. assert (gap_deadline (sc_gap_timeout demo_sync) (ss_gate s) = Some 20000) as Hd
    by (vm_compute; reflexivity).
  split; [exact Hd|]. exact (gap_timer_total demo_sync (λ _, 20000) s 20000 Hd ltac:(lia)).
Defined.

Lemma only_authentic_witness :
  let payload := demo_event (VisibilityAdvance 5) in
  decode_event demo_hmac_key demo_fp payload = Ok (Change (VisibilityAdvance 5) 5) ∧
  ∃ raw env, base64_decode_bounded payload MAX_SSE_EVENT_DATA_BYTES = Some raw ∧
    decode raw = Ok env ∧ wire_version env = WIRE_VERSION ∧ ontology_fingerprint env = demo_fp ∧
    length demo_fp = 32%nat ∧ env = sign_invalidation_envelope demo_hmac_key env.
Proof.
  intros payload.
  assert (decode_event demo_hmac_key demo_fp payload = Ok (Change (VisibilityAdvance 5) 5)) as Hd
    by (vm_compute; reflexivity).
  split; [exact Hd|]. exact (only_authentic demo_hmac_key demo_fp payload _ Hd).
Defined.

(** A commit after an audit row, as a subscriber at the audit's LSN sees it. *)
Lemma audit_stalls_gate_witness :
  room 2 (graph build) ∧
  g_feed (graph (exec demo_ontology demo_clk 0 (UpsertMemory (demo_memory 1 Project))
    (exec demo_ontology demo_clk 0 (AppendAudit demo_audit) build))) =
  [MemoryUpserted (demo_mid 1) 2].
Proof.
  assert (room 2 (graph build)) as Hr by (apply room_le_bound; simpl; lia).
  split; [exact Hr|].
  exact (proj1 (audit_stalls_gate demo_ontology demo_clk 0 demo_audit (demo_memory 1 Project)
    build (λ _, 0) Hr)).
Defined.

(** ** The server *)

Lemma live_streams_limited_witness :
  rtc stream_step (LiveStreamAdmission_new 2 1, [])
    ((try_admit [7] (LiveStreamAdmission_new 2 1)).1, [[7]]) ∧
  (try_admit [7] (try_admit [7] (LiveStreamAdmission_new 2 1)).1).2 = false ∧
  (try_admit [8] (try_admit [7] (LiveStreamAdmission_new 2 1)).1).2 = true.
Proof.
  assert (rtc stream_step (LiveStreamAdmission_new 2 1, [])
    ((try_admit [7] (LiveStreamAdmission_new 2 1)).1, [[7]])) as Hr
    by (apply rtc_once, stream_admitted; reflexivity).
  destruct (live_streams_limited 2 1 _ _ [7] ltac:(lia) ltac:(lia) Hr) as (_ & _ & H7).
  destruct (live_streams_limited 2 1 _ _ [8] ltac:(lia) ltac:(lia) Hr) as (_ & _ & H8).
  split; [exact Hr|]. split.
  - apply not_true_iff_false. intros Ht. apply H7 in Ht as [_ Ht]. vm_compute in Ht. discriminate.
  - apply H8. split; vm_compute; reflexivity.
Defined.

(** The demo store, and the event of memory 1 at LSN 1. *)
Definition demo_store : Store := put_graph demo_graph build.
Definition demo_upsert : InvalidationEnvelope := envelope (MemoryUpserted (demo_mid 1) 1) demo_node.
Definition demo_items : list (Store * option InvalidationEnvelope) := [(demo_store, Some demo_upsert)].

Lemma demo_cache_ok : cache_ok (λ s, s = demo_store) ∅.
Proof. split; [|rewrite map_size_empty; unfold MAX_SHARED_EVENTS; lia]. intros k e. by rewrite lookup_empty. Qed.
Lemma demo_stream_ok : stream_ok (λ s, s = demo_store) demo_vc demo_items.
Proof. repeat constructor. Qed.

Lemma stream_no_leak_witness :
  let out := (event_stream demo_node (Some demo_vc) (Some [5]) true None [] demo_items ∅).2 in
  envelope_lsn <$> out = [1] ∧
  Forall (λ e, verify_invalidation_envelope [5] e = true ∧
               carries (λ s, s = demo_store) demo_vc (env_kind e)) out.
Proof.
  intros out. split; [vm_compute; reflexivity|].
  pose proof (stream_no_leak demo_node (λ s, s = demo_store) demo_vc [5] true None [] demo_items ∅
    I (List.Forall_nil _) demo_stream_ok demo_cache_ok) as Hn.
  unfold out. destruct (event_stream _ _ _ _ _ _ _ _). exact (proj1 (proj2 Hn)).
Defined.

(** The envelope the demo caller is served. *)
Definition demo_served : InvalidationEnvelope :=
  sign_invalidation_envelope demo_hmac_key
    (envelope (MemorySnapshotUpserted (m_clear_embedding (m_set_lsn (new_backend 1) (demo_memory 1 Project))) 1)
       demo_node).

Lemma demo_served_in :
  demo_served ∈ (serve demo_node (Some demo_vc) (Some demo_hmac_key) true demo_items ∅).2.
Proof.
  assert ((serve demo_node (Some demo_vc) (Some demo_hmac_key) true demo_items ∅).2 = [demo_served]) as ->
    by (vm_compute; reflexivity).
  by left.
Qed.

Lemma subscriber_shown_only_visible_witness :
  decode_event demo_hmac_key demo_fp (base64_encode (encode_to_vec demo_served)) =
    Ok (Change (MemorySnapshotUpserted (demo_memory 1 Project) 1) 1) ∧
  shown (λ s, s = demo_store) demo_vc (Change (MemorySnapshotUpserted (demo_memory 1 Project) 1) 1).
Proof.
  assert (decode_event demo_hmac_key demo_fp (base64_encode (encode_to_vec demo_served)) =
    Ok (Change (MemorySnapshotUpserted (demo_memory 1 Project) 1) 1)) as Hd by (vm_compute; reflexivity).
  split; [exact Hd|].
  refine (subscriber_shown_only_visible demo_node _ demo_vc demo_hmac_key true demo_items ∅ demo_fp
    demo_served _ demo_stream_ok demo_cache_ok demo_served_in _ Hd).
  apply sign_envelope_ok, sign_envelope_ok. split_and!; [split; reflexivity || discriminate| |constructor|].
  - byte_list.
  - split; [split; reflexivity || discriminate|]. split; byte_list.
Defined.

Lemma image_exact_witness :
  ∃ env, graph_reseed_envelope_at demo_node (Some demo_vc) 1000 4 demo_store demo_store = Ok env ∧
         own_image demo_vc env.
Proof.
  assert (∃ env, graph_reseed_envelope_at demo_node (Some demo_vc) 1000 4 demo_store demo_store = Ok env)
    as [env E] by (apply result_inv; vm_compute; reflexivity).
  exists env. split; [exact E|].
  destruct (image_exact demo_node (Some demo_vc) 1000 4 demo_store demo_store env E)
    as (ms & rs & _ & _ & _ & Hown & _).
  exact (Hown demo_vc eq_refl).
Defined.

(** The node after two events, and a subscriber that has seen the first. *)
Definition demo_replaying : ClusterNode :=
  publish_envelope (demo_env 2) (publish_envelope (demo_env 1) demo_node).
Definition demo_request : Request :=
  mkRequest (Some "since_lsn=1"%string) (Some "Bearer t0k"%string) (Some "2"%string) (Some demo_vc).
Definition demo_limits : Limits :=
  mkLimits (LiveStreamAdmission_new MAX_LIVE_STREAMS_GLOBAL MAX_LIVE_STREAMS_PER_PRINCIPAL)
    MAX_CONCURRENT_RESEEDS.

Lemma handler_exact_witness :
  ∃ L' op, handler demo_request demo_replaying demo_limits = (L', Streaming op) ∧
    op_visibility op = demo_vc ∧ op_replay op = [demo_env 2].
Proof.
  assert (∃ L' op, handler demo_request demo_replaying demo_limits = (L', Streaming op)) as (L' & op & E).
  { eexists _, _. vm_compute. reflexivity. }
  assert (ascending [demo_env 1; demo_env 2]) as Hs.
  { unfold ascending, in_range. unfold envelope_lsn, demo_env, envelope. simpl.
    split; repeat constructor; simpl; lia. }
  pose proof (handler_exact 2 [demo_env 1; demo_env 2] demo_request demo_replaying demo_limits Hs eq_refl) as He.
  rewrite E in He. destruct He as (_ & _ & Hop & _). destruct (Hop op eq_refl) as (Hvc & _ & Hr).
  exists L', op. split_and!; [exact E|injection Hvc as <-; reflexivity|].
  destruct (Hr 1) as [_ Hrep]; [unfold in_range; lia|vm_compute; reflexivity|]. exact Hrep.
Defined.

(** ** The client's log *)

Lemma demo_wal_repr : repr demo_wal [].
Proof. split; [reflexivity|constructor|constructor]. Qed.
Lemma demo_wal_sane : sane demo_wal.
Proof. unfold sane. vm_compute. reflexivity. Qed.

Definition demo_row (l : Z) (s : WalState) : WalEntry := set_state s (set_local_lsn l (demo_wal_entry "b1")).

Lemma demo_logged_ok : repr demo_logged [demo_row 1 Pending] ∧ sane demo_logged.
Proof.
  pose proof (insert_entry_repr demo_wal [] (demo_wal_entry "b1") demo_wal_repr demo_wal_sane) as Hi.
  assert (insert_entry_locked (demo_wal_entry "b1") demo_wal = (demo_logged, Ok 1)) as E
    by (vm_compute; reflexivity).
  rewrite E in Hi. destruct Hi as (_ & _ & Hr & _ & Hb & _).
  split; [exact Hr|]. unfold sane. rewrite Hb. exact demo_wal_sane.
Qed.

Lemma demo_marks_fit s : Z.of_nat (length (pos_digits (countable.encode (demo_fields (demo_row 1 s))))) < 2 ^ 32 →
  marks_fit 1 s [demo_row 1 Pending].
Proof.
  intros Hl e js [->|[]%elem_of_nil]%elem_of_cons _. simpl. intros [= <-]. exact Hl.
Qed.

Lemma wal_refines_log_witness :
  repr demo_logged [demo_row 1 Pending] ∧ op_ok (OpFailed 1) [demo_row 1 Pending] ∧
  wal_entries demo_logged = Ok [demo_row 1 Pending] ∧
  ∃ log', repr (wal_exec (OpFailed 1) demo_logged) log' ∧ rtc log_step [demo_row 1 Pending] log'.
Proof.
  destruct demo_logged_ok as [Hr Hs].
  assert (op_ok (OpFailed 1) [demo_row 1 Pending]) as Ho.
  { split; [apply demo_marks_fit; vm_compute; reflexivity|split; [lia|reflexivity]]. }
  destruct (wal_refines_log demo_logged _ (OpFailed 1) Hr Hs Ho) as ((log' & Hr' & Hst & _) & He & _).
  split_and!; [exact Hr|exact Ho|exact He|]. exists log'. split; [exact Hr'|exact Hst].
Defined.

Lemma append_idempotent_once_witness :
  demo_append "b1" demo_wal = (demo_logged, Ok 1) ∧
  rtc wal_step demo_logged (wal_exec (OpFailed 1) demo_logged) ∧
  demo_append "b1" (wal_exec (OpFailed 1) demo_logged) = (wal_exec (OpFailed 1) demo_logged, Ok 1).
Proof.
  assert (demo_append "b1" demo_wal = (demo_logged, Ok 1)) as E by (vm_compute; reflexivity).
  destruct demo_logged_ok as [Hr Hs].
  assert (rtc wal_step demo_logged (wal_exec (OpFailed 1) demo_logged)) as Hst.
  { apply rtc_once, (wal_stepped _ [demo_row 1 Pending]); [exact Hr|exact Hs|].
    split; [apply demo_marks_fit; vm_compute; reflexivity|split; [lia|reflexivity]]. }
  split_and!; [exact E|exact Hst|].
  refine (append_idempotent_once demo_wal demo_logged _ [] 1 _ _ _ "b1" _ _ _ _ _ _ _ _ _ _ _
    demo_wal_repr demo_wal_sane _ E Hst).
  discriminate.
Defined.


Lemma mark_exact_witness :
  repr demo_logged [demo_row 1 Pending] ∧
  (update_state 1 (set_state Failed) demo_logged).2 = Ok tt ∧
  wal_entries (update_state 1 (set_state Failed) demo_logged).1 = Ok [demo_row 1 Failed].
Proof.
  destruct demo_logged_ok as [Hr Hs].
  pose proof (mark_exact demo_logged [] (demo_row 1 Pending) [] Failed Hr
    ltac:(apply demo_marks_fit; vm_compute; reflexivity) ltac:(eexists; reflexivity)) as Hm.
  change (we_local_lsn (demo_row 1 Pending)) with 1 in Hm.
  destruct (update_state 1 (set_state Failed) demo_logged) as [W' r]. destruct Hm as (-> & He & _).
  split_and!; [exact Hr|reflexivity|exact He].
Defined.

(** A budget of exactly the record: the append is admitted and leaves the log sixteen bytes over. *)
Definition tight_wal : Wal := open_with_budget (Z.of_nat (length (enc (demo_row 1 Pending)))).
Lemma append_budget_witness :
  ∃ W', insert_entry (demo_wal_entry "b1") tight_wal = (W', Ok 1) ∧
    used_bytes W' = wal_max_bytes W' + 16 ∧ used_bytes W' ≤ wal_max_bytes W' + 16.
Proof.
  assert (∃ W', insert_entry (demo_wal_entry "b1") tight_wal = (W', Ok 1) ∧
    used_bytes W' = wal_max_bytes W' + 16) as (W' & E & Hu).
  { eexists. split; [vm_compute; reflexivity|vm_compute; reflexivity]. }
  exists W'. split_and!; [exact E|exact Hu|].
  refine (proj1 (append_budget tight_wal [] (demo_wal_entry "b1") W' 1 _ _ E)).
  - split; [reflexivity|constructor|constructor].
  - unfold sane. vm_compute. reflexivity.
Defined.

Lemma codec_exact_witness :
  ∃ bytes, encode_entry (demo_row 1 Pending) = Ok bytes ∧ decode_entry bytes = Ok (demo_row 1 Pending).
Proof.
  refine (proj1 codec_exact (demo_row 1 Pending) _ eq_refl _). vm_compute. reflexivity.
Defined.
