(* ===== verification/CacheDemo.v ===== *)
(** * Concrete instances of the cache

    Computable instances of the libraries the cache is built on ([petgraph], [lasso], [lru] and
    the Unicode table) and a client's cache with two rows and the edge between them, built by the
    model's own operations. *)

From stdpp Require Import gmap strings.
From S2P Require Import Prelude Ids Kernel Packs Ontology StorageTypes Graph Reads Leases.
From S2P Require Import Ingest Governed Cycles Storage Snapshot Interned Slots Cache CacheSpec.
From S2P Require Import SearchIndex Demo.

(** ** Graphs as two maps *)

Record DemoStable (N E : Type) := mkStable {
  ds_nodes : gmap nat N;
  ds_edges : gmap nat (nat * nat * E);
}.
Arguments mkStable {N E}.
Arguments ds_nodes {N E}.
Arguments ds_edges {N E}.

(** An index above every index in use. *)
Definition next_index {V} (m : gmap nat V) : nat := S (max_list (map_to_list m).*1).

Lemma next_index_fresh {V} (m : gmap nat V) : m !! next_index m = None.
Proof.
  destruct (m !! next_index m) as [v|] eqn:E; [|done].
  assert (next_index m ∈ (map_to_list m).*1) as Hin.
  { apply list_elem_of_fmap. exists (next_index m, v). by rewrite elem_of_map_to_list. }
  apply max_list_elem_of_le in Hin. unfold next_index in Hin. lia.
Qed.

#[export] Instance demo_stable N E : StableGraph N E.
Proof.
  refine {|
    sgraph := DemoStable N E;
    sg_new := mkStable ∅ ∅;
    sg_nodes := ds_nodes;
    sg_edges := ds_edges;
    add_node n g :=
      (mkStable (<[next_index (ds_nodes g) := n]> (ds_nodes g)) (ds_edges g), next_index (ds_nodes g));
    set_node_weight ix n g :=
      mkStable (match ds_nodes g !! ix with Some _ => <[ix := n]> (ds_nodes g) | None => ds_nodes g end)
        (ds_edges g);
    remove_node ix g :=
      mkStable (delete ix (ds_nodes g)) (filter (λ e, e.2.1.1 ≠ ix ∧ e.2.1.2 ≠ ix) (ds_edges g));
    add_edge a b w g :=
      (mkStable (ds_nodes g) (<[next_index (ds_edges g) := (a, b, w)]> (ds_edges g)),
       next_index (ds_edges g));
    set_edge_weight i w g :=
      mkStable (ds_nodes g)
        (match ds_edges g !! i with
         | Some (a, b, _) => <[i := (a, b, w)]> (ds_edges g) | None => ds_edges g end);
    remove_edge i g := mkStable (ds_nodes g) (delete i (ds_edges g));
    node_indices g := (map_to_list (ds_nodes g)).*1;
    edges_directed ix d g := filter (λ e, near_end d e.2 = ix) (map_to_list (ds_edges g));
  |}; simpl; try done.
  - intros n g. apply next_index_fresh.
  - by intros ix n g [x ->].
  - intros a b w g. apply next_index_fresh.
  - by intros i a b v w g ->.
Defined.

(** ** Interning *)

(** The set of the strings interned, a handle being the number of its string. *)
#[export] Instance demo_interner : Interner.
Proof.
  refine {|
    rodeo := gset string;
    rodeo_new := ∅;
    rodeo_get t r := if decide (t ∈ r) then Some (Z.pos (encode t)) else None;
    get_or_intern t r := ({[t]} ∪ r, Z.pos (encode t));
  |}; simpl.
  - intros t. by rewrite decide_False by set_solver.
  - intros t r. by rewrite decide_True by set_solver.
  - intros t t' r Hne. destruct (decide (t' ∈ r)) as [Hin|Hin].
    + by rewrite decide_True by set_solver.
    + by rewrite decide_False by set_solver.
  - intros t r k. by case_decide; intros [= <-].
  - intros t t' r k. case_decide; [|done]. intros [= <-]. case_decide; [|done]. intros [= E].
    by apply (inj encode).
Defined.

(** ** Case and recency *)

#[export] Instance demo_unicode : Unicode :=
  {| str_to_lowercase := map (λ b, if (65 <=? b) && (b <=? 90) then b + 32 else b) |}.

#[export] Instance demo_lru : LruCache.
Proof.
  refine {|
    lru := nat * list string;
    lru_new n := (Z.to_nat n, []);
    lru_cap l := l.1;
    lru_keys l := l.2;
    lru_put k l := (l.1, take l.1 (k :: List.filter (λ x, negb (String.eqb x k)) l.2));
    lru_pop k l := (l.1, List.filter (λ x, negb (String.eqb x k)) l.2);
    lru_pop_lru l := match reverse l.2 with [] => None | k :: ks => Some (k, (l.1, reverse ks)) end;
  |}; try done.
  - intros [n ks]. simpl. destruct (reverse ks) as [|k l] eqn:E.
    + split; [|done]. intros _. apply (f_equal reverse) in E. by rewrite reverse_involutive in E.
    + split; [done|]. intros ->. done.
  - intros [n ks] k [n' ks']. simpl. destruct (reverse ks) as [|x l] eqn:E; [done|].
    intros [= <- <- <-]. split; [|done]. apply (f_equal reverse) in E.
    by rewrite reverse_involutive, reverse_cons in E.
Defined.

(** ** A client's cache *)

Abbreviation DemoSnapshot := (GraphSnapshot (SG:=demo_stable Memory Relationship) HandleIndex).
Abbreviation DemoCache := (LocalCache (SG:=demo_stable Memory Relationship) (LC:=demo_lru) HandleIndex).
Abbreviation DemoHeap := (list (rodeo (Interner:=demo_interner))).

Definition demo_cache0 : DemoCache := LocalCache_new 65536.
Definition demo_free (r : RetiredSnapshot (SG:=demo_stable Memory Relationship) HandleIndex) : bool := true.
Definition demo_rows : list Memory := [demo_memory 1 Project; demo_memory 2 Project].
Definition demo_local : DemoHeap * DemoCache :=
  apply_local demo_clk demo_free "acme" demo_rows [demo_edge 1 2 10] 3 demo_cache0 [].

Lemma demo_cache0_ok : cache_ok ([] : DemoHeap) demo_cache0.
Proof.
  assert (graphs demo_cache0 = ∅) as E by reflexivity.
  split; rewrite ?E; [apply map_Forall_empty|done|]. intros o g. by rewrite lookup_empty.
Qed.

Lemma demo_local_ok : cache_ok demo_local.1 demo_local.2.
Proof.
  pose proof (apply_local_ok demo_clk demo_free "acme" demo_rows [demo_edge 1 2 10] 3 [] demo_cache0
    demo_cache0_ok ltac:(vm_compute; discriminate) ltac:(vm_compute; lia)
    ltac:(apply map_Forall_empty)) as Hl.
  unfold demo_local. destruct (apply_local _ _ _ _ _ _ _ _) as [h c]. by destruct Hl as (_ & ? & _).
Qed.

(** The graph of the organization, and whether every slot may still publish. *)
Definition demo_snap : DemoSnapshot :=
  match graph_of "acme" demo_local.2 with Some s => s | None => (empty 0 demo_local.1).2 end.
Definition generations_left_b (c : DemoCache) : bool :=
  forallb (λ e, generation e.2 + 1 <? 2 ^ 64) (map_to_list (graphs c)).

Lemma generations_left_test (c : DemoCache) : generations_left_b c = true → generations_left c.
Proof.
  unfold generations_left_b. rewrite List.forallb_forall. intros Hall o g Hg.
  apply elem_of_map_to_list, list_elem_of_In, Hall in Hg. by apply Z.ltb_lt in Hg.
Qed.

Lemma demo_graph_of : graph_of "acme" demo_local.2 = Some demo_snap.
Proof. vm_compute. reflexivity. Qed.

Lemma demo_snap_ok : snap_ok demo_snap.
Proof. exact (graph_of_ok _ _ _ _ demo_local_ok demo_graph_of). Qed.
