(* ===== verification/CacheWitnesses.v ===== *)
(** * Witnesses of the cache

    The properties of the resident graphs, the writer and the reads that have hypotheses, each
    applied at a concrete input where they hold. *)

From stdpp Require Import gmap strings.
From S2P Require Import Prelude Ids Kernel Packs Ontology StorageTypes Graph Reads Leases.
From S2P Require Import Ingest Governed Cycles Storage Snapshot Interned Slots Cache CacheSpec.
From S2P Require Import CacheReads SearchIndex Demo CacheDemo.

Abbreviation DemoSlot := (GraphSlot (SG:=demo_stable Memory Relationship) HandleIndex).

#[local] Opaque demo_local demo_snap.

Lemma graph_of_lookup (org : string) (c : DemoCache) g snap :
  graphs c !! org = Some g → graph_of org c = Some snap → load_full g = snap.
Proof. unfold graph_of. intros -> [= ->]. done. Qed.

(** An empty graph published, and the same over tags. *)
Definition demo_slot : DemoHeap * DemoSlot :=
  let '(h, s) := empty 0 ([] : DemoHeap) in (h, GraphSlot_new s).
Definition demo_plain : GraphSnapshot (SG:=demo_stable Memory Relationship) (gmap string (gset Z)) :=
  (empty 0 ()).2.

Lemma demo_slot_repr : slot_repr demo_slot.1 demo_slot.2 demo_plain.
Proof.
  pose proof (tags_new_spec ([] : DemoHeap)) as Ht. apply fresh_slot_repr.
  split; [reflexivity|exact (proj2 Ht)].
Qed.

Definition demo_slot_ops : list SlotOp :=
  [OpPublish demo_clk demo_free [UpsertMemory (demo_memory 1 Project); AdvanceBackendLsn 4];
   OpLocal demo_clk demo_free [demo_memory 2 Project] [demo_edge 1 2 10] 3;
   OpPublish demo_clk demo_free [DeleteMemory (demo_mid 1)]].

(** The third publication recycles the first snapshot. *)
Lemma reuse_invisible_witness :
  slot_repr demo_slot.1 demo_slot.2 demo_plain ∧
  let '(h', slot') := foldl (λ w op, run_op op w) demo_slot demo_slot_ops in
  snap_repr h' (load_full slot') (foldl (λ a op, reference_op op a) demo_plain demo_slot_ops) ∧
  dom (by_id (load_full slot')) = {[demo_mid 2]}.
Proof.
  split; [exact demo_slot_repr|].
  assert (0 ≤ generation demo_slot.2) as Hg0 by (vm_compute; discriminate).
  assert (generation demo_slot.2 + Z.of_nat (length demo_slot_ops) < 2 ^ 64) as Hg1
    by (vm_compute; reflexivity).
  pose proof (reuse_invisible demo_slot_ops demo_slot.1 demo_slot.2 demo_plain demo_slot_repr Hg0 Hg1)
    as Hr.
  assert (demo_slot = (demo_slot.1, demo_slot.2)) as E by (vm_compute; reflexivity).
  rewrite <-E in Hr. assert (ops_ok demo_slot demo_slot_ops) as Hops by (repeat split).
  specialize (Hr Hops).
  assert (dom (by_id (load_full (foldl (λ w op, run_op op w) demo_slot demo_slot_ops).2)) =
          {[demo_mid 2]}) as Hd by (vm_compute; reflexivity).
  destruct (foldl _ demo_slot demo_slot_ops) as [h' slot']. split; [exact Hr|exact Hd].
Defined.

(** ** The writer *)

Definition demo_backend : Store := put_graph demo_graph build.
Definition demo_burst : list Invalidation := [MemoryUpserted (demo_mid 1) 5; MemoryDeleted (demo_mid 2) 6].

Lemma demo_generations_left : generations_left demo_local.2.
Proof. apply generations_left_test. vm_compute. reflexivity. Qed.
Lemma demo_room_in_am : room_in_am demo_local.2.
Proof. apply Nat.ltb_lt. vm_compute. reflexivity. Qed.



Definition demo_env : Env (T:=HandleIndex) (S:=Store) :=
  mkEnv (λ _, demo_clk) (λ _, demo_free) (λ _, demo_backend).

Definition demo_writer : Writer (H:=DemoHeap) (T:=HandleIndex) := mkWriter demo_local.2 demo_local.1 [] [] 0.
Definition demo_batches : list (list (CacheWrite (T:=HandleIndex))) :=
  [[ApplyAcknowledged (VisibilityAdvance 5) 1; Barrier 2]; [Evict "other"; ApplyBatchAcknowledged demo_burst 3]].

(** Three senders in two batches. *)
Lemma senders_answered_once_witness :
  demo_batches ≠ [] ∧ (answered <$> w_replies (run demo_env demo_batches demo_writer)) ≡ₚ [1; 2; 3]%nat ∧
  w_pending (run demo_env demo_batches demo_writer) = [].
Proof.
  destruct (senders_answered_once demo_env demo_batches demo_writer) as [Ha Hp].
  assert (demo_batches ≠ []) as Hne by discriminate. specialize (Hp Hne).
  split_and!; [exact Hne| |exact Hp]. rewrite Hp, app_nil_r in Ha. exact Ha.
Defined.

(** ** Reads *)

Lemma point_reads_exact_witness :
  graph_of "acme" demo_local.2 = Some demo_snap ∧ snap_ok demo_snap ∧
  (∀ m, cache_get_memory "acme" (demo_mid 2) demo_vc demo_local.2 = Some m ↔
        row_table demo_snap !! demo_mid 2 = Some m ∧ memory_visible m demo_vc = true) ∧
  ∃ m, superseded_by "acme" (demo_mid 2) demo_vc [mkRelKindId 10] demo_local.2 = Some m ∧
       supersedes [mkRelKindId 10] demo_vc demo_snap (demo_mid 2) m.
Proof.
  destruct (point_reads_exact "acme" (demo_mid 2) demo_vc [mkRelKindId 10] demo_local.2 demo_snap
    demo_graph_of demo_snap_ok) as [H1 H2].
  split_and!; [exact demo_graph_of|exact demo_snap_ok|exact H1|].
  assert (match superseded_by "acme" (demo_mid 2) demo_vc [mkRelKindId 10] demo_local.2 with
          | Some _ => true | None => false end = true) as E by (vm_compute; reflexivity).
  destruct (superseded_by _ _ _ _ _) as [m|]; [|discriminate].
  exists m. split; [reflexivity|exact H2].
Defined.

Definition demo_spec : TraversalSpec := mkTraversalSpec Both [] 2 10 demo_vc None.

(** From the first row the traversal reaches the second. *)
Lemma traverse_exact_witness :
  row_table demo_snap !! demo_mid 1 = Some (demo_memory 1 Project) ∧
  ∃ out, cache_traverse "acme" (demo_mid 1) demo_spec demo_local.2 = Some out ∧
    m_id <$> out = [demo_mid 2] ∧
    ∃ k, Z.of_nat k ≤ 2 ∧ within demo_snap demo_spec (demo_mid 1) k (demo_mid 2).
Proof.
  assert (row_table demo_snap !! demo_mid 1 = Some (demo_memory 1 Project)) as Hrow
    by (vm_compute; reflexivity).
  assert (memory_visible (demo_memory 1 Project) (ts_visibility_ctx demo_spec) = true) as Hv
    by (vm_compute; reflexivity).
  destruct (traverse_exact "acme" (demo_mid 1) demo_spec demo_local.2 demo_snap _
    demo_graph_of demo_snap_ok Hrow Hv) as (out & Hout & _ & Hin & _).
  assert (fmap (M:=option) (fmap m_id) (cache_traverse "acme" (demo_mid 1) demo_spec demo_local.2) =
    Some [demo_mid 2]) as E by (vm_compute; reflexivity).
  rewrite Hout in E. injection E as E. split; [exact Hrow|]. exists out.
  split_and!; [exact Hout|exact E|]. destruct out as [|m [|? ?]]; [discriminate| |discriminate].
  destruct (Hin m ltac:(by left)) as (_ & _ & _ & k & Hk & Hw). injection E as E. rewrite E in Hw.
  exists k. split; [exact Hk|exact Hw].
Defined.

(** The demo graph's index is the index of its rows inserted in sequence. *)
Lemma demo_indexed_snap : indexed demo_snap.
Proof.
  set (ds := local_delta demo_rows [demo_edge 1 2 10] 3).
  assert (indexed (apply_all ds (empty 0 ([] : DemoHeap)).2 (empty 0 ([] : DemoHeap)).1).2) as Hi.
  { apply apply_all_indexed; [apply empty_spec|apply empty_indexed|]. vm_compute. repeat split. }
  eapply indexed_fields; [..|exact Hi]; vm_compute; reflexivity.
Qed.

Lemma in_take {A} (x : A) n l : x ∈ take n l → x ∈ l.
Proof. rewrite <-(take_drop n l) at 2. rewrite elem_of_app. by left. Qed.

(** Both rows are titled so; the better half of the answer is asked for. *)
Lemma search_exact_witness :
  graph_of "acme" demo_local.2 = Some demo_snap ∧ indexed demo_snap ∧
  plain (str_to_lowercase (as_bytes "TITL")) ∧
  ∃ out, search 1000 "acme" "TITL" 5 demo_vc demo_local.2 = Some out ∧ length out = 2%nat ∧
    ∀ m sc, (m, sc) ∈ out → row_table demo_snap !! m_id m = Some m ∧
      contains (str_to_lowercase (as_bytes "TITL")) (search_key m).
Proof.
  assert (plain (str_to_lowercase (as_bytes "TITL"))) as Hp.
  { split_and!; [discriminate|apply (bool_decide_unpack _); vm_compute; exact I..]. }
  destruct (search_exact 1000 "acme" "TITL" 5 demo_vc demo_local.2 demo_snap demo_graph_of demo_snap_ok
    demo_indexed_snap ltac:(reflexivity) Hp) as (all & Hout & _ & Hall).
  assert (length <$> search 1000 "acme" "TITL" 5 demo_vc demo_local.2 = Some 2%nat) as E
    by (vm_compute; reflexivity).
  split_and!; [exact demo_graph_of|exact demo_indexed_snap|exact Hp|].
  eexists. split; [exact Hout|]. rewrite Hout in E. injection E as E. split; [exact E|].
  intros m sc Hin. assert ((m, sc) ∈ all) as Hin'.
  { apply in_take in Hin. rewrite merge_sort_Permutation in Hin. apply in_take in Hin. exact Hin. }
  apply Hall in Hin' as (ix & _ & Hrow & _ & Hc & _). split; [exact Hrow|exact Hc].
Defined.
