(* ===== verification/ReasoningWitnesses.v ===== *)
(** * Witnesses of the reasoning engine

    The properties of the shipped packs, the rules and the passes, each applied at a concrete
    input where its hypotheses hold. *)

From stdpp Require Import gmap strings.
From S2P Require Import Prelude Ids Kernel Packs Ontology StorageTypes Graph Reads Leases.
From S2P Require Import Ingest Governed Cycles Storage ShippedPacks Rules Reasoning.
From S2P Require Import HarvestSpec ReasoningSpec PassSpec Demo.


(** Two hops of [DependsOn] over three memories. *)
Definition demo_hops : list Relationship := [demo_edge 1 2 0x80000000; demo_edge 2 3 0x80000000].
Definition demo_rows : list Memory := [demo_memory 1 Project; demo_memory 2 Project; demo_memory 3 Private].
Definition demo_harvest : Harvest :=
  mkHarvest (list_to_set (m_id <$> demo_rows)) (list_to_set (r_id <$> demo_hops)) demo_hops.

Lemma derived_rows_exact_witness :
  NoDup (m_id <$> demo_rows) ∧ NoDup (r_id <$> demo_hops) ∧
  ∃ onto pk out, storage_ontology = Some onto ∧ prime onto = Some pk ∧
    derived_rows onto pk 5000 demo_rows demo_hops
      (cap_affinities (evaluate pk (edge_facts demo_harvest) [] [] [])) = Some out ∧
    Z.of_nat (length out) ≤ MAX_DERIVED_RELATIONSHIPS.
Proof.
  assert (NoDup (m_id <$> demo_rows)) as H1 by (apply (bool_decide_eq_true_1 _); vm_compute; reflexivity).
  assert (NoDup (r_id <$> demo_hops)) as H2 by (apply (bool_decide_eq_true_1 _); vm_compute; reflexivity).
  split; [exact H1|]. split; [exact H2|].
  destruct (derived_rows_exact 5000 demo_rows demo_harvest [] [] [] H1 H2)
    as (onto & pk & out & Ho & Hp & Hd & _ & Hl & _).
  exists onto, pk, out. exact (conj Ho (conj Hp (conj Hd Hl))).
Defined.

Definition demo_reasoning_store : Store := put_graph demo_graph build.


(** Two memories that share an entity: each pass derives an edge either way. *)
#[local] Instance demo_reasoning : ReasoningStore Store := in_memory_reasoning demo_ontology.

Lemma reasoning_pass_exact_witness :
  graph_ok (graph demo_reasoning_store) ∧ index_complete (graph demo_reasoning_store) ∧
  accepted_pass [demo_mid 1] demo_reasoning_store = true ∧
  ∃ rows st', try_k_hop_reason demo_clk 2 [demo_mid 1] 2 None demo_reasoning_store = Some (st', Ok tt) ∧
    deduced (effective_hops 2 2) (seed_cohort [demo_mid 1]) (demo_clk 0) demo_reasoning_store rows ∧
    ingest st' = ingest demo_reasoning_store.
Proof.
  split; [exact demo_graph_ok|]. split; [exact demo_indexed|].
  assert (accepted_pass [demo_mid 1] demo_reasoning_store = true) as Ha by (vm_compute; reflexivity).
  split; [exact Ha|].
  destruct (reasoning_pass_exact demo_ontology demo_clk 2 [demo_mid 1] 2 None demo_reasoning_store
              demo_graph_ok demo_indexed) as (c & r & Hp).
  rewrite Ha in Hp. destruct Hp as (rows & Hd & E). eexists rows, _.
  split; [exact E|]. split; [exact Hd|reflexivity].
Defined.

Definition demo_cohort : list MemoryId := [demo_mid 1; demo_mid 2].

(** The store after a first durable wrap-up, with the graph as it was. *)
Definition demo_after (st : Store) : Store := put_ingest (ingest st) demo_reasoning_store.

Lemma demo_wrapup clk k_hop ms st :
  graph st = demo_graph → accepted_pass ms st = true →
  ∃ st', process_session_wrapup clk k_hop ms (Some "effect-1"%string) st = Some (st', Ok tt).
Proof.
  intros Hg Ha. unfold process_session_wrapup. cbn [fmap option_fmap option_map].
  destruct (pass_spec demo_ontology clk k_hop ms 3 (Some (durable_cohort_key "effect-1" ms)) st)
    as (c & r & Hp); [rewrite Hg; exact demo_graph_ok|rewrite Hg; exact demo_indexed|].
  rewrite Ha in Hp. destruct Hp as (rows & _ & E). eexists. exact E.
Qed.

Lemma durable_wrapup_once_witness :
  ∃ st' st2 r,
    process_session_wrapup demo_clk 3 demo_cohort (Some "effect-1"%string) demo_reasoning_store = Some (st', Ok tt) ∧
    process_session_wrapup (λ i, demo_clk (i + 50)) 2 (reverse demo_cohort) (Some "effect-1"%string) (demo_after st')
      = Some (st2, r) ∧ graph st2 = demo_graph ∧
    durable_cohort_key "effect-1" demo_cohort = durable_cohort_key "effect-1" (reverse demo_cohort).
Proof.
  assert (accepted_pass demo_cohort demo_reasoning_store = true) as Ha by (vm_compute; reflexivity).
  assert (accepted_pass (reverse demo_cohort) demo_reasoning_store = true) as Ha' by (vm_compute; reflexivity).
  destruct (demo_wrapup demo_clk 3 demo_cohort demo_reasoning_store eq_refl Ha) as [st' E].
  destruct (demo_wrapup (λ i, demo_clk (i + 50)) 2 (reverse demo_cohort) (demo_after st') eq_refl Ha')
    as [st2 E3].
  assert (Forall mid_ok demo_cohort) as Hm.
  { repeat constructor; simpl; lia. }
  assert (Forall mid_ok (reverse demo_cohort)) as Hm' by (by apply Forall_reverse).
  destruct (durable_wrapup_once demo_ontology demo_clk (λ i, demo_clk (i + 50)) 3 2 demo_cohort
    (reverse demo_cohort) "effect-1" "effect-1" demo_reasoning_store (demo_after st') st' st2 (Ok tt)
    demo_graph_ok demo_indexed demo_graph_ok demo_indexed Hm Hm' E (reflexivity _) E3) as [Hkey Hsame].
  assert (∀ m, m ∈ demo_cohort ↔ m ∈ reverse demo_cohort) as Hs by (intros m; by rewrite elem_of_reverse).
  exists st', st2, (Ok tt). split; [exact E|]. split; [exact E3|].
  split; [exact (proj1 (Hsame eq_refl Hs))|exact (proj2 Hkey (conj eq_refl Hs))].
Defined.
