(* ===== verification/IngestDemo.v ===== *)
(** * Concrete instances for the ingest service

    A server over the demo store with one registered source, and a signed batch of one memory and its
    replay.  The message encodings name the demo's messages by one byte, so that a whole submission
    evaluates. *)

From stdpp Require Import pretty strings gmap.
From S2P Require Import Prelude Ids Kernel Packs Ontology StorageTypes Graph Reads Leases.
From S2P Require Import Ingest Governed Cycles Storage Wire Entities IngestTypes Grouping IngestService.
From S2P Require Import IngestCommit Registration Demo FeedDemo.

(** ** Parameters *)

#[export] Instance demo_json : SerdeJson := {| json_to_string _ := ""%string |}.
#[export] Instance demo_regex : Regex := {| regex_is_match _ _ := false; captures_iter _ _ := [] |}.
#[export] Instance demo_from_timestamp : FromTimestamp.
Proof.
  refine {| from_timestamp s n := Some (s * 10 ^ 9 + n) |}. by intros s n t _ [= <-].
Defined.

(** A cache that never evicts. *)
#[export] Instance demo_lru `{Countable K} {V} : Lru K V.
Proof.
  refine {| lru := gmap K V; lru_new := ∅; lru_peek k c := c !! k; lru_get _ c := c;
            lru_put k v c := <[k := v]> c; lru_iter := map_to_list |}.
  - intros k. apply lookup_empty.
  - done.
  - intros k v c. apply lookup_insert_eq.
  - intros k k' v c Hne. left. by apply lookup_insert_ne.
  - intros k v c. apply elem_of_map_to_list.
Defined.

(** An encoding that names one message by the byte 2. *)
Definition known_message `{Countable M} (known : M) (ok : M → Prop) : Message M ok.
Proof.
  refine {| encode_to_vec m := if decide (m = known) then [2] else pos_digits (countable.encode m);
            decode l := if decide (l = [2]) then Ok known else demo_decode l |}.
  - intros m _. destruct (decide (m = known)) as [->|Hne]; [done|]. rewrite decide_False.
    + unfold demo_decode. by rewrite digits_pos_digits, countable.decode_encode.
    + intros E. by destruct (countable.encode m).
  - intros m _. destruct (decide (m = known)); [repeat constructor; done || lia|apply pos_digits_bytes].
Defined.

(** The registration message, which FeedDemo.v has no use for. *)
#[global] Instance PbProjectionField_eq_dec : EqDecision PbProjectionField.
Proof. solve_decision. Defined.
#[global] Instance PbProjectionField_countable : Countable PbProjectionField.
Proof.
  solve_record_countable (λ f, (pf_source_field f, pf_memory_type f, pf_kind f))
    (λ '(a, b, c), mkPbProjectionField a b c).
Defined.
#[global] Instance PbSourceColumn_eq_dec : EqDecision PbSourceColumn.
Proof. solve_decision. Defined.
#[global] Instance PbSourceColumn_countable : Countable PbSourceColumn.
Proof. solve_record_countable (λ f, (sc_name f, sc_data_type f)) (λ '(a, b), mkPbSourceColumn a b). Defined.
#[global] Instance PbProjectionBounds_eq_dec : EqDecision PbProjectionBounds.
Proof. solve_decision. Defined.
#[global] Instance PbProjectionBounds_countable : Countable PbProjectionBounds.
Proof.
  solve_record_countable (λ b, (pj_max_rows_per_window b, pj_max_rows_per_run b, pj_max_graph_share_percent b))
    (λ '(a, b, c), mkPbProjectionBounds a b c).
Defined.
#[global] Instance PbProjectionDescriptor_eq_dec : EqDecision PbProjectionDescriptor.
Proof. solve_decision. Defined.
#[global] Instance PbProjectionDescriptor_countable : Countable PbProjectionDescriptor.
Proof.
  solve_record_countable (λ p, (pj_selector p, pj_fields p, pj_source_schema p, pj_mapping_version p, pj_bounds p,
      pj_last_snapshot_id p)) (λ '(a, b, c, d, e, f), mkPbProjection a b c d e f).
Defined.
#[global] Instance PbRegisterSource_eq_dec : EqDecision PbRegisterSource.
Proof. solve_decision. Defined.
#[global] Instance PbRegisterSource_countable : Countable PbRegisterSource.
Proof.
  solve_record_countable (λ r, (rg_org_id r, rg_source_uri r, rg_producer_id r, rg_ceiling r, rg_source_flavor r,
      rg_producer r, rg_producer_kind r, rg_projection r, rg_default_rights r))
    (λ '(a, b, c, d, e, f, g, h, i), mkPbRegisterSource a b c d e f g h i).
Defined.

(** ** A batch *)

Definition demo_note : PbMemoryDraft :=
  mkPbMemoryDraft "k1" "" "solution" "title" "content" [] 2 None None None None.
#[export] Instance note_message : Message PbMemoryDraft memory_draft_ok := known_message demo_note _.

Definition demo_unsigned_batch (sum : string) : PbIngestBatch :=
  mkPbIngestBatch "acme" "repo://x" "p1" "b1" "1" (fingerprint demo_ontology) 2 sum None None None [demo_note] []
    (Some (mkPbProducer "n1" "a1" "" [] None)).
Definition demo_sum : string := Eval vm_compute in canonical_checksum (demo_unsigned_batch "").
#[export] Instance batch_message : Message PbIngestBatch batch_ok := known_message (demo_unsigned_batch demo_sum) _.

Definition demo_submission : PbIngestBatch := prepare_batch demo_hmac_key (demo_unsigned_batch "").

(** ** A server *)

Definition demo_source : SourceEntry := mkSourceEntry Team CodingAgent "" None None.
Definition demo_source_key : SourceKey := ("acme", "repo://x", "p1")%string.
Definition demo_server : IngestServer :=
  mkIngestServer demo_ontology (Some demo_hmac_key) None None None (mkExtractor "acme") ∅ false false false false [].
Definition demo_shared : Shared := mkShared _ _ (lru_put demo_source_key demo_source lru_new) lru_new [] ∅ 4.
Definition demo_ambient : Ambient :=
  mkAmbient 1000 (λ i, 1000 + Z.of_nat i) (λ i, demo_mid (10 + Z.of_nat i)) 1000 1000 demo_clk demo_clk.
Definition demo_store : Store := put_graph demo_graph build.

#[export] Instance demo_ingest : IngestStore Store := in_memory_ingest demo_ontology [].
