(* ===== verification/IngestWitnesses.v ===== *)
(** * Witnesses of the ingest service

    The properties of submission, of the server's memory, of registration, of the reindex and of the
    effect worker that have hypotheses, each applied at a concrete input where they hold. *)

From stdpp Require Import pretty strings gmap.
From S2P Require Import Prelude Ids Kernel Packs Ontology StorageTypes Graph Reads Leases.
From S2P Require Import Ingest Governed Cycles Storage Wire Entities IngestTypes Grouping IngestService.
From S2P Require Import IngestCommit IngestSpec CommitSpec SubmitSpec RingSpec Registration RegistrationSpec.
From S2P Require Import Trigger Effects Demo FeedDemo IngestDemo.

(** ** Submission *)

Definition demo_ack : IngestAck := mkIngestAck "b1" 1 0 [] 5 [].
Definition demo_submit : Shared * Store * list DemandEvent * result IngestAck Status :=
  submit demo_server None demo_submission demo_ambient demo_shared demo_store.
Definition demo_preflight : Shared * Store * list DemandEvent * result IngestAck Status :=
  preflight demo_server None demo_submission demo_ambient demo_shared demo_store.

Lemma split4 {A B C D} (x : A * B * C * D) : x = (x.1.1.1, x.1.1.2, x.1.2, x.2).
Proof. by destruct x as [[[? ?] ?] ?]. Qed.
Lemma demo_submit_ack : demo_submit.2 = Ok demo_ack.
Proof. vm_compute. reflexivity. Qed.

Lemma submit_sound_witness :
  ∃ w' st' ev, submit demo_server None demo_submission demo_ambient demo_shared demo_store = (w', st', ev, Ok demo_ack) ∧
    (refused demo_submission demo_shared w' demo_store st' (Ok demo_ack)
     ∨ carried demo_server None demo_submission demo_ambient demo_shared w' demo_store st' (Ok demo_ack)).
Proof.
  pose proof (split4 demo_submit) as E. rewrite demo_submit_ack in E. unfold demo_submit at 1 in E.
  exists demo_submit.1.1.1, demo_submit.1.1.2, demo_submit.1.2. split; [exact E|].
  exact (submit_sound _ _ _ _ _ _ _ _ _ _ E).
Defined.

Lemma preflight_agrees_witness :
  lru_peek (ack_key demo_submission) (seen_batches demo_shared) = None ∧
  quiet demo_shared demo_preflight.1.1.1 ∧ demo_submit.1.2 = demo_preflight.1.2.
Proof.
  assert (lru_peek (ack_key demo_submission) (seen_batches demo_shared) = None) as H1 by (vm_compute; reflexivity).
  split; [exact H1|].
  destruct (preflight_agrees demo_server None demo_submission demo_ambient demo_shared demo_store
    _ _ _ _ _ _ _ _ H1 (split4 demo_preflight) (split4 demo_submit)) as (Hq & _ & He & _).
  exact (conj Hq He).
Defined.


Lemma submit_bounded_witness :
  remembered demo_shared ∧ remembered demo_submit.1.1.1 ∧
  submit_permits demo_submit.1.1.1 = submit_permits demo_shared.
Proof.
  assert (remembered demo_shared) as Hr.
  { split; [apply Nat.le_0_l|apply map_Forall_empty]. }
  split; [exact Hr|].
  destruct (submit_bounded demo_server None demo_submission demo_ambient demo_shared demo_store _ _ _ _
    (split4 demo_submit) Hr) as (H1 & H2 & _). exact (conj H1 H2).
Defined.

(** A source with a projection of at most two rows a window. *)
Definition demo_projection : StoredProjection :=
  mkStoredProjection "t" [] [("id", "int")] (projection_schema_hash [("id", "int")]) 1 2 0.
Definition demo_projected : SourceEntry := mkSourceEntry Team CodingAgent "" (Some demo_projection) None.
Definition demo_shared_p : Shared := put_sources (lru_put demo_source_key demo_projected lru_new) demo_shared.

Lemma projection_enforced_witness :
  ∃ w' source, registered_source demo_server demo_submission demo_shared_p = (w', Ok source) ∧
    se_projection source = Some demo_projection ∧
    Z.of_nat (length (pb_memories demo_submission)) ≤ 2.
Proof.
  assert ((registered_source demo_server demo_submission demo_shared_p).2 = Ok demo_projected) as E2
    by (vm_compute; reflexivity).
  pose proof (surjective_pairing (registered_source demo_server demo_submission demo_shared_p)) as E.
  rewrite E2 in E.
  eexists _, demo_projected. split; [exact E|]. split; [reflexivity|].
  destruct (projection_enforced _ _ _ _ _ demo_projection E eq_refl) as [H _].
  apply H. reflexivity.
Defined.

(** ** The ring *)

Definition demo_vector : Embedding := mkEmbedding (mkEmbeddingModel "m" "1") [f32_one].
Definition demo_embedded (n : Z) (v : Visibility) : Memory := m_set_embedding (Some demo_vector) (demo_memory n v).
Definition demo_ring : Shared :=
  put_recent (option_list (ring_entry "acme" (demo_embedded 1 Project))) demo_shared.
Definition demo_hint : SimilarToHint :=
  default (mkSimilarToHint "" "" "" "")
    (head (similar_to_hints "acme" [("k2"%string, demo_embedded 2 Project)] demo_ring).2).

Lemma hints_readable_witness :
  demo_hint ∈ (similar_to_hints "acme" [("k2"%string, demo_embedded 2 Project)] demo_ring).2 ∧
  ∃ e m, ringed demo_ring "acme" e ∧ existing_title demo_hint = re_title e ∧
    (sh_draft_key demo_hint, m) ∈ [("k2"%string, demo_embedded 2 Project)].
Proof.
  assert ((similar_to_hints "acme" [("k2"%string, demo_embedded 2 Project)] demo_ring).2 = [demo_hint]) as E
    by (vm_compute; reflexivity).
  assert (demo_hint ∈ (similar_to_hints "acme" [("k2"%string, demo_embedded 2 Project)] demo_ring).2) as Hin
    by (rewrite E; left).
  split; [exact Hin|].
  destruct (hints_readable "acme" demo_ring [("k2"%string, demo_embedded 2 Project)] _ _ demo_hint demo_vc
    (surjective_pairing _) Hin) as (e & m & H1 & H2 & H3 & _).
  exists e, m. exact (conj H1 (conj H2 H3)).
Defined.

(** ** The reindex *)

Definition demo_embedder : Embedder := mkEmbedder (λ texts, Ok ((λ _, [f32_one]) <$> texts)) "m" "1".
Definition demo_indexing : IngestServer :=
  mkIngestServer demo_ontology None None None (Some demo_embedder) (mkExtractor "acme") ∅ false false false false [].
Definition demo_current : list Memory := memory_history demo_graph (demo_mid 1).

Lemma reindex_chunk_exact_witness :
  ∃ st' e u p, reindex_chunk demo_indexing (1000, demo_clk) demo_current "admin" demo_store = (st', Ok (e, u, p)) ∧
    e + u + p = 1 ∧ e = 1.
Proof.
  assert (∃ st', reindex_chunk demo_indexing (1000, demo_clk) demo_current "admin" demo_store = (st', Ok (1, 0, 0)))
    as [st' E].
  { assert ((reindex_chunk demo_indexing (1000, demo_clk) demo_current "admin" demo_store).2 = Ok (1, 0, 0)) as E
      by (vm_compute; reflexivity).
    eexists. rewrite <-E. apply surjective_pairing. }
  exists st', 1, 0, 0. split; [exact E|].
  destruct (reindex_chunk_exact _ _ _ _ _ _ _ _ _ E) as (Hs & _).
  assert (Z.of_nat (length demo_current) = 1) as Hl by (vm_compute; reflexivity).
  rewrite Hl in Hs. exact (conj Hs eq_refl).
Defined.

(** ** Registration *)

Definition demo_unsigned_registration : PbRegisterSource :=
  mkPbRegisterSource "acme" "repo://y" "p2" 2 "" (Some (mkPbProducer "n1" "a1" "" [] None)) 1 None None.
#[local] Instance registration_message : Message PbRegisterSource registration_ok :=
  known_message demo_unsigned_registration _.
Definition demo_registration : PbRegisterSource := sign_registration demo_hmac_key demo_unsigned_registration.
Definition demo_register : Shared * Disk * Store * result Visibility Status :=
  register_source demo_server None demo_registration true 1000 demo_clk demo_shared None demo_store.


Lemma restart_fails_closed_witness :
  (∀ k : SourceKey, lru_peek (V:=SourceEntry) k lru_new = None) ∧
  ∀ batch w1, ∃ ack,
    registered_source (with_registry_error "source registry is malformed" demo_server) batch w1 = (w1, Err ack).
Proof.
  assert (∀ k : SourceKey, lru_peek (V:=SourceEntry) k lru_new = None) as Hn by (intros k; apply lru_peek_new).
  split; [exact Hn|]. intros batch w1.
  destruct (restart_fails_closed Malformed demo_server (put_sources lru_new demo_shared) _ _ _ eq_refl Hn) as [_ H].
  destruct (H (or_introl eq_refl)) as [_ H2]. exact (H2 batch w1).
Defined.

(** ** The effect worker *)

Section effects.
#[local] Existing Instance in_memory_outbox.
#[local] Existing Instance local_sink.
#[local] Instance steady_worker : ReasoningWorker unit := {| rw_wrapup _ _ r := (r, Ok tt) |}.

Definition demo_claimed : ClaimedPostIngestEffect := mkClaimed (demo_effect "b" [demo_mid 1]) 1 false.
Definition demo_world : World (S:=IngestState) (D:=Dreams) (R:=unit) :=
  mkWorld ((claim_ingest_effect 0 "t1" CLAIM_LEASE_MS (commit_effect (demo_effect "b" [demo_mid 1]) no_ingest)).1)
    (Some (DreamsEngine_new DreamsTrigger_default)) (Some tt).
Definition demo_delivery : World (S:=IngestState) (D:=Dreams) (R:=unit) * Phase :=
  run_delivery "t1" demo_claimed (progress 1 9) (Deltas (region_deltas (ce_effect demo_claimed))) demo_world.

Lemma acknowledged_told_witness :
  acked "b" (storage demo_world) = false ∧ acked "b" (storage demo_delivery.1) = true ∧
  wrapped_up demo_claimed (reasoning demo_world).
Proof.
  assert (acked "b" (storage demo_world) = false) as H1 by (vm_compute; reflexivity).
  assert (acked "b" (storage demo_delivery.1) = true) as H2 by (vm_compute; reflexivity).
  split; [exact H1|]. split; [exact H2|].
  exact (proj2 (acknowledged_told "t1" demo_claimed (progress 1 9) demo_world _ _
    (surjective_pairing demo_delivery) H1 H2)).
Defined.
End effects.
