(* ===== verification/SdkWitnesses.v ===== *)
(** * Witnesses of the adapter SDK *)

From stdpp Require Import pretty strings gmap.
From S2P Require Import Prelude Ids Kernel Packs Ontology StorageTypes Graph Reads Leases.
From S2P Require Import Ingest Governed Cycles Storage Wire Entities IngestTypes Grouping IngestService.
From S2P Require Import IngestCommit IngestSpec Registration Split LocalRules LocalSpec Demo FeedDemo IngestDemo.

