(* ===== verification/DrainWitnesses.v ===== *)
(** * Witnesses of the drain *)

From stdpp Require Import pretty strings gmap.
From S2P Require Import Prelude Ids Kernel Packs Ontology StorageTypes Graph Reads Leases.
From S2P Require Import Ingest Governed Cycles Storage Wire Entities IngestTypes Grouping IngestService.
From S2P Require Import IngestCommit Registration IngestSpec CommitSpec SubmitSpec Split LocalRules Session.
From S2P Require Import SessionSpec Wal Drain DrainSpec DrainServer Materialize MaterializeSpec Demo FeedDemo IngestDemo.

(** ** Parameters *)

(** A log record of one bare team draft: the state, then the other fields. *)
Definition bare_context (at_ : DateTime) : MemoryContext :=
  mkMemoryContext at_ None None None None None None None [] [] [] [] None None None [] JNull.
Definition bare_entry (s : WalState)
    (t : Z * string * (Z * string * string * DateTime) * list MemoryId * string * list string * string * string *
         list (list string)) : WalEntry :=
  let '(l, session, (mt, title, content, at_), ids, b, ks, org, user, tags) := t in
  mkWalEntry l session [mkMemoryDraft mt title content None Team (bare_context at_) [] None] ids s b ks org user tags.
Definition state_code (s : WalState) : list Z := match s with Pending => [0] | Failed => [1] | Synced n => [2; n] end.
Definition bare_digits l session mt title content at_ ids b ks org user tags : list Z :=
  pos_digits (countable.encode
    ((l, session, (mt, title, content, at_), ids, b, ks, org, user, tags)
      : Z * string * (Z * string * string * DateTime) * list MemoryId * string * list string * string * string *
        list (list string))).
Definition bare_to_vec (e : WalEntry) : result (list Z) string :=
  match e with
  | mkWalEntry l session [mkMemoryDraft mt title content None Team (mkMemoryContext at_ None None None None None
      None None [] [] [] [] None None None [] JNull) [] None] ids s b ks org user tags =>
      Ok (state_code s ++ bare_digits l session mt title content at_ ids b ks org user tags)
  | _ => Err "entry"%string
  end.
Definition bare_from (s : WalState) (l : list Z) : result WalEntry string :=
  match countable.decode (digits_pos l) with Some t => Ok (bare_entry s t) | None => Err "bad entry"%string end.
Definition bare_from_slice (l : list Z) : result WalEntry string :=
  match l with
  | 0 :: l => bare_from Pending l
  | 1 :: l => bare_from Failed l
  | 2 :: n :: l => bare_from (Synced n) l
  | _ => Err "bad entry"%string
  end.
#[local] Instance bare_json : WalJson.
Proof.
  refine {| entry_to_vec := bare_to_vec; entry_from_slice := bare_from_slice |}.
  intros e js E. unfold bare_to_vec in E. repeat (case_match; try done). injection E as <-. subst.
  unfold bare_digits. destruct we_state; simpl; unfold bare_from; by rewrite digits_pos_digits, countable.decode_encode.
Defined.

(** ** A log with one offline entry *)

Definition offline_entry : WalEntry :=
  bare_entry Pending (0, "s1", (0, "title", "content", 1000), [demo_mid 1], "b1", ["k1"], "acme", "bob", [[]])%string.
Definition offline_wal : Wal := (insert_entry_locked offline_entry wal_open).1.
Definition offline_row : WalEntry := set_local_lsn 1 offline_entry.

(** ** The node it is drained to *)

Definition offline_draft : PbMemoryDraft := Eval vm_compute in
  match rebuild_batch demo_ontology (fingerprint demo_ontology) "acme" offline_row with
  | Some (Ok batch) => default demo_note (pb_memories batch !! 0%nat)
  | _ => demo_note
  end.
#[local] Instance offline_note_message : Message PbMemoryDraft memory_draft_ok := known_message offline_draft _.
Definition offline_batch (sum : string) : PbIngestBatch :=
  mkPbIngestBatch "acme" "session://s1" "session-wrapup" "b1" "session-wrapup:1.0.0" (fingerprint demo_ontology) 3 sum
    None None None [offline_draft] [] (Some (mkPbProducer "" "" "" [] None)).
Definition offline_sum : string := Eval vm_compute in canonical_checksum (offline_batch "").
#[local] Instance offline_batch_message : Message PbIngestBatch batch_ok := known_message (offline_batch offline_sum) _.
Definition offline_registration : PbRegisterSource :=
  mkPbRegisterSource "acme" "session://s1" "session-wrapup" 3 "session" (Some (mkPbProducer "n1" "" "" [] None)) 1 None None.
#[local] Instance offline_registration_message : Message PbRegisterSource registration_ok :=
  known_message offline_registration _.
#[local] Instance offline_store : IngestStore Store := in_memory_ingest demo_ontology [].

(** The first call does not arrive, and the answer of the third is lost. *)
Definition offline_setting : Setting :=
  mkSetting demo_server None (λ _, []) (λ _, demo_ambient) (λ _, true)
    (λ n, match n with 0%nat => Unreached | 2%nat => AnswerLost | _ => Answered end) (λ _, ""%string).
Definition offline_node : Node :=
  mkNode (mkShared _ _ lru_new lru_new [] ∅ 4) None demo_store 0.
#[local] Instance offline_backend : Backend Node := node_backend demo_ontology [] offline_setting.

Definition offline_drain (others : list (Wal * Node → Wal * Node)) : Wal * Node * Drained :=
  drain_all demo_hmac_key (fingerprint demo_ontology) "acme" demo_ontology "n1" others offline_wal offline_node.

Definition offline_pauses : list (Wal * Node → Wal * Node) := [λ x, x; λ x, x].

Lemma pause_harmless (key fp : list Z) (org : string) (o : Ontology) (sound : Node → Prop) settled : harmless key fp org o sound settled (λ x, x).
Proof.
  intros W b log W' b' Hr Hd Hs [= <- <-]. split; [exact Hs|]. split; [done|]. exists log. split; [exact Hr|].
  split; [exact Hd|]. exists log, []. split; [by rewrite app_nil_r|]. by apply Forall2_same_length_lookup_2; [|intros i x y -> [= ->]; left].
Qed.

Lemma offline_fits s : entry_fits (set_state s offline_row).
Proof. destruct s; (eexists; split; [reflexivity|]); vm_compute; reflexivity. Qed.

Lemma offline_repr : repr offline_wal [offline_row] ∧ drainable [offline_row].
Proof.
  assert (repr wal_open [] ∧ sane wal_open) as [Hr Hs].
  { split; [split; [reflexivity|constructor|constructor]|unfold sane; vm_compute; reflexivity]. }
  pose proof (insert_entry_repr wal_open [] offline_entry Hr Hs) as Hi.
  assert ((insert_entry_locked offline_entry wal_open).2 = Ok 1) as E by (vm_compute; reflexivity).
  unfold offline_wal. destruct (insert_entry_locked offline_entry wal_open) as [W [l|]]; [|discriminate E].
  destruct Hi as (_ & _ & Hr' & _). split; [exact Hr'|]. constructor; [|constructor].
  split; [exact offline_fits|]. intros _. split; [reflexivity|discriminate].
Qed.

Definition offline_end : Wal * Node * Drained := offline_drain offline_pauses.


(** ** The session of the offline entry *)

Definition session_pack : PackDef :=
  mkPackDef "core" (mkPackVersion 1 0 0) (mkPackVersion 1 0 0) ["solution"; "Conversation"] ["tool"]
    [demo_kind 0 "SOLVES" None; demo_kind 1 "FIXES" None; demo_kind 2 "CAUSES" None; demo_kind 3 "InSession" None]
    [] [] [] [] [].
Definition session_ontology : Ontology := ontology_of [session_pack].
Definition session_server : IngestServer :=
  mkIngestServer session_ontology (Some demo_hmac_key) None None None (mkExtractor "acme") ∅ false false false false
    grouping_rules.
Definition session_batch : PbIngestBatch := offline_batch "".
Definition session_members : list Memory := served_memories offline_row.

