(* ===== verification/DreamsWitnesses.v ===== *)
(** * Witnesses of the Dreams cycle *)

From stdpp Require Import pretty strings gmap.
From S2P Require Import Prelude Ids Kernel Packs Ontology StorageTypes Graph Reads Leases Ingest Governed Cycles.
From S2P Require Import Storage Interleaving IngestCommit ShippedPacks EntityResolution Mcr2 Consolidation.
From S2P Require Import ConsolidationSpec Discovery DreamsCycle DreamsInv DreamsSpec Trigger DreamsLoop Demo.

(** A region of two pairs of memories with the same vectors. *)
#[export] Instance demo_ln : Ln := {| f64_ln x := f64_sub x f64_one |}.

Definition demo_vector (n : Z) : list f32 := [f32_of_Z n; f32_of_Z (1 - n)].
Definition demo_dream (n : Z) (v : Z) : Memory :=
  m_set_embedding (Some (mkEmbedding (mkEmbeddingModel "bge" "1") (demo_vector v))) (demo_memory n Project).

Definition demo_rows : Graph :=
  (upsert_batch demo_ontology demo_clk [demo_dream 1 1; demo_dream 2 1; demo_dream 3 0; demo_dream 4 0] [] empty_graph).1.

Definition demo_dreamer : Engine := mkEngine None (f32_hundredths 5) (f32_hundredths 5) false "node" (600 * 10 ^ 9).
Definition demo_dream_region : RegionKey := mkRegionKey "acme" "apollo" 0.
Definition demo_cycle : Cycle := mkCycle (put_graph demo_rows build) (CycleJournal_new "") false ∅ 0 0 [].

(** Call [n] meets [fate]; another writer commits a row before it. *)
Definition demo_script (n : nat) (fate : Fate) (i : nat) : Event :=
  mkEvent demo_clk (if (i =? n)%nat then [WMemory (demo_memory 7 Project)] else []) id id
    (if (i =? n)%nat then fate else Runs).
Definition demo_uuid (i : nat) : string := "uuid-" +:+ pretty i.

Definition demo_run (n : nat) (fate : Fate) : Cycle * Outcome (option ConsolidationResult) :=
  try_consolidate_inner demo_ontology (demo_script n fate) demo_clk demo_uuid demo_dreamer demo_dream_region None
    demo_cycle.

Definition demo_dream_key : LeaseKey := dreams_key demo_dream_region.
Lemma demo_sound : sound demo_dream_key (cy_store demo_cycle).
Proof.
  apply sound_fresh; [|reflexivity]. eapply graph_steps_ok; [apply upsert_batch_steps|apply graph_ok_empty].
  apply room_le_bound; simpl; lia.
Qed.

(** The renewal is lost after the first merge: the cycle fails, and its rollback owned a row. *)
Lemma demo_rolled_back : (demo_run 6 RenewalLost).2 = Failed RenewalFailed.
Proof. reflexivity. Qed.


(** A queue with the region of the cycle in it. *)
Definition demo_fired : Dreams :=
  on_writes 0 demo_dream_region 2 1 (DreamsEngine_new (mkTrigger 2 5 30 0)).

Lemma turn_exact_witness : ∃ c' d',
  run_turn demo_ontology (demo_script 6 RenewalLost) demo_clk demo_uuid demo_dreamer None demo_fired demo_cycle
    = (c', Done (d', Some (Err RenewalFailed))) ∧
  weight false (counter_of d' demo_dream_region) = 2 ∧
  tracks demo_dream_key (logical demo_dream_key (cy_store demo_cycle)) ∅ c'.
Proof.
  assert (engine_ok (demo_fired, None)) as Hok.
  { apply on_writes_ok; [lia..| |apply new_ok]. intros r b. destruct b; discriminate. }
  assert (take_region demo_fired = Some (demo_dream_region, mkCounters 2 1 0,
    default demo_fired (snd <$> take_region demo_fired))) as Ht by reflexivity.
  pose proof (turn_exact demo_ontology (demo_script 6 RenewalLost) demo_clk demo_uuid demo_dreamer None demo_fired
    demo_dream_region _ _ demo_cycle Hok Ht demo_sound eq_refl) as Hx.
  set (p := run_turn _ _ _ _ _ _ _ _) in *.
  assert (match p.2 with Done (_, Some (Err RenewalFailed)) => True | _ => False end) as Hp by exact I.
  clearbody p. destruct p as [c' [[d' [[?|[]]|]]| | | |]]; try contradiction Hp. exists c', d'.
  destruct Hx as (_ & Hw & Htr). split; [reflexivity|]. split; [|exact Htr].
  exact (Hw demo_dream_region false).
Defined.

(** A lease of nine minutes whose renewals are answered once and then no more. *)
Definition demo_owner : OwnerLease := mkOwnerLease demo_dream_key "in-memory" 1 0 (540 * 10 ^ 9) 0 "token".
Definition demo_owned : LeaseTable :=
  mkLeaseTable {[demo_dream_key := mkInMemoryLease "token" (540 * 10 ^ 9)]} ∅.

Lemma renewal_reserve_witness :
  let l := demo_owner in
  let down := mkAttempt (10 ^ 9) (Some (Backend "unreachable"%string)) in
  ∃ x, spawn_lease_renewal (600 * 10 ^ 9) l 0 demo_owned ([mkAttempt 0 None; down] ++ replicate 6 down) = inr x.
Proof.
  intros l down.
  assert (Forall (prompt (540 * 10 ^ 9)) ([mkAttempt 0 None; down] ++ replicate 6 down)) as Hp.
  { repeat (apply List.Forall_cons; [split; [discriminate|reflexivity]|]). apply List.Forall_nil. }
  pose proof (renewal_reserve (600 * 10 ^ 9) l demo_owned [mkAttempt 0 None; down] (replicate 6 down)) as Hr.
  cbv zeta in Hr. specialize (Hr ltac:(vm_compute; discriminate) eq_refl Hp).
  destruct (spawn_lease_renewal (600 * 10 ^ 9) l (acquired_at l) demo_owned [mkAttempt 0 None; down]) as [[[now s] T]|x] eqn:E.
  - destruct Hr as (_ & _ & Hr). apply Hr; [reflexivity|]. apply Forall_replicate. discriminate.
  - vm_compute in E. discriminate E.
Defined.

(** A working set of three rows with the same vector. *)
Definition demo_set : RegionWorkingSet :=
  mkWorkingSet (by_id m_id [demo_dream 1 1; demo_dream 2 1; demo_dream 3 1])
    (by_id r_id [demo_edge 2 3 0]).
Definition demo_caller : VisibilityContext := mkVisibilityContext "bob" "acme" ["apollo"] [] Public.

Lemma demo_keyed : keyed demo_set.
Proof.
  split; apply map_Forall_lookup, (bool_decide_unpack _); vm_compute; exact I.
Qed.
Lemma demo_tenant id m : ws_memories demo_set !! id = Some m → tenant_id (context m) = Some "acme"%string.
Proof.
  revert id m. apply map_Forall_lookup, (bool_decide_unpack _). vm_compute. exact I.
Qed.


Lemma merge_detaches_witness : ∃ j' m updates ids,
  plan_merge 500 (mkMergeCandidate (demo_mid 1) (demo_mid 2) f32_one f32_one) demo_set (CycleJournal_new "dream:1")
    = Some (j', m, updates, ids) ∧
  (∀ id r, ws_relationships (apply_relationship_writes updates (insert_memory m demo_set)) !! id = Some r →
           touches (demo_mid 2) r = false) ∧
  m = absorbed 500 (demo_mid 1) (demo_dream 2 1).
Proof.
  set (c := mkMergeCandidate _ _ _ _).
  destruct (plan_merge 500 c demo_set (CycleJournal_new "dream:1")) as [[[[j' m] updates] ids]|] eqn:E.
  - exists j', m, updates, ids. split; [reflexivity|].
    destruct (merge_detaches 500 c demo_set _ j' m updates ids demo_keyed ltac:(discriminate) E) as ((m0 & Hm0 & _ & Hm & _) & Hd & _).
    split; [exact Hd|]. assert (m0 = demo_dream 2 1) as -> by (vm_compute in Hm0; injection Hm0 as <-; reflexivity). exact Hm.
  - assert (match plan_merge 500 c demo_set (CycleJournal_new "dream:1") with Some _ => True | None => False end) as Hx
      by exact I.
    rewrite E in Hx. contradiction Hx.
Defined.
